(* ===== verification/_CoqProject ===== *)
-Q . S2P
Prelude.v
KeyEncoding.v
Types.v
Rocks.v
IdTracker.v
JsonPath.v
NamedVectors.v
VectorStorage.v
Filters.v
PayloadStorage.v
Estimator.v
FloatBounds.v
TopK.v
Spaces.v
Text.v
FieldIndex.v
FieldIndexEnum.v
QueryOptimizer.v
VisitedPool.v
FieldIndexLaws.v
StructPayloadIndex.v
PayloadIndexSpec.v
PayloadIndexLaws.v
Segment.v
Histogram.v
HistogramSpec.v
NumericIndex.v
NumericSpec.v
NumericIndexSpec.v
NumericReload.v
NumericEstimate.v
NumericKind.v
NumericQuery.v
PlainIndex.v
SegmentSpec.v
SearchSpec.v
SegmentEntry.v
SegmentHolder.v
Requests.v
SearchAggregator.v
SegmentsSearcher.v
SearcherSpec.v
SearchMerge.v
Samples.v
SearchAll.v
HolderSpec.v
RetrieveSpec.v
ProxySegment.v
ProxySpec.v
ProxyScroll.v
ProxySearch.v
CollectionConfig.v
ConfigSpec.v
ShardReads.v
ShardSpec.v
Shards.v
Resolve.v
Operations.v
SegmentsUpdater.v
UpdaterSpec.v
ReplicaSet.v
ReplicaSpec.v
ReplicaOps.v
ReplicaReads.v
Collection.v
CollectionSpec.v
CollectionSearch.v
CollectionOps.v
ClusterSpec.v
ShardLog.v
FlushCells.v
Recovery.v
