(* ===== verification/Prelude.v ===== *)
(** * Verification of the Qdrant vector search engine

    Qdrant stores points.  A point has an id, a version (the number of the
    operation that last wrote it), named vectors and a JSON payload.  Points
    live in segments; a shard holds several segments and sends each update to
    the segment that has the point; a collection splits an update over its
    shards by a hash ring.  The source is three crates under [src/lib]:
    [segment], [collection] and [storage].

    ** How the code is modelled

    A Rust function is a Rocq function of the same name where the name is
    free.  [Result] is [result], with a third outcome [Panic] for a failed
    [unwrap], an index out of range or a reached [unimplemented].  Code that
    mutates its object is a state transformer [sm S E A := S → result E A * S]:
    the state after an error is part of the outcome, so a theorem can speak of
    what a failed operation leaves behind.  A function that cannot fail but can
    panic returns a [result] as well; its [Err] does not occur.  A release build
    is modelled: debug assertions are not evaluated.  [sm_wp m Q R s] says that [m] run
    in [s] does not panic, ends in [Q] when it succeeds and in [R] when it
    fails.  A trait is a class of its methods; what its users rely on is a
    second class of laws, proved for the implementations that are modelled.
    Code from outside the repository is a class with laws too ([RocksDB],
    [Bincode], [PayloadCodec], [GeoOps], [Simd], [RingLib], [JsonNumber]), and
    every theorem with such a hypothesis has a witness at a concrete instance.
    Locks are not modelled: an operation under its lock is one step, and where
    the order of such steps matters ([ShardLog.v], [Recovery.v]) they are the
    steps of a relation or the elements of a list of actions.

    ** The files

    - [Prelude.v]: results, state transformers and their proof rules, and the
      lemmas on lists, maps and sorting that the other files share.
    - [KeyEncoding.v]: [index/key_encoding.rs], order-preserving byte keys.
    - [Types.v], [Filters.v]: the data of [types.rs], payload merging, and the
      evaluation of filters ([payload_storage/query_checker.rs]).
    - [Rocks.v]: [common/rocksdb_wrapper.rs] over the class [RocksDB].
    - [IdTracker.v]: [id_tracker], ids against internal offsets.
    - [JsonPath.v]: [common/utils.rs], paths into payloads.
    - [NamedVectors.v]: [data_types].
    - [VectorStorage.v], [Spaces.v], [TopK.v]: [vector_storage] and [spaces].
    - [PayloadStorage.v]: [payload_storage].
    - [Estimator.v], [QueryOptimizer.v], [VisitedPool.v]: estimation and
      optimization of filters, and the lists of visited points.
    - [Text.v], [FieldIndex.v], [FieldIndexEnum.v], [FieldIndexLaws.v]:
      [index/field_index], the map index and the sum of all indexes.
    - [StructPayloadIndex.v], [PayloadIndexSpec.v], [PayloadIndexLaws.v]:
      [index/struct_payload_index.rs] and its correctness.
    - [Histogram.v], [HistogramSpec.v]: [field_index/histogram.rs].
    - [NumericIndex.v] with [NumericSpec.v], [NumericIndexSpec.v],
      [NumericKind.v], [NumericReload.v], [NumericEstimate.v] and
      [NumericQuery.v]: [field_index/numeric_index.rs] and
      [field_index/stat_tools.rs], the invariant of the key map and its
      histogram, the laws the payload index relies on, reloading, estimates
      and queries by range.
    - [Segment.v], [SegmentSpec.v]: [segment.rs] and its correctness.
    - [PlainIndex.v], [SearchSpec.v]: exact search.
    - [SegmentEntry.v]: the trait [SegmentEntry] and its laws.
    - [SegmentHolder.v], [HolderSpec.v]: [holders/segment_holder.rs].
    - [ProxySegment.v], [ProxySpec.v], [ProxyScroll.v]:
      [holders/proxy_segment.rs], its writes and its paged reads.
    - [Operations.v]: [operations] and [hash_ring.rs].
    - [SegmentsUpdater.v], [UpdaterSpec.v]: [segments_updater.rs].
    - [FloatBounds.v], [Requests.v], [SearchAggregator.v],
      [SegmentsSearcher.v]: the requests, the sampling and the batched search
      of [segments_searcher.rs]; [SearcherSpec.v], [SearchMerge.v],
      [SearchAll.v], [ProxySearch.v], [RetrieveSpec.v]: their correctness.
    - [CollectionConfig.v], [ConfigSpec.v]: [config.rs] and
      [operations/config_diff.rs].
    - [ShardLog.v], [FlushCells.v]: [wal.rs] and the workers of
      [update_handler.rs] that apply and flush, as a step relation over what
      flushing depends on in a segment, and why segments behave that way.
    - [Recovery.v]: updates of a local shard, its update worker and its
      recovery from the log.
    - [ShardReads.v], [ShardSpec.v], [Shards.v]: the reads of a local shard
      and the trait [ShardOperation] with its laws.
    - [Resolve.v]: [shards/resolve.rs], the answers of several replicas.
    - [ReplicaSet.v], [ReplicaReads.v]: [shards/replica_set.rs];
      [ReplicaSpec.v], [ReplicaOps.v]: its correctness.
    - [Collection.v]: [shards/shard_holder.rs] and [collection.rs];
      [CollectionSpec.v], [CollectionSearch.v]: its correctness.
    - [CollectionOps.v]: shard transfers and the states of replicas in
      [collection.rs], [collection_state.rs], [shards/transfer] and
      [handle_transfer] of [content_manager/toc.rs]; [ClusterSpec.v]: the
      agreement of the peers.
    - [Samples.v]: concrete segments for the witnesses.

    ** What is proved

    - Segments refine maps from ids to points: an accepted operation has its
      effect on its point and on no other; stale and refused operations change
      nothing; filtered reads and exact searches agree with the map
      ([segment_refines], [skipped_op_unchanged], [client_error_unchanged],
      [read_filtered_page], [plain_search_exact]).
    - A flush of a segment records a version only after all its writes, and a
      flush of all segments returns no version that some segment has yet to
      record ([flush_versions_last], [flush_all_safe]).
    - A shard applies an upsert once to each point wherever the point is, and
      keeps one copy ([upsert_points_refines], [deduplicate_keeps_newest],
      [replayed_upsert_unchanged]); an upsert split by shard loses nothing
      ([split_upsert_complete]).
    - A proxy shows the wrapped segment and its write segment as one
      ([proxy_refines], [proxy_scroll_page]).
    - The stores survive being reopened ([tracker_reopen], [vectors_reopen],
      [payload_storage_durable], and the key encodings' round trips).
    - Indexes agree with the payloads: filtered queries are exact, the
      optimized filter is equivalent to the plain one, estimates bracket the
      truth ([query_points_exact], [optimized_filter_equiv],
      [estimate_filter_sound], [map_index_ops], [index_op_keeps_indexes]);
      the numeric index keeps its histogram in step with its keys, answers
      ranges exactly and cuts the values into blocks that cover them
      ([numeric_index_ops], [float_query_exact], [payload_blocks_cover],
      [estimate_max_bound]).
    - The update worker and the flush worker, in any interleaving, never drop
      an operation from the log whose changes are only in memory, provided no
      operation writes a segment again after a flush took its number
      ([log_keeps_unsaved]; [segments_are_cells] ties the cells of that model
      to segments); a local shard applies its log in order and every waiting
      client is answered about its own operation ([updates_follow_log]).
    - After an update, reads of a replica set see it, reads return as long as
      a replica answers, and quorum reads see quorum writes
      ([update_then_read], [read_returns], [quorum_read_fresh],
      [resolve_records_agreed]); the operations of consensus keep the replica
      set well formed, with one exception ([replica_ops_keep]); and the peers
      of a cluster agree on replicas and transfers ([peers_agree]).
    - Scrolling a collection visits every point once and ends, and a search of
      a collection is the search of all its points ([scroll_all_pages],
      [collection_search_exact], [sampled_search_exact], [retrieve_newest]).
    - A partial configuration overrides exactly the fields it has
      ([config_update_overrides]).
    - Where the code falls short of its own contract, a theorem says how
      ([open_duplicate_offset], [delete_retry_stuck], [empty_should_diverges],
      [indexed_condition_first_only], [assign_null_stale],
      [stale_move_loses_point], [proxy_flush_overreports],
      [range_estimates_fail], [degenerate_range_panics], [proxy_sample_loses],
      [second_write_unsaved], [log_loses_unsaved], [replayed_insert_lost],
      [last_active_disabled]).

    ** Bounds and fuel

    Point offsets are [u32], operation numbers [u64] and counts [usize], kept
    as [N] or [nat]; the additions that can wrap are written out, and room
    for new offsets is a hypothesis ([segment_room]).  Floats are IEEE values
    of [SpecFloat].  The recursion over payload paths runs on fuel one more
    than the length of the path ([path_walk_total] shows it is enough), the
    growth of the chunk list on the new length.

    ** Not modelled

    Memory-mapped files, quantization, HNSW graphs, the geo and
    full-text indexes (represented by the laws the payload index relies on),
    files and snapshots, telemetry, the optimizers, the tasks that send a shard
    to another peer, the consensus itself and the network interfaces. *)

From stdpp Require Import base option list gmap strings sorting.
From Stdlib Require Import ZArith Lia.

(** ** Results

    Rust's [Result<A, E>], with a third outcome for a computation that
    panics (an index out of range, an [unwrap] of [None], an arithmetic
    overflow the build checks).  The [?] operator is the bind below; a
    panic unwinds through it. *)

Inductive result (E A : Type) : Type :=
| Ok (a : A)
| Err (e : E)
| Panic.
Arguments Ok {E A} a.
Arguments Err {E A} e.
Arguments Panic {E A}.

#[export] Instance result_ret E : MRet (result E) := @Ok E.
#[export] Instance result_bind E : MBind (result E) :=
  λ A B f r, match r with Ok a => f a | Err e => Err e | Panic => Panic end.
#[export] Instance result_fmap E : FMap (result E) :=
  λ A B f r, match r with Ok a => Ok (f a) | Err e => Err e | Panic => Panic end.

Definition is_ok {E A} (r : result E A) : bool :=
  match r with Ok _ => true | _ => false end.

(** [unwrap] of an option, [v[i]] and [v[i] = x] on a vector. *)
Definition unwrap {E A} (o : option A) : result E A :=
  match o with Some a => Ok a | None => Panic end.
Definition vec_get {E A} (l : list A) (i : nat) : result E A := unwrap (l !! i).
Definition vec_set {E A} (i : nat) (x : A) (l : list A) : result E (list A) :=
  if decide (i < length l) then Ok (<[i := x]> l) else Panic.

(** ** Stateful fallible operations

    A method taking [&mut self] and returning [Result<A, E>]: the state it
    leaves is returned on the error path too, because Rust does not roll
    back what was mutated before a [?] returned early. *)

Definition sm (S E A : Type) : Type := S → result E A * S.

#[export] Instance sm_ret S E : MRet (sm S E) := λ A a s, (Ok a, s).
#[export] Instance sm_bind S E : MBind (sm S E) :=
  λ A B f m s,
    match m s with
    | (Ok a, s') => f a s'
    | (Err e, s') => (Err e, s')
    | (Panic, s') => (Panic, s')
    end.

Definition sm_get {S E} : sm S E S := λ s, (Ok s, s).
Definition sm_gets {S E A} (f : S → A) : sm S E A := λ s, (Ok (f s), s).
Definition sm_modify {S E} (f : S → S) : sm S E unit := λ s, (Ok tt, f s).
Definition sm_fail {S E A} (e : E) : sm S E A := λ s, (Err e, s).
Definition sm_lift {S E A} (r : result E A) : sm S E A := λ s, (r, s).

(** Runs an operation of a sub-object held in a field of the state. *)
Definition sm_zoom {S T E A} (get : S → T) (set : T → S → S) (m : sm T E A) : sm S E A :=
  λ s, let '(r, t) := m (get s) in (r, set t s).

(** [for x in l { f(x)? }] *)
Fixpoint sm_for {S E A} (f : A → sm S E unit) (l : list A) : sm S E unit :=
  match l with
  | [] => mret tt
  | x :: l' => f x ≫= λ _, sm_for f l'
  end.

(** [for x in l { acc = f(x, acc)? }] *)
Fixpoint sm_fold {S E A B} (f : A → B → sm S E B) (l : list A) (b : B) : sm S E B :=
  match l with
  | [] => mret b
  | x :: l' => f x b ≫= sm_fold f l'
  end.

(** [for x in l { acc = f(x, acc)? }] without other state. *)
Fixpoint res_fold {E A B} (f : A → B → result E B) (l : list A) (b : B) : result E B :=
  match l with
  | [] => Ok b
  | x :: l' => f x b ≫= res_fold f l'
  end.

(** [l.iter().map(f).collect::<Result<Vec<_>, _>>()] *)
Fixpoint res_map {E A B} (f : A → result E B) (l : list A) : result E (list B) :=
  match l with
  | [] => Ok []
  | x :: l' => f x ≫= λ y, res_map f l' ≫= λ ys, Ok (y :: ys)
  end.

(** [l.iter().filter(f).collect()] where the predicate can panic. *)
Fixpoint res_filter {E A} (f : A → result E bool) (l : list A) : result E (list A) :=
  match l with
  | [] => Ok []
  | x :: l' => f x ≫= λ b, res_filter f l' ≫= λ ys, Ok (if b : bool then x :: ys else ys)
  end.

Lemma res_filter_Ok {E A} (f : A → result E bool) (P : A → bool) l :
  (∀ x, x ∈ l → f x = Ok (P x)) → res_filter f l = Ok (base.filter (λ x, P x = true) l).
Proof.
  induction l as [|x l IH]; intros H; [done|]. simpl. rewrite H by set_solver. simpl.
  rewrite IH by set_solver. simpl. rewrite filter_cons. by destruct (P x).
Qed.

(** A loop establishes what each step extends by its element. *)
Lemma res_fold_inv {E A B} (f : A → B → result E B) (I : list A → B → Prop) l b :
  I [] b → (∀ P x b, x ∈ l → I P b → ∃ b', f x b = Ok b' ∧ I (P ++ [x]) b') →
  ∃ b', res_fold f l b = Ok b' ∧ I l b'.
Proof.
  intros Hnil Hstep. assert (∀ k P b, (∀ x, x ∈ k → x ∈ l) → I P b → ∃ b', res_fold f k b = Ok b' ∧ I (P ++ k) b') as Hk.
  { induction k as [|x k IH]; intros P b' Hk HP; cbn; [exists b'; by rewrite app_nil_r|].
    destruct (Hstep P x b') as (c & -> & Hc); [apply Hk; left|done|]. cbn.
    destruct (IH (P ++ [x]) c) as (d & -> & Hd); [by intros y Hy; apply Hk; right|done|].
    exists d. by rewrite <-(assoc_L (++)) in Hd. }
  by apply (Hk l [] b).
Qed.

Lemma elem_of_concat {A} (x : A) ls : x ∈ concat ls ↔ ∃ l, l ∈ ls ∧ x ∈ l.
Proof.
  induction ls as [|l ls IH]; cbn.
  - split; [by intros ?%not_elem_of_nil|by intros (l & ?%not_elem_of_nil & _)].
  - rewrite elem_of_app, IH. setoid_rewrite elem_of_cons. naive_solver.
Qed.

(** Nested loops as one. *)
Lemma res_fold_ext {E A B} (f g : A → B → result E B) l b : (∀ x b, f x b = g x b) → res_fold f l b = res_fold g l b.
Proof. intros Hfg. revert b. induction l as [|x l IH]; intros b; [done|]. cbn. rewrite Hfg. destruct (g x b); [apply IH|done..]. Qed.

Lemma res_fold_nested {E A B C} (f : A → B → C → result E C) (g : A → list B) l c :
  res_fold (λ x c, res_fold (f x) (g x) c) l c = res_fold (λ p c, f p.1 p.2 c) (x ← l; pair x <$> g x) c.
Proof.
  revert c. induction l as [|x l IH]; intros c; [done|]. cbn. generalize (g x) as k. intros k. revert c.
  induction k as [|y k IHk]; intros c; cbn; [apply IH|]. destruct (f x y c) as [c'|e|]; [apply IHk|done|done].
Qed.

Lemma res_map_Ok {E A B} (f : A → result E B) (g : A → B) l :
  (∀ x, x ∈ l → f x = Ok (g x)) → res_map f l = Ok (g <$> l).
Proof.
  induction l as [|x l IH]; intros H; [done|]. simpl. rewrite H by set_solver. simpl.
  by rewrite IH by set_solver.
Qed.

Lemma res_map_ext {E A B} (f g : A → result E B) l : (∀ x, f x = g x) → res_map f l = res_map g l.
Proof. intros Hfg. induction l as [|x l IH]; [done|]. cbn. by rewrite Hfg, IH. Qed.

Lemma res_map_Forall2 {E A B} (f : A → result E B) (R : A → B → Prop) l :
  (∀ x, x ∈ l → ∃ y, f x = Ok y ∧ R x y) → ∃ ys, res_map f l = Ok ys ∧ Forall2 R l ys.
Proof.
  induction l as [|x l IH]; intros H; cbn; [exists []; by constructor|].
  destruct (H x) as (y & -> & Hy); [left|]. destruct IH as (ys & -> & Hys); [by intros z Hz; apply H; right|].
  exists (y :: ys). split; [done|by constructor].
Qed.

Section sm_laws.
Context {S E : Type}.

Lemma sm_bind_Ok {A B} (m : sm S E A) (f : A → sm S E B) s a s' :
  m s = (Ok a, s') → (m ≫= f) s = f a s'.
Proof. intros H. unfold mbind, sm_bind. by rewrite H. Qed.

Lemma sm_bind_Err {A B} (m : sm S E A) (f : A → sm S E B) s e s' :
  m s = (Err e, s') → (m ≫= f) s = (Err e, s').
Proof. intros H. unfold mbind, sm_bind. by rewrite H. Qed.

(** Inverting a successful sequence gives both successful steps. *)
Lemma sm_bind_Ok_inv {A B} (m : sm S E A) (f : A → sm S E B) s b s'' :
  (m ≫= f) s = (Ok b, s'') → ∃ a s', m s = (Ok a, s') ∧ f a s' = (Ok b, s'').
Proof. unfold mbind, sm_bind. destruct (m s) as [[a|e|] s']; naive_solver. Qed.

(** A state predicate kept by both steps, failing or not, is kept by the
    sequence; loops follow. *)
Definition keeps {A} (P : S → Prop) (m : sm S E A) : Prop := ∀ s, P s → P (m s).2.

Lemma keeps_bind {A B} P (m : sm S E A) (f : A → sm S E B) :
  keeps P m → (∀ a, keeps P (f a)) → keeps P (m ≫= f).
Proof.
  intros Hm Hf s HP. specialize (Hm s HP). unfold mbind, sm_bind.
  destruct (m s) as [[a|e|] s']; simpl in *; [by apply Hf|done|done].
Qed.

Lemma keeps_ret {A} P (a : A) : keeps P (mret a : sm S E A).
Proof. by intros s. Qed.

Lemma keeps_for {A} P (f : A → sm S E unit) l :
  (∀ x, x ∈ l → keeps P (f x)) → keeps P (sm_for f l).
Proof.
  induction l as [|x l IH]; intros H; [apply keeps_ret|]. simpl.
  apply keeps_bind; [apply H; set_solver|]. intros _. apply IH. set_solver.
Qed.

(** The weakest precondition of a computation: it does not panic, [Q]
    holds of a returned value and the state left with it, [R] of an error
    and the state left with it. *)
Definition sm_wp {A} (m : sm S E A) (Q : A → S → Prop) (R : E → S → Prop) (s : S) : Prop :=
  match m s with
  | (Ok a, s') => Q a s'
  | (Err e, s') => R e s'
  | (Panic, _) => False
  end.

Lemma sm_wp_bind {A B} (m : sm S E A) (f : A → sm S E B) Q R s :
  sm_wp m (λ a, sm_wp (f a) Q R) R s → sm_wp (m ≫= f) Q R s.
Proof. unfold sm_wp, mbind, sm_bind. by destruct (m s) as [[a|e|] s']. Qed.

Lemma sm_wp_mono {A} (m : sm S E A) (Q Q' : A → S → Prop) (R R' : E → S → Prop) s :
  sm_wp m Q R s → (∀ a s', Q a s' → Q' a s') → (∀ e s', R e s' → R' e s') →
  sm_wp m Q' R' s.
Proof. unfold sm_wp. destruct (m s) as [[a|e|] s']; naive_solver. Qed.

Lemma sm_wp_ret {A} (a : A) (Q : A → S → Prop) (R : E → S → Prop) s :
  Q a s → sm_wp (mret a) Q R s.
Proof. done. Qed.

Lemma sm_wp_modify (f : S → S) (Q : unit → S → Prop) (R : E → S → Prop) s :
  Q tt (f s) → sm_wp (sm_modify f) Q R s.
Proof. done. Qed.

(** A loop keeps an invariant that each iteration keeps. *)
Lemma sm_wp_for {A} (f : A → sm S E unit) (I : S → Prop) (R : E → S → Prop) l s :
  I s → (∀ x s, x ∈ l → I s → sm_wp (f x) (λ _, I) R s) →
  sm_wp (sm_for f l) (λ _, I) R s.
Proof.
  revert s. induction l as [|x l IH]; intros s HI Hf; [by apply sm_wp_ret|].
  simpl. apply sm_wp_bind. eapply sm_wp_mono; [apply Hf; [set_solver|done]| |done].
  intros [] s' Hs'. apply IH; [done|]. intros. apply Hf; [set_solver|done].
Qed.

Lemma sm_wp_Ok_inv {A} (m : sm S E A) Q R s a s' :
  sm_wp m Q R s → m s = (Ok a, s') → Q a s'.
Proof. unfold sm_wp. by intros H Heq; rewrite Heq in H. Qed.

(** An invariant established on both exits holds of the state left. *)
Lemma sm_wp_state {A} (m : sm S E A) (I : S → Prop) s :
  sm_wp m (λ _, I) (λ _, I) s → I (m s).2.
Proof. unfold sm_wp. by destruct (m s) as [[a|e|] s']. Qed.
End sm_laws.

(** An operation of a sub-object only changes that part of the state. *)
Lemma sm_wp_zoom {S T E A} (get : S → T) (set : T → S → S) (m : sm T E A)
    (Q : A → S → Prop) (R : E → S → Prop) s :
  sm_wp m (λ a t, Q a (set t s)) (λ e t, R e (set t s)) (get s) →
  sm_wp (sm_zoom get set m) Q R s.
Proof. unfold sm_wp, sm_zoom. by destruct (m (get s)) as [[a|e|] t]. Qed.

(** ** Integer widths *)

Definition u32_max : N := 4294967295.
Definition u64_max : N := 18446744073709551615.

(** The cast [n as u32] of a [usize]. *)
Definition as_u32 (n : nat) : nat := N.to_nat (N.of_nat n mod 4294967296).

Lemma as_u32_small n : (N.of_nat n ≤ u32_max)%N → as_u32 n = n.
Proof.
  unfold as_u32, u32_max. intros H. rewrite N.mod_small by lia. lia.
Qed.

(** ** Vectors

    [Vec::resize] is stdpp's [resize]; the two forms below are the only
    ones the source uses: grow to reach an index, then write it. *)

Definition grow {A} (i : nat) (d : A) (l : list A) : list A :=
  if decide (length l ≤ i) then resize (i + 1) d l else l.

Lemma length_grow {A} i (d : A) l : length (grow i d l) = length l `max` (i + 1).
Proof. unfold grow. case_decide; [rewrite length_resize|]; lia. Qed.

Lemma lookup_grow {A} i (d : A) l j :
  grow i d l !! j =
    if decide (j < length l) then l !! j
    else if decide (j ≤ i) then Some d else None.
Proof.
  unfold grow. case_decide; repeat case_decide; try lia; try done.
  - by rewrite lookup_resize by lia.
  - by rewrite lookup_resize_new by lia.
  - apply lookup_ge_None. rewrite length_resize. lia.
  - apply lookup_ge_None. lia.
Qed.

(** Grow, then store: what every "resize if needed and assign" site does. *)
Definition grow_set {A} (i : nat) (d x : A) (l : list A) : list A := <[i := x]> (grow i d l).

Lemma length_grow_set {A} i (d x : A) l : length (grow_set i d x l) = length l `max` (i + 1).
Proof. unfold grow_set. by rewrite length_insert, length_grow. Qed.

Lemma lookup_grow_set_eq {A} i (d x : A) l : grow_set i d x l !! i = Some x.
Proof. unfold grow_set. apply list_lookup_insert_eq. rewrite length_grow. lia. Qed.

Lemma lookup_grow_set_ne {A} i (d x : A) l j :
  i ≠ j → grow_set i d x l !! j =
    if decide (j < length l) then l !! j else if decide (j ≤ i) then Some d else None.
Proof. intros H. unfold grow_set. rewrite list_lookup_insert_ne by done. apply lookup_grow. Qed.

Lemma list_filter_all {A} (P : A → Prop) `{!∀ x, Decision (P x)} (l : list A) :
  (∀ x, x ∈ l → P x) → filter P l = l.
Proof.
  induction l as [|x l IH]; intros Hl; [done|]. rewrite filter_cons, decide_True by (apply Hl; set_solver).
  rewrite IH; [done|]. intros. apply Hl. set_solver.
Qed.

Lemma list_filter_none {A} (P : A → Prop) `{!∀ x, Decision (P x)} (l : list A) :
  (∀ x, x ∈ l → ¬ P x) → filter P l = [].
Proof.
  induction l as [|x l IH]; intros Hl; [done|]. rewrite filter_cons, decide_False by (apply Hl; set_solver).
  apply IH. intros. apply Hl. set_solver.
Qed.

(** Collecting pairs with distinct keys into a map. *)
Lemma fold_left_insert {K V} `{Countable K} (l : list (K * V)) (m : gmap K V) :
  NoDup l.*1 → fold_left (λ m kv, <[kv.1 := kv.2]> m) l m = list_to_map l ∪ m.
Proof.
  revert m. induction l as [|[k v] l IH]; intros m Hnd; simpl; [by rewrite (left_id_L ∅ (∪))|].
  apply NoDup_cons in Hnd as [Hn Hnd]. rewrite IH by done.
  rewrite <-insert_union_r by (by apply not_elem_of_list_to_map_1). by rewrite insert_union_l.
Qed.

(** ** Ordered iteration

    [BTreeMap::iter] and [sort_unstable] on elements whose order is total
    and antisymmetric give the unique sorted permutation, [merge_sort]. *)

(** Filtering keeps a list sorted. *)
Lemma StronglySorted_filter {A} (R : relation A) (P : A → Prop) `{!∀ x, Decision (P x)} l :
  StronglySorted R l → StronglySorted R (filter P l).
Proof.
  induction 1 as [|x l Hs IH Hf]; [constructor|]. rewrite filter_cons. case_decide; [|done].
  constructor; [done|]. apply Forall_forall. intros y [_ Hy]%list_elem_of_filter.
  by eapply Forall_forall in Hf.
Qed.

(** The strict order of keys and the iteration order of a [BTreeMap]. *)
Definition key_le {V} (a b : N * V) : Prop := (a.1 ≤ b.1)%N.

#[export] Instance key_le_dec {V} : RelDecision (@key_le V).
Proof. intros a b. unfold key_le. apply _. Defined.

#[export] Instance key_le_total {V} : Total (@key_le V).
Proof. intros a b. unfold key_le. lia. Qed.

#[export] Instance key_le_trans {V} : Transitive (@key_le V).
Proof. intros a b c. unfold key_le. lia. Qed.

Definition btree_iter {V} (m : gmap N V) : list (N * V) := merge_sort key_le (map_to_list m).

Lemma elem_of_btree_iter {V} (m : gmap N V) k v : (k, v) ∈ btree_iter m ↔ m !! k = Some v.
Proof. unfold btree_iter. by rewrite merge_sort_Permutation, elem_of_map_to_list. Qed.

Lemma length_btree_iter {V} (m : gmap N V) : length (btree_iter m) = size m.
Proof. unfold btree_iter. by rewrite merge_sort_Permutation, length_map_to_list. Qed.

Lemma NoDup_btree_iter_keys {V} (m : gmap N V) : NoDup (btree_iter m).*1.
Proof. unfold btree_iter. rewrite merge_sort_Permutation. apply NoDup_fst_map_to_list. Qed.

(** A list sorted by [≤] without repetition is sorted by [<]. *)
Lemma StronglySorted_strict {A} (R S : relation A) l :
  (∀ x y, R x y → x ≠ y → S x y) → StronglySorted R l → NoDup l → StronglySorted S l.
Proof.
  intros HRS. induction 1 as [|x l Hs IH Hf]; intros Hnd; [constructor|].
  apply NoDup_cons in Hnd as [Hx Hnd]. constructor; [by apply IH|].
  apply Forall_forall. intros y Hy. eapply Forall_forall in Hf; [|done].
  apply HRS; [done|]. by intros ->.
Qed.

Lemma StronglySorted_fmap {A B} (R : relation A) (S : relation B) (f : A → B) l :
  (∀ x y, R x y → S (f x) (f y)) → StronglySorted R l → StronglySorted S (f <$> l).
Proof.
  intros HRS. induction 1 as [|x l Hs IH Hf]; [constructor|]. simpl. constructor; [done|].
  apply Forall_fmap. eapply Forall_impl; [done|]. intros y. apply HRS.
Qed.

Lemma StronglySorted_fmap_filter {A B} (R : relation B) (f : A → B) (P : A → Prop)
    `{!∀ x, Decision (P x)} (l : list A) :
  StronglySorted R (f <$> l) → StronglySorted R (f <$> filter P l).
Proof.
  induction l as [|x l IH]; intros Hs; [done|]. simpl in Hs. apply StronglySorted_inv in Hs as [Hs Hf].
  rewrite filter_cons. case_decide; [|by apply IH]. simpl. constructor; [by apply IH|].
  apply Forall_forall. intros y (z & -> & [_ Hz]%list_elem_of_filter)%list_elem_of_fmap.
  eapply Forall_forall in Hf; [done|]. apply list_elem_of_fmap. eauto.
Qed.

Lemma StronglySorted_app_intro {A} (R : relation A) l1 l2 :
  StronglySorted R l1 → StronglySorted R l2 → (∀ x y, x ∈ l1 → y ∈ l2 → R x y) →
  StronglySorted R (l1 ++ l2).
Proof.
  intros Hl1 Hl2. induction Hl1 as [|x l Hs IH Hf]; intros Hx; [done|]. simpl. constructor.
  - apply IH. intros. apply Hx; set_solver.
  - apply Forall_app. split; [done|]. apply Forall_forall. intros. apply Hx; set_solver.
Qed.

Lemma StronglySorted_btree_keys {V} (m : gmap N V) :
  StronglySorted N.lt (btree_iter m).*1.
Proof.
  apply (StronglySorted_strict N.le).
  - intros x y. lia.
  - apply (StronglySorted_fmap key_le); [done|]. apply StronglySorted_merge_sort; apply _.
  - apply NoDup_btree_iter_keys.
Qed.

(** ** Options related pointwise *)

Section forall2.
Context {A B : Type} {R : A → B → Prop}.

Lemma option_Forall2_Some_l x my : option_Forall2 R (Some x) my → ∃ y, my = Some y ∧ R x y.
Proof. inversion 1; eauto. Qed.

Lemma option_Forall2_None_l my : option_Forall2 R None my → my = None.
Proof. by inversion 1. Qed.

Lemma option_Forall2_Some_r mx y : option_Forall2 R mx (Some y) → ∃ x, mx = Some x ∧ R x y.
Proof. inversion 1; eauto. Qed.

Lemma option_Forall2_None_r mx : option_Forall2 R mx None → mx = None.
Proof. by inversion 1. Qed.

Lemma option_Forall2_is_Some mx my : option_Forall2 R mx my → is_Some mx ↔ is_Some my.
Proof. intros []; split; eauto; by intros []. Qed.

Lemma option_Forall2_weaken (R' : A → B → Prop) mx my :
  option_Forall2 R mx my → (∀ x y, R x y → R' x y) → option_Forall2 R' mx my.
Proof. intros [] HR; constructor; auto. Qed.
End forall2.

(** ** Automation *)

Create HintDb qdrant.
#[export] Hint Resolve keeps_ret keeps_bind keeps_for : qdrant.

(** Splits the conjunctions and existentials of the context. *)
Ltac split_hyps :=
  repeat match goal with
  | H : _ ∧ _ |- _ => destruct H
  | H : ∃ _, _ |- _ => destruct H
  end.

(** Unfolds one stateful step at a time and case-splits on its matches. *)
Ltac sm_unfold := unfold mbind, sm_bind, mret, sm_ret, sm_get, sm_gets, sm_modify, sm_fail, sm_lift in *.
