(* ===== verification/KeyEncoding.v ===== *)
(** * Order-preserving byte keys of the numeric index

    Models [lib/segment/src/index/key_encoding.rs]: the numeric field index
    stores [(value, point offset)] pairs in RocksDB under byte keys, and its
    range queries rely on the byte order of the keys being the order of the
    values.  A [f64] is its 64-bit pattern (a [Z] in [0, 2^64)), read as an
    IEEE-754 binary64 by [f64_of_bits]; an [i64] is a [Z] in
    [-2^63, 2^63); a byte is a [Z] in [0, 256).  Panics (slice out of range,
    failed [try_into], unknown prefix) are [None]. *)

From stdpp Require Import base list.
From Stdlib Require Import ZArith Lia SpecFloat.
From S2P Require Import Prelude.
Local Open Scope Z_scope.

(** ** Bytes *)

(** [to_be_bytes] of an [n]-byte unsigned integer. *)
Fixpoint to_be_bytes (n : nat) (v : Z) : list Z :=
  match n with
  | O => []
  | S n' => (v / 256 ^ Z.of_nat n') mod 256 :: to_be_bytes n' v
  end.

(** [from_be_bytes]. *)
Definition from_be_bytes (bs : list Z) : Z := fold_left (λ acc b, acc * 256 + b) bs 0.

(** Lexicographic comparison of byte slices, RocksDB's key order. *)
Fixpoint lex_compare (a b : list Z) : comparison :=
  match a, b with
  | [], [] => Eq
  | [], _ :: _ => Lt
  | _ :: _, [] => Gt
  | x :: a', y :: b' =>
    match x ?= y with Eq => lex_compare a' b' | c => c end
  end.

(** ** IEEE-754 binary64 *)

Definition f64_of_bits (b : Z) : spec_float :=
  let s := 2 ^ 63 <=? b in
  let e := (b / 2 ^ 52) mod 2 ^ 11 in
  let m := b mod 2 ^ 52 in
  if e =? 2047 then (if m =? 0 then S754_infinity s else S754_nan)
  else if e =? 0 then
    match m with Zpos p => S754_finite s p (-1074) | _ => S754_zero s end
  else
    match m + 2 ^ 52 with Zpos p => S754_finite s p (e - 1075) | _ => S754_nan end.

Definition is_nan (b : Z) : bool :=
  match f64_of_bits b with S754_nan => true | _ => false end.

(** [a == b] and [partial_cmp] on floats. *)
Definition f64_eqb (a b : Z) : bool := SFeqb (f64_of_bits a) (f64_of_bits b).
Definition f64_compare (a b : Z) : option comparison := SFcompare (f64_of_bits a) (f64_of_bits b).

(** The canonical NaN, [f64::NAN]. *)
Definition F64_NAN : Z := 0x7ff8000000000000.

(** [!u] on a [u64]. *)
Definition not64 (u : Z) : Z := Z.land (Z.lnot u) (Z.ones 64).

(** ** The encoder *)

Definition FLOAT_NAN : Z := 0x00.
Definition FLOAT_NEG : Z := 0x01.
Definition FLOAT_ZERO : Z := 0x02.
Definition FLOAT_POS : Z := 0x03.

Definition F64_KEY_LEN : nat := 13.
Definition I64_KEY_LEN : nat := 12.

Definition encode_f64_ascending (val : Z) (buf : list Z) : list Z :=
  if is_nan val then buf ++ [FLOAT_NAN] ++ replicate 8 0
  else if f64_eqb val 0 then buf ++ [FLOAT_ZERO] ++ replicate 8 0
  else
    let f_as_u64 := val in
    if negb (Z.land f_as_u64 (Z.shiftl 1 63) =? 0)
    then buf ++ [FLOAT_NEG] ++ to_be_bytes 8 (not64 f_as_u64)
    else buf ++ [FLOAT_POS] ++ to_be_bytes 8 f_as_u64.

(** [buf[a..b].try_into()] to an array of [b - a] bytes. *)
Definition slice (a b : nat) (buf : list Z) : option (list Z) :=
  if decide (a ≤ b ∧ b ≤ length buf)%nat then Some (take (b - a) (drop a buf)) else None.

Definition decode_f64_ascending (buf : list Z) : option Z :=
  match buf !! 0%nat with
  | None => None
  | Some tag =>
    if tag =? FLOAT_NAN then Some F64_NAN
    else if tag =? FLOAT_NEG then (λ bs, not64 (from_be_bytes bs)) <$> slice 1 9 buf
    else if tag =? FLOAT_ZERO then Some 0
    else if tag =? FLOAT_POS then from_be_bytes <$> slice 1 9 buf
    else None
  end.

Definition i64_MIN : Z := - 2 ^ 63.

(** Two's complement reading of a [u64] pattern as an [i64]. *)
Definition as_i64 (u : Z) : Z := if 2 ^ 63 <=? u then u - 2 ^ 64 else u.

Definition encode_i64_ascending (val : Z) (buf : list Z) : list Z :=
  let i := Z.lxor val i64_MIN in
  buf ++ to_be_bytes 8 (i mod 2 ^ 64).

Definition decode_i64_ascending (buf : list Z) : option Z :=
  (λ bs, Z.lxor (as_i64 (from_be_bytes bs)) i64_MIN) <$> slice 0 8 buf.

Definition encode_f64_key_ascending (key_val point_offset : Z) : list Z :=
  let buf := encode_f64_ascending key_val [] in
  buf ++ to_be_bytes 4 point_offset.

(** [(&buf[len - 4..]).try_into::<[u8; 4]>().unwrap()]. *)
Definition key_offset (len : nat) (buf : list Z) : option Z :=
  if decide (length buf = len) then from_be_bytes <$> slice (len - 4) len buf else None.

Definition decode_f64_key_ascending (buf : list Z) : option (Z * Z) :=
  offset ← key_offset F64_KEY_LEN buf;
  val ← decode_f64_ascending buf;
  Some (offset, val).

Definition encode_i64_key_ascending (key_val point_offset : Z) : list Z :=
  let buf := encode_i64_ascending key_val [] in
  buf ++ to_be_bytes 4 point_offset.

Definition decode_i64_key_ascending (buf : list Z) : option (Z * Z) :=
  offset ← key_offset I64_KEY_LEN buf;
  val ← decode_i64_ascending buf;
  Some (offset, val).

(** ** Big-endian bytes *)

Lemma length_to_be_bytes n v : length (to_be_bytes n v) = n.
Proof. induction n; simpl; lia. Qed.

Lemma from_be_bytes_snoc_gen bs acc :
  fold_left (λ a b, a * 256 + b) bs acc = acc * 256 ^ Z.of_nat (length bs) + from_be_bytes bs.
Proof.
  unfold from_be_bytes. revert acc. induction bs as [|b bs IH]; intros acc; cbn [fold_left length]; [lia|].
  rewrite IH, (IH (0 * 256 + b)), Nat2Z.inj_succ, Z.pow_succ_r by lia. ring.
Qed.

Lemma to_be_bytes_mod n v : to_be_bytes n (v mod 256 ^ Z.of_nat n) = to_be_bytes n v.
Proof.
  assert (∀ k, (k ≤ n)%nat → to_be_bytes k (v mod 256 ^ Z.of_nat n) = to_be_bytes k v) as H; [|by apply H].
  induction k as [|k IH]; intros Hk; [done|]. cbn [to_be_bytes]. f_equal; [|apply IH; lia].
  replace (Z.of_nat n) with (Z.of_nat (S k) + Z.of_nat (n - S k)) by lia.
  rewrite Z.pow_add_r, Nat2Z.inj_succ, Z.pow_succ_r by lia.
  rewrite (Z.mul_comm 256), <-Z.mul_assoc.
  rewrite Z.rem_mul_r by (apply Z.pow_nonzero || apply Z.mul_pos_pos; try apply Z.pow_pos_nonneg; lia).
  rewrite (Z.mul_comm (256 ^ _)), Z.div_add by (apply Z.pow_nonzero; lia).
  rewrite (Z.div_small (v mod _)) by (apply Z.mod_pos_bound, Z.pow_pos_nonneg; lia).
  rewrite Z.rem_mul_r by (try apply Z.pow_pos_nonneg; lia).
  rewrite Z.add_0_l, Z.mul_comm, Z.mod_add by lia. by rewrite Z.mod_mod by lia.
Qed.

Lemma from_to_be_bytes n v :
  0 ≤ v < 256 ^ Z.of_nat n → from_be_bytes (to_be_bytes n v) = v.
Proof.
  revert v. induction n as [|n IH]; intros v Hv; [simpl in *; unfold from_be_bytes; simpl; lia|].
  cbn [to_be_bytes]. unfold from_be_bytes at 1. cbn [fold_left].
  rewrite from_be_bytes_snoc_gen, length_to_be_bytes, <-to_be_bytes_mod.
  rewrite Nat2Z.inj_succ, Z.pow_succ_r in Hv by lia.
  assert (0 < 256 ^ Z.of_nat n) by (apply Z.pow_pos_nonneg; lia).
  rewrite IH by (apply Z.mod_pos_bound; lia).
  rewrite (Z.mod_small (v / _)).
  - rewrite (Z.div_mod v (256 ^ Z.of_nat n)) at 3 by lia. ring.
  - split; [apply Z.div_pos; lia|]. apply Z.div_lt_upper_bound; lia.
Qed.

(** Equal-width big-endian encodings compare as the integers they encode. *)
Lemma lex_compare_be_bytes n a b :
  0 ≤ a < 256 ^ Z.of_nat n → 0 ≤ b < 256 ^ Z.of_nat n →
  lex_compare (to_be_bytes n a) (to_be_bytes n b) = (a ?= b).
Proof.
  revert a b. induction n as [|n IH]; intros a b Ha Hb.
  { simpl in *. symmetry. apply Z.compare_eq_iff. lia. }
  assert (0 < 256 ^ Z.of_nat n) as Hp by (apply Z.pow_pos_nonneg; lia).
  rewrite Nat2Z.inj_succ, Z.pow_succ_r in Ha, Hb by lia.
  cbn [to_be_bytes lex_compare]. rewrite <-(to_be_bytes_mod n a), <-(to_be_bytes_mod n b).
  rewrite IH by (apply Z.mod_pos_bound; lia).
  set (q := 256 ^ Z.of_nat n) in *.
  assert (∀ x, 0 ≤ x < 256 * q → (x / q) mod 256 = x / q) as Hm.
  { intros x Hx. apply Z.mod_small. split; [apply Z.div_pos; lia|]. apply Z.div_lt_upper_bound; lia. }
  rewrite !Hm by lia.
  pose proof (Z.div_mod a q). pose proof (Z.div_mod b q).
  pose proof (Z.mod_pos_bound a q). pose proof (Z.mod_pos_bound b q).
  destruct (Z.compare_spec (a / q) (b / q)); symmetry.
  - destruct (Z.compare_spec (a mod q) (b mod q));
      [apply Z.compare_eq_iff|apply Z.compare_lt_iff|apply Z.compare_gt_iff]; nia.
  - apply Z.compare_lt_iff. nia.
  - apply Z.compare_gt_iff. nia.
Qed.

Lemma lex_compare_app a1 b1 a2 b2 :
  length a1 = length b1 →
  lex_compare (a1 ++ a2) (b1 ++ b2) =
    match lex_compare a1 b1 with Eq => lex_compare a2 b2 | c => c end.
Proof.
  revert b1. induction a1 as [|x a1 IH]; intros [|y b1] Hl; simpl in *; try lia; [done|].
  destruct (x ?= y); [|done|done]. apply IH. lia.
Qed.

Lemma lex_compare_cons x a y b :
  lex_compare (x :: a) (y :: b) = match x ?= y with Eq => lex_compare a b | c => c end.
Proof. reflexivity. Qed.

Lemma lex_compare_refl a : lex_compare a a = Eq.
Proof. induction a as [|x a IH]; simpl; [done|]. by rewrite Z.compare_refl. Qed.

#[global] Arguments to_be_bytes : simpl never.
#[global] Arguments from_be_bytes : simpl never.
#[global] Arguments lex_compare : simpl never.

(** Slices of a key made of a fixed-width head and a 4-byte tail. *)
Lemma slice_app_head (a b : list Z) : slice 0 (length a) (a ++ b) = Some a.
Proof.
  unfold slice. rewrite decide_True by (rewrite length_app; lia).
  by rewrite Nat.sub_0_r, drop_0, take_app_length.
Qed.

Lemma key_offset_app len a off :
  length a = (len - 4)%nat → (4 ≤ len)%nat → 0 ≤ off < 2 ^ 32 →
  key_offset len (a ++ to_be_bytes 4 off) = Some off.
Proof.
  intros Ha Hl Ho. unfold key_offset, slice.
  rewrite !decide_True by (rewrite length_app, length_to_be_bytes; lia).
  rewrite <-Ha, drop_app_length, take_ge by (rewrite length_to_be_bytes; lia). simpl.
  f_equal. by apply (from_to_be_bytes 4).
Qed.

(** ** [i64] keys *)

Definition i64_range (v : Z) : Prop := - 2 ^ 63 ≤ v < 2 ^ 63.
Definition u32_range (v : Z) : Prop := 0 ≤ v < 2 ^ 32.
Definition u64_range (v : Z) : Prop := 0 ≤ v < 2 ^ 64.

Lemma lxor_i64_MIN_nonneg w : 0 ≤ w < 2 ^ 63 → Z.lxor w i64_MIN = w - 2 ^ 63.
Proof.
  intros Hw. rewrite <-Z.add_nocarry_lxor; [unfold i64_MIN; lia|].
  change i64_MIN with (Z.lnot (Z.ones 63)). rewrite <-Z.ldiff_land, Z.ldiff_ones_r by lia.
  rewrite Z.shiftr_div_pow2, Z.div_small by lia. apply Z.shiftl_0_l.
Qed.

Lemma lxor_i64_MIN v :
  i64_range v → Z.lxor v i64_MIN = if 0 <=? v then v - 2 ^ 63 else v + 2 ^ 63.
Proof.
  unfold i64_range. intros Hv. destruct (Z.leb_spec 0 v) as [H|H].
  - apply lxor_i64_MIN_nonneg. lia.
  - transitivity (Z.lxor (Z.lxor (v + 2 ^ 63) i64_MIN) i64_MIN).
    + rewrite (lxor_i64_MIN_nonneg (v + 2 ^ 63)) by lia. f_equal. lia.
    + by rewrite Z.lxor_assoc, Z.lxor_nilpotent, Z.lxor_0_r.
Qed.

(** The encoded pattern is the value shifted to the unsigned range. *)
Lemma encode_i64_pattern v :
  i64_range v → (Z.lxor v i64_MIN) mod 2 ^ 64 = v + 2 ^ 63.
Proof.
  intros Hv. rewrite lxor_i64_MIN by done. unfold i64_range in Hv.
  destruct (Z.leb_spec 0 v).
  - rewrite <-(Z.mod_unique (v - 2 ^ 63) (2 ^ 64) (-1) (v + 2 ^ 63)); lia.
  - apply Z.mod_small. lia.
Qed.

Lemma decode_encode_i64 v rest :
  i64_range v → decode_i64_ascending (encode_i64_ascending v [] ++ rest) = Some v.
Proof.
  intros Hv. unfold decode_i64_ascending, encode_i64_ascending. rewrite app_nil_l.
  rewrite encode_i64_pattern by done.
  pose proof (slice_app_head (to_be_bytes 8 (v + 2 ^ 63)) rest) as Hs.
  rewrite length_to_be_bytes in Hs. rewrite Hs. simpl. f_equal.
  unfold i64_range in Hv. rewrite (from_to_be_bytes 8) by (simpl; lia).
  unfold as_i64. destruct (Z.leb_spec (2 ^ 63) (v + 2 ^ 63)).
  - rewrite lxor_i64_MIN by (unfold i64_range; lia).
    destruct (Z.leb_spec 0 (v + 2 ^ 63 - 2 ^ 64)); lia.
  - rewrite lxor_i64_MIN by (unfold i64_range; lia).
    destruct (Z.leb_spec 0 (v + 2 ^ 63)); lia.
Qed.

(** An [i64] index key decodes to the value and the point offset it was
    built from. *)
Lemma i64_key_roundtrip v off :
  i64_range v → u32_range off →
  decode_i64_key_ascending (encode_i64_key_ascending v off) = Some (off, v).
Proof.
  intros Hv Ho. unfold decode_i64_key_ascending, encode_i64_key_ascending.
  rewrite key_offset_app; [|unfold encode_i64_ascending; by rewrite length_app, length_to_be_bytes|unfold I64_KEY_LEN; lia|done].
  cbn [mbind option_bind]. by rewrite decode_encode_i64.
Qed.

(** The byte order of [i64] keys is the numeric order of the values,
    ties broken by the point offset. *)
Lemma i64_key_order v1 o1 v2 o2 :
  i64_range v1 → i64_range v2 → u32_range o1 → u32_range o2 →
  lex_compare (encode_i64_key_ascending v1 o1) (encode_i64_key_ascending v2 o2) =
    match v1 ?= v2 with Eq => o1 ?= o2 | c => c end.
Proof.
  intros Hv1 Hv2 Ho1 Ho2. unfold encode_i64_key_ascending, encode_i64_ascending.
  rewrite lex_compare_app by (rewrite !app_nil_l, !length_to_be_bytes; done).
  rewrite !app_nil_l, !encode_i64_pattern by done.
  unfold i64_range, u32_range in *.
  rewrite !lex_compare_be_bytes by (simpl; lia).
  by rewrite !(Z.add_comm _ (2 ^ 63)), Z.add_compare_mono_l.
Qed.

(** ** [f64] keys *)

Lemma not64_range u : u64_range u → not64 u = 2 ^ 64 - 1 - u.
Proof.
  unfold u64_range, not64. intros Hu. rewrite Z.land_ones by lia. unfold Z.lnot.
  rewrite <-(Z.mod_unique _ (2 ^ 64) (-1) (2 ^ 64 - 1 - u)); lia.
Qed.

Lemma sign_bit_test u :
  u64_range u → negb (Z.land u (Z.shiftl 1 63) =? 0) = (2 ^ 63 <=? u).
Proof.
  unfold u64_range. intros Hu. rewrite Z.shiftl_1_l.
  assert (Z.testbit u 63 = (2 ^ 63 <=? u)) as Ht.
  { rewrite Z.testbit_odd, Z.shiftr_div_pow2 by lia. destruct (Z.leb_spec (2 ^ 63) u).
    - rewrite <-(Z.div_unique u (2 ^ 63) 1 (u - 2 ^ 63)) by lia. done.
    - by rewrite Z.div_small by lia. }
  rewrite <-Ht. destruct (Z.testbit u 63) eqn:E.
  - apply Bool.negb_true_iff, Z.eqb_neq. intros H0.
    assert (Z.testbit (Z.land u (2 ^ 63)) 63 = true) as Hb
      by (rewrite Z.land_spec, E; reflexivity).
    by rewrite H0, Z.bits_0 in Hb.
  - apply Bool.negb_false_iff, Z.eqb_eq, Z.bits_inj'. intros i Hi.
    rewrite Z.land_spec, Z.bits_0, Z.pow2_bits_eqb by lia.
    destruct (Z.eqb_spec 63 i) as [<-|]; [by rewrite E|by rewrite Bool.andb_false_r].
Qed.

(** The signed magnitude of a pattern: the integer whose order is the order
    of the floats. *)
Definition rank (b : Z) : Z := if 2 ^ 63 <=? b then - (b - 2 ^ 63) else b.

(** The fields of a pattern: sign, 11-bit exponent, 52-bit mantissa. *)
Lemma f64_fields b :
  u64_range b →
  ∃ (s : bool) e m, b = Z.b2z s * 2 ^ 63 + e * 2 ^ 52 + m ∧ 0 ≤ e < 2 ^ 11 ∧ 0 ≤ m < 2 ^ 52 ∧
    (2 ^ 63 <=? b) = s ∧ (b / 2 ^ 52) mod 2 ^ 11 = e ∧ b mod 2 ^ 52 = m.
Proof.
  unfold u64_range. intros Hb.
  pose proof (Z.div_mod b (2 ^ 52)) as H1. pose proof (Z.mod_pos_bound b (2 ^ 52)) as H2.
  pose proof (Z.div_mod (b / 2 ^ 52) (2 ^ 11)) as H3.
  pose proof (Z.mod_pos_bound (b / 2 ^ 52) (2 ^ 11)) as H4.
  assert (0 ≤ b / 2 ^ 52 / 2 ^ 11 < 2) as H5.
  { rewrite Z.div_div by lia. split; [apply Z.div_pos; lia|]. apply Z.div_lt_upper_bound; lia. }
  exists (2 ^ 63 <=? b), ((b / 2 ^ 52) mod 2 ^ 11), (b mod 2 ^ 52).
  repeat split; try lia. destruct (Z.leb_spec (2 ^ 63) b); simpl Z.b2z; lia.
Qed.

Lemma pos_of_Zpos (z : Z) : 0 < z → z = Z.pos (Z.to_pos z).
Proof. intros. by rewrite Z2Pos.id. Qed.

(** What each class of pattern decodes to. *)
Lemma f64_of_bits_spec b :
  u64_range b →
  let s := 2 ^ 63 <=? b in
  let e := (b / 2 ^ 52) mod 2 ^ 11 in
  let m := b mod 2 ^ 52 in
  match f64_of_bits b with
  | S754_nan => e = 2047 ∧ 0 < m
  | S754_infinity s' => s' = s ∧ e = 2047 ∧ m = 0
  | S754_zero s' => s' = s ∧ e = 0 ∧ m = 0
  | S754_finite s' p x =>
    s' = s ∧ e ≠ 2047 ∧
    (if e =? 0 then Z.pos p = m ∧ x = -1074 else Z.pos p = m + 2 ^ 52 ∧ x = e - 1075)
  end.
Proof.
  intros Hb s e m. unfold f64_of_bits. fold s e m.
  pose proof (Z.mod_pos_bound b (2 ^ 52) ltac:(lia)) as Hm. fold m in Hm. clearbody s e m.
  destruct (Z.eqb_spec e 2047); [destruct (Z.eqb_spec m 0); repeat split; try done; lia|].
  destruct (Z.eqb_spec e 0) as [->|].
  - destruct m; simpl in *; repeat split; try done; lia.
  - destruct (m + 2 ^ 52) eqn:E; repeat split; try done; lia.
Qed.

(** Floats compare as the signed magnitudes of their patterns. *)
Lemma f64_compare_rank a b :
  u64_range a → u64_range b → is_nan a = false → is_nan b = false →
  f64_compare a b = Some (rank a ?= rank b).
Proof.
  intros Ha Hb. unfold is_nan, f64_compare, rank.
  pose proof (f64_of_bits_spec a Ha) as Sa. pose proof (f64_of_bits_spec b Hb) as Sb.
  destruct (f64_fields a Ha) as (sa & ea & ma & Ea & ? & ? & Esa & Eea & Ema).
  destruct (f64_fields b Hb) as (sb & eb & mb & Eb & ? & ? & Esb & Eeb & Emb).
  cbv zeta in Sa, Sb. rewrite Esa, Eea, Ema in Sa. rewrite Esb, Eeb, Emb in Sb.
  rewrite Esa, Esb. clear Esa Eea Ema Esb Eeb Emb Ha Hb.
  destruct (f64_of_bits a) as [za|ia| |fa pa xa]; [| |done|];
  destruct (f64_of_bits b) as [zb|ib| |fb pb xb]; try done; intros _ _; cbn [SFcompare];
    destruct_and?; subst za ia fa || subst za || subst ia || subst fa; subst zb || subst ib || subst fb;
    f_equal; try change (Pos.compare_cont Eq pa pb) with (Pos.compare pa pb).
  9: destruct (Z.compare_spec xa xb); destruct (Pos.compare_spec pa pb).
  all: repeat match goal with H : if ?x =? 0 then _ else _ |- _ => destruct (Z.eqb_spec x 0) end;
    destruct sa, sb; simpl Z.b2z in *; symmetry;
    first [apply Z.compare_eq_iff; lia|apply Z.compare_lt_iff; lia|apply Z.compare_gt_iff; lia].
Qed.

Lemma f64_eqb_zero_rank b :
  u64_range b → is_nan b = false → f64_eqb b 0 = (rank b =? 0).
Proof.
  intros Hb Hn. unfold f64_eqb, SFeqb. fold (f64_compare b 0).
  rewrite f64_compare_rank by (done || reflexivity). change (rank 0) with 0.
  destruct (Z.compare_spec (rank b) 0), (Z.eqb_spec (rank b) 0); lia || done.
Qed.

(** The tag and pattern of a non-NaN float as functions of its rank. *)
Lemma encode_f64_rank b :
  u64_range b → is_nan b = false →
  encode_f64_ascending b [] =
    if rank b =? 0 then FLOAT_ZERO :: replicate 8 0
    else if rank b <? 0 then FLOAT_NEG :: to_be_bytes 8 (2 ^ 63 - 1 + rank b)
    else FLOAT_POS :: to_be_bytes 8 (rank b).
Proof.
  intros Hb Hn. unfold encode_f64_ascending. rewrite Hn, f64_eqb_zero_rank, sign_bit_test by done.
  unfold rank, u64_range in *. destruct (Z.leb_spec (2 ^ 63) b); case_match; try done.
  - rewrite (proj2 (Z.ltb_lt _ 0)) by lia. cbn [app]. rewrite not64_range by (unfold u64_range; lia).
    do 2 f_equal. lia.
  - by rewrite (proj2 (Z.ltb_ge _ 0)) by lia.
Qed.

Lemma f64_encoding_order a b :
  u64_range a → u64_range b → is_nan b = false →
  if is_nan a then lex_compare (encode_f64_ascending a []) (encode_f64_ascending b []) = Lt
  else f64_compare a b = Some (lex_compare (encode_f64_ascending a []) (encode_f64_ascending b [])).
Proof.
  intros Ha Hb Hnb. assert (- 2 ^ 63 < rank a < 2 ^ 63 ∧ - 2 ^ 63 < rank b < 2 ^ 63) as [Ra Rb].
  { unfold rank, u64_range in *. destruct (Z.leb_spec (2 ^ 63) a), (Z.leb_spec (2 ^ 63) b); lia. }
  rewrite (encode_f64_rank b) by done. destruct (is_nan a) eqn:Hna.
  - unfold encode_f64_ascending. rewrite Hna.
    destruct (rank b =? 0), (rank b <? 0); reflexivity.
  - rewrite f64_compare_rank, encode_f64_rank by done. f_equal. symmetry.
    destruct (Z.eqb_spec (rank a) 0), (Z.eqb_spec (rank b) 0), (Z.ltb_spec (rank a) 0),
      (Z.ltb_spec (rank b) 0); try lia; rewrite lex_compare_cons; simpl (_ ?= _) at 1;
      rewrite ?lex_compare_refl, ?lex_compare_be_bytes by (simpl; lia);
      cbn [Pos.compare Pos.compare_cont]; symmetry;
      first [by rewrite Z.add_compare_mono_l|done|apply Z.compare_eq_iff; lia
            |apply Z.compare_lt_iff; lia|apply Z.compare_gt_iff; lia].
Qed.

Lemma length_encode_f64 b : length (encode_f64_ascending b []) = 9%nat.
Proof.
  unfold encode_f64_ascending. repeat case_match; by rewrite !length_app, ?length_to_be_bytes.
Qed.

Lemma f64_key_compare a b o1 o2 :
  u64_range a → u64_range b → is_nan a = false → is_nan b = false → u32_range o1 → u32_range o2 →
  lex_compare (encode_f64_key_ascending a o1) (encode_f64_key_ascending b o2) =
    match rank a ?= rank b with Eq => o1 ?= o2 | c => c end.
Proof.
  intros Ha Hb Hna Hnb Ho1 Ho2. unfold encode_f64_key_ascending. rewrite lex_compare_app by by rewrite !length_encode_f64.
  pose proof (f64_encoding_order a b Ha Hb Hnb) as H. rewrite Hna, f64_compare_rank in H by done. injection H as <-.
  unfold u32_range in *. by rewrite (lex_compare_be_bytes 4 o1 o2) by (simpl; lia).
Qed.

(** The byte order of [f64] keys is the IEEE order of the values with
    ties broken by the point offset; -0.0 and 0.0 are the same key, and keys
    of NaN sort before the keys of every number. *)
Lemma f64_key_order a b o1 o2 :
  u64_range a → u64_range b → is_nan b = false → u32_range o1 → u32_range o2 →
  let c := lex_compare (encode_f64_key_ascending a o1) (encode_f64_key_ascending b o2) in
  if is_nan a then c = Lt
  else ∃ d, f64_compare a b = Some d ∧ c = match d with Eq => o1 ?= o2 | d => d end.
Proof.
  intros Ha Hb Hn Ho1 Ho2 c. subst c. destruct (is_nan a) eqn:Hna.
  - pose proof (f64_encoding_order a b Ha Hb Hn) as H. rewrite Hna in H. unfold encode_f64_key_ascending.
    rewrite lex_compare_app by by rewrite !length_encode_f64. by rewrite H.
  - eexists; split; [by apply f64_compare_rank|]. rewrite f64_key_compare by done. by destruct (rank a ?= rank b).
Qed.

Lemma decode_encode_f64 b rest :
  u64_range b →
  decode_f64_ascending (encode_f64_ascending b [] ++ rest) =
    Some (if is_nan b then F64_NAN else if f64_eqb b 0 then 0 else b).
Proof.
  intros Hb. destruct (is_nan b) eqn:Hn.
  { unfold encode_f64_ascending. by rewrite Hn. }
  rewrite f64_eqb_zero_rank, encode_f64_rank by done.
  assert (∀ v tag, slice 1 9 ((tag :: to_be_bytes 8 v) ++ rest) = Some (to_be_bytes 8 v)) as Hs.
  { intros v tag. unfold slice. rewrite decide_True by (rewrite length_app, length_cons, length_to_be_bytes; lia).
    by f_equal. }
  destruct (Z.eqb_spec (rank b) 0) as [|H0]; [done|].
  destruct (Z.ltb_spec (rank b) 0); unfold decode_f64_ascending; rewrite Hs; simpl; f_equal;
    unfold u64_range, rank in *; destruct (Z.leb_spec (2 ^ 63) b); try lia;
    rewrite (from_to_be_bytes 8) by (simpl; lia); [|done].
  rewrite not64_range by (unfold u64_range; lia). lia.
Qed.

(** An [f64] index key decodes to its point offset and to the value up to
    float equality: bit-exact unless the value is a zero (decoded as 0.0) or a
    NaN (decoded as the canonical NaN). *)
Lemma f64_key_roundtrip b off :
  u64_range b → u32_range off →
  decode_f64_key_ascending (encode_f64_key_ascending b off) =
    Some (off, if is_nan b then F64_NAN else if f64_eqb b 0 then 0 else b).
Proof.
  intros Hb Ho. unfold decode_f64_key_ascending, encode_f64_key_ascending.
  rewrite key_offset_app by (rewrite ?length_encode_f64; unfold F64_KEY_LEN; done || lia).
  cbn [mbind option_bind]. by rewrite decode_encode_f64.
Qed.
