(* ===== verification/Types.v ===== *)
(** * Shared data types of the segment crate

    Models the types of [lib/segment/src/types.rs] and the error type of
    [entry/entry_point.rs] that the storage, index and update components
    exchange: point ids and their order, JSON payload values and payload
    edits, filters and their conditions, and operation errors.

    A JSON document is the documented enum of [serde_json]; its numbers are
    opaque there, so they are a type parameter with the four accessors the
    source calls ([JsonNumber]).  A JSON object is a finite map. *)

From stdpp Require Import base gmap strings list countable sorting.
From Stdlib Require Import ZArith Lia SpecFloat.
From S2P Require Import Prelude.

(** ** Point ids *)

Abbreviation PointOffsetType := nat (only parsing).
Abbreviation SeqNumberType := N (only parsing).
Abbreviation PayloadKeyType := string (only parsing).

(** A [u64] or a [Uuid] (its 128-bit value). *)
Inductive ExtendedPointId : Type :=
| NumId (n : N)
| Uuid (u : N).

Abbreviation PointIdType := ExtendedPointId.

#[export] Instance ExtendedPointId_eq_dec : EqDecision ExtendedPointId.
Proof. solve_decision. Defined.

#[export] Instance ExtendedPointId_countable : Countable ExtendedPointId.
Proof.
  refine (inj_countable'
    (λ p, match p with NumId n => inl n | Uuid u => inr u end)
    (λ s, match s with inl n => NumId n | inr u => Uuid u end) _).
  by intros [].
Defined.

(** The derived [Ord]: constructors in declaration order, then contents. *)
Definition point_id_leb (a b : PointIdType) : bool :=
  match a, b with
  | NumId x, NumId y => (x <=? y)%N
  | NumId _, Uuid _ => true
  | Uuid _, NumId _ => false
  | Uuid x, Uuid y => (x <=? y)%N
  end.

Definition point_id_ltb (a b : PointIdType) : bool := negb (point_id_leb b a).

Definition point_id_le (a b : PointIdType) : Prop := point_id_leb a b = true.

#[export] Instance point_id_le_dec : RelDecision point_id_le.
Proof. intros a b. unfold point_id_le. apply _. Defined.

#[export] Instance point_id_le_total : Total point_id_le.
Proof.
  intros [x|x] [y|y]; unfold point_id_le; simpl; try (by left); try (by right);
    destruct (N.leb_spec x y); [by left|right|by left|right]; apply N.leb_le; lia.
Qed.

#[export] Instance point_id_le_trans : Transitive point_id_le.
Proof.
  intros [x|x] [y|y] [z|z]; unfold point_id_le; simpl; rewrite ?N.leb_le; try done; lia.
Qed.

#[export] Instance point_id_le_antisymm : AntiSymm (=) point_id_le.
Proof.
  intros [x|x] [y|y]; unfold point_id_le; simpl; rewrite ?N.leb_le; try done;
    intros; f_equal; lia.
Qed.

#[export] Instance point_id_le_refl : Reflexive point_id_le.
Proof. intros [x|x]; unfold point_id_le; simpl; apply N.leb_le; lia. Qed.

(** [sort_unstable] on a vector of point ids. *)
Definition sort_ids (l : list PointIdType) : list PointIdType := merge_sort point_id_le l.

(** ** Operation errors *)

Inductive OperationError : Type :=
| WrongVector (expected_dim received_dim : nat)
| VectorNameNotExists (received_name : string)
| MissedVectorName (received_name : string)
| PointIdError (missed_point_id : PointIdType)
| TypeError (field_name : PayloadKeyType) (expected_type : string)
| TypeInferenceError (field_name : PayloadKeyType)
| ServiceError (description : string)
| Cancelled (description : string).

Abbreviation OperationResult := (result OperationError).

(** Only service errors block the segment. *)
Definition get_service_error {A} (err : OperationResult A) : option OperationError :=
  match err with
  | Ok _ => None
  | Err (ServiceError d) => Some (ServiceError d)
  | Err _ => None
  | Panic => None
  end.

Record SegmentFailedState := {
  failed_version : SeqNumberType;
  failed_point_id : option PointIdType;
  failed_error : OperationError;
}.

(** ** JSON values *)

Class JsonNumber (Num : Type) := {
  as_i64 : Num → option Z;
  as_f64 : Num → option spec_float;
  is_i64 : Num → bool;
  is_f64 : Num → bool;
}.

(** Documents whose numbers are all integers. *)
Definition integer_numbers : JsonNumber Z := {|
  as_i64 z := Some z;
  as_f64 z := Some (binary_normalize 53 1024 z 0 false);
  is_i64 _ := true;
  is_f64 _ := false;
|}.

Inductive Value (Num : Type) : Type :=
| VNull
| VBool (b : bool)
| VNumber (n : Num)
| VString (s : string)
| VArray (a : list (Value Num))
| VObject (m : gmap string (Value Num)).
Arguments VNull {Num}.
Arguments VBool {Num} b.
Arguments VNumber {Num} n.
Arguments VString {Num} s.
Arguments VArray {Num} a.
Arguments VObject {Num} m.

Abbreviation Payload Num := (gmap string (Value Num)).

Definition is_null {Num} (v : Value Num) : bool :=
  match v with VNull => true | _ => false end.

(** *** Induction and encoding of values *)

Section value_ind.
Context {Num : Type}.

Fixpoint value_size (v : Value Num) : nat :=
  S (match v with
     | VArray a => fold_right (λ v n, value_size v + n) 0 a
     | VObject m => map_fold (λ _ v n, value_size v + n) 0 m
     | _ => 0
     end).

Lemma value_size_array v (a : list (Value Num)) :
  v ∈ a → value_size v ≤ fold_right (λ v n, value_size v + n) 0 a.
Proof. induction 1 as [v a|v w a _ IH]; simpl; lia. Qed.

Lemma value_size_object (m : gmap string (Value Num)) k v :
  m !! k = Some v → value_size v ≤ map_fold (λ _ v n, value_size v + n) 0 m.
Proof.
  revert k v. apply (map_fold_weak_ind (λ n m, ∀ k v, m !! k = Some v → value_size v ≤ n)).
  - intros k v. by rewrite lookup_empty.
  - intros i x m' n Hi IH k v [[<- <-]|[_ Hk]]%lookup_insert_Some; [lia|]. specialize (IH k v Hk). lia.
Qed.

Lemma value_ind_size (P : Value Num → Prop) :
  P VNull → (∀ b, P (VBool b)) → (∀ n, P (VNumber n)) → (∀ s, P (VString s)) →
  (∀ a, Forall P a → P (VArray a)) →
  (∀ m, (∀ k v, m !! k = Some v → P v) → P (VObject m)) →
  ∀ v, P v.
Proof.
  intros Hnull Hbool Hnum Hstr Harr Hobj v.
  remember (value_size v) as n eqn:Hn. assert (value_size v ≤ n) as Hle by lia. clear Hn. revert v Hle.
  induction n as [|n IH]; intros v Hle; destruct v as [|b|x|s|a|m]; try done; simpl in Hle; try lia.
  - apply Harr, Forall_forall. intros v Hv. apply IH. pose proof (value_size_array v a Hv). lia.
  - apply Hobj. intros k v Hv. apply IH. pose proof (value_size_object m k v Hv). lia.
Qed.

Fixpoint value_to_tree (v : Value Num) : gen_tree (Num + string + bool) :=
  match v with
  | VNull => GenNode 0 []
  | VBool b => GenLeaf (inr b)
  | VNumber n => GenLeaf (inl (inl n))
  | VString s => GenLeaf (inl (inr s))
  | VArray a => GenNode 1 (map value_to_tree a)
  | VObject m =>
      GenNode 2 (map_fold (λ k v acc, GenLeaf (inl (inr k)) :: value_to_tree v :: acc) [] m)
  end.

Fixpoint tree_to_value (t : gen_tree (Num + string + bool)) : Value Num :=
  let fields := fix go (l : list (gen_tree (Num + string + bool))) : gmap string (Value Num) :=
    match l with
    | GenLeaf (inl (inr k)) :: t :: l' => <[k := tree_to_value t]> (go l')
    | _ => ∅
    end in
  match t with
  | GenLeaf (inr b) => VBool b
  | GenLeaf (inl (inl n)) => VNumber n
  | GenLeaf (inl (inr s)) => VString s
  | GenNode 1 l => VArray (map tree_to_value l)
  | GenNode 2 l => VObject (fields l)
  | GenNode _ _ => VNull
  end.

Lemma tree_to_value_to_tree v : tree_to_value (value_to_tree v) = v.
Proof.
  induction v as [| | | |a IH|m IH] using value_ind_size; try done.
  - simpl. f_equal. induction IH as [|v a Hv _ IHa]; [done|]. simpl. by rewrite Hv, IHa.
  - simpl. f_equal. revert IH.
    apply (map_fold_weak_ind (λ l m, (∀ k v, m !! k = Some v → tree_to_value (value_to_tree v) = v) →
      (fix go (l : list (gen_tree (Num + string + bool))) : gmap string (Value Num) :=
         match l with
         | GenLeaf (inl (inr k)) :: t :: l' => <[k := tree_to_value t]> (go l')
         | _ => ∅
         end) l = m)); [done|].
    intros k v m' l Hk IHm Hrt. rewrite Hrt with (k := k) by apply lookup_insert_eq.
    f_equal. apply IHm. intros k' v' Hk'. apply (Hrt k'). rewrite lookup_insert_ne; [done|congruence].
Qed.

#[export] Instance value_eq_dec `{!EqDecision Num} : EqDecision (Value Num).
Proof.
  intros v w. destruct (decide (value_to_tree v = value_to_tree w)) as [Heq|Hne].
  - left. by rewrite <-(tree_to_value_to_tree v), Heq, tree_to_value_to_tree.
  - right. by intros ->.
Defined.

#[export] Instance value_countable `{!EqDecision Num, !Countable Num} : Countable (Value Num).
Proof. apply (inj_countable' value_to_tree tree_to_value), tree_to_value_to_tree. Defined.
End value_ind.

(** [Payload::merge]: a null erases the key, anything else overwrites it. *)
Definition payload_merge {Num} (self value : Payload Num) : Payload Num :=
  map_fold (λ key value acc,
    match value with
    | VNull => delete key acc
    | _ => <[key := value]> acc
    end) self value.

(** ** Conditions and filters *)

Record GeoPoint := { lon : spec_float; lat : spec_float }.

Inductive ValueVariants : Type :=
| VKeyword (s : string)
| VInteger (i : Z)
| VBoolean (b : bool).

Inductive AnyVariants : Type :=
| Keywords (l : list string)
| Integers (l : list Z).

Inductive Match : Type :=
| MatchValue (value : ValueVariants)
| MatchText (text : string)
| MatchAny (any : AnyVariants).

Record Range := {
  range_lt : option spec_float;
  range_gt : option spec_float;
  range_gte : option spec_float;
  range_lte : option spec_float;
}.

Record ValuesCount := {
  count_lt : option nat;
  count_gt : option nat;
  count_gte : option nat;
  count_lte : option nat;
}.

Record GeoBoundingBox := { top_left : GeoPoint; bottom_right : GeoPoint }.
Record GeoRadius := { center : GeoPoint; radius : spec_float }.

Record FieldCondition := {
  fc_key : PayloadKeyType;
  fc_match : option Match;
  fc_range : option Range;
  fc_geo_bounding_box : option GeoBoundingBox;
  fc_geo_radius : option GeoRadius;
  fc_values_count : option ValuesCount;
}.

Inductive Condition : Type :=
| CField (f : FieldCondition)
| CIsEmpty (key : PayloadKeyType)
| CIsNull (key : PayloadKeyType)
| CHasId (has_id : gset PointIdType)
| CFilter (f : Filter)
with Filter : Type :=
| mkFilter (should must must_not : option (list Condition)).

Definition should (f : Filter) := let '(mkFilter s _ _) := f in s.
Definition must (f : Filter) := let '(mkFilter _ m _) := f in m.
Definition must_not (f : Filter) := let '(mkFilter _ _ n) := f in n.

Definition new_must_not (c : Condition) : Filter := mkFilter None None (Some [c]).

(** Induction over a condition and the conditions nested in its filters. *)
Definition opt_list {A} (o : option (list A)) : list A :=
  match o with Some l => l | None => [] end.

Section condition_ind.
Variable P : Condition → Prop.
Hypothesis HField : ∀ f, P (CField f).
Hypothesis HIsEmpty : ∀ k, P (CIsEmpty k).
Hypothesis HIsNull : ∀ k, P (CIsNull k).
Hypothesis HHasId : ∀ s, P (CHasId s).
Hypothesis HFilter : ∀ s m n,
  Forall P (opt_list s) → Forall P (opt_list m) → Forall P (opt_list n) →
  P (CFilter (mkFilter s m n)).

Fixpoint condition_ind_nested (c : Condition) : P c :=
  let go := fix go (l : list Condition) : Forall P l :=
    match l with
    | [] => Forall_nil_2 P
    | c :: l' => Forall_cons_2 P c l' (condition_ind_nested c) (go l')
    end in
  let go_opt (o : option (list Condition)) : Forall P (opt_list o) :=
    match o with Some l => go l | None => Forall_nil_2 P end in
  match c with
  | CField f => HField f
  | CIsEmpty k => HIsEmpty k
  | CIsNull k => HIsNull k
  | CHasId s => HHasId s
  | CFilter (mkFilter s m n) => HFilter s m n (go_opt s) (go_opt m) (go_opt n)
  end.
End condition_ind.

(** ** Payload edits *)

Section payload.
Context {Num : Type}.
Implicit Types p q : Payload Num.

(** The merge pointwise: null erases, a value overwrites, absence keeps. *)
Lemma lookup_payload_merge p q k :
  payload_merge p q !! k =
    match q !! k with
    | Some VNull => None
    | Some v => Some v
    | None => p !! k
    end.
Proof.
  unfold payload_merge.
  apply (map_fold_weak_ind (λ acc q', acc !! k =
    match q' !! k with Some VNull => None | Some v => Some v | None => p !! k end)).
  - by rewrite lookup_empty.
  - intros i x m r Hi IH. destruct (decide (i = k)) as [->|Hne].
    + rewrite lookup_insert_eq. destruct x; rewrite ?lookup_delete_eq, ?lookup_insert_eq; done.
    + rewrite lookup_insert_ne, <-IH by done.
      destruct x; rewrite ?lookup_delete_ne, ?lookup_insert_ne by done; done.
Qed.

(** Re-applying a [set_payload] changes nothing. *)
Lemma payload_merge_idem p q : payload_merge (payload_merge p q) q = payload_merge p q.
Proof.
  apply map_eq. intros k. rewrite !lookup_payload_merge.
  destruct (q !! k) as [[]|]; done.
Qed.
End payload.
