(* ===== verification/Rocks.v ===== *)
(** * Persistent columns

    Models [lib/segment/src/common/rocksdb_wrapper.rs], the wrapper every
    storage component writes through.  RocksDB itself and the [bincode]
    codec are not part of the repository: they are the classes [RocksDB]
    and [Bincode], and what the code relies on is stated by their laws.
    [MemDB] and [bincode_le] instantiate both, so that statements with those
    hypotheses can be evaluated. *)

From stdpp Require Import base gmap strings list.
From Stdlib Require Import ZArith Lia.
From S2P Require Import Prelude KeyEncoding Types.

Abbreviation bytes := (list Z).

(** The database as the source uses it: named column families, point writes
    and deletes that may fail with a message, and a full scan. *)
Class RocksDB (DB : Type) := {
  cf_handle : DB → string → bool;
  put_cf : string → bytes → bytes → DB → result string unit * DB;
  delete_cf : string → bytes → DB → result string unit * DB;
  get_cf : DB → string → bytes → result string (option bytes);
  create_cf : string → DB → result string unit * DB;
  drop_cf : string → DB → result string unit * DB;
  (** what a raw iterator positioned by [seek_to_first] walks over *)
  iter_cf : DB → string → list (bytes * bytes);
}.

(** A successful write is visible in its column and in no other; a scan
    lists the column. *)
Class RocksLaws (DB : Type) `{!RocksDB DB} := {
  cf_view : DB → string → gmap bytes bytes;
  put_cf_view db cf k v db' cf' :
    put_cf cf k v db = (Ok tt, db') →
    cf_view db' cf' = if decide (cf' = cf) then <[k := v]> (cf_view db cf) else cf_view db cf';
  delete_cf_view db cf k db' cf' :
    delete_cf cf k db = (Ok tt, db') →
    cf_view db' cf' = if decide (cf' = cf) then delete k (cf_view db cf) else cf_view db cf';
  put_cf_handle db cf k v cf' : cf_handle (put_cf cf k v db).2 cf' = cf_handle db cf';
  delete_cf_handle db cf k cf' : cf_handle (delete_cf cf k db).2 cf' = cf_handle db cf';
  put_cf_no_panic db cf k v : (put_cf cf k v db).1 ≠ Panic;
  delete_cf_no_panic db cf k : (delete_cf cf k db).1 ≠ Panic;
  create_cf_no_panic db cf : (create_cf cf db).1 ≠ Panic;
  drop_cf_no_panic db cf : (drop_cf cf db).1 ≠ Panic;
  create_cf_view db cf db' cf' :
    create_cf cf db = (Ok tt, db') →
    cf_view db' cf' = (if decide (cf' = cf) then ∅ else cf_view db cf') ∧
    cf_handle db' cf' = (if decide (cf' = cf) then true else cf_handle db cf');
  drop_cf_view db cf db' cf' :
    drop_cf cf db = (Ok tt, db') → cf' ≠ cf →
    cf_view db' cf' = cf_view db cf' ∧ cf_handle db' cf' = cf_handle db cf';
  drop_cf_handle db cf db' : drop_cf cf db = (Ok tt, db') → cf_handle db' cf = false;
  get_cf_view db cf k r : get_cf db cf k = Ok r → r = cf_view db cf !! k;
  iter_cf_view db cf : iter_cf db cf ≡ₚ map_to_list (cf_view db cf);
}.

Definition u128_max : N := 340282366920938463463374607431768211455.

(** The codec, at the four types the source stores through it here. *)
Inductive StoredPointId : Type :=
| SNumId (n : N)
| SUuid (u : N)
| SString (s : string).

Class Bincode := {
  ser_point_id : StoredPointId → bytes;
  de_point_id : bytes → option StoredPointId;
  ser_u64 : N → bytes;
  de_u64 : bytes → option N;
  ser_usize : nat → bytes;
  de_u32 : bytes → option nat;
}.

(** Fixed-width little-endian integers: a [usize] is written in eight bytes,
    and reading a [u32] takes the low four of them. *)
Class BincodeLaws `{!Bincode} := {
  de_ser_num_id n : (n ≤ u64_max)%N → de_point_id (ser_point_id (SNumId n)) = Some (SNumId n);
  de_ser_uuid u : (u ≤ u128_max)%N → de_point_id (ser_point_id (SUuid u)) = Some (SUuid u);
  de_ser_u64 n : (n ≤ u64_max)%N → de_u64 (ser_u64 n) = Some n;
  de_u32_ser_usize n : de_u32 (ser_usize n) = Some (as_u32 n);
}.

(** ** The column wrapper *)

Section wrapper.
Context {DB : Type} `{!RocksDB DB}.

Definition service_error (description : string) : OperationError := ServiceError description.

(** [map_err(|err| service_error(format!("... {err}")))] *)
Definition map_db_err {A} (prefix : string) (r : result string A) : OperationResult A :=
  match r with
  | Ok a => Ok a
  | Err msg => Err (service_error (prefix +:+ msg))
  | Panic => Panic
  end.

Definition get_column_family (column_name : string) (db : DB) : OperationResult unit :=
  if cf_handle db column_name then Ok tt
  else Err (service_error
    ("RocksDB cf_handle error: Cannot find column family " +:+ column_name)).

Definition column_put (column_name : string) (key value : bytes) : sm DB OperationError unit :=
  λ db, match get_column_family column_name db with
        | Ok _ => let '(r, db') := put_cf column_name key value db in
                  (map_db_err "RocksDB put_cf error: " r, db')
        | Err e => (Err e, db)
        | Panic => (Panic, db)
        end.

Definition column_get_pinned {T} (column_name : string) (key : bytes) (f : bytes → T)
    (db : DB) : OperationResult (option T) :=
  _ ← get_column_family column_name db;
  result ← map_db_err "RocksDB get_pinned_cf error: " (get_cf db column_name key);
  Ok (fmap (M:=option) f result).

Definition column_remove (column_name : string) (key : bytes) : sm DB OperationError unit :=
  λ db, match get_column_family column_name db with
        | Ok _ => let '(r, db') := delete_cf column_name key db in
                  (map_db_err "RocksDB delete_cf error: " r, db')
        | Err e => (Err e, db)
        | Panic => (Panic, db)
        end.

Definition create_column_family_if_not_exists (column_name : string) :
    sm DB OperationError unit :=
  λ db, if cf_handle db column_name then (Ok tt, db)
        else let '(r, db') := create_cf column_name db in
             (map_db_err "RocksDB create_cf error: " r, db').

Definition remove_column_family (column_name : string) : sm DB OperationError unit :=
  λ db, if cf_handle db column_name
        then let '(r, db') := drop_cf column_name db in
             (map_db_err "RocksDB drop_cf error: " r, db')
        else (Ok tt, db).

Definition recreate_column_family (column_name : string) : sm DB OperationError unit :=
  remove_column_family column_name ≫= λ _, create_column_family_if_not_exists column_name.

Definition has_column_family (column_name : string) (db : DB) : OperationResult bool :=
  Ok (cf_handle db column_name).

(** The iterator: a raw cursor (the entries from its position on) and the
    flag that keeps the first [next] from skipping the first entry. *)
Record DatabaseColumnIterator := {
  iter : list (bytes * bytes);
  just_seeked : bool;
}.

Definition column_iter_new (db : DB) (column_name : string) :
    OperationResult DatabaseColumnIterator :=
  _ ← get_column_family column_name db;
  Ok {| iter := iter_cf db column_name; just_seeked := true |}.

Definition column_iter_next (self : DatabaseColumnIterator) :
    option (bytes * bytes) * DatabaseColumnIterator :=
  match iter self with
  | [] => (None, self)
  | _ :: rest =>
      let self' := if just_seeked self
                   then {| iter := iter self; just_seeked := false |}
                   else {| iter := rest; just_seeked := just_seeked self |} in
      match iter self' with
      | kv :: _ => (Some kv, self')
      | [] => (None, self')
      end
  end.

(** Drains the iterator, as a [for] loop does. *)
Fixpoint column_iter_collect (fuel : nat) (self : DatabaseColumnIterator) :
    list (bytes * bytes) :=
  match fuel with
  | O => []
  | S fuel' =>
      match column_iter_next self with
      | (Some kv, self') => kv :: column_iter_collect fuel' self'
      | (None, _) => []
      end
  end.

(** [lock_db().iter()?]: one more call of [next] than there are entries. *)
Definition column_iter (column_name : string) (db : DB) :
    OperationResult (list (bytes * bytes)) :=
  it ← column_iter_new db column_name;
  Ok (column_iter_collect (S (length (iter it))) it).

(** The scan yields every entry of the column exactly once, in order. *)
Lemma column_iter_collect_all l :
  column_iter_collect (S (length l)) {| iter := l; just_seeked := true |} = l.
Proof.
  assert (∀ l kv, column_iter_collect (S (length l)) {| iter := kv :: l; just_seeked := false |} = l)
    as Hrest.
  { clear l. induction l as [|kv' l IH]; intros kv; [done|]. cbn. f_equal. apply (IH kv'). }
  destruct l as [|kv l]; [done|]. cbn. f_equal. apply (Hrest l kv).
Qed.

Lemma column_iter_eq cf db :
  column_iter cf db = (_ ← get_column_family cf db; Ok (iter_cf db cf)).
Proof.
  unfold column_iter, column_iter_new. destruct (get_column_family cf db); [|done..].
  cbn -[column_iter_collect]. by rewrite column_iter_collect_all.
Qed.

Context `{!RocksLaws DB}.

(** A successful write or delete updates its column and keeps the rest. *)
Lemma column_put_Ok cf k v db db' cf' :
  column_put cf k v db = (Ok tt, db') →
  cf_view db' cf' = (if decide (cf' = cf) then <[k := v]> (cf_view db cf) else cf_view db cf')
  ∧ cf_handle db' cf' = cf_handle db cf'.
Proof.
  unfold column_put. destruct (get_column_family cf db); [|done..].
  pose proof (put_cf_handle db cf k v cf'). destruct (put_cf cf k v db) as [[[]| |] d] eqn:He; intros [= <-].
  by split; [eapply put_cf_view|].
Qed.

Lemma column_remove_Ok cf k db db' cf' :
  column_remove cf k db = (Ok tt, db') →
  cf_view db' cf' = (if decide (cf' = cf) then delete k (cf_view db cf) else cf_view db cf')
  ∧ cf_handle db' cf' = cf_handle db cf'.
Proof.
  unfold column_remove. destruct (get_column_family cf db); [|done..].
  pose proof (delete_cf_handle db cf k cf'). destruct (delete_cf cf k db) as [[[]| |] d] eqn:He; intros [= <-].
  by split; [eapply delete_cf_view|].
Qed.

(** Recreating a column empties it. *)
Lemma recreate_Ok cf db db' :
  recreate_column_family cf db = (Ok tt, db') →
  cf_view db' cf = ∅ ∧ cf_handle db' cf = true ∧
  ∀ cf', cf' ≠ cf → cf_view db' cf' = cf_view db cf' ∧ cf_handle db' cf' = cf_handle db cf'.
Proof.
  intros ([] & db1 & Hrem & Hcreate)%sm_bind_Ok_inv. unfold remove_column_family in Hrem.
  assert (cf_handle db1 cf = false ∧
    ∀ cf', cf' ≠ cf → cf_view db1 cf' = cf_view db cf' ∧ cf_handle db1 cf' = cf_handle db cf') as [Hno Hold].
  { destruct (cf_handle db cf) eqn:Hcf.
    - destruct (drop_cf cf db) as [[[]| |] d] eqn:Hd; simplify_eq/=.
      split; [by eapply drop_cf_handle|]. intros. by eapply drop_cf_view.
    - injection Hrem as <-. done. }
  unfold create_column_family_if_not_exists in Hcreate. rewrite Hno in Hcreate.
  destruct (create_cf cf db1) as [[[]| |] d] eqn:Hc; simplify_eq/=.
  pose proof (λ cf', create_cf_view _ _ _ cf' Hc) as Hv. split_and!.
  - destruct (Hv cf) as [-> _]. by rewrite decide_True.
  - destruct (Hv cf) as [_ ->]. by rewrite decide_True.
  - intros cf' Hne. destruct (Hv cf') as [-> ->]. rewrite !decide_False by done. by apply Hold.
Qed.

Lemma column_put_no_panic cf k v db : (column_put cf k v db).1 ≠ Panic.
Proof.
  unfold column_put, get_column_family. destruct (cf_handle db cf); [|done].
  pose proof (put_cf_no_panic db cf k v). by destruct (put_cf cf k v db) as [[]].
Qed.

Lemma column_remove_no_panic cf k db : (column_remove cf k db).1 ≠ Panic.
Proof.
  unfold column_remove, get_column_family. destruct (cf_handle db cf); [|done].
  pose proof (delete_cf_no_panic db cf k). by destruct (delete_cf cf k db) as [[]].
Qed.

(** The same facts as weakest preconditions. *)
Lemma recreate_no_panic cf db : (recreate_column_family cf db).1 ≠ Panic.
Proof.
  unfold recreate_column_family, remove_column_family, create_column_family_if_not_exists. sm_unfold.
  pose proof (drop_cf_no_panic db cf) as Hd.
  destruct (cf_handle db cf); [destruct (drop_cf cf db) as [[[]|e|] db1]|]; cbn; try done;
    match goal with |- context [cf_handle ?d cf] => pose proof (create_cf_no_panic d cf) as Hc;
      destruct (cf_handle d cf); [done|]; by destruct (create_cf cf d) as [[[]|e|] ?] end.
Qed.

Lemma column_put_wp cf k v db (Q : unit → DB → Prop) (R : OperationError → DB → Prop) :
  (∀ db', cf_view db' cf = <[k := v]> (cf_view db cf) → cf_handle db' cf = cf_handle db cf →
    Q tt db') →
  (∀ e db', R e db') → sm_wp (column_put cf k v) Q R db.
Proof.
  intros HQ HR. unfold sm_wp. pose proof (column_put_no_panic cf k v db) as Hp.
  destruct (column_put cf k v db) as [[[]|e|] db'] eqn:Heq; [|by apply HR|done].
  destruct (column_put_Ok _ _ _ _ _ cf Heq) as [Hv Hh]. rewrite decide_True in Hv by done.
  by apply HQ.
Qed.

Lemma column_remove_wp cf k db (Q : unit → DB → Prop) (R : OperationError → DB → Prop) :
  (∀ db', cf_view db' cf = delete k (cf_view db cf) → cf_handle db' cf = cf_handle db cf →
    Q tt db') →
  (∀ e db', R e db') → sm_wp (column_remove cf k) Q R db.
Proof.
  intros HQ HR. unfold sm_wp. pose proof (column_remove_no_panic cf k db) as Hp.
  destruct (column_remove cf k db) as [[[]|e|] db'] eqn:Heq; [|by apply HR|done].
  destruct (column_remove_Ok _ _ _ _ cf Heq) as [Hv Hh]. rewrite decide_True in Hv by done.
  by apply HQ.
Qed.
End wrapper.

(** ** Instances *)

(** Columns as finite maps; a write fails only in a missing column. *)
Abbreviation MemDB := (gmap string (gmap bytes bytes)).

#[export] Instance MemDB_rocks : RocksDB MemDB := {|
  cf_handle db cf := bool_decide (is_Some (db !! cf));
  put_cf cf k v db :=
    match db !! cf with
    | Some m => (Ok tt, <[cf := <[k := v]> m]> db)
    | None => (Err "no such column"%string, db)
    end;
  delete_cf cf k db :=
    match db !! cf with
    | Some m => (Ok tt, <[cf := delete k m]> db)
    | None => (Err "no such column"%string, db)
    end;
  get_cf db cf k := Ok (db !! cf ≫= (.!! k));
  create_cf cf db := (Ok tt, <[cf := ∅]> db);
  drop_cf cf db := (Ok tt, delete cf db);
  iter_cf db cf := map_to_list (default ∅ (db !! cf));
|}.

#[export] Instance MemDB_laws : RocksLaws MemDB.
Proof.
  unshelve refine {| cf_view (db : MemDB) cf := default ∅ (db !! cf) |}; cbn;
    [intros db cf k v db' cf'|intros db cf k db' cf'|intros db cf k v cf'|intros db cf k cf'
    | | | | |intros db cf db' cf' [= <-]|intros db cf db' cf' [= <-] Hne|intros db cf db' [= <-]| |];
    try (intros; by repeat case_match).
  - destruct (db !! cf) eqn:E; intros [= <-]. case_decide; subst.
    + by rewrite lookup_insert_eq.
    + by rewrite lookup_insert_ne.
  - destruct (db !! cf) eqn:E; intros [= <-]. case_decide; subst.
    + by rewrite lookup_insert_eq.
    + by rewrite lookup_insert_ne.
  - destruct (db !! cf) eqn:E; [|done]. destruct (decide (cf' = cf)) as [->|].
    + simpl. by rewrite lookup_insert_eq, E.
    + simpl. by rewrite lookup_insert_ne.
  - destruct (db !! cf) eqn:E; [|done]. destruct (decide (cf' = cf)) as [->|].
    + simpl. by rewrite lookup_insert_eq, E.
    + simpl. by rewrite lookup_insert_ne.
  - case_decide; subst.
    + by rewrite lookup_insert_eq.
    + by rewrite lookup_insert_ne.
  - by rewrite lookup_delete_ne.
  - by rewrite lookup_delete_eq.
  - intros db cf k r [= <-]. by destruct (db !! cf).
Defined.

(** The default [bincode] layout: little-endian integers, a four-byte variant
    index, and a length before the bytes of a uuid or a string. *)
Definition to_le_bytes (n : nat) (v : Z) : bytes := rev (to_be_bytes n v).
Definition from_le_bytes (bs : bytes) : Z := from_be_bytes (rev bs).

Definition read_le (n : nat) (bs : bytes) : option Z :=
  if decide (n ≤ length bs) then Some (from_le_bytes (take n bs)) else None.

#[export] Instance bincode_le : Bincode := {|
  ser_point_id p :=
    match p with
    | SNumId n => to_le_bytes 4 0 ++ to_le_bytes 8 (Z.of_N n)
    | SUuid u => to_le_bytes 4 1 ++ to_le_bytes 8 16 ++ to_be_bytes 16 (Z.of_N u)
    | SString s =>
        to_le_bytes 4 2 ++ to_le_bytes 8 (Z.of_nat (String.length s)) ++
        ((λ c, Z.of_N (Ascii.N_of_ascii c)) <$> String.list_ascii_of_string s)
    end;
  de_point_id bs :=
    tag ← read_le 4 bs;
    match tag with
    | 0%Z => n ← read_le 8 (drop 4 bs); Some (SNumId (Z.to_N n))
    | 1%Z => if decide (28 ≤ length bs)
             then Some (SUuid (Z.to_N (from_be_bytes (take 16 (drop 12 bs))))) else None
    | 2%Z => n ← read_le 8 (drop 4 bs);
             Some (SString (String.string_of_list_ascii
               ((λ b, Ascii.ascii_of_N (Z.to_N b)) <$> take (Z.to_nat n) (drop 12 bs))))
    | _ => None
    end;
  ser_u64 n := to_le_bytes 8 (Z.of_N n);
  de_u64 bs := n ← read_le 8 bs; Some (Z.to_N n);
  ser_usize n := to_le_bytes 8 (Z.of_nat n);
  de_u32 bs := n ← read_le 4 bs; Some (Z.to_nat n);
|}.

Lemma length_to_le_bytes n v : length (to_le_bytes n v) = n.
Proof. unfold to_le_bytes. by rewrite length_rev, length_to_be_bytes. Qed.

Lemma read_le_app n v rest :
  (0 ≤ v < 256 ^ Z.of_nat n)%Z → read_le n (to_le_bytes n v ++ rest) = Some v.
Proof.
  intros Hv. unfold read_le. rewrite decide_True by (rewrite length_app, length_to_le_bytes; lia).
  rewrite take_app_length' by (by rewrite length_to_le_bytes).
  unfold from_le_bytes, to_le_bytes. rewrite rev_involutive. by rewrite from_to_be_bytes.
Qed.

(** The low half of an eight-byte integer is the four-byte integer. *)
Lemma take_le_bytes v : take 4 (to_le_bytes 8 v) = to_le_bytes 4 v.
Proof. done. Qed.

#[export] Instance bincode_le_laws : BincodeLaws.
Proof.
  split; cbn -[to_le_bytes read_le to_be_bytes].
  - intros n Hn. unfold u64_max in Hn. rewrite read_le_app by (simpl; lia). cbn -[read_le].
    rewrite drop_app_length' by (by rewrite length_to_le_bytes).
    rewrite <-(app_nil_r (to_le_bytes 8 _)), read_le_app by (simpl; lia).
    cbn. by rewrite N2Z.id.
  - intros u Hu. unfold u128_max in Hu. rewrite read_le_app by (simpl; lia). cbn -[read_le to_le_bytes].
    rewrite decide_True by (rewrite !length_app, !length_to_le_bytes, length_to_be_bytes; lia).
    rewrite app_assoc, drop_app_length' by (by rewrite length_app, !length_to_le_bytes).
    rewrite take_ge by (by rewrite length_to_be_bytes).
    rewrite from_to_be_bytes by (simpl; lia). by rewrite N2Z.id.
  - intros n Hn. unfold u64_max in Hn.
    rewrite <-(app_nil_r (to_le_bytes 8 _)), read_le_app by (simpl; lia). cbn. by rewrite N2Z.id.
  - intros n. unfold read_le. rewrite decide_True by (rewrite length_to_le_bytes; lia).
    rewrite take_le_bytes. cbn -[to_le_bytes]. unfold from_le_bytes, to_le_bytes.
    rewrite rev_involutive, <-to_be_bytes_mod, from_to_be_bytes
      by (apply Z.mod_pos_bound; simpl; lia).
    unfold as_u32. simpl. f_equal.
    rewrite <-nat_N_Z, <-(N2Z.inj_mod _ 4294967296). by rewrite <-Z_N_nat, N2Z.id.
Qed.

(** A store whose writes fail on demand: each write or delete takes the next
    entry of a script, and fails without effect when it is [false]. *)
Record FlakyDB := mkFlaky { fl_script : list bool; fl_db : MemDB }.

Definition flaky_write (f : MemDB → result string unit * MemDB) (db : FlakyDB) :
    result string unit * FlakyDB :=
  if default true (head (fl_script db))
  then let '(r, m) := f (fl_db db) in (r, mkFlaky (tail (fl_script db)) m)
  else (Err "io error"%string, mkFlaky (tail (fl_script db)) (fl_db db)).

#[export] Instance FlakyDB_rocks : RocksDB FlakyDB := {|
  cf_handle db cf := cf_handle (fl_db db) cf;
  put_cf cf k v := flaky_write (put_cf cf k v);
  delete_cf cf k := flaky_write (delete_cf cf k);
  get_cf db cf k := get_cf (fl_db db) cf k;
  create_cf cf db := let '(r, m) := create_cf cf (fl_db db) in (r, mkFlaky (fl_script db) m);
  drop_cf cf db := let '(r, m) := drop_cf cf (fl_db db) in (r, mkFlaky (fl_script db) m);
  iter_cf db cf := iter_cf (fl_db db) cf;
|}.

#[export] Instance FlakyDB_laws : RocksLaws FlakyDB.
Proof.
  unshelve refine {| cf_view (db : FlakyDB) cf := cf_view (fl_db db) cf |}.
  - intros db cf k v db' cf'. cbn [put_cf FlakyDB_rocks]. unfold flaky_write.
    destruct (default _ _); [|done]. destruct (put_cf cf k v (fl_db db)) as [r m] eqn:E.
    intros [= -> <-]. by apply (put_cf_view (DB:=MemDB)).
  - intros db cf k db' cf'. cbn [delete_cf FlakyDB_rocks]. unfold flaky_write.
    destruct (default _ _); [|done]. destruct (delete_cf cf k (fl_db db)) as [r m] eqn:E.
    intros [= -> <-]. by apply (delete_cf_view (DB:=MemDB)).
  - intros db cf k v cf'. pose proof (put_cf_handle (fl_db db) cf k v cf') as Hp.
    cbn [put_cf cf_handle FlakyDB_rocks]. unfold flaky_write. destruct (default _ _); [|done].
    by destruct (put_cf cf k v (fl_db db)).
  - intros db cf k cf'. pose proof (delete_cf_handle (fl_db db) cf k cf') as Hp.
    cbn [delete_cf cf_handle FlakyDB_rocks]. unfold flaky_write. destruct (default _ _); [|done].
    by destruct (delete_cf cf k (fl_db db)).
  - intros db cf k v. pose proof (put_cf_no_panic (fl_db db) cf k v) as Hp.
    cbn [put_cf FlakyDB_rocks]. unfold flaky_write. destruct (default _ _); [|done].
    by destruct (put_cf cf k v (fl_db db)).
  - intros db cf k. pose proof (delete_cf_no_panic (fl_db db) cf k) as Hp.
    cbn [delete_cf FlakyDB_rocks]. unfold flaky_write. destruct (default _ _); [|done].
    by destruct (delete_cf cf k (fl_db db)).
  - done.
  - done.
  - intros db cf db' cf'. cbn [create_cf FlakyDB_rocks]. destruct (create_cf cf (fl_db db)) as [r m] eqn:E.
    intros [= -> <-]. by apply (create_cf_view (DB:=MemDB)).
  - intros db cf db' cf'. cbn [drop_cf FlakyDB_rocks]. destruct (drop_cf cf (fl_db db)) as [r m] eqn:E.
    intros [= -> <-]. by apply (drop_cf_view (DB:=MemDB)).
  - intros db cf db'. cbn [drop_cf FlakyDB_rocks]. destruct (drop_cf cf (fl_db db)) as [r m] eqn:E.
    intros [= -> <-]. by apply (drop_cf_handle (DB:=MemDB) (fl_db db)).
  - intros db cf k r. apply (get_cf_view (DB:=MemDB)).
  - intros db cf. apply (iter_cf_view (DB:=MemDB)).
Qed.
