(* ===== verification/IdTracker.v ===== *)
(** * Point id tracker

    Models [lib/segment/src/id_tracker]: the trait of
    [id_tracker_base.rs] is the class [IdTracker], with what the rest of the
    segment relies on as [IdTrackerLaws]; [simple_id_tracker.rs] is the
    record [SimpleIdTracker] with one definition per method.

    The two [BTreeMap]s are finite maps iterated in key order, the
    [BitVec] is a list of booleans, offsets are naturals below [2^32], and
    the two database columns live in one store [DB] of class [RocksDB].
    [sample_ids] (random sampling) and the flushers are not modelled. *)

From stdpp Require Import base gmap strings list sorting.
From Stdlib Require Import ZArith Lia.
From S2P Require Import Prelude KeyEncoding Types Rocks.

(** ** The trait *)

Class IdTracker (T : Type) := {
  internal_version : T → PointOffsetType → option SeqNumberType;
  set_internal_version : PointOffsetType → SeqNumberType → sm T OperationError unit;
  internal_id : T → PointIdType → option PointOffsetType;
  external_id : T → PointOffsetType → option PointIdType;
  set_link : PointIdType → PointOffsetType → sm T OperationError unit;
  tracker_drop : PointIdType → sm T OperationError unit;
  iter_external : T → list PointIdType;
  iter_internal : T → OperationResult (list PointOffsetType);
  iter_from : T → option PointIdType → list (PointIdType * PointOffsetType);
  points_count : T → nat;
  internal_size : T → nat;
  is_deleted : T → PointOffsetType → bool;
  deleted_bitvec : T → list bool;
}.

(** The default method; the subtraction is checked (a release build wraps). *)
Definition deleted_count {T} `{!IdTracker T} (t : T) : OperationResult nat :=
  if decide (points_count t ≤ internal_size t)
  then Ok (internal_size t - points_count t) else Panic.

(** What an update leaves in memory, whether or not its write to the
    database fails. *)
Definition link_post {T} `{!IdTracker T} (wf : T → Prop) (e : PointIdType)
    (i : PointOffsetType) (t t' : T) : Prop :=
  wf t' ∧
  (∀ e', internal_id t' e' = if decide (e' = e) then Some i else internal_id t e') ∧
  (∀ j, internal_version t' j = internal_version t j) ∧
  internal_size t' = internal_size t `max` (i + 1).

Definition drop_post {T} `{!IdTracker T} (wf : T → Prop) (e : PointIdType) (t t' : T) : Prop :=
  wf t' ∧
  (∀ e', internal_id t' e' = if decide (e' = e) then None else internal_id t e') ∧
  (∀ j, internal_version t' j = internal_version t j) ∧
  internal_size t' = internal_size t.

Definition version_post {T} `{!IdTracker T} (wf : T → Prop) (i : PointOffsetType)
    (v : SeqNumberType) (t t' : T) : Prop :=
  wf t' ∧
  (∀ e, internal_id t' e = internal_id t e) ∧
  (is_Some (external_id t i) → internal_version t' i = Some v) ∧
  (∀ j, j ≠ i →
    default 0%N (internal_version t' j) = default 0%N (internal_version t j)) ∧
  (∀ j, is_Some (internal_version t j) → is_Some (internal_version t' j)) ∧
  internal_size t' = internal_size t.

Class IdTrackerLaws (T : Type) `{!IdTracker T} := {
  tracker_wf : T → Prop;
  internal_external t e i :
    tracker_wf t → internal_id t e = Some i ↔ external_id t i = Some e;
  internal_id_size t e i : tracker_wf t → internal_id t e = Some i → i < internal_size t;
  internal_size_u32 t : tracker_wf t → (N.of_nat (internal_size t) ≤ u32_max)%N;
  is_deleted_external t i : tracker_wf t → is_deleted t i = false ↔ is_Some (external_id t i);
  deleted_bitvec_spec t i : is_deleted t i = default true (deleted_bitvec t !! i);
  set_link_spec t e i :
    tracker_wf t → internal_id t e = None → external_id t i = None →
    (N.of_nat i < u32_max)%N →
    sm_wp (set_link e i) (λ _, link_post tracker_wf e i t) (λ _, link_post tracker_wf e i t) t;
  tracker_drop_spec t e :
    tracker_wf t →
    sm_wp (tracker_drop e) (λ _, drop_post tracker_wf e t) (λ _, drop_post tracker_wf e t) t;
  set_internal_version_spec t i v :
    tracker_wf t →
    sm_wp (set_internal_version i v) (λ _, version_post tracker_wf i v t)
      (λ _, version_post tracker_wf i v t) t;
  iter_from_sorted t :
    tracker_wf t → StronglySorted (λ a b, point_id_ltb a b = true) (iter_from t None).*1;
  elem_of_iter_from t e i :
    tracker_wf t → (e, i) ∈ iter_from t None ↔ internal_id t e = Some i;
  iter_from_offset t off :
    tracker_wf t → iter_from t (Some off) = filter (λ p, point_id_le off p.1) (iter_from t None);
  iter_external_from t : tracker_wf t → iter_external t = (iter_from t None).*1;
  points_count_iter t : tracker_wf t → points_count t = length (iter_external t);
  iter_internal_live t :
    tracker_wf t →
    ∃ l, iter_internal t = Ok l ∧ NoDup l ∧ ∀ i, i ∈ l ↔ is_Some (external_id t i);
}.

(** ** [SimpleIdTracker] *)

Definition DB_MAPPING_CF : string := "mapping".
Definition DB_VERSIONS_CF : string := "version".

Definition external_to_stored_id (point_id : PointIdType) : StoredPointId :=
  match point_id with
  | NumId idx => SNumId idx
  | Uuid uuid => SUuid uuid
  end.

Definition stored_to_external_id (point_id : StoredPointId) : OperationResult PointIdType :=
  match point_id with
  | SNumId idx => Ok (NumId idx)
  | SUuid uuid => Ok (Uuid uuid)
  | SString _ => Panic (* unimplemented!() *)
  end.

(** The in-memory part of the tracker. *)
Record IdMaps := mkIdMaps {
  deleted : list bool;
  internal_to_external : list PointIdType;
  internal_to_version : list SeqNumberType;
  external_to_internal_num : gmap N PointOffsetType;
  external_to_internal_uuid : gmap N PointOffsetType;
}.

Record SimpleIdTracker (DB : Type) := mkSimpleIdTracker {
  maps : IdMaps;
  store : DB;
}.
Arguments mkSimpleIdTracker {DB}.
Arguments maps {DB}.
Arguments store {DB}.

Definition set_deleted d m := mkIdMaps d (internal_to_external m) (internal_to_version m)
  (external_to_internal_num m) (external_to_internal_uuid m).
Definition set_external l m := mkIdMaps (deleted m) l (internal_to_version m)
  (external_to_internal_num m) (external_to_internal_uuid m).
Definition set_versions l m := mkIdMaps (deleted m) (internal_to_external m) l
  (external_to_internal_num m) (external_to_internal_uuid m).
Definition set_num n m := mkIdMaps (deleted m) (internal_to_external m) (internal_to_version m)
  n (external_to_internal_uuid m).
Definition set_uuid u m := mkIdMaps (deleted m) (internal_to_external m) (internal_to_version m)
  (external_to_internal_num m) u.

(** The [match external_id] blocks over the two maps. *)
Definition maps_get (m : IdMaps) (e : PointIdType) : option PointOffsetType :=
  match e with
  | NumId idx => external_to_internal_num m !! idx
  | Uuid uuid => external_to_internal_uuid m !! uuid
  end.

Definition maps_insert (e : PointIdType) (i : PointOffsetType) (m : IdMaps) : IdMaps :=
  match e with
  | NumId idx => set_num (<[idx := i]> (external_to_internal_num m)) m
  | Uuid uuid => set_uuid (<[uuid := i]> (external_to_internal_uuid m)) m
  end.

Definition maps_remove (e : PointIdType) (m : IdMaps) : IdMaps :=
  match e with
  | NumId idx => set_num (delete idx (external_to_internal_num m)) m
  | Uuid uuid => set_uuid (delete uuid (external_to_internal_uuid m)) m
  end.

(** Filler of unused slots. *)
Definition NO_ID : PointIdType := NumId u64_max.

Definition maps_external_id (m : IdMaps) (i : PointOffsetType) : option PointIdType :=
  match deleted m !! i with
  | Some del => if del : bool then None else internal_to_external m !! i
  | None => None
  end.

Section simple_id_tracker.
Context {DB : Type} {HDB : RocksDB DB} {HBin : Bincode}.
Abbreviation T := (SimpleIdTracker DB).

Definition store_key (e : PointIdType) : bytes := ser_point_id (external_to_stored_id e).

Definition restore_key (data : bytes) : OperationResult PointIdType :=
  stored_external_id ← unwrap (de_point_id data);
  stored_to_external_id stored_external_id.

(** One iteration of the loop over the mapping column in [open]. *)
Definition open_mapping_row (row : bytes * bytes) (m : IdMaps) : OperationResult IdMaps :=
  let '(key, val) := row in
  external_id ← restore_key key;
  internal_id ← unwrap (de_u32 val);
  let m := set_external (grow internal_id NO_ID (internal_to_external m)) m in
  let m := set_deleted (grow internal_id true (deleted m)) m in
  ext ← vec_set internal_id external_id (internal_to_external m);
  let m := set_external ext m in
  del ← vec_get (deleted m) internal_id;
  let m := if del : bool then m else maps_remove external_id m in
  dels ← vec_set internal_id false (deleted m);
  let m := set_deleted dels m in
  Ok (maps_insert external_id internal_id m).

(** One iteration of the loop over the versions column in [open]. *)
Definition open_version_row (row : bytes * bytes) (m : IdMaps) : OperationResult IdMaps :=
  let '(key, val) := row in
  external_id ← restore_key key;
  version ← unwrap (de_u64 val);
  match maps_get m external_id with
  | Some internal_id =>
      vs ← vec_set internal_id version (grow internal_id 0%N (internal_to_version m));
      Ok (set_versions vs m)
  | None => Ok m
  end.

Definition simple_open (db : DB) : OperationResult T :=
  mapping ← column_iter DB_MAPPING_CF db;
  m ← res_fold open_mapping_row mapping (mkIdMaps [] [] [] ∅ ∅);
  versions ← column_iter DB_VERSIONS_CF db;
  m ← res_fold open_version_row versions m;
  Ok (mkSimpleIdTracker m db).

Definition simple_internal_version (self : T) (i : PointOffsetType) : option SeqNumberType :=
  internal_to_version (maps self) !! i.

Definition simple_internal_id (self : T) (e : PointIdType) : option PointOffsetType :=
  maps_get (maps self) e.

Definition simple_external_id (self : T) (i : PointOffsetType) : option PointIdType :=
  maps_external_id (maps self) i.

Definition on_maps (f : IdMaps → IdMaps) : sm T OperationError unit :=
  sm_modify (λ self, mkSimpleIdTracker (f (maps self)) (store self)).

Definition on_store {A} (f : sm DB OperationError A) : sm T OperationError A :=
  sm_zoom store (λ db self, mkSimpleIdTracker (maps self) db) f.

Definition simple_set_internal_version (i : PointOffsetType) (version : SeqNumberType) :
    sm T OperationError unit :=
  ext ← sm_gets (λ self, simple_external_id self i);
  match ext with
  | Some external_id =>
      _ ← on_maps (λ m, set_versions (grow i 0%N (internal_to_version m)) m);
      self ← sm_get;
      vs ← sm_lift (vec_set i version (internal_to_version (maps self)));
      _ ← on_maps (set_versions vs);
      on_store (column_put DB_VERSIONS_CF (store_key external_id) (ser_u64 version))
  | None => mret tt
  end.

Definition simple_set_link (e : PointIdType) (i : PointOffsetType) : sm T OperationError unit :=
  _ ← on_maps (maps_insert e i);
  _ ← on_maps (λ m, set_external (grow i NO_ID (internal_to_external m)) m);
  _ ← on_maps (λ m, set_deleted (grow i true (deleted m)) m);
  self ← sm_get;
  ext ← sm_lift (vec_set i e (internal_to_external (maps self)));
  _ ← on_maps (set_external ext);
  self ← sm_get;
  dels ← sm_lift (vec_set i false (deleted (maps self)));
  _ ← on_maps (set_deleted dels);
  on_store (column_put DB_MAPPING_CF (store_key e) (ser_usize i)).

Definition simple_drop (e : PointIdType) : sm T OperationError unit :=
  removed ← sm_gets (λ self, simple_internal_id self e);
  _ ← on_maps (maps_remove e);
  _ ← (match removed with
       | Some i =>
           self ← sm_get;
           dels ← sm_lift (vec_set i true (deleted (maps self)));
           _ ← on_maps (set_deleted dels);
           self ← sm_get;
           ext ← sm_lift (vec_set i NO_ID (internal_to_external (maps self)));
           on_maps (set_external ext)
       | None => mret tt
       end);
  _ ← on_store (column_remove DB_MAPPING_CF (store_key e));
  on_store (column_remove DB_VERSIONS_CF (store_key e)).

Definition simple_iter_external (self : T) : list PointIdType :=
  (NumId <$> (btree_iter (external_to_internal_num (maps self))).*1) ++
  (Uuid <$> (btree_iter (external_to_internal_uuid (maps self))).*1).

Definition simple_iter_internal (self : T) : OperationResult (list PointOffsetType) :=
  res_filter (λ i, del ← vec_get (deleted (maps self)) i; Ok (negb del))
    (seq 0 (as_u32 (length (internal_to_external (maps self))))).

Definition full_num_iter (m : IdMaps) : list (PointIdType * PointOffsetType) :=
  (λ kv, (NumId kv.1, kv.2)) <$> btree_iter (external_to_internal_num m).
Definition offset_num_iter (m : IdMaps) (offset : N) : list (PointIdType * PointOffsetType) :=
  (λ kv, (NumId kv.1, kv.2)) <$>
    filter (λ kv, (offset ≤ kv.1)%N) (btree_iter (external_to_internal_num m)).
Definition full_uuid_iter (m : IdMaps) : list (PointIdType * PointOffsetType) :=
  (λ kv, (Uuid kv.1, kv.2)) <$> btree_iter (external_to_internal_uuid m).
Definition offset_uuid_iter (m : IdMaps) (offset : N) : list (PointIdType * PointOffsetType) :=
  (λ kv, (Uuid kv.1, kv.2)) <$>
    filter (λ kv, (offset ≤ kv.1)%N) (btree_iter (external_to_internal_uuid m)).

Definition simple_iter_from (self : T) (external_id : option PointIdType) :
    list (PointIdType * PointOffsetType) :=
  let m := maps self in
  match external_id with
  | None => full_num_iter m ++ full_uuid_iter m
  | Some (NumId idx) => offset_num_iter m idx ++ full_uuid_iter m
  | Some (Uuid uuid) => offset_uuid_iter m uuid
  end.

Definition simple_points_count (self : T) : nat :=
  size (external_to_internal_num (maps self)) + size (external_to_internal_uuid (maps self)).

Definition simple_internal_size (self : T) : nat := length (internal_to_external (maps self)).

Definition simple_is_deleted (self : T) (key : PointOffsetType) : bool :=
  match deleted (maps self) !! key with
  | None => true
  | Some d => d
  end.

Definition simple_deleted_bitvec (self : T) : list bool := deleted (maps self).

#[export] Instance simple_id_tracker : IdTracker T := {|
  internal_version := simple_internal_version;
  set_internal_version := simple_set_internal_version;
  internal_id := simple_internal_id;
  external_id := simple_external_id;
  set_link := simple_set_link;
  tracker_drop := simple_drop;
  iter_external := simple_iter_external;
  iter_internal := simple_iter_internal;
  iter_from := simple_iter_from;
  points_count := simple_points_count;
  internal_size := simple_internal_size;
  is_deleted := simple_is_deleted;
  deleted_bitvec := simple_deleted_bitvec;
|}.
End simple_id_tracker.

(** ** The in-memory mapping *)

(** The mapping and its inverse agree, and the vectors have the sizes the
    index arithmetic relies on. *)
Definition maps_wf (m : IdMaps) : Prop :=
  length (deleted m) = length (internal_to_external m) ∧
  length (internal_to_version m) ≤ length (internal_to_external m) ∧
  (N.of_nat (length (internal_to_external m)) ≤ u32_max)%N ∧
  (∀ e i, maps_get m e = Some i ↔ maps_external_id m i = Some e).

Lemma maps_get_insert e i m e' :
  maps_get (maps_insert e i m) e' = if decide (e' = e) then Some i else maps_get m e'.
Proof.
  destruct e as [x|x], e' as [y|y]; simpl; repeat case_decide; simplify_eq;
    rewrite ?lookup_insert_eq, ?lookup_insert_ne by congruence; done.
Qed.

Lemma maps_get_remove e m e' :
  maps_get (maps_remove e m) e' = if decide (e' = e) then None else maps_get m e'.
Proof.
  destruct e as [x|x], e' as [y|y]; simpl; repeat case_decide; simplify_eq;
    rewrite ?lookup_delete_eq, ?lookup_delete_ne by congruence; done.
Qed.

Lemma maps_insert_deleted e i m : deleted (maps_insert e i m) = deleted m.
Proof. by destruct e. Qed.
Lemma maps_insert_external e i m :
  internal_to_external (maps_insert e i m) = internal_to_external m.
Proof. by destruct e. Qed.
Lemma maps_insert_versions e i m :
  internal_to_version (maps_insert e i m) = internal_to_version m.
Proof. by destruct e. Qed.
Lemma maps_remove_deleted e m : deleted (maps_remove e m) = deleted m.
Proof. by destruct e. Qed.
Lemma maps_remove_external e m :
  internal_to_external (maps_remove e m) = internal_to_external m.
Proof. by destruct e. Qed.
Lemma maps_remove_versions e m :
  internal_to_version (maps_remove e m) = internal_to_version m.
Proof. by destruct e. Qed.

Lemma maps_get_set_deleted d m e : maps_get (set_deleted d m) e = maps_get m e.
Proof. by destruct e. Qed.
Lemma maps_get_set_external l m e : maps_get (set_external l m) e = maps_get m e.
Proof. by destruct e. Qed.
Lemma maps_get_set_versions l m e : maps_get (set_versions l m) e = maps_get m e.
Proof. by destruct e. Qed.

Create Rewrite HintDb id_maps.
#[export] Hint Rewrite maps_insert_deleted maps_insert_external maps_insert_versions maps_remove_deleted
  maps_remove_external maps_remove_versions maps_get_set_deleted maps_get_set_external
  maps_get_set_versions maps_get_insert maps_get_remove : id_maps.

Lemma maps_external_id_inv m i e :
  maps_external_id m i = Some e ↔ deleted m !! i = Some false ∧ internal_to_external m !! i = Some e.
Proof. unfold maps_external_id. destruct (deleted m !! i) as [[]|]; naive_solver. Qed.

Lemma maps_wf_bound m e i :
  maps_wf m → maps_get m e = Some i → i < length (internal_to_external m).
Proof.
  intros (_ & _ & _ & Hl) [_ Hi]%Hl%maps_external_id_inv. by eapply lookup_lt_Some.
Qed.

Definition link_maps (e : PointIdType) (i : PointOffsetType) (m : IdMaps) : IdMaps :=
  set_deleted (grow_set i true false (deleted m))
    (set_external (grow_set i NO_ID e (internal_to_external m)) (maps_insert e i m)).

Definition drop_maps (e : PointIdType) (m : IdMaps) : IdMaps :=
  match maps_get m e with
  | Some i => set_external (<[i := NO_ID]> (internal_to_external m))
                (set_deleted (<[i := true]> (deleted m)) (maps_remove e m))
  | None => maps_remove e m
  end.

Definition version_maps (i : PointOffsetType) (v : SeqNumberType) (m : IdMaps) : IdMaps :=
  match maps_external_id m i with
  | Some _ => set_versions (grow_set i 0%N v (internal_to_version m)) m
  | None => m
  end.

Lemma maps_external_link e i m j :
  length (deleted m) = length (internal_to_external m) →
  maps_external_id (link_maps e i m) j = if decide (j = i) then Some e else maps_external_id m j.
Proof.
  intros Hlen. unfold maps_external_id, link_maps. simpl. case_decide as Hj.
  - subst. by rewrite !lookup_grow_set_eq.
  - rewrite !lookup_grow_set_ne by done. rewrite Hlen. case_decide as Hlt; [done|].
    rewrite (lookup_ge_None_2 (deleted m)) by lia. by case_decide.
Qed.

Lemma link_maps_wf e i m :
  maps_wf m → maps_get m e = None → maps_external_id m i = None →
  (N.of_nat i < u32_max)%N → maps_wf (link_maps e i m).
Proof.
  intros (Hlen & Hver & Hmax & Hl) He Hi Hu. split_and!.
  - simpl. rewrite !length_grow_set. lia.
  - simpl. rewrite length_grow_set. autorewrite with id_maps. lia.
  - simpl. rewrite length_grow_set. unfold u32_max in *. lia.
  - intros e' j. rewrite maps_external_link by done. unfold link_maps. autorewrite with id_maps.
    specialize (Hl e' j). repeat case_decide; subst; naive_solver.
Qed.

Lemma maps_external_drop e m j :
  maps_wf m →
  maps_external_id (drop_maps e m) j =
    if decide (maps_get m e = Some j) then None else maps_external_id m j.
Proof.
  intros Hwf. unfold drop_maps. destruct (maps_get m e) as [i|] eqn:He.
  - pose proof (maps_wf_bound _ _ _ Hwf He) as Hi. destruct Hwf as (Hlen & _).
    unfold maps_external_id. simpl. case_decide; simplify_eq.
    + by rewrite list_lookup_insert_eq by lia.
    + by rewrite !list_lookup_insert_ne by congruence.
  - rewrite decide_False by done. unfold maps_external_id. by autorewrite with id_maps.
Qed.

Lemma maps_get_drop e m e' :
  maps_get (drop_maps e m) e' = if decide (e' = e) then None else maps_get m e'.
Proof. unfold drop_maps. destruct (maps_get m e); by autorewrite with id_maps. Qed.

Lemma drop_maps_wf e m : maps_wf m → maps_wf (drop_maps e m).
Proof.
  intros Hwf. pose proof Hwf as (Hlen & Hver & Hmax & Hl). split_and!.
  - unfold drop_maps. destruct (maps_get m e); simpl; autorewrite with id_maps; [|done].
    by rewrite !length_insert.
  - unfold drop_maps. destruct (maps_get m e); simpl; autorewrite with id_maps; [|done].
    by rewrite !length_insert.
  - unfold drop_maps. destruct (maps_get m e); simpl; autorewrite with id_maps; [|done].
    by rewrite length_insert.
  - intros e' j. rewrite maps_external_drop, maps_get_drop by done.
    pose proof (Hl e j). pose proof (Hl e' j). repeat case_decide; subst; naive_solver.
Qed.

Lemma version_maps_wf i v m : maps_wf m → maps_wf (version_maps i v m).
Proof.
  intros (Hlen & Hver & Hmax & Hl). unfold version_maps.
  destruct (maps_external_id m i) as [e|] eqn:Hi; [|done]. split_and!; try done.
  simpl. rewrite length_grow_set.
  apply maps_external_id_inv in Hi as [_ Hi%lookup_lt_Some]. lia.
Qed.

(** ** The tracker's operations in terms of the mapping *)

Section simple_laws.
Context {DB : Type} {HDB : RocksDB DB} {HBin : Bincode}.
Abbreviation T := (SimpleIdTracker DB).
Implicit Types t : T.

Definition simple_wf (t : T) : Prop := maps_wf (maps t).

Lemma vec_set_grow {E A} i (d x : A) l : vec_set (E:=E) i x (grow i d l) = Ok (grow_set i d x l).
Proof. unfold vec_set. rewrite decide_True; [done|]. rewrite length_grow. lia. Qed.

Lemma simple_set_link_eq e i t :
  simple_set_link e i t =
    let '(r, db) := column_put DB_MAPPING_CF (store_key e) (ser_usize i) (store t) in
    (r, mkSimpleIdTracker (link_maps e i (maps t)) db).
Proof.
  unfold simple_set_link, on_maps, on_store, sm_zoom. sm_unfold. cbn -[vec_set column_put].
  rewrite vec_set_grow. cbn -[vec_set column_put]. rewrite vec_set_grow. cbn -[column_put].
  autorewrite with id_maps. by destruct (column_put _ _ _ _), e.
Qed.

Lemma simple_drop_eq e t :
  simple_wf t →
  simple_drop e t =
    match column_remove DB_MAPPING_CF (store_key e) (store t) with
    | (Ok _, db) =>
        let '(r, db) := column_remove DB_VERSIONS_CF (store_key e) db in
        (r, mkSimpleIdTracker (drop_maps e (maps t)) db)
    | (Err err, db) => (Err err, mkSimpleIdTracker (drop_maps e (maps t)) db)
    | (Panic, db) => (Panic, mkSimpleIdTracker (drop_maps e (maps t)) db)
    end.
Proof.
  intros Hwf. unfold simple_drop, simple_internal_id, on_maps, on_store, sm_zoom, drop_maps.
  sm_unfold. cbn -[vec_set column_remove]. destruct (maps_get (maps t) e) as [i|] eqn:He.
  - pose proof (maps_wf_bound _ _ _ Hwf He) as Hi. destruct Hwf as (Hlen & _).
    cbn -[vec_set column_remove]. autorewrite with id_maps. unfold vec_set.
    rewrite decide_True by lia. cbn -[column_remove]. autorewrite with id_maps.
    rewrite decide_True by lia. cbn -[column_remove].
    destruct (column_remove DB_MAPPING_CF _ _) as [[] db]; cbn -[column_remove]; [|done..].
    by destruct (column_remove DB_VERSIONS_CF _ _).
  - cbn -[column_remove]. destruct (column_remove DB_MAPPING_CF _ _) as [[] db];
      cbn -[column_remove]; [|done..]. by destruct (column_remove DB_VERSIONS_CF _ _).
Qed.

Lemma simple_set_version_eq i v t :
  simple_set_internal_version i v t =
    match maps_external_id (maps t) i with
    | Some e =>
        let '(r, db) := column_put DB_VERSIONS_CF (store_key e) (ser_u64 v) (store t) in
        (r, mkSimpleIdTracker (version_maps i v (maps t)) db)
    | None => (Ok tt, t)
    end.
Proof.
  unfold simple_set_internal_version, simple_external_id, version_maps, on_maps, on_store, sm_zoom.
  sm_unfold. cbn -[vec_set column_put]. destruct (maps_external_id (maps t) i) as [e|]; [|done].
  cbn -[vec_set column_put]. rewrite vec_set_grow. cbn -[column_put].
  by destruct (column_put _ _ _ _).
Qed.

Lemma internal_to_version_drop e m : internal_to_version (drop_maps e m) = internal_to_version m.
Proof. unfold drop_maps. destruct (maps_get m e); simpl; by autorewrite with id_maps. Qed.

Lemma length_external_drop e m :
  length (internal_to_external (drop_maps e m)) = length (internal_to_external m).
Proof.
  unfold drop_maps. destruct (maps_get m e); simpl; autorewrite with id_maps; [|done].
  by rewrite length_insert.
Qed.

Lemma default_lookup_grow_set i v (l : list N) j :
  j ≠ i → default 0%N (grow_set i 0%N v l !! j) = default 0%N (l !! j).
Proof.
  intros. rewrite lookup_grow_set_ne by done. case_decide; [done|].
  rewrite (lookup_ge_None_2 l) by lia. by case_decide.
Qed.

(** *** Iteration orders *)

Lemma full_num_keys m :
  (full_num_iter m).*1 = NumId <$> (btree_iter (external_to_internal_num m)).*1.
Proof. unfold full_num_iter. by rewrite <-!list_fmap_compose. Qed.

Lemma full_uuid_keys m :
  (full_uuid_iter m).*1 = Uuid <$> (btree_iter (external_to_internal_uuid m)).*1.
Proof. unfold full_uuid_iter. by rewrite <-!list_fmap_compose. Qed.

Lemma simple_iter_external_from t : simple_iter_external t = (simple_iter_from t None).*1.
Proof. unfold simple_iter_from. by rewrite fmap_app, full_num_keys, full_uuid_keys. Qed.

Lemma simple_iter_sorted t :
  StronglySorted (λ a b, point_id_ltb a b = true) (simple_iter_from t None).*1.
Proof.
  rewrite <-simple_iter_external_from. apply StronglySorted_app_intro.
  - apply (StronglySorted_fmap N.lt); [|apply StronglySorted_btree_keys].
    intros x y. unfold point_id_ltb. simpl. rewrite negb_true_iff, N.leb_gt. done.
  - apply (StronglySorted_fmap N.lt); [|apply StronglySorted_btree_keys].
    intros x y. unfold point_id_ltb. simpl. rewrite negb_true_iff, N.leb_gt. done.
  - intros x y (a & -> & _)%list_elem_of_fmap (b & -> & _)%list_elem_of_fmap. done.
Qed.

Lemma elem_of_simple_iter t e i : (e, i) ∈ simple_iter_from t None ↔ simple_internal_id t e = Some i.
Proof.
  unfold simple_iter_from, full_num_iter, full_uuid_iter, simple_internal_id.
  rewrite elem_of_app, !list_elem_of_fmap. split.
  - intros [([k v] & [= -> ->] & H)|([k v] & [= -> ->] & H)]; by apply elem_of_btree_iter in H.
  - destruct e as [k|k]; simpl; intros H%elem_of_btree_iter; [left|right]; by exists (k, i).
Qed.

Lemma filter_fmap_pairs (f : N → PointIdType) off (l : list (N * nat)) (P : N → Prop)
    `{!∀ x, Decision (P x)} :
  (∀ k, point_id_le off (f k) ↔ P k) →
  filter (λ p : PointIdType * nat, point_id_le off p.1) ((λ kv, (f kv.1, kv.2)) <$> l) =
    (λ kv, (f kv.1, kv.2)) <$> filter (λ kv, P kv.1) l.
Proof.
  intros Hoff. induction l as [|[k v] l IH]; [done|]. rewrite fmap_cons, !filter_cons. simpl.
  repeat case_decide; simpl in *; rewrite ?IH; try done; naive_solver.
Qed.

Lemma simple_iter_offset t off :
  simple_iter_from t (Some off) = filter (λ p, point_id_le off p.1) (simple_iter_from t None).
Proof.
  unfold simple_iter_from, full_num_iter, full_uuid_iter, offset_num_iter, offset_uuid_iter.
  rewrite filter_app. destruct off as [x|x].
  - rewrite (filter_fmap_pairs NumId _ _ (λ k, x ≤ k)%N)
      by (intros k; unfold point_id_le; simpl; apply N.leb_le).
    rewrite (filter_fmap_pairs Uuid _ _ (λ k, True)) by done. by rewrite (list_filter_all (λ _, True)) by done.
  - rewrite (filter_fmap_pairs NumId _ _ (λ k, False)) by done.
    rewrite (list_filter_none (λ _, False)) by (intros ? _ []). simpl.
    rewrite (filter_fmap_pairs Uuid _ _ (λ k, x ≤ k)%N)
      by (intros k; unfold point_id_le; simpl; apply N.leb_le). done.
Qed.

Lemma simple_points_count_iter t : simple_points_count t = length (simple_iter_external t).
Proof.
  unfold simple_points_count, simple_iter_external.
  by rewrite length_app, !length_fmap, !length_btree_iter.
Qed.

(** *** The interface *)

Context {HDBL : RocksLaws DB}.

Lemma simple_is_deleted_external t i :
  simple_wf t → simple_is_deleted t i = false ↔ is_Some (simple_external_id t i).
Proof.
  intros (Hlen & _). unfold simple_is_deleted, simple_external_id, maps_external_id.
  destruct (deleted (maps t) !! i) as [[]|] eqn:Hd; try (split; [done|by intros []]).
  split; [|done]. intros _. apply lookup_lt_is_Some. rewrite <-Hlen. by eapply lookup_lt_Some.
Qed.

Lemma simple_set_link_spec e i t :
  simple_wf t → simple_internal_id t e = None → simple_external_id t i = None →
  (N.of_nat i < u32_max)%N →
  sm_wp (simple_set_link e i) (λ _, link_post simple_wf e i t) (λ _, link_post simple_wf e i t) t.
Proof.
  intros Hwf He Hi Hu. unfold sm_wp. rewrite simple_set_link_eq.
  assert (∀ db, link_post simple_wf e i t (mkSimpleIdTracker (link_maps e i (maps t)) db)) as Hpost.
  { intros db. split_and!.
    - by apply link_maps_wf.
    - intros e'. cbn. unfold simple_internal_id, link_maps. simpl. by autorewrite with id_maps.
    - intros j. cbn. unfold simple_internal_version, link_maps. simpl. by autorewrite with id_maps.
    - cbn. unfold simple_internal_size. simpl. by rewrite length_grow_set. }
  pose proof (column_put_no_panic DB_MAPPING_CF (store_key e) (ser_usize i) (store t)).
  by destruct (column_put _ _ _ _) as [[]].
Qed.

Lemma simple_drop_spec e t :
  simple_wf t →
  sm_wp (simple_drop e) (λ _, drop_post simple_wf e t) (λ _, drop_post simple_wf e t) t.
Proof.
  intros Hwf. unfold sm_wp. rewrite simple_drop_eq by done.
  assert (∀ db, drop_post simple_wf e t (mkSimpleIdTracker (drop_maps e (maps t)) db)) as Hpost.
  { intros db. split_and!.
    - by apply drop_maps_wf.
    - intros e'. apply maps_get_drop.
    - intros j. cbn. unfold simple_internal_version. simpl. by rewrite internal_to_version_drop.
    - apply length_external_drop. }
  pose proof (column_remove_no_panic DB_MAPPING_CF (store_key e) (store t)).
  destruct (column_remove DB_MAPPING_CF _ _) as [[] db]; [|done..].
  pose proof (column_remove_no_panic DB_VERSIONS_CF (store_key e) db).
  by destruct (column_remove DB_VERSIONS_CF _ _) as [[]].
Qed.

Lemma simple_set_version_spec i v t :
  simple_wf t →
  sm_wp (simple_set_internal_version i v) (λ _, version_post simple_wf i v t)
    (λ _, version_post simple_wf i v t) t.
Proof.
  intros Hwf. unfold sm_wp. rewrite simple_set_version_eq.
  assert (∀ db, version_post simple_wf i v t (mkSimpleIdTracker (version_maps i v (maps t)) db))
    as Hpost.
  { intros db. unfold version_post, version_maps. cbn.
    unfold simple_internal_version, simple_external_id, simple_internal_id, simple_internal_size.
    split_and!.
    - by apply version_maps_wf.
    - intros e. simpl. case_match; by autorewrite with id_maps.
    - intros [e' He']. rewrite He'. simpl. apply lookup_grow_set_eq.
    - intros j Hj. simpl. case_match; [|done]. by apply default_lookup_grow_set.
    - intros j. simpl. case_match; [|done]. simpl. rewrite !lookup_lt_is_Some, length_grow_set. lia.
    - simpl. by case_match. }
  pose proof (Hpost (store t)) as Ht. unfold version_maps in Ht.
  destruct (maps_external_id (maps t) i) as [e|] eqn:He; [|by destruct t].
  pose proof (column_put_no_panic DB_VERSIONS_CF (store_key e) (ser_u64 v) (store t)).
  by destruct (column_put _ _ _ _) as [[]].
Qed.

Lemma simple_iter_internal_eq t :
  simple_wf t →
  simple_iter_internal t =
    Ok (filter (λ i, negb (simple_is_deleted t i) = true)
          (seq 0 (length (internal_to_external (maps t))))).
Proof.
  intros (Hlen & _ & Hmax & _). unfold simple_iter_internal. rewrite as_u32_small by done.
  apply res_filter_Ok. intros i [_ Hi]%elem_of_seq. unfold vec_get, simple_is_deleted.
  destruct (lookup_lt_is_Some_2 (deleted (maps t)) i) as [d ->]; [lia|done].
Qed.

Lemma simple_iter_internal_live t :
  simple_wf t →
  ∃ l, simple_iter_internal t = Ok l ∧ NoDup l ∧ ∀ i, i ∈ l ↔ is_Some (simple_external_id t i).
Proof.
  intros Hwf. eexists. split_and!; [by apply simple_iter_internal_eq|apply NoDup_filter, NoDup_seq|].
  intros i. rewrite list_elem_of_filter, elem_of_seq, negb_true_iff.
  rewrite simple_is_deleted_external by done. split; [naive_solver|]. intros He. split; [done|].
  destruct He as [e He]. pose proof Hwf as (_ & _ & _ & Hl). apply Hl in He.
  pose proof (maps_wf_bound _ _ _ Hwf He) as Hb. unfold simple_internal_size in Hb. lia.
Qed.

#[export] Instance simple_id_tracker_laws : IdTrackerLaws T.
Proof.
  refine {| tracker_wf := simple_wf |}.
  - intros t e i (_ & _ & _ & Hl). apply Hl.
  - intros t e i Hwf He. exact (maps_wf_bound _ _ _ Hwf He).
  - by intros t (_ & _ & Hmax & _).
  - intros. by apply simple_is_deleted_external.
  - intros. cbn. unfold simple_is_deleted, simple_deleted_bitvec. by destruct (_ !! _).
  - intros. by apply simple_set_link_spec.
  - intros. by apply simple_drop_spec.
  - intros. by apply simple_set_version_spec.
  - intros. apply simple_iter_sorted.
  - intros. apply elem_of_simple_iter.
  - intros. apply simple_iter_offset.
  - intros. apply simple_iter_external_from.
  - intros. apply simple_points_count_iter.
  - apply simple_iter_internal_live.
Defined.
End simple_laws.

(** ** Operation sequences and persistence *)

Inductive tracker_op : Type :=
| OpLink (e : PointIdType) (i : PointOffsetType)
| OpDrop (e : PointIdType)
| OpVersion (i : PointOffsetType) (v : SeqNumberType).

(** The value ranges of [u64] and [Uuid]. *)
Definition valid_id (e : PointIdType) : Prop :=
  match e with NumId n => (n ≤ u64_max)%N | Uuid u => (u ≤ u128_max)%N end.

Section persistence.
Context {DB : Type} {HDB : RocksDB DB} {HDBL : RocksLaws DB} {HBin : Bincode} {HBinL : BincodeLaws}.
Abbreviation T := (SimpleIdTracker DB).
Implicit Types t : T.

Definition run_op (op : tracker_op) : sm T OperationError unit :=
  match op with
  | OpLink e i => simple_set_link e i
  | OpDrop e => simple_drop e
  | OpVersion i v => simple_set_internal_version i v
  end.

(** How the segment calls the tracker: a new id gets the next free offset. *)
Definition op_ok (t : T) (op : tracker_op) : Prop :=
  match op with
  | OpLink e i =>
      valid_id e ∧ simple_internal_id t e = None ∧ simple_internal_size t ≤ i
      ∧ (N.of_nat i < u32_max)%N
  | OpDrop e => valid_id e
  | OpVersion i v => (v ≤ u64_max)%N
  end.

(** Any number of operations, their database writes failing or not. *)
Inductive tracker_steps : T → T → Prop :=
| steps_refl t : tracker_steps t t
| steps_op t t' op r t'' :
    tracker_steps t t' → op_ok t' op → run_op op t' = (r, t'') → tracker_steps t t''.

(** Operations whose writes all succeed. *)
Inductive tracker_ok_steps : T → T → Prop :=
| ok_steps_refl t : tracker_ok_steps t t
| ok_steps_op t t' op t'' :
    tracker_ok_steps t t' → op_ok t' op → run_op op t' = (Ok tt, t'') → tracker_ok_steps t t''.

(** The database columns hold the mapping and the versions. *)
Record synced (t : T) : Prop := {
  synced_wf : simple_wf t;
  synced_valid e i : simple_internal_id t e = Some i → valid_id e;
  synced_cf : cf_handle (store t) DB_MAPPING_CF = true ∧ cf_handle (store t) DB_VERSIONS_CF = true;
  synced_mapping k v :
    cf_view (store t) DB_MAPPING_CF !! k = Some v ↔
    ∃ e i, k = store_key e ∧ v = ser_usize i ∧ simple_internal_id t e = Some i;
  synced_versions k v :
    cf_view (store t) DB_VERSIONS_CF !! k = Some v →
    ∃ e i n, k = store_key e ∧ v = ser_u64 n ∧ (n ≤ u64_max)%N ∧
      simple_internal_id t e = Some i ∧ simple_internal_version t i = Some n;
  synced_version_of e i :
    simple_internal_id t e = Some i →
    default 0%N (simple_internal_version t i) = 0%N ∨
    is_Some (cf_view (store t) DB_VERSIONS_CF !! store_key e);
}.

(** Two trackers that answer every query about linked points alike. *)
Definition same_tracker (t t' : T) : Prop :=
  (∀ e, simple_internal_id t' e = simple_internal_id t e) ∧
  (∀ i, simple_external_id t' i = simple_external_id t i) ∧
  (∀ i, is_Some (simple_external_id t i) →
    default 0%N (simple_internal_version t' i) = default 0%N (simple_internal_version t i)).

Lemma restore_store_key e : valid_id e → restore_key (store_key e) = Ok e.
Proof.
  unfold restore_key, store_key. destruct e; simpl; intros H.
  - by rewrite de_ser_num_id.
  - by rewrite de_ser_uuid.
Qed.

Lemma store_key_inj e e' : valid_id e → valid_id e' → store_key e = store_key e' → e = e'.
Proof.
  intros He He' Heq. pose proof (restore_store_key e He) as H1.
  rewrite Heq, restore_store_key in H1 by done. congruence.
Qed.

Lemma run_op_no_panic op t : simple_wf t → op_ok t op → (run_op op t).1 ≠ Panic ∧ simple_wf (run_op op t).2.
Proof.
  intros Hwf Hok.
  assert (sm_wp (run_op op) (λ _, simple_wf) (λ _, simple_wf) t) as Hwp.
  { destruct op as [e i|e|i v]; simpl in *.
    - destruct Hok as (_ & He & Hi & Hu).
      eapply sm_wp_mono; [apply simple_set_link_spec; try done| |]; [|by intros ?? []..].
      unfold simple_external_id, maps_external_id. destruct Hwf as (Hlen & _).
      unfold simple_internal_size in Hi. by rewrite lookup_ge_None_2 by lia.
    - eapply sm_wp_mono; [by apply simple_drop_spec|by intros ?? []..].
    - eapply sm_wp_mono; [by apply simple_set_version_spec|by intros ?? []..]. }
  unfold sm_wp in Hwp. destruct (run_op op t) as [[]]; by split.
Qed.

(** Loading the mapping column: each row links one fresh pair. *)
Lemma open_mapping_row_link e i m :
  maps_wf m → valid_id e → (N.of_nat i < u32_max)%N → maps_external_id m i = None →
  open_mapping_row (store_key e, ser_usize i) m = Ok (link_maps e i m).
Proof.
  intros (Hlen & _) He Hi Hext. unfold open_mapping_row. rewrite restore_store_key by done.
  cbn -[vec_set vec_get]. rewrite de_u32_ser_usize, as_u32_small by lia. cbn -[vec_set vec_get].
  rewrite vec_set_grow. cbn -[vec_set vec_get].
  assert (vec_get (E:=OperationError) (grow i true (deleted m)) i = Ok true) as ->.
  { unfold vec_get. rewrite lookup_grow. unfold maps_external_id in Hext.
    destruct (deleted m !! i) as [[]|] eqn:Hd.
    - by rewrite decide_True by (by eapply lookup_lt_Some).
    - apply lookup_ge_None in Hext. apply lookup_lt_Some in Hd. lia.
    - apply lookup_ge_None in Hd. rewrite decide_False, decide_True by lia. done. }
  cbn -[vec_set]. rewrite vec_set_grow. cbn. by destruct e.
Qed.

#[local] Arguments open_mapping_row : simpl never.
#[local] Arguments open_version_row : simpl never.

Definition mapping_row (p : PointIdType * PointOffsetType) : bytes * bytes :=
  (store_key p.1, ser_usize p.2).
Definition version_row (p : PointIdType * SeqNumberType) : bytes * bytes :=
  (store_key p.1, ser_u64 p.2).

Lemma open_mapping_fold ps m :
  maps_wf m → NoDup ps.*1 → NoDup ps.*2 →
  Forall (λ p, valid_id p.1 ∧ (N.of_nat p.2 < u32_max)%N ∧
    maps_get m p.1 = None ∧ maps_external_id m p.2 = None) ps →
  ∃ m', res_fold open_mapping_row (mapping_row <$> ps) m = Ok m' ∧ maps_wf m' ∧
    internal_to_version m' = internal_to_version m ∧
    ∀ e i, maps_get m' e = Some i ↔ (e, i) ∈ ps ∨ maps_get m e = Some i.
Proof.
  revert m. induction ps as [|[e i] ps IH]; intros m Hwf Hnd1 Hnd2 Hps.
  { exists m. split_and!; try done. set_solver. }
  apply NoDup_cons in Hnd1 as [Hn1 Hnd1]. apply NoDup_cons in Hnd2 as [Hn2 Hnd2].
  apply Forall_cons in Hps as [(Hv & Hu & He & Hi) Hps]. cbn [fst snd] in *.
  rewrite fmap_cons. change (mapping_row (e, i)) with (store_key e, ser_usize i).
  cbn [res_fold]. rewrite open_mapping_row_link by done. cbn [mbind result_bind].
  destruct (IH (link_maps e i m)) as (m' & Hf & Hwf' & Hver & Hget); try done.
  - by apply link_maps_wf.
  - apply Forall_forall. intros [e' i'] Hin.
    pose proof (proj1 (Forall_forall _ _) Hps _ Hin) as (Hv' & Hu' & He' & Hi'). simpl in *.
    assert (e' ≠ e ∧ i' ≠ i) as [Hne Hni].
    { split; intros ->; [apply Hn1|apply Hn2]; apply list_elem_of_fmap; by eexists (_, _). }
    split_and!; try done.
    + unfold link_maps. autorewrite with id_maps. by rewrite decide_False.
    + rewrite maps_external_link by apply Hwf. by rewrite decide_False.
  - exists m'. split_and!; try done.
    + rewrite Hver. unfold link_maps. simpl. by autorewrite with id_maps.
    + intros e' i'. rewrite Hget, elem_of_cons. unfold link_maps. autorewrite with id_maps.
      case_decide; naive_solver.
Qed.

Lemma open_version_row_set e n m :
  valid_id e → (n ≤ u64_max)%N →
  open_version_row (store_key e, ser_u64 n) m =
    Ok (match maps_get m e with
        | Some i => set_versions (grow_set i 0%N n (internal_to_version m)) m
        | None => m
        end).
Proof.
  intros He Hn. unfold open_version_row. rewrite restore_store_key by done. cbn -[vec_set].
  rewrite de_ser_u64 by done. cbn -[vec_set]. destruct (maps_get m e); [|done].
  by rewrite vec_set_grow.
Qed.

Lemma open_version_fold vs m :
  maps_wf m → NoDup vs.*1 → Forall (λ p, valid_id p.1 ∧ (p.2 ≤ u64_max)%N) vs →
  ∃ m', res_fold open_version_row (version_row <$> vs) m = Ok m' ∧
    (∀ e, maps_get m' e = maps_get m e) ∧
    (∀ i, maps_external_id m' i = maps_external_id m i) ∧
    (∀ e n i, (e, n) ∈ vs → maps_get m e = Some i → internal_to_version m' !! i = Some n) ∧
    (∀ i, (∀ e n, (e, n) ∈ vs → maps_get m e ≠ Some i) →
      default 0%N (internal_to_version m' !! i) = default 0%N (internal_to_version m !! i) ∧
      (internal_to_version m !! i ≠ None → internal_to_version m' !! i = internal_to_version m !! i)).
Proof.
  revert m. induction vs as [|[e n] vs IH]; intros m Hwf Hnd Hvs.
  { exists m. split_and!; try done. set_solver. }
  apply NoDup_cons in Hnd as [Hne Hnd]. apply Forall_cons in Hvs as [[Hv Hn] Hvs]. cbn [fst snd] in *.
  rewrite fmap_cons. change (version_row (e, n)) with (store_key e, ser_u64 n).
  cbn [res_fold]. rewrite open_version_row_set by done. cbn [mbind result_bind].
  set (m1 := match maps_get m e with Some i => _ | None => m end).
  assert (maps_wf m1 ∧ (∀ e, maps_get m1 e = maps_get m e) ∧
    (∀ i, maps_external_id m1 i = maps_external_id m i)) as (Hwf1 & Hget1 & Hext1).
  { unfold m1. destruct (maps_get m e) as [i|] eqn:He; [|done].
    split_and!; try done. pose proof (version_maps_wf i n m Hwf) as Hw. unfold version_maps in Hw.
    by rewrite (proj1 (proj2 (proj2 (proj2 Hwf)) e i) He) in Hw. }
  destruct (IH m1 Hwf1 Hnd Hvs) as (m' & Hf & Hget & Hext & Hin & Hout).
  exists m'. split_and!; [done|by intros; rewrite Hget|by intros; rewrite Hext| |].
  - intros e' n' i Hin' He'. apply elem_of_cons in Hin' as [[= -> ->]|Hin'].
    + destruct (Hout i) as [_ Hkeep].
      { intros e2 n2 Hin2 He2. rewrite Hget1 in He2. apply Hne.
        assert (e2 = e) as ->; [|apply list_elem_of_fmap; by eexists (_, _)].
        apply (proj2 (proj2 (proj2 Hwf))) in He2, He'. congruence. }
      unfold m1 in Hkeep. rewrite He' in Hkeep. simpl in Hkeep.
      rewrite lookup_grow_set_eq in Hkeep. by apply Hkeep.
    + eapply Hin; [done|]. by rewrite Hget1.
  - intros i Hno. destruct (Hout i) as [Hd Hkeep].
    { intros e2 n2 Hin2. rewrite Hget1. apply (Hno e2 n2). by right. }
    assert (maps_get m e ≠ Some i) as Hei by (eapply Hno; by left).
    unfold m1 in Hd, Hkeep. destruct (maps_get m e) as [j|]; [|by split].
    simpl in *. assert (i ≠ j) by congruence. rewrite default_lookup_grow_set in Hd by done.
    split; [done|]. intros [x Hx]%not_eq_None_Some.
    assert (grow_set j 0%N n (internal_to_version m) !! i = internal_to_version m !! i) as Hg.
    { rewrite lookup_grow_set_ne by done. by rewrite decide_True by (by eapply lookup_lt_Some). }
    rewrite <-Hg. apply Hkeep. by rewrite Hg, Hx.
Qed.

(** The rows of a column as encoded pairs. *)
Lemma rows_as_pairs {A} (f : PointIdType * A → bytes * bytes) (P : PointIdType * A → Prop)
    (rows : list (bytes * bytes)) :
  (∀ p, (f p).1 = store_key p.1) → NoDup rows.*1 →
  (∀ r, r ∈ rows → ∃ p, r = f p ∧ P p) →
  ∃ ps, rows = f <$> ps ∧ Forall P ps ∧ NoDup ps.*1.
Proof.
  intros Hf. induction rows as [|r rows IH]; intros Hnd Hrows.
  { exists []. split_and!; [done|constructor|constructor]. }
  apply NoDup_cons in Hnd as [Hr Hnd].
  destruct IH as (ps & -> & HP & Hps); [done|intros; apply Hrows; by right|].
  destruct (Hrows r) as (p & -> & Hp); [by left|]. exists (p :: ps).
  split_and!; [done|by constructor|]. apply NoDup_cons. split; [|done].
  intros (q & Hq & Hin)%list_elem_of_fmap. apply Hr. rewrite Hf, Hq, <-Hf.
  apply list_elem_of_fmap. eexists (f q). split; [done|]. apply list_elem_of_fmap. by exists q.
Qed.

Lemma iter_cf_NoDup (db : DB) cf : NoDup (iter_cf db cf).*1.
Proof. rewrite iter_cf_view. apply NoDup_fst_map_to_list. Qed.

Lemma elem_of_iter_cf (db : DB) cf k v : (k, v) ∈ iter_cf db cf ↔ cf_view db cf !! k = Some v.
Proof. by rewrite iter_cf_view, elem_of_map_to_list. Qed.

Lemma synced_mapping_rows t :
  synced t → ∃ ps, iter_cf (store t) DB_MAPPING_CF = mapping_row <$> ps ∧ NoDup ps.*1 ∧
    ∀ e i, (e, i) ∈ ps ↔ simple_internal_id t e = Some i.
Proof.
  intros Hs. destruct (rows_as_pairs mapping_row (λ p, simple_internal_id t p.1 = Some p.2)
    (iter_cf (store t) DB_MAPPING_CF)) as (ps & Heq & HP & Hnd).
  - done.
  - apply iter_cf_NoDup.
  - intros [k v] Hin. apply elem_of_iter_cf, (synced_mapping t Hs) in Hin as (e & i & -> & -> & He).
    by exists (e, i).
  - exists ps. split_and!; [done..|]. intros e i. split.
    + intros Hin. by apply (proj1 (Forall_forall _ _) HP _ Hin).
    + intros He. assert ((store_key e, ser_usize i) ∈ mapping_row <$> ps) as Hin.
      { rewrite <-Heq. apply elem_of_iter_cf, (synced_mapping t Hs). by exists e, i. }
      apply list_elem_of_fmap in Hin as ([e' i'] & [= Hk _] & Hin).
      pose proof (proj1 (Forall_forall _ _) HP _ Hin) as He'. simpl in He'.
      apply store_key_inj in Hk as ->; [|by eapply synced_valid..]. congruence.
Qed.

Lemma synced_version_rows t :
  synced t → ∃ vs, iter_cf (store t) DB_VERSIONS_CF = version_row <$> vs ∧ NoDup vs.*1 ∧
    Forall (λ p, valid_id p.1 ∧ (p.2 ≤ u64_max)%N ∧
      ∃ i, simple_internal_id t p.1 = Some i ∧ simple_internal_version t i = Some p.2) vs.
Proof.
  intros Hs. destruct (rows_as_pairs version_row (λ p, valid_id p.1 ∧ (p.2 ≤ u64_max)%N ∧
      ∃ i, simple_internal_id t p.1 = Some i ∧ simple_internal_version t i = Some p.2)
    (iter_cf (store t) DB_VERSIONS_CF)) as (vs & Heq & HP & Hnd).
  - done.
  - apply iter_cf_NoDup.
  - intros [k v] Hin. apply elem_of_iter_cf, (synced_versions t Hs) in Hin
      as (e & i & n & -> & -> & Hn & He & Hi).
    exists (e, n). split; [done|]. simpl. split; [by eapply synced_valid|]. eauto.
  - by exists vs.
Qed.

Lemma wf_NoDup_offsets t ps :
  simple_wf t → NoDup ps.*1 → (∀ e i, (e, i) ∈ ps ↔ simple_internal_id t e = Some i) → NoDup ps.*2.
Proof.
  intros (_ & _ & _ & Hl) Hnd Hps.
  assert (Forall (λ p, simple_internal_id t p.1 = Some p.2) ps) as HF.
  { apply Forall_forall. intros [e i]. apply Hps. }
  clear Hps. induction ps as [|[e i] ps IH]; [constructor|].
  apply NoDup_cons in Hnd as [Hn Hnd]. apply Forall_cons in HF as [He HF].
  apply NoDup_cons. split; [|by apply IH]. intros ([e' i'] & Hi & Hin)%list_elem_of_fmap.
  pose proof (proj1 (Forall_forall _ _) HF _ Hin) as He'. simpl in *. subst i'.
  apply Hl in He, He'. assert (e' = e) as -> by congruence.
  apply Hn, list_elem_of_fmap. by exists (e, i).
Qed.

Lemma empty_maps_wf : maps_wf (mkIdMaps [] [] [] ∅ ∅).
Proof.
  split_and!; try done. intros e i. unfold maps_external_id. simpl.
  destruct e; simpl; by rewrite lookup_empty.
Qed.

(** Reopening a synced store. *)
Lemma synced_open t :
  synced t → ∃ t', simple_open (store t) = Ok t' ∧ same_tracker t t'.
Proof.
  intros Hs. pose proof (synced_wf t Hs) as Hwf. destruct (synced_cf t Hs) as [Hcf1 Hcf2].
  destruct (synced_mapping_rows t Hs) as (ps & Hrows & Hnd & Hps).
  destruct (synced_version_rows t Hs) as (vs & Hvrows & Hvnd & Hvs).
  assert (∀ cf, cf_handle (store t) cf = true →
    column_iter cf (store t) = Ok (iter_cf (store t) cf)) as Hiter.
  { intros cf Hcf. rewrite column_iter_eq. unfold get_column_family. by rewrite Hcf. }
  unfold simple_open. rewrite !Hiter, Hrows by done.
  destruct (open_mapping_fold ps _ empty_maps_wf Hnd) as (m & Hm & Hmwf & Hmver & Hmget).
  { by eapply wf_NoDup_offsets. }
  { apply Forall_forall. intros [e i] Hin. apply Hps in Hin. split_and!.
    - by eapply synced_valid.
    - pose proof (maps_wf_bound _ _ _ Hwf Hin) as Hi. cbn [snd].
      pose proof (proj1 (proj2 (proj2 Hwf))) as Hmax. lia.
    - destruct e; apply lookup_empty.
    - done. }
  cbn [mbind result_bind]. rewrite Hm. cbn [mbind result_bind].
  rewrite Hvrows. cbn [mbind result_bind].
  destruct (open_version_fold vs m Hmwf Hvnd) as (m' & Hm' & Hget & Hext & Hin & Hout).
  { eapply Forall_impl; [exact Hvs|]. by intros p (? & ? & _). }
  rewrite Hm'. cbn [mbind result_bind]. eexists. split; [done|].
  assert (∀ e, maps_get m e = maps_get (maps t) e) as Hsame.
  { intros e. apply option_eq. intros i. rewrite Hmget, Hps. unfold simple_internal_id.
    split; [intros [?|Hnone]; [done|]|by left]. by destruct e; simpl in Hnone; rewrite lookup_empty in Hnone. }
  assert (∀ i, maps_external_id m i = maps_external_id (maps t) i) as Hsame'.
  { intros i. apply option_eq. intros e. destruct Hmwf as (_ & _ & _ & Hl), Hwf as (_ & _ & _ & Hl').
    by rewrite <-Hl, <-Hl', Hsame. }
  unfold same_tracker, simple_internal_id, simple_external_id, simple_internal_version. simpl.
  split_and!; [intros e; by rewrite Hget|intros i; by rewrite Hext|].
  intros i [e Hi]. rewrite <-Hsame' in Hi. apply Hmwf in Hi.
  destruct (decide (e ∈ vs.*1)) as [([e' n] & -> & Hevs)%list_elem_of_fmap|Hno].
  - rewrite (Hin _ _ _ Hevs Hi). simpl.
    destruct (proj1 (Forall_forall _ _) Hvs _ Hevs) as (_ & _ & j & Hj & Hver). simpl in *.
    unfold simple_internal_id in Hj. rewrite <-Hsame in Hj. simplify_eq.
    unfold simple_internal_version in Hver. by rewrite Hver.
  - destruct (Hout i) as [-> _].
    { intros e' n Hevs He'. apply Hno, list_elem_of_fmap. exists (e', n). split; [|done].
      destruct Hmwf as (_ & _ & _ & Hl). apply Hl in He', Hi. simpl. congruence. }
    rewrite Hmver. simpl. rewrite Hsame in Hi.
    destruct (synced_version_of t Hs e i Hi) as [H0|[v Hv]]; [by symmetry|].
    apply elem_of_iter_cf in Hv. rewrite Hvrows in Hv.
    apply list_elem_of_fmap in Hv as ([e' n] & [= Hk _] & Hevs). exfalso. apply Hno.
    apply list_elem_of_fmap. exists (e', n). split; [|done]. simpl.
    apply store_key_inj; [by eapply synced_valid| |done].
    by apply (proj1 (Forall_forall _ _) Hvs _ Hevs).
Qed.

Lemma simple_internal_link e i t (db : DB) e' :
  simple_internal_id (mkSimpleIdTracker (link_maps e i (maps t)) db) e' =
    if decide (e' = e) then Some i else simple_internal_id t e'.
Proof. unfold simple_internal_id, link_maps. simpl. by autorewrite with id_maps. Qed.

Lemma simple_internal_drop e t (db : DB) e' :
  simple_internal_id (mkSimpleIdTracker (drop_maps e (maps t)) db) e' =
    if decide (e' = e) then None else simple_internal_id t e'.
Proof. apply maps_get_drop. Qed.

Lemma synced_link e i t t' :
  synced t → op_ok t (OpLink e i) → simple_set_link e i t = (Ok tt, t') → synced t'.
Proof.
  intros Hs Hok Hrun. pose proof (run_op_no_panic (OpLink e i) t (synced_wf _ Hs) Hok) as [_ Hwf'].
  simpl in Hwf'. rewrite Hrun in Hwf'. destruct Hok as (Hv & He & Hi & Hu).
  rewrite simple_set_link_eq in Hrun. destruct (column_put _ _ _ _) as [r db] eqn:Hput.
  injection Hrun as -> <-.
  pose proof (λ cf, column_put_Ok _ _ _ _ _ cf Hput) as Hview.
  assert (∀ e' i', simple_internal_id t e' = Some i' → e' ≠ e) as Hne by (intros; congruence).
  destruct Hs as [Hwf Hval [Hc1 Hc2] Hmap Hver Hof].
  assert (∀ e' i', simple_internal_id (mkSimpleIdTracker (link_maps e i (maps t)) db) e' = Some i' →
    valid_id e') as Hval'.
  { intros e' i'. rewrite simple_internal_link. case_decide; subst; [done|apply Hval]. }
  split; [done|done|..].
  - simpl. by rewrite !(λ cf, proj2 (Hview cf)).
  - intros k v. simpl. rewrite (proj1 (Hview DB_MAPPING_CF)), decide_True by done.
    rewrite lookup_insert_Some, Hmap. split.
    + intros [[<- <-]|(Hk & e' & i' & -> & -> & He')].
      * exists e, i. by rewrite simple_internal_link, decide_True.
      * exists e', i'. rewrite simple_internal_link, decide_False by eauto. done.
    + intros (e' & i' & -> & -> & He'). pose proof (Hval' _ _ He') as Hv'.
      rewrite simple_internal_link in He'. case_decide as Hd; [left; by simplify_eq|].
      right. split; [|by eauto]. intros Hk. by apply store_key_inj in Hk.
  - intros k v. simpl. rewrite (proj1 (Hview DB_VERSIONS_CF)), decide_False by done.
    intros (e' & i' & n & -> & -> & Hn & He' & Hi')%Hver. exists e', i', n.
    rewrite simple_internal_link, decide_False by eauto. split_and!; try done.
    unfold simple_internal_version, link_maps. simpl. by autorewrite with id_maps.
  - intros e' i'. simpl. rewrite (proj1 (Hview DB_VERSIONS_CF)), decide_False by done.
    rewrite simple_internal_link.
    unfold simple_internal_version, link_maps. simpl. autorewrite with id_maps.
    case_decide; [|apply Hof]. intros [= ->]. left. destruct Hwf as (_ & Hlv & _).
    unfold simple_internal_size in Hi. by rewrite lookup_ge_None_2 by lia.
Qed.

Lemma synced_drop e t t' :
  synced t → op_ok t (OpDrop e) → simple_drop e t = (Ok tt, t') → synced t'.
Proof.
  intros Hs Hv Hrun. pose proof (run_op_no_panic (OpDrop e) t (synced_wf _ Hs) Hv) as [_ Hwf'].
  simpl in Hwf', Hv. rewrite Hrun in Hwf'. rewrite simple_drop_eq in Hrun by apply Hs.
  destruct (column_remove DB_MAPPING_CF _ _) as [[[]| |] db1] eqn:Hrem1; [|done..].
  destruct (column_remove DB_VERSIONS_CF _ _) as [r db2] eqn:Hrem2. injection Hrun as -> <-.
  pose proof (λ cf, column_remove_Ok _ _ _ _ cf Hrem1) as Hview1.
  pose proof (λ cf, column_remove_Ok _ _ _ _ cf Hrem2) as Hview2.
  destruct Hs as [Hwf Hval [Hc1 Hc2] Hmap Hver Hof].
  split; [done|..].
  - intros e' i'. rewrite simple_internal_drop. case_decide; [done|apply Hval].
  - simpl. by rewrite !(λ cf, proj2 (Hview2 cf)), !(λ cf, proj2 (Hview1 cf)).
  - intros k v. simpl. rewrite (proj1 (Hview2 DB_MAPPING_CF)), decide_False by done.
    rewrite (proj1 (Hview1 DB_MAPPING_CF)), decide_True by done.
    rewrite lookup_delete_Some, Hmap. split.
    + intros (Hk & e' & i' & -> & -> & He'). exists e', i'. rewrite simple_internal_drop.
      rewrite decide_False by congruence. done.
    + intros (e' & i' & -> & -> & He'). rewrite simple_internal_drop in He'.
      case_decide; [done|]. split; [|by eauto]. intros Hk.
      apply store_key_inj in Hk; [congruence|done|by eapply Hval].
  - intros k v. simpl. rewrite (proj1 (Hview2 DB_VERSIONS_CF)), decide_True by done.
    rewrite (proj1 (Hview1 DB_VERSIONS_CF)), decide_False by done.
    intros [Hk (e' & i' & n & -> & -> & Hn & He' & Hi')%Hver]%lookup_delete_Some.
    exists e', i', n. rewrite simple_internal_drop, decide_False by congruence.
    split_and!; try done. unfold simple_internal_version. simpl.
    by rewrite internal_to_version_drop.
  - intros e' i'. rewrite simple_internal_drop. case_decide as Hd; [done|]. intros He'.
    unfold simple_internal_version. simpl. rewrite internal_to_version_drop.
    rewrite (proj1 (Hview2 DB_VERSIONS_CF)), decide_True by done.
    rewrite (proj1 (Hview1 DB_VERSIONS_CF)), decide_False by done.
    rewrite lookup_delete_ne; [by apply Hof|]. intros Hk.
    apply store_key_inj in Hk; [congruence|done|by eapply Hval].
Qed.

Lemma synced_version i n t t' :
  synced t → op_ok t (OpVersion i n) → simple_set_internal_version i n t = (Ok tt, t') → synced t'.
Proof.
  intros Hs Hn Hrun. pose proof (run_op_no_panic (OpVersion i n) t (synced_wf _ Hs) Hn) as [_ Hwf'].
  simpl in Hwf', Hn. rewrite Hrun in Hwf'. rewrite simple_set_version_eq in Hrun.
  destruct (maps_external_id (maps t) i) as [e|] eqn:Hi; [|by injection Hrun as <-].
  destruct (column_put _ _ _ _) as [r db] eqn:Hput. injection Hrun as -> <-.
  pose proof (λ cf, column_put_Ok _ _ _ _ _ cf Hput) as Hview.
  destruct Hs as [Hwf Hval [Hc1 Hc2] Hmap Hver Hof].
  assert (simple_internal_id t e = Some i) as He by (by apply Hwf).
  assert (maps (mkSimpleIdTracker (version_maps i n (maps t)) db) =
    set_versions (grow_set i 0%N n (internal_to_version (maps t))) (maps t)) as Hm.
  { simpl. unfold version_maps. by rewrite Hi. }
  assert (∀ e', simple_internal_id (mkSimpleIdTracker (version_maps i n (maps t)) db) e' =
    simple_internal_id t e') as Hid.
  { intros e'. unfold simple_internal_id. by rewrite Hm, maps_get_set_versions. }
  split; [done|..].
  - intros e' i'. rewrite Hid. apply Hval.
  - simpl. by rewrite !(λ cf, proj2 (Hview cf)).
  - intros k v. simpl. rewrite (proj1 (Hview DB_MAPPING_CF)), decide_False by done.
    rewrite Hmap. by setoid_rewrite Hid.
  - intros k v. simpl. rewrite (proj1 (Hview DB_VERSIONS_CF)), decide_True by done.
    unfold simple_internal_version. rewrite Hm. simpl.
    intros [[<- <-]|(Hk & (e' & i' & n' & -> & -> & Hn' & He' & Hi')%Hver)]%lookup_insert_Some.
    + exists e, i, n. rewrite Hid. split_and!; try done. apply lookup_grow_set_eq.
    + exists e', i', n'. rewrite Hid. split_and!; try done.
      rewrite lookup_grow_set_ne.
      * by rewrite decide_True by (by eapply lookup_lt_Some).
      * intros <-. apply Hwf in He, He'. unfold simple_external_id in *. congruence.
  - intros e' i'. rewrite Hid. intros He'. simpl.
    rewrite (proj1 (Hview DB_VERSIONS_CF)), decide_True by done.
    unfold simple_internal_version. rewrite Hm. simpl. destruct (decide (e' = e)) as [->|Hne].
    + right. rewrite lookup_insert_eq. eauto.
    + assert (i' ≠ i). { intros ->. apply Hwf in He, He'. unfold simple_external_id in *. congruence. }
      rewrite default_lookup_grow_set by done. rewrite lookup_insert_ne; [by apply Hof|].
      intros Hk. apply store_key_inj in Hk; [congruence|by eapply Hval..].
Qed.

Lemma synced_steps t t' : synced t → tracker_ok_steps t t' → synced t'.
Proof.
  induction 2 as [|t t' op t'' _ IH Hok Hrun]; [done|]. specialize (IH H).
  destruct op; simpl in Hrun; [by eapply synced_link|by eapply synced_drop|by eapply synced_version].
Qed.

Lemma steps_wf t t' : simple_wf t → tracker_steps t t' → simple_wf t'.
Proof.
  induction 2 as [|t t' op r t'' _ IH Hok Hrun]; [done|]. specialize (IH H).
  pose proof (run_op_no_panic op t' IH Hok) as [_ Hw]. by rewrite Hrun in Hw.
Qed.

(** *** Counting *)

(** The live offsets are in bijection with the live ids. *)
Lemma iter_internal_external t l :
  simple_wf t → simple_iter_internal t = Ok l → omap (simple_external_id t) l ≡ₚ simple_iter_external t.
Proof.
  intros Hwf. rewrite simple_iter_internal_eq by done. intros [= <-].
  pose proof Hwf as (Hlen & _ & _ & Hl). apply NoDup_Permutation.
  - assert (NoDup (filter (λ i, negb (simple_is_deleted t i) = true)
          (seq 0 (length (internal_to_external (maps t)))))) as Hnd
      by (apply NoDup_filter, NoDup_seq).
    induction Hnd as [|i l Hi Hnd IH]; [constructor|]. simpl.
    destruct (simple_external_id t i) as [e|] eqn:He; [|done]. apply NoDup_cons. split; [|done].
    intros (j & Hj & Hje)%list_elem_of_omap. apply Hl in He, Hje. congruence.
  - rewrite simple_iter_external_from. pose proof (simple_iter_sorted t) as Hs.
    induction Hs as [|x l' Hs IH Hf]; constructor; [|done]. intros Hx.
    eapply Forall_forall in Hf; [|done]. unfold point_id_ltb in Hf.
    pose proof (reflexivity (R:=point_id_le) x) as Hr. unfold point_id_le in Hr. by rewrite Hr in Hf.
  - intros e. rewrite list_elem_of_omap, simple_iter_external_from, list_elem_of_fmap. split.
    + intros (i & _ & Hi). apply Hl in Hi. exists (e, i). by rewrite elem_of_simple_iter.
    + intros ([e' i] & -> & Hin). apply elem_of_simple_iter in Hin. exists i. simpl.
      pose proof (maps_wf_bound _ _ _ Hwf Hin). apply Hl in Hin. split; [|done].
      apply list_elem_of_filter. split; [|apply elem_of_seq; lia].
      apply maps_external_id_inv in Hin as [Hd _]. unfold simple_is_deleted. by rewrite Hd.
Qed.

Lemma live_plus_deleted (f : nat → bool) l :
  length (filter (λ i, negb (f i) = true) l) + length (filter (λ i, f i = true) l) = length l.
Proof.
  induction l as [|x l IH]; [done|]. rewrite !filter_cons. destruct (f x); simpl; lia.
Qed.

Lemma iter_internal_count t l :
  simple_wf t → simple_iter_internal t = Ok l → length l = simple_points_count t.
Proof.
  intros Hwf Hl. rewrite simple_points_count_iter, <-(iter_internal_external t l Hwf Hl).
  rewrite simple_iter_internal_eq in Hl by done. injection Hl as <-.
  assert (∀ l, (∀ i, i ∈ l → is_Some (simple_external_id t i)) →
    length l = length (omap (simple_external_id t) l)) as Hlen.
  { clear. intros l. induction l as [|i l IH]; intros Hl; [done|]. simpl.
    destruct (Hl i) as [e ->]; [by left|]. simpl. f_equal. apply IH. intros. apply Hl. by right. }
  apply Hlen. intros i [Hd [_ Hi]%elem_of_seq]%list_elem_of_filter.
  apply (proj1 (simple_is_deleted_external t i Hwf)). by apply negb_true_iff in Hd.
Qed.

Lemma synced_empty (db : DB) :
  cf_handle db DB_MAPPING_CF = true → cf_handle db DB_VERSIONS_CF = true →
  cf_view db DB_MAPPING_CF = ∅ → cf_view db DB_VERSIONS_CF = ∅ →
  simple_open db = Ok (mkSimpleIdTracker (mkIdMaps [] [] [] ∅ ∅) db) ∧
  synced (mkSimpleIdTracker (mkIdMaps [] [] [] ∅ ∅) db).
Proof.
  intros Hc1 Hc2 Hv1 Hv2.
  assert (∀ cf, cf_handle db cf = true → cf_view db cf = ∅ → column_iter cf db = Ok []) as Hiter.
  { intros cf Hcf Hv. rewrite column_iter_eq. unfold get_column_family. rewrite Hcf.
    pose proof (iter_cf_view db cf) as Hp. rewrite Hv, map_to_list_empty in Hp.
    by apply Permutation_nil_r in Hp as ->. }
  assert (∀ e, simple_internal_id (mkSimpleIdTracker (mkIdMaps [] [] [] ∅ ∅) db) e = None) as Hno.
  { intros []; apply lookup_empty. }
  split; [unfold simple_open; by rewrite !Hiter by done|]. split.
  - apply empty_maps_wf.
  - intros e i. by rewrite Hno.
  - done.
  - intros k v. simpl. rewrite Hv1, lookup_empty. split; [done|].
    intros (e & i & _ & _ & He). by rewrite Hno in He.
  - intros k v. simpl. by rewrite Hv2, lookup_empty.
  - intros e i. by rewrite Hno.
Qed.
End persistence.

(** ** Properties *)

Section tracker_properties.
Context {DB : Type} {HDB : RocksDB DB} {HDBL : RocksLaws DB} {HBin : Bincode} {HBinL : BincodeLaws}.
Abbreviation T := (SimpleIdTracker DB).
Implicit Types t : T.

(** C33: whatever the database answers, any sequence of link, drop and version
    operations called the way the segment calls them runs without a panic and
    leaves a mapping in which the ids and the live offsets are in bijection. *)
Theorem tracker_ops_bijective t t' op :
  simple_wf t → tracker_steps t t' → op_ok t' op →
  (run_op op t').1 ≠ Panic ∧
  ∀ e i, simple_internal_id (run_op op t').2 e = Some i ↔
         simple_external_id (run_op op t').2 i = Some e.
Proof.
  intros Hwf Hsteps Hok. pose proof (steps_wf _ _ Hwf Hsteps) as Hwf'.
  destruct (run_op_no_panic op t' Hwf' Hok) as [Hp (_ & _ & _ & Hl)]. by split.
Qed.

(** C34: durability.  A tracker opened on empty columns and changed by
    operations whose writes succeed can be reopened from its store, and the
    reopened tracker maps every id, every offset and the version of every live
    point as before. *)
Theorem tracker_reopen (db : DB) :
  cf_handle db DB_MAPPING_CF = true → cf_handle db DB_VERSIONS_CF = true →
  cf_view db DB_MAPPING_CF = ∅ → cf_view db DB_VERSIONS_CF = ∅ →
  ∃ t0, simple_open db = Ok t0 ∧
    ∀ t, tracker_ok_steps t0 t → ∃ t', simple_open (store t) = Ok t' ∧ same_tracker t t'.
Proof.
  intros Hc1 Hc2 Hv1 Hv2. destruct (synced_empty db) as [Hopen Hs]; try done.
  eexists. split; [exact Hopen|]. intros t Hsteps. by apply synced_open, (synced_steps _ _ Hs).
Qed.

(** Scrolling.  [iter_from] yields exactly the linked points whose id is
    at least the offset, each once, in increasing id order. *)
Lemma tracker_scroll t off :
  simple_wf t →
  StronglySorted (λ a b, point_id_ltb a b = true) (simple_iter_from t off).*1 ∧
  ∀ e i, (e, i) ∈ simple_iter_from t off ↔
    simple_internal_id t e = Some i ∧ (∀ o, off = Some o → point_id_le o e).
Proof.
  intros Hwf. destruct off as [o|].
  - rewrite simple_iter_offset. split.
    + apply StronglySorted_fmap_filter, simple_iter_sorted.
    + intros e i. rewrite list_elem_of_filter, elem_of_simple_iter. naive_solver.
  - split; [apply simple_iter_sorted|]. intros e i. rewrite elem_of_simple_iter. naive_solver.
Qed.

(** The counters.  The live offsets enumerate the live ids one to one,
    [points_count] is their number, and [deleted_count] never underflows and
    is the number of offsets marked deleted. *)
Lemma tracker_counts t :
  simple_wf t →
  ∃ l, simple_iter_internal t = Ok l ∧
    omap (simple_external_id t) l ≡ₚ simple_iter_external t ∧
    length l = simple_points_count t ∧
    deleted_count t = Ok (length (filter (λ i, simple_is_deleted t i = true)
                                    (seq 0 (simple_internal_size t)))).
Proof.
  intros Hwf. eexists. split_and!.
  - by apply simple_iter_internal_eq.
  - apply iter_internal_external; [done|]. by apply simple_iter_internal_eq.
  - apply iter_internal_count; [done|]. by apply simple_iter_internal_eq.
  - unfold deleted_count. cbn. rewrite <-(iter_internal_count t _ Hwf (simple_iter_internal_eq t Hwf)).
    pose proof (live_plus_deleted (simple_is_deleted t) (seq 0 (simple_internal_size t))) as Hsum.
    rewrite length_seq in Hsum. unfold simple_internal_size in *.
    rewrite decide_True by lia. f_equal. lia.
Qed.

(** A mapping column in which two ids share an offset.  [open] removes the
    id it is about to insert instead of the one it replaces, so both ids keep
    resolving to the offset although the offset belongs to the second only. *)
Lemma open_duplicate_offset e1 e2 i :
  valid_id e1 → valid_id e2 → e1 ≠ e2 → (N.of_nat i < u32_max)%N →
  ∃ m, res_fold open_mapping_row [mapping_row (e1, i); mapping_row (e2, i)]
         (mkIdMaps [] [] [] ∅ ∅) = Ok m ∧
    maps_get m e1 = Some i ∧ maps_get m e2 = Some i ∧ maps_external_id m i = Some e2.
Proof.
  intros Hv1 Hv2 Hne Hi. cbn [res_fold].
  change (mapping_row (e1, i)) with (store_key e1, ser_usize i).
  rewrite open_mapping_row_link by (done || apply empty_maps_wf). cbn [mbind result_bind].
  set (m1 := link_maps e1 i _). unfold open_mapping_row, mapping_row. cbn [fst snd].
  rewrite restore_store_key by done. cbn -[vec_set vec_get m1].
  rewrite de_u32_ser_usize, as_u32_small by lia. cbn -[vec_set vec_get m1].
  rewrite vec_set_grow. cbn -[vec_set vec_get m1].
  assert (grow i true (deleted m1) !! i = Some false) as Hd.
  { rewrite lookup_grow. unfold m1. simpl. rewrite length_grow_set, lookup_grow_set_eq.
    by rewrite decide_True by (simpl; lia). }
  unfold vec_get. rewrite Hd. cbn -[vec_set m1]. autorewrite with id_maps. cbn -[vec_set m1].
  rewrite vec_set_grow. cbn -[m1]. eexists. split; [done|].
  autorewrite with id_maps. rewrite decide_False, decide_False, decide_True by done.
  split_and!; [|done|].
  - unfold m1, link_maps. autorewrite with id_maps. by rewrite decide_True.
  - apply maps_external_id_inv. autorewrite with id_maps. simpl. autorewrite with id_maps. simpl.
    split; [apply lookup_grow_set_eq|apply lookup_grow_set_eq].
Qed.
End tracker_properties.

(** ** Witnesses *)

Definition empty_columns : MemDB := {[ DB_MAPPING_CF := ∅; DB_VERSIONS_CF := ∅ ]}.
Definition empty_tracker : SimpleIdTracker MemDB :=
  mkSimpleIdTracker (mkIdMaps [] [] [] ∅ ∅) empty_columns.

(** Two points, a numeric id at offset 0 and a uuid at offset 1. *)
Definition one_point_tracker : SimpleIdTracker MemDB :=
  (run_op (OpLink (NumId 7) 0) empty_tracker).2.
Definition sample_tracker : SimpleIdTracker MemDB :=
  (run_op (OpLink (Uuid 5) 1) one_point_tracker).2.

Lemma sample_tracker_wf : simple_wf sample_tracker.
Proof.
  apply run_op_no_panic; [apply run_op_no_panic; [apply empty_maps_wf|]|]; by vm_compute.
Qed.

Lemma tracker_ops_bijective_witness :
  (run_op (OpLink (NumId 7) 0) empty_tracker).1 ≠ Panic ∧
  (simple_internal_id (run_op (OpLink (NumId 7) 0) empty_tracker).2 (NumId 7) = Some 0 ↔
   simple_external_id (run_op (OpLink (NumId 7) 0) empty_tracker).2 0 = Some (NumId 7)).
Proof.
  destruct (tracker_ops_bijective empty_tracker empty_tracker (OpLink (NumId 7) 0)) as [Hp Hb].
  - apply empty_maps_wf.
  - apply steps_refl.
  - by vm_compute.
  - split; [exact Hp|apply Hb].
Defined.

Lemma tracker_reopen_witness :
  ∃ t0, simple_open empty_columns = Ok t0 ∧
    ∀ t, tracker_ok_steps t0 t → ∃ t', simple_open (store t) = Ok t' ∧ same_tracker t t'.
Proof. apply (tracker_reopen empty_columns); by vm_compute. Defined.

Lemma open_duplicate_offset_witness :
  ∃ m, res_fold open_mapping_row [mapping_row (NumId 1, 0); mapping_row (NumId 2, 0)]
         (mkIdMaps [] [] [] ∅ ∅) = Ok m ∧
    maps_get m (NumId 1) = Some 0 ∧ maps_get m (NumId 2) = Some 0 ∧
    maps_external_id m 0 = Some (NumId 2).
Proof. apply (open_duplicate_offset (NumId 1) (NumId 2) 0); by vm_compute. Defined.
