(* ===== verification/JsonPath.v ===== *)
(** * Payload paths

    Models [lib/segment/src/common/utils.rs]: the dotted and bracketed paths
    that address values inside a JSON payload, reading and removing through
    them, and the transposition of a batch of named vectors (in
    NamedVectors.v).

    The two recursive functions consume the path; the fuel is one more than
    its length, which [get_value_elems] and [remove_value_elems] show to be
    enough: they equal recursions over the list of path elements. *)

From stdpp Require Import base gmap strings list.
From Stdlib Require Import ZArith Lia Ascii.
From S2P Require Import Prelude Types.

(** ** Strings *)

(** [str::split_once] *)
Fixpoint split_once (c : ascii) (s : string) : option (string * string) :=
  match s with
  | EmptyString => None
  | String a s' =>
      if decide (a = c) then Some (EmptyString, s')
      else (λ p : string * string, (String a p.1, p.2)) <$> split_once c s'
  end.

(** [str::split] *)
Fixpoint split_on (c : ascii) (s : string) : list string :=
  match s with
  | EmptyString => [EmptyString]
  | String a s' =>
      if decide (a = c) then EmptyString :: split_on c s'
      else match split_on c s' with
           | [] => [String a EmptyString]
           | x :: l => String a x :: l
           end
  end.

Definition str_chars (s : string) : list ascii := String.list_ascii_of_string s.
Definition str_contains_char (c : ascii) (s : string) : bool :=
  existsb (λ a, bool_decide (a = c)) (str_chars s).
Definition str_ends_with (c : ascii) (s : string) : bool :=
  match last (str_chars s) with Some a => bool_decide (a = c) | None => false end.

Fixpoint drop_matches (c : ascii) (l : list ascii) : list ascii :=
  match l with
  | a :: l' => if decide (a = c) then drop_matches c l' else l
  | [] => []
  end.

(** [str::trim_matches] *)
Definition trim_matches (c : ascii) (s : string) : string :=
  String.string_of_list_ascii (rev (drop_matches c (rev (drop_matches c (str_chars s))))).

Definition digit_of (a : ascii) : option N :=
  let n := N_of_ascii a in
  if decide (48 ≤ n ≤ 57)%N then Some (n - 48)%N else None.

Fixpoint digits_value (acc : N) (l : list ascii) : option N :=
  match l with
  | [] => Some acc
  | a :: l' => d ← digit_of a; digits_value (acc * 10 + d) l'
  end.

(** [str::parse::<u32>]: an optional plus sign, then at least one digit, and
    a value that fits. *)
Definition parse_u32 (s : string) : option N :=
  let l := match str_chars s with
           | (a :: (_ :: _)) as l' => if decide (a = "+"%char) then tail l' else l'
           | l' => l'
           end in
  match l with
  | [] => None
  | _ => n ← digits_value 0 l; if decide (n ≤ u32_max)%N then Some n else None
  end.

(** ** Multi-values *)

Inductive MultiValue (A : Type) : Type :=
| MSingle (o : option A)
| MMultiple (l : list A).
Arguments MSingle {A} o.
Arguments MMultiple {A} l.

Definition mv_default {A} : MultiValue A := MSingle None.
Definition mv_one {A} (value : A) : MultiValue A := MSingle (Some value).
Definition mv_option {A} (value : option A) : MultiValue A := MSingle value.

Definition mv_push {A} (self : MultiValue A) (value : A) : MultiValue A :=
  match self with
  | MSingle (Some v) => MMultiple [v; value]
  | MSingle None => MSingle (Some value)
  | MMultiple vec => MMultiple (vec ++ [value])
  end.

Definition mv_values {A} (self : MultiValue A) : list A :=
  match self with
  | MSingle opt => match opt with Some v => [v] | None => [] end
  | MMultiple vec => vec
  end.

(** The iterator: [take] of the option, [pop] of the vector. *)
Definition mv_next {A} (self : MultiValue A) : option A * MultiValue A :=
  match self with
  | MSingle opt => (opt, MSingle None)
  | MMultiple vec => (last vec, MMultiple (removelast vec))
  end.

(** What draining the iterator yields: a vector is popped from its end. *)
Definition mv_iter {A} (self : MultiValue A) : list A :=
  match self with
  | MSingle opt => match opt with Some v => [v] | None => [] end
  | MMultiple vec => rev vec
  end.

Definition mv_extend {A} (self : MultiValue A) (iter : MultiValue A) : MultiValue A :=
  fold_left mv_push (mv_iter iter) self.

Section json.
Context {Num : Type}.
Abbreviation Value := (Value Num).
Abbreviation Map := (gmap string Value).

Definition check_is_empty (self : MultiValue Value) : bool :=
  match self with
  | MMultiple vec =>
      forallb (λ x, match x with
                    | VArray vec => match vec with [] => true | _ => false end
                    | VNull => true
                    | _ => false
                    end) vec
  | MSingle val =>
      match val with
      | None => true
      | Some (VArray vec) => match vec with [] => true | _ => false end
      | Some VNull => true
      | _ => false
      end
  end.

Definition check_is_null (self : MultiValue Value) : bool :=
  match self with
  | MSingle val => match val with Some val => is_null val | None => false end
  | MMultiple vals => existsb is_null vals
  end.

(** ** Paths *)

Definition parse_array_path (path : string) : option (string * option N) :=
  if negb (str_contains_char "[" path) || negb (str_ends_with "]" path) then None
  else
    match split_on "[" path with
    | [] => None
    | [element] => Some (element, None)
    | element :: index :: _ =>
        if decide (index = "]"%string) then Some (element, None)
        else match parse_u32 (trim_matches "]" index) with
             | Some num_index => Some (element, Some num_index)
             | None => None
             end
    end.

(** Whether the array element at position [i] is addressed. *)
Definition index_matches (array_index : option N) (i : nat) : bool :=
  match array_index with
  | Some array_index => bool_decide (N.of_nat i = array_index)
  | None => true
  end.

(** The loop over the array; [get] is [get_value_from_json_map] on the rest
    of the path. *)
Fixpoint focus_elements (get : option (Map → MultiValue Value)) (array_index : option N)
    (i : nat) (array : list Value) (values : MultiValue Value) : MultiValue Value :=
  match array with
  | [] => values
  | value :: array' =>
      let values' :=
        match value with
        | VObject map =>
            if index_matches array_index i then
              match get with
              | Some get => mv_extend values (get map)
              | None => mv_push values value
              end
            else values
        | _ => values
        end in
      focus_elements get array_index (S i) array' values'
  end.

Definition focus_array_path (get : option (Map → MultiValue Value)) (array_path : string)
    (array_index : option N) (value : Map) : MultiValue Value :=
  match value !! array_path with
  | Some (VArray array) => focus_elements get array_index 0 array mv_default
  | _ => mv_default
  end.

Fixpoint get_value (fuel : nat) (path : string) (value : Map) : MultiValue Value :=
  match fuel with
  | O => mv_default
  | S fuel' =>
      match split_once "." path with
      | Some (element, rest_path) =>
          match parse_array_path element with
          | Some (array_element_path, array_index) =>
              focus_array_path (Some (get_value fuel' rest_path)) array_element_path array_index value
          | None =>
              match value !! element with
              | Some (VObject map) => get_value fuel' rest_path map
              | Some value => if decide (rest_path = EmptyString) then mv_one value else mv_default
              | None => mv_default
              end
          end
      | None =>
          match parse_array_path path with
          | Some (array_element_path, array_index) =>
              focus_array_path None array_element_path array_index value
          | None =>
              match value !! path with
              | Some value => mv_one value
              | None => mv_default
              end
          end
      end
  end.

Definition get_value_from_json_map (path : string) (value : Map) : MultiValue Value :=
  get_value (S (String.length path)) path value.

(** [Vec::remove] *)
Definition vec_remove {A} (i : nat) (l : list A) : list A := take i l ++ drop (S i) l.

(** The loop over the array, replacing the addressed objects; [remove] is
    [remove_value_from_json_map] on the rest of the path. *)
Fixpoint delete_elements (remove : Map → MultiValue Value * Map) (array_index : option N)
    (i : nat) (array : list Value) (values : MultiValue Value) : MultiValue Value * list Value :=
  match array with
  | [] => (values, [])
  | value :: array' =>
      let '(values', value') :=
        match value with
        | VObject map =>
            if index_matches array_index i then
              let '(removed, map') := remove map in
              (mv_extend values removed, VObject map')
            else (values, value)
        | _ => (values, value)
        end in
      let '(res, rest) := delete_elements remove array_index (S i) array' values' in
      (res, value' :: rest)
  end.

Definition delete_array_path (remove : option (Map → MultiValue Value * Map))
    (array_path : string) (array_index : option N) (value : Map) : MultiValue Value * Map :=
  match value !! array_path with
  | Some (VArray array) =>
      match remove with
      | None =>
          match array_index with
          | Some array_index =>
              match array !! N.to_nat array_index with
              | Some v => (mv_one v, <[array_path := VArray (vec_remove (N.to_nat array_index) array)]> value)
              | None => (mv_default, value)
              end
          | None => (mv_one (VArray array), <[array_path := VArray []]> value)
          end
      | Some remove =>
          let '(values, array') := delete_elements remove array_index 0 array mv_default in
          (values, <[array_path := VArray array']> value)
      end
  | _ => (mv_default, value)
  end.

Fixpoint remove_value (fuel : nat) (path : string) (value : Map) : MultiValue Value * Map :=
  match fuel with
  | O => (mv_default, value)
  | S fuel' =>
      match split_once "." path with
      | Some (element, rest_path) =>
          match parse_array_path element with
          | Some (array_element_path, array_index) =>
              delete_array_path (Some (remove_value fuel' rest_path)) array_element_path array_index value
          | None =>
              if decide (rest_path = EmptyString)
              then (mv_option (value !! element), delete element value)
              else
                match value !! element with
                | Some (VObject map) =>
                    let '(values, map') := remove_value fuel' rest_path map in
                    (values, <[element := VObject map']> value)
                | _ => (mv_default, value)
                end
          end
      | None =>
          match parse_array_path path with
          | Some (array_element_path, array_index) =>
              delete_array_path None array_element_path array_index value
          | None => (mv_option (value !! path), delete path value)
          end
      end
  end.

Definition remove_value_from_json_map (path : string) (value : Map) : MultiValue Value * Map :=
  remove_value (S (String.length path)) path value.
End json.

(** The path syntax on the forms the source documents. *)
Example parse_array_path_forms :
  parse_array_path "a" = None ∧ parse_array_path "a[]" = Some ("a"%string, None) ∧
  parse_array_path "a[12]" = Some ("a"%string, Some 12%N) ∧
  parse_array_path "a[+7]" = Some ("a"%string, Some 7%N) ∧
  parse_array_path "a[x]" = None ∧ parse_array_path "a[4294967296]" = None.
Proof. done. Qed.

(** ** Paths as lists of elements *)

Section elems.
Context {Num : Type}.
Abbreviation Value := (Value Num).
Abbreviation Map := (gmap string Value).

(** Reading and removing by recursion over the elements of the path. *)
Fixpoint get_elems (els : list string) (value : Map) : MultiValue Value :=
  match els with
  | [] => mv_default
  | element :: rest =>
      match parse_array_path element, rest with
      | Some (p, i), [] => focus_array_path None p i value
      | Some (p, i), _ => focus_array_path (Some (get_elems rest)) p i value
      | None, [] =>
          match value !! element with Some v => mv_one v | None => mv_default end
      | None, _ =>
          match value !! element with
          | Some (VObject map) => get_elems rest map
          | Some v => if decide (rest = [EmptyString]) then mv_one v else mv_default
          | None => mv_default
          end
      end
  end.

Fixpoint remove_elems (els : list string) (value : Map) : MultiValue Value * Map :=
  match els with
  | [] => (mv_default, value)
  | element :: rest =>
      match parse_array_path element, rest with
      | Some (p, i), [] => delete_array_path None p i value
      | Some (p, i), _ => delete_array_path (Some (remove_elems rest)) p i value
      | None, [] => (mv_option (value !! element), delete element value)
      | None, _ =>
          if decide (rest = [EmptyString])
          then (mv_option (value !! element), delete element value)
          else match value !! element with
               | Some (VObject map) =>
                   let '(values, map') := remove_elems rest map in
                   (values, <[element := VObject map']> value)
               | _ => (mv_default, value)
               end
      end
  end.

Lemma split_on_not_nil c s : split_on c s ≠ [].
Proof. destruct s; simpl; [done|]. case_decide; [done|]. by destruct (split_on c s). Qed.

Lemma split_once_Some c s a r :
  split_once c s = Some (a, r) → split_on c s = a :: split_on c r ∧ String.length r < String.length s.
Proof.
  revert a. induction s as [|x s IH]; intros a; simpl; [done|]. case_decide.
  - intros [= <- <-]. split; [done|lia].
  - destruct (split_once c s) as [[a' r']|] eqn:E; [|done]. intros [= <- <-].
    destruct (IH a' eq_refl) as [-> Hlen]. split; [done|]. simpl. lia.
Qed.

Lemma split_once_None c s : split_once c s = None → split_on c s = [s].
Proof.
  induction s as [|x s IH]; simpl; [done|]. case_decide; [done|].
  destruct (split_once c s) as [[]|]; [done|]. intros _. by rewrite IH.
Qed.

Lemma split_on_empty c s : split_on c s = [EmptyString] ↔ s = EmptyString.
Proof.
  destruct s as [|x s]; [done|]. split; [|done]. simpl. case_decide.
  - pose proof (split_on_not_nil c s). by destruct (split_on c s).
  - by destruct (split_on c s).
Qed.

Lemma focus_elements_ext (f g : Map → MultiValue Value) idx i array values :
  (∀ m, f m = g m) →
  focus_elements (Some f) idx i array values = focus_elements (Some g) idx i array values.
Proof.
  intros Hfg. revert i values. induction array as [|v array IH]; intros i values; simpl; [done|].
  rewrite IH. destruct v; try done. by rewrite Hfg.
Qed.

Lemma focus_array_path_ext (f g : Map → MultiValue Value) p idx m :
  (∀ m, f m = g m) → focus_array_path (Some f) p idx m = focus_array_path (Some g) p idx m.
Proof.
  intros Hfg. unfold focus_array_path. destruct (m !! p) as [[]|]; try done.
  by apply focus_elements_ext.
Qed.

Lemma delete_elements_ext (f g : Map → MultiValue Value * Map) idx i array values :
  (∀ m, f m = g m) →
  delete_elements f idx i array values = delete_elements g idx i array values.
Proof.
  intros Hfg. revert i values. induction array as [|v array IH]; intros i values; simpl; [done|].
  destruct v; try (by rewrite IH). rewrite Hfg.
  destruct (index_matches idx i); [destruct (g m)|]; by rewrite IH.
Qed.

Lemma delete_array_path_ext (f g : Map → MultiValue Value * Map) p idx m :
  (∀ m, f m = g m) → delete_array_path (Some f) p idx m = delete_array_path (Some g) p idx m.
Proof.
  intros Hfg. unfold delete_array_path. destruct (m !! p) as [[]|]; try done.
  by rewrite (delete_elements_ext f g).
Qed.

(** Any fuel above the length of the path gives the recursion over its
    elements. *)
Lemma get_value_elems fuel path (m : Map) :
  String.length path < fuel → get_value fuel path m = get_elems (split_on "." path) m.
Proof.
  revert path m. induction fuel as [|fuel IH]; intros path m Hlen; [lia|]. simpl.
  destruct (split_once "." path) as [[a r]|] eqn:E.
  - apply split_once_Some in E as [-> Hr]. cbn [get_elems].
    assert (∀ m, get_value fuel r m = get_elems (split_on "." r) m) as Hrec by (intros; apply IH; lia).
    pose proof (split_on_not_nil "." r) as Hnil. pose proof (split_on_empty "." r) as Hempty.
    destruct (split_on "." r) as [|x l] eqn:Er; [done|].
    destruct (parse_array_path a) as [[p i]|].
    + by apply focus_array_path_ext.
    + destruct (m !! a) as [v|]; [|done].
      destruct v; [repeat case_decide; naive_solver..|apply Hrec].
  - apply split_once_None in E as ->. done.
Qed.

Lemma remove_value_elems fuel path (m : Map) :
  String.length path < fuel → remove_value fuel path m = remove_elems (split_on "." path) m.
Proof.
  revert path m. induction fuel as [|fuel IH]; intros path m Hlen; [lia|]. simpl.
  destruct (split_once "." path) as [[a r]|] eqn:E.
  - apply split_once_Some in E as [-> Hr]. cbn [remove_elems].
    assert (∀ m, remove_value fuel r m = remove_elems (split_on "." r) m) as Hrec by (intros; apply IH; lia).
    pose proof (split_on_not_nil "." r) as Hnil. pose proof (split_on_empty "." r) as Hempty.
    destruct (split_on "." r) as [|x l] eqn:Er; [done|].
    destruct (parse_array_path a) as [[p i]|].
    + by apply delete_array_path_ext.
    + destruct (decide (r = EmptyString)) as [Hr0|Hr0].
      * by rewrite decide_True by (by apply Hempty).
      * rewrite decide_False by (by rewrite Hempty). destruct (m !! a) as [[]|]; try done.
        by rewrite Hrec.
  - apply split_once_None in E as ->. done.
Qed.

(** ** Removing empties the path *)

Lemma mv_push_values {A} (mv : MultiValue A) v : mv_values (mv_push mv v) = mv_values mv ++ [v].
Proof. by destruct mv as [[]|]. Qed.

Lemma mv_iter_values {A} (mv : MultiValue A) : mv_iter mv = rev (mv_values mv).
Proof. by destruct mv as [[]|]. Qed.

Lemma mv_extend_values {A} (mv it : MultiValue A) :
  mv_values (mv_extend mv it) = mv_values mv ++ rev (mv_values it).
Proof.
  unfold mv_extend. rewrite mv_iter_values. generalize (rev (mv_values it)) as l.
  intros l. revert mv. induction l as [|x l IH]; intros mv; simpl; [by rewrite app_nil_r|].
  rewrite IH, mv_push_values. by rewrite <-app_assoc.
Qed.

(** The iterator yields what [mv_iter] lists. *)
Lemma mv_next_iter {A} (mv : MultiValue A) :
  match mv_next mv with
  | (Some v, mv') => mv_iter mv = v :: mv_iter mv'
  | (None, _) => mv_iter mv = []
  end.
Proof.
  destruct mv as [[]|l]; [done..|]. simpl. destruct l as [|x l _] using rev_ind; [done|].
  rewrite last_snoc, removelast_last. by rewrite rev_app_distr.
Qed.

(** The path does not end in an index [k[n]]. *)
Definition not_indexed (element : string) : bool :=
  match parse_array_path element with Some (_, Some _) => false | _ => true end.

Lemma get_after_delete_elements f g idx i array values values' res :
  mv_values values' = [] →
  (∀ m, mv_values (f (g m : MultiValue Value * Map).2 : MultiValue Value) = []) →
  mv_values (focus_elements (Some f) idx i (delete_elements g idx i array values).2 values') = res →
  res = [].
Proof.
  intros Hv Hfg <-. revert i values values' Hv.
  induction array as [|v array IH]; intros i values values' Hv; simpl; [done|].
  destruct v as [|b|n|s|a|m]; simpl;
    try (destruct (delete_elements g idx (S i) array _) as [r rest] eqn:E; simpl;
         specialize (IH (S i) values values' Hv); rewrite E in IH; exact IH).
  destruct (index_matches idx i) eqn:Hi.
  - specialize (Hfg m). destruct (g m) as [removed m'] eqn:Hg. simpl in *.
    specialize (IH (S i) (mv_extend values removed) (mv_extend values' (f m'))).
    destruct (delete_elements g idx (S i) array _) as [r rest]. simpl in *. rewrite Hi. apply IH.
    rewrite mv_extend_values, Hv, Hfg. done.
  - specialize (IH (S i) values values' Hv).
    destruct (delete_elements g idx (S i) array _) as [r rest]. simpl in *. by rewrite Hi.
Qed.

Lemma get_remove_elems els (m : Map) :
  match last els with Some e => not_indexed e = true | None => True end →
  mv_values (get_elems els (remove_elems els m).2) = [].
Proof.
  revert m. induction els as [|e rest IH]; intros m Hlast; [done|].
  cbn [get_elems remove_elems]. destruct (parse_array_path e) as [[p i]|] eqn:Hp; destruct rest as [|e' rest].
  - simpl in Hlast. unfold not_indexed in Hlast. rewrite Hp in Hlast. destruct i; [done|].
    unfold delete_array_path, focus_array_path. destruct (m !! p) as [[]|] eqn:Hm;
      simpl; rewrite ?Hm; try done. by rewrite lookup_insert_eq.
  - unfold delete_array_path, focus_array_path. destruct (m !! p) as [[]|] eqn:Hm;
      try (simpl; by rewrite Hm).
    destruct (delete_elements (remove_elems (e' :: rest)) i 0 a mv_default) as [values array'] eqn:Hd.
    cbn [snd]. rewrite lookup_insert_eq.
    eapply (get_after_delete_elements _ (remove_elems (e' :: rest)) i 0 a mv_default mv_default);
      [done| |by rewrite Hd].
    intros m'. by apply IH.
  - simpl. by rewrite lookup_delete_eq.
  - case_decide; [simpl; by rewrite lookup_delete_eq|]. destruct (m !! e) as [v|] eqn:Hm;
      [|simpl; by rewrite Hm].
    destruct v as [| | | | |m']; [simpl; by rewrite Hm..|].
    specialize (IH m'). destruct (remove_elems (e' :: rest) m') as [values m''] eqn:Hr.
    cbn [snd]. rewrite lookup_insert_eq. by apply IH.
Qed.

Lemma get_elems_plain e e' rest (m : Map) :
  parse_array_path e = None →
  get_elems (e :: e' :: rest) m =
    match m !! e with
    | Some (VObject map) => get_elems (e' :: rest) map
    | Some v => if decide (e' :: rest = [EmptyString]) then mv_one v else mv_default
    | None => mv_default
    end.
Proof. intros Hp. change (get_elems (e :: e' :: rest) m) with (match parse_array_path e with
  | Some (p, i) => focus_array_path (Some (get_elems (e' :: rest))) p i m
  | None => match m !! e with
    | Some (VObject map) => get_elems (e' :: rest) map
    | Some v => if decide (e' :: rest = [EmptyString]) then mv_one v else mv_default
    | None => mv_default
    end end). by rewrite Hp.
Qed.

Lemma remove_elems_plain e e' rest (m : Map) :
  parse_array_path e = None → e' :: rest ≠ [EmptyString] →
  remove_elems (e :: e' :: rest) m =
    match m !! e with
    | Some (VObject map) =>
        ((remove_elems (e' :: rest) map).1, <[e := VObject (remove_elems (e' :: rest) map).2]> m)
    | _ => (mv_default, m)
    end.
Proof.
  intros Hp Hr. change (remove_elems (e :: e' :: rest) m) with (match parse_array_path e with
  | Some (p, i) => delete_array_path (Some (remove_elems (e' :: rest))) p i m
  | None => if decide (e' :: rest = [EmptyString])
            then (mv_option (m !! e), delete e m)
            else match m !! e with
                 | Some (VObject map) =>
                     let '(values, map') := remove_elems (e' :: rest) map in
                     (values, <[e := VObject map']> m)
                 | _ => (mv_default, m)
                 end end).
  rewrite Hp, decide_False by done. destruct (m !! e) as [[| | | | |m']|]; try done.
  by destruct (remove_elems (e' :: rest) m').
Qed.

(** Elements that name a key: no brackets, not empty. *)
Definition plain_element (e : string) : Prop := parse_array_path e = None ∧ e ≠ EmptyString.

Lemma remove_plain_elems els (m : Map) :
  els ≠ [] → Forall plain_element els →
  mv_values (remove_elems els m).1 = mv_values (get_elems els m) ∧
  (∀ k, Some k ≠ head els → (remove_elems els m).2 !! k = m !! k).
Proof.
  revert m. induction els as [|e rest IH]; intros m Hne Hels; [done|].
  apply Forall_cons in Hels as [[Hp He] Hels].
  destruct rest as [|e' rest].
  - cbn. rewrite Hp. split; [by destruct (m !! e)|]. intros k Hk. simpl in *.
    rewrite lookup_delete_ne by congruence. done.
  - assert (e' :: rest ≠ [EmptyString]) as Hrest.
    { intros [= -> ->]. by apply Forall_cons in Hels as [[_ ?] _]. }
    rewrite remove_elems_plain, get_elems_plain by done.
    destruct (m !! e) as [[| | | | |m']|]; try (rewrite ?decide_False by done; by split).
    destruct (IH m') as [Hv _]; [done..|]. split; [exact Hv|].
    intros k Hk. simpl in Hk. cbn [snd]. by rewrite lookup_insert_ne by congruence.
Qed.
(** ** Removing nothing changes nothing *)

Lemma delete_elements_unchanged (g : Map → MultiValue Value * Map) idx i array values :
  (∀ m, mv_values (g m).1 = [] → (g m).2 = m) →
  mv_values (delete_elements g idx i array values).1 = mv_values values →
  (delete_elements g idx i array values).2 = array.
Proof.
  intros Hg. revert i values.
  assert (∀ array i values, ∃ l, mv_values (delete_elements g idx i array values).1 = mv_values values ++ l)
    as Hpre.
  { clear array. intros array. induction array as [|v array IH]; intros i values; simpl.
    { exists []. by rewrite app_nil_r. }
    destruct v as [|b|n|s|a|m];
      try (destruct (IH (S i) values) as [l Hl];
           destruct (delete_elements g idx (S i) array values); by exists l).
    destruct (index_matches idx i).
    - destruct (g m) as [removed m'].
      destruct (IH (S i) (mv_extend values removed)) as [l Hl].
      destruct (delete_elements g idx (S i) array (mv_extend values removed)). simpl in *.
      rewrite mv_extend_values in Hl. rewrite <-app_assoc in Hl. by eexists.
    - destruct (IH (S i) values) as [l Hl].
      destruct (delete_elements g idx (S i) array values). by exists l. }
  induction array as [|v array IH]; intros i values Heq; [done|]. simpl in *.
  destruct v as [|b|n|s|a|m];
    try (specialize (IH (S i) values); destruct (delete_elements g idx (S i) array values);
         simpl in *; f_equal; by apply IH).
  destruct (index_matches idx i).
  - specialize (Hg m). destruct (g m) as [removed m'].
    destruct (Hpre array (S i) (mv_extend values removed)) as [l Hl].
    specialize (IH (S i) (mv_extend values removed)).
    destruct (delete_elements g idx (S i) array (mv_extend values removed)) as [r rest].
    simpl in *. rewrite Hl in Heq. rewrite mv_extend_values in *.
    apply (f_equal length) in Heq. rewrite !length_app, length_rev in Heq.
    assert (mv_values removed = []) as Hnil by (apply nil_length_inv; lia).
    assert (l = []) as -> by (apply nil_length_inv; lia).
    rewrite Hg by done. f_equal. apply IH. by rewrite app_nil_r in Hl.
  - specialize (IH (S i) values). destruct (delete_elements g idx (S i) array values).
    simpl in *. f_equal. by apply IH.
Qed.

Lemma delete_array_path_unchanged (g : option (Map → MultiValue Value * Map)) p idx (m : Map) :
  (∀ f, g = Some f → ∀ m, mv_values (f m).1 = [] → (f m).2 = m) →
  mv_values (delete_array_path g p idx m).1 = [] → (delete_array_path g p idx m).2 = m.
Proof.
  intros Hg. unfold delete_array_path. destruct (m !! p) as [[| | | |array|]|] eqn:Hm; try done.
  destruct g as [f|].
  - pose proof (delete_elements_unchanged f idx 0 array mv_default (Hg f eq_refl)) as Hd.
    destruct (delete_elements f idx 0 array mv_default) as [values array']. simpl in *.
    intros Hv. rewrite Hd by done. by apply insert_id.
  - destruct idx as [idx|]; [|done]. by destruct (array !! N.to_nat idx).
Qed.

Lemma remove_elems_unchanged els (m : Map) :
  mv_values (remove_elems els m).1 = [] → (remove_elems els m).2 = m.
Proof.
  revert m. induction els as [|e rest IH]; intros m; [done|].
  destruct (parse_array_path e) as [[p i]|] eqn:Hp.
  - simpl. rewrite Hp. destruct rest as [|e' rest]; apply delete_array_path_unchanged; [done|].
    by intros f [= <-].
  - destruct rest as [|e' rest]; [|destruct (decide (e' :: rest = [EmptyString])) as [Heq|Hne]].
    + simpl. rewrite Hp. destruct (m !! e) eqn:Hm; [done|]. intros _. simpl. by rewrite delete_id.
    + injection Heq as -> ->. simpl. rewrite Hp. destruct (m !! e) eqn:Hm; [done|].
      intros _. simpl. by rewrite delete_id.
    + rewrite remove_elems_plain by done. destruct (m !! e) as [[| | | | |m']|] eqn:Hm; try done.
      cbn [fst snd]. intros Hv. rewrite (IH m' Hv). by apply insert_id.
Qed.
End elems.

(** ** Properties *)

(** The fuel of the two path walkers is enough for every path: they are
    the recursions over the dot-separated elements of the path. *)
Lemma path_walk_total {Num} path (m : gmap string (Value Num)) :
  get_value_from_json_map path m = get_elems (split_on "." path) m ∧
  remove_value_from_json_map path m = remove_elems (split_on "." path) m.
Proof.
  split; [apply get_value_elems|apply remove_value_elems]; lia.
Qed.

(** Removing a path leaves nothing to read at it, through objects and
    through arrays, whole or indexed; only a path that itself ends in an index
    is excluded, since removing an array element moves the next one there. *)
Lemma path_remove_clears {Num} path (m : gmap string (Value Num)) :
  (∀ e, last (split_on "." path) = Some e → not_indexed e = true) →
  mv_values (get_value_from_json_map path (remove_value_from_json_map path m).2) = [].
Proof.
  intros Hlast. unfold get_value_from_json_map, remove_value_from_json_map.
  rewrite get_value_elems, remove_value_elems by lia. apply get_remove_elems.
  destruct (last (split_on "." path)); auto.
Qed.

Lemma path_remove_clears_witness :
  mv_values (get_value_from_json_map "a[].b"
    (remove_value_from_json_map "a[].b"
      {[ "a" := VArray [VObject {[ "b" := VNumber 1%Z; "c" := VNull ]}; VBool true] ]}).2) = [].
Proof. apply path_remove_clears. by intros e [= <-]. Defined.

(** On a path of plain keys, removing returns exactly what reading
    returned, and no other key of the document changes. *)
Lemma path_remove_returns {Num} path (m : gmap string (Value Num)) :
  Forall plain_element (split_on "." path) →
  mv_values (remove_value_from_json_map path m).1 = mv_values (get_value_from_json_map path m) ∧
  (∀ k, Some k ≠ head (split_on "." path) →
    (remove_value_from_json_map path m).2 !! k = m !! k).
Proof.
  intros Hels. unfold get_value_from_json_map, remove_value_from_json_map.
  rewrite get_value_elems, remove_value_elems by lia.
  apply remove_plain_elems; [apply split_on_not_nil|done].
Qed.
