(* ===== verification/NamedVectors.v ===== *)
(** * Named vectors

    Models [lib/segment/src/data_types]: the small association list of
    [tiny_map.rs], the named vectors of a point built on it
    ([named_vectors.rs]), the vector formats of the API ([vectors.rs]), and
    the batch transposition of [common/utils.rs].

    Borrowed and owned strings and slices ([Cow]) are the same values here.
    A [HashMap] is a finite map whose iteration order is [map_to_list]; no
    statement depends on that order. *)

From stdpp Require Import base gmap strings list.
From Stdlib Require Import ZArith Lia SpecFloat.
From S2P Require Import Prelude Types.

Abbreviation VectorElementType := spec_float (only parsing).
Abbreviation VectorType := (list spec_float).

(** ** [TinyMap] *)

Section tiny_map.
Context {K V : Type} `{!EqDecision K}.
Abbreviation TinyMap := (list (K * V)).

Definition tm_insert_no_check (key : K) (value : V) (self : TinyMap) : TinyMap :=
  self ++ [(key, value)].

(** Overwrites the first entry with the key, or appends one; returns the
    value it replaced. *)
Fixpoint tm_insert (key : K) (value : V) (self : TinyMap) : option V * TinyMap :=
  match self with
  | [] => (None, [(key, value)])
  | (k, v) :: rest =>
      if decide (k = key) then (Some v, (k, value) :: rest)
      else let '(old, rest') := tm_insert key value rest in (old, (k, v) :: rest')
  end.

Definition tm_get (key : K) (self : TinyMap) : option V :=
  (λ r : nat * (K * V), r.2.2) <$> list_find (λ kv : K * V, kv.1 = key) self.

Fixpoint tm_remove (key : K) (self : TinyMap) : option V * TinyMap :=
  match self with
  | [] => (None, [])
  | (k, v) :: rest =>
      if decide (k = key) then (Some v, rest)
      else let '(old, rest') := tm_remove key rest in (old, (k, v) :: rest')
  end.

Definition tm_contains_key (key : K) (self : TinyMap) : bool :=
  existsb (λ kv, bool_decide (kv.1 = key)) self.

(** [PartialEq]: [veqb] is the equality of the values, which need not be
    reflexive (floats). *)
Definition tm_eq (veqb : V → V → bool) (self other : TinyMap) : bool :=
  if negb (length self =? length other) then false
  else forallb (λ kv, match tm_get kv.1 other with
                      | Some v => veqb v kv.2
                      | None => false
                      end) self.
End tiny_map.

(** ** Points' vectors *)

Abbreviation NamedVectors := (list (string * VectorType)).

Definition DEFAULT_VECTOR_NAME : string := "".

Definition nv_insert (name : string) (vector : VectorType) (self : NamedVectors) : NamedVectors :=
  (tm_insert name vector self).2.

Definition nv_from_map (map : gmap string VectorType) : NamedVectors := map_to_list map.

(** [into_owned_map]: later entries of a [HashMap] being collected win. *)
Definition nv_into_owned_map (self : NamedVectors) : gmap string VectorType :=
  fold_left (λ m kv, <[kv.1 := kv.2]> m) self ∅.

Definition nv_into_default_vector (self : NamedVectors) : option VectorType :=
  tm_get DEFAULT_VECTOR_NAME self.

Inductive VectorStruct : Type :=
| VSingle (v : VectorType)
| VMulti (m : gmap string VectorType).

Definition default_vector (vec : VectorType) : NamedVectors := [(DEFAULT_VECTOR_NAME, vec)].

(** [From<NamedVectors> for VectorStruct]; the [unwrap] is guarded. *)
Definition vector_struct_from (v : NamedVectors) : result OperationError VectorStruct :=
  if (length v =? 1) && tm_contains_key DEFAULT_VECTOR_NAME v
  then d ← unwrap (nv_into_default_vector v); Ok (VSingle d)
  else Ok (VMulti (nv_into_owned_map v)).

Definition vector_struct_get (self : VectorStruct) (name : string) : option VectorType :=
  match self with
  | VSingle v => if decide (name = DEFAULT_VECTOR_NAME) then Some v else None
  | VMulti v => v !! name
  end.

Definition vector_struct_into_all_vectors (self : VectorStruct) : NamedVectors :=
  match self with
  | VSingle v => default_vector v
  | VMulti v => nv_from_map v
  end.

Inductive BatchVectorStruct : Type :=
| BSingle (vs : list VectorType)
| BMulti (m : gmap string (list VectorType)).

(** [From<HashMap<String, Vec<VectorType>>>] *)
Definition batch_from_map (v : gmap string (list VectorType)) : result OperationError BatchVectorStruct :=
  if (size v =? 1) && bool_decide (is_Some (v !! DEFAULT_VECTOR_NAME))
  then kv ← unwrap (head (map_to_list v)); Ok (BSingle kv.2)
  else Ok (BMulti v).

(** One key of the map: resize the rows to this key's number of values, then
    insert each value in its row. *)
Fixpoint insert_column (key : string) (values : list VectorType) (result : list NamedVectors) :
    list NamedVectors :=
  match values, result with
  | value :: values', row :: result' => nv_insert key value row :: insert_column key values' result'
  | _, _ => result
  end.

Definition transpose_step (result : list NamedVectors) (kv : string * list VectorType) :
    list NamedVectors :=
  insert_column kv.1 kv.2 (resize (length kv.2) [] result).

Definition transpose_map_into_named_vector (map : gmap string (list VectorType)) :
    list NamedVectors :=
  fold_left transpose_step (map_to_list map) [].

Definition batch_into_all_vectors (self : BatchVectorStruct) (num_records : nat) :
    list NamedVectors :=
  match self with
  | BSingle vectors => default_vector <$> vectors
  | BMulti named_vectors =>
      if decide (named_vectors = ∅) then replicate num_records []
      else transpose_map_into_named_vector named_vectors
  end.

(** ** The association list as a finite map *)

Section tiny_map_laws.
Context {K V : Type} `{!EqDecision K, !Countable K}.
Abbreviation TinyMap := (list (K * V)).
Implicit Types l : TinyMap.

(** The map an association list stands for: the first entry of a key counts. *)
Definition tm_view (l : TinyMap) : gmap K V := list_to_map l.

Lemma tm_get_nil (k : K) : tm_get k ([] : TinyMap) = None.
Proof. done. Qed.

Lemma tm_get_cons k k' v l :
  tm_get k ((k', v) :: l) = if decide (k' = k) then Some v else tm_get k l.
Proof.
  unfold tm_get. simpl. case_decide; [done|].
  by destruct (list_find _ l) as [[]|].
Qed.

Lemma tm_get_view k l : tm_get k l = tm_view l !! k.
Proof.
  induction l as [|[k' v] l IH]; [by rewrite tm_get_nil|]. rewrite tm_get_cons. simpl.
  case_decide; subst; [by rewrite lookup_insert_eq|by rewrite lookup_insert_ne].
Qed.

Lemma tm_insert_view k v l :
  (tm_insert k v l).1 = tm_view l !! k ∧ tm_view (tm_insert k v l).2 = <[k := v]> (tm_view l).
Proof.
  induction l as [|[k' v'] l [IH1 IH2]]; simpl; [split; [by rewrite lookup_empty|done]|].
  case_decide as Hk.
  - subst. by rewrite lookup_insert_eq, insert_insert_eq.
  - destruct (tm_insert k v l) as [old l']. simpl in *.
    rewrite lookup_insert_ne, IH2, insert_insert_ne by done. done.
Qed.

Lemma tm_insert_keys k v l :
  (tm_insert k v l).2.*1 = if decide (k ∈ l.*1) then l.*1 else l.*1 ++ [k].
Proof.
  induction l as [|[k' v'] l IH]; [done|]. cbn [tm_insert]. destruct (decide (k' = k)) as [->|Hk].
  - rewrite decide_True by (apply elem_of_cons; by left). done.
  - destruct (tm_insert k v l) as [old l']. cbn [snd] in *. rewrite !fmap_cons. cbn [fst].
    rewrite IH. repeat case_decide; set_solver.
Qed.

Lemma tm_insert_NoDup k v l : NoDup l.*1 → NoDup (tm_insert k v l).2.*1.
Proof.
  intros Hnd. rewrite tm_insert_keys. case_decide; [done|].
  apply NoDup_app. split_and!; [done|set_solver|apply NoDup_singleton].
Qed.

Lemma tm_view_None k l : k ∉ l.*1 → tm_view l !! k = None.
Proof. apply not_elem_of_list_to_map_1. Qed.

Lemma tm_remove_view k l :
  NoDup l.*1 → (tm_remove k l).1 = tm_view l !! k ∧ tm_view (tm_remove k l).2 = delete k (tm_view l) ∧
    (tm_remove k l).2.*1 ⊆ l.*1 ∧ NoDup (tm_remove k l).2.*1.
Proof.
  induction l as [|[k' v'] l IH]; intros Hnd; simpl.
  { rewrite lookup_empty, delete_empty. split_and!; [done..|constructor]. }
  apply NoDup_cons in Hnd as [Hn Hnd]. destruct (IH Hnd) as (IH1 & IH2 & IH3 & IH4).
  case_decide as Hk.
  - subst. rewrite lookup_insert_eq, delete_insert_id by (by apply tm_view_None).
    split_and!; [done..|set_solver|done].
  - destruct (tm_remove k l) as [old l']. simpl in *.
    rewrite lookup_insert_ne, IH2, delete_insert_ne by done. split_and!; [done..|set_solver|].
    apply NoDup_cons. set_solver.
Qed.

Lemma tm_contains_view k l : tm_contains_key k l = bool_decide (is_Some (tm_view l !! k)).
Proof.
  induction l as [|[k' v] l IH]; [done|]. simpl. rewrite IH.
  destruct (decide (k' = k)) as [->|].
  - rewrite bool_decide_true by done. simpl. symmetry. apply bool_decide_eq_true_2.
    rewrite lookup_insert_eq. eauto.
  - rewrite bool_decide_false by done. simpl. by rewrite lookup_insert_ne.
Qed.

Lemma tm_view_size l : NoDup l.*1 → size (tm_view l) = length l.
Proof.
  induction l as [|[k v] l IH]; intros Hnd; [done|]. apply NoDup_cons in Hnd as [Hn Hnd]. simpl.
  rewrite map_size_insert_None by (by apply tm_view_None). by rewrite IH.
Qed.

Lemma elem_of_tm_view k v l : NoDup l.*1 → (k, v) ∈ l ↔ tm_view l !! k = Some v.
Proof. intros. by apply elem_of_list_to_map. Qed.

Lemma tm_eq_view veqb l1 l2 :
  NoDup l1.*1 → NoDup l2.*1 →
  tm_eq veqb l1 l2 = true ↔
  ∀ k, match tm_view l1 !! k, tm_view l2 !! k with
       | Some a, Some b => veqb b a = true
       | None, None => True
       | _, _ => False
       end.
Proof.
  intros Hnd1 Hnd2. unfold tm_eq. rewrite <-!tm_view_size by done.
  assert (forallb (λ kv, match tm_get kv.1 l2 with Some v => veqb v kv.2 | None => false end) l1
    = true ↔ ∀ k a, tm_view l1 !! k = Some a → ∃ b, tm_view l2 !! k = Some b ∧ veqb b a = true) as Hall.
  { rewrite forallb_forall. split.
    - intros H k a Hk%elem_of_tm_view; [|done]. apply list_elem_of_In in Hk.
      specialize (H _ Hk). simpl in H. rewrite tm_get_view in H.
      destruct (tm_view l2 !! k); [eauto|done].
    - intros H [k a] Hin%list_elem_of_In%elem_of_tm_view; [|done].
      simpl. rewrite tm_get_view. by destruct (H k a Hin) as (b & -> & ?). }
  destruct (Nat.eqb_spec (size (tm_view l1)) (size (tm_view l2))) as [Heq|Hne]; simpl.
  - rewrite Hall. split.
    + intros H k. destruct (tm_view l1 !! k) as [a|] eqn:Ha.
      * by destruct (H k a Ha) as (b & -> & ?).
      * destruct (tm_view l2 !! k) as [b|] eqn:Hb; [|done].
        assert (dom (tm_view l1) ≡ dom (tm_view l2)) as Hdom.
        { apply set_subseteq_size_equiv; [|rewrite !size_dom; lia].
          intros k' [a' Ha']%elem_of_dom. apply elem_of_dom. destruct (H k' a' Ha') as (? & ? & _). eauto. }
        apply (not_elem_of_dom_2 (tm_view l1) k Ha). rewrite Hdom. apply elem_of_dom. eauto.
    + intros H k a Ha. specialize (H k). rewrite Ha in H.
      destruct (tm_view l2 !! k); [eauto|done].
  - split; [done|]. intros H. exfalso. apply Hne. rewrite <-!size_dom. f_equal.
    apply set_eq. intros k. rewrite !elem_of_dom. specialize (H k).
    destruct (tm_view l1 !! k), (tm_view l2 !! k); naive_solver.
Qed.
End tiny_map_laws.

(** ** Conversions *)

Lemma nv_into_owned_map_view l : NoDup l.*1 → nv_into_owned_map l = tm_view l.
Proof. intros. unfold nv_into_owned_map. rewrite fold_left_insert by done. apply (right_id_L ∅ (∪)). Qed.

Lemma nv_from_map_view m : tm_view (nv_from_map m) = m ∧ NoDup (nv_from_map m).*1.
Proof. split; [apply list_to_map_to_list|apply NoDup_fst_map_to_list]. Qed.

Lemma insert_column_lookup k vs rows i :
  length rows = length vs →
  tm_view <$> (insert_column k vs rows !! i) =
    row ← rows !! i; v ← vs !! i; Some (<[k := v]> (tm_view row)).
Proof.
  revert rows i. induction vs as [|v vs IH]; intros [|row rows] i Hlen; simplify_eq/=; [done|].
  destruct i as [|i]; simpl; [|by apply IH].
  unfold nv_insert. by rewrite (proj2 (tm_insert_view k v row)).
Qed.

Lemma length_insert_column k vs rows : length (insert_column k vs rows) = length rows.
Proof.
  revert rows. induction vs as [|v vs IH]; intros [|row rows]; simpl; [done..|]. by rewrite IH.
Qed.

(** The rows after some of the columns: row [i] holds the [i]-th value of
    each of them. *)
Lemma transpose_fold n l rows (done : gmap string (list VectorType)) :
  NoDup l.*1 → (∀ k, k ∈ l.*1 → done !! k = None) →
  Forall (λ kv : string * list VectorType, length kv.2 = n) l →
  (done = ∅ ∧ rows = [] ∨ length rows = n) →
  (∀ i row, rows !! i = Some row → tm_view row = omap (λ vs, vs !! i) done) →
  let rows' := fold_left transpose_step l rows in
  (l = [] ∨ length rows' = n) ∧
  ∀ i row, rows' !! i = Some row → tm_view row = omap (λ vs, vs !! i) (list_to_map l ∪ done).
Proof.
  revert rows done. induction l as [|[k vs] l IH]; intros rows dn Hnd Hdone Hlens Hrows Hview; simpl.
  { split; [by left|]. intros i row Hi. rewrite (left_id_L ∅ (∪)). by apply Hview. }
  apply NoDup_cons in Hnd as [Hn Hnd]. apply Forall_cons in Hlens as [Hk Hlens]. simpl in Hk.
  unfold transpose_step at 2 4. cbn [fst snd].
  assert (length (resize (length vs) [] rows) = length vs) as Hlen by (by rewrite length_resize).
  destruct (IH (insert_column k vs (resize (length vs) [] rows)) (<[k := vs]> dn)) as [Hl Hv].
  - done.
  - intros k' Hk'. rewrite lookup_insert_ne by (intros ->; done). apply Hdone. set_solver.
  - done.
  - right. rewrite length_insert_column. lia.
  - intros i row Hi. pose proof (insert_column_lookup k vs _ i Hlen) as Hlk. rewrite Hi in Hlk.
    simpl in Hlk. destruct (resize (length vs) [] rows !! i) as [row0|] eqn:Hr; [|done].
    simpl in Hlk. destruct (vs !! i) as [v|] eqn:Hvi; [|done]. simpl in Hlk. injection Hlk as ->.
    rewrite omap_insert_Some with (y := v) by done. f_equal.
    destruct Hrows as [[-> ->]|Hrows].
    + rewrite omap_empty. rewrite lookup_resize_new in Hr by (simpl; apply lookup_lt_Some in Hvi; lia).
      by injection Hr as <-.
    + apply Hview. by rewrite resize_all_alt in Hr by lia.
  - split.
    + right. destruct Hl as [->|Hl]; [simpl|done]. rewrite length_insert_column. lia.
    + intros i row Hi. rewrite (Hv i row Hi). f_equal.
      rewrite <-insert_union_r by (by apply not_elem_of_list_to_map_1). by rewrite insert_union_l.
Qed.

Lemma insert_column_NoDup k vs rows :
  Forall (λ row, NoDup row.*1) rows → Forall (λ row, NoDup row.*1) (insert_column k vs rows).
Proof.
  revert rows. induction vs as [|v vs IH]; intros [|row rows] Hr; simpl; try done.
  apply Forall_cons in Hr as [? ?]. constructor; [by apply tm_insert_NoDup|by apply IH].
Qed.

Lemma transpose_NoDup l rows :
  Forall (λ row, NoDup row.*1) rows → Forall (λ row, NoDup row.*1) (fold_left transpose_step l rows).
Proof.
  revert rows. induction l as [|[k vs] l IH]; intros rows Hr; simpl; [done|]. apply IH, insert_column_NoDup.
  simpl. apply Forall_resize; [constructor|done].
Qed.

(** When every named column of a non-empty batch has [n] vectors, the batch
    becomes [n] rows, and row [i] has under each name the [i]-th vector of that
    column. *)
Lemma transpose_rows (map : gmap string (list VectorType)) n :
  map ≠ ∅ → (∀ k vs, map !! k = Some vs → length vs = n) →
  let rows := transpose_map_into_named_vector map in
  length rows = n ∧
  ∀ i row, rows !! i = Some row → NoDup row.*1 ∧ tm_view row = omap (λ vs, vs !! i) map.
Proof.
  intros Hne Hlen. destruct (transpose_fold n (map_to_list map) [] ∅) as [Hl Hv].
  - apply NoDup_fst_map_to_list.
  - intros k _. apply lookup_empty.
  - apply Forall_forall. intros [k vs] Hin%elem_of_map_to_list. by eapply Hlen.
  - by left.
  - done.
  - split.
    + destruct Hl as [Hnil|Hl]; [|done]. by apply map_to_list_empty_iff in Hnil.
    + intros i row Hi. split.
      * eapply (Forall_lookup_1 (λ row : NamedVectors, NoDup row.*1) _ i row); [|exact Hi]. by apply transpose_NoDup.
      * rewrite (Hv i row Hi). by rewrite list_to_map_to_list, (right_id_L ∅ (∪)).
Qed.

(** Converting a point's vectors to a [VectorStruct] never panics, answers
    lookups alike, and converting back gives vectors that stand for the same
    map. *)
Lemma vector_struct_from_view (v : NamedVectors) :
  NoDup v.*1 →
  ∃ s, vector_struct_from v = Ok s ∧ (∀ name, vector_struct_get s name = tm_get name v) ∧
    tm_view (vector_struct_into_all_vectors s) = tm_view v.
Proof.
  intros Hnd. unfold vector_struct_from, nv_into_default_vector.
  destruct ((length v =? 1) && tm_contains_key DEFAULT_VECTOR_NAME v) eqn:Hc.
  - apply andb_true_iff in Hc as [Hlen Hc]. apply Nat.eqb_eq in Hlen.
    destruct v as [|[k vec] [|]]; try done. simpl in Hc.
    rewrite orb_false_r in Hc. apply bool_decide_eq_true in Hc as ->.
    eexists. split; [done|]. cbn [vector_struct_get vector_struct_into_all_vectors default_vector].
    cbn [fst snd]. split; [|done]. intros name. rewrite !tm_get_cons. repeat case_decide; by subst.
  - eexists. split; [done|]. cbn [vector_struct_get vector_struct_into_all_vectors].
    rewrite (proj1 (nv_from_map_view _)), nv_into_owned_map_view by done. split; [|done].
    intros name. by rewrite tm_get_view.
Qed.

(** *** Collecting the vectors of a point *)

Lemma nv_collect_by {A} (key : A → string) (f : A → OperationResult VectorType) (m : gmap string VectorType) l acc :
  (∀ x, x ∈ l → ∃ v, f x = Ok v ∧ m !! key x = Some v) →
  ∃ vs, res_fold (λ x result, v ← f x; Ok (nv_insert (key x) v result)) l acc = Ok vs ∧
    (NoDup acc.*1 → NoDup vs.*1) ∧
    ∀ name, tm_view vs !! name = if decide (name ∈ key <$> l) then m !! name else tm_view acc !! name.
Proof.
  revert acc. induction l as [|x l IH]; intros acc Hin.
  { exists acc. split_and!; [done..|]. intros name. by rewrite decide_False by apply not_elem_of_nil. }
  destruct (Hin x) as (v & Hv & Hm); [left|]. cbn [res_fold]. rewrite Hv. cbn [mbind result_bind].
  destruct (IH (nv_insert (key x) v acc)) as (vs & Hvs & Hnd' & Hview). { intros y Hy. apply Hin. by right. }
  exists vs. split_and!; [done| |].
  - intros Ha. apply Hnd'. by apply tm_insert_NoDup.
  - intros name. rewrite Hview. unfold nv_insert. rewrite (proj2 (tm_insert_view (key x) v acc)), fmap_cons.
    destruct (decide (name ∈ key <$> l)) as [Hl|Hl]; [by rewrite decide_True by by right|].
    destruct (decide (name = key x)) as [->|Hne].
    + by rewrite lookup_insert_eq, decide_True by left.
    + by rewrite lookup_insert_ne, decide_False by (rewrite ?elem_of_cons; naive_solver).
Qed.

Lemma nv_collect (f : string → OperationResult VectorType) (m : gmap string VectorType) (l : list string) acc :
  (∀ name, name ∈ l → ∃ v, f name = Ok v ∧ m !! name = Some v) →
  ∃ vs, res_fold (λ vector_name result, v ← f vector_name; Ok (nv_insert vector_name v result)) l acc = Ok vs ∧
    (NoDup acc.*1 → NoDup vs.*1) ∧
    ∀ name, tm_view vs !! name = if decide (name ∈ l) then m !! name else tm_view acc !! name.
Proof. intros Hin. destruct (nv_collect_by id f m l acc Hin) as (vs & ? & ? & Hv). exists vs. by rewrite list_fmap_id in Hv. Qed.

(** Over all the names a point has vectors for. *)
Lemma nv_collect_all (f : string → OperationResult VectorType) (m : gmap string VectorType) (l : list string) :
  (∀ name, name ∈ l ↔ is_Some (m !! name)) → (∀ name v, m !! name = Some v → f name = Ok v) →
  ∃ vs, res_fold (λ vector_name result, v ← f vector_name; Ok (nv_insert vector_name v result)) l [] = Ok vs ∧
    NoDup vs.*1 ∧ tm_view vs = m.
Proof.
  intros Hl Hf. destruct (nv_collect f m l []) as (vs & Hvs & Hnd' & Hview).
  { intros name [v Hv]%Hl. eauto. }
  exists vs. split_and!; [done|apply Hnd'; constructor|]. apply map_eq. intros name. rewrite Hview.
  destruct (decide (name ∈ l)) as [Hn|Hn]; [done|]. unfold tm_view. cbn. rewrite lookup_empty.
  destruct (m !! name) eqn:Hm; [|done]. destruct Hn. apply Hl. eauto.
Qed.

(** Over the names a request selects. *)
Lemma collected_shown (f : string → OperationResult VectorType) (m : gmap string VectorType) (names : list string) :
  (∀ name, name ∈ names → ∃ v, f name = Ok v ∧ m !! name = Some v) →
  ∃ vs v, res_fold (λ vector_name result, v ← f vector_name; Ok (nv_insert vector_name v result)) names [] = Ok vs ∧
    vector_struct_from vs = Ok v ∧
    tm_view (vector_struct_into_all_vectors v) = base.filter (λ kv, kv.1 ∈ names) m.
Proof.
  intros Hn. destruct (nv_collect f m names [] Hn) as (vs & Hvs & Hnd & Hv).
  destruct (vector_struct_from_view vs) as (v & Hfrom & _ & Hview); [apply Hnd; constructor|].
  exists vs, v. split_and!; [done..|]. rewrite Hview. apply map_eq. intros name.
  rewrite Hv. unfold tm_view. cbn. rewrite lookup_empty, map_lookup_filter.
  destruct (m !! name) as [w|] eqn:Hw; cbn.
  - destruct (decide (name ∈ names)); [by rewrite option_guard_True|by rewrite option_guard_False].
  - destruct (decide (name ∈ names)) as [Hin|]; [|done]. destruct (Hn name Hin) as (w & _ & ?). congruence.
Qed.

(** ** Properties *)

(** [TinyMap] implements a finite map.  On lists without repeated keys
    (which insertion and removal keep), lookup, insertion, removal, membership
    and equality are those of the map the list stands for. *)
Lemma tiny_map_refines {K V} `{Countable K} (l l' : list (K * V)) (k : K) (v : V) veqb :
  NoDup l.*1 → NoDup l'.*1 →
  tm_get k l = tm_view l !! k ∧
  tm_contains_key k l = bool_decide (is_Some (tm_view l !! k)) ∧
  (tm_insert k v l).1 = tm_view l !! k ∧
  tm_view (tm_insert k v l).2 = <[k := v]> (tm_view l) ∧ NoDup (tm_insert k v l).2.*1 ∧
  (tm_remove k l).1 = tm_view l !! k ∧
  tm_view (tm_remove k l).2 = delete k (tm_view l) ∧ NoDup (tm_remove k l).2.*1 ∧
  (tm_eq veqb l l' = true ↔
   ∀ k, match tm_view l !! k, tm_view l' !! k with
        | Some a, Some b => veqb b a = true
        | None, None => True
        | _, _ => False
        end).
Proof.
  intros Hl Hl'. destruct (tm_insert_view k v l) as [Hi1 Hi2].
  destruct (tm_remove_view k l Hl) as (Hr1 & Hr2 & _ & Hr3).
  split_and!; [apply tm_get_view|apply tm_contains_view|done|done|by apply tm_insert_NoDup
    |done|done|done|by apply tm_eq_view].
Qed.

