(* ===== verification/VectorStorage.v ===== *)
(** * Vector storage

    Models [lib/segment/src/vector_storage]: the chunked in-memory array of
    [chunked_vectors.rs], the storage built on it that persists every update
    ([simple_vector_storage.rs]), and the trait of [vector_storage_base.rs]
    as the class [VectorStorage] with the laws the segment relies on.

    The loop that grows the chunk list runs on fuel; the new length is enough
    ([grow_chunks_enough]).  Quantization, memory mapped storage and the
    flushers are not modelled. *)

From stdpp Require Import base gmap strings list.
From Stdlib Require Import ZArith Lia SpecFloat.
From S2P Require Import Prelude KeyEncoding Types Rocks NamedVectors.

(** ** [ChunkedVectors] *)

Definition CHUNK_SIZE : N := 32 * 1024 * 1024.
Definition MIN_CHUNK_CAPACITY : N := 16.

(** [&v[a..b]] *)
Definition vec_slice {E A} (l : list A) (a b : nat) : result E (list A) :=
  if decide (a ≤ b ∧ b ≤ length l) then Ok (take (b - a) (drop a l)) else Panic.

(** [v[a..a + n].copy_from_slice(w)]: panics on a range outside [v] or a
    length mismatch. *)
Definition vec_copy_at {E A} (a n : nat) (w l : list A) : result E (list A) :=
  if decide (a + n ≤ length l ∧ length w = n)
  then Ok (take a l ++ w ++ drop (a + n) l) else Panic.

Record ChunkedVectors (A : Type) := mkChunked {
  cv_dim : nat;
  cv_len : nat;
  chunk_capacity : nat;
  chunks : list (list A);
}.
Arguments mkChunked {A}.
Arguments cv_dim {A}.
Arguments cv_len {A}.
Arguments chunk_capacity {A}.
Arguments chunks {A}.

Section chunked.
Context {A : Type} (elem_size : N) (dflt : A).
Abbreviation CV := (ChunkedVectors A).

Definition chunked_new (dim : nat) : OperationResult CV :=
  if decide (dim = 0) then Panic (* assert_ne!(dim, 0) *)
  else
    let vector_size := (N.of_nat dim * elem_size)%N in
    let chunk_capacity := N.max MIN_CHUNK_CAPACITY (CHUNK_SIZE / vector_size) in
    Ok (mkChunked dim 0 (N.to_nat chunk_capacity) []).

Definition chunked_get (self : CV) (key : nat) : OperationResult (list A) :=
  chunk_data ← vec_get (chunks self) (key / chunk_capacity self);
  let idx := (key mod chunk_capacity self) * cv_dim self in
  vec_slice chunk_data idx (idx + cv_dim self).

(** [while chunks.len() * chunk_capacity < len { chunks.push(vec![]) }] *)
Fixpoint grow_chunks (fuel capacity len : nat) (chunks : list (list A)) : list (list A) :=
  match fuel with
  | O => chunks
  | S fuel' =>
      if decide (length chunks * capacity < len)
      then grow_chunks fuel' capacity len (chunks ++ [[]])
      else chunks
  end.

Definition chunked_insert (key : nat) (vector : list A) : sm CV OperationError unit :=
  _ ← sm_modify (λ self, mkChunked (cv_dim self) (cv_len self `max` (key + 1))
                           (chunk_capacity self) (chunks self));
  _ ← sm_modify (λ self, mkChunked (cv_dim self) (cv_len self) (chunk_capacity self)
                           (grow_chunks (cv_len self) (chunk_capacity self) (cv_len self) (chunks self)));
  self ← sm_get;
  chunk_data ← sm_lift (vec_get (chunks self) (key / chunk_capacity self));
  let idx := (key mod chunk_capacity self) * cv_dim self in
  let chunk_data := if decide (length chunk_data < idx + cv_dim self)
                    then resize (idx + cv_dim self) dflt chunk_data else chunk_data in
  chunk_data ← sm_lift (vec_copy_at idx (cv_dim self) vector chunk_data);
  chunks' ← sm_lift (vec_set (key / chunk_capacity self) chunk_data (chunks self));
  sm_modify (λ self, mkChunked (cv_dim self) (cv_len self) (chunk_capacity self) chunks').

Definition chunked_push (vector : list A) : sm CV OperationError nat :=
  self ← sm_get;
  let new_id := as_u32 (cv_len self) in
  _ ← chunked_insert new_id vector;
  mret new_id.

(** *** Laws *)

Record chunked_wf (s : CV) : Prop := {
  wf_dim : cv_dim s ≠ 0;
  wf_capacity : chunk_capacity s ≠ 0;
  wf_chunks : cv_len s ≤ length (chunks s) * chunk_capacity s;
}.

Lemma grow_chunks_enough fuel cap len cs :
  cap ≠ 0 → len ≤ fuel + length cs →
  len ≤ length (grow_chunks fuel cap len cs) * cap ∧
  (∀ i c, cs !! i = Some c → grow_chunks fuel cap len cs !! i = Some c).
Proof.
  intros Hcap. revert cs. induction fuel as [|fuel IH]; intros cs Hfuel; simpl.
  { split; [nia|done]. }
  case_decide as Hlt; [|split; [lia|done]].
  destruct (IH (cs ++ [[]])) as [H1 H2]; [rewrite length_app; simpl; lia|].
  split; [done|]. intros i c Hi. apply H2. by apply lookup_app_l_Some.
Qed.

(** A slice before or after the written range is unchanged by the write. *)
Lemma slice_copy_other (a b n : nat) (w l : list A) :
  length w = n → b + n ≤ length l → a + n ≤ length l → (a + n ≤ b ∨ b + n ≤ a) →
  take n (drop a (take b l ++ w ++ drop (b + n) l)) = take n (drop a l).
Proof.
  intros Hw Hb Ha Hdis. apply list_eq. intros i.
  destruct (decide (i < n)); [|rewrite !lookup_take_ge by lia; done].
  rewrite !lookup_take_lt, !lookup_drop by lia. destruct Hdis.
  - rewrite lookup_app_l by (rewrite length_take; lia). by rewrite lookup_take_lt by lia.
  - rewrite lookup_app_r by (rewrite length_take; lia).
    rewrite lookup_app_r by (rewrite length_take; lia). rewrite length_take, lookup_drop.
    f_equal. lia.
Qed.

Lemma slice_copy_same (b n : nat) (w l : list A) :
  length w = n → b + n ≤ length l → take n (drop b (take b l ++ w ++ drop (b + n) l)) = w.
Proof.
  intros Hw Hb. rewrite drop_app_length' by (rewrite length_take; lia).
  by rewrite take_app_length'.
Qed.

Lemma slots_disjoint (a b dim : nat) : a ≠ b → a * dim + dim ≤ b * dim ∨ b * dim + dim ≤ a * dim.
Proof. intros. destruct (decide (a < b)); [left|right]; nia. Qed.

Lemma slice_resize (a n m : nat) (l : list A) :
  a + n ≤ length l → take n (drop a (resize (m `max` length l) dflt l)) = take n (drop a l).
Proof.
  intros Ha. apply list_eq. intros i. destruct (decide (i < n)); [|rewrite !lookup_take_ge by lia; done].
  rewrite !lookup_take_lt, !lookup_drop by lia. apply lookup_resize; lia.
Qed.

Lemma chunk_resize_eq m (c : list A) :
  (if decide (length c < m) then resize m dflt c else c) = resize (m `max` length c) dflt c.
Proof.
  case_decide; [by rewrite Nat.max_l by lia|]. rewrite Nat.max_r by lia. symmetry. apply resize_all.
Qed.

Lemma chunked_insert_eq (s : CV) key v :
  chunked_wf s → length v = cv_dim s →
  ∃ cs c, (∀ i c, chunks s !! i = Some c → cs !! i = Some c) ∧
    cv_len s `max` (key + 1) ≤ length cs * chunk_capacity s ∧
    cs !! (key / chunk_capacity s) = Some c ∧
    let idx := (key mod chunk_capacity s) * cv_dim s in
    let c' := resize ((idx + cv_dim s) `max` length c) dflt c in
    chunked_insert key v s =
      (Ok tt, mkChunked (cv_dim s) (cv_len s `max` (key + 1)) (chunk_capacity s)
                (<[key / chunk_capacity s := take idx c' ++ v ++ drop (idx + cv_dim s) c']> cs)).
Proof.
  intros [Hd Hc Hlen] Hv. set (len' := cv_len s `max` (key + 1)).
  destruct (grow_chunks_enough len' (chunk_capacity s) len' (chunks s) Hc) as [Henough Hkeep]; [lia|].
  set (cs := grow_chunks len' (chunk_capacity s) len' (chunks s)) in *.
  assert (key / chunk_capacity s < length cs) as Hlt.
  { apply Nat.Div0.div_lt_upper_bound. unfold len' in Henough. lia. }
  destruct (lookup_lt_is_Some_2 cs _ Hlt) as [c Hcs]. exists cs, c. split_and!; try done.
  intros idx c'. unfold chunked_insert. sm_unfold. cbn -[vec_set vec_get vec_copy_at].
  fold len' cs. unfold vec_get. rewrite Hcs. cbn -[vec_set vec_copy_at]. rewrite chunk_resize_eq.
  fold idx c'. unfold vec_copy_at. rewrite decide_True.
  - cbn -[vec_set]. unfold vec_set. by rewrite decide_True.
  - split; [|done]. unfold c'. rewrite length_resize. lia.
Qed.

Lemma chunked_insert_spec (s : CV) key v :
  chunked_wf s → length v = cv_dim s →
  ∃ s', chunked_insert key v s = (Ok tt, s') ∧ chunked_wf s' ∧
    cv_dim s' = cv_dim s ∧ cv_len s' = cv_len s `max` (key + 1) ∧
    chunked_get s' key = Ok v ∧
    (∀ k w, k ≠ key → chunked_get s k = Ok w → chunked_get s' k = Ok w).
Proof.
  intros Hwf Hv. destruct (chunked_insert_eq s key v Hwf Hv) as (cs & c & Hkeep & Hlen & Hcs & Heq).
  cbv zeta in Heq. destruct Hwf as [Hd Hc _].
  set (idx := (key mod chunk_capacity s) * cv_dim s) in *.
  set (c' := resize ((idx + cv_dim s) `max` length c) dflt c) in *.
  assert (idx + cv_dim s ≤ length c') as Hc' by (unfold c'; rewrite length_resize; lia).
  eexists. split_and!; [exact Heq|..].
  - split; simpl; try done. by rewrite length_insert.
  - done.
  - done.
  - unfold chunked_get, vec_get. simpl. rewrite list_lookup_insert_eq by (by eapply lookup_lt_Some).
    cbn. fold idx. unfold vec_slice. rewrite decide_True.
    + f_equal. replace (idx + cv_dim s - idx) with (cv_dim s) by lia. by apply slice_copy_same.
    + rewrite !length_app, length_take, length_drop. lia.
  - intros k w Hk. unfold chunked_get, vec_get. simpl.
    destruct (chunks s !! (k / chunk_capacity s)) as [ck|] eqn:Hck; [|done]. cbn.
    unfold vec_slice at 1. case_decide as Hin; [|done]. intros [= <-].
    replace (k mod chunk_capacity s * cv_dim s + cv_dim s - k mod chunk_capacity s * cv_dim s)
      with (cv_dim s) by lia.
    destruct (decide (k / chunk_capacity s = key / chunk_capacity s)) as [Hsame|Hdiff].
    + rewrite Hsame, list_lookup_insert_eq by (by eapply lookup_lt_Some). cbn.
      assert (ck = c) as -> by (apply Hkeep in Hck; rewrite Hsame in Hck; congruence).
      unfold vec_slice. rewrite decide_True
        by (rewrite !length_app, length_take, length_drop; unfold c' in *; rewrite length_resize in *; lia).
      f_equal. replace (k mod chunk_capacity s * cv_dim s + cv_dim s - k mod chunk_capacity s * cv_dim s)
        with (cv_dim s) by lia.
      rewrite slice_copy_other; [unfold c'; apply slice_resize; lia|done|lia| |].
      * unfold c'. rewrite length_resize. lia.
      * apply slots_disjoint. intros Hmod. apply Hk.
        rewrite (Nat.div_mod_eq k (chunk_capacity s)), (Nat.div_mod_eq key (chunk_capacity s)). congruence.
    + rewrite list_lookup_insert_ne, (Hkeep _ _ Hck) by congruence. cbn. unfold vec_slice.
      rewrite decide_True by done. f_equal. f_equal. lia.
Qed.

(** A vector of another dimension is refused by a panic. *)
Lemma chunked_insert_wrong_dim (s : CV) key v :
  length v ≠ cv_dim s → (chunked_insert key v s).1 = Panic.
Proof.
  intros Hv. unfold chunked_insert. sm_unfold. cbn -[vec_set vec_get vec_copy_at grow_chunks].
  unfold vec_get. destruct (grow_chunks _ _ _ _ !! _); [|done].
  cbn -[vec_copy_at]. unfold vec_copy_at. by rewrite decide_False by naive_solver.
Qed.

Lemma chunked_new_wf dim (s : CV) :
  chunked_new dim = Ok s → chunked_wf s ∧ cv_dim s = dim ∧ cv_len s = 0.
Proof.
  unfold chunked_new. case_decide; [done|]. intros [= <-]. split_and!; try done.
  split; [done| |simpl; lia]. cbn -[N.max N.div CHUNK_SIZE].
  assert (MIN_CHUNK_CAPACITY ≤ N.max MIN_CHUNK_CAPACITY (CHUNK_SIZE / (N.of_nat dim * elem_size)))%N
    by apply N.le_max_l.
  unfold MIN_CHUNK_CAPACITY in *. lia.
Qed.
End chunked.

(** ** The trait *)

Inductive Distance : Type := Cosine | Euclid | Dot.

#[export] Instance Distance_eq_dec : EqDecision Distance.
Proof. solve_decision. Defined.

Class VectorStorage (VS : Type) := {
  vector_dim : VS → nat;
  distance : VS → Distance;
  total_vector_count : VS → nat;
  get_vector : VS → PointOffsetType → OperationResult VectorType;
  insert_vector : PointOffsetType → VectorType → sm VS OperationError unit;
}.

(** What an insertion leaves in memory, whether or not persisting it fails. *)
Definition insert_post {VS} `{!VectorStorage VS} (wf : VS → Prop) (key : PointOffsetType)
    (v : VectorType) (s s' : VS) : Prop :=
  wf s' ∧ vector_dim s' = vector_dim s ∧ distance s' = distance s ∧
  total_vector_count s' = total_vector_count s `max` (key + 1) ∧ get_vector s' key = Ok v ∧
  (∀ k w, k ≠ key → get_vector s k = Ok w → get_vector s' k = Ok w).

Class VectorStorageLaws (VS : Type) `{!VectorStorage VS} := {
  storage_wf : VS → Prop;
  insert_vector_spec s key v :
    storage_wf s → length v = vector_dim s →
    sm_wp (insert_vector key v) (λ _, insert_post storage_wf key v s)
      (λ _, insert_post storage_wf key v s) s;
}.

(** ** [SimpleVectorStorage] *)

Record StoredRecord := mkStoredRecord {
  record_deleted : bool;
  record_vector : VectorType;
}.

(** The codec at the two types this storage writes. *)
Class VectorCodec := {
  ser_offset : PointOffsetType → bytes;
  de_offset : bytes → option PointOffsetType;
  ser_record : StoredRecord → bytes;
  de_record : bytes → option StoredRecord;
}.

Class VectorCodecLaws `{!VectorCodec} := {
  de_ser_offset i : (N.of_nat i ≤ u32_max)%N → de_offset (ser_offset i) = Some i;
  de_ser_record r : de_record (ser_record r) = Some r;
}.

Record SimpleVectorStorage (DB : Type) := mkSimpleVectorStorage {
  svs_dim : nat;
  svs_distance : Distance;
  vectors : ChunkedVectors spec_float;
  update_buffer : StoredRecord;
  svs_db : DB;
}.
Arguments mkSimpleVectorStorage {DB}.
Arguments svs_dim {DB}.
Arguments svs_distance {DB}.
Arguments vectors {DB}.
Arguments update_buffer {DB}.
Arguments svs_db {DB}.

Section simple_vector_storage.
Context {DB : Type} {HDB : RocksDB DB} {HC : VectorCodec} (column_name : string).
Abbreviation VS := (SimpleVectorStorage DB).

Definition f32_zero : spec_float := S754_zero false.
Definition f32_size : N := 4.

Definition on_vectors {A} (f : sm (ChunkedVectors spec_float) OperationError A) :
    sm VS OperationError A :=
  sm_zoom vectors (λ v self, mkSimpleVectorStorage (svs_dim self) (svs_distance self) v
                               (update_buffer self) (svs_db self)) f.

Definition on_svs_db {A} (f : sm DB OperationError A) : sm VS OperationError A :=
  sm_zoom svs_db (λ db self, mkSimpleVectorStorage (svs_dim self) (svs_distance self)
                               (vectors self) (update_buffer self) db) f.

(** The loop body of [open_simple_vector_storage]. *)
Definition open_vector_row (row : bytes * bytes) :
    sm (ChunkedVectors spec_float) OperationError unit :=
  let '(key, value) := row in
  point_id ← sm_lift (match de_offset key with
                      | Some i => Ok i
                      | None => Err (service_error "cannot deserialize point id from db")
                      end);
  stored_record ← sm_lift (match de_record value with
                           | Some r => Ok r
                           | None => Err (service_error "cannot deserialize record from db")
                           end);
  chunked_insert f32_zero point_id (record_vector stored_record).

Definition open_simple_vector_storage (database : DB) (dim : nat) (distance : Distance) :
    OperationResult VS :=
  cv ← chunked_new f32_size dim;
  rows ← column_iter column_name database;
  match sm_for open_vector_row rows cv with
  | (Ok _, cv') =>
      Ok (mkSimpleVectorStorage dim distance cv'
            (mkStoredRecord false (replicate dim f32_zero)) database)
  | (Err e, _) => Err e
  | (Panic, _) => Panic
  end.

Definition update_stored (point_id : PointOffsetType) (vector : VectorType) :
    sm VS OperationError unit :=
  self ← sm_get;
  buffer ← sm_lift (vec_copy_at 0 (length (record_vector (update_buffer self))) vector
                      (record_vector (update_buffer self)));
  let record := mkStoredRecord (record_deleted (update_buffer self)) buffer in
  _ ← sm_modify (λ self, mkSimpleVectorStorage (svs_dim self) (svs_distance self) (vectors self)
                           record (svs_db self));
  on_svs_db (column_put column_name (ser_offset point_id) (ser_record record)).

Definition simple_insert_vector (key : PointOffsetType) (vector : VectorType) :
    sm VS OperationError unit :=
  _ ← on_vectors (chunked_insert f32_zero key vector);
  update_stored key vector.

(** [update_from]: copies the vectors of [other] at the given offsets, in
    order, until the stop flag, read before each copy, is set. *)
Definition simple_update_from (other : PointOffsetType → OperationResult VectorType)
    (other_ids : list (PointOffsetType * bool)) : sm VS OperationError (nat * nat) :=
  start_index ← sm_gets (λ self : VS, as_u32 (cv_len (vectors self)));
  _ ← sm_for (λ '(point_id, stopped),
        _ ← (if stopped : bool then sm_fail (Cancelled "process cancelled by service") else mret tt);
        other_vector ← sm_lift (other point_id);
        new_id ← on_vectors (chunked_push f32_zero other_vector);
        update_stored new_id other_vector) other_ids;
  end_index ← sm_gets (λ self : VS, as_u32 (cv_len (vectors self)));
  mret (start_index, end_index).

#[export] Instance simple_vector_storage : VectorStorage VS := {|
  vector_dim := svs_dim;
  distance := svs_distance;
  total_vector_count self := cv_len (vectors self);
  get_vector self key := chunked_get (vectors self) key;
  insert_vector := simple_insert_vector;
|}.

(** *** Laws *)

Record svs_wf (s : VS) : Prop := {
  svs_vectors_wf : chunked_wf (vectors s);
  svs_dim_eq : cv_dim (vectors s) = svs_dim s;
  svs_buffer_len : length (record_vector (update_buffer s)) = svs_dim s;
}.

Lemma update_stored_eq s key v :
  svs_wf s → length v = svs_dim s →
  update_stored key v s =
    let record := mkStoredRecord (record_deleted (update_buffer s)) v in
    let '(r, db) := column_put column_name (ser_offset key) (ser_record record) (svs_db s) in
    (r, mkSimpleVectorStorage (svs_dim s) (svs_distance s) (vectors s) record db).
Proof.
  intros [_ _ Hb] Hv. unfold update_stored, on_svs_db, sm_zoom. sm_unfold.
  cbn -[vec_copy_at column_put]. unfold vec_copy_at. rewrite decide_True by lia.
  cbn -[column_put]. rewrite drop_all, app_nil_r. by destruct (column_put _ _ _ _).
Qed.

Lemma simple_insert_vector_eq s key v :
  svs_wf s → length v = svs_dim s →
  ∃ cv, chunked_insert f32_zero key v (vectors s) = (Ok tt, cv) ∧
    simple_insert_vector key v s =
      let record := mkStoredRecord (record_deleted (update_buffer s)) v in
      let '(r, db) := column_put column_name (ser_offset key) (ser_record record) (svs_db s) in
      (r, mkSimpleVectorStorage (svs_dim s) (svs_distance s) cv record db).
Proof.
  intros Hwf Hv. pose proof Hwf as [Hcv Hd Hb].
  destruct (chunked_insert_spec f32_zero (vectors s) key v Hcv) as (cv & Hins & Hcv' & Hd' & _); [lia|].
  exists cv. split; [done|]. unfold simple_insert_vector, on_vectors, sm_zoom. sm_unfold.
  rewrite Hins. cbn -[update_stored]. rewrite update_stored_eq; [done| |done].
  split; simpl; [done|congruence|done].
Qed.

Context {HDBL : RocksLaws DB}.

#[export] Instance simple_vector_storage_laws : VectorStorageLaws VS.
Proof.
  refine {| storage_wf := svs_wf |}. intros s key v Hwf Hv. unfold sm_wp. cbn in Hv |- *.
  destruct (simple_insert_vector_eq s key v Hwf Hv) as (cv & Hins & ->). destruct Hwf as [Hcv Hd Hb].
  destruct (chunked_insert_spec f32_zero (vectors s) key v Hcv) as (cv' & Hins' & Hwf' & Hd' & Hlen & Hget & Hother);
    [lia|]. assert (cv' = cv) as -> by congruence.
  cbn -[column_put].
  assert (∀ db, insert_post svs_wf key v s (mkSimpleVectorStorage (svs_dim s) (svs_distance s) cv
    (mkStoredRecord (record_deleted (update_buffer s)) v) db)) as Hpost.
  { intros db. split_and!; try done. split; simpl; [done|congruence|done]. }
  pose proof (column_put_no_panic column_name (ser_offset key)
    (ser_record (mkStoredRecord (record_deleted (update_buffer s)) v)) (svs_db s)).
  by destruct (column_put _ _ _ _) as [[]].
Defined.

(** *** Persistence *)

Context {HCL : VectorCodecLaws}.

(** The column holds exactly the vectors [m], and memory answers with them. *)
Record vectors_synced (s : VS) (m : gmap nat VectorType) : Prop := {
  vsync_wf : svs_wf s;
  vsync_flag : record_deleted (update_buffer s) = false;
  vsync_cf : cf_handle (svs_db s) column_name = true;
  vsync_get i v : m !! i = Some v →
    (N.of_nat i ≤ u32_max)%N ∧ length v = svs_dim s ∧ chunked_get (vectors s) i = Ok v;
  vsync_view k b : cf_view (svs_db s) column_name !! k = Some b ↔
    ∃ i v, m !! i = Some v ∧ k = ser_offset i ∧ b = ser_record (mkStoredRecord false v);
}.

Lemma ser_offset_inj i j :
  (N.of_nat i ≤ u32_max)%N → (N.of_nat j ≤ u32_max)%N → ser_offset i = ser_offset j → i = j.
Proof.
  intros Hi Hj Heq. pose proof (de_ser_offset i Hi) as H1.
  rewrite Heq, de_ser_offset in H1 by done. congruence.
Qed.

Lemma vectors_synced_insert s m key v s' :
  vectors_synced s m → length v = svs_dim s → (N.of_nat key ≤ u32_max)%N →
  simple_insert_vector key v s = (Ok tt, s') →
  vectors_synced s' (<[key := v]> m) ∧ svs_dim s' = svs_dim s.
Proof.
  intros [Hwf Hflag Hcf Hget Hview] Hv Hkey Hrun.
  destruct (simple_insert_vector_eq s key v Hwf Hv) as (cv & Hins & Heq).
  rewrite Heq in Hrun. cbv zeta in Hrun. rewrite Hflag in Hrun.
  destruct (column_put _ _ _ _) as [r db] eqn:Hput. injection Hrun as -> <-.
  destruct (column_put_Ok _ _ _ _ _ column_name Hput) as [Hv' Hcf']. rewrite decide_True in Hv' by done.
  pose proof Hwf as [Hcv Hd Hb].
  destruct (chunked_insert_spec f32_zero (vectors s) key v Hcv) as
    (cv' & Hins' & Hcw' & Hd' & _ & Hgk & Hgo); [lia|]. assert (cv' = cv) as -> by congruence.
  split; [|done]. split; simpl; try done.
  - split; simpl; [done|congruence|done].
  - congruence.
  - intros i w. rewrite lookup_insert_Some. intros [[<- <-]|[Hne Hi]]; [done|].
    destruct (Hget i w Hi) as (? & ? & ?). split_and!; try done. by apply Hgo.
  - intros k b. rewrite Hv', lookup_insert_Some, Hview. split.
    + intros [[<- <-]|(Hne & i & w & Hi & -> & ->)].
      * exists key, v. by rewrite lookup_insert_eq.
      * exists i, w. rewrite lookup_insert_ne by congruence. done.
    + intros (i & w & Hi & -> & ->). apply lookup_insert_Some in Hi as [[<- <-]|[Hne Hi]]; [by left|].
      right. split; [|by eauto]. intros Hk. apply ser_offset_inj in Hk; [done|done|].
      by apply (Hget i w Hi).
Qed.

(** Loading rows with distinct keys: every row is read back. *)
Lemma open_vector_rows dim ps cv :
  chunked_wf cv → cv_dim cv = dim → NoDup ps.*1 →
  Forall (λ p : nat * VectorType, (N.of_nat p.1 ≤ u32_max)%N ∧ length p.2 = dim) ps →
  ∃ cv', sm_for open_vector_row
           ((λ p, (ser_offset p.1, ser_record (mkStoredRecord false p.2))) <$> ps) cv = (Ok tt, cv') ∧
    chunked_wf cv' ∧ cv_dim cv' = dim ∧
    (∀ i v, (i, v) ∈ ps → chunked_get cv' i = Ok v) ∧
    (∀ i v, i ∉ ps.*1 → chunked_get cv i = Ok v → chunked_get cv' i = Ok v).
Proof.
  revert cv. induction ps as [|[i v] ps IH]; intros cv Hwf Hd Hnd Hps.
  { exists cv. split_and!; try done. set_solver. }
  apply NoDup_cons in Hnd as [Hi Hnd]. apply Forall_cons in Hps as [[Hu Hv] Hps]. cbn [fst snd] in *.
  destruct (chunked_insert_spec f32_zero cv i v Hwf) as (cv1 & Hins & Hwf1 & Hd1 & _ & Hg1 & Ho1); [lia|].
  destruct (IH cv1 Hwf1 (eq_trans Hd1 Hd) Hnd Hps) as (cv' & Hfor & Hwf' & Hd' & Hin & Hout).
  exists cv'. rewrite fmap_cons. cbn [sm_for]. split_and!; try done.
  - erewrite sm_bind_Ok; [exact Hfor|]. unfold open_vector_row. cbn [fst snd].
    rewrite de_ser_offset, de_ser_record by done. exact Hins.
  - intros j w [[= -> ->]|Hj]%elem_of_cons; [by apply Hout|by apply Hin].
  - intros j w Hj Hw. rewrite fmap_cons, elem_of_cons in Hj. cbn [fst] in Hj.
    apply Hout; [naive_solver|]. apply Ho1; naive_solver.
Qed.

Lemma vectors_synced_open s m distance :
  vectors_synced s m →
  ∃ s', open_simple_vector_storage (svs_db s) (svs_dim s) distance = Ok s' ∧
    ∀ i v, m !! i = Some v → chunked_get (vectors s') i = Ok v.
Proof.
  intros [Hwf _ Hcf Hget Hview]. destruct Hwf as [Hcv Hd _].
  set (row := λ p : nat * VectorType, (ser_offset p.1, ser_record (mkStoredRecord false p.2))).
  assert (iter_cf (svs_db s) column_name ≡ₚ row <$> map_to_list m) as Hperm.
  { rewrite iter_cf_view. apply NoDup_Permutation; [apply NoDup_map_to_list| |].
    - apply NoDup_fmap_2_strong; [|apply NoDup_map_to_list].
      intros [i v] [j w] Hi%elem_of_map_to_list Hj%elem_of_map_to_list [= Hk _].
      destruct (Hget _ _ Hi) as [Hui _], (Hget _ _ Hj) as [Huj _].
      apply ser_offset_inj in Hk as ->; [|done..]. congruence.
    - intros [k b]. rewrite elem_of_map_to_list, Hview, list_elem_of_fmap. split.
      + intros (i & v & Hi & -> & ->). exists (i, v). by rewrite elem_of_map_to_list.
      + intros ([i v] & [= -> ->] & Hi%elem_of_map_to_list). eauto. }
  apply Permutation_map_inv in Hperm as (ps & Hrows & Hps).
  unfold open_simple_vector_storage. destruct (chunked_new f32_size (svs_dim s)) as [cv| |] eqn:Hnew.
  2,3: unfold chunked_new in Hnew; case_decide as H0; [|done]; by destruct Hcv as [Hd0 _ _]; rewrite Hd, H0 in Hd0.
  apply chunked_new_wf in Hnew as (Hwf0 & Hd0 & _).
  destruct (open_vector_rows (svs_dim s) ps cv Hwf0 Hd0) as (cv' & Hfor & _ & _ & Hin & _).
  { rewrite <-Hps. apply NoDup_fst_map_to_list. }
  { apply Forall_forall. intros [i v]. rewrite <-Hps, elem_of_map_to_list. intros Hi.
    by destruct (Hget i v Hi) as (? & ? & _). }
  cbn [mbind result_bind]. rewrite column_iter_eq. unfold get_column_family. rewrite Hcf.
  cbn [mbind result_bind]. rewrite Hrows. unfold row in Hrows |- *.
  change (map ?f ps) with (f <$> ps). rewrite Hfor. eexists. split; [done|].
  intros i v Hi. apply Hin. by rewrite <-Hps, elem_of_map_to_list.
Qed.

Lemma vectors_synced_inserts dim ops s0 s m :
  Forall (λ p : nat * VectorType, (N.of_nat p.1 ≤ u32_max)%N ∧ length p.2 = dim) ops →
  vectors_synced s0 m → svs_dim s0 = dim →
  sm_for (λ p, simple_insert_vector p.1 p.2) ops s0 = (Ok tt, s) →
  vectors_synced s (list_to_map (rev ops) ∪ m) ∧ svs_dim s = dim.
Proof.
  revert s0 m. induction ops as [|[k v] ops IH]; intros s0 m Hops Hs Hd Hrun.
  - injection Hrun as <-. cbn [rev]. by rewrite list_to_map_nil, (left_id_L ∅ (∪)).
  - apply Forall_cons in Hops as [[Hk Hv] Hops].
    apply sm_bind_Ok_inv in Hrun as ([] & s1 & Hins & Hrun).
    apply (vectors_synced_insert s0 m) in Hins as [Hs1 Hd1]; [|done|simpl in *; lia|done].
    destruct (IH s1 _ Hops Hs1 (eq_trans Hd1 Hd) Hrun) as [Hs' Hd']. split; [|done].
    replace (list_to_map (rev ((k, v) :: ops)) ∪ m)
      with (list_to_map (rev ops) ∪ <[k := v]> m); [done|].
    cbn [rev]. rewrite list_to_map_app, <-(assoc_L (∪)). f_equal.
    by rewrite list_to_map_cons, list_to_map_nil, insert_empty, <-insert_union_singleton_l.
Qed.
End simple_vector_storage.

(** ** Properties *)

(** The chunked array.  Inserting a vector of the right dimension always
    succeeds, the vector is read back at its key, every other stored vector
    keeps its value and the length covers the key; a vector of another
    dimension makes the insertion panic. *)
Lemma chunked_insert_get {A} (dflt : A) (s : ChunkedVectors A) key v :
  chunked_wf s →
  (length v = cv_dim s →
   ∃ s', chunked_insert dflt key v s = (Ok tt, s') ∧ chunked_wf s' ∧
     chunked_get s' key = Ok v ∧
     (∀ k w, k ≠ key → chunked_get s k = Ok w → chunked_get s' k = Ok w) ∧
     cv_len s' = cv_len s `max` (key + 1)) ∧
  (length v ≠ cv_dim s → (chunked_insert dflt key v s).1 = Panic).
Proof.
  intros Hwf. split; [|apply chunked_insert_wrong_dim]. intros Hv.
  destruct (chunked_insert_spec dflt s key v Hwf Hv) as (s' & ? & ? & _ & ? & ? & ?). eauto 10.
Qed.

(** Durability of vectors.  A storage opened on an empty column and
    updated by insertions that succeed answers every inserted key with the
    last vector inserted there, and so does the storage reopened from its
    database. *)
Lemma vectors_reopen {DB} {HDB : RocksDB DB} {HDBL : RocksLaws DB} {HC : VectorCodec}
    {HCL : VectorCodecLaws} (cf : string) (db : DB) dim distance (ops : list (nat * VectorType)) :
  dim ≠ 0 → cf_handle db cf = true → cf_view db cf = ∅ →
  Forall (λ p : nat * VectorType, (N.of_nat p.1 ≤ u32_max)%N ∧ length p.2 = dim) ops →
  ∃ s0, open_simple_vector_storage cf db dim distance = Ok s0 ∧
    ∀ s, sm_for (λ p, simple_insert_vector cf p.1 p.2) ops s0 = (Ok tt, s) →
    ∃ s', open_simple_vector_storage cf (svs_db s) dim distance = Ok s' ∧
      ∀ k v, (list_to_map (rev ops) : gmap nat VectorType) !! k = Some v →
        chunked_get (vectors s) k = Ok v ∧ chunked_get (vectors s') k = Ok v.
Proof.
  intros Hdim Hcf Hview Hops.
  destruct (chunked_new (A:=spec_float) f32_size dim) as [cv| |] eqn:Hnew;
    [|unfold chunked_new in Hnew; by case_decide..].
  set (s0 := mkSimpleVectorStorage dim distance cv (mkStoredRecord false (replicate dim f32_zero)) db).
  exists s0. split.
  { unfold open_simple_vector_storage. rewrite Hnew. cbn [mbind result_bind].
    rewrite column_iter_eq. unfold get_column_family. rewrite Hcf. cbn [mbind result_bind].
    pose proof (iter_cf_view db cf) as Hp. rewrite Hview, map_to_list_empty in Hp.
    by apply Permutation_nil_r in Hp as ->. }
  assert (vectors_synced cf s0 ∅) as Hs0.
  { apply chunked_new_wf in Hnew as (Hwf & Hd & _). split; try done.
    - split; simpl; [done..|by rewrite length_replicate].
    - intros k b. simpl. rewrite Hview, lookup_empty. naive_solver. }
  intros s Hs. destruct (vectors_synced_inserts cf dim ops s0 s ∅) as [Hsync Hd]; [done..|].
  destruct (vectors_synced_open cf s _ distance Hsync) as (s' & Hopen & Hget).
  exists s'. rewrite <-Hd at 1. split; [done|]. intros k v Hk.
  rewrite (right_id_L ∅ (∪)) in *. split; [|by apply Hget]. by eapply vsync_get.
Qed.

(** A codec, to evaluate statements with. *)
Definition encode_elem (f : spec_float) : bytes :=
  match f with
  | S754_zero s => [0; Z.b2z s; 0; 0]
  | S754_infinity s => [1; Z.b2z s; 0; 0]
  | S754_nan => [2; 0; 0; 0]
  | S754_finite s m e => [3; Z.b2z s; Zpos m; e]
  end%Z.

Fixpoint decode_elems (bs : bytes) : option VectorType :=
  match bs with
  | [] => Some []
  | t :: s :: m :: e :: bs' =>
      l ← decode_elems bs';
      match t with
      | 0%Z => Some (S754_zero (s =? 1)%Z :: l)
      | 1%Z => Some (S754_infinity (s =? 1)%Z :: l)
      | 2%Z => Some (S754_nan :: l)
      | 3%Z => Some (S754_finite (s =? 1)%Z (Z.to_pos m) e :: l)
      | _ => None
      end
  | _ => None
  end.

#[export] Instance vector_codec : VectorCodec := {|
  ser_offset i := to_le_bytes 4 (Z.of_nat i);
  de_offset bs := n ← read_le 4 bs; Some (Z.to_nat n);
  ser_record r := Z.b2z (record_deleted r) :: (record_vector r ≫= encode_elem);
  de_record bs := match bs with
                  | d :: bs' => (mkStoredRecord (d =? 1)%Z) <$> decode_elems bs'
                  | [] => None
                  end;
|}.

#[export] Instance vector_codec_laws : VectorCodecLaws.
Proof.
  split; cbn -[to_le_bytes read_le].
  - intros i Hi. unfold u32_max in Hi.
    rewrite <-(app_nil_r (to_le_bytes 4 _)), read_le_app by (simpl; lia). cbn. by rewrite Nat2Z.id.
  - intros [d v]. simpl. assert (decode_elems (v ≫= encode_elem) = Some v) as ->.
    { induction v as [|f v IH]; [done|]. rewrite bind_cons.
      destruct f as [[]|[]| |[] m e]; simpl; by rewrite IH. }
    by destruct d.
Qed.

