(* ===== verification/Filters.v ===== *)
(** * Filter conditions

    Models how a point's payload is tested against a filter: the checks of
    [lib/segment/src/types.rs] ([Range], [ValuesCount], [GeoBoundingBox],
    [GeoRadius], payload selectors and type inference), the value checkers of
    [payload_storage/condition_checker.rs] and the filter evaluation of
    [payload_storage/query_checker.rs].

    Floats are IEEE values of [SpecFloat].  The great circle distance comes
    from the [geo] crate and is the class [GeoOps]. *)

From stdpp Require Import base gmap strings list sorting.
From Stdlib Require Import ZArith Lia SpecFloat.
From S2P Require Import Prelude Types JsonPath.

(** ** Values *)

Inductive PayloadSchemaType : Type := Keyword | Integer | Float | Geo | Text.

#[export] Instance PayloadSchemaType_eq_dec : EqDecision PayloadSchemaType.
Proof. solve_decision. Defined.

(** The distance of two points given as longitude and latitude. *)
Class GeoOps := {
  haversine_distance : spec_float * spec_float → spec_float * spec_float → spec_float;
}.

(** [Option::map_or] *)
Definition map_or {A B} (d : B) (f : A → B) (o : option A) : B :=
  match o with Some a => f a | None => d end.

(** [str::contains] *)
Definition str_contains (pattern s : string) : bool :=
  match String.index 0 pattern s with Some _ => true | None => false end.

Section filters.
Context {Num : Type} {HN : JsonNumber Num} {HG : GeoOps}.
Abbreviation Value := (Value Num).
Abbreviation Payload := (gmap string Value).

(** [Value::as_f64] *)
Definition value_as_f64 (v : Value) : option spec_float :=
  match v with VNumber n => as_f64 n | _ => None end.

Definition value_type (value : Value) : option PayloadSchemaType :=
  match value with
  | VNull => None
  | VBool _ => None
  | VNumber num =>
      if is_i64 num then Some Integer
      else if is_f64 num then Some Float
      else None
  | VString _ => Some Keyword
  | VArray _ => None
  | VObject obj =>
      match obj !! "lon"%string ≫= value_as_f64, obj !! "lat"%string ≫= value_as_f64 with
      | Some _, Some _ => Some Geo
      | _, _ => None
      end
  end.

Definition infer_collection_value_type (values : list Value) : option PayloadSchemaType :=
  match remove_dups (value_type <$> values) with
  | [t] => t
  | _ => None
  end.

Definition infer_value_type (value : Value) : option PayloadSchemaType :=
  match value with
  | VArray array => infer_collection_value_type array
  | _ => value_type value
  end.

(** ** Conditions on one value *)

Definition check_range (self : Range) (number : spec_float) : bool :=
  map_or true (λ x, SFltb number x) (range_lt self)
  && map_or true (λ x, SFltb x number) (range_gt self)
  && map_or true (λ x, SFleb number x) (range_lte self)
  && map_or true (λ x, SFleb x number) (range_gte self).

Definition check_count (self : ValuesCount) (value : Value) : bool :=
  let count := match value with
               | VNull => 0
               | VArray array => length array
               | _ => 1
               end in
  map_or true (λ x, count <? x) (count_lt self)
  && map_or true (λ x, x <? count) (count_gt self)
  && map_or true (λ x, count <=? x) (count_lte self)
  && map_or true (λ x, x <=? count) (count_gte self).

Definition bounding_box_check_point (self : GeoBoundingBox) (lon' lat' : spec_float) : bool :=
  SFltb (lon (top_left self)) lon'
  && SFltb lon' (lon (bottom_right self))
  && SFltb (lat (bottom_right self)) lat'
  && SFltb lat' (lat (top_left self)).

Definition radius_check_point (self : GeoRadius) (lon' lat' : spec_float) : bool :=
  SFltb (haversine_distance (lon (center self), lat (center self)) (lon', lat')) (radius self).

Definition match_check_match (self : Match) (payload : Value) : bool :=
  match self with
  | MatchValue value =>
      match payload, value with
      | VBool stored, VBoolean val => Bool.eqb stored val
      | VString stored, VKeyword val => bool_decide (stored = val)
      | VNumber stored, VInteger val => map_or false (λ num, Z.eqb num val) (as_i64 stored)
      | _, _ => false
      end
  | MatchText text =>
      match payload with
      | VString stored => str_contains text stored
      | _ => false
      end
  | MatchAny any =>
      match payload, any with
      | VString stored, Keywords list => bool_decide (stored ∈ list)
      | VNumber stored, Integers list => map_or false (λ num, bool_decide (num ∈ list)) (as_i64 stored)
      | _, _ => false
      end
  end.

Definition range_check_match (self : Range) (payload : Value) : bool :=
  match payload with
  | VNumber num => map_or false (check_range self) (as_f64 num)
  | _ => false
  end.

(** The coordinates of a value that is an object with both of them. *)
Definition geo_check_match (check_point : spec_float → spec_float → bool) (payload : Value) : bool :=
  match payload with
  | VObject obj =>
      match obj !! "lon"%string ≫= value_as_f64, obj !! "lat"%string ≫= value_as_f64 with
      | Some lon, Some lat => check_point lon lat
      | _, _ => false
      end
  | _ => false
  end.

Definition bounding_box_check_match (self : GeoBoundingBox) (payload : Value) : bool :=
  geo_check_match (bounding_box_check_point self) payload.

Definition radius_check_match (self : GeoRadius) (payload : Value) : bool :=
  geo_check_match (radius_check_point self) payload.

(** [ValueChecker::check]: an array matches when one of its values does. *)
Definition value_check (check_match : Value → bool) (payload : Value) : bool :=
  match payload with
  | VArray values => existsb check_match values
  | _ => check_match payload
  end.

(** ** Conditions on a payload *)

Definition payload_get_value (self : Payload) (path : string) : MultiValue Value :=
  get_value_from_json_map path self.

Definition payload_remove (self : Payload) (path : string) : list Value * Payload :=
  let '(values, self') := remove_value_from_json_map path self in (mv_values values, self').

Definition check_is_empty_condition (key : PayloadKeyType) (payload : Payload) : bool :=
  check_is_empty (payload_get_value payload key).

Definition check_is_null_condition (key : PayloadKeyType) (payload : Payload) : bool :=
  check_is_null (payload_get_value payload key).

(** The loop body: one of the conditions given is satisfied by [p]. *)
Definition check_field_value (field_condition : FieldCondition) (p : Value) : bool :=
  map_or false (λ c, value_check (match_check_match c) p) (fc_match field_condition)
  || map_or false (λ c, value_check (range_check_match c) p) (fc_range field_condition)
  || map_or false (λ c, value_check (radius_check_match c) p) (fc_geo_radius field_condition)
  || map_or false (λ c, value_check (bounding_box_check_match c) p) (fc_geo_bounding_box field_condition)
  || map_or false (λ c, check_count c p) (fc_values_count field_condition).

Definition check_field_condition (field_condition : FieldCondition) (payload : Payload) : bool :=
  fold_left (λ res p, res || check_field_value field_condition p)
    (mv_iter (payload_get_value payload (fc_key field_condition))) false.

(** ** Filters *)

(** [check_condition] and [check_filter] with their three clauses. *)
Fixpoint check_condition (checker : Condition → bool) (condition : Condition) : bool :=
  match condition with
  | CFilter filter => check_filter checker filter
  | _ => checker condition
  end
with check_filter (checker : Condition → bool) (filter : Filter) : bool :=
  match filter with
  | mkFilter should must must_not =>
      match should with
      | None => true
      | Some conditions => existsb (check_condition checker) conditions
      end
      && match must with
         | None => true
         | Some conditions => forallb (check_condition checker) conditions
         end
      && match must_not with
         | None => true
         | Some conditions => forallb (λ x, negb (check_condition checker x)) conditions
         end
  end.

(** The checker of [check_payload].  It is never called on a nested filter
    ([unreachable!] in the source, see [check_filter_leaf]). *)
Definition payload_checker (payload : Payload) (external_id : option PointIdType)
    (condition : Condition) : bool :=
  match condition with
  | CField field_condition => check_field_condition field_condition payload
  | CIsEmpty key => check_is_empty_condition key payload
  | CIsNull key => check_is_null_condition key payload
  | CHasId has_id =>
      match external_id with
      | None => false
      | Some id => bool_decide (id ∈ has_id)
      end
  | CFilter _ => false
  end.

Definition check_payload (payload : Payload) (external_id : option PointIdType) (query : Filter) : bool :=
  check_filter (payload_checker payload external_id) query.

(** ** Selecting payload fields *)

Inductive PayloadSelector : Type :=
| Include (include : list PayloadKeyType)
| Exclude (exclude : list PayloadKeyType).

Definition selector_check (self : PayloadSelector) (key : PayloadKeyType) : bool :=
  match self with
  | Include include => bool_decide (key ∈ include)
  | Exclude exclude => negb (bool_decide (key ∈ exclude))
  end.

Definition selector_process (self : PayloadSelector) (x : Payload) : Payload :=
  base.filter (λ kv, selector_check self kv.1 = true) x.

Record WithPayload := { enable : bool; payload_selector : option PayloadSelector }.

Inductive WithPayloadInterface : Type :=
| WPBool (b : bool)
| WPFields (fields : list PayloadKeyType)
| WPSelector (selector : PayloadSelector).

Definition with_payload_from (interface : WithPayloadInterface) : WithPayload :=
  match interface with
  | WPBool x => {| enable := x; payload_selector := None |}
  | WPFields x => {| enable := true; payload_selector := Some (Include x) |}
  | WPSelector x => {| enable := true; payload_selector := Some x |}
  end.

Inductive WithVector : Type :=
| WVBool (b : bool)
| WVSelector (names : list string).

(** ** Lemmas *)

Definition is_leaf (c : Condition) : bool := match c with CFilter _ => false | _ => true end.

Lemma existsb_ext_in {A} (f g : A → bool) l :
  Forall (λ x, f x = g x) l → existsb f l = existsb g l.
Proof. induction 1 as [|x l Hx _ IH]; [done|]. simpl. by rewrite Hx, IH. Qed.

Lemma forallb_ext_in {A} (f g : A → bool) l :
  Forall (λ x, f x = g x) l → forallb f l = forallb g l.
Proof. induction 1 as [|x l Hx _ IH]; [done|]. simpl. by rewrite Hx, IH. Qed.

Lemma forallb_negb {A} (f : A → bool) l : forallb (λ x, negb (f x)) l = negb (existsb f l).
Proof. induction l as [|x l IH]; [done|]. simpl. rewrite IH. by destruct (f x). Qed.

(** Evaluation only consults the checker on leaf conditions. *)
Lemma check_condition_leaf f g c :
  (∀ c, is_leaf c = true → f c = g c) → check_condition f c = check_condition g c.
Proof.
  intros Hfg. induction c as [fc|k|k|s|s m n Hs Hm Hn] using condition_ind_nested; try by apply Hfg.
  simpl. f_equal; [f_equal|].
  - destruct s as [l|]; [by apply existsb_ext_in|done].
  - destruct m as [l|]; [by apply forallb_ext_in|done].
  - destruct n as [l|]; [|done]. simpl in Hn. rewrite !forallb_negb. f_equal. by apply existsb_ext_in.
Qed.

Lemma check_filter_leaf f g filter :
  (∀ c, is_leaf c = true → f c = g c) → check_filter f filter = check_filter g filter.
Proof. intros Hfg. apply (check_condition_leaf f g (CFilter filter) Hfg). Qed.

Lemma check_field_condition_existsb fc p :
  check_field_condition fc p =
    existsb (check_field_value fc) (mv_values (payload_get_value p (fc_key fc))).
Proof.
  unfold check_field_condition. rewrite mv_iter_values.
  assert (∀ l b, fold_left (λ res p, res || check_field_value fc p) l b =
    b || existsb (check_field_value fc) l) as Hfold.
  { intros l. induction l as [|x l IH]; intros b; simpl; [by rewrite orb_false_r|].
    by rewrite IH, orb_assoc. }
  rewrite Hfold. simpl. generalize (mv_values (payload_get_value p (fc_key fc))) as l. intros l.
  induction l as [|x l IH]; [done|]. simpl. rewrite existsb_app, IH. simpl.
  rewrite orb_false_r. apply orb_comm.
Qed.
End filters.
