(* ===== verification/PayloadStorage.v ===== *)
(** * Payload storage

    Models [lib/segment/src/payload_storage]: the trait of
    [payload_storage_base.rs], the in-memory storage
    ([in_memory_payload_storage*.rs]) and the storage that persists every
    update ([simple_payload_storage*.rs]).  The CBOR codec is the class
    [PayloadCodec].  On-disk storage and the flushers are not modelled. *)

From stdpp Require Import base gmap strings list.
From Stdlib Require Import ZArith Lia Ascii.
From S2P Require Import Prelude Types Rocks JsonPath Filters.

Definition DB_PAYLOAD_CF : string := "payload".

(** ** The trait *)

Class PayloadStorage (Num PS : Type) := {
  ps_assign : PointOffsetType → Payload Num → sm PS OperationError unit;
  ps_payload : PS → PointOffsetType → OperationResult (Payload Num);
  ps_delete : PointOffsetType → PayloadKeyType → sm PS OperationError (list (Value Num));
  ps_drop : PointOffsetType → sm PS OperationError (option (Payload Num));
  ps_wipe : sm PS OperationError unit;
}.

Definition ps_assign_all {Num PS} `{!PayloadStorage Num PS} (point_id : PointOffsetType)
    (payload : Payload Num) : sm PS OperationError unit :=
  _ ← ps_drop point_id;
  ps_assign point_id payload.

(** What each operation does to the payloads of the points. *)
Section payload_maps.
Context {Num : Type}.
Abbreviation PMap := (gmap nat (Payload Num)).

Definition assign_map (i : PointOffsetType) (p : Payload Num) (m : PMap) : PMap :=
  <[i := match m !! i with Some old => payload_merge old p | None => p end]> m.

Definition delete_map (i : PointOffsetType) (key : PayloadKeyType) (m : PMap) : PMap :=
  match m !! i with
  | Some old => <[i := (payload_remove old key).2]> m
  | None => m
  end.
End payload_maps.

(** ** [InMemoryPayloadStorage] *)

Section in_memory.
Context {Num : Type}.
Abbreviation PS := (gmap nat (Payload Num)).

Definition mem_payload_ptr (self : PS) (point_id : PointOffsetType) : option (Payload Num) :=
  self !! point_id.

Definition mem_assign (point_id : PointOffsetType) (payload : Payload Num) : sm PS OperationError unit :=
  self ← sm_get;
  match self !! point_id with
  | Some point_payload => sm_modify (insert point_id (payload_merge point_payload payload))
  | None => sm_modify (insert point_id payload)
  end.

Definition mem_payload (self : PS) (point_id : PointOffsetType) : OperationResult (Payload Num) :=
  match self !! point_id with
  | Some payload => Ok payload
  | None => Ok ∅
  end.

Definition mem_delete (point_id : PointOffsetType) (key : PayloadKeyType) :
    sm PS OperationError (list (Value Num)) :=
  self ← sm_get;
  match self !! point_id with
  | Some payload =>
      let '(res, payload') := payload_remove payload key in
      _ ← sm_modify (insert point_id payload');
      mret res
  | None => mret []
  end.

Definition mem_drop (point_id : PointOffsetType) : sm PS OperationError (option (Payload Num)) :=
  self ← sm_get;
  _ ← sm_modify (delete point_id);
  mret (self !! point_id).

Definition mem_wipe : sm PS OperationError unit := sm_modify (λ _, ∅).

#[export] Instance in_memory_payload_storage : PayloadStorage Num PS := {|
  ps_assign := mem_assign;
  ps_payload := mem_payload;
  ps_delete := mem_delete;
  ps_drop := mem_drop;
  ps_wipe := mem_wipe;
|}.
End in_memory.

(** ** [SimplePayloadStorage] *)

Class PayloadCodec (Num : Type) := {
  ser_point : PointOffsetType → bytes;
  de_point : bytes → option PointOffsetType;
  ser_payload : Payload Num → bytes;
  de_payload : bytes → option (Payload Num);
}.

Class PayloadCodecLaws (Num : Type) `{!PayloadCodec Num} := {
  de_ser_point i : (N.of_nat i ≤ u32_max)%N → de_point (ser_point i) = Some i;
  de_ser_payload p : de_payload (ser_payload p) = Some p;
}.

Record SimplePayloadStorage (Num DB : Type) := mkSimplePayloadStorage {
  sps_payload : gmap nat (Payload Num);
  sps_db : DB;
}.
Arguments mkSimplePayloadStorage {Num DB}.
Arguments sps_payload {Num DB}.
Arguments sps_db {Num DB}.

Section simple_payload.
Context {Num DB : Type} {HDB : RocksDB DB} {HC : PayloadCodec Num}.
Abbreviation PS := (SimplePayloadStorage Num DB).

Definition open_payload_row (row : bytes * bytes) (payload_map : gmap nat (Payload Num)) :
    OperationResult (gmap nat (Payload Num)) :=
  let '(key, val) := row in
  point_id ← match de_point key with
             | Some i => Ok i
             | None => Err (service_error "cannot deserialize point id")
             end;
  payload ← match de_payload val with
            | Some p => Ok p
            | None => Err (service_error "cannot deserialize payload")
            end;
  Ok (<[point_id := payload]> payload_map).

Definition simple_payload_open (database : DB) : OperationResult PS :=
  rows ← column_iter DB_PAYLOAD_CF database;
  payload_map ← res_fold open_payload_row rows ∅;
  Ok (mkSimplePayloadStorage payload_map database).

Definition on_payload (f : gmap nat (Payload Num) → gmap nat (Payload Num)) : sm PS OperationError unit :=
  sm_modify (λ self, mkSimplePayloadStorage (f (sps_payload self)) (sps_db self)).

Definition on_payload_db {A} (f : sm DB OperationError A) : sm PS OperationError A :=
  sm_zoom sps_db (λ db self, mkSimplePayloadStorage (sps_payload self) db) f.

Definition update_storage (point_id : PointOffsetType) : sm PS OperationError unit :=
  self ← sm_get;
  match sps_payload self !! point_id with
  | None => on_payload_db (column_remove DB_PAYLOAD_CF (ser_point point_id))
  | Some payload => on_payload_db (column_put DB_PAYLOAD_CF (ser_point point_id) (ser_payload payload))
  end.

Definition payload_ptr (self : PS) (point_id : PointOffsetType) : option (Payload Num) :=
  sps_payload self !! point_id.

Definition simple_assign (point_id : PointOffsetType) (payload : Payload Num) : sm PS OperationError unit :=
  self ← sm_get;
  _ ← (match sps_payload self !! point_id with
       | Some point_payload => on_payload (insert point_id (payload_merge point_payload payload))
       | None => on_payload (insert point_id payload)
       end);
  update_storage point_id.

Definition simple_payload (self : PS) (point_id : PointOffsetType) : OperationResult (Payload Num) :=
  match sps_payload self !! point_id with
  | Some payload => Ok payload
  | None => Ok ∅
  end.

Definition simple_delete (point_id : PointOffsetType) (key : PayloadKeyType) :
    sm PS OperationError (list (Value Num)) :=
  self ← sm_get;
  match sps_payload self !! point_id with
  | Some payload =>
      let '(res, payload') := payload_remove payload key in
      _ ← on_payload (insert point_id payload');
      _ ← (match res with [] => mret tt | _ => update_storage point_id end);
      mret res
  | None => mret []
  end.

Definition simple_payload_drop (point_id : PointOffsetType) : sm PS OperationError (option (Payload Num)) :=
  self ← sm_get;
  _ ← on_payload (delete point_id);
  _ ← update_storage point_id;
  mret (sps_payload self !! point_id).

Definition simple_wipe : sm PS OperationError unit :=
  _ ← on_payload (λ _, ∅);
  on_payload_db (recreate_column_family DB_PAYLOAD_CF).

#[export] Instance simple_payload_storage : PayloadStorage Num PS := {|
  ps_assign := simple_assign;
  ps_payload := simple_payload;
  ps_delete := simple_delete;
  ps_drop := simple_payload_drop;
  ps_wipe := simple_wipe;
|}.
End simple_payload.

(** ** Access for the payload index

    What [PayloadProvider::with_payload] reads ([payload_ptr] of the storage)
    and the pairs [iter] calls back with. *)

Class PayloadScan (Num PS : Type) := {
  ps_payload_ptr : PS → PointOffsetType → option (Payload Num);
  ps_iter : PS → list (PointOffsetType * Payload Num);
}.

Definition mem_iter {Num} (self : gmap nat (Payload Num)) : list (PointOffsetType * Payload Num) :=
  map_to_list self.

Definition simple_payload_iter {Num DB} (self : SimplePayloadStorage Num DB) :
    list (PointOffsetType * Payload Num) :=
  map_to_list (sps_payload self).

#[export] Instance in_memory_scan {Num} : PayloadScan Num (gmap nat (Payload Num)) := {|
  ps_payload_ptr := mem_payload_ptr;
  ps_iter := mem_iter;
|}.

#[export] Instance simple_payload_scan {Num DB} : PayloadScan Num (SimplePayloadStorage Num DB) := {|
  ps_payload_ptr := payload_ptr;
  ps_iter := simple_payload_iter;
|}.

(** The payload of one point is replaced. *)
Definition payload_set {Num PS} `{!PayloadScan Num PS} (i : PointOffsetType) (p : option (Payload Num))
    (s s' : PS) : Prop :=
  ∀ j, ps_payload_ptr s' j = if decide (j = i) then p else ps_payload_ptr s j.

(** What the payload index relies on.  An operation that fails may have
    changed the point it was given, and no other. *)
Class PayloadStorageLaws (Num PS : Type) `{!PayloadStorage Num PS, !PayloadScan Num PS} := {
  ps_payload_spec (s : PS) i : ps_payload s i = Ok (default ∅ (ps_payload_ptr s i));
  elem_of_ps_iter (s : PS) i p : (i, p) ∈ ps_iter s ↔ ps_payload_ptr s i = Some p;
  NoDup_ps_iter (s : PS) : NoDup (ps_iter s).*1;
  ps_assign_spec (s : PS) i p :
    sm_wp (ps_assign i p)
      (λ _, payload_set i (Some (match ps_payload_ptr s i with
                                 | Some old => payload_merge old p | None => p end)) s)
      (λ _ s', ∃ q, payload_set i q s s') s;
  ps_delete_spec (s : PS) i key :
    sm_wp (ps_delete i key)
      (λ _, payload_set i ((λ old, (payload_remove old key).2) <$> ps_payload_ptr s i) s)
      (λ _ s', ∃ q, payload_set i q s s') s;
  ps_drop_spec (s : PS) i :
    sm_wp (ps_drop i) (λ r s', r = ps_payload_ptr s i ∧ payload_set i None s s')
      (λ _ s', ∃ q, payload_set i q s s') s;
}.

(** The operations, to speak of sequences of them. *)
Inductive payload_op (Num : Type) : Type :=
| PAssign (i : PointOffsetType) (p : Payload Num)
| PAssignAll (i : PointOffsetType) (p : Payload Num)
| PDelete (i : PointOffsetType) (key : PayloadKeyType)
| PDrop (i : PointOffsetType)
| PWipe.
Arguments PAssign {Num}.
Arguments PAssignAll {Num}.
Arguments PDelete {Num}.
Arguments PDrop {Num}.
Arguments PWipe {Num}.

Definition run_payload_op {Num PS} `{!PayloadStorage Num PS} (op : payload_op Num) :
    sm PS OperationError unit :=
  match op with
  | PAssign i p => ps_assign i p
  | PAssignAll i p => ps_assign_all i p
  | PDelete i key => ps_delete i key ≫= λ _, mret tt
  | PDrop i => ps_drop i ≫= λ _, mret tt
  | PWipe => ps_wipe
  end.

(** Their abstract effect on the payloads of the points. *)
Definition payload_op_map {Num} (op : payload_op Num) (m : gmap nat (Payload Num)) :
    gmap nat (Payload Num) :=
  match op with
  | PAssign i p => assign_map i p m
  | PAssignAll i p => <[i := p]> m
  | PDelete i key => delete_map i key m
  | PDrop i => delete i m
  | PWipe => ∅
  end.

Definition payload_op_offset {Num} (op : payload_op Num) : nat :=
  match op with PAssign i _ | PAssignAll i _ | PDelete i _ | PDrop i => i | PWipe => 0 end.

(** ** The in-memory storage implements the abstract effect *)

Lemma mem_op_map {Num} (op : payload_op Num) (m : gmap nat (Payload Num)) :
  run_payload_op op m = (Ok tt, payload_op_map op m).
Proof.
  destruct op as [i p|i p|i k|i|]; cbn; sm_unfold; unfold assign_map, delete_map; cbn; try done.
  - unfold mem_assign. sm_unfold. by destruct (m !! i).
  - unfold ps_assign_all. cbn. unfold mem_drop, mem_assign. sm_unfold. cbn.
    by rewrite lookup_delete_eq, insert_delete_eq.
  - unfold mem_delete. sm_unfold. destruct (m !! i) as [p|]; [|done].
    by destruct (payload_remove p k).
Qed.

Lemma payload_set_insert {Num} i p (m : gmap nat (Payload Num)) : payload_set i (Some p) m (<[i := p]> m).
Proof.
  intros j. cbn. unfold mem_payload_ptr. case_decide; [subst; by rewrite lookup_insert_eq|by rewrite lookup_insert_ne].
Qed.

Lemma payload_set_delete {Num} i (m : gmap nat (Payload Num)) : payload_set i None m (delete i m).
Proof.
  intros j. cbn. unfold mem_payload_ptr. case_decide; [subst; by rewrite lookup_delete_eq|by rewrite lookup_delete_ne].
Qed.

Lemma payload_set_same {Num PS} `{!PayloadScan Num PS} i (s : PS) :
  payload_set i (ps_payload_ptr s i) s s.
Proof. intros j. case_decide; by subst. Qed.

#[export] Instance in_memory_payload_laws {Num} : PayloadStorageLaws Num (gmap nat (Payload Num)).
Proof.
  split; cbn.
  - intros s i. unfold mem_payload, mem_payload_ptr. by destruct (s !! i).
  - intros s i p. apply elem_of_map_to_list.
  - intros s. apply NoDup_fst_map_to_list.
  - intros s i p. unfold mem_assign, sm_wp, mem_payload_ptr. sm_unfold.
    destruct (s !! i); apply payload_set_insert.
  - intros s i key. unfold mem_delete, sm_wp, mem_payload_ptr. sm_unfold.
    destruct (s !! i) as [p|] eqn:Hi.
    + destruct (payload_remove p key) as [r p'] eqn:Hr. cbn. rewrite Hr. apply payload_set_insert.
    + intros j. cbn. unfold mem_payload_ptr. case_decide; by subst.
  - intros s i. unfold mem_drop, sm_wp, mem_payload_ptr. sm_unfold. split; [done|]. apply payload_set_delete.
Qed.

(** A write of the column leaves the payloads in memory alone. *)
Lemma update_storage_wp {Num DB} {HDB : RocksDB DB} {HDBL : RocksLaws DB} {HC : PayloadCodec Num} i
    (s : SimplePayloadStorage Num DB) :
  sm_wp (update_storage i) (λ _ s', sps_payload s' = sps_payload s)
    (λ _ s', sps_payload s' = sps_payload s) s.
Proof.
  unfold update_storage. apply sm_wp_bind. unfold sm_wp at 1, sm_get.
  destruct (sps_payload s !! i); apply sm_wp_zoom;
    (apply column_put_wp || apply column_remove_wp); done.
Qed.

#[export] Instance simple_payload_storage_laws {Num DB} {HDB : RocksDB DB} {HDBL : RocksLaws DB}
    {HC : PayloadCodec Num} : PayloadStorageLaws Num (SimplePayloadStorage Num DB).
Proof.
  assert (∀ i p (s s' : SimplePayloadStorage Num DB), payload_set i p (sps_payload s) (sps_payload s') →
    payload_set i p s s') as Hmem by done.
  split; cbn.
  - intros s i. unfold simple_payload, payload_ptr. by destruct (_ !! i).
  - intros s i p. apply elem_of_map_to_list.
  - intros s. apply NoDup_fst_map_to_list.
  - intros s i p. unfold simple_assign. apply sm_wp_bind. unfold sm_wp at 1, sm_get, payload_ptr.
    apply sm_wp_bind. destruct (sps_payload s !! i) as [old|]; apply sm_wp_modify;
      (eapply sm_wp_mono; [apply update_storage_wp| |]; cbn; intros _ s' Hs');
      [| eexists | |eexists]; apply Hmem; rewrite Hs'; apply payload_set_insert.
  - intros s i key. unfold simple_delete. apply sm_wp_bind. unfold sm_wp at 1, sm_get, payload_ptr.
    destruct (sps_payload s !! i) as [p|] eqn:Hi.
    2:{ apply sm_wp_ret. intros j. cbn. unfold payload_ptr. case_decide; by subst. }
    destruct (payload_remove p key) as [r p'] eqn:Hr. cbn. rewrite Hr. apply sm_wp_bind, sm_wp_modify, sm_wp_bind.
    assert (∀ s', sps_payload s' = <[i := p']> (sps_payload s) → payload_set i (Some p') s s') as Hset.
    { intros s' Hs'. apply Hmem. rewrite Hs'. apply payload_set_insert. }
    destruct r; [by apply sm_wp_ret, sm_wp_ret, Hset|].
    eapply sm_wp_mono; [apply update_storage_wp| |]; cbn; intros _ s' Hs'; [|eexists]; by apply Hset.
  - intros s i. unfold simple_payload_drop. apply sm_wp_bind. unfold sm_wp at 1, sm_get, payload_ptr.
    apply sm_wp_bind, sm_wp_modify, sm_wp_bind.
    eapply sm_wp_mono; [apply update_storage_wp| |]; cbn; intros _ s' Hs'; [split; [done|]|eexists];
      apply Hmem; rewrite Hs'; apply payload_set_delete.
Qed.

(** ** The persistent storage: memory and column stay in step *)

Section simple_payload_laws.
Context {Num DB : Type} {HDB : RocksDB DB} {HDBL : RocksLaws DB}
  {HC : PayloadCodec Num} {HCL : PayloadCodecLaws Num}.
Abbreviation PS := (SimplePayloadStorage Num DB).
Implicit Types s : PS.

Record payload_synced (s : PS) : Prop := {
  psync_cf : cf_handle (sps_db s) DB_PAYLOAD_CF = true;
  psync_bound i p : sps_payload s !! i = Some p → (N.of_nat i ≤ u32_max)%N;
  psync_view k b : cf_view (sps_db s) DB_PAYLOAD_CF !! k = Some b ↔
    ∃ i p, sps_payload s !! i = Some p ∧ k = ser_point i ∧ b = ser_payload p;
}.

(** Memory was changed at [i] only, and the column not yet. *)
Lemma synced_update s m i s' :
  payload_synced s → (N.of_nat i ≤ u32_max)%N →
  (∀ j, j ≠ i → m !! j = sps_payload s !! j) →
  update_storage i (mkSimplePayloadStorage m (sps_db s)) = (Ok tt, s') →
  payload_synced s' ∧ sps_payload s' = m.
Proof.
  intros [Hcf Hb Hview] Hi Hm. unfold update_storage, on_payload_db, sm_zoom. sm_unfold. cbn.
  assert (∀ j p, m !! j = Some p → (N.of_nat j ≤ u32_max)%N) as Hbm.
  { intros j p. destruct (decide (j = i)) as [->|Hne]; [done|]. rewrite Hm by done. apply Hb. }
  assert (∀ j, (N.of_nat j ≤ u32_max)%N → ser_point (Num:=Num) j = ser_point i → j = i) as Hinj.
  { intros j Hj Heq. pose proof (de_ser_point (Num:=Num) j Hj) as H1.
    rewrite Heq, de_ser_point in H1 by done. congruence. }
  destruct (m !! i) as [p|] eqn:Hmi.
  - destruct (column_put _ _ _ _) as [r db] eqn:Hput. intros [= -> <-]. split; [|done].
    destruct (column_put_Ok _ _ _ _ _ DB_PAYLOAD_CF Hput) as [Hv Hcf'].
    rewrite decide_True in Hv by done. split; simpl; [by rewrite Hcf'|done|].
    intros k b. rewrite Hv, lookup_insert_Some, Hview. split.
    + intros [[<- <-]|(Hne & j & q & Hj & -> & ->)]; [eauto|].
      exists j, q. rewrite Hm by congruence. done.
    + intros (j & q & Hj & -> & ->). destruct (decide (j = i)) as [->|Hne].
      * left. split; congruence.
      * right. split; [intros Heq; by apply Hne, Hinj; [eapply Hbm|]|].
        exists j, q. by rewrite <-Hm.
  - destruct (column_remove _ _ _) as [r db] eqn:Hrem. intros [= -> <-]. split; [|done].
    destruct (column_remove_Ok _ _ _ _ DB_PAYLOAD_CF Hrem) as [Hv Hcf'].
    rewrite decide_True in Hv by done. split; simpl; [by rewrite Hcf'|done|].
    intros k b. rewrite Hv, lookup_delete_Some, Hview. split.
    + intros (Hne & j & q & Hj & -> & ->). exists j, q. rewrite Hm by congruence. done.
    + intros (j & q & Hj & -> & ->). assert (j ≠ i) by congruence.
      split; [intros Heq; by apply H, Hinj; [eapply Hbm|]|]. exists j, q. by rewrite <-Hm.
Qed.

Lemma simple_assign_synced s i p s' :
  payload_synced s → (N.of_nat i ≤ u32_max)%N → simple_assign i p s = (Ok tt, s') →
  payload_synced s' ∧ sps_payload s' = assign_map i p (sps_payload s).
Proof.
  intros Hs Hi Hrun. apply (synced_update s _ i); [exact Hs|exact Hi| |].
  - intros j Hj. unfold assign_map. by rewrite lookup_insert_ne.
  - rewrite <-Hrun. unfold simple_assign, on_payload, assign_map. sm_unfold. cbn.
    by destruct (sps_payload s !! i).
Qed.

Lemma simple_drop_synced s i r s' :
  payload_synced s → (N.of_nat i ≤ u32_max)%N → simple_payload_drop i s = (Ok r, s') →
  payload_synced s' ∧ sps_payload s' = delete i (sps_payload s).
Proof.
  intros Hs Hi Hrun. apply (synced_update s _ i); [exact Hs|exact Hi| |].
  - intros j Hj. by rewrite lookup_delete_ne.
  - unfold simple_payload_drop, on_payload in Hrun. sm_unfold. cbn -[update_storage] in Hrun.
    destruct (update_storage i _) as [[[]| |] s1]; congruence.
Qed.

Lemma simple_delete_synced s i key r s' :
  payload_synced s → (N.of_nat i ≤ u32_max)%N → simple_delete i key s = (Ok r, s') →
  payload_synced s' ∧ sps_payload s' = delete_map i key (sps_payload s).
Proof.
  intros Hs Hi Hrun. unfold simple_delete, on_payload in Hrun. sm_unfold.
  cbn -[update_storage] in Hrun. unfold delete_map.
  destruct (sps_payload s !! i) as [p|] eqn:Hp; [|by injection Hrun as _ <-].
  destruct (payload_remove p key) as [res p'] eqn:Hrem. cbn -[update_storage] in *.
  destruct res as [|v res].
  - injection Hrun as _ <-. cbn. unfold payload_remove, remove_value_from_json_map in Hrem.
    rewrite remove_value_elems in Hrem by lia.
    pose proof (remove_elems_unchanged (split_on "."%char key) p) as Hun.
    destruct (remove_elems (split_on "."%char key) p) as [values m']. injection Hrem as Hv <-.
    cbn [fst snd] in Hun |- *. rewrite (Hun Hv). rewrite insert_id by done. by destruct s.
  - apply (synced_update s _ i); [exact Hs|exact Hi| |].
    + intros j Hj. by rewrite lookup_insert_ne.
    + destruct (update_storage i _) as [[[]| |] s1]; congruence.
Qed.

Lemma simple_wipe_synced s s' :
  payload_synced s → simple_wipe s = (Ok tt, s') → payload_synced s' ∧ sps_payload s' = ∅.
Proof.
  intros [Hcf Hb Hview]. unfold simple_wipe, on_payload, on_payload_db, sm_zoom. sm_unfold.
  cbn -[recreate_column_family].
  destruct (recreate_column_family DB_PAYLOAD_CF (sps_db s)) as [r db] eqn:Hrec. intros [= -> <-].
  apply recreate_Ok in Hrec as (Hv & Hcf' & _). split; [|done]. split; simpl.
  - done.
  - intros i p. by rewrite lookup_empty.
  - intros k b. rewrite Hv, lookup_empty. split; [done|]. intros (i & p & Hp & _).
    by rewrite lookup_empty in Hp.
Qed.

Lemma simple_op_synced s op s' :
  payload_synced s → (N.of_nat (payload_op_offset op) ≤ u32_max)%N →
  run_payload_op op s = (Ok tt, s') →
  payload_synced s' ∧ sps_payload s' = payload_op_map op (sps_payload s).
Proof.
  intros Hs Hi Hrun. destruct op as [i p|i p|i k|i|]; cbn [run_payload_op payload_op_map] in *.
  - by apply (simple_assign_synced s).
  - unfold ps_assign_all in Hrun. apply sm_bind_Ok_inv in Hrun as (r & s1 & Hd & Ha).
    apply (simple_drop_synced s) in Hd as [Hs1 Hm1]; [|done..].
    apply (simple_assign_synced s1) in Ha as [Hs' Hm']; [|done..]. split; [done|].
    rewrite Hm', Hm1. unfold assign_map. by rewrite lookup_delete_eq, insert_delete_eq.
  - apply sm_bind_Ok_inv in Hrun as (r & s1 & Hd & [= ->]). by eapply simple_delete_synced.
  - apply sm_bind_Ok_inv in Hrun as (r & s1 & Hd & [= ->]). by eapply simple_drop_synced.
  - by apply (simple_wipe_synced s).
Qed.

Lemma simple_ops_synced s ops s' :
  payload_synced s → Forall (λ op, (N.of_nat (payload_op_offset op) ≤ u32_max)%N) ops →
  sm_for run_payload_op ops s = (Ok tt, s') →
  payload_synced s' ∧ sps_payload s' = fold_left (λ m op, payload_op_map op m) ops (sps_payload s).
Proof.
  revert s. induction ops as [|op ops IH]; intros s Hs Hops Hrun; [by injection Hrun as <-|].
  apply Forall_cons in Hops as [Hop Hops]. apply sm_bind_Ok_inv in Hrun as ([] & s1 & H1 & Hrun).
  apply (simple_op_synced s) in H1 as [Hs1 Hm1]; [|done..].
  destruct (IH s1 Hs1 Hops Hrun) as [Hs' Hm']. split; [done|]. simpl. by rewrite Hm', Hm1.
Qed.

Lemma open_payload_rows (l : list (nat * Payload Num)) m :
  Forall (λ ip, (N.of_nat ip.1 ≤ u32_max)%N) l →
  res_fold open_payload_row ((λ ip, (ser_point ip.1, ser_payload ip.2)) <$> l) m =
    Ok (fold_left (λ m ip, <[ip.1 := ip.2]> m) l m).
Proof.
  revert m. induction l as [|[i p] l IH]; intros m Hl; [done|]. apply Forall_cons in Hl as [Hi Hl].
  rewrite fmap_cons. cbn [res_fold open_payload_row fst snd].
  rewrite de_ser_point, de_ser_payload by done. cbn. by rewrite IH.
Qed.

Lemma payload_synced_open s :
  payload_synced s → simple_payload_open (sps_db s) = Ok s.
Proof.
  intros [Hcf Hb Hview]. unfold simple_payload_open. rewrite column_iter_eq.
  unfold get_column_family. rewrite Hcf. cbn [mbind result_bind].
  set (row := λ ip : nat * Payload Num, (ser_point (Num:=Num) ip.1, ser_payload ip.2)).
  assert (iter_cf (sps_db s) DB_PAYLOAD_CF ≡ₚ row <$> map_to_list (sps_payload s)) as Hperm.
  { rewrite iter_cf_view. apply NoDup_Permutation; [apply NoDup_map_to_list| |].
    - apply NoDup_fmap_2_strong; [|apply NoDup_map_to_list].
      intros [i p] [j q] Hi%elem_of_map_to_list Hj%elem_of_map_to_list [= Hk _].
      pose proof (de_ser_point (Num:=Num) i (Hb _ _ Hi)) as H1.
      rewrite Hk, de_ser_point in H1 by eauto. congruence.
    - intros [k b]. rewrite elem_of_map_to_list, Hview, list_elem_of_fmap. split.
      + intros (i & p & Hi & -> & ->). exists (i, p). by rewrite elem_of_map_to_list.
      + intros ([i p] & [= -> ->] & Hi%elem_of_map_to_list). eauto. }
  apply Permutation_map_inv in Hperm as (l & Hrows & Hl). rewrite Hrows.
  change (map row l) with (row <$> l). unfold row. rewrite open_payload_rows.
  - cbn. f_equal. destruct s as [m db]. simpl in *. f_equal.
    assert (NoDup l.*1) as Hnd by (rewrite <-Hl; apply NoDup_fst_map_to_list).
    rewrite fold_left_insert, (right_id_L ∅ (∪)) by done. symmetry.
    rewrite <-(list_to_map_to_list m) at 1. by apply list_to_map_proper; [rewrite Hl|].
  - apply Forall_forall. intros [i p]. rewrite <-Hl, elem_of_map_to_list. apply Hb.
Qed.
End simple_payload_laws.

(** ** Properties *)

(** C38: the persistent payload storage refines the in-memory one and is
    durable.  Opened on an empty column and changed by operations that
    succeed, it holds exactly the payloads the in-memory storage computes, and
    reopening its database gives the same storage. *)
Theorem payload_storage_durable {Num DB} {HDB : RocksDB DB} {HDBL : RocksLaws DB}
    {HC : PayloadCodec Num} {HCL : PayloadCodecLaws Num} (db : DB) (ops : list (payload_op Num)) s :
  cf_handle db DB_PAYLOAD_CF = true → cf_view db DB_PAYLOAD_CF = ∅ →
  Forall (λ op, (N.of_nat (payload_op_offset op) ≤ u32_max)%N) ops →
  sm_for run_payload_op ops (mkSimplePayloadStorage ∅ db) = (Ok tt, s) →
  simple_payload_open db = Ok (mkSimplePayloadStorage ∅ db) ∧
  sm_for run_payload_op ops (∅ : gmap nat (Payload Num)) = (Ok tt, sps_payload s) ∧
  simple_payload_open (sps_db s) = Ok s.
Proof.
  intros Hcf Hv Hops Hrun.
  assert (payload_synced (mkSimplePayloadStorage (∅ : gmap nat (Payload Num)) db)) as Hs0.
  { split; simpl; [done|intros i p; by rewrite lookup_empty|]. intros k b. rewrite Hv, lookup_empty.
    split; [done|]. intros (i & p & Hp & _). by rewrite lookup_empty in Hp. }
  destruct (simple_ops_synced _ _ _ Hs0 Hops Hrun) as [Hs ->]. simpl. split_and!.
  - exact (payload_synced_open _ Hs0).
  - clear. generalize (∅ : gmap nat (Payload Num)) as m. induction ops as [|op ops IH]; intros m; [done|].
    cbn [sm_for]. rewrite (sm_bind_Ok _ _ _ _ _ (mem_op_map op m)). apply IH.
  - by apply payload_synced_open.
Qed.

(** A codec, to evaluate statements with. *)
#[export] Instance payload_codec : PayloadCodec Z := {|
  ser_point i := to_le_bytes 4 (Z.of_nat i);
  de_point bs := n ← read_le 4 bs; Some (Z.to_nat n);
  ser_payload p := [Zpos (encode (VObject p))];
  de_payload bs := match bs with
                   | [Zpos x] => match decode x with Some (VObject p) => Some p | _ => None end
                   | _ => None
                   end;
|}.

#[export] Instance payload_codec_laws : PayloadCodecLaws Z.
Proof.
  split; cbn -[to_le_bytes read_le encode decode].
  - intros i Hi. unfold u32_max in Hi.
    rewrite <-(app_nil_r (to_le_bytes 4 _)), read_le_app by (simpl; lia). cbn. by rewrite Nat2Z.id.
  - intros p. by rewrite decode_encode.
Qed.

Definition payload_db : MemDB := {[ DB_PAYLOAD_CF := ∅ ]}.
Definition payload_ops : list (payload_op Z) :=
  [PAssign 0 {[ "a" := VNumber 1%Z; "b" := VNull ]}; PAssign 1 {[ "c" := VBool true ]};
   PDelete 0 "a"; PDrop 1].

Lemma payload_storage_durable_witness :
  let s := (sm_for run_payload_op payload_ops (mkSimplePayloadStorage ∅ payload_db)).2 in
  simple_payload_open (sps_db s) = Ok s ∧ sps_payload s = {[ 0 := {[ "b" := VNull ]} ]}.
Proof.
  intros s.
  destruct (payload_storage_durable payload_db payload_ops s) as (_ & _ & Hopen).
  - by vm_compute.
  - by vm_compute.
  - repeat constructor; by vm_compute.
  - by vm_compute.
  - split; [exact Hopen|]. by vm_compute.
Defined.

(** Applying a [set_payload] again.  Assigning the same payload twice
    leaves what assigning it once leaves exactly when the point already had a
    payload or the assigned payload has no null: the first assignment to a
    point without payload stores its nulls, and the second erases them. *)
Lemma assign_again {Num} (m : gmap nat (Payload Num)) i (p : Payload Num) :
  (mem_assign i p (mem_assign i p m).2).2 = (mem_assign i p m).2 ↔
  is_Some (m !! i) ∨ ∀ k, p !! k ≠ Some VNull.
Proof.
  change (mem_assign i p) with (run_payload_op (PS:=gmap nat (Payload Num)) (PAssign i p)).
  rewrite !mem_op_map. cbn [snd payload_op_map]. unfold assign_map at 1. rewrite insert_union_singleton_l.
  unfold assign_map. rewrite lookup_insert_eq, <-insert_union_singleton_l, insert_insert_eq.
  destruct (m !! i) as [old|] eqn:Hm.
  - rewrite payload_merge_idem. naive_solver.
  - split.
    + intros Heq. right. apply (f_equal (.!! i)) in Heq. rewrite !lookup_insert_eq in Heq.
      injection Heq as Heq. intros k Hk. apply (f_equal (.!! k)) in Heq.
      rewrite lookup_payload_merge, Hk in Heq. done.
    + intros [[? ?]|Hno]; [done|]. f_equal. apply map_eq. intros k. rewrite lookup_payload_merge.
      specialize (Hno k). by destruct (p !! k) as [[]|].
Qed.
