(* ===== verification/Estimator.v ===== *)
(** * Cardinality estimation

    Models [lib/segment/src/index/query_estimator.rs] and the estimation type
    of [index/field_index/mod.rs].  Counts are [usize], kept as [N]; the
    subtractions wrap around as in a release build.  The expected counts go
    through [f64], evaluated with the IEEE operations of [SpecFloat].

    The theorem is about the bounds: whatever the float arithmetic gives for
    the expected count, the minimum and maximum bracket the true number of
    matching points when they do for each elementary condition. *)

From stdpp Require Import base gmap strings list sorting.
From Stdlib Require Import ZArith Lia SpecFloat.
From S2P Require Import Prelude Types JsonPath Filters.

(** ** Machine arithmetic *)

(** [a - b] on [usize] without overflow checks. *)
Definition usize_sub (a b : N) : N :=
  if decide (b ≤ a)%N then (a - b)%N else (a + 18446744073709551616 - b)%N.

(** [n as f64] *)
Definition f64_of_N (n : N) : spec_float := binary_normalize 53 1024 (Z.of_N n) 0 false.
Definition f64_one : spec_float := f64_of_N 1.
Definition f64_mul := SFmul 53 1024.
Definition f64_div := SFdiv 53 1024.
Definition f64_sub := SFsub 53 1024.

(** [x.round() as usize]: to nearest, ties away from zero, then the
    saturating cast. *)
Definition f64_round_usize (x : spec_float) : N :=
  match x with
  | S754_finite false m e =>
      let z := if (0 <=? e)%Z then (Zpos m * 2 ^ e)%Z
               else ((Zpos m + 2 ^ (- e - 1)) / 2 ^ (- e))%Z in
      N.min (Z.to_N z) u64_max
  | S754_infinity false => u64_max
  | _ => 0%N
  end.

(** [iter().product()] *)
Definition f64_product (l : list spec_float) : spec_float := fold_left f64_mul l f64_one.

(** ** Estimations *)

Inductive PrimaryCondition : Type :=
| PCondition (c : FieldCondition)
| PIsEmpty (key : PayloadKeyType)
| PIsNull (key : PayloadKeyType)
| PIds (ids : gset PointOffsetType).

Record CardinalityEstimation := mkEstimation {
  primary_clauses : list PrimaryCondition;
  est_min : N;
  est_exp : N;
  est_max : N;
}.

Definition estimation_exact (count : N) : CardinalityEstimation :=
  mkEstimation [] count count count.

Definition estimation_unknown (total : N) : CardinalityEstimation :=
  mkEstimation [] 0 (total / 2) total.

(** The clauses of a disjunction: none if a branch has none. *)
Fixpoint should_clauses (estimations : list CardinalityEstimation) (clauses : list PrimaryCondition) :
    list PrimaryCondition :=
  match estimations with
  | [] => clauses
  | estimation :: rest =>
      match primary_clauses estimation with
      | [] => []
      | cs => should_clauses rest (clauses ++ cs)
      end
  end.

Definition list_max_N (l : list N) : N := fold_right N.max 0%N l.

Definition combine_should_estimations (estimations : list CardinalityEstimation) (total : N) :
    CardinalityEstimation :=
  let clauses := should_clauses estimations [] in
  let element_not_hit_prob :=
    f64_product ((λ x, f64_div (f64_of_N (usize_sub total (est_exp x))) (f64_of_N total)) <$> estimations) in
  let element_hit_prob := f64_sub f64_one element_not_hit_prob in
  let expected_count := f64_round_usize (f64_mul element_hit_prob (f64_of_N total)) in
  mkEstimation clauses
    (list_max_N (est_min <$> estimations))
    expected_count
    (N.min (fold_right N.add 0%N (est_max <$> estimations)) total).

(** The first element with the least key. *)
Fixpoint min_by_exp (l : list CardinalityEstimation) : option CardinalityEstimation :=
  match l with
  | [] => None
  | x :: l' => match min_by_exp l' with
               | Some y => if decide (est_exp x ≤ est_exp y)%N then Some x else Some y
               | None => Some x
               end
  end.

Definition combine_must_estimations (estimations : list CardinalityEstimation) (total : N) :
    CardinalityEstimation :=
  let min_estimation :=
    fold_left (λ acc x, Z.max 0 (acc + Z.of_N x - Z.of_N total)) (est_min <$> estimations) (Z.of_N total) in
  let max_estimation :=
    match est_max <$> estimations with
    | [] => total
    | x :: l => fold_left N.min l x
    end in
  let exp_estimation_prob :=
    f64_product ((λ x, f64_div (f64_of_N (est_exp x)) (f64_of_N total)) <$> estimations) in
  let exp_estimation := f64_round_usize (f64_mul exp_estimation_prob (f64_of_N total)) in
  let clauses :=
    match min_by_exp (base.filter (λ x, primary_clauses x ≠ []) estimations) with
    | Some x => primary_clauses x
    | None => []
    end in
  mkEstimation clauses (Z.to_N min_estimation) exp_estimation max_estimation.

Definition invert_estimation (estimation : CardinalityEstimation) (total : N) : CardinalityEstimation :=
  mkEstimation []
    (usize_sub total (est_max estimation))
    (usize_sub total (est_exp estimation))
    (usize_sub total (est_min estimation)).

(** [estimate_condition] and [estimate_filter] with their clauses; the
    estimator of the elementary conditions may panic. *)
Fixpoint estimate_condition {E} (estimator : Condition → result E CardinalityEstimation) (total : N)
    (condition : Condition) : result E CardinalityEstimation :=
  match condition with
  | CFilter filter => estimate_filter estimator total filter
  | _ => estimator condition
  end
with estimate_filter {E} (estimator : Condition → result E CardinalityEstimation) (total : N) (filter : Filter) :
    result E CardinalityEstimation :=
  match filter with
  | mkFilter should must must_not =>
      must_est ← match must with
        | Some ((_ :: _) as conditions) =>
            estimations ← res_map (estimate_condition estimator total) conditions;
            Ok [combine_must_estimations estimations total]
        | _ => Ok []
        end;
      should_est ← match should with
        | Some ((_ :: _) as conditions) =>
            estimations ← res_map (estimate_condition estimator total) conditions;
            Ok [combine_should_estimations estimations total]
        | _ => Ok []
        end;
      must_not_est ← match must_not with
        | Some ((_ :: _) as conditions) =>
            estimations ← res_map (λ x, estimation ← estimate_condition estimator total x;
                                        Ok (invert_estimation estimation total)) conditions;
            Ok [combine_must_estimations estimations total]
        | _ => Ok []
        end;
      Ok (combine_must_estimations (must_est ++ should_est ++ must_not_est) total)
  end.

(** The same for an estimator that does not panic. *)
Fixpoint condition_estimation (estimator : Condition → CardinalityEstimation) (total : N)
    (condition : Condition) : CardinalityEstimation :=
  match condition with
  | CFilter filter => filter_estimation estimator total filter
  | _ => estimator condition
  end
with filter_estimation (estimator : Condition → CardinalityEstimation) (total : N) (filter : Filter) :
    CardinalityEstimation :=
  match filter with
  | mkFilter should must must_not =>
      let must_est := match must with
        | Some ((_ :: _) as conditions) =>
            [combine_must_estimations (map (condition_estimation estimator total) conditions) total]
        | _ => []
        end in
      let should_est := match should with
        | Some ((_ :: _) as conditions) =>
            [combine_should_estimations (map (condition_estimation estimator total) conditions) total]
        | _ => []
        end in
      let must_not_est := match must_not with
        | Some ((_ :: _) as conditions) =>
            [combine_must_estimations
              (map (λ x, invert_estimation (condition_estimation estimator total x) total) conditions) total]
        | _ => []
        end in
      combine_must_estimations (must_est ++ should_est ++ must_not_est) total
  end.

(** ** Soundness of the bounds *)

(** No [should] clause is present but empty, at any depth. *)
Fixpoint no_empty_should (c : Condition) : bool :=
  match c with
  | CFilter f => no_empty_should_filter f
  | _ => true
  end
with no_empty_should_filter (f : Filter) : bool :=
  match f with
  | mkFilter should must must_not =>
      match should with
      | Some [] => false
      | Some l => forallb no_empty_should l
      | None => true
      end
      && match must with Some l => forallb no_empty_should l | None => true end
      && match must_not with Some l => forallb no_empty_should l | None => true end
  end.

Section soundness.
Context {Pt : Type} (pts : list Pt).

Definition count_matching (P : Pt → bool) : N := N.of_nat (length (base.filter (λ p, P p = true) pts)).
Definition total : N := N.of_nat (length pts).

(** The estimation brackets the number of matching points. *)
Definition brackets (e : CardinalityEstimation) (P : Pt → bool) : Prop :=
  (est_min e ≤ count_matching P ≤ est_max e)%N ∧ (est_max e ≤ total)%N.

Lemma count_cons (P : Pt → bool) p l :
  length (base.filter (λ p, P p = true) (p :: l)) =
    (if P p then 1 else 0) + length (base.filter (λ p, P p = true) l).
Proof. rewrite filter_cons. by destruct (P p). Qed.

Lemma count_total P : (count_matching P ≤ total)%N.
Proof. unfold count_matching, total. pose proof (length_filter (λ p, P p = true) pts). lia. Qed.

Lemma count_ext P Q : (∀ p, P p = Q p) → count_matching P = count_matching Q.
Proof.
  intros H. unfold count_matching. do 2 f_equal. apply list_filter_iff. intros p. by rewrite H.
Qed.

Lemma count_true : count_matching (λ _, true) = total.
Proof. unfold count_matching, total. do 2 f_equal. by apply list_filter_all. Qed.

Lemma count_false : count_matching (λ _, false) = 0%N.
Proof. unfold count_matching. by rewrite list_filter_none by done. Qed.

Lemma count_and P Q :
  (count_matching P + count_matching Q ≤ total + count_matching (λ p, P p && Q p))%N ∧
  (count_matching (λ p, P p && Q p) ≤ count_matching P)%N ∧
  (count_matching (λ p, P p && Q p) ≤ count_matching Q)%N.
Proof.
  unfold count_matching, total. induction pts as [|p l IH]; [done|].
  rewrite !count_cons. simpl. destruct (P p), (Q p); simpl; lia.
Qed.

Lemma count_or P Q :
  (count_matching P ≤ count_matching (λ p, P p || Q p))%N ∧
  (count_matching Q ≤ count_matching (λ p, P p || Q p))%N ∧
  (count_matching (λ p, P p || Q p) ≤ count_matching P + count_matching Q)%N.
Proof.
  unfold count_matching. induction pts as [|p l IH]; [done|].
  rewrite !count_cons. simpl. destruct (P p), (Q p); simpl; lia.
Qed.

Lemma count_negb P : (count_matching (λ p, negb (P p)) + count_matching P = total)%N.
Proof.
  unfold count_matching, total. induction pts as [|p l IH]; [done|].
  rewrite !count_cons. simpl. destruct (P p); simpl; lia.
Qed.

Lemma brackets_ext e P Q : (∀ p, P p = Q p) → brackets e P → brackets e Q.
Proof. intros H. unfold brackets. by rewrite (count_ext P Q H). Qed.

Lemma brackets_invert e P : brackets e P → brackets (invert_estimation e total) (λ p, negb (P p)).
Proof.
  intros [[Hmin Hmax] Htot]. pose proof (count_negb P). unfold brackets, invert_estimation. simpl.
  unfold usize_sub. rewrite !decide_True by lia. lia.
Qed.

(** Conjunction: the minimum by inclusion-exclusion, the maximum by the
    smallest branch. *)
Lemma must_min_fold (es : list CardinalityEstimation) (Ps : list (Pt → bool)) Q acc :
  Forall2 brackets es Ps → (0 ≤ acc ≤ Z.of_N (count_matching Q))%Z →
  (0 ≤ fold_left (λ acc x, Z.max 0 (acc + Z.of_N x - Z.of_N total)) (est_min <$> es) acc
     ≤ Z.of_N (count_matching (λ p, Q p && forallb (λ P : Pt → bool, P p) Ps)))%Z.
Proof.
  intros HF. revert Q acc. induction HF as [|e P es Ps [[Hmin _] _] _ IH]; intros Q acc Hacc; simpl.
  - rewrite (count_ext _ Q); [done|]. intros p. apply andb_true_r.
  - rewrite (count_ext _ (λ p, (Q p && P p) && forallb (λ P : Pt → bool, P p) Ps))
      by (intros p; apply andb_assoc).
    apply IH. pose proof (count_and Q P) as (Hand & _). pose proof (count_total Q). lia.
Qed.

Lemma must_max_fold (es : list CardinalityEstimation) (Ps : list (Pt → bool)) Q acc :
  Forall2 brackets es Ps → (count_matching Q ≤ acc ≤ total)%N →
  (count_matching (λ p, Q p && forallb (λ P : Pt → bool, P p) Ps)
     ≤ fold_left N.min (est_max <$> es) acc ≤ total)%N.
Proof.
  intros HF. revert Q acc. induction HF as [|e P es Ps [[_ Hmax] Htot] _ IH]; intros Q acc Hacc; simpl.
  - rewrite (count_ext _ Q); [done|]. intros p. apply andb_true_r.
  - rewrite (count_ext _ (λ p, (Q p && P p) && forallb (λ P : Pt → bool, P p) Ps))
      by (intros p; apply andb_assoc).
    apply IH. pose proof (count_and Q P) as (_ & H1 & H2). lia.
Qed.

Lemma brackets_must es Ps :
  Forall2 brackets es Ps →
  brackets (combine_must_estimations es total) (λ p, forallb (λ P : Pt → bool, P p) Ps).
Proof.
  intros HF. pose proof (must_min_fold es Ps (λ _, true) (Z.of_N total) HF) as Hmin.
  rewrite count_true in Hmin. specialize (Hmin ltac:(lia)). simpl in Hmin.
  unfold brackets, combine_must_estimations. cbn [est_min est_max]. split; [split|].
  - lia.
  - destruct HF as [|e P es Ps [[_ Hm] Ht] HF]; [apply count_total|].
    by apply (must_max_fold es Ps P (est_max e)).
  - destruct HF as [|e P es Ps [[_ Hm] Ht] HF]; [done|].
    by apply (must_max_fold es Ps P (est_max e)).
Qed.

Lemma brackets_should es Ps :
  Forall2 brackets es Ps →
  brackets (combine_should_estimations es total) (λ p, existsb (λ P : Pt → bool, P p) Ps).
Proof.
  intros HF. unfold brackets, combine_should_estimations. cbn [est_min est_max].
  assert (list_max_N (est_min <$> es) ≤ count_matching (λ p, existsb (λ P : Pt → bool, P p) Ps)
    ≤ fold_right N.add 0 (est_max <$> es))%N as Hb.
  { unfold list_max_N. induction HF as [|e P es Ps [[Hmin Hmax] _] _ IH]; [by simpl; rewrite count_false|].
    pose proof (count_or P (λ p, existsb (λ P : Pt → bool, P p) Ps)) as (H1 & H2 & H3).
    rewrite !fmap_cons. cbn [fold_right existsb]. lia. }
  pose proof (count_total (λ p, existsb (λ P : Pt → bool, P p) Ps)). lia.
Qed.

Context (checker : Pt → Condition → bool) (estimator : Condition → CardinalityEstimation).
Hypothesis leaf_brackets : ∀ c, is_leaf c = true → brackets (estimator c) (λ p, checker p c).

Abbreviation sat := (λ (c : Condition) (p : Pt), check_condition (checker p) c).

Lemma Forall2_map_brackets (f : Condition → CardinalityEstimation) (g : Condition → Pt → bool) l :
  Forall (λ c, brackets (f c) (g c)) l → Forall2 brackets (map f l) (map g l).
Proof. induction 1; simpl; by constructor. Qed.

Lemma forallb_map {A B} (f : A → B) (g : B → bool) l : forallb g (map f l) = forallb (λ x, g (f x)) l.
Proof. induction l as [|x l IH]; [done|]. simpl. by rewrite IH. Qed.

Lemma existsb_map {A B} (f : A → B) (g : B → bool) l : existsb g (map f l) = existsb (λ x, g (f x)) l.
Proof. induction l as [|x l IH]; [done|]. simpl. by rewrite IH. Qed.

Lemma andb_swap a b c : a && (b && c) = b && a && c.
Proof. by destruct a, b, c. Qed.

(** The three clauses of a filter as lists of at most one predicate. *)
Lemma must_clause m p :
  forallb (λ P : Pt → bool, P p)
    (match m with Some ((_ :: _) as l) => [λ p, forallb (λ P : Pt → bool, P p) (map sat l)] | _ => [] end) =
  match m with None => true | Some l => forallb (check_condition (checker p)) l end.
Proof.
  destruct m as [[|c l]|]; [done| |done].
  transitivity (forallb (λ P : Pt → bool, P p) (map sat (c :: l)) && true); [done|].
  by rewrite andb_true_r, forallb_map.
Qed.

Lemma must_not_clause n p :
  forallb (λ P : Pt → bool, P p)
    (match n with Some ((_ :: _) as l) =>
       [λ p, forallb (λ P : Pt → bool, P p) (map (λ c p, negb (sat c p)) l)] | _ => [] end) =
  match n with None => true | Some l => forallb (λ c, negb (check_condition (checker p) c)) l end.
Proof.
  destruct n as [[|c l]|]; [done| |done].
  transitivity (forallb (λ P : Pt → bool, P p) (map (λ c p, negb (sat c p)) (c :: l)) && true); [done|].
  by rewrite andb_true_r, forallb_map.
Qed.

Lemma should_clause s p :
  s ≠ Some [] →
  forallb (λ P : Pt → bool, P p)
    (match s with Some ((_ :: _) as l) => [λ p, existsb (λ P : Pt → bool, P p) (map sat l)] | _ => [] end) =
  match s with None => true | Some l => existsb (check_condition (checker p)) l end.
Proof.
  destruct s as [[|c l]|]; [done| |done]. intros _.
  transitivity (existsb (λ P : Pt → bool, P p) (map sat (c :: l)) && true); [done|].
  by rewrite andb_true_r, existsb_map.
Qed.

Lemma condition_estimation_brackets c :
  no_empty_should c = true → brackets (condition_estimation estimator total c) (sat c).
Proof.
  induction c as [fc|k|k|s|s m n Hs Hm Hn] using condition_ind_nested; try (intros _; by apply leaf_brackets).
  intros [[Hs' Hm']%andb_true_iff Hn']%andb_true_iff. cbn [condition_estimation filter_estimation].
  assert (∀ l, Forall (λ c, no_empty_should c = true → brackets (condition_estimation estimator total c) (sat c)) l →
    forallb no_empty_should l = true → Forall (λ c, brackets (condition_estimation estimator total c) (sat c)) l) as Hall.
  { intros l HF Hl. apply Forall_forall. intros c Hc. eapply Forall_forall in HF; [|exact Hc]. apply HF.
    by apply (proj1 (forallb_forall _ _) Hl), list_elem_of_In. }
  apply (brackets_ext _ (λ p, forallb (λ P : Pt → bool, P p)
    ((match m with Some ((_ :: _) as l) => [λ p, forallb (λ P : Pt → bool, P p) (map sat l)] | _ => [] end) ++
     (match s with Some ((_ :: _) as l) => [λ p, existsb (λ P : Pt → bool, P p) (map sat l)] | _ => [] end) ++
     (match n with Some ((_ :: _) as l) =>
        [λ p, forallb (λ P : Pt → bool, P p) (map (λ c p, negb (sat c p)) l)] | _ => [] end)))).
  - intros p. cbn [check_condition check_filter]. rewrite !forallb_app.
    rewrite must_clause, must_not_clause, should_clause by (by intros ->).
    apply andb_swap.
  - apply brackets_must. repeat apply Forall2_app.
    + destruct m as [[|cm lm]|]; constructor; [|constructor]. apply brackets_must, Forall2_map_brackets. by apply Hall.
    + destruct s as [[|cs ls]|]; constructor; [|constructor]. apply brackets_should, Forall2_map_brackets. by apply Hall.
    + destruct n as [[|cn ln]|]; constructor; [|constructor]. apply brackets_must, Forall2_map_brackets.
      eapply Forall_impl; [by apply Hall|]. intros c. apply brackets_invert.
Qed.
End soundness.

(** ** Primary clauses *)

(** A predicate on every leaf of a condition. *)
Fixpoint all_leaves (p : Condition → bool) (c : Condition) : bool :=
  match c with
  | CFilter (mkFilter should must must_not) =>
      match should with Some l => forallb (all_leaves p) l | None => true end
      && match must with Some l => forallb (all_leaves p) l | None => true end
      && match must_not with Some l => forallb (all_leaves p) l | None => true end
  | _ => p c
  end.

Lemma all_leaves_true c : all_leaves (λ _, true) c = true.
Proof.
  induction c as [fc|k|k|s|s m n Hs Hm Hn] using condition_ind_nested; try done. cbn [all_leaves].
  assert (∀ l, Forall (λ c, all_leaves (λ _, true) c = true) l → forallb (all_leaves (λ _, true)) l = true) as Hl.
  { induction 1 as [|x l Hx _ IH]; cbn [forallb]; [done|]. by rewrite Hx, IH. }
  by destruct s, m, n; cbn [opt_list] in *; rewrite ?Hl.
Qed.

Section clauses.
Context {Pt : Type} (selects : PrimaryCondition → Pt → Prop) (good : PrimaryCondition → Prop).

(** The clauses of the estimation, if there are any, select every point of
    [P]; and all of them are [good]. *)
Definition covers (e : CardinalityEstimation) (P : Pt → Prop) : Prop :=
  Forall good (primary_clauses e) ∧
  (primary_clauses e ≠ [] → ∀ p, P p → Exists (λ c, selects c p) (primary_clauses e)).

Lemma covers_none e P : primary_clauses e = [] → covers e P.
Proof. intros He. unfold covers. by rewrite He. Qed.

Lemma covers_weaken e (P Q : Pt → Prop) : (∀ p, Q p → P p) → covers e P → covers e Q.
Proof. intros HQ [Hg Hc]. split; [done|]. intros Hne p Hp. by apply Hc, HQ. Qed.

Lemma min_by_exp_elem l x : min_by_exp l = Some x → x ∈ l.
Proof.
  induction l as [|y l IH]; [done|]. simpl. destruct (min_by_exp l) as [z|] eqn:Hz.
  - case_decide; intros [= <-]; [left|right; by apply IH].
  - intros [= <-]. left.
Qed.

Lemma covers_must es Ps n :
  Forall2 covers es Ps → covers (combine_must_estimations es n) (λ p, Forall (λ P : Pt → Prop, P p) Ps).
Proof.
  intros HF. unfold covers, combine_must_estimations. cbn [primary_clauses].
  destruct (min_by_exp _) as [x|] eqn:Hx; [|by split; [constructor|]].
  apply min_by_exp_elem in Hx. apply list_elem_of_filter in Hx as [Hne Hx].
  apply list_elem_of_lookup in Hx as [k Hk]. destruct (Forall2_lookup_l _ _ _ _ _ HF Hk) as (P & HP & Hg & Hc).
  split; [done|]. intros _ p Hall. apply Hc; [done|]. rewrite Forall_forall in Hall.
  apply Hall. by eapply list_elem_of_lookup_2.
Qed.

Lemma should_clauses_cover es Ps acc :
  Forall2 covers es Ps → Forall good acc →
  should_clauses es acc = [] ∨
  Forall good (should_clauses es acc) ∧ acc ⊆ should_clauses es acc ∧
  ∀ p, Exists (λ P : Pt → Prop, P p) Ps → Exists (λ c, selects c p) (should_clauses es acc).
Proof.
  intros HF. revert acc. induction HF as [|e P es Ps [Hg Hc] _ IH]; intros acc Hacc.
  - right. split_and!; [done|done|]. intros p Hp. by apply Exists_nil in Hp.
  - simpl. destruct (primary_clauses e) as [|c cs] eqn:He; [by left|].
    destruct (IH (acc ++ c :: cs)) as [->|(Hgood & Hsub & Hall)]; [by apply Forall_app|by left|].
    right. split_and!; [done|set_solver|]. intros p [Hp|Hp]%Exists_cons; [|by apply Hall].
    specialize (Hc ltac:(done) p Hp). apply Exists_exists in Hc as (x & Hx & Hs).
    apply Exists_exists. exists x. split; [|done]. apply Hsub. set_solver.
Qed.

Lemma covers_should es Ps n :
  Forall2 covers es Ps → covers (combine_should_estimations es n) (λ p, Exists (λ P : Pt → Prop, P p) Ps).
Proof.
  intros HF. destruct (should_clauses_cover es Ps [] HF) as [Hn|(Hg & _ & Hall)]; [done|by apply covers_none|].
  split; [done|]. intros _. apply Hall.
Qed.

Context (checker : Pt → Condition → bool) (estimator : Condition → CardinalityEstimation) (n : N).
Context (leaf : Condition → bool).
Hypothesis leaf_covers : ∀ c, is_leaf c = true → leaf c = true →
  covers (estimator c) (λ p, checker p c = true).

Lemma Forall2_covers_map {A} (f : A → CardinalityEstimation) (g : A → Pt → Prop) l :
  Forall (λ c, covers (f c) (g c)) l → Forall2 covers (map f l) (map g l).
Proof. induction 1; by constructor. Qed.

(** Of a filter: the clauses of one conjunct are enough, those of a
    disjunction are needed from every branch, a negation gives none. *)
Lemma condition_estimation_covers c :
  all_leaves leaf c = true →
  covers (condition_estimation estimator n c) (λ p, check_condition (checker p) c = true).
Proof.
  induction c as [fc|k|k|s|s m nn Hs Hm Hn] using condition_ind_nested; try (by apply leaf_covers).
  intros [[Hs' Hm']%andb_true_iff _]%andb_true_iff. cbn [condition_estimation filter_estimation].
  set (sat := λ (c : Condition) p, check_condition (checker p) c = true).
  assert (∀ l, Forall (λ c, all_leaves leaf c = true → covers (condition_estimation estimator n c) (sat c)) l →
    forallb (all_leaves leaf) l = true → Forall2 covers (map (condition_estimation estimator n) l) (map sat l)) as Hall.
  { intros l HF Hl. apply Forall2_covers_map, Forall_forall. intros c Hc. eapply Forall_forall in HF; [|exact Hc].
    apply HF. by apply (proj1 (forallb_forall _ _) Hl), list_elem_of_In. }
  eapply covers_weaken; [|apply (covers_must _
    ((match m with Some ((_ :: _) as l) => [λ p, Forall (λ P : Pt → Prop, P p) (map sat l)] | _ => [] end) ++
     (match s with Some ((_ :: _) as l) => [λ p, Exists (λ P : Pt → Prop, P p) (map sat l)] | _ => [] end) ++
     (match nn with Some (_ :: _) => [λ p, True] | _ => [] end)))].
  - intros p [[Hsp Hmp]%andb_true_iff _]%andb_true_iff. repeat apply Forall_app_2.
    + destruct m as [[|c l]|]; constructor; [|constructor]. apply Forall_forall. intros P HP.
      apply (list_elem_of_fmap sat (c :: l)) in HP as (x & -> & Hx).
      by apply (proj1 (forallb_forall _ _) Hmp), list_elem_of_In.
    + destruct s as [[|c l]|]; constructor; [|constructor]. apply existsb_exists in Hsp as (x & Hx & Hp).
      apply Exists_exists. exists (sat x). split; [|done]. by apply (list_elem_of_fmap_2 sat), list_elem_of_In.
    + destruct nn as [[|c l]|]; by repeat constructor.
  - repeat apply Forall2_app.
    + destruct m as [[|c l]|]; constructor; [|constructor]. by apply covers_must, Hall.
    + destruct s as [[|c l]|]; constructor; [|constructor]. by apply covers_should, Hall.
    + destruct nn as [[|c l]|]; constructor; [|constructor]. apply covers_none. cbn [combine_must_estimations primary_clauses].
      rewrite (list_filter_none _ _); [done|]. intros x Hx.
      apply (list_elem_of_fmap (λ x, invert_estimation (condition_estimation estimator n x) n)) in Hx as (y & -> & _).
      by intros H.
Qed.
End clauses.

(** ** Estimators that panic *)

Lemma res_map_invert {E} (f : Condition → result E CardinalityEstimation) (g : Condition → CardinalityEstimation) n l :
  res_map f l = Ok (map g l) →
  res_map (λ x, e ← f x; Ok (invert_estimation e n)) l = Ok (map (λ x, invert_estimation (g x) n) l).
Proof.
  induction l as [|x l IH]; [done|]. cbn. destruct (f x) as [e|e|]; [|done..]. cbn.
  destruct (res_map f l) as [es|e'|]; [|done..]. cbn. intros [= -> ->]. by rewrite IH.
Qed.

(** An estimator that gives an estimation of every leaf gives one of the filter. *)
Lemma estimate_condition_Ok {E} (est : Condition → result E CardinalityEstimation) f (p : Condition → bool) n c :
  (∀ c, is_leaf c = true → p c = true → est c = Ok (f c)) → all_leaves p c = true →
  estimate_condition est n c = Ok (condition_estimation f n c).
Proof.
  intros Hf. induction c as [fc|k|k|s|s m nn Hs Hm Hn] using condition_ind_nested; try by apply Hf.
  intros [[Hs' Hm']%andb_true_iff Hn']%andb_true_iff.
  assert (∀ l, Forall (λ c, all_leaves p c = true → estimate_condition est n c = Ok (condition_estimation f n c)) l →
    forallb (all_leaves p) l = true → res_map (estimate_condition est n) l = Ok (map (condition_estimation f n) l)) as Hmap.
  { intros l HF Hl. apply res_map_Ok. intros c Hc. rewrite Forall_forall in HF. apply HF; [done|].
    by apply (proj1 (forallb_forall _ _) Hl), list_elem_of_In. }
  cbn [estimate_condition estimate_filter condition_estimation filter_estimation].
  destruct m as [[|cm lm]|], s as [[|cs ls]|], nn as [[|cn ln]|]; try done; cbn [opt_list] in *;
    rewrite ?Hmap by done; cbn [mbind result_bind]; rewrite ?(res_map_invert _ (condition_estimation f n)) by (by apply Hmap); done.
Qed.

(** The outcome for an estimator that gives an estimation or panics: a panic
    on any leaf is a panic on the filter. *)
Definition or_panic {E A} (b : bool) (a : A) : result E A := if b then Ok a else Panic.

Lemma res_map_or_panic {E A B} (f : A → result E B) (q : A → bool) (g : A → B) l :
  Forall (λ x, f x = or_panic (q x) (g x)) l → res_map f l = or_panic (forallb q l) (map g l).
Proof.
  induction 1 as [|x l Hx _ IH]; [done|]. cbn [res_map forallb map]. rewrite Hx, IH. by destruct (q x), (forallb q l).
Qed.

Lemma estimate_condition_outcome {E} (est : Condition → result E CardinalityEstimation) f q n c :
  (∀ c, is_leaf c = true → est c = or_panic (q c) (f c)) →
  estimate_condition est n c = or_panic (all_leaves q c) (condition_estimation f n c).
Proof.
  intros Hf. induction c as [fc|k|k|s|s m nn Hs Hm Hn] using condition_ind_nested; try by apply Hf.
  assert (∀ l, Forall (λ c, estimate_condition est n c = or_panic (all_leaves q c) (condition_estimation f n c)) l →
    res_map (λ x, e ← estimate_condition est n x; Ok (invert_estimation e n)) l =
      or_panic (forallb (all_leaves q) l) (map (λ x, invert_estimation (condition_estimation f n x) n) l)) as Hinv.
  { intros l HF. apply res_map_or_panic. eapply Forall_impl; [exact HF|]. intros c Hc. cbn beta. rewrite Hc. by destruct (all_leaves q c). }
  pose proof (res_map_or_panic (estimate_condition est n) (all_leaves q) (condition_estimation f n)) as Hmap.
  cbn [estimate_condition estimate_filter condition_estimation filter_estimation all_leaves].
  destruct m as [[|cm lm]|], s as [[|cs ls]|], nn as [[|cn ln]|]; cbn [opt_list] in *;
    rewrite ?Hmap, ?Hinv by done;
    repeat match goal with |- context [forallb ?p (?c :: ?l)] => destruct (forallb p (c :: l)) end; done.
Qed.

(** ** Properties *)

(** C39: the estimated bounds are sound.  If the estimations of elementary
    conditions bracket the number of points matching them, the estimation of
    any filter without an empty [should] does not fail, brackets the number of
    points that pass the filter, and never exceeds the number of points. *)
Theorem estimate_filter_sound {E Pt} (pts : list Pt) (checker : Pt → Condition → bool)
    (estimator : Condition → result E CardinalityEstimation) f :
  (∀ c, is_leaf c = true → ∃ e, estimator c = Ok e ∧ brackets pts e (λ p, checker p c)) →
  no_empty_should_filter f = true →
  ∃ e, estimate_filter estimator (total pts) f = Ok e ∧ brackets pts e (λ p, check_filter (checker p) f).
Proof.
  intros Hleaf Hf. set (g c := match estimator c with Ok e => e | _ => estimation_exact 0 end).
  exists (filter_estimation g (total pts) f). split.
  - apply (estimate_condition_Ok estimator g (λ _, true) (total pts) (CFilter f)).
    + intros c Hc _. destruct (Hleaf c Hc) as (e & He & _). unfold g. by rewrite He.
    + apply all_leaves_true.
  - apply (condition_estimation_brackets pts checker g) with (c := CFilter f); [|done].
    intros c Hc. destruct (Hleaf c Hc) as (e & He & Hb). unfold g. by rewrite He.
Qed.

Lemma estimate_filter_sound_witness :
  let pts := [1; 2; 3; 4]%N in
  let checker p c := match c with CIsNull _ => N.even p | _ => (p <=? 3)%N end in
  let estimator c : result unit CardinalityEstimation := Ok (estimation_exact (count_matching pts (λ p, checker p c))) in
  let filter := mkFilter None (Some [CIsNull "a"]) (Some [CIsEmpty "b"]) in
  ∃ e, estimate_filter estimator (total pts) filter = Ok e ∧ brackets pts e (λ p, check_filter (checker p) filter).
Proof.
  intros pts checker estimator filter. apply estimate_filter_sound; [|reflexivity].
  intros c _. eexists. split; [reflexivity|]. unfold brackets. simpl. pose proof (count_total pts (λ p, checker p c)). lia.
Defined.
