(* ===== verification/FloatBounds.v ===== *)
(** * Magnitudes of floats

    Bounds on the results of the IEEE operations, from the exponents of their
    arguments: enough to see that arithmetic on counts does not overflow. *)

From stdpp Require Import base numbers.
From Stdlib Require Import ZArith SpecFloat Lia.
From S2P Require Import Prelude Estimator.

#[local] Open Scope Z_scope.

Lemma digits2_pos_size m : digits2_pos m = Pos.size m.
Proof. induction m; cbn; congruence. Qed.

Lemma digits2_pos_bounds m : 2 ^ (Zpos (digits2_pos m) - 1) ≤ Zpos m < 2 ^ Zpos (digits2_pos m).
Proof.
  rewrite digits2_pos_size. pose proof (Pos.size_gt m) as H1. pose proof (Pos.size_le m) as H2.
  split; [|by rewrite <-Pos2Z.inj_pow].
  assert (2 ^ Zpos (Pos.size m) ≤ 2 * Zpos m) as H3 by (rewrite <-Pos2Z.inj_pow; lia).
  replace (Zpos (Pos.size m)) with (Z.succ (Zpos (Pos.size m) - 1)) in H3 at 1 by lia.
  rewrite Z.pow_succ_r in H3 by lia. lia.
Qed.

Lemma Zdigits2_le m d : 0 ≤ m < 2 ^ d → 0 ≤ d → 0 ≤ Zdigits2 m ≤ d.
Proof.
  intros Hm Hd. destruct m as [|m|m]; cbn; [lia| |lia]. pose proof (digits2_pos_bounds m) as [Hlo _].
  split; [lia|]. destruct (Z.le_gt_cases (Zpos (digits2_pos m)) d) as [|Hgt]; [done|].
  pose proof (Z.pow_le_mono_r 2 d (Zpos (digits2_pos m) - 1)). lia.
Qed.

(** [m * 2^e] is below [2^k]. *)
Definition below (k m e : Z) : Prop := 0 ≤ m ∧ ∃ d, 0 ≤ d ∧ m < 2 ^ d ∧ d + e ≤ k.

Lemma below_mono k k' m e : k ≤ k' → below k m e → below k' m e.
Proof. intros Hk (Hm & d & Hd & Hlt & Hle). split; [done|]. exists d. lia. Qed.

(** ** Rounding *)

Lemma shr_1_m x : 0 ≤ shr_m x → shr_m (shr_1 x) = shr_m x / 2.
Proof.
  destruct x as [m r s]. cbn. intros Hm. rewrite <-Z.div2_div. destruct m as [|[p|p|]|p]; cbn; done || lia.
Qed.

Lemma pow_double p c : 0 ≤ c → 2 ^ (2 * Zpos p + c) = 2 ^ Zpos p * 2 ^ Zpos p * 2 ^ c.
Proof. intros Hc. rewrite Z.pow_add_r, <-Z.add_diag, Z.pow_add_r by lia. done. Qed.

Lemma iter_shr_m p x : 0 ≤ shr_m x → shr_m (iter_pos shr_1 p x) = shr_m x / 2 ^ Zpos p.
Proof.
  revert x. induction p as [p IH|p IH|]; intros x Hx; cbn [iter_pos].
  - pose proof (Z.div_pos (shr_m x) 2 Hx ltac:(lia)). pose proof (Z.pow_pos_nonneg 2 (Zpos p)) as Hp.
    assert (0 ≤ shr_m (shr_1 x)) by by rewrite shr_1_m.
    rewrite IH, IH, shr_1_m by (rewrite ?IH by done; try apply Z.div_pos; lia).
    rewrite !Z.div_div by lia. f_equal. rewrite (Pos2Z.inj_xI p), pow_double by lia. ring.
  - pose proof (Z.pow_pos_nonneg 2 (Zpos p)) as Hp.
    rewrite IH, IH by (rewrite ?IH by done; try apply Z.div_pos; lia). rewrite Z.div_div by lia. f_equal.
    rewrite (Pos2Z.inj_xO p), <-(Z.add_0_r (2 * Zpos p)), pow_double by lia. ring.
  - by rewrite shr_1_m.
Qed.

Lemma shr_record_m m l : shr_m (shr_record_of_loc m l) = m.
Proof. by destruct l as [|[]]. Qed.

Lemma shr_fexp_below k m e l : -1074 ≤ k → below k m e →
  below k (shr_m (shr_fexp 53 1024 m e l).1) (shr_fexp 53 1024 m e l).2 ∧ e ≤ (shr_fexp 53 1024 m e l).2 ≤ Z.max e k.
Proof.
  intros Hk (Hm & d & Hd & Hlt & Hle). pose proof (Zdigits2_le m d ltac:(lia) Hd) as Hdig.
  unfold shr_fexp, shr. set (n := fexp 53 1024 (Zdigits2 m + e) - e).
  assert (e + n ≤ Z.max e k) as Hn by (unfold n, fexp, SpecFloat.emin; lia).
  clearbody n. destruct n as [|n|n]; cbn [fst snd]; rewrite ?shr_record_m; try by (split; [split; [done|by exists d]|lia]).
  rewrite iter_shr_m by by rewrite shr_record_m. rewrite shr_record_m.
  pose proof (Z.pow_pos_nonneg 2 (Zpos n)). split; [|lia]. split; [apply Z.div_pos; lia|].
  destruct (Z.le_gt_cases (Zpos n) d) as [Hnd|Hnd].
  - exists (d - Zpos n). split_and!; [lia| |lia]. apply Z.div_lt_upper_bound; [lia|]. rewrite <-Z.pow_add_r by lia.
    by replace (Zpos n + (d - Zpos n)) with d by lia.
  - exists 0. split_and!; [lia| |lia]. rewrite Z.div_small; [done|]. pose proof (Z.pow_le_mono_r 2 d (Zpos n)). lia.
Qed.

Lemma round_below k m e l : below k m e → below (k + 1) (round_nearest_even m l) e.
Proof.
  intros (Hm & d & Hd & Hlt & Hle). assert (0 ≤ round_nearest_even m l ≤ m + 1) as Hr.
  { destruct l as [|[]]; cbn; try lia. destruct (Z.even m); lia. }
  split; [lia|]. exists (d + 1). rewrite Z.pow_add_r by lia. lia.
Qed.

(** A shift for the precision leaves something, above the least exponent. *)
Lemma shr_fexp_pos m e l :
  0 < m → -1074 ≤ e → 0 < shr_m (shr_fexp 53 1024 m e l).1 ∧ -1074 ≤ (shr_fexp 53 1024 m e l).2.
Proof.
  intros Hm He. unfold shr_fexp, shr. set (n := fexp 53 1024 (Zdigits2 m + e) - e).
  assert (n ≤ Z.max 0 (Zdigits2 m - 53)) as Hn by (unfold n, fexp, SpecFloat.emin; lia). clearbody n.
  destruct n as [|n|n]; cbn [fst snd]; rewrite ?shr_record_m; try lia. split; [|lia].
  rewrite iter_shr_m by (rewrite shr_record_m; lia). rewrite shr_record_m.
  destruct m as [|m|m]; [lia| |lia]. cbn in Hn. pose proof (digits2_pos_bounds m) as [Hlo _].
  apply Z.div_str_pos. split; [apply Z.pow_pos_nonneg; lia|]. etrans; [|apply Hlo]. apply Z.pow_le_mono_r; lia.
Qed.

Lemma binary_round_aux_nonzero s m e l s' :
  0 < m → -1074 ≤ e → binary_round_aux 53 1024 s m e l ≠ S754_zero s'.
Proof.
  intros Hm He. unfold binary_round_aux. destruct (shr_fexp_pos m e l Hm He) as [Hm1 He1].
  destruct (shr_fexp 53 1024 m e l) as [r e1]. cbn [fst snd] in *.
  assert (0 < round_nearest_even (shr_m r) (loc_of_shr_record r)) as Hm2.
  { destruct (loc_of_shr_record r) as [|[]]; cbn; try lia. destruct (Z.even (shr_m r)); lia. }
  destruct (shr_fexp_pos _ e1 loc_Exact Hm2 He1) as [Hm3 _].
  destruct (shr_fexp 53 1024 _ e1 loc_Exact) as [r' e2]. cbn [fst snd] in *.
  destruct (shr_m r') as [|p|p]; [lia| |done]. by destruct (e2 <=? 1024 - 53).
Qed.

(** ** Floats *)

(** A finite value whose magnitude is below [2^k], with exponent at least [lo]. *)
Definition magnitude (lo k : Z) (x : spec_float) : Prop :=
  match x with
  | S754_zero _ => True
  | S754_finite _ m e => below k (Zpos m) e ∧ lo ≤ e
  | _ => False
  end.

Lemma magnitude_mono k k' lo x : k ≤ k' → magnitude lo k x → magnitude lo k' x.
Proof. intros Hk. destruct x; cbn; [done..|]. intros [Hb He]. split; [by eapply below_mono|done]. Qed.

Lemma binary_round_aux_magnitude lo k s m e l :
  -1074 ≤ k → k < 970 → below k m e → lo ≤ e → magnitude lo (k + 1) (binary_round_aux 53 1024 s m e l).
Proof.
  intros Hk Hk' Hb Hlo. unfold binary_round_aux. pose proof (shr_fexp_below k m e l Hk Hb) as [Hb1 He1].
  destruct (shr_fexp 53 1024 m e l) as [r e1]. cbn [fst snd] in *.
  pose proof (round_below _ _ _ (loc_of_shr_record r) Hb1) as Hb2.
  pose proof (shr_fexp_below (k + 1) _ e1 loc_Exact ltac:(lia) Hb2) as [Hb3 He3].
  destruct (shr_fexp 53 1024 _ e1 loc_Exact) as [r' e2]. cbn [fst snd] in *.
  destruct Hb as (Hm0 & d0 & Hd0 & _ & Hle0).
  destruct (shr_m r') as [|p|p] eqn:Ep; [done| |by destruct Hb3 as [? _]].
  destruct (Z.leb_spec e2 (1024 - 53)) as [|]; [|lia]. split; [done|lia].
Qed.

Lemma Pos_iter_xO p d : Zpos (Pos.iter xO p d) = Zpos p * 2 ^ Zpos d.
Proof.
  induction d as [|d IH] using Pos.peano_ind; [cbn; lia|].
  rewrite Pos.iter_succ, Pos2Z.inj_succ, Z.pow_succ_r by lia. lia.
Qed.

(** Counts are at least one and have no long fraction. *)
Lemma f64_of_N_magnitude n : (n ≤ u64_max)%N → magnitude (-52) 65 (f64_of_N n).
Proof.
  intros Hn. unfold f64_of_N, binary_normalize. destruct (Z.of_N n) as [|p|p] eqn:E; [done| |lia].
  assert (Zpos p < 2 ^ 64) as Hp by (rewrite <-E; unfold u64_max in Hn; lia). unfold binary_round, shl_align.
  set (ex := fexp 53 1024 (Zpos (digits2_pos p) + 0)). assert (-52 ≤ ex) by (unfold ex, fexp, SpecFloat.emin; lia).
  destruct (ex - 0) as [|q|q] eqn:Eq; apply (binary_round_aux_magnitude (-52) 64); try lia;
    try (split; [lia|]; by exists 64).
  rewrite Pos_iter_xO. split; [lia|]. exists (64 + Zpos q). rewrite Z.pow_add_r by lia.
  split_and!; [lia| |lia]. by apply Z.mul_lt_mono_pos_r; [lia|].
Qed.

Lemma f64_of_N_nonzero n s : (0 < n)%N → f64_of_N n ≠ S754_zero s.
Proof.
  intros Hn. unfold f64_of_N, binary_normalize. destruct (Z.of_N n) as [|p|p] eqn:E; [lia| |lia].
  unfold binary_round, shl_align. set (ex := fexp 53 1024 (Zpos (digits2_pos p) + 0)).
  assert (-1074 ≤ ex) by (unfold ex, fexp, SpecFloat.emin; lia).
  destruct (ex - 0) as [|q|q] eqn:Eq; apply binary_round_aux_nonzero; lia.
Qed.

Lemma f64_mul_magnitude lo lo' k k' x y :
  -1074 ≤ k + k' < 970 → magnitude lo k x → magnitude lo' k' y → magnitude (lo + lo') (k + k' + 1) (f64_mul x y).
Proof.
  intros Hk. destruct x as [| | |s m e], y as [| | |s' m' e']; cbn [magnitude]; try done.
  intros [(_ & d & Hd & Hlt & Hle) He] [(_ & d' & Hd' & Hlt' & Hle') He'].
  apply binary_round_aux_magnitude; [lia..| |lia]. split; [lia|]. exists (d + d').
  rewrite Pos2Z.inj_mul, Z.pow_add_r by lia. split_and!; [lia| |lia]. by apply Z.mul_lt_mono_nonneg.
Qed.

(** The exponent of the divisor bounds the quotient. *)
Lemma f64_div_magnitude lo lo' k k' x y :
  -1074 ≤ k - lo' < 970 → magnitude lo k x → magnitude lo' k' y → (∀ s, y ≠ S754_zero s) →
  ∃ lo'', magnitude lo'' (k - lo' + 1) (f64_div x y).
Proof.
  intros Hk. destruct x as [sx| | |s m e], y as [sy| | |s' m' e']; cbn [magnitude]; try done.
  - intros _ _ Hy. by destruct (Hy sy).
  - intros _ _ _. by exists 0.
  - intros _ _ Hy. by destruct (Hy sy).
  - intros [(_ & d & Hd & Hlt & Hle) He] [_ He'] _. unfold f64_div, SFdiv, SFdiv_core_binary.
    set (e1 := Z.min _ (e - e')). assert (e1 ≤ e - e') as He1 by (unfold e1; lia). clearbody e1.
    set (m1 := match e - e' - e1 with Zpos _ => _ | _ => _ end).
    assert (0 ≤ m1 < 2 ^ (d + (e - e' - e1))) as Hm1.
    { subst m1. destruct (e - e' - e1) as [|q|q] eqn:Eq; [rewrite Z.add_0_r; lia| |lia].
      rewrite Z.shiftl_mul_pow2, Z.pow_add_r by lia. nia. }
    pose proof (Z_div_mod m1 (Zpos m') ltac:(lia)) as Hdiv. destruct (Z.div_eucl m1 (Zpos m')) as [q r].
    destruct Hdiv as [Hdiv Hr]. exists e1. apply binary_round_aux_magnitude; [lia..| |lia].
    split; [nia|]. exists (d + (e - e' - e1)). split_and!; [lia|nia|lia].
Qed.
