(* ===== verification/TopK.v ===== *)
(** * Bounded priority queue

    Models [lib/segment/src/spaces/tools.rs]: [FixedLengthPriorityQueue],
    which keeps the largest elements pushed into it, and the helpers that
    select the best elements of an iterator.

    [BinaryHeap<Reverse<T>>] is the list of its elements in ascending order
    of [T], so that [peek] is its head and [into_sorted_vec] (ascending in
    [Reverse<T>]) its reversal.  Elements equal in the order of [T] come out
    of a [BinaryHeap] in an unspecified order; the specification below holds
    of every choice. *)

From stdpp Require Import base sets list sorting.
From Stdlib Require Import Lia.
From S2P Require Import Prelude.

Section heap.
Context {T : Type} (leb : T → T → bool).

Definition ltb (x y : T) : bool := negb (leb y x).

(** [BinaryHeap::push] *)
Fixpoint heap_push (x : T) (heap : list T) : list T :=
  match heap with
  | [] => [x]
  | y :: heap' => if leb x y then x :: heap else y :: heap_push x heap'
  end.

Record FixedLengthPriorityQueue := mkQueue {
  heap : list T;
  queue_length : nat;
}.

Definition queue_new {E} (length : nat) : result E FixedLengthPriorityQueue :=
  if decide (0 < length) then Ok (mkQueue [] length) else Panic.

(** [push] returns the element that does not fit, if any.  The minimum is
    replaced through [peek_mut], which restores the heap when dropped. *)
Definition queue_push {E} (value : T) (self : FixedLengthPriorityQueue) :
    result E (option T * FixedLengthPriorityQueue) :=
  if decide (length (heap self) < queue_length self)
  then Ok (None, mkQueue (heap_push value (heap self)) (queue_length self))
  else
    match heap self with
    | [] => Panic
    | x :: rest =>
        if ltb x value
        then Ok (Some x, mkQueue (heap_push value rest) (queue_length self))
        else Ok (Some value, self)
    end.

Definition queue_into_vec (self : FixedLengthPriorityQueue) : list T := rev (heap self).

Definition queue_top (self : FixedLengthPriorityQueue) : option T := head (heap self).

Definition peek_top_largest_iterable {E} (elements : list T) (top : nat) : result E (list T) :=
  if decide (top = 0) then Ok []
  else
    pq ← queue_new top;
    pq ← res_fold (λ element pq, p ← queue_push element pq; Ok p.2) elements pq;
    Ok (queue_into_vec pq).
End heap.

Arguments FixedLengthPriorityQueue : clear implicits.

(** The queue over [Reverse<E>] keeps the smallest elements. *)
Definition peek_top_smallest_iterable {T E} (leb : T → T → bool) (elements : list T) (top : nat) :
    result E (list T) :=
  peek_top_largest_iterable (λ x y, leb y x) elements top.

Section specification.
Context {T : Type} (leb : T → T → bool).
Context (leb_total : ∀ x y, leb x y = true ∨ leb y x = true).
Context (leb_trans : ∀ x y z, leb x y = true → leb y z = true → leb x z = true).

Definition leb_rel (x y : T) : Prop := leb x y = true.

(** [kept] is a selection of the [n] largest elements of [l]. *)
Definition selects (n : nat) (l kept : list T) : Prop :=
  length kept = n `min` length l ∧
  ∃ dropped, l ≡ₚ kept ++ dropped ∧ ∀ x y, x ∈ kept → y ∈ dropped → leb y x = true.

Lemma heap_push_perm x h : heap_push leb x h ≡ₚ x :: h.
Proof.
  induction h as [|y h IH]; simpl; [done|]. destruct (leb x y); [done|].
  rewrite IH. constructor.
Qed.

Lemma heap_push_sorted x h :
  StronglySorted leb_rel h → StronglySorted leb_rel (heap_push leb x h).
Proof using leb_total leb_trans.
  induction 1 as [|y h Hs IH Hf]; simpl; [repeat constructor|]. destruct (leb x y) eqn:Hxy.
  - constructor; [by constructor|]. constructor; [done|].
    eapply Forall_impl; [done|]. intros z. by apply leb_trans.
  - constructor; [done|]. rewrite heap_push_perm. constructor; [|done].
    unfold leb_rel. destruct (leb_total x y); congruence.
Qed.

(** Pushing one more element into a queue that holds a selection. *)
Lemma queue_push_selects {E} x seen pq :
  0 < queue_length pq → StronglySorted leb_rel (heap pq) →
  selects (queue_length pq) seen (heap pq) →
  ∃ o pq', queue_push leb x pq = Ok (E:=E) (o, pq') ∧ queue_length pq' = queue_length pq ∧
    StronglySorted leb_rel (heap pq') ∧ selects (queue_length pq) (x :: seen) (heap pq').
Proof using leb_total leb_trans.
  intros Hpos Hs (Hlen & dropped & Hperm & Hle). unfold queue_push. case_decide as Hfull.
  - eexists _, _. split_and!; [done|done|by apply heap_push_sorted|]. simpl.
    assert (dropped = []) as ->.
    { apply Permutation_length in Hperm. rewrite length_app in Hperm.
      destruct dropped; simpl in *; [done|lia]. }
    split; simpl; [rewrite heap_push_perm; simpl; lia|].
    exists []. rewrite heap_push_perm. split; [|set_solver]. simpl. by constructor.
  - destruct (heap pq) as [|y rest] eqn:Hh; simpl in *; [lia|].
    apply StronglySorted_inv in Hs as [Hs Hf]. rewrite Forall_forall in Hf. unfold ltb.
    destruct (leb x y) eqn:Hxy; simpl.
    + eexists _, _. split_and!; [done|done|rewrite Hh; constructor; [done|by apply Forall_forall]|].
      rewrite Hh. split; simpl; [lia|]. exists (x :: dropped). split.
      * etrans; [by apply Permutation_skip|]. apply (Permutation_middle (y :: rest)).
      * intros z w Hz [->|Hw]%elem_of_cons; [|by apply Hle].
        apply elem_of_cons in Hz as [->|Hz]; [done|].
        eapply leb_trans; [done|]. by apply Hf.
    + assert (leb y x = true) by (destruct (leb_total x y); congruence).
      eexists _, _. split_and!; [done|done|by apply heap_push_sorted|]. simpl.
      split; simpl; [rewrite heap_push_perm; simpl in *; lia|].
      exists (y :: dropped). rewrite heap_push_perm. split.
      * simpl. apply Permutation_skip. by rewrite Hperm, (Permutation_middle rest).
      * intros z w Hz Hw. rewrite heap_push_perm in Hz.
        apply elem_of_cons in Hz as [->|Hz]; apply elem_of_cons in Hw as [->|Hw].
        -- done.
        -- eapply leb_trans; [apply (Hle y w); set_solver|done].
        -- by apply Hf.
        -- apply Hle; set_solver.
Qed.

Lemma queue_fold_selects {E} l seen pq :
  0 < queue_length pq → StronglySorted leb_rel (heap pq) →
  selects (queue_length pq) seen (heap pq) →
  ∃ pq', res_fold (λ element pq, p ← queue_push leb element pq; Ok p.2) l pq = Ok (E:=E) pq' ∧
    StronglySorted leb_rel (heap pq') ∧ selects (queue_length pq) (rev l ++ seen) (heap pq').
Proof using leb_total leb_trans.
  revert seen pq. induction l as [|x l IH]; intros seen pq Hpos Hs Hsel; simpl; [eauto|].
  destruct (queue_push_selects (E:=E) x seen pq Hpos Hs Hsel) as (o & pq' & -> & Hq & Hs' & Hsel').
  simpl. rewrite <-Hq in *. rewrite <-(assoc_L (++)). by apply IH.
Qed.

Lemma selects_perm n l l' kept kept' :
  l ≡ₚ l' → kept ≡ₚ kept' → selects n l kept → selects n l' kept'.
Proof.
  intros Hl Hk (Hlen & d & Hp & Hle). split; [by rewrite <-Hl, <-Hk|].
  exists d. rewrite <-Hl, <-Hk. split; [done|]. intros x y. rewrite <-Hk. apply Hle.
Qed.

Lemma StronglySorted_rev {A} (R : relation A) l :
  StronglySorted R l → StronglySorted (flip R) (rev l).
Proof.
  induction 1 as [|x l Hs IH Hf]; simpl; [constructor|]. apply StronglySorted_app_intro; [done| |].
  - repeat constructor.
  - intros a b Ha ->%list_elem_of_singleton. rewrite Forall_forall in Hf. apply Hf.
    by apply list_elem_of_In, in_rev, list_elem_of_In.
Qed.

(** Shared form of the two selection theorems. *)
Lemma peek_top_largest_selects {E} l top :
  ∃ kept, peek_top_largest_iterable leb l top = Ok (E:=E) kept ∧
    StronglySorted (flip leb_rel) kept ∧ selects top l kept.
Proof using leb_total leb_trans.
  unfold peek_top_largest_iterable. case_decide as Htop.
  { subst. exists []. split_and!; [done|constructor|]. split; [done|]. exists l. set_solver. }
  unfold queue_new. rewrite decide_True by lia. simpl.
  destruct (queue_fold_selects (E:=E) l [] (mkQueue [] top)) as (pq & -> & Hs & Hsel); simpl.
  - lia.
  - constructor.
  - split; [by rewrite Nat.min_0_r|]. exists []. set_solver.
  - exists (queue_into_vec pq). split; [done|]. unfold queue_into_vec. split.
    + by apply StronglySorted_rev.
    + eapply selects_perm; [..|done]; rewrite ?app_nil_r; [by rewrite <-Permutation_rev|].
      apply Permutation_rev.
Qed.
End specification.

(** On an antisymmetric order the selection of the smallest elements is the
    initial part of the sorted list. *)
Section smallest.
Context {T : Type} (leb : T → T → bool) `{!RelDecision (leb_rel leb)}.
Context (leb_total : ∀ x y, leb x y = true ∨ leb y x = true).
Context (leb_trans : ∀ x y z, leb x y = true → leb y z = true → leb x z = true).
Context (leb_antisymm : ∀ x y, leb x y = true → leb y x = true → x = y).

Lemma peek_top_smallest_take {E} l top :
  peek_top_smallest_iterable leb l top = Ok (E:=E) (take top (merge_sort (leb_rel leb) l)).
Proof using leb_total leb_trans leb_antisymm.
  unfold peek_top_smallest_iterable.
  destruct (peek_top_largest_selects (λ x y, leb y x)) with (E:=E) (l:=l) (top:=top)
    as (kept & -> & Hs & Hlen & d & Hp & Hle).
  { intros x y. destruct (leb_total x y); auto. }
  { intros x y z H1 H2. by eapply leb_trans. }
  f_equal. assert (Total (leb_rel leb)) by (intros x y; apply leb_total).
  assert (Transitive (leb_rel leb)) by (intros x y z; apply leb_trans).
  assert (AntiSymm (=) (leb_rel leb)) by (intros x y; apply leb_antisymm).
  assert (merge_sort (leb_rel leb) l = kept ++ merge_sort (leb_rel leb) d) as ->.
  { apply (StronglySorted_unique (leb_rel leb)).
    - apply StronglySorted_merge_sort; apply _.
    - apply StronglySorted_app_intro; [done|apply StronglySorted_merge_sort; apply _|].
      intros x y Hx Hy. rewrite merge_sort_Permutation in Hy. by apply Hle.
    - rewrite !merge_sort_Permutation. done. }
  apply Permutation_length in Hp. rewrite length_app in Hp.
  destruct (decide (top ≤ length l)).
  - rewrite take_app_le by lia. rewrite take_ge by lia. done.
  - rewrite take_ge; [|rewrite length_app, merge_sort_Permutation; lia].
    destruct d as [|x d]; simpl in *; [|lia]. by rewrite app_nil_r.
Qed.
End smallest.

(** Selecting the [top] largest elements of an iterator returns exactly
    [top] of them (all of them if there are fewer), in descending order, and
    no element left out is larger than one returned, whatever the order of
    the iterator and however ties are broken. *)
Lemma peek_top_largest_spec {T E} (leb : T → T → bool) (elements : list T) (top : nat)
  (Htotal : ∀ x y, leb x y = true ∨ leb y x = true)
  (Htrans : ∀ x y z, leb x y = true → leb y z = true → leb x z = true) :
  ∃ kept dropped, peek_top_largest_iterable leb elements top = Ok (E:=E) kept ∧
    elements ≡ₚ kept ++ dropped ∧ length kept = top `min` length elements ∧
    StronglySorted (λ x y, leb y x = true) kept ∧
    ∀ x y, x ∈ kept → y ∈ dropped → leb y x = true.
Proof.
  destruct (peek_top_largest_selects leb Htotal Htrans (E:=E) elements top)
    as (kept & Heq & Hs & Hlen & d & Hp & Hle). exists kept, d. done.
Qed.

