(* ===== verification/Spaces.v ===== *)
(** * Metrics

    Models [lib/segment/src/spaces]: the metrics of [simple.rs] and the
    distance dispatch of [Distance] in [types.rs], on bit-exact [f32] values
    ([SpecFloat] at precision 24 and maximal exponent 128, the IEEE
    single format).

    The target is [x86_64].  Which vector extensions the CPU offers, and
    the kernels of [simple_avx.rs] and [simple_sse.rs] written with
    intrinsics, are the class [Simd]; the only fact used of a kernel is that
    preprocessing keeps the dimension. *)

From stdpp Require Import base list.
From Stdlib Require Import ZArith Lia SpecFloat.
From S2P Require Import Prelude KeyEncoding Types NamedVectors VectorStorage.

Abbreviation ScoreType := spec_float (only parsing).

Definition f32_add := SFadd 24 128.
Definition f32_sub := SFsub 24 128.
Definition f32_mul := SFmul 24 128.
Definition f32_div := SFdiv 24 128.
Definition f32_sqrt := SFsqrt 24 128.
(** [f32::EPSILON], [2^-23] *)
Definition f32_EPSILON : spec_float := binary_normalize 24 128 1 (-23) false.

(** [Iterator::sum] over [f32] *)
Definition f32_sum (l : list spec_float) : spec_float := fold_left f32_add l f32_zero.

Definition MIN_DIM_SIZE_AVX : nat := 32.
Definition MIN_DIM_SIZE_SIMD : nat := 16.

Class Simd := {
  has_avx : bool;
  has_fma : bool;
  has_sse : bool;
  euclid_similarity_avx : VectorType → VectorType → ScoreType;
  euclid_similarity_sse : VectorType → VectorType → ScoreType;
  dot_similarity_avx : VectorType → VectorType → ScoreType;
  dot_similarity_sse : VectorType → VectorType → ScoreType;
  cosine_preprocess_avx : VectorType → option VectorType;
  cosine_preprocess_sse : VectorType → option VectorType;
}.

Class SimdLaws `{!Simd} := {
  preprocess_avx_length v w : cosine_preprocess_avx v = Some w → length w = length v;
  preprocess_sse_length v w : cosine_preprocess_sse v = Some w → length w = length v;
}.

(** ** Scalar kernels *)

(** [(a - b).powi(2)] is the product [(a - b) * (a - b)]. *)
Definition euclid_similarity (v1 v2 : VectorType) : ScoreType :=
  SFopp (f32_sum (zip_with (λ a b, f32_mul (f32_sub a b) (f32_sub a b)) v1 v2)).

Definition dot_similarity (v1 v2 : VectorType) : ScoreType := f32_sum (zip_with f32_mul v1 v2).

Definition cosine_preprocess (vector : VectorType) : option VectorType :=
  let length := f32_sum ((λ x, f32_mul x x) <$> vector) in
  if SFltb length f32_EPSILON then None
  else
    let length := f32_sqrt length in
    Some ((λ x, f32_div x length) <$> vector).

(** ** Dispatch on the CPU features and the dimension *)

Section metrics.
Context `{HSimd : Simd}.

Definition use_avx (v : VectorType) : bool :=
  has_avx && has_fma && (MIN_DIM_SIZE_AVX <=? length v).
Definition use_sse (v : VectorType) : bool := has_sse && (MIN_DIM_SIZE_SIMD <=? length v).

Definition euclid_metric_similarity (v1 v2 : VectorType) : ScoreType :=
  if use_avx v1 then euclid_similarity_avx v1 v2
  else if use_sse v1 then euclid_similarity_sse v1 v2
  else euclid_similarity v1 v2.

(** [DotProductMetric::similarity] and [CosineMetric::similarity] *)
Definition dot_metric_similarity (v1 v2 : VectorType) : ScoreType :=
  if use_avx v1 then dot_similarity_avx v1 v2
  else if use_sse v1 then dot_similarity_sse v1 v2
  else dot_similarity v1 v2.

Definition cosine_metric_preprocess (vector : VectorType) : option VectorType :=
  if use_avx vector then cosine_preprocess_avx vector
  else if use_sse vector then cosine_preprocess_sse vector
  else cosine_preprocess vector.

(** ** [Distance] *)

Definition distance_similarity (self : Distance) (v1 v2 : VectorType) : ScoreType :=
  match self with
  | Cosine => dot_metric_similarity v1 v2
  | Euclid => euclid_metric_similarity v1 v2
  | Dot => dot_metric_similarity v1 v2
  end.

Definition preprocess_vector (self : Distance) (vector : VectorType) : option VectorType :=
  match self with
  | Cosine => cosine_metric_preprocess vector
  | Euclid => None
  | Dot => None
  end.

Definition postprocess_score (self : Distance) (score : ScoreType) : ScoreType :=
  match self with
  | Cosine => score
  | Euclid => f32_sqrt (SFabs score)
  | Dot => score
  end.

Inductive Order : Type := LargeBetter | SmallBetter.

Definition distance_order (self : Distance) : Order :=
  match self with
  | Cosine | Dot => LargeBetter
  | Euclid => SmallBetter
  end.

Definition check_threshold (self : Distance) (score threshold : ScoreType) : bool :=
  match distance_order self with
  | LargeBetter => SFltb threshold score
  | SmallBetter => SFltb score threshold
  end.

(** What the segment stores for a submitted vector. *)
Definition processed_vector (self : Distance) (vector : VectorType) : VectorType :=
  match preprocess_vector self vector with
  | None => vector
  | Some preprocess_vector => preprocess_vector
  end.

Lemma length_processed_vector `{!SimdLaws} d v : length (processed_vector d v) = length v.
Proof.
  unfold processed_vector, preprocess_vector. destruct d; [|done..].
  unfold cosine_metric_preprocess, cosine_preprocess.
  destruct (use_avx v).
  { destruct (cosine_preprocess_avx v) eqn:Hw; [by apply preprocess_avx_length|done]. }
  destruct (use_sse v).
  { destruct (cosine_preprocess_sse v) eqn:Hw; [by apply preprocess_sse_length|done]. }
  destruct (SFltb _ _); [done|]. by rewrite length_fmap.
Qed.
End metrics.

(** A CPU without vector extensions. *)
Definition no_simd : Simd := {|
  has_avx := false; has_fma := false; has_sse := false;
  euclid_similarity_avx := euclid_similarity; euclid_similarity_sse := euclid_similarity;
  dot_similarity_avx := dot_similarity; dot_similarity_sse := dot_similarity;
  cosine_preprocess_avx := cosine_preprocess; cosine_preprocess_sse := cosine_preprocess;
|}.

Lemma no_simd_laws : @SimdLaws no_simd.
Proof.
  split; intros v w; unfold cosine_preprocess_avx, cosine_preprocess_sse, no_simd, cosine_preprocess;
    (destruct (SFltb _ _); [done|]); intros [= <-]; by rewrite length_fmap.
Qed.

(** ** Symmetry of the scalar kernels *)

Lemma SFmul_comm prec emax x y : SFmul prec emax x y = SFmul prec emax y x.
Proof.
  destruct x as [[]|[]| |[] mx ex], y as [[]|[]| |[] my ey]; simpl; try done;
    by rewrite (Pos.mul_comm mx my), (Z.add_comm ex ey).
Qed.

Lemma SFmul_square_abs prec emax x : SFmul prec emax x x = SFmul prec emax (SFabs x) (SFabs x).
Proof. by destruct x as [[]|[]| |[] m e]. Qed.

Lemma binary_round_abs prec emax s m e :
  SFabs (binary_round prec emax s m e) = SFabs (binary_round prec emax (negb s) m e).
Proof.
  unfold binary_round. destruct (shl_align _ _ _) as [mz ez]. unfold binary_round_aux.
  destruct (shr_fexp _ _ _ _ _) as [r e']. destruct (shr_fexp _ _ _ _ _) as [r' e''].
  destruct (shr_m r'); [done| |done]. by destruct (e'' <=? emax - prec)%Z.
Qed.

Lemma SFsub_abs prec emax x y : SFabs (SFsub prec emax x y) = SFabs (SFsub prec emax y x).
Proof.
  destruct x as [[]|[]| |sx mx ex], y as [[]|[]| |sy my ey]; try done; simpl; try (by destruct sy);
    try (by destruct sx).
  rewrite (Z.min_comm ey ex). set (a := cond_Zopp sx _). set (b := cond_Zopp sy _).
  replace (b - a)%Z with (- (a - b))%Z by lia.
  destruct (a - b)%Z as [|m|m]; simpl; [done| |]; apply binary_round_abs.
Qed.

Lemma zip_with_comm {A B} (f : A → A → B) l k :
  (∀ x y, f x y = f y x) → zip_with f l k = zip_with f k l.
Proof.
  intros Hf. revert k. induction l as [|x l IH]; intros [|y k]; simpl; [done..|].
  by rewrite Hf, IH.
Qed.

(** The scalar similarities are symmetric bit for bit, for vectors with
    infinities, NaNs and signed zeros included: swapping the query and the
    stored vector never changes a score. *)
Lemma similarity_symmetric (v1 v2 : VectorType) :
  dot_similarity v1 v2 = dot_similarity v2 v1 ∧
  euclid_similarity v1 v2 = euclid_similarity v2 v1.
Proof.
  unfold dot_similarity, euclid_similarity. split.
  - f_equal. apply zip_with_comm. apply SFmul_comm.
  - do 2 f_equal. apply zip_with_comm. intros a b. unfold f32_mul, f32_sub.
    by rewrite SFmul_square_abs, SFsub_abs, <-SFmul_square_abs.
Qed.
