(* ===== verification/Text.v ===== *)
(** * Text formatting

    The part of Rust's text formatting and parsing that database records
    rely on: decimal [Display] and [FromStr] of integers, UTF-8 validation
    ([str::from_utf8]) and [str::rfind].  A [String] is the list of its
    bytes, one [ascii] each. *)

From stdpp Require Import base strings list.
From Stdlib Require Import ZArith Lia Ascii.
From S2P Require Import Prelude KeyEncoding Types Rocks JsonPath.

(** ** Decimal integers *)

Definition digit_char (d : N) : ascii := ascii_of_N (48 + d).

(** Most significant digit first; [n < 2^fuel] is enough fuel. *)
Fixpoint dec_digits (fuel : nat) (n : N) (rest : list ascii) : list ascii :=
  match fuel with
  | O => rest
  | S fuel' =>
      let rest := digit_char (n mod 10) :: rest in
      if (n <? 10)%N then rest else dec_digits fuel' (n / 10) rest
  end.

Definition display_N (n : N) : list ascii := dec_digits (S (N.size_nat n)) n [].

Definition display_i64 (z : Z) : list ascii :=
  if (z <? 0)%Z then "-"%char :: display_N (Z.to_N (- z)) else display_N (Z.to_N z).

(** [str::parse::<i64>] *)
Definition parse_i64 (s : string) : option Z :=
  let '(neg, l) := match str_chars s with
                   | (a :: (_ :: _)) as l' =>
                       if decide (a = "+"%char) then (false, tail l')
                       else if decide (a = "-"%char) then (true, tail l')
                       else (false, l')
                   | l' => (false, l')
                   end in
  match l with
  | [] => None
  | _ =>
      n ← digits_value 0 l;
      let z := if neg : bool then (- Z.of_N n)%Z else Z.of_N n in
      if decide (- 9223372036854775808 ≤ z ≤ 9223372036854775807)%Z then Some z else None
  end.

Definition is_digit (a : ascii) : Prop := is_Some (digit_of a).

Lemma digit_of_char d : (d < 10)%N → digit_of (digit_char d) = Some d.
Proof.
  intros Hd. unfold digit_of, digit_char. rewrite N_ascii_embedding by lia.
  rewrite decide_True by lia. f_equal. lia.
Qed.

Lemma digits_value_app acc l1 l2 :
  digits_value acc (l1 ++ l2) = (n ← digits_value acc l1; digits_value n l2).
Proof.
  revert acc. induction l1 as [|a l1 IH]; intros acc; [done|]. simpl.
  destruct (digit_of a); simpl; [apply IH|done].
Qed.

Lemma dec_digits_spec fuel n rest :
  (n < 2 ^ N.of_nat fuel)%N → fuel ≠ 0 →
  ∃ d pre, dec_digits fuel n rest = (d :: pre) ++ rest ∧ digits_value 0 (d :: pre) = Some n ∧
    Forall is_digit (d :: pre).
Proof.
  revert n rest. induction fuel as [|fuel IH]; intros n rest Hn Hf; [done|]. cbn [dec_digits].
  destruct (N.ltb_spec n 10) as [Hlt|Hge].
  { exists (digit_char (n mod 10)), []. rewrite N.mod_small by done.
    split_and!; [done| |repeat constructor; unfold is_digit; rewrite digit_of_char by done; eauto].
    simpl. by rewrite digit_of_char by done. }
  assert (n / 10 < 2 ^ N.of_nat fuel)%N as Hdiv.
  { rewrite Nat2N.inj_succ, N.pow_succ_r' in Hn. apply N.Div0.div_lt_upper_bound. lia. }
  assert (fuel ≠ 0) as Hf'.
  { intros ->. simpl in Hdiv. assert (1 ≤ n / 10)%N by (apply N.div_le_lower_bound; lia). lia. }
  assert (n mod 10 < 10)%N as Hm by (apply N.mod_lt; lia).
  destruct (IH (n / 10)%N (digit_char (n mod 10) :: rest) Hdiv Hf') as (d & pre & -> & Hv & Hd).
  exists d, (pre ++ [digit_char (n mod 10)]). split_and!.
  - simpl. by rewrite <-app_assoc.
  - change (d :: pre ++ ?l) with ((d :: pre) ++ l). rewrite digits_value_app, Hv. cbn.
    rewrite digit_of_char by done. cbn. f_equal. pose proof (N.div_mod n 10). lia.
  - change (d :: pre ++ ?l) with ((d :: pre) ++ l). apply Forall_app. split; [done|].
    repeat constructor. unfold is_digit. rewrite digit_of_char by done. eauto.
Qed.

Lemma N_size_nat_pow n : (n < 2 ^ N.of_nat (S (N.size_nat n)))%N.
Proof.
  rewrite Nat2N.inj_succ, N.pow_succ_r'.
  assert (n < 2 ^ N.of_nat (N.size_nat n))%N; [|lia].
  destruct n as [|p]; [done|]. simpl N.size_nat.
  induction p as [p IH|p IH|]; [| |done]; simpl Pos.size_nat;
    rewrite Nat2N.inj_succ, N.pow_succ_r'; lia.
Qed.

(** Printing then reading the digits gives the number back. *)
Lemma display_N_spec n :
  ∃ d pre, display_N n = d :: pre ∧ digits_value 0 (display_N n) = Some n ∧
    Forall is_digit (display_N n).
Proof.
  unfold display_N. destruct (dec_digits_spec (S (N.size_nat n)) n []) as (d & pre & -> & Hv & Hd);
    [apply N_size_nat_pow|done|]. rewrite app_nil_r. eauto.
Qed.

Lemma is_digit_ne a c : is_digit a → digit_of c = None → a ≠ c.
Proof. intros [d Hd] Hc ->. congruence. Qed.

Lemma str_chars_string l : str_chars (String.string_of_list_ascii l) = l.
Proof. apply String.list_ascii_of_string_of_list_ascii. Qed.

Lemma parse_u32_display i :
  (N.of_nat i ≤ u32_max)%N →
  parse_u32 (String.string_of_list_ascii (display_N (N.of_nat i))) = Some (N.of_nat i).
Proof.
  intros Hi. unfold parse_u32. rewrite str_chars_string.
  destruct (display_N_spec (N.of_nat i)) as (d & pre & Heq & Hv & Hd). rewrite Heq in *.
  assert (d ≠ "+"%char) by (apply Forall_cons in Hd as [Hd _]; by apply is_digit_ne).
  destruct pre as [|c pre]; cbn -[digits_value]; rewrite ?decide_False by done; rewrite Hv; cbn;
    by rewrite decide_True.
Qed.

Lemma parse_i64_display z :
  (- 9223372036854775808 ≤ z ≤ 9223372036854775807)%Z →
  parse_i64 (String.string_of_list_ascii (display_i64 z)) = Some z.
Proof.
  intros Hz. unfold parse_i64, display_i64. rewrite str_chars_string.
  destruct (Z.ltb_spec z 0) as [Hneg|Hpos].
  - destruct (display_N_spec (Z.to_N (- z))) as (d & pre & Heq & Hv & Hd). rewrite Heq in *.
    cbv iota beta. rewrite decide_False, decide_True by done. cbn [tail]. cbv iota beta.
    rewrite Hv. cbn -[decide]. rewrite decide_True by lia. f_equal. lia.
  - destruct (display_N_spec (Z.to_N z)) as (d & pre & Heq & Hv & Hd). rewrite Heq in *.
    apply Forall_cons in Hd as [Hd _].
    assert (d ≠ "+"%char ∧ d ≠ "-"%char) as [? ?] by (split; by apply is_digit_ne).
    destruct pre as [|c pre]; cbn -[digits_value]; rewrite ?decide_False by done; rewrite Hv; cbn;
      rewrite decide_True by lia; f_equal; lia.
Qed.

(** ** Bytes of a string *)

Definition str_bytes (l : list ascii) : bytes := (λ a, Z.of_N (N_of_ascii a)) <$> l.
Definition bytes_str (b : bytes) : string :=
  String.string_of_list_ascii ((λ z, ascii_of_N (Z.to_N z)) <$> b).

Definition in_range (lo hi b : Z) : bool := (lo <=? b)%Z && (b <=? hi)%Z.
Definition cont_byte (b : Z) : bool := in_range 128 191 b.

(** Well-formed UTF-8 byte sequences: no overlong forms, no surrogates,
    nothing above U+10FFFF. *)
Fixpoint utf8_valid (l : bytes) : bool :=
  match l with
  | [] => true
  | b0 :: t =>
      if in_range 0 127 b0 then utf8_valid t
      else match t with
      | [] => false
      | b1 :: t1 =>
          if in_range 194 223 b0 then cont_byte b1 && utf8_valid t1
          else match t1 with
          | [] => false
          | b2 :: t2 =>
              if in_range 224 239 b0
              then in_range (if (b0 =? 224)%Z then 160 else 128)
                            (if (b0 =? 237)%Z then 159 else 191) b1 &&
                   cont_byte b2 && utf8_valid t2
              else match t2 with
              | [] => false
              | b3 :: t3 =>
                  in_range 240 244 b0 &&
                  in_range (if (b0 =? 240)%Z then 144 else 128)
                           (if (b0 =? 244)%Z then 143 else 191) b1 &&
                  cont_byte b2 && cont_byte b3 && utf8_valid t3
              end
          end
      end
  end.

Definition from_utf8 (b : bytes) : option string :=
  if utf8_valid b then Some (bytes_str b) else None.

(** A valid string followed by another is valid when that one is. *)
Lemma utf8_valid_app l1 l2 : utf8_valid l1 = true → utf8_valid (l1 ++ l2) = utf8_valid l2.
Proof.
  induction l1 as [l1 IH] using (induction_ltof1 _ length). unfold ltof in IH.
  destruct l1 as [|b0 t]; [done|]. intros Hv.
  destruct (in_range 0 127 b0) eqn:H0.
  { simpl in *. rewrite H0 in *. apply IH; [lia|done]. }
  destruct t as [|b1 t1]; [simpl in Hv; by rewrite H0 in Hv|].
  destruct (in_range 194 223 b0) eqn:H1.
  { simpl in *. rewrite H0, H1 in *. apply andb_true_iff in Hv as [-> Hv]. simpl. apply IH; [lia|done]. }
  destruct t1 as [|b2 t2]; [simpl in Hv; by rewrite H0, H1 in Hv|].
  destruct (in_range 224 239 b0) eqn:H2.
  { simpl in *. rewrite H0, H1, H2 in *. apply andb_true_iff in Hv as [-> Hv]. simpl.
    apply IH; [lia|done]. }
  destruct t2 as [|b3 t3]; [simpl in Hv; by rewrite H0, H1, H2 in Hv|].
  simpl in *. rewrite H0, H1, H2 in *. apply andb_true_iff in Hv as [-> Hv]. simpl.
  apply IH; [lia|done].
Qed.

Lemma utf8_valid_ascii l :
  Forall (λ a, (N_of_ascii a < 128)%N) l → utf8_valid (str_bytes l) = true.
Proof.
  induction 1 as [|a l Ha _ IH]; [done|]. simpl. unfold in_range.
  by rewrite (proj2 (Z.leb_le 0 _)), (proj2 (Z.leb_le _ 127)) by lia.
Qed.

Lemma bytes_str_bytes l : bytes_str (str_bytes l) = String.string_of_list_ascii l.
Proof.
  unfold bytes_str, str_bytes. f_equal. rewrite <-list_fmap_compose. rewrite <-(list_fmap_id l) at 2.
  apply list_fmap_ext. intros _ a _. simpl. by rewrite N2Z.id, ascii_N_embedding.
Qed.

#[export] Instance str_bytes_inj : Inj (=) (=) str_bytes.
Proof.
  apply list_fmap_eq_inj. intros a b Hab. apply N2Z.inj in Hab.
  by rewrite <-(ascii_N_embedding a), Hab, ascii_N_embedding.
Qed.

(** ** [str::rfind] of a character *)

Fixpoint rfind (c : ascii) (l : list ascii) : option nat :=
  match l with
  | [] => None
  | a :: l' =>
      match rfind c l' with
      | Some i => Some (S i)
      | None => if decide (a = c) then Some 0 else None
      end
  end.

Lemma rfind_none c l : Forall (λ a, a ≠ c) l → rfind c l = None.
Proof. induction 1 as [|a l Ha _ IH]; [done|]. simpl. rewrite IH. by rewrite decide_False. Qed.

Lemma rfind_last c l1 l2 : Forall (λ a, a ≠ c) l2 → rfind c (l1 ++ c :: l2) = Some (length l1).
Proof.
  intros Hl2. induction l1 as [|a l1 IH]; simpl.
  - rewrite rfind_none by done. by rewrite decide_True.
  - by rewrite IH.
Qed.

(** ** Values written as text *)

Class TextValue (V : Type) := {
  to_text : V → list ascii;
  from_text : string → option V;
  text_ok : V → Prop;
  from_to_text v : text_ok v → from_text (String.string_of_list_ascii (to_text v)) = Some v;
  to_text_utf8 v : text_ok v → utf8_valid (str_bytes (to_text v)) = true;
}.

#[export] Program Instance text_string : TextValue string := {|
  to_text := str_chars;
  from_text := Some;
  text_ok s := utf8_valid (str_bytes (str_chars s)) = true;
|}.
Next Obligation. intros v _. f_equal. apply String.string_of_list_ascii_of_string. Qed.
Next Obligation. done. Qed.

Lemma display_N_ascii n : Forall (λ a, (N_of_ascii a < 128)%N) (display_N n).
Proof.
  destruct (display_N_spec n) as (_ & _ & _ & _ & Hd). eapply Forall_impl; [exact Hd|].
  intros a [d Ha]. unfold digit_of in Ha. case_decide; [lia|done].
Qed.

#[export] Program Instance text_i64 : TextValue Z := {|
  to_text := display_i64;
  from_text := parse_i64;
  text_ok z := (- 9223372036854775808 ≤ z ≤ 9223372036854775807)%Z;
|}.
Next Obligation. intros v Hv. by apply parse_i64_display. Qed.
Next Obligation.
  intros v _. apply utf8_valid_ascii. unfold display_i64.
  destruct (v <? 0)%Z; [constructor; [done|]|]; apply display_N_ascii.
Qed.
