(* ===== verification/FieldIndex.v ===== *)
(** * Field indexes: the value indexer and the map index

    Models [lib/segment/src/index/field_index]: the default method of the
    trait [ValueIndexer] in [field_index_base.rs] ([vi_add_point], over the
    trait's three required methods) and [MapIndex] of [map_index.rs], the
    index of keyword and integer fields.

    [usize] counters are [N] and wrap, as in a release build.  Telemetry and
    the flushers are not modelled. *)

From stdpp Require Import base gmap strings list sorting.
From Stdlib Require Import ZArith Lia Ascii.
From S2P Require Import Prelude KeyEncoding Types Rocks JsonPath Text Filters Estimator.

(** ** Counters *)

Definition usize_mod : N := 18446744073709551616.
Definition usize_add (a b : N) : N := ((a + b) mod usize_mod)%N.
Definition wrapping_sub (a b : N) : N := ((a + (usize_mod - b mod usize_mod)) mod usize_mod)%N.

Lemma usize_add_mod a b : usize_add (a mod usize_mod) b = ((a + b) mod usize_mod)%N.
Proof. unfold usize_add. apply N.Div0.add_mod_idemp_l. Qed.

Lemma wrapping_sub_mod a b : wrapping_sub ((a + b) mod usize_mod) b = (a mod usize_mod)%N.
Proof.
  unfold wrapping_sub. rewrite N.Div0.add_mod_idemp_l.
  pose proof (N.div_mod b usize_mod ltac:(done)) as Hb.
  pose proof (N.mod_lt b usize_mod ltac:(done)) as Hlt.
  replace (a + b + (usize_mod - b mod usize_mod))%N with (a + (b / usize_mod + 1) * usize_mod)%N by lia.
  apply N.Div0.mod_add.
Qed.

Lemma usize_sub_add a : usize_add (wrapping_sub (a mod usize_mod) 1) 1 = (a mod usize_mod)%N.
Proof.
  unfold usize_add, wrapping_sub. rewrite N.Div0.add_mod_idemp_l.
  change (1 mod usize_mod)%N with 1%N.
  replace (a mod usize_mod + (usize_mod - 1) + 1)%N with (a mod usize_mod + 1 * usize_mod)%N
    by (unfold usize_mod; lia).
  rewrite N.Div0.mod_add. apply N.Div0.mod_mod.
Qed.

(** ** [ValueIndexer] *)

Section value_indexer.
Context {Num St A : Type}.
Context (add_many : PointOffsetType → list A → sm St OperationError unit).
Context (get_value : Value Num → option A).
Context (remove_point : PointOffsetType → sm St OperationError unit).

(** The indexable values of one selected JSON value. *)
Definition value_elems (value : Value Num) : list A :=
  match value with
  | VArray values => omap get_value values
  | _ => option_list (get_value value)
  end.

Definition vi_add_point (id : PointOffsetType) (payload : MultiValue (Value Num)) :
    sm St OperationError unit :=
  match payload with
  | MMultiple values =>
      _ ← remove_point id;
      add_many id (values ≫= value_elems)
  | MSingle (Some (VArray values)) =>
      _ ← remove_point id;
      add_many id (omap get_value values)
  | MSingle (Some value) =>
      match get_value value with
      | Some x => _ ← remove_point id; add_many id [x]
      | None => mret tt
      end
  | MSingle None => mret tt
  end.

(** The values a point with this field content should be indexed under. *)
Definition indexed_values (payload : MultiValue (Value Num)) : list A :=
  mv_values payload ≫= value_elems.

(** Whether [vi_add_point] replaces the values of the point. *)
Definition reindexes (payload : MultiValue (Value Num)) : bool :=
  match payload with
  | MMultiple _ | MSingle (Some (VArray _)) => true
  | MSingle (Some value) => bool_decide (is_Some (get_value value))
  | MSingle None => false
  end.

Lemma vi_add_point_reindexes id payload :
  reindexes payload = true →
  vi_add_point id payload = (_ ← remove_point id; add_many id (indexed_values payload)).
Proof.
  unfold reindexes, vi_add_point, indexed_values.
  destruct payload as [[[| | | |a|]|]|l]; simpl; intros Hr; try done; try (by rewrite app_nil_r);
    (case_bool_decide as Hg; [destruct Hg as [x Hx]; by rewrite Hx|done]).
Qed.

Lemma vi_add_point_keeps id payload s :
  reindexes payload = false → vi_add_point id payload s = (Ok tt, s) ∧ indexed_values payload = [].
Proof.
  unfold reindexes, vi_add_point, indexed_values.
  destruct payload as [[[| | | |a|]|]|l]; simpl; intros Hr; try done;
    (case_bool_decide as Hg; [done|apply eq_None_not_Some in Hg; by rewrite Hg]).
Qed.
End value_indexer.

(** ** [MapIndex] *)

Record MapIndex (V DB : Type) `{Countable V} := mkMapIndex {
  mi_map : gmap V (gset PointOffsetType);
  mi_point_to_values : list (list V);
  (** amount of points with at least one indexed value *)
  mi_indexed_points : N;
  mi_values_count : N;
  mi_db : DB;
}.
Arguments mkMapIndex {V DB _ _}.
Arguments mi_map {V DB _ _}.
Arguments mi_point_to_values {V DB _ _}.
Arguments mi_indexed_points {V DB _ _}.
Arguments mi_values_count {V DB _ _}.
Arguments mi_db {V DB _ _}.

(** [format!("{field}_map")] *)
Definition map_cf_name (field : string) : string := (field +:+ "_map")%string.

Section map_index.
Context {V DB : Type} `{Countable V} `{!TextValue V} {HDB : RocksDB DB} (column_name : string).
Abbreviation MI := (MapIndex V DB).

Definition map_new (db : DB) : MI := mkMapIndex ∅ [] 0 0 db.

Definition set_map m (s : MI) : MI :=
  mkMapIndex m (mi_point_to_values s) (mi_indexed_points s) (mi_values_count s) (mi_db s).
Definition set_point_to_values l (s : MI) : MI :=
  mkMapIndex (mi_map s) l (mi_indexed_points s) (mi_values_count s) (mi_db s).
Definition set_indexed_points n (s : MI) : MI :=
  mkMapIndex (mi_map s) (mi_point_to_values s) n (mi_values_count s) (mi_db s).
Definition set_values_count n (s : MI) : MI :=
  mkMapIndex (mi_map s) (mi_point_to_values s) (mi_indexed_points s) n (mi_db s).
Definition on_map_db {A} : sm DB OperationError A → sm MI OperationError A :=
  sm_zoom mi_db (λ db s, mkMapIndex (mi_map s) (mi_point_to_values s) (mi_indexed_points s)
                           (mi_values_count s) db).

(** [self.map.entry(value).or_default().insert(idx)] *)
Definition entry_insert (value : V) (idx : PointOffsetType) (m : gmap V (gset PointOffsetType)) :
    gmap V (gset PointOffsetType) :=
  <[value := {[ idx ]} ∪ default ∅ (m !! value)]> m.

(** [if let Some(vals) = self.map.get_mut(value) { vals.remove(&idx) }] *)
Definition entry_remove (value : V) (idx : PointOffsetType) (m : gmap V (gset PointOffsetType)) :
    gmap V (gset PointOffsetType) :=
  match m !! value with
  | Some vals => <[value := vals ∖ {[ idx ]}]> m
  | None => m
  end.

(** [format!("{value}/{idx}")] *)
Definition encode_db_record (value : V) (idx : PointOffsetType) : list ascii :=
  to_text value ++ "/"%char :: display_N (N.of_nat idx).

Definition DECODE_ERR : string := "Index db parsing error: wrong data format".

Definition decode_db_record (s : string) : OperationResult (V * PointOffsetType) :=
  let l := str_chars s in
  match rfind "/"%char l with
  | None => Err (service_error DECODE_ERR)
  | Some separator_pos =>
      if decide (separator_pos = length l - 1) then Err (service_error DECODE_ERR)
      else
        match from_text (String.string_of_list_ascii (take separator_pos l)) with
        | None => Err (service_error DECODE_ERR)
        | Some value =>
            match parse_u32 (String.string_of_list_ascii (drop (separator_pos + 1) l)) with
            | None => Err (service_error DECODE_ERR)
            | Some idx => Ok (value, N.to_nat idx)
            end
        end
  end.

(** The loop body of [load]. *)
Definition load_record (row : bytes * bytes) (s : MI) : OperationResult MI :=
  match from_utf8 row.1 with
  | None => Err (service_error "Index load error: UTF8 error while DB parsing")
  | Some record =>
      p ← decode_db_record record;
      let '(value, idx) := p in
      let ptv := grow idx [] (mi_point_to_values s) in
      values ← vec_get ptv idx;
      let s := if decide (values = []) then set_indexed_points (usize_add (mi_indexed_points s) 1) s
               else s in
      let s := set_values_count (usize_add (mi_values_count s) 1) s in
      ptv ← vec_set idx (values ++ [value]) ptv;
      Ok (set_map (entry_insert value idx (mi_map s)) (set_point_to_values ptv s))
  end.

Definition map_load (self : MI) : OperationResult (bool * MI) :=
  has ← has_column_family column_name (mi_db self);
  if has : bool
  then
    rows ← column_iter column_name (mi_db self);
    s ← res_fold load_record rows (set_indexed_points 0 self);
    Ok (true, s)
  else Ok (false, self).

Definition match_cardinality (self : MI) (value : V) : CardinalityEstimation :=
  let values_count := match mi_map self !! value with
                      | None => 0%N
                      | Some points => N.of_nat (size points)
                      end in
  mkEstimation [] values_count values_count values_count.

Definition map_get_values (self : MI) (idx : PointOffsetType) : option (list V) :=
  mi_point_to_values self !! idx.

Definition add_many_to_map (idx : PointOffsetType) (values : list V) : sm MI OperationError unit :=
  if decide (values = []) then mret tt
  else
    self ← sm_get;
    _ ← sm_modify (set_values_count (usize_add (mi_values_count self) (N.of_nat (length values))));
    ptv ← sm_lift (vec_set idx values (grow idx [] (mi_point_to_values self)));
    _ ← sm_modify (set_point_to_values ptv);
    _ ← sm_for (λ value,
          _ ← sm_modify (λ s, set_map (entry_insert value idx (mi_map s)) s);
          on_map_db (column_put column_name (str_bytes (encode_db_record value idx)) [])) values;
    sm_modify (λ s, set_indexed_points (usize_add (mi_indexed_points s) 1) s).

(** [get_iterator]: a [BTreeSet] is walked in ascending order. *)
Definition map_get_iterator (self : MI) (value : V) : list PointOffsetType :=
  match mi_map self !! value with
  | Some ids => merge_sort (≤) (elements ids)
  | None => []
  end.

Definition map_remove_point (idx : PointOffsetType) : sm MI OperationError unit :=
  self ← sm_get;
  if decide (length (mi_point_to_values self) ≤ idx) then mret tt
  else
    removed_values ← sm_lift (vec_get (mi_point_to_values self) idx);
    _ ← sm_modify (set_point_to_values (<[idx := []]> (mi_point_to_values self)));
    _ ← sm_modify (λ s, if decide (removed_values = []) then s
                        else set_indexed_points (wrapping_sub (mi_indexed_points s) 1) s);
    _ ← sm_modify (λ s, set_values_count
                          (wrapping_sub (mi_values_count s) (N.of_nat (length removed_values))) s);
    sm_for (λ value,
      _ ← sm_modify (λ s, set_map (entry_remove value idx (mi_map s)) s);
      on_map_db (column_remove column_name (str_bytes (encode_db_record value idx)))) removed_values.

Definition map_clear (self : MI) : OperationResult unit * DB :=
  recreate_column_family column_name (mi_db self).
End map_index.

#[global] Arguments encode_db_record : simpl never.
#[global] Arguments entry_insert : simpl never.
#[global] Arguments entry_remove : simpl never.
#[global] Arguments str_bytes : simpl never.

(** ** [PayloadFieldIndex] for [MapIndex<String>] and [MapIndex<IntPayloadType>] *)

Record PayloadBlockCondition := mkPayloadBlock {
  block_condition : FieldCondition;
  block_cardinality : N;
}.

Definition new_match (key : PayloadKeyType) (m : Match) : FieldCondition :=
  {| fc_key := key; fc_match := Some m; fc_range := None; fc_geo_bounding_box := None;
     fc_geo_radius := None; fc_values_count := None |}.

(** [estimation.primary_clauses.push(clause)] *)
Definition push_clause (clause : PrimaryCondition) (e : CardinalityEstimation) :
    CardinalityEstimation :=
  mkEstimation (primary_clauses e ++ [clause]) (est_min e) (est_exp e) (est_max e).

Section payload_field_index.
Context {Num DB : Type} `{!JsonNumber Num} {HDB : RocksDB DB}.

Definition keyword_get_value (value : Value Num) : option string :=
  match value with VString keyword => Some keyword | _ => None end.

Definition integer_get_value (value : Value Num) : option Z :=
  match value with VNumber num => as_i64 num | _ => None end.

Definition keyword_filter (self : MapIndex string DB) (condition : FieldCondition) :
    option (list PointOffsetType) :=
  match fc_match condition with
  | Some (MatchValue (VKeyword keyword)) => Some (map_get_iterator self keyword)
  | _ => None
  end.

Definition integer_filter (self : MapIndex Z DB) (condition : FieldCondition) :
    option (list PointOffsetType) :=
  match fc_match condition with
  | Some (MatchValue (VInteger integer)) => Some (map_get_iterator self integer)
  | _ => None
  end.

Definition keyword_estimate_cardinality (self : MapIndex string DB) (condition : FieldCondition) :
    option CardinalityEstimation :=
  match fc_match condition with
  | Some (MatchValue (VKeyword keyword)) =>
      Some (push_clause (PCondition condition) (match_cardinality self keyword))
  | Some (MatchAny (Keywords keywords)) =>
      Some (combine_should_estimations (match_cardinality self <$> keywords)
              (mi_indexed_points self))
  | _ => None
  end.

Definition integer_estimate_cardinality (self : MapIndex Z DB) (condition : FieldCondition) :
    option CardinalityEstimation :=
  match fc_match condition with
  | Some (MatchValue (VInteger integer)) =>
      Some (push_clause (PCondition condition) (match_cardinality self integer))
  | Some (MatchAny (Integers integers)) =>
      Some (combine_should_estimations (match_cardinality self <$> integers)
              (mi_indexed_points self))
  | _ => None
  end.

(** The blocks come in the iteration order of the hash map. *)
Definition keyword_payload_blocks (self : MapIndex string DB) (threshold : nat)
    (key : PayloadKeyType) : list PayloadBlockCondition :=
  (λ vp, mkPayloadBlock (new_match key (MatchValue (VKeyword vp.1))) (N.of_nat (size vp.2))) <$>
    base.filter (λ vp, threshold < size vp.2) (map_to_list (mi_map self)).

Definition integer_payload_blocks (self : MapIndex Z DB) (threshold : nat)
    (key : PayloadKeyType) : list PayloadBlockCondition :=
  (λ vp, mkPayloadBlock (new_match key (MatchValue (VInteger vp.1))) (N.of_nat (size vp.2))) <$>
    base.filter (λ vp, threshold ≤ size vp.2) (map_to_list (mi_map self)).
End payload_field_index.

(** ** Records of the index in the database *)

Section records.
Context {V DB : Type} `{Countable V} `{!TextValue V} {HDB : RocksDB DB}.

Lemma display_N_no_slash n : Forall (λ a, a ≠ "/"%char) (display_N n).
Proof.
  destruct (display_N_spec n) as (_ & _ & _ & _ & Hd). eapply Forall_impl; [exact Hd|].
  intros a Ha. by apply is_digit_ne.
Qed.

Lemma decode_encode_record (v : V) i :
  text_ok v → (N.of_nat i ≤ u32_max)%N →
  decode_db_record (String.string_of_list_ascii (encode_db_record v i)) = Ok (v, i).
Proof.
  intros Hv Hi. unfold decode_db_record. rewrite str_chars_string. unfold encode_db_record.
  rewrite rfind_last by apply display_N_no_slash.
  destruct (display_N_spec (N.of_nat i)) as (d & pre & Heq & _ & _).
  rewrite decide_False by (rewrite Heq, length_app; simpl; lia).
  rewrite take_app_length, from_to_text by done.
  rewrite drop_app_ge, Nat.add_comm by lia. rewrite Nat.add_sub. cbn [drop].
  by rewrite drop_0, parse_u32_display, Nat2N.id by done.
Qed.

Lemma record_utf8 (v : V) i :
  text_ok v → from_utf8 (str_bytes (encode_db_record v i)) =
    Some (String.string_of_list_ascii (encode_db_record v i)).
Proof.
  intros Hv. unfold from_utf8, encode_db_record, str_bytes at 1. rewrite fmap_app.
  rewrite utf8_valid_app by by apply to_text_utf8.
  rewrite (utf8_valid_ascii ("/"%char :: _)); [by rewrite bytes_str_bytes|].
  constructor; [done|]. apply display_N_ascii.
Qed.

(** Distinct value and offset pairs have distinct keys. *)
Lemma encode_record_inj (v w : V) i j :
  text_ok v → text_ok w → (N.of_nat i ≤ u32_max)%N → (N.of_nat j ≤ u32_max)%N →
  str_bytes (encode_db_record v i) = str_bytes (encode_db_record w j) → v = w ∧ i = j.
Proof.
  intros Hv Hw Hi Hj Heq%(inj str_bytes). pose proof (decode_encode_record v i Hv Hi) as Hd.
  rewrite Heq, decode_encode_record in Hd by done. by injection Hd.
Qed.
End records.

(** ** Sums over the points *)

Section sums.
Context {A : Type} (f : list A → nat) (f_nil : f [] = 0).

Lemma sum_with_insert l i x y :
  l !! i = Some y → sum_list_with f (<[i := x]> l) + f y = sum_list_with f l + f x.
Proof.
  revert i. induction l as [|z l IH]; intros [|i] Hi; simplify_eq/=; [lia|].
  specialize (IH i Hi). lia.
Qed.

Lemma sum_with_grow l i : sum_list_with f (grow i [] l) = sum_list_with f l.
Proof using f_nil.
  unfold grow. case_decide; [|done]. rewrite resize_ge by lia. rewrite sum_list_with_app.
  assert (∀ n, sum_list_with f (replicate n []) = 0) as ->; [|lia].
  intros n. induction n; simpl; lia.
Qed.

Lemma sum_with_grow_set l i x :
  sum_list_with f (grow_set i [] x l) + f (default [] (l !! i)) = sum_list_with f l + f x.
Proof using f_nil.
  unfold grow_set. rewrite <-(sum_with_grow l i).
  rewrite (sum_with_insert (grow i [] l) i x (default [] (l !! i))); [done|].
  rewrite lookup_grow. case_decide as Hlt.
  - apply lookup_lt_is_Some in Hlt as [y Hy]. by rewrite Hy.
  - rewrite decide_True by lia. by rewrite (proj2 (lookup_ge_None l i)) by lia.
Qed.

Lemma sum_with_zero l : (∀ i, f (default [] (l !! i)) = 0) → sum_list_with f l = 0.
Proof.
  induction l as [|x l IH]; intros Hl; [done|]. simpl. rewrite (IH (λ i, Hl (S i))).
  specialize (Hl 0). simpl in Hl. lia.
Qed.

Lemma sum_with_ext l k :
  (∀ i, f (default [] (l !! i)) = f (default [] (k !! i))) → sum_list_with f l = sum_list_with f k.
Proof using f_nil.
  revert k. induction l as [|x l IH]; intros k Hlk; simpl.
  - symmetry. apply sum_with_zero. intros i. rewrite <-Hlk. done.
  - destruct k as [|y k]; simpl.
    + apply (sum_with_zero (x :: l)). intros i. rewrite Hlk. done.
    + rewrite (IH k (λ i, Hlk (S i))). specialize (Hlk 0). simpl in Hlk. lia.
Qed.
End sums.

Definition nonempty {A} (l : list A) : nat := match l with [] => 0 | _ => 1 end.

Lemma default_grow_set {A} i (x : list A) l j :
  default [] (grow_set i [] x l !! j) = if decide (j = i) then x else default [] (l !! j).
Proof.
  case_decide as Hj; [subst; by rewrite lookup_grow_set_eq|].
  rewrite lookup_grow_set_ne by done. case_decide; [done|].
  rewrite (proj2 (lookup_ge_None l j)) by lia. by case_decide.
Qed.

Lemma decide_elem_cons_ne {A B} `{EqDecision A} (k x : A) l (a b : B) :
  k ≠ x → (if decide (k ∈ x :: l) then a else b) = if decide (k ∈ l) then a else b.
Proof.
  intros Hk. destruct (decide (k ∈ x :: l)) as [Hin|Hin]; rewrite elem_of_cons in Hin; case_decide; tauto.
Qed.

(** ** Invariant of the map index *)

Section map_invariant.
Context {V DB : Type} `{Countable V} `{!TextValue V} {HDB : RocksDB DB} {HRL : RocksLaws DB}.
Context (column_name : string).
Abbreviation MI := (MapIndex V DB).

Definition map_values (s : MI) (i : PointOffsetType) : list V := default [] (map_get_values s i).
Definition map_ids (s : MI) (v : V) : gset PointOffsetType := default ∅ (mi_map s !! v).

Record map_wf (s : MI) : Prop := {
  mw_ids v i : i ∈ map_ids s v ↔ v ∈ map_values s i;
  mw_points : mi_indexed_points s =
    (N.of_nat (sum_list_with nonempty (mi_point_to_values s)) mod usize_mod)%N;
  mw_count : mi_values_count s =
    (N.of_nat (sum_list_with length (mi_point_to_values s)) mod usize_mod)%N;
}.

Abbreviation record_key v i := (str_bytes (encode_db_record v i)).

(** The column holds exactly the pairs of the index. *)
Record map_synced (s : MI) : Prop := {
  ms_cf : cf_handle (mi_db s) column_name = true;
  ms_values i v : v ∈ map_values s i → text_ok v ∧ (N.of_nat i ≤ u32_max)%N;
  ms_view k b : cf_view (mi_db s) column_name !! k = Some b ↔
    b = [] ∧ ∃ v i, v ∈ map_values s i ∧ k = record_key v i;
}.

Lemma map_ids_insert (s : MI) v i w j :
  j ∈ default ∅ (entry_insert v i (mi_map s) !! w) ↔ (j = i ∧ w = v) ∨ j ∈ map_ids s w.
Proof.
  unfold entry_insert, map_ids. destruct (decide (w = v)) as [->|Hne].
  - rewrite lookup_insert_eq. simpl. set_solver.
  - rewrite lookup_insert_ne by done. naive_solver.
Qed.

Lemma map_ids_remove (s : MI) v i w j :
  j ∈ default ∅ (entry_remove v i (mi_map s) !! w) ↔ j ∈ map_ids s w ∧ ¬ (j = i ∧ w = v).
Proof.
  unfold entry_remove, map_ids. destruct (decide (w = v)) as [->|Hne].
  - destruct (mi_map s !! v) as [ids|] eqn:Hv; [rewrite lookup_insert_eq|rewrite Hv]; simpl; set_solver.
  - destruct (mi_map s !! v) as [ids|] eqn:Hv; [rewrite lookup_insert_ne by done|]; naive_solver.
Qed.

(** The parts of the index the two loops do not touch. *)
Definition same_points (s s' : MI) : Prop :=
  mi_point_to_values s' = mi_point_to_values s ∧ mi_indexed_points s' = mi_indexed_points s ∧
  mi_values_count s' = mi_values_count s.

(** The keys of the records of one point. *)
Definition record_keys (vs : list V) (idx : PointOffsetType) : list bytes :=
  (λ v, record_key v idx) <$> vs.

(** The loop of [map_remove_point]. *)
Lemma remove_loop idx vs (s : MI) :
  sm_wp (sm_for (λ value,
      _ ← sm_modify (λ s, set_map (entry_remove value idx (mi_map s)) s);
      on_map_db (column_remove column_name (record_key value idx))) vs)
    (λ _ s', same_points s s' ∧
      (∀ w j, j ∈ map_ids s' w ↔ j ∈ map_ids s w ∧ ¬ (j = idx ∧ w ∈ vs)) ∧
      cf_handle (mi_db s') column_name = cf_handle (mi_db s) column_name ∧
      ∀ k, cf_view (mi_db s') column_name !! k =
        if decide (k ∈ record_keys vs idx) then None else cf_view (mi_db s) column_name !! k)
    (λ _ s', same_points s s' ∧ ∀ w j, j ≠ idx → j ∈ map_ids s' w ↔ j ∈ map_ids s w) s.
Proof using HRL.
  revert s. induction vs as [|v vs IH]; intros s.
  { apply sm_wp_ret. split_and!; [done|set_solver|done|]. intros k. by rewrite decide_False by set_solver. }
  simpl. apply sm_wp_bind, sm_wp_bind, sm_wp_modify, sm_wp_zoom, column_remove_wp.
  - intros db' Hview Hh. cbn in Hview, Hh. eapply sm_wp_mono; [apply IH|..].
    + cbn. intros _ s' (Hs & Hids & Hh' & Hv). split_and!.
      * done.
      * intros w j. rewrite Hids. unfold map_ids. cbn. rewrite map_ids_remove. unfold map_ids.
        rewrite elem_of_cons. tauto.
      * by rewrite Hh'.
      * intros k. rewrite Hv, Hview.
        change (record_keys (v :: vs) idx) with (record_key v idx :: record_keys vs idx).
        destruct (decide (k = record_key v idx)) as [->|Hk].
        -- rewrite lookup_delete_eq. destruct (decide (_ ∈ _ :: _)) as [_|Hn]; [by case_decide|destruct Hn; left].
        -- rewrite lookup_delete_ne by done. by rewrite decide_elem_cons_ne.
    + cbn. intros _ s' (Hs & Hids). split; [done|]. intros w j Hj. rewrite Hids by done.
      unfold map_ids at 1. cbn. rewrite map_ids_remove. tauto.
  - intros e db'. split; [done|]. intros w j Hj. unfold map_ids at 1. cbn.
    rewrite map_ids_remove. tauto.
Qed.

(** The loop of [add_many_to_map]. *)
Lemma add_loop idx vs (s : MI) :
  sm_wp (sm_for (λ value,
      _ ← sm_modify (λ s, set_map (entry_insert value idx (mi_map s)) s);
      on_map_db (column_put column_name (record_key value idx) [])) vs)
    (λ _ s', same_points s s' ∧
      (∀ w j, j ∈ map_ids s' w ↔ (j = idx ∧ w ∈ vs) ∨ j ∈ map_ids s w) ∧
      cf_handle (mi_db s') column_name = cf_handle (mi_db s) column_name ∧
      ∀ k, cf_view (mi_db s') column_name !! k =
        if decide (k ∈ record_keys vs idx) then Some [] else cf_view (mi_db s) column_name !! k)
    (λ _ s', same_points s s' ∧ ∀ w j, j ≠ idx → j ∈ map_ids s' w ↔ j ∈ map_ids s w) s.
Proof using HRL.
  revert s. induction vs as [|v vs IH]; intros s.
  { apply sm_wp_ret. split_and!; [done|set_solver|done|]. intros k. by rewrite decide_False by set_solver. }
  simpl. apply sm_wp_bind, sm_wp_bind, sm_wp_modify, sm_wp_zoom, column_put_wp.
  - intros db' Hview Hh. cbn in Hview, Hh. eapply sm_wp_mono; [apply IH|..].
    + cbn. intros _ s' (Hs & Hids & Hh' & Hv). split_and!.
      * done.
      * intros w j. rewrite Hids. unfold map_ids. cbn. rewrite map_ids_insert. unfold map_ids.
        rewrite elem_of_cons. tauto.
      * by rewrite Hh'.
      * intros k. rewrite Hv, Hview.
        change (record_keys (v :: vs) idx) with (record_key v idx :: record_keys vs idx).
        destruct (decide (k = record_key v idx)) as [->|Hk].
        -- rewrite lookup_insert_eq. destruct (decide (_ ∈ _ :: _)) as [_|Hn]; [by case_decide|destruct Hn; left].
        -- rewrite lookup_insert_ne by done. by rewrite decide_elem_cons_ne.
    + cbn. intros _ s' (Hs & Hids). split; [done|]. intros w j Hj. rewrite Hids by done.
      unfold map_ids at 1. cbn. rewrite map_ids_insert. tauto.
  - intros e db'. split; [done|]. intros w j Hj. unfold map_ids at 1. cbn.
    rewrite map_ids_insert. tauto.
Qed.

Lemma map_values_same s s' : same_points s s' → map_values s' = map_values s.
Proof. intros (Hp & _). unfold map_values, map_get_values. by rewrite Hp. Qed.

(** The values of one point are replaced. *)
Definition values_set (i : PointOffsetType) (vs : list V) (s s' : MI) : Prop :=
  ∀ j, map_values s' j = if decide (j = i) then vs else map_values s j.

Lemma record_keys_synced s i j v vs :
  (∀ i v, v ∈ map_values s i → text_ok v ∧ (N.of_nat i ≤ u32_max)%N) →
  v ∈ map_values s j → Forall text_ok vs → (N.of_nat i ≤ u32_max)%N →
  record_key v j ∈ record_keys vs i ↔ j = i ∧ v ∈ vs.
Proof.
  intros Hok Hv Hvs Hi. unfold record_keys. rewrite list_elem_of_fmap. split.
  - intros (w & Heq & Hw). rewrite Forall_forall in Hvs. destruct (Hok j v Hv).
    destruct (encode_record_inj v w j i) as [-> ->]; auto.
  - intros [-> Hin]. eauto.
Qed.

Lemma removed_synced s s' i :
  map_synced s → values_set i [] s s' → cf_handle (mi_db s') column_name = cf_handle (mi_db s) column_name →
  (∀ k, cf_view (mi_db s') column_name !! k =
    if decide (k ∈ record_keys (map_values s i) i) then None else cf_view (mi_db s) column_name !! k) →
  map_synced s'.
Proof.
  intros [Hcf Hok Hview] Hset Hh Hv. split.
  - by rewrite Hh.
  - intros j v. rewrite Hset. case_decide; [set_solver|apply Hok].
  - intros k b. rewrite Hv. split.
    + case_decide as Hk; [done|]. intros (-> & v & j & Hin & ->)%Hview. split; [done|].
      exists v, j. split; [|done]. rewrite Hset. case_decide; [|done]. subst. destruct Hk.
      apply list_elem_of_fmap. eauto.
    + intros (-> & v & j & Hin & ->). rewrite Hset in Hin. case_decide as Hj; [set_solver|].
      case_decide as Hk; [|apply Hview; eauto].
      apply list_elem_of_fmap in Hk as (w & Heq & Hw).
      destruct (Hok j v Hin), (Hok i w Hw). destruct Hj. by apply (encode_record_inj v w j i).
Qed.

Lemma map_remove_spec i s :
  map_wf s →
  sm_wp (map_remove_point column_name i)
    (λ _ s', map_wf s' ∧ values_set i [] s s' ∧ (map_synced s → map_synced s'))
    (λ _ s', values_set i [] s s') s.
Proof using HRL.
  intros [Hids Hpts Hcnt]. unfold map_remove_point. apply sm_wp_bind, sm_wp_ret. case_decide as Hlen.
  { assert (values_set i [] s s) as Hset.
    { intros j. case_decide; [|done]. subst. unfold map_values, map_get_values.
      by rewrite (proj2 (lookup_ge_None _ _)) by lia. }
    apply sm_wp_ret. by split_and!. }
  destruct (lookup_lt_is_Some_2 (mi_point_to_values s) i ltac:(lia)) as [vs Hvs].
  unfold vec_get. rewrite Hvs. apply sm_wp_bind. unfold unwrap. apply sm_wp_ret.
  do 3 (apply sm_wp_bind, sm_wp_modify). set (s1 := set_values_count _ _).
  assert (mi_point_to_values s1 = <[i := []]> (mi_point_to_values s)) as Hp1
    by (subst s1; by case_decide).
  assert (values_set i [] s s1) as Hset.
  { intros j. unfold map_values, map_get_values. rewrite Hp1. case_decide.
    - subst. by rewrite list_lookup_insert_eq by (by eapply lookup_lt_Some).
    - by rewrite list_lookup_insert_ne. }
  assert (map_values s i = vs) as Hvi by (unfold map_values, map_get_values; by rewrite Hvs).
  assert (mi_indexed_points s1 = if decide (vs = []) then mi_indexed_points s
          else wrapping_sub (mi_indexed_points s) 1) as Hi1 by (subst s1; by case_decide).
  assert (mi_values_count s1 = wrapping_sub (mi_values_count s) (N.of_nat (length vs))) as Hc1
    by (subst s1; by case_decide).
  assert (mi_map s1 = mi_map s ∧ mi_db s1 = mi_db s) as [Hm1 Hd1] by (subst s1; by case_decide).
  clearbody s1. rewrite Hpts in Hi1. rewrite Hcnt in Hc1.
  pose proof (sum_with_insert nonempty eq_refl _ i [] _ Hvs) as Hs1.
  pose proof (sum_with_insert length eq_refl _ i [] _ Hvs) as Hs2.
  rewrite <-Hp1 in Hs1, Hs2. change (nonempty []) with 0 in Hs1. change (length []) with 0 in Hs2.
  rewrite Nat.add_0_r in Hs1, Hs2. rewrite <-Hs1, Nat2N.inj_add in Hi1.
  rewrite <-Hs2, Nat2N.inj_add, wrapping_sub_mod in Hc1.
  eapply sm_wp_mono; [apply remove_loop|..]; simpl.
  - intros _ s' (Hsame & Hids' & Hh & Hv). pose proof (map_values_same _ _ Hsame) as Heq.
    assert (values_set i [] s s') as Hset' by (intros j; rewrite Heq; apply Hset).
    destruct Hsame as (Hp & Hi & Hc). split_and!; [split| |].
    + intros v j. rewrite Hids', Hset'. unfold map_ids. rewrite Hm1.
      change (default ∅ (mi_map s !! v)) with (map_ids s v). rewrite Hids.
      destruct (decide (j = i)) as [Hj|Hj].
      * rewrite Hj, Hvi, elem_of_nil. split; [|done]. intros [Hv' Hn]. by destruct Hn.
      * split; [by intros [? _]|]. intros Hv'. split; [done|]. by intros [? _].
    + rewrite Hi, Hp, Hi1. destruct vs; [by rewrite N.add_0_r|apply wrapping_sub_mod].
    + by rewrite Hc, Hp.
    + done.
    + intros Hsync. eapply removed_synced; [done|done|by rewrite Hh, Hd1|].
      intros k. rewrite Hv, Hd1, Hvi. done.
  - intros _ s' (Hsame & _). intros j. rewrite (map_values_same _ _ Hsame). apply Hset.
Qed.

Lemma added_synced s s' i vs :
  map_synced s → map_values s i = [] → Forall text_ok vs → (N.of_nat i ≤ u32_max)%N →
  values_set i vs s s' →
  cf_handle (mi_db s') column_name = cf_handle (mi_db s) column_name →
  (∀ k, cf_view (mi_db s') column_name !! k =
    if decide (k ∈ record_keys vs i) then Some [] else cf_view (mi_db s) column_name !! k) →
  map_synced s'.
Proof.
  intros [Hcf Hok Hview] Hnil Hvs Hi Hset Hh Hv. rewrite Forall_forall in Hvs. split.
  - by rewrite Hh.
  - intros j v. rewrite Hset. case_decide; [subst|apply Hok]. auto.
  - intros k b. rewrite Hv. split.
    + destruct (decide (k ∈ record_keys vs i)) as [Hk|Hk].
      * intros [= <-]. split; [done|]. apply list_elem_of_fmap in Hk as (v & -> & Hin).
        exists v, i. by rewrite Hset, decide_True.
      * intros (-> & v & j & Hin & ->)%Hview. split; [done|]. exists v, j. split; [|done].
        rewrite Hset. case_decide as Hj; [|done]. rewrite Hj, Hnil in Hin. by apply elem_of_nil in Hin.
    + intros (-> & v & j & Hin & ->). rewrite Hset in Hin. destruct (decide (j = i)) as [->|Hj].
      * rewrite decide_True; [done|]. apply list_elem_of_fmap. eauto.
      * case_decide; [done|]. apply Hview. eauto.
Qed.

Lemma map_add_spec i vs s :
  map_wf s → map_values s i = [] →
  sm_wp (add_many_to_map column_name i vs)
    (λ _ s', map_wf s' ∧ values_set i vs s s' ∧
      (map_synced s → Forall text_ok vs → (N.of_nat i ≤ u32_max)%N → map_synced s'))
    (λ _ s', values_set i vs s s') s.
Proof using HRL.
  intros [Hids Hpts Hcnt] Hnil. unfold add_many_to_map.
  destruct (decide (vs = [])) as [->|Hvs].
  { apply sm_wp_ret. split_and!; [done| |done].
    intros j. case_decide as Hj; [by rewrite Hj|done]. }
  apply sm_wp_bind, sm_wp_ret, sm_wp_bind, sm_wp_modify, sm_wp_bind.
  unfold vec_set. rewrite decide_True by (rewrite length_grow; lia). apply sm_wp_ret.
  apply sm_wp_bind, sm_wp_modify, sm_wp_bind.
  change (<[i := vs]> (grow i [] (mi_point_to_values s))) with (grow_set i [] vs (mi_point_to_values s)).
  set (s1 := set_point_to_values _ _).
  assert (values_set i vs s s1) as Hset.
  { intros j. unfold map_values, map_get_values. cbn. apply default_grow_set. }
  pose proof (sum_with_grow_set nonempty eq_refl (mi_point_to_values s) i vs) as Hs1.
  pose proof (sum_with_grow_set length eq_refl (mi_point_to_values s) i vs) as Hs2.
  change (default [] (mi_point_to_values s !! i)) with (map_values s i) in Hs1, Hs2.
  rewrite Hnil, Nat.add_0_r in Hs1, Hs2. replace (nonempty vs) with 1 in Hs1 by (by destruct vs).
  assert (mi_point_to_values s1 = grow_set i [] vs (mi_point_to_values s) ∧
          mi_indexed_points s1 = mi_indexed_points s ∧ mi_map s1 = mi_map s ∧ mi_db s1 = mi_db s ∧
          mi_values_count s1 = usize_add (mi_values_count s) (N.of_nat (length vs)))
    as (Hp1 & Hi1 & Hm1 & Hd1 & Hc1) by done.
  clearbody s1. eapply sm_wp_mono; [apply add_loop|..]; simpl.
  - intros _ s' (Hsame & Hids' & Hh & Hv). pose proof (map_values_same _ _ Hsame) as Heq.
    apply sm_wp_modify. set (s2 := set_indexed_points _ s').
    assert (values_set i vs s s2) as Hset'
      by (intros j; change (map_values s2) with (map_values s'); rewrite Heq; apply Hset).
    destruct Hsame as (Hp & Hi & Hc). split_and!; [split| |].
    + intros v j. change (map_ids s2 v) with (map_ids s' v). rewrite Hids', Hset'. unfold map_ids at 1.
      rewrite Hm1. change (default ∅ (mi_map s !! v)) with (map_ids s v). rewrite Hids.
      destruct (decide (j = i)) as [->|Hj].
      * rewrite Hnil, elem_of_nil. tauto.
      * split; [by intros [[? _]|?]|by right].
    + cbn -[sum_list_with]. rewrite Hi, Hi1, Hp, Hp1, Hs1, Hpts, usize_add_mod. by rewrite Nat2N.inj_add.
    + cbn -[sum_list_with]. rewrite Hc, Hc1, Hp, Hp1, Hs2, Hcnt, usize_add_mod. by rewrite Nat2N.inj_add.
    + done.
    + intros Hsync Htext Hoff. eapply added_synced; [done|done|exact Htext|done|done|..].
      * cbn. by rewrite Hh, Hd1.
      * intros k. cbn. by rewrite Hv, Hd1.
  - intros _ s' (Hsame & _). intros j. rewrite (map_values_same _ _ Hsame). apply Hset.
Qed.

(** *** Loading the index back *)

(** What one decoded record does. *)
Definition push_value (v : V) (i : PointOffsetType) (s : MI) : MI :=
  mkMapIndex (entry_insert v i (mi_map s))
    (grow_set i [] (map_values s i ++ [v]) (mi_point_to_values s))
    (if decide (map_values s i = []) then usize_add (mi_indexed_points s) 1 else mi_indexed_points s)
    (usize_add (mi_values_count s) 1) (mi_db s).

Lemma load_record_key v i s :
  text_ok v → (N.of_nat i ≤ u32_max)%N → load_record (record_key v i, []) s = Ok (push_value v i s).
Proof.
  intros Hv Hi. unfold load_record. cbn [fst]. rewrite record_utf8, decode_encode_record by done.
  cbn [mbind result_bind]. unfold vec_get.
  assert (grow i [] (mi_point_to_values s) !! i = Some (map_values s i)) as ->.
  { unfold map_values, map_get_values. rewrite lookup_grow. case_decide as Hlt.
    - apply lookup_lt_is_Some in Hlt as [y Hy]. by rewrite Hy.
    - rewrite decide_True by lia. by rewrite (proj2 (lookup_ge_None _ i)) by lia. }
  cbn [unwrap mbind result_bind]. unfold vec_set.
  destruct (decide (i < length (grow i [] _))) as [_|Hn]; [|rewrite length_grow in Hn; lia].
  cbn [mbind result_bind]. unfold push_value, set_map, set_point_to_values, set_values_count. f_equal.
  by case_decide.
Qed.

Lemma push_value_wf v i s :
  map_wf s →
  map_wf (push_value v i s) ∧ values_set i (map_values s i ++ [v]) s (push_value v i s).
Proof.
  intros [Hids Hpts Hcnt].
  assert (values_set i (map_values s i ++ [v]) s (push_value v i s)) as Hset
    by (intros j; apply default_grow_set).
  pose proof (sum_with_grow_set nonempty eq_refl (mi_point_to_values s) i (map_values s i ++ [v])) as Hs1.
  pose proof (sum_with_grow_set length eq_refl (mi_point_to_values s) i (map_values s i ++ [v])) as Hs2.
  change (default [] (mi_point_to_values s !! i)) with (map_values s i) in Hs1, Hs2.
  rewrite length_app in Hs2. change (length [v]) with 1 in Hs2.
  replace (nonempty (map_values s i ++ [v])) with 1 in Hs1 by (by destruct (map_values s i)).
  split; [split|done].
  - intros w j. rewrite Hset. unfold map_ids at 1. cbn. rewrite map_ids_insert, Hids.
    destruct (decide (j = i)) as [->|Hj].
    + rewrite elem_of_app, list_elem_of_singleton. tauto.
    + tauto.
  - cbn -[sum_list_with]. rewrite Hpts. case_decide as Hn.
    + rewrite Hn in *. rewrite usize_add_mod. f_equal. change (nonempty []) with 0 in Hs1. lia.
    + do 2 f_equal. replace (nonempty (map_values s i)) with 1 in Hs1 by (by destruct (map_values s i)). lia.
  - cbn -[sum_list_with]. rewrite Hcnt, usize_add_mod. f_equal. lia.
Qed.

Definition push_all (pairs : list (V * PointOffsetType)) (s : MI) : MI :=
  fold_left (λ s p, push_value p.1 p.2 s) pairs s.

Definition pair_ok (p : V * PointOffsetType) : Prop := text_ok p.1 ∧ (N.of_nat p.2 ≤ u32_max)%N.

Lemma load_fold pairs s :
  Forall pair_ok pairs →
  res_fold load_record ((λ p, (record_key p.1 p.2, [])) <$> pairs) s = Ok (push_all pairs s).
Proof.
  intros Hok. revert s. induction Hok as [|[v i] pairs [Hv Hi] _ IH]; intros s; [done|].
  rewrite fmap_cons. cbn [res_fold]. rewrite load_record_key by done. cbn [mbind result_bind]. apply IH.
Qed.

Lemma push_all_wf pairs s :
  map_wf s →
  map_wf (push_all pairs s) ∧
  ∀ v i, v ∈ map_values (push_all pairs s) i ↔ v ∈ map_values s i ∨ (v, i) ∈ pairs.
Proof.
  revert s. induction pairs as [|[v i] pairs IH]; intros s Hwf; [set_solver|].
  destruct (push_value_wf v i s) as [Hwf' Hset]; [done|].
  destruct (IH (push_value v i s)) as [Hwf2 Hin]; [done|].
  split; [done|]. intros w j. change (push_all ((v, i) :: pairs) s) with (push_all pairs (push_value v i s)).
  rewrite Hin, Hset, elem_of_cons. destruct (decide (j = i)) as [->|Hj].
  - rewrite elem_of_app, list_elem_of_singleton. split; [intros [[?| ->]|?]|intros [?|[[= ->]|?]]]; tauto.
  - split; [tauto|]. intros [?|[[= -> ->]|?]]; tauto.
Qed.

(** The rows of a synced column are the encodings of the pairs of the index,
    each pair once. *)
Lemma synced_rows s rows :
  map_synced s → rows ≡ₚ map_to_list (cf_view (mi_db s) column_name) →
  ∃ pairs, rows = (λ p, (record_key p.1 p.2, [])) <$> pairs ∧ Forall pair_ok pairs ∧ NoDup pairs ∧
    ∀ v i, (v, i) ∈ pairs ↔ v ∈ map_values s i.
Proof.
  intros [Hcf Hok Hview] Hrows.
  assert (∀ k b, (k, b) ∈ rows ↔ b = [] ∧ ∃ v i, v ∈ map_values s i ∧ k = record_key v i) as Hin.
  { intros k b. rewrite Hrows, elem_of_map_to_list. apply Hview. }
  assert (NoDup rows) as Hnd by (rewrite Hrows; apply NoDup_map_to_list). clear Hrows.
  assert (∃ pairs, rows = (λ p, (record_key p.1 p.2, [])) <$> pairs ∧
    Forall (λ p, p.1 ∈ map_values s p.2) pairs) as (pairs & -> & Hpairs).
  { assert (∀ k b, (k, b) ∈ rows → b = [] ∧ ∃ v i, v ∈ map_values s i ∧ k = record_key v i) as Hin'
      by (intros k b; apply Hin). clear Hin Hnd.
    induction rows as [|[k b] rows IH]; [by exists []|].
    destruct IH as (pairs & -> & Hp); [intros; apply Hin'; by right|].
    destruct (Hin' k b) as (-> & v & i & Hv & ->); [left|]. exists ((v, i) :: pairs).
    split; [done|]. by constructor. }
  rewrite Forall_forall in Hpairs. exists pairs. split_and!; [done| | |].
  - apply Forall_forall. intros [v i] Hp. apply Hok. by apply (Hpairs (v, i)).
  - by eapply NoDup_fmap_1.
  - intros v i. split; [apply (Hpairs (v, i))|]. intros Hv.
    assert ((record_key v i, []) ∈ (λ p, (record_key p.1 p.2, [] : bytes)) <$> pairs) as Hrow
      by (apply Hin; eauto).
    apply list_elem_of_fmap in Hrow as ([w j] & [= Heq] & Hp). destruct (Hok i v Hv).
    pose proof (Hpairs _ Hp) as Hw. destruct (Hok j w Hw).
    destruct (encode_record_inj v w i j) as [-> ->]; done.
Qed.

Lemma map_get_iterator_ids s v : map_get_iterator s v = merge_sort (≤) (elements (map_ids s v)).
Proof. unfold map_get_iterator, map_ids. destruct (mi_map s !! v); [done|]. simpl. by rewrite elements_empty. Qed.

Lemma map_load_spec s :
  map_synced s →
  ∃ s', map_load column_name (map_new (mi_db s)) = Ok (true, s') ∧ map_wf s' ∧
    (∀ v i, v ∈ map_values s' i ↔ v ∈ map_values s i).
Proof using HRL.
  intros Hsync. unfold map_load, has_column_family. cbn [mi_db map_new].
  rewrite (ms_cf _ Hsync). cbn [mbind result_bind]. rewrite column_iter_eq. unfold get_column_family. rewrite (ms_cf _ Hsync).
  cbn [mbind result_bind].
  destruct (synced_rows s (iter_cf (mi_db s) column_name) Hsync (iter_cf_view _ _)) as (pairs & Hrows & Hok & Hnd & Hin).
  rewrite Hrows, load_fold by done. cbn [mbind result_bind]. eexists. split; [done|].
  change (set_indexed_points 0 (map_new (mi_db s))) with (map_new (V:=V) (mi_db s)).
  destruct (push_all_wf pairs (map_new (mi_db s))) as [Hwf' Hv].
  - split; [|done|done]. intros v i. unfold map_ids, map_values. cbn. rewrite lookup_empty. simpl. set_solver.
  - split; [done|]. intros v i. rewrite Hv, Hin. unfold map_values at 1. cbn. set_solver.
Qed.
End map_invariant.

(** ** Runs of updates *)

Inductive map_op (Num : Type) : Type :=
| MAdd (id : PointOffsetType) (payload : MultiValue (Value Num))
| MRemove (id : PointOffsetType).
Arguments MAdd {Num}.
Arguments MRemove {Num}.

Section map_ops.
Context {Num V DB : Type} `{Countable V} `{!TextValue V} {HDB : RocksDB DB} {HRL : RocksLaws DB}.
Context (get_value : Value Num → option V) (column_name : string).
Abbreviation MI := (MapIndex V DB).

Definition run_map_op (op : map_op Num) : sm MI OperationError unit :=
  match op with
  | MAdd id payload =>
      vi_add_point (add_many_to_map column_name) get_value (map_remove_point column_name) id payload
  | MRemove id => map_remove_point column_name id
  end.

(** What an operation does to the values of the points. *)
Definition map_op_step (op : map_op Num) (f : PointOffsetType → list V) : PointOffsetType → list V :=
  match op with
  | MAdd id payload =>
      if reindexes get_value payload
      then λ j, if decide (j = id) then indexed_values get_value payload else f j
      else f
  | MRemove id => λ j, if decide (j = id) then [] else f j
  end.

Definition map_op_ok (op : map_op Num) : Prop :=
  match op with
  | MAdd id payload => Forall text_ok (indexed_values get_value payload) ∧ (N.of_nat id ≤ u32_max)%N
  | MRemove _ => True
  end.

Lemma run_map_op_spec op (s : MI) :
  map_wf s →
  sm_wp (run_map_op op)
    (λ _ s', map_wf s' ∧ (∀ j, map_values s' j = map_op_step op (map_values s) j) ∧
      (map_synced column_name s → map_op_ok op → map_synced column_name s'))
    (λ _ _, True) s.
Proof using HRL.
  intros Hwf. destruct op as [i p|i]; cbn [run_map_op map_op_step map_op_ok] in *.
  - destruct (reindexes get_value p) eqn:Hr.
    + rewrite vi_add_point_reindexes by done. apply sm_wp_bind.
      eapply sm_wp_mono; [by apply map_remove_spec| |done].
      intros _ s1 (Hwf1 & Hset1 & Hs1). eapply sm_wp_mono; [apply map_add_spec| |done]; [done| |].
      { rewrite Hset1. by rewrite decide_True. }
      intros _ s2 (Hwf2 & Hset2 & Hs2). split_and!; [done| |].
      * intros j. rewrite Hset2, Hset1. by destruct (decide (j = i)).
      * intros Hsync [Ht Hi]. auto.
    + destruct (vi_add_point_keeps (add_many_to_map column_name) get_value
        (map_remove_point column_name) i p s Hr) as [Heq _].
      unfold sm_wp. by rewrite Heq.
  - eapply sm_wp_mono; [by apply map_remove_spec| |done].
    intros _ s1 (Hwf1 & Hset1 & Hs1). split_and!; [done|apply Hset1|auto].
Qed.

Lemma run_map_ops_spec ops (s s' : MI) :
  sm_for run_map_op ops s = (Ok tt, s') → map_wf s → map_synced column_name s → Forall map_op_ok ops →
  map_wf s' ∧ map_synced column_name s' ∧
  ∀ j, map_values s' j = fold_left (λ f op, map_op_step op f) ops (map_values s) j.
Proof using HRL.
  revert s. induction ops as [|op ops IH]; intros s Hrun Hwf Hsync Hok.
  { by injection Hrun as <-. }
  simpl in Hrun. apply sm_bind_Ok_inv in Hrun as ([] & s1 & Hop & Hrun).
  apply Forall_cons in Hok as [Hok1 Hok].
  pose proof (sm_wp_Ok_inv _ _ _ _ _ _ (run_map_op_spec op s Hwf) Hop) as (Hwf1 & Hv1 & Hs1).
  specialize (Hs1 Hsync Hok1). destruct (IH s1 Hrun Hwf1 Hs1 Hok) as (Hwf2 & Hs2 & Hv2).
  split_and!; [done..|]. intros j. rewrite Hv2. simpl. clear -Hv1.
  assert (∀ (f g : PointOffsetType → list V) ops, (∀ j, f j = g j) →
    ∀ j, fold_left (λ f op, map_op_step op f) ops f j = fold_left (λ f op, map_op_step op f) ops g j) as Hext;
    [|by apply Hext].
  intros f g l. revert f g. induction l as [|o l IH]; intros f g Hfg i; [done|]. simpl. apply IH.
  intros k. destruct o; simpl; [destruct (reindexes _ _)|]; rewrite ?Hfg; done.
Qed.

Lemma map_new_wf (db : DB) : map_wf (map_new (V:=V) db).
Proof.
  split; [|done|done]. intros v i. unfold map_ids, map_values. cbn. rewrite lookup_empty. simpl. set_solver.
Qed.

Lemma map_new_synced db db' :
  recreate_column_family column_name db = (Ok tt, db') → map_synced column_name (map_new (V:=V) db').
Proof using HRL.
  intros (Hv & Hh & _)%recreate_Ok. split; [done| |].
  - intros i v Hin. by apply elem_of_nil in Hin.
  - intros k b. cbn. rewrite Hv, lookup_empty. split; [done|].
    intros (_ & v & i & Hin & _). by apply elem_of_nil in Hin.
Qed.

(** A map index keeps both directions of its mapping in step and survives
    a restart.  After any successful run of updates from an empty column, the
    values of each point are those its last update put there; the iterator of
    a value walks, in ascending order and without repetition, exactly the
    points that hold it; the counter is the number of points with a value; and
    an index loaded from the column answers every lookup the same. *)
Lemma map_index_ops db0 db ops (s : MI)
  (Hdb : recreate_column_family column_name db0 = (Ok tt, db))
  (Hrun : sm_for run_map_op ops (map_new db) = (Ok tt, s))
  (Hok : Forall map_op_ok ops) :
  (∀ i, map_values s i = fold_left (λ f op, map_op_step op f) ops (λ _, []) i) ∧
  (∀ v, StronglySorted lt (map_get_iterator s v) ∧ ∀ i, i ∈ map_get_iterator s v ↔ v ∈ map_values s i) ∧
  mi_indexed_points s = (N.of_nat (sum_list_with nonempty (mi_point_to_values s)) mod usize_mod)%N ∧
  ∃ s', map_load column_name (map_new (mi_db s)) = Ok (true, s') ∧
    (∀ v, map_get_iterator s' v = map_get_iterator s v) ∧
    (∀ i v, v ∈ map_values s' i ↔ v ∈ map_values s i) ∧ mi_indexed_points s' = mi_indexed_points s.
Proof.
  destruct (run_map_ops_spec ops (map_new db) s Hrun (map_new_wf db)) as (Hwf & Hsync & Hv);
    [by eapply map_new_synced|done|].
  destruct (map_load_spec column_name s Hsync) as (s' & Hload & Hwf' & Hv').
  split; [done|]. split; [|split; [apply Hwf|]].
  - intros v. rewrite map_get_iterator_ids. split.
    + apply (StronglySorted_strict le); [lia|apply StronglySorted_merge_sort; apply _|].
      rewrite merge_sort_Permutation. apply NoDup_elements.
    + intros i. rewrite merge_sort_Permutation, elem_of_elements. apply Hwf.
  - exists s'. split_and!; [done| |intros; apply Hv'|].
    + intros v. rewrite !map_get_iterator_ids. do 2 f_equal. apply set_eq. intros i.
      rewrite (mw_ids _ Hwf'), (mw_ids _ Hwf). apply Hv'.
    + rewrite (mw_points _ Hwf'), (mw_points _ Hwf). do 2 f_equal. apply (sum_with_ext nonempty eq_refl).
      intros i. change (nonempty (map_values s' i) = nonempty (map_values s i)).
      destruct (map_values s' i) as [|x l] eqn:E1, (map_values s i) as [|y k] eqn:E2; [done| | |done].
      * assert (y ∈ map_values s' i) as Hy by (apply Hv'; rewrite E2; left). rewrite E1 in Hy. by apply elem_of_nil in Hy.
      * assert (x ∈ map_values s i) as Hx by (apply Hv'; rewrite E1; left). rewrite E2 in Hx. by apply elem_of_nil in Hx.
Qed.
End map_ops.

Section map_retry.
Context {V DB : Type} `{Countable V} `{!TextValue V} {HDB : RocksDB DB} {HRL : RocksLaws DB}.
Context (column_name : string).
Abbreviation MI := (MapIndex V DB).

(** The counter and the values after an update that does or does not
    finish its writes. *)
Lemma add_many_fields i vs (s : MI) :
  vs ≠ [] →
  sm_wp (add_many_to_map column_name i vs)
    (λ _ s', mi_point_to_values s' = grow_set i [] vs (mi_point_to_values s) ∧
      mi_indexed_points s' = usize_add (mi_indexed_points s) 1)
    (λ _ s', mi_point_to_values s' = grow_set i [] vs (mi_point_to_values s) ∧
      mi_indexed_points s' = mi_indexed_points s) s.
Proof using HRL.
  intros Hvs. unfold add_many_to_map. rewrite decide_False by done.
  apply sm_wp_bind, sm_wp_ret, sm_wp_bind, sm_wp_modify, sm_wp_bind.
  unfold vec_set. rewrite decide_True by (rewrite length_grow; lia). apply sm_wp_ret.
  apply sm_wp_bind, sm_wp_modify, sm_wp_bind. eapply sm_wp_mono; [apply add_loop|..].
  - intros _ s' ((Hp & Hi & _) & _). apply sm_wp_modify. cbn. by rewrite Hp, Hi.
  - intros _ s' ((Hp & Hi & _) & _). by rewrite Hp, Hi.
Qed.

Lemma remove_point_fields i vs (s : MI) :
  mi_point_to_values s !! i = Some vs → vs ≠ [] →
  sm_wp (map_remove_point column_name i)
    (λ _ s', mi_point_to_values s' = <[i := []]> (mi_point_to_values s) ∧
      mi_indexed_points s' = wrapping_sub (mi_indexed_points s) 1)
    (λ _ _, True) s.
Proof using HRL.
  intros Hi Hvs. pose proof (lookup_lt_Some _ _ _ Hi). unfold map_remove_point.
  apply sm_wp_bind, sm_wp_ret. rewrite decide_False by lia. unfold vec_get. rewrite Hi.
  apply sm_wp_bind. unfold unwrap. apply sm_wp_ret. do 3 (apply sm_wp_bind, sm_wp_modify).
  rewrite (decide_False (P:=vs = [])) by done. eapply sm_wp_mono; [apply remove_loop| |done].
  intros _ s' ((Hp & Hn & _) & _). by rewrite Hp, Hn.
Qed.

(** A failed write followed by a successful retry leaves the counter of
    indexed points one short.  The first attempt records the values of the
    point and fails before counting it; the retry then removes them, which
    subtracts one for a point that was never counted. *)
Lemma map_retry_undercounts (i : PointOffsetType) (vs : list V) e (s s1 s2 : MI)
  (Hwf : map_wf s)
  (Hnone : map_values s i = []) (Hvs : vs ≠ [])
  (Hfail : add_many_to_map column_name i vs s = (Err e, s1))
  (Hretry : (_ ← map_remove_point column_name i; add_many_to_map column_name i vs) s1 = (Ok tt, s2)) :
  map_values s2 i = vs ∧
  mi_indexed_points s2 = (N.of_nat (sum_list_with nonempty (mi_point_to_values s)) mod usize_mod)%N ∧
  sum_list_with nonempty (mi_point_to_values s2) = S (sum_list_with nonempty (mi_point_to_values s)).
Proof.
  pose proof (add_many_fields i vs s Hvs) as Ha. unfold sm_wp in Ha. rewrite Hfail in Ha.
  destruct Ha as [Hp1 Hi1]. apply sm_bind_Ok_inv in Hretry as ([] & s' & Hrem & Hadd).
  pose proof (remove_point_fields i vs s1) as Hr. rewrite Hp1 in Hr.
  specialize (Hr (lookup_grow_set_eq _ _ _ _) Hvs). unfold sm_wp in Hr. rewrite Hrem in Hr.
  destruct Hr as [Hp' Hi']. pose proof (add_many_fields i vs s' Hvs) as Ha. unfold sm_wp in Ha.
  rewrite Hadd in Ha. destruct Ha as [Hp2 Hi2].
  assert (map_values s2 i = vs) as Hv2.
  { unfold map_values, map_get_values. rewrite Hp2, default_grow_set. by rewrite decide_True. }
  split_and!; [done| |].
  - by rewrite Hi2, Hi', Hi1, (mw_points _ Hwf), usize_sub_add.
  - pose proof (sum_with_grow_set nonempty eq_refl (mi_point_to_values s) i vs) as Hs.
    change (default [] (mi_point_to_values s !! i)) with (map_values s i) in Hs. rewrite Hnone in Hs.
    assert (nonempty vs = 1) by (by destruct vs). change (nonempty []) with 0 in Hs.
    rewrite (sum_with_ext nonempty eq_refl _ (grow_set i [] vs (mi_point_to_values s))); [lia|].
    intros j. rewrite Hp2, Hp', !default_grow_set. case_decide as Hj; [done|]. f_equal.
    rewrite list_lookup_insert_ne by done. rewrite default_grow_set. by rewrite decide_False.
Qed.
End map_retry.

(** ** Witnesses *)

Definition keyword_ops : list (map_op Z) :=
  [MAdd 0 (MSingle (Some (VArray [VString "red"; VNumber 3%Z; VString "a/b"])));
   MAdd 2 (MSingle (Some (VString "red"))); MAdd 1 (MMultiple [VString "red"; VString "blue"]);
   MAdd 2 (MSingle (Some VNull)); MRemove 1].

Definition keyword_db : MemDB := {[ "color_map" := ∅ ]}.

Definition keyword_index : MapIndex string MemDB :=
  (sm_for (run_map_op keyword_get_value "color_map") keyword_ops (map_new keyword_db)).2.

