(* ===== verification/FieldIndexEnum.v ===== *)
(** * The field index sum type

    Models [FieldIndex] of
    [lib/segment/src/index/field_index/field_index_base.rs], which dispatches
    the trait [PayloadFieldIndex] and the [ValueIndexer] methods over the six
    kinds of index, and [index_selector.rs].

    The map indexes are those of [FieldIndex.v].  The numeric, geo and
    full-text indexes are arguments: each is a type with the trait's
    operations ([IndexOps]) and its lookup of the values of a point. *)

From stdpp Require Import base gmap strings list.
From Stdlib Require Import ZArith SpecFloat.
From S2P Require Import Prelude Types Rocks JsonPath Text Filters Estimator FieldIndex.

(** ** Schemas *)

Inductive TokenizerType : Type := Prefix | Whitespace | Word.

Record TextIndexParams := {
  tokenizer : TokenizerType;
  min_token_len : option nat;
  max_token_len : option nat;
  lowercase : option bool;
}.

Definition default_text_params : TextIndexParams :=
  {| tokenizer := Word; min_token_len := None; max_token_len := None; lowercase := None |}.

Inductive PayloadFieldSchema : Type :=
| FieldType (t : PayloadSchemaType)
| FieldParams (p : TextIndexParams).

(** ** The traits *)

(** [PayloadFieldIndex] together with the point updates of [ValueIndexer]. *)
Class IndexOps (Num I : Type) := {
  io_recreate : sm I OperationError unit;
  io_load : sm I OperationError bool;
  io_clear : I → OperationResult unit;
  io_filter : I → FieldCondition → option (list PointOffsetType);
  io_estimate_cardinality : I → FieldCondition → OperationResult (option CardinalityEstimation);
  io_payload_blocks : I → nat → PayloadKeyType → list PayloadBlockCondition;
  io_count_indexed_points : I → N;
  io_add_point : PointOffsetType → MultiValue (Value Num) → sm I OperationError unit;
  io_remove_point : PointOffsetType → sm I OperationError unit;
}.

(** [get_values] of an index of values [V]. *)
Class IndexValues (V I : Type) := index_get_values : I → PointOffsetType → option (list V).

(** The checks a full-text index offers: [parse_query(text)] and, on the
    document of a point if it has one, [check_match]. *)
Class TextChecks (I : Type) := text_check_match : I → string → PointOffsetType → bool.

(** A map index with the name of its column. *)
Record MapColumn (V DB : Type) `{Countable V} := mkMapColumn {
  mc_column : string;
  mc_index : MapIndex V DB;
}.
Arguments mkMapColumn {V DB _ _}.
Arguments mc_column {V DB _ _}.
Arguments mc_index {V DB _ _}.

Definition on_mc_index {V DB E A} `{Countable V} (m : string → sm (MapIndex V DB) E A) :
    sm (MapColumn V DB) E A :=
  λ s, sm_zoom mc_index (λ i s, mkMapColumn (mc_column s) i) (m (mc_column s)) s.

Section map_columns.
Context {Num DB : Type} `{!JsonNumber Num} {HDB : RocksDB DB}.

(** [recreate] and [load] of a map index.  A failed [load] aborts the opening
    of the segment, so the partly filled index it leaves is never read. *)
Definition map_recreate {V} `{Countable V} (column_name : string) :
    sm (MapIndex V DB) OperationError unit :=
  on_map_db (recreate_column_family column_name).

Definition map_load_sm {V} `{Countable V} `{!TextValue V} (column_name : string) :
    sm (MapIndex V DB) OperationError bool :=
  λ s, match map_load column_name s with
       | Ok (b, s') => (Ok b, s')
       | Err e => (Err e, s)
       | Panic => (Panic, s)
       end.

#[export] Instance keyword_index_ops : IndexOps Num (MapColumn string DB) := {|
  io_recreate := on_mc_index map_recreate;
  io_load := on_mc_index map_load_sm;
  io_clear s := (map_clear (mc_column s) (mc_index s)).1;
  io_filter s := keyword_filter (mc_index s);
  io_estimate_cardinality s condition := Ok (keyword_estimate_cardinality (mc_index s) condition);
  io_payload_blocks s := keyword_payload_blocks (mc_index s);
  io_count_indexed_points s := mi_indexed_points (mc_index s);
  io_add_point id payload := on_mc_index (λ column_name,
    vi_add_point (add_many_to_map column_name) keyword_get_value (map_remove_point column_name)
      id payload);
  io_remove_point id := on_mc_index (λ column_name, map_remove_point column_name id);
|}.

#[export] Instance integer_index_ops : IndexOps Num (MapColumn Z DB) := {|
  io_recreate := on_mc_index map_recreate;
  io_load := on_mc_index map_load_sm;
  io_clear s := (map_clear (mc_column s) (mc_index s)).1;
  io_filter s := integer_filter (mc_index s);
  io_estimate_cardinality s condition := Ok (integer_estimate_cardinality (mc_index s) condition);
  io_payload_blocks s := integer_payload_blocks (mc_index s);
  io_count_indexed_points s := mi_indexed_points (mc_index s);
  io_add_point id payload := on_mc_index (λ column_name,
    vi_add_point (add_many_to_map column_name) integer_get_value (map_remove_point column_name)
      id payload);
  io_remove_point id := on_mc_index (λ column_name, map_remove_point column_name id);
|}.

#[export] Instance map_column_values {V} `{Countable V} : IndexValues V (MapColumn V DB) :=
  λ s, map_get_values (mc_index s).
End map_columns.

(** ** [FieldIndex] *)

Inductive FieldIndex (NI NF GI TI DB : Type) : Type :=
| IntIndex (i : NI)
| IntMapIndex (i : MapColumn Z DB)
| KeywordIndex (i : MapColumn string DB)
| FloatIndex (i : NF)
| GeoIndex (i : GI)
| FullTextIndex (i : TI).
Arguments IntIndex {NI NF GI TI DB}.
Arguments IntMapIndex {NI NF GI TI DB}.
Arguments KeywordIndex {NI NF GI TI DB}.
Arguments FloatIndex {NI NF GI TI DB}.
Arguments GeoIndex {NI NF GI TI DB}.
Arguments FullTextIndex {NI NF GI TI DB}.

Section field_index.
Context {Num NI NF GI TI DB : Type} `{!JsonNumber Num} {HDB : RocksDB DB}.
Context `{!IndexOps Num NI, !IndexOps Num NF, !IndexOps Num GI, !IndexOps Num TI}.
Abbreviation FI := (FieldIndex NI NF GI TI DB).

(** Runs an operation of the index inside the variant. *)
Definition on_variant {I A} (wrap : I → FI) (i : I) (m : sm I OperationError A) :
    OperationResult A * FI :=
  let '(r, i') := m i in (r, wrap i').

Definition fi_load : sm FI OperationError bool := λ self,
  match self with
  | IntIndex i => on_variant IntIndex i (io_load (Num:=Num))
  | IntMapIndex i => on_variant IntMapIndex i (io_load (Num:=Num))
  | KeywordIndex i => on_variant KeywordIndex i (io_load (Num:=Num))
  | FloatIndex i => on_variant FloatIndex i (io_load (Num:=Num))
  | GeoIndex i => on_variant GeoIndex i (io_load (Num:=Num))
  | FullTextIndex i => on_variant FullTextIndex i (io_load (Num:=Num))
  end.

Definition fi_clear (self : FI) : OperationResult unit :=
  match self with
  | IntIndex i => io_clear (Num:=Num) i
  | IntMapIndex i => io_clear (Num:=Num) i
  | KeywordIndex i => io_clear (Num:=Num) i
  | FloatIndex i => io_clear (Num:=Num) i
  | GeoIndex i => io_clear (Num:=Num) i
  | FullTextIndex i => io_clear (Num:=Num) i
  end.

Definition fi_recreate : sm FI OperationError unit := λ self,
  match self with
  | IntIndex i => on_variant IntIndex i (io_recreate (Num:=Num))
  | IntMapIndex i => on_variant IntMapIndex i (io_recreate (Num:=Num))
  | KeywordIndex i => on_variant KeywordIndex i (io_recreate (Num:=Num))
  | FloatIndex i => on_variant FloatIndex i (io_recreate (Num:=Num))
  | GeoIndex i => on_variant GeoIndex i (io_recreate (Num:=Num))
  | FullTextIndex i => on_variant FullTextIndex i (io_recreate (Num:=Num))
  end.

Definition fi_filter (self : FI) (condition : FieldCondition) : option (list PointOffsetType) :=
  match self with
  | IntIndex i => io_filter (Num:=Num) i condition
  | IntMapIndex i => io_filter (Num:=Num) i condition
  | KeywordIndex i => io_filter (Num:=Num) i condition
  | FloatIndex i => io_filter (Num:=Num) i condition
  | GeoIndex i => io_filter (Num:=Num) i condition
  | FullTextIndex i => io_filter (Num:=Num) i condition
  end.

Definition fi_estimate_cardinality (self : FI) (condition : FieldCondition) :
    OperationResult (option CardinalityEstimation) :=
  match self with
  | IntIndex i => io_estimate_cardinality (Num:=Num) i condition
  | IntMapIndex i => io_estimate_cardinality (Num:=Num) i condition
  | KeywordIndex i => io_estimate_cardinality (Num:=Num) i condition
  | FloatIndex i => io_estimate_cardinality (Num:=Num) i condition
  | GeoIndex i => io_estimate_cardinality (Num:=Num) i condition
  | FullTextIndex i => io_estimate_cardinality (Num:=Num) i condition
  end.

Definition fi_payload_blocks (self : FI) (threshold : nat) (key : PayloadKeyType) :
    list PayloadBlockCondition :=
  match self with
  | IntIndex i => io_payload_blocks (Num:=Num) i threshold key
  | IntMapIndex i => io_payload_blocks (Num:=Num) i threshold key
  | KeywordIndex i => io_payload_blocks (Num:=Num) i threshold key
  | FloatIndex i => io_payload_blocks (Num:=Num) i threshold key
  | GeoIndex i => io_payload_blocks (Num:=Num) i threshold key
  | FullTextIndex i => io_payload_blocks (Num:=Num) i threshold key
  end.

Definition fi_count_indexed_points (self : FI) : N :=
  match self with
  | IntIndex i => io_count_indexed_points (Num:=Num) i
  | IntMapIndex i => io_count_indexed_points (Num:=Num) i
  | KeywordIndex i => io_count_indexed_points (Num:=Num) i
  | FloatIndex i => io_count_indexed_points (Num:=Num) i
  | GeoIndex i => io_count_indexed_points (Num:=Num) i
  | FullTextIndex i => io_count_indexed_points (Num:=Num) i
  end.

Definition fi_add_point (id : PointOffsetType) (payload : MultiValue (Value Num)) :
    sm FI OperationError unit := λ self,
  match self with
  | IntIndex i => on_variant IntIndex i (io_add_point id payload)
  | IntMapIndex i => on_variant IntMapIndex i (io_add_point id payload)
  | KeywordIndex i => on_variant KeywordIndex i (io_add_point id payload)
  | FloatIndex i => on_variant FloatIndex i (io_add_point id payload)
  | GeoIndex i => on_variant GeoIndex i (io_add_point id payload)
  | FullTextIndex i => on_variant FullTextIndex i (io_add_point id payload)
  end.

Definition fi_remove_point (point_id : PointOffsetType) : sm FI OperationError unit := λ self,
  match self with
  | IntIndex i => on_variant IntIndex i (io_remove_point (Num:=Num) point_id)
  | IntMapIndex i => on_variant IntMapIndex i (io_remove_point (Num:=Num) point_id)
  | KeywordIndex i => on_variant KeywordIndex i (io_remove_point (Num:=Num) point_id)
  | FloatIndex i => on_variant FloatIndex i (io_remove_point (Num:=Num) point_id)
  | GeoIndex i => on_variant GeoIndex i (io_remove_point (Num:=Num) point_id)
  | FullTextIndex i => on_variant FullTextIndex i (io_remove_point (Num:=Num) point_id)
  end.

(** [index_selector]; the constructors of the indexes that are arguments are
    arguments too. *)
Definition index_selector (new_int : DB → string → NI) (new_float : DB → string → NF)
    (new_geo : DB → string → GI) (new_text : DB → TextIndexParams → string → TI)
    (field : string) (payload_schema : PayloadFieldSchema) (db : DB) : list FI :=
  match payload_schema with
  | FieldType payload_type =>
      match payload_type with
      | Keyword => [KeywordIndex (mkMapColumn (map_cf_name field) (map_new db))]
      | Integer => [IntMapIndex (mkMapColumn (map_cf_name field) (map_new db));
                    IntIndex (new_int db field)]
      | Float => [FloatIndex (new_float db field)]
      | Geo => [GeoIndex (new_geo db field)]
      | Filters.Text => [FullTextIndex (new_text db default_text_params field)]
      end
  | FieldParams text_index_params => [FullTextIndex (new_text db text_index_params field)]
  end.
End field_index.
