(* ===== verification/QueryOptimizer.v ===== *)
(** * Filter optimization

    Models [lib/segment/src/index/query_optimization] and
    [struct_filter_context.rs]: the conversion of a condition into a checker
    that reads the field indexes where it can ([condition_converter.rs]), the
    reordering of the clauses by estimated cardinality ([optimizer.rs]) and
    the evaluation of the result ([optimized_filter.rs]).

    A [ConditionCheckerFn] is a function from point offsets to booleans.  The
    payload provider is the function from offsets to payloads it implements
    (a missing payload is the empty one, [payload_provider.rs]). *)

From stdpp Require Import base gmap strings list sorting.
From Stdlib Require Import ZArith Lia SpecFloat.
From S2P Require Import Prelude Types Rocks IdTracker JsonPath Text Filters Estimator FieldIndex FieldIndexEnum.

(** ** Stable sorting by a key *)

(** [slice::sort_by_key], a stable sort. *)
Fixpoint insert_by {A} (key : A → N) (x : A) (l : list A) : list A :=
  match l with
  | [] => [x]
  | y :: l' => if (key x <=? key y)%N then x :: l else y :: insert_by key x l'
  end.

Definition sort_by_key {A} (key : A → N) (l : list A) : list A := fold_right (insert_by key) [] l.

(** [sort_by_key(|x| Reverse(key(x)))] *)
Fixpoint insert_by_rev {A} (key : A → N) (x : A) (l : list A) : list A :=
  match l with
  | [] => [x]
  | y :: l' => if (key y <=? key x)%N then x :: l else y :: insert_by_rev key x l'
  end.

Definition sort_by_key_rev {A} (key : A → N) (l : list A) : list A :=
  fold_right (insert_by_rev key) [] l.

(** ** Optimized filters *)

Inductive OptimizedCondition : Type :=
| OChecker (checker : PointOffsetType → bool)
| OFilter (filter : OptimizedFilter)
with OptimizedFilter : Type :=
| mkOptimized (should must must_not : option (list OptimizedCondition)).

Fixpoint check_optimized_condition (condition : OptimizedCondition) (point_id : PointOffsetType) :
    bool :=
  match condition with
  | OFilter filter => check_optimized_filter filter point_id
  | OChecker checker => checker point_id
  end
with check_optimized_filter (filter : OptimizedFilter) (point_id : PointOffsetType) : bool :=
  match filter with
  | mkOptimized should must must_not =>
      match should with
      | None => true
      | Some conditions => existsb (λ c, check_optimized_condition c point_id) conditions
      end
      && match must with
         | None => true
         | Some conditions => forallb (λ c, check_optimized_condition c point_id) conditions
         end
      && match must_not with
         | None => true
         | Some conditions => forallb (λ c, negb (check_optimized_condition c point_id)) conditions
         end
  end.

(** ** Conversion of conditions *)

Section converter.
Context {Num NI NF GI TI DB T : Type} `{!JsonNumber Num} `{!GeoOps} {HDB : RocksDB DB}.
Context `{!IndexValues Z NI, !IndexValues spec_float NF, !IndexValues GeoPoint GI, !TextChecks TI}.
Context `{!IdTracker T}.
Abbreviation FI := (FieldIndex NI NF GI TI DB).
Abbreviation IndexesMap := (gmap PayloadKeyType (list FI)).

(** [match index.get_values(point_id) { None => false, Some(values) =>
    values.iter().any(p) }] *)
Definition any_value {V I} `{!IndexValues V I} (index : I) (p : V → bool) (point_id : PointOffsetType) :
    bool :=
  match index_get_values index point_id with
  | None => false
  | Some values => existsb p values
  end.

Definition get_geo_radius_checkers (index : FI) (geo_radius : GeoRadius) :
    option (PointOffsetType → bool) :=
  match index with
  | GeoIndex geo_index =>
      Some (any_value geo_index (λ p, radius_check_point geo_radius (lon p) (lat p)))
  | _ => None
  end.

Definition get_geo_bounding_box_checkers (index : FI) (geo_bounding_box : GeoBoundingBox) :
    option (PointOffsetType → bool) :=
  match index with
  | GeoIndex geo_index =>
      Some (any_value geo_index (λ p, bounding_box_check_point geo_bounding_box (lon p) (lat p)))
  | _ => None
  end.

(** [i as FloatPayloadType] *)
Definition f64_of_Z (i : Z) : spec_float := binary_normalize 53 1024 i 0 false.

Definition get_range_checkers (index : FI) (range : Range) : option (PointOffsetType → bool) :=
  match index with
  | IntIndex num_index => Some (any_value num_index (λ i, check_range range (f64_of_Z i)))
  | FloatIndex num_index => Some (any_value num_index (check_range range))
  | _ => None
  end.

Definition get_match_checkers (index : FI) (cond_match : Match) : option (PointOffsetType → bool) :=
  match cond_match with
  | MatchValue value_variant =>
      match value_variant, index with
      | VKeyword keyword, KeywordIndex index => Some (any_value index (λ k, bool_decide (k = keyword)))
      | VInteger value, IntMapIndex index => Some (any_value index (λ i, Z.eqb i value))
      | _, _ => None
      end
  | MatchText text =>
      match index with
      | FullTextIndex full_text_index => Some (text_check_match full_text_index text)
      | _ => None
      end
  | MatchAny any =>
      match any, index with
      | Keywords list, KeywordIndex index => Some (any_value index (λ k, bool_decide (k ∈ list)))
      | Integers list, IntMapIndex index => Some (any_value index (λ i, bool_decide (i ∈ list)))
      | _, _ => None
      end
  end.

(** The first kind of condition the index supports wins. *)
Definition field_condition_index (index : FI) (field_condition : FieldCondition) :
    option (PointOffsetType → bool) :=
  match fc_match field_condition ≫= get_match_checkers index with
  | Some checker => Some checker
  | None =>
      match fc_range field_condition ≫= get_range_checkers index with
      | Some checker => Some checker
      | None =>
          match fc_geo_radius field_condition ≫= get_geo_radius_checkers index with
          | Some checker => Some checker
          | None => fc_geo_bounding_box field_condition ≫= get_geo_bounding_box_checkers index
          end
      end
  end.

(** The offsets of the listed points that exist. *)
Definition mapped_ids (id_tracker : T) (has_id : gset PointIdType) : gset PointOffsetType :=
  list_to_set (omap (internal_id id_tracker) (elements has_id)).

(** On a nested filter the source is [unreachable!]; [optimize_condition]
    never calls it there. *)
Definition condition_converter (condition : Condition) (field_indexes : IndexesMap)
    (payload_provider : PointOffsetType → Payload Num) (id_tracker : T) : PointOffsetType → bool :=
  match condition with
  | CField field_condition =>
      match field_indexes !! fc_key field_condition ≫=
              λ indexes, head (omap (λ index, field_condition_index index field_condition) indexes) with
      | Some checker => checker
      | None => λ point_id, check_field_condition field_condition (payload_provider point_id)
      end
  | CIsEmpty key => λ point_id, check_is_empty_condition key (payload_provider point_id)
  | CIsNull key => λ point_id, check_is_null_condition key (payload_provider point_id)
  | CHasId has_id =>
      let segment_ids := mapped_ids id_tracker has_id in
      λ point_id, bool_decide (point_id ∈ segment_ids)
  | CFilter _ => λ _, false
  end.

(** ** The optimizer *)

Section optimizer.
Context (id_tracker : T) (field_indexes : IndexesMap) (payload_provider : PointOffsetType → Payload Num).
Context {E : Type} (estimator : Condition → result E CardinalityEstimation) (total : N).

Definition est_key (p : OptimizedCondition * CardinalityEstimation) : N := est_exp p.2.

(** The estimator may panic. *)
Fixpoint optimize_condition (condition : Condition) : result E (OptimizedCondition * CardinalityEstimation) :=
  match condition with
  | CFilter filter =>
      '(optimized_filter, estimation) ← optimize_filter filter;
      Ok (OFilter optimized_filter, estimation)
  | _ =>
      estimation ← estimator condition;
      let condition_checker :=
        condition_converter condition field_indexes payload_provider id_tracker in
      Ok (OChecker condition_checker, estimation)
  end
with optimize_filter (filter : Filter) : result E (OptimizedFilter * CardinalityEstimation) :=
  match filter with
  | mkFilter should must must_not =>
      should' ← match should with
        | Some ((_ :: _) as conditions) =>
            converted ← res_map optimize_condition conditions;
            (* more probable conditions first *)
            let converted := sort_by_key_rev est_key converted in
            Ok (Some (converted.*1, combine_should_estimations converted.*2 total))
        | _ => Ok None
        end;
      must' ← match must with
        | Some ((_ :: _) as conditions) =>
            converted ← res_map optimize_condition conditions;
            (* less probable conditions first *)
            let converted := sort_by_key est_key converted in
            Ok (Some (converted.*1, combine_must_estimations converted.*2 total))
        | _ => Ok None
        end;
      must_not' ← match must_not with
        | Some ((_ :: _) as conditions) =>
            converted ← res_map optimize_condition conditions;
            let converted := sort_by_key est_key converted in
            Ok (Some (converted.*1,
                  combine_must_estimations ((λ e, invert_estimation e total) <$> converted.*2) total))
        | _ => Ok None
        end;
      let filter_estimations :=
        omap (fmap (M:=option) snd) [should'; must'; must_not'] in
      Ok (mkOptimized (fst <$> should') (fst <$> must') (fst <$> must_not'),
          combine_must_estimations filter_estimations total)
  end.

(** [StructFilterContext::new]; its [check] is [check_optimized_filter]. *)
Definition struct_filter_context (filter : Filter) : result E OptimizedFilter :=
  '(optimized_filter, _) ← optimize_filter filter;
  Ok optimized_filter.
End optimizer.

(** The conversion for an estimator that does not panic. *)
Section reference.
Context (id_tracker : T) (field_indexes : IndexesMap) (payload_provider : PointOffsetType → Payload Num).
Context (estimator : Condition → CardinalityEstimation) (total : N).

Fixpoint optimized_condition (condition : Condition) : OptimizedCondition * CardinalityEstimation :=
  match condition with
  | CFilter filter =>
      let '(optimized_filter, estimation) := optimized_filter_of filter in
      (OFilter optimized_filter, estimation)
  | _ =>
      let estimation := estimator condition in
      let condition_checker :=
        condition_converter condition field_indexes payload_provider id_tracker in
      (OChecker condition_checker, estimation)
  end
with optimized_filter_of (filter : Filter) : OptimizedFilter * CardinalityEstimation :=
  match filter with
  | mkFilter should must must_not =>
      let should' := match should with
        | Some ((_ :: _) as conditions) =>
            (* more probable conditions first *)
            let converted := sort_by_key_rev est_key (map optimized_condition conditions) in
            Some (converted.*1, combine_should_estimations converted.*2 total)
        | _ => None
        end in
      let must' := match must with
        | Some ((_ :: _) as conditions) =>
            (* less probable conditions first *)
            let converted := sort_by_key est_key (map optimized_condition conditions) in
            Some (converted.*1, combine_must_estimations converted.*2 total)
        | _ => None
        end in
      let must_not' := match must_not with
        | Some ((_ :: _) as conditions) =>
            let converted := sort_by_key est_key (map optimized_condition conditions) in
            Some (converted.*1,
                  combine_must_estimations ((λ e, invert_estimation e total) <$> converted.*2) total)
        | _ => None
        end in
      let filter_estimations :=
        omap (fmap (M:=option) snd) [should'; must'; must_not'] in
      (mkOptimized (fst <$> should') (fst <$> must') (fst <$> must_not'),
       combine_must_estimations filter_estimations total)
  end.

End reference.
End converter.

(** ** Sorting and lists of conditions *)

Lemma insert_by_perm {A} (key : A → N) x l : insert_by key x l ≡ₚ x :: l.
Proof.
  induction l as [|y l IH]; simpl; [done|]. destruct (_ <=? _)%N; [done|]. rewrite IH. constructor.
Qed.

Lemma insert_by_rev_perm {A} (key : A → N) x l : insert_by_rev key x l ≡ₚ x :: l.
Proof.
  induction l as [|y l IH]; simpl; [done|]. destruct (_ <=? _)%N; [done|]. rewrite IH. constructor.
Qed.

Lemma sort_by_key_perm {A} (key : A → N) l : sort_by_key key l ≡ₚ l.
Proof. induction l as [|x l IH]; simpl; [done|]. by rewrite insert_by_perm, IH. Qed.

Lemma sort_by_key_rev_perm {A} (key : A → N) l : sort_by_key_rev key l ≡ₚ l.
Proof. induction l as [|x l IH]; simpl; [done|]. by rewrite insert_by_rev_perm, IH. Qed.

Lemma existsb_perm {A} (f : A → bool) l k : l ≡ₚ k → existsb f l = existsb f k.
Proof. induction 1 as [|x l k _ IH|x y l|l k m _ IH1 _ IH2]; simpl; [done|by rewrite IH| |congruence].
  destruct (f x), (f y); done. Qed.

Lemma forallb_perm {A} (f : A → bool) l k : l ≡ₚ k → forallb f l = forallb f k.
Proof. induction 1 as [|x l k _ IH|x y l|l k m _ IH1 _ IH2]; simpl; [done|by rewrite IH| |congruence].
  destruct (f x), (f y); done. Qed.

Lemma existsb_fmap {A B} (f : B → bool) (g : A → B) l : existsb f (g <$> l) = existsb (f ∘ g) l.
Proof. induction l as [|x l IH]; [done|]. rewrite fmap_cons. cbn [existsb]. by rewrite IH. Qed.

Lemma forallb_fmap {A B} (f : B → bool) (g : A → B) l : forallb f (g <$> l) = forallb (f ∘ g) l.
Proof. induction l as [|x l IH]; [done|]. rewrite fmap_cons. cbn [forallb]. by rewrite IH. Qed.

Lemma existsb_bind {A B} (f : B → bool) (g : A → list B) l :
  existsb f (l ≫= g) = existsb (λ x, existsb f (g x)) l.
Proof. induction l as [|x l IH]; [done|]. rewrite bind_cons, existsb_app. cbn [existsb]. by rewrite IH. Qed.

(** At most one of the conditions of a field condition is present. *)
Definition one_condition (fc : FieldCondition) : bool :=
  match fc_match fc, fc_range fc, fc_geo_bounding_box fc, fc_geo_radius fc, fc_values_count fc with
  | _, None, None, None, None | None, _, None, None, None | None, None, _, None, None
  | None, None, None, _, None | None, None, None, None, _ => true
  | _, _, _, _, _ => false
  end.

(** What the conversion gives is what it would give without panics. *)
Section outcome.
Context {Num NI NF GI TI DB T : Type} `{!JsonNumber Num} `{!GeoOps} {HDB : RocksDB DB}.
Context `{!IndexValues Z NI, !IndexValues spec_float NF, !IndexValues GeoPoint GI, !TextChecks TI} `{!IdTracker T}.
Context (t : T) (idx : gmap PayloadKeyType (list (FieldIndex NI NF GI TI DB))) (provider : PointOffsetType → Payload Num).
Context {E : Type} (est : Condition → result E CardinalityEstimation) (f : Condition → CardinalityEstimation) (n : N).

Lemma res_map_reference {A B} (g : A → result E B) (h : A → B) l ys :
  Forall (λ x, ∀ y, g x = Ok y → y = h x) l → res_map g l = Ok ys → ys = map h l.
Proof.
  intros HF. revert ys. induction HF as [|x l Hx _ IH]; intros ys; cbn; [by intros [= <-]|].
  destruct (g x) as [y|e|]; [|done..]. cbn. destruct (res_map g l) as [zs|e|]; [|done..]. cbn. intros [= <-].
  by rewrite (Hx y), (IH zs).
Qed.

Lemma optimize_condition_reference c r :
  (∀ c e, est c = Ok e → e = f c) → optimize_condition t idx provider est n c = Ok r →
  r = optimized_condition t idx provider f n c.
Proof.
  intros Hf. revert r. induction c as [fc|k|k|s|s m nn Hs Hm Hn] using condition_ind_nested; intros r;
    try (cbn; match goal with |- context [est ?c] => destruct (est c) as [e|e|] eqn:He end; [|done..]; cbn;
         intros [= <-]; by rewrite (Hf _ _ He)).
  pose proof (λ l ys, res_map_reference (optimize_condition t idx provider est n) (optimized_condition t idx provider f n) l ys) as Hmap.
  assert (∀ l ys, Forall (λ c, ∀ r, optimize_condition t idx provider est n c = Ok r →
      r = optimized_condition t idx provider f n c) l →
    res_map (optimize_condition t idx provider est n) l = Ok ys → ys = map (optimized_condition t idx provider f n) l) as Hall
    by (intros; by apply Hmap).
  cbn [optimize_condition optimize_filter optimized_condition optimized_filter_of].
  destruct s as [[|cs ls]|], m as [[|cm lm]|], nn as [[|cn ln]|]; cbn [opt_list] in *;
    repeat match goal with |- context [res_map ?g (?c :: ?l)] =>
      let ys := fresh in let Hys := fresh in destruct (res_map g (c :: l)) as [ys| |] eqn:Hys;
        [apply Hall in Hys; [subst ys|done]; cbn [mbind result_bind]|by cbn|by cbn] end; cbn; by intros [= <-].
Qed.

(** It gives something when the estimator does not panic on the leaves. *)
Lemma optimize_condition_Ok (p : Condition → bool) c :
  (∀ c, is_leaf c = true → p c = true → est c = Ok (f c)) → all_leaves p c = true →
  optimize_condition t idx provider est n c = Ok (optimized_condition t idx provider f n c).
Proof.
  intros Hf. induction c as [fc|k|k|s|s m nn Hs Hm Hn] using condition_ind_nested;
    try (intros Hp; cbn; by rewrite Hf).
  intros [[Hs' Hm']%andb_true_iff Hn']%andb_true_iff.
  assert (∀ l, Forall (λ c, all_leaves p c = true → optimize_condition t idx provider est n c = Ok (optimized_condition t idx provider f n c)) l →
    forallb (all_leaves p) l = true →
    res_map (optimize_condition t idx provider est n) l = Ok (map (optimized_condition t idx provider f n) l)) as Hmap.
  { intros l HF Hl. apply res_map_Ok. intros c Hc. rewrite Forall_forall in HF. apply HF; [done|].
    by apply (proj1 (forallb_forall _ _) Hl), list_elem_of_In. }
  cbn [optimize_condition optimize_filter optimized_condition optimized_filter_of].
  destruct s as [[|cs ls]|], m as [[|cm lm]|], nn as [[|cn ln]|]; cbn [opt_list] in *; by rewrite ?Hmap by done.
Qed.
End outcome.

(** ** Equivalence with the plain evaluation *)

(** The estimations of an estimator, where it gives one. *)
Definition estimated {E} (est : Condition → result E CardinalityEstimation) (c : Condition) : CardinalityEstimation :=
  match est c with Ok e => e | _ => estimation_exact 0 end.

Section equivalence.
Context {Num NI NF GI TI DB T : Type} `{!JsonNumber Num} `{!GeoOps} {HDB : RocksDB DB}.
Context `{!IndexValues Z NI, !IndexValues spec_float NF, !IndexValues GeoPoint GI, !TextChecks TI}.
Context `{!IdTracker T, !IdTrackerLaws T}.
Abbreviation FI := (FieldIndex NI NF GI TI DB).
Abbreviation IndexesMap := (gmap PayloadKeyType (list FI)).
Context (id_tracker : T) (field_indexes : IndexesMap) (payload_provider : PointOffsetType → Payload Num).
Context {E : Type} (estimator : Condition → result E CardinalityEstimation) (total : N).

Abbreviation optimize_c := (optimized_condition id_tracker field_indexes payload_provider (estimated estimator) total).
Abbreviation convert c := (condition_converter c field_indexes payload_provider id_tracker).

Lemma optimize_nested f :
  optimize_c (CFilter f) =
    let '(o, e) := optimized_filter_of id_tracker field_indexes payload_provider (estimated estimator) total f in
    (OFilter o, e).
Proof. done. Qed.

(** Reordering the clauses and dropping the empty ones changes nothing,
    whatever the estimations are, as long as the leaves agree. *)
Lemma optimize_condition_check p i (checker : Condition → bool) c :
  (∀ c', is_leaf c' = true → p c' = true → convert c' i = checker c') →
  all_leaves p c = true → no_empty_should c = true →
  check_optimized_condition (optimize_c c).1 i = check_condition checker c.
Proof.
  intros Hleaf. induction c as [fc|k|k|s|s m n Hs Hm Hn] using condition_ind_nested; intros Hp Hne;
    try by apply Hleaf.
  assert (∀ l, Forall (λ c, all_leaves p c = true → no_empty_should c = true →
      check_optimized_condition (optimize_c c).1 i = check_condition checker c) l →
    forallb (all_leaves p) l = true → forallb no_empty_should l = true →
    Forall (λ c, check_optimized_condition (optimize_c c).1 i = check_condition checker c) l) as Hl.
  { intros l. induction 1 as [|x l Hx _ IH]; intros Hb1 Hb2; [constructor|]. simpl in Hb1, Hb2.
    apply andb_true_iff in Hb1 as [? ?], Hb2 as [? ?]. constructor; auto. }
  cbn [all_leaves] in Hp. apply andb_true_iff in Hp as [[Hps Hpm]%andb_true_iff Hpn].
  cbn [no_empty_should no_empty_should_filter] in Hne.
  apply andb_true_iff in Hne as [[Hns Hnm]%andb_true_iff Hnn].
  assert (∀ l, Forall (λ c, check_optimized_condition (optimize_c c).1 i = check_condition checker c) l →
    existsb (λ c, check_optimized_condition c i) (map optimize_c l).*1 = existsb (check_condition checker) l) as He.
  { intros l Hf. change (map optimize_c l) with (optimize_c <$> l). rewrite <-list_fmap_compose, existsb_fmap.
    by apply existsb_ext_in. }
  cbn [optimized_condition optimized_filter_of fst check_optimized_condition check_optimized_filter
       check_condition check_filter].
  f_equal; [f_equal|].
  - destruct s as [[|c l]|]; [done| |done]. cbn [fmap option_fmap option_map fst].
    rewrite (existsb_perm _ _ _ (fmap_Permutation fst _ _ (sort_by_key_rev_perm est_key _))).
    apply He. by apply Hl.
  - destruct m as [[|c l]|]; [done| |done]. cbn [fmap option_fmap option_map fst].
    rewrite (forallb_perm _ _ _ (fmap_Permutation fst _ _ (sort_by_key_perm est_key _))).
    change (map optimize_c (c :: l)) with (optimize_c <$> (c :: l)).
    rewrite <-list_fmap_compose, forallb_fmap. apply forallb_ext_in. by apply Hl.
  - destruct n as [[|c l]|]; [done| |done]. cbn [fmap option_fmap option_map fst].
    rewrite (forallb_perm _ _ _ (fmap_Permutation fst _ _ (sort_by_key_perm est_key _))).
    rewrite !forallb_negb. f_equal. apply He. by apply Hl.
Qed.

(** *** Leaves *)

(** The field conditions of interest have a single condition. *)
Context (fc_ok : FieldCondition → bool) (fc_ok_one : ∀ fc, fc_ok fc = true → one_condition fc = true).

Definition leaf_ok (c : Condition) : bool :=
  match c with CField fc => fc_ok fc | _ => true end.

(** An index on [key] reflects the payloads.  For a map index: the values of
    each point are the indexable values of the field.  For the other kinds:
    the checkers they offer agree with the payload. *)
Definition index_reflects (key : PayloadKeyType) (index : FI) : Prop :=
  match index with
  | KeywordIndex s => ∀ i, map_values (mc_index s) i =
      indexed_values keyword_get_value (payload_get_value (payload_provider i) key)
  | IntMapIndex s => ∀ i, map_values (mc_index s) i =
      indexed_values integer_get_value (payload_get_value (payload_provider i) key)
  | _ => ∀ fc chk i, fc_key fc = key → fc_ok fc = true →
      field_condition_index index fc = Some chk →
      chk i = check_field_condition fc (payload_provider i)
  end.

Lemma value_check_elems {V} (get_value : Value Num → option V) (p : V → bool) (check : Value Num → bool) v :
  (∀ v, check v = existsb p (option_list (get_value v))) →
  value_check check v = existsb p (value_elems get_value v).
Proof.
  intros Hm. destruct v as [| | | |a|]; try apply Hm. simpl.
  induction a as [|x a IH]; [done|]. simpl. rewrite Hm, IH. by destruct (get_value x); simpl; rewrite ?orb_false_r.
Qed.

(** A condition that is only a match, evaluated on the values of an index. *)
Lemma check_match_values {V} (get_value : Value Num → option V) (p : V → bool) (m : Match) fc mv :
  fc_match fc = Some m → one_condition fc = true →
  (∀ v, match_check_match m v = existsb p (option_list (get_value v))) →
  existsb (check_field_value fc) (mv_values mv) = existsb p (indexed_values get_value mv).
Proof.
  intros Hfc Hone Hm. unfold indexed_values.
  rewrite existsb_bind. apply existsb_ext_in, Forall_forall. intros v _.
  unfold check_field_value, one_condition in *. rewrite Hfc in *.
  destruct (fc_range fc), (fc_geo_bounding_box fc), (fc_geo_radius fc), (fc_values_count fc); try done.
  simpl. rewrite !orb_false_r. by apply value_check_elems.
Qed.

(** A condition that is only a range. *)
Lemma check_range_values {V} (get_value : Value Num → option V) (p : V → bool) (r : Range) fc mv :
  fc_range fc = Some r → one_condition fc = true →
  (∀ v, range_check_match r v = existsb p (option_list (get_value v))) →
  existsb (check_field_value fc) (mv_values mv) = existsb p (indexed_values get_value mv).
Proof.
  intros Hfc Hone Hm. unfold indexed_values.
  rewrite existsb_bind. apply existsb_ext_in, Forall_forall. intros v _.
  unfold check_field_value, one_condition in *. rewrite Hfc in *.
  destruct (fc_match fc), (fc_geo_bounding_box fc), (fc_geo_radius fc), (fc_values_count fc); try done.
  simpl. rewrite !orb_false_r. by apply value_check_elems.
Qed.

Lemma any_value_default {V} `{Countable V} (s : MapColumn V DB) p i :
  any_value s p i = existsb p (map_values (mc_index s) i).
Proof.
  unfold any_value, index_get_values, map_column_values, map_values. by destruct (map_get_values _ _).
Qed.

Lemma existsb_option_list {V} (p : V → bool) o :
  existsb p (option_list o) = match o with Some x => p x | None => false end.
Proof. destruct o; simpl; [apply orb_false_r|done]. Qed.

(** The checkers of the map indexes. *)
Lemma integer_checker_values (s : MapColumn Z DB) fc chk i mv :
  one_condition fc = true → map_values (mc_index s) i = indexed_values integer_get_value mv →
  field_condition_index (NI:=NI) (NF:=NF) (GI:=GI) (TI:=TI) (IntMapIndex s) fc = Some chk →
  chk i = existsb (check_field_value fc) (mv_values mv).
Proof.
  intros Hone Hr Hchk. unfold field_condition_index in Hchk. cbn -[Z.eqb] in Hchk.
  assert ((fc_match fc ≫= get_match_checkers (NI:=NI) (NF:=NF) (GI:=GI) (TI:=TI) (IntMapIndex s)) = Some chk) as Hm.
  { destruct (fc_match fc ≫= _); [done|]. by destruct (fc_range fc), (fc_geo_radius fc), (fc_geo_bounding_box fc). }
  clear Hchk. destruct (fc_match fc) as [m|] eqn:Hfc; [|done]. cbn in Hm.
  destruct m as [[k|z|b]|t|[l|l]]; simplify_eq/=; rewrite any_value_default, Hr; symmetry;
    (eapply check_match_values; [exact Hfc|done|]); intros v; rewrite existsb_option_list;
    destruct v; try done; unfold map_or; simpl; by destruct (as_i64 _).
Qed.

Lemma keyword_checker_values (s : MapColumn string DB) fc chk i mv :
  one_condition fc = true → map_values (mc_index s) i = indexed_values keyword_get_value mv →
  field_condition_index (NI:=NI) (NF:=NF) (GI:=GI) (TI:=TI) (KeywordIndex s) fc = Some chk →
  chk i = existsb (check_field_value fc) (mv_values mv).
Proof.
  intros Hone Hr Hchk. unfold field_condition_index in Hchk. cbn -[Z.eqb] in Hchk.
  assert ((fc_match fc ≫= get_match_checkers (NI:=NI) (NF:=NF) (GI:=GI) (TI:=TI) (KeywordIndex s)) = Some chk) as Hm.
  { destruct (fc_match fc ≫= _); [done|]. by destruct (fc_range fc), (fc_geo_radius fc), (fc_geo_bounding_box fc). }
  clear Hchk. destruct (fc_match fc) as [m|] eqn:Hfc; [|done]. cbn in Hm.
  destruct m as [[k|z|b]|t|[l|l]]; simplify_eq/=; rewrite any_value_default, Hr; symmetry;
    (eapply check_match_values; [exact Hfc|done|]); intros v; rewrite existsb_option_list;
    by destruct v.
Qed.

Lemma field_condition_index_reflects key index fc chk i :
  index_reflects key index → fc_key fc = key → fc_ok fc = true →
  field_condition_index index fc = Some chk → chk i = check_field_condition fc (payload_provider i).
Proof using fc_ok_one.
  intros Hr Hkey Hok Hchk. pose proof (fc_ok_one fc Hok) as Hone.
  destruct index as [n|s|s|n|g|t]; try (by eapply Hr); rewrite check_field_condition_existsb, Hkey;
    [by eapply integer_checker_values|by eapply keyword_checker_values].
Qed.

Lemma elem_of_mapped_ids has_id i :
  tracker_wf id_tracker →
  i ∈ mapped_ids id_tracker has_id ↔ ∃ e, external_id id_tracker i = Some e ∧ e ∈ has_id.
Proof.
  intros Hwf. unfold mapped_ids. rewrite elem_of_list_to_set, list_elem_of_omap.
  setoid_rewrite elem_of_elements. split.
  - intros (e & He & Hi). exists e. by rewrite <-internal_external.
  - intros (e & He & Hin). exists e. by rewrite internal_external.
Qed.

(** A converted leaf agrees with the plain checker of the point. *)
Lemma convert_leaf c i :
  tracker_wf id_tracker →
  (∀ key indexes, field_indexes !! key = Some indexes → Forall (index_reflects key) indexes) →
  is_leaf c = true → leaf_ok c = true →
  convert c i = payload_checker (payload_provider i) (external_id id_tracker i) c.
Proof using fc_ok_one IdTrackerLaws0.
  intros Hwf Hidx Hleaf Hok. destruct c as [fc|k|k|ids|f]; [| done|done| |done].
  - cbn [condition_converter payload_checker leaf_ok] in *.
    destruct (field_indexes !! fc_key fc) as [indexes|] eqn:Hf; [|done]. cbn [mbind option_bind].
    destruct (head (omap _ indexes)) as [chk|] eqn:Hh; [|done]. apply head_Some_elem_of in Hh.
    apply list_elem_of_omap in Hh as (index & Hin & Hchk). specialize (Hidx _ _ Hf).
    rewrite Forall_forall in Hidx. by apply (field_condition_index_reflects (fc_key fc) index); auto.
  - cbn [condition_converter payload_checker]. destruct (external_id id_tracker i) as [e|] eqn:He.
    + apply bool_decide_ext. rewrite elem_of_mapped_ids by done. rewrite He. naive_solver.
    + apply bool_decide_eq_false_2. rewrite elem_of_mapped_ids by done. rewrite He. by intros (? & ? & _).
Qed.

Abbreviation context := (struct_filter_context id_tracker field_indexes payload_provider estimator total).

Lemma optimize_filter_nested filter :
  optimize_condition id_tracker field_indexes payload_provider estimator total (CFilter filter) =
  '(o, e) ← optimize_filter id_tracker field_indexes payload_provider estimator total filter; Ok (OFilter o, e).
Proof. done. Qed.

Lemma filter_context_check filter ctx i :
  tracker_wf id_tracker →
  (∀ key indexes, field_indexes !! key = Some indexes → Forall (index_reflects key) indexes) →
  no_empty_should_filter filter = true → all_leaves leaf_ok (CFilter filter) = true →
  context filter = Ok ctx →
  check_optimized_filter ctx i = check_payload (payload_provider i) (external_id id_tracker i) filter.
Proof using fc_ok_one IdTrackerLaws0.
  intros Hwf Hidx Hne Hone. unfold struct_filter_context, check_payload.
  pose proof (optimize_condition_check leaf_ok i
    (payload_checker (payload_provider i) (external_id id_tracker i)) (CFilter filter)) as Heq.
  destruct (optimize_filter _ _ _ _ _ filter) as [[o e]|err|] eqn:Ho; [|done..]. intros [= ->].
  rewrite <-(optimize_condition_reference id_tracker field_indexes payload_provider estimator (estimated estimator) total
    (CFilter filter) (OFilter ctx, e)) in Heq.
  - apply Heq; [|done|done]. intros c Hc Hp. by apply convert_leaf.
  - intros c e' He. unfold estimated. by rewrite He.
  - by rewrite optimize_filter_nested, Ho.
Qed.

Lemma filter_context_Ok (p : Condition → bool) filter :
  (∀ c, is_leaf c = true → p c = true → ∃ e, estimator c = Ok e) → all_leaves p (CFilter filter) = true →
  ∃ ctx, context filter = Ok ctx.
Proof.
  intros Hest Hp. unfold struct_filter_context.
  pose proof (optimize_condition_Ok id_tracker field_indexes payload_provider estimator (estimated estimator) total p (CFilter filter)) as Ho.
  rewrite optimize_filter_nested in Ho. destruct (optimize_filter _ _ _ _ _ filter) as [[o e]|err|]; [eauto|..];
    (exfalso; cbn in Ho; by discriminate Ho; [|done]; intros c Hc Hpc; destruct (Hest c Hc Hpc) as [x Hx]; unfold estimated; rewrite Hx).
Qed.

(** C36: the optimized filter selects the same points as the plain evaluation
    of the filter on the payloads.  The field indexes may be used for any
    condition, the clauses are reordered by whatever cardinalities the
    estimator gives, and [HasId] is translated to offsets; the result is the
    same for every point, provided the indexes reflect the payloads, no
    [should] clause is empty and each field condition is a single one (of
    the kind [fc_ok] for which the indexes other than the map indexes, which
    are arguments here, offer exact checkers).  And there is an optimized
    filter whenever the estimator does not panic on a condition. *)
Theorem optimized_filter_equiv (filter : Filter)
  (Hwf : tracker_wf id_tracker)
  (Hidx : ∀ key indexes, field_indexes !! key = Some indexes → Forall (index_reflects key) indexes)
  (Hne : no_empty_should_filter filter = true)
  (Hone : all_leaves leaf_ok (CFilter filter) = true) :
  (∀ ctx, struct_filter_context id_tracker field_indexes payload_provider estimator total filter = Ok ctx →
    ∀ i, check_optimized_filter ctx i = check_payload (payload_provider i) (external_id id_tracker i) filter) ∧
  ((∀ c, is_leaf c = true → leaf_ok c = true → ∃ e, estimator c = Ok e) →
    ∃ ctx, struct_filter_context id_tracker field_indexes payload_provider estimator total filter = Ok ctx).
Proof using fc_ok_one IdTrackerLaws0.
  split; [intros ctx Hctx i; by apply filter_context_check|]. intros Hest. by apply (filter_context_Ok leaf_ok).
Qed.

(** An empty [should] clause is where the two evaluations part.  The plain
    one wants some condition of the list to hold, so a filter with only an
    empty [should] matches no point; the optimizer drops the clause, and its
    result for the same filter matches every point. *)
Lemma empty_should_diverges (i : PointOffsetType) :
  let filter := mkFilter (Some []) None None in
  check_payload (payload_provider i) (external_id id_tracker i) filter = false ∧
  check_optimized_filter (mkOptimized None None None) i = true ∧ context filter = Ok (mkOptimized None None None).
Proof. done. Qed.

(** When the field of a condition has a keyword index and the condition
    asks for a keyword, the other requirements of the same condition (range,
    geo, count) are ignored by the optimized checker, although the plain
    evaluation accepts a point that meets any of them. *)
Lemma indexed_condition_first_only (fc : FieldCondition) (s : MapColumn string DB) indexes k i
  (Hindexes : field_indexes !! fc_key fc = Some (KeywordIndex s :: indexes))
  (Hreflects : index_reflects (fc_key fc) (KeywordIndex s))
  (Hmatch : fc_match fc = Some (MatchValue (VKeyword k))) :
  convert (CField fc) i =
    check_field_condition (new_match (fc_key fc) (MatchValue (VKeyword k))) (payload_provider i) ∧
  check_field_condition fc (payload_provider i) =
    convert (CField fc) i ||
    existsb (λ v, map_or false (λ c, value_check (range_check_match c) v) (fc_range fc)
      || map_or false (λ c, value_check (radius_check_match c) v) (fc_geo_radius fc)
      || map_or false (λ c, value_check (bounding_box_check_match c) v) (fc_geo_bounding_box fc)
      || map_or false (λ c, check_count c v) (fc_values_count fc))
      (mv_values (payload_get_value (payload_provider i) (fc_key fc))).
Proof.
  assert (convert (CField fc) i =
    check_field_condition (new_match (fc_key fc) (MatchValue (VKeyword k))) (payload_provider i)) as Hc.
  { cbn [condition_converter]. rewrite Hindexes. cbn [mbind option_bind omap list_omap].
    unfold field_condition_index at 1. rewrite Hmatch. cbn [mbind option_bind get_match_checkers head].
    rewrite any_value_default, Hreflects, check_field_condition_existsb. symmetry.
    apply (check_match_values keyword_get_value _ (MatchValue (VKeyword k)) (new_match (fc_key fc) (MatchValue (VKeyword k))));
      [done|done|]. intros v. rewrite existsb_option_list. by destruct v. }
  split; [exact Hc|]. rewrite Hc, !check_field_condition_existsb.
  cbn [new_match fc_key]. generalize (mv_values (payload_get_value (payload_provider i) (fc_key fc))) as l.
  intros l. induction l as [|v l IH]; [done|]. cbn [existsb]. rewrite IH.
  unfold check_field_value at 1 3. rewrite Hmatch. cbn [new_match fc_match fc_range fc_geo_radius
    fc_geo_bounding_box fc_values_count map_or]. rewrite !orb_false_r.
  destruct (value_check (match_check_match _) v); [done|]. cbn [orb].
  match goal with |- context [existsb ?f l || existsb ?g l] => set (A := existsb f l); set (B := existsb g l) end.
  repeat match goal with |- context [map_or ?a ?f ?c] => destruct (map_or a f c) end;
    by destruct A, B.
Qed.
End equivalence.

(** ** Witnesses *)

#[local] Existing Instance integer_numbers.
#[local] Instance no_values {V} : IndexValues V Empty_set := λ i, match i with end.
#[local] Instance no_text : TextChecks Empty_set := λ i, match i with end.
#[local] Instance flat_geo : GeoOps := {| haversine_distance _ _ := S754_zero false |}.

Definition color_payload (i : PointOffsetType) : Payload Z :=
  match i with
  | 0 => {[ "color" := VString "red" ]}
  | 1 => {[ "color" := VArray [VString "blue"; VString "green"] ]}
  | _ => ∅
  end.

Definition color_index : MapIndex string MemDB :=
  (sm_for (run_map_op keyword_get_value "color_map")
     [MAdd 0 (payload_get_value (color_payload 0) "color");
      MAdd 1 (payload_get_value (color_payload 1) "color")] (map_new keyword_db)).2.

Abbreviation ColorIndex := (FieldIndex Empty_set Empty_set Empty_set Empty_set MemDB).

Definition color_indexes : gmap string (list ColorIndex) :=
  {[ "color" := [KeywordIndex (mkMapColumn "color_map" color_index)] ]}.

Lemma color_index_reflects :
  index_reflects (NI:=Empty_set) (NF:=Empty_set) (GI:=Empty_set) (TI:=Empty_set) color_payload
    one_condition "color"
    (KeywordIndex (mkMapColumn "color_map" color_index)).
Proof. intros [|[|i]]; vm_compute; reflexivity. Qed.

(** blue, or one of the listed ids *)
Definition color_filter : Filter :=
  mkFilter (Some [CField (new_match "color" (MatchValue (VKeyword "blue"))); CHasId {[ NumId 7 ]}])
    None (Some [CIsNull "color"]).

Lemma optimized_filter_equiv_witness :
  ∃ ctx, struct_filter_context (E:=unit) sample_tracker color_indexes color_payload (λ _, Ok (estimation_unknown 2)) 2
    color_filter = Ok ctx ∧
    check_optimized_filter ctx 1 = check_payload (color_payload 1) (simple_external_id sample_tracker 1) color_filter ∧
    check_optimized_filter ctx 1 = true.
Proof.
  destruct (optimized_filter_equiv (E:=unit) sample_tracker color_indexes color_payload
    (λ _, Ok (estimation_unknown 2)) 2 one_condition (λ _ H, H) color_filter) as [Heq Hex].
  - apply sample_tracker_wf.
  - unfold color_indexes. intros key indexes [<- <-]%lookup_singleton_Some. repeat constructor. apply color_index_reflects.
  - by vm_compute.
  - by vm_compute.
  - destruct Hex as [ctx Hctx]; [eauto|]. exists ctx. split; [exact Hctx|]. split; [exact (Heq ctx Hctx 1)|].
    rewrite (Heq ctx Hctx 1). vm_compute. reflexivity.
Defined.

(** red, or two values at least *)
Definition red_or_two : FieldCondition :=
  {| fc_key := "color"; fc_match := Some (MatchValue (VKeyword "red")); fc_range := None;
     fc_geo_bounding_box := None; fc_geo_radius := None;
     fc_values_count := Some {| count_lt := None; count_gt := None; count_gte := Some 2; count_lte := None |} |}.

