(* ===== verification/VisitedPool.v ===== *)
(** * Visited lists

    Models [lib/segment/src/index/visited_pool.rs]: lists that mark the
    points a query has visited, reused across queries by moving to a new
    iteration number instead of clearing them, and the pool they are borrowed
    from.  A lock acquisition is one step; concurrent queries hold distinct
    lists.  The iteration counter is unbounded. *)

From stdpp Require Import base sets list.
From Stdlib Require Import Lia.
From S2P Require Import Prelude Types.

Definition POOL_KEEP_LIMIT : nat := 16.

Record VisitedList := mkVisited {
  current_iter : nat;
  visit_counters : list nat;
}.

Definition visited_new (num_points : nat) : VisitedList := mkVisited 1 (replicate num_points 0).

Definition visited_check (self : VisitedList) (point_id : PointOffsetType) : bool :=
  match visit_counters self !! point_id with
  | Some x => current_iter self <=? x
  | None => false
  end.

(** Returns whether the point was visited before. *)
Definition check_and_update_visited {E} (point_id : PointOffsetType) : sm VisitedList E bool :=
  self ← sm_get;
  let counters := grow point_id 0 (visit_counters self) in
  prev_value ← sm_lift (vec_get counters point_id);
  counters ← sm_lift (vec_set point_id (current_iter self) counters);
  _ ← sm_modify (λ self, mkVisited (current_iter self) counters);
  mret (current_iter self <=? prev_value).

Definition next_iteration (self : VisitedList) : VisitedList :=
  mkVisited (S (current_iter self)) (visit_counters self).

(** The pool is a stack. *)
Definition pool_get (num_points : nat) (pool : list VisitedList) : VisitedList * list VisitedList :=
  match pool with
  | [] => (visited_new num_points, [])
  | vl :: pool' => (next_iteration vl, pool')
  end.

Definition pool_return_back (visited_list : VisitedList) (pool : list VisitedList) : list VisitedList :=
  if decide (length pool < POOL_KEEP_LIMIT) then visited_list :: pool else pool.

(** [ids.filter(|&id| !visited_list.check_and_update_visited(id))] *)
Fixpoint filter_unvisited {E} (ids : list PointOffsetType) : sm VisitedList E (list PointOffsetType) :=
  match ids with
  | [] => mret []
  | id :: ids' =>
      visited ← check_and_update_visited id;
      rest ← filter_unvisited ids';
      mret (if visited : bool then rest else id :: rest)
  end.

(** ** Properties *)

Definition visited_wf (self : VisitedList) : Prop :=
  0 < current_iter self ∧ Forall (λ x, x ≤ current_iter self) (visit_counters self).

Lemma check_and_update_spec {E} i s :
  visited_wf s →
  ∃ s', check_and_update_visited i s = (Ok (E:=E) (visited_check s i), s') ∧ visited_wf s' ∧
    ∀ j, visited_check s' j = if decide (j = i) then true else visited_check s j.
Proof.
  intros [Hpos Hwf]. unfold check_and_update_visited. sm_unfold. cbn.
  assert (∃ x, grow i 0 (visit_counters s) !! i = Some x ∧ (current_iter s <=? x) = visited_check s i)
    as (x & Hx & Hchk).
  { unfold visited_check. rewrite lookup_grow. case_decide as Hi.
    - apply lookup_lt_is_Some in Hi as [y Hy]. rewrite Hy. eauto.
    - rewrite decide_True by lia. rewrite (proj2 (lookup_ge_None _ _)) by lia. exists 0.
      split; [done|]. apply Nat.leb_gt. lia. }
  unfold vec_get. rewrite Hx. cbn. unfold vec_set. rewrite decide_True by (rewrite length_grow; lia).
  cbn. rewrite Hchk. eexists. split_and!; [done|split; [done|]|].
  - cbn. apply Forall_insert; [|lia]. unfold grow. case_decide; [|done].
    by apply Forall_resize; [lia|].
  - intros j. change (<[i := current_iter s]> (grow i 0 (visit_counters s)))
      with (grow_set i 0 (current_iter s) (visit_counters s)).
    unfold visited_check at 1. cbn. case_decide as Hj.
    + subst. rewrite lookup_grow_set_eq. apply Nat.leb_le. lia.
    + rewrite lookup_grow_set_ne by done. unfold visited_check.
      case_decide; [done|]. rewrite (proj2 (lookup_ge_None _ j)) by lia. case_decide; [|done].
      apply Nat.leb_gt. lia.
Qed.

Lemma filter_unvisited_spec {E} ids s :
  visited_wf s →
  ∃ out s', filter_unvisited ids s = (Ok (E:=E) out, s') ∧ visited_wf s' ∧ NoDup out ∧
    ∀ i, i ∈ out ↔ i ∈ ids ∧ visited_check s i = false.
Proof.
  revert s. induction ids as [|id ids IH]; intros s Hwf.
  { exists [], s. split_and!; [done|done|constructor|]. intros i. rewrite elem_of_nil. tauto. }
  cbn [filter_unvisited]. destruct (check_and_update_spec (E:=E) id s Hwf) as (s1 & Hs1 & Hwf1 & Hv1).
  destruct (IH s1 Hwf1) as (out & s2 & Hs2 & Hwf2 & Hnd & Hout).
  rewrite (sm_bind_Ok _ _ _ _ _ Hs1), (sm_bind_Ok _ _ _ _ _ Hs2).
  exists (if visited_check s id then out else id :: out), s2. split_and!; [done|done| |].
  - destruct (visited_check s id); [done|]. constructor; [|done]. rewrite Hout, Hv1.
    rewrite decide_True by done. intros [_ Hf]. discriminate.
  - intros i. rewrite elem_of_cons. destruct (visited_check s id) eqn:Hid.
    + rewrite Hout, Hv1. destruct (decide (i = id)) as [->|]; [|naive_solver].
      split; [naive_solver|]. intros [_ Hf]. congruence.
    + rewrite elem_of_cons, Hout, Hv1. destruct (decide (i = id)) as [->|]; naive_solver.
Qed.

(** A list handed out has no visited point: a new one has only zeros, and a
    reused one was moved past every counter it holds. *)
Lemma pool_get_fresh n pool vl pool' :
  Forall visited_wf pool → pool_get n pool = (vl, pool') →
  visited_wf vl ∧ (∀ i, visited_check vl i = false) ∧ Forall visited_wf pool'.
Proof.
  intros Hwf. destruct pool as [|x pool]; intros [= <- <-].
  - split_and!; [split; [simpl; lia|]| |done].
    + apply Forall_replicate. simpl. lia.
    + intros i. unfold visited_check. cbn. destruct (replicate n 0 !! i) eqn:Hi; [|done].
      by apply lookup_replicate in Hi as [-> _].
  - apply Forall_cons in Hwf as [[Hpos Hx] Hwf]. split_and!; [split; [simpl; lia|]| |done].
    + eapply Forall_impl; [exact Hx|]. simpl. lia.
    + intros i. unfold visited_check. cbn. destruct (visit_counters x !! i) as [y|] eqn:Hi; [|done].
      eapply Forall_lookup_1 in Hx; [|done]. destruct y; [done|]. apply Nat.leb_gt. lia.
Qed.

Lemma pool_return_wf vl pool :
  visited_wf vl → Forall visited_wf pool → Forall visited_wf (pool_return_back vl pool).
Proof. intros Hvl Hwf. unfold pool_return_back. case_decide; [by constructor|done]. Qed.

(** One query: borrow a list, deduplicate the ids, give the list back. *)
Definition visited_query {E} (num_points : nat) (ids : list PointOffsetType) :
    sm (list VisitedList) E (list PointOffsetType) := λ pool,
  let '(vl, pool) := pool_get num_points pool in
  let '(r, vl) := filter_unvisited ids vl in
  (r, pool_return_back vl pool).

Lemma visited_query_spec {E} n ids pool :
  Forall visited_wf pool →
  ∃ out pool', visited_query n ids pool = (Ok (E:=E) out, pool') ∧ Forall visited_wf pool' ∧
    NoDup out ∧ ∀ i, i ∈ out ↔ i ∈ ids.
Proof.
  intros Hwf. unfold visited_query. destruct (pool_get n pool) as [vl pool1] eqn:Hget.
  destruct (pool_get_fresh n pool vl pool1 Hwf Hget) as (Hvl & Hfresh & Hwf1).
  destruct (filter_unvisited_spec (E:=E) ids vl Hvl) as (out & vl' & -> & Hvl' & Hnd & Hout).
  eexists _, _. split_and!; [done|by apply pool_return_wf|done|].
  intros i. rewrite Hout, Hfresh. tauto.
Qed.

(** Reusing visited lists is invisible.  In any sequence of queries
    through one pool, starting from the empty pool, every query keeps each of
    its ids exactly once: marks left by earlier queries in a reused list never
    hide a point. *)
Lemma visited_pool_reuse (queries : list (nat * list PointOffsetType)) :
  ∃ outs pool', sm_fold (λ q outs, out ← visited_query q.1 q.2; mret (outs ++ [out])) queries []
      ([] : list VisitedList) = (Ok (E:=OperationError) outs, pool') ∧
    Forall2 (λ q out, NoDup out ∧ ∀ i, i ∈ out ↔ i ∈ q.2) queries outs.
Proof.
  assert (∀ qs done outs pool, Forall visited_wf pool →
    Forall2 (λ (q : nat * list PointOffsetType) out, NoDup out ∧ ∀ i, i ∈ out ↔ i ∈ q.2) done outs →
    ∃ outs' pool', sm_fold (λ q outs, out ← visited_query q.1 q.2; mret (outs ++ [out])) qs outs pool =
      (Ok (E:=OperationError) outs', pool') ∧
      Forall2 (λ q out, NoDup out ∧ ∀ i, i ∈ out ↔ i ∈ q.2) (done ++ qs) outs') as Hgen.
  { intros qs. induction qs as [|q qs IH]; intros prev outs pool Hwf Hprev; cbn [sm_fold].
    - rewrite app_nil_r. by exists outs, pool.
    - destruct (visited_query_spec (E:=OperationError) q.1 q.2 pool Hwf) as (out & pool1 & Hq & Hwf1 & Hnd & Hin).
      rewrite (sm_bind_Ok _ _ pool (outs ++ [out]) pool1).
      2:{ by rewrite (sm_bind_Ok _ _ _ _ _ Hq). }
      destruct (IH (prev ++ [q]) (outs ++ [out]) pool1 Hwf1) as (outs' & pool' & Hrun & Hall).
      { apply Forall2_app; [done|]. by constructor. }
      rewrite <-(assoc_L (++)) in Hall. eauto. }
  apply (Hgen queries [] [] []); constructor.
Qed.
