(* ===== verification/FieldIndexLaws.v ===== *)
(** * What the payload index relies on of a field index

    A field index reflects the content of one field of every point.  The
    class [KindLaws] states, for one kind of index, how updates change that
    content and that lookups, checkers and estimations are about it.  The map
    indexes of [FieldIndex.v] are instances; the sum type follows. *)

From stdpp Require Import base gmap strings list sorting.
From Stdlib Require Import ZArith Lia SpecFloat.
From S2P Require Import Prelude Types Rocks IdTracker JsonPath Text Filters Estimator.
From S2P Require Import FieldIndex FieldIndexEnum QueryOptimizer.

Section content.
Context {Num : Type} `{!JsonNumber Num} `{!GeoOps}.

(** The content of the field at each point. *)
Definition Content : Type := PointOffsetType → MultiValue (Value Num).

Definition empty_content : Content := λ _, MSingle None.

Definition content_set (i : PointOffsetType) (v : MultiValue (Value Num)) (f : Content) : Content :=
  λ j, if decide (j = i) then v else f j.

(** A field condition on the content of its field. *)
Definition check_content (fc : FieldCondition) (v : MultiValue (Value Num)) : bool :=
  existsb (check_field_value fc) (mv_values v).

Lemma check_field_content fc p :
  check_field_condition fc p = check_content fc (payload_get_value p (fc_key fc)).
Proof. apply check_field_condition_existsb. Qed.

(** [covers v]: adding a point with content [v] replaces what is indexed for
    it; otherwise the addition leaves the index as it is.  [fc_ok] delimits
    the conditions for which the checkers and lookups are exact. *)
Class KindLaws (fc_ok : FieldCondition → bool) (I : Type) `{!IndexOps Num I}
    (checker : I → FieldCondition → option (PointOffsetType → bool)) := {
  kl_reflects : I → Content → Prop;
  kl_covers : I → MultiValue (Value Num) → bool;
  kl_reflects_ext s f g : (∀ i, f i = g i) → kl_reflects s f → kl_reflects s g;
  kl_absent s : kl_covers s (MSingle None) = false;
  kl_null s : kl_covers s (MSingle (Some VNull)) = false;
  kl_uncovered s i v f :
    kl_covers s v = false → kl_reflects s (content_set i (MSingle None) f) →
    kl_reflects s (content_set i v f);
  kl_add s f i v :
    kl_reflects s f →
    sm_wp (io_add_point i v)
      (λ _ s', kl_reflects s' (if kl_covers s v then content_set i v f else f)) (λ _ _, True) s;
  kl_remove s f i :
    kl_reflects s f →
    sm_wp (io_remove_point (Num:=Num) i)
      (λ _ s', kl_reflects s' (content_set i (MSingle None) f)) (λ _ _, True) s;
  kl_recreate s f :
    kl_reflects s f → sm_wp (io_recreate (Num:=Num)) (λ _ s', kl_reflects s' f) (λ _ _, True) s;
  kl_filter s f fc l i :
    kl_reflects s f → fc_ok fc = true → io_filter (Num:=Num) s fc = Some l →
    i ∈ l ↔ check_content fc (f i) = true;
  kl_checker s f fc chk i :
    kl_reflects s f → fc_ok fc = true → checker s fc = Some chk → chk i = check_content fc (f i);
  kl_estimate s f fc :
    kl_reflects s f → fc_ok fc = true →
    ∃ o, io_estimate_cardinality (Num:=Num) s fc = Ok o ∧
      ∀ e, o = Some e → Forall (λ c, c = PCondition fc) (primary_clauses e);
}.

(** A kind that is not used. *)
Lemma empty_kind_laws fc_ok {HI : IndexOps Num Empty_set} checker : KindLaws fc_ok Empty_set checker.
Proof. by refine {| kl_reflects s _ := True; kl_covers s _ := true |}; intros []. Defined.
End content.
Arguments Content : clear implicits.

(** ** Map indexes *)

Section map_kind.
Context {Num V DB : Type} `{!JsonNumber Num} `{!GeoOps} `{Countable V} `{!TextValue V}.
Context {HDB : RocksDB DB} {HRL : RocksLaws DB} (get_value : Value Num → option V).

Definition map_reflects (s : MapColumn V DB) (f : Content Num) : Prop :=
  map_wf (mc_index s) ∧ ∀ i, map_values (mc_index s) i = indexed_values get_value (f i).

Lemma map_reflects_set s i v f g :
  map_reflects s g → indexed_values get_value (g i) = indexed_values get_value v →
  (∀ j, j ≠ i → g j = f j) → map_reflects s (content_set i v f).
Proof.
  intros [Hwf Hv] Hi Hne. split; [done|]. intros j. rewrite Hv. unfold content_set.
  destruct (decide (j = i)) as [->|Hj]; [done|]. by rewrite Hne.
Qed.

Lemma map_kind_op op s f :
  map_reflects s f →
  sm_wp (on_mc_index (λ column, run_map_op get_value column op))
    (λ _ s', map_reflects s' (match op with
                              | MAdd i v => if reindexes get_value v then content_set i v f else f
                              | MRemove i => content_set i (MSingle None) f
                              end)) (λ _ _, True) s.
Proof using HRL.
  intros [Hwf Hv]. unfold on_mc_index. apply sm_wp_zoom.
  eapply sm_wp_mono; [by apply run_map_op_spec| |done]. cbn. intros _ m (Hwf' & Hm & _).
  split; [done|]. intros j. cbn. rewrite Hm. unfold content_set. destruct op as [i v|i]; cbn.
  - destruct (reindexes get_value v); [by destruct (decide (j = i))|done].
  - by destruct (decide (j = i)).
Qed.

Lemma map_kind_uncovered s i v f :
  reindexes get_value v = false → map_reflects s (content_set i (MSingle None) f) →
  map_reflects s (content_set i v f).
Proof.
  intros Hv Hr. eapply map_reflects_set; [exact Hr| |].
  - unfold content_set. rewrite decide_True by done. symmetry.
    by apply (vi_add_point_keeps (St:=unit) (λ _ _, mret tt) get_value (λ _, mret tt) i v tt).
  - intros j Hj. unfold content_set. by rewrite decide_False.
Qed.

Lemma map_kind_recreate s f :
  map_reflects s f → sm_wp (on_mc_index map_recreate) (λ _ s', map_reflects s' f) (λ _ _, True) s.
Proof using HRL.
  intros [[Hids Hpts Hcnt] Hv]. unfold on_mc_index, map_recreate, on_map_db. apply sm_wp_zoom, sm_wp_zoom.
  pose proof (recreate_no_panic (mc_column s) (mi_db (mc_index s))) as Hp. unfold sm_wp.
  destruct (recreate_column_family _ _) as [[[]|e|] db]; [|done|done]. split; [|done]. by split.
Qed.

Lemma map_kind_iterator s f v fc i :
  map_reflects s f →
  (∀ c, check_content fc c = existsb (λ x, bool_decide (x = v)) (indexed_values get_value c)) →
  i ∈ map_get_iterator (mc_index s) v ↔ check_content fc (f i) = true.
Proof.
  intros [Hwf Hv] Hc. rewrite Hc, <-Hv, map_get_iterator_ids, merge_sort_Permutation, elem_of_elements.
  rewrite (mw_ids _ Hwf), existsb_exists. setoid_rewrite bool_decide_eq_true. split.
  - intros Hin. exists v. split; [by apply list_elem_of_In|done].
  - intros (x & Hin & ->). by apply list_elem_of_In.
Qed.
End map_kind.

(** ** The two map kinds and the sum *)

(** The conditions of interest ask for one thing each. *)
Class SingleConditions (fc_ok : FieldCondition → bool) : Prop :=
  single_conditions fc : fc_ok fc = true → one_condition fc = true.

Section kinds.
Context {Num NI NF GI TI DB : Type} `{!JsonNumber Num} `{!GeoOps} {HDB : RocksDB DB} {HRL : RocksLaws DB}.
Context `{!IndexOps Num NI, !IndexOps Num NF, !IndexOps Num GI, !IndexOps Num TI}.
Context `{!IndexValues Z NI, !IndexValues spec_float NF, !IndexValues GeoPoint GI, !TextChecks TI}.
Context (fc_ok : FieldCondition → bool) {fc_ok_one : SingleConditions fc_ok}.
Abbreviation FI := (FieldIndex NI NF GI TI DB).

(** The checkers a kind offers inside the sum. *)
Definition kind_checker {I} (wrap : I → FI) (s : I) : FieldCondition → option (PointOffsetType → bool) :=
  field_condition_index (wrap s).

Lemma should_clauses_none (es : list CardinalityEstimation) :
  Forall (λ e, primary_clauses e = []) es → should_clauses es [] = [].
Proof. destruct 1 as [|e es He _]; [done|]. simpl. by rewrite He. Qed.

Lemma map_clauses_none {V} `{Countable V} (s : MapIndex V DB) vs fc :
  Forall (λ c, c = PCondition fc)
    (primary_clauses (combine_should_estimations (match_cardinality s <$> vs) (mi_indexed_points s))).
Proof.
  cbn [combine_should_estimations primary_clauses]. rewrite should_clauses_none; [constructor|].
  by apply Forall_fmap, Forall_true.
Qed.

#[export] Instance keyword_kind_laws : KindLaws fc_ok (MapColumn string DB) (kind_checker KeywordIndex).
Proof using HRL fc_ok_one.
  refine {| kl_reflects := map_reflects keyword_get_value; kl_covers _ := reindexes keyword_get_value |}.
  - intros s f g Hfg [Hwf Hv]. split; [done|]. intros i. by rewrite <-Hfg.
  - done.
  - done.
  - intros s i v f. by apply map_kind_uncovered.
  - intros s f i v. by apply (map_kind_op keyword_get_value (MAdd i v)).
  - intros s f i. by apply (map_kind_op keyword_get_value (MRemove i)).
  - intros s f. apply map_kind_recreate.
  - intros s f fc l i Hr Hok. cbn. unfold keyword_filter.
    destruct (fc_match fc) as [[[k|z|b]|t|a]|] eqn:Hm; try done. intros [= <-].
    apply (map_kind_iterator keyword_get_value); [done|]. intros c.
    apply (check_match_values keyword_get_value _ _ _ _ Hm (fc_ok_one _ Hok)).
    intros v. rewrite existsb_option_list. by destruct v.
  - intros s f fc chk i [_ Hv] Hok. apply keyword_checker_values; [by apply fc_ok_one|apply Hv].
  - intros s f fc _ _. cbn. eexists. split; [done|]. intros e. unfold keyword_estimate_cardinality.
    destruct (fc_match fc) as [[[k|z|b]|t|[a|a]]|] eqn:Hm; try done; intros [= <-].
    + repeat constructor.
    + apply map_clauses_none.
Defined.

#[export] Instance integer_kind_laws : KindLaws fc_ok (MapColumn Z DB) (kind_checker IntMapIndex).
Proof using HRL fc_ok_one.
  refine {| kl_reflects := map_reflects integer_get_value; kl_covers _ := reindexes integer_get_value |}.
  - intros s f g Hfg [Hwf Hv]. split; [done|]. intros i. by rewrite <-Hfg.
  - done.
  - done.
  - intros s i v f. by apply map_kind_uncovered.
  - intros s f i v. by apply (map_kind_op integer_get_value (MAdd i v)).
  - intros s f i. by apply (map_kind_op integer_get_value (MRemove i)).
  - intros s f. apply map_kind_recreate.
  - intros s f fc l i Hr Hok. cbn. unfold integer_filter.
    destruct (fc_match fc) as [[[k|z|b]|t|a]|] eqn:Hm; try done. intros [= <-].
    apply (map_kind_iterator integer_get_value); [done|]. intros c.
    apply (check_match_values integer_get_value _ _ _ _ Hm (fc_ok_one _ Hok)).
    intros v. rewrite existsb_option_list. destruct v; try done. cbn. unfold map_or.
    destruct (as_i64 _); [|done]. by case_bool_decide; [subst; apply Z.eqb_refl|apply Z.eqb_neq].
  - intros s f fc chk i [_ Hv] Hok. apply integer_checker_values; [by apply fc_ok_one|apply Hv].
  - intros s f fc _ _. cbn. eexists. split; [done|]. intros e. unfold integer_estimate_cardinality.
    destruct (fc_match fc) as [[[k|z|b]|t|[a|a]]|] eqn:Hm; try done; intros [= <-].
    + repeat constructor.
    + apply map_clauses_none.
Defined.

Context `{!KindLaws fc_ok NI (kind_checker IntIndex)} `{!KindLaws fc_ok NF (kind_checker FloatIndex)}.
Context `{!KindLaws fc_ok GI (kind_checker GeoIndex)} `{!KindLaws fc_ok TI (kind_checker FullTextIndex)}.

Definition fi_reflects (index : FI) (f : Content Num) : Prop :=
  match index with
  | IntIndex i => kl_reflects i f
  | IntMapIndex i => kl_reflects i f
  | KeywordIndex i => kl_reflects i f
  | FloatIndex i => kl_reflects i f
  | GeoIndex i => kl_reflects i f
  | FullTextIndex i => kl_reflects i f
  end.

Definition fi_covers (index : FI) (v : MultiValue (Value Num)) : bool :=
  match index with
  | IntIndex i => kl_covers i v
  | IntMapIndex i => kl_covers i v
  | KeywordIndex i => kl_covers i v
  | FloatIndex i => kl_covers i v
  | GeoIndex i => kl_covers i v
  | FullTextIndex i => kl_covers i v
  end.

Lemma sm_wp_variant {I A} (wrap : I → FI) (i : I) (m : sm I OperationError A) (M : sm FI OperationError A)
    (Q : A → FI → Prop) (R : OperationError → FI → Prop) :
  M (wrap i) = on_variant wrap i m →
  sm_wp m (λ a i', Q a (wrap i')) (λ e i', R e (wrap i')) i → sm_wp M Q R (wrap i).
Proof. intros Heq. unfold sm_wp. rewrite Heq. unfold on_variant. by destruct (m i) as [[a|e|] i']. Qed.

Lemma fi_reflects_ext index f g : (∀ i, f i = g i) → fi_reflects index f → fi_reflects index g.
Proof. destruct index; apply kl_reflects_ext. Qed.

Lemma fi_absent index : fi_covers index (MSingle None) = false.
Proof. destruct index; apply kl_absent. Qed.

Lemma fi_null index : fi_covers index (MSingle (Some VNull)) = false.
Proof. destruct index; apply kl_null. Qed.

Lemma fi_uncovered index i v f :
  fi_covers index v = false → fi_reflects index (content_set i (MSingle None) f) →
  fi_reflects index (content_set i v f).
Proof. destruct index; apply kl_uncovered. Qed.

Lemma fi_add_spec index f i v :
  fi_reflects index f →
  sm_wp (fi_add_point i v)
    (λ _ index', fi_reflects index' (if fi_covers index v then content_set i v f else f))
    (λ _ _, True) index.
Proof. destruct index; intros Hr; (eapply sm_wp_variant; [done|by apply kl_add]). Qed.

Lemma fi_remove_spec index f i :
  fi_reflects index f →
  sm_wp (fi_remove_point (Num:=Num) i)
    (λ _ index', fi_reflects index' (content_set i (MSingle None) f)) (λ _ _, True) index.
Proof. destruct index; intros Hr; (eapply sm_wp_variant; [done|by apply kl_remove]). Qed.

Lemma fi_recreate_spec index f :
  fi_reflects index f →
  sm_wp (fi_recreate (Num:=Num)) (λ _ index', fi_reflects index' f) (λ _ _, True) index.
Proof. destruct index; intros Hr; (eapply sm_wp_variant; [done|by apply kl_recreate]). Qed.

Lemma fi_filter_spec index f fc l i :
  fi_reflects index f → fc_ok fc = true → fi_filter (Num:=Num) index fc = Some l →
  i ∈ l ↔ check_content fc (f i) = true.
Proof. destruct index; apply kl_filter. Qed.

Lemma fi_checker_spec index f fc chk i :
  fi_reflects index f → fc_ok fc = true → field_condition_index index fc = Some chk →
  chk i = check_content fc (f i).
Proof. destruct index; intros Hr Hok Hchk; exact (kl_checker _ f fc chk i Hr Hok Hchk). Qed.

Lemma fi_estimate_spec (index : FI) f fc :
  fi_reflects index f → fc_ok fc = true →
  ∃ o, fi_estimate_cardinality (Num:=Num) index fc = Ok o ∧
    ∀ e, o = Some e → Forall (λ c, c = PCondition fc) (primary_clauses e).
Proof. destruct index; apply kl_estimate. Qed.

(** Adding a point that has no content yet gives it the content. *)
Lemma fi_add_empty index f i v :
  fi_reflects index f → f i = MSingle None →
  sm_wp (fi_add_point i v) (λ _ index', fi_reflects index' (content_set i v f)) (λ _ _, True) index.
Proof.
  intros Hr Hi. pose proof (fi_add_spec index f i v Hr) as Hwp. destruct (fi_covers index v) eqn:Hc; [done|].
  assert (fi_reflects index (content_set i v f)) as Hr'.
  { apply fi_uncovered; [done|]. eapply fi_reflects_ext; [|exact Hr]. intros j. unfold content_set.
    destruct (decide (j = i)) as [->|]; done. }
  pose proof (fi_add_spec index _ i v Hr') as Hwp'. by rewrite Hc in Hwp'.
Qed.
End kinds.
