(* ===== verification/StructPayloadIndex.v ===== *)
(** * Payload index

    Models [lib/segment/src/index]: the trait [PayloadIndex] of
    [payload_index_base.rs] and its implementation [StructPayloadIndex] of
    [struct_payload_index.rs], which keeps the field indexes in step with the
    payload storage and answers filtered queries with them.

    The id tracker is shared with the segment, so the operations that read it
    take it as an argument.  [query_points] borrows a visited list from the
    pool, so it is a state transformer.  Writing the configuration file and
    removing an index file are arguments, results of the file system; a
    configuration that was written is part of the state.  The indexes share
    one database in the source; here each holds it from its creation on, which
    is the same as long as no two use one column.  The iteration order over a
    [HashMap] is the one of [map_to_list].

    Not modelled: [wipe] (called in tests only), flushers, snapshots,
    telemetry. *)

From stdpp Require Import base gmap strings list.
From Stdlib Require Import ZArith Lia SpecFloat.
From S2P Require Import Prelude Types Rocks IdTracker JsonPath Text Filters PayloadStorage Estimator.
From S2P Require Import FieldIndex FieldIndexEnum QueryOptimizer VisitedPool.

(** ** The trait *)

Class PayloadIndex (Num T PI : Type) := {
  pi_indexed_fields : PI → gmap PayloadKeyType PayloadFieldSchema;
  pi_set_indexed : PayloadKeyType → PayloadFieldSchema → sm PI OperationError unit;
  pi_drop_index : PayloadKeyType → sm PI OperationError unit;
  pi_estimate_cardinality : T → PI → Filter → OperationResult CardinalityEstimation;
  pi_query_points : T → Filter → sm PI OperationError (list PointOffsetType);
  pi_indexed_points : PI → PayloadKeyType → N;
  pi_filter_context : T → PI → Filter → OperationResult (PointOffsetType → bool); (* its [check] *)
  pi_payload_blocks : PI → PayloadKeyType → nat → list PayloadBlockCondition;
  pi_assign : PointOffsetType → Payload Num → sm PI OperationError unit;
  pi_payload : PI → PointOffsetType → OperationResult (Payload Num);
  pi_delete : PointOffsetType → PayloadKeyType → sm PI OperationError (list (Value Num));
  pi_drop : PointOffsetType → sm PI OperationError (option (Payload Num));
  pi_infer_payload_type : PI → PayloadKeyType → OperationResult (option PayloadSchemaType);
}.

(** The default method. *)
Definition pi_assign_all {Num T PI} `{!PayloadIndex Num T PI} (point_id : PointOffsetType)
    (payload : Payload Num) : sm PI OperationError unit :=
  _ ← pi_drop (T:=T) point_id;
  pi_assign (T:=T) point_id payload.

(** ** [StructPayloadIndex] *)

Record StructPayloadIndex (PS FI DB : Type) := mkStructIndex {
  spi_payload : PS;
  spi_field_indexes : gmap PayloadKeyType (list FI);
  spi_config : gmap PayloadKeyType PayloadFieldSchema;
  spi_saved_config : gmap PayloadKeyType PayloadFieldSchema; (* the file *)
  spi_visited_pool : list VisitedList;
  spi_db : DB;
}.
Arguments mkStructIndex {PS FI DB}.
Arguments spi_payload {PS FI DB}.
Arguments spi_field_indexes {PS FI DB}.
Arguments spi_config {PS FI DB}.
Arguments spi_saved_config {PS FI DB}.
Arguments spi_visited_pool {PS FI DB}.
Arguments spi_db {PS FI DB}.

Section struct_index.
Context {Num NI NF GI TI DB T PS : Type} `{!JsonNumber Num} `{!GeoOps} {HDB : RocksDB DB}.
Context `{!IndexOps Num NI, !IndexOps Num NF, !IndexOps Num GI, !IndexOps Num TI}.
Context `{!IndexValues Z NI, !IndexValues spec_float NF, !IndexValues GeoPoint GI, !TextChecks TI}.
Context `{!IdTracker T} `{!PayloadStorage Num PS, !PayloadScan Num PS}.
Abbreviation FI := (FieldIndex NI NF GI TI DB).
Abbreviation SPI := (StructPayloadIndex PS FI DB).

(** The constructors of the indexes that are arguments, and the file system. *)
Context (new_int : DB → string → NI) (new_float : DB → string → NF)
  (new_geo : DB → string → GI) (new_text : DB → TextIndexParams → string → TI).
Context (write_config : gmap PayloadKeyType PayloadFieldSchema → OperationResult unit)
  (remove_index_file : PayloadKeyType → OperationResult unit).

Definition set_payload_storage p (s : SPI) : SPI :=
  mkStructIndex p (spi_field_indexes s) (spi_config s) (spi_saved_config s) (spi_visited_pool s) (spi_db s).
Definition set_field_indexes m (s : SPI) : SPI :=
  mkStructIndex (spi_payload s) m (spi_config s) (spi_saved_config s) (spi_visited_pool s) (spi_db s).
Definition set_config c (s : SPI) : SPI :=
  mkStructIndex (spi_payload s) (spi_field_indexes s) c (spi_saved_config s) (spi_visited_pool s) (spi_db s).
Definition set_saved_config c (s : SPI) : SPI :=
  mkStructIndex (spi_payload s) (spi_field_indexes s) (spi_config s) c (spi_visited_pool s) (spi_db s).
Definition set_pool p (s : SPI) : SPI :=
  mkStructIndex (spi_payload s) (spi_field_indexes s) (spi_config s) (spi_saved_config s) p (spi_db s).
Definition on_storage {A} : sm PS OperationError A → sm SPI OperationError A :=
  sm_zoom spi_payload set_payload_storage.

(** [for index in indexes.iter_mut() { f(index)? }] *)
Fixpoint for_each_mut {I E} (f : sm I E unit) : sm (list I) E unit := λ l,
  match l with
  | [] => (Ok tt, [])
  | i :: l' =>
      match f i with
      | (Ok _, i') => let '(r, l'') := for_each_mut f l' in (r, i' :: l'')
      | (Err e, i') => (Err e, i' :: l')
      | (Panic, i') => (Panic, i' :: l')
      end
  end.

(** The same over the indexes of one field. *)
Definition on_field (key : PayloadKeyType) (m : sm (list FI) OperationError unit) :
    sm SPI OperationError unit := λ s,
  match spi_field_indexes s !! key with
  | Some indexes =>
      let '(r, indexes') := m indexes in
      (r, set_field_indexes (<[key := indexes']> (spi_field_indexes s)) s)
  | None => (Ok tt, s)
  end.

(** [for (field, indexes) in &mut self.field_indexes { .. }] *)
Definition for_each_field (m : PayloadKeyType → sm (list FI) OperationError unit) :
    sm SPI OperationError unit := λ s,
  sm_for (λ key, on_field key (m key)) (map_to_list (spi_field_indexes s)).*1 s.

Definition total_points (t : T) : N := N.of_nat (points_count t).

Definition payload_of (s : SPI) (i : PointOffsetType) : Payload Num :=
  default ∅ (ps_payload_ptr (spi_payload s) i).

(** The first index of the field that gives an estimation. *)
Fixpoint first_estimation (indexes : list FI) (condition : FieldCondition) :
    OperationResult (option CardinalityEstimation) :=
  match indexes with
  | [] => Ok None
  | index :: indexes =>
      result_estimation ← fi_estimate_cardinality (Num:=Num) index condition;
      match result_estimation with
      | Some estimation => Ok (Some estimation)
      | None => first_estimation indexes condition
      end
  end.

Definition estimate_field_condition (self : SPI) (condition : FieldCondition) :
    OperationResult (option CardinalityEstimation) :=
  match spi_field_indexes self !! fc_key condition with
  | None => Ok None
  | Some indexes => first_estimation indexes condition
  end.

Definition query_field (self : SPI) (field_condition : FieldCondition) :
    option (list PointOffsetType) :=
  indexes ← spi_field_indexes self !! fc_key field_condition;
  head (omap (λ field_index, fi_filter (Num:=Num) field_index field_condition) indexes).

(** The estimation of [IsEmpty] and [IsNull]. *)
Definition absence_cardinality (t : T) (self : SPI) (key : PayloadKeyType)
    (clause : PrimaryCondition) : CardinalityEstimation :=
  match spi_field_indexes self !! key with
  | Some field_indexes =>
      let indexed_points := fold_left (λ n index, N.max n (fi_count_indexed_points (Num:=Num) index))
                              field_indexes 0%N in
      mkEstimation [clause] 0 (total_points t - indexed_points) (total_points t - indexed_points)
  | None => mkEstimation [clause] 0 (total_points t / 2) (total_points t)
  end.

(** It panics on a nested filter, for which it is not called. *)
Definition condition_cardinality (t : T) (self : SPI) (condition : Condition) :
    OperationResult CardinalityEstimation :=
  match condition with
  | CFilter _ => Panic
  | CIsEmpty key => Ok (absence_cardinality t self key (PIsEmpty key))
  | CIsNull key => Ok (absence_cardinality t self key (PIsNull key))
  | CHasId has_id =>
      let mapped := mapped_ids t has_id in
      let num_ids := N.of_nat (size mapped) in
      Ok (mkEstimation [PIds mapped] num_ids num_ids num_ids)
  | CField field_condition =>
      estimation ← estimate_field_condition self field_condition;
      Ok (default (estimation_unknown (total_points t)) estimation)
  end.

Definition struct_estimate_cardinality (t : T) (self : SPI) (query : Filter) : OperationResult CardinalityEstimation :=
  estimate_filter (condition_cardinality t self) (total_points t) query.

Definition struct_filtered_context (t : T) (self : SPI) (filter : Filter) : OperationResult OptimizedFilter :=
  struct_filter_context t (spi_field_indexes self) (payload_of self) (condition_cardinality t self)
    (total_points t) filter.

(** The points a primary clause preselects. *)
Definition clause_points (t : T) (self : SPI) (clause : PrimaryCondition) :
    OperationResult (list PointOffsetType) :=
  match clause with
  | PCondition field_condition =>
      match query_field self field_condition with
      | Some l => Ok l
      | None => iter_internal t (* index is not built *)
      end
  | PIds ids => Ok (elements ids)
  | PIsEmpty _ => iter_internal t
  | PIsNull _ => iter_internal t
  end.

Definition struct_query_points (t : T) (query : Filter) : sm SPI OperationError (list PointOffsetType) :=
  self ← sm_get;
  query_cardinality ← sm_lift (struct_estimate_cardinality t self query);
  match primary_clauses query_cardinality with
  | [] =>
      ids ← sm_lift (iter_internal t);
      context ← sm_lift (struct_filtered_context t self query);
      mret (base.filter (λ i, check_optimized_filter context i = true) ids)
  | clauses =>
      context ← sm_lift (struct_filtered_context t self query);
      selected ← sm_lift (res_map (clause_points t self) clauses);
      unique ← sm_zoom spi_visited_pool set_pool
                 (visited_query (internal_size t) (mjoin selected));
      mret (base.filter (λ i, check_optimized_filter context i = true) unique)
  end.

Definition struct_indexed_points (self : SPI) (field : PayloadKeyType) : N :=
  match spi_field_indexes self !! field with
  | None => 0%N
  | Some indexes =>
      match fi_count_indexed_points (Num:=Num) <$> indexes with
      | [] => 0%N
      | n :: l => fold_left N.min l n
      end
  end.

Definition struct_payload_blocks (self : SPI) (field : PayloadKeyType) (threshold : nat) :
    list PayloadBlockCondition :=
  match spi_field_indexes self !! field with
  | None => []
  | Some indexes => indexes ≫= λ field_index, fi_payload_blocks (Num:=Num) field_index threshold field
  end.

Definition struct_assign (point_id : PointOffsetType) (payload : Payload Num) :
    sm SPI OperationError unit :=
  _ ← for_each_field (λ field,
        let field_value := payload_get_value payload field in
        for_each_mut (fi_add_point point_id field_value));
  on_storage (ps_assign point_id payload).

Definition struct_payload (self : SPI) (point_id : PointOffsetType) : OperationResult (Payload Num) :=
  ps_payload (spi_payload self) point_id.

Definition struct_delete (point_id : PointOffsetType) (key : PayloadKeyType) :
    sm SPI OperationError (list (Value Num)) :=
  _ ← on_field key (for_each_mut (fi_remove_point (Num:=Num) point_id));
  on_storage (ps_delete point_id key).

Definition struct_drop (point_id : PointOffsetType) : sm SPI OperationError (option (Payload Num)) :=
  _ ← for_each_field (λ _, for_each_mut (fi_remove_point (Num:=Num) point_id));
  on_storage (ps_drop point_id).

(** The first payload of the storage decides. *)
Definition struct_infer_payload_type (self : SPI) (key : PayloadKeyType) :
    OperationResult (option PayloadSchemaType) :=
  match ps_iter (spi_payload self) with
  | [] => Ok None
  | (_, payload) :: _ =>
      match payload_get_value payload key with
      | MSingle field_value => Ok (field_value ≫= infer_value_type)
      | MMultiple fields_values => Ok (infer_collection_value_type fields_values)
      end
  end.

Definition select_indexes (self : SPI) (field : PayloadKeyType) (payload_schema : PayloadFieldSchema) :
    list FI :=
  index_selector new_int new_float new_geo new_text field payload_schema (spi_db self).

(** Recreates the columns of new indexes and adds every payload. *)
Definition build_field_indexes (self : SPI) (field : PayloadKeyType) (payload_schema : PayloadFieldSchema) :
    OperationResult (list FI) :=
  let build : sm (list FI) OperationError unit :=
    _ ← for_each_mut (fi_recreate (Num:=Num));
    sm_for (λ p : PointOffsetType * Payload Num,
      for_each_mut (fi_add_point p.1 (payload_get_value p.2 field))) (ps_iter (spi_payload self)) in
  match build (select_indexes self field payload_schema) with
  | (Ok _, indexes) => Ok indexes
  | (Err e, _) => Err e
  | (Panic, _) => Panic
  end.

(** Loads the indexes until one reports that it has no column. *)
Fixpoint load_indexes (indexes : list FI) : OperationResult (bool * list FI) :=
  match indexes with
  | [] => Ok (true, [])
  | index :: rest =>
      match fi_load (Num:=Num) index with
      | (Ok true, index') =>
          '(is_loaded, rest') ← load_indexes rest;
          Ok (is_loaded, index' :: rest')
      | (Ok false, index') => Ok (false, index' :: rest)
      | (Err e, _) => Err e
      | (Panic, _) => Panic
      end
  end.

Definition load_from_db (self : SPI) (field : PayloadKeyType) (payload_schema : PayloadFieldSchema) :
    OperationResult (list FI) :=
  '(is_loaded, indexes) ← load_indexes (select_indexes self field payload_schema);
  if is_loaded : bool then Ok indexes else build_field_indexes self field payload_schema.

Definition load_all_fields : sm SPI OperationError unit :=
  self ← sm_get;
  field_indexes ← sm_lift (res_fold (λ fs m,
      field_index ← load_from_db self fs.1 fs.2;
      Ok (<[fs.1 := field_index]> m)) (map_to_list (spi_config self)) ∅);
  sm_modify (set_field_indexes field_indexes).

Definition save_config : sm SPI OperationError unit :=
  self ← sm_get;
  _ ← sm_lift (write_config (spi_config self));
  sm_modify (set_saved_config (spi_config self)).

(** [open] on the payload storage, the configuration file if it exists, and
    the opened database. *)
Definition struct_open (payload : PS) (config_file : option (gmap PayloadKeyType PayloadFieldSchema)) (db : DB) :
    OperationResult SPI :=
  let config := default ∅ config_file in
  let index := mkStructIndex payload ∅ config config [] db in
  let init : sm SPI OperationError unit :=
    _ ← (match config_file with None => save_config | Some _ => mret tt end);
    load_all_fields in
  match init index with
  | (Ok _, index) => Ok index
  | (Err e, _) => Err e
  | (Panic, _) => Panic
  end.

Definition build_and_save (field : PayloadKeyType) (payload_schema : PayloadFieldSchema) :
    sm SPI OperationError unit :=
  self ← sm_get;
  field_indexes ← sm_lift (build_field_indexes self field payload_schema);
  sm_modify (λ s, set_field_indexes (<[field := field_indexes]> (spi_field_indexes s)) s).

Definition struct_set_indexed (field : PayloadKeyType) (payload_schema : PayloadFieldSchema) :
    sm SPI OperationError unit :=
  self ← sm_get;
  _ ← sm_modify (set_config (<[field := payload_schema]> (spi_config self)));
  match spi_config self !! field with
  | None => _ ← save_config; build_and_save field payload_schema
  | Some _ => mret tt
  end.

Definition struct_drop_index (field : PayloadKeyType) : sm SPI OperationError unit :=
  _ ← sm_modify (λ s, set_config (delete field (spi_config s)) s);
  _ ← save_config;
  _ ← sm_modify (λ s, set_field_indexes (delete field (spi_field_indexes s)) s);
  sm_lift (remove_index_file field).

#[export] Instance struct_payload_index : PayloadIndex Num T SPI := {|
  pi_indexed_fields := spi_config;
  pi_set_indexed := struct_set_indexed;
  pi_drop_index := struct_drop_index;
  pi_estimate_cardinality := struct_estimate_cardinality;
  pi_query_points := struct_query_points;
  pi_indexed_points := struct_indexed_points;
  pi_filter_context t self filter := context ← struct_filtered_context t self filter; Ok (check_optimized_filter context);
  pi_payload_blocks := struct_payload_blocks;
  pi_assign := struct_assign;
  pi_payload := struct_payload;
  pi_delete := struct_delete;
  pi_drop := struct_drop;
  pi_infer_payload_type := struct_infer_payload_type;
|}.
End struct_index.
