(* ===== verification/PayloadIndexSpec.v ===== *)
(** * Correctness of the payload index

    Theorems about [StructPayloadIndex] (see [StructPayloadIndex.v]): the
    points [query_points] returns are exactly the live points whose payload
    passes the filter, and the updates keep every field index in step with
    the payloads, with the exceptions of [assign] and [delete] that the last
    theorems pin down. *)

From stdpp Require Import base gmap strings list sorting.
From Stdlib Require Import ZArith Lia SpecFloat Ascii.
From S2P Require Import Prelude Types Rocks IdTracker JsonPath Text Filters PayloadStorage Estimator.
From S2P Require Import FieldIndex FieldIndexEnum QueryOptimizer VisitedPool FieldIndexLaws StructPayloadIndex.

(** The updates of the payloads, to speak of them together. *)
Inductive index_op (Num : Type) : Type :=
| IAssign (i : PointOffsetType) (p : Payload Num)
| IAssignAll (i : PointOffsetType) (p : Payload Num)
| IDelete (i : PointOffsetType) (key : PayloadKeyType)
| IDrop (i : PointOffsetType).
Arguments IAssign {Num}.
Arguments IAssignAll {Num}.
Arguments IDelete {Num}.
Arguments IDrop {Num}.

Definition index_op_point {Num} (op : index_op Num) : PointOffsetType :=
  match op with IAssign i _ | IAssignAll i _ | IDelete i _ | IDrop i => i end.

(** The payload an update leaves at its point. *)
Definition index_op_payload {Num} (op : index_op Num) (old : option (Payload Num)) : option (Payload Num) :=
  match op with
  | IAssign _ p => Some (match old with Some o => payload_merge o p | None => p end)
  | IAssignAll _ p => Some p
  | IDelete _ key => (λ o, (payload_remove o key).2) <$> old
  | IDrop _ => None
  end.

(** A key without path syntax: it names a field of the payload itself. *)
Definition plain_key (key : PayloadKeyType) : bool :=
  bool_decide (split_once "."%char key = None) && bool_decide (parse_array_path key = None).

Lemma payload_get_plain {Num} (m : Payload Num) key :
  plain_key key = true → payload_get_value m key = mv_option (m !! key).
Proof.
  intros [Hs Hp]%andb_true_iff. apply bool_decide_eq_true in Hs, Hp.
  unfold payload_get_value, get_value_from_json_map. cbn [get_value]. rewrite Hs, Hp. by destruct (m !! key).
Qed.

Lemma payload_remove_plain {Num} (m : Payload Num) key :
  plain_key key = true → (payload_remove m key).2 = delete key m.
Proof.
  intros [Hs Hp]%andb_true_iff. apply bool_decide_eq_true in Hs, Hp.
  unfold payload_remove, remove_value_from_json_map. cbn [remove_value]. by rewrite Hs, Hp.
Qed.

Section spec.
Context {Num NI NF GI TI DB T PS : Type} `{!JsonNumber Num} `{!GeoOps} {HDB : RocksDB DB} {HRL : RocksLaws DB}.
Context `{!IndexOps Num NI, !IndexOps Num NF, !IndexOps Num GI, !IndexOps Num TI}.
Context `{!IndexValues Z NI, !IndexValues spec_float NF, !IndexValues GeoPoint GI, !TextChecks TI}.
Context `{!IdTracker T, !IdTrackerLaws T}.
Context `{!PayloadStorage Num PS, !PayloadScan Num PS, !PayloadStorageLaws Num PS}.
Context (fc_ok : FieldCondition → bool) {fc_ok_one : SingleConditions fc_ok}.
Abbreviation FI := (FieldIndex NI NF GI TI DB).
Context `{!KindLaws fc_ok NI (kind_checker (IntIndex : NI → FI))}.
Context `{!KindLaws fc_ok NF (kind_checker (FloatIndex : NF → FI))}.
Context `{!KindLaws fc_ok GI (kind_checker (GeoIndex : GI → FI))}.
Context `{!KindLaws fc_ok TI (kind_checker (FullTextIndex : TI → FI))}.
Abbreviation SPI := (StructPayloadIndex PS FI DB).
Abbreviation reflects := (fi_reflects (NI:=NI) (NF:=NF) (GI:=GI) (TI:=TI) (DB:=DB) fc_ok).

(** The content of a field in the payload storage. *)
Definition field_content (ps : PS) (key : PayloadKeyType) : Content Num :=
  λ i, payload_get_value (default ∅ (ps_payload_ptr ps i)) key.

(** Every index of every field reflects the stored payloads, and the pool
    can be borrowed from. *)
Record index_wf (s : SPI) : Prop := {
  iw_reflects key indexes : spi_field_indexes s !! key = Some indexes →
    Forall (λ index, reflects index (field_content (spi_payload s) key)) indexes;
  iw_pool : Forall visited_wf (spi_visited_pool s);
}.

Lemma payload_get_empty key : payload_get_value (∅ : Payload Num) key = MSingle None.
Proof.
  unfold payload_get_value, get_value_from_json_map. cbn [get_value]. destruct (split_once _ key) as [[e r]|];
    (destruct (parse_array_path _) as [[p idx]|]; [unfold focus_array_path|]; by rewrite lookup_empty).
Qed.

(** ** Queries *)

Lemma reflects_index_reflects key index (ps : PS) :
  reflects index (field_content ps key) →
  index_reflects (λ i, default ∅ (ps_payload_ptr ps i)) fc_ok key index.
Proof.
  intros Hr. pose proof Hr as Hr'.
  destruct index as [n|s|s|n|g|x]; cbn [index_reflects]; try (by destruct Hr);
    intros fc chk i <- Hok Hchk; rewrite check_field_content; by eapply fi_checker_spec in Hr'.
Qed.

(** An estimation of a good condition does not panic. *)
Lemma first_estimation_spec indexes f fc :
  Forall (λ index, reflects index f) indexes → fc_ok fc = true →
  ∃ o, first_estimation indexes fc = Ok o ∧
    ∀ e, o = Some e → Forall (λ c, c = PCondition fc) (primary_clauses e).
Proof.
  intros Hr Hok. induction Hr as [|index indexes Hi _ IH]; [by exists None|]. cbn [first_estimation].
  destruct (fi_estimate_spec fc_ok index f fc Hi Hok) as (o & -> & Ho). cbn. destruct o as [e|]; [|done].
  exists (Some e). split; [done|]. intros e' [= <-]. by apply Ho.
Qed.

Lemma condition_cardinality_Ok t (s : SPI) c :
  index_wf s → is_leaf c = true → leaf_ok fc_ok c = true → ∃ e, condition_cardinality t s c = Ok e.
Proof.
  intros Hs Hleaf Hok. destruct c as [fc|k|k|ids|f]; [|by eexists..|done]. cbn [condition_cardinality].
  unfold estimate_field_condition. destruct (spi_field_indexes s !! fc_key fc) as [indexes|] eqn:Hi; [|by eexists].
  destruct (first_estimation_spec indexes (field_content (spi_payload s) (fc_key fc)) fc) as (o & -> & _); [by apply Hs|done|].
  by eexists.
Qed.

Lemma struct_estimate_spec t (s : SPI) filter :
  index_wf s → all_leaves (leaf_ok fc_ok) (CFilter filter) = true →
  struct_estimate_cardinality t s filter =
    Ok (filter_estimation (estimated (condition_cardinality t s)) (total_points t) filter).
Proof.
  intros Hs Hok. apply (estimate_condition_Ok _ _ (leaf_ok fc_ok) (total_points t) (CFilter filter)); [|done]. intros c Hc Hp.
  destruct (condition_cardinality_Ok t s c Hs Hc Hp) as [e He]. unfold estimated. by rewrite He.
Qed.

Lemma struct_context_spec t (s : SPI) filter :
  index_wf s → tracker_wf t → no_empty_should_filter filter = true →
  all_leaves (leaf_ok fc_ok) (CFilter filter) = true →
  ∃ ctx, struct_filtered_context t s filter = Ok ctx ∧
    ∀ i, check_optimized_filter ctx i = check_payload (payload_of s i) (external_id t i) filter.
Proof using fc_ok_one HRL IdTrackerLaws0.
  intros Hs Ht Hne Hok. unfold struct_filtered_context.
  destruct (filter_context_Ok t (spi_field_indexes s) (payload_of s) (condition_cardinality t s) (total_points t)
    (leaf_ok fc_ok) filter) as [ctx Hctx]; [|done|].
  { intros c Hc Hp. by apply condition_cardinality_Ok. }
  exists ctx. split; [done|]. intros i. eapply (filter_context_check t _ _ _ _ fc_ok); try done.
  intros key indexes Hkey. eapply Forall_impl; [by apply Hs|]. intros index. apply reflects_index_reflects.
Qed.

(** The clause selects a live point, or one the field index lists. *)
Definition clause_selects (t : T) (s : SPI) (clause : PrimaryCondition) (i : PointOffsetType) : Prop :=
  ∃ l, clause_points t s clause = Ok l ∧ i ∈ l.

Definition clause_ok (clause : PrimaryCondition) : Prop :=
  match clause with PCondition fc => fc_ok fc = true | _ => True end.

Lemma query_field_spec (s : SPI) fc l i :
  index_wf s → fc_ok fc = true → query_field (Num:=Num) s fc = Some l →
  i ∈ l ↔ check_field_condition fc (payload_of s i) = true.
Proof.
  intros Hs Hok. unfold query_field. destruct (spi_field_indexes s !! fc_key fc) as [indexes|] eqn:Hi; [|done].
  cbn. intros Hh%head_Some_elem_of. apply list_elem_of_omap in Hh as (index & Hin & Hf).
  pose proof (iw_reflects s Hs _ _ Hi) as Hr. rewrite Forall_forall in Hr.
  rewrite check_field_content. by apply (fi_filter_spec fc_ok index (field_content (spi_payload s) (fc_key fc)) fc l); auto.
Qed.

(** The points of dead offsets have no payload. *)
Definition dead_empty (t : T) (s : SPI) : Prop := ∀ i, external_id t i = None → payload_of s i = ∅.

Lemma clause_points_live t (s : SPI) clause :
  index_wf s → tracker_wf t → dead_empty t s → clause_ok clause →
  ∃ l, clause_points t s clause = Ok l ∧
    ∀ i, i ∈ l → is_Some (external_id t i) ∨ ∃ ids, clause = PIds ids ∧ i ∈ ids.
Proof using IdTrackerLaws0.
  intros Hs Ht Hdead Hok. destruct (iter_internal_live t Ht) as (live & Hlive & _ & Hin).
  destruct clause as [fc|k|k|ids]; cbn [clause_points].
  - destruct (query_field s fc) as [l|] eqn:Hq; [|exists live; naive_solver]. exists l. split; [done|].
    intros i Hi. apply (query_field_spec s fc l i) in Hi; [|done..]. left.
    destruct (external_id t i) eqn:He; [done|]. rewrite (Hdead i He), check_field_content, payload_get_empty in Hi. done.
  - exists live. naive_solver.
  - exists live. naive_solver.
  - exists (elements ids). split; [done|]. intros i. rewrite elem_of_elements. eauto.
Qed.

Lemma leaf_covered t (s : SPI) c :
  index_wf s → tracker_wf t → is_leaf c = true → leaf_ok fc_ok c = true →
  covers (λ clause i, is_Some (external_id t i) → clause_selects t s clause i)
    (λ clause, clause_ok clause ∧ ∀ ids i, clause = PIds ids → i ∈ ids → is_Some (external_id t i))
    (estimated (condition_cardinality t s) c)
    (λ i, payload_checker (payload_of s i) (external_id t i) c = true).
Proof using IdTrackerLaws0.
  intros Hs Ht Hleaf Hok. destruct (iter_internal_live t Ht) as (live & Hlive & _ & Hin).
  assert (∀ i, is_Some (external_id t i) → ∃ l, iter_internal t = Ok l ∧ i ∈ l) as Hall by naive_solver.
  destruct c as [fc|k|k|ids|f]; [| | | |done]; unfold estimated; cbn [condition_cardinality].
  - unfold estimate_field_condition. destruct (spi_field_indexes s !! fc_key fc) as [indexes|] eqn:Hi;
      [|by apply covers_none]. pose proof (iw_reflects s Hs _ _ Hi) as Hr.
    destruct (first_estimation_spec indexes _ fc Hr Hok) as (o & -> & Ho). cbn. destruct o as [e|]; [|by apply covers_none].
    specialize (Ho e eq_refl). split.
    + eapply Forall_impl; [exact Ho|]. intros x ->. by split.
    + cbn. intros Hne i Hi'. destruct (primary_clauses e) as [|x l]; [done|]. apply Forall_cons in Ho as [-> _].
      constructor. intros Hl. unfold clause_selects. cbn. destruct (query_field s fc) as [l'|] eqn:Hq; [|by apply Hall].
      exists l'. split; [done|]. by apply (query_field_spec s fc).
  - unfold absence_cardinality. destruct (spi_field_indexes s !! k); (split; [by repeat constructor|]);
      intros _ i _; constructor; apply Hall.
  - unfold absence_cardinality. destruct (spi_field_indexes s !! k); (split; [by repeat constructor|]);
      intros _ i _; constructor; apply Hall.
  - split; cbn.
    + constructor; [|constructor]. split; [done|]. intros ids' i [= <-]. rewrite elem_of_mapped_ids by done. naive_solver.
    + intros _ i Hi. constructor. intros [e He]. unfold clause_selects. cbn. eexists. split; [done|].
      rewrite elem_of_elements, elem_of_mapped_ids by done. rewrite He in Hi. apply bool_decide_eq_true in Hi. eauto.
Qed.

Lemma res_map_exists {E A B} (f : A → result E B) l :
  (∀ x, x ∈ l → ∃ y, f x = Ok y) → ∃ ys, res_map f l = Ok ys ∧ Forall2 (λ x y, f x = Ok y) l ys.
Proof.
  induction l as [|x l IH]; intros Hl; [by exists []|]. destruct (Hl x) as [y Hy]; [left|].
  destruct IH as (ys & Hys & HF); [intros; apply Hl; by right|]. exists (y :: ys). cbn. rewrite Hy. cbn. rewrite Hys.
  split; [done|]. by constructor.
Qed.

(** The points selected by the primary clauses: all live, and every live
    point that passes the filter is among them. *)
Lemma preselected_spec t (s : SPI) filter :
  index_wf s → tracker_wf t → dead_empty t s →
  all_leaves (leaf_ok fc_ok) (CFilter filter) = true →
  ∃ e selected, struct_estimate_cardinality t s filter = Ok e ∧
    res_map (clause_points t s) (primary_clauses e) = Ok selected ∧
    (∀ i, i ∈ mjoin selected → is_Some (external_id t i)) ∧
    (primary_clauses e ≠ [] → ∀ i, is_Some (external_id t i) →
      check_payload (payload_of s i) (external_id t i) filter = true → i ∈ mjoin selected).
Proof using IdTrackerLaws0.
  intros Hs Ht Hdead Hok. pose proof (struct_estimate_spec t s filter Hs Hok) as Hest.
  set (est := estimated (condition_cardinality t s)) in *.
  pose proof (condition_estimation_covers _ _ (λ i, payload_checker (payload_of s i) (external_id t i))
    est (total_points t) (leaf_ok fc_ok) (λ c, leaf_covered t s c Hs Ht) (CFilter filter) Hok) as [Hgood Hcov].
  exists (filter_estimation est (total_points t) filter). set (clauses := primary_clauses _) in *.
  rewrite Forall_forall in Hgood.
  destruct (res_map_exists (clause_points t s) clauses) as (selected & Hsel & HF).
  { intros c Hc. destruct (Hgood c Hc) as [Hc1 _]. destruct (clause_points_live t s c) as (l & Hl & _); eauto. }
  exists selected. split_and!; [done|done| |].
  - intros i (l & Hi & Hl)%list_elem_of_join. apply list_elem_of_lookup in Hl as [k Hk].
    destruct (Forall2_lookup_r _ _ _ _ _ HF Hk) as (c & Hc & Hcl). apply list_elem_of_lookup_2 in Hc.
    destruct (Hgood c Hc) as [Hc1 Hc2]. destruct (clause_points_live t s c Hs Ht Hdead Hc1) as (l' & Hl' & Hi').
    rewrite Hcl in Hl'. injection Hl' as <-. destruct (Hi' i Hi) as [?|(ids & -> & ?)]; eauto.
  - intros Hne i Hi Hp. specialize (Hcov Hne i Hp). apply Exists_exists in Hcov as (c & Hc & Hsc).
    destruct (Hsc Hi) as (l & Hl & Hil). apply list_elem_of_lookup in Hc as [k Hk].
    destruct (Forall2_lookup_l _ _ _ _ _ HF Hk) as (l' & Hl' & Hcl). rewrite Hl in Hcl. injection Hcl as <-.
    apply list_elem_of_join. exists l. split; [done|]. by eapply list_elem_of_lookup_2.
Qed.
(** ** Updates *)

Lemma for_each_mut_wp {I E} (m : sm I E unit) (P Q : I → Prop) l :
  Forall P l → (∀ i, P i → sm_wp m (λ _, Q) (λ _ _, True) i) →
  sm_wp (for_each_mut m) (λ _, Forall Q) (λ _ _, True) l.
Proof.
  intros Hl Hm. unfold sm_wp. induction Hl as [|i l Hi _ IH]; cbn [for_each_mut]; [constructor|].
  specialize (Hm i Hi). unfold sm_wp in Hm. destruct (m i) as [[[]|e|] i']; [|done|done].
  destruct (for_each_mut m l) as [[[]|e|] l']; [by constructor|done|done].
Qed.

(** The loop over the fields takes the indexes of each field from [P] to [Q]
    and changes nothing else. *)
Lemma for_each_field_wp (m : PayloadKeyType → sm (list FI) OperationError unit)
    (P Q : PayloadKeyType → list FI → Prop) (s : SPI) :
  (∀ key l, spi_field_indexes s !! key = Some l → P key l) →
  (∀ key l, P key l → sm_wp (m key) (λ _, Q key) (λ _ _, True) l) →
  sm_wp (for_each_field m)
    (λ _ s', ∃ f, s' = set_field_indexes f s ∧ dom f = dom (spi_field_indexes s) ∧
      ∀ key l, f !! key = Some l → Q key l)
    (λ _ s', ∃ f, s' = set_field_indexes f s) s.
Proof.
  intros HP Hm. unfold for_each_field. unfold sm_wp at 1.
  assert (∀ ks f, NoDup ks → (∀ key l, f !! key = Some l → if decide (key ∈ ks) then P key l else Q key l) →
    sm_wp (sm_for (λ key, on_field key (m key)) ks)
      (λ _ s', ∃ g, s' = set_field_indexes g s ∧ dom g = dom f ∧ ∀ key l, g !! key = Some l → Q key l)
      (λ _ s', ∃ g, s' = set_field_indexes g s) (set_field_indexes f s)) as Hloop.
  { clear HP. intros ks. induction ks as [|k ks IH]; intros f Hnd Hf; cbn [sm_for].
    - apply sm_wp_ret. exists f. split_and!; [done..|]. intros key l Hl. specialize (Hf key l Hl).
      by rewrite decide_False in Hf by apply not_elem_of_nil.
    - apply NoDup_cons in Hnd as [Hk Hnd]. apply sm_wp_bind. unfold sm_wp at 1, on_field. cbn.
      destruct (f !! k) as [l|] eqn:Hl.
      + pose proof (Hf k l Hl) as Hp. rewrite decide_True in Hp by left. specialize (Hm k l Hp). unfold sm_wp in Hm.
        destruct (m k l) as [[[]|e|] l']; [|by eexists|done].
        eapply sm_wp_mono; [apply (IH (<[k := l']> f) Hnd)| |done].
        * intros key l1. rewrite lookup_insert_Some. intros [[<- <-]|[Hne Hl1]]; [by rewrite decide_False|].
          specialize (Hf key l1 Hl1). by rewrite decide_elem_cons_ne in Hf.
        * intros _ s' (g & -> & Hd & Hq). exists g. split_and!; [done| |done]. rewrite Hd, dom_insert_L.
          apply elem_of_dom_2 in Hl. set_solver.
      + apply IH; [done|]. intros key l Hl'. specialize (Hf key l Hl').
        by rewrite decide_elem_cons_ne in Hf by congruence. }
  specialize (Hloop (map_to_list (spi_field_indexes s)).*1 (spi_field_indexes s) (NoDup_fst_map_to_list _)).
  replace (set_field_indexes (spi_field_indexes s) s) with s in Hloop by by destruct s.
  apply Hloop. intros key l Hl. rewrite decide_True; [by apply HP|].
  apply list_elem_of_fmap. exists (key, l). split; [done|]. by apply elem_of_map_to_list.
Qed.

Definition run_index_op (op : index_op Num) : sm SPI OperationError unit :=
  match op with
  | IAssign i p => struct_assign i p
  | IAssignAll i p => _ ← struct_drop i; struct_assign i p
  | IDelete i key => _ ← struct_delete i key; mret tt
  | IDrop i => _ ← struct_drop i; mret tt
  end.

(** When the indexes follow an update.  Replacing and dropping the payload
    always do.  A partial update does if the indexed fields are plain keys and
    each of them that it assigns gets a value its indexes can hold. *)
Definition index_op_safe (s : SPI) (op : index_op Num) : Prop :=
  match op with
  | IAssign _ p => ∀ key indexes index v,
      spi_field_indexes s !! key = Some indexes → index ∈ indexes →
      plain_key key = true ∧ (p !! key = Some v → fi_covers fc_ok index (MSingle (Some v)) = true)
  | IDelete _ key => plain_key key = true ∧
      ∀ key' indexes, spi_field_indexes s !! key' = Some indexes → plain_key key' = true
  | _ => True
  end.

Lemma field_content_set ps ps' i p key :
  payload_set i p ps ps' →
  ∀ j, content_set i (payload_get_value (default ∅ p) key) (field_content ps key) j = field_content ps' key j.
Proof.
  intros Hset j. unfold content_set, field_content. rewrite Hset. by destruct (decide (j = i)).
Qed.

(** From the indexes after the loop and the storage after its operation. *)
Lemma index_wf_set (s : SPI) f ps' i p :
  index_wf s → payload_set i p (spi_payload s) ps' →
  (∀ key indexes, f !! key = Some indexes → Forall (λ index,
    reflects index (content_set i (payload_get_value (default ∅ p) key) (field_content (spi_payload s) key))) indexes) →
  index_wf (set_payload_storage ps' (set_field_indexes f s)).
Proof.
  intros Hs Hset Hf. split; cbn; [|apply Hs]. intros key indexes Hk. eapply Forall_impl; [by apply Hf|].
  cbn. intros index. apply fi_reflects_ext. intros j. by apply field_content_set.
Qed.

Lemma struct_drop_spec i (s : SPI) :
  index_wf s →
  sm_wp (struct_drop i) (λ r s', r = ps_payload_ptr (spi_payload s) i ∧ index_wf s' ∧
      payload_set i None (spi_payload s) (spi_payload s')) (λ _ _, True) s.
Proof using HRL PayloadStorageLaws0.
  intros Hs. unfold struct_drop. apply sm_wp_bind.
  eapply sm_wp_mono; [apply (for_each_field_wp _
    (λ key, Forall (λ index, reflects index (field_content (spi_payload s) key)))
    (λ key, Forall (λ index, reflects index (content_set i (MSingle None) (field_content (spi_payload s) key)))))
    | |done].
  - intros key l Hl. by apply Hs.
  - intros key l Hl. eapply for_each_mut_wp; [exact Hl|]. intros index. apply fi_remove_spec.
  - intros _ s' (f & -> & _ & Hf). unfold on_storage. apply sm_wp_zoom.
    eapply sm_wp_mono; [apply ps_drop_spec| |done]. cbn. intros r ps' [-> Hset]. split_and!; [done| |done].
    eapply index_wf_set; [done|exact Hset|]. intros key indexes Hk.
    change (default ∅ None) with (∅ : Payload Num). rewrite payload_get_empty. by apply Hf.
Qed.

(** A new payload for a point that has none. *)
Lemma struct_assign_new_spec i p (s : SPI) :
  index_wf s → ps_payload_ptr (spi_payload s) i = None →
  sm_wp (struct_assign i p) (λ _ s', index_wf s' ∧
      payload_set i (Some p) (spi_payload s) (spi_payload s')) (λ _ _, True) s.
Proof using HRL PayloadStorageLaws0.
  intros Hs Hi. unfold struct_assign. apply sm_wp_bind.
  eapply sm_wp_mono; [apply (for_each_field_wp _
    (λ key, Forall (λ index, reflects index (field_content (spi_payload s) key)))
    (λ key, Forall (λ index, reflects index
      (content_set i (payload_get_value p key) (field_content (spi_payload s) key)))))
    | |done].
  - intros key l Hl. by apply Hs.
  - intros key l Hl. eapply for_each_mut_wp; [exact Hl|]. intros index Hr. apply fi_add_empty; [done|].
    unfold field_content. rewrite Hi. apply payload_get_empty.
  - intros _ s' (f & -> & _ & Hf). unfold on_storage. apply sm_wp_zoom.
    eapply sm_wp_mono; [apply ps_assign_spec| |done]. cbn. rewrite Hi. intros _ ps' Hset.
    split; [|done]. by eapply index_wf_set.
Qed.

(** A payload merged into the one of the point. *)
Lemma struct_assign_merge_spec i p old (s : SPI) :
  index_wf s → ps_payload_ptr (spi_payload s) i = Some old → index_op_safe s (IAssign i p) →
  sm_wp (struct_assign i p) (λ _ s', index_wf s' ∧
      payload_set i (Some (payload_merge old p)) (spi_payload s) (spi_payload s')) (λ _ _, True) s.
Proof using HRL PayloadStorageLaws0.
  intros Hs Hi Hsafe. unfold struct_assign. apply sm_wp_bind.
  eapply sm_wp_mono; [apply (for_each_field_wp _
    (λ key l, spi_field_indexes s !! key = Some l)
    (λ key, Forall (λ index, reflects index
      (content_set i (payload_get_value (payload_merge old p) key) (field_content (spi_payload s) key)))))
    | |done].
  - done.
  - intros key l Hl. eapply (for_each_mut_wp _ (λ index, index ∈ l)); [by apply Forall_forall|].
    intros index Hin. pose proof (iw_reflects s Hs key l Hl) as Hr. rewrite Forall_forall in Hr.
    eapply sm_wp_mono; [by apply fi_add_spec, Hr| |done]. intros [] index'. apply fi_reflects_ext. intros j.
    destruct (Hsafe key l index VNull Hl Hin) as [Hplain _]. rewrite !payload_get_plain, lookup_payload_merge by done.
    destruct (p !! key) as [v|] eqn:Hv; unfold mv_option.
    + destruct (Hsafe key l index v Hl Hin) as [_ Hcov]. rewrite (Hcov Hv).
      destruct v; try done. by rewrite fi_null in Hcov; discriminate Hcov.
    + rewrite fi_absent. unfold content_set, field_content. destruct (decide (j = i)) as [->|]; [|done].
      by rewrite Hi, payload_get_plain.
  - intros _ s' (f & -> & _ & Hf). unfold on_storage. apply sm_wp_zoom.
    eapply sm_wp_mono; [apply ps_assign_spec| |done]. cbn. rewrite Hi. intros _ ps' Hset.
    split; [|done]. by eapply index_wf_set.
Qed.

Lemma on_field_wp key (m : sm (list FI) OperationError unit) (P : list FI → Prop) (s : SPI) :
  (∀ l, spi_field_indexes s !! key = Some l → sm_wp m (λ _, P) (λ _ _, True) l) →
  sm_wp (on_field key m)
    (λ _ s', ∃ f, s' = set_field_indexes f s ∧
      ∀ k l, f !! k = Some l → if decide (k = key) then P l else spi_field_indexes s !! k = Some l)
    (λ _ _, True) s.
Proof.
  intros Hm. unfold sm_wp, on_field. destruct (spi_field_indexes s !! key) as [l|] eqn:Hl.
  - specialize (Hm l eq_refl). unfold sm_wp in Hm. destruct (m l) as [[[]|e|] l']; [|done|done].
    eexists. split; [done|]. intros k l1. destruct (decide (k = key)) as [->|Hne].
    + rewrite lookup_insert_eq. by intros [= <-].
    + by rewrite lookup_insert_ne.
  - exists (spi_field_indexes s). split; [by destruct s|]. intros k l Hk. destruct (decide (k = key)); congruence.
Qed.

Lemma struct_delete_spec i key (s : SPI) :
  index_wf s → index_op_safe s (IDelete i key) →
  sm_wp (struct_delete i key) (λ _ s', index_wf s' ∧
      payload_set i (index_op_payload (IDelete i key) (ps_payload_ptr (spi_payload s) i))
        (spi_payload s) (spi_payload s')) (λ _ _, True) s.
Proof using HRL PayloadStorageLaws0.
  intros Hs [Hplain Hsafe]. unfold struct_delete. apply sm_wp_bind.
  eapply sm_wp_mono; [apply (on_field_wp _ _ (Forall (λ index,
    reflects index (content_set i (MSingle None) (field_content (spi_payload s) key)))))| |done].
  - intros l Hl. eapply for_each_mut_wp; [by apply Hs|]. intros index. apply fi_remove_spec.
  - intros _ s' (f & -> & Hf). unfold on_storage. apply sm_wp_zoom.
    eapply sm_wp_mono; [apply ps_delete_spec| |done]. cbn. intros _ ps' Hset. split; [|done].
    eapply index_wf_set; [done|exact Hset|]. intros k indexes Hk. specialize (Hf k indexes Hk).
    set (old := ps_payload_ptr (spi_payload s) i) in *.
    assert (∀ k, plain_key k = true → payload_get_value (default ∅ ((λ o, (payload_remove o key).2) <$> old)) k =
      if decide (k = key) then MSingle None else payload_get_value (default ∅ old) k) as Hget.
    { intros k' Hk'. destruct old as [o|]; cbn [fmap option_fmap option_map default from_option id].
      2:{ rewrite !payload_get_empty. by destruct (decide (k' = key)). }
      rewrite payload_remove_plain, !payload_get_plain by done.
      destruct (decide (k' = key)) as [->|]; [by rewrite lookup_delete_eq|by rewrite lookup_delete_ne]. }
    destruct (decide (k = key)) as [->|Hne].
    + by rewrite Hget, decide_True.
    + rewrite Hget, decide_False by eauto. eapply Forall_impl; [by apply Hs|]. intros index. apply fi_reflects_ext.
      intros j. unfold content_set, field_content. by destruct (decide (j = i)) as [->|].
Qed.
(** ** Building an index *)

Section build.
Context (new_int : DB → string → NI) (new_float : DB → string → NF)
  (new_geo : DB → string → GI) (new_text : DB → TextIndexParams → string → TI).
Context (write_config : gmap PayloadKeyType PayloadFieldSchema → OperationResult unit).
Hypothesis new_int_empty : ∀ db f, kl_reflects (new_int db f) empty_content.
Hypothesis new_float_empty : ∀ db f, kl_reflects (new_float db f) empty_content.
Hypothesis new_geo_empty : ∀ db f, kl_reflects (new_geo db f) empty_content.
Hypothesis new_text_empty : ∀ db c f, kl_reflects (new_text db c f) empty_content.
Hypothesis write_config_no_panic : ∀ c, write_config c ≠ Panic.

Lemma new_map_reflects {V} `{Countable V} `{!TextValue V} (get_value : Value Num → option V) column (db : DB) :
  map_reflects get_value (mkMapColumn column (map_new db)) empty_content.
Proof using HRL. split; [apply map_new_wf|]. done. Qed.

Lemma select_indexes_empty (s : SPI) field schema :
  Forall (λ index, reflects index empty_content)
    (select_indexes new_int new_float new_geo new_text s field schema).
Proof using HRL new_int_empty new_float_empty new_geo_empty new_text_empty.
  unfold select_indexes, index_selector. destruct schema as [[]|]; repeat apply Forall_cons_2; try apply Forall_nil_2;
    first [apply new_int_empty|apply new_float_empty|apply new_geo_empty|apply new_text_empty|apply new_map_reflects].
Qed.

Lemma build_loop field pairs f (l : list FI) :
  NoDup pairs.*1 → (∀ i, i ∈ pairs.*1 → f i = MSingle None) → Forall (λ index, reflects index f) l →
  sm_wp (sm_for (λ p : PointOffsetType * Payload Num,
      for_each_mut (fi_add_point p.1 (payload_get_value p.2 field))) pairs)
    (λ _, Forall (λ index, reflects index
      (fold_left (λ f p, content_set p.1 (payload_get_value p.2 field) f) pairs f)))
    (λ _ _, True) l.
Proof.
  revert f l. induction pairs as [|[i p] pairs IH]; intros f l Hnd Hf Hl; cbn [sm_for fold_left]; [by apply sm_wp_ret|].
  apply NoDup_cons in Hnd as [Hi Hnd]. apply sm_wp_bind.
  eapply sm_wp_mono; [eapply for_each_mut_wp; [exact Hl|]| |done].
  - intros index Hr. apply (fi_add_empty fc_ok); [exact Hr|]. apply Hf. left.
  - cbn [fst snd]. intros _ l' Hl'. apply IH; [done| |done]. intros j Hj. unfold content_set.
    rewrite decide_False by (intros ->; done). apply Hf. by right.
Qed.

Lemma build_content pairs field f i :
  NoDup pairs.*1 →
  fold_left (λ f p, content_set p.1 (payload_get_value p.2 field) f) pairs f i =
    match list_to_map (M:=gmap nat (Payload Num)) pairs !! i with
    | Some p => payload_get_value p field
    | None => f i
    end.
Proof.
  revert f. induction pairs as [|[j p] pairs IH]; intros f Hnd; cbn [fold_left list_to_map foldr]; [done|].
  apply NoDup_cons in Hnd as [Hj Hnd]. rewrite IH by done. cbn [uncurry fst snd].
  destruct (decide (i = j)) as [->|Hne].
  - rewrite not_elem_of_list_to_map_1 by done. rewrite lookup_insert_eq. unfold content_set. by rewrite decide_True.
  - rewrite lookup_insert_ne by done. unfold content_set. by rewrite decide_False.
Qed.

(** A built index reflects the stored payloads. *)
Lemma build_field_indexes_spec (s : SPI) field schema :
  match build_field_indexes new_int new_float new_geo new_text s field schema with
  | Ok indexes => Forall (λ index, reflects index (field_content (spi_payload s) field)) indexes
  | Err _ => True
  | Panic => False
  end.
Proof using HRL PayloadStorageLaws0 new_int_empty new_float_empty new_geo_empty new_text_empty.
  unfold build_field_indexes.
  set (build := (_ ← for_each_mut fi_recreate; _) : sm (list FI) OperationError unit).
  assert (sm_wp build (λ _, Forall (λ index, reflects index (field_content (spi_payload s) field))) (λ _ _, True)
    (select_indexes new_int new_float new_geo new_text s field schema)) as Hwp.
  { apply sm_wp_bind. eapply sm_wp_mono; [eapply for_each_mut_wp; [apply select_indexes_empty|]| |done].
    - intros index. apply fi_recreate_spec.
    - intros [] l Hl. eapply sm_wp_mono; [apply build_loop; [apply NoDup_ps_iter|done|exact Hl]| |done].
      intros [] l' Hl'. eapply Forall_impl; [exact Hl'|]. intros index. apply fi_reflects_ext. intros i.
      rewrite build_content by apply NoDup_ps_iter. unfold field_content.
      destruct (ps_payload_ptr (spi_payload s) i) as [p|] eqn:Hp.
      + rewrite (elem_of_list_to_map_1 _ i p); [done|apply NoDup_ps_iter|by apply elem_of_ps_iter].
      + rewrite not_elem_of_list_to_map_1; [symmetry; apply payload_get_empty|].
        intros ([j q] & -> & Hin)%list_elem_of_fmap. apply elem_of_ps_iter in Hin. cbn in Hp. congruence. }
  unfold sm_wp in Hwp. by destruct (build _) as [[[]|e|] l].
Qed.

(** Creating an index.  For a field that is not indexed yet,
    [set_indexed] runs without panic; when it succeeds, the configuration on
    disk and in memory has the field, the new indexes reflect every stored
    payload, and the payloads and the other indexes are untouched; when it
    fails, no index has changed. *)
Lemma set_indexed_builds (s : SPI) field schema
  (Hs : index_wf s) (Hnew : spi_config s !! field = None) :
  sm_wp (struct_set_indexed new_int new_float new_geo new_text write_config field schema)
    (λ _ s', index_wf s' ∧ spi_payload s' = spi_payload s ∧
      spi_config s' = <[field := schema]> (spi_config s) ∧ spi_saved_config s' = spi_config s' ∧
      is_Some (spi_field_indexes s' !! field) ∧
      ∀ key, key ≠ field → spi_field_indexes s' !! key = spi_field_indexes s !! key)
    (λ _ s', index_wf s' ∧ spi_payload s' = spi_payload s ∧ spi_field_indexes s' = spi_field_indexes s) s.
Proof using HRL PayloadStorageLaws0 new_int_empty new_float_empty new_geo_empty new_text_empty write_config_no_panic.
  destruct Hs as [Hr Hp]. unfold struct_set_indexed. apply sm_wp_bind. unfold sm_wp at 1, sm_get.
  apply sm_wp_bind, sm_wp_modify. rewrite Hnew. unfold save_config. apply sm_wp_bind, sm_wp_bind.
  unfold sm_wp at 1, sm_get. apply sm_wp_bind. unfold sm_wp at 1, sm_lift. cbn [set_config spi_config].
  specialize (write_config_no_panic (<[field := schema]> (spi_config s))).
  destruct (write_config _) as [[]|e|]; [|by repeat split|done].
  apply sm_wp_modify. unfold build_and_save. apply sm_wp_bind. unfold sm_wp at 1, sm_get.
  apply sm_wp_bind. unfold sm_wp at 1, sm_lift. set (s1 := set_saved_config _ _).
  pose proof (build_field_indexes_spec s1 field schema) as Hb.
  destruct (build_field_indexes _ _ _ _ s1 field schema) as [l|e|]; [|by repeat split|done].
  apply sm_wp_modify. split_and!; try done; cbn.
  - split; cbn; [|done]. intros key indexes. rewrite lookup_insert_Some. intros [[<- <-]|[_ Hk]]; [done|by apply Hr].
  - rewrite lookup_insert_eq. eauto.
  - intros key Hne. by rewrite lookup_insert_ne.
Qed.
End build.

Lemma assign_null_loop i key c rest (s : SPI) :
  index_wf s → plain_key key = true → spi_field_indexes s !! key = Some (KeywordIndex c :: rest) →
  sm_wp (for_each_field (λ field,
      for_each_mut (fi_add_point i (payload_get_value ({[ key := VNull ]} : Payload Num) field))))
    (λ _ s', ∃ f, s' = set_field_indexes f s ∧ ∃ rest', f !! key = Some (KeywordIndex c :: rest'))
    (λ _ _, True) s.
Proof using HRL PayloadStorageLaws0.
  intros Hs Hplain Hkey.
  eapply sm_wp_mono; [apply (for_each_field_wp _
    (λ k l, Forall (λ index, reflects index (field_content (spi_payload s) k)) l ∧
      (k = key → l = KeywordIndex c :: rest))
    (λ k l, k = key → ∃ rest', l = KeywordIndex c :: rest'))| |done].
  - intros k l Hl. split; [by apply Hs|]. intros ->. congruence.
  - intros k l [Hl Heq].
    assert (∀ l', Forall (λ index, reflects index (field_content (spi_payload s) k)) l' →
      sm_wp (for_each_mut (fi_add_point i (payload_get_value ({[ key := VNull ]} : Payload Num) k)))
        (λ _ _, True) (λ _ _, True) l') as Hrun.
    { intros l' Hl'. eapply sm_wp_mono; [eapply for_each_mut_wp with (Q := λ _, True); [exact Hl'|]|done|done].
      intros index Hr. eapply sm_wp_mono; [exact (fi_add_spec fc_ok index _ i _ Hr)|done|done]. }
    destruct (decide (k = key)) as [->|Hne]; [|by eapply sm_wp_mono; [by apply Hrun| |]].
    rewrite (Heq eq_refl) in *. apply Forall_cons in Hl as [_ Hl]. specialize (Hrun rest Hl).
    rewrite payload_get_plain, lookup_singleton_eq in * by done. unfold sm_wp in *. cbn [for_each_mut].
    unfold fi_add_point at 1, on_variant, io_add_point, keyword_index_ops, on_mc_index, sm_zoom. cbn -[for_each_mut].
    replace (mkMapColumn (mc_column c) (mc_index c)) with c by by destruct c.
    destruct (for_each_mut _ rest) as [[[]|e|] rest']; [by eauto|done|done].
  - intros _ s' (f & -> & Hdom & Hf). exists f. split; [done|].
    assert (is_Some (f !! key)) as [l Hl] by (apply elem_of_dom; rewrite Hdom; apply elem_of_dom; eauto).
    destruct (Hf key l Hl eq_refl) as [rest' ->]. eauto.
Qed.

(** Assigning null to an indexed field leaves the index behind.  The
    point had the keyword [w]; after a successful [assign] of a payload that
    nulls the field, the stored payload has no such field, and the index
    still lists the point under [w]. *)
Lemma assign_null_stale (s s' : SPI) i key w c rest old
  (Hs : index_wf s) (Hplain : plain_key key = true)
  (Hkey : spi_field_indexes s !! key = Some (KeywordIndex c :: rest))
  (Hold : ps_payload_ptr (spi_payload s) i = Some old) (Hw : old !! key = Some (VString w))
  (Hrun : struct_assign i {[ key := VNull ]} s = (Ok tt, s')) :
  payload_get_value (payload_of s' i) key = MSingle None ∧
  ∃ l, query_field (Num:=Num) s' (new_match key (MatchValue (VKeyword w))) = Some l ∧ i ∈ l.
Proof using HRL PayloadStorageLaws0.
  pose proof (iw_reflects s Hs _ _ Hkey) as [[Hwf Hv] _]%Forall_cons.
  unfold struct_assign in Hrun. apply sm_bind_Ok_inv in Hrun as ([] & s1 & Hloop & Hrun).
  apply (sm_wp_Ok_inv _ _ _ _ _ _ (assign_null_loop i key c rest s Hs Hplain Hkey)) in Hloop as (f & -> & rest' & Hf).
  assert (sm_wp (on_storage (ps_assign i {[ key := VNull ]}))
    (λ _ s', spi_field_indexes s' = f ∧ payload_of s' i = payload_merge old {[ key := VNull ]}) (λ _ _, True)
    (set_field_indexes f s)) as Hwp.
  { unfold on_storage. apply sm_wp_zoom. eapply sm_wp_mono; [apply ps_assign_spec| |done].
    cbn. rewrite Hold. intros _ ps' Hset. split; [done|]. unfold payload_of. cbn. by rewrite Hset, decide_True. }
  apply (sm_wp_Ok_inv _ _ _ _ _ _ Hwp) in Hrun as [Hf' Hp]. split.
  - by rewrite Hp, payload_get_plain, lookup_payload_merge, lookup_singleton_eq.
  - unfold query_field. rewrite Hf'. cbn [new_match fc_key]. rewrite Hf. cbn. eexists. split; [done|].
    rewrite map_get_iterator_ids, merge_sort_Permutation, elem_of_elements, (mw_ids _ Hwf), Hv.
    unfold field_content. rewrite Hold. change (default ∅ (Some old)) with old.
    rewrite payload_get_plain, Hw by done. cbn. left.
Qed.

Lemma payload_set_trans (ps1 ps2 ps3 : PS) i p q :
  payload_set i p ps1 ps2 → payload_set i q ps2 ps3 → payload_set i q ps1 ps3.
Proof. intros H1 H2 j. rewrite H2, H1. by destruct (decide (j = i)). Qed.

(** The field indexes follow the payloads.  Every update of a payload
    runs without panic; when it succeeds, the payload of its point is the new
    one, those of the other points are as before, and every index of every
    field again reflects the stored payloads.  For [assign] and [delete] this
    needs [index_op_safe]. *)
Lemma index_op_keeps_indexes (s : SPI) (op : index_op Num)
  (Hs : index_wf s) (Hsafe : index_op_safe s op) :
  sm_wp (run_index_op op)
    (λ _ s', index_wf s' ∧
      payload_set (index_op_point op)
        (index_op_payload op (ps_payload_ptr (spi_payload s) (index_op_point op)))
        (spi_payload s) (spi_payload s'))
    (λ _ _, True) s.
Proof using HRL PayloadStorageLaws0.
  destruct op as [i p|i p|i key|i]; cbn [run_index_op index_op_point index_op_payload].
  - destruct (ps_payload_ptr (spi_payload s) i) as [old|] eqn:Hi.
    + by apply struct_assign_merge_spec.
    + by apply struct_assign_new_spec.
  - apply sm_wp_bind. eapply sm_wp_mono; [by apply struct_drop_spec| |done].
    intros r s1 (_ & Hs1 & Hset1). eapply sm_wp_mono; [apply struct_assign_new_spec; [done|]| |done].
    + rewrite Hset1. by rewrite decide_True.
    + intros _ s2 [Hs2 Hset2]. split; [done|]. by eapply payload_set_trans.
  - apply sm_wp_bind. eapply sm_wp_mono; [by apply struct_delete_spec| |done]. intros r s' Hs'. by apply sm_wp_ret.
  - apply sm_wp_bind. eapply sm_wp_mono; [by apply struct_drop_spec| |done].
    intros r s' (_ & Hs' & Hset). by apply sm_wp_ret.
Qed.

Lemma struct_query_spec t (s : SPI) filter
  (Hs : index_wf s) (Ht : tracker_wf t) (Hdead : dead_empty t s)
  (Hne : no_empty_should_filter filter = true)
  (Hok : all_leaves (leaf_ok fc_ok) (CFilter filter) = true) :
  ∃ l pool, struct_query_points t filter s = (Ok l, set_pool pool s) ∧
    Forall visited_wf pool ∧ NoDup l ∧
    ∀ i, i ∈ l ↔ is_Some (external_id t i) ∧
      check_payload (payload_of s i) (external_id t i) filter = true.
Proof using fc_ok_one HRL IdTrackerLaws0.
  destruct (preselected_spec t s filter Hs Ht Hdead Hok) as (e & selected & Hest & Hsel & Hlive & Hcov).
  destruct (struct_context_spec t s filter Hs Ht Hne Hok) as (ctx & Hctx & Hcheck).
  unfold struct_query_points. rewrite (sm_bind_Ok _ _ _ s s) by done. rewrite (sm_bind_Ok _ _ s e s) by by unfold sm_lift; rewrite Hest.
  destruct (primary_clauses e) as [|c clauses].
  - destruct (iter_internal_live t Ht) as (live & Hiter & Hnd & Hin).
    rewrite (sm_bind_Ok _ _ s live s) by by unfold sm_lift; rewrite Hiter.
    rewrite (sm_bind_Ok _ _ s ctx s) by by unfold sm_lift; rewrite Hctx.
    exists (base.filter (λ i, check_optimized_filter ctx i = true) live), (spi_visited_pool s).
    split_and!; [by destruct s|apply Hs|by apply NoDup_filter|]. intros i.
    rewrite list_elem_of_filter, Hin, Hcheck by done. tauto.
  - rewrite (sm_bind_Ok _ _ s ctx s) by by unfold sm_lift; rewrite Hctx.
    rewrite Hsel. destruct (visited_query_spec (E:=OperationError) (internal_size t) (mjoin selected) (spi_visited_pool s))
      as (out & pool & Hq & Hpool & Hnd & Hout); [apply Hs|].
    exists (base.filter (λ i, check_optimized_filter ctx i = true) out), pool.
    split_and!; [|done|by apply NoDup_filter|].
    + rewrite (sm_bind_Ok _ _ s selected s) by done. unfold mbind, sm_bind, sm_zoom. by rewrite Hq.
    + intros i. rewrite list_elem_of_filter, Hout, Hcheck by done. naive_solver.
Qed.

(** C37: a filtered query is exact.  [query_points] returns without error, and
    what it returns is every live point whose payload passes the filter, each
    once, and nothing else, whether it scans all points or takes the points of
    the primary clauses from the field indexes; only the pool of visited lists
    changes.  This is for filters without a [should] clause that is empty, and
    whose conditions on fields each make one requirement, of a kind that the
    indexes answer exactly ([leaf_ok]; of the ranges on a float index, those
    with at most one bound on a side and not from a number to the same one),
    and for an index that agrees with the stored payloads ([index_wf]) and has
    none for points that are deleted. *)
Theorem query_points_exact t (s : SPI) filter
  (Hs : index_wf s) (Ht : tracker_wf t) (Hdead : dead_empty t s)
  (Hne : no_empty_should_filter filter = true)
  (Hok : all_leaves (leaf_ok fc_ok) (CFilter filter) = true) :
  ∃ l pool, struct_query_points t filter s = (Ok l, set_pool pool s) ∧
    Forall visited_wf pool ∧ NoDup l ∧
    ∀ i, i ∈ l ↔ is_Some (external_id t i) ∧
      check_payload (payload_of s i) (external_id t i) filter = true.
Proof using fc_ok_one HRL IdTrackerLaws0. by apply struct_query_spec. Qed.
End spec.

(** ** Witnesses *)

#[local] Existing Instance integer_numbers.
#[local] Existing Instance no_values.
#[local] Existing Instance no_text.
#[local] Existing Instance flat_geo.
#[local] Instance no_index_ops : IndexOps Z Empty_set := {|
  io_recreate := Empty_set_rect _;
  io_load := Empty_set_rect _;
  io_clear := Empty_set_rect _;
  io_filter := Empty_set_rect _;
  io_estimate_cardinality := Empty_set_rect _;
  io_payload_blocks := Empty_set_rect _;
  io_count_indexed_points := Empty_set_rect _;
  io_add_point _ _ := Empty_set_rect _;
  io_remove_point _ := Empty_set_rect _;
|}.
#[local] Instance no_kind_laws checker : KindLaws (Num:=Z) one_condition Empty_set checker :=
  empty_kind_laws one_condition checker.
#[local] Instance one_condition_single : SingleConditions one_condition := λ _ H, H.

Abbreviation ColorSPI := (StructPayloadIndex (gmap nat (Payload Z)) ColorIndex MemDB).

(** An index on the field [color], empty and after two payloads. *)
Definition color_spi0 : ColorSPI :=
  mkStructIndex ∅ {[ "color" := [KeywordIndex (mkMapColumn "color_map" (map_new keyword_db))] ]}
    {[ "color" := FieldType Keyword ]} {[ "color" := FieldType Keyword ]} [] keyword_db.
Definition color_spi1 : ColorSPI := (struct_assign 0 (color_payload 0) color_spi0).2.
Definition color_spi : ColorSPI := (struct_assign 1 (color_payload 1) color_spi1).2.

Lemma color_spi0_wf : index_wf one_condition color_spi0.
Proof.
  split; [|constructor]. unfold color_spi0. cbn. intros key indexes [<- <-]%lookup_singleton_Some.
  apply Forall_singleton. split; [apply map_new_wf|]. intros i.
  change (field_content _ "color" i) with (payload_get_value (∅ : Payload Z) "color"). by rewrite payload_get_empty.
Qed.

Lemma color_spi_wf : index_wf one_condition color_spi.
Proof.
  assert (index_wf one_condition color_spi1) as H1.
  { apply (sm_wp_Ok_inv _ _ _ _ tt color_spi1
      (struct_assign_new_spec one_condition 0 (color_payload 0) color_spi0 color_spi0_wf eq_refl)).
    vm_compute; reflexivity. }
  apply (sm_wp_Ok_inv _ _ _ _ tt color_spi
    (struct_assign_new_spec one_condition 1 (color_payload 1) color_spi1 H1 eq_refl)).
  vm_compute; reflexivity.
Qed.

Lemma color_spi_payload : spi_payload color_spi = {[ 0 := color_payload 0; 1 := color_payload 1 ]}.
Proof. vm_compute; reflexivity. Qed.

Lemma color_dead : dead_empty sample_tracker color_spi.
Proof.
  intros i Hi. unfold payload_of. rewrite color_spi_payload. unfold ps_payload_ptr, in_memory_scan, mem_payload_ptr.
  destruct i as [|[|i]]; [by vm_compute in Hi..|]. by rewrite lookup_insert_ne, lookup_singleton_ne.
Qed.

Lemma query_points_exact_witness :
  ∃ l pool, struct_query_points sample_tracker color_filter color_spi = (Ok l, set_pool pool color_spi) ∧
    1 ∈ l ∧ l ≡ₚ [0; 1].
Proof.
  destruct (query_points_exact one_condition sample_tracker color_spi color_filter) as (l & pool & Hq & _ & Hnd & Hin).
  - apply color_spi_wf.
  - apply sample_tracker_wf.
  - apply color_dead.
  - by vm_compute.
  - by vm_compute.
  - assert (0 ∈ l) by (apply Hin; split; [exists (NumId 7)|]; vm_compute; reflexivity).
    assert (1 ∈ l) by (apply Hin; split; [exists (Uuid 5)|]; vm_compute; reflexivity).
    exists l, pool. split_and!; [exact Hq|done|].
    apply NoDup_Permutation; [exact Hnd|by repeat constructor; rewrite ?elem_of_cons, ?elem_of_nil; lia|].
    intros i. rewrite !elem_of_cons, elem_of_nil. destruct i as [|[|i]]; [tauto|tauto|].
    split; [|lia]. intros Hi. apply Hin in Hi as [[e He] _]. by vm_compute in He.
Defined.

Lemma color_spi_indexes : spi_field_indexes color_spi = color_indexes.
Proof. vm_compute; reflexivity. Qed.

Definition green_op : index_op Z := IAssign 0 {[ "color" := VString "green"; "size" := VNumber 3%Z ]}.

Lemma green_op_safe : index_op_safe one_condition color_spi green_op.
Proof.
  intros key indexes index v. rewrite color_spi_indexes. unfold color_indexes.
  intros [<- <-]%lookup_singleton_Some ->%list_elem_of_singleton. split; [by vm_compute|]. by intros [= <-].
Qed.

(** Kinds of index that answer nothing, for matches of values only. *)
Definition match_only (fc : FieldCondition) : bool :=
  one_condition fc && match fc_match fc with Some (MatchValue _) | Some (MatchAny _) => true | _ => false end.

#[local] Instance match_only_single : SingleConditions match_only.
Proof. by intros fc [? _]%andb_true_iff. Qed.

#[local] Instance idle_index_ops : IndexOps Z unit := {|
  io_recreate := mret tt; io_load := mret true; io_clear _ := Ok tt;
  io_filter _ _ := None; io_estimate_cardinality _ _ := Ok None; io_payload_blocks _ _ _ := [];
  io_count_indexed_points _ := 0%N; io_add_point _ _ := mret tt; io_remove_point _ := mret tt;
|}.
#[local] Instance idle_values {V} : IndexValues V unit := λ _ _, None.
#[local] Instance idle_text : TextChecks unit := λ _ _ _, false.

Lemma idle_kind_laws (checker : unit → FieldCondition → option (PointOffsetType → bool)) :
  (∀ fc, match_only fc = true → checker tt fc = None) → KindLaws (Num:=Z) match_only unit checker.
Proof.
  intros Hc. refine {| kl_reflects _ _ := True; kl_covers _ _ := false |};
    intros []; intros; rewrite ?Hc in *; (done || by exists None).
Defined.

Abbreviation IdleIndex := (FieldIndex unit unit unit unit MemDB).

Lemma idle_checker (wrap : unit → IdleIndex) fc :
  (∀ m, match m with MatchText _ => False | _ => True end → get_match_checkers (wrap tt) m = None) →
  match_only fc = true → field_condition_index (wrap tt) fc = None.
Proof.
  intros Hw [Hone Hm]%andb_true_iff. unfold field_condition_index, one_condition in *.
  destruct (fc_match fc) as [m|]; [|done]. cbn. rewrite Hw by by destruct m.
  by destruct (fc_range fc), (fc_geo_bounding_box fc), (fc_geo_radius fc).
Qed.

#[local] Instance idle_int : KindLaws (Num:=Z) match_only unit (kind_checker (IntIndex : unit → IdleIndex)).
Proof. apply idle_kind_laws. intros fc. apply idle_checker. by intros [[]| |[]]. Defined.
#[local] Instance idle_float : KindLaws (Num:=Z) match_only unit (kind_checker (FloatIndex : unit → IdleIndex)).
Proof. apply idle_kind_laws. intros fc. apply idle_checker. by intros [[]| |[]]. Defined.
#[local] Instance idle_geo : KindLaws (Num:=Z) match_only unit (kind_checker (GeoIndex : unit → IdleIndex)).
Proof. apply idle_kind_laws. intros fc. apply idle_checker. by intros [[]| |[]]. Defined.
#[local] Instance idle_full_text : KindLaws (Num:=Z) match_only unit (kind_checker (FullTextIndex : unit → IdleIndex)).
Proof. apply idle_kind_laws. intros fc. apply idle_checker. by intros [[]| |[]]. Defined.

(** An index of keywords for two stored payloads. *)
Definition unindexed_spi : StructPayloadIndex (gmap nat (Payload Z)) IdleIndex MemDB :=
  mkStructIndex {[ 0 := color_payload 0; 1 := color_payload 1 ]} ∅ ∅ ∅ [] ∅.

Lemma unindexed_spi_wf : index_wf match_only unindexed_spi.
Proof. split; [|constructor]. intros key indexes. cbn. by rewrite lookup_empty. Qed.

