(* ===== verification/PayloadIndexLaws.v ===== *)
(** * What a segment relies on of its payload index

    The laws of the trait [PayloadIndex] as the segment uses it, and their
    proof for [StructPayloadIndex].  [pi_stored] is the payload the index
    stores for an offset; [pi_op_safe] and [pi_filter_ok] delimit the updates
    and filters the laws speak of. *)

From stdpp Require Import base gmap strings list sorting.
From Stdlib Require Import ZArith Lia SpecFloat Ascii.
From S2P Require Import Prelude Types Rocks IdTracker JsonPath Text Filters PayloadStorage Estimator.
From S2P Require Import FieldIndex FieldIndexEnum QueryOptimizer VisitedPool FieldIndexLaws.
From S2P Require Import StructPayloadIndex PayloadIndexSpec.

Class PayloadIndexLaws (Num T PI : Type) `{!JsonNumber Num, !GeoOps} `{!IdTracker T, !IdTrackerLaws T}
    `{!PayloadIndex Num T PI} := {
  pi_wf : PI → Prop;
  pi_stored : PI → PointOffsetType → option (Payload Num);
  pi_op_safe : PI → index_op Num → Prop;
  pi_filter_ok : Filter → bool;
  pi_payload_spec s i : pi_wf s → pi_payload (T:=T) s i = Ok (default ∅ (pi_stored s i));
  pi_assign_spec s i p :
    pi_wf s → pi_stored s i = None ∨ pi_op_safe s (IAssign i p) →
    sm_wp (pi_assign (T:=T) i p) (λ _ s', pi_wf s' ∧
      ∀ j, pi_stored s' j = if decide (j = i) then index_op_payload (IAssign i p) (pi_stored s i)
                            else pi_stored s j) (λ _ _, True) s;
  pi_delete_spec s i key :
    pi_wf s → pi_op_safe s (IDelete i key) →
    sm_wp (pi_delete (Num:=Num) (T:=T) i key) (λ _ s', pi_wf s' ∧
      ∀ j, pi_stored s' j = if decide (j = i) then index_op_payload (IDelete i key) (pi_stored s i)
                            else pi_stored s j) (λ _ _, True) s;
  pi_drop_spec s i :
    pi_wf s →
    sm_wp (pi_drop (Num:=Num) (T:=T) i) (λ _ s', pi_wf s' ∧
      ∀ j, pi_stored s' j = if decide (j = i) then None else pi_stored s j) (λ _ _, True) s;
  pi_estimate_spec t s filter :
    pi_wf s → pi_filter_ok filter = true → ∃ e, pi_estimate_cardinality (Num:=Num) t s filter = Ok e;
  pi_context_spec t s filter :
    pi_wf s → tracker_wf t → pi_filter_ok filter = true →
    ∃ check, pi_filter_context (Num:=Num) t s filter = Ok check ∧
      ∀ i, check i = check_payload (default ∅ (pi_stored s i)) (external_id t i) filter;
  pi_query_spec t s filter :
    pi_wf s → tracker_wf t → pi_filter_ok filter = true →
    (∀ i, external_id t i = None → pi_stored s i = None) →
    ∃ l, (pi_query_points (Num:=Num) t filter s).1 = Ok l ∧ NoDup l ∧
      ∀ i, i ∈ l ↔ is_Some (external_id t i) ∧
        check_payload (default ∅ (pi_stored s i)) (external_id t i) filter = true;
}.

(** [assign_all] replaces the payload. *)
Lemma pi_assign_all_spec {Num T PI : Type} `{HL : PayloadIndexLaws Num T PI} (s : PI) i p :
  pi_wf s →
  sm_wp (pi_assign_all (T:=T) i p) (λ _ s', pi_wf s' ∧
    ∀ j, pi_stored s' j = if decide (j = i) then Some p else pi_stored s j) (λ _ _, True) s.
Proof.
  intros Hs. unfold pi_assign_all. apply sm_wp_bind. eapply sm_wp_mono; [by apply pi_drop_spec| |done].
  intros _ s1 [Hs1 Hd]. assert (pi_stored s1 i = None) as Hn by by rewrite Hd, decide_True.
  eapply sm_wp_mono; [apply pi_assign_spec; [done|by left]| |done]. intros _ s2 [Hs2 Ha]. split; [done|].
  intros j. rewrite Ha, Hn. destruct (decide (j = i)); [done|]. by rewrite Hd, decide_False.
Qed.

Section struct_laws.
Context {Num NI NF GI TI DB T PS : Type} `{!JsonNumber Num} `{!GeoOps} {HDB : RocksDB DB} {HRL : RocksLaws DB}.
Context `{!IndexOps Num NI, !IndexOps Num NF, !IndexOps Num GI, !IndexOps Num TI}.
Context `{!IndexValues Z NI, !IndexValues spec_float NF, !IndexValues GeoPoint GI, !TextChecks TI}.
Context `{!IdTracker T, !IdTrackerLaws T}.
Context `{!PayloadStorage Num PS, !PayloadScan Num PS, !PayloadStorageLaws Num PS}.
Context (fc_ok : FieldCondition → bool) {fc_ok_one : SingleConditions fc_ok}.
Abbreviation FI := (FieldIndex NI NF GI TI DB).
Context `{!KindLaws fc_ok NI (kind_checker (IntIndex : NI → FI))}.
Context `{!KindLaws fc_ok NF (kind_checker (FloatIndex : NF → FI))}.
Context `{!KindLaws fc_ok GI (kind_checker (GeoIndex : GI → FI))}.
Context `{!KindLaws fc_ok TI (kind_checker (FullTextIndex : TI → FI))}.
Abbreviation SPI := (StructPayloadIndex PS FI DB).
Context (new_int : DB → string → NI) (new_float : DB → string → NF)
  (new_geo : DB → string → GI) (new_text : DB → TextIndexParams → string → TI).
Context (write_config : gmap PayloadKeyType PayloadFieldSchema → OperationResult unit)
  (remove_index_file : PayloadKeyType → OperationResult unit).

Definition struct_filter_ok (filter : Filter) : bool :=
  no_empty_should_filter filter && all_leaves (leaf_ok fc_ok) (CFilter filter).

#[local] Obligation Tactic := idtac.

#[export] Program Instance struct_index_laws :
  @PayloadIndexLaws Num T SPI _ _ _ _
    (struct_payload_index new_int new_float new_geo new_text write_config remove_index_file) := {|
  pi_wf := index_wf fc_ok;
  pi_stored s := ps_payload_ptr (spi_payload s);
  pi_op_safe := index_op_safe fc_ok;
  pi_filter_ok := struct_filter_ok;
|}.
Next Obligation. intros s i _. apply ps_payload_spec. Qed.
Next Obligation.
  intros s i p Hs Hor. cbn -[index_op_payload] in *. unfold index_op_payload. destruct (ps_payload_ptr (spi_payload s) i) as [old|] eqn:Hi.
  - destruct Hor as [?|Hsafe]; [done|]. by apply struct_assign_merge_spec.
  - by apply struct_assign_new_spec.
Qed.
Next Obligation. intros s i key Hs Hsafe. by apply struct_delete_spec. Qed.
Next Obligation.
  intros s i Hs. eapply sm_wp_mono; [by apply struct_drop_spec| |done]. by intros r s' (_ & ? & ?).
Qed.
Next Obligation. intros t s filter Hs [_ Hok]%andb_true_iff. eexists. by apply (struct_estimate_spec fc_ok). Qed.
Next Obligation.
  intros t s filter Hs Ht [Hne Hok]%andb_true_iff. destruct (struct_context_spec fc_ok t s filter Hs Ht Hne Hok) as (ctx & Hctx & Hcheck).
  exists (check_optimized_filter ctx). split; [|done]. cbn. by rewrite Hctx.
Qed.
Next Obligation.
  intros t s filter Hs Ht [Hne Hok]%andb_true_iff Hdead.
  destruct (struct_query_spec fc_ok t s filter) as (l & pool & Hq & _ & Hnd & Hin); try done.
  { intros i Hi. unfold payload_of. by rewrite Hdead. }
  exists l. split_and!; [|done|done]. cbn. by rewrite Hq.
Qed.
End struct_laws.
