(* ===== verification/Segment.v ===== *)
(** * Segments

    Models [lib/segment/src/segment.rs] (the whole [SegmentEntry]
    implementation except snapshots, telemetry and file removal), the vector
    name checks of [common/mod.rs], and the trait [VectorIndex].

    A segment owns an id tracker, one vector storage and vector index per
    named vector, and a payload index; the four are type arguments with their
    interfaces, so the theorems of [SegmentSpec.v] hold for every
    implementation of them.  The [Arc]s of the source are fields here: the
    vector index and the payload index get the shared parts they read as
    arguments.  The pool of visited lists inside the payload index is a cache
    that reads change; a read returns its result and drops that change.

    Flushing a column is an outcome of the file system; what was flushed is
    recorded in [Durable].  A flush in the background is a job that runs at
    once, at any later moment ([run_background]) or when the next flush joins
    it; it writes the data of that moment. *)

From stdpp Require Import base gmap strings list sorting.
From Stdlib Require Import ZArith SpecFloat.
From S2P Require Import Prelude Types Rocks IdTracker NamedVectors VectorStorage Text Filters Estimator TopK.
From S2P Require Import Spaces FieldIndex FieldIndexEnum StructPayloadIndex.

(** ** Data *)

Record HnswConfig := mkHnswConfig {
  hnsw_m : N;
  ef_construct : N;
  full_scan_threshold : N;
  max_indexing_threads : N;
  hnsw_on_disk : option bool;
  payload_m : option N;
}.

Inductive Indexes : Type :=
| IndexPlain
| IndexHnsw (config : HnswConfig).

Inductive ScalarType : Type := Int8.

Record ScalarQuantizationConfig := mkScalarQuantization {
  sq_type : ScalarType;
  sq_quantile : option spec_float;
  sq_always_ram : option bool;
}.

Inductive QuantizationConfig : Type :=
| QScalar (scalar : ScalarQuantizationConfig).

Inductive StorageType : Type := StorageInMemory | StorageMmap.

Inductive PayloadStorageType : Type := PayloadInMemory | PayloadOnDisk.

Record VectorDataConfig := mkVectorDataConfig {
  vdc_size : nat;
  vdc_distance : Distance;
  vdc_hnsw_config : option HnswConfig;
  vdc_quantization_config : option QuantizationConfig;
}.

Record SegmentConfig := mkSegmentConfig {
  sc_vector_data : gmap string VectorDataConfig;
  sc_index : Indexes;
  sc_storage_type : StorageType;
  sc_payload_storage_type : PayloadStorageType;
  sc_quantization_config : option QuantizationConfig;
}.

Inductive SegmentType : Type := Plain | Indexed | Special.

Record SegmentState := mkSegmentState {
  ss_version : option SeqNumberType;
  ss_config : SegmentConfig;
}.

Record ScoredPointOffset := mkScoredOffset {
  spo_idx : PointOffsetType;
  spo_score : spec_float;
}.

Record ScoredPoint (Num : Type) := mkScoredPoint {
  sp_id : PointIdType;
  sp_version : SeqNumberType;
  sp_score : spec_float;
  sp_payload : option (Payload Num);
  sp_vector : option VectorStruct;
}.
Arguments mkScoredPoint {Num}.
Arguments sp_id {Num}.
Arguments sp_version {Num}.
Arguments sp_score {Num}.
Arguments sp_payload {Num}.
Arguments sp_vector {Num}.

Record PayloadIndexInfo := mkPayloadIndexInfo {
  pii_data_type : PayloadSchemaType;
  pii_params : option TextIndexParams;
  pii_points : N;
}.

Definition payload_index_info_new (field_type : PayloadFieldSchema) (points_count : N) : PayloadIndexInfo :=
  match field_type with
  | FieldType data_type => mkPayloadIndexInfo data_type None points_count
  | FieldParams schema_params => mkPayloadIndexInfo Filters.Text (Some schema_params) points_count
  end.

Record SegmentInfo := mkSegmentInfo {
  si_segment_type : SegmentType;
  si_num_vectors : nat;
  si_num_points : nat;
  si_num_deleted_vectors : nat;
  si_is_appendable : bool;
  si_index_schema : gmap PayloadKeyType PayloadIndexInfo;
}.

(** ** [common/mod.rs] *)

Definition check_vector_name (vector_name : string) (segment_config : SegmentConfig) : OperationResult unit :=
  match sc_vector_data segment_config !! vector_name with
  | None => Err (VectorNameNotExists vector_name)
  | Some _ => Ok tt
  end.

Definition check_vectors_set (vectors : NamedVectors) (segment_config : SegmentConfig) : OperationResult unit :=
  _ ← res_map (λ vector_name, check_vector_name vector_name segment_config) vectors.*1;
  _ ← res_map (λ vector_name, if tm_contains_key vector_name vectors then Ok tt
                              else Err (MissedVectorName vector_name))
        (map_to_list (sc_vector_data segment_config)).*1;
  Ok tt.

(** ** Vector indexes *)

(** The index reads the tracker, the storage of its vectors and the payload
    index of the segment.  [SP] are the search parameters. *)
Class VectorIndex (T VS PI SP VI : Type) :=
  vi_search : T → VS → PI → VI → list VectorType → option Filter → nat → option SP →
    OperationResult (list (list ScoredPointOffset)).

(** [HashMap] indexing: [m[k]] *)
Definition map_get {E K V} `{Countable K} (m : gmap K V) (k : K) : result E V := unwrap (m !! k).

(** [Iterator::take_while] *)
Fixpoint take_while {A} (p : A → bool) (l : list A) : list A :=
  match l with
  | [] => []
  | x :: l' => if p x then x :: take_while p l' else []
  end.

(** [l.take(limit.unwrap_or(usize::MAX))] *)
Definition take_limit {A} (limit : option nat) (l : list A) : list A :=
  match limit with Some n => take n l | None => l end.

(** [x as usize]: towards zero, saturating. *)
Definition f64_trunc_usize (x : spec_float) : N :=
  match x with
  | S754_finite false m e =>
      let z := if (0 <=? e)%Z then (Zpos m * 2 ^ e)%Z else (Zpos m / 2 ^ (- e))%Z in
      N.min (Z.to_N z) u64_max
  | S754_infinity false => u64_max
  | _ => 0%N
  end.

Definition f64_add := SFadd 53 1024.

(** ** The segment *)

Record VectorData (VI VS : Type) := mkVectorData {
  vd_index : VI;
  vd_storage : VS;
}.
Arguments mkVectorData {VI VS}.
Arguments vd_index {VI VS}.
Arguments vd_storage {VI VS}.

(** What the last completed flushes wrote. *)
Record Durable (T VS PI : Type) := mkDurable {
  dur_mapping : option T;
  dur_vectors : gmap string VS;
  dur_payload : option PI;
  dur_versions : option T;
  dur_state : option SegmentState;
}.
Arguments mkDurable {T VS PI}.
Arguments dur_mapping {T VS PI}.
Arguments dur_vectors {T VS PI}.
Arguments dur_payload {T VS PI}.
Arguments dur_versions {T VS PI}.
Arguments dur_state {T VS PI}.

(** The thread of a flush in the background: still to run, with the state it
    will save, or finished. *)
Inductive FlushThread : Type :=
| Running (state : SegmentState)
| Finished (res : OperationResult SeqNumberType).

Record Segment (T VI VS PI : Type) := mkSegment {
  seg_version : option SeqNumberType;
  seg_persisted_version : option SeqNumberType;
  seg_id_tracker : T;
  seg_vector_data : gmap string (VectorData VI VS);
  seg_payload_index : PI;
  seg_appendable_flag : bool;
  seg_type : SegmentType;
  seg_config : SegmentConfig;
  seg_error_status : option SegmentFailedState;
  seg_flush_thread : option FlushThread;
  seg_durable : Durable T VS PI;
}.
Arguments mkSegment {T VI VS PI}.
Arguments seg_version {T VI VS PI}.
Arguments seg_persisted_version {T VI VS PI}.
Arguments seg_id_tracker {T VI VS PI}.
Arguments seg_vector_data {T VI VS PI}.
Arguments seg_payload_index {T VI VS PI}.
Arguments seg_appendable_flag {T VI VS PI}.
Arguments seg_type {T VI VS PI}.
Arguments seg_config {T VI VS PI}.
Arguments seg_error_status {T VI VS PI}.
Arguments seg_flush_thread {T VI VS PI}.
Arguments seg_durable {T VI VS PI}.

(** The writes of a flush, in the order of the code. *)
Inductive FlushStep : Type :=
| FlushMapping
| FlushVectors (name : string)
| FlushPayload
| FlushVersions
| SaveState.

Section segment.
Context {Num T VI VS PI SP : Type} `{!JsonNumber Num} `{!Simd}.
Context `{!IdTracker T} `{!VectorStorage VS} `{!PayloadIndex Num T PI} `{!VectorIndex T VS PI SP VI}.
Abbreviation Seg := (Segment T VI VS PI).
Abbreviation SegOp := (sm Seg OperationError).

(** How a point id is printed, and the outcomes of the writes of a flush and of
    the flush in the background it joins. *)
Context (display_id : PointIdType → string) (flush_outcome background_outcome : FlushStep → OperationResult unit).

Definition display_error (e : OperationError) : string :=
  match e with
  | WrongVector expected_dim received_dim =>
      "Vector inserting error: expected dim: " +:+ String.string_of_list_ascii (display_N (N.of_nat expected_dim))
      +:+ ", got " +:+ String.string_of_list_ascii (display_N (N.of_nat received_dim))
  | VectorNameNotExists received_name => "Not existing vector name error: " +:+ received_name
  | MissedVectorName received_name => "Missed vector name error: " +:+ received_name
  | PointIdError missed_point_id => "No point with id " +:+ display_id missed_point_id
  | TypeError field_name expected_type =>
      "Payload type does not match with previously given for field " +:+ field_name
      +:+ ". Expected: " +:+ expected_type
  | TypeInferenceError field_name =>
      "Unable to infer type for the field '" +:+ field_name +:+ "'. Please specify `field_type`"
  | ServiceError description => "Service runtime error: " +:+ description
  | Cancelled description => "Operation cancelled: " +:+ description
  end.

(** *** Field updates *)

Definition set_seg_version v (s : Seg) : Seg :=
  mkSegment v (seg_persisted_version s) (seg_id_tracker s) (seg_vector_data s) (seg_payload_index s)
    (seg_appendable_flag s) (seg_type s) (seg_config s) (seg_error_status s) (seg_flush_thread s) (seg_durable s).
Definition set_persisted_version v (s : Seg) : Seg :=
  mkSegment (seg_version s) v (seg_id_tracker s) (seg_vector_data s) (seg_payload_index s)
    (seg_appendable_flag s) (seg_type s) (seg_config s) (seg_error_status s) (seg_flush_thread s) (seg_durable s).
Definition set_id_tracker t (s : Seg) : Seg :=
  mkSegment (seg_version s) (seg_persisted_version s) t (seg_vector_data s) (seg_payload_index s)
    (seg_appendable_flag s) (seg_type s) (seg_config s) (seg_error_status s) (seg_flush_thread s) (seg_durable s).
Definition set_vector_data d (s : Seg) : Seg :=
  mkSegment (seg_version s) (seg_persisted_version s) (seg_id_tracker s) d (seg_payload_index s)
    (seg_appendable_flag s) (seg_type s) (seg_config s) (seg_error_status s) (seg_flush_thread s) (seg_durable s).
Definition set_payload_index p (s : Seg) : Seg :=
  mkSegment (seg_version s) (seg_persisted_version s) (seg_id_tracker s) (seg_vector_data s) p
    (seg_appendable_flag s) (seg_type s) (seg_config s) (seg_error_status s) (seg_flush_thread s) (seg_durable s).
Definition set_error_status e (s : Seg) : Seg :=
  mkSegment (seg_version s) (seg_persisted_version s) (seg_id_tracker s) (seg_vector_data s)
    (seg_payload_index s) (seg_appendable_flag s) (seg_type s) (seg_config s) e (seg_flush_thread s) (seg_durable s).
Definition set_durable d (s : Seg) : Seg :=
  mkSegment (seg_version s) (seg_persisted_version s) (seg_id_tracker s) (seg_vector_data s)
    (seg_payload_index s) (seg_appendable_flag s) (seg_type s) (seg_config s) (seg_error_status s)
    (seg_flush_thread s) d.
Definition set_flush_thread j (s : Seg) : Seg :=
  mkSegment (seg_version s) (seg_persisted_version s) (seg_id_tracker s) (seg_vector_data s)
    (seg_payload_index s) (seg_appendable_flag s) (seg_type s) (seg_config s) (seg_error_status s) j (seg_durable s).

Definition on_tracker {A} : sm T OperationError A → SegOp A := sm_zoom seg_id_tracker set_id_tracker.
Definition on_payload_index {A} : sm PI OperationError A → SegOp A := sm_zoom seg_payload_index set_payload_index.

(** [self.vector_data[name].vector_storage.borrow_mut()] *)
Definition on_vector_storage {A} (name : string) (m : sm VS OperationError A) : SegOp A := λ s,
  match seg_vector_data s !! name with
  | None => (Panic, s)
  | Some vd =>
      let '(r, vs) := m (vd_storage vd) in
      (r, set_vector_data (<[name := mkVectorData (vd_index vd) vs]> (seg_vector_data s)) s)
  end.

(** *** Private methods *)

Definition update_vector (internal_id : PointOffsetType) (vectors : NamedVectors) : SegOp unit :=
  s ← sm_get;
  _ ← sm_lift (check_vectors_set vectors (seg_config s));
  sm_for (λ nv : string * VectorType, on_vector_storage nv.1 (insert_vector internal_id nv.2)) vectors.

(** Skips the operation if it is older than its point (or the segment), else
    runs it and records its number. *)
Definition handle_version (op_num : SeqNumberType) (op_point_offset : option PointOffsetType)
    (operation : SegOp (bool * option PointOffsetType)) : SegOp bool := λ s,
  let skip := match op_point_offset with
    | None => (op_num <? default 0 (seg_version s))%N
    | Some point_offset =>
        map_or false (λ current_version, op_num <? current_version)%N
          (internal_version (seg_id_tracker s) point_offset)
    end in
  if skip then (Ok false, s)
  else
    match operation s with
    | (Ok (res, point_id), s) =>
        let s := set_seg_version (Some (N.max op_num (default 0%N (seg_version s)))) s in
        match point_id with
        | Some point_id => (_ ← on_tracker (set_internal_version point_id op_num); mret res) s
        | None => (Ok res, s)
        end
    | (Err e, s) => (Err e, s)
    | (Panic, s) => (Panic, s)
    end.

(** A success at the point of the recorded failure ends the failed state. *)
Definition recover_error (point_id : option PointIdType) (s : Seg) : Seg :=
  match seg_error_status s with
  | None => s
  | Some error => if decide (failed_point_id error = point_id) then set_error_status None s else s
  end.

(** The part of [handle_version_and_failure] after its guard. *)
Definition handle_and_record (op_num : SeqNumberType) (op_point_offset : option PointOffsetType)
    (operation : SegOp (bool * option PointOffsetType)) : SegOp bool := λ s,
  let '(res, s) := handle_version op_num op_point_offset operation s in
  let point_id := op_point_offset ≫= external_id (seg_id_tracker s) in
  match res with
  | Panic => (Panic, s)
  | _ =>
      match get_service_error res with
      | None => (res, recover_error point_id s)
      | Some error =>
          (res, set_error_status (Some {| failed_version := op_num; failed_point_id := point_id;
                                          failed_error := error |}) s)
      end
  end.

Definition handle_version_and_failure (op_num : SeqNumberType) (op_point_offset : option PointOffsetType)
    (operation : SegOp (bool * option PointOffsetType)) : SegOp bool := λ s,
  match seg_error_status s with
  | Some st =>
      if (failed_version st <? op_num)%N
      then (Err (service_error ("Not recovered from previous error: " +:+ display_error (failed_error st))), s)
      else handle_and_record op_num op_point_offset operation s
  | None => handle_and_record op_num op_point_offset operation s
  end.

Definition lookup_internal_id (self : Seg) (point_id : PointIdType) : OperationResult PointOffsetType :=
  match internal_id (seg_id_tracker self) point_id with
  | Some internal_id => Ok internal_id
  | None => Err (PointIdError point_id)
  end.

Definition get_state (self : Seg) : SegmentState := mkSegmentState (seg_version self) (seg_config self).

Definition vector_by_offset (self : Seg) (vector_name : string) (point_offset : PointOffsetType) :
    OperationResult (option VectorType) :=
  _ ← check_vector_name vector_name (seg_config self);
  vector_data ← map_get (seg_vector_data self) vector_name;
  if negb (is_deleted (seg_id_tracker self) point_offset)
  then v ← get_vector (vd_storage vector_data) point_offset; Ok (Some v)
  else Ok None.

Definition all_vectors_by_offset (self : Seg) (point_offset : PointOffsetType) : OperationResult NamedVectors :=
  res_fold (λ nd vectors,
    v ← get_vector (vd_storage nd.2) point_offset; Ok (nv_insert nd.1 v vectors))
    (map_to_list (seg_vector_data self)) [].

Definition payload_by_offset (self : Seg) (point_offset : PointOffsetType) : OperationResult (Payload Num) :=
  pi_payload (T:=T) (seg_payload_index self) point_offset.

Definition infer_from_payload_data (self : Seg) (key : PayloadKeyType) :
    OperationResult (option PayloadSchemaType) :=
  pi_infer_payload_type (Num:=Num) (T:=T) (seg_payload_index self) key.

(** One entry of [process_search_result]. *)
Definition process_scored (self : Seg) (with_payload : WithPayload) (with_vector : WithVector)
    (p : PointIdType * ScoredPointOffset) : OperationResult (ScoredPoint Num) :=
  let '(point_id, scored) := p in
  let point_offset := spo_idx scored in
  point_version ← match internal_version (seg_id_tracker self) point_offset with
                  | Some v => Ok v
                  | None => Err (service_error ("Corrupter id_tracker, no version for point " +:+ display_id point_id))
                  end;
  payload ← (if enable with_payload then
               initial_payload ← payload_by_offset self point_offset;
               Ok (Some (match payload_selector with_payload with
                         | Some i => selector_process i initial_payload
                         | None => initial_payload
                         end))
             else Ok None);
  vector ← match with_vector with
           | WVBool false => Ok None
           | WVBool true =>
               vs ← all_vectors_by_offset self point_offset; v ← vector_struct_from vs; Ok (Some v)
           | WVSelector vectors =>
               vs ← res_fold (λ vector_name result,
                      vector_opt ← vector_by_offset self vector_name point_offset;
                      match vector_opt with
                      | None => Err (service_error "Vector {vector_name} not found at offset {point_offset}")
                      | Some vector => Ok (nv_insert vector_name vector result)
                      end) vectors [];
               v ← vector_struct_from vs; Ok (Some v)
           end;
  Ok (mkScoredPoint point_id point_version (spo_score scored) payload vector).

Definition process_search_result (self : Seg) (internal_result : list ScoredPointOffset)
    (with_payload : WithPayload) (with_vector : WithVector) : OperationResult (list (ScoredPoint Num)) :=
  res_map (process_scored self with_payload with_vector)
    (omap (λ scored, (λ id, (id, scored)) <$> external_id (seg_id_tracker self) (spo_idx scored)) internal_result).

(** *** Reading by filter *)

Definition filtered_read_by_index (self : Seg) (offset : option PointIdType) (limit : option nat)
    (condition : Filter) : OperationResult (list PointIdType) :=
  let t := seg_id_tracker self in
  points ← (pi_query_points (Num:=Num) t condition (seg_payload_index self)).1;
  let ids := omap (λ i, e ← external_id t i;
                        match offset with
                        | Some offset => if point_id_ltb e offset then None else Some e
                        | None => Some e
                        end) points in
  page ← match limit with
         | Some limit => peek_top_smallest_iterable point_id_leb ids limit
         | None => Ok ids
         end;
  Ok (sort_ids page).

Definition filtered_read_by_id_stream (self : Seg) (offset : option PointIdType) (limit : option nat)
    (condition : Filter) : OperationResult (list PointIdType) :=
  let t := seg_id_tracker self in
  filter_context ← pi_filter_context (Num:=Num) t (seg_payload_index self) condition;
  Ok (take_limit limit (base.filter (λ p, filter_context p.2 = true) (iter_from t offset)).*1).

Definition seg_points_count (self : Seg) : nat := points_count (seg_id_tracker self).

(** The cheaper of the two strategies by the estimated number of checks. *)
Definition read_filtered (self : Seg) (offset : option PointIdType) (limit : option nat)
    (filter : option Filter) : OperationResult (list PointIdType) :=
  match filter with
  | None => Ok (take_limit limit (iter_from (seg_id_tracker self) offset).*1)
  | Some condition =>
      query_cardinality ←
        pi_estimate_cardinality (Num:=Num) (seg_id_tracker self) (seg_payload_index self) condition;
      let total_points := (N.of_nat (seg_points_count self) + 1)%N in
      let check_probability :=
        f64_div (f64_add (f64_of_N (est_exp query_cardinality)) f64_one) (f64_of_N total_points) in
      let exp_stream_checks := f64_trunc_usize
        (f64_div (f64_of_N (map_or total_points N.of_nat limit)) check_probability) in
      let exp_index_checks := est_max query_cardinality in
      if (exp_index_checks <? exp_stream_checks)%N
      then filtered_read_by_index self offset limit condition
      else filtered_read_by_id_stream self offset limit condition
  end.

Definition read_range (self : Seg) (from to : option PointIdType) : list PointIdType :=
  let ids := (iter_from (seg_id_tracker self) from).*1 in
  match to with
  | None => ids
  | Some to_id => take_while (λ x, point_id_ltb x to_id) ids
  end.

(** *** [SegmentEntry]: reads *)

Definition seg_version_num (self : Seg) : SeqNumberType := default 0%N (seg_version self).

Definition point_version (self : Seg) (point_id : PointIdType) : option SeqNumberType :=
  internal_id (seg_id_tracker self) point_id ≫= internal_version (seg_id_tracker self).

Definition search_batch (self : Seg) (vector_name : string) (vectors : list VectorType)
    (with_payload : WithPayload) (with_vector : WithVector) (filter : option Filter) (top : nat)
    (params : option SP) : OperationResult (list (list (ScoredPoint Num))) :=
  _ ← check_vector_name vector_name (seg_config self);
  vector_data ← map_get (seg_vector_data self) vector_name;
  let expected_vector_dim := vector_dim (vd_storage vector_data) in
  _ ← res_map (λ vector : VectorType, if decide (length vector ≠ expected_vector_dim)
                        then Err (WrongVector expected_vector_dim (length vector)) else Ok tt) vectors;
  internal_results ← vi_search (seg_id_tracker self) (vd_storage vector_data) (seg_payload_index self)
                       (vd_index vector_data) vectors filter top params;
  res_map (λ internal_result, process_search_result self internal_result with_payload with_vector)
    internal_results.

Definition search (self : Seg) (vector_name : string) (vector : VectorType)
    (with_payload : WithPayload) (with_vector : WithVector) (filter : option Filter) (top : nat)
    (params : option SP) : OperationResult (list (ScoredPoint Num)) :=
  _ ← check_vector_name vector_name (seg_config self);
  vector_data ← map_get (seg_vector_data self) vector_name;
  let expected_vector_dim := vector_dim (vd_storage vector_data) in
  if decide (length vector ≠ expected_vector_dim)
  then Err (WrongVector expected_vector_dim (length vector))
  else
    internal_results ← vi_search (seg_id_tracker self) (vd_storage vector_data) (seg_payload_index self)
                         (vd_index vector_data) [vector] filter top params;
    internal_result ← vec_get internal_results 0;
    process_search_result self internal_result with_payload with_vector.

Definition seg_vector (segment_path : string) (self : Seg) (vector_name : string) (point_id : PointIdType) :
    OperationResult VectorType :=
  internal_id ← lookup_internal_id self point_id;
  vector_opt ← vector_by_offset self vector_name internal_id;
  match vector_opt with
  | Some vector => Ok vector
  | None => Err (service_error ("Vector " +:+ vector_name +:+ " not found at offset "
              +:+ String.string_of_list_ascii (display_N (N.of_nat internal_id)) +:+ " for point "
              +:+ display_id point_id +:+ ", segment " +:+ segment_path))
  end.

Definition all_vectors (segment_path : string) (self : Seg) (point_id : PointIdType) :
    OperationResult NamedVectors :=
  res_fold (λ vector_name result,
    v ← seg_vector segment_path self vector_name point_id; Ok (nv_insert vector_name v result))
    (map_to_list (seg_vector_data self)).*1 [].

Definition seg_payload (self : Seg) (point_id : PointIdType) : OperationResult (Payload Num) :=
  internal_id ← lookup_internal_id self point_id;
  payload_by_offset self internal_id.

Definition iter_points (self : Seg) : list PointIdType := iter_external (seg_id_tracker self).

Definition has_point (self : Seg) (point_id : PointIdType) : bool :=
  bool_decide (is_Some (internal_id (seg_id_tracker self) point_id)).

Definition estimate_points_count (self : Seg) (filter : option Filter) : OperationResult CardinalityEstimation :=
  match filter with
  | None =>
      let total_count := N.of_nat (seg_points_count self) in
      Ok (mkEstimation [] total_count total_count total_count)
  | Some filter => pi_estimate_cardinality (Num:=Num) (seg_id_tracker self) (seg_payload_index self) filter
  end.

Definition seg_deleted_count (self : Seg) : OperationResult nat := deleted_count (seg_id_tracker self).

Definition seg_info (self : Seg) : OperationResult SegmentInfo :=
  let schema := map_imap (λ key index_schema,
    Some (payload_index_info_new index_schema (pi_indexed_points (Num:=Num) (T:=T) (seg_payload_index self) key)))
    (pi_indexed_fields (Num:=Num) (T:=T) (seg_payload_index self)) in
  deleted ← seg_deleted_count self;
  Ok (mkSegmentInfo (seg_type self) (seg_points_count self * size (seg_vector_data self))
        (seg_points_count self) deleted (seg_appendable_flag self) schema).

Definition seg_vector_dim (self : Seg) (vector_name : string) : OperationResult nat :=
  _ ← check_vector_name vector_name (seg_config self);
  vector_data_config ← map_get (sc_vector_data (seg_config self)) vector_name;
  Ok (vdc_size vector_data_config).

Definition seg_vector_dims (self : Seg) : gmap string nat := vdc_size <$> sc_vector_data (seg_config self).

Definition get_indexed_fields (self : Seg) : gmap PayloadKeyType PayloadFieldSchema :=
  pi_indexed_fields (Num:=Num) (T:=T) (seg_payload_index self).

Definition check_error (self : Seg) : option SegmentFailedState := seg_error_status self.

(** *** [SegmentEntry]: updates of a point *)

(** The loop of [upsert_vector]: each vector in the form its distance stores. *)
Definition process_vector (segment : Seg) (nv : string * VectorType) (processed_vectors : NamedVectors) :
    OperationResult NamedVectors :=
  let '(vector_name, vector) := nv in
  vector_data ← map_get (seg_vector_data segment) vector_name;
  let dim := vector_dim (vd_storage vector_data) in
  if decide (dim ≠ length vector) then Err (WrongVector dim (length vector))
  else
    config ← map_get (sc_vector_data (seg_config segment)) vector_name;
    Ok (match preprocess_vector (vdc_distance config) vector with
        | None => nv_insert vector_name vector processed_vectors
        | Some preprocess_vector => nv_insert vector_name preprocess_vector processed_vectors
        end).

Definition process_vectors (segment : Seg) (vectors : NamedVectors) : OperationResult NamedVectors :=
  res_fold (process_vector segment) vectors [].

(** The closure of [upsert_vector]. *)
Definition upsert_operation (point_id : PointIdType) (vectors : NamedVectors)
    (stored_internal_point : option PointOffsetType) : SegOp (bool * option PointOffsetType) :=
  segment ← sm_get;
  processed_vectors ← sm_lift (process_vectors segment vectors);
  match stored_internal_point with
  | Some existing_internal_id =>
      _ ← update_vector existing_internal_id processed_vectors;
      mret (true, Some existing_internal_id)
  | None =>
      let new_index := as_u32 (internal_size (seg_id_tracker segment)) in
      _ ← sm_for (λ nv : string * VectorType, on_vector_storage nv.1 (insert_vector new_index nv.2))
            processed_vectors;
      _ ← on_tracker (set_link point_id new_index);
      mret (false, Some new_index)
  end.

Definition upsert_vector (op_num : SeqNumberType) (point_id : PointIdType) (vectors : NamedVectors) :
    SegOp bool :=
  s ← sm_get;
  _ ← sm_lift (check_vectors_set vectors (seg_config s));
  let stored_internal_point := internal_id (seg_id_tracker s) point_id in
  handle_version_and_failure op_num stored_internal_point
    (upsert_operation point_id vectors stored_internal_point).

Definition delete_operation (point_id : PointIdType) (i : PointOffsetType) :
    SegOp (bool * option PointOffsetType) :=
  _ ← on_payload_index (pi_drop (Num:=Num) (T:=T) i);
  _ ← on_tracker (tracker_drop point_id);
  mret (true, Some i).

Definition delete_point (op_num : SeqNumberType) (point_id : PointIdType) : SegOp bool :=
  s ← sm_get;
  match internal_id (seg_id_tracker s) point_id with
  | None => mret false
  | Some i => handle_version_and_failure op_num (Some i) (delete_operation point_id i)
  end.

(** The closures of the four payload updates: an update of the payload index
    at the offset of the point, which must exist. *)
Definition payload_operation {A} (point_id : PointIdType) (update : PointOffsetType → sm PI OperationError A)
    (offset : option PointOffsetType) : SegOp (bool * option PointOffsetType) :=
  match offset with
  | Some i => _ ← on_payload_index (update i); mret (true, Some i)
  | None => sm_fail (PointIdError point_id)
  end.

Definition update_payload {A} (op_num : SeqNumberType) (point_id : PointIdType)
    (update : PointOffsetType → sm PI OperationError A) : SegOp bool :=
  s ← sm_get;
  let i := internal_id (seg_id_tracker s) point_id in
  handle_version_and_failure op_num i (payload_operation point_id update i).

Definition set_full_payload (op_num : SeqNumberType) (point_id : PointIdType) (full_payload : Payload Num) :
    SegOp bool := update_payload op_num point_id (λ i, pi_assign_all (T:=T) i full_payload).

Definition set_payload (op_num : SeqNumberType) (point_id : PointIdType) (payload : Payload Num) :
    SegOp bool := update_payload op_num point_id (λ i, pi_assign (T:=T) i payload).

Definition delete_payload (op_num : SeqNumberType) (point_id : PointIdType) (key : PayloadKeyType) :
    SegOp bool := update_payload op_num point_id (λ i, pi_delete (Num:=Num) (T:=T) i key).

Definition clear_payload (op_num : SeqNumberType) (point_id : PointIdType) : SegOp bool :=
  update_payload op_num point_id (pi_drop (Num:=Num) (T:=T)).

Definition delete_filtered (op_num : SeqNumberType) (filter : Filter) : SegOp nat :=
  s ← sm_get;
  ids ← sm_lift (read_filtered s None None (Some filter));
  sm_fold (λ point_id deleted_points,
    deleted ← delete_point op_num point_id;
    mret (deleted_points + Nat.b2n deleted)) ids 0.

(** *** [SegmentEntry]: field indexes *)

Definition delete_field_index (op_num : SeqNumberType) (key : PayloadKeyType) : SegOp bool :=
  handle_version_and_failure op_num None
    (_ ← on_payload_index (pi_drop_index (Num:=Num) (T:=T) key); mret (true, None)).

Definition create_operation (key : PayloadKeyType) (field_type : option PayloadFieldSchema) :
    SegOp (bool * option PointOffsetType) :=
  match field_type with
  | Some schema => _ ← on_payload_index (pi_set_indexed (Num:=Num) (T:=T) key schema); mret (true, None)
  | None =>
      segment ← sm_get;
      inferred ← sm_lift (infer_from_payload_data segment key);
      match inferred with
      | None => sm_fail (TypeInferenceError key)
      | Some schema_type =>
          _ ← on_payload_index (pi_set_indexed (Num:=Num) (T:=T) key (FieldType schema_type));
          mret (true, None)
      end
  end.

Definition create_field_index (op_num : SeqNumberType) (key : PayloadKeyType)
    (field_type : option PayloadFieldSchema) : SegOp bool :=
  handle_version_and_failure op_num None (create_operation key field_type).

(** *** Flushing *)

(** One write: its outcome, the error with its context, and what is now on
    disk when it succeeded. *)
Definition flush_step (outcome : OperationResult unit) (what : string)
    (write : Seg → Durable T VS PI → Durable T VS PI) : SegOp unit := λ s,
  match outcome with
  | Ok _ => (Ok tt, set_durable (write s (seg_durable s)) s)
  | Err err => (Err (service_error ("Failed to flush " +:+ what +:+ ": " +:+ display_error err)), s)
  | Panic => (Panic, s)
  end.

(** The closure [flush_op], which took the state of the segment when the flush
    was requested. *)
Definition flush_op (outcome : FlushStep → OperationResult unit) (state : SegmentState) : SegOp SeqNumberType :=
  _ ← flush_step (outcome FlushMapping) "id_tracker mapping" (λ s d,
        mkDurable (Some (seg_id_tracker s)) (dur_vectors d) (dur_payload d) (dur_versions d) (dur_state d));
  storages ← sm_gets (λ s, map_to_list (seg_vector_data s));
  _ ← sm_for (λ nd : string * VectorData VI VS,
        flush_step (outcome (FlushVectors nd.1)) "vector_storage" (λ _ d,
          mkDurable (dur_mapping d) (<[nd.1 := vd_storage nd.2]> (dur_vectors d)) (dur_payload d)
            (dur_versions d) (dur_state d))) storages;
  _ ← flush_step (outcome FlushPayload) "payload_index" (λ s d,
        mkDurable (dur_mapping d) (dur_vectors d) (Some (seg_payload_index s)) (dur_versions d) (dur_state d));
  _ ← flush_step (outcome FlushVersions) "id_tracker versions" (λ s d,
        mkDurable (dur_mapping d) (dur_vectors d) (dur_payload d) (Some (seg_id_tracker s)) (dur_state d));
  _ ← flush_step (outcome SaveState) "segment state" (λ _ d,
        mkDurable (dur_mapping d) (dur_vectors d) (dur_payload d) (dur_versions d) (Some state));
  _ ← sm_modify (set_persisted_version (ss_version state));
  mret (default 0%N (ss_version state)).

(** A thread that has not run yet runs. *)
Definition run_background : SegOp unit := λ s,
  match seg_flush_thread s with
  | Some (Running state) =>
      let '(r, s) := flush_op background_outcome state s in
      (Ok tt, set_flush_thread (Some (Finished r)) s)
  | _ => (Ok tt, s)
  end.

Definition is_background_flushing (self : Seg) : bool :=
  match seg_flush_thread self with Some (Running _) => true | _ => false end.

(** Joins the thread, if there is one. *)
Definition lock_flushing : SegOp unit :=
  _ ← run_background;
  s ← sm_get;
  _ ← sm_modify (set_flush_thread None);
  match seg_flush_thread s with
  | Some (Finished (Err e)) => sm_fail e
  | Some (Finished Panic) => sm_fail (service_error "failed to join flush thread")
  | _ => mret tt
  end.

Definition flush (sync : bool) : SegOp SeqNumberType :=
  s ← sm_get;
  let current_persisted_version := seg_persisted_version s in
  if negb sync && is_background_flushing s then mret (default 0%N current_persisted_version)
  else
    _ ← lock_flushing;
    let state := get_state s in
    let start : SegOp SeqNumberType :=
      if sync then flush_op flush_outcome state
      else _ ← sm_modify (set_flush_thread (Some (Running state)));
           mret (default 0%N current_persisted_version) in
    match seg_version s, current_persisted_version with
    | None, _ => mret (default 0%N current_persisted_version)
    | Some version, Some persisted_version =>
        if decide (version = persisted_version) then mret persisted_version else start
    | Some _, None => start
    end.

Definition check_consistency_and_repair : SegOp unit :=
  s ← sm_get;
  let id_tracker := seg_id_tracker s in
  ids ← sm_lift (iter_internal id_tracker);
  let internal_ids_to_delete := base.filter (λ i, external_id id_tracker i = None) ids in
  _ ← sm_for (λ i, _ ← on_payload_index (pi_drop (Num:=Num) (T:=T) i); mret tt) internal_ids_to_delete;
  if decide (internal_ids_to_delete ≠ []) then _ ← flush true; mret tt else mret tt.
End segment.
