(* ===== verification/Histogram.v ===== *)
(** * Histograms of numeric fields

    Models [lib/segment/src/index/field_index/histogram.rs]: the histogram a
    numeric index keeps over its values to estimate the size of ranges.  It
    stores some of the values as borders, with the number of values up to the
    next border on both sides.

    A [BTreeMap] is the list of its entries in ascending order of the keys.
    The numbers are [i64] or [f64] (class [Numericable]); an [i64] is a [Z] and
    its subtraction wraps, as in a release build, an [f64] is a [spec_float].
    [partial_cmp] is only unwrapped on numbers here, JSON has no NaN.  Counts
    are [usize]. *)

From stdpp Require Import base list sorting.
From Stdlib Require Import ZArith Lia SpecFloat.
From S2P Require Import Prelude Types Rocks Filters Estimator QueryOptimizer Segment.

(** ** Numbers *)

Class Numericable (T : Type) := {
  nm_min_value : T;
  nm_max_value : T;
  nm_to_f64 : T → spec_float;
  nm_from_f64 : spec_float → T;
  nm_compare : T → T → comparison; (* [partial_cmp], unwrapped *)
  nm_ltb : T → T → bool;
  nm_sub : T → T → T;
  nm_abs_diff : T → T → T;
}.

Definition nm_min {T} `{!Numericable T} (a b : T) : T := if nm_ltb a b then a else b.
Definition nm_max {T} `{!Numericable T} (a b : T) : T := if nm_ltb b a then a else b.

Definition i64_min : Z := - 2 ^ 63.
Definition i64_max : Z := 2 ^ 63 - 1.

(** A result of [i64] arithmetic without overflow checks. *)
Definition wrap_i64 (z : Z) : Z := (z + 2 ^ 63) mod 2 ^ 64 - 2 ^ 63.

(** [x as i64]: towards zero, saturating, zero for NaN. *)
Definition f64_to_i64 (x : spec_float) : Z :=
  match x with
  | S754_finite s m e =>
      let a := if (0 <=? e)%Z then (Zpos m * 2 ^ e)%Z else (Zpos m / 2 ^ (- e))%Z in
      Z.max i64_min (Z.min i64_max (if s then - a else a))
  | S754_infinity true => i64_min
  | S754_infinity false => i64_max
  | _ => 0%Z
  end.

#[export] Instance i64_numericable : Numericable Z := {|
  nm_min_value := i64_min;
  nm_max_value := i64_max;
  nm_to_f64 := f64_of_Z;
  nm_from_f64 := f64_to_i64;
  nm_compare := Z.compare;
  nm_ltb := Z.ltb;
  nm_sub a b := wrap_i64 (a - b);
  nm_abs_diff a b := wrap_i64 (Z.abs (a - b));
|}.

(** [f64::MAX] *)
Definition f64_max : spec_float := S754_finite false (2 ^ 53 - 1) 971.
Definition f64_min : spec_float := S754_finite true (2 ^ 53 - 1) 971.

#[export] Instance f64_numericable : Numericable spec_float := {|
  nm_min_value := f64_min;
  nm_max_value := f64_max;
  nm_to_f64 x := x;
  nm_from_f64 x := x;
  nm_compare a b := default Eq (SFcompare a b);
  nm_ltb := SFltb;
  nm_sub := f64_sub;
  nm_abs_diff a b := if SFltb b a then f64_sub a b else f64_sub b a;
|}.

(** ** Ordered maps *)

Inductive Bound (K : Type) : Type := Included (k : K) | Excluded (k : K) | Unbounded.
Arguments Included {K}.
Arguments Excluded {K}.
Arguments Unbounded {K}.

Definition is_unbounded {K} (b : Bound K) : bool := match b with Unbounded => true | _ => false end.

Section btree.
Context {K V : Type} (cmp : K → K → comparison).

Fixpoint bt_insert (k : K) (v : V) (m : list (K * V)) : list (K * V) :=
  match m with
  | [] => [(k, v)]
  | (k', v') :: m' =>
      match cmp k k' with
      | Lt => (k, v) :: m
      | Eq => (k', v) :: m'
      | Gt => (k', v') :: bt_insert k v m'
      end
  end.

Fixpoint bt_remove (k : K) (m : list (K * V)) : list (K * V) :=
  match m with
  | [] => []
  | (k', v') :: m' => match cmp k k' with Eq => m' | _ => (k', v') :: bt_remove k m' end
  end.

Fixpoint bt_get (k : K) (m : list (K * V)) : option V :=
  match m with
  | [] => None
  | (k', v') :: m' => match cmp k k' with Eq => Some v' | _ => bt_get k m' end
  end.

Definition above_start (start : Bound K) (k : K) : bool :=
  match start with
  | Included s => match cmp s k with Gt => false | _ => true end
  | Excluded s => match cmp s k with Lt => true | _ => false end
  | Unbounded => true
  end.

Definition below_end (end_ : Bound K) (k : K) : bool :=
  match end_ with
  | Included e => match cmp k e with Gt => false | _ => true end
  | Excluded e => match cmp k e with Lt => true | _ => false end
  | Unbounded => true
  end.

(** Whether [range] panics: the start is after the end, or both are the same
    and excluded. *)
Definition bad_range (start end_ : Bound K) : bool :=
  match start, end_ with
  | Unbounded, _ | _, Unbounded => false
  | Excluded s, Excluded e => match cmp s e with Lt => false | _ => true end
  | Included s, Included e | Included s, Excluded e | Excluded s, Included e => match cmp s e with Gt => true | _ => false end
  end.

Definition bt_select (start end_ : Bound K) (m : list (K * V)) : list (K * V) :=
  base.filter (λ kv, above_start start kv.1 && below_end end_ kv.1 = true) m.

Definition bt_range {E} (start end_ : Bound K) (m : list (K * V)) : result E (list (K * V)) :=
  if bad_range start end_ then Panic else Ok (bt_select start end_ m).
End btree.

(** ** The histogram *)

Definition MIN_BUCKET_SIZE : N := 10.

Record Counts := mkCounts { c_left : N; c_right : N }.

Record HPoint (T : Type) := mkHPoint { hp_val : T; hp_idx : N }.
Arguments mkHPoint {T}.
Arguments hp_val {T}.
Arguments hp_idx {T}.

Record Histogram (T : Type) := mkHistogram {
  max_bucket_size : N;
  precision : spec_float;
  total_count : N;
  borders : list (HPoint T * Counts);
}.
Arguments mkHistogram {T}.
Arguments max_bucket_size {T}.
Arguments precision {T}.
Arguments total_count {T}.
Arguments borders {T}.

Section histogram.
Context {T : Type} `{!Numericable T}.
Abbreviation Border := (HPoint T * Counts)%type.

Definition hp_compare (a b : HPoint T) : comparison :=
  match nm_compare (hp_val a) (hp_val b) with Eq => (hp_idx a ?= hp_idx b)%N | c => c end.

(** [==] on points. *)
Definition hp_eqb (a b : HPoint T) : bool := match hp_compare a b with Eq => true | _ => false end.

Definition histogram_new (max_bucket_size : N) (precision : spec_float) : Histogram T :=
  mkHistogram max_bucket_size precision 0 [].

Definition current_bucket_size (self : Histogram T) : N :=
  let bucket_size := f64_trunc_usize (f64_mul (f64_of_N (total_count self)) (precision self)) in
  N.max MIN_BUCKET_SIZE (N.min bucket_size (max_bucket_size self)).

(** *** Sizes of ranges *)

Definition start_point (b : Bound T) : Bound (HPoint T) :=
  match b with
  | Included val => Included (mkHPoint val 0)
  | Excluded val => Excluded (mkHPoint val u64_max)
  | Unbounded => Unbounded
  end.

Definition end_point (b : Bound T) : Bound (HPoint T) :=
  match b with
  | Included val => Included (mkHPoint val u64_max)
  | Excluded val => Excluded (mkHPoint val 0)
  | Unbounded => Unbounded
  end.

Definition bound_val (d : T) (b : Bound T) : T := match b with Included v | Excluded v => v | Unbounded => d end.

Fixpoint reach_size (range_size reached_count : N) (l : list Border) : Bound T :=
  match l with
  | [] => Unbounded
  | (border, counts) :: l =>
      if (range_size <? reached_count + c_left counts)%N then Included (hp_val border)
      else reach_size range_size (reached_count + c_left counts) l
  end.

Definition get_range_by_size (self : Histogram T) (from : Bound T) (range_size : N) : Bound T :=
  reach_size range_size 0 (bt_select hp_compare (start_point from) Unbounded (borders self)).

(** The estimates for the values from one border to the next. *)
Definition estimate_window (from_val to_val : T) (a b : Border) : N * N * N :=
  let val_range := nm_to_f64 (nm_sub (hp_val b.1) (hp_val a.1)) in
  let right := c_right a.2 in
  if SFeqb val_range (S754_zero false) then (right + 1, right + 1, right + 1)%N
  else if (right =? 0)%N then (1, 1, 1)%N
  else
    let cover_range := nm_to_f64 (nm_sub (nm_min to_val (hp_val b.1)) (nm_max from_val (hp_val a.1))) in
    let covered_frac := f64_div cover_range val_range in
    let estimate := (f64_round_usize (f64_mul (f64_of_N right) covered_frac) + 1)%N in
    let min_estimate := if SFeqb cover_range val_range then (right + 1)%N else 0%N in
    (min_estimate, estimate, right + 1)%N.

Fixpoint sum_windows (from_val to_val : T) (l : list Border) : N * N * N :=
  match l with
  | a :: ((b :: _) as l') =>
      let '(x, y, z) := estimate_window from_val to_val a b in
      let '(x', y', z') := sum_windows from_val to_val l' in (x + x', y + y', z + z')%N
  | _ => (0, 0, 0)%N
  end.

Definition estimate {E} (self : Histogram T) (from to : Bound T) : result E (N * N * N) :=
  let from_ := start_point from in
  let to_ := end_point to in
  let from_val := bound_val nm_min_value from in
  let to_val := bound_val nm_max_value to in
  if nm_ltb to_val from_val then Ok (0, 0, 0)%N
  else
    let left_border := if is_unbounded from_ then None
                       else last (bt_select hp_compare Unbounded from_ (borders self)) in
    let right_border := if is_unbounded to_ then None
                        else head (bt_select hp_compare to_ Unbounded (borders self)) in
    inner ← bt_range hp_compare from_ to_ (borders self);
    Ok (sum_windows from_val to_val (option_list left_border ++ inner ++ option_list right_border)).

(** *** Updates *)

Definition set_c_left (n : N) (b : Border) : Border := (b.1, mkCounts n (c_right b.2)).
Definition set_c_right (n : N) (b : Border) : Border := (b.1, mkCounts (c_left b.2) n).

(** The borders next to a value, nearest first, on either side. *)
Definition borders_before (val : HPoint T) (self : Histogram T) : list Border :=
  reverse (bt_select hp_compare Unbounded (Included val) (borders self)).
Definition borders_after (val : HPoint T) (self : Histogram T) : list Border :=
  bt_select hp_compare (Excluded val) Unbounded (borders self).

(** The four borders as changed, a border to remove and one to create. *)
Record Change := mkChange {
  close_left : option Border;
  close_right : option Border;
  far_left : option Border;
  far_right : option Border;
  to_remove : option (HPoint T);
  to_create : option Border;
}.

Definition put_border (b : option Border) (m : list Border) : list Border :=
  match b with Some (k, v) => bt_insert hp_compare k v m | None => m end.

Definition apply_change (c : Change) (m : list Border) : list Border :=
  let m := put_border (far_right c) (put_border (far_left c) (put_border (close_right c) (put_border (close_left c) m))) in
  let m := match to_remove c with Some k => bt_remove hp_compare k m | None => m end in
  put_border (to_create c) m.

Section neighbours.
Context {E : Type} (left_neighbour right_neighbour : HPoint T → option (HPoint T)).

Definition insert_change (bucket : N) (val : HPoint T) (cl cr fl fr : option Border) : result E Change :=
  match cl, cr with
  | None, None => Panic
  | None, Some r =>
      let new_count := (c_right r.2 + 1)%N in
      if (bucket <? new_count)%N then Ok (mkChange cl cr fl fr None (Some (val, mkCounts 0 0)))
      else Ok (mkChange cl cr fl (set_c_left new_count <$> fr) (Some r.1) (Some (val, mkCounts 0 new_count)))
  | Some l, None =>
      let new_count := (c_left l.2 + 1)%N in
      if (bucket <? new_count)%N then Ok (mkChange cl cr fl fr None (Some (val, mkCounts 0 0)))
      else Ok (mkChange cl cr (set_c_right new_count <$> fl) fr (Some l.1) (Some (val, mkCounts new_count 0)))
  | Some l, Some r =>
      if negb (c_right l.2 =? c_left r.2)%N then Panic
      else
        let new_count := (c_right l.2 + 1)%N in
        if (bucket <? new_count)%N then
          let left_dist := nm_abs_diff (hp_val val) (hp_val l.1) in
          let right_dist := nm_abs_diff (hp_val val) (hp_val r.1) in
          if nm_ltb left_dist right_dist then
            new_border ← unwrap (right_neighbour l.1);
            if (c_left l.2 <? bucket)%N && bool_decide (is_Some fl)
            then Ok (mkChange cl cr (set_c_right (c_left l.2 + 1) <$> fl) fr (Some l.1)
                       (Some (new_border, mkCounts (c_left l.2 + 1) (c_right l.2))))
            else Ok (mkChange (Some (set_c_right 0 l)) cr fl fr None (Some (new_border, mkCounts 0 (c_right l.2))))
          else
            new_border ← unwrap (left_neighbour r.1);
            if (c_right r.2 <? bucket)%N && bool_decide (is_Some fr)
            then Ok (mkChange cl cr fl (set_c_left (c_right r.2 + 1) <$> fr) (Some r.1)
                       (Some (new_border, mkCounts (c_left r.2) (c_right r.2 + 1))))
            else Ok (mkChange cl (Some (set_c_left 0 r)) fl fr None (Some (new_border, mkCounts (c_left r.2) 0)))
        else Ok (mkChange (Some (set_c_right new_count l)) (Some (set_c_left new_count r)) fl fr None None)
  end.

Definition histogram_insert (val : HPoint T) (self : Histogram T) : result E (Histogram T) :=
  let self := mkHistogram (max_bucket_size self) (precision self) (total_count self + 1) (borders self) in
  if decide (length (borders self) < 2) then
    Ok (mkHistogram (max_bucket_size self) (precision self) (total_count self)
          (bt_insert hp_compare val (mkCounts 0 0) (borders self)))
  else
    let before := borders_before val self in
    let after := borders_after val self in
    c ← insert_change (current_bucket_size self) val (before !! 0) (after !! 0) (before !! 1) (after !! 1);
    Ok (mkHistogram (max_bucket_size self) (precision self) (total_count self) (apply_change c (borders self))).

(** The flag says whether a value was removed. *)
Definition remove_change (bucket : N) (val : HPoint T) (cl cr fl fr : option Border) : result E (Change * bool) :=
  let unchanged := Ok (mkChange cl cr fl fr None None, false) in
  match cl, cr with
  | None, None => unchanged
  | Some l, None =>
      if hp_eqb l.1 val then
        if (c_left l.2 =? 0)%N then Ok (mkChange cl cr fl fr (Some l.1) None, true)
        else
          new_border ← unwrap (left_neighbour l.1);
          Ok (mkChange cl cr ((λ b, set_c_right (usize_sub (c_right b.2) 1) b) <$> fl) fr (Some l.1)
                (Some (new_border, mkCounts (usize_sub (c_left l.2) 1) 0)), true)
      else unchanged
  | None, Some r =>
      if hp_eqb r.1 val then
        if (c_right r.2 =? 0)%N then Ok (mkChange cl cr fl fr (Some r.1) None, true)
        else
          new_border ← unwrap (right_neighbour r.1);
          Ok (mkChange cl cr fl ((λ b, set_c_left (usize_sub (c_left b.2) 1) b) <$> fr) (Some r.1)
                (Some (new_border, mkCounts 0 (usize_sub (c_right r.2) 1))), true)
      else unchanged
  | Some l, Some r =>
      if hp_eqb l.1 val then
        if (c_right l.2 =? 0)%N
        then Ok (mkChange cl (Some (set_c_left (c_left l.2) r)) fl fr (Some l.1) None, true)
        else if (c_left r.2 + c_left l.2 <=? bucket)%N && bool_decide (is_Some fl) then
          match fl with
          | Some f => let n := (c_right f.2 + c_left r.2)%N in
              Ok (mkChange cl (Some (set_c_left n r)) (Some (set_c_right n f)) fr (Some l.1) None, true)
          | None => Ok (mkChange cl cr fl fr (Some l.1) None, true)
          end
        else
          new_border ← unwrap (right_neighbour l.1);
          Ok (mkChange cl (Some (set_c_left (usize_sub (c_left r.2) 1) r)) fl fr (Some l.1)
                (Some (new_border, mkCounts (c_left l.2) (usize_sub (c_right l.2) 1))), true)
      else if hp_eqb r.1 val then
        if (c_left r.2 =? 0)%N
        then Ok (mkChange (Some (set_c_right (c_left r.2) l)) cr fl fr (Some r.1) None, true)
        else if (c_right l.2 + c_right r.2 <=? bucket)%N && bool_decide (is_Some fr) then
          match fr with
          | Some f => let n := (c_left f.2 + c_right l.2)%N in
              Ok (mkChange (Some (set_c_right n l)) cr fl (Some (set_c_left n f)) (Some r.1) None, true)
          | None => Ok (mkChange cl cr fl fr (Some r.1) None, true)
          end
        else
          new_border ← unwrap (left_neighbour r.1);
          Ok (mkChange (Some (set_c_right (usize_sub (c_right l.2) 1) l)) cr fl fr (Some r.1)
                (Some (new_border, mkCounts (c_right r.2) (usize_sub (c_left r.2) 1))), true)
      else if (c_left r.2 =? 0)%N then unchanged
      else Ok (mkChange (Some (set_c_right (usize_sub (c_right l.2) 1) l))
                 (Some (set_c_left (usize_sub (c_left r.2) 1) r)) fl fr None None, true)
  end.

Definition histogram_remove (val : HPoint T) (self : Histogram T) : result E (Histogram T) :=
  let before := borders_before val self in
  let after := borders_after val self in
  '(c, removed) ← remove_change (current_bucket_size self) val (before !! 0) (after !! 0) (before !! 1) (after !! 1);
  Ok (mkHistogram (max_bucket_size self) (precision self)
        (if removed : bool then usize_sub (total_count self) 1 else total_count self)
        (apply_change c (borders self))).
End neighbours.
End histogram.
