(* ===== verification/HistogramSpec.v ===== *)
(** * Correctness of histograms

    The borders of a histogram cut the ordered list of all values into gaps,
    and the counts are the sizes of the gaps.  Updates keep this, estimates
    follow from it. *)

From stdpp Require Import base list sorting sets.
From Stdlib Require Import ZArith Lia SpecFloat.
From S2P Require Import Prelude Types Rocks Filters Estimator Segment Histogram.

(** ** Ordered maps *)

Section btree_spec.
Context {K V : Type} (cmp : K → K → comparison).
Implicit Types A C m : list (K * V).

Lemma bt_insert_skip k v A m :
  (∀ b, b ∈ A → cmp k b.1 = Gt) → bt_insert cmp k v (A ++ m) = A ++ bt_insert cmp k v m.
Proof.
  induction A as [|[a c] A IH]; intros HA; [done|]. cbn. pose proof (HA (a, c) ltac:(left)) as Ha; cbn in Ha; rewrite Ha. f_equal.
  apply IH. intros b Hb. apply HA. by right.
Qed.

Lemma bt_insert_first k v C : (∀ b, b ∈ C → cmp k b.1 = Lt) → bt_insert cmp k v C = (k, v) :: C.
Proof. destruct C as [|[c cc] C]; intros HC; [done|]. cbn. pose proof (HC (c, cc) ltac:(left)) as Hc. cbn in Hc. by rewrite Hc. Qed.

Lemma bt_insert_at k v0 v A C :
  (∀ b, b ∈ A → cmp k b.1 = Gt) → cmp k k = Eq → bt_insert cmp k v (A ++ (k, v0) :: C) = A ++ (k, v) :: C.
Proof. intros HA Hk. rewrite bt_insert_skip by done. cbn. by rewrite Hk. Qed.

Lemma bt_remove_at k v A C :
  (∀ b, b ∈ A → cmp k b.1 = Gt) → cmp k k = Eq → bt_remove cmp k (A ++ (k, v) :: C) = A ++ C.
Proof.
  intros HA Hk. induction A as [|[a c] A IH]; cbn; [by rewrite Hk|]. pose proof (HA (a, c) ltac:(left)) as Ha; cbn in Ha; rewrite Ha. f_equal.
  apply IH. intros b Hb. apply HA. by right.
Qed.

Lemma bt_remove_none k m : (∀ b, b ∈ m → cmp k b.1 ≠ Eq) → bt_remove cmp k m = m.
Proof.
  induction m as [|[a c] m IH]; intros Hm; [done|]. cbn. pose proof (Hm (a, c) ltac:(left)) as Ha. cbn in Ha.
  assert (bt_remove cmp k m = m) as -> by (apply IH; intros b Hb; apply Hm; by right). by destruct (cmp k a).
Qed.

Lemma bt_get_at k v A C :
  (∀ b, b ∈ A → cmp k b.1 = Gt) → cmp k k = Eq → bt_get cmp k (A ++ (k, v) :: C) = Some v.
Proof.
  intros HA Hk. induction A as [|[a c] A IH]; cbn; [by rewrite Hk|]. pose proof (HA (a, c) ltac:(left)) as Ha; cbn in Ha; rewrite Ha.
  apply IH. intros b Hb. apply HA. by right.
Qed.

Lemma bt_get_none k m : (∀ b, b ∈ m → cmp k b.1 ≠ Eq) → bt_get cmp k m = None.
Proof.
  induction m as [|[a c] m IH]; intros Hm; [done|]. cbn. pose proof (Hm (a, c) ltac:(left)) as Ha. cbn in Ha.
  assert (bt_get cmp k m = None) by (apply IH; intros b Hb; apply Hm; by right). by destruct (cmp k a).
Qed.
End btree_spec.

Section histogram_spec.
Context {T : Type} `{!Numericable T}.
Abbreviation Border := (HPoint T * Counts)%type.

(** The order of the points as one of integers, for the points that occur. *)
Context (ok : HPoint T → Prop) (pos : HPoint T → Z).
Context (compare_pos : ∀ a b, ok a → ok b → hp_compare a b = (pos a ?= pos b)%Z).
Context (pos_inj : ∀ a b, ok a → ok b → pos a = pos b → a = b).

Definition ascending (l : list (HPoint T)) : Prop := Forall ok l ∧ StronglySorted (λ a b, (pos a < pos b)%Z) l.

Definition size_N {A} (l : list A) : N := N.of_nat (length l).

(** [part n bs m l]: [bs] are borders in [l], after a gap of [n] values and
    before one of [m], which is the end of [l]. *)
Inductive part : N → list Border → N → list (HPoint T) → Prop :=
| part_nil n : part n [] n []
| part_cons p n gap bs m l : part (size_N gap) bs m l → part n ((p, mkCounts n (size_N gap)) :: bs) m (p :: gap ++ l).

Definition hist_ok (h : Histogram T) (l : list (HPoint T)) : Prop :=
  total_count h = size_N l ∧ part 0 (borders h) 0 l.

(** *** Parts *)

Lemma part_app n A B m l :
  part n (A ++ B) m l ↔ ∃ k l1 l2, part n A k l1 ∧ part k B m l2 ∧ l = l1 ++ l2.
Proof using.
  split.
  - revert n l. induction A as [|[p c] A IH]; intros n l.
    + intros H. exists n, [], l. split_and!; [constructor|done|done].
    + cbn. intros H. inversion H as [|? ? gap ? ? l0 Hp]; subst. apply IH in Hp as (k & l1 & l2 & H1 & H2 & ->).
      exists k, (p :: gap ++ l1), l2. split_and!; [by constructor|done|]. cbn. by rewrite app_assoc.
  - intros (k & l1 & l2 & H1 & H2 & ->). induction H1 as [|p n gap bs k l1 H1 IH]; [done|].
    cbn. rewrite <-app_assoc. constructor. by apply IH.
Qed.

Lemma part_one p n gap : part n [(p, mkCounts n (size_N gap))] (size_N gap) (p :: gap).
Proof using.
  pose proof (part_cons p n gap [] _ [] (part_nil _)) as H. by rewrite app_nil_r in H.
Qed.

(** A part of at most one border. *)
Lemma part_opt n (b : option Border) m l :
  part n (option_list b) m l →
  match b with
  | None => m = n ∧ l = []
  | Some (p, c) => c = mkCounts n m ∧ ∃ gap, l = p :: gap ∧ m = size_N gap
  end.
Proof using.
  destruct b as [[p c]|]; cbn; intros H; inversion H as [|? ? gap ? ? l0 Hp]; subst; [|done].
  inversion Hp; subst. rewrite app_nil_r. eauto.
Qed.

Lemma part_keys n bs m l : part n bs m l → bs.*1 `sublist_of` l.
Proof using.
  induction 1 as [|p n gap bs m l _ IH]; cbn; [constructor|]. constructor. by apply sublist_inserts_l.
Qed.

(** *** Ascending lists *)

Lemma Forall_sublist {A} (P : A → Prop) l1 l2 : l1 `sublist_of` l2 → Forall P l2 → Forall P l1.
Proof using. induction 1; [done|..]; intros [? ?]%Forall_cons; auto. Qed.

Lemma ascending_sublist l1 l2 : l1 `sublist_of` l2 → ascending l2 → ascending l1.
Proof using.
  intros Hs [Hok Hsort]. split; [by eapply Forall_sublist|]. induction Hs as [|x l1 l2 Hs IH|x l1 l2 Hs IH]; [constructor|..].
  - apply Forall_cons in Hok as [_ Hok]. apply StronglySorted_inv in Hsort as [Hsort Hall]. constructor; [by apply IH|].
    by eapply Forall_sublist.
  - apply Forall_cons in Hok as [_ Hok]. apply StronglySorted_inv in Hsort as [Hsort Hall]. by apply IH.
Qed.

Lemma ascending_app l1 l2 :
  ascending (l1 ++ l2) ↔ ascending l1 ∧ ascending l2 ∧ ∀ x y, x ∈ l1 → y ∈ l2 → (pos x < pos y)%Z.
Proof using.
  unfold ascending. rewrite Forall_app, StronglySorted_app. naive_solver.
Qed.

Lemma ascending_cons p l : ascending (p :: l) ↔ ok p ∧ ascending l ∧ ∀ x, x ∈ l → (pos p < pos x)%Z.
Proof using.
  change (p :: l) with ([p] ++ l). rewrite ascending_app. unfold ascending at 1. split.
  - intros ([[Hp _]%Forall_cons _] & Hl & H). split_and!; [done|done|]. intros x Hx. apply H; [left|done].
  - intros (Hp & Hl & H). split; [split; [by constructor|repeat constructor]|split; [done|]].
    intros x y ->%list_elem_of_singleton Hy. by apply H.
Qed.

Lemma ascending_below X q Y y : ascending (X ++ q :: Y) → y ∈ Y → (pos q < pos y)%Z.
Proof using. intros (_ & [_ [_ H]]%ascending_cons & _)%ascending_app. apply H. Qed.

Lemma ascending_unique l1 l2 : ascending l1 → ascending l2 → (∀ x, x ∈ l1 ↔ x ∈ l2) → l1 = l2.
Proof using pos_inj.
  revert l2. induction l1 as [|a l1 IH]; intros [|b l2] H1 H2 Heq; [done|..].
  - destruct (not_elem_of_nil b). apply Heq. left.
  - destruct (not_elem_of_nil a). apply Heq. left.
  - apply ascending_cons in H1 as (Ha & H1 & Hlt1), H2 as (Hb & H2 & Hlt2).
    assert (a = b) as <-.
    { assert (a ∈ b :: l2) as Ha2 by (apply Heq; left). assert (b ∈ a :: l1) as Hb1 by (apply Heq; left).
      apply elem_of_cons in Ha2 as [?|Ha2]; [done|]. apply elem_of_cons in Hb1 as [?|Hb1]; [done|].
      specialize (Hlt1 b Hb1). specialize (Hlt2 a Ha2). lia. }
    f_equal. apply IH; [done|done|]. intros x. split; intros Hx.
    + assert (x ∈ a :: l2) as Hx2 by (apply Heq; by right). apply elem_of_cons in Hx2 as [->|?]; [|done].
      specialize (Hlt1 a Hx). lia.
    + assert (x ∈ a :: l1) as Hx2 by (apply Heq; by right). apply elem_of_cons in Hx2 as [->|?]; [|done].
      specialize (Hlt2 a Hx). lia.
Qed.

Lemma ascending_split X1 X2 p Y1 Y2 :
  X1 ++ p :: Y1 = X2 ++ p :: Y2 → ascending (X1 ++ p :: Y1) → X1 = X2 ∧ Y1 = Y2.
Proof using.
  assert (∀ q X Y, ascending (q :: X ++ q :: Y) → False) as Hno.
  { intros q X Y (_ & _ & Hlt)%ascending_cons. assert (q ∈ X ++ q :: Y) as Hq%Hlt; [|lia]. apply elem_of_app. right. left. }
  revert X2. induction X1 as [|x X1 IH]; intros [|x2 X2] Heq Ha; cbn in *.
  - by injection Heq as ->.
  - injection Heq as -> ->. by apply Hno in Ha.
  - injection Heq as -> _. by apply Hno in Ha.
  - injection Heq as -> Heq. apply ascending_cons in Ha as (_ & Ha & _). by destruct (IH X2) as [-> ->].
Qed.

(** The list with a value added, and with one taken away. *)
Lemma ascending_added val l l' X Y :
  ok val → ascending l → ascending l' → (∀ x, x ∈ l' ↔ x = val ∨ x ∈ l) → l = X ++ Y →
  (∀ x, x ∈ X → (pos x < pos val)%Z) → (∀ y, y ∈ Y → (pos val < pos y)%Z) → l' = X ++ val :: Y.
Proof using pos_inj.
  intros Hok Hl Hl' Heq -> HX HY. apply ascending_app in Hl as (H1 & H2 & H3).
  apply ascending_unique; [done| |].
  - apply ascending_app. split_and!; [done| |].
    + apply ascending_cons. split_and!; [done|done|auto].
    + intros x y Hx [->|Hy]%elem_of_cons; auto.
  - intros x. rewrite Heq, !elem_of_app, elem_of_cons. tauto.
Qed.

Lemma ascending_dropped val l l' X Y :
  ascending l → ascending l' → (∀ x, x ∈ l' ↔ x ≠ val ∧ x ∈ l) → l = X ++ val :: Y → l' = X ++ Y.
Proof using pos_inj.
  intros Hl Hl' Heq ->. pose proof Hl as Ho. apply ascending_app in Hl as (H1 & [Hv [H2 H3]]%ascending_cons & H4).
  apply ascending_unique; [done| |].
  - apply ascending_app. split_and!; [done|done|]. intros x y Hx Hy. apply H4; [done|by right].
  - intros x. rewrite Heq, !elem_of_app, elem_of_cons. split; [tauto|]. intros [Hx|Hx]; (split; [|tauto]); intros ->.
    + specialize (H4 val val Hx ltac:(left)). lia.
    + specialize (H3 val Hx). lia.
Qed.

(** A gap is cut in two by a value that is not in it. *)
Lemma split_gap val gap :
  ascending gap → ok val → val ∉ gap →
  ∃ g1 g2, gap = g1 ++ g2 ∧ (∀ x, x ∈ g1 → (pos x < pos val)%Z) ∧ (∀ x, x ∈ g2 → (pos val < pos x)%Z).
Proof using pos_inj.
  intros Ha Hok Hnin. induction gap as [|a gap IH].
  { exists [], []. split_and!; [done|..]; by intros x ?%not_elem_of_nil. }
  apply ascending_cons in Ha as (Hoka & Ha & Hlt). rewrite not_elem_of_cons in Hnin. destruct Hnin as [Hne Hnin].
  destruct (decide (pos a < pos val)%Z) as [Hav|Hav].
  - destruct (IH Ha Hnin) as (g1 & g2 & -> & H1 & H2). exists (a :: g1), g2. split_and!; [done| |done].
    intros x [->|Hx]%elem_of_cons; auto.
  - exists [], (a :: gap). split_and!; [done|by intros x ?%not_elem_of_nil|].
    assert (pos a ≠ pos val) by (intros He; destruct Hne; symmetry; by apply pos_inj).
    intros x [->|Hx]%elem_of_cons; [lia|]. specialize (Hlt x Hx). lia.
Qed.

(** The place of a value in an ascending list: [at_] is the value if the list
    has it. *)
Lemma ascending_place val l :
  ascending l → ok val →
  ∃ X Y at_, l = X ++ option_list at_ ++ Y ∧ (∀ x, x ∈ X → (pos x < pos val)%Z) ∧ (∀ y, y ∈ Y → (pos val < pos y)%Z) ∧
    (at_ = None ∧ (val ∉ l) ∨ at_ = Some val ∧ val ∈ l).
Proof using pos_inj.
  intros Ha Hok. assert (val ∈ l ∨ (val ∉ l)) as [Hin|Hin].
  { clear -Ha Hok pos_inj. induction l as [|a l IH]; [right; apply not_elem_of_nil|]. apply ascending_cons in Ha as (Hoka & Ha & Hlt).
    destruct (decide (pos a = pos val)) as [He|Hne]; [left; rewrite (pos_inj a val) by done; left|].
    destruct (IH Ha) as [?|?]; [left; by right|right; apply not_elem_of_cons]. split; [by intros ->|done]. }
  - apply list_elem_of_split in Hin as (X & Y & ->). exists X, Y, (Some val).
    apply ascending_app in Ha as (_ & (_ & _ & HY)%ascending_cons & HX).
    split_and!; [done|intros x Hx; apply HX; [done|left]|done|right; split; [done|apply elem_of_app; right; left]].
  - destruct (split_gap val l Ha Hok Hin) as (X & Y & -> & HX & HY). exists X, Y, None. by split_and!; [..|left].
Qed.

(** *** Writing borders back *)

Lemma ascending_mid (A : list Border) k v C :
  ascending (A ++ (k, v) :: C).*1 →
  ok k ∧ (∀ b, b ∈ A → ok b.1 ∧ (pos b.1 < pos k)%Z) ∧ (∀ b, b ∈ C → ok b.1 ∧ (pos k < pos b.1)%Z).
Proof using.
  rewrite fmap_app, ascending_app, fmap_cons, ascending_cons. intros ([HA _] & (Hk & [HC _] & H1) & H2).
  rewrite Forall_forall in HA, HC. split_and!; [done|..]; intros b Hb%(list_elem_of_fmap_2 fst); (split; [auto|]).
  - apply H2; [done|left].
  - by apply H1.
Qed.

Lemma compare_mid (A C : list Border) k v :
  ascending (A ++ (k, v) :: C).*1 →
  (∀ b, b ∈ A → hp_compare k b.1 = Gt) ∧ hp_compare k k = Eq ∧ (∀ b, b ∈ C → hp_compare k b.1 = Lt).
Proof using compare_pos.
  intros (Hk & HA & HC)%ascending_mid. split_and!; [|by rewrite compare_pos, Z.compare_refl|].
  - intros b [Hb Hlt]%HA. rewrite compare_pos by done. by apply Z.compare_gt_iff.
  - intros b [Hb Hlt]%HC. rewrite compare_pos by done. by apply Z.compare_lt_iff.
Qed.

Lemma bt_insert_same (A : list Border) k v0 v C :
  ascending (A ++ (k, v0) :: C).*1 → bt_insert hp_compare k v (A ++ (k, v0) :: C) = A ++ (k, v) :: C.
Proof using compare_pos. intros (HA & Hk & _)%compare_mid. by apply bt_insert_at. Qed.

Lemma bt_insert_new (A : list Border) k v C :
  ascending (A ++ (k, v) :: C).*1 → bt_insert hp_compare k v (A ++ C) = A ++ (k, v) :: C.
Proof using compare_pos. intros (HA & Hk & HC)%compare_mid. by rewrite bt_insert_skip, bt_insert_first. Qed.

Lemma bt_remove_mid (A : list Border) k v C B :
  B = A ++ (k, v) :: C → ascending B.*1 → bt_remove hp_compare k B = A ++ C.
Proof using compare_pos. intros -> (HA & Hk & _)%compare_mid. by apply bt_remove_at. Qed.

Lemma put_border_same (A : list Border) b b' C :
  fst <$> b' = fst <$> b → ascending (A ++ option_list b ++ C).*1 →
  put_border b' (A ++ option_list b ++ C) = A ++ option_list b' ++ C.
Proof using compare_pos.
  destruct b as [[k v]|], b' as [[k' v']|]; cbn; intros Heq Hs; try done. injection Heq as ->. by apply bt_insert_same.
Qed.

Lemma keys_option (b b' : option Border) : fst <$> b' = fst <$> b → (option_list b').*1 = (option_list b).*1.
Proof using. destruct b as [[]|], b' as [[]|]; cbn; intros Heq; try done. by injection Heq as ->. Qed.

(** The four borders are written in place. *)
Lemma apply_change_zip A fl l r fr C c B :
  B = A ++ option_list fl ++ option_list l ++ option_list r ++ option_list fr ++ C → ascending B.*1 →
  fst <$> far_left c = fst <$> fl → fst <$> close_left c = fst <$> l →
  fst <$> close_right c = fst <$> r → fst <$> far_right c = fst <$> fr →
  apply_change c B =
  put_border (to_create c) (let m := A ++ option_list (far_left c) ++ option_list (close_left c) ++
      option_list (close_right c) ++ option_list (far_right c) ++ C in
    match to_remove c with Some k => bt_remove hp_compare k m | None => m end).
Proof using compare_pos.
  intros -> Hs Hfl Hl Hr Hfr. unfold apply_change. f_equal. cbv zeta.
  assert (put_border (far_right c) (put_border (far_left c) (put_border (close_right c) (put_border (close_left c)
    (A ++ option_list fl ++ option_list l ++ option_list r ++ option_list fr ++ C)))) =
    A ++ option_list (far_left c) ++ option_list (close_left c) ++ option_list (close_right c) ++ option_list (far_right c) ++ C)
    as ->; [|done].
  pose proof (keys_option _ _ Hfl) as Kfl. pose proof (keys_option _ _ Hl) as Kl. pose proof (keys_option _ _ Hr) as Kr.
  rewrite (app_assoc A (option_list fl)), put_border_same; [|done|by rewrite <-app_assoc].
  rewrite (app_assoc (A ++ option_list fl) (option_list (close_left c))), put_border_same;
    [|done|rewrite <-!app_assoc, !fmap_app in *; by rewrite Kl].
  rewrite <-!app_assoc, put_border_same; [|done|rewrite !fmap_app in *; by rewrite Kl, Kr].
  rewrite (app_assoc (option_list (close_left c))), (app_assoc (option_list (far_left c))), (app_assoc A), put_border_same;
    [by rewrite <-!app_assoc|done|]. rewrite <-!app_assoc, !fmap_app in *. by rewrite Kl, Kr, Kfl.
Qed.

(** *** The borders around a value *)

Lemma filter_ext_in {A} (P Q : A → Prop) `{!∀ x, Decision (P x), !∀ x, Decision (Q x)} (l : list A) :
  (∀ x, x ∈ l → P x ↔ Q x) → base.filter P l = base.filter Q l.
Proof using.
  induction l as [|x l IH]; intros HPQ; [done|]. rewrite !filter_cons, IH by (intros y Hy; apply HPQ; by right).
  pose proof (HPQ x ltac:(left)). destruct (decide (P x)), (decide (Q x)); [done|tauto|tauto|done].
Qed.

Lemma filter_cut (v : Z) (B : list Border) :
  ascending B.*1 → base.filter (λ b : Border, (pos b.1 ≤ v)%Z) B ++ base.filter (λ b : Border, (v < pos b.1)%Z) B = B.
Proof using.
  induction B as [|b B IH]; [done|]. rewrite fmap_cons, ascending_cons. intros (_ & HB & Hlt).
  assert (∀ x, x ∈ B → (pos b.1 < pos x.1)%Z) as Hall by (intros x Hx%(list_elem_of_fmap_2 fst); auto).
  rewrite !filter_cons. destruct (decide (pos b.1 ≤ v)%Z) as [Hle|Hle].
  - rewrite decide_False by lia. cbn. f_equal. by apply IH.
  - rewrite decide_True by lia. rewrite list_filter_none, list_filter_all; [done|..]; intros x Hx; specialize (Hall x Hx); lia.
Qed.

Lemma select_around val (B : list Border) :
  ok val → ascending B.*1 →
  bt_select hp_compare Unbounded (Included val) B = base.filter (λ b : Border, (pos b.1 ≤ pos val)%Z) B ∧
  bt_select hp_compare (Excluded val) Unbounded B = base.filter (λ b : Border, (pos val < pos b.1)%Z) B.
Proof using compare_pos.
  intros Hv [HB _]. rewrite Forall_fmap, Forall_forall in HB. unfold bt_select.
  split; apply filter_ext_in; intros b Hb; cbn; rewrite compare_pos by (done || by apply HB).
  - destruct (Z.compare_spec (pos b.1) (pos val)); split; intros; try done; lia.
  - destruct (Z.compare_spec (pos val) (pos b.1)); split; intros; try done; lia.
Qed.

Lemma zip_left (B : list Border) :
  ∃ A fl l, B = A ++ option_list fl ++ option_list l ∧ reverse B !! 0 = l ∧ reverse B !! 1 = fl ∧
    (l = None → fl = None) ∧ (fl = None → A = []).
Proof using.
  destruct B as [|l B _] using rev_ind; [by exists [], None, None|].
  destruct B as [|fl B _] using rev_ind; [by exists [], None, (Some l)|].
  exists B, (Some fl), (Some l). rewrite <-app_assoc. rewrite !reverse_app. by split_and!.
Qed.

Lemma zip_right (B : list Border) :
  ∃ r fr C, B = option_list r ++ option_list fr ++ C ∧ B !! 0 = r ∧ B !! 1 = fr ∧
    (r = None → fr = None) ∧ (fr = None → C = []).
Proof using.
  destruct B as [|r [|fr B]]; [by exists None, None, []|by exists (Some r), None, []|by exists (Some r), (Some fr), B].
Qed.

(** All of it at once. *)
Lemma zip_borders val h l :
  ok val → ascending l → part 0 (borders h) 0 l →
  ∃ A fl cl cr fr C kA kf kl kr kg LA Lf Ll Lr Lg LC,
    borders h = A ++ option_list fl ++ option_list cl ++ option_list cr ++ option_list fr ++ C ∧
    borders_before val h !! 0 = cl ∧ borders_before val h !! 1 = fl ∧
    borders_after val h !! 0 = cr ∧ borders_after val h !! 1 = fr ∧
    part 0 A kA LA ∧ part kA (option_list fl) kf Lf ∧ part kf (option_list cl) kl Ll ∧
    part kl (option_list cr) kr Lr ∧ part kr (option_list fr) kg Lg ∧ part kg C 0 LC ∧
    l = LA ++ Lf ++ Ll ++ Lr ++ Lg ++ LC ∧
    ((cl = None → fl = None) ∧ (fl = None → A = []) ∧ (cr = None → fr = None) ∧ (fr = None → C = [])) ∧
    (∀ b, cl = Some b → (pos b.1 ≤ pos val)%Z) ∧ (∀ b, cr = Some b → (pos val < pos b.1)%Z).
Proof using compare_pos.
  intros Hv Hl Hp. assert (ascending (borders h).*1) as HB by (eapply ascending_sublist; [by eapply part_keys|done]).
  destruct (select_around val (borders h) Hv HB) as [HBl' HBr']. unfold borders_before, borders_after. rewrite HBl', HBr'.
  pose proof (filter_cut (pos val) (borders h) HB) as Heq.
  set (Bl := base.filter (λ b : Border, (pos b.1 ≤ pos val)%Z) (borders h)) in *.
  set (Br := base.filter (λ b : Border, (pos val < pos b.1)%Z) (borders h)) in *.
  destruct (zip_left Bl) as (A & fl & cl & HBl & Hcl & Hfl & H1 & H2).
  destruct (zip_right Br) as (cr & fr & C & HBr & Hcr & Hfr & H3 & H4).
  rewrite <-Heq, HBl, HBr in Hp. rewrite <-!app_assoc in Hp.
  apply part_app in Hp as (kA & LA & ? & HA & Hp & ->). apply part_app in Hp as (kf & Lf & ? & Hpf & Hp & ->).
  apply part_app in Hp as (kl & Ll & ? & Hpl & Hp & ->). apply part_app in Hp as (kr & Lr & ? & Hpr & Hp & ->).
  apply part_app in Hp as (kg & Lg & LC & Hpg & Hp & ->).
  exists A, fl, cl, cr, fr, C, kA, kf, kl, kr, kg, LA, Lf, Ll, Lr, Lg, LC.
  split_and!; try done.
  - rewrite <-Heq, HBl, HBr. by rewrite <-!app_assoc.
  - intros b ->. assert (b ∈ Bl) as Hb by (rewrite HBl, !elem_of_app; right; right; left). by apply list_elem_of_filter in Hb as [? _].
  - intros b ->. assert (b ∈ Br) as Hb by (rewrite HBr, !elem_of_app; left; left). by apply list_elem_of_filter in Hb as [? _].
Qed.

(** *** Insertion *)

Definition neighbours_in (l : list (HPoint T)) (left right : HPoint T → option (HPoint T)) : Prop :=
  ∀ X p Y, l = X ++ p :: Y → left p = last X ∧ right p = head Y.

Lemma size_N_cons {A} (x : A) l : size_N (x :: l) = (size_N l + 1)%N.
Proof using. unfold size_N. cbn. lia. Qed.

Lemma size_N_app {A} (l1 l2 : list A) : size_N (l1 ++ l2) = (size_N l1 + size_N l2)%N.
Proof using. unfold size_N. rewrite length_app. lia. Qed.

Lemma part_cons' p c n gap bs m l L :
  c = mkCounts n (size_N gap) → L = p :: gap ++ l → part (size_N gap) bs m l → part n ((p, c) :: bs) m L.
Proof using. intros -> -> H. by constructor. Qed.

Lemma part_app' n A B m k l1 l2 L : part n A k l1 → part k B m l2 → L = l1 ++ l2 → part n (A ++ B) m L.
Proof using. intros H1 H2 ->. apply part_app. by exists k, l1, l2. Qed.

Lemma part_first n b B m l : part n (b :: B) m l → ∃ gap l', b.2 = mkCounts n (size_N gap) ∧ l = b.1 :: gap ++ l' ∧ part (size_N gap) B m l'.
Proof using. intros H. inversion H; subst. eauto. Qed.

Lemma part_last (gap : list (HPoint T)) l : part (size_N gap) [] 0 l → gap = [] ∧ l = [].
Proof using. intros H. inversion H as [n Hn|]. split; [|done]. by destruct gap. Qed.

Lemma put_new P nb cc S n m l B :
  B = P ++ S → part n (P ++ (nb, cc) :: S) m l → ascending l → put_border (Some (nb, cc)) B = P ++ (nb, cc) :: S.
Proof using compare_pos.
  intros -> Hp Hl. apply bt_insert_new. eapply ascending_sublist; [by eapply part_keys|done].
Qed.

(** The changes of an update in a list given by its parts. *)
Ltac list_parts :=
  cbn [option_list app fst snd]; repeat progress (rewrite ?app_nil_r, <-?app_assoc, <-?app_comm_cons; cbn [app]); reflexivity.
Ltac put_at P S Hp Ha :=
  match goal with
  | |- context [put_border (Some (?k, ?c)) ?B] => rewrite (put_new P k c S _ _ _ B ltac:(list_parts) Hp Ha)
  end.
Ltac remove_at P S :=
  match goal with
  | |- context [bt_remove hp_compare ?k ?B] => erewrite (bt_remove_mid P k _ S B ltac:(list_parts))
  end.
Ltac zip_at A fl cl cr fr C Hk :=
  match goal with
  | |- context [apply_change ?c ?B] =>
      rewrite (apply_change_zip A fl cl cr fr C c B ltac:(list_parts) Hk) by reflexivity;
      cbn [to_create to_remove far_left far_right close_left close_right option_list fmap option_fmap option_map fst snd app];
      unfold set_c_left, set_c_right; cbn [fst snd c_left c_right]
  end.

Section insertion.
Context {E : Type} (left right : HPoint T → option (HPoint T)).
Context (val : HPoint T) (l l' : list (HPoint T)) (Hval : ok val) (Hnew : val ∉ l) (Hl : ascending l) (Hl' : ascending l').
Context (Hadd : ∀ x, x ∈ l' ↔ x = val ∨ x ∈ l) (Hnb : neighbours_in l' left right).

(** Before the first border. *)
Lemma insert_front bucket r fr B :
  part 0 (r :: fr :: B) 0 l → (pos val < pos r.1)%Z →
  ∃ c, insert_change (E:=E) left right bucket val None (Some r) None (Some fr) = Ok c ∧
    part 0 (apply_change c (r :: fr :: B)) 0 l'.
Proof using All.
  intros Hp Hlt. destruct r as [r cr], fr as [f cf]. pose proof Hp as (gr & l1 & Hcr & -> & Hp1)%part_first.
  pose proof Hp1 as (gf & l2 & Hcf & Hl1 & Hp2)%part_first. cbn [fst snd] in *. subst cr cf l1.
  assert (l' = val :: r :: gr ++ f :: gf ++ l2) as ->.
  { apply (ascending_added val _ _ [] (r :: gr ++ f :: gf ++ l2) Hval Hl Hl' Hadd eq_refl); [by intros x ?%not_elem_of_nil|].
    apply ascending_cons in Hl as (_ & _ & Hr). intros y [->|Hy]%elem_of_cons; [done|]. specialize (Hr y Hy). lia. }
  assert (ascending ((r, mkCounts 0 (size_N gr)) :: (f, mkCounts (size_N gr) (size_N gf)) :: B).*1) as Hk
    by (eapply ascending_sublist; [by eapply part_keys|done]).
  unfold insert_change. cbn [snd c_right]. destruct (bucket <? _)%N; (eexists; split; [done|]).
  - zip_at (@nil Border) (@None Border) (@None Border) (Some (r, mkCounts 0 (size_N gr))) (Some (f, mkCounts (size_N gr) (size_N gf))) B Hk.
    assert (part 0 ((val, mkCounts 0 0) :: (r, mkCounts 0 (size_N gr)) :: (f, mkCounts (size_N gr) (size_N gf)) :: B) 0
      (val :: r :: gr ++ f :: gf ++ l2)) as Hnewp by by eapply (part_cons' val _ 0 []).
    put_at (@nil Border) ((r, mkCounts 0 (size_N gr)) :: (f, mkCounts (size_N gr) (size_N gf)) :: B) Hnewp Hl'. exact Hnewp.
  - zip_at (@nil Border) (@None Border) (@None Border) (Some (r, mkCounts 0 (size_N gr))) (Some (f, mkCounts (size_N gr) (size_N gf))) B Hk.
    remove_at (@nil Border) ((f, mkCounts (size_N gr + 1) (size_N gf)) :: B); [|exact Hk].
    assert (part 0 ((val, mkCounts 0 (size_N gr + 1)) :: (f, mkCounts (size_N gr + 1) (size_N gf)) :: B) 0
      (val :: r :: gr ++ f :: gf ++ l2)) as Hnewp.
    { apply (part_cons' val _ 0 (r :: gr) _ _ (f :: gf ++ l2)); [by rewrite size_N_cons|by rewrite <-app_comm_cons|].
      rewrite size_N_cons. by apply (part_cons' f _ _ gf _ _ l2). }
    put_at (@nil Border) ((f, mkCounts (size_N gr + 1) (size_N gf)) :: B) Hnewp Hl'. exact Hnewp.
Qed.

(** After the last border. *)
Lemma insert_back bucket f cl B :
  part 0 (B ++ [f; cl]) 0 l → (pos cl.1 < pos val)%Z →
  ∃ c, insert_change (E:=E) left right bucket val (Some cl) None (Some f) None = Ok c ∧
    part 0 (apply_change c (B ++ [f; cl])) 0 l'.
Proof using All.
  intros Hp Hlt. assert (ascending (B ++ [f; cl]).*1) as Hk by (eapply ascending_sublist; [by eapply part_keys|done]).
  apply part_app in Hp as (k & l1 & l2 & HB & Hp & Hll). destruct f as [f cf], cl as [q cq].
  pose proof Hp as (gf & l3 & Hcf & -> & Hp1)%part_first. pose proof Hp1 as (gq & l4 & Hcq & -> & Hp2)%part_first.
  cbn [fst snd] in *. subst cf cq. apply part_last in Hp2 as [-> ->]. cbn [app] in *.
  assert (l' = l1 ++ (f :: gf) ++ [q; val]) as Hl'eq.
  { rewrite (ascending_added val l l' (l1 ++ f :: gf ++ [q]) []); rewrite ?app_nil_r; try done;
      [cbn; rewrite <-app_assoc; cbn; by rewrite <-app_assoc| |by intros y ?%not_elem_of_nil].
    intros x Hx. rewrite Hll in Hl. rewrite app_comm_cons, app_assoc in Hl, Hx. apply ascending_app in Hl as (_ & _ & Hl).
    apply elem_of_app in Hx as [Hx|Hx]; [|apply list_elem_of_singleton in Hx as ->; done]. specialize (Hl x q Hx ltac:(left)). lia. }
  unfold insert_change. cbn [snd c_left]. destruct (bucket <? _)%N; (eexists; split; [done|]).
  - zip_at B (Some (f, mkCounts k (size_N gf))) (Some (q, mkCounts (size_N gf) 0)) (@None Border) (@None Border) (@nil Border) Hk.
    assert (part 0 ((B ++ [(f, mkCounts k (size_N gf)); (q, mkCounts (size_N gf) 0)]) ++ (val, mkCounts 0 0) :: []) 0 l') as Hnewp.
    { rewrite Hl'eq, <-app_assoc. eapply part_app'; [exact HB| |done]. eapply (part_cons' f); [done|done|].
      eapply (part_cons' q _ _ []); [done|done|]. apply (part_one val 0 []). }
    put_at (B ++ [(f, mkCounts k (size_N gf)); (q, mkCounts (size_N gf) 0)]) (@nil Border) Hnewp Hl'. exact Hnewp.
  - zip_at B (Some (f, mkCounts k (size_N gf))) (Some (q, mkCounts (size_N gf) 0)) (@None Border) (@None Border) (@nil Border) Hk.
    remove_at (B ++ [(f, mkCounts k (size_N gf + 1))]) (@nil Border); [|by rewrite !fmap_app in *].
    assert (part 0 ((B ++ [(f, mkCounts k (size_N gf + 1))]) ++ (val, mkCounts (size_N gf + 1) 0) :: []) 0 l') as Hnewp.
    { rewrite Hl'eq, <-app_assoc. eapply part_app'; [exact HB| |done].
      apply (part_cons' f _ _ (gf ++ [q]) _ _ [val]); [by rewrite size_N_app|cbn; by rewrite <-app_assoc|].
      rewrite size_N_app. apply (part_one val _ []). }
    put_at (B ++ [(f, mkCounts k (size_N gf + 1))]) (@nil Border) Hnewp Hl'. exact Hnewp.
Qed.

(** Between two borders: [mid] is the gap with the new value in it. *)
Section between.
Context (A C : list Border) (fl fr : option Border) (q r : HPoint T) (kA kf kg : N).
Context (LA Lf gap mid gr Lg LC : list (HPoint T)).
Context (HA : part 0 A kA LA) (Hfl : part kA (option_list fl) kf Lf).
Context (Hfr : part (size_N gr) (option_list fr) kg Lg) (HC : part kg C 0 LC).
Context (Hmid : size_N mid = (size_N gap + 1)%N) (Hparts : l' = LA ++ Lf ++ (q :: mid) ++ (r :: gr) ++ Lg ++ LC).
Let cl := (q, mkCounts kf (size_N gap)).
Let cr := (r, mkCounts (size_N gap) (size_N gr)).
Context (Hk : ascending (A ++ option_list fl ++ [cl] ++ [cr] ++ option_list fr ++ C).*1).

Lemma mid_head : ∃ nb rest, mid = nb :: rest ∧ right q = Some nb.
Proof using Hnb Hmid Hparts.
  destruct mid as [|nb rest]; [unfold size_N in Hmid; cbn in Hmid; lia|]. exists nb, rest. split; [done|].
  destruct (Hnb (LA ++ Lf) q ((nb :: rest) ++ (r :: gr) ++ Lg ++ LC)) as [_ ->]; [|done].
  rewrite Hparts. by rewrite <-!app_assoc.
Qed.

Lemma mid_last : ∃ init nb, mid = init ++ [nb] ∧ left r = Some nb.
Proof using Hnb Hmid Hparts.
  destruct mid as [|nb init _] using rev_ind; [unfold size_N in Hmid; cbn in Hmid; lia|]. exists init, nb. split; [done|].
  destruct (Hnb (LA ++ Lf ++ q :: init ++ [nb]) r (gr ++ Lg ++ LC)) as [-> _].
  - rewrite Hparts. by rewrite <-!app_assoc.
  - rewrite app_comm_cons, !app_assoc. apply last_snoc.
Qed.

(** The gap grows. *)
Lemma between_widen n :
  n = (size_N gap + 1)%N →
  part 0 (apply_change (mkChange (Some (set_c_right n cl)) (Some (set_c_left n cr)) fl fr None None)
    (A ++ option_list fl ++ [cl] ++ [cr] ++ option_list fr ++ C)) 0 l'.
Proof using All.
  intros ->. zip_at A fl (Some cl) (Some cr) fr C Hk. rewrite Hparts.
  eapply part_app'; [exact HA| |reflexivity]. eapply part_app'; [exact Hfl| |reflexivity].
  eapply (part_cons' q); [by rewrite Hmid|reflexivity|]. rewrite Hmid. eapply (part_cons' r); [done|reflexivity|].
  by eapply part_app'.
Qed.

(** The border on the left moves over the first value of the gap. *)
Lemma between_move_left nb rest f cf :
  fl = Some (f, cf) → mid = nb :: rest →
  part 0 (apply_change (mkChange (Some cl) (Some cr) (set_c_right (kf + 1) <$> fl) fr (Some q) (Some (nb, mkCounts (kf + 1) (size_N gap))))
    (A ++ option_list fl ++ [cl] ++ [cr] ++ option_list fr ++ C)) 0 l'.
Proof using All.
  intros Hf Hrest. pose proof Hk as Hk'. pose proof Hfl as Hfl'. rewrite Hf in Hfl', Hk' |- *.
  apply part_opt in Hfl' as (-> & gf & -> & ->). zip_at A (Some (f, mkCounts kA (size_N gf))) (Some cl) (Some cr) fr C Hk'.
  remove_at (A ++ [(f, mkCounts kA (size_N gf + 1))]) (cr :: option_list fr ++ C); [|by rewrite !fmap_app in *].
  assert (size_N rest = size_N gap) as Hs by (rewrite Hrest, size_N_cons in Hmid; lia).
  assert (part 0 ((A ++ [(f, mkCounts kA (size_N gf + 1))]) ++ (nb, mkCounts (size_N gf + 1) (size_N gap)) :: cr :: option_list fr ++ C) 0 l') as Hnewp.
  { rewrite Hparts, Hrest, <-app_assoc. eapply part_app'; [exact HA| |reflexivity].
    apply (part_cons' f _ _ (gf ++ [q]) _ _ (nb :: rest ++ (r :: gr) ++ Lg ++ LC)); [by rewrite size_N_app|cbn; by rewrite <-app_assoc|].
    rewrite size_N_app. apply (part_cons' nb _ _ rest _ _ ((r :: gr) ++ Lg ++ LC)); [by rewrite Hs|done|]. rewrite Hs.
    eapply (part_cons' r); [done|reflexivity|]. by eapply part_app'. }
  put_at (A ++ [(f, mkCounts kA (size_N gf + 1))]) (cr :: option_list fr ++ C) Hnewp Hl'. exact Hnewp.
Qed.

(** A border is created at the first value of the gap. *)
Lemma between_split_left nb rest :
  mid = nb :: rest →
  part 0 (apply_change (mkChange (Some (set_c_right 0 cl)) (Some cr) fl fr None (Some (nb, mkCounts 0 (size_N gap))))
    (A ++ option_list fl ++ [cl] ++ [cr] ++ option_list fr ++ C)) 0 l'.
Proof using All.
  intros Hrest. zip_at A fl (Some cl) (Some cr) fr C Hk.
  assert (size_N rest = size_N gap) as Hs by (rewrite Hrest, size_N_cons in Hmid; lia).
  assert (part 0 ((A ++ option_list fl ++ [(q, mkCounts kf 0)]) ++ (nb, mkCounts 0 (size_N gap)) :: cr :: option_list fr ++ C) 0 l') as Hnewp.
  { rewrite Hparts, Hrest, <-!app_assoc. eapply part_app'; [exact HA| |reflexivity]. eapply part_app'; [exact Hfl| |reflexivity].
    apply (part_cons' q _ _ [] _ _ (nb :: rest ++ (r :: gr) ++ Lg ++ LC)); [done|done|].
    apply (part_cons' nb _ _ rest _ _ ((r :: gr) ++ Lg ++ LC)); [by rewrite Hs|done|]. rewrite Hs.
    eapply (part_cons' r); [done|reflexivity|]. by eapply part_app'. }
  put_at (A ++ option_list fl ++ [(q, mkCounts kf 0)]) (cr :: option_list fr ++ C) Hnewp Hl'. exact Hnewp.
Qed.

(** The border on the right moves over the last value of the gap. *)
Lemma between_move_right init nb f cf :
  fr = Some (f, cf) → mid = init ++ [nb] →
  part 0 (apply_change (mkChange (Some cl) (Some cr) fl (set_c_left (size_N gr + 1) <$> fr) (Some r)
      (Some (nb, mkCounts (size_N gap) (size_N gr + 1))))
    (A ++ option_list fl ++ [cl] ++ [cr] ++ option_list fr ++ C)) 0 l'.
Proof using All.
  intros Hf Hinit. pose proof Hk as Hk'. pose proof Hfr as Hfr'. rewrite Hf in Hfr', Hk' |- *.
  apply part_opt in Hfr' as (-> & gf & HLg & Hkg).
  zip_at A fl (Some cl) (Some cr) (Some (f, mkCounts (size_N gr) kg)) C Hk'. rewrite HLg, Hkg in *.
  remove_at (A ++ option_list fl ++ [cl]) ((f, mkCounts (size_N gr + 1) (size_N gf)) :: C); [|by rewrite !fmap_app in *].
  assert (size_N init = size_N gap) as Hs by (rewrite Hinit, size_N_app in Hmid; unfold size_N in *; cbn in *; lia).
  assert (part 0 ((A ++ option_list fl ++ [cl]) ++ (nb, mkCounts (size_N gap) (size_N gr + 1)) :: (f, mkCounts (size_N gr + 1) (size_N gf)) :: C) 0 l') as Hnewp.
  { rewrite Hparts, Hinit, <-!app_assoc. eapply part_app'; [exact HA| |reflexivity]. eapply part_app'; [exact Hfl| |reflexivity].
    apply (part_cons' q _ _ init _ _ (nb :: (r :: gr) ++ (f :: gf) ++ LC)); [by rewrite Hs|cbn; by rewrite <-app_assoc|]. rewrite Hs.
    apply (part_cons' nb _ _ (r :: gr) _ _ ((f :: gf) ++ LC)); [by rewrite size_N_cons|done|]. rewrite size_N_cons.
    by eapply (part_cons' f). }
  put_at (A ++ option_list fl ++ [cl]) ((f, mkCounts (size_N gr + 1) (size_N gf)) :: C) Hnewp Hl'. exact Hnewp.
Qed.

(** A border is created at the last value of the gap. *)
Lemma between_split_right init nb :
  mid = init ++ [nb] →
  part 0 (apply_change (mkChange (Some cl) (Some (set_c_left 0 cr)) fl fr None (Some (nb, mkCounts (size_N gap) 0)))
    (A ++ option_list fl ++ [cl] ++ [cr] ++ option_list fr ++ C)) 0 l'.
Proof using All.
  intros Hinit. zip_at A fl (Some cl) (Some cr) fr C Hk.
  assert (size_N init = size_N gap) as Hs by (rewrite Hinit, size_N_app in Hmid; unfold size_N in *; cbn in *; lia).
  assert (part 0 ((A ++ option_list fl ++ [cl]) ++ (nb, mkCounts (size_N gap) 0) :: (r, mkCounts 0 (size_N gr)) :: option_list fr ++ C) 0 l') as Hnewp.
  { rewrite Hparts, Hinit, <-!app_assoc. eapply part_app'; [exact HA| |reflexivity]. eapply part_app'; [exact Hfl| |reflexivity].
    apply (part_cons' q _ _ init _ _ (nb :: (r :: gr) ++ Lg ++ LC)); [by rewrite Hs|cbn; by rewrite <-app_assoc|]. rewrite Hs.
    apply (part_cons' nb _ _ [] _ _ ((r :: gr) ++ Lg ++ LC)); [done|done|].
    eapply (part_cons' r); [done|reflexivity|]. by eapply part_app'. }
  put_at (A ++ option_list fl ++ [cl]) ((r, mkCounts 0 (size_N gr)) :: option_list fr ++ C) Hnewp Hl'. exact Hnewp.
Qed.

Lemma insert_between bucket :
  ∃ c, insert_change (E:=E) left right bucket val (Some cl) (Some cr) fl fr = Ok c ∧
    part 0 (apply_change c (A ++ option_list fl ++ [cl] ++ [cr] ++ option_list fr ++ C)) 0 l'.
Proof using All.
  unfold insert_change, cl, cr. cbn [fst snd c_left c_right]. rewrite N.eqb_refl. cbn [negb].
  destruct (bucket <? _)%N; [|eexists; split; [done|]; by apply between_widen]. destruct (nm_ltb _ _).
  - destruct mid_head as (nb & rest & Hrest & Hright). rewrite Hright. cbn.
    destruct (_ && _) eqn:Hm; (eexists; split; [done|]); [|by eapply between_split_left].
    apply andb_true_iff in Hm as [_ [[f cf] Hf]%bool_decide_eq_true]. by eapply between_move_left.
  - destruct mid_last as (init & nb & Hinit & Hleft). rewrite Hleft. cbn.
    destruct (_ && _) eqn:Hm; (eexists; split; [done|]); [|by eapply between_split_right].
    apply andb_true_iff in Hm as [_ [[f cf] Hf]%bool_decide_eq_true]. by eapply between_move_right.
Qed.
End between.

Lemma added_size : size_N l' = (size_N l + 1)%N.
Proof using pos_inj Hval Hnew Hl Hl' Hadd.
  destruct (split_gap val l Hl Hval Hnew) as (g1 & g2 & Heq & H1 & H2).
  rewrite (ascending_added val l l' g1 g2), Heq by done. rewrite !size_N_app, size_N_cons. lia.
Qed.

Lemma insert_few B : length B < 2 → part 0 B 0 l → part 0 (bt_insert hp_compare val (mkCounts 0 0) B) 0 l'.
Proof using All.
  intros Hlen Hp. destruct B as [|[p c] [|]]; [..|cbn in Hlen; lia].
  - inversion Hp; subst. assert (l' = [val]) as ->.
    { apply (ascending_added val [] l' [] []); try done; by intros x ?%not_elem_of_nil. }
    apply (part_one val 0 []).
  - apply part_first in Hp as (gap & l2 & Hc & Hll & Hp). cbn [fst snd] in *. apply part_last in Hp as [-> ->]. subst c.
    cbn in Hll. assert (ok p) as Hok by (rewrite Hll in Hl; by apply ascending_cons in Hl as [? _]). cbn.
    rewrite compare_pos by done. destruct (Z.compare_spec (pos val) (pos p)) as [Heq|Hlt|Hgt].
    + destruct Hnew. rewrite Hll. apply list_elem_of_singleton. by apply pos_inj.
    + rewrite (ascending_added val l l' [] [p]); try done; [|by intros x ?%not_elem_of_nil|by intros x ->%list_elem_of_singleton].
      apply (part_cons val 0 [] _ 0 [p]), (part_one p 0 []).
    + rewrite (ascending_added val l l' [p] []); try done; [|by intros x ->%list_elem_of_singleton|by intros x ?%not_elem_of_nil].
      apply (part_cons p 0 [] _ 0 [val]), (part_one val 0 []).
Qed.

Lemma strictly_before q : q ∈ l → (pos q ≤ pos val)%Z → (pos q < pos val)%Z.
Proof using pos_inj Hval Hnew Hl.
  intros Hq Hle. assert (ok q) by (destruct Hl as [Ho _]; rewrite Forall_forall in Ho; auto).
  assert (pos q ≠ pos val) by (intros Heq; destruct Hnew; by rewrite <-(pos_inj q val)). lia.
Qed.

Lemma added_between X q gap r Y :
  l = X ++ q :: gap ++ r :: Y → (pos q < pos val)%Z → (pos val < pos r)%Z →
  ∃ mid, size_N mid = (size_N gap + 1)%N ∧ l' = X ++ q :: mid ++ r :: Y.
Proof using All.
  intros Hll Hq Hr. pose proof Hl as Ha. rewrite Hll in Ha, Hnew.
  apply ascending_app in Ha as (_ & Ha & HX). apply ascending_cons in Ha as (_ & Ha & _).
  apply ascending_app in Ha as (Hgap & Ha & _). apply ascending_cons in Ha as (_ & _ & HY).
  destruct (split_gap val gap) as (g1 & g2 & -> & H1 & H2); [done|done|set_solver|].
  exists (g1 ++ val :: g2). split; [rewrite !size_N_app, size_N_cons; lia|].
  rewrite (ascending_added val l l' (X ++ q :: g1) (g2 ++ r :: Y)); [cbn; rewrite <-!app_assoc; cbn; by rewrite <-?app_assoc|try done..].
  - rewrite Hll. by rewrite <-!app_assoc.
  - intros x. rewrite elem_of_app, elem_of_cons. intros [Hx|[->|Hx]]; [|done|auto]. specialize (HX x q Hx ltac:(left)). lia.
  - intros y. rewrite elem_of_app, elem_of_cons. intros [Hy|[->|Hy]]; [auto|done|]. specialize (HY y Hy). lia.
Qed.

Lemma insert_ok h : hist_ok h l → ∃ h', histogram_insert (E:=E) left right val h = Ok h' ∧ hist_ok h' l'.
Proof using All.
  intros [Hcount Hp]. unfold histogram_insert. cbn [borders max_bucket_size precision total_count].
  destruct (decide _) as [Hlen|Hlen]; [eexists; split; [done|]; split; cbn; [by rewrite added_size, Hcount|by apply insert_few]|].
  set (h1 := mkHistogram _ _ _ _).
  enough (∃ c, insert_change (E:=E) left right (current_bucket_size h1) val (borders_before val h1 !! 0) (borders_after val h1 !! 0)
    (borders_before val h1 !! 1) (borders_after val h1 !! 1) = Ok c ∧ part 0 (apply_change c (borders h)) 0 l') as (c & -> & Hc).
  { eexists; split; [done|]; split; cbn; [by rewrite added_size, Hcount|done]. }
  destruct (zip_borders val h1 l) as (A & fl & cl & cr & fr & C & kA & kf & kl & kr & kg & LA & Lf & Ll & Lr & Lg & LC &
    HB & -> & -> & -> & -> & HA & Hfl & Hcl & Hcr & Hfr & HC & Hll & (H1 & H2 & H3 & H4) & Hle & Hlt); [done..|].
  change (borders h1) with (borders h) in HB. destruct cl as [[q cq]|], cr as [[r cr]|].
  - apply part_opt in Hcl as (-> & gap & -> & ->), Hcr as (-> & gr & -> & ->). specialize (Hle _ eq_refl). specialize (Hlt _ eq_refl).
    cbn [fst] in *. destruct (added_between (LA ++ Lf) q gap r (gr ++ Lg ++ LC)) as (mid & Hmid & Hparts); [|apply strictly_before|done|].
    { rewrite Hll. list_parts. } { rewrite Hll. set_solver. } { done. }
    assert (ascending (borders h).*1) as Hk by (eapply ascending_sublist; [by eapply part_keys|done]).
    rewrite HB in *. eapply (insert_between A C fl fr q r kA kf kg LA Lf gap mid gr Lg LC); try done. rewrite Hparts. list_parts.
  - specialize (H3 eq_refl) as ->. specialize (H4 eq_refl) as ->. destruct fl as [fl|].
    + rewrite HB in Hp |- *. cbn [option_list app] in *. apply insert_back; [done|]. apply strictly_before; [|by apply (Hle _ eq_refl)].
      apply part_opt in Hcl as (_ & gap & -> & _). rewrite Hll. set_solver.
    + rewrite HB, H2 in Hlen by done. cbn in Hlen. lia.
  - specialize (H1 eq_refl) as ->. specialize (H2 eq_refl) as ->. destruct fr as [fr|].
    + rewrite HB in Hp |- *. cbn [option_list app] in *. apply insert_front; [done|]. by apply (Hlt _ eq_refl).
    + rewrite HB, H4 in Hlen by done. cbn in Hlen. lia.
  - rewrite HB, H1, H2, H3, H4 in Hlen by auto. cbn in Hlen. lia.
Qed.
End insertion.

(** *** Removal *)

Lemma usize_pred n : (n ≠ 0)%N → usize_sub n 1 = (n - 1)%N.
Proof using. intros Hn. unfold usize_sub. by rewrite decide_True by lia. Qed.

Lemma hp_eqb_pos a b : ok a → ok b → hp_eqb a b = true ↔ a = b.
Proof using compare_pos pos_inj.
  intros Ha Hb. unfold hp_eqb. rewrite compare_pos by done. destruct (Z.compare_spec (pos a) (pos b)) as [He|Hlt|Hgt].
  - split; [|done]. intros _. by apply pos_inj.
  - split; [done|]. intros ->. lia.
  - split; [done|]. intros ->. lia.
Qed.

Section removal.
Context {E : Type} (left right : HPoint T → option (HPoint T)).
Context (val : HPoint T) (l l' : list (HPoint T)) (Hval : ok val) (Hin : val ∈ l) (Hl : ascending l) (Hl' : ascending l').
Context (Hdel : ∀ x, x ∈ l' ↔ x ≠ val ∧ x ∈ l).
Context (Hnb : ∀ X Y, l = X ++ val :: Y → left val = last X ∧ right val = head Y).

(** The last border. *)
Lemma remove_back bucket A fl kA kf LA Lf :
  part 0 A kA LA → part kA (option_list fl) kf Lf → (fl = None → A = []) → l = LA ++ Lf ++ [val] →
  ∃ c, remove_change (E:=E) left right bucket val (Some (val, mkCounts kf 0)) None fl None = Ok (c, true) ∧
    part 0 (apply_change c (A ++ option_list fl ++ [(val, mkCounts kf 0)])) 0 l'.
Proof using All.
  intros HA Hfl HnoA Hll. assert (l' = LA ++ Lf) as Hparts.
  { rewrite (ascending_dropped val l l' (LA ++ Lf) []); try done; [by rewrite app_nil_r|]. rewrite Hll. list_parts. }
  assert (ascending (A ++ option_list fl ++ [(val, mkCounts kf 0)]).*1) as Hk.
  { eapply ascending_sublist; [|exact Hl]. eapply (part_keys 0 _ 0). rewrite Hll. eapply part_app'; [exact HA| |done].
    eapply part_app'; [exact Hfl|apply (part_one val kf [])|done]. }
  unfold remove_change. cbn [fst snd c_left]. rewrite (proj2 (hp_eqb_pos val val Hval Hval) eq_refl).
  destruct (N.eqb_spec kf 0) as [->|Hkf].
  - eexists; split; [done|]. zip_at A fl (Some (val, mkCounts 0 0)) (@None Border) (@None Border) (@nil Border) Hk.
    remove_at (A ++ option_list fl) (@nil Border); [|done]. rewrite app_nil_r, Hparts. by eapply part_app'.
  - destruct fl as [[f cf]|].
    2: { rewrite HnoA in HA by done. inversion HA; subst. by apply part_opt in Hfl as [-> _]. }
    apply part_opt in Hfl as (-> & gf & -> & ->).
    destruct gf as [|nb gf _] using rev_ind; [done|].
    destruct (Hnb (LA ++ f :: gf ++ [nb]) []) as [-> _]; [rewrite Hll; list_parts|].
    rewrite app_comm_cons, app_assoc, last_snoc. cbn. rewrite !usize_pred by done. eexists; split; [done|].
    rewrite !size_N_app in *. change (size_N [nb]) with 1%N in *. replace (size_N gf + 1 - 1)%N with (size_N gf) by lia.
    zip_at A (Some (f, mkCounts kA (size_N gf + 1))) (Some (val, mkCounts (size_N gf + 1) 0)) (@None Border) (@None Border) (@nil Border) Hk.
    remove_at (A ++ [(f, mkCounts kA (size_N gf))]) (@nil Border); [|by rewrite !fmap_app in *].
    assert (part 0 ((A ++ [(f, mkCounts kA (size_N gf))]) ++ (nb, mkCounts (size_N gf) 0) :: []) 0 l') as Hnewp.
    { rewrite Hparts, <-app_assoc. eapply part_app'; [exact HA| |done]. eapply (part_cons' f); [done..|]. apply (part_one nb _ []). }
    put_at (A ++ [(f, mkCounts kA (size_N gf))]) (@nil Border) Hnewp Hl'. exact Hnewp.
Qed.

Section border.
Context (A C : list Border) (fl fr : option Border) (r : HPoint T) (kA kf kg : N).
Context (LA Lf gap gr Lg LC : list (HPoint T)).
Context (HA : part 0 A kA LA) (Hfl : part kA (option_list fl) kf Lf).
Context (Hfr : part (size_N gr) (option_list fr) kg Lg) (HC : part kg C 0 LC).
Let cr := (r, mkCounts (size_N gap) (size_N gr)).

(** A border that is not the last one. *)
Lemma remove_border bucket (cl := (val, mkCounts kf (size_N gap))) :
  l = LA ++ Lf ++ (val :: gap) ++ (r :: gr) ++ Lg ++ LC →
  ascending (A ++ option_list fl ++ [cl] ++ [cr] ++ option_list fr ++ C).*1 →
  ∃ c, remove_change (E:=E) left right bucket val (Some cl) (Some cr) fl fr = Ok (c, true) ∧
    part 0 (apply_change c (A ++ option_list fl ++ [cl] ++ [cr] ++ option_list fr ++ C)) 0 l'.
Proof using All.
  intros Hll Hk. assert (l' = LA ++ Lf ++ gap ++ (r :: gr) ++ Lg ++ LC) as Hparts.
  { rewrite (ascending_dropped val l l' (LA ++ Lf) (gap ++ (r :: gr) ++ Lg ++ LC)); try done; rewrite ?Hll; list_parts. }
  assert (∀ n, part n ((r, mkCounts n (size_N gr)) :: option_list fr ++ C) 0 ((r :: gr) ++ Lg ++ LC)) as Hrest.
  { intros n. eapply (part_cons' r); [done|reflexivity|]. by eapply part_app'. }
  unfold remove_change, cl, cr in *. cbn [fst snd c_left c_right]. rewrite (proj2 (hp_eqb_pos val val Hval Hval) eq_refl).
  destruct (N.eqb_spec (size_N gap) 0) as [H0|H0]; [|destruct (_ && _) eqn:Hm].
  - eexists; split; [done|]. zip_at A fl (Some cl) (Some cr) fr C Hk.
    remove_at (A ++ option_list fl) ((r, mkCounts kf (size_N gr)) :: option_list fr ++ C); [|by rewrite !fmap_app in *].
    destruct gap; [|rewrite size_N_cons in H0; lia]. rewrite Hparts, <-app_assoc.
    eapply part_app'; [exact HA| |reflexivity]. by eapply part_app'.
  - apply andb_true_iff in Hm as [_ [[f cf] Hf]%bool_decide_eq_true]. rewrite Hf in Hk |- *. eexists; split; [done|].
    pose proof Hfl as Hfl'. rewrite Hf in Hfl'. apply part_opt in Hfl' as (-> & gf & HLf & Hkf).
    zip_at A (Some (f, mkCounts kA kf)) (Some cl) (Some cr) fr C Hk.
    remove_at (A ++ [(f, mkCounts kA (kf + size_N gap))]) ((r, mkCounts (kf + size_N gap) (size_N gr)) :: option_list fr ++ C);
      [|by rewrite !fmap_app in *].
    rewrite Hparts, HLf, <-app_assoc. eapply part_app'; [exact HA| |reflexivity].
    apply (part_cons' f _ _ (gf ++ gap) _ _ ((r :: gr) ++ Lg ++ LC)); rewrite ?size_N_app, <-?Hkf; [done|list_parts|done].
  - destruct gap as [|nb rest] eqn:Hg; [done|]. destruct (Hnb (LA ++ Lf) ((nb :: rest) ++ (r :: gr) ++ Lg ++ LC)) as [_ ->]; [rewrite Hll; list_parts|].
    cbn. rewrite !usize_pred by done. eexists; split; [done|]. rewrite size_N_cons in *.
    replace (size_N rest + 1 - 1)%N with (size_N rest) by lia.
    zip_at A fl (Some (val, mkCounts kf (size_N rest + 1))) (Some (r, mkCounts (size_N rest + 1) (size_N gr))) fr C Hk.
    remove_at (A ++ option_list fl) ((r, mkCounts (size_N rest) (size_N gr)) :: option_list fr ++ C); [|by rewrite !fmap_app in *].
    assert (part 0 ((A ++ option_list fl) ++ (nb, mkCounts kf (size_N rest)) :: (r, mkCounts (size_N rest) (size_N gr)) :: option_list fr ++ C) 0 l') as Hnewp.
    { rewrite Hparts, <-app_assoc. eapply part_app'; [exact HA| |reflexivity]. eapply part_app'; [exact Hfl| |reflexivity].
      by eapply (part_cons' nb). }
    put_at (A ++ option_list fl) ((r, mkCounts (size_N rest) (size_N gr)) :: option_list fr ++ C) Hnewp Hl'. exact Hnewp.
Qed.

(** Between two borders. *)
Lemma remove_between bucket q g1 g2 (cl := (q, mkCounts kf (size_N gap))) :
  (pos q < pos val < pos r)%Z → gap = g1 ++ val :: g2 → l = LA ++ Lf ++ (q :: gap) ++ (r :: gr) ++ Lg ++ LC →
  ascending (A ++ option_list fl ++ [cl] ++ [cr] ++ option_list fr ++ C).*1 →
  ∃ c, remove_change (E:=E) left right bucket val (Some cl) (Some cr) fl fr = Ok (c, true) ∧
    part 0 (apply_change c (A ++ option_list fl ++ [cl] ++ [cr] ++ option_list fr ++ C)) 0 l'.
Proof using All.
  intros Hlt Hgap Hll Hk. assert (l' = LA ++ Lf ++ (q :: g1 ++ g2) ++ (r :: gr) ++ Lg ++ LC) as Hparts.
  { rewrite (ascending_dropped val l l' (LA ++ Lf ++ q :: g1) (g2 ++ (r :: gr) ++ Lg ++ LC)); try done; rewrite ?Hll, ?Hgap; list_parts. }
  assert (size_N gap = (size_N (g1 ++ g2) + 1)%N) as Hs by (rewrite Hgap, !size_N_app, size_N_cons; lia).
  pose proof Hl as (Hoks & _). rewrite Forall_forall in Hoks. assert (ok q ∧ ok r) as [Hq Hr] by (split; apply Hoks; rewrite Hll, !elem_of_app, !elem_of_cons; tauto).
  unfold remove_change, cl, cr in *. cbn [fst snd c_left c_right].
  assert (∀ a, ok a → pos a ≠ pos val → hp_eqb a val = false) as Hneq.
  { intros a Ha Hne. apply not_true_is_false. intros ->%hp_eqb_pos; done. }
  rewrite !Hneq, (proj2 (N.eqb_neq _ _)) by (done || lia). rewrite !usize_pred by lia. eexists; split; [done|].
  zip_at A fl (Some cl) (Some cr) fr C Hk. rewrite Hs. replace (size_N (g1 ++ g2) + 1 - 1)%N with (size_N (g1 ++ g2)) by lia.
  rewrite Hparts. eapply part_app'; [exact HA| |reflexivity]. eapply part_app'; [exact Hfl| |reflexivity].
  eapply (part_cons' q); [done|reflexivity|]. eapply (part_cons' r); [done|reflexivity|]. by eapply part_app'.
Qed.
End border.

Lemma removed_size : size_N l = (size_N l' + 1)%N.
Proof using pos_inj Hin Hl Hl' Hdel.
  apply list_elem_of_split in Hin as (X & Y & Heq). rewrite (ascending_dropped val l l' X Y) by done.
  rewrite Heq, !size_N_app, size_N_cons. lia.
Qed.

Lemma located X q M Y :
  l = X ++ q :: M ++ Y → (pos q ≤ pos val)%Z → (∀ y, y ∈ Y → (pos val < pos y)%Z) → val ∈ q :: M.
Proof using Hin Hl.
  intros Hll Hq HY. pose proof Hl as Ha. rewrite Hll in Ha. apply ascending_app in Ha as (_ & _ & HX).
  assert (val ∈ X ∨ val ∈ q :: M ∨ val ∈ Y) as [Hv|[Hv|Hv]]; [|..|done|].
  { rewrite Hll, elem_of_app, app_comm_cons, elem_of_app in Hin. tauto. }
  - specialize (HX val q Hv ltac:(left)). lia.
  - specialize (HY val Hv). lia.
Qed.

Lemma remove_ok h : hist_ok h l → ∃ h', histogram_remove (E:=E) left right val h = Ok h' ∧ hist_ok h' l'.
Proof using All.
  intros [Hcount Hp]. unfold histogram_remove.
  enough (∃ c, remove_change (E:=E) left right (current_bucket_size h) val (borders_before val h !! 0) (borders_after val h !! 0)
    (borders_before val h !! 1) (borders_after val h !! 1) = Ok (c, true) ∧ part 0 (apply_change c (borders h)) 0 l') as (c & -> & Hc).
  { eexists; split; [done|]; split; cbn; [|done]. pose proof removed_size. rewrite usize_pred by lia. lia. }
  assert (ascending (borders h).*1) as Hk by (eapply ascending_sublist; [by eapply part_keys|done]).
  destruct (zip_borders val h l) as (A & fl & cl & cr & fr & C & kA & kf & kl & kr & kg & LA & Lf & Ll & Lr & Lg & LC &
    HB & -> & -> & -> & -> & HA & Hfl & Hcl & Hcr & Hfr & HC & Hll & (H1 & H2 & H3 & H4) & Hle & Hlt); [done..|].
  destruct cl as [[q cq]|].
  2: { exfalso. specialize (H1 eq_refl) as ->. specialize (H2 eq_refl) as ->. inversion HA; subst.
    apply part_opt in Hfl as [-> ->], Hcl as [-> ->]. cbn in *. destruct cr as [[r cr]|].
    - apply part_opt in Hcr as (_ & gr & -> & _). specialize (Hlt _ eq_refl). apply ascending_cons in Hl as (_ & _ & Hr).
      apply elem_of_cons in Hin as [->|Hin]; cbn in Hlt; [lia|]. specialize (Hr _ Hin). lia.
    - specialize (H3 eq_refl) as ->. specialize (H4 eq_refl) as ->. apply part_opt in Hcr as [-> ->], Hfr as [-> ->].
      inversion HC; subst. by apply not_elem_of_nil in Hin. }
  apply part_opt in Hcl as (-> & gap & -> & ->). specialize (Hle _ eq_refl). cbn in Hle.
  assert (val ∈ q :: gap) as Hg.
  { apply (located (LA ++ Lf) q gap (Lr ++ Lg ++ LC)); [rewrite Hll; list_parts|done|]. intros y Hy. destruct cr as [[r cr]|].
    - specialize (Hlt _ eq_refl). cbn in Hlt. apply part_opt in Hcr as (_ & gr & -> & _).
      apply elem_of_cons in Hy as [->|Hy]; [done|].
      assert (l = (LA ++ Lf ++ q :: gap) ++ r :: (gr ++ Lg ++ LC)) as Heq by (rewrite Hll; list_parts). pose proof Hl as Ha. rewrite Heq in Ha.
      pose proof (ascending_below _ _ _ y Ha Hy). lia.
    - specialize (H3 eq_refl) as ->. specialize (H4 eq_refl) as ->. apply part_opt in Hcr as [_ ->], Hfr as [_ ->].
      inversion HC; subst. by apply not_elem_of_nil in Hy. }
  destruct cr as [[r cr]|].
  - apply part_opt in Hcr as (-> & gr & -> & ->). specialize (Hlt _ eq_refl). cbn in Hlt. rewrite HB in Hk |- *.
    apply elem_of_cons in Hg as [<-|Hg].
    + by eapply (remove_border A C fl fr r kA kf kg LA Lf gap gr Lg LC).
    + apply list_elem_of_split in Hg as (g1 & g2 & Hgap). eapply (remove_between A C fl fr r kA kf kg LA Lf gap gr Lg LC); try done.
      split; [|done].
      assert (l = (LA ++ Lf) ++ q :: (gap ++ (r :: gr) ++ Lg ++ LC)) as Heq by (rewrite Hll; list_parts). pose proof Hl as Ha. rewrite Heq in Ha.
      apply (ascending_below _ _ _ val Ha).
      rewrite Hgap, !elem_of_app, elem_of_cons. tauto.
  - specialize (H3 eq_refl) as ->. specialize (H4 eq_refl) as ->. apply part_opt in Hcr as [-> ->], Hfr as [-> ->].
    apply part_last in HC as [-> ->]. apply list_elem_of_singleton in Hg as <-. rewrite HB. cbn [option_list app]. by apply (remove_back _ A fl kA kf LA Lf).
Qed.
End removal.
End histogram_spec.
