(* ===== verification/NumericIndex.v ===== *)
(** * Numeric field indexes

    Models [lib/segment/src/index/field_index/numeric_index.rs], the index of
    integer and float fields, and [stat_tools.rs], which it uses to estimate
    how many points a number of values belongs to.

    The index keeps the pairs of a value and a point offset as the byte keys of
    [KeyEncoding.v] in an ordered map, a histogram over them, and the values of
    every point.  Values are [i64] ([Z]) or [f64] ([spec_float]).  The logarithm
    and the exponential of [std] are those of the platform (class
    [FloatFunctions]). *)

From stdpp Require Import base gmap strings list.
From Stdlib Require Import ZArith Lia SpecFloat.
From S2P Require Import Prelude KeyEncoding Types Rocks JsonPath Text Filters Estimator.
From S2P Require Import FieldIndex FieldIndexEnum Segment Histogram.

(** ** [stat_tools.rs] *)

Class FloatFunctions := {
  f64_ln : spec_float → spec_float;
  f64_exp : spec_float → spec_float;
}.

Definition f64_add := SFadd 53 1024.
Definition f64_sqrt := SFsqrt 53 1024.
Definition F64_PI : spec_float := f64_of_bits 0x400921fb54442d18.
Definition F64_E : spec_float := f64_of_bits 0x4005bf0a8b145769.

Section stat_tools.
Context `{!FloatFunctions}.

Definition approx_fact_log (n : spec_float) : spec_float :=
  if SFltb n f64_one then f64_one
  else f64_add (f64_ln (f64_sqrt (f64_mul (f64_mul (f64_of_N 2) F64_PI) n))) (f64_mul n (f64_ln (f64_div n F64_E))).

Definition prob_not_select (total : N) (avg : spec_float) (selected : N) : spec_float :=
  let total := f64_of_N total in
  let selected := f64_of_N selected in
  f64_exp (f64_sub (f64_sub (f64_add (approx_fact_log (f64_sub total avg)) (approx_fact_log (f64_sub total selected)))
                      (approx_fact_log (f64_sub (f64_sub total avg) selected)))
             (approx_fact_log total)).

(** The [assert!] is the panic. *)
Definition estimate_multi_value_selection_cardinality {E} (total_points total_values selected_values_count : N) :
    result E spec_float :=
  if (total_values <? total_points)%N then Panic
  else
    let values_per_point := f64_div (f64_of_N total_values) (f64_of_N total_points) in
    let prob_select := f64_sub f64_one (prob_not_select total_values values_per_point selected_values_count) in
    Ok (f64_mul prob_select (f64_of_N total_points)).
End stat_tools.

(** ** Keys *)

(** [decode_key] panics where the model has [None]. *)
Class Encodable (T : Type) := {
  encode_key : T → N → bytes;
  decode_key : bytes → option (N * T);
}.

(** [f64::to_bits] *)
Definition f64_to_bits (x : spec_float) : Z :=
  match x with
  | S754_zero s => Z.b2z s * 2 ^ 63
  | S754_infinity s => Z.b2z s * 2 ^ 63 + 2047 * 2 ^ 52
  | S754_nan => F64_NAN
  | S754_finite s m e =>
      if (Zpos m <? 2 ^ 52)%Z then Z.b2z s * 2 ^ 63 + Zpos m
      else Z.b2z s * 2 ^ 63 + (e + 1075) * 2 ^ 52 + (Zpos m - 2 ^ 52)
  end.

#[export] Instance i64_encodable : Encodable Z := {|
  encode_key v id := encode_i64_key_ascending v (Z.of_N id);
  decode_key key := (λ p, (Z.to_N p.1, p.2)) <$> decode_i64_key_ascending key;
|}.

#[export] Instance f64_encodable : Encodable spec_float := {|
  encode_key v id := encode_f64_key_ascending (f64_to_bits v) (Z.of_N id);
  decode_key key := (λ p, (Z.to_N p.1, f64_of_bits p.2)) <$> decode_f64_key_ascending key;
|}.

(** ** The index *)

Definition HISTOGRAM_MAX_BUCKET_SIZE : N := 10000.
Definition HISTOGRAM_PRECISION : spec_float := f64_of_bits 0x3f847ae147ae147b. (* 0.01 *)

Record NumericIndex (T DB : Type) := mkNumericIndex {
  ni_map : list (bytes * PointOffsetType);
  ni_column : string;
  ni_db : DB;
  ni_histogram : Histogram T;
  ni_points_count : N;
  ni_max_values_per_point : N;
  ni_point_to_values : list (list T);
}.
Arguments mkNumericIndex {T DB}.
Arguments ni_map {T DB}.
Arguments ni_column {T DB}.
Arguments ni_db {T DB}.
Arguments ni_histogram {T DB}.
Arguments ni_points_count {T DB}.
Arguments ni_max_values_per_point {T DB}.
Arguments ni_point_to_values {T DB}.

(** [format!("{field}_numeric")] *)
Definition numeric_storage_cf_name (field : string) : string := (field +:+ "_numeric")%string.

Section numeric_index.
Context {T DB : Type} `{!Numericable T, !Encodable T} {HDB : RocksDB DB}.
Abbreviation NI := (NumericIndex T DB).
Abbreviation KeyMap := (list (bytes * PointOffsetType)).

Definition numeric_new (db : DB) (field : string) : NI :=
  mkNumericIndex [] (numeric_storage_cf_name field) db
    (histogram_new HISTOGRAM_MAX_BUCKET_SIZE HISTOGRAM_PRECISION) 0 1 [].

Definition on_ni_db {A} (m : string → sm DB OperationError A) : sm NI OperationError A := λ s,
  sm_zoom ni_db (λ db s, mkNumericIndex (ni_map s) (ni_column s) db (ni_histogram s) (ni_points_count s)
                           (ni_max_values_per_point s) (ni_point_to_values s)) (m (ni_column s)) s.

Definition set_map_histogram (mh : KeyMap * Histogram T) (s : NI) : NI :=
  mkNumericIndex mh.1 (ni_column s) (ni_db s) mh.2 (ni_points_count s) (ni_max_values_per_point s) (ni_point_to_values s).
Definition set_ni_counts (points max_values : N) (s : NI) : NI :=
  mkNumericIndex (ni_map s) (ni_column s) (ni_db s) (ni_histogram s) points max_values (ni_point_to_values s).
Definition set_ni_values (l : list (list T)) (s : NI) : NI :=
  mkNumericIndex (ni_map s) (ni_column s) (ni_db s) (ni_histogram s) (ni_points_count s) (ni_max_values_per_point s) l.

Definition numeric_recreate : sm NI OperationError unit := on_ni_db recreate_column_family.

Definition key_to_histogram_point (key : bytes) : option (HPoint T) :=
  (λ p, mkHPoint p.2 p.1) <$> decode_key key.

Definition get_histogram_left_neighbor (map : KeyMap) (point : HPoint T) : option (HPoint T) :=
  let key := encode_key (hp_val point) (hp_idx point) in
  last (bt_select lex_compare Unbounded (Excluded key) map) ≫= λ e, key_to_histogram_point e.1.

Definition get_histogram_right_neighbor (map : KeyMap) (point : HPoint T) : option (HPoint T) :=
  let key := encode_key (hp_val point) (hp_idx point) in
  head (bt_select lex_compare (Excluded key) Unbounded map) ≫= λ e, key_to_histogram_point e.1.

(** The closures look at the map as changed. *)
Definition add_to_map {E} (key : bytes) (id : PointOffsetType) (mh : KeyMap * Histogram T) :
    result E (KeyMap * Histogram T) :=
  let '(map, histogram) := mh in
  let map' := bt_insert lex_compare key id map in
  match bt_get lex_compare key map with
  | Some _ => Ok (map', histogram)
  | None =>
      point ← unwrap (key_to_histogram_point key);
      histogram' ← histogram_insert (get_histogram_left_neighbor map') (get_histogram_right_neighbor map') point histogram;
      Ok (map', histogram')
  end.

Definition remove_from_map {E} (key : bytes) (mh : KeyMap * Histogram T) : result E (KeyMap * Histogram T) :=
  let '(map, histogram) := mh in
  let map' := bt_remove lex_compare key map in
  match bt_get lex_compare key map with
  | None => Ok (map', histogram)
  | Some _ =>
      point ← unwrap (key_to_histogram_point key);
      histogram' ← histogram_remove (get_histogram_left_neighbor map') (get_histogram_right_neighbor map') point histogram;
      Ok (map', histogram')
  end.

Definition add_value (id : PointOffsetType) (value : T) : sm NI OperationError unit :=
  let key := encode_key value (N.of_nat id) in
  _ ← on_ni_db (λ column, column_put column key (to_be_bytes 4 (Z.of_nat id)));
  self ← sm_get;
  mh ← sm_lift (add_to_map key id (ni_map self, ni_histogram self));
  sm_modify (set_map_histogram mh).

(** The counters, with the values of one more point. *)
Definition count_values (s : NI) (values : list T) : NI :=
  match values with
  | [] => s
  | _ => set_ni_counts (ni_points_count s + 1) (N.max (ni_max_values_per_point s) (N.of_nat (length values))) s
  end.

Definition add_many_to_list (idx : PointOffsetType) (values : list T) : sm NI OperationError unit :=
  _ ← sm_modify (λ s, set_ni_values (grow idx [] (ni_point_to_values s)) s);
  _ ← sm_for (add_value idx) values;
  _ ← sm_modify (λ s, count_values s values);
  self ← sm_get;
  ptv ← sm_lift (vec_set idx values (ni_point_to_values self));
  sm_modify (set_ni_values ptv).

(** The loop bodies of [load]. *)
Definition numeric_load_record (row : bytes * bytes) (s : NI) : OperationResult NI :=
  value_idx ← (if decide (length row.2 = 4) then Ok (Z.to_N (from_be_bytes row.2)) else Panic);
  p ← unwrap (decode_key row.1);
  let '(idx, value) := p in
  if decide (idx = value_idx) then
    let idx := N.to_nat idx in
    let ptv := grow idx [] (ni_point_to_values s) in
    values ← vec_get ptv idx;
    ptv ← vec_set idx (values ++ [value]) ptv;
    mh ← add_to_map row.1 idx (ni_map s, ni_histogram s);
    Ok (set_map_histogram mh (set_ni_values ptv s))
  else Err (service_error "incorrect key value").

Definition numeric_load (self : NI) : OperationResult (bool * NI) :=
  has ← has_column_family (ni_column self) (ni_db self);
  if has : bool
  then
    rows ← column_iter (ni_column self) (ni_db self);
    s ← res_fold numeric_load_record rows self;
    Ok (true, fold_left count_values (ni_point_to_values s) s)
  else Ok (false, self).

Definition numeric_remove_point (idx : PointOffsetType) : sm NI OperationError unit :=
  self ← sm_get;
  if decide (length (ni_point_to_values self) ≤ idx) then mret tt
  else
    removed_values ← sm_lift (vec_get (ni_point_to_values self) idx);
    _ ← sm_modify (set_ni_values (<[idx := []]> (ni_point_to_values self)));
    _ ← sm_for (λ value,
          let key := encode_key value (N.of_nat idx) in
          _ ← on_ni_db (λ column, column_remove column key);
          self ← sm_get;
          mh ← sm_lift (remove_from_map key (ni_map self, ni_histogram self));
          sm_modify (set_map_histogram mh)) removed_values;
    sm_modify (λ s, match removed_values with
                    | [] => s
                    | _ => set_ni_counts (usize_sub (ni_points_count s) 1) (ni_max_values_per_point s) s
                    end).

Definition numeric_get_values (self : NI) (idx : PointOffsetType) : option (list T) :=
  ni_point_to_values self !! idx.

(** ** Queries *)

Context `{!FloatFunctions}.

Definition range_cardinality {E} (self : NI) (range : Range) : result E CardinalityEstimation :=
  let lbound := match range_lte range, range_lt range with
                | Some lte, _ => Included (nm_from_f64 lte)
                | None, Some lt => Excluded (nm_from_f64 lt)
                | None, None => Unbounded
                end in
  let gbound := match range_gte range, range_gt range with
                | Some gte, _ => Included (nm_from_f64 gte)
                | None, Some gt => Excluded (nm_from_f64 gt)
                | None, None => Unbounded
                end in
  '(min_estimation, exp_estimation, max_estimation) ← estimate (ni_histogram self) gbound lbound;
  let total_values := N.of_nat (length (ni_map self)) in
  let expected_min :=
    N.max (min_estimation / ni_max_values_per_point self)
      (N.max (N.min 1 min_estimation) (min_estimation - usize_sub total_values (ni_points_count self))) in
  let expected_max := N.min (ni_points_count self) max_estimation in
  estimation ← estimate_multi_value_selection_cardinality (ni_points_count self) total_values exp_estimation;
  let estimation := f64_round_usize estimation in
  Ok (mkEstimation [] expected_min (N.min expected_max (N.max estimation expected_min)) expected_max).

(** [PointOffsetType::MIN] and [MAX] *)
Definition U32_MIN : N := 0.
Definition U32_MAX : N := 4294967295.

Definition filter_start (range : Range) : Bound bytes :=
  match range_gt range, range_gte range with
  | Some gt, _ => Excluded (encode_key (nm_from_f64 gt : T) U32_MAX)
  | None, Some gte => Included (encode_key (nm_from_f64 gte : T) U32_MIN)
  | None, None => Unbounded
  end.

Definition filter_end (range : Range) : Bound bytes :=
  match range_lt range, range_lte range with
  | Some lt, _ => Excluded (encode_key (nm_from_f64 lt : T) U32_MIN)
  | None, Some lte => Included (encode_key (nm_from_f64 lte : T) U32_MAX)
  | None, None => Unbounded
  end.

Definition bound_key (b : Bound bytes) : option bytes :=
  match b with Included k | Excluded k => Some k | Unbounded => None end.

(** The two cases in which the source does not call [range]. *)
Definition empty_bounds (start_bound end_bound : Bound bytes) : bool :=
  match start_bound, end_bound with
  | Excluded s, Excluded e => match lex_compare s e with Eq => true | _ => false end
  | _, _ => false
  end ||
  match bound_key start_bound, bound_key end_bound with
  | Some s, Some e => match lex_compare s e with Gt => true | _ => false end
  | _, _ => false
  end.

Definition numeric_filter {E} (self : NI) (condition : FieldCondition) : result E (option (list PointOffsetType)) :=
  match fc_range condition with
  | None => Ok None
  | Some cond_range =>
      let start_bound := filter_start cond_range in
      let end_bound := filter_end cond_range in
      if empty_bounds start_bound end_bound then Ok (Some [])
      else
        entries ← bt_range (E:=E) lex_compare start_bound end_bound (ni_map self);
        Ok (Some entries.*2)
  end.

Definition numeric_estimate_cardinality {E} (self : NI) (condition : FieldCondition) :
    result E (option CardinalityEstimation) :=
  match fc_range condition with
  | None => Ok None
  | Some range =>
      cardinality ← range_cardinality self range;
      Ok (Some (push_clause (PCondition condition) cardinality))
  end.

Definition new_range (key : PayloadKeyType) (range : Range) : FieldCondition :=
  {| fc_key := key; fc_match := None; fc_range := Some range; fc_geo_bounding_box := None;
     fc_geo_radius := None; fc_values_count := None |}.

(** The range of a block from its two bounds. *)
Definition block_range (pre_lower_bound upper_bound : Bound T) : Range :=
  {| range_lt := match upper_bound with Excluded val => Some (nm_to_f64 val) | _ => None end;
     range_gt := match pre_lower_bound with Excluded val => Some (nm_to_f64 val) | _ => None end;
     range_gte := match pre_lower_bound with Included val => Some (nm_to_f64 val) | _ => None end;
     range_lte := match upper_bound with Included val => Some (nm_to_f64 val) | _ => None end |}.

Definition whole_range : Range := {| range_lt := None; range_gt := None; range_gte := None; range_lte := None |}.

(** One round of the loop per unit of fuel. *)
Fixpoint payload_blocks_loop {E} (fuel : nat) (self : NI) (half : N) (key : PayloadKeyType) (lower_bound : Bound T)
    (pre_lower_bound : option (Bound T)) (payload_conditions : list PayloadBlockCondition) :
    result E (option (list PayloadBlockCondition)) :=
  match fuel with
  | O => Ok None
  | S fuel =>
      let upper_bound := get_range_by_size (ni_histogram self) lower_bound half in
      payload_conditions ←
        match pre_lower_bound with
        | Some pre_lower_bound =>
            let range := block_range pre_lower_bound upper_bound in
            cardinality ← range_cardinality self range;
            Ok (payload_conditions ++ [mkPayloadBlock (new_range key range) (est_exp cardinality)])
        | None =>
            Ok (if is_unbounded upper_bound
                then payload_conditions ++ [mkPayloadBlock (new_range key whole_range) (ni_points_count self)]
                else payload_conditions)
        end;
      match upper_bound with
      | Included val | Excluded val =>
          payload_blocks_loop fuel self half key (Excluded val) (Some lower_bound) payload_conditions
      | Unbounded => Ok (Some payload_conditions)
      end
  end.

(** Every round but the last one moves past a border. *)
Definition numeric_payload_blocks {E} (self : NI) (threshold : nat) (key : PayloadKeyType) :
    result E (option (list PayloadBlockCondition)) :=
  let value_per_point := f64_div (f64_of_N (N.of_nat (length (ni_map self)))) (f64_of_N (ni_points_count self)) in
  let effective_threshold := f64_trunc_usize (f64_mul (f64_of_N (N.of_nat threshold)) value_per_point) in
  payload_blocks_loop (S (length (borders (ni_histogram self)))) self (effective_threshold / 2) key Unbounded None [].
End numeric_index.

Definition numeric_int_get_value {Num} `{!JsonNumber Num} (value : Value Num) : option Z :=
  match value with VNumber num => as_i64 num | _ => None end.

Definition numeric_float_get_value {Num} `{!JsonNumber Num} (value : Value Num) : option spec_float :=
  match value with VNumber num => as_f64 num | _ => None end.

(** ** The trait implementations *)

Section trait.
Context {Num T DB : Type} `{!Numericable T, !Encodable T} {HDB : RocksDB DB} `{!FloatFunctions}.
Context (get_value : Value Num → option T).
Abbreviation NI := (NumericIndex T DB).

Definition numeric_load_sm : sm NI OperationError bool := λ s,
  match numeric_load s with
  | Ok (b, s') => (Ok b, s')
  | Err e => (Err e, s)
  | Panic => (Panic, s)
  end.

(** A point offset is a [u32]: a larger [nat] is not one, and is refused. *)
Definition numeric_add_point (id : PointOffsetType) (payload : MultiValue (Value Num)) : sm NI OperationError unit :=
  if (N.of_nat id <=? U32_MAX)%N
  then vi_add_point add_many_to_list get_value numeric_remove_point id payload
  else sm_fail (service_error "not a point offset").

(** An estimation may panic; [filter] ([NumericIndexSpec.numeric_filter_points])
    and [payload_blocks] ([NumericEstimate.payload_blocks_cover]) do not. *)
Definition numeric_index_ops : IndexOps Num NI := {|
  io_recreate := numeric_recreate;
  io_load := numeric_load_sm;
  io_clear s := (recreate_column_family (ni_column s) (ni_db s)).1;
  io_filter s condition :=
    match numeric_filter (E:=OperationError) s condition with Ok points => points | _ => None end;
  io_estimate_cardinality := numeric_estimate_cardinality;
  io_payload_blocks s threshold key :=
    match numeric_payload_blocks (E:=OperationError) s threshold key with Ok (Some blocks) => blocks | _ => [] end;
  io_count_indexed_points := ni_points_count;
  io_add_point := numeric_add_point;
  io_remove_point := numeric_remove_point;
|}.
End trait.

#[export] Instance numeric_int_ops {Num DB} `{!JsonNumber Num, !RocksDB DB, !FloatFunctions} : IndexOps Num (NumericIndex Z DB) :=
  numeric_index_ops numeric_int_get_value.
#[export] Instance numeric_float_ops {Num DB} `{!JsonNumber Num, !RocksDB DB, !FloatFunctions} :
    IndexOps Num (NumericIndex spec_float DB) :=
  numeric_index_ops numeric_float_get_value.
#[export] Instance numeric_values {T DB} : IndexValues T (NumericIndex T DB) := numeric_get_values.
