(* ===== verification/NumericSpec.v ===== *)
(** * Correctness of the numeric index

    The index of a field holds, for every point, the values of the field at
    the point.  The class [NumberLaws] states what the index relies on of a
    type of numbers: keys are ordered as pairs of a number and an offset, and
    decode to the number up to equality of numbers ([num_canon]). *)

From stdpp Require Import base gmap strings list sorting sets.
From Stdlib Require Import ZArith Lia SpecFloat.
From S2P Require Import Prelude KeyEncoding Types Rocks JsonPath Text Filters Estimator FloatBounds.
From S2P Require Import FieldIndex FieldIndexEnum Segment Histogram HistogramSpec NumericIndex.

(** ** Numbers *)

Class NumberLaws (T : Type) `{!Numericable T, !Encodable T} := {
  num_ok : T → Prop;
  num_rank : T → Z;
  num_canon : T → T;
  num_compare a b : num_ok a → num_ok b → nm_compare a b = (num_rank a ?= num_rank b)%Z;
  num_ltb a b : num_ok a → num_ok b → nm_ltb a b = (num_rank a <? num_rank b)%Z;
  num_canon_ok a : num_ok a → num_ok (num_canon a);
  num_canon_rank a : num_ok a → num_rank (num_canon a) = num_rank a;
  num_canon_eq a b : num_ok a → num_ok b → num_rank a = num_rank b → num_canon a = num_canon b;
  num_decode v i : num_ok v → (i ≤ U32_MAX)%N → decode_key (encode_key v i) = Some (i, num_canon v);
  num_key_compare v w i j :
    num_ok v → num_ok w → (i ≤ U32_MAX)%N → (j ≤ U32_MAX)%N →
    lex_compare (encode_key v i) (encode_key w j) = match (num_rank v ?= num_rank w)%Z with Eq => (i ?= j)%N | c => c end;
}.

Lemma u32_range_N i : (i ≤ U32_MAX)%N → u32_range (Z.of_N i).
Proof. unfold u32_range, U32_MAX. lia. Qed.

(** *** Integers *)

#[export] Instance i64_laws : NumberLaws Z.
Proof.
  refine {| num_ok := i64_range; num_rank v := v; num_canon v := v |}; try done.
  - intros v i Hv Hi%u32_range_N. unfold decode_key, encode_key, i64_encodable. rewrite i64_key_roundtrip by done. cbn. by rewrite N2Z.id.
  - intros v w i j Hv Hw Hi%u32_range_N Hj%u32_range_N. unfold encode_key, i64_encodable. rewrite i64_key_order by done. by rewrite N2Z.inj_compare.
Defined.

(** *** Floats *)

(** A valid mantissa is full, or its exponent is the least one. *)
Lemma valid_finite s m e :
  valid_binary 53 1024 (S754_finite s m e) = true →
  (-1074 ≤ e ≤ 971)%Z ∧ (Zpos m < 2 ^ 53)%Z ∧ (e = -1074 ∨ 2 ^ 52 ≤ Zpos m)%Z.
Proof.
  cbn. unfold bounded, canonical_mantissa, fexp, SpecFloat.emin. rewrite andb_true_iff, Z.leb_le.
  intros [He%Z.eqb_eq Hb]. pose proof (digits2_pos_bounds m) as Hm. set (d := Zpos (digits2_pos m)) in *.
  assert (d ≤ 53)%Z as Hd by lia. assert (2 ^ d ≤ 2 ^ 53)%Z by (apply Z.pow_le_mono_r; lia). split_and!; [lia..|].
  destruct (decide (e = -1074)%Z) as [->|Hne]; [by left|right]. assert (d = 53)%Z as Hd' by lia. rewrite Hd' in Hm. lia.
Qed.

Lemma f64_bits_fields s e m (b := (Z.b2z s * 2 ^ 63 + e * 2 ^ 52 + m)%Z) :
  (0 ≤ e < 2 ^ 11)%Z → (0 ≤ m < 2 ^ 52)%Z →
  u64_range b ∧ (2 ^ 63 <=? b)%Z = s ∧ ((b / 2 ^ 52) mod 2 ^ 11)%Z = e ∧ (b mod 2 ^ 52)%Z = m.
Proof.
  intros He Hm. assert (0 ≤ e * 2 ^ 52 + m < 2 ^ 63)%Z by lia.
  assert (b / 2 ^ 52 = Z.b2z s * 2 ^ 11 + e)%Z as Hd.
  { symmetry. apply (Z.div_unique_pos _ _ _ m); [lia|]. unfold b. lia. }
  split_and!.
  - unfold u64_range, b. destruct s; cbn [Z.b2z]; lia.
  - unfold b. destruct s; cbn [Z.b2z]; [apply Z.leb_le|apply Z.leb_gt]; lia.
  - rewrite Hd. symmetry. apply (Z.mod_unique_pos _ _ (Z.b2z s)); lia.
  - symmetry. apply (Z.mod_unique_pos _ _ (Z.b2z s * 2 ^ 11 + e)); [lia|]. unfold b. lia.
Qed.

Lemma f64_of_to_bits x :
  valid_binary 53 1024 x = true → u64_range (f64_to_bits x) ∧ f64_of_bits (f64_to_bits x) = x.
Proof.
  intros Hx. assert (∃ s e m, f64_to_bits x = (Z.b2z s * 2 ^ 63 + e * 2 ^ 52 + m)%Z ∧ (0 ≤ e < 2 ^ 11)%Z ∧ (0 ≤ m < 2 ^ 52)%Z ∧
    (if e =? 2047 then (if m =? 0 then S754_infinity s else S754_nan)
     else if e =? 0 then match m with Zpos p => S754_finite s p (-1074) | _ => S754_zero s end
     else match m + 2 ^ 52 with Zpos p => S754_finite s p (e - 1075) | _ => S754_nan end)%Z = x) as (s & e & m & Hb & He & Hm & Hd).
  { destruct x as [s|s| |s m e].
    - exists s, 0%Z, 0%Z. cbn. split_and!; [lia..|done].
    - exists s, 2047%Z, 0%Z. cbn. split_and!; [lia..|done].
    - exists false, 2047%Z, (2 ^ 51)%Z. split_and!; [reflexivity|lia..|reflexivity].
    - apply valid_finite in Hx as (He & Hm & Hs). unfold f64_to_bits. destruct (Z.ltb_spec (Zpos m) (2 ^ 52)).
      + exists s, 0%Z, (Zpos m). split_and!; [lia..|]. cbn. f_equal. lia.
      + exists s, (e + 1075)%Z, (Zpos m - 2 ^ 52)%Z. split_and!; [lia..|].
        rewrite (proj2 (Z.eqb_neq (e + 1075) 2047)), (proj2 (Z.eqb_neq (e + 1075) 0)) by lia.
        replace (Zpos m - 2 ^ 52 + 2 ^ 52)%Z with (Zpos m) by lia. f_equal. lia. }
  destruct (f64_bits_fields s e m He Hm) as (Hr & H1 & H2 & H3). rewrite <-Hb in *. split; [done|].
  unfold f64_of_bits. by rewrite H1, H2, H3.
Qed.

Definition f64_ok (x : spec_float) : Prop := valid_binary 53 1024 x = true ∧ x ≠ S754_nan.
Definition f64_rank (x : spec_float) : Z := rank (f64_to_bits x).
Definition f64_canon (x : spec_float) : spec_float := match x with S754_zero _ => S754_zero false | _ => x end.

Lemma f64_ok_bits x :
  f64_ok x → u64_range (f64_to_bits x) ∧ f64_of_bits (f64_to_bits x) = x ∧ is_nan (f64_to_bits x) = false.
Proof.
  intros [Hv Hn]. destruct (f64_of_to_bits x Hv) as [Hr Hx]. split_and!; [done..|]. unfold is_nan. rewrite Hx. by destruct x.
Qed.

Lemma f64_rank_compare a b : f64_ok a → f64_ok b → SFcompare a b = Some (f64_rank a ?= f64_rank b)%Z.
Proof.
  intros (Ha & Hxa & Hna)%f64_ok_bits (Hb & Hxb & Hnb)%f64_ok_bits. rewrite <-Hxa, <-Hxb at 1. by apply f64_compare_rank.
Qed.

Lemma f64_rank_zero x : f64_ok x → f64_rank x = 0%Z ↔ ∃ s, x = S754_zero s.
Proof.
  intros (Hr & Hx & Hn)%f64_ok_bits. unfold f64_rank, rank, u64_range in *. split.
  - destruct (Z.leb_spec (2 ^ 63) (f64_to_bits x)) as [H|H]; intros He.
    + assert (f64_to_bits x = 2 ^ 63)%Z as Hb by lia. rewrite Hb in Hx. exists true. by rewrite <-Hx.
    + rewrite He in Hx. exists false. by rewrite <-Hx.
  - intros [[] ->]; reflexivity.
Qed.

Lemma f64_rank_inj a b : f64_ok a → f64_ok b → f64_rank a = f64_rank b → f64_canon a = f64_canon b.
Proof.
  intros Ha Hb Hr. destruct (decide (f64_rank a = 0)%Z) as [H0|H0].
  - pose proof (proj1 (f64_rank_zero a Ha) H0) as [s ->]. rewrite Hr in H0. by apply f64_rank_zero in H0 as [s' ->].
  - apply f64_ok_bits in Ha as (Ra & Hxa & _), Hb as (Rb & Hxb & _). unfold f64_rank, rank, u64_range in *.
    assert (f64_to_bits a = f64_to_bits b) as He.
    { destruct (Z.leb_spec (2 ^ 63) (f64_to_bits a)), (Z.leb_spec (2 ^ 63) (f64_to_bits b)); lia. }
    rewrite <-Hxa, <-Hxb. by rewrite He.
Qed.

#[export] Instance f64_laws : NumberLaws spec_float.
Proof.
  refine {| num_ok := f64_ok; num_rank := f64_rank; num_canon := f64_canon |}.
  - intros a b Ha Hb. cbn. by rewrite f64_rank_compare.
  - intros a b Ha Hb. cbn. unfold SFltb. rewrite f64_rank_compare by done. by rewrite Z.ltb_compare.
  - by intros [] [].
  - by intros [[]| | |].
  - apply f64_rank_inj.
  - intros v i Hv Hi%u32_range_N. pose proof (f64_ok_bits v Hv) as (Hr & Hx & Hn).
    unfold decode_key, encode_key, f64_encodable. rewrite f64_key_roundtrip, Hn, f64_eqb_zero_rank by done. cbn.
    rewrite N2Z.id. do 2 f_equal. fold (f64_rank v). destruct (Z.eqb_spec (f64_rank v) 0) as [H0|H0].
    + by apply f64_rank_zero in H0 as [s ->].
    + rewrite Hx. destruct v; [|done..]. destruct H0. apply f64_rank_zero; eauto.
  - intros v w i j Hv Hw Hi%u32_range_N Hj%u32_range_N. pose proof (f64_ok_bits v Hv) as (Hr & Hx & Hn).
    pose proof (f64_ok_bits w Hw) as (Hr' & Hx' & Hn'). unfold encode_key, f64_encodable. rewrite f64_key_compare by done.
    by rewrite N2Z.inj_compare.
Defined.

Lemma SFltb_rank a b : f64_ok a → f64_ok b → SFltb a b = (f64_rank a <? f64_rank b)%Z.
Proof. intros Ha Hb. unfold SFltb. by rewrite f64_rank_compare, Z.ltb_compare. Qed.

Lemma SFeqb_rank a b : f64_ok a → f64_ok b → SFeqb a b = (f64_rank a =? f64_rank b)%Z.
Proof. intros Ha Hb. unfold SFeqb. by rewrite f64_rank_compare, Z.eqb_compare. Qed.

Lemma SFleb_rank a b : f64_ok a → f64_ok b → SFleb a b = (f64_rank a <=? f64_rank b)%Z.
Proof. intros Ha Hb. unfold SFleb. by rewrite f64_rank_compare, Z.leb_compare. Qed.

Definition f64_okb (x : spec_float) : bool :=
  valid_binary 53 1024 x && match x with S754_nan => false | _ => true end.

Lemma f64_okb_ok x : f64_okb x = true ↔ f64_ok x.
Proof. unfold f64_okb, f64_ok. rewrite andb_true_iff. destruct x; naive_solver. Qed.

(** JSON numbers that are floats. *)
Definition float_numbers : JsonNumber spec_float := {|
  as_i64 _ := None;
  as_f64 x := if f64_okb x then Some x else None;
  is_i64 _ := false;
  is_f64 := f64_okb;
|}.

(** ** Keys and points *)

Lemma lex_compare_eq a b : lex_compare a b = Eq → a = b.
Proof.
  revert b. induction a as [|x a IH]; intros [|y b]; try done. rewrite lex_compare_cons.
  destruct (Z.compare_spec x y) as [->|?|?]; try done. intros H. f_equal. by apply IH.
Qed.

Section points.
Context {T : Type} `{!Numericable T, !Encodable T, !NumberLaws T}.

Definition pt_ok (p : HPoint T) : Prop := num_ok (hp_val p) ∧ num_canon (hp_val p) = hp_val p ∧ (hp_idx p ≤ u64_max)%N.
Definition pt_pos (p : HPoint T) : Z := num_rank (hp_val p) * 2 ^ 64 + Z.of_N (hp_idx p).
Definition small (p : HPoint T) : Prop := (hp_idx p ≤ U32_MAX)%N.

Definition point_key (p : HPoint T) : bytes := encode_key (hp_val p) (hp_idx p).
Definition entry (p : HPoint T) : bytes * PointOffsetType := (point_key p, N.to_nat (hp_idx p)).
Definition index_point (v : T) (i : PointOffsetType) : HPoint T := mkHPoint (num_canon v) (N.of_nat i).

Lemma rank_idx_compare r1 r2 i1 i2 :
  (i1 ≤ u64_max)%N → (i2 ≤ u64_max)%N →
  match (r1 ?= r2)%Z with Eq => (i1 ?= i2)%N | c => c end = (r1 * 2 ^ 64 + Z.of_N i1 ?= r2 * 2 ^ 64 + Z.of_N i2)%Z.
Proof.
  unfold u64_max. intros H1 H2. symmetry. destruct (Z.compare_spec r1 r2) as [->|?|?].
  - by rewrite Z.add_compare_mono_l, N2Z.inj_compare.
  - apply Z.compare_lt_iff. lia.
  - apply Z.compare_gt_iff. lia.
Qed.

Lemma pt_compare a b : pt_ok a → pt_ok b → hp_compare a b = (pt_pos a ?= pt_pos b)%Z.
Proof.
  intros (Ha & _ & Hia) (Hb & _ & Hib). unfold hp_compare, pt_pos. rewrite num_compare by done. by apply rank_idx_compare.
Qed.

Lemma pt_inj a b : pt_ok a → pt_ok b → pt_pos a = pt_pos b → a = b.
Proof.
  intros (Ha & Hca & Hia) (Hb & Hcb & Hib) Heq. unfold pt_pos, u64_max in *. destruct a as [v i], b as [w j]; cbn in *.
  assert (num_rank v = num_rank w) as Hr by lia. f_equal; [|lia]. rewrite <-Hca, <-Hcb. by apply num_canon_eq.
Qed.

Lemma small_u64 p : small p → (hp_idx p ≤ u64_max)%N.
Proof. unfold small, U32_MAX, u64_max. lia. Qed.

Lemma key_pos p q : pt_ok p → pt_ok q → small p → small q → lex_compare (point_key p) (point_key q) = (pt_pos p ?= pt_pos q)%Z.
Proof.
  intros (Hp & _ & Hip) (Hq & _ & Hiq) Hsp Hsq. unfold point_key, pt_pos. rewrite num_key_compare by done.
  by apply rank_idx_compare.
Qed.

Lemma index_point_ok v i : num_ok v → (N.of_nat i ≤ U32_MAX)%N → pt_ok (index_point v i) ∧ small (index_point v i).
Proof.
  intros Hv Hi. split; [|done]. split_and!; cbn; [by apply num_canon_ok| |by apply (small_u64 (mkHPoint v _))].
  apply num_canon_eq; [by apply num_canon_ok|done|by apply num_canon_rank].
Qed.

Lemma encode_index_point v i : num_ok v → (N.of_nat i ≤ U32_MAX)%N → encode_key v (N.of_nat i) = point_key (index_point v i).
Proof.
  intros Hv Hi. apply lex_compare_eq. unfold point_key; cbn. rewrite num_key_compare by (done || by apply num_canon_ok).
  by rewrite num_canon_rank, Z.compare_refl, N.compare_refl.
Qed.

Lemma decode_point_key p : pt_ok p → small p → key_to_histogram_point (point_key p) = Some p.
Proof.
  intros (Hp & Hc & _) Hs. unfold key_to_histogram_point, point_key. rewrite num_decode by done. cbn. rewrite Hc. by destruct p.
Qed.

(** *** The neighbours of a point *)

Lemma select_entries start end_ l :
  bt_select lex_compare start end_ (entry <$> l) =
    entry <$> base.filter (λ p, above_start lex_compare start (point_key p) && below_end lex_compare end_ (point_key p) = true) l.
Proof.
  unfold bt_select. induction l as [|p l IH]; [done|]. rewrite fmap_cons, !filter_cons, IH. cbn [entry fst].
  by destruct (decide _).
Qed.

Abbreviation ascending_pts := (ascending pt_ok pt_pos).

Lemma neighbour_of X Y at_ q :
  ascending_pts (X ++ option_list at_ ++ Y) → Forall small (X ++ option_list at_ ++ Y) → pt_ok q → small q →
  (∀ x, x ∈ X → (pt_pos x < pt_pos q)%Z) → (∀ y, y ∈ Y → (pt_pos q < pt_pos y)%Z) → (∀ x, at_ = Some x → x = q) →
  get_histogram_left_neighbor (entry <$> X ++ option_list at_ ++ Y) q = last X ∧
  get_histogram_right_neighbor (entry <$> X ++ option_list at_ ++ Y) q = head Y.
Proof.
  intros [Hok _] Hsm Hq Hsq HX HY Hat. rewrite !Forall_app in Hok, Hsm. destruct Hok as (HoX & _ & HoY), Hsm as (HsX & _ & HsY).
  rewrite !Forall_forall in HoX, HoY, HsX, HsY.
  assert (∀ P : HPoint T → Prop, ∀ `{!∀ p, Decision (P p)}, (∀ x, x ∈ X → P x) → ¬ P q → (∀ y, y ∈ Y → ¬ P y) →
    base.filter P (X ++ option_list at_ ++ Y) = X) as HfX.
  { intros P HP H1 H2 H3. rewrite !filter_app, list_filter_all by done. rewrite (list_filter_none _ (option_list at_)), (list_filter_none _ Y) by
      (done || (destruct at_ as [a|]; cbn; [intros x ->%list_elem_of_singleton; by rewrite (Hat a)|by intros x ?%not_elem_of_nil])).
    by rewrite app_nil_r. }
  assert (∀ P : HPoint T → Prop, ∀ `{!∀ p, Decision (P p)}, (∀ x, x ∈ X → ¬ P x) → ¬ P q → (∀ y, y ∈ Y → P y) →
    base.filter P (X ++ option_list at_ ++ Y) = Y) as HfY.
  { intros P HP H1 H2 H3. rewrite !filter_app, (list_filter_none _ X) by done. rewrite (list_filter_none _ (option_list at_)), list_filter_all by
      (done || (destruct at_ as [a|]; cbn; [intros x ->%list_elem_of_singleton; by rewrite (Hat a)|by intros x ?%not_elem_of_nil])).
    done. }
  unfold get_histogram_left_neighbor, get_histogram_right_neighbor. fold (point_key q). rewrite !select_entries. split.
  - rewrite HfX.
    + rewrite fmap_last. destruct (last X) as [x|] eqn:Hx; [|done]. apply last_Some_elem_of in Hx. cbn. by apply decode_point_key; auto.
    + intros x Hx. cbn. rewrite key_pos by auto. by rewrite (proj2 (Z.compare_lt_iff _ _)) by auto.
    + cbn. by rewrite key_pos, Z.compare_refl.
    + intros y Hy. cbn. rewrite key_pos by auto. by rewrite (proj2 (Z.compare_gt_iff _ _)) by auto.
  - rewrite HfY.
    + destruct Y as [|y Y]; [done|]. cbn. apply decode_point_key; [apply HoY|apply HsY]; left.
    + intros x Hx. cbn. rewrite key_pos by auto. by rewrite (proj2 (Z.compare_gt_iff _ _)) by auto.
    + cbn. by rewrite key_pos, Z.compare_refl.
    + intros y Hy. cbn. rewrite key_pos by auto. by rewrite (proj2 (Z.compare_lt_iff _ _)) by auto.
Qed.

Lemma neighbours_in_entries l :
  ascending_pts l → Forall small l →
  neighbours_in l (get_histogram_left_neighbor (entry <$> l)) (get_histogram_right_neighbor (entry <$> l)).
Proof.
  intros Ha Hsm X q Y ->. pose proof Ha as (_ & (Hq & _ & HY)%ascending_cons & HX)%ascending_app.
  apply (neighbour_of X Y (Some q)); try done.
  - rewrite Forall_app, Forall_cons in Hsm. by destruct Hsm as (_ & ? & _).
  - intros x Hx. apply HX; [done|left].
  - by intros x [= ->].
Qed.

(** ** The map and its histogram *)

(** Both hold the points [l]. *)
Record stores (mh : list (bytes * PointOffsetType) * Histogram T) (l : list (HPoint T)) : Prop := {
  st_ascending : ascending_pts l;
  st_small : Forall small l;
  st_map : mh.1 = entry <$> l;
  st_histogram : hist_ok mh.2 l;
}.

Lemma entries_compare p l :
  pt_ok p → small p → Forall pt_ok l → Forall small l →
  ∀ b, b ∈ entry <$> l → ∃ x, x ∈ l ∧ lex_compare (point_key p) b.1 = (pt_pos p ?= pt_pos x)%Z.
Proof.
  intros Hp Hs Ho Hsm b (x & -> & Hx)%list_elem_of_fmap. exists x. split; [done|]. rewrite Forall_forall in Ho, Hsm.
  apply key_pos; auto.
Qed.

(** The map around a point. *)
Lemma around_point p X Y at_ :
  pt_ok p → small p → Forall pt_ok (X ++ option_list at_ ++ Y) → Forall small (X ++ option_list at_ ++ Y) →
  (∀ x, x ∈ X → (pt_pos x < pt_pos p)%Z) → (∀ y, y ∈ Y → (pt_pos p < pt_pos y)%Z) →
  (∀ b, b ∈ entry <$> X → lex_compare (point_key p) b.1 = Gt) ∧ lex_compare (point_key p) (point_key p) = Eq ∧
  (∀ b, b ∈ entry <$> Y → lex_compare (point_key p) b.1 = Lt).
Proof.
  intros Hp Hs Ho Hsm HX HY. rewrite !Forall_app in Ho, Hsm. destruct Ho as (HoX & _ & HoY), Hsm as (HsX & _ & HsY).
  split_and!; [|by rewrite key_pos, Z.compare_refl|].
  - intros b (x & Hx & ->)%(entries_compare p X); [|done..]. apply Z.compare_gt_iff. auto.
  - intros b (x & Hx & ->)%(entries_compare p Y); [|done..]. apply Z.compare_lt_iff. auto.
Qed.

Lemma add_to_map_ok {E} v i mh l :
  num_ok v → (N.of_nat i ≤ U32_MAX)%N → stores mh l →
  ∃ mh' l', add_to_map (E:=E) (encode_key v (N.of_nat i)) i mh = Ok mh' ∧ stores mh' l' ∧
    ∀ x, x ∈ l' ↔ x = index_point v i ∨ x ∈ l.
Proof.
  intros Hv Hi [Ha Hsm Hmap Hh]. rewrite encode_index_point by done. destruct (index_point_ok v i Hv Hi) as [Hok Hs].
  set (p := index_point v i) in *. assert (i = N.to_nat (hp_idx p)) as Hip by (cbn; by rewrite Nat2N.id).
  destruct mh as [map h]. cbn in Hmap, Hh. destruct (ascending_place _ _ pt_inj p l Ha Hok) as (X & Y & at_ & Hl & HX & HY & Hat).
  pose proof Ha as [Ho _]. pose proof Hsm as Hsml. rewrite Hl in Ho, Hsm. destruct (around_point p X Y at_) as (HeX & Hee & HeY); [done..|].
  unfold add_to_map. rewrite Hmap, Hip. destruct Hat as [[-> Hnin]|[-> Hin]].
  - change (l = X ++ Y) in Hl. change (Forall small (X ++ Y)) in Hsm. 
    assert (entry <$> l = (entry <$> X) ++ (entry <$> Y)) as Hel by by rewrite Hl, fmap_app. rewrite Hel.
    rewrite bt_get_none by (intros b [Hb%HeX|Hb%HeY]%elem_of_app; by rewrite Hb). rewrite bt_insert_skip, bt_insert_first by done.
    rewrite decode_point_key by done. cbn [mbind result_bind unwrap].
    assert (ascending_pts (X ++ p :: Y)) as Ha'.
    { rewrite Hl in Ha. apply ascending_app in Ha as (H1 & H2 & H3). apply ascending_app. split_and!; [done|by apply ascending_cons|].
      intros x y Hx [->|Hy]%elem_of_cons; auto. }
    assert (Forall small (X ++ p :: Y)) as Hsm' by (apply Forall_app in Hsm as [? ?]; apply Forall_app; split; [done|by constructor]).
    change ((entry <$> X) ++ (point_key p, N.to_nat (hp_idx p)) :: (entry <$> Y)) with ((entry <$> X) ++ (entry <$> p :: Y)).
    rewrite <-fmap_app.
    assert (∀ x, x ∈ X ++ p :: Y ↔ x = p ∨ x ∈ l) as Heq by (rewrite Hl; set_solver).
    destruct (insert_ok (E:=E) pt_ok pt_pos pt_compare pt_inj _ _ p l (X ++ p :: Y) Hok Hnin Ha Ha' Heq
      (neighbours_in_entries _ Ha' Hsm') h Hh) as (h' & -> & Hh').
    exists (entry <$> X ++ p :: Y, h'), (X ++ p :: Y). by split_and!.
  - change (l = X ++ p :: Y) in Hl. 
    assert (entry <$> l = (entry <$> X) ++ (point_key p, N.to_nat (hp_idx p)) :: (entry <$> Y)) as Hel by by rewrite Hl, fmap_app.
    rewrite Hel, bt_get_at, bt_insert_at by done. exists (map, h), l. split; [by rewrite Hmap, Hel|]. split; [by split|].
    intros x. split; [by right|]. by intros [->|?].
Qed.

Lemma remove_from_map_ok {E} v i mh l :
  num_ok v → (N.of_nat i ≤ U32_MAX)%N → stores mh l →
  ∃ mh' l', remove_from_map (E:=E) (encode_key v (N.of_nat i)) mh = Ok mh' ∧ stores mh' l' ∧
    ∀ x, x ∈ l' ↔ x ≠ index_point v i ∧ x ∈ l.
Proof.
  intros Hv Hi [Ha Hsm Hmap Hh]. rewrite encode_index_point by done. destruct (index_point_ok v i Hv Hi) as [Hok Hs].
  set (p := index_point v i) in *.
  destruct mh as [map h]. cbn in Hmap, Hh. destruct (ascending_place _ _ pt_inj p l Ha Hok) as (X & Y & at_ & Hl & HX & HY & Hat).
  pose proof Ha as [Ho _]. pose proof Hsm as Hsml. rewrite Hl in Ho, Hsm. destruct (around_point p X Y at_) as (HeX & Hee & HeY); [done..|].
  unfold remove_from_map. rewrite Hmap. destruct Hat as [[-> Hnin]|[-> Hin]].
  - change (l = X ++ Y) in Hl.
    assert (entry <$> l = (entry <$> X) ++ (entry <$> Y)) as Hel by by rewrite Hl, fmap_app.
    assert (∀ b, b ∈ entry <$> l → lex_compare (point_key p) b.1 ≠ Eq) as Hne.
    { rewrite Hel. by intros b [Hb%HeX|Hb%HeY]%elem_of_app; rewrite Hb. }
    rewrite bt_get_none, bt_remove_none by done. exists (entry <$> l, h), l. split; [done|]. split; [by split|].
    intros x. split; [|tauto]. intros Hx. split; [by intros ->|done].
  - change (l = X ++ p :: Y) in Hl. change (Forall small (X ++ p :: Y)) in Hsm. change (Forall pt_ok (X ++ p :: Y)) in Ho.
    assert (entry <$> l = (entry <$> X) ++ (point_key p, N.to_nat (hp_idx p)) :: (entry <$> Y)) as Hel by by rewrite Hl, fmap_app.
    rewrite Hel, bt_get_at, bt_remove_at, <-fmap_app, decode_point_key by done. cbn [mbind result_bind unwrap].
    assert (X ++ Y `sublist_of` l) as Hsub by (rewrite Hl; apply sublist_app; [done|by constructor]).
    assert (ascending_pts (X ++ Y)) as Ha' by by eapply ascending_sublist.
    assert (Forall small (X ++ Y)) as Hsm' by by eapply Forall_sublist.
    assert (∀ x, x ∈ X ++ Y ↔ x ≠ p ∧ x ∈ l) as Heq.
    { intros x. rewrite Hl, !elem_of_app, elem_of_cons. split; [|tauto]. intros Hx. split; [|tauto].
      intros ->. destruct Hx as [Hx%HX|Hx%HY]; lia. }
    destruct (remove_ok (E:=E) pt_ok pt_pos pt_compare pt_inj (get_histogram_left_neighbor (entry <$> X ++ Y))
      (get_histogram_right_neighbor (entry <$> X ++ Y)) p l (X ++ Y) Hok Hin Ha Ha' Heq) with (h := h) as (h' & -> & Hh'); [|done|].
    + intros X' Y' Hl'. rewrite Hl in Hl'. destruct (ascending_split pt_ok pt_pos _ _ _ _ _ Hl') as [<- <-]; [by rewrite <-Hl|].
      by apply (neighbour_of X Y None).
    + exists (entry <$> X ++ Y, h'), (X ++ Y). by split_and!.
Qed.
End points.
