(* ===== verification/NumericIndexSpec.v ===== *)
(** * The numeric index as a field index

    [numeric_wf s l] says that the index holds the points [l]: the pairs of a
    value and an offset in its map and histogram are those of the values of
    every point.  Updates keep it, lookups answer from it, and an index loaded
    from the database holds the same points. *)

From stdpp Require Import base gmap strings list sorting sets.
From Stdlib Require Import ZArith Lia SpecFloat.
From S2P Require Import Prelude KeyEncoding Types Rocks JsonPath Text Filters Estimator.
From S2P Require Import FieldIndex FieldIndexEnum FieldIndexLaws Segment Histogram HistogramSpec NumericIndex NumericSpec.

Lemma exists_cons {A} (P : A → Prop) v vs : (∃ w, w ∈ v :: vs ∧ P w) ↔ P v ∨ ∃ w, w ∈ vs ∧ P w.
Proof. setoid_rewrite elem_of_cons. naive_solver. Qed.

Section index.
Context {T DB : Type} `{!Numericable T, !Encodable T, !NumberLaws T} {HDB : RocksDB DB} {HRL : RocksLaws DB}.
Abbreviation NI := (NumericIndex T DB).
Abbreviation points_of s l := (stores (ni_map s, ni_histogram s) l).

Definition ni_vals (s : NI) (i : PointOffsetType) : list T := default [] (numeric_get_values s i).

Record numeric_wf (s : NI) (l : list (HPoint T)) : Prop := {
  nw_stores : points_of s l;
  nw_points x : x ∈ l ↔ ∃ v i, v ∈ ni_vals s i ∧ x = index_point v i;
  nw_ok v i : v ∈ ni_vals s i → num_ok v ∧ (N.of_nat i ≤ U32_MAX)%N;
  nw_count : ni_points_count s = N.of_nat (sum_list_with nonempty (ni_point_to_values s));
  nw_max i : (1 ≤ ni_max_values_per_point s ∧ N.of_nat (length (ni_vals s i)) ≤ ni_max_values_per_point s)%N;
}.

(** *** Updates *)

(** What the loops over the values of a point leave alone. *)
Definition same_values (s s' : NI) : Prop :=
  ni_point_to_values s' = ni_point_to_values s ∧ ni_points_count s' = ni_points_count s ∧
  ni_max_values_per_point s' = ni_max_values_per_point s ∧ ni_column s' = ni_column s.

(** The records of the values of a point. *)
Definition value_keys (vs : list T) (i : PointOffsetType) : list bytes := (λ v, encode_key v (N.of_nat i)) <$> vs.

Lemma add_values_wp i vs s l :
  Forall num_ok vs → (N.of_nat i ≤ U32_MAX)%N → points_of s l →
  sm_wp (sm_for (add_value i) vs)
    (λ _ s', same_values s s' ∧ (∃ l', points_of s' l' ∧ ∀ x, x ∈ l' ↔ (∃ v, v ∈ vs ∧ x = index_point v i) ∨ x ∈ l) ∧
      cf_handle (ni_db s') (ni_column s) = cf_handle (ni_db s) (ni_column s) ∧
      ∀ k, cf_view (ni_db s') (ni_column s) !! k =
        if decide (k ∈ value_keys vs i) then Some (to_be_bytes 4 (Z.of_nat i)) else cf_view (ni_db s) (ni_column s) !! k)
    (λ _ _, True) s.
Proof using HRL.
  intros Hvs Hi. revert s l. induction Hvs as [|v vs Hv Hvs IH]; intros s l Hs.
  { apply sm_wp_ret. split_and!; [done|exists l; split; [done|]|done|].
    - intros x. split; [by right|]. by intros [(v & []%not_elem_of_nil & _)|?].
    - intros k. by rewrite decide_False by apply not_elem_of_nil. }
  cbn [sm_for]. apply sm_wp_bind. unfold add_value, on_ni_db. apply sm_wp_bind, sm_wp_zoom, column_put_wp; [|done].
  intros db' Hview Hh. apply sm_wp_bind, sm_wp_ret, sm_wp_bind. cbn [ni_map ni_histogram].
  destruct (add_to_map_ok (E:=OperationError) v i _ l Hv Hi Hs) as (mh' & l' & -> & Hs' & Hl'). cbn [sm_lift]. 
  apply sm_wp_ret, sm_wp_modify. eapply sm_wp_mono; [eapply (IH _ l')|..]; [by destruct mh'| |done].
  cbn. intros _ s' (Hsame & (l2 & Hs2 & Hl2) & Hh2 & Hv2). split_and!; [done| |by rewrite Hh2|].
  - exists l2. split; [done|]. intros x. rewrite Hl2, Hl', exists_cons. tauto.
  - intros k. rewrite Hv2, Hview. change (value_keys (v :: vs) i) with (encode_key v (N.of_nat i) :: value_keys vs i).
    destruct (decide (k = encode_key v (N.of_nat i))) as [->|Hk].
    + rewrite lookup_insert_eq. destruct (decide (_ ∈ _ :: _)) as [_|Hn]; [by case_decide|destruct Hn; left].
    + rewrite lookup_insert_ne by done. by rewrite decide_elem_cons_ne.
Qed.

Lemma remove_values_wp i vs s l :
  Forall (λ v, num_ok v ∧ (N.of_nat i ≤ U32_MAX)%N) vs → points_of s l →
  sm_wp (sm_for (λ value,
      let key := encode_key value (N.of_nat i) in
      _ ← on_ni_db (λ column, column_remove column key);
      self ← sm_get;
      mh ← sm_lift (remove_from_map key (ni_map self, ni_histogram self));
      sm_modify (set_map_histogram mh)) vs)
    (λ _ s', same_values s s' ∧ (∃ l', points_of s' l' ∧ ∀ x, x ∈ l' ↔ ¬ (∃ v, v ∈ vs ∧ x = index_point v i) ∧ x ∈ l) ∧
      cf_handle (ni_db s') (ni_column s) = cf_handle (ni_db s) (ni_column s) ∧
      ∀ k, cf_view (ni_db s') (ni_column s) !! k =
        if decide (k ∈ value_keys vs i) then None else cf_view (ni_db s) (ni_column s) !! k)
    (λ _ _, True) s.
Proof using HRL.
  intros Hvs. revert s l. induction Hvs as [|v vs [Hv Hi] Hvs IH]; intros s l Hs.
  { apply sm_wp_ret. split_and!; [done|exists l; split; [done|]|done|].
    - intros x. split; [|by intros [_ ?]]. intros Hx. split; [|done]. by intros (v & []%not_elem_of_nil & _).
    - intros k. by rewrite decide_False by apply not_elem_of_nil. }
  cbn [sm_for]. apply sm_wp_bind. cbv zeta. unfold on_ni_db. apply sm_wp_bind, sm_wp_zoom, column_remove_wp; [|done].
  intros db' Hview Hh. apply sm_wp_bind, sm_wp_ret, sm_wp_bind. cbn [ni_map ni_histogram].
  destruct (remove_from_map_ok (E:=OperationError) v i _ l Hv Hi Hs) as (mh' & l' & -> & Hs' & Hl'). cbn [sm_lift].
  apply sm_wp_ret, sm_wp_modify. eapply sm_wp_mono; [eapply (IH _ l')|..]; [by destruct mh'| |done].
  cbn. intros _ s' (Hsame & (l2 & Hs2 & Hl2) & Hh2 & Hv2). split_and!; [done| |by rewrite Hh2|].
  - exists l2. split; [done|]. intros x. rewrite Hl2, Hl', exists_cons. tauto.
  - intros k. rewrite Hv2, Hview. change (value_keys (v :: vs) i) with (encode_key v (N.of_nat i) :: value_keys vs i).
    destruct (decide (k = encode_key v (N.of_nat i))) as [->|Hk].
    + rewrite lookup_delete_eq. destruct (decide (_ ∈ _ :: _)) as [_|Hn]; [by case_decide|destruct Hn; left].
    + rewrite lookup_delete_ne by done. by rewrite decide_elem_cons_ne.
Qed.

(** The column of the index holds exactly its pairs. *)
Record numeric_synced (s : NI) : Prop := {
  ns_cf : cf_handle (ni_db s) (ni_column s) = true;
  ns_view k b : cf_view (ni_db s) (ni_column s) !! k = Some b ↔
    ∃ v i, v ∈ ni_vals s i ∧ k = encode_key v (N.of_nat i) ∧ b = to_be_bytes 4 (Z.of_nat i);
}.

(** The values of one point are replaced. *)
Definition ni_values_set (i : PointOffsetType) (vs : list T) (s s' : NI) : Prop :=
  ni_column s' = ni_column s ∧ ∀ j, ni_vals s' j = if decide (j = i) then vs else ni_vals s j.

(** Pairs with the same key are the same point. *)
Lemma encode_key_inj v w i j :
  num_ok v → num_ok w → (N.of_nat i ≤ U32_MAX)%N → (N.of_nat j ≤ U32_MAX)%N →
  encode_key v (N.of_nat i) = encode_key w (N.of_nat j) → index_point v i = index_point w j ∧ i = j.
Proof.
  intros Hv Hw Hi Hj He. pose proof (num_decode v (N.of_nat i) Hv Hi) as H1. rewrite He, num_decode in H1 by done.
  injection H1 as H1 H2. split; [|lia]. unfold index_point. by rewrite H2, H1.
Qed.

Lemma removed_points s s' l (l' : list (HPoint T)) i :
  numeric_wf s l → ni_values_set i [] s s' →
  (∀ x, x ∈ l' ↔ ¬ (∃ v, v ∈ ni_vals s i ∧ x = index_point v i) ∧ x ∈ l) →
  ∀ x, x ∈ l' ↔ ∃ v j, v ∈ ni_vals s' j ∧ x = index_point v j.
Proof.
  intros Hwf [_ Hset] Hl' x. rewrite Hl', (nw_points _ _ Hwf). split.
  - intros (Hn & v & j & Hv & ->). exists v, j. rewrite Hset. destruct (decide (j = i)) as [->|]; [|done].
    destruct Hn. eauto.
  - intros (v & j & Hv & ->). rewrite Hset in Hv. case_decide as Hj; [by apply not_elem_of_nil in Hv|].
    split; [|eauto]. intros (w & _ & [= _ He]). lia.
Qed.

Lemma removed_numeric_synced s s' l i :
  numeric_wf s l → numeric_synced s → ni_values_set i [] s s' →
  cf_handle (ni_db s') (ni_column s) = cf_handle (ni_db s) (ni_column s) →
  (∀ k, cf_view (ni_db s') (ni_column s) !! k =
    if decide (k ∈ value_keys (ni_vals s i) i) then None else cf_view (ni_db s) (ni_column s) !! k) →
  numeric_synced s'.
Proof.
  intros Hwf [Hcf Hview] [Hc Hset] Hh Hv. split; [by rewrite Hc, Hh|]. intros k b. rewrite Hc, Hv. split.
  - case_decide as Hk; [done|]. intros (v & j & Hin & -> & ->)%Hview. exists v, j. split; [|done]. rewrite Hset.
    case_decide as Hj; [|done]. subst j. destruct Hk. apply list_elem_of_fmap. eauto.
  - intros (v & j & Hin & -> & ->). rewrite Hset in Hin. case_decide as Hj; [by apply not_elem_of_nil in Hin|].
    case_decide as Hk; [|apply Hview; eauto]. apply list_elem_of_fmap in Hk as (w & Heq & Hw).
    destruct (nw_ok _ _ Hwf v j Hin), (nw_ok _ _ Hwf w i Hw). destruct Hj. by apply (encode_key_inj v w j i).
Qed.

Lemma numeric_remove_spec i s l :
  numeric_wf s l →
  sm_wp (numeric_remove_point i)
    (λ _ s', (∃ l', numeric_wf s' l') ∧ ni_values_set i [] s s' ∧ (numeric_synced s → numeric_synced s')) (λ _ _, True) s.
Proof using HRL.
  intros Hwf. unfold numeric_remove_point. apply sm_wp_bind, sm_wp_ret. case_decide as Hlen.
  { apply sm_wp_ret. split_and!; [eauto| |done..]. split; [done|]. intros j. case_decide; [|done]. subst.
    unfold ni_vals, numeric_get_values. by rewrite (proj2 (lookup_ge_None _ _)) by lia. }
  destruct (lookup_lt_is_Some_2 (ni_point_to_values s) i ltac:(lia)) as [vs Hvs].
  assert (ni_vals s i = vs) as Hvi by (unfold ni_vals, numeric_get_values; by rewrite Hvs).
  unfold vec_get. rewrite Hvs. apply sm_wp_bind. unfold unwrap. apply sm_wp_ret, sm_wp_bind, sm_wp_modify, sm_wp_bind.
  set (s1 := set_ni_values _ s).
  assert (∀ s', same_values s1 s' → ni_values_set i [] s s') as Hset.
  { intros s' (Hp & _ & _ & Hc). split; [done|]. intros j. unfold ni_vals, numeric_get_values. rewrite Hp. cbn. case_decide.
    - subst. by rewrite list_lookup_insert_eq by (by eapply lookup_lt_Some).
    - by rewrite list_lookup_insert_ne. }
  assert (Forall (λ v, num_ok v ∧ (N.of_nat i ≤ U32_MAX)%N) vs) as Hok.
  { apply Forall_forall. intros v Hv. apply (nw_ok _ _ Hwf). by rewrite Hvi. }
  eapply sm_wp_mono; [apply (remove_values_wp i vs s1 l); [done|exact (nw_stores _ _ Hwf)]| |done].
  cbn. intros _ s2 (Hsame & (l' & Hs2 & Hl') & Hh & Hv).
  pose proof (Hset s2 Hsame) as Hset2. destruct Hsame as (Hp & Hcnt & Hmax & Hcol). set (s3 := match vs with [] => s2 | _ => _ end).
  assert (ni_db s3 = ni_db s2 ∧ ni_map s3 = ni_map s2 ∧ ni_histogram s3 = ni_histogram s2 ∧ ni_point_to_values s3 = ni_point_to_values s2 ∧
    ni_max_values_per_point s3 = ni_max_values_per_point s2 ∧ ni_column s3 = ni_column s2 ∧
    ni_points_count s3 = if decide (vs = []) then ni_points_count s2 else usize_sub (ni_points_count s2) 1)
    as (E1 & E2 & E3 & E4 & E5 & E6 & E7) by (subst s3; by destruct vs). clearbody s3.
  assert (ni_values_set i [] s s3) as Hset3.
  { destruct Hset2 as [Hc Hj]. split; [by rewrite E6|]. intros j. rewrite <-Hj. unfold ni_vals, numeric_get_values. by rewrite E4. }
  split_and!; [|done|].
  - exists l'. split.
    + by rewrite E2, E3.
    + apply (removed_points s s3 l l' i); [done..|]. by rewrite Hvi.
    + intros v j. destruct Hset3 as [_ ->]. destruct (decide (j = i)); [by intros ?%not_elem_of_nil|apply (nw_ok _ _ Hwf)].
    + pose proof (sum_with_insert nonempty eq_refl _ i [] _ Hvs) as Hsum. cbn in Hp. rewrite E7, E4, Hp, Hcnt. cbn.
      rewrite (nw_count _ _ Hwf). destruct (decide (vs = [])) as [Hn|Hn]; [rewrite Hn in Hsum; cbn in Hsum; lia|].
      replace (nonempty vs) with 1 in Hsum by (by destruct vs). cbn in Hsum. rewrite usize_pred by lia. lia.
    + intros j. destruct (nw_max _ _ Hwf j) as [Hm Hj]. rewrite E5, Hmax. split; [done|]. destruct Hset3 as [_ ->].
      destruct (decide (j = i)); [cbn; lia|done].
  - intros Hsync. apply (removed_numeric_synced s s3 l i); [done..|by rewrite E1|]. intros k. by rewrite E1, Hv, Hvi.
Qed.

Lemma added_points s s' l (l' : list (HPoint T)) i vs :
  numeric_wf s l → ni_vals s i = [] → ni_values_set i vs s s' →
  (∀ x, x ∈ l' ↔ (∃ v, v ∈ vs ∧ x = index_point v i) ∨ x ∈ l) →
  ∀ x, x ∈ l' ↔ ∃ v j, v ∈ ni_vals s' j ∧ x = index_point v j.
Proof.
  intros Hwf Hnil [_ Hset] Hl' x. rewrite Hl', (nw_points _ _ Hwf). split.
  - intros [(v & Hv & ->)|(v & j & Hv & ->)].
    + exists v, i. by rewrite Hset, decide_True.
    + exists v, j. rewrite Hset. destruct (decide (j = i)) as [->|]; [|done]. rewrite Hnil in Hv. by apply not_elem_of_nil in Hv.
  - intros (v & j & Hv & ->). rewrite Hset in Hv. destruct (decide (j = i)) as [->|]; eauto.
Qed.

Lemma added_numeric_synced s s' l i vs :
  numeric_wf s l → numeric_synced s → ni_vals s i = [] → Forall num_ok vs → (N.of_nat i ≤ U32_MAX)%N → ni_values_set i vs s s' →
  cf_handle (ni_db s') (ni_column s) = cf_handle (ni_db s) (ni_column s) →
  (∀ k, cf_view (ni_db s') (ni_column s) !! k =
    if decide (k ∈ value_keys vs i) then Some (to_be_bytes 4 (Z.of_nat i)) else cf_view (ni_db s) (ni_column s) !! k) →
  numeric_synced s'.
Proof.
  intros Hwf [Hcf Hview] Hnil Hvs Hi [Hc Hset] Hh Hv. rewrite Forall_forall in Hvs. split; [by rewrite Hc, Hh|].
  intros k b. rewrite Hc, Hv. split.
  - destruct (decide (k ∈ value_keys vs i)) as [Hk|Hk].
    + intros [= <-]. apply list_elem_of_fmap in Hk as (v & -> & Hin). exists v, i. by rewrite Hset, decide_True.
    + intros (v & j & Hin & -> & ->)%Hview. exists v, j. split; [|done]. rewrite Hset.
      destruct (decide (j = i)) as [->|]; [|done]. rewrite Hnil in Hin. by apply not_elem_of_nil in Hin.
  - intros (v & j & Hin & -> & ->). rewrite Hset in Hin. destruct (decide (j = i)) as [->|Hj].
    + rewrite decide_True; [done|]. apply list_elem_of_fmap. eauto.
    + destruct (decide (_ ∈ _)) as [Hk|Hk]; [|apply Hview; eauto]. apply list_elem_of_fmap in Hk as (w & Heq & Hw).
      destruct (nw_ok _ _ Hwf v j Hin). destruct Hj. by apply (encode_key_inj v w j i); auto.
Qed.

Lemma numeric_add_spec i vs s l :
  numeric_wf s l → ni_vals s i = [] → Forall num_ok vs → (N.of_nat i ≤ U32_MAX)%N →
  sm_wp (add_many_to_list i vs)
    (λ _ s', (∃ l', numeric_wf s' l') ∧ ni_values_set i vs s s' ∧ (numeric_synced s → numeric_synced s')) (λ _ _, True) s.
Proof using HRL.
  intros Hwf Hnil Hvs Hi. unfold add_many_to_list. apply sm_wp_bind, sm_wp_modify, sm_wp_bind. set (s1 := set_ni_values _ s).
  eapply sm_wp_mono; [apply (add_values_wp i vs s1 l); [done..|exact (nw_stores _ _ Hwf)]| |done].
  cbn [ni_db ni_column s1 set_ni_values]. intros _ s2 ((Hp & Hcnt & Hmax & Hcol) & (l' & Hs2 & Hl') & Hh & Hv).
  apply sm_wp_bind, sm_wp_modify, sm_wp_bind, sm_wp_ret, sm_wp_bind. set (s3 := count_values s2 vs).
  assert (ni_db s3 = ni_db s2 ∧ ni_map s3 = ni_map s2 ∧ ni_histogram s3 = ni_histogram s2 ∧ ni_point_to_values s3 = ni_point_to_values s2 ∧
    ni_max_values_per_point s3 = N.max (ni_max_values_per_point s2) (N.of_nat (length vs)) ∧ ni_column s3 = ni_column s2 ∧
    ni_points_count s3 = (ni_points_count s2 + N.of_nat (nonempty vs))%N)
    as (E1 & E2 & E3 & E4 & E5 & E6 & E7) by (subst s3; destruct vs; cbn; split_and!; (done || lia)). clearbody s3.
  unfold vec_set. rewrite E4, Hp. cbn [ni_point_to_values s1 set_ni_values]. rewrite decide_True by (rewrite length_grow; lia).
  cbn [sm_lift]. apply sm_wp_ret, sm_wp_modify. change (<[i := vs]> (grow i [] (ni_point_to_values s))) with (grow_set i [] vs (ni_point_to_values s)).
  set (s4 := set_ni_values _ s3). assert (ni_values_set i vs s s4) as Hset.
  { split; [cbn; by rewrite E6, Hcol|]. intros j. unfold ni_vals, numeric_get_values. cbn. apply default_grow_set. }
  split_and!; [|done|].
  - exists l'. split.
    + cbn. by rewrite E2, E3.
    + by apply (added_points s s4 l l' i vs).
    + intros v j. destruct Hset as [_ ->]. destruct (decide (j = i)) as [->|]; [|apply (nw_ok _ _ Hwf)].
      rewrite Forall_forall in Hvs. auto.
    + cbn -[sum_list_with]. rewrite E7, Hcnt. cbn -[sum_list_with]. rewrite (nw_count _ _ Hwf).
      pose proof (sum_with_grow_set nonempty eq_refl (ni_point_to_values s) i vs) as Hsum.
      change (default [] (ni_point_to_values s !! i)) with (ni_vals s i) in Hsum. rewrite Hnil in Hsum. cbn in Hsum. lia.
    + intros j. destruct (nw_max _ _ Hwf j) as [Hm Hj]. cbn. rewrite E5, Hmax. cbn. split; [lia|]. destruct Hset as [_ Hset].
      rewrite Hset. destruct (decide (j = i)) as [->|]; lia.
  - intros Hsync. apply (added_numeric_synced s s4 l i vs); [done..|cbn; by rewrite E1|]. intros k. cbn. by rewrite E1, Hv.
Qed.

(** *** Lookups *)

(** The source's guards are the panics of [range]. *)
Lemma empty_bounds_bad s e : empty_bounds s e = bad_range lex_compare s e.
Proof. unfold empty_bounds. destruct s as [a|a|], e as [b|b|]; cbn; try done; by destruct (lex_compare a b). Qed.

Lemma numeric_filter_eq {E} s fc range :
  fc_range fc = Some range →
  numeric_filter (E:=E) (T:=T) (DB:=DB) s fc = Ok (Some (if empty_bounds (filter_start (T:=T) range) (filter_end (T:=T) range) then []
    else (bt_select lex_compare (filter_start (T:=T) range) (filter_end (T:=T) range) (ni_map s)).*2)).
Proof.
  intros Hr. unfold numeric_filter. rewrite Hr. unfold bt_range. rewrite <-empty_bounds_bad. by destruct (empty_bounds _ _).
Qed.

(** The bound that the source takes on either side. *)
Definition in_start (range : Range) (v : T) : Prop :=
  match range_gt range, range_gte range with
  | Some gt, _ => (num_rank (nm_from_f64 gt : T) < num_rank v)%Z
  | None, Some gte => (num_rank (nm_from_f64 gte : T) ≤ num_rank v)%Z
  | None, None => True
  end.

Definition in_end (range : Range) (v : T) : Prop :=
  match range_lt range, range_lte range with
  | Some lt, _ => (num_rank v < num_rank (nm_from_f64 lt : T))%Z
  | None, Some lte => (num_rank v ≤ num_rank (nm_from_f64 lte : T))%Z
  | None, None => True
  end.

(** The bounds are numbers. *)
Definition range_ok (range : Range) : Prop :=
  ∀ b, b ∈ [range_lt range; range_gt range; range_lte range; range_gte range] → ∀ x, b = Some x → num_ok (nm_from_f64 x : T).

Lemma key_compare_Z (v w : T) i j :
  num_ok v → num_ok w → (i ≤ U32_MAX)%N → (j ≤ U32_MAX)%N →
  lex_compare (encode_key v i) (encode_key w j) = (num_rank v * 2 ^ 64 + Z.of_N i ?= num_rank w * 2 ^ 64 + Z.of_N j)%Z.
Proof.
  intros Hv Hw Hi Hj. rewrite num_key_compare by done. apply rank_idx_compare; unfold U32_MAX, u64_max in *; lia.
Qed.

Lemma range_ok_at range b x :
  range_ok range → b = Some x → b ∈ [range_lt range; range_gt range; range_lte range; range_gte range] → num_ok (nm_from_f64 x : T).
Proof. intros Hr Hx Hb. by eapply Hr. Qed.

(** The comparisons of keys as ones of numbers. *)
Ltac key_cases :=
  repeat match goal with
  | H : range_ok ?r, E : range_lt ?r = Some ?x |- _ => pose proof (range_ok_at _ _ _ H E ltac:(left)); clear E
  | H : range_ok ?r, E : range_gt ?r = Some ?x |- _ => pose proof (range_ok_at _ _ _ H E ltac:(right; left)); clear E
  | H : range_ok ?r, E : range_lte ?r = Some ?x |- _ => pose proof (range_ok_at _ _ _ H E ltac:(right; right; left)); clear E
  | H : range_ok ?r, E : range_gte ?r = Some ?x |- _ => pose proof (range_ok_at _ _ _ H E ltac:(right; right; right; left)); clear E
  end; cbn; rewrite ?key_compare_Z by (done || unfold U32_MIN, U32_MAX; lia); unfold U32_MIN, U32_MAX in *;
  repeat match goal with |- context [(?a ?= ?b)%Z] => destruct (Z.compare_spec a b) end; try done; try lia.

Lemma in_start_key range (v : T) i :
  range_ok range → num_ok v → (i ≤ U32_MAX)%N → above_start lex_compare (filter_start (T:=T) range) (encode_key v i) = true ↔ in_start range v.
Proof.
  intros Hr Hv Hi. unfold filter_start, in_start. destruct (range_gt range) as [g|] eqn:Hgt; [|destruct (range_gte range) as [g|] eqn:Hge];
    key_cases; split; intros; (done || lia).
Qed.

Lemma in_end_key range (v : T) i :
  range_ok range → num_ok v → (i ≤ U32_MAX)%N → below_end lex_compare (filter_end (T:=T) range) (encode_key v i) = true ↔ in_end range v.
Proof.
  intros Hr Hv Hi. unfold filter_end, in_end. destruct (range_lt range) as [g|] eqn:Hgt; [|destruct (range_lte range) as [g|] eqn:Hge];
    key_cases; split; intros; (done || lia).
Qed.

Lemma empty_bounds_none range (v : T) :
  range_ok range → empty_bounds (filter_start (T:=T) range) (filter_end (T:=T) range) = true → in_start range v → in_end range v → False.
Proof.
  intros Hr. rewrite empty_bounds_bad. unfold filter_start, filter_end, in_start, in_end.
  destruct (range_gt range) as [g|] eqn:Hgt; [|destruct (range_gte range) as [g|] eqn:Hge];
    (destruct (range_lt range) as [h|] eqn:Hlt; [|destruct (range_lte range) as [h|] eqn:Hle]); key_cases.
Qed.

(** The points found are those with a value within the bounds. *)
Lemma numeric_filter_points {E} s l fc range :
  numeric_wf s l → fc_range fc = Some range → range_ok range →
  ∃ points, numeric_filter (E:=E) s fc = Ok (Some points) ∧
    ∀ i, i ∈ points ↔ ∃ v, v ∈ ni_vals s i ∧ in_start range v ∧ in_end range v.
Proof.
  intros Hwf Hfc Hr. rewrite (numeric_filter_eq s fc range Hfc). eexists; split; [done|]. intros i.
  destruct (empty_bounds _ _) eqn:He.
  { split; [by intros ?%not_elem_of_nil|]. intros (v & _ & H1 & H2). by destruct (empty_bounds_none range v Hr He). }
  destruct (nw_stores _ _ Hwf) as [Ha Hsm Hmap Hh]. cbn in Hmap. rewrite Hmap, select_entries, <-list_fmap_compose.
  rewrite list_elem_of_fmap. setoid_rewrite list_elem_of_filter. setoid_rewrite (nw_points _ _ Hwf).
  assert (∀ v j, v ∈ ni_vals s j → point_key (index_point v j) = encode_key v (N.of_nat j)) as Hkey.
  { intros v j Hv. destruct (nw_ok _ _ Hwf v j Hv). by rewrite encode_index_point. }
  split.
  - intros (x & -> & Hx & v & j & Hv & ->). cbn in *. rewrite Nat2N.id. exists v. split; [done|].
    rewrite Hkey in Hx by done. apply andb_true_iff in Hx as [H1 H2]. destruct (nw_ok _ _ Hwf v j Hv).
    apply in_start_key in H1; [|done..]. by apply in_end_key in H2.
  - intros (v & Hv & H1 & H2). destruct (nw_ok _ _ Hwf v i Hv). exists (index_point v i). cbn. rewrite Nat2N.id. split; [done|].
    split; [|eauto]. rewrite Hkey by done. apply andb_true_iff. by rewrite in_start_key, in_end_key.
Qed.
End index.
