(* ===== verification/NumericReload.v ===== *)
(** * Runs of updates of a numeric index, and reopening it *)

From stdpp Require Import base gmap strings list sorting sets.
From Stdlib Require Import ZArith Lia SpecFloat.
From S2P Require Import Prelude KeyEncoding Types Rocks JsonPath Text Filters Estimator.
From S2P Require Import FieldIndex FieldIndexEnum FieldIndexLaws Segment Histogram HistogramSpec.
From S2P Require Import NumericIndex NumericSpec NumericIndexSpec.

Section reload.
Context {T DB : Type} `{!Numericable T, !Encodable T, !NumberLaws T} {HDB : RocksDB DB} {HRL : RocksLaws DB}.
Abbreviation NI := (NumericIndex T DB).
Abbreviation points_of s l := (stores (ni_map s, ni_histogram s) l).

Lemma num_canon_idem v : num_ok v → num_canon (num_canon v) = num_canon v.
Proof. intros Hv. apply num_canon_eq; [by apply num_canon_ok|done|by apply num_canon_rank]. Qed.

(** The state of [load] after some rows: the counters are still those of a new
    index. *)
Record loading (s : NI) (l : list (HPoint T)) : Prop := {
  ld_stores : points_of s l;
  ld_points x : x ∈ l ↔ ∃ v i, v ∈ ni_vals s i ∧ x = index_point v i;
  ld_ok v i : v ∈ ni_vals s i → num_ok v ∧ (N.of_nat i ≤ U32_MAX)%N;
  ld_counts : ni_points_count s = 0%N ∧ ni_max_values_per_point s = 1%N;
}.

(** One row, of a pair of the index. *)
Lemma load_row v i s l :
  num_ok v → (N.of_nat i ≤ U32_MAX)%N → loading s l →
  ∃ s' l', numeric_load_record (encode_key v (N.of_nat i), to_be_bytes 4 (Z.of_nat i)) s = Ok s' ∧ loading s' l' ∧
    ∀ x, x ∈ l' ↔ x = index_point v i ∨ x ∈ l.
Proof.
  intros Hv Hi [Hs Hp Hok Hc]. unfold numeric_load_record. cbn [fst snd].
  rewrite length_to_be_bytes, decide_True by done. cbn [mbind result_bind].
  rewrite num_decode by done. cbn [mbind result_bind unwrap].
  rewrite (from_to_be_bytes 4) by (unfold U32_MAX in Hi; cbn; lia). rewrite decide_True by lia. rewrite Nat2N.id.
  unfold vec_get.
  assert (grow i [] (ni_point_to_values s) !! i = Some (ni_vals s i)) as ->.
  { unfold ni_vals, numeric_get_values. rewrite lookup_grow. case_decide as Hlt.
    - apply lookup_lt_is_Some in Hlt as [y Hy]. by rewrite Hy.
    - rewrite decide_True by lia. by rewrite (proj2 (lookup_ge_None _ i)) by lia. }
  cbn [unwrap mbind result_bind]. unfold vec_set. rewrite decide_True by (rewrite length_grow; lia). cbn [mbind result_bind].
  destruct (add_to_map_ok (E:=OperationError) v i _ l Hv Hi Hs) as (mh' & l' & -> & Hs' & Hl'). cbn [mbind result_bind].
  set (ptv := <[i := _]> _). set (s' := set_map_histogram mh' (set_ni_values ptv s)).
  assert (∀ j, ni_vals s' j = if decide (j = i) then ni_vals s i ++ [num_canon v] else ni_vals s j) as Hvals
    by (intros j; apply default_grow_set).
  exists s', l'. split; [done|]. split; [|done]. split; [by destruct mh'| | |done].
  - intros x. rewrite Hl', Hp. split.
    + intros [->|(w & j & Hw & ->)].
      * exists (num_canon v), i. rewrite Hvals, decide_True by done. split; [apply elem_of_app; right; left|].
        unfold index_point. by rewrite num_canon_idem.
      * exists w, j. rewrite Hvals. split; [|done]. destruct (decide (j = i)) as [->|]; [|done]. apply elem_of_app. by left.
    + intros (w & j & Hw & ->). rewrite Hvals in Hw. destruct (decide (j = i)) as [->|]; [|eauto].
      apply elem_of_app in Hw as [Hw| ->%list_elem_of_singleton]; [eauto|]. left. unfold index_point. by rewrite num_canon_idem.
  - intros w j. rewrite Hvals. destruct (decide (j = i)) as [->|]; [|apply Hok].
    intros [Hw| ->%list_elem_of_singleton]%elem_of_app; [by apply Hok|]. split; [by apply num_canon_ok|done].
Qed.

Lemma load_rows rows s l :
  (∀ k b, (k, b) ∈ rows → ∃ v i, num_ok v ∧ (N.of_nat i ≤ U32_MAX)%N ∧ k = encode_key v (N.of_nat i) ∧ b = to_be_bytes 4 (Z.of_nat i)) →
  loading s l →
  ∃ s' l', res_fold numeric_load_record rows s = Ok s' ∧ loading s' l' ∧
    ∀ x, x ∈ l' ↔ (∃ v i, num_ok v ∧ (N.of_nat i ≤ U32_MAX)%N ∧ (encode_key v (N.of_nat i), to_be_bytes 4 (Z.of_nat i)) ∈ rows ∧
                           x = index_point v i) ∨ x ∈ l.
Proof.
  revert s l. induction rows as [|[k b] rows IH]; intros s l Hrows Hl.
  { exists s, l. split_and!; [done..|]. intros x. split; [by right|]. by intros [(v & i & _ & _ & []%not_elem_of_nil & _)|?]. }
  destruct (Hrows k b ltac:(left)) as (v & i & Hv & Hi & -> & ->).
  destruct (load_row v i s l Hv Hi Hl) as (s1 & l1 & Hrow & Hl1 & Heq1). cbn [res_fold]. rewrite Hrow. cbn [mbind result_bind].
  destruct (IH s1 l1) as (s2 & l2 & Hres & Hl2 & Heq2); [intros k b Hin; apply Hrows; by right|done|].
  exists s2, l2. split_and!; [done..|]. intros x. rewrite Heq2, Heq1. split.
  - intros [(w & j & Hw & Hj & Hin & ->)|[->|Hx]]; [left; exists w, j; split_and!; [..|by right|]; done|left|by right].
    exists v, i. split_and!; [done..|left|done].
  - intros [(w & j & Hw & Hj & Hin & ->)|Hx]; [|by right; right]. apply elem_of_cons in Hin as [[= He _]|Hin].
    + right. left. by apply encode_key_inj in He as [-> _].
    + left. exists w, j. by split_and!.
Qed.

Lemma count_fold ls (s : NI) :
  let s' := fold_left count_values ls s in
  ni_map s' = ni_map s ∧ ni_histogram s' = ni_histogram s ∧ ni_point_to_values s' = ni_point_to_values s ∧
  ni_points_count s' = (ni_points_count s + N.of_nat (sum_list_with nonempty ls))%N ∧
  (ni_max_values_per_point s ≤ ni_max_values_per_point s')%N ∧
  ∀ vs, vs ∈ ls → (N.of_nat (length vs) ≤ ni_max_values_per_point s')%N.
Proof.
  revert s. induction ls as [|vs ls IH]; intros s; [cbn; split_and!; [done..|lia|lia|by intros ? ?%not_elem_of_nil]|].
  cbn -[sum_list_with]. destruct (IH (count_values s vs)) as (-> & -> & -> & -> & Hm & Hall).
  assert (ni_points_count (count_values s vs) = (ni_points_count s + N.of_nat (nonempty vs))%N ∧
    ni_map (count_values s vs) = ni_map s ∧ ni_histogram (count_values s vs) = ni_histogram s ∧
    ni_point_to_values (count_values s vs) = ni_point_to_values s ∧
    (ni_max_values_per_point s ≤ ni_max_values_per_point (count_values s vs))%N ∧
    (N.of_nat (length vs) ≤ ni_max_values_per_point (count_values s vs))%N) as (-> & -> & -> & -> & H1 & H2).
  { destruct vs; cbn; split_and!; (done || lia). }
  cbn. split_and!; [done..|lia|lia|]. intros ws [->|Hw]%elem_of_cons; [lia|auto].
Qed.

Lemma numeric_load_spec s l db field :
  numeric_wf s l → numeric_synced s → ni_db s = db → ni_column s = numeric_storage_cf_name field →
  ∃ s', numeric_load (numeric_new db field) = Ok (true, s') ∧ numeric_wf s' l.
Proof using HRL.
  intros Hwf [Hcf Hview] <- Hcol. unfold numeric_load, has_column_family. cbn [ni_db ni_column numeric_new].
  rewrite <-Hcol, Hcf. cbn [mbind result_bind]. rewrite column_iter_eq. unfold get_column_family. rewrite Hcf. cbn [mbind result_bind].
  set (rows := iter_cf (ni_db s) (ni_column s)).
  assert (∀ k b, (k, b) ∈ rows ↔ ∃ v i, v ∈ ni_vals s i ∧ k = encode_key v (N.of_nat i) ∧ b = to_be_bytes 4 (Z.of_nat i)) as Hin.
  { intros k b. subst rows. rewrite iter_cf_view, elem_of_map_to_list. apply Hview. }
  destruct (load_rows rows (mkNumericIndex [] (ni_column s) (ni_db s) (histogram_new HISTOGRAM_MAX_BUCKET_SIZE HISTOGRAM_PRECISION) 0 1 []) [])
    as (s1 & l1 & Hload & Hl1 & Heq).
  { intros k b (v & i & Hv & -> & ->)%Hin. destruct (nw_ok _ _ Hwf v i Hv). eauto 6. }
  { split; [|set_solver|set_solver|done]. split; [split; constructor|constructor|done|]. split; [done|constructor]. }
  unfold numeric_new. rewrite <-Hcol, Hload. cbn [mbind result_bind]. eexists. split; [done|].
  assert (l1 = l) as ->.
  { apply (ascending_unique pt_ok pt_pos pt_inj); [apply Hl1|apply (nw_stores _ _ Hwf)|]. intros x.
    rewrite Heq, (nw_points _ _ Hwf). split.
    - intros [(v & i & Hv & Hi & Hr & ->)|[]%not_elem_of_nil]. apply Hin in Hr as (w & j & Hw & He & _).
      destruct (nw_ok _ _ Hwf w j Hw). exists w, j. split; [done|]. by apply encode_key_inj in He as [-> _].
    - intros (v & i & Hv & ->). left. exists v, i. destruct (nw_ok _ _ Hwf v i Hv). split_and!; [done..| |done]. apply Hin. eauto. }
  destruct (count_fold (ni_point_to_values s1) s1) as (E1 & E2 & E3 & E4 & E5 & E6). set (s2 := fold_left _ _ _) in *. clearbody s2.
  destruct Hl1 as [Hs1 Hp1 Hok1 [Hc1 Hm1]].
  assert (∀ i, ni_vals s2 i = ni_vals s1 i) as Hv2 by (intros i; unfold ni_vals, numeric_get_values; by rewrite E3).
  split; [by rewrite E1, E2| | | |].
  - intros x. rewrite Hp1. by setoid_rewrite Hv2.
  - intros v i. rewrite Hv2. apply Hok1.
  - by rewrite E4, E3, Hc1.
  - intros i. rewrite Hv2. split; [lia|]. unfold ni_vals, numeric_get_values.
    destruct (ni_point_to_values s1 !! i) as [vs|] eqn:Hi; cbn; [|lia]. apply E6. by apply list_elem_of_lookup_2 in Hi.
Qed.
End reload.

(** ** Runs of updates *)

Section numeric_ops.
Context {Num T DB : Type} `{!Numericable T, !Encodable T, !NumberLaws T} {HDB : RocksDB DB} {HRL : RocksLaws DB}.
Context (get_value : Value Num → option T) (field : string).
Context (get_value_ok : ∀ v x, get_value v = Some x → num_ok x).
Abbreviation NI := (NumericIndex T DB).

Definition run_numeric_op (op : map_op Num) : sm NI OperationError unit :=
  match op with
  | MAdd id payload => vi_add_point add_many_to_list get_value numeric_remove_point id payload
  | MRemove id => numeric_remove_point id
  end.

(** A point offset is a [u32]. *)
Definition numeric_op_ok (op : map_op Num) : Prop :=
  match op with MAdd id _ => (N.of_nat id ≤ U32_MAX)%N | MRemove _ => True end.

Lemma numeric_values_ok (v : MultiValue (Value Num)) : Forall num_ok (indexed_values get_value v).
Proof using get_value_ok.
  apply Forall_forall. intros x. unfold indexed_values. rewrite list_elem_of_bind. intros (w & Hx & _).
  assert (∀ w, x ∈ option_list (get_value w) → num_ok x) as Hopt.
  { intros w'. destruct (get_value w') as [y|] eqn:Hw; cbn; [intros ->%list_elem_of_singleton; eauto|by intros ?%not_elem_of_nil]. }
  destruct w as [| | | |a|]; cbn [value_elems] in Hx; try by apply Hopt in Hx.
  apply list_elem_of_omap in Hx as (y & _ & Hy). eauto.
Qed.

Lemma run_numeric_op_spec op (s : NI) l :
  numeric_wf s l → numeric_op_ok op →
  sm_wp (run_numeric_op op)
    (λ _ s', (∃ l', numeric_wf s' l') ∧ ni_column s' = ni_column s ∧
      (∀ j, ni_vals s' j = map_op_step get_value op (ni_vals s) j) ∧ (numeric_synced s → numeric_synced s')) (λ _ _, True) s.
Proof using HRL get_value_ok.
  intros Hwf Hok. destruct op as [i p|i]; cbn [run_numeric_op map_op_step] in *.
  - destruct (reindexes get_value p) eqn:Hr.
    2: { unfold sm_wp. destruct (vi_add_point_keeps add_many_to_list get_value numeric_remove_point i p s Hr) as [-> _]. split_and!; eauto. }
    rewrite vi_add_point_reindexes by done. apply sm_wp_bind. eapply sm_wp_mono; [by eapply numeric_remove_spec| |done].
    cbn. intros _ s1 ((l1 & Hwf1) & [Hc1 Hset1] & Hs1).
    eapply sm_wp_mono; [apply (numeric_add_spec i (indexed_values get_value p) s1 l1); [done| |apply numeric_values_ok|done]| |done].
    { by rewrite Hset1, decide_True. }
    cbn. intros _ s2 (Hwf2 & [Hc2 Hset2] & Hs2). split_and!; [done|by rewrite Hc2| |auto].
    intros j. rewrite Hset2, Hset1. by destruct (decide (j = i)).
  - eapply sm_wp_mono; [by eapply numeric_remove_spec| |done]. cbn. intros _ s1 (Hwf1 & [Hc1 Hset1] & Hs1). by split_and!.
Qed.

Lemma map_op_step_ext ops (f g : PointOffsetType → list T) :
  (∀ j, f j = g j) →
  ∀ j, fold_left (λ f op, map_op_step get_value op f) ops f j = fold_left (λ f op, map_op_step get_value op f) ops g j.
Proof.
  revert f g. induction ops as [|o l IH]; intros f g Hfg i; [done|]. simpl. apply IH.
  intros k. destruct o; simpl; [destruct (reindexes _ _)|]; rewrite ?Hfg; done.
Qed.

Lemma run_numeric_ops_spec ops (s s' : NI) l :
  sm_for run_numeric_op ops s = (Ok tt, s') → numeric_wf s l → numeric_synced s → Forall numeric_op_ok ops →
  (∃ l', numeric_wf s' l') ∧ numeric_synced s' ∧ ni_column s' = ni_column s ∧
  ∀ j, ni_vals s' j = fold_left (λ f op, map_op_step get_value op f) ops (ni_vals s) j.
Proof using HRL get_value_ok.
  revert s l. induction ops as [|op ops IH]; intros s l Hrun Hwf Hsync Hok.
  { injection Hrun as <-. split_and!; eauto. }
  simpl in Hrun. apply sm_bind_Ok_inv in Hrun as ([] & s1 & Hop & Hrun). apply Forall_cons in Hok as [Hok1 Hok].
  pose proof (sm_wp_Ok_inv _ _ _ _ _ _ (run_numeric_op_spec op s l Hwf Hok1) Hop) as ((l1 & Hwf1) & Hc1 & Hv1 & Hs1).
  destruct (IH s1 l1 Hrun Hwf1 (Hs1 Hsync) Hok) as (Hwf2 & Hs2 & Hc2 & Hv2).
  split_and!; [done..|by rewrite Hc2|]. intros j. rewrite Hv2. simpl. by apply map_op_step_ext.
Qed.

Lemma numeric_new_wf (db : DB) : numeric_wf (numeric_new (T:=T) db field) [].
Proof using.
  split; [|intros x; split; [by intros ?%not_elem_of_nil|]; by intros (v & i & []%not_elem_of_nil & _)|by intros v i ?%not_elem_of_nil|done|done]. split; [split; constructor|constructor|done|]. split; [done|constructor].
Qed.

Lemma numeric_new_synced db0 db :
  recreate_column_family (numeric_storage_cf_name field) db0 = (Ok tt, db) → numeric_synced (numeric_new (T:=T) db field).
Proof using HRL.
  intros (Hv & Hh & _)%recreate_Ok. split; [done|]. intros k b. cbn. rewrite Hv, lookup_empty. split; [done|].
  intros (v & i & Hin & _). by apply not_elem_of_nil in Hin.
Qed.

Lemma nw_map (s : NI) l : numeric_wf s l → ni_map s = entry <$> l.
Proof. intros Hwf. exact (st_map _ _ (nw_stores _ _ Hwf)). Qed.

Lemma same_points_nonempty (s s' : NI) l i : numeric_wf s l → numeric_wf s' l → nonempty (ni_vals s' i) = nonempty (ni_vals s i).
Proof.
  assert (∀ (s s' : NI) v, numeric_wf s l → numeric_wf s' l → v ∈ ni_vals s i → ni_vals s' i ≠ []) as Hother.
  { intros s1 s2 v H1 H2 Hv He. assert (index_point v i ∈ l) as Hl by (apply (nw_points _ _ H1); eauto).
    apply (nw_points _ _ H2) in Hl as (w & j & Hw & [= _ Hj]). apply Nat2N.inj in Hj as <-. rewrite He in Hw. by apply not_elem_of_nil in Hw. }
  intros H1 H2. destruct (ni_vals s' i) as [|x vs'] eqn:E1, (ni_vals s i) as [|y vs] eqn:E2; try done.
  - destruct (Hother s s' y H1 H2); [rewrite E2; left|done].
  - destruct (Hother s' s x H2 H1); [rewrite E1; left|done].
Qed.

(** C35: a numeric index keeps its ordered map, its histogram and the values of
    the points in step, and survives a restart.  After any successful run of
    updates from an empty column, the values of each point are those its last
    update put there; a range lookup does not panic and finds exactly the
    points with a value within the bounds it uses; the histogram counts all
    keys of the map, and its borders are keys with the number of keys between
    them; and an index loaded from the column has the same map and counter. *)
Theorem numeric_index_ops db0 db ops (s : NI)
  (Hdb : recreate_column_family (numeric_storage_cf_name field) db0 = (Ok tt, db))
  (Hrun : sm_for run_numeric_op ops (numeric_new db field) = (Ok tt, s))
  (Hok : Forall numeric_op_ok ops) :
  (∀ i, ni_vals s i = fold_left (λ f op, map_op_step get_value op f) ops (λ _, []) i) ∧
  (∀ fc range, fc_range fc = Some range → range_ok (T:=T) range →
    ∃ points, numeric_filter (E:=OperationError) s fc = Ok (Some points) ∧
      ∀ i, i ∈ points ↔ ∃ v, v ∈ ni_vals s i ∧ in_start range v ∧ in_end range v) ∧
  (∃ l, ni_map s = entry <$> l ∧ hist_ok (ni_histogram s) l) ∧
  ∃ s', numeric_load (numeric_new (ni_db s) field) = Ok (true, s') ∧ ni_map s' = ni_map s ∧ ni_points_count s' = ni_points_count s.
Proof using HRL get_value_ok.
  destruct (run_numeric_ops_spec ops (numeric_new db field) s [] Hrun (numeric_new_wf db)) as ((l & Hwf) & Hsync & Hc & Hv);
    [by eapply numeric_new_synced|done|].
  split_and!.
  - intros i. rewrite Hv. by apply map_op_step_ext.
  - intros fc range Hfc Hr. by eapply numeric_filter_points.
  - exists l. by destruct (nw_stores _ _ Hwf).
  - destruct (numeric_load_spec s l (ni_db s) field Hwf Hsync eq_refl Hc) as (s' & Hload & Hwf'). exists s'. split; [done|].
    split; [by rewrite (nw_map s' l), (nw_map s l)|].
    rewrite (nw_count _ _ Hwf'), (nw_count _ _ Hwf). f_equal. apply (sum_with_ext nonempty eq_refl). intros i.
    by apply (same_points_nonempty s s' l).
Qed.
End numeric_ops.

(** ** Witness *)

(** Numbers with two binary digits after the point. *)
Definition quarters (z : Z) : spec_float := binary_normalize 53 1024 z (-2) false.

Definition price_ops : list (map_op spec_float) :=
  [MAdd 0 (MSingle (Some (VArray [VNumber (quarters 6); VString "n/a"; VNumber (quarters 10)])));
   MAdd 1 (MSingle (Some (VNumber (quarters 10)))); MAdd 3 (MMultiple [VNumber (quarters (-12)); VNumber (quarters 9)]);
   MAdd 2 (MSingle (Some (VNumber (quarters 8)))); MRemove 1].

Definition price_db : MemDB := {[ "price_numeric" := ∅ ]}.
Definition price_get_value : Value spec_float → option spec_float := @numeric_float_get_value _ float_numbers.
Definition price_range : Range :=
  {| range_lt := Some (quarters 10); range_gt := None; range_gte := Some (quarters 8); range_lte := None |}.

Lemma price_get_value_ok v x : price_get_value v = Some x → num_ok x.
Proof. destruct v; try done. cbn. destruct (f64_okb _) eqn:Hn; [|done]. intros [= <-]. by apply f64_okb_ok. Qed.

Lemma price_range_ok : range_ok (T:=spec_float) price_range.
Proof.
  intros b Hb x ->. rewrite !elem_of_cons, elem_of_nil in Hb.
  destruct Hb as [Hb|[Hb|[Hb|[Hb|[]]]]]; [| | |]; vm_compute in Hb; try done; injection Hb as ->; by vm_compute.
Qed.

Definition prices (ops : list (map_op spec_float)) : result OperationError unit * NumericIndex spec_float MemDB :=
  sm_for (run_numeric_op price_get_value) ops (numeric_new price_db "price").

Lemma prices_run ops : (prices ops).1 = Ok tt → sm_for (run_numeric_op price_get_value) ops (numeric_new price_db "price") = (Ok tt, (prices ops).2).
Proof. unfold prices. destruct (sm_for _ _ _) as [r s]. cbn. by intros ->. Qed.

Lemma price_db_empty : recreate_column_family "price_numeric" (∅ : MemDB) = (Ok tt, price_db).
Proof. vm_compute. reflexivity. Qed.

Definition price_index : NumericIndex spec_float MemDB := (prices price_ops).2.

Lemma numeric_index_ops_witness :
  numeric_filter (E:=OperationError) price_index (new_range "price" price_range) = Ok (Some [2; 3]) ∧
  ∃ s', numeric_load (numeric_new (T:=spec_float) (ni_db price_index) "price") = Ok (true, s') ∧ ni_map s' = ni_map price_index.
Proof.
  destruct (numeric_index_ops price_get_value "price" price_get_value_ok ∅ price_db price_ops price_index)
    as (_ & Hf & _ & s' & Hload & Hmap & _).
  - exact price_db_empty.
  - apply prices_run. vm_compute. reflexivity.
  - repeat constructor; by vm_compute.
  - split; [|exists s'; split; [exact Hload|exact Hmap]].
    destruct (Hf (new_range "price" price_range) price_range eq_refl price_range_ok) as (points & Hp & _). vm_compute; reflexivity.
Defined.
