(* ===== verification/NumericEstimate.v ===== *)
(** * Estimates of ranges and payload blocks of a numeric index

    What the estimates of the histogram are worth, and that the blocks a
    numeric index proposes cover the whole range of values. *)

From stdpp Require Import base gmap strings list sorting sets.
From Stdlib Require Import ZArith Lia SpecFloat.
From S2P Require Import Prelude KeyEncoding Types Rocks JsonPath Text Filters Estimator.
From S2P Require Import FieldIndex FieldIndexEnum FieldIndexLaws Segment Histogram HistogramSpec.
From S2P Require Import NumericIndex NumericSpec NumericIndexSpec NumericReload.

(** ** The upper bound of an estimate *)

Section upper.
Context {T : Type} `{!Numericable T, !Encodable T, !NumberLaws T}.
Abbreviation Border := (HPoint T * Counts)%type.
Implicit Types B : list Border.

(** A border with the values up to the next one. *)
Definition border_weight (b : Border) : N := c_right b.2 + 1.
Fixpoint weight (B : list Border) : N :=
  match B with [] => 0 | b :: B => border_weight b + weight B end.

Lemma weight_app A B : weight (A ++ B) = (weight A + weight B)%N.
Proof. induction A as [|a A IH]; cbn; lia. Qed.

Lemma sum_windows_max f t (B : list Border) : (sum_windows f t B).2 = weight (removelast B).
Proof.
  induction B as [|a B IH]; [done|]. destruct B as [|b B]; [done|].
  change (removelast (a :: b :: B)) with (a :: removelast (b :: B)). cbn [weight].
  rewrite <-IH. change (sum_windows f t (a :: b :: B)) with (let '(x, y, z) := estimate_window f t a b in
    let '(x', y', z') := sum_windows f t (b :: B) in (x + x', y + y', z + z')%N).
  assert ((estimate_window f t a b).2 = border_weight a) as Hw.
  { unfold estimate_window, border_weight. destruct (SFeqb _ _); [done|]. destruct (N.eqb_spec (c_right a.2) 0) as [->|]; done. }
  destruct (estimate_window f t a b) as [[x y] z], (sum_windows f t (b :: B)) as [[x' y'] z']. cbn in *. by subst.
Qed.

(** The data of a list of borders. *)
Lemma part_weight n B m l : part n B m l → size_N l = weight B.
Proof.
  induction 1 as [|p n gap bs m l _ IH]; [done|]. cbn. rewrite size_N_cons, size_N_app, IH. unfold border_weight. cbn. lia.
Qed.

Lemma size_filter {A} (P : A → Prop) `{!∀ x, Decision (P x)} (l : list A) : (size_N (base.filter P l) ≤ size_N l)%N.
Proof. unfold size_N. pose proof (length_filter P l). lia. Qed.

Abbreviation ascending_pts := (ascending pt_ok pt_pos).

(** *** Ranges *)

(** [above] holds from some position on. *)
Definition upward (above : HPoint T → bool) : Prop :=
  ∀ p q, pt_ok p → pt_ok q → (pt_pos p ≤ pt_pos q)%Z → above p = true → above q = true.
Definition downward (below : HPoint T → bool) : Prop :=
  ∀ p q, pt_ok p → pt_ok q → (pt_pos p ≤ pt_pos q)%Z → below q = true → below p = true.

Lemma cut_upward above B :
  upward above → ascending_pts B.*1 →
  base.filter (λ b : Border, above b.1 = false) B ++ base.filter (λ b : Border, above b.1 = true) B = B.
Proof.
  intros Hup. induction B as [|b B IH]; [done|]. rewrite fmap_cons, ascending_cons. intros (Hb & HB & Hlt). rewrite !filter_cons.
  destruct (above b.1) eqn:Hab; [rewrite decide_False, decide_True by done|rewrite decide_True, decide_False by done].
  - assert (∀ x, x ∈ B → above x.1 = true) as Hall.
    { intros x Hx%(list_elem_of_fmap_2 fst). apply (Hup b.1); [done| |by specialize (Hlt _ Hx); lia|done].
      destruct HB as [Ho _]. rewrite Forall_forall in Ho. auto. }
    rewrite list_filter_none, list_filter_all; [done|done|]. intros x Hx. by rewrite Hall.
  - cbn. f_equal. by apply IH.
Qed.

Lemma part_from n b B m l p :
  part n (b :: B) m l → ascending_pts l → p ∈ l → pt_ok b.1 ∧ (pt_pos b.1 ≤ pt_pos p)%Z.
Proof.
  intros (gap & l' & _ & -> & _)%part_first (Hb & _ & Hlt)%ascending_cons [->|Hp]%elem_of_cons; split; try done.
  specialize (Hlt p Hp). lia.
Qed.

(** How many values a range can have at most. *)
Lemma range_count above below B l B1 B2 B3 :
  upward above → downward below → part 0 B 0 l → ascending_pts l → B = B1 ++ B2 ++ B3 →
  (∀ b, b ∈ B1 → above b.1 = false) → (∀ b, b ∈ B3 → below b.1 = false) →
  (size_N (base.filter (λ p, above p && below p = true) l) ≤ weight (option_list (last B1)) + weight B2)%N ∧
  ((∃ b, head B2 = Some b ∧ ∀ p, pt_ok p → above p = true → (pt_pos b.1 ≤ pt_pos p)%Z) →
    (size_N (base.filter (λ p, above p && below p = true) l) ≤ weight B2)%N).
Proof.
  intros Hup Hdown Hp Ha -> H1 H3. apply part_app in Hp as (k1 & l1 & l23 & Hp1 & Hp & ->).
  apply part_app in Hp as (k2 & l2 & l3 & Hp2 & Hp3 & ->). rewrite !filter_app, !size_N_app.
  pose proof Ha as (Ha1 & Ha23 & Hlt1)%ascending_app. pose proof Ha23 as (Ha2 & Ha3 & _)%ascending_app.
  assert (∀ l p, ascending_pts l → p ∈ l → pt_ok p) as Hok by (intros l p [Ho _]; rewrite Forall_forall in Ho; auto).
  assert (size_N (base.filter (λ p, above p && below p = true) l2) ≤ weight B2)%N as Hw2.
  { rewrite <-(part_weight _ _ _ _ Hp2). apply size_filter. }
  assert (base.filter (λ p, above p && below p = true) l3 = []) as ->.
  { apply list_filter_none. intros p Hpl [_ Hb]%andb_true_iff. destruct B3 as [|b B3]; [inversion Hp3; subst; by apply not_elem_of_nil in Hpl|].
    destruct (part_from _ _ _ _ _ p Hp3 Ha3 Hpl) as [Hbo Hle]. specialize (H3 b ltac:(left)).
    rewrite (Hdown b.1 p) in H3; [done|done|exact (Hok _ _ Ha3 Hpl)|done|done]. }
  change (size_N []) with 0%N. split.
  - destruct B1 as [|x B1 _] using rev_ind; [inversion Hp1; subst; cbn [last option_list weight]; rewrite filter_nil; change (@size_N (HPoint T) []) with 0%N; lia|]. rewrite last_snoc.
    apply part_app in Hp1 as (k & l1' & lx & Hp1 & Hpx & ->). rewrite filter_app, size_N_app.
    assert (base.filter (λ p, above p && below p = true) l1' = []) as ->.
    { apply list_filter_none. intros p Hpl [Hab _]%andb_true_iff. pose proof Ha1 as (Ha1' & Hax & Hltx)%ascending_app.
      pose proof Hpx as (gap & l' & _ & -> & _)%part_first. specialize (Hltx p x.1 Hpl ltac:(left)).
      specialize (H1 x ltac:(apply elem_of_app; right; left)). rewrite (Hup p x.1) in H1; [done|exact (Hok _ _ Ha1' Hpl)| |lia|done].
      by apply ascending_cons in Hax as [? _]. }
    pose proof (part_weight _ _ _ _ Hpx) as Hwx. pose proof (size_filter (λ p, above p && below p = true) lx).
    change (weight (option_list (Some x))) with (weight [x]). rewrite Hwx in *. change (size_N []) with 0%N. lia.
  - intros (b & Hb & Habove). destruct B2 as [|b' B2]; [done|]. injection Hb as ->.
    assert (base.filter (λ p, above p && below p = true) l1 = []) as ->; [|change (size_N []) with 0%N; lia].
    apply list_filter_none. intros p Hpl [Hab _]%andb_true_iff. pose proof Hp2 as (gap & l' & _ & -> & _)%part_first.
    specialize (Habove p (Hok _ _ Ha1 Hpl) Hab). specialize (Hlt1 p b.1 Hpl ltac:(left)). lia.
Qed.

(** *** The bounds of an estimate *)

Definition bound_ok (b : Bound T) : Prop :=
  match b with Included v | Excluded v => num_ok v | Unbounded => True end.

Definition point_bound_ok (b : Bound (HPoint T)) : Prop :=
  match b with Included a | Excluded a => num_ok (hp_val a) ∧ (hp_idx a ≤ u64_max)%N | Unbounded => True end.

Lemma start_point_ok b : bound_ok b → point_bound_ok (start_point b).
Proof. by destruct b. Qed.
Lemma end_point_ok b : bound_ok b → point_bound_ok (end_point b).
Proof. by destruct b. Qed.

(** Bounds compare by position. *)
Definition above_Z (b : Bound (HPoint T)) (z : Z) : bool :=
  match b with Included a => (pt_pos a <=? z)%Z | Excluded a => (pt_pos a <? z)%Z | Unbounded => true end.
Definition below_Z (b : Bound (HPoint T)) (z : Z) : bool :=
  match b with Included a => (z <=? pt_pos a)%Z | Excluded a => (z <? pt_pos a)%Z | Unbounded => true end.

Lemma above_pos b p : point_bound_ok b → pt_ok p → above_start hp_compare b p = above_Z b (pt_pos p).
Proof.
  intros Hb (Hp & _ & Hip). destruct b as [a|a|]; cbn; [destruct Hb as [Ha Hia]..|done]; unfold hp_compare;
    rewrite num_compare, rank_idx_compare by done; fold (pt_pos a); fold (pt_pos p);
    [rewrite Z.leb_compare|rewrite Z.ltb_compare]; by destruct (_ ?= _)%Z.
Qed.

Lemma below_pos b p : point_bound_ok b → pt_ok p → below_end hp_compare b p = below_Z b (pt_pos p).
Proof.
  intros Hb (Hp & _ & Hip). destruct b as [a|a|]; cbn; [destruct Hb as [Ha Hia]..|done]; unfold hp_compare;
    rewrite num_compare, rank_idx_compare by done; fold (pt_pos a); fold (pt_pos p);
    [rewrite Z.leb_compare|rewrite Z.ltb_compare]; by destruct (_ ?= _)%Z.
Qed.

Lemma start_upward b : point_bound_ok b → upward (above_start hp_compare b).
Proof. intros Hb p q Hp Hq Hle. rewrite !above_pos by done. destruct b; cbn; [lia|lia|done]. Qed.

Lemma end_downward b : point_bound_ok b → downward (below_end hp_compare b).
Proof. intros Hb p q Hp Hq Hle. rewrite !below_pos by done. destruct b; cbn; [lia|lia|done]. Qed.

(** The border before the range, or the first border when it is the start of
    the range itself. *)
Lemma left_border_spec from B B1 B' :
  bound_ok from → ascending_pts B.*1 → Forall small B.*1 → B = B1 ++ B' →
  (∀ b, b ∈ B1 → above_start hp_compare (start_point from) b.1 = false) →
  (∀ b, b ∈ B' → above_start hp_compare (start_point from) b.1 = true) →
  let left := if is_unbounded (start_point from) then None else last (bt_select hp_compare Unbounded (start_point from) B) in
  left = last B1 ∨
  ∃ b, left = Some b ∧ head B' = Some b ∧ ∀ p, pt_ok p → above_start hp_compare (start_point from) p = true → (pt_pos b.1 ≤ pt_pos p)%Z.
Proof.
  intros Hb Ha Hs -> H1 H2. pose proof (start_point_ok _ Hb) as Hbs. pose proof Ha as [Ho _].
  rewrite fmap_app, Forall_app in Ho, Hs. destruct Ho as [Ho1 Ho2], Hs as [Hs1 Hs2].
  rewrite !Forall_fmap, !Forall_forall in Ho1, Ho2, Hs1, Hs2. cbn in Ho1, Ho2, Hs1, Hs2.
  assert (base.filter (λ b : Border, above_start hp_compare Unbounded b.1 && below_end hp_compare (start_point from) b.1 = true) B1 = B1) as Hf1.
  { apply list_filter_all. intros b Hin. specialize (H1 b Hin). rewrite above_pos in H1 by auto. cbn. rewrite below_pos by auto.
    specialize (Hs1 b Hin). destruct from as [v|v|]; cbn in *; [lia| |done].
    unfold small, pt_pos, U32_MAX, u64_max in *. cbn in *. lia. }
  intros left. subst left. destruct (is_unbounded (start_point from)) eqn:Hu.
  { left. destruct B1 as [|b B1]; [done|]. specialize (H1 b ltac:(left)). by destruct from. }
  unfold bt_select. rewrite filter_app, Hf1. destruct B' as [|b0 B']; [left; by rewrite filter_nil, app_nil_r|].
  assert (base.filter (λ b : Border, above_start hp_compare Unbounded b.1 && below_end hp_compare (start_point from) b.1 = true) B' = []) as Hf2.
  { apply list_filter_none. intros b Hin. cbn. rewrite below_pos by (try apply Ho2; by try right).
    pose proof (H2 b0 ltac:(left)) as Hb0. rewrite above_pos in Hb0 by (try apply Ho2; by try left).
    rewrite fmap_app, fmap_cons, ascending_app, ascending_cons in Ha. destruct Ha as (_ & (_ & _ & Hlt) & _).
    specialize (Hlt b.1 ltac:(by apply list_elem_of_fmap_2)). destruct from as [v|v|]; cbn in *; [lia|lia|done]. }
  rewrite filter_cons, Hf2. destruct (decide _) as [Hd|Hd]; [right|left; by rewrite app_nil_r].
  exists b0. rewrite last_snoc. split_and!; [done..|]. intros p Hp Hab. rewrite above_pos in Hab by done.
  cbn in Hd. rewrite below_pos in Hd by (try apply Ho2; by try left). destruct from as [v|v|]; cbn in *; [lia|lia|done].
Qed.

(** The borders before, within and after a range. *)
Lemma cut_range from to B :
  point_bound_ok from → point_bound_ok to → ascending_pts B.*1 →
  ∃ B1 B2 B3, B = B1 ++ B2 ++ B3 ∧ bt_select hp_compare from to B = B2 ∧
    (∀ b, b ∈ B1 → above_start hp_compare from b.1 = false) ∧ (∀ b, b ∈ B2 ++ B3 → above_start hp_compare from b.1 = true) ∧
    (∀ b, b ∈ B3 → below_end hp_compare to b.1 = false).
Proof.
  intros Hf Ht Ha. pose proof (cut_upward _ B (start_upward _ Hf) Ha) as Hcut.
  set (B1 := base.filter (λ b : Border, above_start hp_compare from b.1 = false) B) in *.
  set (B' := base.filter (λ b : Border, above_start hp_compare from b.1 = true) B) in *.
  assert (upward (λ p, negb (below_end hp_compare to p))) as Hup.
  { intros p q Hp Hq Hle. rewrite !negb_true_iff, <-!not_true_iff_false. intros Hn Hq'. apply Hn. by apply (end_downward _ Ht p q). }
  assert (ascending_pts B'.*1) as Ha'.
  { eapply ascending_sublist; [|exact Ha]. rewrite <-Hcut, fmap_app. by apply sublist_inserts_l. }
  pose proof (cut_upward _ B' Hup Ha') as Hcut'.
  exists B1, (base.filter (λ b : Border, negb (below_end hp_compare to b.1) = false) B'),
    (base.filter (λ b : Border, negb (below_end hp_compare to b.1) = true) B').
  split_and!.
  - by rewrite Hcut', Hcut.
  - unfold bt_select, B'. rewrite list_filter_filter. apply list_filter_iff. intros b. rewrite andb_true_iff, negb_false_iff. tauto.
  - intros b [? _]%list_elem_of_filter. done.
  - rewrite Hcut'. by intros b [? _]%list_elem_of_filter.
  - intros b [?%negb_true_iff _]%list_elem_of_filter. done.
Qed.

Lemma part_end n B x l : part n (B ++ [x]) 0 l → border_weight x = 1%N.
Proof.
  intros (k & l1 & l2 & _ & (gap & l' & Hc & _ & Hp)%part_first & _)%part_app. apply part_last in Hp as [-> _].
  unfold border_weight. by rewrite Hc.
Qed.

Lemma removelast_weight (L : list Border) :
  weight L = (weight (removelast L) + weight (option_list (last L)))%N.
Proof.
  destruct L as [|x L _] using rev_ind; [done|]. rewrite removelast_last, last_snoc, weight_app. cbn. lia.
Qed.

Lemma last_weight n B1 B2 l (left : option Border) :
  part n (B1 ++ B2) 0 l → left = last B1 ∨ B2 ≠ [] → (weight (option_list (last (option_list left ++ B2))) ≤ 1)%N.
Proof.
  intros Hp Hleft. destruct B2 as [|x B2 _] using rev_ind.
  - destruct Hleft as [->|?]; [|done]. rewrite !app_nil_r in *. destruct B1 as [|x B1 _] using rev_ind; [cbn; lia|].
    rewrite last_snoc. cbn. rewrite (part_end _ _ _ _ Hp). lia.
  - rewrite app_assoc, last_snoc. cbn. rewrite app_assoc in Hp. rewrite (part_end _ _ _ _ Hp). lia.
Qed.

(** The upper bound of an estimate counts every value of the range, if the
    range does not end after the last border: the number of values within the
    bounds is at most the maximum given, plus one for a range without an upper
    bound, whose last value the source does not count. *)
Lemma estimate_max_bound {E} h l from to mn ex mx :
  hist_ok h l → ascending_pts l → Forall small l → bound_ok from → bound_ok to →
  nm_ltb (bound_val nm_max_value to) (bound_val nm_min_value from) = false →
  (to = Unbounded ∨ bt_select hp_compare (end_point to) Unbounded (borders h) ≠ []) →
  estimate (E:=E) h from to = Ok (mn, ex, mx) →
  (size_N (base.filter (λ p, above_start hp_compare (start_point from) p && below_end hp_compare (end_point to) p = true) l)
    ≤ mx + if is_unbounded to then 1 else 0)%N.
Proof.
  intros [_ Hp] Ha Hs Hf Ht Hlt Hend. assert (ascending_pts (borders h).*1) as HaB by (eapply ascending_sublist; [by eapply part_keys|done]).
  assert (Forall small (borders h).*1) as HsB by (eapply Forall_sublist; [by eapply part_keys|done]).
  pose proof (start_point_ok _ Hf) as Hf'. pose proof (end_point_ok _ Ht) as Ht'.
  destruct (cut_range (start_point from) (end_point to) (borders h) Hf' Ht' HaB) as (B1 & B2 & B3 & HB & Hsel & H1 & H2 & H3).
  pose proof (left_border_spec from (borders h) B1 (B2 ++ B3) Hf HaB HsB HB H1 H2) as Hleft. cbv zeta in Hleft.
  destruct (range_count _ _ (borders h) l B1 B2 B3 (start_upward _ Hf') (end_downward _ Ht') Hp Ha HB H1 H3) as [Hc1 Hc2].
  unfold estimate. rewrite Hlt. cbv zeta. unfold bt_range. destruct (bad_range _ _ _); [done|]. cbn [mbind result_bind]. rewrite Hsel.
  set (left := if is_unbounded (start_point from) then None else _) in *. set (count := size_N _) in *.
  assert (count ≤ weight (option_list left ++ B2))%N as Hcount.
  { rewrite weight_app. destruct Hleft as [->|(b & -> & Hb & Hlow)]; [done|]. destruct B2 as [|b2 B2].
    - subst count. rewrite list_filter_none; [change (@size_N (HPoint T) []) with 0%N; lia|]. intros p Hpl [Hab Hbe]%andb_true_iff.
      destruct B3 as [|b3 B3]; [done|]. injection Hb as ->. specialize (H3 b ltac:(left)).
      destruct Ha as [Ho _], HaB as [HoB _]. rewrite HB, !Forall_fmap, Forall_forall in HoB. rewrite Forall_forall in Ho.
      rewrite (end_downward _ Ht' b.1 p) in H3; [done|apply HoB; set_solver|auto|auto|done].
    - injection Hb as ->. etransitivity; [apply Hc2; eauto|]. lia. }
  intros Hres. assert (mx = weight (removelast (option_list left ++ B2 ++ option_list
      (if is_unbounded (end_point to) then None else head (bt_select hp_compare (end_point to) Unbounded (borders h)))))) as ->.
  { injection Hres as Hres. rewrite <-(sum_windows_max (bound_val nm_min_value from) (bound_val nm_max_value to)). by rewrite Hres. }
  assert (is_unbounded (end_point to) = is_unbounded to) as -> by by destruct to. destruct (is_unbounded to) eqn:Hu.
  - rewrite app_nil_r. pose proof (removelast_weight (option_list left ++ B2)) as Hw.
    assert (B3 = []) as ->. { destruct to; [done..|]. destruct B3 as [|b B3]; [done|]. by specialize (H3 b ltac:(left)). }
    rewrite app_nil_r in HB, Hleft. assert (weight (option_list (last (option_list left ++ B2))) ≤ 1)%N; [|lia].
    apply (last_weight 0 B1 B2 l); [by rewrite <-HB|]. destruct Hleft as [->|(b & _ & Hb & _)]; [by left|right]. by destruct B2.
  - destruct Hend as [->|Hend]; [done|]. destruct (bt_select hp_compare (end_point to) Unbounded (borders h)) as [|r R]; [done|].
    change (option_list (head (r :: R))) with [r]. rewrite (app_assoc (option_list left) B2), removelast_last. lia.
Qed.
End upper.

(** ** Estimates of an index *)

Lemma nonempty_indices {A} (ls : list (list A)) :
  ∃ idxs, NoDup idxs ∧ length idxs = sum_list_with nonempty ls ∧ ∀ i, i ∈ idxs → default [] (ls !! i) ≠ [].
Proof.
  induction ls as [|x ls (idxs & Hnd & Hlen & Hin)]; [by exists []; split_and!; [constructor|..|intros i ?%not_elem_of_nil]|].
  assert (NoDup (S <$> idxs)) as HndS by by apply NoDup_fmap_2; [apply _|].
  assert (∀ i, i ∈ S <$> idxs → default [] ((x :: ls) !! i) ≠ []) as HinS by (intros i (j & -> & Hj)%list_elem_of_fmap; by apply Hin).
  destruct x as [|y x].
  - exists (S <$> idxs). cbn. rewrite length_fmap. by split_and!.
  - exists (0 :: (S <$> idxs)). cbn. rewrite length_fmap, Hlen. split_and!; [|done|].
    + constructor; [|done]. by intros (j & ? & _)%list_elem_of_fmap.
    + intros i [->|Hi]%elem_of_cons; [done|by apply HinS].
Qed.

Section index.
Context {T DB : Type} `{!Numericable T, !Encodable T, !NumberLaws T, !FloatFunctions}.
Abbreviation NI := (NumericIndex T DB).

Lemma points_le_values (s : NI) l : numeric_wf s l → (ni_points_count s ≤ N.of_nat (length (ni_map s)))%N.
Proof.
  intros Hwf. rewrite (nw_count _ _ Hwf). destruct (nonempty_indices (ni_point_to_values s)) as (idxs & Hnd & <- & Hin).
  assert (idxs ⊆+ (λ p, N.to_nat (hp_idx p)) <$> l) as Hsub.
  { apply NoDup_submseteq; [done|]. intros i Hi%Hin. change (default [] (ni_point_to_values s !! i)) with (ni_vals s i) in Hi.
    destruct (ni_vals s i) as [|v vs] eqn:Hv; [done|]. apply list_elem_of_fmap. exists (index_point v i). cbn. split; [by rewrite Nat2N.id|].
    apply (nw_points _ _ Hwf). exists v, i. rewrite Hv. split; [left|done]. }
  apply submseteq_length in Hsub. rewrite length_fmap in Hsub.
  destruct (nw_stores _ _ Hwf) as [_ _ Hmap _]. cbn in Hmap. rewrite Hmap, length_fmap. lia.
Qed.

(** The bounds of a range as the estimate takes them. *)
Definition upper_bound (range : Range) : Bound T :=
  match range_lte range, range_lt range with
  | Some lte, _ => Included (nm_from_f64 lte)
  | None, Some lt => Excluded (nm_from_f64 lt)
  | None, None => Unbounded
  end.
Definition lower_bound (range : Range) : Bound T :=
  match range_gte range, range_gt range with
  | Some gte, _ => Included (nm_from_f64 gte)
  | None, Some gt => Excluded (nm_from_f64 gt)
  | None, None => Unbounded
  end.

(** [gt: x, lt: x], up to the conversion of the bounds to values. *)
Definition degenerate (lower upper : Bound T) : bool :=
  match lower, upper with Excluded g, Excluded h => (num_rank g =? num_rank h)%Z | _, _ => false end.

Lemma degenerate_bad lower upper :
  bound_ok lower → bound_ok upper → nm_ltb (bound_val nm_max_value upper) (bound_val nm_min_value lower) = false →
  bad_range hp_compare (start_point lower) (end_point upper) = degenerate lower upper.
Proof.
  destruct lower as [g|g|], upper as [h|h|]; try done; cbn; intros Hg Hh; rewrite num_ltb by done; intros Hlt%Z.ltb_ge;
    unfold hp_compare; cbn; rewrite num_compare by done; destruct (Z.compare_spec (num_rank g) (num_rank h)) as [Heq|Hl|Hl];
    rewrite ?(proj2 (Z.eqb_eq _ _)), ?(proj2 (Z.eqb_neq _ _)) by lia; (done || lia).
Qed.

Lemma range_cardinality_of {E} (s : NI) l range :
  numeric_wf s l → match estimate (E:=E) (ni_histogram s) (lower_bound range) (upper_bound range) with
                   | Ok _ => ∃ e, range_cardinality (E:=E) s range = Ok e
                   | Err err => range_cardinality (E:=E) s range = Err err
                   | Panic => range_cardinality (E:=E) s range = Panic
                   end.
Proof.
  intros Hwf. unfold range_cardinality. fold (lower_bound range) (upper_bound range).
  destruct (estimate _ _ _) as [[[mn ex] mx]|e|]; [|done..]. cbn [mbind result_bind]. unfold estimate_multi_value_selection_cardinality.
  pose proof (points_le_values s l Hwf). rewrite (proj2 (N.ltb_ge _ _)) by done. cbn [mbind result_bind]. eauto.
Qed.

(** An estimate panics on a degenerate range and gives a result on every other one. *)
Lemma range_cardinality_outcome {E} (s : NI) l range :
  numeric_wf s l → bound_ok (lower_bound range) → bound_ok (upper_bound range) →
  if degenerate (lower_bound range) (upper_bound range) then range_cardinality (E:=E) s range = Panic
  else ∃ e, range_cardinality (E:=E) s range = Ok e.
Proof.
  intros Hwf Hl Hu. pose proof (range_cardinality_of (E:=E) s l range Hwf) as Hr. unfold estimate in Hr.
  destruct (nm_ltb _ _) eqn:Hlt.
  - destruct (degenerate _ _) eqn:Hd; [|done]. exfalso. unfold degenerate in Hd.
    destruct (lower_bound range) as [g|g|], (upper_bound range) as [h|h|]; try done. cbn in *. apply Z.eqb_eq in Hd.
    rewrite num_ltb in Hlt by done. apply Z.ltb_lt in Hlt. lia.
  - unfold bt_range in Hr. rewrite degenerate_bad in Hr by done. by destruct (degenerate _ _).
Qed.

Lemma range_cardinality_clauses {E} (s : NI) range e : range_cardinality (E:=E) s range = Ok e → primary_clauses e = [].
Proof.
  unfold range_cardinality. destruct (estimate _ _ _) as [[[mn ex] mx]|err|]; [|done..]. cbn [mbind result_bind].
  destruct (estimate_multi_value_selection_cardinality _ _ _); [|done..]. by intros [= <-].
Qed.

Lemma range_bounds_ok range : range_ok (T:=T) range → bound_ok (lower_bound range) ∧ bound_ok (upper_bound range).
Proof.
  intros Hr. unfold lower_bound, upper_bound, range_ok in *. split.
  - destruct (range_gte range) as [x|] eqn:H1; [|destruct (range_gt range) as [x|] eqn:H2; [|done]]; cbn; (eapply Hr; [|done]); set_solver.
  - destruct (range_lte range) as [x|] eqn:H1; [|destruct (range_lt range) as [x|] eqn:H2; [|done]]; cbn; (eapply Hr; [|done]); set_solver.
Qed.
End index.

(** ** Payload blocks of a float index *)

Section blocks.
Context {DB : Type} `{!FloatFunctions}.
Abbreviation NI := (NumericIndex spec_float DB).
Abbreviation after h b := (bt_select hp_compare (start_point b) Unbounded (borders h)).

Lemma reach_size_spec (half r : N) (L : list (HPoint spec_float * Counts)) :
  match reach_size half r L with
  | Included u => ∃ b, b ∈ L ∧ hp_val b.1 = u
  | Excluded _ => False
  | Unbounded => True
  end.
Proof.
  revert r. induction L as [|[p c] L IH]; intros r; [done|]. cbn. destruct (_ <? _)%N; [exists (p, c); by split; [left|]|].
  specialize (IH (r + c_left c)%N). destruct (reach_size _ _ _); [|done..]. destruct IH as (b & Hb & <-). exists b. by split; [right|].
Qed.

(** The next bound is beyond the last one, and leaves fewer borders. *)
Lemma range_by_size_spec (h : Histogram spec_float) l lower half :
  hist_ok h l → ascending pt_ok pt_pos l → bound_ok lower →
  match get_range_by_size h lower half with
  | Included u => f64_ok u ∧ (∀ v, lower = Excluded v → (f64_rank v < f64_rank u)%Z) ∧ length (after h (Excluded u)) < length (after h lower)
  | Excluded _ => False
  | Unbounded => True
  end.
Proof.
  intros [_ Hp] Ha Hlow. unfold get_range_by_size. pose proof (reach_size_spec half 0 (after h lower)) as Hr.
  destruct (reach_size _ _ _) as [u|u|]; [|done..]. destruct Hr as (b & Hb & Hu).
  assert (∀ x, x ∈ borders h → pt_ok x.1) as HoB.
  { assert (ascending pt_ok pt_pos (borders h).*1) as [Ho _] by (eapply ascending_sublist; [by eapply part_keys|done]).
    rewrite Forall_fmap, Forall_forall in Ho. auto. }
  pose proof Hb as [Hab Hin]%list_elem_of_filter. pose proof (HoB b Hin) as (Hok & _ & Hidx). rewrite Hu in Hok.
  apply andb_true_iff in Hab as [Hab _]. rewrite above_pos in Hab by (by apply start_point_ok || by apply HoB).
  split_and!; [done| |].
  - intros v ->. cbn in Hab. unfold pt_pos in Hab. cbn in Hab. rewrite Hu in Hab. unfold u64_max in *. lia.
  - assert (¬ (above_start hp_compare (start_point (Excluded u)) b.1 && below_end hp_compare Unbounded b.1 = true)) as Hnot.
    { rewrite above_pos by (done || by apply HoB). cbn. unfold pt_pos. cbn. rewrite Hu. rewrite andb_true_r. unfold u64_max in *. lia. }
    assert (after h (Excluded u) = base.filter (λ x : HPoint spec_float * Counts,
      above_start hp_compare (start_point (Excluded u)) x.1 && below_end hp_compare Unbounded x.1 = true) (after h lower)) as ->;
      [|by eapply length_filter_lt].
    unfold bt_select. rewrite list_filter_filter. apply filter_ext_in. intros x Hx. cbn [below_end]. rewrite !andb_true_r. split; [|tauto].
    intros Hxu. split; [done|]. apply (start_upward (start_point lower) (start_point_ok _ Hlow) b.1); [by apply HoB..| |].
    + rewrite above_pos in Hxu by (done || by apply HoB). apply Z.ltb_lt in Hxu.
      assert (pt_pos b.1 ≤ pt_pos (mkHPoint u u64_max))%Z; [|lia]. unfold pt_pos. cbn [hp_val hp_idx]. rewrite Hu. unfold u64_max in *. lia.
    + by rewrite above_pos by (by apply start_point_ok || by apply HoB).
Qed.

(** The values a block is about. *)
Definition block_has (x : spec_float) (b : PayloadBlockCondition) : Prop :=
  ∃ r, fc_range (block_condition b) = Some r ∧ check_range r x = true.

(** The values that are not above a bound. *)
Definition at_most (b : Bound spec_float) (x : spec_float) : Prop :=
  match b with Excluded v => (f64_rank x ≤ f64_rank v)%Z | _ => False end.

Lemma block_range_has key pre upper card x :
  f64_ok x → bound_ok pre → bound_ok upper → (∀ v, pre ≠ Included v) → ¬ at_most pre x →
  (∀ u, upper = Included u → (f64_rank x ≤ f64_rank u)%Z) → (∀ u, upper ≠ Excluded u) →
  block_has x (mkPayloadBlock (new_range key (block_range pre upper)) card).
Proof.
  intros Hx Hpre Hup Hni Hpost Hle Hne. exists (block_range pre upper). split; [done|]. unfold check_range, block_range. cbn.
  destruct pre as [v|v|]; [by destruct (Hni v)|..]; (destruct upper as [u|u|]; [|by destruct (Hne u)|]); cbn in *; rewrite ?andb_true_r;
    rewrite ?SFltb_rank, ?SFleb_rank by done; rewrite ?andb_true_iff, ?Z.ltb_lt, ?Z.leb_le; try split; try lia; by apply Hle.
Qed.

(** A round of the loop: what it is given covers the values up to [pre]. *)
Definition round_ok (lower : Bound spec_float) (pre : option (Bound spec_float)) (conds : list PayloadBlockCondition) : Prop :=
  match pre with
  | None => lower = Unbounded
  | Some p => bound_ok p ∧ (∀ v, p ≠ Included v) ∧ (∃ u, lower = Excluded u ∧ ∀ w, p = Excluded w → (f64_rank w < f64_rank u)%Z) ∧
      ∀ x, f64_ok x → at_most p x → Exists (block_has x) conds
  end.

Lemma blocks_loop_spec {E} (s : NI) l key half fuel lower pre conds :
  numeric_wf s l → bound_ok lower → length (after (ni_histogram s) lower) < fuel → round_ok lower pre conds →
  ∃ blocks, payload_blocks_loop (E:=E) fuel s half key lower pre conds = Ok (Some blocks) ∧
    ∀ x, f64_ok x → Exists (block_has x) blocks.
Proof.
  intros Hwf. destruct (nw_stores _ _ Hwf) as [Ha _ _ Hh]. cbn in Hh. revert lower pre conds.
  induction fuel as [|fuel IH]; intros lower pre conds Hlow Hfuel Hround; [lia|]. cbn [payload_blocks_loop].
  pose proof (range_by_size_spec (ni_histogram s) l lower half Hh Ha Hlow) as Hup.
  set (upper := get_range_by_size (ni_histogram s) lower half) in *. clearbody upper.
  assert (bound_ok upper ∧ ∀ u, upper ≠ Excluded u) as [Hupok Hupne] by (destruct upper as [u|u|]; naive_solver).
  destruct pre as [p|].
  - destruct Hround as (Hp & Hpi & (u0 & -> & Hlt) & Hcov).
    assert (lower_bound (block_range p upper) = p ∧ upper_bound (block_range p upper) = upper) as [Hlb Hub] by by destruct p, upper.
    pose proof (range_cardinality_outcome (E:=E) s l (block_range p upper) Hwf) as Hcard. rewrite Hlb, Hub in Hcard.
    assert (degenerate p upper = false) as Hnd by (destruct p, upper as [u|u|]; try done; by destruct (Hupne u)).
    rewrite Hnd in Hcard. destruct (Hcard Hp Hupok) as [card ->].
    cbn [mbind result_bind]. set (blk := mkPayloadBlock _ _).
    assert (∀ x, f64_ok x → (∀ u, upper = Included u → (f64_rank x ≤ f64_rank u)%Z) → Exists (block_has x) (conds ++ [blk])) as Hcov'.
    { intros x Hx Hle. apply Exists_app. assert (at_most p x ∨ ¬ at_most p x) as [Hm|Hm].
      { destruct p as [v|v|]; cbn; [right; intros []| |right; intros []]. destruct (decide (f64_rank x ≤ f64_rank v)%Z); [by left|by right]. }
      - left. by apply Hcov.
      - right. constructor. by apply block_range_has. }
    destruct upper as [u|u|]; [|by destruct (Hupne u)|].
    + destruct Hup as (Hu & Hr & Hlen). apply IH; [done|lia|]. split_and!; [done|done|exists u; split; [done|]|].
      * intros w [= <-]. by apply Hr.
      * intros x Hx Hm. apply Hcov'; [done|]. intros u' [= <-]. cbn in Hm. specialize (Hr u0 eq_refl). lia.
    + exists (conds ++ [blk]). split; [done|]. intros x Hx. by apply Hcov'.
  - cbn in Hround. subst lower. destruct upper as [u|u|]; [|by destruct (Hupne u)|]; cbn [is_unbounded mbind result_bind].
    + destruct Hup as (Hu & _ & Hlen). apply IH; [done|lia|]. split_and!; [done|done|exists u; by split|done].
    + eexists. split; [done|]. intros x Hx. apply Exists_app. right. constructor. exists whole_range. by split.
Qed.

(** The payload blocks of a float index are found and leave no value out.
    For an index that holds any points and any threshold, the loop over the
    histogram ends within one round more than there are borders, no estimate
    in it panics, and every number satisfies the condition of some block. *)
Lemma payload_blocks_cover {E} (s : NI) l threshold key :
  numeric_wf s l →
  ∃ blocks, numeric_payload_blocks (E:=E) s threshold key = Ok (Some blocks) ∧ ∀ x, f64_ok x → Exists (block_has x) blocks.
Proof.
  intros Hwf. unfold numeric_payload_blocks. eapply blocks_loop_spec; [done|done| |done].
  unfold bt_select. pose proof (length_filter (λ b : HPoint spec_float * Counts,
    above_start hp_compare (start_point Unbounded) b.1 && below_end hp_compare Unbounded b.1 = true) (borders (ni_histogram s))). lia.
Qed.
End blocks.

(** ** Examples *)

(** The estimates below do not depend on the values of these. *)
Definition some_functions : FloatFunctions := {| f64_ln x := x; f64_exp x := x |}.
#[local] Existing Instance some_functions.

Definition price_of (i : PointOffsetType) (z : Z) : map_op spec_float := MAdd i (MSingle (Some (VNumber (quarters z)))).
Definition quarters_range (lt gt gte lte : option Z) : Range :=
  {| range_lt := quarters <$> lt; range_gt := quarters <$> gt; range_gte := quarters <$> gte; range_lte := quarters <$> lte |}.

(** The points found and the least and greatest number estimated. *)
Definition found_and_estimated (s : NumericIndex spec_float MemDB) (r : Range) :
    OperationResult (option (list PointOffsetType)) * OperationResult (option (N * N)) :=
  (numeric_filter s (new_range "price" r),
   match numeric_estimate_cardinality (E:=OperationError) s (new_range "price" r) with
   | Ok e => Ok ((λ e, (est_min e, est_max e)) <$> e)
   | Err err => Err err
   | Panic => Panic
   end).

(** The estimates of ranges are not what the callers and tests take them
    for.  The range [gt: x, lt: x] panics.  The last value of the index is not
    counted: a range with the only point has an estimate of none.  A border
    that is the lower bound itself, at offset 0, is counted twice: two points
    are estimated as at least four, and a range of five values as at least
    eight and at most five.  And a range up to such a border at the end leaves
    out all values before it: five points are estimated as none. *)
Lemma range_estimates_fail :
  found_and_estimated (prices [price_of 0 4]).2 (quarters_range (Some 4%Z) (Some 4%Z) None None) = (Ok (Some []), Panic) ∧
  found_and_estimated (prices [price_of 0 4]).2 (quarters_range None None (Some 0%Z) None) = (Ok (Some [0]), Ok (Some (0, 0)%N)) ∧
  (let s := (prices [price_of 0 4; price_of 1 8; price_of 2 12; price_of 3 16; price_of 5 20]).2 in
   found_and_estimated s (quarters_range None None (Some 4%Z) (Some 10%Z)) = (Ok (Some [0; 1]), Ok (Some (4, 5)%N)) ∧
   found_and_estimated s (quarters_range None None (Some 4%Z) (Some 20%Z)) = (Ok (Some [0; 1; 2; 3; 5]), Ok (Some (8, 5)%N))) ∧
  found_and_estimated (prices [price_of 0 100; price_of 1 4; price_of 2 8; price_of 3 12; price_of 4 16; price_of 5 20]).2
    (quarters_range (Some 100%Z) None None None) = (Ok (Some [1; 2; 3; 4; 5]), Ok (Some (0, 0)%N)).
Proof. vm_compute. repeat split. Qed.

(** *** Witnesses *)

Definition some_ops : list (map_op spec_float) := (λ i, price_of i (Z.of_nat i)) <$> seq 0 24.
Definition some_prices : NumericIndex spec_float MemDB := (prices some_ops).2.

Lemma some_prices_wf : ∃ l, numeric_wf some_prices l.
Proof.
  destruct (run_numeric_ops_spec price_get_value price_get_value_ok some_ops (numeric_new price_db "price") some_prices []) as [Hwf _].
  - apply prices_run. vm_compute. reflexivity.
  - apply numeric_new_wf.
  - exact (numeric_new_synced "price" ∅ price_db price_db_empty).
  - unfold some_ops. apply Forall_fmap, Forall_forall. intros i [_ Hi]%elem_of_seq. cbn. unfold U32_MAX. lia.
  - exact Hwf.
Qed.

Lemma quarters_21 : f64_ok (quarters 21).
Proof. split; [reflexivity|discriminate]. Qed.

Lemma some_estimate :
  estimate (E:=OperationError) (ni_histogram some_prices) (Included (quarters 6)) (Excluded (quarters 20)) = Ok (0, 15, 22)%N.
Proof. vm_compute. reflexivity. Qed.

