(* ===== verification/NumericKind.v ===== *)
(** * The float index in a payload index

    The numeric index of floats satisfies what the payload index relies on of
    a field index, for range conditions with bounds that are numbers, at most
    one bound on each side, and not the same number in [gt] and [lt], on which
    the estimate panics. *)

From stdpp Require Import base gmap strings list sorting sets.
From Stdlib Require Import ZArith Lia SpecFloat.
From S2P Require Import Prelude KeyEncoding Types Rocks IdTracker JsonPath Text Filters Estimator.
From S2P Require Import FieldIndex FieldIndexEnum QueryOptimizer FieldIndexLaws Segment Histogram HistogramSpec.
From S2P Require Import NumericIndex NumericSpec NumericIndexSpec NumericEstimate.

(** JSON has no NaN. *)
Class JsonFloats (Num : Type) `{!JsonNumber Num} : Prop :=
  json_float n x : as_f64 n = Some x → f64_ok x.

Lemma float_numbers_floats : JsonFloats spec_float (JsonNumber0 := float_numbers).
Proof. intros n x. cbn. destruct (f64_okb n) eqn:Hn; [|done]. intros [= <-]. by apply f64_okb_ok. Qed.

(** The bounds are numbers, there is one on each side at most, and it is not [gt: x, lt: x]. *)
Definition plain_range (r : Range) : bool :=
  forallb (λ b, match b with Some x => f64_okb x | None => true end) [range_lt r; range_gt r; range_lte r; range_gte r]
  && negb (bool_decide (is_Some (range_lt r)) && bool_decide (is_Some (range_lte r)))
  && negb (bool_decide (is_Some (range_gt r)) && bool_decide (is_Some (range_gte r)))
  && match range_gt r, range_lt r with Some g, Some h => negb (SFeqb g h) | _, _ => true end.

Class PlainRanges (fc_ok : FieldCondition → bool) : Prop :=
  plain_ranges fc r : fc_ok fc = true → fc_range fc = Some r → plain_range r = true.

Lemma plain_range_check r x :
  plain_range r = true → f64_ok x → range_ok (T:=spec_float) r ∧ (check_range r x = true ↔ in_start r x ∧ in_end r x).
Proof.
  unfold plain_range. rewrite !andb_true_iff, !negb_true_iff, !andb_false_iff. intros [[[Hb Hl] Hg] _] Hx.
  assert (range_ok (T:=spec_float) r) as Hr.
  { intros b Hin y ->. rewrite forallb_forall in Hb. apply f64_okb_ok. exact (Hb (Some y) (proj1 (list_elem_of_In _ _) Hin)). }
  split; [done|]. unfold check_range, in_start, in_end.
  destruct (range_lt r) as [lt|] eqn:E1, (range_lte r) as [lte|] eqn:E2; [by destruct Hl|..];
    (destruct (range_gt r) as [gt|] eqn:E3, (range_gte r) as [gte|] eqn:E4; [by destruct Hg|..]);
    repeat match goal with
    | E : range_lt r = Some _ |- _ => pose proof (range_ok_at _ _ _ Hr E ltac:(left)); clear E
    | E : range_gt r = Some _ |- _ => pose proof (range_ok_at _ _ _ Hr E ltac:(right; left)); clear E
    | E : range_lte r = Some _ |- _ => pose proof (range_ok_at _ _ _ Hr E ltac:(right; right; left)); clear E
    | E : range_gte r = Some _ |- _ => pose proof (range_ok_at _ _ _ Hr E ltac:(right; right; right; left)); clear E
    end; cbn [map_or nm_from_f64 f64_numericable num_rank f64_laws num_ok] in *;
    rewrite ?SFltb_rank, ?SFleb_rank, ?andb_true_r, ?andb_true_iff, ?Z.ltb_lt, ?Z.leb_le by done; tauto.
Qed.

Lemma plain_not_degenerate r : plain_range r = true → degenerate (T:=spec_float) (lower_bound r) (upper_bound r) = false.
Proof.
  intros Hp. destruct (plain_range_check r (S754_zero false) Hp) as [Hr _]; [done|]. unfold plain_range in Hp.
  rewrite !andb_true_iff, !negb_true_iff, !andb_false_iff in Hp. destruct Hp as [[[_ Hl] Hg] Hd]. unfold lower_bound, upper_bound, degenerate.
  destruct (range_gte r) as [gte|]; [done|]. destruct (range_gt r) as [g|] eqn:Hgt; [|done].
  destruct (range_lte r) as [lte|]; [done|]. destruct (range_lt r) as [h|] eqn:Hlt; [|done]. cbn.
  rewrite <-SFeqb_rank; [by apply negb_true_iff|..]; eapply Hr; [|done| |done]; set_solver.
Qed.

Section float_kind.
Context {Num NI GI TI DB : Type} `{!JsonNumber Num, !JsonFloats Num} `{!GeoOps} {HDB : RocksDB DB} {HRL : RocksLaws DB} `{!FloatFunctions}.
Context `{!IndexValues Z NI, !IndexValues GeoPoint GI, !TextChecks TI}.
Context (fc_ok : FieldCondition → bool) {fc_ok_one : SingleConditions fc_ok} {fc_ok_plain : PlainRanges fc_ok}.
Abbreviation NF := (NumericIndex spec_float DB).
Abbreviation float_value := (numeric_float_get_value (Num:=Num)).

Definition float_reflects (s : NF) (f : Content Num) : Prop :=
  (∃ l, numeric_wf s l) ∧ ∀ i, ni_vals s i = indexed_values float_value (f i).

Lemma float_values_ok (v : MultiValue (Value Num)) : Forall f64_ok (indexed_values float_value v).
Proof using JsonFloats0.
  assert (∀ w x, float_value w = Some x → f64_ok x) as Hget by (intros [] x; try done; apply json_float).
  apply Forall_forall. intros x. unfold indexed_values. rewrite list_elem_of_bind. intros (w & Hx & _).
  assert (∀ w, x ∈ option_list (float_value w) → f64_ok x) as Hopt.
  { intros w'. destruct (float_value w') as [y|] eqn:Hw; cbn; [intros ->%list_elem_of_singleton; by eapply Hget|by intros ?%not_elem_of_nil]. }
  destruct w as [| | | |a|]; cbn [value_elems] in Hx; try by apply Hopt in Hx.
  apply list_elem_of_omap in Hx as (y & _ & Hy). by eapply Hget.
Qed.

Lemma float_reflects_set s s' i vs v f g :
  float_reflects s g → (∃ l, numeric_wf s' l) → ni_values_set i vs s s' → vs = indexed_values float_value v →
  (∀ j, j ≠ i → g j = f j) → float_reflects s' (content_set i v f).
Proof.
  intros [_ Hv] Hl [_ Hset] -> Hne. split; [done|]. intros j. rewrite Hset. unfold content_set.
  destruct (decide (j = i)); [done|]. by rewrite Hv, Hne.
Qed.

Lemma float_kind_add s f i v :
  float_reflects s f →
  sm_wp (numeric_add_point float_value i v)
    (λ _ s', float_reflects s' (if reindexes float_value v then content_set i v f else f)) (λ _ _, True) s.
Proof using HRL JsonFloats0.
  intros Hr. pose proof Hr as [[l Hwf] Hv]. unfold numeric_add_point. destruct (N.leb_spec (N.of_nat i) U32_MAX) as [Hi|Hi]; [|done].
  destruct (reindexes float_value v) eqn:Hre.
  2: { unfold sm_wp. destruct (vi_add_point_keeps add_many_to_list float_value numeric_remove_point i v s Hre) as [-> _]. done. }
  rewrite vi_add_point_reindexes by done. apply sm_wp_bind. eapply sm_wp_mono; [by apply (numeric_remove_spec i s l)| |done].
  cbn. intros _ s1 ((l1 & Hwf1) & Hset1 & _).
  eapply sm_wp_mono; [apply (numeric_add_spec i (indexed_values float_value v) s1 l1); [done| |apply float_values_ok|done]| |done].
  - destruct Hset1 as [_ Hj]. by rewrite Hj, decide_True.
  - cbn. intros _ s2 (Hwf2 & Hset2 & _).
    eapply (float_reflects_set s1 s2 i _ v f (content_set i (MSingle None) f)); [|done|exact Hset2|done|].
    + eapply (float_reflects_set s s1 i [] _ f f); eauto.
    + intros j Hj. unfold content_set. by rewrite decide_False.
Qed.

Lemma check_float_range fc r (c : MultiValue (Value Num)) :
  fc_range fc = Some r → one_condition fc = true →
  check_content fc c = existsb (check_range r) (indexed_values float_value c).
Proof.
  intros Hr Hone. apply (check_range_values float_value _ r); [done..|]. intros [| | | | |]; try done. cbn. unfold map_or.
  by destruct (as_f64 _); cbn; rewrite ?orb_false_r.
Qed.

#[export] Instance float_kind_laws :
  KindLaws fc_ok NF (kind_checker (NI:=NI) (GI:=GI) (TI:=TI) (DB:=DB) FloatIndex).
Proof using HRL fc_ok_one fc_ok_plain JsonFloats0.
  refine {| kl_reflects := float_reflects; kl_covers _ := reindexes float_value |}.
  - intros s f g Hfg [Hwf Hv]. split; [done|]. intros i. by rewrite <-Hfg.
  - done.
  - done.
  - intros s i v f Hc [Hwf Hv]. split; [done|]. intros j. rewrite Hv. unfold content_set. destruct (decide (j = i)); [|done].
    symmetry. by apply (vi_add_point_keeps (St:=unit) (λ _ _, mret tt) float_value (λ _, mret tt) i v tt).
  - intros s f i v. apply float_kind_add.
  - intros s f i Hr. pose proof Hr as [[l Hwf] _]. eapply sm_wp_mono; [by apply (numeric_remove_spec i s l)| |done].
    cbn. intros _ s' (Hwf' & Hset & _). by eapply (float_reflects_set s s' i [] _ f f).
  - intros s f [[l Hwf] Hv]. cbn. unfold numeric_recreate, on_ni_db. apply sm_wp_zoom.
    pose proof (recreate_no_panic (ni_column s) (ni_db s)) as Hp. unfold sm_wp.
    destruct (recreate_column_family _ _) as [[[]|e|] db]; [|done|done]. split; [|done]. exists l. by destruct Hwf; split.
  - intros s f fc pts i [[l Hwf] Hv] Hok. cbn. destruct (fc_range fc) as [r|] eqn:Hr.
    2: { unfold numeric_filter. rewrite Hr. done. }
    pose proof (fc_ok_plain fc r Hok Hr) as Hplain.
    destruct (numeric_filter_points (E:=OperationError) s l fc r Hwf Hr) as (points & -> & Hpts).
    { by apply (plain_range_check r (S754_zero false)). }
    intros [= <-]. rewrite Hpts, Hv, (check_float_range fc r) by (done || by apply fc_ok_one). rewrite existsb_exists.
    setoid_rewrite <-list_elem_of_In. pose proof (float_values_ok (f i)) as Hfl. rewrite Forall_forall in Hfl.
    split; intros (x & Hx & Hb); exists x; (split; [done|]); by apply plain_range_check; auto.
  - intros s f fc chk i [_ Hv] Hok Hchk. unfold kind_checker, field_condition_index in Hchk.
    assert ((fc_range fc ≫= get_range_checkers (NI:=NI) (GI:=GI) (TI:=TI) (DB:=DB) (FloatIndex s)) = Some chk) as Hr.
    { destruct (fc_match fc) as [[[]| |[]]|], (fc_range fc), (fc_geo_radius fc), (fc_geo_bounding_box fc); done. }
    destruct (fc_range fc) as [r|] eqn:Hfc; [|done]. injection Hr as <-.
    rewrite (check_float_range fc r) by (done || by apply fc_ok_one). rewrite <-Hv.
    unfold any_value, index_get_values, numeric_values, ni_vals. by destruct (numeric_get_values s i).
  - intros s f fc [[l Hwf] _] Hok. cbn. unfold numeric_estimate_cardinality. destruct (fc_range fc) as [r|] eqn:Hr; [|by exists None].
    pose proof (fc_ok_plain fc r Hok Hr) as Hplain. pose proof (range_cardinality_outcome (E:=OperationError) s l r Hwf) as Hout.
    rewrite plain_not_degenerate in Hout by done. destruct Hout as [e He]; [by apply range_bounds_ok, plain_range_check with (S754_zero false)..|].
    rewrite He. eexists. split; [done|]. intros e' [= <-]. cbn. rewrite (range_cardinality_clauses _ _ _ He). by repeat constructor.
Defined.
End float_kind.
