(* ===== verification/NumericQuery.v ===== *)
(** * Range queries through a float index

    The payload index of [StructPayloadIndex.v] with the numeric index of
    [NumericIndex.v] as its index of floats: the interfaces of both meet here. *)

From stdpp Require Import base gmap strings list sorting.
From Stdlib Require Import ZArith Lia SpecFloat.
From S2P Require Import Prelude KeyEncoding Types Rocks IdTracker JsonPath Text Filters PayloadStorage Estimator.
From S2P Require Import FieldIndex FieldIndexEnum QueryOptimizer VisitedPool FieldIndexLaws StructPayloadIndex PayloadIndexSpec.
From S2P Require Import Segment Histogram HistogramSpec NumericIndex NumericSpec NumericIndexSpec NumericReload.
From S2P Require Import NumericEstimate NumericKind.

(** One condition, and if it is a range, a plain one. *)
Definition plain_condition (fc : FieldCondition) : bool :=
  one_condition fc && match fc_range fc with Some r => plain_range r | None => true end.

#[export] Instance plain_condition_single : SingleConditions plain_condition.
Proof. by intros fc [? _]%andb_true_iff. Qed.

#[export] Instance plain_condition_ranges : PlainRanges plain_condition.
Proof. intros fc r [_ Hr]%andb_true_iff Hfc. by rewrite Hfc in Hr. Qed.

Section query.
Context {Num NI GI TI DB T PS : Type} `{!JsonNumber Num, !JsonFloats Num} `{!GeoOps} {HDB : RocksDB DB} {HRL : RocksLaws DB}.
Context `{!IndexOps Num NI, !IndexOps Num GI, !IndexOps Num TI} `{!FloatFunctions}.
Context `{!IndexValues Z NI, !IndexValues GeoPoint GI, !TextChecks TI}.
Context `{!IdTracker T, !IdTrackerLaws T}.
Context `{!PayloadStorage Num PS, !PayloadScan Num PS, !PayloadStorageLaws Num PS}.
Abbreviation NF := (NumericIndex spec_float DB).
Abbreviation FI := (FieldIndex NI NF GI TI DB).
Context `{!KindLaws plain_condition NI (kind_checker (IntIndex : NI → FI))}.
Context `{!KindLaws plain_condition GI (kind_checker (GeoIndex : GI → FI))}.
Context `{!KindLaws plain_condition TI (kind_checker (FullTextIndex : TI → FI))}.
Abbreviation SPI := (StructPayloadIndex PS FI DB).

(** Range queries through a float index.  In a payload index whose float
    fields are indexed by [NumericIndex], a query whose ranges have plain
    bounds returns exactly the live points whose payload passes the filter,
    each once, whether the points come from the ordered map of the index, from
    another index or from a scan; a point added later under an indexed field is
    found by the same queries. *)
Lemma float_query_exact t (s s' : SPI) i p filter
  (Hs : index_wf plain_condition s) (Hnew : ps_payload_ptr (spi_payload s) i = None)
  (Hrun : struct_assign i p s = (Ok tt, s')) (Ht : tracker_wf t) (Hdead : dead_empty t s')
  (Hne : no_empty_should_filter filter = true)
  (Hok : all_leaves (leaf_ok plain_condition) (CFilter filter) = true) :
  ∃ l pool, struct_query_points t filter s' = (Ok l, set_pool pool s') ∧ NoDup l ∧
    ∀ j, j ∈ l ↔ is_Some (external_id t j) ∧
      check_payload (if decide (j = i) then p else payload_of s j) (external_id t j) filter = true.
Proof using All.
  pose proof (sm_wp_Ok_inv _ _ _ _ _ _ (struct_assign_new_spec plain_condition i p s Hs Hnew) Hrun) as [Hs' Hset].
  destruct (struct_query_spec plain_condition t s' filter Hs' Ht Hdead Hne Hok) as (l & pool & Hq & _ & Hnd & Hl).
  exists l, pool. split_and!; [done..|]. intros j. rewrite Hl. unfold payload_of. rewrite Hset. by destruct (decide (j = i)).
Qed.
End query.

(** ** A range that panics *)

Section panics.
Context {Num NI GI TI DB T PS : Type} `{!JsonNumber Num} `{!GeoOps} {HDB : RocksDB DB}.
Context `{!IndexOps Num NI, !IndexOps Num GI, !IndexOps Num TI} `{!FloatFunctions}.
Context `{!IndexValues Z NI, !IndexValues GeoPoint GI, !TextChecks TI}.
Context `{!IdTracker T} `{!PayloadStorage Num PS, !PayloadScan Num PS}.
Abbreviation NF := (NumericIndex spec_float DB).
Abbreviation FI := (FieldIndex NI NF GI TI DB).
Abbreviation SPI := (StructPayloadIndex PS FI DB).

(** The condition is one of the filter, at any depth and in any clause. *)
Inductive occurs (c : Condition) : Condition → Prop :=
| occurs_here : occurs c c
| occurs_in should must must_not c' :
    c' ∈ opt_list should ++ opt_list must ++ opt_list must_not → occurs c c' → occurs c (CFilter (mkFilter should must must_not)).

Lemma occurs_leaf c c' (q : Condition → bool) : occurs c c' → is_leaf c = true → all_leaves q c' = true → q c = true.
Proof.
  induction 1 as [|s m n c' Hin _ IH]; intros Hleaf; [by destruct c|]. cbn [all_leaves]. rewrite !andb_true_iff.
  intros [[Hs Hm] Hn]. apply IH; [done|].
  assert (∀ o, c' ∈ opt_list o → match o with Some l => forallb (all_leaves q) l | None => true end = true → all_leaves q c' = true) as Ho.
  { intros [l|] Hl; [|by apply not_elem_of_nil in Hl]. intros Hall. by apply (proj1 (forallb_forall _ _) Hall), list_elem_of_In. }
  rewrite !elem_of_app in Hin. naive_solver.
Qed.

(** An estimation is a value or a panic, as the methods have it. *)
Definition estimates_no_error (t : T) (s : SPI) : Prop := ∀ c err, condition_cardinality t s c ≠ Err err.

Lemma panics_everywhere t (s : SPI) c filter :
  estimates_no_error t s → is_leaf c = true → condition_cardinality t s c = Panic → occurs c (CFilter filter) →
  struct_estimate_cardinality t s filter = Panic.
Proof.
  intros Hno Hleaf Hp Hocc. unfold struct_estimate_cardinality.
  pose proof (estimate_condition_outcome (condition_cardinality t s) (estimated (condition_cardinality t s))
    (λ c, is_ok (condition_cardinality t s c)) (total_points t) (CFilter filter)) as Hout.
  change (estimate_filter ?f ?n filter) with (estimate_condition f n (CFilter filter)). rewrite Hout.
  - destruct (all_leaves _ _) eqn:Hall; [|done]. pose proof (occurs_leaf c _ _ Hocc Hleaf Hall) as Hq. cbn in Hq. by rewrite Hp in Hq.
  - intros c' _. unfold estimated. specialize (Hno c'). destruct (condition_cardinality t s c') as [e|err|]; [done|by destruct (Hno err)|done].
Qed.

Lemma numeric_no_error {E} (x : NF) fc (err : E) : numeric_estimate_cardinality x fc ≠ Err err.
Proof.
  unfold numeric_estimate_cardinality. destruct (fc_range fc) as [r|]; [|done]. unfold range_cardinality.
  destruct (estimate _ _ _) as [[[mn ex] mx]|e|] eqn:Hest; [|exfalso|done].
  - cbn [mbind result_bind]. unfold estimate_multi_value_selection_cardinality. by destruct (_ <? _)%N.
  - revert Hest. unfold estimate, bt_range. destruct (nm_ltb _ _); [done|]. by destruct (bad_range _ _ _).
Qed.

(** So it is in an index of floats only. *)
Lemma floats_no_error t (s : SPI) :
  (∀ key indexes, spi_field_indexes s !! key = Some indexes → Forall (λ index, ∃ x, index = FloatIndex x) indexes) →
  estimates_no_error t s.
Proof.
  intros Hs c err. destruct c as [fc|key|key|ids|f]; [|done..]. cbn [condition_cardinality]. unfold estimate_field_condition.
  destruct (spi_field_indexes s !! fc_key fc) as [indexes|] eqn:Hl; [|done]. specialize (Hs _ _ Hl). clear Hl.
  induction Hs as [|? ? [x ->] _ IH]; [done|]. cbn [first_estimation fi_estimate_cardinality].
  pose proof (numeric_no_error x fc err) as Hno. change (io_estimate_cardinality x fc) with (numeric_estimate_cardinality (E:=OperationError) x fc).
  destruct (numeric_estimate_cardinality x fc) as [[e|]|e|]; [done|exact IH| |done]. cbn. by intros [= ->].
Qed.

(** The lookup sees that such a range is empty. *)
Lemma degenerate_lookup (r : Range) :
  range_ok (T:=spec_float) r → degenerate (T:=spec_float) (lower_bound r) (upper_bound r) = true →
  empty_bounds (filter_start (T:=spec_float) r) (filter_end (T:=spec_float) r) = true.
Proof.
  intros Hr. pose proof (range_bounds_ok r Hr) as [Hl Hu]. revert Hl Hu. unfold lower_bound, upper_bound, filter_start, filter_end.
  destruct (range_gte r), (range_lte r), (range_gt r), (range_lt r); try done.
  cbn [bound_ok degenerate]. intros Hg Hh Heq%Z.eqb_eq. unfold empty_bounds, bound_key.
  rewrite (key_compare_Z (T:=spec_float)) by (done || unfold U32_MIN, U32_MAX; lia). rewrite Heq. unfold U32_MIN, U32_MAX. by rewrite (proj2 (Z.compare_gt_iff _ _)) by lia.
Qed.

(** C40: a range from a number to the same number, both excluded, panics.  No
    value is in it, and the lookup of the index answers so; but the estimate,
    which comes first, asks the ordered map of borders for a range whose start
    is after its end.  So a filter with such a condition on a field with a float
    index panics, whatever else it asks and wherever the condition is in it:
    its cardinality, the query for its points, and the scroll of a segment. *)
Theorem degenerate_range_panics t (s : SPI) (x : NF) l rest fc r filter
  (Hx : numeric_wf x l) (Hindex : spi_field_indexes s !! fc_key fc = Some (FloatIndex x :: rest))
  (Hrange : fc_range fc = Some r) (Hr : range_ok (T:=spec_float) r)
  (Hbad : degenerate (T:=spec_float) (lower_bound r) (upper_bound r) = true)
  (Hno : estimates_no_error t s) (Hocc : occurs (CField fc) (CFilter filter)) :
  numeric_filter (E:=OperationError) x fc = Ok (Some []) ∧
  struct_estimate_cardinality t s filter = Panic ∧ struct_query_points t filter s = (Panic, s) ∧
  ∀ (VI VS : Type) new_int new_float new_geo new_text write_config remove_file (seg : Segment T VI VS SPI) offset limit,
    seg_id_tracker seg = t → seg_payload_index seg = s →
    read_filtered (PayloadIndex0 := struct_payload_index new_int new_float new_geo new_text write_config remove_file)
      (Num:=Num) seg offset limit (Some filter) = Panic.
Proof.
  pose proof (range_bounds_ok r Hr) as [Hl Hu].
  assert (condition_cardinality t s (CField fc) = Panic) as Hleaf.
  { cbn [condition_cardinality]. unfold estimate_field_condition. rewrite Hindex. cbn [first_estimation fi_estimate_cardinality].
    cbn. unfold numeric_estimate_cardinality. rewrite Hrange.
    pose proof (range_cardinality_outcome (E:=OperationError) x l r Hx Hl Hu) as Hout. rewrite Hbad in Hout. by rewrite Hout. }
  pose proof (panics_everywhere t s (CField fc) filter Hno eq_refl Hleaf Hocc) as Hest. split_and!.
  - rewrite (numeric_filter_eq x fc r Hrange). by rewrite (degenerate_lookup r Hr Hbad).
  - done.
  - unfold struct_query_points, mbind, sm_bind, sm_get, sm_lift. by rewrite Hest.
  - intros VI VS ni nf ng nt wc rf seg offset limit <- <-. unfold read_filtered. cbn [pi_estimate_cardinality struct_payload_index].
    by rewrite Hest.
Qed.
End panics.

(** ** Witness *)

#[local] Existing Instance float_numbers.
#[local] Existing Instance float_numbers_floats.
#[local] Existing Instance no_values.
#[local] Existing Instance no_text.
#[local] Existing Instance flat_geo.
#[local] Instance no_float_ops : IndexOps spec_float Empty_set := {|
  io_recreate := Empty_set_rect _; io_load := Empty_set_rect _; io_clear := Empty_set_rect _;
  io_filter := Empty_set_rect _; io_estimate_cardinality := Empty_set_rect _; io_payload_blocks := Empty_set_rect _;
  io_count_indexed_points := Empty_set_rect _; io_add_point _ _ := Empty_set_rect _; io_remove_point _ := Empty_set_rect _;
|}.
#[local] Instance no_plain_laws checker : KindLaws (Num:=spec_float) plain_condition Empty_set checker :=
  empty_kind_laws plain_condition checker.
#[local] Instance linear_functions : FloatFunctions := {| f64_ln x := x; f64_exp x := x |}.

Abbreviation PriceIndex := (FieldIndex Empty_set (NumericIndex spec_float MemDB) Empty_set Empty_set MemDB).
Abbreviation PriceSPI := (StructPayloadIndex (gmap nat (Payload spec_float)) PriceIndex MemDB).

Definition price_spi0 : PriceSPI :=
  mkStructIndex ∅ {[ "price" := [FloatIndex (numeric_new price_db "price")] ]}
    {[ "price" := FieldType Float ]} {[ "price" := FieldType Float ]} [] price_db.
Definition price_payload (z : Z) : Payload spec_float := {[ "price" := VArray [VNumber (quarters z); VNumber (quarters (-3))] ]}.
Definition price_spi : PriceSPI := (struct_assign 0 (price_payload 5) price_spi0).2.
Definition price_filter : Filter :=
  mkFilter None (Some [CField (new_range "price" {| range_lt := None; range_gt := Some (quarters 6); range_gte := None; range_lte := None |})]) None.

Lemma price_spi0_wf : index_wf plain_condition price_spi0.
Proof.
  split; [|constructor]. unfold price_spi0. cbn. intros key indexes [<- <-]%lookup_singleton_Some.
  apply Forall_singleton. split; [exists []; apply numeric_new_wf|]. intros i.
  change (field_content _ "price" i) with (payload_get_value (∅ : Payload spec_float) "price"). by rewrite payload_get_empty.
Qed.

Lemma price_spi_wf : index_wf plain_condition price_spi.
Proof.
  assert ((struct_assign 0 (price_payload 5) price_spi0).1 = Ok tt) as Hok by (vm_compute; reflexivity).
  apply (sm_wp_Ok_inv _ _ _ _ tt price_spi (struct_assign_new_spec plain_condition 0 (price_payload 5) price_spi0 price_spi0_wf eq_refl)).
  unfold price_spi. destruct (struct_assign 0 _ price_spi0) as [r s]. cbn in *. by rewrite Hok.
Qed.

Definition price_index : NumericIndex spec_float MemDB :=
  match spi_field_indexes price_spi !! "price" with Some [FloatIndex x] => x | _ => numeric_new price_db "price" end.

Lemma price_indexes : spi_field_indexes price_spi = {[ "price" := [FloatIndex price_index] ]}.
Proof. vm_compute. reflexivity. Qed.

Lemma price_estimates : estimates_no_error sample_tracker price_spi.
Proof.
  apply floats_no_error. rewrite price_indexes. intros key indexes [_ <-]%lookup_singleton_Some. apply Forall_singleton. by eexists.
Qed.

Definition empty_range : Range :=
  {| range_lt := Some (quarters 5); range_gt := Some (quarters 5); range_gte := None; range_lte := None |}.
Lemma empty_range_ok : range_ok (T:=spec_float) empty_range.
Proof.
  assert (num_ok (nm_from_f64 (quarters 5) : spec_float)) as Hok by (split; [reflexivity|discriminate]).
  intros b Hb y ->. cbn [range_lt range_gt range_lte range_gte empty_range] in Hb. rewrite !elem_of_cons, elem_of_nil in Hb.
  by destruct Hb as [[= ->]|[[= ->]|[[=]|[[=]|[]]]]].
Qed.

Definition empty_range_filter : Filter :=
  mkFilter (Some [CHasId {[ NumId 7 ]}; CFilter (mkFilter None None (Some [CField (new_range "price" empty_range)]))]) None None.

Lemma degenerate_range_witness :
  struct_query_points sample_tracker empty_range_filter price_spi = (Panic, price_spi) ∧
  struct_estimate_cardinality sample_tracker price_spi price_filter ≠ Panic.
Proof.
  split; [|vm_compute; discriminate]. destruct (price_spi_wf) as [Hwf _].
  assert (spi_field_indexes price_spi !! "price" = Some [FloatIndex price_index]) as Hprice by by rewrite price_indexes, lookup_singleton_eq.
  pose proof (Forall_inv (Hwf "price" _ Hprice)) as [[l Hl] _].
  apply (degenerate_range_panics sample_tracker price_spi price_index l [] (new_range "price" empty_range) empty_range empty_range_filter).
  - exact Hl.
  - exact Hprice.
  - reflexivity.
  - exact empty_range_ok.
  - vm_compute. reflexivity.
  - exact price_estimates.
  - apply (occurs_in _ _ _ _ (CFilter (mkFilter None None (Some [CField (new_range "price" empty_range)])))); [right; left|].
    apply (occurs_in _ _ _ _ (CField (new_range "price" empty_range))); [left|constructor].
Defined.

