(* ===== verification/PlainIndex.v ===== *)
(** * Exact vector search

    Models the raw scorer of [lib/segment/src/vector_storage/raw_scorer.rs],
    the order of scores ([ScoredPointOffset] of [vector_storage_base.rs]), and
    the two plain indexes of [index/plain_payload_index.rs]: [PlainIndex],
    which scores every point, and [PlainPayloadIndex], which indexes nothing.

    Not modelled: quantized storages (the scorer of a plain index never uses
    them) and telemetry. *)

From stdpp Require Import base gmap strings list sorting.
From Stdlib Require Import ZArith Lia SpecFloat.
From S2P Require Import Prelude Types Rocks IdTracker NamedVectors VectorStorage Text Filters Estimator TopK.
From S2P Require Import Spaces FieldIndex FieldIndexEnum StructPayloadIndex Segment.

(** ** The order of scores *)

(** [OrderedFloat]: the order of floats with every NaN on top. *)
Definition ordered_float_leb (x y : spec_float) : bool :=
  match y with
  | S754_nan => true
  | _ => match x with S754_nan => false | _ => SFleb x y end
  end.

Definition scored_leb (x y : ScoredPointOffset) : bool := ordered_float_leb (spo_score x) (spo_score y).

(** ** Raw scorers *)

Record RawScorerImpl (VS : Type) := mkRawScorer {
  rs_points_count : PointOffsetType;
  rs_query : VectorType;
  rs_vector_storage : VS;
  rs_deleted : list bool;
  rs_metric : Distance;
}.
Arguments mkRawScorer {VS}.
Arguments rs_points_count {VS}.
Arguments rs_query {VS}.
Arguments rs_vector_storage {VS}.
Arguments rs_deleted {VS}.
Arguments rs_metric {VS}.

Section scorer.
Context {VS : Type} {HS : Simd} `{!VectorStorage VS}.
Abbreviation Scorer := (RawScorerImpl VS).

Definition new_raw_scorer (vector : VectorType) (vector_storage : VS) (deleted : list bool) : Scorer :=
  let metric := distance vector_storage in
  mkRawScorer (as_u32 (total_vector_count vector_storage))
    (default vector (preprocess_vector metric vector)) vector_storage deleted metric.

Definition check_point (self : Scorer) (point : PointOffsetType) : bool :=
  (point <? rs_points_count self) &&
  match rs_deleted self !! point with Some d => negb d | None => false end.

Definition score_point (self : Scorer) (point : PointOffsetType) : OperationResult ScoreType :=
  other_vector ← get_vector (rs_vector_storage self) point;
  Ok (distance_similarity (rs_metric self) (rs_query self) other_vector).

Definition score_internal (self : Scorer) (point_a point_b : PointOffsetType) : OperationResult ScoreType :=
  vector_a ← get_vector (rs_vector_storage self) point_a;
  vector_b ← get_vector (rs_vector_storage self) point_b;
  Ok (distance_similarity (rs_metric self) vector_a vector_b).

(** Fills the buffer [scores] from position [size] on. *)
Fixpoint score_points (self : Scorer) (points : list PointOffsetType) (scores : list ScoredPointOffset)
    (size : nat) : OperationResult (nat * list ScoredPointOffset) :=
  match points with
  | [] => Ok (size, scores)
  | point_id :: points =>
      if negb (check_point self point_id) then score_points self points scores size
      else
        score ← score_point self point_id;
        scores ← vec_set size (mkScoredOffset point_id score) scores;
        let size := size + 1 in
        if decide (size = length scores) then Ok (size, scores) else score_points self points scores size
  end.

Definition score_all (self : Scorer) (points : list PointOffsetType) : OperationResult (list ScoredPointOffset) :=
  res_map (λ point_id, score ← score_point self point_id; Ok (mkScoredOffset point_id score))
    (base.filter (λ point_id, check_point self point_id = true) points).

Definition peek_top_iter (self : Scorer) (points : list PointOffsetType) (top : nat) :
    OperationResult (list ScoredPointOffset) :=
  scores ← score_all self points;
  peek_top_largest_iterable scored_leb scores top.

Definition peek_top_all (self : Scorer) (top : nat) : OperationResult (list ScoredPointOffset) :=
  scores ← score_all self (seq 0 (rs_points_count self));
  peek_top_largest_iterable scored_leb scores top.
End scorer.

(** ** [PlainIndex] *)

(** The index holds nothing of its own. *)
Record PlainIndex := mkPlainIndex {}.

Section plain_index.
Context {Num T VS PI SP : Type} {HS : Simd} `{!IdTracker T, !VectorStorage VS, !PayloadIndex Num T PI}.

Definition plain_search (id_tracker : T) (vector_storage : VS) (payload_index : PI) (_ : PlainIndex)
    (vectors : list VectorType) (filter : option Filter) (top : nat) (_ : option SP) :
    OperationResult (list (list ScoredPointOffset)) :=
  let scorer vector := new_raw_scorer vector vector_storage (deleted_bitvec id_tracker) in
  match filter with
  | Some filter =>
      filtered_ids_vec ← (pi_query_points (Num:=Num) id_tracker filter payload_index).1;
      res_map (λ vector, peek_top_iter (scorer vector) filtered_ids_vec top) vectors
  | None => res_map (λ vector, peek_top_all (scorer vector) top) vectors
  end.

#[export] Instance plain_index : VectorIndex T VS PI SP PlainIndex := plain_search.
End plain_index.

(** ** [PlainPayloadIndex] *)

Record PlainPayloadIndex := mkPlainPayloadIndex {
  ppi_config : gmap PayloadKeyType PayloadFieldSchema;
  ppi_saved_config : gmap PayloadKeyType PayloadFieldSchema; (* the file *)
}.

Section plain_payload.
Context {Num T : Type} `{!IdTracker T}.

(** The condition checker, and the outcome of writing the configuration. *)
Context (condition_check : Filter → PointOffsetType → bool)
  (write_config : gmap PayloadKeyType PayloadFieldSchema → OperationResult unit).

Definition plain_save_config : sm PlainPayloadIndex OperationError unit :=
  self ← sm_get;
  _ ← sm_lift (write_config (ppi_config self));
  sm_modify (λ self, mkPlainPayloadIndex (ppi_config self) (ppi_config self)).

(** [open] on the configuration file, if it exists. *)
Definition plain_payload_open (config_file : option (gmap PayloadKeyType PayloadFieldSchema)) :
    OperationResult PlainPayloadIndex :=
  match config_file with
  | Some config => Ok (mkPlainPayloadIndex config config)
  | None =>
      match plain_save_config (mkPlainPayloadIndex ∅ ∅) with
      | (Ok _, index) => Ok index
      | (Err e, _) => Err e
      | (Panic, _) => Panic
      end
  end.

Definition plain_set_indexed (field : PayloadKeyType) (payload_schema : PayloadFieldSchema) :
    sm PlainPayloadIndex OperationError unit :=
  self ← sm_get;
  _ ← sm_modify (λ self, mkPlainPayloadIndex (<[field := payload_schema]> (ppi_config self)) (ppi_saved_config self));
  match ppi_config self !! field with
  | None => plain_save_config
  | Some _ => mret tt
  end.

Definition plain_drop_index (field : PayloadKeyType) : sm PlainPayloadIndex OperationError unit :=
  _ ← sm_modify (λ self, mkPlainPayloadIndex (delete field (ppi_config self)) (ppi_saved_config self));
  plain_save_config.

Definition plain_estimate_cardinality (t : T) : CardinalityEstimation :=
  let total_points := N.of_nat (points_count t) in
  mkEstimation [] 0 (total_points / 2) total_points.

Definition plain_query_points (t : T) (query : Filter) : OperationResult (list PointOffsetType) :=
  ids ← iter_internal t;
  Ok (base.filter (λ id, condition_check query id = true) ids).

(** The methods on payloads are [unreachable!()]. *)
Definition plain_payload_index : PayloadIndex Num T PlainPayloadIndex := {|
  pi_indexed_fields := ppi_config;
  pi_set_indexed := plain_set_indexed;
  pi_drop_index := plain_drop_index;
  pi_estimate_cardinality t _ _ := Ok (plain_estimate_cardinality t);
  pi_query_points t query := sm_lift (plain_query_points t query);
  pi_indexed_points _ _ := 0%N;
  pi_filter_context _ _ query := Ok (condition_check query);
  pi_payload_blocks _ _ _ := [];
  pi_assign _ _ := sm_lift Panic;
  pi_payload _ _ := Panic;
  pi_delete _ _ := sm_lift Panic;
  pi_drop _ := sm_lift Panic;
  pi_infer_payload_type _ _ := Panic;
|}.
End plain_payload.

(** ** Lemmas on the order of scores *)

(** The position of a float in the order: its class, then exponent and
    mantissa, negated for negative numbers. *)
Definition float_rank (x : spec_float) : Z * Z * Z :=
  match x with
  | S754_infinity true => (-2, 0, 0)
  | S754_finite true m e => (-1, - e, - Zpos m)
  | S754_zero _ => (0, 0, 0)
  | S754_finite false m e => (1, e, Zpos m)
  | S754_infinity false => (2, 0, 0)
  | S754_nan => (3, 0, 0)
  end%Z.

Definition rank_le (a b : Z * Z * Z) : Prop :=
  let '(a1, a2, a3) := a in let '(b1, b2, b3) := b in
  (a1 < b1 ∨ a1 = b1 ∧ (a2 < b2 ∨ a2 = b2 ∧ a3 <= b3))%Z.

Lemma SFleb_finite s m e s' m' e' :
  SFleb (S754_finite s m e) (S754_finite s' m' e') = true ↔
  rank_le (float_rank (S754_finite s m e)) (float_rank (S754_finite s' m' e')).
Proof.
  unfold SFleb, SFcompare, rank_le. change (Pcompare m m' Eq) with (Pos.compare m m').
  destruct s, s'; cbn [float_rank].
  - destruct (Z.compare_spec e e'); [destruct (Pos.compare_spec m m')|..]; cbn; split; (done || lia).
  - split; [lia|done].
  - split; [done|lia].
  - destruct (Z.compare_spec e e'); [destruct (Pos.compare_spec m m')|..]; cbn; split; (done || lia).
Qed.

Lemma ordered_leb_rank x y : ordered_float_leb x y = true ↔ rank_le (float_rank x) (float_rank y).
Proof.
  destruct x as [s|s| |s m e], y as [s'|s'| |s' m' e']; unfold ordered_float_leb;
    try (apply SFleb_finite); try destruct s; try destruct s'; cbn; split; intros; (done || lia).
Qed.

Lemma rank_le_total a b : rank_le a b ∨ rank_le b a.
Proof. destruct a as [[a1 a2] a3], b as [[b1 b2] b3]. cbn. lia. Qed.

Lemma rank_le_trans a b c : rank_le a b → rank_le b c → rank_le a c.
Proof. destruct a as [[a1 a2] a3], b as [[b1 b2] b3], c as [[c1 c2] c3]. cbn. lia. Qed.

Lemma scored_leb_total x y : scored_leb x y = true ∨ scored_leb y x = true.
Proof. unfold scored_leb. rewrite !ordered_leb_rank. apply rank_le_total. Qed.

Lemma scored_leb_trans x y z : scored_leb x y = true → scored_leb y z = true → scored_leb x z = true.
Proof. unfold scored_leb. rewrite !ordered_leb_rank. apply rank_le_trans. Qed.
