(* ===== verification/SegmentSpec.v ===== *)
(** * Correctness of segments

    A segment ([Segment.v]) refines a map from point ids to points (a version,
    the named vectors, the stored payload).  The theorems hold for every
    tracker, vector storage and payload index that satisfy the laws of their
    interfaces; the witnesses use [SimpleIdTracker], [SimpleVectorStorage] and
    [StructPayloadIndex].

    - An accepted operation that is not older than its point has exactly its
      effect on its point, none on the others, and keeps the invariant.
    - A stale operation, an operation on a failed segment and an operation
      with a client error leave the segment as it was.
    - The two strategies of [read_filtered] give the same page.
    - A flush writes the versions after everything they vouch for. *)

From stdpp Require Import base gmap strings list sorting.
From Stdlib Require Import ZArith Lia SpecFloat.
From S2P Require Import Prelude Types Rocks IdTracker NamedVectors VectorStorage Text Filters Estimator TopK.
From S2P Require Import PayloadStorage FieldIndex FieldIndexEnum FieldIndexLaws Spaces.
From S2P Require Import StructPayloadIndex PayloadIndexSpec PayloadIndexLaws Segment QueryOptimizer PlainIndex.

(** ** The abstract points *)

Record Point (Num : Type) := mkPoint {
  pt_version : SeqNumberType;
  pt_vectors : gmap string VectorType;
  pt_payload : option (Payload Num);
}.
Arguments mkPoint {Num}.
Arguments pt_version {Num}.
Arguments pt_vectors {Num}.
Arguments pt_payload {Num}.

(** The operations on a point. *)
Inductive seg_op (Num : Type) : Type :=
| OpUpsert (e : PointIdType) (vectors : NamedVectors)
| OpDelete (e : PointIdType)
| OpSetFull (e : PointIdType) (p : Payload Num)
| OpSet (e : PointIdType) (p : Payload Num)
| OpDeleteKey (e : PointIdType) (key : PayloadKeyType)
| OpClear (e : PointIdType).
Arguments OpUpsert {Num}.
Arguments OpDelete {Num}.
Arguments OpSetFull {Num}.
Arguments OpSet {Num}.
Arguments OpDeleteKey {Num}.
Arguments OpClear {Num}.

Definition seg_op_point {Num} (op : seg_op Num) : PointIdType :=
  match op with
  | OpUpsert e _ | OpDelete e | OpSetFull e _ | OpSet e _ | OpDeleteKey e _ | OpClear e => e
  end.

(** The update of the payload index a payload operation makes at an offset. *)
Definition seg_op_index {Num} (op : seg_op Num) (i : PointOffsetType) : option (index_op Num) :=
  match op with
  | OpSetFull _ p => Some (IAssignAll i p)
  | OpSet _ p => Some (IAssign i p)
  | OpDeleteKey _ key => Some (IDelete i key)
  | OpClear _ => Some (IDrop i)
  | _ => None
  end.

(** The vectors as the distances of the configuration store them. *)
Definition processed `{!Simd} (cfgs : gmap string VectorDataConfig) (vs : gmap string VectorType) :
    gmap string VectorType :=
  map_imap (λ name v, (λ cfg, processed_vector (vdc_distance cfg) v) <$> cfgs !! name) vs.

(** What an operation does to its point. *)
Definition seg_op_effect {Num} `{!Simd} (cfgs : gmap string VectorDataConfig) (n : SeqNumberType)
    (op : seg_op Num) (old : option (Point Num)) : option (Point Num) :=
  match op with
  | OpUpsert _ vs => Some (mkPoint n (processed cfgs (tm_view vs)) (old ≫= pt_payload))
  | OpDelete _ => None
  | _ => (λ pt, mkPoint n (pt_vectors pt) (seg_op_index op 0 ≫= λ iop, index_op_payload iop (pt_payload pt))) <$> old
  end.

(** How many offsets it takes. *)
Definition seg_op_grows {Num} (op : seg_op Num) (old : option (Point Num)) : nat :=
  match op, old with OpUpsert _ _, None => 1 | _, _ => 0 end.

(** ** The components of a segment *)

Definition res_option {E A} (r : result E A) : option A :=
  match r with Ok a => Some a | _ => None end.

Section core.
Context {Num T VI VS PI : Type} `{!JsonNumber Num} {HG : GeoOps} {HS : Simd} {HSL : SimdLaws}.
Context `{!IdTracker T, !IdTrackerLaws T} `{!VectorStorage VS, !VectorStorageLaws VS}.
Context `{!PayloadIndex Num T PI, !PayloadIndexLaws Num T PI}.
Abbreviation Data := (gmap string (VectorData VI VS)).
Abbreviation Configs := (gmap string VectorDataConfig).

(** A vector storage fits its configuration and has a vector of the right
    length for every offset in use. *)
Definition data_ok (t : T) (cfg : VectorDataConfig) (vd : VectorData VI VS) : Prop :=
  let vs := vd_storage vd in
  storage_wf vs ∧ vector_dim vs = vdc_size cfg ∧ distance vs = vdc_distance cfg ∧
  (N.of_nat (total_vector_count vs) ≤ u32_max)%N ∧
  ∀ i, is_Some (external_id t i) →
    i < total_vector_count vs ∧ ∃ v, get_vector vs i = Ok v ∧ length v = vdc_size cfg.

Record core_wf (cfgs : Configs) (t : T) (d : Data) (p : PI) : Prop := {
  cw_tracker : tracker_wf t;
  cw_index : pi_wf p;
  cw_data name : option_Forall2 (data_ok t) (cfgs !! name) (d !! name);
  cw_dead i : external_id t i = None → pi_stored p i = None;
  cw_versions i : is_Some (external_id t i) → is_Some (internal_version t i);
}.

Definition offset_vectors (d : Data) (i : PointOffsetType) : gmap string VectorType :=
  omap (λ vd, res_option (get_vector (vd_storage vd) i)) d.

Definition core_point (t : T) (d : Data) (p : PI) (e : PointIdType) : option (Point Num) :=
  i ← internal_id t e;
  Some (mkPoint (default 0%N (internal_version t i)) (offset_vectors d i) (pi_stored p i)).

(** [d'] is [d] with the vectors [vs] written at offset [i]. *)
Definition data_written (vs : gmap string VectorType) (i : PointOffsetType) (d d' : Data) : Prop :=
  ∀ name, option_Forall2 (λ vd vd',
    storage_wf (vd_storage vd') ∧ vector_dim (vd_storage vd') = vector_dim (vd_storage vd) ∧
    distance (vd_storage vd') = distance (vd_storage vd) ∧
    (∀ j w, j ≠ i → get_vector (vd_storage vd) j = Ok w → get_vector (vd_storage vd') j = Ok w) ∧
    match vs !! name with
    | Some v => get_vector (vd_storage vd') i = Ok v ∧
        total_vector_count (vd_storage vd') = total_vector_count (vd_storage vd) `max` (i + 1)
    | None => vd' = vd
    end)
    (d !! name) (d' !! name).

Lemma core_external cfgs t d p e i :
  core_wf cfgs t d p → internal_id t e = Some i → external_id t i = Some e.
Proof using. intros Hwf. apply internal_external, Hwf. Qed.

Lemma core_live_vector cfgs t d p name vd j :
  core_wf cfgs t d p → d !! name = Some vd → is_Some (external_id t j) →
  ∃ cfg w, cfgs !! name = Some cfg ∧ get_vector (vd_storage vd) j = Ok w ∧ length w = vdc_size cfg.
Proof using.
  intros Hwf Hd Hj. pose proof (cw_data _ _ _ _ Hwf name) as Hn. rewrite Hd in Hn.
  apply option_Forall2_Some_r in Hn as (cfg & -> & _ & _ & _ & _ & Hv).
  destruct (Hv j Hj) as (_ & w & Hw & Hlen); eauto 10.
Qed.

Lemma offset_vectors_other cfgs t d p vs i d' j :
  core_wf cfgs t d p → data_written vs i d d' → is_Some (external_id t j) → j ≠ i →
  offset_vectors d' j = offset_vectors d j.
Proof using.
  intros Hwf Hw Hj Hne. apply map_eq. intros name. unfold offset_vectors. rewrite !lookup_omap.
  specialize (Hw name). destruct (d !! name) as [vd|] eqn:Hd; [|by rewrite (option_Forall2_None_l _ Hw)].
  apply option_Forall2_Some_l in Hw as (vd' & -> & _ & _ & _ & Hkeep & _).
  destruct (core_live_vector _ _ _ _ _ _ _ Hwf Hd Hj) as (_ & w & _ & Hget & _). cbn. by rewrite Hget, (Hkeep j w).
Qed.

Lemma offset_vectors_written vs i d d' :
  data_written vs i d d' → (∀ name, is_Some (d !! name) ↔ is_Some (vs !! name)) →
  offset_vectors d' i = vs.
Proof using.
  intros Hw Hdom. apply map_eq. intros name. unfold offset_vectors. rewrite lookup_omap.
  specialize (Hw name). specialize (Hdom name). destruct (d !! name) as [vd|].
  - apply option_Forall2_Some_l in Hw as (vd' & -> & _ & _ & _ & _ & Hget).
    destruct (proj1 Hdom) as [v Hv]; [eauto|]. rewrite Hv in *. cbn. by rewrite (proj1 Hget).
  - rewrite (option_Forall2_None_l _ Hw). destruct (vs !! name); [|done].
    by destruct (proj2 Hdom) as [? ?]; [eauto|].
Qed.

Lemma core_names cfgs t d p name : core_wf cfgs t d p → is_Some (cfgs !! name) ↔ is_Some (d !! name).
Proof using. intros Hwf. eapply option_Forall2_is_Some, cw_data, Hwf. Qed.

(** The vectors an upsert writes: one of the right length per name. *)
Definition vectors_fit (cfgs : Configs) (vs : gmap string VectorType) : Prop :=
  ∀ name, option_Forall2 (λ cfg (v : VectorType), length v = vdc_size cfg) (cfgs !! name) (vs !! name).

(** Writing vectors at [i] makes every storage ready for [i] to be in use. *)
Lemma data_written_ok cfgs t d p vs i d' name :
  core_wf cfgs t d p → data_written vs i d d' → vectors_fit cfgs vs → (N.of_nat i < u32_max)%N →
  option_Forall2 (λ cfg vd, let vs := vd_storage vd in
    storage_wf vs ∧ vector_dim vs = vdc_size cfg ∧ distance vs = vdc_distance cfg ∧
    (N.of_nat (total_vector_count vs) ≤ u32_max)%N ∧
    ∀ j, j = i ∨ is_Some (external_id t j) →
      j < total_vector_count vs ∧ ∃ v, get_vector vs j = Ok v ∧ length v = vdc_size cfg)
    (cfgs !! name) (d' !! name).
Proof using.
  intros Hwf Hw Hfit Hi. specialize (Hw name). specialize (Hfit name).
  pose proof (cw_data _ _ _ _ Hwf name) as Hn. destruct (cfgs !! name) as [cfg|].
  - apply option_Forall2_Some_l in Hn as (vd & Hd & _ & Hdim & Hdist & Hmax & Hv). rewrite Hd in Hw.
    apply option_Forall2_Some_l in Hw as (vd' & -> & Hswf & Hdim' & Hdist' & Hkeep & Hat).
    apply option_Forall2_Some_l in Hfit as (v & Hvs & Hlen). rewrite Hvs in Hat. destruct Hat as [Hat Htot].
    constructor. cbn. split_and!; [done|congruence|congruence|lia|].
    intros j Hj. destruct (decide (j = i)) as [->|Hne]; [split; [lia|eauto]|].
    destruct Hj as [?|Hj]; [done|]. destruct (Hv j Hj) as (Hlt & w & Hget & Hlw). split; [lia|eauto].
  - rewrite (option_Forall2_None_l _ Hn) in Hw. rewrite (option_Forall2_None_l _ Hw). constructor.
Qed.

(** *** Steps *)

Lemma core_write cfgs t d p vs i d' :
  core_wf cfgs t d p → data_written vs i d d' → vectors_fit cfgs vs → (N.of_nat i < u32_max)%N →
  core_wf cfgs t d' p.
Proof using.
  intros Hwf Hw Hfit Hi. split; try apply Hwf. intros name.
  eapply option_Forall2_weaken; [by apply (data_written_ok cfgs t d p vs i d')|].
  intros cfg vd (? & ? & ? & ? & Hv). split_and!; eauto.
Qed.

Lemma live_offset_u32 cfgs t d p e i :
  core_wf cfgs t d p → internal_id t e = Some i → (N.of_nat i < u32_max)%N.
Proof using.
  intros Hwf Hi. apply internal_id_size in Hi; [|apply Hwf].
  pose proof (internal_size_u32 t (cw_tracker _ _ _ _ Hwf)). lia.
Qed.

Lemma core_write_point cfgs t d p vs i d' e :
  core_wf cfgs t d p → data_written vs i d d' → vectors_fit cfgs vs →
  core_point t d' p e =
    if decide (internal_id t e = Some i)
    then (λ pt, mkPoint (pt_version pt) vs (pt_payload pt)) <$> core_point t d p e else core_point t d p e.
Proof using.
  intros Hwf Hw Hfit. unfold core_point. destruct (internal_id t e) as [j|] eqn:He; [|by case_decide]. cbn.
  destruct (decide (Some j = Some i)) as [[= ->]|Hne].
  - cbn. do 2 f_equal. apply (offset_vectors_written vs i d); [done|]. intros name.
    rewrite <-(core_names cfgs t d p) by done. eapply option_Forall2_is_Some, Hfit.
  - do 2 f_equal. eapply offset_vectors_other; [done..| |congruence]. eexists. by eapply core_external.
Qed.

Lemma external_of_internal (t t' : T) :
  tracker_wf t → tracker_wf t' → (∀ e, internal_id t' e = internal_id t e) →
  ∀ j, external_id t' j = external_id t j.
Proof using.
  intros Ht Ht' Heq j. apply option_eq. intros e. by rewrite <-!internal_external, Heq by done.
Qed.

Lemma core_version cfgs t d p i n t' :
  core_wf cfgs t d p → version_post tracker_wf i n t t' →
  core_wf cfgs t' d p ∧
  ∀ e, core_point t' d p e =
    if decide (internal_id t e = Some i)
    then (λ pt, mkPoint n (pt_vectors pt) (pt_payload pt)) <$> core_point t d p e else core_point t d p e.
Proof using.
  intros Hwf (Ht' & Hid & Hi & Hj & Hsome & _). pose proof (cw_tracker _ _ _ _ Hwf) as Ht.
  pose proof (external_of_internal t t' Ht Ht' Hid) as Hext. split; [split|].
  - done.
  - apply Hwf.
  - intros name. eapply option_Forall2_weaken; [by apply (cw_data _ _ _ _ Hwf)|].
    intros cfg vd (? & ? & ? & ? & Hv). split_and!; [done..|]. intros j. rewrite Hext. apply Hv.
  - intros j. rewrite Hext. apply Hwf.
  - intros j. rewrite Hext. intros Hl. by apply Hsome, (cw_versions _ _ _ _ Hwf).
  - intros e. unfold core_point. rewrite Hid. destruct (internal_id t e) as [j|] eqn:He; [|by case_decide]. cbn.
    destruct (decide (Some j = Some i)) as [[= ->]|Hne]; cbn.
    + rewrite Hi; [done|]. eexists. by eapply core_external.
    + do 2 f_equal. apply Hj. congruence.
Qed.

(** Linking a new id to a fresh offset whose vectors are in place, then
    giving it a version. *)
Lemma core_link cfgs t d p vs e i n d' t1 t2 :
  core_wf cfgs t d p → data_written vs i d d' → vectors_fit cfgs vs →
  (N.of_nat i < u32_max)%N → internal_id t e = None → external_id t i = None →
  link_post tracker_wf e i t t1 → version_post tracker_wf i n t1 t2 →
  core_wf cfgs t2 d' p ∧
  ∀ e', core_point t2 d' p e' = if decide (e' = e) then Some (mkPoint n vs None) else core_point t d p e'.
Proof using.
  intros Hwf Hw Hfit Hmax He Hi (Ht1 & Hid1 & Hv1 & _) (Ht2 & Hid2 & Hvi & Hvj & Hsome & _).
  pose proof (cw_tracker _ _ _ _ Hwf) as Ht.
  assert (∀ j, external_id t2 j = if decide (j = i) then Some e else external_id t j) as Hext.
  { intros j. apply option_eq. intros e'. rewrite <-internal_external, Hid2, Hid1 by done.
    destruct (decide (e' = e)) as [->|Hne], (decide (j = i)) as [->|Hji]; [done|..].
    - split; [congruence|]. rewrite <-internal_external, He by done. congruence.
    - rewrite internal_external, Hi by done. split; congruence.
    - by apply internal_external. }
  assert (is_Some (external_id t1 i)) as Hlive1.
  { exists e. apply internal_external; [done|]. by rewrite Hid1, decide_True. }
  split; [split|].
  - done.
  - apply Hwf.
  - intros name. eapply option_Forall2_weaken; [by apply (data_written_ok cfgs t d p vs i d')|].
    intros cfg vd (? & ? & ? & ? & Hv). split_and!; [done..|]. intros j. rewrite Hext.
    destruct (decide (j = i)); auto.
  - intros j. rewrite Hext. destruct (decide (j = i)); [done|]. apply Hwf.
  - intros j. rewrite Hext. destruct (decide (j = i)) as [->|]; [rewrite Hvi by done; eauto|].
    intros Hl. apply Hsome. rewrite Hv1. by apply (cw_versions _ _ _ _ Hwf).
  - intros e'. unfold core_point. rewrite Hid2, Hid1. destruct (decide (e' = e)) as [->|Hne]; cbn.
    + rewrite Hvi, (cw_dead _ _ _ _ Hwf) by done. cbn. do 2 f_equal.
      apply (offset_vectors_written vs i d); [done|]. intros name.
      rewrite <-(core_names cfgs t d p) by done. eapply option_Forall2_is_Some, Hfit.
    + destruct (internal_id t e') as [j|] eqn:He'; [|done]. cbn.
      pose proof (core_external _ _ _ _ _ _ Hwf He') as Hj.
      assert (j ≠ i) as Hji by congruence.
      rewrite Hvj, Hv1, (offset_vectors_other cfgs t d p vs i d') by eauto. done.
Qed.

(** Changing the payload of one offset. *)
Lemma core_payload cfgs t d p i e q p' :
  core_wf cfgs t d p → internal_id t e = Some i → pi_wf p' →
  (∀ j, pi_stored p' j = if decide (j = i) then q else pi_stored p j) →
  core_wf cfgs t d p' ∧
  ∀ e', core_point t d p' e' =
    if decide (e' = e) then (λ pt, mkPoint (pt_version pt) (pt_vectors pt) q) <$> core_point t d p e'
    else core_point t d p e'.
Proof using.
  intros Hwf He Hp' Hst. pose proof (core_external _ _ _ _ _ _ Hwf He) as Hi. split; [split|].
  - apply Hwf.
  - done.
  - apply Hwf.
  - intros j Hj. rewrite Hst, decide_False by congruence. by apply Hwf.
  - apply Hwf.
  - intros e'. unfold core_point. destruct (internal_id t e') as [j|] eqn:He'; [|by case_decide]. cbn.
    rewrite Hst. destruct (decide (e' = e)) as [->|Hne].
    + rewrite He in He'. injection He' as ->. by rewrite decide_True.
    + rewrite decide_False; [done|]. intros ->. apply (core_external _ _ _ _ _ _ Hwf) in He'. congruence.
Qed.

(** Dropping a point whose payload was dropped. *)
Lemma core_drop cfgs t d p e i t' :
  core_wf cfgs t d p → internal_id t e = Some i → pi_stored p i = None → drop_post tracker_wf e t t' →
  core_wf cfgs t' d p ∧
  ∀ e', core_point t' d p e' = if decide (e' = e) then None else core_point t d p e'.
Proof using.
  intros Hwf He Hst (Ht' & Hid & Hv & _). pose proof (cw_tracker _ _ _ _ Hwf) as Ht.
  assert (∀ j, external_id t' j = if decide (j = i) then None else external_id t j) as Hext.
  { intros j. apply option_eq. intros e'. rewrite <-internal_external, Hid by done.
    destruct (decide (e' = e)) as [->|Hne], (decide (j = i)) as [->|Hji]; [done|..].
    - rewrite <-internal_external, He by done. split; congruence.
    - rewrite internal_external, (core_external _ _ _ _ _ _ Hwf He) by done. split; congruence.
    - by apply internal_external. }
  split; [split|].
  - done.
  - apply Hwf.
  - intros name. eapply option_Forall2_weaken; [by apply (cw_data _ _ _ _ Hwf)|].
    intros cfg vd (? & ? & ? & ? & Hvec). split_and!; [done..|]. intros j. rewrite Hext.
    destruct (decide (j = i)); [by intros []|apply Hvec].
  - intros j. rewrite Hext. destruct (decide (j = i)) as [->|]; [done|apply Hwf].
  - intros j. rewrite Hext, Hv. destruct (decide (j = i)); [by intros []|apply Hwf].
  - intros e'. unfold core_point. rewrite Hid. destruct (decide (e' = e)); [done|].
    destruct (internal_id t e') as [j|]; [|done]. cbn. by rewrite Hv.
Qed.
End core.

(** ** Segments *)

Section segment_spec.
Context {Num T VI VS PI SP : Type} `{!JsonNumber Num} {HG : GeoOps} {HS : Simd} {HSL : SimdLaws}.
Context `{!IdTracker T, !IdTrackerLaws T} `{!VectorStorage VS, !VectorStorageLaws VS}.
Context `{!PayloadIndex Num T PI, !PayloadIndexLaws Num T PI} `{!VectorIndex T VS PI SP VI}.
Context (display_id : PointIdType → string).
Abbreviation Seg := (Segment T VI VS PI).
Abbreviation SegOp := (sm Seg OperationError).

Definition seg_cfgs (s : Seg) : gmap string VectorDataConfig := sc_vector_data (seg_config s).

Definition seg_wf (s : Seg) : Prop :=
  core_wf (seg_cfgs s) (seg_id_tracker s) (seg_vector_data s) (seg_payload_index s).

Definition abs_point (s : Seg) (e : PointIdType) : option (Point Num) :=
  core_point (seg_id_tracker s) (seg_vector_data s) (seg_payload_index s) e.

Definition run_seg_op (n : SeqNumberType) (op : seg_op Num) : SegOp bool :=
  match op with
  | OpUpsert e vs => upsert_vector display_id n e vs
  | OpDelete e => delete_point (Num:=Num) display_id n e
  | OpSetFull e p => set_full_payload display_id n e p
  | OpSet e p => set_payload display_id n e p
  | OpDeleteKey e key => delete_payload (Num:=Num) display_id n e key
  | OpClear e => clear_payload (Num:=Num) display_id n e
  end.

(** The segment takes operations of this number. *)
Definition accepts (s : Seg) (n : SeqNumberType) : Prop :=
  match seg_error_status s with Some st => (n ≤ failed_version st)%N | None => True end.

(** The test of [handle_version]. *)
Definition is_stale (s : Seg) (n : SeqNumberType) (offset : option PointOffsetType) : bool :=
  match offset with
  | None => (n <? default 0 (seg_version s))%N
  | Some i => map_or false (λ v, n <? v)%N (internal_version (seg_id_tracker s) i)
  end.

(** What an operation asks of its arguments. *)
Definition op_valid (s : Seg) (op : seg_op Num) : Prop :=
  match op with
  | OpUpsert e vs => NoDup vs.*1 ∧ vectors_fit (seg_cfgs s) (tm_view vs) ∧
      (internal_id (seg_id_tracker s) e = None → (N.of_nat (internal_size (seg_id_tracker s)) < u32_max)%N)
  | OpDelete e => is_Some (internal_id (seg_id_tracker s) e)
  | _ => ∃ i iop, internal_id (seg_id_tracker s) (seg_op_point op) = Some i ∧ seg_op_index op i = Some iop ∧
      match op with
      | OpSet _ _ | OpDeleteKey _ _ => pi_op_safe (seg_payload_index s) iop
      | _ => True
      end
  end.

(** *** Version handling *)

Lemma handle_op_wp n offset (op : SegOp (bool * option PointOffsetType)) (Q : bool → Seg → Prop) s :
  accepts s n → is_stale s n offset = false →
  sm_wp op (λ r s1,
    let s2 := set_seg_version (Some (N.max n (default 0%N (seg_version s1)))) s1 in
    let Q' s3 := Q r.1 (recover_error (offset ≫= external_id (seg_id_tracker s3)) s3) in
    match r.2 with
    | Some i => sm_wp (set_internal_version i n) (λ _ t, Q' (set_id_tracker t s2)) (λ _ _, True) (seg_id_tracker s1)
    | None => Q' s2
    end) (λ _ _, True) s →
  sm_wp (handle_version_and_failure display_id n offset op) Q (λ _ _, True) s.
Proof using.
  intros Hacc Hst Hop.
  assert (sm_wp (handle_and_record n offset op) Q (λ _ _, True) s) as Hrec.
  2:{ unfold sm_wp, handle_version_and_failure, accepts in *. destruct (seg_error_status s) as [st|]; [|exact Hrec].
      by rewrite (proj2 (N.ltb_ge _ _) Hacc). }
  unfold sm_wp, handle_and_record, handle_version in *. unfold is_stale in Hst. rewrite Hst.
  destruct (op s) as [[[b oi]| |] s1]; cbn [fst snd] in Hop; [|by repeat case_match|done].
  destruct oi as [i|]; [|exact Hop].
  unfold mbind, sm_bind, on_tracker, sm_zoom. cbn [seg_id_tracker set_seg_version].
  destruct (set_internal_version i n (seg_id_tracker s1)) as [[[]| |] t]; cbn; [exact Hop|by repeat case_match|done].
Qed.

(** The failed state after an operation that reports [point_id]. *)
Definition recovered (es : option SegmentFailedState) (point_id : option PointIdType) : option SegmentFailedState :=
  es ≫= λ st, if decide (failed_point_id st = point_id) then None else Some st.

Lemma recover_error_eq point_id (s : Seg) :
  recover_error point_id s = set_error_status (recovered (seg_error_status s) point_id) s.
Proof using.
  unfold recover_error, recovered. destruct (seg_error_status s) as [st|] eqn:E; cbn; [|by destruct s; cbn in *; subst].
  case_decide; [done|]. destruct s; cbn in *; by subst.
Qed.

(** *** Writing vectors *)

Lemma on_vector_storage_wp {A} name (m : sm VS OperationError A) Q R (s : Seg) vd :
  seg_vector_data s !! name = Some vd →
  sm_wp m (λ a vs, Q a (set_vector_data (<[name := mkVectorData (vd_index vd) vs]> (seg_vector_data s)) s))
    (λ e vs, R e (set_vector_data (<[name := mkVectorData (vd_index vd) vs]> (seg_vector_data s)) s)) (vd_storage vd) →
  sm_wp (on_vector_storage name m) Q R s.
Proof using. unfold sm_wp, on_vector_storage. intros ->. by destruct (m (vd_storage vd)) as [[] ?]. Qed.

Lemma data_written_refl i (d : gmap string (VectorData VI VS)) :
  (∀ name vd, d !! name = Some vd → storage_wf (vd_storage vd)) → data_written ∅ i d d.
Proof using.
  intros Hwf name. destruct (d !! name) as [vd|] eqn:Hd; [|constructor]. constructor. rewrite lookup_empty. split_and!; eauto.
Qed.

Lemma insert_loop_wp i (l : NamedVectors) vs (s : Seg) d0 :
  data_written vs i d0 (seg_vector_data s) →
  NoDup l.*1 → (∀ name, name ∈ l.*1 → vs !! name = None) →
  (∀ name v, (name, v) ∈ l → ∃ vd, d0 !! name = Some vd ∧ length v = vector_dim (vd_storage vd)) →
  sm_wp (sm_for (λ nv : string * VectorType, on_vector_storage nv.1 (insert_vector i nv.2)) l)
    (λ _ s', ∃ d', s' = set_vector_data d' s ∧ data_written (tm_view l ∪ vs) i d0 d') (λ _ _, True) s.
Proof using VectorStorageLaws0.
  revert vs s. induction l as [|[name v] l IH]; intros vs s Hw Hnd Hnew Hlen.
  { apply sm_wp_ret. exists (seg_vector_data s). split; [by destruct s|]. unfold tm_view. cbn.
    by rewrite (left_id_L ∅ (∪)). }
  apply NoDup_cons in Hnd as [Hn Hnd]. destruct (Hlen name v) as (vd & Hd & Hl); [left|].
  pose proof (Hw name) as Hwn. rewrite Hd in Hwn.
  apply option_Forall2_Some_l in Hwn as (vd' & Hd' & Hswf & Hdim & Hdist & Hkeep & Hat).
  rewrite (Hnew name) in Hat by left. subst vd'. apply sm_wp_bind.
  apply (on_vector_storage_wp _ _ _ _ _ vd); [done|].
  eapply sm_wp_mono; [apply insert_vector_spec; [done|cbn; congruence]| |done].
  intros _ st (Hst1 & Hst2 & Hst3 & Hst4 & Hst5 & Hst6).
  eapply sm_wp_mono; [apply (IH (<[name := v]> vs))| |done].
  - intros k. cbn. specialize (Hw k). destruct (decide (k = name)) as [->|Hne].
    + rewrite !lookup_insert_eq, Hd. constructor. cbn. split_and!; [done..| |done|done].
      intros j w Hj Hg. by apply Hst6.
    + by rewrite !lookup_insert_ne.
  - done.
  - intros k Hk. rewrite lookup_insert_ne by (intros ->; by apply Hn). apply Hnew. by right.
  - intros k w Hk. apply Hlen. by right.
  - intros _ s' (d' & -> & Hd''). exists d'. split; [done|]. unfold tm_view in *. cbn.
    rewrite <-insert_union_l, insert_union_r; [done|]. by apply not_elem_of_list_to_map_1.
Qed.

Lemma check_names_Ok cfgs (vs : NamedVectors) :
  (∀ name, is_Some (sc_vector_data cfgs !! name) ↔ is_Some (tm_view vs !! name)) →
  check_vectors_set vs cfgs = Ok tt.
Proof using.
  intros Hn. unfold check_vectors_set.
  rewrite (res_map_Ok (λ name, check_vector_name name cfgs) (λ _, tt)).
  2:{ intros name Hname. unfold check_vector_name. assert (is_Some (tm_view vs !! name)) as Hv.
      { unfold tm_view. destruct (list_to_map vs !! name) eqn:E; [eauto|]. by apply not_elem_of_list_to_map_2 in E. }
      apply Hn in Hv as [cfg Hv]. by rewrite Hv. }
  cbn. rewrite (res_map_Ok _ (λ _, tt)); [done|].
  intros name ([? cfg] & -> & Hc%elem_of_map_to_list)%list_elem_of_fmap. cbn in *.
  rewrite tm_contains_view, bool_decide_true; [done|]. apply Hn. eauto.
Qed.

Lemma processed_fit cfgs vs : vectors_fit cfgs vs → vectors_fit cfgs (processed cfgs vs).
Proof using HSL.
  intros Hfit name. specialize (Hfit name). unfold processed. rewrite map_lookup_imap.
  destruct (cfgs !! name) as [cfg|].
  - apply option_Forall2_Some_l in Hfit as (v & -> & Hl). cbn. constructor. by rewrite length_processed_vector.
  - rewrite (option_Forall2_None_l _ Hfit). constructor.
Qed.

Lemma tm_view_cons {V} k (v : V) (l : list (string * V)) : tm_view ((k, v) :: l) = <[k := v]> (tm_view l).
Proof. done. Qed.

Lemma process_fold (s : Seg) (l acc : NamedVectors) :
  seg_wf s → NoDup l.*1 →
  (∀ name v, (name, v) ∈ l → ∃ cfg, seg_cfgs s !! name = Some cfg ∧ length v = vdc_size cfg) →
  ∃ out, res_fold (process_vector s) l acc = Ok out ∧
    tm_view out = processed (seg_cfgs s) (tm_view l) ∪ tm_view acc ∧ (NoDup acc.*1 → NoDup out.*1).
Proof using.
  intros Hwf. revert acc. induction l as [|[name v] l IH]; intros acc Hnd Hfit.
  { exists acc. split_and!; [done| |done]. unfold processed, tm_view. cbn. by rewrite map_imap_empty, (left_id_L ∅ (∪)). }
  apply NoDup_cons in Hnd as [Hn Hnd]. destruct (Hfit name v) as (cfg & Hc & Hlen); [left|].
  pose proof (cw_data _ _ _ _ Hwf name) as Hdata. rewrite Hc in Hdata.
  apply option_Forall2_Some_l in Hdata as (vd & Hd & _ & Hdim & _ & _).
  destruct (IH (nv_insert name (processed_vector (vdc_distance cfg) v) acc)) as (out & Hout & Hview & Hnd').
  { done. }
  { intros k w Hk. apply Hfit. by right. }
  exists out. split_and!.
  - cbn [res_fold process_vector]. unfold map_get. rewrite Hd. cbn [unwrap mbind result_bind].
    rewrite decide_False by (rewrite Hdim, Hlen; auto). unfold seg_cfgs in Hc. rewrite Hc. cbn [unwrap mbind result_bind].
    rewrite <-Hout. unfold processed_vector. by destruct (preprocess_vector _ v).
  - rewrite Hview. unfold nv_insert. rewrite (proj2 (tm_insert_view _ _ acc)), tm_view_cons. unfold processed at 2.
    rewrite (map_imap_insert_Some _ _ _ _ (processed_vector (vdc_distance cfg) v)) by (by rewrite Hc).
    rewrite <-insert_union_l, insert_union_r; [done|]. unfold processed. rewrite map_lookup_imap.
    unfold tm_view. by rewrite not_elem_of_list_to_map_1.
  - intros Hacc. apply Hnd'. by apply tm_insert_NoDup.
Qed.

Lemma view_fit_elem cfgs (l : NamedVectors) name v :
  NoDup l.*1 → vectors_fit cfgs (tm_view l) → (name, v) ∈ l →
  ∃ cfg, cfgs !! name = Some cfg ∧ length v = vdc_size cfg.
Proof using.
  intros Hnd Hfit Hin%elem_of_tm_view; [|done]. specialize (Hfit name). rewrite Hin in Hfit.
  by apply option_Forall2_Some_r in Hfit.
Qed.

Lemma process_vectors_Ok (s : Seg) (vs : NamedVectors) :
  seg_wf s → NoDup vs.*1 → vectors_fit (seg_cfgs s) (tm_view vs) →
  ∃ out, process_vectors s vs = Ok out ∧ NoDup out.*1 ∧ tm_view out = processed (seg_cfgs s) (tm_view vs).
Proof using.
  intros Hwf Hnd Hfit. destruct (process_fold s vs [] Hwf Hnd) as (out & Hout & Hview & Hn).
  { intros name v Hin. by apply (view_fit_elem _ vs). }
  exists out. split_and!; [done|by apply Hn; constructor|]. rewrite Hview. unfold tm_view at 2. cbn.
  by rewrite (right_id_L ∅ (∪)).
Qed.

(** The loop that inserts processed vectors at one offset. *)
Lemma insert_all_wp i (out : NamedVectors) (s : Seg) :
  seg_wf s → NoDup out.*1 → vectors_fit (seg_cfgs s) (tm_view out) →
  sm_wp (sm_for (λ nv : string * VectorType, on_vector_storage nv.1 (insert_vector i nv.2)) out)
    (λ _ s', ∃ d', s' = set_vector_data d' s ∧ data_written (tm_view out) i (seg_vector_data s) d') (λ _ _, True) s.
Proof using VectorStorageLaws0.
  intros Hwf Hnd Hfit. eapply sm_wp_mono; [apply (insert_loop_wp i out ∅ s (seg_vector_data s))| |done].
  - apply data_written_refl. intros name vd Hd. pose proof (cw_data _ _ _ _ Hwf name) as Hn. rewrite Hd in Hn.
    by apply option_Forall2_Some_r in Hn as (? & _ & ? & _).
  - done.
  - intros name _. apply lookup_empty.
  - intros name v Hin. destruct (view_fit_elem (seg_cfgs s) out name v) as (cfg & Hc & Hl); [done..|].
    pose proof (cw_data _ _ _ _ Hwf name) as Hn. rewrite Hc in Hn.
    apply option_Forall2_Some_l in Hn as (vd & Hd & _ & Hdim & _). exists vd. split; [done|congruence].
  - intros _ s' (d' & -> & Hw). exists d'. by rewrite (right_id_L ∅ (∪)) in Hw.
Qed.

Lemma fit_names cfgs (vs : NamedVectors) name :
  vectors_fit cfgs (tm_view vs) → is_Some (cfgs !! name) ↔ is_Some (tm_view vs !! name).
Proof using. intros Hfit. eapply option_Forall2_is_Some, Hfit. Qed.

(** *** The refinement *)

(** The point the handler compares with the recorded failure.  It looks the
    offset of the operation up after the operation ran. *)
Definition reported (s : Seg) (op : seg_op Num) : option PointIdType :=
  match op with
  | OpDelete _ => None
  | _ => (λ _, seg_op_point op) <$> internal_id (seg_id_tracker s) (seg_op_point op)
  end.

(** The state an accepted operation leaves, next to the one it started in. *)
Definition op_post (n : SeqNumberType) (op : seg_op Num) (s : Seg) (res : bool) (s' : Seg) : Prop :=
  seg_wf s' ∧ seg_config s' = seg_config s ∧ seg_appendable_flag s' = seg_appendable_flag s ∧
  seg_error_status s' = recovered (seg_error_status s) (reported s op) ∧
  seg_version s' = Some (N.max n (default 0%N (seg_version s))) ∧
  internal_size (seg_id_tracker s') = internal_size (seg_id_tracker s) + seg_op_grows op (abs_point s (seg_op_point op)) ∧
  res = bool_decide (is_Some (abs_point s (seg_op_point op))) ∧
  ∀ e, abs_point s' e =
    if decide (e = seg_op_point op) then seg_op_effect (seg_cfgs s) n op (abs_point s e) else abs_point s e.

Lemma abs_point_Some (s : Seg) e i :
  internal_id (seg_id_tracker s) e = Some i →
  abs_point s e = Some (mkPoint (default 0%N (internal_version (seg_id_tracker s) i))
    (offset_vectors (seg_vector_data s) i) (pi_stored (seg_payload_index s) i)).
Proof using. intros He. unfold abs_point, core_point. by rewrite He. Qed.

Lemma abs_point_None (s : Seg) e : internal_id (seg_id_tracker s) e = None → abs_point s e = None.
Proof using. intros He. unfold abs_point, core_point. by rewrite He. Qed.

Lemma offset_of (s : Seg) e e' i :
  seg_wf s → internal_id (seg_id_tracker s) e = Some i →
  internal_id (seg_id_tracker s) e' = Some i ↔ e' = e.
Proof using.
  intros Hwf He. split; [|by intros ->]. intros He'.
  apply (core_external _ _ _ _ _ _ Hwf) in He, He'. congruence.
Qed.

(** The version a successful operation gives to the offset it names. *)
Lemma version_wp i n (t : T) :
  tracker_wf t →
  sm_wp (set_internal_version i n) (λ _, version_post tracker_wf i n t) (λ _ _, True) t.
Proof using. intros Ht. eapply sm_wp_mono; [by apply set_internal_version_spec|done|done]. Qed.

Lemma upsert_existing_wp n e vs i s :
  seg_wf s → accepts s n → is_stale s n (Some i) = false → op_valid s (OpUpsert e vs) →
  internal_id (seg_id_tracker s) e = Some i →
  sm_wp (run_seg_op n (OpUpsert e vs)) (op_post n (OpUpsert e vs) s) (λ _ _, True) s.
Proof using HSL VectorStorageLaws0.
  intros Hwf Hacc Hst (Hnd & Hfit & _) He. cbn [run_seg_op]. unfold upsert_vector. apply sm_wp_bind.
  unfold sm_wp at 1, sm_get. apply sm_wp_bind. unfold sm_wp at 1, sm_lift.
  rewrite (check_names_Ok (seg_config s)) by (intros; by apply fit_names). rewrite He.
  apply handle_op_wp; [done..|]. unfold upsert_operation. apply sm_wp_bind. unfold sm_wp at 1, sm_get.
  destruct (process_vectors_Ok s vs Hwf Hnd Hfit) as (out & Hout & Hndo & Hview).
  apply sm_wp_bind. unfold sm_wp at 1, sm_lift. rewrite Hout.
  pose proof (processed_fit _ _ Hfit) as Hfit'. rewrite <-Hview in Hfit'.
  unfold update_vector. do 2 apply sm_wp_bind. unfold sm_wp at 1, sm_get. apply sm_wp_bind.
  unfold sm_wp at 1, sm_lift. rewrite (check_names_Ok (seg_config s)) by (intros; by apply fit_names).
  eapply sm_wp_mono; [by apply insert_all_wp| |done]. intros _ s1 (d' & -> & Hw). apply sm_wp_ret. cbn.
  pose proof (core_write _ _ _ _ _ _ _ Hwf Hw Hfit' (live_offset_u32 _ _ _ _ _ _ Hwf He)) as Hwf1.
  eapply sm_wp_mono; [by apply version_wp, Hwf| |done]. intros ? t' Ht'. rewrite recover_error_eq.
  destruct (core_version _ _ _ _ _ _ _ Hwf1 Ht') as [Hwf2 Hpt].
  unfold op_post, reported. cbn. rewrite He. split_and!; try done.
  - rewrite (core_external _ _ _ _ e i Hwf2); [done|]. by destruct Ht' as (_ & -> & _).
  - rewrite (abs_point_Some s e i He). destruct Ht' as (_ & _ & _ & _ & _ & Hsz). cbn in Hsz. cbn. lia.
  - rewrite (abs_point_Some s e i He). by rewrite bool_decide_true.
  - intros e'. unfold abs_point at 1. cbn. rewrite Hpt, (core_write_point _ _ _ _ _ _ _ _ Hwf Hw Hfit').
    destruct (decide (e' = e)) as [->|Hne].
    + rewrite !decide_True by done. change (core_point _ _ _ _) with (abs_point s e).
      rewrite (abs_point_Some s e i He), Hview. done.
    + by rewrite !decide_False by (by rewrite (offset_of s e e' i)).
Qed.

Lemma fresh_offset s : seg_wf s → external_id (seg_id_tracker s) (internal_size (seg_id_tracker s)) = None.
Proof using.
  intros Hwf. destruct (external_id _ _) as [e|] eqn:He; [|done].
  apply internal_external in He; [|apply Hwf]. apply internal_id_size in He; [lia|apply Hwf].
Qed.

Lemma upsert_new_wp n e vs s :
  seg_wf s → accepts s n → is_stale s n None = false → op_valid s (OpUpsert e vs) →
  internal_id (seg_id_tracker s) e = None →
  sm_wp (run_seg_op n (OpUpsert e vs)) (op_post n (OpUpsert e vs) s) (λ _ _, True) s.
Proof using HSL VectorStorageLaws0.
  intros Hwf Hacc Hst (Hnd & Hfit & Hsize) He. specialize (Hsize He). cbn [run_seg_op]. unfold upsert_vector. apply sm_wp_bind.
  unfold sm_wp at 1, sm_get. apply sm_wp_bind. unfold sm_wp at 1, sm_lift.
  rewrite (check_names_Ok (seg_config s)) by (intros; by apply fit_names). rewrite He.
  apply handle_op_wp; [done..|]. unfold upsert_operation. apply sm_wp_bind. unfold sm_wp at 1, sm_get.
  destruct (process_vectors_Ok s vs Hwf Hnd Hfit) as (out & Hout & Hndo & Hview).
  apply sm_wp_bind. unfold sm_wp at 1, sm_lift. rewrite Hout.
  pose proof (processed_fit _ _ Hfit) as Hfit'. rewrite <-Hview in Hfit'.
  rewrite as_u32_small by lia. pose proof (fresh_offset s Hwf) as Hi.
  set (i := internal_size (seg_id_tracker s)) in *. apply sm_wp_bind.
  eapply sm_wp_mono; [by apply insert_all_wp| |done]. intros _ s1 (d' & -> & Hw).
  apply sm_wp_bind. unfold on_tracker. apply sm_wp_zoom. cbn [seg_id_tracker set_vector_data].
  eapply sm_wp_mono; [apply set_link_spec; [apply Hwf|done..]| |done]. intros ? t1 Ht1. apply sm_wp_ret. cbn.
  eapply sm_wp_mono; [apply version_wp, Ht1| |done]. intros ? t2 Ht2. rewrite recover_error_eq.
  destruct (core_link _ _ _ _ _ _ _ _ _ _ _ Hwf Hw Hfit' Hsize He Hi Ht1 Ht2) as [Hwf2 Hpt].
  unfold op_post, reported. cbn. rewrite He. split_and!; try done.
  - rewrite (abs_point_None s e He). destruct Ht1 as (_ & _ & _ & Hsz1), Ht2 as (_ & _ & _ & _ & _ & Hsz2). cbn. lia.
  - by rewrite (abs_point_None s e He).
  - intros e'. unfold abs_point at 1. cbn. rewrite Hpt. destruct (decide (e' = e)) as [->|]; [|done].
    by rewrite (abs_point_None s e He), Hview.
Qed.

Lemma delete_wp n e i s :
  seg_wf s → accepts s n → is_stale s n (Some i) = false → internal_id (seg_id_tracker s) e = Some i →
  sm_wp (run_seg_op n (OpDelete e)) (op_post n (OpDelete e) s) (λ _ _, True) s.
Proof using.
  intros Hwf Hacc Hst He. cbn [run_seg_op]. unfold delete_point. apply sm_wp_bind.
  unfold sm_wp at 1, sm_get. rewrite He. apply handle_op_wp; [done..|]. unfold delete_operation.
  apply sm_wp_bind. unfold on_payload_index. apply sm_wp_zoom.
  eapply sm_wp_mono; [apply pi_drop_spec, Hwf| |done]. intros _ p' [Hp' Hst'].
  destruct (core_payload _ _ _ _ _ _ None p' Hwf He Hp' Hst') as [Hwf1 Hpt1].
  apply sm_wp_bind. unfold on_tracker. apply sm_wp_zoom. cbn [seg_id_tracker set_payload_index].
  eapply sm_wp_mono; [apply tracker_drop_spec, Hwf| |done]. intros ? t1 Ht1. apply sm_wp_ret. cbn.
  eapply sm_wp_mono; [apply version_wp, Ht1| |done]. intros ? t2 Ht2. rewrite recover_error_eq.
  destruct (core_drop _ _ _ _ _ _ _ Hwf1 He ltac:(by rewrite Hst', decide_True) Ht1) as [Hwf2 Hpt2].
  destruct (core_version _ _ _ _ _ _ _ Hwf2 Ht2) as [Hwf3 Hpt3].
  unfold op_post, reported. cbn. split_and!; try done.
  - destruct (external_id t2 i) as [e'|] eqn:Hx; [exfalso|done].
    apply internal_external in Hx; [|apply Hwf3]. destruct Ht1 as (_ & Hid1 & _), Ht2 as (_ & Hid2 & _).
    rewrite Hid2, Hid1 in Hx. destruct (decide (e' = e)); [done|]. by apply (offset_of s e e' i) in Hx.
  - destruct Ht1 as (_ & _ & _ & Hsz1), Ht2 as (_ & _ & _ & _ & _ & Hsz2). cbn in Hsz1. lia.
  - rewrite (abs_point_Some s e i He). by rewrite bool_decide_true.
  - intros e'. unfold abs_point at 1. cbn. rewrite Hpt3, decide_False, Hpt2, Hpt1.
    { by destruct (decide (e' = e)). }
    destruct Ht1 as (_ & -> & _). destruct (decide (e' = e)); [done|]. by rewrite (offset_of s e e' i).
Qed.

Lemma update_payload_wp {A} n (op : seg_op Num) (update : PointOffsetType → sm PI OperationError A) i iop s :
  seg_wf s → accepts s n → is_stale s n (Some i) = false →
  internal_id (seg_id_tracker s) (seg_op_point op) = Some i → seg_op_index op i = Some iop →
  sm_wp (update i) (λ _ p', pi_wf p' ∧
    ∀ j, pi_stored p' j = if decide (j = i) then index_op_payload iop (pi_stored (seg_payload_index s) i)
                          else pi_stored (seg_payload_index s) j) (λ _ _, True) (seg_payload_index s) →
  sm_wp (update_payload display_id n (seg_op_point op) update) (op_post n op s) (λ _ _, True) s.
Proof using.
  intros Hwf Hacc Hst He Hop Hup. unfold update_payload. apply sm_wp_bind. unfold sm_wp at 1, sm_get. rewrite He.
  apply handle_op_wp; [done..|]. unfold payload_operation. apply sm_wp_bind. unfold on_payload_index. apply sm_wp_zoom.
  eapply sm_wp_mono; [exact Hup| |done]. intros _ p' [Hp' Hst']. apply sm_wp_ret. cbn.
  destruct (core_payload _ _ _ _ _ _ _ p' Hwf He Hp' Hst') as [Hwf1 Hpt1].
  eapply sm_wp_mono; [apply version_wp, Hwf| |done]. intros ? t' Ht'. rewrite recover_error_eq.
  destruct (core_version _ _ _ _ _ _ _ Hwf1 Ht') as [Hwf2 Hpt2].
  unfold op_post, reported. cbn. rewrite He. split_and!; try done.
  - rewrite (core_external _ _ _ _ (seg_op_point op) i Hwf2) by (by destruct Ht' as (_ & -> & _)). by destruct op.
  - rewrite (abs_point_Some s _ i He). destruct Ht' as (_ & _ & _ & _ & _ & Hsz). cbn in Hsz. destruct op; cbn; lia.
  - rewrite (abs_point_Some s _ i He). by rewrite bool_decide_true.
  - intros e'. unfold abs_point at 1. cbn. rewrite Hpt2, Hpt1. change (core_point _ _ _ e') with (abs_point s e').
    destruct (decide (e' = seg_op_point op)) as [->|Hne].
    + rewrite decide_True by done. rewrite (abs_point_Some s _ i He). by destruct op; cbn in Hop; simplify_eq.
    + by rewrite decide_False by (by rewrite (offset_of s (seg_op_point op) e' i)).
Qed.

Lemma run_seg_op_wp n op s :
  seg_wf s → accepts s n → op_valid s op →
  is_stale s n (internal_id (seg_id_tracker s) (seg_op_point op)) = false →
  sm_wp (run_seg_op n op) (op_post n op s) (λ _ _, True) s.
Proof using HSL VectorStorageLaws0.
  intros Hwf Hacc Hv Hst. destruct op as [e vs|e|e p|e p|e key|e].
  - cbn [seg_op_point] in Hst. destruct (internal_id (seg_id_tracker s) e) as [i|] eqn:He.
    + by apply (upsert_existing_wp n e vs i).
    + by apply upsert_new_wp.
  - destruct Hv as [i He]. cbn in Hst. rewrite He in Hst. by apply (delete_wp n e i).
  - destruct Hv as (i & iop & He & [= <-] & _). rewrite He in Hst.
    apply (update_payload_wp n (OpSetFull e p) _ i (IAssignAll i p)); try done. apply pi_assign_all_spec, Hwf.
  - destruct Hv as (i & iop & He & [= <-] & Hsafe). rewrite He in Hst.
    apply (update_payload_wp n (OpSet e p) _ i (IAssign i p)); try done. apply pi_assign_spec; [apply Hwf|by right].
  - destruct Hv as (i & iop & He & [= <-] & Hsafe). rewrite He in Hst.
    apply (update_payload_wp n (OpDeleteKey e key) _ i (IDelete i key)); try done. by apply pi_delete_spec; [apply Hwf|].
  - destruct Hv as (i & iop & He & [= <-] & _). rewrite He in Hst.
    apply (update_payload_wp n (OpClear e) _ i (IDrop i)); try done. apply pi_drop_spec, Hwf.
Qed.

(** *** Operations that are not applied *)

Lemma handle_failed n offset op (s : Seg) st :
  seg_error_status s = Some st → (failed_version st < n)%N →
  handle_version_and_failure display_id n offset op s =
    (Err (service_error ("Not recovered from previous error: " +:+ display_error display_id (failed_error st))), s).
Proof using. intros Hes Hlt. unfold handle_version_and_failure. by rewrite Hes, (proj2 (N.ltb_lt _ _) Hlt). Qed.

Lemma handle_stale n offset op (s : Seg) :
  seg_error_status s = None → is_stale s n offset = true →
  handle_version_and_failure display_id n offset op s = (Ok false, s).
Proof using.
  intros Hes Hst. unfold handle_version_and_failure, handle_and_record, handle_version. unfold is_stale in Hst.
  rewrite Hes, Hst. cbn. unfold recover_error. by rewrite Hes.
Qed.

(** An operation that fails with a client error in the state it got. *)
Lemma handle_client_error n offset op (s : Seg) err :
  seg_error_status s = None → is_stale s n offset = false → op s = (Err err, s) →
  get_service_error (Err err : OperationResult bool) = None →
  handle_version_and_failure display_id n offset op s = (Err err, s).
Proof using.
  intros Hes Hst Hop Herr. unfold handle_version_and_failure, handle_and_record, handle_version. unfold is_stale in Hst.
  rewrite Hes, Hst, Hop. cbn -[get_service_error]. rewrite Herr. unfold recover_error. by rewrite Hes.
Qed.

(** A loop of checks: all pass, or the first that does not decides. *)
Lemma res_map_checks {A E} (f : A → result E unit) l :
  (∀ x, f x ≠ Panic) →
  (∃ o, res_map f l = Ok o ∧ ∀ x, x ∈ l → f x = Ok tt) ∨ ∃ x e, x ∈ l ∧ f x = Err e ∧ res_map f l = Err e.
Proof using.
  intros Hf. induction l as [|x l IH]; cbn.
  { left. eexists. split; [done|]. by intros x ?%elem_of_nil. }
  specialize (Hf x). destruct (f x) as [[]|e|] eqn:Hx; [|right; exists x, e; by repeat constructor|done]. cbn.
  destruct IH as [(o & -> & Hall)|(y & e & Hy & Hfy & ->)].
  - left. eexists. split; [done|]. by intros y [->|Hy]%elem_of_cons; [|apply Hall].
  - right. exists y, e. split_and!; [by right|done..].
Qed.

(** Why the vectors of an upsert are refused. *)
Definition upsert_error (s : Seg) (vs : NamedVectors) (err : OperationError) : Prop :=
  match err with
  | VectorNameNotExists name => name ∈ vs.*1 ∧ seg_cfgs s !! name = None
  | MissedVectorName name => is_Some (seg_cfgs s !! name) ∧ name ∉ vs.*1
  | WrongVector expected received => ∃ name v cfg, (name, v) ∈ vs ∧ seg_cfgs s !! name = Some cfg ∧
      expected = vdc_size cfg ∧ received = length v ∧ received ≠ expected
  | _ => False
  end.

Lemma tm_contains_keys (vs : NamedVectors) name : tm_contains_key name vs = bool_decide (name ∈ vs.*1).
Proof using.
  rewrite tm_contains_view. apply bool_decide_ext. unfold tm_view. destruct (list_to_map vs !! name) eqn:E.
  - split; [|eauto]. intros _. apply (elem_of_list_to_map_2 (M:=gmap string)) in E. by apply (list_elem_of_fmap_2 fst) in E.
  - apply not_elem_of_list_to_map_2 in E. split; [by intros []|done].
Qed.

Lemma check_vectors_set_cases vs (s : Seg) :
  (check_vectors_set vs (seg_config s) = Ok tt ∧ ∀ name, is_Some (seg_cfgs s !! name) ↔ name ∈ vs.*1) ∨
  ∃ err, check_vectors_set vs (seg_config s) = Err err ∧ upsert_error s vs err.
Proof using.
  unfold check_vectors_set.
  destruct (res_map_checks (λ name, check_vector_name name (seg_config s)) vs.*1) as [(o & -> & Hall)|(x & e & Hx & Hf & ->)].
  { intros x. unfold check_vector_name. by destruct (_ !! x). }
  - cbn. destruct (res_map_checks (λ name, if tm_contains_key name vs then Ok tt else Err (MissedVectorName name))
      (map_to_list (sc_vector_data (seg_config s))).*1) as [(o' & -> & Hall')|(x & e & Hx & Hf & ->)].
    { intros x. by destruct (tm_contains_key x vs). }
    + left. split; [done|]. intros name. split.
      * intros [cfg Hc]. specialize (Hall' name). rewrite tm_contains_keys in Hall'.
        destruct (bool_decide_reflect (name ∈ vs.*1)) as [|Hn]; [done|]. discriminate Hall'.
        apply list_elem_of_fmap. exists (name, cfg). split; [done|]. by apply elem_of_map_to_list.
      * intros Hn. specialize (Hall name Hn). unfold check_vector_name, seg_cfgs in *.
        destruct (_ !! name); [eauto|done].
    + right. exists e. split; [done|]. rewrite tm_contains_keys in Hf. case_bool_decide as Hn; [done|].
      injection Hf as <-. split; [|done]. apply list_elem_of_fmap in Hx as ([? cfg] & -> & Hc%elem_of_map_to_list).
      eexists. exact Hc.
  - right. exists e. split; [done|]. unfold check_vector_name in Hf. destruct (_ !! x) eqn:Hc; [done|].
    by injection Hf as <-.
Qed.

Lemma process_fold_cases (s : Seg) (l acc : NamedVectors) :
  seg_wf s → (∀ name, name ∈ l.*1 → is_Some (seg_cfgs s !! name)) →
  (∀ name v cfg, (name, v) ∈ l → seg_cfgs s !! name = Some cfg → length v = vdc_size cfg) ∨
  ∃ name v cfg, (name, v) ∈ l ∧ seg_cfgs s !! name = Some cfg ∧ length v ≠ vdc_size cfg ∧
    res_fold (process_vector s) l acc = Err (WrongVector (vdc_size cfg) (length v)).
Proof using.
  intros Hwf. revert acc. induction l as [|[name v] l IH]; intros acc Hn.
  { left. by intros name v cfg ?%elem_of_nil. }
  destruct (Hn name) as [cfg Hc]; [by left|].
  pose proof (cw_data _ _ _ _ Hwf name) as Hdata. rewrite Hc in Hdata.
  apply option_Forall2_Some_l in Hdata as (vd & Hd & _ & Hdim & _ & _).
  cbn [res_fold process_vector]. unfold map_get. rewrite Hd. cbn [unwrap mbind result_bind].
  destruct (decide _) as [Hne|Heq].
  - right. exists name, v, cfg. rewrite Hdim in *. split_and!; [by left|done|by apply not_eq_sym|done].
  - apply dec_stable in Heq. pose proof Hc as Hc'. unfold seg_cfgs in Hc'. rewrite Hc'. cbn [unwrap mbind result_bind].
    edestruct IH as [Hall|(k & w & c & Hk & Hck & Hlen & ->)].
    { intros k Hk. apply Hn. by right. }
    + left. intros k w c [[= -> ->]|Hk]%elem_of_cons Hck; [congruence|by eapply Hall].
    + right. exists k, w, c. by split_and!; [right|..].
Qed.

(** An operation that is too old is skipped. *)
Lemma stale_op_skipped (n : SeqNumberType) (op : seg_op Num) (s : Seg) :
  seg_error_status s = None → is_stale s n (internal_id (seg_id_tracker s) (seg_op_point op)) = true →
  (∀ e vs, op = OpUpsert e vs → check_vectors_set vs (seg_config s) = Ok tt) →
  run_seg_op n op s = (Ok false, s).
Proof using.
  intros Hes Hst Hnames. destruct op as [e vs|e|e p|e p|e key|e]; cbn [run_seg_op seg_op_point] in *.
  - unfold upsert_vector, mbind, sm_bind, sm_get, sm_lift. rewrite (Hnames e vs) by done. by apply handle_stale.
  - unfold delete_point, mbind, sm_bind, sm_get. destruct (internal_id (seg_id_tracker s) e); [by apply handle_stale|done].
  - by apply handle_stale.
  - by apply handle_stale.
  - by apply handle_stale.
  - by apply handle_stale.
Qed.

(** While a failure is not recovered, a newer operation is refused. *)
Lemma failed_op_refused (n : SeqNumberType) (op : seg_op Num) (s : Seg) st :
  seg_error_status s = Some st → (failed_version st < n)%N →
  ∃ r, run_seg_op n op s = (r, s) ∧ r ≠ Panic ∧
    ∀ b, r = Ok b → b = false ∧ op = OpDelete (seg_op_point op) ∧ abs_point s (seg_op_point op) = None.
Proof using.
  intros Hes Hlt. destruct op as [e vs|e|e p|e p|e key|e]; cbn [run_seg_op seg_op_point].
  - unfold upsert_vector, mbind, sm_bind, sm_get, sm_lift.
    destruct (check_vectors_set_cases vs s) as [[-> _]|(err & -> & _)]; [|by eexists].
    rewrite (handle_failed _ _ _ _ st) by done. by eexists.
  - unfold delete_point, mbind, sm_bind, sm_get. destruct (internal_id (seg_id_tracker s) e) eqn:He.
    + rewrite (handle_failed _ _ _ _ st) by done. by eexists.
    + eexists. split_and!; [done|done|]. intros b [= <-]. split_and!; [done..|]. by apply abs_point_None.
  - eexists. unfold set_full_payload, update_payload, mbind, sm_bind, sm_get. by rewrite (handle_failed _ _ _ _ st).
  - eexists. unfold set_payload, update_payload, mbind, sm_bind, sm_get. by rewrite (handle_failed _ _ _ _ st).
  - eexists. unfold delete_payload, update_payload, mbind, sm_bind, sm_get. by rewrite (handle_failed _ _ _ _ st).
  - eexists. unfold clear_payload, update_payload, mbind, sm_bind, sm_get. by rewrite (handle_failed _ _ _ _ st).
Qed.

(** C31: operations that must not be applied change nothing.  While a failure
    of operation [v] is not recovered, an operation newer than [v] returns an
    error (or, for the deletion of an absent point, [false]) and leaves the
    segment exactly as it was.  On a segment without failure, an operation
    older than its point (older than the segment, if the point does not exist)
    returns [false] and leaves the segment exactly as it was; of an upsert this
    is said when it names the vectors of the segment, as otherwise its names
    are refused before its age is looked at. *)
Theorem skipped_op_unchanged (n : SeqNumberType) (op : seg_op Num) (s : Seg) :
  (∀ st, seg_error_status s = Some st → (failed_version st < n)%N →
    ∃ r, run_seg_op n op s = (r, s) ∧ r ≠ Panic ∧
      ∀ b, r = Ok b → b = false ∧ op = OpDelete (seg_op_point op) ∧ abs_point s (seg_op_point op) = None) ∧
  (seg_error_status s = None →
    is_stale s n (internal_id (seg_id_tracker s) (seg_op_point op)) = true →
    (∀ e vs, op = OpUpsert e vs → check_vectors_set vs (seg_config s) = Ok tt) →
    run_seg_op n op s = (Ok false, s)).
Proof using. split; [intros st; apply failed_op_refused|apply stale_op_skipped]. Qed.

Lemma upsert_refused n e vs (s : Seg) :
  seg_wf s → seg_error_status s = None → NoDup vs.*1 →
  is_stale s n (internal_id (seg_id_tracker s) e) = false → ¬ vectors_fit (seg_cfgs s) (tm_view vs) →
  ∃ err, run_seg_op n (OpUpsert e vs) s = (Err err, s) ∧ upsert_error s vs err.
Proof using.
  intros Hwf Hes Hnd Hst Hfit. cbn [run_seg_op]. unfold upsert_vector, mbind, sm_bind, sm_get, sm_lift.
  destruct (check_vectors_set_cases vs s) as [[-> Hn]|(err & -> & Herr)]; [|by exists err].
  destruct (process_fold_cases s vs [] Hwf) as [Hlen|(name & v & cfg & Hin & Hc & Hlen & Hp)].
  { intros name. apply Hn. }
  - destruct Hfit. intros name. specialize (Hn name). destruct (tm_view vs !! name) as [v|] eqn:Hv.
    + apply elem_of_tm_view in Hv; [|done]. destruct (proj2 Hn) as [cfg Hc].
      { by apply (list_elem_of_fmap_2 fst) in Hv. }
      rewrite Hc. constructor. by eapply Hlen.
    + unfold tm_view in Hv. apply not_elem_of_list_to_map_2 in Hv.
      destruct (seg_cfgs s !! name); [|constructor]. destruct Hv. by apply Hn.
  - exists (WrongVector (vdc_size cfg) (length v)). split; [|by exists name, v, cfg]. apply handle_client_error; try done.
    unfold upsert_operation, mbind, sm_bind, sm_get, sm_lift, process_vectors. by rewrite Hp.
Qed.

(** A payload update of a point that is not there. *)
Definition updates_payload (op : seg_op Num) : bool :=
  match op with OpUpsert _ _ | OpDelete _ => false | _ => true end.

Lemma absent_update n (op : seg_op Num) (s : Seg) :
  seg_error_status s = None → updates_payload op = true → abs_point s (seg_op_point op) = None →
  run_seg_op n op s = (if is_stale s n None then Ok false else Err (PointIdError (seg_op_point op)), s).
Proof using.
  intros Hes Hop Habs. assert (internal_id (seg_id_tracker s) (seg_op_point op) = None) as He.
  { destruct (internal_id _ _) as [i|] eqn:He; [|done]. by rewrite (abs_point_Some s _ i He) in Habs. }
  destruct (is_stale s n None) eqn:Hst; [apply stale_op_skipped; [done|by rewrite He|by intros e vs ->]|].
  destruct op as [e vs|e|e p|e p|e key|e]; cbn [run_seg_op seg_op_point] in *; try done;
    unfold set_full_payload, set_payload, delete_payload, clear_payload, update_payload, mbind, sm_bind, sm_get;
    rewrite He; by apply handle_client_error.
Qed.

Lemma upsert_unfit n e vs (s : Seg) :
  seg_wf s → seg_error_status s = None → NoDup vs.*1 → ¬ vectors_fit (seg_cfgs s) (tm_view vs) →
  ∃ r, run_seg_op n (OpUpsert e vs) s = (r, s) ∧
    ((∃ err, r = Err err ∧ upsert_error s vs err) ∨
     is_stale s n (internal_id (seg_id_tracker s) e) = true ∧ check_vectors_set vs (seg_config s) = Ok tt ∧ r = Ok false).
Proof using.
  intros Hwf Hes Hnd Hfit. destruct (is_stale s n (internal_id (seg_id_tracker s) e)) eqn:Hst.
  - destruct (check_vectors_set_cases vs s) as [[Hn _]|(err & Herr & Hwhy)].
    + exists (Ok false). split; [|by right]. apply stale_op_skipped; [done|done|]. by intros e' vs' [= <- <-].
    + exists (Err err). split; [|left; eauto]. cbn [run_seg_op]. unfold upsert_vector, mbind, sm_bind, sm_get, sm_lift. by rewrite Herr.
  - destruct (upsert_refused n e vs s Hwf Hes Hnd Hst Hfit) as (err & Hrun & Hwhy). exists (Err err). split; [done|left; eauto].
Qed.

(** C30: operations a client got wrong leave no trace.  On a segment without
    failure, an upsert whose vectors do not fit the configuration is refused
    with an error that names what is wrong (an unknown name, a missing name or
    a vector of the wrong length), unless its names are right and it is older
    than its point (than the segment, without one), in which case it is skipped
    with [false]; and a payload update of an absent point is refused with
    [PointIdError], or skipped with [false] when it is older than the segment.
    In every case the segment is exactly as before, so it stays in service. *)
Theorem client_error_unchanged (n : SeqNumberType) (s : Seg) (Hwf : seg_wf s) (Hes : seg_error_status s = None) :
  (∀ e vs, NoDup vs.*1 → ¬ vectors_fit (seg_cfgs s) (tm_view vs) →
    ∃ r, run_seg_op n (OpUpsert e vs) s = (r, s) ∧
      ((∃ err, r = Err err ∧ upsert_error s vs err) ∨
       is_stale s n (internal_id (seg_id_tracker s) e) = true ∧ check_vectors_set vs (seg_config s) = Ok tt ∧ r = Ok false)) ∧
  (∀ (op : seg_op Num), updates_payload op = true → abs_point s (seg_op_point op) = None →
    run_seg_op n op s = (if is_stale s n None then Ok false else Err (PointIdError (seg_op_point op)), s)).
Proof using. split; [intros; by apply upsert_unfit|intros; by apply absent_update]. Qed.

(** C1: an accepted operation does what the abstract segment does.  A valid
    operation that is not stale never panics; if it reports success, its point
    is the one of [seg_op_effect] and every other point is unchanged, the result
    says whether the point existed, the version of the segment is raised to
    the number of the operation, and the invariant holds again. *)
Theorem segment_refines (n : SeqNumberType) (op : seg_op Num) (s : Seg)
  (Hwf : seg_wf s) (Hacc : accepts s n) (Hvalid : op_valid s op)
  (Hst : is_stale s n (internal_id (seg_id_tracker s) (seg_op_point op)) = false) :
  sm_wp (run_seg_op n op) (op_post n op s) (λ _ _, True) s.
Proof using HSL VectorStorageLaws0. by apply run_seg_op_wp. Qed.

(** C32: a deletion that failed cannot be recovered by its retry.  The failure
    of a deletion is recorded under its point, but the handler looks the point
    up after the retry removed it, so the comparison fails: the retry succeeds
    and deletes the point, yet the failed state stays.  From then on every newer
    operation, of any kind and on any point, changes nothing and returns an
    error, except that the deletion of a point that is not there returns
    [false]. *)
Theorem delete_retry_stuck (n : SeqNumberType) (e : PointIdType) (s : Seg) st
  (Hwf : seg_wf s) (Hes : seg_error_status s = Some st) (Hpoint : failed_point_id st = Some e)
  (Hn : (n ≤ failed_version st)%N) (He : is_Some (abs_point s e))
  (Hst : is_stale s n (internal_id (seg_id_tracker s) e) = false) :
  sm_wp (delete_point (Num:=Num) display_id n e) (λ b s', b = true ∧ abs_point s' e = None ∧
    seg_error_status s' = Some st ∧
    ∀ m (op : seg_op Num), (failed_version st < m)%N →
      run_seg_op m op s' = (Ok false, s') ∧ op = OpDelete (seg_op_point op) ∧ abs_point s' (seg_op_point op) = None ∨
      ∃ err, run_seg_op m op s' = (Err err, s')) (λ _ _, True) s.
Proof using HS.
  assert (is_Some (internal_id (seg_id_tracker s) e)) as [i Hi].
  { destruct (internal_id _ e) eqn:Hi; [eauto|]. rewrite (abs_point_None s e Hi) in He. by destruct He. }
  assert (accepts s n) as Hacc by (unfold accepts; by rewrite Hes). rewrite Hi in Hst.
  eapply sm_wp_mono; [by apply (delete_wp n e i)| |done]. intros b s' (_ & _ & _ & Hes' & _ & _ & Hb & Hpt).
  assert (seg_error_status s' = Some st) as Hstuck by (rewrite Hes', Hes; cbn; by rewrite decide_False by congruence).
  split_and!; [rewrite Hb; by apply bool_decide_true|rewrite Hpt; cbn; by rewrite decide_True|done|].
  intros m op Hm. destruct (failed_op_refused m op s' st Hstuck Hm) as (r & Hr & Hp & Hok).
  destruct r as [b'|err|]; [left|right; eauto|done]. by destruct (Hok b' eq_refl) as (-> & ? & ?).
Qed.

(** *** Reads *)

(** A live point passes the filter. *)
Definition point_matches (s : Seg) (filter : Filter) (e : PointIdType) : bool :=
  match abs_point s e with
  | Some pt => check_payload (default ∅ (pt_payload pt)) (Some e) filter
  | None => false
  end.

Definition from_offset (offset : option PointIdType) (e : PointIdType) : bool :=
  match offset with Some off => point_id_leb off e | None => true end.

(** The page a scroll should return. *)
Definition page (s : Seg) (offset : option PointIdType) (limit : option nat) (filter : option Filter) :
    list PointIdType :=
  take_limit limit (base.filter (λ e, from_offset offset e && map_or true (λ f, point_matches s f e) filter = true)
                      (iter_points s)).

Lemma fmap_filter {A B} (f : A → B) (P : A → bool) (Q : B → bool) (l : list A) :
  (∀ x, x ∈ l → P x = Q (f x)) →
  f <$> base.filter (λ x, P x = true) l = base.filter (λ y, Q y = true) (f <$> l).
Proof using.
  induction l as [|x l IH]; intros HPQ; [done|]. rewrite fmap_cons, !filter_cons, (HPQ x) by left.
  assert (∀ y, y ∈ l → P y = Q (f y)) as Hl by (intros y Hy; apply HPQ; by right).
  destruct (Q (f x)); cbn [decide]; rewrite <-IH by done; done.
Qed.

Lemma iter_points_eq (s : Seg) : seg_wf s → iter_points s = (iter_from (seg_id_tracker s) None).*1.
Proof using. intros Hwf. apply iter_external_from, Hwf. Qed.

Lemma elem_of_iter_points (s : Seg) e : seg_wf s → e ∈ iter_points s ↔ is_Some (internal_id (seg_id_tracker s) e).
Proof using.
  intros Hwf. rewrite iter_points_eq, list_elem_of_fmap by done. split.
  - intros ([? i] & -> & Hi). exists i. apply elem_of_iter_from; [apply Hwf|done].
  - intros [i Hi]. exists (e, i). split; [done|]. apply elem_of_iter_from; [apply Hwf|done].
Qed.

Lemma iter_points_sorted (s : Seg) : seg_wf s → StronglySorted (λ a b, point_id_ltb a b = true) (iter_points s).
Proof using. intros Hwf. rewrite iter_points_eq by done. apply iter_from_sorted, Hwf. Qed.

Lemma iter_from_filter (s : Seg) offset :
  seg_wf s → iter_from (seg_id_tracker s) offset =
    base.filter (λ p, from_offset offset p.1 = true) (iter_from (seg_id_tracker s) None).
Proof using.
  intros Hwf. destruct offset as [off|]; [by apply iter_from_offset, Hwf|]. symmetry. by apply list_filter_all.
Qed.

Lemma iter_from_ids (s : Seg) offset :
  seg_wf s → (iter_from (seg_id_tracker s) offset).*1 = base.filter (λ e, from_offset offset e = true) (iter_points s).
Proof using. intros Hwf. rewrite iter_from_filter, iter_points_eq by done. by apply fmap_filter. Qed.

Lemma filter_and {A} (P Q : A → bool) (l : list A) :
  base.filter (λ x, Q x = true) (base.filter (λ x, P x = true) l) = base.filter (λ x, P x && Q x = true) l.
Proof using. rewrite list_filter_filter. apply list_filter_iff. intros x. rewrite andb_true_iff. tauto. Qed.

Lemma stream_page (s : Seg) offset limit filter :
  seg_wf s → pi_filter_ok filter = true →
  filtered_read_by_id_stream (Num:=Num) s offset limit filter = Ok (page s offset limit (Some filter)).
Proof using.
  intros Hwf Hok. unfold filtered_read_by_id_stream, page.
  destruct (pi_context_spec (seg_id_tracker s) (seg_payload_index s) filter) as (check & -> & Hcheck); [apply Hwf..|done|].
  cbn [mbind result_bind]. f_equal. f_equal.
  rewrite <-(filter_and (from_offset offset)), <-iter_from_ids by done. apply fmap_filter.
  intros [e i] Hin. rewrite iter_from_filter in Hin by done. apply list_elem_of_filter in Hin as [_ Hin].
  apply elem_of_iter_from in Hin; [|apply Hwf]. cbn [fst snd map_or]. unfold point_matches.
  rewrite (abs_point_Some s e i Hin), Hcheck.
  by rewrite (core_external _ _ _ _ _ _ Hwf Hin).
Qed.

Lemma StronglySorted_weaken {A} (R S : relation A) l :
  (∀ x y, R x y → S x y) → StronglySorted R l → StronglySorted S l.
Proof using.
  intros HRS. induction 1 as [|x l Hs IH Hf]; constructor; [done|]. eapply Forall_impl; [exact Hf|auto].
Qed.

Lemma StronglySorted_NoDup {A} (R : relation A) l : (∀ x, ¬ R x x) → StronglySorted R l → NoDup l.
Proof using.
  intros HR. induction 1 as [|x l Hs IH Hf]; constructor; [|done]. intros Hx.
  rewrite Forall_forall in Hf. by apply (HR x), Hf.
Qed.

Lemma StronglySorted_take {A} (R : relation A) n l : StronglySorted R l → StronglySorted R (take n l).
Proof using.
  intros Hs. revert n. induction Hs as [|x l Hs IH Hf]; intros [|n]; cbn; constructor; [done|by apply Forall_take].
Qed.

Lemma NoDup_omap {A B} (f : A → option B) l :
  (∀ x y z, f x = Some z → f y = Some z → x = y) → NoDup l → NoDup (omap f l).
Proof using.
  intros Hinj. induction 1 as [|x l Hx Hnd IH]; cbn; [constructor|]. destruct (f x) as [z|] eqn:Hz; [|done].
  constructor; [|done]. intros (y & Hy & Hfy)%list_elem_of_omap. by rewrite (Hinj x y z) in Hx.
Qed.

Lemma iter_points_le (s : Seg) : seg_wf s → StronglySorted point_id_le (iter_points s) ∧ NoDup (iter_points s).
Proof using.
  intros Hwf. pose proof (iter_points_sorted s Hwf) as Hs. split.
  - eapply StronglySorted_weaken; [|exact Hs]. intros a b Hab. unfold point_id_ltb in Hab. apply negb_true_iff in Hab.
    destruct (point_id_le_total a b) as [|Hba]; [done|]. unfold point_id_le in Hba. congruence.
  - eapply StronglySorted_NoDup; [|exact Hs]. intros x Hx. unfold point_id_ltb in Hx. apply negb_true_iff in Hx.
    pose proof (point_id_le_refl x) as Hr. unfold point_id_le in Hr. congruence.
Qed.

(** The id a point of a query contributes to the page. *)
Lemma page_id_Some (t : T) offset i e :
  (e ← external_id t i;
   match offset with
   | Some offset => if point_id_ltb e offset then None else Some e
   | None => Some e
   end) = Some e ↔ external_id t i = Some e ∧ from_offset offset e = true.
Proof using.
  destruct (external_id t i) as [x|]; cbn; [|by split; [|intros []]].
  destruct offset as [off|]; cbn; [|by split; [|intros [? _]]].
  unfold point_id_ltb. destruct (point_id_leb off x) eqn:Hx; cbn.
  - split; [by intros [= ->]|by intros [? _]].
  - split; [done|]. intros [[= ->] ?]. congruence.
Qed.

Lemma query_ids_sorted (s : Seg) offset filter points :
  seg_wf s → NoDup points →
  (∀ i, i ∈ points ↔ is_Some (external_id (seg_id_tracker s) i) ∧
    check_payload (default ∅ (pi_stored (seg_payload_index s) i)) (external_id (seg_id_tracker s) i) filter = true) →
  sort_ids (omap (λ i, e ← external_id (seg_id_tracker s) i;
    match offset with
    | Some offset => if point_id_ltb e offset then None else Some e
    | None => Some e
    end) points) =
  base.filter (λ e, from_offset offset e && point_matches s filter e = true) (iter_points s).
Proof using.
  intros Hwf Hnd Hin. destruct (iter_points_le s Hwf) as [Hle Hnd'].
  apply (StronglySorted_unique point_id_le).
  { apply StronglySorted_merge_sort; apply _. }
  { by apply StronglySorted_filter. }
  unfold sort_ids. rewrite merge_sort_Permutation. apply NoDup_Permutation.
  - apply NoDup_omap; [|done]. intros i j e Hi Hj. apply page_id_Some in Hi as [Hi _], Hj as [Hj _].
    apply internal_external in Hi, Hj; [congruence|apply Hwf..].
  - by apply NoDup_filter.
  - intros e. rewrite list_elem_of_omap, list_elem_of_filter, elem_of_iter_points, andb_true_iff by done.
    unfold point_matches. split.
    + intros (i & Hi & He). apply page_id_Some in He as [He Hoff]. apply Hin in Hi as [_ Hc]. rewrite He in Hc.
      apply internal_external in He; [|apply Hwf]. rewrite (abs_point_Some s e i He). eauto.
    + intros [[Hoff Hm] [i Hi]]. rewrite (abs_point_Some s e i Hi) in Hm. cbn in Hm. exists i.
      pose proof (core_external _ _ _ _ _ _ Hwf Hi) as He. rewrite page_id_Some, Hin, He. eauto.
Qed.

Lemma index_page (s : Seg) offset limit filter :
  seg_wf s → pi_filter_ok filter = true →
  filtered_read_by_index (Num:=Num) s offset limit filter = Ok (page s offset limit (Some filter)).
Proof using.
  intros Hwf Hok.
  destruct (pi_query_spec (seg_id_tracker s) (seg_payload_index s) filter) as (points & Hq & Hnd & Hin);
    [apply Hwf..|done|apply Hwf|].
  unfold filtered_read_by_index, page. rewrite Hq. cbn [mbind result_bind map_or].
  rewrite <-(query_ids_sorted s offset filter points Hwf Hnd Hin). unfold take_limit. destruct limit as [n|].
  - rewrite (peek_top_smallest_take point_id_leb (RelDecision0 := point_id_le_dec)
      point_id_le_total point_id_le_trans point_id_le_antisymm).
    cbn [mbind result_bind]. f_equal. unfold sort_ids. apply (StronglySorted_unique point_id_le).
    + apply StronglySorted_merge_sort; apply _.
    + apply StronglySorted_take. apply (StronglySorted_merge_sort point_id_le).
    + apply merge_sort_Permutation.
  - cbn [mbind result_bind]. done.
Qed.

Lemma read_filtered_eq (s : Seg) offset limit (filter : option Filter) :
  seg_wf s → map_or true pi_filter_ok filter = true →
  read_filtered (Num:=Num) s offset limit filter = Ok (page s offset limit filter).
Proof using.
  intros Hwf Hok. unfold read_filtered. destruct filter as [filter|].
  - destruct (pi_estimate_spec (seg_id_tracker s) (seg_payload_index s) filter) as [e ->]; [apply Hwf|done|].
    cbn [mbind result_bind]. destruct (_ <? _)%N; [by apply index_page|by rewrite stream_page].
  - unfold page. do 2 f_equal. rewrite iter_from_ids by done. apply list_filter_iff. intros e. cbn. by rewrite andb_true_r.
Qed.

Lemma elem_of_points (s : Seg) e : seg_wf s → e ∈ iter_points s ↔ is_Some (abs_point s e).
Proof using.
  intros Hwf. rewrite elem_of_iter_points by done. unfold abs_point, core_point.
  destruct (internal_id _ e); cbn; split; eauto; by intros [].
Qed.

(** C28: a scroll returns the page it should, whatever strategy it takes.
    [read_filtered] returns without error the ids of the live points from the
    offset on that pass the filter, in ascending order, cut at the limit, both
    when it walks the ids and checks each point and when it sorts the answer of
    the payload index; the choice between the two, made on floating point
    estimates, cannot be observed.  The filter is one the payload index answers
    exactly and without a panic ([pi_filter_ok]; of [StructPayloadIndex], no
    [should] clause is empty, each field condition has a single requirement, of
    a kind its indexes answer exactly, and no range on a float index asks for
    [gt] and [lt] of the same number). *)
Theorem read_filtered_page (s : Seg) offset limit (filter : option Filter)
  (Hwf : seg_wf s) (Hok : map_or true pi_filter_ok filter = true) :
  read_filtered (Num:=Num) s offset limit filter = Ok (page s offset limit filter) ∧
  StronglySorted (λ a b, point_id_ltb a b = true) (iter_points s) ∧
  (∀ e, e ∈ iter_points s ↔ is_Some (abs_point s e)).
Proof using. split_and!; [by apply read_filtered_eq|by apply iter_points_sorted|intros e; by apply elem_of_points]. Qed.

(** *** Flushing *)

Section flush.
Context (outcome background : FlushStep → OperationResult unit).

(** Everything but the versions and the state is on disk as it is in [s]. *)
Definition data_durable (s : Seg) (d : Durable T VS PI) : Prop :=
  dur_mapping d = Some (seg_id_tracker s) ∧ dur_payload d = Some (seg_payload_index s) ∧
  ∀ name vd, seg_vector_data s !! name = Some vd → dur_vectors d !! name = Some (vd_storage vd).

Definition versions_durable (s : Seg) (d : Durable T VS PI) : Prop :=
  data_durable s d ∧ dur_versions d = Some (seg_id_tracker s).

(** What a flush may change, whether it succeeds or stops at a failed write. *)
Record flush_safe (s s' : Seg) : Prop := {
  fs_memory : s' = set_flush_thread (seg_flush_thread s')
    (set_durable (seg_durable s') (set_persisted_version (seg_persisted_version s') s));
  fs_data : data_durable s (seg_durable s) → data_durable s (seg_durable s');
  fs_versions : dur_versions (seg_durable s') = dur_versions (seg_durable s) ∨ versions_durable s (seg_durable s');
  fs_state :
    dur_state (seg_durable s') = dur_state (seg_durable s) ∧ seg_persisted_version s' = seg_persisted_version s ∨
    versions_durable s (seg_durable s') ∧
      ∃ st, dur_state (seg_durable s') = Some st ∧ seg_persisted_version s' = ss_version st;
}.

Lemma flush_safe_trans s1 s2 s3 : flush_safe s1 s2 → flush_safe s2 s3 → flush_safe s1 s3.
Proof using.
  intros [Hm Hd Hv Hs] [Hm' Hd' Hv' Hs'].
  assert (∀ d, data_durable s2 d ↔ data_durable s1 d) as Hdd by (intros d; by rewrite Hm).
  assert (∀ d, versions_durable s2 d ↔ versions_durable s1 d) as Hvd by (intros d; by rewrite Hm).
  rewrite Hdd in Hd'. setoid_rewrite Hdd in Hd'. setoid_rewrite Hvd in Hv'. setoid_rewrite Hvd in Hs'.
  assert (versions_durable s1 (seg_durable s2) → versions_durable s1 (seg_durable s3)) as Hmono.
  { intros [H1 H2]. destruct Hv' as [He|?]; [|done]. split; [by apply Hd'|]. congruence. }
  split.
  - rewrite Hm', Hm. by destruct s1.
  - auto.
  - destruct Hv' as [->|]; [|by right]. destruct Hv as [|]; [by left|]. right. auto.
  - destruct Hs' as [[-> ->]|]; [|by right]. destruct Hs as [|[? ?]]; [by left|]. right. auto.
Qed.

Lemma flush_safe_refl s : flush_safe s s.
Proof using. split; [by destruct s|done|by left|by left]. Qed.

Lemma flush_safe_thread s s' j : flush_safe s s' → flush_safe s (set_flush_thread j s').
Proof using. intros [Hm Hd Hv Hs]. split; [|done..]. rewrite Hm. by destruct s. Qed.

Lemma flush_vectors_spec (out : FlushStep → OperationResult unit) (l : list (string * VectorData VI VS)) (s : Seg) :
  NoDup l.*1 →
  ∃ r vs, sm_for (λ nd : string * VectorData VI VS,
      flush_step display_id (out (FlushVectors nd.1)) "vector_storage" (λ _ d,
        mkDurable (dur_mapping d) (<[nd.1 := vd_storage nd.2]> (dur_vectors d)) (dur_payload d)
          (dur_versions d) (dur_state d))) l s =
      (r, set_durable (mkDurable (dur_mapping (seg_durable s)) vs (dur_payload (seg_durable s))
            (dur_versions (seg_durable s)) (dur_state (seg_durable s))) s) ∧
    (∀ name, vs !! name = dur_vectors (seg_durable s) !! name ∨
      ∃ vd, (name, vd) ∈ l ∧ vs !! name = Some (vd_storage vd)) ∧
    (r = Ok tt → ∀ name vd, (name, vd) ∈ l → vs !! name = Some (vd_storage vd)).
Proof using.
  revert s. induction l as [|[name vd] l IH]; intros s Hnd.
  { exists (Ok tt), (dur_vectors (seg_durable s)). split_and!; [by destruct s as [? ? ? ? ? ? ? ? ? ? []]|by left|].
    by intros _ name vd ?%elem_of_nil. }
  apply NoDup_cons in Hnd as [Hn Hnd]. cbn [sm_for]. unfold mbind at 1, sm_bind, flush_step at 1. cbn [fst snd].
  destruct (out (FlushVectors name)) as [[]|err|].
  2,3: eexists _, (dur_vectors (seg_durable s)); split_and!; [by destruct s as [? ? ? ? ? ? ? ? ? ? []]|by left|done].
  match goal with |- context [sm_for _ l ?s1] => destruct (IH s1 Hnd) as (r & vs & -> & Hor & Hin) end.
  exists r, vs. split_and!; [done| |].
  - intros k. destruct (Hor k) as [Hk|(w & Hw & Hk)]; [|right; exists w; split; [by right|done]]. cbn in Hk.
    destruct (decide (k = name)) as [->|Hne]; [|left; by rewrite lookup_insert_ne in Hk].
    right. exists vd. split; [by left|]. by rewrite lookup_insert_eq in Hk.
  - intros Hr k w [[= -> ->]|Hk]%elem_of_cons; [|by apply Hin].
    destruct (Hor name) as [Ho|(w' & Hw' & _)]; [by rewrite Ho; cbn; rewrite lookup_insert_eq|].
    destruct Hn. by apply (list_elem_of_fmap_2 fst) in Hw'.
Qed.

Lemma flush_op_safe out state (s : Seg) :
  ∃ r s', flush_op display_id out state s = (r, s') ∧ flush_safe s s' ∧
    seg_flush_thread s' = seg_flush_thread s ∧
    (∀ v, r = Ok v → v = default 0%N (ss_version state) ∧ seg_persisted_version s' = ss_version state ∧
      versions_durable s (seg_durable s')) ∧
    ((∀ v, r ≠ Ok v) → seg_persisted_version s' = seg_persisted_version s).
Proof using.
  unfold flush_op, mbind, sm_bind, sm_gets. unfold flush_step at 1. destruct (out FlushMapping) as [[]|err|].
  2,3: eexists _, s; split_and!; [done|apply flush_safe_refl|done|done|done].
  cbn [seg_vector_data set_durable].
  match goal with |- context [sm_for _ ?l ?s1] =>
    destruct (flush_vectors_spec out l s1 (NoDup_fst_map_to_list _)) as (r & vs & -> & Hor & Hin) end.
  assert (∀ name vd, seg_vector_data s !! name = Some vd →
    dur_vectors (seg_durable s) !! name = Some (vd_storage vd) → vs !! name = Some (vd_storage vd)) as Hkeep.
  { intros name vd Hd Hv. destruct (Hor name) as [->|(w & Hw%elem_of_map_to_list & ->)]; [done|]. congruence. }
  destruct r as [[]|err|].
  2,3: eexists _, _; split_and!; [done|split; [by destruct s|intros (? & ? & ?); split_and!; eauto|by left..]|done|done|done].
  assert (∀ name vd, seg_vector_data s !! name = Some vd → vs !! name = Some (vd_storage vd)) as Hvs.
  { intros name vd Hd. apply Hin; [done|]. by apply elem_of_map_to_list. }
  unfold flush_step at 1. destruct (out FlushPayload) as [[]|err|].
  2,3: eexists _, _; split_and!; [done|split; [by destruct s|intros (? & ? & ?); split_and!; eauto|by left..]|done|done|done].
  unfold flush_step at 1. destruct (out FlushVersions) as [[]|err|].
  2,3: eexists _, _; split_and!; [done|split; [by destruct s|intros (? & ? & ?); split_and!; eauto|by left..]|done|done|done].
  unfold flush_step at 1. destruct (out SaveState) as [[]|err|].
  2,3: eexists _, _; split_and!; [done|split; [by destruct s|done|by right|by left]|done|done|done].
  eexists _, _. split_and!; [done|split; [by destruct s|done|by right|right; split; [done|by eexists]]|done| |].
  - by intros v [= <-].
  - intros Hx. by destruct (Hx (default 0%N (ss_version state))).
Qed.

Lemma lock_flushing_safe (s : Seg) :
  ∃ r s', lock_flushing display_id background s = (r, s') ∧ flush_safe s s' ∧
    (is_background_flushing s = false → seg_persisted_version s' = seg_persisted_version s).
Proof using.
  unfold lock_flushing, run_background, is_background_flushing, mbind, sm_bind, sm_get, sm_modify.
  destruct (seg_flush_thread s) as [[state|res]|] eqn:Ht.
  - destruct (flush_op_safe background state s) as (r & s1 & -> & Hs & _). cbn [seg_flush_thread set_flush_thread].
    destruct r as [v|e|]; eexists _, _; split_and!; try done; by do 2 apply flush_safe_thread.
  - rewrite Ht. destruct res as [v|e|]; eexists _, _; split_and!; try done; apply flush_safe_thread, flush_safe_refl.
  - rewrite Ht. eexists _, _. split_and!; try done. apply flush_safe_thread, flush_safe_refl.
Qed.

(** The order of a flush.  However a flush is asked for and wherever it
    fails, the versions on disk only change once the id mapping, every vector
    storage and the payload index are on disk, and the saved state and the
    persisted version only change, together, once the versions are; so a
    version found on disk vouches for the data of its point.  A flush changes
    nothing else in memory, and a successful synchronous flush with no other
    one in progress returns the version of the segment and leaves it as the
    persisted one. *)
Lemma flush_versions_last (sync : bool) (s : Seg) :
  ∃ r s', flush display_id outcome background sync s = (r, s') ∧ flush_safe s s' ∧
    (sync = true → is_background_flushing s = false → ∀ v, r = Ok v →
      seg_version s = None ∨ seg_version s = Some v ∧ seg_persisted_version s' = Some v).
Proof using.
  unfold flush, mbind, sm_bind, sm_get, sm_modify. destruct (negb sync && is_background_flushing s) eqn:Hbg.
  { eexists _, s. split_and!; [done|apply flush_safe_refl|]. intros ->. done. }
  destruct (lock_flushing_safe s) as (r & s1 & -> & Hs1 & Hp1). destruct r as [[]|e|]; [|by eexists _, s1..].
  assert (∃ r s', (if sync then flush_op display_id outcome (get_state s)
    else λ s0, (Ok (default 0%N (seg_persisted_version s)), set_flush_thread (Some (Running (get_state s))) s0)) s1 = (r, s') ∧
    flush_safe s s' ∧ (sync = true → ∀ v, r = Ok v → v = default 0%N (seg_version s) ∧
      seg_persisted_version s' = seg_version s)) as (r & s2 & Hrun & Hs2 & Hr).
  { destruct sync.
    - destruct (flush_op_safe outcome (get_state s) s1) as (r & s2 & Hrun & Hs2 & _ & Hr & _).
      exists r, s2. split_and!; [done|by eapply flush_safe_trans|]. intros _ v Hv. by destruct (Hr v Hv) as (? & ? & _).
    - eexists _, _. split_and!; [done|by apply flush_safe_thread|done]. }
  destruct (seg_version s) as [v|] eqn:Hv; [|by eexists _, s1; split_and!; [done|done|left]].
  assert (∃ r s', (if sync then flush_op display_id outcome (get_state s)
    else λ s0, (Ok (default 0%N (seg_persisted_version s)), set_flush_thread (Some (Running (get_state s))) s0)) s1 = (r, s') ∧
    flush_safe s s' ∧ (sync = true → is_background_flushing s = false → ∀ w, r = Ok w →
      Some v = None ∨ Some v = Some w ∧ seg_persisted_version s' = Some w)) as Hstart.
  { exists r, s2. split_and!; [done|done|]. intros Hsync _ w Hw. right. destruct (Hr Hsync w Hw) as [-> ->]. done. }
  destruct (seg_persisted_version s) as [w|] eqn:Hp; [destruct (decide (v = w)) as [->|]|]; try (by destruct sync).
  eexists _, s1. split_and!; [done|done|]. intros _ Hb ? [= <-]. right. split; [done|]. by rewrite Hp1.
Qed.
End flush.
End segment_spec.

(** ** Witnesses *)

#[local] Existing Instance integer_numbers.
#[local] Existing Instance flat_geo.
#[local] Existing Instance no_simd.
#[local] Existing Instance no_simd_laws.
#[local] Existing Instance match_only_single.
#[local] Existing Instance idle_index_ops.
#[local] Existing Instance idle_values.
#[local] Existing Instance idle_text.
#[local] Existing Instance idle_int.
#[local] Existing Instance idle_float.
#[local] Existing Instance idle_geo.
#[local] Existing Instance idle_full_text.

Abbreviation IdleSPI := (StructPayloadIndex (gmap nat (Payload Z)) IdleIndex MemDB).
Abbreviation SampleTracker := (SimpleIdTracker MemDB).
Abbreviation SampleVectors := (SimpleVectorStorage MemDB).
Abbreviation SampleSeg := (Segment SampleTracker PlainIndex SampleVectors IdleSPI).

#[local] Instance sample_vectors : VectorStorage SampleVectors := simple_vector_storage "vector".
#[local] Instance sample_vectors_laws : VectorStorageLaws SampleVectors := simple_vector_storage_laws "vector".
#[local] Instance sample_index : PayloadIndex Z SampleTracker IdleSPI :=
  struct_payload_index (λ _ _, tt) (λ _ _, tt) (λ _ _, tt) (λ _ _ _, tt) (λ _, Ok tt) (λ _, Ok tt).
#[local] Instance sample_index_laws : PayloadIndexLaws Z SampleTracker IdleSPI :=
  struct_index_laws match_only (λ _ _, tt) (λ _ _, tt) (λ _ _, tt) (λ _ _ _, tt) (λ _, Ok tt) (λ _, Ok tt).

(** A segment without points: one vector of two elements, an index of the
    field [color]. *)
Definition empty_vectors : SampleVectors :=
  mkSimpleVectorStorage 2 Dot (mkChunked 2 0 4 []) (mkStoredRecord false [f32_zero; f32_zero])
    ({[ "vector" := ∅ ]} : MemDB).
Definition empty_index : IdleSPI :=
  mkStructIndex ∅ {[ "color" := [KeywordIndex (mkMapColumn "color_map" (map_new keyword_db))] ]}
    {[ "color" := FieldType Keyword ]} {[ "color" := FieldType Keyword ]} [] keyword_db.
Definition empty_segment : SampleSeg :=
  mkSegment None None empty_tracker {[ "" := mkVectorData (mkPlainIndex) empty_vectors ]} empty_index true Plain
    (mkSegmentConfig {[ "" := mkVectorDataConfig 2 Dot None None ]} IndexPlain StorageInMemory PayloadInMemory None) None None (mkDurable None ∅ None None None).

Lemma empty_index_wf : index_wf match_only empty_index.
Proof.
  split; [|constructor]. unfold empty_index. cbn. intros key indexes [<- <-]%lookup_singleton_Some.
  apply Forall_singleton. split; [apply map_new_wf|]. intros i.
  change (field_content _ "color" i) with (payload_get_value (∅ : Payload Z) "color"). by rewrite payload_get_empty.
Qed.

Lemma empty_segment_wf : seg_wf empty_segment.
Proof.
  split.
  - apply empty_maps_wf.
  - apply empty_index_wf.
  - intros name. cbn. destruct (decide (name = "")) as [->|Hne].
    + rewrite !lookup_singleton_eq. constructor. split_and!; [|done|done|done|].
      * split; [split; [done|done|cbn; lia]|done|done].
      * intros i [e He]. by vm_compute in He.
    + rewrite !lookup_singleton_ne by done. constructor.
  - intros i _. apply lookup_empty.
  - intros i [e He]. by vm_compute in He.
Qed.

Definition f32_one : spec_float := S754_finite false 8388608 (-23).
Definition no_display (_ : PointIdType) : string := "".

Lemma sample_fit x y : vectors_fit {[ "" := mkVectorDataConfig 2 Dot None None ]} (tm_view [("", [x; y])]).
Proof.
  intros name. unfold tm_view. cbn. destruct (decide (name = "")) as [->|Hne].
  - rewrite lookup_insert_eq, lookup_singleton_eq. by constructor.
  - rewrite lookup_insert_ne, lookup_singleton_ne by done. constructor.
Qed.

(** Two points with vectors, then their payloads. *)
Definition sample_segment1 : SampleSeg :=
  (run_seg_op no_display 1 (OpUpsert (NumId 7) [("", [f32_one; f32_zero])]) empty_segment).2.
Definition sample_segment2 : SampleSeg :=
  (run_seg_op no_display 2 (OpUpsert (Uuid 5) [("", [f32_one; f32_one])]) sample_segment1).2.
Definition sample_segment3 : SampleSeg :=
  (run_seg_op no_display 3 (OpSetFull (NumId 7) (color_payload 0)) sample_segment2).2.
Definition sample_segment : SampleSeg :=
  (run_seg_op no_display 4 (OpSetFull (Uuid 5) (color_payload 1)) sample_segment3).2.

Lemma run_seg_op_wf (n : SeqNumberType) (op : seg_op Z) (s : SampleSeg) (b : bool) :
  seg_wf s → accepts s n → op_valid s op →
  is_stale s n (internal_id (seg_id_tracker s) (seg_op_point op)) = false →
  (run_seg_op no_display n op s).1 = Ok b → seg_wf (run_seg_op no_display n op s).2.
Proof.
  intros Hwf Hacc Hv Hst Hok. pose proof (run_seg_op_wp no_display n op s Hwf Hacc Hv Hst) as Hwp.
  unfold sm_wp in Hwp. destruct (run_seg_op no_display n op s) as [r s']. cbn in Hok. subst r. apply Hwp.
Qed.

Lemma sample_cfgs (s : SampleSeg) x y :
  seg_cfgs s = seg_cfgs empty_segment → vectors_fit (seg_cfgs s) (tm_view [("", [x; y])]).
Proof. intros ->. apply sample_fit. Qed.

Lemma sample_segment1_wf : seg_wf sample_segment1.
Proof.
  apply (run_seg_op_wf 1 (OpUpsert (NumId 7) [("", [f32_one; f32_zero])]) empty_segment false);
    [apply empty_segment_wf|exact I| |vm_compute; reflexivity|vm_compute; reflexivity].
  split; [apply NoDup_singleton|]. split; [apply sample_fit|intros _; vm_compute; reflexivity].
Qed.

Lemma sample_segment2_wf : seg_wf sample_segment2.
Proof.
  apply (run_seg_op_wf 2 (OpUpsert (Uuid 5) [("", [f32_one; f32_one])]) sample_segment1 false);
    [apply sample_segment1_wf|vm_compute; exact I| |vm_compute; reflexivity|vm_compute; reflexivity].
  split; [apply NoDup_singleton|]. split; [apply sample_cfgs|intros _]; vm_compute; reflexivity.
Qed.

Lemma sample_segment3_wf : seg_wf sample_segment3.
Proof.
  apply (run_seg_op_wf 3 (OpSetFull (NumId 7) (color_payload 0)) sample_segment2 true);
    [apply sample_segment2_wf|vm_compute; exact I| |vm_compute; reflexivity|vm_compute; reflexivity].
  exists 0, (IAssignAll 0 (color_payload 0)). split; [vm_compute; reflexivity|done].
Qed.

Lemma sample_segment_wf : seg_wf sample_segment.
Proof.
  apply (run_seg_op_wf 4 (OpSetFull (Uuid 5) (color_payload 1)) sample_segment3 true);
    [apply sample_segment3_wf|vm_compute; exact I| |vm_compute; reflexivity|vm_compute; reflexivity].
  exists 1, (IAssignAll 1 (color_payload 1)). split; [vm_compute; reflexivity|done].
Qed.

Lemma segment_refines_witness :
  let run := run_seg_op no_display 5 (OpUpsert (Uuid 5) [("", [f32_zero; f32_one])]) sample_segment in
  run.1 = Ok true ∧ seg_wf run.2 ∧
  abs_point run.2 (Uuid 5) = Some (mkPoint 5 {[ "" := [f32_zero; f32_one] ]} (Some (color_payload 1))) ∧
  abs_point run.2 (NumId 7) = abs_point sample_segment (NumId 7).
Proof.
  intros run. assert (run.1 = Ok true) as Hok by (vm_compute; reflexivity).
  pose proof (segment_refines no_display 5 (OpUpsert (Uuid 5) [("", [f32_zero; f32_one])]) sample_segment
    sample_segment_wf ltac:(vm_compute; exact I)) as Hwp.
  unfold sm_wp in Hwp. fold run in Hwp. destruct run as [r s']. cbn in Hok. subst r.
  destruct Hwp as (Hwf & _ & _ & _ & _ & _ & _ & Hpt).
  { split; [apply NoDup_singleton|]. split; [apply sample_cfgs|intros _]; vm_compute; reflexivity. }
  { vm_compute; reflexivity. }
  split_and!; [done|done| |].
  - rewrite Hpt. vm_compute; reflexivity.
  - rewrite Hpt. vm_compute; reflexivity.
Defined.

(** The segment after a failure of operation 5 at the point [Uuid 5]. *)
Definition disk_failure : SegmentFailedState :=
  {| failed_version := 5; failed_point_id := Some (Uuid 5); failed_error := service_error "disk" |}.
Definition failed_segment : SampleSeg := set_error_status (Some disk_failure) sample_segment.

Lemma set_error_status_wf (es : option SegmentFailedState) (s : SampleSeg) : seg_wf s → seg_wf (set_error_status es s).
Proof. done. Qed.

Lemma skipped_op_unchanged_witness :
  (∃ r, run_seg_op no_display 6 (OpDelete (NumId 7) : seg_op Z) failed_segment = (r, failed_segment) ∧ r ≠ Ok true) ∧
  run_seg_op no_display 2 (OpClear (NumId 7) : seg_op Z) sample_segment = (Ok false, sample_segment).
Proof.
  split.
  - edestruct (proj1 (skipped_op_unchanged no_display 6 (OpDelete (NumId 7) : seg_op Z) failed_segment)) as (r & Hr & _ & Hb).
    + vm_compute; reflexivity.
    + vm_compute; reflexivity.
    + exists r. split; [exact Hr|]. intros ->. by destruct (Hb true).
  - apply (proj2 (skipped_op_unchanged no_display 2 (OpClear (NumId 7) : seg_op Z) sample_segment)).
    + vm_compute; reflexivity.
    + vm_compute; reflexivity.
    + done.
Defined.

(** A vector of the wrong length, and an update of a point that is not there. *)
Lemma client_error_unchanged_witness :
  (∃ r, run_seg_op no_display 5 (OpUpsert (Uuid 5) [("", [f32_one])] : seg_op Z) sample_segment = (r, sample_segment) ∧
    r = Err (WrongVector 2 1)) ∧
  run_seg_op no_display 5 (OpSet (NumId 8) ∅ : seg_op Z) sample_segment = (Err (PointIdError (NumId 8)), sample_segment) ∧
  run_seg_op no_display 2 (OpSet (NumId 8) ∅ : seg_op Z) sample_segment = (Ok false, sample_segment).
Proof.
  pose proof (λ n, client_error_unchanged (Num:=Z) no_display n sample_segment sample_segment_wf ltac:(vm_compute; reflexivity)) as Hc.
  split_and!.
  - destruct (proj1 (Hc 5%N) (Uuid 5) [("", [f32_one])]) as (r & Hr & _).
    + apply NoDup_singleton.
    + intros Hfit. specialize (Hfit ""). vm_compute in Hfit. inversion Hfit. discriminate.
    + exists r. split; [exact Hr|]. apply (f_equal fst) in Hr. cbn [fst] in Hr. rewrite <-Hr. vm_compute. reflexivity.
  - rewrite (proj2 (Hc 5%N) (OpSet (NumId 8) ∅)) by (vm_compute; reflexivity).
    assert (is_stale sample_segment 5 None = false) as -> by (vm_compute; reflexivity). reflexivity.
  - rewrite (proj2 (Hc 2%N) (OpSet (NumId 8) ∅)) by (vm_compute; reflexivity).
    assert (is_stale sample_segment 2 None = true) as -> by (vm_compute; reflexivity). reflexivity.
Defined.

Lemma delete_retry_stuck_witness :
  let run := delete_point (Num:=Z) no_display 5 (Uuid 5) failed_segment in
  run.1 = Ok true ∧ abs_point run.2 (Uuid 5) = None ∧ seg_error_status run.2 = Some disk_failure ∧
  ∃ err, run_seg_op no_display 6 (OpUpsert (NumId 7) [("", [f32_one; f32_one])] : seg_op Z) run.2 = (Err err, run.2).
Proof.
  intros run. assert (run.1 = Ok true) as Hok by (vm_compute; reflexivity).
  pose proof (delete_retry_stuck no_display 5 (Uuid 5) failed_segment disk_failure
    (set_error_status_wf _ _ sample_segment_wf) ltac:(vm_compute; reflexivity) eq_refl) as Hwp.
  unfold sm_wp in Hwp. fold run in Hwp. destruct run as [r s']. cbn in Hok. subst r.
  destruct Hwp as (_ & Hpt & Hes & Hrej).
  - vm_compute; discriminate.
  - eexists. vm_compute; reflexivity.
  - vm_compute; reflexivity.
  - split_and!; [done|done|done|]. destruct (Hrej 6%N (OpUpsert (NumId 7) [("", [f32_one; f32_one])])) as [(_ & ? & _)|?]; [vm_compute; reflexivity|done|done].
Defined.

Lemma read_filtered_page_witness :
  read_filtered (Num:=Z) sample_segment None (Some 1) (Some color_filter) = Ok [NumId 7] ∧
  page sample_segment None (Some 1) (Some color_filter) = [NumId 7].
Proof.
  assert (page sample_segment None (Some 1) (Some color_filter) = [NumId 7]) as Hp by (vm_compute; reflexivity).
  split; [|exact Hp]. rewrite <-Hp.
  apply (read_filtered_page sample_segment None (Some 1) (Some color_filter) sample_segment_wf).
  vm_compute; reflexivity.
Defined.
