(* ===== verification/SearchSpec.v ===== *)
(** * Exact search

    A segment whose vectors have a plain index ([PlainIndex.v]) answers a
    search with the best of the points that pass the filter. *)

From stdpp Require Import base gmap strings list sorting.
From Stdlib Require Import ZArith Lia SpecFloat.
From S2P Require Import Prelude Types Rocks IdTracker NamedVectors VectorStorage Text Filters Estimator TopK.
From S2P Require Import PayloadStorage FieldIndex FieldIndexEnum FieldIndexLaws Spaces.
From S2P Require Import QueryOptimizer StructPayloadIndex PayloadIndexSpec PayloadIndexLaws Segment SegmentSpec PlainIndex.

Section search_spec.
Context {Num T VS PI SP : Type} `{!JsonNumber Num} {HG : GeoOps} {HS : Simd}.
Context `{!IdTracker T, !IdTrackerLaws T} `{!VectorStorage VS, !VectorStorageLaws VS}.
Context `{!PayloadIndex Num T PI, !PayloadIndexLaws Num T PI}.
Context (display_id : PointIdType → string).
Abbreviation Seg := (Segment T PlainIndex VS PI).
#[local] Existing Instance plain_index.

Definition passes (s : Seg) (filter : option Filter) (i : PointOffsetType) : Prop :=
  is_Some (external_id (seg_id_tracker s) i) ∧
  map_or true (check_payload (default ∅ (pi_stored (seg_payload_index s) i))
                 (external_id (seg_id_tracker s) i)) filter = true.

(** *** The scorer *)

Section scorer_spec.
Context (s : Seg) (name : string) (cfg : VectorDataConfig) (vd : VectorData PlainIndex VS) (query : VectorType).
Context (Hwf : seg_wf s) (Hcfg : seg_cfgs s !! name = Some cfg) (Hvd : seg_vector_data s !! name = Some vd).
Abbreviation scorer := (new_raw_scorer query (vd_storage vd) (deleted_bitvec (seg_id_tracker s))).

Lemma storage_ok : data_ok (seg_id_tracker s) cfg vd.
Proof using Hwf Hcfg Hvd.
  pose proof (cw_data _ _ _ _ Hwf name) as Hn. rewrite Hcfg, Hvd in Hn.
  apply option_Forall2_Some_l in Hn as (vd' & [= <-] & ?). done.
Qed.

Lemma check_point_live i : check_point scorer i = true ↔ is_Some (external_id (seg_id_tracker s) i).
Proof using Hwf Hcfg Hvd.
  destruct storage_ok as (_ & _ & _ & Hmax & Hlive). rewrite <-is_deleted_external, deleted_bitvec_spec by apply Hwf.
  unfold check_point. cbn [rs_points_count rs_deleted new_raw_scorer]. rewrite as_u32_small, andb_true_iff, Nat.ltb_lt by done. split.
  - intros [_ Hd]. by destruct (_ !! i) as [[]|].
  - intros Hd. split.
    + apply Hlive. apply is_deleted_external; [apply Hwf|]. by rewrite deleted_bitvec_spec.
    + by destruct (_ !! i) as [[]|].
Qed.

(** The score of an offset in use. *)
Definition offset_score (i : PointOffsetType) : ScoreType :=
  distance_similarity (vdc_distance cfg) (processed_vector (vdc_distance cfg) query)
    (default [] (res_option (get_vector (vd_storage vd) i))).

Lemma score_point_live i :
  is_Some (external_id (seg_id_tracker s) i) → score_point scorer i = Ok (offset_score i).
Proof using Hwf Hcfg Hvd.
  intros Hi. destruct storage_ok as (_ & _ & Hd & _ & Hlive). destruct (Hlive i Hi) as (_ & v & Hv & _).
  unfold score_point, offset_score, processed_vector. cbn. rewrite Hv, Hd. cbn. by destruct (preprocess_vector _ query).
Qed.

Definition scored_offset (i : PointOffsetType) : ScoredPointOffset := mkScoredOffset i (offset_score i).

Lemma score_all_live l :
  score_all scorer l = Ok (scored_offset <$> base.filter (λ i, is_Some (external_id (seg_id_tracker s) i)) l).
Proof using Hwf Hcfg Hvd.
  unfold score_all. rewrite (list_filter_iff _ (λ i, is_Some (external_id (seg_id_tracker s) i)))
    by (intros; apply check_point_live).
  apply res_map_Ok. intros i [Hi _]%list_elem_of_filter. by rewrite score_point_live.
Qed.
End scorer_spec.

(** *** The points a search considers *)

Lemma candidates_perm (s : Seg) filter (l : list PointOffsetType) :
  seg_wf s → NoDup l → (∀ i, i ∈ l ↔ passes s filter i) →
  omap (external_id (seg_id_tracker s)) l ≡ₚ page s None None filter.
Proof using.
  intros Hwf Hnd Hin. destruct (iter_points_le s Hwf) as [_ Hnd']. apply NoDup_Permutation.
  - apply NoDup_omap; [|done]. intros i j e Hi Hj. apply internal_external in Hi, Hj; [congruence|apply Hwf..].
  - by apply NoDup_filter.
  - intros e. unfold page. cbn [take_limit]. rewrite list_elem_of_omap, list_elem_of_filter, elem_of_iter_points by done.
    cbn [from_offset andb]. unfold point_matches. split.
    + intros (i & Hi & He). apply Hin in Hi as [_ Hc]. rewrite He in Hc.
      apply internal_external in He; [|apply Hwf]. rewrite (abs_point_Some s e i He). destruct filter; eauto.
    + intros [Hm [i Hi]]. exists i. pose proof (core_external _ _ _ _ _ _ Hwf Hi) as He. split; [|done].
      apply Hin. split; [eauto|]. rewrite He. rewrite (abs_point_Some s e i Hi) in Hm. by destruct filter.
Qed.

Lemma filter_live_id (s : Seg) filter (l : list PointOffsetType) :
  (∀ i, i ∈ l → passes s filter i) → base.filter (λ i, is_Some (external_id (seg_id_tracker s) i)) l = l.
Proof using. intros Hl. apply list_filter_all. intros i Hi. by apply Hl. Qed.

(** The offsets a search scores. *)
Definition candidates (s : Seg) (vd : VectorData PlainIndex VS) (filter : option Filter) : list PointOffsetType :=
  match filter with
  | Some f => match (pi_query_points (Num:=Num) (seg_id_tracker s) f (seg_payload_index s)).1 with Ok l => l | _ => [] end
  | None => base.filter (λ i, is_Some (external_id (seg_id_tracker s) i)) (seq 0 (total_vector_count (vd_storage vd)))
  end.

Lemma candidates_spec (s : Seg) name cfg vd filter :
  seg_wf s → seg_cfgs s !! name = Some cfg → seg_vector_data s !! name = Some vd →
  map_or true pi_filter_ok filter = true →
  NoDup (candidates s vd filter) ∧ ∀ i, i ∈ candidates s vd filter ↔ passes s filter i.
Proof using.
  intros Hwf Hcfg Hvd Hok. unfold candidates. destruct filter as [f|].
  - destruct (pi_query_spec (seg_id_tracker s) (seg_payload_index s) f) as (l & Hq & Hnd & Hin);
      [apply Hwf..|done|apply Hwf|]. by rewrite Hq.
  - destruct (storage_ok s name cfg vd Hwf Hcfg Hvd) as (_ & _ & _ & Hmax & Hlive). split; [apply NoDup_filter, NoDup_seq|].
    intros i. unfold passes. rewrite list_elem_of_filter, elem_of_seq. cbn. split; [by intros [? _]|].
    intros [Hi _]. split; [done|]. destruct (Hlive i Hi). lia.
Qed.

(** The index scores the candidates and keeps the best. *)
Lemma plain_search_batch (s : Seg) name cfg vd queries filter top (params : option SP) :
  seg_wf s → seg_cfgs s !! name = Some cfg → seg_vector_data s !! name = Some vd →
  map_or true pi_filter_ok filter = true →
  vi_search (seg_id_tracker s) (vd_storage vd) (seg_payload_index s) (vd_index vd) queries filter top params =
    res_map (λ query, peek_top_largest_iterable scored_leb (scored_offset cfg vd query <$> candidates s vd filter) top) queries.
Proof using.
  intros Hwf Hcfg Hvd Hok. unfold vi_search, plain_index, plain_search. pose proof (candidates_spec s name cfg vd filter Hwf Hcfg Hvd Hok) as [Hnd Hin].
  destruct filter as [f|].
  - destruct (pi_query_spec (seg_id_tracker s) (seg_payload_index s) f) as (l & Hq & _); [apply Hwf..|done|apply Hwf|].
    unfold candidates in *. rewrite Hq in *. cbn [mbind result_bind]. apply res_map_ext. intros query.
    unfold peek_top_iter. rewrite (score_all_live s name cfg vd) by done.
    rewrite (filter_live_id s (Some f)) by (intros; by apply Hin). done.
  - destruct (storage_ok s name cfg vd Hwf Hcfg Hvd) as (_ & _ & _ & Hmax & _). apply res_map_ext. intros query.
    unfold peek_top_all. cbn [rs_points_count new_raw_scorer]. rewrite (score_all_live s name cfg vd), as_u32_small by done. done.
Qed.

Lemma plain_search_candidates (s : Seg) name cfg vd query filter top (params : option SP) :
  seg_wf s → seg_cfgs s !! name = Some cfg → seg_vector_data s !! name = Some vd →
  map_or true pi_filter_ok filter = true →
  ∃ l kept, NoDup l ∧ (∀ i, i ∈ l ↔ passes s filter i) ∧
    peek_top_largest_iterable scored_leb (scored_offset cfg vd query <$> l) top = Ok (E:=OperationError) kept ∧
    vi_search (seg_id_tracker s) (vd_storage vd) (seg_payload_index s) (vd_index vd) [query] filter top params =
      Ok [kept].
Proof using.
  intros Hwf Hcfg Hvd Hok. destruct (candidates_spec s name cfg vd filter Hwf Hcfg Hvd Hok) as [Hnd Hin].
  destruct (peek_top_largest_selects scored_leb scored_leb_total scored_leb_trans (E:=OperationError)
    (scored_offset cfg vd query <$> candidates s vd filter) top) as (kept & Hk & _).
  exists (candidates s vd filter), kept. split_and!; [done..|]. rewrite (plain_search_batch s name cfg) by done.
  cbn [res_map]. by rewrite Hk.
Qed.

(** *** The results *)

Definition result_point (s : Seg) (with_payload : WithPayload) (scored : ScoredPointOffset) : ScoredPoint Num :=
  let t := seg_id_tracker s in let i := spo_idx scored in
  mkScoredPoint (default (NumId 0) (external_id t i)) (default 0%N (internal_version t i)) (spo_score scored)
    (let payload := default ∅ (pi_stored (seg_payload_index s) i) in
     if enable with_payload
     then Some (match payload_selector with_payload with Some sel => selector_process sel payload | None => payload end)
     else None) None.

Lemma process_live (s : Seg) with_payload l :
  seg_wf s → (∀ x, x ∈ l → is_Some (external_id (seg_id_tracker s) (spo_idx x))) →
  process_search_result display_id s l with_payload (WVBool false) = Ok (result_point s with_payload <$> l).
Proof using.
  intros Hwf Hl. unfold process_search_result.
  assert (omap (λ scored, (λ id, (id, scored)) <$> external_id (seg_id_tracker s) (spo_idx scored)) l =
    (λ x, (default (NumId 0) (external_id (seg_id_tracker s) (spo_idx x)), x)) <$> l) as ->.
  { induction l as [|x l IH]; [done|]. cbn. destruct (Hl x) as [e He]; [left|]. rewrite He. cbn. f_equal.
    apply IH. intros y Hy. apply Hl. by right. }
  rewrite (res_map_Ok _ (λ p, result_point s with_payload p.2)).
  { f_equal. rewrite <-list_fmap_compose. done. }
  intros [e x] (y & [= -> ->] & Hy)%list_elem_of_fmap. unfold process_scored, result_point. cbn [fst snd].
  destruct (cw_versions _ _ _ _ Hwf (spo_idx y) (Hl y Hy)) as [v Hv]. rewrite Hv.
  unfold payload_by_offset. rewrite (pi_payload_spec _ _ (cw_index _ _ _ _ Hwf)).
  by destruct (enable with_payload).
Qed.

(** The score of a point for a query. *)
Definition point_score (s : Seg) (name : string) (d : Distance) (query : VectorType) (e : PointIdType) : ScoreType :=
  distance_similarity d (processed_vector d query)
    (default [] (abs_point s e ≫= λ pt, pt_vectors pt !! name)).

Definition shown_payload (with_payload : WithPayload) (pt : Point Num) : option (Payload Num) :=
  let payload := default ∅ (pt_payload pt) in
  if enable with_payload
  then Some (match payload_selector with_payload with Some sel => selector_process sel payload | None => payload end)
  else None.

Lemma point_score_offset (s : Seg) name cfg vd query e i :
  seg_vector_data s !! name = Some vd → internal_id (seg_id_tracker s) e = Some i →
  point_score s name (vdc_distance cfg) query e = offset_score cfg vd query i.
Proof using.
  intros Hvd He. unfold point_score, offset_score. rewrite (abs_point_Some s e i He). cbn.
  unfold offset_vectors. by rewrite lookup_omap, Hvd.
Qed.

(** What a request for vectors shows of the vectors of a point. *)
Definition shows_vectors (with_vector : WithVector) (vs : gmap string VectorType) (shown : option VectorStruct) : Prop :=
  match with_vector with
  | WVBool false => shown = None
  | WVBool true => ∃ v, shown = Some v ∧ tm_view (vector_struct_into_all_vectors v) = vs
  | WVSelector names => ∃ v, shown = Some v ∧ tm_view (vector_struct_into_all_vectors v) = base.filter (λ kv, kv.1 ∈ names) vs
  end.

(** The names it asks for are those of vectors. *)
Definition vectors_exist {A} (with_vector : WithVector) (vs : gmap string A) : Prop :=
  match with_vector with WVBool _ => True | WVSelector names => ∀ name, name ∈ names → is_Some (vs !! name) end.

(** What a result says of its point. *)
Definition result_ok (s : Seg) name d query with_payload with_vector (p : ScoredPoint Num) : Prop :=
  ∃ pt, abs_point s (sp_id p) = Some pt ∧ sp_version p = pt_version pt ∧
    sp_score p = point_score s name d query (sp_id p) ∧ sp_payload p = shown_payload with_payload pt ∧
    shows_vectors with_vector (pt_vectors pt) (sp_vector p).

Definition set_vector (v : option VectorStruct) (p : ScoredPoint Num) : ScoredPoint Num :=
  mkScoredPoint (sp_id p) (sp_version p) (sp_score p) (sp_payload p) v.

Lemma vectors_of_live (s : Seg) with_vector i :
  seg_wf s → is_Some (external_id (seg_id_tracker s) i) → vectors_exist with_vector (seg_cfgs s) →
  ∃ v, match with_vector with
       | WVBool false => Ok None
       | WVBool true => vs ← all_vectors_by_offset s i; v ← vector_struct_from vs; Ok (Some v)
       | WVSelector vectors =>
           vs ← res_fold (λ vector_name result,
                  vector_opt ← vector_by_offset s vector_name i;
                  match vector_opt with
                  | None => Err (service_error "Vector {vector_name} not found at offset {point_offset}")
                  | Some vector => Ok (nv_insert vector_name vector result)
                  end) vectors [];
           v ← vector_struct_from vs; Ok (Some v)
       end = Ok v ∧ shows_vectors with_vector (offset_vectors (seg_vector_data s) i) v.
Proof using.
  intros Hwf Hi Hex. assert (∀ name vd, seg_vector_data s !! name = Some vd →
    ∃ v, get_vector (vd_storage vd) i = Ok v ∧ offset_vectors (seg_vector_data s) i !! name = Some v) as Hvec.
  { intros name vd Hd. destruct (core_live_vector _ _ _ _ _ _ i Hwf Hd Hi) as (cfg & v & _ & Hv & _).
    exists v. split; [done|]. unfold offset_vectors. rewrite lookup_omap, Hd. cbn. by rewrite Hv. }
  destruct with_vector as [[]|names]; [| |].
  - destruct (nv_collect_by fst (λ nd, get_vector (vd_storage nd.2) i) (offset_vectors (seg_vector_data s) i)
      (map_to_list (seg_vector_data s)) []) as (vs & Hvs & Hnd & Hview).
    { intros [name vd] Hd%elem_of_map_to_list. by apply Hvec. }
    unfold all_vectors_by_offset. rewrite Hvs. cbn [mbind result_bind].
    destruct (vector_struct_from_view vs) as (v & -> & _ & Hv); [apply Hnd; constructor|]. exists (Some v). split; [done|].
    exists v. split; [done|]. rewrite Hv. apply map_eq. intros name. rewrite Hview. unfold offset_vectors at 1 2. rewrite lookup_omap.
    destruct (decide (name ∈ _)) as [_|Hn]; [done|]. destruct (seg_vector_data s !! name) as [vd|] eqn:Hd; [|done].
    destruct Hn. apply list_elem_of_fmap. exists (name, vd). split; [done|]. by apply elem_of_map_to_list.
  - by exists None.
  - set (f := λ name, vector_opt ← vector_by_offset s name i;
      match vector_opt with
      | None => Err (service_error "Vector {vector_name} not found at offset {point_offset}")
      | Some vector => Ok vector
      end : OperationResult VectorType).
    destruct (collected_shown f (offset_vectors (seg_vector_data s) i) names) as (vs & v & Hvs & Hfrom & Hshow).
    { intros name Hn. destruct (Hex name Hn) as [cfg Hc]. destruct (proj1 (core_names _ _ _ _ name Hwf)) as [vd Hd]; [eauto|].
      destruct (Hvec name vd Hd) as (v & Hv & Ho). exists v. split; [|done]. unfold f, vector_by_offset, check_vector_name, map_get.
      unfold seg_cfgs in Hc. rewrite Hc, Hd. cbn. rewrite (proj2 (is_deleted_external _ i (cw_tracker _ _ _ _ Hwf))) by done. cbn. by rewrite Hv. }
    exists (Some v). split; [|by exists v].
    erewrite res_fold_ext; [rewrite Hvs; cbn [mbind result_bind]; by rewrite Hfrom|].
    intros name acc. unfold f. destruct (vector_by_offset s name i) as [[w|]|e|]; done.
Qed.

(** The results with the vectors asked for. *)
Lemma process_live_vectors (s : Seg) with_payload with_vector l :
  seg_wf s → (∀ x, x ∈ l → is_Some (external_id (seg_id_tracker s) (spo_idx x))) → vectors_exist with_vector (seg_cfgs s) →
  ∃ vecs, process_search_result display_id s l with_payload with_vector =
      Ok ((λ x, set_vector (vecs (spo_idx x)) (result_point s with_payload x)) <$> l) ∧
    ∀ x, x ∈ l → shows_vectors with_vector (offset_vectors (seg_vector_data s) (spo_idx x)) (vecs (spo_idx x)).
Proof using.
  intros Hwf Hl Hex. unfold process_search_result.
  assert (omap (λ scored, (λ id, (id, scored)) <$> external_id (seg_id_tracker s) (spo_idx scored)) l =
    (λ x, (default (NumId 0) (external_id (seg_id_tracker s) (spo_idx x)), x)) <$> l) as ->.
  { induction l as [|x l IH]; [done|]. cbn. destruct (Hl x) as [e He]; [left|]. rewrite He. cbn. f_equal.
    apply IH. intros y Hy. apply Hl. by right. }
  set (vector_of i := match with_vector with
       | WVBool false => Ok None
       | WVBool true => vs ← all_vectors_by_offset s i; v ← vector_struct_from vs; Ok (Some v)
       | WVSelector vectors =>
           vs ← res_fold (λ vector_name result,
                  vector_opt ← vector_by_offset s vector_name i;
                  match vector_opt with
                  | None => Err (service_error "Vector {vector_name} not found at offset {point_offset}")
                  | Some vector => Ok (nv_insert vector_name vector result)
                  end) vectors [];
           v ← vector_struct_from vs; Ok (Some v)
       end : OperationResult (option VectorStruct)).
  exists (λ i, match vector_of i with Ok v => v | _ => None end). split.
  - rewrite (res_map_Ok _ (λ p, set_vector (match vector_of (spo_idx p.2) with Ok v => v | _ => None end) (result_point s with_payload p.2))).
    { f_equal. rewrite <-list_fmap_compose. done. }
    intros [e x] (y & [= -> ->] & Hy)%list_elem_of_fmap. unfold process_scored, result_point. cbn [fst snd].
    destruct (cw_versions _ _ _ _ Hwf (spo_idx y) (Hl y Hy)) as [v Hv]. rewrite Hv.
    unfold payload_by_offset. rewrite (pi_payload_spec _ _ (cw_index _ _ _ _ Hwf)).
    destruct (vectors_of_live s with_vector (spo_idx y) Hwf (Hl y Hy) Hex) as (w & Hw & _).
    change (vector_of (spo_idx y) = Ok w) in Hw. fold (vector_of (spo_idx y)). rewrite Hw. by destruct (enable with_payload).
  - intros x Hx. destruct (vectors_of_live s with_vector (spo_idx x) Hwf (Hl x Hx) Hex) as (w & Hw & Hs).
    change (vector_of (spo_idx x) = Ok w) in Hw. by rewrite Hw.
Qed.

Lemma result_point_ok (s : Seg) name cfg vd query with_payload with_vector i v :
  seg_wf s → seg_vector_data s !! name = Some vd → is_Some (external_id (seg_id_tracker s) i) →
  shows_vectors with_vector (offset_vectors (seg_vector_data s) i) v →
  result_ok s name (vdc_distance cfg) query with_payload with_vector
    (set_vector v (result_point s with_payload (scored_offset cfg vd query i))).
Proof using.
  intros Hwf Hvd [e He] Hv. unfold result_ok, result_point, set_vector. cbn. rewrite He. cbn.
  apply internal_external in He; [|apply Hwf]. rewrite (abs_point_Some s e i He).
  eexists. split_and!; [done..| |done|done]. cbn. symmetry. by apply point_score_offset.
Qed.

Lemma result_ids (s : Seg) with_payload (l : list ScoredPointOffset) :
  (∀ x, x ∈ l → is_Some (external_id (seg_id_tracker s) (spo_idx x))) →
  sp_id <$> (result_point s with_payload <$> l) = omap (external_id (seg_id_tracker s)) (spo_idx <$> l).
Proof using.
  induction l as [|x l IH]; intros Hl; [done|]. cbn. destruct (Hl x) as [e He]; [left|]. rewrite He. cbn. f_equal.
  apply IH. intros y Hy. apply Hl. by right.
Qed.

Lemma length_omap_Some {A B} (f : A → option B) (l : list A) :
  (∀ x, x ∈ l → is_Some (f x)) → length (omap f l) = length l.
Proof using.
  induction l as [|x l IH]; intros Hl; [done|]. cbn. destruct (Hl x) as [y ->]; [left|]. cbn. f_equal.
  apply IH. intros z Hz. apply Hl. by right.
Qed.

(** C29: search on a segment with a plain index is exact.  For a query of the
    right dimension it returns without error as many points as asked for (all
    that pass the filter, if there are fewer), best first, each with the
    version, the score, the payload and the vectors it has, as far as they are
    asked for, and no point left out that passes the filter scores better than
    one returned.  The vectors asked for must exist, and the filter must be one
    the payload index answers exactly and without a panic ([pi_filter_ok]; of
    [StructPayloadIndex], no [should] clause is empty, each field condition has
    a single requirement, of a kind its indexes answer exactly, and no range on
    a float index asks for [gt] and [lt] of the same number). *)
Theorem plain_search_exact (s : Seg) name cfg query with_payload with_vector filter top (params : option SP)
  (Hwf : seg_wf s) (Hcfg : seg_cfgs s !! name = Some cfg) (Hlen : length query = vdc_size cfg)
  (Hex : vectors_exist with_vector (seg_cfgs s)) (Hok : map_or true pi_filter_ok filter = true) :
  ∃ res rest, search display_id s name query with_payload with_vector filter top params = Ok res ∧
    (sp_id <$> res) ++ rest ≡ₚ page s None None filter ∧
    length res = top `min` length (page s None None filter) ∧
    StronglySorted (λ a b, ordered_float_leb (sp_score b) (sp_score a) = true) res ∧
    Forall (result_ok s name (vdc_distance cfg) query with_payload with_vector) res ∧
    ∀ p e, p ∈ res → e ∈ rest →
      ordered_float_leb (point_score s name (vdc_distance cfg) query e) (sp_score p) = true.
Proof using.
  destruct (proj1 (core_names _ _ _ _ name Hwf)) as [vd Hvd]; [eauto|].
  destruct (plain_search_candidates s name cfg vd query filter top params) as (l & kept & Hnd & Hin & Hpeek & Hs); [done..|].
  destruct (peek_top_largest_selects scored_leb scored_leb_total scored_leb_trans (E:=OperationError)
    (scored_offset cfg vd query <$> l) top) as (kept' & Hk' & Hsort & Hlk & d & Hperm & Hbest).
  assert (kept' = kept) as -> by congruence.
  assert (∀ x, x ∈ kept ++ d → ∃ i, passes s filter i ∧ x = scored_offset cfg vd query i) as Hel.
  { intros x. rewrite <-Hperm, list_elem_of_fmap. intros (i & -> & Hi). exists i. by rewrite <-Hin. }
  assert (∀ x, x ∈ kept ++ d → is_Some (external_id (seg_id_tracker s) (spo_idx x))) as Hlive.
  { intros x Hx. by destruct (Hel x Hx) as (i & [Hi _] & ->). }
  assert (∀ x, x ∈ kept → is_Some (external_id (seg_id_tracker s) (spo_idx x))) as Hlive'.
  { intros x Hx. apply Hlive, elem_of_app. by left. }
  pose proof (candidates_perm s filter l Hwf Hnd Hin) as Hpage.
  destruct (process_live_vectors s with_payload with_vector kept Hwf Hlive' Hex) as (vecs & Hproc & Hvecs).
  exists ((λ x, set_vector (vecs (spo_idx x)) (result_point s with_payload x)) <$> kept),
    (omap (external_id (seg_id_tracker s)) (spo_idx <$> d)).
  assert (sp_id <$> ((λ x, set_vector (vecs (spo_idx x)) (result_point s with_payload x)) <$> kept) =
    omap (external_id (seg_id_tracker s)) (spo_idx <$> kept)) as Hids.
  { rewrite <-(result_ids s with_payload kept) by done. by rewrite <-!list_fmap_compose. }
  split_and!.
  - unfold search, check_vector_name, map_get. unfold seg_cfgs in Hcfg. rewrite Hcfg, Hvd. cbn [mbind result_bind unwrap].
    destruct (storage_ok s name cfg vd Hwf Hcfg Hvd) as (_ & Hdim & _). rewrite decide_False by (rewrite Hdim, Hlen; auto).
    rewrite Hs. cbn [mbind result_bind vec_get unwrap lookup list_lookup]. exact Hproc.
  - rewrite Hids, <-omap_app, <-fmap_app, <-Hperm, <-list_fmap_compose. cbn. by rewrite list_fmap_id.
  - rewrite length_fmap, Hlk, length_fmap, <-Hpage, length_omap_Some; [done|]. intros i Hi. by apply Hin in Hi as [? _].
  - apply (StronglySorted_fmap (flip (leb_rel scored_leb))); [|done]. by intros x y.
  - apply Forall_fmap, Forall_forall. intros x Hx. specialize (Hvecs x Hx).
    destruct (Hel x) as (i & [Hi _] & ->); [by apply elem_of_app; left|]. cbn [spo_idx scored_offset] in *. by apply result_point_ok.
  - intros p e (x & -> & Hx)%list_elem_of_fmap (j & Hj & He)%list_elem_of_omap.
    apply list_elem_of_fmap in Hj as (y & -> & Hy).
    destruct (Hel y) as (j & _ & ->); [by apply elem_of_app; right|]. cbn in He.
    apply internal_external in He; [|apply Hwf]. rewrite (point_score_offset s name cfg vd query e j) by done.
    exact (Hbest x _ Hx Hy).
Qed.
End search_spec.

(** ** Witnesses *)

#[local] Existing Instance integer_numbers.
#[local] Existing Instance flat_geo.
#[local] Existing Instance no_simd.
#[local] Existing Instance match_only_single.
#[local] Existing Instance idle_index_ops.
#[local] Existing Instance idle_values.
#[local] Existing Instance idle_text.
#[local] Existing Instance idle_int.
#[local] Existing Instance idle_float.
#[local] Existing Instance idle_geo.
#[local] Existing Instance idle_full_text.
#[local] Existing Instance sample_vectors.
#[local] Existing Instance sample_vectors_laws.
#[local] Existing Instance sample_index.
#[local] Existing Instance sample_index_laws.
#[local] Existing Instance plain_index.

Definition sample_search (filter : option Filter) (top : nat) : OperationResult (list (ScoredPoint Z)) :=
  search (SP:=unit) no_display sample_segment "" [f32_zero; f32_one] {| enable := false; payload_selector := None |}
    (WVBool true) filter top None.

(** One of the points whose payload passes a filter on an indexed field. *)
Lemma plain_search_exact_witness :
  ∃ res, sample_search (Some color_filter) 1 = Ok res ∧ sp_id <$> res = [Uuid 5] ∧ length res = 1.
Proof.
  destruct (plain_search_exact (SP:=unit) no_display sample_segment "" (mkVectorDataConfig 2 Dot None None) [f32_zero; f32_one]
    {| enable := false; payload_selector := None |} (WVBool true) (Some color_filter) 1 None sample_segment_wf)
    as (res & rest & Hs & _ & Hlen & _); [vm_compute; reflexivity|reflexivity|exact I|vm_compute; reflexivity|].
  assert (match sample_search (Some color_filter) 1 with Ok r => sp_id <$> r | _ => [] end = [Uuid 5]) as Hids by (vm_compute; reflexivity).
  unfold sample_search in *. rewrite Hs in Hids.
  exists res. split_and!; [exact Hs|exact Hids|]. rewrite <-(length_fmap sp_id), Hids. done.
Defined.
