(* ===== verification/SegmentEntry.v ===== *)
(** * The interface of segments

    Models the trait [SegmentEntry] of [lib/segment/src/entry/entry_point.rs],
    its instance for [Segment], and what the holders of segments rely on: an
    entry refines a map from ids to points.  The methods [data_path],
    [drop_data], [take_snapshot] and [get_telemetry_data] are left out. *)

From stdpp Require Import base gmap strings list sorting.
From Stdlib Require Import ZArith Lia SpecFloat.
From S2P Require Import Prelude Types Rocks IdTracker NamedVectors VectorStorage Text Filters Estimator TopK.
From S2P Require Import PayloadStorage FieldIndex FieldIndexEnum FieldIndexLaws Spaces QueryOptimizer.
From S2P Require Import StructPayloadIndex PayloadIndexSpec PayloadIndexLaws Segment PlainIndex SegmentSpec.

(** ** The trait *)

Class SegmentEntry (Num SP E : Type) := {
  se_version : E → SeqNumberType;
  se_point_version : E → PointIdType → option SeqNumberType;
  se_search : E → string → VectorType → WithPayload → WithVector → option Filter → nat → option SP →
    OperationResult (list (ScoredPoint Num));
  se_search_batch : E → string → list VectorType → WithPayload → WithVector → option Filter → nat → option SP →
    OperationResult (list (list (ScoredPoint Num)));
  se_upsert_vector : SeqNumberType → PointIdType → NamedVectors → sm E OperationError bool;
  se_delete_point : SeqNumberType → PointIdType → sm E OperationError bool;
  se_set_payload : SeqNumberType → PointIdType → Payload Num → sm E OperationError bool;
  se_set_full_payload : SeqNumberType → PointIdType → Payload Num → sm E OperationError bool;
  se_delete_payload : SeqNumberType → PointIdType → PayloadKeyType → sm E OperationError bool;
  se_clear_payload : SeqNumberType → PointIdType → sm E OperationError bool;
  se_vector : E → string → PointIdType → OperationResult VectorType;
  se_all_vectors : E → PointIdType → OperationResult NamedVectors;
  se_payload : E → PointIdType → OperationResult (Payload Num);
  se_iter_points : E → OperationResult (list PointIdType);
  se_read_filtered : E → option PointIdType → option nat → option Filter → OperationResult (list PointIdType);
  se_read_range : E → option PointIdType → option PointIdType → list PointIdType;
  se_has_point : E → PointIdType → bool;
  se_points_count : E → nat;
  se_estimate_points_count : E → option Filter → OperationResult CardinalityEstimation;
  se_deleted_count : E → OperationResult nat;
  se_segment_type : E → SegmentType;
  se_info : E → OperationResult SegmentInfo;
  se_config : E → SegmentConfig;
  se_is_appendable : E → bool;
  se_flush : bool → sm E OperationError SeqNumberType;
  se_delete_field_index : SeqNumberType → PayloadKeyType → sm E OperationError bool;
  se_create_field_index : SeqNumberType → PayloadKeyType → option PayloadFieldSchema → sm E OperationError bool;
  se_get_indexed_fields : E → gmap PayloadKeyType PayloadFieldSchema;
  se_check_error : E → option SegmentFailedState;
  se_delete_filtered : SeqNumberType → Filter → sm E OperationError nat;
  se_vector_dim : E → string → OperationResult nat;
  se_vector_dims : E → gmap string nat;
}.

(** ** The instance for [Segment] *)

Section segment_entry.
Context {Num T VI VS PI SP : Type} `{!JsonNumber Num} {HS : Simd}.
Context `{!IdTracker T} `{!VectorStorage VS} `{!PayloadIndex Num T PI} `{!VectorIndex T VS PI SP VI}.
Context (display_id : PointIdType → string) (segment_path : string)
  (outcome background : FlushStep → OperationResult unit).
Abbreviation Seg := (Segment T VI VS PI).

#[export] Instance segment_entry : SegmentEntry Num SP Seg := {|
  se_version := seg_version_num;
  se_point_version := point_version;
  se_search := search display_id;
  se_search_batch := search_batch display_id;
  se_upsert_vector := upsert_vector display_id;
  se_delete_point := delete_point (Num:=Num) display_id;
  se_set_payload := set_payload display_id;
  se_set_full_payload := set_full_payload display_id;
  se_delete_payload := delete_payload (Num:=Num) display_id;
  se_clear_payload := clear_payload (Num:=Num) display_id;
  se_vector := seg_vector display_id segment_path;
  se_all_vectors := all_vectors display_id segment_path;
  se_payload := seg_payload;
  se_iter_points s := Ok (iter_points s);
  se_read_filtered := read_filtered (Num:=Num);
  se_read_range := read_range;
  se_has_point := has_point;
  se_points_count := seg_points_count;
  se_estimate_points_count := estimate_points_count (Num:=Num);
  se_deleted_count := seg_deleted_count;
  se_segment_type := seg_type;
  se_info := seg_info (Num:=Num);
  se_config := seg_config;
  se_is_appendable := seg_appendable_flag;
  se_flush := flush display_id outcome background;
  se_delete_field_index := delete_field_index (Num:=Num) display_id;
  se_create_field_index := create_field_index (Num:=Num) display_id;
  se_get_indexed_fields := get_indexed_fields (Num:=Num);
  se_check_error := check_error;
  se_delete_filtered := delete_filtered (Num:=Num) display_id;
  se_vector_dim := seg_vector_dim;
  se_vector_dims := seg_vector_dims;
|}.
End segment_entry.

(** ** Laws *)

(** The method of an operation on a point. *)
Definition se_run_op {Num SP E} `{!SegmentEntry Num SP E} (n : SeqNumberType) (op : seg_op Num) :
    sm E OperationError bool :=
  match op with
  | OpUpsert e vs => se_upsert_vector n e vs
  | OpDelete e => se_delete_point n e
  | OpSetFull e p => se_set_full_payload n e p
  | OpSet e p => se_set_payload n e p
  | OpDeleteKey e key => se_delete_payload n e key
  | OpClear e => se_clear_payload n e
  end.

(** A point as its move to another segment leaves it: the vectors are
    processed once more, and a missing payload is an empty one. *)
Definition moved {Num} {HS : Simd} (cfgs : gmap string VectorDataConfig) (n : SeqNumberType) (pt : Point Num) : Point Num :=
  mkPoint n (processed cfgs (pt_vectors pt)) (Some (default ∅ (pt_payload pt))).

(** What is left of a point after moves: they keep the payload. *)
Definition carried {Num} {HS : Simd} (cfgs : gmap string VectorDataConfig) (n : SeqNumberType) (pt pt' : Point Num) : Prop :=
  default ∅ (pt_payload pt') = default ∅ (pt_payload pt) ∧
  (∃ k, pt_vectors pt' = Nat.iter k (processed cfgs) (pt_vectors pt)) ∧
  (pt_version pt' = pt_version pt ∨ pt_version pt' = n).

Lemma carried_refl {Num} {HS : Simd} cfgs n (pt : Point Num) : carried cfgs n pt pt.
Proof. split_and!; [done|by exists 0|by left]. Qed.

Lemma carried_moved {Num} {HS : Simd} cfgs n (pt : Point Num) : carried cfgs n pt (moved cfgs n pt).
Proof. split_and!; [done|by exists 1|by right]. Qed.

Lemma carried_trans {Num} {HS : Simd} cfgs n (p1 p2 p3 : Point Num) :
  carried cfgs n p1 p2 → carried cfgs n p2 p3 → carried cfgs n p1 p3.
Proof.
  intros (H1 & [k1 H2] & H3) (H4 & [k2 H5] & H6). split_and!; [congruence| |].
  - exists (k2 + k1). by rewrite Nat.iter_add, <-H2.
  - destruct H6 as [->|]; [done|by right].
Qed.

Definition is_delete {Num} (op : seg_op Num) : bool := match op with OpDelete _ => true | _ => false end.

(** What the holders of an entry rely on.  [entry_room s X] says that all the
    points of [X] can be written to [s]; [entry_safe] is about partial updates
    of the payload; [entry_fresh] that an operation is not older than what it
    touches; [entry_resident] that a point is where it is written, so that a
    write does not move it. *)
Class SegmentEntryLaws (Num SP E : Type) {HS : Simd} `{!SegmentEntry Num SP E} := {
  entry_wf : E → Prop;
  entry_point : E → PointIdType → option (Point Num);
  entry_cfgs : E → gmap string VectorDataConfig;
  entry_room : E → gset PointIdType → Prop;
  entry_safe : E → seg_op Num → Prop;
  entry_fresh : E → SeqNumberType → seg_op Num → Prop;
  entry_resident : E → PointIdType → Prop;
  config_spec (s : E) : entry_wf s → sc_vector_data (se_config s) = entry_cfgs s;
  has_point_spec (s : E) e : entry_wf s → se_has_point s e = bool_decide (is_Some (entry_point s e));
  point_version_spec (s : E) e pt :
    entry_wf s → entry_point s e = Some pt → se_point_version s e = Some (pt_version pt);
  entry_vectors_fit (s : E) e pt :
    entry_wf s → entry_point s e = Some pt → vectors_fit (entry_cfgs s) (pt_vectors pt);
  vector_spec (s : E) e pt name v :
    entry_wf s → entry_point s e = Some pt → pt_vectors pt !! name = Some v → se_vector s name e = Ok v;
  all_vectors_spec (s : E) e pt :
    entry_wf s → entry_point s e = Some pt →
    ∃ vs, se_all_vectors s e = Ok vs ∧ NoDup vs.*1 ∧ tm_view vs = pt_vectors pt;
  payload_spec (s : E) e pt :
    entry_wf s → entry_point s e = Some pt → se_payload s e = Ok (default ∅ (pt_payload pt));
  fresh_newest (s : E) n op :
    entry_wf s → (se_version s ≤ n)%N →
    (∀ pt, entry_point s (seg_op_point op) = Some pt → (pt_version pt ≤ n)%N) → entry_fresh s n op;
  fresh_delete (s : E) n e pt :
    entry_wf s → entry_point s e = Some pt → (pt_version pt ≤ n)%N → entry_fresh s n (OpDelete e);
  safe_simple (s : E) op :
    entry_wf s → match op with OpSet _ _ | OpDeleteKey _ _ => False | _ => True end → entry_safe s op;
  delete_absent_spec (s : E) n e :
    entry_wf s → entry_point s e = None → ∃ r, se_delete_point n e s = (Ok r, s);
  absent_op_spec (s : E) n op :
    entry_wf s → se_check_error s = None → (se_version s ≤ n)%N → updates_payload op = true →
    entry_point s (seg_op_point op) = None → se_run_op n op s = (Err (PointIdError (seg_op_point op)), s);
  entry_op_spec n op (s : E) (X : gset PointIdType) :
    entry_wf s → se_check_error s = None → entry_fresh s n op →
    match op with
    | OpUpsert e vs => NoDup vs.*1 ∧ vectors_fit (entry_cfgs s) (tm_view vs)
    | _ => is_Some (entry_point s (seg_op_point op)) ∧ entry_safe s op
    end →
    (is_delete op = false → entry_room s X ∧ seg_op_point op ∈ X) →
    sm_wp (se_run_op n op) (λ res s', entry_wf s' ∧ se_check_error s' = None ∧
      entry_cfgs s' = entry_cfgs s ∧ se_is_appendable s' = se_is_appendable s ∧
      (se_version s' ≤ N.max n (se_version s))%N ∧ (is_delete op = false → entry_room s' X) ∧
      res = bool_decide (is_Some (entry_point s (seg_op_point op))) ∧
      (is_delete op = false → entry_resident s' (seg_op_point op)) ∧
      ∃ old, option_Forall2 (carried (entry_cfgs s) n) (entry_point s (seg_op_point op)) old ∧
        (entry_resident s (seg_op_point op) → old = entry_point s (seg_op_point op)) ∧
        ∀ e, entry_point s' e = if decide (e = seg_op_point op) then seg_op_effect (entry_cfgs s) n op old
                                else entry_point s e) (λ _ _, True) s;
}.

Class IterableEntry (Num SP E : Type) {HS : Simd} `{!SegmentEntry Num SP E, !SegmentEntryLaws Num SP E} := {
  iter_points_spec (s : E) : entry_wf s →
    ∃ l, se_iter_points s = Ok l ∧ NoDup l ∧ ∀ e, e ∈ l ↔ is_Some (entry_point s e);
  point_version_absent (s : E) e : entry_wf s → entry_point s e = None → se_point_version s e = None;
}.

(** ** The laws for [Segment] *)

Lemma length_filter_le {A} (P Q : A → Prop) `{!∀ x, Decision (P x), !∀ x, Decision (Q x)} (l : list A) :
  (∀ x, Q x → P x) → length (base.filter Q l) ≤ length (base.filter P l).
Proof.
  intros Himp. induction l as [|x l IH]; [done|]. rewrite !filter_cons.
  destruct (decide (Q x)), (decide (P x)); cbn; [lia|naive_solver|lia|lia].
Qed.

Lemma length_filter_lt {A} (P Q : A → Prop) `{!∀ x, Decision (P x), !∀ x, Decision (Q x)} (l : list A) e :
  (∀ x, Q x → P x) → e ∈ l → P e → ¬ Q e → length (base.filter Q l) < length (base.filter P l).
Proof.
  intros Himp He HP HQ. induction l as [|x l IH]; [by apply not_elem_of_nil in He|].
  pose proof (length_filter_le P Q l Himp). rewrite !filter_cons. apply elem_of_cons in He as [<-|He].
  - rewrite (decide_True (P := P e)), (decide_False (P := Q e)) by done. cbn. lia.
  - specialize (IH He). destruct (decide (Q x)), (decide (P x)); cbn; [lia|naive_solver|lia|lia].
Qed.

Section segment_laws.
Context {Num T VI VS PI SP : Type} `{!JsonNumber Num} {HG : GeoOps} {HS : Simd} {HSL : SimdLaws}.
Context `{!IdTracker T, !IdTrackerLaws T} `{!VectorStorage VS, !VectorStorageLaws VS}.
Context `{!PayloadIndex Num T PI, !PayloadIndexLaws Num T PI} `{!VectorIndex T VS PI SP VI}.
Context (display_id : PointIdType → string) (segment_path : string)
  (outcome background : FlushStep → OperationResult unit).
Abbreviation Seg := (Segment T VI VS PI).
#[local] Existing Instance segment_entry.
Abbreviation entry := (segment_entry (SP:=SP) display_id segment_path outcome background).

(** A partial update of the payload is one the index can follow. *)
Definition segment_safe (s : Seg) (op : seg_op Num) : Prop :=
  match op with
  | OpSet e _ | OpDeleteKey e _ => ∀ i iop, internal_id (seg_id_tracker s) e = Some i →
      seg_op_index op i = Some iop → pi_op_safe (seg_payload_index s) iop
  | _ => True
  end.

Lemma vector_live (s : Seg) name vd e i :
  seg_wf s → seg_vector_data s !! name = Some vd → internal_id (seg_id_tracker s) e = Some i →
  ∃ v, seg_vector display_id segment_path s name e = Ok v ∧ offset_vectors (seg_vector_data s) i !! name = Some v.
Proof using.
  intros Hwf Hd He. pose proof (core_external _ _ _ _ _ _ Hwf He) as Hi.
  destruct (core_live_vector _ _ _ _ _ _ i Hwf Hd) as (cfg & v & Hc & Hv & _); [eauto|]. exists v.
  unfold seg_vector, lookup_internal_id, vector_by_offset, check_vector_name, map_get, offset_vectors.
  unfold seg_cfgs in Hc. rewrite lookup_omap, He, Hc, Hd. cbn.
  rewrite (proj2 (is_deleted_external _ i (cw_tracker _ _ _ _ Hwf))) by eauto. cbn. by rewrite Hv.
Qed.

Lemma all_vectors_live (s : Seg) e i :
  seg_wf s → internal_id (seg_id_tracker s) e = Some i →
  ∃ vs, all_vectors display_id segment_path s e = Ok vs ∧ NoDup vs.*1 ∧
    tm_view vs = offset_vectors (seg_vector_data s) i.
Proof using.
  intros Hwf He. apply nv_collect_all.
  - intros name. split.
    + intros ([k vd] & Heq & Hd%elem_of_map_to_list)%list_elem_of_fmap. cbn in Heq. subst k.
      destruct (vector_live s name vd e i Hwf Hd He) as (v & _ & Hv). eauto.
    + intros [v Hv]. unfold offset_vectors in Hv. rewrite lookup_omap in Hv.
      destruct (seg_vector_data s !! name) as [vd|] eqn:Hd; [|done].
      apply list_elem_of_fmap. exists (name, vd). split; [done|]. by apply elem_of_map_to_list.
  - intros name v Hv. destruct (seg_vector_data s !! name) as [vd|] eqn:Hd.
    + destruct (vector_live s name vd e i Hwf Hd He) as (w & Hw & Hoff). congruence.
    + unfold offset_vectors in Hv. by rewrite lookup_omap, Hd in Hv.
Qed.

Lemma point_vectors_fit (s : Seg) e pt :
  seg_wf s → abs_point s e = Some pt → vectors_fit (seg_cfgs s) (pt_vectors pt).
Proof using.
  intros Hwf Hpt name. unfold abs_point, core_point in Hpt.
  destruct (internal_id (seg_id_tracker s) e) as [i|] eqn:He; [|done]. injection Hpt as <-. cbn.
  pose proof (core_external _ _ _ _ _ _ Hwf He) as Hi. unfold offset_vectors. rewrite lookup_omap.
  pose proof (cw_data _ _ _ _ Hwf name) as Hn. destruct Hn as [cfg vd (_ & _ & _ & _ & Hv)|]; [|constructor].
  destruct (Hv i) as (_ & v & Hg & Hl); [eauto|]. cbn. rewrite Hg. by constructor.
Qed.

(** An operation is not older than its point or, without one, the segment. *)
Definition segment_fresh (s : Seg) (n : SeqNumberType) (op : seg_op Num) : Prop :=
  match abs_point s (seg_op_point op) with
  | Some pt => (pt_version pt ≤ n)%N
  | None => (seg_version_num s ≤ n)%N
  end.

(** The points that are not there yet fit into the offsets. *)
Definition segment_room (s : Seg) (X : gset PointIdType) : Prop :=
  (N.of_nat (internal_size (seg_id_tracker s) + length (base.filter (λ e, abs_point s e = None) (elements X))) ≤ u32_max)%N.

Lemma segment_room_kept (s s' : Seg) X e :
  segment_room s X → e ∈ X → is_Some (abs_point s' e) → (∀ e', e' ≠ e → abs_point s' e' = abs_point s e') →
  internal_size (seg_id_tracker s') = internal_size (seg_id_tracker s) + (if decide (abs_point s e = None) then 1 else 0) →
  segment_room s' X.
Proof using.
  unfold segment_room. intros Hr He [pt Hpt] Hsame Hsz.
  assert (∀ e', abs_point s' e' = None → abs_point s e' = None) as Himp.
  { intros e' Hn. destruct (decide (e' = e)) as [->|]; [congruence|]. by rewrite <-Hsame. }
  destruct (decide (abs_point s e = None)) as [Hnone|].
  - assert (length (base.filter (λ e, abs_point s' e = None) (elements X)) <
      length (base.filter (λ e, abs_point s e = None) (elements X))); [|lia].
    apply (length_filter_lt _ _ _ e); [done|by apply elem_of_elements|done|congruence].
  - assert (length (base.filter (λ e, abs_point s' e = None) (elements X)) ≤
      length (base.filter (λ e, abs_point s e = None) (elements X))); [by apply length_filter_le|lia].
Qed.

Lemma not_stale (s : Seg) n op :
  seg_wf s → segment_fresh s n op →
  is_stale s n (internal_id (seg_id_tracker s) (seg_op_point op)) = false.
Proof using.
  intros Hwf Hf. unfold segment_fresh in Hf. destruct (internal_id (seg_id_tracker s) (seg_op_point op)) as [i|] eqn:He.
  - rewrite (abs_point_Some s _ i He) in Hf. cbn in *.
    destruct (cw_versions _ _ _ _ Hwf i) as [v Hv]; [eexists; by eapply core_external|].
    rewrite Hv in *. by apply N.ltb_ge.
  - rewrite (abs_point_None s _ He) in Hf. cbn in *. by apply N.ltb_ge.
Qed.

Lemma segment_op_spec n (op : seg_op Num) (s : Seg) :
  seg_wf s → seg_error_status s = None → segment_fresh s n op →
  match op with
  | OpUpsert e vs => NoDup vs.*1 ∧ vectors_fit (seg_cfgs s) (tm_view vs) ∧
      (abs_point s e = None → (N.of_nat (internal_size (seg_id_tracker s)) < u32_max)%N)
  | _ => is_Some (abs_point s (seg_op_point op)) ∧ segment_safe s op
  end →
  sm_wp (run_seg_op display_id n op) (op_post n op s) (λ _ _, True) s.
Proof using HSL VectorStorageLaws0.
  intros Hwf Hes Hf Hv. apply run_seg_op_wp; [done|unfold accepts; by rewrite Hes| |by apply not_stale].
  destruct op as [e vs|e|e p|e p|e key|e]; cbn [op_valid seg_op_point] in *.
  1: destruct Hv as (? & ? & Hr); split_and!; [done..|]; intros He; by apply Hr, abs_point_None.
  all: destruct Hv as [[pt Hpt] Hsafe]; unfold abs_point, core_point in Hpt;
    destruct (internal_id (seg_id_tracker s) e) as [i|] eqn:He; [|done].
  1: by eexists.
  all: exists i; eexists; split_and!; [done|done|]; try done.
  all: by eapply Hsafe.
Qed.

Lemma run_op_entry n (op : seg_op Num) : se_run_op (SegmentEntry0:=entry) n op = run_seg_op display_id n op.
Proof using. by destruct op. Qed.

Lemma point_offset (s : Seg) e pt :
  abs_point s e = Some pt → ∃ i, internal_id (seg_id_tracker s) e = Some i ∧
    pt = mkPoint (default 0%N (internal_version (seg_id_tracker s) i)) (offset_vectors (seg_vector_data s) i)
           (pi_stored (seg_payload_index s) i).
Proof using.
  unfold abs_point, core_point. destruct (internal_id (seg_id_tracker s) e) as [i|]; [|done]. intros [= <-]. eauto.
Qed.

(** An operation as the interface promises it. *)
Lemma segment_entry_op n (op : seg_op Num) (s : Seg) X :
  seg_wf s → check_error s = None → segment_fresh s n op →
  match op with
  | OpUpsert e vs => NoDup vs.*1 ∧ vectors_fit (seg_cfgs s) (tm_view vs)
  | _ => is_Some (abs_point s (seg_op_point op)) ∧ segment_safe s op
  end →
  (is_delete op = false → segment_room s X ∧ seg_op_point op ∈ X) →
  sm_wp (run_seg_op display_id n op) (λ res s', seg_wf s' ∧ check_error s' = None ∧
    seg_cfgs s' = seg_cfgs s ∧ seg_appendable_flag s' = seg_appendable_flag s ∧
    (seg_version_num s' ≤ N.max n (seg_version_num s))%N ∧ (is_delete op = false → segment_room s' X) ∧
    res = bool_decide (is_Some (abs_point s (seg_op_point op))) ∧
    ∀ e, abs_point s' e = if decide (e = seg_op_point op)
      then seg_op_effect (seg_cfgs s) n op (abs_point s (seg_op_point op)) else abs_point s e) (λ _ _, True) s.
Proof using HSL VectorStorageLaws0.
  intros Hwf Hes Hf Hv Hroom. eapply sm_wp_mono; [apply segment_op_spec; try done| |done].
  { destruct op as [e vs|e|e p|e p|e key|e]; try done. destruct Hv as (? & ?). split_and!; [done..|].
    intros He. destruct Hroom as [Hr HX]; [done|]. unfold segment_room in Hr. cbn in HX.
    assert (0 < length (base.filter (λ e, abs_point s e = None) (elements X))); [|lia].
    assert (e ∈ base.filter (λ e, abs_point s e = None) (elements X)) as Hin
      by (apply list_elem_of_filter; split; [done|by apply elem_of_elements]).
    destruct (base.filter _ (elements X)); [by apply not_elem_of_nil in Hin|cbn; lia]. }
  intros res s' (Hwf' & Hcfg & Happ & Hes' & Hver & Hsz & Hres & Hpt).
  split_and!; [done| | |done| | |done|].
  - unfold check_error in *. by rewrite Hes', Hes.
  - unfold seg_cfgs. by rewrite Hcfg.
  - unfold seg_version_num. rewrite Hver. cbn. lia.
  - intros Hd. destruct (Hroom Hd) as [Hr HX]. eapply (segment_room_kept s s' X (seg_op_point op) Hr HX).
    + rewrite Hpt, decide_True by done. destruct op as [e vs|e|e p|e p|e key|e]; cbn in *; [eauto|done|..].
      all: destruct Hv as [[pt ->] _]; eauto.
    + intros e' Hne. by rewrite Hpt, decide_False.
    + rewrite Hsz. f_equal. destruct op as [e vs|e|e p|e p|e key|e]; cbn in *; [by destruct (abs_point s e)|done|..].
      all: destruct Hv as [[pt ->] _]; done.
  - intros e. rewrite Hpt. by destruct (decide (e = seg_op_point op)) as [->|].
Qed.

#[export] Instance segment_entry_laws : @SegmentEntryLaws Num SP Seg HS entry.
Proof using HSL VectorStorageLaws0 PayloadIndexLaws0 IdTrackerLaws0 HG JsonNumber0.
  unshelve refine (@Build_SegmentEntryLaws Num SP Seg HS entry seg_wf abs_point seg_cfgs segment_room segment_safe
    segment_fresh (λ _ _, True) _ _ _ _ _ _ _ _ _ _ _ _ _).
  - done.
  - intros s e Hwf. cbn. unfold has_point, abs_point, core_point. by destruct (internal_id _ e).
  - intros s e pt Hwf (i & He & ->)%point_offset. cbn. unfold point_version. rewrite He. cbn.
    destruct (cw_versions _ _ _ _ Hwf i) as [v Hv]; [eexists; by eapply core_external|]. by rewrite Hv.
  - apply point_vectors_fit.
  - intros s e pt name v Hwf (i & He & ->)%point_offset. cbn. intros Hv.
    destruct (seg_vector_data s !! name) as [vd|] eqn:Hd.
    + destruct (vector_live s name vd e i Hwf Hd He) as (w & Hw & Hoff). rewrite Hw. congruence.
    + unfold offset_vectors in Hv. by rewrite lookup_omap, Hd in Hv.
  - intros s e pt Hwf (i & He & ->)%point_offset. by apply all_vectors_live.
  - intros s e pt Hwf (i & He & ->)%point_offset. cbn. unfold seg_payload, lookup_internal_id. rewrite He. cbn.
    unfold payload_by_offset. by rewrite (pi_payload_spec _ _ (cw_index _ _ _ _ Hwf)).
  - intros s n op Hwf Hv Hpt. unfold segment_fresh. destruct (abs_point s _); [by apply Hpt|done].
  - intros s n e pt Hwf Hpt Hv. unfold segment_fresh. cbn. by rewrite Hpt.
  - intros s op Hwf Hop. by destruct op.
  - intros s n e Hwf Hpt. exists false. cbn. unfold delete_point, mbind, sm_bind, sm_get. cbn.
    destruct (internal_id (seg_id_tracker s) e) as [i|] eqn:He; [|done]. by rewrite (abs_point_Some s e i He) in Hpt.
  - intros s n op Hwf Hes Hv Hop Hpt. rewrite run_op_entry, (absent_update display_id n op s Hes Hop Hpt).
    unfold is_stale. cbn. by rewrite (proj2 (N.ltb_ge _ _)).
  - intros n op s X Hwf Hes Hf Hv Hroom. rewrite run_op_entry. eapply sm_wp_mono; [by apply segment_entry_op| |done].
    intros res s' (? & ? & ? & ? & ? & ? & ? & Hpt). split_and!; try done. eexists. split_and!; [|done|exact Hpt].
    destruct (abs_point s (seg_op_point op)); constructor. apply carried_refl.
Defined.

#[export] Instance segment_iterable : @IterableEntry Num SP Seg HS entry segment_entry_laws.
Proof using.
  split.
  - intros s Hwf. exists (iter_points s). split_and!; [done|by apply iter_points_le|]. intros e.
    rewrite elem_of_iter_points by done. cbn. unfold abs_point, core_point.
    destruct (internal_id _ e); cbn; split; eauto; by intros [].
  - intros s e Hwf. cbn. unfold point_version, abs_point, core_point. by destruct (internal_id _ e).
Qed.
End segment_laws.
