(* ===== verification/SegmentHolder.v ===== *)
(** * The holder of the segments of a shard

    Models [SegmentHolder] of
    [lib/collection/src/collection_manager/holders/segment_holder.rs] and the
    errors of [lib/collection/src/operations/types.rs].

    The holder owns its segments, each behind a lock of its own.  The methods
    that take [&self] update segments under their locks; they are state
    transformers on the holder here, run one after another.  A closure that
    captures a variable by mutable reference is a transformer of that variable
    as well, the second part of the state.  Random choices and the outcome of
    [try_write] are arguments; a lock that is waited for is got eventually.
    Iteration over the [HashMap] of segments is in the order of [map_to_list].

    Not modelled: [drop_data] and snapshots (files). *)

From stdpp Require Import base gmap strings list sorting.
From Stdlib Require Import ZArith Lia SpecFloat.
From S2P Require Import Prelude Types Rocks NamedVectors Filters Segment SegmentEntry.

Abbreviation SegmentId := N (only parsing).
Abbreviation PeerId := N (only parsing).

Inductive CollectionError : Type :=
| BadInput (description : string)
| NotFound (what : string)
| PointNotFound (missed_point_id : PointIdType)
| CServiceError (error : string)
| BadRequest (description : string)
| CCancelled (description : string)
| BadShardSelection (description : string)
| InconsistentShardFailure (shards_total shards_failed : N) (first_err : CollectionError)
| ForwardProxyError (peer_id : PeerId) (error : CollectionError).

Abbreviation CollectionResult := (result CollectionError).

Definition remote_peer_id (self : CollectionError) : option PeerId :=
  match self with ForwardProxyError peer_id _ => Some peer_id | _ => None end.

Definition is_service_error {T} (err : CollectionResult T) : bool :=
  match err with Err (CServiceError _) => true | _ => false end.

(** [From<OperationError>] *)
Definition collection_error (display_id : PointIdType → string) (err : OperationError) : CollectionError :=
  match err with
  | PointIdError missed_point_id => PointNotFound missed_point_id
  | ServiceError description => CServiceError description
  | Cancelled description => CCancelled description
  | _ => BadInput (display_error display_id err)
  end.

Record SegmentHolder (E : Type) := mkHolder {
  segments : gmap SegmentId E;
  failed_operation : gset SeqNumberType;
  optimizer_errors : option CollectionError;
}.
Arguments mkHolder {E}.
Arguments segments {E}.
Arguments failed_operation {E}.
Arguments optimizer_errors {E}.

Section holder.
Context {Num SP E : Type} `{!SegmentEntry Num SP E}.
Abbreviation Holder := (SegmentHolder E).

Definition set_segments (m : gmap SegmentId E) (h : Holder) : Holder :=
  mkHolder m (failed_operation h) (optimizer_errors h).

Definition holder_len (self : Holder) : nat := size (segments self).
Definition holder_is_empty (self : Holder) : bool := bool_decide (segments self = ∅).

(** The first draw that is not in use; [None] if no draw is. *)
Definition generate_new_key (self : Holder) (draws : list SegmentId) : option SegmentId :=
  head (base.filter (λ key, segments self !! key = None) draws).

Definition add (draws : list SegmentId) (segment : E) (self : Holder) : option (SegmentId * Holder) :=
  key ← generate_new_key self draws;
  Some (key, set_segments (<[key := segment]> (segments self)) self).

Fixpoint remove (remove_ids : list SegmentId) (self : Holder) : list E * Holder :=
  match remove_ids with
  | [] => ([], self)
  | remove_id :: remove_ids =>
      let removed_segment := segments self !! remove_id in
      let '(removed_segments, self) := remove remove_ids (set_segments (delete remove_id (segments self)) self) in
      (match removed_segment with Some segment => segment :: removed_segments | None => removed_segments end, self)
  end.

Definition swap (draws : list SegmentId) (segment : E) (remove_ids : list SegmentId) (self : Holder) :
    option (SegmentId * list E * Holder) :=
  '(new_id, self) ← add draws segment self;
  let '(removed, self) := remove remove_ids self in
  Some (new_id, removed, self).

Definition appendable_segments (self : Holder) : list SegmentId :=
  (base.filter (λ p : SegmentId * E, se_is_appendable p.2 = true) (map_to_list (segments self))).*1.

Definition non_appendable_segments (self : Holder) : list SegmentId :=
  (base.filter (λ p : SegmentId * E, se_is_appendable p.2 = false) (map_to_list (segments self))).*1.

Definition random_appendable_segment (choose : list SegmentId → option SegmentId) (self : Holder) :
    option SegmentId :=
  idx ← choose (appendable_segments self);
  if decide (is_Some (segments self !! idx)) then Some idx else None.

Definition segment_points (ids : list PointIdType) (segment : E) : list PointIdType :=
  base.filter (λ id, se_has_point segment id = true) ids.

Definition report_optimizer_error (error : CollectionError) (self : Holder) : Holder :=
  match optimizer_errors self with
  | None => mkHolder (segments self) (failed_operation self) (Some error)
  | Some _ => self
  end.

(** *** Updates *)

Section captured.
Context {X : Type}.
Abbreviation Op := (sm (Holder * X) OperationError).

(** An operation on one segment and the captured variable. *)
Definition with_segment {A} (idx : SegmentId) (m : sm (E * X) OperationError A) : Op A := λ st,
  match segments st.1 !! idx with
  | None => (Panic, st)
  | Some segment =>
      let '(r, (segment, x)) := m (segment, st.2) in
      (r, (set_segments (<[idx := segment]> (segments st.1)) st.1, x))
  end.

Definition on_segment {A} (idx : SegmentId) (m : sm E OperationError A) : Op A :=
  with_segment idx (sm_zoom fst (λ e p, (e, p.2)) m).

Definition read_segment {A} (idx : SegmentId) (f : E → OperationResult A) : Op A :=
  on_segment idx (λ e, (f e, e)).

Definition capture {A} (f : X → X) (a : A) : Op A := λ st, (Ok a, (st.1, f st.2)).

Definition for_each_segment (f : E → sm X OperationError bool) : Op nat :=
  st ← sm_get;
  sm_fold (λ idx processed_segments,
    is_applied ← with_segment idx (λ p, let '(r, x) := f p.1 p.2 in (r, (p.1, x)));
    mret (processed_segments + Nat.b2n is_applied)) (map_to_list (segments st.1)).*1 0.

Definition apply_segments (f : sm (E * X) OperationError bool) : Op nat :=
  st ← sm_get;
  sm_fold (λ idx processed_segments,
    is_applied ← with_segment idx f;
    mret (processed_segments + Nat.b2n is_applied)) (map_to_list (segments st.1)).*1 0.

Definition apply_points (ids : list PointIdType) (f : PointIdType → SegmentId → Op bool) : Op nat :=
  st ← sm_get;
  sm_fold (λ idx applied_points,
    affected ← read_segment idx (λ segment, Ok (segment_points ids segment));
    sm_fold (λ point_id applied_points,
      is_applied ← f point_id idx;
      mret (applied_points + Nat.b2n is_applied)) affected applied_points)
    (map_to_list (segments st.1)).*1 0.

Definition read_points (ids : list PointIdType) (f : PointIdType → E → sm X OperationError bool) : Op nat :=
  st ← sm_get;
  sm_fold (λ idx count,
    affected ← read_segment idx (λ segment, Ok (segment_points ids segment));
    sm_fold (λ point count,
      is_ok ← with_segment idx (λ p, let '(r, x) := f point p.1 p.2 in (r, (p.1, x)));
      mret (count + Nat.b2n is_ok)) affected count)
    (map_to_list (segments st.1)).*1 0.

(** The locks of a write, and the random choice when none is free. *)
Context (try_lock : SegmentId → bool) (choose : list SegmentId → option SegmentId).

Definition aloha_random_write (segment_ids : list SegmentId) (apply : SegmentId → Op bool) : Op bool :=
  if decide (segment_ids = [])
  then sm_fail (service_error "No appendable segments exists, expected at least one")
  else
    st ← sm_get;
    let entries := base.filter (λ id, is_Some (segments st.1 !! id)) segment_ids in
    match head (base.filter (λ id, try_lock id = true) entries) with
    | Some segment_id => apply segment_id
    | None => match choose entries with
              | Some segment_id => apply segment_id
              | None => sm_lift Panic
              end
    end.
End captured.

(** Moves a point into an appendable segment and applies [f] there. *)
Definition move_and_apply {X} (op_num : SeqNumberType) (point_id : PointIdType)
    (f : PointIdType → sm E OperationError bool) (idx appendable_idx : SegmentId) :
    sm (Holder * X) OperationError bool :=
  all_vectors ← read_segment idx (λ write_segment, se_all_vectors write_segment point_id);
  payload ← read_segment idx (λ write_segment, se_payload (Num:=Num) (SP:=SP) write_segment point_id);
  _ ← on_segment appendable_idx (se_upsert_vector (Num:=Num) (SP:=SP) op_num point_id all_vectors);
  _ ← on_segment appendable_idx (se_set_full_payload (SP:=SP) op_num point_id payload);
  _ ← on_segment idx (se_delete_point (Num:=Num) (SP:=SP) op_num point_id);
  on_segment appendable_idx (f point_id).

(** The closure of [apply_points_to_appendable]; it captures the set of
    applied points. *)
Definition apply_to_appendable (try_lock : SegmentId → bool) (choose : list SegmentId → option SegmentId)
    (appendable : list SegmentId) (op_num : SeqNumberType) (f : PointIdType → sm E OperationError bool)
    (point_id : PointIdType) (idx : SegmentId) : sm (Holder * gset PointIdType) OperationError bool :=
  version ← read_segment idx (λ write_segment, Ok (se_point_version (Num:=Num) (SP:=SP) write_segment point_id));
  if map_or false (λ point_version, op_num <=? point_version)%N version
  then capture (λ applied_points, {[ point_id ]} ∪ applied_points) false
  else
    is_appendable ← read_segment idx (λ write_segment, Ok (se_is_appendable (Num:=Num) (SP:=SP) write_segment));
    is_applied ←
      (if is_appendable : bool then on_segment idx (f point_id)
       else aloha_random_write try_lock choose appendable (move_and_apply op_num point_id f idx));
    capture (λ applied_points, {[ point_id ]} ∪ applied_points) is_applied.

Definition apply_points_to_appendable (try_lock : SegmentId → bool) (choose : list SegmentId → option SegmentId)
    (op_num : SeqNumberType) (ids : list PointIdType) (f : PointIdType → sm E OperationError bool) :
    sm Holder OperationError (gset PointIdType) := λ h,
  let appendable := appendable_segments h in
  match apply_points ids (apply_to_appendable try_lock choose appendable op_num f) (h, ∅) with
  | (Ok _, (h, applied_points)) => (Ok applied_points, h)
  | (Err e, (h, _)) => (Err e, h)
  | (Panic, (h, _)) => (Panic, h)
  end.

(** *** Flushing *)

Definition segment_flush_ordering (self : Holder) : list SegmentId :=
  appendable_segments self ++ non_appendable_segments self.

Record FlushAcc := mkFlushAcc {
  max_persisted_version : SeqNumberType;
  min_unsaved_version : SeqNumberType;
  has_unsaved : bool;
}.

(** One iteration of the loop of [flush_all]. *)
Definition flush_segment (sync : bool) (idx : SegmentId) (acc : FlushAcc) : sm (Holder * unit) OperationError FlushAcc :=
  segment_version ← read_segment idx (λ segment, Ok (se_version (Num:=Num) (SP:=SP) segment));
  segment_persisted_version ← on_segment idx (se_flush (Num:=Num) (SP:=SP) sync);
  let unsaved := (segment_persisted_version <? segment_version)%N in
  mret (mkFlushAcc (N.max (max_persisted_version acc) segment_persisted_version)
          (if unsaved then N.min (min_unsaved_version acc) segment_persisted_version else min_unsaved_version acc)
          (has_unsaved acc || unsaved)).

Definition flush_all (sync : bool) : sm (Holder * unit) OperationError SeqNumberType :=
  st ← sm_get;
  acc ← sm_fold (flush_segment sync) (segment_flush_ordering st.1) (mkFlushAcc 0 u64_max false);
  mret (if has_unsaved acc then min_unsaved_version acc else max_persisted_version acc).

(** *** Duplicates *)

Record DedupAcc := mkDedup {
  seen_points : gmap PointIdType (SegmentId * SeqNumberType);
  points_to_remove : gmap SegmentId (list PointIdType);
}.

(** [m.entry(id).or_default().push(point_id)] *)
Definition push_removal (id : SegmentId) (point_id : PointIdType) (m : gmap SegmentId (list PointIdType)) :
    gmap SegmentId (list PointIdType) :=
  <[id := default [] (m !! id) ++ [point_id]]> m.

Definition dedup_point (segment_id : SegmentId) (read_segment : E) (acc : DedupAcc) (point_id : PointIdType) :
    DedupAcc :=
  match se_point_version (Num:=Num) (SP:=SP) read_segment point_id with
  | None => acc
  | Some point_version =>
      match seen_points acc !! point_id with
      | Some (seen_segment_id, seen_version) =>
          if (point_version <? seen_version)%N
          then mkDedup (seen_points acc) (push_removal segment_id point_id (points_to_remove acc))
          else mkDedup (<[point_id := (segment_id, point_version)]> (seen_points acc))
                 (push_removal seen_segment_id point_id (points_to_remove acc))
      | None => mkDedup (<[point_id := (segment_id, point_version)]> (seen_points acc)) (points_to_remove acc)
      end
  end.

Definition dedup_segment (p : SegmentId * E) (acc : DedupAcc) : OperationResult DedupAcc :=
  ids ← se_iter_points (Num:=Num) (SP:=SP) p.2;
  Ok (fold_left (dedup_point p.1 p.2) ids acc).

Definition remove_duplicate (segment_id : SegmentId) (point_id : PointIdType) (removed_points : nat) :
    sm (Holder * unit) OperationError nat :=
  version ← read_segment segment_id (λ s, Ok (se_point_version (Num:=Num) (SP:=SP) s point_id));
  match version with
  | Some point_version =>
      _ ← on_segment segment_id (se_delete_point (Num:=Num) (SP:=SP) point_version point_id);
      mret (removed_points + 1)
  | None => mret removed_points
  end.

Definition deduplicate_points : sm (Holder * unit) OperationError nat :=
  st ← sm_get;
  acc ← sm_lift (res_fold dedup_segment (map_to_list (segments st.1)) (mkDedup ∅ ∅));
  sm_fold (λ p removed_points, sm_fold (remove_duplicate p.1) p.2 removed_points)
    (map_to_list (points_to_remove acc)) 0.
End holder.
