(* ===== verification/Requests.v ===== *)
(** * Read requests

    Models the requests of [lib/collection/src/operations/types.rs] and the
    parts of [lib/segment/src/types.rs] they are made of: the parameters of a
    search, the vector of a query ([NamedVectorStruct] of
    [data_types/vectors.rs]) and the derived equality of filters.  Fields that
    only select how requests are deserialised are left out. *)

From stdpp Require Import base gmap strings list.
From Stdlib Require Import ZArith SpecFloat.
From S2P Require Import Prelude Types NamedVectors Filters Spaces.

(** ** Parameters of a search *)

Record QuantizationSearchParams := mkQuantizationParams {
  q_ignore : bool;
  q_rescore : bool;
}.

Record SearchParams := mkSearchParams {
  hnsw_ef : option N;
  exact_search : bool;
  quantization : option QuantizationSearchParams;
}.

#[export] Instance QuantizationSearchParams_eq_dec : EqDecision QuantizationSearchParams.
Proof. solve_decision. Defined.
#[export] Instance SearchParams_eq_dec : EqDecision SearchParams.
Proof. solve_decision. Defined.
#[export] Instance PayloadSelector_eq_dec : EqDecision PayloadSelector.
Proof. solve_decision. Defined.
#[export] Instance WithPayload_eq_dec : EqDecision WithPayload.
Proof. solve_decision. Defined.
#[export] Instance WithVector_eq_dec : EqDecision WithVector.
Proof. solve_decision. Defined.
#[export] Instance Match_eq_dec : EqDecision Match.
Proof. unfold EqDecision, Decision. repeat decide equality. Defined.
#[export] Instance ValuesCount_eq_dec : EqDecision ValuesCount.
Proof. solve_decision. Defined.

Definition with_payload_is_required (self : WithPayloadInterface) : bool :=
  match self with WPBool b => b | _ => true end.

Definition with_vector_is_some (self : WithVector) : bool :=
  match self with WVBool b => b | WVSelector _ => true end.

Inductive NamedVectorStruct : Type :=
| NVDefault (vector : VectorType)
| NVNamed (name : string) (vector : VectorType).

Definition get_name (self : NamedVectorStruct) : string :=
  match self with NVDefault _ => DEFAULT_VECTOR_NAME | NVNamed name _ => name end.

Definition get_query_vector (self : NamedVectorStruct) : VectorType :=
  match self with NVDefault vector | NVNamed _ vector => vector end.

(** ** Requests and answers *)

Record SearchRequest := mkSearchRequest {
  sr_vector : NamedVectorStruct;
  sr_filter : option Filter;
  sr_params : option SearchParams;
  sr_limit : nat;
  sr_offset : nat;
  sr_with_payload : option WithPayloadInterface;
  sr_with_vector : option WithVector;
  sr_score_threshold : option ScoreType;
}.

(** [request.limit + request.offset] *)
Definition sr_top (self : SearchRequest) : nat := sr_limit self + sr_offset self.

Record ScrollRequest := mkScrollRequest {
  scr_offset : option PointIdType;
  scr_limit : option nat;
  scr_filter : option Filter;
  scr_with_payload : option WithPayloadInterface;
  scr_with_vector : WithVector;
}.

Definition default_scroll_request : ScrollRequest :=
  mkScrollRequest None (Some 10) None (Some (WPBool true)) (WVBool false).

Record PointRequest := mkPointRequest {
  pr_ids : list PointIdType;
  pr_with_payload : option WithPayloadInterface;
  pr_with_vector : WithVector;
}.

Record CountRequest := mkCountRequest {
  cr_filter : option Filter;
  cr_exact : bool;
}.

(** [Record]: the data of a point. *)
Record PointRecord (Num : Type) := mkRecord {
  rec_id : PointIdType;
  rec_payload : option (Payload Num);
  rec_vector : option VectorStruct;
}.
Arguments mkRecord {Num}.
Arguments rec_id {Num}.
Arguments rec_payload {Num}.
Arguments rec_vector {Num}.

Record ScrollResult (Num : Type) := mkScrollResult {
  scroll_points : list (PointRecord Num);
  next_page_offset : option PointIdType;
}.
Arguments mkScrollResult {Num}.
Arguments scroll_points {Num}.
Arguments next_page_offset {Num}.

(** ** Equality of filters *)

(** The derived [PartialEq]; floats are compared as IEEE values. *)
Definition option_eqb {A} (eqb : A → A → bool) (a b : option A) : bool :=
  match a, b with
  | Some a, Some b => eqb a b
  | None, None => true
  | _, _ => false
  end.

Definition list_eqb {A} (eqb : A → A → bool) : list A → list A → bool :=
  fix go a b :=
    match a, b with
    | [], [] => true
    | x :: a, y :: b => eqb x y && go a b
    | _, _ => false
    end.

Definition range_eqb (a b : Range) : bool :=
  option_eqb SFeqb (range_lt a) (range_lt b) && option_eqb SFeqb (range_gt a) (range_gt b)
  && option_eqb SFeqb (range_gte a) (range_gte b) && option_eqb SFeqb (range_lte a) (range_lte b).

Definition geo_point_eqb (a b : GeoPoint) : bool := SFeqb (lon a) (lon b) && SFeqb (lat a) (lat b).

Definition bounding_box_eqb (a b : GeoBoundingBox) : bool :=
  geo_point_eqb (top_left a) (top_left b) && geo_point_eqb (bottom_right a) (bottom_right b).

Definition geo_radius_eqb (a b : GeoRadius) : bool :=
  geo_point_eqb (center a) (center b) && SFeqb (radius a) (radius b).

Definition field_condition_eqb (a b : FieldCondition) : bool :=
  bool_decide (fc_key a = fc_key b) && bool_decide (fc_match a = fc_match b)
  && option_eqb range_eqb (fc_range a) (fc_range b)
  && option_eqb bounding_box_eqb (fc_geo_bounding_box a) (fc_geo_bounding_box b)
  && option_eqb geo_radius_eqb (fc_geo_radius a) (fc_geo_radius b)
  && bool_decide (fc_values_count a = fc_values_count b).

Fixpoint condition_eqb (a b : Condition) : bool :=
  match a, b with
  | CField a, CField b => field_condition_eqb a b
  | CIsEmpty a, CIsEmpty b => bool_decide (a = b)
  | CIsNull a, CIsNull b => bool_decide (a = b)
  | CHasId a, CHasId b => bool_decide (a = b)
  | CFilter a, CFilter b => filter_eqb a b
  | _, _ => false
  end
with filter_eqb (a b : Filter) : bool :=
  match a, b with
  | mkFilter should must must_not, mkFilter should' must' must_not' =>
      option_eqb (list_eqb condition_eqb) should should' && option_eqb (list_eqb condition_eqb) must must'
      && option_eqb (list_eqb condition_eqb) must_not must_not'
  end.
