(* ===== verification/SearchAggregator.v ===== *)
(** * Search results

    Models the parts of the search over segments that do not look at the
    segments: [search_result_aggregator.rs], which merges the results of the
    segments, and [probabilistic_segment_search_sampling.rs], the table that
    gives the number of results to ask of one segment
    ([lib/collection/src/collection_manager]). *)

From stdpp Require Import base gmap strings list.
From Stdlib Require Import ZArith SpecFloat Lia.
From S2P Require Import Prelude Types Estimator FloatBounds TopK Segment PlainIndex QueryOptimizer Histogram.

(** ** Aggregation *)

Section aggregator.
Context {Num : Type} {E : Type}.
Abbreviation Scored := (ScoredPoint Num).

(** [Ord for ScoredPoint] *)
Definition scored_point_leb (a b : Scored) : bool := ordered_float_leb (sp_score a) (sp_score b).

Record SearchResultAggregator := mkAggregator {
  agg_queue : FixedLengthPriorityQueue Scored;
  agg_seen : gset PointIdType;
}.

Definition aggregator_new (limit : nat) : result E SearchResultAggregator :=
  queue ← queue_new limit; Ok (mkAggregator queue ∅).

Definition aggregator_push (point : Scored) (self : SearchResultAggregator) : result E SearchResultAggregator :=
  let point_id := sp_id point in
  if decide (point_id ∈ agg_seen self) then Ok self
  else
    p ← queue_push scored_point_leb point (agg_queue self);
    Ok (mkAggregator p.2 ({[ point_id ]} ∪ agg_seen self)).

Definition aggregator_into_vec (self : SearchResultAggregator) : list Scored := queue_into_vec (agg_queue self).

Definition aggregator_lowest (self : SearchResultAggregator) : option Scored := queue_top (agg_queue self).

Record BatchResultAggregator := mkBatchAggregator {
  batch_aggregators : list SearchResultAggregator;
  point_versions : gmap PointIdType SeqNumberType;
}.

Definition batch_aggregator_new (tops : list nat) : result E BatchResultAggregator :=
  merged_results_per_batch ← res_map aggregator_new tops;
  Ok (mkBatchAggregator merged_results_per_batch ∅).

Definition update_point_version (versions : gmap PointIdType SeqNumberType) (point : Scored) :
    gmap PointIdType SeqNumberType :=
  let point_version := default (sp_version point) (versions !! sp_id point) in
  <[sp_id point := N.max point_version (sp_version point)]> versions.

Definition update_point_versions (search_results : list (list (list Scored))) (self : BatchResultAggregator) :
    BatchResultAggregator :=
  mkBatchAggregator (batch_aggregators self)
    (fold_left (λ versions segment_result,
       fold_left (λ versions segment_batch_result, fold_left update_point_version segment_batch_result versions)
         segment_result versions) search_results (point_versions self)).

Definition update_batch_results (batch_id : nat) (search_results : list Scored) (self : BatchResultAggregator) :
    result E BatchResultAggregator :=
  aggregator ← vec_get (batch_aggregators self) batch_id;
  aggregator ← res_fold (λ scored_point aggregator,
    let point_max_version := default 0%N (point_versions self !! sp_id scored_point) in
    if (point_max_version <=? sp_version scored_point)%N then aggregator_push scored_point aggregator
    else Ok aggregator) search_results aggregator;
  aggregators ← vec_set batch_id aggregator (batch_aggregators self);
  Ok (mkBatchAggregator aggregators (point_versions self)).

Definition batch_lowest_scores (batch_id : nat) (self : BatchResultAggregator) : result E (option spec_float) :=
  batch_scores ← vec_get (batch_aggregators self) batch_id;
  Ok (sp_score <$> aggregator_lowest batch_scores).

Definition into_topk (self : BatchResultAggregator) : list (list Scored) :=
  aggregator_into_vec <$> batch_aggregators self.
End aggregator.

Arguments SearchResultAggregator : clear implicits.
Arguments BatchResultAggregator : clear implicits.

(** ** Sampling *)

#[local] Abbreviation fl m e := (S754_finite false m e) (only parsing).

Definition POISSON_DISTRIBUTION_SEARCH_SAMPLING : list (spec_float * N) := [
  (fl 6968819539451445 (-55), 4); (fl 7177051198996806 (-54), 5); (fl 6004799503160662 (-53), 6);
  (fl 8918019064099992 (-53), 7); (fl 6085945442392562 (-52), 8); (fl 7901051977842975 (-52), 9);
  (fl 5003999585967218 (-51), 10); (fl 6085945442392562 (-51), 11); (fl 7036874417766400 (-51), 12);
  (fl 8339999309945362 (-51), 13); (fl 4691249611844266 (-50), 14); (fl 5361428127822019 (-50), 15);
  (fl 5925788983382231 (-50), 16); (fl 6622940628486023 (-50), 17); (fl 7036874417766400 (-50), 18);
  (fl 8042142191733028 (-50), 19); (fl 8660768514174031 (-50), 20); (fl 5117726849284655 (-49), 22);
  (fl 5629499534213120 (-49), 24); (fl 6495576385630523 (-49), 26); (fl 7036874417766400 (-49), 28);
  (fl 8042142191733028 (-49), 30); (fl 8660768514174031 (-49), 32); (fl 4691249611844267 (-48), 34);
  (fl 5117726849284655 (-48), 36); (fl 5629499534213120 (-48), 38); (fl 6031606643799771 (-48), 40);
  (fl 6495576385630523 (-48), 43); (fl 7036874417766400 (-48), 46); (fl 7818749353073777 (-48), 49);
  (fl 8444249301319680 (-48), 52); (fl 4691249611844266 (-47), 55); (fl 4691249611844267 (-47), 58);
  (fl 5277655813324800 (-47), 61); (fl 5528972756816457 (-47), 65); (fl 6031606643799771 (-47), 69);
  (fl 6450468216285866 (-47), 73); (fl 7036874417766400 (-47), 77); (fl 7036874417766400 (-47), 81);
  (fl 7916483719987200 (-47), 86); (fl 8444249301319680 (-47), 91); (fl 4691249611844266 (-46), 96);
  (fl 4925812092436480 (-46), 101); (fl 5277655813324800 (-46), 107); (fl 5528972756816457 (-46), 113);
  (fl 5864062014805333 (-46), 119); (fl 6333186975989760 (-46), 125); (fl 6645936950112711 (-46), 132);
  (fl 7036874417766400 (-46), 139); (fl 7476679068876800 (-46), 146); (fl 7848821465970216 (-46), 154);
  (fl 8278675785607529 (-46), 162); (fl 8796093022208000 (-46), 171); (fl 4837851162214400 (-45), 180);
  (fl 5057753487769600 (-45), 190); (fl 5277655813324800 (-45), 200); (fl 5717460464435200 (-45), 211);
  (fl 6010663565175466 (-45), 222); (fl 6450468216285866 (-45), 234); (fl 6743671317026133 (-45), 246);
  (fl 7036874417766400 (-45), 259); (fl 7564639999098880 (-45), 272); (fl 8092405580431360 (-45), 286);
  (fl 8544776078716342 (-45), 301); (fl 4523704982849828 (-44), 317); (fl 4775021926341485 (-44), 333);
  (fl 5013773022658560 (-44), 350); (fl 5277655813324800 (-44), 368); (fl 5597513741405091 (-44), 387);
  (fl 5981343255101440 (-44), 407); (fl 6333186975989760 (-44), 429); (fl 6685030696878080 (-44), 451);
  (fl 7036874417766400 (-44), 474); (fl 7413849833003885 (-44), 498); (fl 7806532557209600 (-44), 523);
  (fl 8236341648067491 (-44), 551); (fl 8698358655294577 (-44), 579); (fl 4567202146146462 (-43), 608);
  (fl 4837851162214400 (-43), 639); (fl 5072413642806613 (-43), 671); (fl 5403314285070628 (-43), 706);
  (fl 5717460464435200 (-43), 742); (fl 5968777407926857 (-43), 780); (fl 6303866665915733 (-43), 820);
  (fl 6677034248676073 (-43), 864); (fl 7036874417766400 (-43), 908); (fl 7427811885420088 (-43), 954);
  (fl 7853654484114285 (-43), 1003); (fl 8282987595912533 (-43), 1054); (fl 8722792247022933 (-43), 1107);
  (fl 4590461045964800 (-42), 1164); (fl 4837851162214400 (-42), 1224); (fl 5167704650547200 (-42), 1289);
  (fl 5424257363694933 (-42), 1355); (fl 5680810076842666 (-42), 1423); (fl 6000192025863314 (-42), 1500);
  (fl 6333186975989760 (-42), 1576); (fl 6670370541841066 (-42), 1658); (fl 7036874417766400 (-42), 1741);
  (fl 7421703487488000 (-42), 1832); (fl 7828522789765120 (-42), 1931); (fl 8246337208320000 (-42), 2028);
  (fl 8686141859430400 (-42), 2132); (fl 4581298449066666 (-41), 2240); (fl 4837851162214400 (-41), 2356);
  (fl 5094403875362133 (-41), 2482); (fl 5360119185408000 (-41), 2611); (fl 5662484883046400 (-41), 2744);
  (fl 5974013177582933 (-41), 2896); (fl 6303866665915733 (-41), 3051); (fl 6633720154248533 (-41), 3205);
  (fl 7000224030173866 (-41), 3377); (fl 7421703487488000 (-41), 3568); (fl 7806532557209600 (-41), 3748);
  (fl 8246337208320000 (-41), 3953); (fl 8686141859430400 (-41), 4158); (fl 4590461045964800 (-40), 4389);
  (fl 4837851162214400 (-40), 4620); (fl 5112729069158400 (-40), 4876); (fl 5387606976102400 (-40), 5132);
  (f64_max, u64_max)
]%N.

(** [slice::binary_search_by]: the index of an element that compares equal,
    or the index where it would be inserted.  The interval halves, so that
    the length of the slice is fuel enough. *)
Fixpoint binary_search_loop {A E} (f : A → result E comparison) (l : list A) (fuel left right : nat) :
    result E (nat + nat) :=
  match fuel with
  | O => Ok (inr left)
  | S fuel =>
      if left <? right then
        let mid := left + (right - left) / 2 in
        x ← vec_get l mid;
        cmp ← f x;
        match cmp with
        | Lt => binary_search_loop f l fuel (mid + 1) right
        | Gt => binary_search_loop f l fuel left mid
        | Eq => Ok (inl mid)
        end
      else Ok (inr left)
  end.

Definition binary_search_by {A E} (f : A → result E comparison) (l : list A) : result E (nat + nat) :=
  binary_search_loop f l (length l) 0 (length l).

Definition find_search_sampling_over_point_distribution {E} (n p : spec_float) : result E (option N) :=
  let target_lambda := f64_mul p n in
  k ← binary_search_by (λ x, unwrap (SFcompare x.1 target_lambda)) POISSON_DISTRIBUTION_SEARCH_SAMPLING;
  x ← vec_get POISSON_DISTRIBUTION_SEARCH_SAMPLING (match k with inl k => k | inr insert => insert end);
  Ok (Some x.2).

Definition sampling_limit {E} (limit : N) (ef_limit : option N) (segment_points total_points : N) : result E N :=
  if (segment_points =? 0)%N then Ok 0%N
  else
    let segment_probability := f64_div (f64_of_N segment_points) (f64_of_N total_points) in
    sampling ← find_search_sampling_over_point_distribution (f64_of_N limit) segment_probability;
    let poisson_sampling := default limit sampling in
    if (limit <? poisson_sampling)%N then Ok limit
    else Ok (N.max poisson_sampling (default 0%N ef_limit)).

(** ** Lemmas *)

(** A search that ends outside of the slice has passed its last element. *)
Lemma binary_search_loop_inside {A E} (f : A → result E comparison) (g : A → comparison) (l : list A) fuel left right :
  (∀ x, x ∈ l → f x = Ok (g x)) → right ≤ length l → right - left ≤ fuel → left ≤ right →
  (∀ x, l !! (left - 1) = Some x → 0 < left → g x = Lt) → (∀ x, last l = Some x → g x ≠ Lt) →
  ∃ k, binary_search_loop f l fuel left right = Ok k ∧
    (0 < length l → is_Some (l !! match k with inl k => k | inr k => k end)).
Proof.
  intros Hf. revert left right. induction fuel as [|fuel IH]; intros left right Hr Hfuel Hlr Hleft Hlast; cbn [binary_search_loop].
  all: assert (0 < length l → left = right → is_Some (l !! left)) as Hin.
  1, 3: intros Hpos <-; apply lookup_lt_is_Some; destruct (decide (left = length l)) as [->|]; [|lia];
    rewrite last_lookup in Hlast; destruct (lookup_lt_is_Some_2 l (pred (length l))) as [x Hx]; [lia|];
    destruct (Hlast x Hx); apply Hleft; [by rewrite <-Nat.sub_1_r in Hx|lia].
  { exists (inr left). split; [done|]. intros. apply Hin; lia. }
  destruct (Nat.ltb_spec left right) as [Hlt|Hge]; [|exists (inr left); split; [done|]; intros; apply Hin; lia].
  set (mid := left + (right - left) / 2).
  assert (left ≤ mid < right) as Hmid by (unfold mid; pose proof (Nat.div_lt (right - left) 2); lia). clearbody mid.
  destruct (lookup_lt_is_Some_2 l mid) as [x Hx]; [lia|]. unfold vec_get, unwrap. rewrite Hx. cbn.
  rewrite (Hf x) by by eapply list_elem_of_lookup_2. cbn. destruct (g x) eqn:Eg.
  - exists (inl mid). split; [done|]. by rewrite Hx.
  - apply IH; [lia..| |done]. intros y Hy _. replace (mid + 1 - 1) with mid in Hy by lia. congruence.
  - apply IH; [lia..|done|done].
Qed.

Lemma table_no_nan : Forall (λ x : spec_float * N, match x.1 with S754_nan => False | _ => True end ∧ (4 ≤ x.2)%N)
  POISSON_DISTRIBUTION_SEARCH_SAMPLING.
Proof. repeat (constructor; [by split|]). constructor. Qed.

(** A number of points in expectation is found in the table. *)
Lemma find_search_sampling_ok {E} lo n p :
  magnitude lo 900 (f64_mul p n) →
  ∃ k, find_search_sampling_over_point_distribution (E:=E) n p = Ok (Some k) ∧ (4 ≤ k)%N.
Proof.
  intros Hmag. unfold find_search_sampling_over_point_distribution. set (t := f64_mul p n) in *.
  assert (∀ y, y ≠ S754_nan → t ≠ S754_nan) as Hnan by by destruct t.
  set (g := λ x : spec_float * N, default Eq (SFcompare x.1 t)).
  destruct (binary_search_loop_inside (E:=E) (λ x, unwrap (SFcompare x.1 t)) g
    POISSON_DISTRIBUTION_SEARCH_SAMPLING (length POISSON_DISTRIBUTION_SEARCH_SAMPLING) 0
    (length POISSON_DISTRIBUTION_SEARCH_SAMPLING)) as (k & Hk & Hin).
  - intros x Hx. pose proof table_no_nan as Hno. rewrite Forall_forall in Hno. destruct (Hno x Hx) as [Hx' _].
    unfold g. by destruct (x.1), t.
  - done.
  - lia.
  - lia.
  - lia.
  - intros x [= <-]. unfold g. destruct t as [| | |s m e]; try done. destruct Hmag as [(_ & d & Hd & _ & Hde) _].
    unfold f64_max. cbn [fst SFcompare]. destruct s; [done|]. rewrite (proj2 (Z.compare_gt_iff _ _)) by lia. done.
  - unfold binary_search_by. rewrite Hk. cbn [mbind result_bind]. destruct Hin as [x Hx]; [vm_compute; lia|].
    unfold vec_get, unwrap. rewrite Hx. cbn. exists x.2. split; [done|].
    pose proof table_no_nan as Hno. rewrite Forall_forall in Hno. by destruct (Hno x (list_elem_of_lookup_2 _ _ _ Hx)).
Qed.

Lemma sampling_limit_ok {E} limit ef s t :
  (s ≤ u64_max)%N → (0 < t ≤ u64_max)%N → (limit ≤ u64_max)%N →
  ∃ n, sampling_limit (E:=E) limit ef s t = Ok n ∧ (s ≠ 0 → 0 < limit → 0 < n)%N.
Proof.
  intros Hs Ht Hl. unfold sampling_limit. destruct (N.eqb_spec s 0) as [->|Hne]; [by exists 0%N|].
  destruct (f64_div_magnitude (-52) (-52) 65 65 (f64_of_N s) (f64_of_N t)) as [lo Hdiv].
  - lia.
  - by apply f64_of_N_magnitude.
  - apply f64_of_N_magnitude. lia.
  - intros s'. apply f64_of_N_nonzero. lia.
  - destruct (find_search_sampling_ok (E:=E) (lo + -52) (f64_of_N limit) (f64_div (f64_of_N s) (f64_of_N t)))
      as (k & -> & Hk).
    { eapply (magnitude_mono 184); [lia|]. apply (f64_mul_magnitude lo (-52) 118 65); [lia|done|by apply f64_of_N_magnitude]. }
    cbn. destruct (N.ltb_spec limit k); eexists; (split; [done|lia]).
Qed.
