(* ===== verification/SegmentsSearcher.v ===== *)
(** * Search over the segments of a shard

    Models [SegmentsSearcher] of
    [lib/collection/src/collection_manager/segments_searcher.rs].

    The search of each segment is a task of its own; the tasks only read, so
    they are evaluated one after another here.  A task that panics makes
    awaiting it fail with the error [JoinError], whatever the other tasks do.
    The debug assertions are left out, as in a release build.  Iteration over
    a [HashMap] is in the order of [map_to_list]. *)

From stdpp Require Import base gmap strings list.
From Stdlib Require Import ZArith SpecFloat.
From S2P Require Import Prelude Types Rocks NamedVectors Filters TopK Segment PlainIndex SegmentEntry SegmentHolder.
From S2P Require Import Requests SearchAggregator.

(** ** One segment *)

Record BatchSearchParams := mkBatchParams {
  bsp_vector_name : string;
  bsp_filter : option Filter;
  bsp_with_payload : WithPayload;
  bsp_with_vector : WithVector;
  bsp_top : nat;
  bsp_params : option SearchParams;
}.

Definition default_batch_params : BatchSearchParams :=
  mkBatchParams "" None {| enable := false; payload_selector := None |} (WVBool false) 0 None.

Definition batch_params_eqb (a b : BatchSearchParams) : bool :=
  bool_decide (bsp_vector_name a = bsp_vector_name b) && option_eqb filter_eqb (bsp_filter a) (bsp_filter b)
  && bool_decide (bsp_with_payload a = bsp_with_payload b) && bool_decide (bsp_with_vector a = bsp_with_vector b)
  && bool_decide (bsp_top a = bsp_top b) && bool_decide (bsp_params a = bsp_params b).

(** The parameters of one request of the batch. *)
Definition request_params (search_query : SearchRequest) : BatchSearchParams :=
  let with_payload_interface := default (WPBool false) (sr_with_payload search_query) in
  mkBatchParams (get_name (sr_vector search_query)) (sr_filter search_query)
    (with_payload_from with_payload_interface) (default (WVBool false) (sr_with_vector search_query))
    (sr_top search_query) (sr_params search_query).

Definition get_hnsw_ef_construct (config : SegmentConfig) (vector_name : string) : option N :=
  match sc_index config with
  | IndexPlain => None
  | IndexHnsw hnsw_config =>
      Some (default (ef_construct hnsw_config)
              (ef_construct <$> (sc_vector_data config !! vector_name ≫= vdc_hnsw_config)))
  end.

Section searcher.
Context {Num E : Type} `{!SegmentEntry Num SearchParams E}.
Context (display_id : PointIdType → string) (join_error : string).
Abbreviation Holder := (SegmentHolder E).
Abbreviation Scored := (ScoredPoint Num).

(** The conversion of the operator [?]. *)
Definition op_result {A} (r : OperationResult A) : CollectionResult A :=
  match r with Ok a => Ok a | Err e => Err (collection_error display_id e) | Panic => Panic end.

Record BatchState := mkBatchState {
  bs_result : list (list Scored);
  bs_further_results : list bool;
  bs_vectors_batch : list VectorType;
  bs_prev_params : BatchSearchParams;
}.

Definition batch_top (segment : E) (total_points : nat) (use_sampling : bool) (prev_params : BatchSearchParams) :
    CollectionResult nat :=
  if use_sampling then
    let ef_limit := match bsp_params prev_params ≫= hnsw_ef with
                    | Some ef => Some ef
                    | None => get_hnsw_ef_construct (se_config segment) (bsp_vector_name prev_params)
                    end in
    top ← sampling_limit (N.of_nat (bsp_top prev_params)) ef_limit (N.of_nat (se_points_count segment))
      (N.of_nat total_points);
    Ok (N.to_nat top)
  else Ok (bsp_top prev_params).

(** Runs what has been batched so far, if anything. *)
Definition flush_batch (segment : E) (total_points : nat) (use_sampling : bool) (st : BatchState) :
    CollectionResult BatchState :=
  match bs_vectors_batch st with
  | [] => Ok st
  | _ =>
      let prev_params := bs_prev_params st in
      top ← batch_top segment total_points use_sampling prev_params;
      res ← op_result (se_search_batch segment (bsp_vector_name prev_params) (bs_vectors_batch st)
        (bsp_with_payload prev_params) (bsp_with_vector prev_params) (bsp_filter prev_params) top
        (bsp_params prev_params));
      Ok (mkBatchState (bs_result st ++ res)
            (bs_further_results st ++ ((λ batch_result, bool_decide (length batch_result = top)) <$> res))
            [] prev_params)
  end.

Definition search_query_step (segment : E) (total_points : nat) (use_sampling : bool)
    (search_query : SearchRequest) (st : BatchState) : CollectionResult BatchState :=
  let params := request_params search_query in
  let vector := get_query_vector (sr_vector search_query) in
  if batch_params_eqb params (bs_prev_params st)
  then Ok (mkBatchState (bs_result st) (bs_further_results st) (bs_vectors_batch st ++ [vector]) (bs_prev_params st))
  else
    st ← flush_batch segment total_points use_sampling st;
    Ok (mkBatchState (bs_result st) (bs_further_results st) (bs_vectors_batch st ++ [vector]) params).

Definition search_in_segment (segment : E) (searches : list SearchRequest) (total_points : nat)
    (use_sampling : bool) : CollectionResult (list (list Scored) * list bool) :=
  st ← res_fold (search_query_step segment total_points use_sampling) searches
         (mkBatchState [] [] [] default_batch_params);
  st ← flush_batch segment total_points use_sampling st;
  Ok (bs_result st, bs_further_results st).

(** ** All segments *)

(** Awaits the spawned tasks. *)
Definition execute_searches (searches : list (CollectionResult (list (list Scored) * list bool))) :
    CollectionResult (list (list (list Scored)) * list (list bool)) :=
  if existsb (λ r, match r with Panic => true | _ => false end) searches
  then Err (CServiceError join_error)
  else
    results ← res_map id searches;
    Ok (results.*1, results.*2).

Definition f32_max : spec_float := S754_finite false 16777215 104.
Definition f32_min : spec_float := S754_finite true 16777215 104.

(** [v[i][j] = x] *)
Definition vec_set2 {A Er} (i j : nat) (x : A) (l : list (list A)) : result Er (list (list A)) :=
  row ← vec_get l i; row ← vec_set j x row; vec_set i row l.

Definition vec_get2 {A Er} (l : list (list A)) (i j : nat) : result Er A := row ← vec_get l i; vec_get row j.

Record StepState := mkStepState {
  ss_aggregator : BatchResultAggregator Num;
  ss_lowest_scores : list (list spec_float);
  ss_retrieved_points : list (list nat);
}.

Definition merge_query (segment_idx : nat) (q : nat * list Scored) (st : StepState) : CollectionResult StepState :=
  let '(batch_req_idx, query_res) := q in
  retrieved ← vec_set2 segment_idx batch_req_idx (length query_res) (ss_retrieved_points st);
  lowest ← vec_set2 segment_idx batch_req_idx (default f32_min (sp_score <$> last query_res)) (ss_lowest_scores st);
  aggregator ← update_batch_results batch_req_idx query_res (ss_aggregator st);
  Ok (mkStepState aggregator lowest retrieved).

(** [enumerate] *)
Definition enumerate {A} (l : list A) : list (nat * A) := zip (seq 0 (length l)) l.

Definition merge_results (search_result : list (list (list Scored))) (st : StepState) : CollectionResult StepState :=
  res_fold (λ s st, res_fold (merge_query s.1) (enumerate s.2) st) (enumerate search_result) st.

(** The test on one segment and one request. *)
Definition needs_rerun (st : StepState) (further_results : list (list bool)) (batch_id required_limit segment_id : nat)
    (lowest_batch_score : spec_float) : CollectionResult bool :=
  segment_lowest_score ← vec_get2 (ss_lowest_scores st) segment_id batch_id;
  retrieved_points ← vec_get2 (ss_retrieved_points st) segment_id batch_id;
  have_further_results ← vec_get2 further_results segment_id batch_id;
  Ok (have_further_results && (retrieved_points <? required_limit) && SFleb lowest_batch_score segment_lowest_score).

Definition rerun_batch (st : StepState) (further_results : list (list bool)) (number_segments : nat)
    (b : nat * nat) (searches_to_rerun : gmap nat (list nat)) : CollectionResult (gmap nat (list nat)) :=
  let '(batch_id, required_limit) := b in
  lowest ← batch_lowest_scores batch_id (ss_aggregator st);
  match lowest with
  | None => Ok searches_to_rerun
  | Some lowest_batch_score =>
      res_fold (λ segment_id searches_to_rerun,
        rerun ← needs_rerun st further_results batch_id required_limit segment_id lowest_batch_score;
        Ok (if rerun : bool
            then <[segment_id := default [] (searches_to_rerun !! segment_id) ++ [batch_id]]> searches_to_rerun
            else searches_to_rerun)) (seq 0 number_segments) searches_to_rerun
  end.

Definition process_search_result_step1 (search_result : list (list (list Scored))) (limits : list nat)
    (further_results : list (list bool)) : CollectionResult (BatchResultAggregator Num * gmap nat (list nat)) :=
  let number_segments := length search_result in
  let batch_size := length limits in
  result_aggregator ← batch_aggregator_new limits;
  let result_aggregator := update_point_versions search_result result_aggregator in
  st ← merge_results search_result (mkStepState result_aggregator
         (replicate number_segments (replicate batch_size f32_max)) (replicate number_segments (replicate batch_size 0)));
  searches_to_rerun ← res_fold (rerun_batch st further_results number_segments) (enumerate limits) ∅;
  Ok (ss_aggregator st, searches_to_rerun).

(** The searches of the second step, without sampling. *)
Definition secondary_searches (locked_segments : list E) (searches : list SearchRequest)
    (searches_to_rerun : list (nat * list nat)) :
    CollectionResult (list (CollectionResult (list (list Scored) * list bool))) :=
  res_map (λ r,
    segment ← vec_get locked_segments r.1;
    partial_batch_request ← res_map (vec_get searches) r.2;
    Ok (search_in_segment segment partial_batch_request 0 false)) searches_to_rerun.

Definition merge_secondary (searches_to_rerun : list (nat * list nat)) (results : list (list (list Scored)))
    (result_aggregator : BatchResultAggregator Num) : CollectionResult (BatchResultAggregator Num) :=
  res_fold (λ p result_aggregator,
    res_fold (λ q result_aggregator, update_batch_results q.1 q.2 result_aggregator) (zip p.1.2 p.2) result_aggregator)
    (zip searches_to_rerun results) result_aggregator.

Definition rerun_searches (locked_segments : list E) (searches : list SearchRequest)
    (searches_to_rerun : gmap nat (list nat)) (result_aggregator : BatchResultAggregator Num) :
    CollectionResult (BatchResultAggregator Num) :=
  if decide (searches_to_rerun = ∅) then Ok result_aggregator
  else
    let searches_to_rerun := map_to_list searches_to_rerun in
    tasks ← secondary_searches locked_segments searches searches_to_rerun;
    r ← execute_searches tasks;
    let secondary_search_results_per_segment := r.1 in
    merge_secondary searches_to_rerun secondary_search_results_per_segment
      (update_point_versions secondary_search_results_per_segment result_aggregator).

Definition searcher_search (holder : Holder) (searches : list SearchRequest) (sampling_enabled : bool) :
    CollectionResult (list (list Scored)) :=
  let locked_segments := (map_to_list (segments holder)).*2 in
  if decide (locked_segments = []) then Ok []
  else
    let total_points_segments := sum_list_with se_points_count locked_segments in
    let use_sampling := sampling_enabled && (1 <? length locked_segments) && (0 <? total_points_segments) in
    r ← execute_searches
      ((λ segment, search_in_segment segment searches total_points_segments use_sampling) <$> locked_segments);
    let '(all_search_results_per_segment, further_results) := r in
    r ← process_search_result_step1 all_search_results_per_segment (sr_top <$> searches) further_results;
    let '(result_aggregator, searches_to_rerun) := r in
    result_aggregator ← rerun_searches locked_segments searches searches_to_rerun result_aggregator;
    Ok (into_topk result_aggregator).

(** ** Retrieval *)

Abbreviation Records := (gmap PointIdType SeqNumberType * gmap PointIdType (PointRecord Num))%type.

Definition record_of (id : PointIdType) (segment : E) (with_payload : WithPayload) (with_vector : WithVector) :
    OperationResult (PointRecord Num) :=
  payload ← (if enable with_payload then
               payload ← se_payload segment id;
               Ok (Some (match payload_selector with_payload with
                         | Some selector => selector_process selector payload
                         | None => payload
                         end))
             else Ok None);
  vector ← match with_vector with
           | WVBool true => vs ← se_all_vectors segment id; v ← vector_struct_from vs; Ok (Some v)
           | WVBool false => Ok None
           | WVSelector vector_names =>
               selected_vectors ← res_fold (λ vector_name selected_vectors,
                 v ← se_vector segment vector_name id; Ok (nv_insert vector_name v selected_vectors)) vector_names [];
               v ← vector_struct_from selected_vectors; Ok (Some v)
           end;
  Ok (mkRecord id payload vector).

(** The closure of [retrieve]; it captures the versions and the records. *)
Definition retrieve_point (with_payload : WithPayload) (with_vector : WithVector) (id : PointIdType) (segment : E) :
    sm Records OperationError bool := λ st,
  let '(point_version, point_records) := st in
  match se_point_version segment id with
  | None => (Err (service_error ("No version for point " +:+ display_id id)), st)
  | Some version =>
      if map_or true (λ v, v <? version)%N (point_version !! id)
      then
        match record_of id segment with_payload with_vector with
        | Ok record => (Ok true, (<[id := version]> point_version, <[id := record]> point_records))
        | Err e => (Err e, st)
        | Panic => (Panic, st)
        end
      else (Ok true, st)
  end.

Definition searcher_retrieve (holder : Holder) (points : list PointIdType) (with_payload : WithPayload)
    (with_vector : WithVector) : CollectionResult (list (PointRecord Num)) :=
  match read_points points (retrieve_point with_payload with_vector) (holder, (∅, ∅)) with
  | (r, (_, (_, point_records))) => _ ← op_result r; Ok (map_to_list point_records).*2
  end.
End searcher.
