(* ===== verification/SearcherSpec.v ===== *)
(** * Correctness of the search over segments

    The results of the segments, sampled and searched again where the sample
    may have been too small, are the best results of all the points. *)

From stdpp Require Import base gmap strings list sorting.
From Stdlib Require Import ZArith SpecFloat Lia.
From S2P Require Import Prelude Types Rocks NamedVectors Filters TopK Segment PlainIndex SegmentEntry SegmentHolder.
From S2P Require Import Requests SearchAggregator SegmentsSearcher.

(** ** Selections *)

Section selection.
Context {T : Type} (leb : T → T → bool).
Context (leb_total : ∀ x y, leb x y = true ∨ leb y x = true).
Context (leb_trans : ∀ x y z, leb x y = true → leb y z = true → leb x z = true).

Lemma leb_refl x : leb x x = true.
Proof using leb_total. by destruct (leb_total x x). Qed.

Lemma selects_sub n l kept x : selects leb n l kept → x ∈ kept → x ∈ l.
Proof using. intros (_ & d & -> & _) Hx. apply elem_of_app. by left. Qed.

Lemma selects_left_out n l kept x :
  selects leb n l kept → x ∈ l → x ∉ kept → length kept = n ∧ ∀ y, y ∈ kept → leb x y = true.
Proof using.
  intros (Hlen & d & Hp & Hle) Hx Hk. rewrite Hp, elem_of_app in Hx. destruct Hx as [|Hx]; [done|].
  split; [|intros y Hy; by apply Hle]. pose proof (Permutation_length Hp) as Hl. rewrite length_app in Hl.
  destruct d as [|z d]; [by apply not_elem_of_nil in Hx|]. cbn in Hl. lia.
Qed.

(** More elements above [p] than are kept, so that those kept are above it. *)
Lemma selects_dominated n l kept A p :
  NoDup l → selects leb n l kept → NoDup A → (∀ x, x ∈ A → x ∈ l) → n ≤ length A →
  (∀ x, x ∈ A → leb p x = true) → length kept = n ∧ ∀ x, x ∈ kept → leb p x = true.
Proof using leb_trans.
  intros Hnd (Hlen & d & Hp & Hle) HA Hsub Hn Hdom.
  assert (length A ≤ length l) as HAl by by apply submseteq_length, NoDup_submseteq.
  assert (length kept = n) as Hk by lia. split; [done|]. intros x Hx. destruct (leb p x) eqn:Hpx; [done|].
  assert (length (x :: A) ≤ length kept); [|cbn in *; lia]. apply submseteq_length, NoDup_submseteq.
  - constructor; [|done]. intros Hin. apply Hdom in Hin. congruence.
  - intros y [->|Hy]%elem_of_cons; [done|]. pose proof (Hsub y Hy) as Hyl. rewrite Hp, elem_of_app in Hyl.
    destruct Hyl as [|Hyd]; [done|]. pose proof (leb_trans p y x (Hdom y Hy) (Hle x y Hx Hyd)). congruence.
Qed.

(** A selection of some of the elements is one of all of them, if the others
    are below everything that was kept. *)
Lemma selects_extend n l rest kept :
  selects leb n l kept →
  (∀ p, p ∈ rest → length kept = n ∧ ∀ x, x ∈ kept → leb p x = true) → selects leb n (l ++ rest) kept.
Proof using.
  intros (Hlen & d & Hp & Hle) Hrest. pose proof (Permutation_length Hp) as Hl. rewrite length_app in Hl. split.
  - rewrite length_app. destruct rest as [|p rest]; [rewrite Nat.add_0_r; done|].
    destruct (Hrest p) as [Hk _]; [left|]. cbn. lia.
  - exists (d ++ rest). split; [by rewrite Hp, (assoc_L (++))|].
    intros x y Hx [Hy|Hy]%elem_of_app; [by apply Hle|]. by apply (Hrest y Hy).
Qed.

(** The elements that were not seen are below enough of those that were. *)
Lemma selects_universe n U l kept :
  NoDup U → NoDup l → (∀ x, x ∈ l → x ∈ U) → selects leb n l kept →
  (∀ p, p ∈ U → p ∉ l → ∃ A, NoDup A ∧ (∀ x, x ∈ A → x ∈ l ∧ leb p x = true) ∧ n ≤ length A) →
  selects leb n U kept.
Proof using leb_trans.
  intros HU Hl Hsub Hsel Hcov. destruct (submseteq_Permutation l U) as [rest Hp]; [by apply NoDup_submseteq|].
  apply (selects_perm leb n (l ++ rest) U kept kept); [by rewrite Hp|done|]. rewrite Hp in HU.
  apply NoDup_app in HU as (_ & Hdisj & _). apply selects_extend; [done|]. intros p Hpr.
  destruct (Hcov p) as (A & HA & Hin & Hn); [by rewrite Hp, elem_of_app; right|by intros ?%Hdisj|].
  apply (selects_dominated n l kept A); [done..| |done|]; intros x Hx; by apply Hin.
Qed.
End selection.

(** ** Aggregation *)

Section aggregation.
Context {Num : Type}.
Abbreviation Scored := (ScoredPoint Num).
Abbreviation leb := (scored_point_leb (Num:=Num)).

Lemma scored_point_leb_total (x y : Scored) : leb x y = true ∨ leb y x = true.
Proof. unfold scored_point_leb. rewrite !ordered_leb_rank. apply rank_le_total. Qed.

Lemma scored_point_leb_trans (x y z : Scored) : leb x y = true → leb y z = true → leb x z = true.
Proof. unfold scored_point_leb. rewrite !ordered_leb_rank. apply rank_le_trans. Qed.

(** No two points share an id. *)
Definition ids_inj (X : list Scored) : Prop := ∀ p q, p ∈ X → q ∈ X → sp_id p = sp_id q → p = q.

(** The aggregator has got the points of [X], some more than once. *)
Definition agg_ok (limit : nat) (X : list Scored) (a : SearchResultAggregator Num) : Prop :=
  ∃ l, NoDup (sp_id <$> l) ∧ (∀ p, p ∈ l ↔ p ∈ X) ∧ (∀ e, e ∈ agg_seen a ↔ e ∈ sp_id <$> l) ∧
    queue_length (agg_queue a) = limit ∧ StronglySorted (leb_rel leb) (heap (agg_queue a)) ∧
    selects leb limit l (heap (agg_queue a)).

Lemma aggregator_new_ok {E} limit :
  0 < limit → ∃ a, aggregator_new (E:=E) limit = Ok a ∧ agg_ok limit [] a.
Proof.
  intros Hl. unfold aggregator_new, queue_new. rewrite decide_True by done. cbn. eexists. split; [done|].
  exists []. split_and!; [constructor|done|set_solver|done|constructor|]. split; [by rewrite Nat.min_0_r|].
  exists []. split; [done|]. by intros ?? ?%not_elem_of_nil.
Qed.

Lemma aggregator_push_ok {E} limit X p a :
  0 < limit → ids_inj (p :: X) → agg_ok limit X a →
  ∃ a', aggregator_push (E:=E) p a = Ok a' ∧ agg_ok limit (p :: X) a'.
Proof.
  intros Hl Hinj (l & Hnd & HX & Hseen & Hlen & Hs & Hsel). unfold aggregator_push.
  destruct (decide (sp_id p ∈ agg_seen a)) as [Hp|Hp].
  - exists a. split; [done|]. exists l. split_and!; try done. intros q. rewrite HX, elem_of_cons. split; [by right|].
    intros [->|Hq]; [|done]. apply Hseen, list_elem_of_fmap in Hp as (q & Hid & Hq%HX).
    rewrite (Hinj p q); [done|left|by right|done].
  - rewrite <-Hlen in Hl, Hsel.
    destruct (queue_push_selects leb scored_point_leb_total scored_point_leb_trans (E:=E) p l (agg_queue a) Hl Hs Hsel)
      as (o & q & -> & Hq & Hs' & Hsel'). cbn. eexists. split; [done|].
    exists (p :: l). rewrite Hlen in *. split_and!; try done.
    + cbn. constructor; [|done]. by rewrite <-Hseen.
    + intros x. rewrite !elem_of_cons, HX. done.
    + intros e. cbn. rewrite elem_of_union, elem_of_singleton, elem_of_cons, Hseen. done.
Qed.

Lemma agg_ok_set limit X Y a : (∀ p, p ∈ X ↔ p ∈ Y) → agg_ok limit X a → agg_ok limit Y a.
Proof. intros HXY (l & ? & HX & ?). exists l. split; [done|]. split; [|done]. intros p. by rewrite HX. Qed.

Lemma aggregator_fold_ok {E} limit X (f : Scored → bool) ps a :
  0 < limit → ids_inj (ps ++ X) → (∀ p, p ∈ ps → f p = true) → agg_ok limit X a →
  ∃ a', res_fold (λ p a, if f p then aggregator_push p a else Ok a) ps a = Ok (E:=E) a' ∧ agg_ok limit (ps ++ X) a'.
Proof.
  intros Hl. revert X a. induction ps as [|p ps IH]; intros X a Hinj Hf Ha; cbn; [eauto|].
  rewrite (Hf p) by left. destruct (aggregator_push_ok (E:=E) limit X p a) as (a' & -> & Ha'); [done| |done|].
  { intros x y Hx Hy. apply Hinj; set_solver. }
  cbn. destruct (IH (p :: X) a') as (a'' & -> & Ha''); [|by intros q Hq; apply Hf; right|done|].
  { intros x y Hx Hy. apply Hinj; set_solver. }
  exists a''. split; [done|]. eapply agg_ok_set; [|done]. intros q. set_solver.
Qed.

(** The test for another search of a segment. *)
Definition rerun_test (lowest : option spec_float) (limit : nat) (r : list Scored) (further : bool) : bool :=
  match lowest with
  | None => false
  | Some low => further && (length r <? limit) && SFleb low (default f32_min (sp_score <$> last r))
  end.

Definition not_nan (p : Scored) : Prop := sp_score p ≠ S754_nan.

Lemma ordered_float_not_nan x y : x ≠ S754_nan → y ≠ S754_nan → ordered_float_leb x y = SFleb x y.
Proof. by destruct x, y. Qed.

Lemma sorted_head (y x : Scored) l : StronglySorted (leb_rel leb) (y :: l) → x ∈ y :: l → leb y x = true.
Proof.
  intros [_ Hf]%StronglySorted_inv [->|Hx]%elem_of_cons; [apply leb_refl, scored_point_leb_total|].
  rewrite Forall_forall in Hf. by apply Hf.
Qed.

(** Without another search, the points of a segment that were not seen are
    below as many as are asked for. *)
Lemma rerun_covers limit X a h r top p :
  0 < limit → agg_ok limit X a → (∀ x, x ∈ r → x ∈ X) → (∀ x, x ∈ X → not_nan x) →
  selects leb top h r → NoDup r → (top = 0 → h = []) → p ∈ h → p ∉ r →
  rerun_test (sp_score <$> aggregator_lowest a) limit r (bool_decide (length r = top)) = false →
  ∃ A, NoDup A ∧ (∀ x, x ∈ A → x ∈ X ∧ leb p x = true) ∧ limit ≤ length A.
Proof.
  intros Hlim (l & Hnd & HX & _ & _ & Hs & Hsel) Hsub Hnan Hr Hndr Htop Hp Hpr. unfold rerun_test.
  destruct (selects_left_out leb top h r p Hr Hp Hpr) as [Hlen Hbelow].
  destruct (last r) as [z|] eqn:Hz; [|apply last_None in Hz; subst r; cbn in Hlen; subst top; rewrite Htop in Hp by done;
    by apply not_elem_of_nil in Hp].
  assert (z ∈ r) as Hzr by by apply last_Some_elem_of in Hz. pose proof (Hsub z Hzr) as HzX. pose proof Hsel as (Hhl & d & Hpm & _).
  assert (NoDup (heap (agg_queue a))) as Hndh.
  { apply NoDup_fmap_1 in Hnd. rewrite Hpm in Hnd. by apply NoDup_app in Hnd as [? _]. }
  unfold aggregator_lowest, queue_top. destruct (heap (agg_queue a)) as [|y q] eqn:Hq; cbn [head fmap option_fmap option_map rerun_test].
  { apply HX in HzX. cbn in Hhl. destruct l; [by apply not_elem_of_nil in HzX|]. cbn in Hhl. lia. }
  rewrite bool_decide_eq_true_2 by done. cbn [andb]. destruct (Nat.ltb_spec (length r) limit) as [Hlt|Hge]; cbn [andb].
  2: { intros _. exists r. split_and!; [done| |done]. intros x Hx. auto. }
  cbn. rewrite <-(ordered_float_not_nan (sp_score y) (sp_score z)).
  2: { apply Hnan, HX. apply (selects_sub leb _ _ _ _ Hsel). left. }
  2: { by apply Hnan. }
  intros Hyz. change (leb y z = false) in Hyz. exists (y :: q). split_and!; [done|..].
  - intros x Hx. split; [apply HX; by apply (selects_sub leb _ _ _ _ Hsel)|].
    apply (scored_point_leb_trans _ z); [by apply Hbelow|]. apply (scored_point_leb_trans _ y); [|by eapply sorted_head].
    destruct (scored_point_leb_total y z); [congruence|done].
  - destruct (Nat.le_gt_cases limit (length (y :: q))) as [|Hshort]; [done|]. exfalso.
    pose proof (Permutation_length Hpm) as Hpl. rewrite length_app in Hpl. destruct d as [|w d]; [|cbn in *; lia].
    apply HX in HzX. rewrite Hpm, app_nil_r in HzX. by rewrite (sorted_head y z q Hs HzX) in Hyz.
Qed.
End aggregation.

(** ** Exact segments *)

(** What the search relies on: a segment gives the best of the points that
    match a query, its hits. *)
Class ExactSearch (Num E : Type) `{!SegmentEntry Num SearchParams E} := {
  search_wf : E → Prop;
  query_ok : E → BatchSearchParams → VectorType → Prop;
  hits : E → BatchSearchParams → VectorType → list (ScoredPoint Num);
  search_batch_exact (s : E) q vectors top :
    search_wf s → vectors ≠ [] → Forall (query_ok s q) vectors →
    ∃ res, se_search_batch s (bsp_vector_name q) vectors (bsp_with_payload q) (bsp_with_vector q) (bsp_filter q) top
             (bsp_params q) = Ok res ∧
      Forall2 (λ v r, selects scored_point_leb top (hits s q v) r) vectors res;
  hits_points (s : E) q v :
    search_wf s → query_ok s q v → NoDup (sp_id <$> hits s q v) ∧
    ∀ p, p ∈ hits s q v → se_has_point s (sp_id p) = true ∧ se_point_version s (sp_id p) = Some (sp_version p);
  hits_counted (s : E) q v : search_wf s → query_ok s q v → se_points_count s = 0 → hits s q v = [];
}.

Section search.
Context {Num E : Type} `{!SegmentEntry Num SearchParams E, !ExactSearch Num E}.
Context (display_id : PointIdType → string) (join_error : string).
Abbreviation Scored := (ScoredPoint Num).
Abbreviation leb := (scored_point_leb (Num:=Num)).

Definition request_vector (r : SearchRequest) : VectorType := get_query_vector (sr_vector r).
Definition request_hits (s : E) (r : SearchRequest) : list Scored := hits s (request_params r) (request_vector r).
Definition request_ok (s : E) (r : SearchRequest) : Prop := query_ok s (request_params r) (request_vector r).

(** Equal parameters are the same: no request has a filter with a zero whose
    sign differs from that of another request. *)
Definition params_faithful (S : list SearchRequest) : Prop :=
  ∀ r r', r ∈ S → r' ∈ S → batch_params_eqb (request_params r) (request_params r') = true →
    request_params r = request_params r'.

(** The answer of a segment to one request. *)
Definition row_ok (s : E) (total : nat) (sampling : bool) (r : SearchRequest) (res : list Scored) (further : bool) : Prop :=
  ∃ top, batch_top s total sampling (request_params r) = Ok top ∧ selects leb top (request_hits s r) res ∧
    further = bool_decide (length res = top).

Section one_segment.
Context (s : E) (total : nat) (sampling : bool) (S : list SearchRequest).
Context (Hwf : search_wf s) (Hok : ∀ r, r ∈ S → request_ok s r).
Context (Htop : ∀ r, r ∈ S → 0 < sr_top r ∧ ∃ top, batch_top s total sampling (request_params r) = Ok top).
Context (Hfaith : params_faithful S).

(** [done] has been searched, [pending] is batched. *)
Definition batch_inv (done pending : list SearchRequest) (st : BatchState) : Prop :=
  Forall3 (row_ok s total sampling) done (bs_result st) (bs_further_results st) ∧
  bs_vectors_batch st = request_vector <$> pending ∧
  (∀ r, r ∈ pending → r ∈ S ∧ request_params r = bs_prev_params st) ∧
  (pending = [] → bs_prev_params st = default_batch_params).

Lemma flush_batch_ok done pending st :
  batch_inv done pending st →
  ∃ st', flush_batch display_id s total sampling st = Ok st' ∧ bs_vectors_batch st' = [] ∧
    Forall3 (row_ok s total sampling) (done ++ pending) (bs_result st') (bs_further_results st').
Proof using Hwf Hok Htop.
  intros (Hdone & Hv & Hpend & _). unfold flush_batch. destruct pending as [|r0 pending].
  { rewrite Hv. exists st. by rewrite app_nil_r. }
  destruct (bs_vectors_batch st) as [|v vs] eqn:Hvs; [done|].
  destruct (Hpend r0) as [Hr0 Hp0]; [left|]. destruct (Htop r0 Hr0) as (_ & top & Ht). rewrite <-Hp0, Ht. cbn [mbind result_bind].
  destruct (search_batch_exact s (request_params r0) (v :: vs) top) as (res & -> & Hres); [done|done| |].
  { rewrite Hv. apply Forall_fmap, Forall_forall. intros r Hr. destruct (Hpend r Hr) as [HS Hp]. cbn.
    rewrite Hp0, <-Hp. by apply Hok. }
  cbn. eexists. split_and!; [done..|]. cbn. apply Forall3_app; [done|]. rewrite Hv in Hres. clear Hv Hdone.
  revert res Hres Hpend. generalize (r0 :: pending) as l. induction l as [|r l IH]; intros res Hres Hpend.
  - apply Forall2_nil_inv_l in Hres as ->. constructor.
  - apply Forall2_cons_inv_l in Hres as (x & res' & Hx & Hres & ->). cbn. destruct (Hpend r) as [HS Hp]; [left|].
    constructor; [|apply IH; [done|by intros r' Hr'; apply Hpend; right]].
    exists top. split_and!; [by rewrite Hp, <-Hp0| |done]. unfold request_hits. by rewrite Hp, <-Hp0.
Qed.

Lemma search_query_step_ok done pending st r :
  r ∈ S → batch_inv done pending st →
  ∃ done' pending' st', search_query_step display_id s total sampling r st = Ok st' ∧
    done' ++ pending' = done ++ pending ++ [r] ∧ batch_inv done' pending' st'.
Proof using Hwf Hok Htop Hfaith.
  intros Hr Hinv. pose proof Hinv as (Hdone & Hv & Hpend & Hdef). unfold search_query_step.
  destruct (batch_params_eqb _ _) eqn:Heq.
  - assert (request_params r = bs_prev_params st) as Hp.
    { destruct pending as [|r0 pending].
      - rewrite Hdef in Heq by done. destruct (Htop r Hr) as [Hpos _]. exfalso.
        unfold batch_params_eqb in Heq. rewrite !andb_true_iff in Heq. destruct Heq as [[_ Ht%bool_decide_eq_true] _].
        cbn in Ht. lia.
      - destruct (Hpend r0) as [HS Hp0]; [left|]. rewrite <-Hp0 in Heq |- *. by apply Hfaith. }
    exists done, (pending ++ [r]). eexists. split_and!; [done..|]. split_and!; cbn; [done|by rewrite Hv, fmap_app| |].
    + intros r' Hr'. apply elem_of_app in Hr' as [Hr'|Hr']; [by apply Hpend|]. by apply list_elem_of_singleton in Hr' as ->.
    + intros [_ ?]%app_eq_nil. done.
  - destruct (flush_batch_ok done pending st Hinv) as (st' & -> & Hv' & Hdone'). cbn.
    exists (done ++ pending), [r]. eexists. split_and!; [done|by rewrite (assoc_L (++))|].
    split_and!; cbn; [done|by rewrite Hv'| |done]. intros r' ->%list_elem_of_singleton. auto.
Qed.

Lemma search_in_segment_ok :
  ∃ results further, search_in_segment display_id s S total sampling = Ok (results, further) ∧
    Forall3 (row_ok s total sampling) S results further.
Proof using Hwf Hok Htop Hfaith.
  assert (∀ l done pending st, (∀ r, r ∈ l → r ∈ S) → batch_inv done pending st →
    ∃ done' pending' st', res_fold (search_query_step display_id s total sampling) l st = Ok st' ∧
      done' ++ pending' = done ++ pending ++ l ∧ batch_inv done' pending' st') as Hloop.
  { induction l as [|r l IH]; intros done pending st Hl Hinv; cbn.
    - exists done, pending, st. by rewrite app_nil_r.
    - destruct (search_query_step_ok done pending st r) as (d & p & st' & -> & Hd & Hinv'); [apply Hl; left|done|]. cbn.
      destruct (IH d p st') as (d' & p' & st'' & -> & Hd' & Hinv''); [by intros r' Hr'; apply Hl; right|done|].
      exists d', p', st''. split_and!; [done| |done]. rewrite Hd', (assoc_L (++) d), Hd, <-!(assoc_L (++)). done. }
  destruct (Hloop S [] [] (mkBatchState [] [] [] default_batch_params)) as (d & p & st & Hst & Hd & Hinv); [done| |].
  { split_and!; [constructor|done|by intros ? ?%not_elem_of_nil|done]. }
  unfold search_in_segment. rewrite Hst. cbn. destruct (flush_batch_ok d p st Hinv) as (st' & -> & _ & Hall). cbn.
  cbn in Hd. rewrite Hd in Hall. eauto.
Qed.
End one_segment.
End search.
