(* ===== verification/SearchMerge.v ===== *)
(** * Merging the results of the segments

    The two steps of the search over segments: merging the first results,
    choosing the segments to search again, and merging those. *)

From stdpp Require Import base gmap strings list sorting.
From Stdlib Require Import ZArith SpecFloat Lia.
From S2P Require Import Prelude Types Rocks NamedVectors Filters TopK Segment PlainIndex SegmentEntry SegmentHolder.
From S2P Require Import Requests SearchAggregator SegmentsSearcher SearcherSpec.

(** *** Merging *)

Definition mat_at {A} (m : list (list A)) (i j : nat) : option A := m !! i ≫= λ row, row !! j.

Lemma vec_get2_at {A Er} (m : list (list A)) i j x : mat_at m i j = Some x → vec_get2 (Er:=Er) m i j = Ok x.
Proof.
  unfold mat_at, vec_get2, vec_get, unwrap. destruct (m !! i) as [row|]; [|done]. cbn. intros Hx. by rewrite Hx.
Qed.

Lemma vec_set_lookup {A Er} i (x : A) l :
  i < length l → vec_set (E:=Er) i x l = Ok (<[i := x]> l).
Proof. intros Hi. unfold vec_set. by rewrite decide_True. Qed.

Lemma vec_set2_at {A Er} (m : list (list A)) i j x :
  is_Some (mat_at m i j) → ∃ m', vec_set2 (Er:=Er) i j x m = Ok m' ∧
    ∀ i' j', mat_at m' i' j' = if decide (i' = i ∧ j' = j) then Some x else mat_at m i' j'.
Proof.
  unfold mat_at, vec_set2. intros [y Hy]. destruct (m !! i) as [row|] eqn:Hrow; [|done]. cbn in Hy.
  pose proof (lookup_lt_Some _ _ _ Hrow). pose proof (lookup_lt_Some _ _ _ Hy).
  unfold vec_get, unwrap. rewrite Hrow. cbn. rewrite vec_set_lookup by done. cbn. rewrite vec_set_lookup by done.
  eexists. split; [done|]. intros i' j'. destruct (decide (i' = i)) as [->|Hne].
  - rewrite list_lookup_insert_eq by done. cbn. destruct (decide (j' = j)) as [->|].
    + by rewrite list_lookup_insert_eq, decide_True by done.
    + rewrite list_lookup_insert_ne, decide_False by naive_solver. by rewrite Hrow.
  - rewrite list_lookup_insert_ne, decide_False by naive_solver. done.
Qed.

Lemma elem_of_enumerate {A} (l : list A) i x : (i, x) ∈ enumerate l ↔ l !! i = Some x.
Proof.
  unfold enumerate. rewrite list_elem_of_lookup. setoid_rewrite lookup_zip_with_Some. split.
  - intros (k & ? & ? & [= -> ->] & Hk & Hx). apply lookup_seq in Hk as [-> _]. done.
  - intros Hx. exists i, i, x. split_and!; [done| |done]. apply lookup_seq. split; [done|]. by eapply lookup_lt_Some.
Qed.

Lemma NoDup_bind_index {A B} (f : A → list B) l :
  (∀ x, x ∈ l → NoDup (f x)) →
  (∀ i j x y b, l !! i = Some x → l !! j = Some y → b ∈ f x → b ∈ f y → i = j) → NoDup (l ≫= f).
Proof.
  induction l as [|x l IH]; intros Hnd Hdisj; [constructor|]. cbn. apply NoDup_app. split_and!.
  - apply Hnd. left.
  - intros b Hb (y & Hby & Hy)%list_elem_of_bind. apply list_elem_of_lookup in Hy as [j Hj].
    discriminate (Hdisj 0 (S j) x y b eq_refl Hj Hb Hby).
  - apply IH; [by intros y Hy; apply Hnd; right|]. intros i j y z b Hi Hj Hy Hz.
    pose proof (Hdisj (S i) (S j) y z b Hi Hj Hy Hz). lia.
Qed.

Section merge.
Context {Num E : Type} `{!SegmentEntry Num SearchParams E, !ExactSearch Num E}.
Context (display_id : PointIdType → string) (join_error : string).
Abbreviation Scored := (ScoredPoint Num).
Abbreviation leb := (scored_point_leb (Num:=Num)).

Context (segs : list E) (S : list SearchRequest).
Context (Hwf : ∀ s, s ∈ segs → search_wf s) (Hok : ∀ s r, s ∈ segs → r ∈ S → request_ok s r).
Context (Htop : ∀ r, r ∈ S → 0 < sr_top r) (Hfaith : params_faithful S).
Context (Hdisj : ∀ i j s t e, segs !! i = Some s → segs !! j = Some t →
  se_has_point s e = true → se_has_point t e = true → i = j).
Context (Hnan : ∀ s r p, s ∈ segs → r ∈ S → p ∈ request_hits s r → not_nan p).

(** All the hits of a request. *)
Definition all_hits (r : SearchRequest) : list Scored := s ← segs; request_hits s r.

Lemma elem_of_all_hits r p : p ∈ all_hits r ↔ ∃ i s, segs !! i = Some s ∧ p ∈ request_hits s r.
Proof.
  unfold all_hits. rewrite list_elem_of_bind. setoid_rewrite list_elem_of_lookup at 2. naive_solver.
Qed.

Lemma request_hits_points s r :
  s ∈ segs → r ∈ S → NoDup (sp_id <$> request_hits s r) ∧
  ∀ p, p ∈ request_hits s r → se_has_point s (sp_id p) = true ∧ se_point_version s (sp_id p) = Some (sp_version p).
Proof using Hwf Hok. intros Hs Hr. apply hits_points; [by apply Hwf|by apply Hok]. Qed.

Lemma all_hits_inj r : r ∈ S → ids_inj (all_hits r).
Proof using Hwf Hok Hdisj.
  intros Hr p q (i & s & Hi & Hp)%elem_of_all_hits (j & t & Hj & Hq)%elem_of_all_hits Hid.
  pose proof (list_elem_of_lookup_2 _ _ _ Hi) as Hs. pose proof (list_elem_of_lookup_2 _ _ _ Hj) as Ht.
  destruct (request_hits_points s r Hs Hr) as [Hnd Hps]. destruct (request_hits_points t r Ht Hr) as [_ Hqs].
  destruct (Hps p Hp) as [Hp' _]. destruct (Hqs q Hq) as [Hq' _]. rewrite Hid in Hp'.
  pose proof (Hdisj i j s t _ Hi Hj Hp' Hq') as <-. assert (s = t) as <- by congruence.
  apply list_elem_of_lookup in Hp as [a Ha], Hq as [b Hb].
  assert (a = b) as <-; [|congruence]. eapply NoDup_lookup; [done|..]; rewrite list_lookup_fmap; [by rewrite Ha|].
  rewrite Hb. cbn. by rewrite Hid.
Qed.

Lemma NoDup_all_hits r : r ∈ S → NoDup (all_hits r).
Proof using Hwf Hok Hdisj.
  intros Hr. apply NoDup_bind_index.
  - intros s Hs. destruct (request_hits_points s r Hs Hr) as [Hnd _]. by apply NoDup_fmap_1 in Hnd.
  - intros i j s t p Hi Hj Hp Hq. eapply Hdisj; [done|done|..].
    + by apply (request_hits_points s r (list_elem_of_lookup_2 _ _ _ Hi) Hr).
    + by apply (request_hits_points t r (list_elem_of_lookup_2 _ _ _ Hj) Hr).
Qed.

(** The versions come from the segments that have the points. *)
Definition versions_ok (pv : gmap PointIdType SeqNumberType) : Prop :=
  ∀ e v, pv !! e = Some v → ∃ s, s ∈ segs ∧ se_has_point s e = true ∧ se_point_version s e = Some v.

Lemma versions_current pv s r p :
  versions_ok pv → s ∈ segs → r ∈ S → p ∈ request_hits s r →
  (default 0%N (pv !! sp_id p) <=? sp_version p)%N = true.
Proof using Hwf Hok Hdisj.
  intros Hpv Hs Hr Hp. destruct (request_hits_points s r Hs Hr) as [_ Hps]. destruct (Hps p Hp) as [Hhas Hver].
  destruct (pv !! sp_id p) as [v|] eqn:Hv; [|apply N.leb_le; cbn; lia]. destruct (Hpv _ _ Hv) as (t & Ht & Hhas' & Hver').
  apply list_elem_of_lookup in Hs as [i Hi], Ht as [j Hj]. pose proof (Hdisj i j s t _ Hi Hj Hhas Hhas') as <-.
  assert (s = t) as <- by congruence. apply N.leb_le. cbn. assert (v = sp_version p) by congruence. lia.
Qed.

(** Results that are hits of their requests. *)
Definition is_hit (p : Scored) : Prop := ∃ s r, s ∈ segs ∧ r ∈ S ∧ p ∈ request_hits s r.

Lemma update_point_version_ok pv p : versions_ok pv → is_hit p → versions_ok (update_point_version pv p).
Proof using Hwf Hok Hdisj.
  intros Hpv (s & r & Hs & Hr & Hp) e v. unfold update_point_version.
  destruct (request_hits_points s r Hs Hr) as [_ Hps]. destruct (Hps p Hp) as [Hhas Hver].
  destruct (decide (e = sp_id p)) as [->|Hne]; [|by rewrite lookup_insert_ne; [apply Hpv|]].
  rewrite lookup_insert_eq. intros [= <-]. exists s. split_and!; [done..|]. rewrite Hver. f_equal.
  pose proof (versions_current pv s r p Hpv Hs Hr Hp) as Hle%N.leb_le.
  destruct (pv !! sp_id p) as [v|]; cbn in *; lia.
Qed.

Lemma update_point_versions_ok rss (a : BatchResultAggregator Num) :
  versions_ok (point_versions a) → (∀ rs ps p, rs ∈ rss → ps ∈ rs → p ∈ ps → is_hit p) →
  versions_ok (point_versions (update_point_versions rss a)).
Proof using Hwf Hok Hdisj.
  intros Ha Hall. cbn. revert Ha. generalize (point_versions a) as pv.
  induction rss as [|rs rss IH]; intros pv Hpv; cbn; [done|].
  apply IH; [by intros rs' ps p Hrs; apply Hall; right|].
  assert (∀ ps p, ps ∈ rs → p ∈ ps → is_hit p) as Hrs by (intros ps p; apply Hall; left). clear IH Hall. revert pv Hpv.
  induction rs as [|ps rs IH]; intros pv Hpv; cbn; [done|].
  apply IH; [by intros ps' p Hps; apply Hrs; right|].
  assert (∀ p, p ∈ ps → is_hit p) as Hps by (intros p; apply Hrs; left). clear IH Hrs. revert pv Hpv.
  induction ps as [|p ps IH]; intros pv Hpv; cbn; [done|].
  apply IH; [by intros q Hq; apply Hps; right|]. apply update_point_version_ok; [done|]. apply Hps. left.
Qed.

(** ** The aggregators *)

(** Those of the requests, with what each has got. *)
Definition batches_ok (X : nat → list Scored) (a : BatchResultAggregator Num) : Prop :=
  versions_ok (point_versions a) ∧ length (batch_aggregators a) = length S ∧
  ∀ b r, S !! b = Some r →
    (∀ p, p ∈ X b → p ∈ all_hits r) ∧ ∃ g, batch_aggregators a !! b = Some g ∧ agg_ok (sr_top r) (X b) g.

Lemma update_batch_results_ok {Er} X a b r ps :
  batches_ok X a → S !! b = Some r → (∀ p, p ∈ ps → p ∈ all_hits r) →
  ∃ a', update_batch_results b ps a = Ok (E:=Er) a' ∧ batches_ok (λ b', if decide (b' = b) then ps ++ X b' else X b') a'.
Proof using Hwf Hok Htop Hdisj.
  intros (Hpv & Hlen & Hb) Hr Hps. pose proof (list_elem_of_lookup_2 _ _ _ Hr) as HrS.
  destruct (Hb b r Hr) as (HX & g & Hg & Hagg). unfold update_batch_results, vec_get, unwrap. rewrite Hg. cbn [mbind result_bind].
  assert (∀ p, p ∈ ps → (default 0%N (point_versions a !! sp_id p) <=? sp_version p)%N = true) as Hcur.
  { intros p (i & s & Hi & Hp)%Hps%elem_of_all_hits. eapply versions_current; [done|by eapply list_elem_of_lookup_2|done|done]. }
  destruct (aggregator_fold_ok (E:=Er) (sr_top r) (X b) (λ p, default 0%N (point_versions a !! sp_id p) <=? sp_version p)%N ps g)
    as (g' & Hf & Hg'); [by apply Htop| |done|done|].
  { intros p q Hp Hq. apply (all_hits_inj r HrS).
    - apply elem_of_app in Hp as [|]; auto.
    - apply elem_of_app in Hq as [|]; auto. }
  rewrite Hf. cbn [mbind result_bind]. pose proof (lookup_lt_Some _ _ _ Hg). rewrite vec_set_lookup by done. cbn.
  eexists. split; [done|]. split_and!; cbn; [done|by rewrite length_insert|].
  intros b' r' Hr'. destruct (decide (b' = b)) as [->|Hne].
  - assert (r' = r) as -> by congruence. split; [intros p [|]%elem_of_app; auto|].
    rewrite list_lookup_insert_eq by done. eauto.
  - rewrite list_lookup_insert_ne by done. by apply Hb.
Qed.

Lemma batches_ok_set X Y a : (∀ b p, p ∈ X b ↔ p ∈ Y b) → batches_ok X a → batches_ok Y a.
Proof using.
  intros HXY (Hpv & Hlen & Hb). split_and!; [done..|]. intros b r Hr. destruct (Hb b r Hr) as (HX & g & Hg & Hagg). split.
  - intros p Hp%HXY. auto.
  - exists g. split; [done|]. eapply agg_ok_set; [apply HXY|done].
Qed.

Lemma batch_aggregator_new_ok {Er} :
  ∃ a, batch_aggregator_new (Num:=Num) (E:=Er) (sr_top <$> S) = Ok a ∧ batches_ok (λ _, []) a.
Proof using Htop.
  unfold batch_aggregator_new.
  destruct (res_map_Forall2 (aggregator_new (Num:=Num) (E:=Er)) (λ n g, agg_ok n [] g) (sr_top <$> S)) as (gs & -> & Hgs).
  { intros n (r & -> & Hr)%list_elem_of_fmap. by apply aggregator_new_ok, Htop. }
  cbn. eexists. split; [done|]. apply Forall2_fmap_l in Hgs. split_and!; cbn.
  - intros e v. by rewrite lookup_empty.
  - symmetry. by eapply Forall2_length.
  - intros b r Hr. split; [by intros p ?%not_elem_of_nil|]. destruct (Forall2_lookup_l _ _ _ _ _ Hgs Hr) as (g & Hg & Hagg). eauto.
Qed.

(** ** The first step *)

Section first_step.
Context (R : list (list (list Scored))) (F : list (list bool)) (total : nat) (sampling : bool).

(** [R] and [F] are the answers of the segments. *)
Definition table_ok : Prop :=
  length R = length segs ∧
  (∀ i s b r, segs !! i = Some s → S !! b = Some r →
    ∃ q f, mat_at R i b = Some q ∧ mat_at F i b = Some f ∧ row_ok s total sampling r q f) ∧
  ∀ i b q, mat_at R i b = Some q → is_Some (segs !! i) ∧ is_Some (S !! b).

Context (Htab : table_ok).

Lemma table_hits i b q r : mat_at R i b = Some q → S !! b = Some r → ∀ p, p ∈ q → p ∈ all_hits r.
Proof using Htab.
  intros Hq Hr p Hp. destruct Htab as (_ & Hrow & Hdim). destruct (Hdim i b q Hq) as [[s Hs] _].
  destruct (Hrow i s b r Hs Hr) as (q' & f & Hq' & _ & top & _ & Hsel & _). assert (q' = q) as -> by congruence.
  apply elem_of_all_hits. exists i, s. split; [done|]. by eapply selects_sub.
Qed.

(** What a request has got from all segments. *)
Definition first_results (b : nat) : list Scored := row ← R; default [] (row !! b).

Lemma elem_of_first_results b p : p ∈ first_results b ↔ ∃ i q, mat_at R i b = Some q ∧ p ∈ q.
Proof using.
  unfold first_results, mat_at. rewrite list_elem_of_bind. split.
  - intros (row & Hp & Hrow). apply list_elem_of_lookup in Hrow as [i Hi]. exists i. rewrite Hi. cbn.
    destruct (row !! b) as [q|]; [eauto|by apply not_elem_of_nil in Hp].
  - intros (i & q & Hq & Hp). destruct (R !! i) as [row|] eqn:Hi; [|done]. cbn in Hq. exists row. rewrite Hq.
    split; [done|by eapply list_elem_of_lookup_2].
Qed.

Definition low_score (q : list Scored) : spec_float := default f32_min (sp_score <$> last q).

(** The loop over segments and requests, as one. *)
Definition cells : list ((nat * list (list Scored)) * (nat * list Scored)) :=
  s ← enumerate R; pair s <$> enumerate s.2.

Lemma elem_of_cells c : c ∈ cells ↔ R !! c.1.1 = Some c.1.2 ∧ c.1.2 !! c.2.1 = Some c.2.2.
Proof using.
  destruct c as [[i row] [b q]]. unfold cells. cbn. rewrite list_elem_of_bind. split.
  - intros (x & Hx & Hs). apply list_elem_of_fmap in Hx as (y & [= <- <-] & Hy).
    by apply elem_of_enumerate in Hs, Hy.
  - intros [Hi Hb]. exists (i, row). split; [|by apply elem_of_enumerate]. apply list_elem_of_fmap.
    exists (b, q). split; [done|]. by apply elem_of_enumerate.
Qed.

Definition got (P : list ((nat * list (list Scored)) * (nat * list Scored))) (b : nat) : list Scored :=
  c ← P; if decide (c.2.1 = b) then c.2.2 else [].

Definition merge_inv (P : list ((nat * list (list Scored)) * (nat * list Scored))) (st : StepState) : Prop :=
  batches_ok (got P) (ss_aggregator st) ∧
  (∀ i b, i < length R → b < length S → is_Some (mat_at (ss_lowest_scores st) i b) ∧ is_Some (mat_at (ss_retrieved_points st) i b)) ∧
  ∀ c, c ∈ P → c ∈ cells ∧ mat_at (ss_lowest_scores st) c.1.1 c.2.1 = Some (low_score c.2.2) ∧
    mat_at (ss_retrieved_points st) c.1.1 c.2.1 = Some (length c.2.2).

Lemma merge_query_ok P c st :
  c ∈ cells → merge_inv P st → ∃ st', merge_query c.1.1 c.2 st = Ok st' ∧ merge_inv (P ++ [c]) st'.
Proof using Hwf Hok Htop Hdisj Htab.
  intros Hc (Hb & Hdim & HP). pose proof Hc as [Hi Hq]%elem_of_cells. destruct c as [[i row] [b q]]. cbn in *.
  assert (mat_at R i b = Some q) as Hat by (unfold mat_at; by rewrite Hi).
  pose proof Htab as (Hlen & _ & Hdims). destruct (Hdims i b q Hat) as [[s Hs] [r Hr]].
  pose proof (lookup_lt_Some _ _ _ Hs). pose proof (lookup_lt_Some _ _ _ Hr). destruct (Hdim i b) as [Hl Hrt]; [lia|done|].
  destruct (vec_set2_at (Er:=CollectionError) _ i b (length q) Hrt) as (m1 & -> & Hm1). cbn.
  destruct (vec_set2_at (Er:=CollectionError) _ i b (default f32_min (sp_score <$> last q)) Hl) as (m2 & -> & Hm2). cbn.
  destruct (update_batch_results_ok (Er:=CollectionError) (got P) (ss_aggregator st) b r q) as (a & -> & Ha);
    [done|done|by apply (table_hits i b q r)|]. cbn. eexists. split; [done|]. split_and!; cbn.
  - eapply batches_ok_set; [|done]. intros b' p. unfold got. rewrite bind_app, elem_of_app. cbn.
    rewrite app_nil_r. destruct (decide (b = b')) as [->|].
    + rewrite decide_True by done. rewrite elem_of_app. tauto.
    + rewrite decide_False by done. pose proof (not_elem_of_nil p). tauto.
  - intros i' b' Hi' Hb'. rewrite Hm1, Hm2. destruct (decide (i' = i ∧ b' = b)); [eauto|by apply Hdim].
  - intros [[i' row'] [b' q']] [Hin|Hin]%elem_of_app; cbn.
    + destruct (HP _ Hin) as (Hc' & Hl' & Hr'). cbn in *. split; [done|]. rewrite Hm1, Hm2.
      apply elem_of_cells in Hc' as [Hi' Hq']. cbn in *.
      destruct (decide (i' = i ∧ b' = b)) as [[-> ->]|]; [|done]. assert (q' = q) as -> by congruence. done.
    + apply list_elem_of_singleton in Hin as [= -> -> -> ->]. rewrite Hm1, Hm2, !decide_True by done. done.
Qed.

Lemma mat_at_replicate {A} n m (x : A) i j : i < n → j < m → is_Some (mat_at (replicate n (replicate m x)) i j).
Proof using. intros Hi Hj. unfold mat_at. rewrite lookup_replicate_2 by done. cbn. rewrite lookup_replicate_2 by done. eauto. Qed.

Lemma merge_results_ok a :
  batches_ok (λ _, []) a →
  ∃ st, merge_results R (mkStepState a (replicate (length R) (replicate (length S) f32_max))
          (replicate (length R) (replicate (length S) 0))) = Ok st ∧
    batches_ok first_results (ss_aggregator st) ∧
    ∀ i b q, mat_at R i b = Some q →
      mat_at (ss_lowest_scores st) i b = Some (low_score q) ∧ mat_at (ss_retrieved_points st) i b = Some (length q).
Proof using Hwf Hok Htop Hdisj Htab.
  intros Ha. unfold merge_results. rewrite (res_fold_nested (λ s, merge_query s.1) (λ s, enumerate s.2)). fold cells.
  edestruct (res_fold_inv (λ p, merge_query p.1.1 p.2) merge_inv cells) as (st & -> & Hb & _ & Hcells); [|apply merge_query_ok|].
  { split_and!; [done|..].
    - intros i b Hi Hb. split; by apply mat_at_replicate.
    - by intros c ?%not_elem_of_nil. }
  exists st. split_and!; [done|..].
  - eapply batches_ok_set; [|done]. intros b p. rewrite elem_of_first_results. unfold got. rewrite list_elem_of_bind. split.
    + intros ([[i row] [b' q]] & Hp & [Hi Hq]%elem_of_cells). cbn in *. destruct (decide (b' = b)) as [->|];
        [|by apply not_elem_of_nil in Hp]. exists i, q. split; [|done]. unfold mat_at. by rewrite Hi.
    + intros (i & q & Hq & Hp). unfold mat_at in Hq. destruct (R !! i) as [row|] eqn:Hi; [|done].
      exists ((i, row), (b, q)). cbn. rewrite decide_True by done. split; [done|]. by apply elem_of_cells.
  - intros i b q Hq. unfold mat_at in Hq. destruct (R !! i) as [row|] eqn:Hi; [|done].
    destruct (Hcells ((i, row), (b, q))) as (_ & ? & ?); [by apply elem_of_cells|done].
Qed.

(** Segment [i] is to be searched again for request [b]. *)
Definition rerun (a : BatchResultAggregator Num) (i b : nat) : Prop :=
  ∃ r q f g, S !! b = Some r ∧ mat_at R i b = Some q ∧ mat_at F i b = Some f ∧ batch_aggregators a !! b = Some g ∧
    rerun_test (sp_score <$> aggregator_lowest g) (sr_top r) q f = true.

Definition marked (m : gmap nat (list nat)) (i b : nat) : Prop := ∃ bs, m !! i = Some bs ∧ b ∈ bs.

Definition no_empty (m : gmap nat (list nat)) : Prop := ∀ i bs, m !! i = Some bs → bs ≠ [].

Lemma no_empty_push (m : gmap nat (list nat)) i b : no_empty m → no_empty (<[i := default [] (m !! i) ++ [b]]> m).
Proof using.
  intros Hm i' bs. destruct (decide (i' = i)) as [->|Hne]; [rewrite lookup_insert_eq|rewrite lookup_insert_ne by done; apply Hm].
  intros [= <-] [_ ?]%app_eq_nil. done.
Qed.

Lemma marked_push (m : gmap nat (list nat)) i b i' b' :
  marked (<[i := default [] (m !! i) ++ [b]]> m) i' b' ↔ marked m i' b' ∨ (i' = i ∧ b' = b).
Proof using.
  unfold marked. destruct (decide (i' = i)) as [->|Hne].
  - rewrite lookup_insert_eq. split.
    + intros (bs & [= <-] & [Hb|Hb]%elem_of_app); [|apply list_elem_of_singleton in Hb; by right].
      destruct (m !! i) as [l|]; [left; eauto|by apply not_elem_of_nil in Hb].
    + intros Hc. eexists. split; [done|]. apply elem_of_app. destruct Hc as [(bs & -> & Hb)|[_ ->]]; [by left|right; left].
  - rewrite lookup_insert_ne by done. naive_solver.
Qed.

Lemma rerun_batch_ok X st b r m :
  batches_ok X (ss_aggregator st) → S !! b = Some r →
  (∀ i b q, mat_at R i b = Some q →
    mat_at (ss_lowest_scores st) i b = Some (low_score q) ∧ mat_at (ss_retrieved_points st) i b = Some (length q)) →
  ∃ m', rerun_batch st F (length R) (b, sr_top r) m = Ok m' ∧ (no_empty m → no_empty m') ∧
    ∀ i' b', marked m' i' b' ↔ marked m i' b' ∨ (b' = b ∧ rerun (ss_aggregator st) i' b).
Proof using Htab.
  intros (_ & _ & Hb) Hr Hcells. destruct (Hb b r Hr) as (_ & g & Hg & _). unfold rerun_batch, batch_lowest_scores, vec_get, unwrap.
  rewrite Hg. cbn [mbind result_bind]. destruct (sp_score <$> aggregator_lowest g) as [low|] eqn:Hlow.
  2: { exists m. split_and!; [done..|]. intros i' b'. split; [by left|]. intros [|[_ (r' & q & f & g' & _ & _ & _ & Hg' & Ht)]]; [done|].
    assert (g' = g) as -> by congruence. by rewrite Hlow in Ht. }
  edestruct (res_fold_inv (λ segment_id searches_to_rerun,
    rerun ← needs_rerun st F b (sr_top r) segment_id low;
    Ok (if rerun : bool
        then <[segment_id := default [] (searches_to_rerun !! segment_id) ++ [b]]> searches_to_rerun
        else searches_to_rerun))
    (λ P m', (no_empty m → no_empty m') ∧ ∀ i' b', marked m' i' b' ↔ marked m i' b' ∨ (b' = b ∧ i' ∈ P ∧ rerun (ss_aggregator st) i' b))
    (seq 0 (length R)) m) as (m' & Hm' & Hemp & Hall).
  - split; [done|]. intros i' b'. pose proof (not_elem_of_nil i'). naive_solver.
  - intros P i m1 Hi [He1 Hm1]. apply elem_of_seq in Hi. pose proof Htab as (Hlen & Hrow & _).
    destruct (lookup_lt_is_Some_2 segs i) as [s Hs]; [lia|]. destruct (Hrow i s b r Hs Hr) as (q & f & Hq & Hf & _).
    destruct (Hcells i b q Hq) as [Hl Hn]. unfold needs_rerun.
    rewrite (vec_get2_at _ _ _ _ Hl), (vec_get2_at _ _ _ _ Hn), (vec_get2_at _ _ _ _ Hf). cbn [mbind result_bind].
    eexists. split; [done|]. split; [intros He; destruct (f && _ && _); [apply no_empty_push|]; auto|]. intros i' b'.
    assert (rerun (ss_aggregator st) i b ↔ f && (length q <? sr_top r) && SFleb low (low_score q) = true) as Ht.
    { split.
      - intros (r' & q' & f' & g' & Hr' & Hq' & Hf' & Hg' & Ht). simplify_eq. by rewrite Hlow in Ht.
      - intros Ht. exists r, q, f, g. split_and!; [done..|]. by rewrite Hlow. }
    destruct (f && _ && _).
    + rewrite marked_push, Hm1, elem_of_app, list_elem_of_singleton. destruct Ht as [_ Ht]. specialize (Ht eq_refl).
      split; [intros [[?|(-> & ? & ?)]|[-> ->]]; auto|]. intros [?|(-> & [?| ->] & ?)]; auto.
    + rewrite Hm1, elem_of_app, list_elem_of_singleton. destruct Ht as [Ht _].
      split; [intros [?|(-> & ? & ?)]; auto|]. intros [?|(-> & [?| ->] & Hre)]; auto. discriminate (Ht Hre).
  - exists m'. split_and!; [done..|]. intros i' b'. rewrite Hall. split; [intros [?|(-> & _ & ?)]; auto|].
    intros [?|[-> Hre]]; [by left|]. right. split_and!; [done| |done]. destruct Hre as (? & q & ? & ? & _ & Hq & _).
    unfold mat_at in Hq. destruct (R !! i') eqn:Hi; [|done]. apply lookup_lt_Some in Hi. apply elem_of_seq. lia.
Qed.

Lemma step1_ok :
  ∃ a m, process_search_result_step1 R (sr_top <$> S) F = Ok (a, m) ∧ batches_ok first_results a ∧ no_empty m ∧
    ∀ i b, marked m i b ↔ rerun a i b.
Proof using Hwf Hok Htop Hdisj Htab.
  unfold process_search_result_step1. destruct (batch_aggregator_new_ok (Er:=CollectionError)) as (a0 & -> & Ha0).
  cbn [mbind result_bind]. rewrite length_fmap.
  destruct (merge_results_ok (update_point_versions R a0)) as (st & -> & Hb & Hcells).
  { destruct Ha0 as (Hpv & Hrest). split; [|done]. apply update_point_versions_ok; [done|].
    intros row q p Hrow Hq Hp. apply list_elem_of_lookup in Hrow as [i Hi], Hq as [b Hq].
    assert (mat_at R i b = Some q) as Hat by (unfold mat_at; by rewrite Hi). pose proof Htab as (_ & _ & Hdim).
    destruct (Hdim i b q Hat) as [_ [r Hr]]. apply (table_hits i b q r Hat Hr), elem_of_all_hits in Hp as (j & s & Hs & Hp).
    exists s, r. split_and!; [by eapply list_elem_of_lookup_2..|done]. }
  cbn [mbind result_bind].
  edestruct (res_fold_inv (rerun_batch st F (length R))
    (λ P m, no_empty m ∧ ∀ i b, marked m i b ↔ ∃ limit, (b, limit) ∈ P ∧ rerun (ss_aggregator st) i b) (enumerate (sr_top <$> S)) ∅)
    as (m & -> & Hemp & Hm).
  - split; [by intros i bs; rewrite lookup_empty|]. intros i b. split; [|by intros (? & ?%not_elem_of_nil & _)]. intros (bs & Hl & _). by rewrite lookup_empty in Hl.
  - intros P [b limit] m Hin [Hemp Hm]. apply elem_of_enumerate in Hin. rewrite list_lookup_fmap in Hin.
    destruct (S !! b) as [r|] eqn:Hr; [|done]. injection Hin as <-.
    destruct (rerun_batch_ok first_results st b r m Hb Hr Hcells) as (m' & -> & Hemp' & Hm'). exists m'. split; [done|]. split; [auto|].
    intros i' b'. rewrite Hm', Hm. setoid_rewrite elem_of_app. setoid_rewrite list_elem_of_singleton. split.
    + intros [(limit & ? & ?)|[-> ?]]; eauto.
    + intros (limit & [?|[= -> ->]] & ?); eauto.
  - cbn. exists (ss_aggregator st), m. split_and!; [done..|]. intros i b. rewrite Hm. split; [by intros (_ & _ & ?)|].
    intros Hre. pose proof Hre as (r & _ & _ & _ & Hr & _). exists (sr_top r). split; [|done]. apply elem_of_enumerate.
    by rewrite list_lookup_fmap, Hr.
Qed.
End first_step.

(** ** The second step *)

Lemma execute_searches_ok tasks (xs : list (list (list Scored) * list bool)) :
  Forall2 (λ t x, t = Ok x) tasks xs → execute_searches join_error tasks = Ok (xs.*1, xs.*2).
Proof using.
  intros Hall. unfold execute_searches.
  assert (existsb (λ r, match r with Panic => true | _ => false end) tasks = false ∧ res_map id tasks = Ok xs) as [-> ->]; [|done].
  induction Hall as [|t x tasks xs -> _ [IH1 IH2]]; [done|]. cbn. rewrite IH1, IH2. done.
Qed.

(** The answers of a segment to some of the requests. *)
Definition second_row (s : E) (bs : list nat) (rows : list (list Scored)) : Prop :=
  Forall2 (λ b q, ∃ r, S !! b = Some r ∧ selects leb (sr_top r) (request_hits s r) q) bs rows.

Lemma second_search s bs :
  s ∈ segs → (∀ b, b ∈ bs → is_Some (S !! b)) →
  ∃ sub rows further, res_map (vec_get (E:=CollectionError) S) bs = Ok sub ∧
    search_in_segment display_id s sub 0 false = Ok (rows, further) ∧ second_row s bs rows.
Proof using Hwf Hok Htop Hfaith.
  intros Hs Hbs. destruct (res_map_Forall2 (vec_get (E:=CollectionError) S) (λ b r, S !! b = Some r) bs) as (sub & -> & Hsub).
  { intros b [r Hr]%Hbs. exists r. unfold vec_get. by rewrite Hr. }
  assert (∀ r, r ∈ sub → r ∈ S) as Hin.
  { intros r Hr. apply list_elem_of_lookup in Hr as [k Hk]. destruct (Forall2_lookup_r _ _ _ _ _ Hsub Hk) as (b & _ & Hb).
    by eapply list_elem_of_lookup_2. }
  destruct (search_in_segment_ok display_id s 0 false sub) as (rows & further & Hrun & Hall).
  { by apply Hwf. }
  { intros r Hr. apply Hok; auto. }
  { intros r Hr. split; [by apply Htop, Hin|]. by eexists. }
  { intros r r' Hr Hr'. apply Hfaith; auto. }
  exists sub, rows, further. split_and!; [done..|]. unfold second_row. clear Hrun Hbs Hin. revert rows further Hall.
  induction Hsub as [|b r bs sub Hb _ IH]; intros rows further Hall; inversion Hall as [|? q ? ? ? ? Hrow Hall']; subst; constructor.
  - destruct Hrow as (top & [= <-] & Hsel & _). eauto.
  - by eapply IH.
Qed.

Definition second_cells (rr : list (nat * list nat)) (rowss : list (list (list Scored))) :
    list (((nat * list nat) * list (list Scored)) * (nat * list Scored)) :=
  x ← zip rr rowss; pair x <$> zip x.1.2 x.2.

Lemma merge_secondary_ok X a rr rowss :
  batches_ok X a → Forall2 (λ t rows, ∃ s, segs !! t.1 = Some s ∧ second_row s t.2 rows) rr rowss →
  ∃ a' Y, merge_secondary rr rowss a = Ok a' ∧ batches_ok Y a' ∧ (∀ b p, p ∈ X b → p ∈ Y b) ∧
    ∀ t b s r, t ∈ rr → b ∈ t.2 → segs !! t.1 = Some s → S !! b = Some r →
      ∃ q, selects leb (sr_top r) (request_hits s r) q ∧ ∀ p, p ∈ q → p ∈ Y b.
Proof using Hwf Hok Htop Hdisj.
  intros Ha Hrr. unfold merge_secondary.
  rewrite (res_fold_nested (λ _ q, update_batch_results q.1 q.2) (λ p, zip p.1.2 p.2)). fold (second_cells rr rowss).
  assert (∀ c, c ∈ second_cells rr rowss → ∃ s r, segs !! c.1.1.1 = Some s ∧ S !! c.2.1 = Some r ∧
    selects leb (sr_top r) (request_hits s r) c.2.2) as Hcell.
  { intros [[t rows] [b q]] (x & Hx & Hz)%list_elem_of_bind. apply list_elem_of_fmap in Hx as (y & [= <- <-] & Hy).
    apply list_elem_of_lookup in Hz as [k Hz], Hy as [j Hy]. apply lookup_zip_with_Some in Hz as (? & ? & [= <- <-] & Ht & Hrows).
    apply lookup_zip_with_Some in Hy as (? & ? & [= <- <-] & Hb & Hq). cbn in *.
    destruct (Forall2_lookup_lr _ _ _ _ _ _ Hrr Ht Hrows) as (s & Hs & Hrow).
    destruct (Forall2_lookup_lr _ _ _ _ _ _ Hrow Hb Hq) as (r & Hr & Hsel). eauto. }
  set (Y := λ (P : list (((nat * list nat) * list (list Scored)) * (nat * list Scored))) (b : nat),
    X b ++ (c ← P; if decide (c.2.1 = b) then c.2.2 else [])).
  edestruct (res_fold_inv (λ c, update_batch_results (E:=CollectionError) c.2.1 c.2.2) (λ P, batches_ok (Y P)) (second_cells rr rowss) a)
    as (a' & Ha' & HY).
  { eapply batches_ok_set; [|done]. intros b p. unfold Y. cbn. by rewrite app_nil_r. }
  { intros P c a1 Hc Ha1. destruct (Hcell c Hc) as (s & r & Hs & Hr & Hsel).
    destruct (update_batch_results_ok (Er:=CollectionError) (Y P) a1 c.2.1 r c.2.2) as (a2 & -> & Ha2); [done|done|..].
    - intros p Hp. apply elem_of_all_hits. exists c.1.1.1, s. split; [done|]. by eapply selects_sub.
    - exists a2. split; [done|]. eapply batches_ok_set; [|done]. intros b p. unfold Y. rewrite bind_app, !elem_of_app. cbn.
      rewrite app_nil_r. destruct (decide (c.2.1 = b)) as [->|].
      + rewrite decide_True by done. rewrite !elem_of_app. tauto.
      + rewrite decide_False by done. rewrite elem_of_app. pose proof (not_elem_of_nil p). tauto. }
  exists a', (Y (second_cells rr rowss)). split_and!; [done|done|..].
  - intros b p Hp. apply elem_of_app. by left.
  - intros t b s r Ht Hb Hs Hr. apply list_elem_of_lookup in Ht as [k Ht], Hb as [j Hb].
    destruct (Forall2_lookup_l _ _ _ _ _ Hrr Ht) as (rows & Hrows & s' & Hs' & Hrow). simplify_eq.
    destruct (Forall2_lookup_l _ _ _ _ _ Hrow Hb) as (q & Hq & r' & Hr' & Hsel). simplify_eq.
    exists q. split; [done|]. intros p Hp. apply elem_of_app. right. apply list_elem_of_bind.
    exists ((t, rows), (b, q)). cbn. rewrite decide_True by done. split; [done|]. apply list_elem_of_bind.
    exists (t, rows). split; [|apply list_elem_of_lookup; exists k; apply lookup_zip_with_Some; eauto].
    apply list_elem_of_fmap. exists (b, q). split; [done|]. apply list_elem_of_lookup. exists j.
    apply lookup_zip_with_Some. eauto.
Qed.

Lemma second_row_hits s bs rows : s ∈ segs → second_row s bs rows → ∀ q p, q ∈ rows → p ∈ q → is_hit p.
Proof using.
  intros Hs Hrow q p Hq Hp. apply list_elem_of_lookup in Hq as [k Hq].
  destruct (Forall2_lookup_r _ _ _ _ _ Hrow Hq) as (b & _ & r & Hr & Hsel). exists s, r.
  split_and!; [done|by eapply list_elem_of_lookup_2|by eapply selects_sub].
Qed.

Lemma rerun_searches_ok X a m :
  batches_ok X a → (∀ i b, marked m i b → is_Some (segs !! i) ∧ is_Some (S !! b)) → no_empty m →
  ∃ a' Y, rerun_searches display_id join_error segs S m a = Ok a' ∧ batches_ok Y a' ∧ (∀ b p, p ∈ X b → p ∈ Y b) ∧
    ∀ i b s r, marked m i b → segs !! i = Some s → S !! b = Some r →
      ∃ q, selects leb (sr_top r) (request_hits s r) q ∧ ∀ p, p ∈ q → p ∈ Y b.
Proof using Hwf Hok Htop Hfaith Hdisj.
  intros Ha Hm Hne. unfold rerun_searches. destruct (decide (m = ∅)) as [->|_].
  { exists a, X. split_and!; [done..|]. intros i b s r (bs & Hl & _). by rewrite lookup_empty in Hl. }
  destruct (res_map_Forall2 (λ r,
    segment ← vec_get (E:=CollectionError) segs r.1;
    partial_batch_request ← res_map (vec_get S) r.2;
    Ok (search_in_segment display_id segment partial_batch_request 0 false))
    (λ t task, ∃ s rows further, segs !! t.1 = Some s ∧ task = Ok (rows, further) ∧ second_row s t.2 rows) (map_to_list m))
    as (tasks & Htasks & Hall).
  { intros [i bs] Hin%elem_of_map_to_list. destruct bs as [|b bs]; [by apply Hne in Hin|].
    destruct (Hm i b) as [[s Hs] _]; [exists (b :: bs); split; [done|left]|].
    destruct (second_search s (b :: bs)) as (sub & rows & further & Hsub & Hrun & Hrow); [by eapply list_elem_of_lookup_2| |].
    { intros b' Hb'. apply (Hm i). by exists (b :: bs). }
    eexists. assert (vec_get (E:=CollectionError) segs i = Ok s) as Hget by (unfold vec_get; by rewrite Hs).
    cbn [fst snd]. rewrite Hget. cbn [mbind result_bind]. rewrite Hsub. cbn [mbind result_bind].
    split; [done|]. exists s, rows, further. done. }
  unfold secondary_searches. rewrite Htasks. cbn [mbind result_bind].
  assert (∃ xs : list (list (list Scored) * list bool), Forall2 (λ t x, t = Ok x) tasks xs ∧
    Forall2 (λ t rows, ∃ s, segs !! t.1 = Some s ∧ second_row s t.2 rows) (map_to_list m) xs.*1) as (xs & Hxs & Hrows).
  { clear Htasks. induction Hall as [|t task ts tasks (s & rows & further & Hs & -> & Hrow) _ (xs & IH1 & IH2)].
    - exists []. by split; constructor.
    - exists ((rows, further) :: xs). split; constructor; eauto. }
  rewrite (execute_searches_ok _ _ Hxs). cbn [mbind result_bind fst].
  destruct (merge_secondary_ok X (update_point_versions xs.*1 a) (map_to_list m) xs.*1) as (a' & Y & -> & HY & HXY & Hq); [|done|].
  { destruct Ha as (Hpv & Hrest). split; [|done]. apply update_point_versions_ok; [done|]. intros rows q p Hr.
    apply list_elem_of_lookup in Hr as [k Hr]. destruct (Forall2_lookup_r _ _ _ _ _ Hrows Hr) as (t & _ & s & Hs & Hrow).
    eapply second_row_hits; [by eapply list_elem_of_lookup_2|done]. }
  exists a', Y. split_and!; [done..|]. intros i b s r (bs & Hbs & Hb) Hs Hr.
  by apply (Hq (i, bs) b s r); [apply elem_of_map_to_list|..].
Qed.

(** ** Both steps *)

Lemma selects_NoDup n (l kept : list Scored) : selects leb n l kept → NoDup l → NoDup kept.
Proof using. intros (_ & d & Hp & _) Hnd. rewrite Hp in Hnd. by apply NoDup_app in Hnd as [? _]. Qed.

(** The queue of a request holds the best of all hits. *)
Lemma query_exact R F total sampling a Y b r g g' :
  table_ok R F total sampling →
  (∀ s r, s ∈ segs → r ∈ S → batch_top s total sampling (request_params r) = Ok 0 → request_hits s r = []) →
  batches_ok (first_results R) a → (∀ p, p ∈ first_results R b → p ∈ Y) →
  S !! b = Some r → batch_aggregators a !! b = Some g → agg_ok (sr_top r) Y g' → (∀ p, p ∈ Y → p ∈ all_hits r) →
  (∀ i s, rerun R F a i b → segs !! i = Some s →
    ∃ q, selects leb (sr_top r) (request_hits s r) q ∧ ∀ p, p ∈ q → p ∈ Y) →
  selects leb (sr_top r) (all_hits r) (heap (agg_queue g')).
Proof using Hwf Hok Htop Hdisj Hnan.
  intros (_ & Hrow & _) Hzero (_ & _ & Hb) HXY Hr Hg (l & Hnd & HY & _ & _ & _ & Hsel) Hsub Hre.
  pose proof (list_elem_of_lookup_2 _ _ _ Hr) as HrS. destruct (Hb b r Hr) as (HX & g1 & Hg1 & Hagg). simplify_eq.
  apply (selects_universe leb scored_point_leb_trans _ _ l); [by apply NoDup_all_hits|by apply NoDup_fmap_1 in Hnd| |done|].
  { intros p Hp%HY. auto. }
  intros p (i & s & Hs & Hp)%elem_of_all_hits Hpl. pose proof (list_elem_of_lookup_2 _ _ _ Hs) as Hss.
  destruct (request_hits_points s r Hss HrS) as [Hndh%NoDup_fmap_1 _].
  destruct (Hrow i s b r Hs Hr) as (q & f & Hq & Hf & top & Htp & Hqs & ->).
  assert (∀ x, x ∈ q → x ∈ first_results R b) as HqX by (intros x Hx; apply elem_of_first_results; eauto).
  assert (p ∉ q) as Hpq by (intros Hin; by apply Hpl, HY, HXY, HqX).
  destruct (rerun_test (sp_score <$> aggregator_lowest g) (sr_top r) q (bool_decide (length q = top))) eqn:Ht.
  - destruct (Hre i s) as (q2 & Hq2 & HqY); [by exists r, q, (bool_decide (length q = top)), g|done|].
    assert (p ∉ q2) as Hp2 by (intros Hin; by apply Hpl, HY, HqY).
    destruct (selects_left_out leb _ _ _ p Hq2 Hp Hp2) as [Hlen Hbelow]. exists q2. split_and!.
    + by eapply selects_NoDup.
    + intros x Hx. split; [by apply HY, HqY|by apply Hbelow].
    + by rewrite Hlen.
  - destruct (rerun_covers (sr_top r) (first_results R b) g (request_hits s r) q top p) as (A & HA & Hin & Hn); try done.
    + by apply Htop.
    + intros x (j & t & Hj & Hx)%HX%elem_of_all_hits. eapply Hnan; [by eapply list_elem_of_lookup_2|done|done].
    + by eapply selects_NoDup.
    + intros ->. by apply Hzero.
    + exists A. split_and!; [done| |done]. intros x [HxX Hx]%Hin. split; [by apply HY, HXY|done].
Qed.

(** The answers of all segments make a table. *)
Lemma execute_first total sampling :
  (∀ s r, s ∈ segs → r ∈ S → ∃ top, batch_top s total sampling (request_params r) = Ok top) →
  ∃ R F, execute_searches join_error ((λ s, search_in_segment display_id s S total sampling) <$> segs) = Ok (R, F) ∧
    table_ok R F total sampling.
Proof using Hwf Hok Htop Hfaith.
  intros Htops. assert (∃ xs, Forall2 (λ t x, t = Ok x) ((λ s, search_in_segment display_id s S total sampling) <$> segs) xs ∧
    Forall2 (λ s x, Forall3 (row_ok s total sampling) S x.1 x.2) segs xs) as (xs & Hxs & Hall).
  { assert (∀ s, s ∈ segs → ∃ x, search_in_segment display_id s S total sampling = Ok x ∧
      Forall3 (row_ok s total sampling) S x.1 x.2) as Hseg.
    { intros s Hs. destruct (search_in_segment_ok display_id s total sampling S) as (rows & fs & Hrun & Hall);
        [by apply Hwf|by intros r; apply Hok|by intros r Hr; split; [apply Htop|apply Htops]|done|]. by exists (rows, fs). }
    clear -Hseg. induction segs as [|s l IH]; [exists []; by split; constructor|].
    destruct (Hseg s) as (x & Hx & Hrow); [left|]. destruct IH as (xs & H1 & H2); [by intros t Ht; apply Hseg; right|].
    exists (x :: xs). split; by constructor. }
  exists xs.*1, xs.*2. split; [by apply execute_searches_ok|]. split_and!.
  - rewrite length_fmap. symmetry. by eapply Forall2_length.
  - intros i s b r Hs Hr. destruct (Forall2_lookup_l _ _ _ _ _ Hall Hs) as (x & Hx & Hrows).
    destruct (Forall3_lookup_l _ _ _ _ _ _ Hrows Hr) as (q & f & Hq & Hf & Hrow). exists q, f.
    unfold mat_at. rewrite !list_lookup_fmap, Hx. done.
  - intros i b q Hq. unfold mat_at in Hq. rewrite list_lookup_fmap in Hq. destruct (xs !! i) as [x|] eqn:Hx; [|done].
    destruct (Forall2_lookup_r _ _ _ _ _ Hall Hx) as (s & Hs & Hrows).
    destruct (Forall3_lookup_m _ _ _ _ _ _ Hrows Hq) as (r & f & Hr & _). eauto.
Qed.
End merge.
