(* ===== verification/Samples.v ===== *)
(** * Sample segments

    Concrete segments and the instances they need, for the theorems on holders
    of segments to be applied to.  [Import SampleInstances] turns the
    instances on. *)

From stdpp Require Import base gmap strings list sorting.
From Stdlib Require Import ZArith Lia SpecFloat.
From S2P Require Import Prelude Types Rocks IdTracker NamedVectors VectorStorage Text Filters Estimator TopK.
From S2P Require Import PayloadStorage FieldIndex FieldIndexEnum FieldIndexLaws Spaces QueryOptimizer.
From S2P Require Import StructPayloadIndex PayloadIndexSpec PayloadIndexLaws Segment PlainIndex SegmentSpec SegmentEntry.

Module SampleInstances.
#[export] Existing Instance integer_numbers.
#[export] Existing Instance flat_geo.
#[export] Existing Instance no_simd.
#[export] Existing Instance no_simd_laws.
#[export] Existing Instance match_only_single.
#[export] Existing Instance idle_index_ops.
#[export] Existing Instance idle_values.
#[export] Existing Instance idle_text.
#[export] Existing Instance idle_int.
#[export] Existing Instance idle_float.
#[export] Existing Instance idle_geo.
#[export] Existing Instance idle_full_text.
#[export] Existing Instance sample_vectors.
#[export] Existing Instance sample_vectors_laws.
#[export] Existing Instance sample_index.
#[export] Existing Instance sample_index_laws.

#[export] Instance sample_entry : SegmentEntry Z unit SampleSeg :=
  segment_entry no_display "segment" (λ _, Ok tt) (λ _, Ok tt).
#[export] Instance sample_entry_laws : SegmentEntryLaws Z unit SampleSeg :=
  segment_entry_laws no_display "segment" (λ _, Ok tt) (λ _, Ok tt).
#[export] Instance sample_iterable : IterableEntry Z unit SampleSeg :=
  segment_iterable no_display "segment" (λ _, Ok tt) (λ _, Ok tt).
End SampleInstances.

Import SampleInstances.

(** A segment that takes no new points. *)
Definition frozen (s : SampleSeg) : SampleSeg :=
  mkSegment (seg_version s) (seg_persisted_version s) (seg_id_tracker s) (seg_vector_data s) (seg_payload_index s)
    false (seg_type s) (seg_config s) (seg_error_status s) (seg_flush_thread s) (seg_durable s).

Lemma frozen_wf (s : SampleSeg) : seg_wf s → seg_wf (frozen s).
Proof. done. Qed.

Definition frozen_segment : SampleSeg := frozen sample_segment.

Lemma frozen_segment_wf : seg_wf frozen_segment.
Proof. apply frozen_wf, sample_segment_wf. Qed.

(** The only ids the sample segments have. *)
Definition sample_ids : list PointIdType := [NumId 7; Uuid 5].

Lemma sample_points (s : SampleSeg) (l : list PointIdType) e :
  seg_wf s → iter_points s = l → is_Some (abs_point s e) → e ∈ l.
Proof.
  intros Hwf <- Hpt. apply elem_of_iter_points; [done|]. destruct Hpt as [pt Hpt].
  unfold abs_point, core_point in Hpt. destruct (internal_id _ e); [eauto|done].
Qed.

Lemma frozen_points e : is_Some (abs_point frozen_segment e) → e ∈ sample_ids.
Proof. intros Hpt. apply (sample_points frozen_segment); [apply frozen_segment_wf|vm_compute; reflexivity|done]. Qed.

Lemma empty_points e : abs_point empty_segment e = None.
Proof.
  destruct (abs_point empty_segment e) eqn:He; [|done]. exfalso. apply (not_elem_of_nil e).
  apply (sample_points empty_segment); [apply empty_segment_wf|vm_compute; reflexivity|eauto].
Qed.
