(* ===== verification/SearchAll.v ===== *)
(** * The search over all segments

    The search of a shard returns the best of the points of all its segments,
    whether the segments are sampled or not, for segments that search exactly;
    segments with a plain index do. *)

From stdpp Require Import base gmap strings list sorting.
From Stdlib Require Import ZArith SpecFloat Lia.
From S2P Require Import Prelude Types Rocks IdTracker NamedVectors VectorStorage Text Filters Estimator TopK Spaces.
From S2P Require Import PayloadStorage FieldIndex FieldIndexEnum FieldIndexLaws QueryOptimizer.
From S2P Require Import StructPayloadIndex PayloadIndexSpec PayloadIndexLaws Segment PlainIndex SegmentSpec SearchSpec.
From S2P Require Import SegmentEntry SegmentHolder Samples Requests SearchAggregator SegmentsSearcher SearcherSpec SearchMerge.

Section search_all.
Context {Num E : Type} `{!SegmentEntry Num SearchParams E, !ExactSearch Num E}.
Context (display_id : PointIdType → string) (join_error : string).
Abbreviation Holder := (SegmentHolder E).
Abbreviation Scored := (ScoredPoint Num).
Abbreviation leb := (scored_point_leb (Num:=Num)).

Definition holder_segments (h : Holder) : list E := (map_to_list (segments h)).*2.

Lemma elem_of_holder_segments (h : Holder) s : s ∈ holder_segments h ↔ ∃ i, segments h !! i = Some s.
Proof.
  unfold holder_segments. rewrite list_elem_of_fmap. split.
  - intros ([i t] & -> & Hi%elem_of_map_to_list). eauto.
  - intros [i Hi]. exists (i, s). split; [done|]. by apply elem_of_map_to_list.
Qed.

Lemma holder_segments_index (h : Holder) k s :
  holder_segments h !! k = Some s → ∃ i, map_to_list (segments h) !! k = Some (i, s) ∧ segments h !! i = Some s.
Proof.
  unfold holder_segments. rewrite list_lookup_fmap. destruct (map_to_list (segments h) !! k) as [[i t]|] eqn:Hk; [|done].
  intros [= <-]. exists i. split; [done|]. apply elem_of_map_to_list. by eapply list_elem_of_lookup_2.
Qed.

(** Each point is in one segment. *)
Definition one_home (h : Holder) : Prop :=
  ∀ i j s t e, segments h !! i = Some s → segments h !! j = Some t →
    se_has_point s e = true → se_has_point t e = true → i = j.

Lemma sum_points_le (l : list E) s : s ∈ l → se_points_count s ≤ sum_list_with se_points_count l.
Proof. induction l as [|t l IH]; [by intros ?%not_elem_of_nil|]. intros [->|Hs]%elem_of_cons; cbn; [lia|]. specialize (IH Hs). lia. Qed.

(** The number of results asked of a segment. *)
Lemma batch_top_ok s total sampling r :
  (0 < sr_top r) → (N.of_nat (sr_top r) ≤ u64_max)%N → (N.of_nat total ≤ u64_max)%N → se_points_count s ≤ total →
  (sampling = true → 0 < total) →
  ∃ top, batch_top s total sampling (request_params r) = Ok top ∧ (top = 0 → se_points_count s = 0).
Proof.
  intros Hpos Hmax Htot Hle Hsamp. unfold batch_top. destruct sampling; [|exists (sr_top r); split; [done|lia]].
  specialize (Hsamp eq_refl). set (ef := match _ with Some ef => Some ef | None => _ end).
  destruct (sampling_limit_ok (E:=CollectionError) (N.of_nat (sr_top r)) ef (N.of_nat (se_points_count s)) (N.of_nat total))
    as (n & Hn & Hn0); [lia..|]. cbn [bsp_top request_params]. rewrite Hn. cbn. exists (N.to_nat n). split; [done|]. lia.
Qed.

Lemma searcher_search_exact (h : Holder) (searches : list SearchRequest) (sampling_enabled : bool)
  (Hne : segments h ≠ ∅)
  (Hwf : ∀ s, s ∈ holder_segments h → search_wf s)
  (Hok : ∀ s r, s ∈ holder_segments h → r ∈ searches → request_ok s r)
  (Htop : ∀ r, r ∈ searches → 0 < sr_top r ∧ (N.of_nat (sr_top r) ≤ u64_max)%N)
  (Hfaith : params_faithful searches) (Hhome : one_home h)
  (Hnan : ∀ s r p, s ∈ holder_segments h → r ∈ searches → p ∈ request_hits s r → not_nan p)
  (Htotal : (N.of_nat (sum_list_with se_points_count (holder_segments h)) ≤ u64_max)%N) :
  ∃ results, searcher_search display_id join_error h searches sampling_enabled = Ok results ∧
    Forall2 (λ r res, StronglySorted (λ a b, leb b a = true) res ∧
      selects leb (sr_top r) (all_hits (holder_segments h) r) res) searches results.
Proof.
  set (segs := holder_segments h) in *. set (total := sum_list_with se_points_count segs) in *.
  set (sampling := sampling_enabled && (1 <? length segs) && (0 <? total)).
  assert (∀ r, r ∈ searches → 0 < sr_top r) as Hpos by (intros r Hr; by apply Htop).
  assert (∀ i j s t e, segs !! i = Some s → segs !! j = Some t → se_has_point s e = true → se_has_point t e = true → i = j) as Hdisj.
  { intros i j s t e (k & Hk & Hs)%holder_segments_index (k' & Hk' & Ht)%holder_segments_index Hes Het.
    pose proof (Hhome k k' s t e Hs Ht Hes Het) as <-. eapply NoDup_lookup; [apply (NoDup_fst_map_to_list (segments h))|..];
      rewrite list_lookup_fmap; [by rewrite Hk|by rewrite Hk']. }
  assert (∀ s r, s ∈ segs → r ∈ searches → ∃ top, batch_top s total sampling (request_params r) = Ok top ∧
    (top = 0 → se_points_count s = 0)) as Htops.
  { intros s r Hs Hr. destruct (Htop r Hr). apply batch_top_ok; [done|done|done|by apply sum_points_le|].
    intros [_ ?%Nat.ltb_lt]%andb_true_iff. done. }
  destruct (execute_first display_id join_error segs searches Hwf Hok Hpos Hfaith total sampling) as (R & F & Hexec & Htab).
  { intros s r Hs Hr. destruct (Htops s r Hs Hr) as (top & ? & _). eauto. }
  destruct (step1_ok segs searches Hwf Hok Hpos Hdisj R F total sampling Htab) as (a & m & Hstep & Ha & Hemp & Hm).
  destruct (rerun_searches_ok display_id join_error segs searches Hwf Hok Hpos Hfaith Hdisj (first_results R) a m)
    as (a' & Y & Hrerun & HY & HXY & Hq); [done| |done|].
  { intros i b (r & q & f & g & Hr & Hat & _)%Hm. destruct Htab as (_ & _ & Hdim). by eapply Hdim. }
  exists (into_topk a'). split.
  - unfold searcher_search. fold (holder_segments h). fold segs. rewrite decide_False.
    2: { intros Hnil. apply Hne, map_to_list_empty_iff. unfold segs, holder_segments in Hnil. by apply fmap_nil_inv in Hnil. }
    fold total. fold sampling. rewrite Hexec. cbn [mbind result_bind]. rewrite Hstep. cbn [mbind result_bind].
    by rewrite Hrerun.
  - unfold into_topk. apply Forall2_fmap_r, Forall2_same_length_lookup_2; [by destruct HY as (_ & ? & _)|].
    intros b r g' Hr Hg'. destruct HY as (_ & _ & HYb). destruct (HYb b r Hr) as (Hsub & g2 & Hg2 & Hagg). simplify_eq.
    pose proof Ha as (_ & _ & Hab). destruct (Hab b r Hr) as (_ & g & Hg & _).
    unfold aggregator_into_vec, queue_into_vec. split.
    + destruct Hagg as (l & _ & _ & _ & _ & Hs & _). by apply StronglySorted_rev in Hs.
    + eapply selects_perm; [reflexivity|apply Permutation_rev|].
      eapply (query_exact segs searches Hwf Hok Hpos Hdisj Hnan R F total sampling a (Y b) b r g g'); try done.
      * intros s r' Hs Hr' Hz. destruct (Htops s r' Hs Hr') as (top & Ht & H0). rewrite Hz in Ht. injection Ht as <-.
        apply hits_counted; [by apply Hwf|by apply Hok|by apply H0].
      * intros p. apply HXY.
      * intros i s Hre Hs. apply (Hq i b s r); [by apply Hm|done|done].
Qed.
(** C8: searching the segments of a shard gives every request the best of the
    points of all segments that match it: as many as it asks for (all of
    them, if there are fewer), best first, with nothing left out that scores
    better, whether or not the segments were sampled.  Assumed: the segments
    search exactly, no point is in two segments, and no score is NaN; there is
    a segment, and each request asks for at least one point (its limit and
    offset are not both zero).  Requests of a batch with equal parameters have
    the same ones: no two of their filters differ in the sign of a zero. *)
Theorem sampled_search_exact (h : Holder) (searches : list SearchRequest) (sampling_enabled : bool)
  (Hne : segments h ≠ ∅)
  (Hwf : ∀ s, s ∈ holder_segments h → search_wf s)
  (Hok : ∀ s r, s ∈ holder_segments h → r ∈ searches → request_ok s r)
  (Htop : ∀ r, r ∈ searches → 0 < sr_top r ∧ (N.of_nat (sr_top r) ≤ u64_max)%N)
  (Hfaith : params_faithful searches) (Hhome : one_home h)
  (Hnan : ∀ s r p, s ∈ holder_segments h → r ∈ searches → p ∈ request_hits s r → not_nan p)
  (Htotal : (N.of_nat (sum_list_with se_points_count (holder_segments h)) ≤ u64_max)%N) :
  ∃ results, searcher_search display_id join_error h searches sampling_enabled = Ok results ∧
    Forall2 (λ r res, StronglySorted (λ a b, leb b a = true) res ∧
      selects leb (sr_top r) (all_hits (holder_segments h) r) res) searches results.
Proof. by apply searcher_search_exact. Qed.
End search_all.

(** ** Segments with a plain index *)

Lemma selects_fmap {A B} (leb : A → A → bool) (leb' : B → B → bool) (f : A → B) n l kept :
  (∀ x y, leb' (f x) (f y) = leb x y) → selects leb n l kept → selects leb' n (f <$> l) (f <$> kept).
Proof.
  intros Hf (Hlen & d & Hp & Hle). split; [by rewrite !length_fmap|]. exists (f <$> d). split; [by rewrite Hp, fmap_app|].
  intros x y (a & -> & Ha)%list_elem_of_fmap (b & -> & Hb)%list_elem_of_fmap. rewrite Hf. auto.
Qed.

Section plain_exact.
Context {Num T VS PI : Type} `{!JsonNumber Num} {HG : GeoOps} {HS : Simd}.
Context `{!IdTracker T, !IdTrackerLaws T} `{!VectorStorage VS, !VectorStorageLaws VS}.
Context `{!PayloadIndex Num T PI, !PayloadIndexLaws Num T PI}.
Context (display_id : PointIdType → string) (segment_path : string)
  (outcome background : FlushStep → OperationResult unit).
Abbreviation Seg := (Segment T PlainIndex VS PI).
#[local] Existing Instance plain_index.
#[local] Instance plain_entry : SegmentEntry Num SearchParams Seg :=
  segment_entry display_id segment_path outcome background.

Definition plain_query_ok (s : Seg) (q : BatchSearchParams) (v : VectorType) : Prop :=
  ∃ cfg, seg_cfgs s !! bsp_vector_name q = Some cfg ∧ length v = vdc_size cfg ∧
    map_or true pi_filter_ok (bsp_filter q) = true ∧ bsp_with_vector q = WVBool false.

Definition plain_hits (s : Seg) (q : BatchSearchParams) (v : VectorType) : list (ScoredPoint Num) :=
  match seg_cfgs s !! bsp_vector_name q, seg_vector_data s !! bsp_vector_name q with
  | Some cfg, Some vd =>
      result_point s (bsp_with_payload q) <$> (scored_offset cfg vd v <$> candidates s vd (bsp_filter q))
  | _, _ => []
  end.

(** The data of a query that is accepted. *)
Lemma plain_query_data (s : Seg) q v :
  seg_wf s → plain_query_ok s q v → ∃ cfg vd, seg_cfgs s !! bsp_vector_name q = Some cfg ∧
    seg_vector_data s !! bsp_vector_name q = Some vd ∧ length v = vdc_size cfg ∧
    map_or true pi_filter_ok (bsp_filter q) = true ∧ bsp_with_vector q = WVBool false ∧
    plain_hits s q v = result_point s (bsp_with_payload q) <$> (scored_offset cfg vd v <$> candidates s vd (bsp_filter q)).
Proof.
  intros Hwf (cfg & Hcfg & Hlen & Hok & Hwv). destruct (proj1 (core_names _ _ _ _ (bsp_vector_name q) Hwf)) as [vd Hvd]; [eauto|].
  exists cfg, vd. split_and!; [done..|]. unfold plain_hits. by rewrite Hcfg, Hvd.
Qed.

Lemma candidates_live (s : Seg) name cfg vd filter i :
  seg_wf s → seg_cfgs s !! name = Some cfg → seg_vector_data s !! name = Some vd →
  map_or true pi_filter_ok filter = true → i ∈ candidates s vd filter → is_Some (external_id (seg_id_tracker s) i).
Proof.
  intros Hwf Hcfg Hvd Hok Hi. destruct (candidates_spec s name cfg vd filter Hwf Hcfg Hvd Hok) as [_ Hin].
  by apply Hin in Hi as [? _].
Qed.

Lemma plain_batch_exact (s : Seg) q vectors top :
  seg_wf s → vectors ≠ [] → Forall (plain_query_ok s q) vectors →
  ∃ res, search_batch display_id s (bsp_vector_name q) vectors (bsp_with_payload q) (bsp_with_vector q) (bsp_filter q) top
           (bsp_params q) = Ok res ∧
    Forall2 (λ v r, selects scored_point_leb top (plain_hits s q v) r) vectors res.
Proof.
  intros Hwf Hne Hall. destruct vectors as [|v0 vs]; [done|]. pose proof Hall as [Hq0 _]%Forall_cons.
  destruct (plain_query_data s q v0 Hwf Hq0) as (cfg & vd & Hcfg & Hvd & _ & Hok & Hwv & _). revert Hall. generalize (v0 :: vs) as l. intros l Hall.
  rewrite Forall_forall in Hall.
  unfold search_batch, check_vector_name, map_get. rewrite Hwv. pose proof Hcfg as Hcfg'. unfold seg_cfgs in Hcfg'.
  rewrite Hcfg', Hvd. cbn [mbind result_bind unwrap].
  destruct (storage_ok s _ cfg vd Hwf Hcfg Hvd) as (_ & Hdim & _).
  rewrite (res_map_Ok _ (λ _, tt)).
  2: { intros v Hv. destruct (plain_query_data s q v Hwf (Hall v Hv)) as (cfg1 & vd1 & Hc1 & _ & Hlen & _). simplify_eq.
    rewrite decide_False; [done|]. intros Hneq. apply Hneq. by rewrite Hlen, Hdim. }
  cbn [mbind result_bind]. rewrite (plain_search_batch s _ cfg) by done.
  destruct (res_map_Forall2 (λ query, peek_top_largest_iterable (E:=OperationError) scored_leb
    (scored_offset cfg vd query <$> candidates s vd (bsp_filter q)) top)
    (λ v kept, v ∈ l ∧ selects scored_leb top (scored_offset cfg vd v <$> candidates s vd (bsp_filter q)) kept) l) as (kepts & -> & Hk).
  { intros v Hv. destruct (peek_top_largest_selects scored_leb scored_leb_total scored_leb_trans (E:=OperationError)
      (scored_offset cfg vd v <$> candidates s vd (bsp_filter q)) top) as (kept & ? & _ & ?). eauto. }
  cbn [mbind result_bind]. exists ((λ kept : list ScoredPointOffset, result_point s (bsp_with_payload q) <$> kept) <$> kepts). split.
  - apply res_map_Ok. intros kept Hkept. apply process_live; [done|]. intros x Hx.
    apply list_elem_of_lookup in Hkept as [k Hkept]. destruct (Forall2_lookup_r _ _ _ _ _ Hk Hkept) as (v & _ & _ & Hsel).
    pose proof (selects_sub _ _ _ _ _ Hsel Hx) as (i & -> & Hi)%list_elem_of_fmap. cbn. by eapply candidates_live.
  - apply Forall2_fmap_r. eapply Forall2_impl; [exact Hk|]. intros v kept [Hv Hsel].
    destruct (plain_query_data s q v Hwf (Hall v Hv)) as (cfg1 & vd1 & Hc1 & Hd1 & _ & _ & _ & ->). simplify_eq.
    by apply (selects_fmap scored_leb).
Qed.

Lemma plain_hits_points (s : Seg) q v :
  seg_wf s → plain_query_ok s q v → NoDup (sp_id <$> plain_hits s q v) ∧
  ∀ p, p ∈ plain_hits s q v → has_point s (sp_id p) = true ∧ point_version s (sp_id p) = Some (sp_version p).
Proof.
  intros Hwf Hq. destruct (plain_query_data s q v Hwf Hq) as (cfg & vd & Hcfg & Hvd & _ & Hok & _ & ->).
  destruct (candidates_spec s _ cfg vd (bsp_filter q) Hwf Hcfg Hvd Hok) as [Hnd Hin]. split.
  - rewrite result_ids.
    + rewrite <-list_fmap_compose. cbn. rewrite list_fmap_id, (candidates_perm s (bsp_filter q)) by done.
      apply NoDup_filter. by apply iter_points_le.
    + intros x (i & -> & Hi)%list_elem_of_fmap. cbn. by eapply candidates_live.
  - intros p (x & -> & Hx)%list_elem_of_fmap. apply list_elem_of_fmap in Hx as (i & -> & Hi).
    destruct (candidates_live s _ cfg vd _ i Hwf Hcfg Hvd Hok Hi) as [e He]. cbn. rewrite He. cbn.
    pose proof He as He'. apply internal_external in He'; [|apply Hwf].
    destruct (cw_versions _ _ _ _ Hwf i) as [ver Hver]; [eauto|]. unfold has_point, point_version. rewrite He'. cbn.
    by rewrite Hver.
Qed.

Lemma plain_hits_counted (s : Seg) q v :
  seg_wf s → plain_query_ok s q v → seg_points_count s = 0 → plain_hits s q v = [].
Proof.
  intros Hwf Hq Hz. destruct (plain_query_data s q v Hwf Hq) as (cfg & vd & Hcfg & Hvd & _ & Hok & _ & ->).
  destruct (candidates s vd (bsp_filter q)) as [|i l] eqn:Hc; [done|].
  destruct (candidates_live s _ cfg vd (bsp_filter q) i Hwf Hcfg Hvd Hok) as [e He]; [rewrite Hc; left|].
  apply internal_external in He; [|apply Hwf]. unfold seg_points_count in Hz. rewrite points_count_iter in Hz by apply Hwf.
  assert (e ∈ iter_points s) as Hin by (apply elem_of_iter_points; eauto). unfold iter_points in Hin.
  apply nil_length_inv in Hz. rewrite Hz in Hin. by apply not_elem_of_nil in Hin.
Qed.

#[export] Instance plain_exact : ExactSearch Num Seg := {|
  search_wf := seg_wf;
  query_ok := plain_query_ok;
  hits := plain_hits;
  search_batch_exact := plain_batch_exact;
  hits_points := plain_hits_points;
  hits_counted := plain_hits_counted;
|}.
End plain_exact.

(** ** Witnesses *)

Import SampleInstances.
#[local] Existing Instance plain_index.

Definition other_segment : SampleSeg :=
  (run_seg_op no_display 5 (OpUpsert (NumId 9) [("", [f32_one; f32_zero])]) empty_segment).2.

Lemma other_segment_wf : seg_wf other_segment.
Proof.
  apply (run_seg_op_wf 5 (OpUpsert (NumId 9) [("", [f32_one; f32_zero])]) empty_segment false);
    [apply empty_segment_wf|exact I| |vm_compute; reflexivity|vm_compute; reflexivity].
  split; [apply NoDup_singleton|]. split; [apply sample_fit|intros _; vm_compute; reflexivity].
Qed.

#[local] Instance sample_search_entry : SegmentEntry Z SearchParams SampleSeg :=
  plain_entry no_display "segment" (λ _, Ok tt) (λ _, Ok tt).
#[local] Instance sample_exact : ExactSearch Z SampleSeg := plain_exact no_display "segment" (λ _, Ok tt) (λ _, Ok tt).

Definition two_segments : SegmentHolder SampleSeg :=
  mkHolder {[ 1%N := sample_segment; 2%N := other_segment ]} ∅ None.

Definition top_two : SearchRequest := mkSearchRequest (NVDefault [f32_one; f32_one]) None None 2 0 None None None.

Lemma two_segments_lookup i s :
  segments two_segments !! i = Some s → i = 1%N ∧ s = sample_segment ∨ i = 2%N ∧ s = other_segment.
Proof.
  change (segments two_segments) with (<[1%N := sample_segment]> {[2%N := other_segment]} : gmap N SampleSeg).
  intros [[<- <-]|[_ Hi]]%lookup_insert_Some; [by left|]. apply lookup_singleton_Some in Hi as [<- <-]. by right.
Qed.

Lemma sample_has_point (s : SampleSeg) (l : list PointIdType) e :
  seg_wf s → iter_points s = l → has_point s e = true → e ∈ l.
Proof.
  intros Hwf <- Hh. apply elem_of_iter_points; [done|]. unfold has_point in Hh.
  destruct (internal_id _ e); [eauto|done].
Qed.

Lemma two_segments_apart e : has_point sample_segment e = true → has_point other_segment e = true → False.
Proof.
  intros H1 H2. apply (sample_has_point _ [NumId 7; Uuid 5]) in H1; [|apply sample_segment_wf|vm_compute; reflexivity].
  apply (sample_has_point _ [NumId 9]) in H2; [|apply other_segment_wf|vm_compute; reflexivity].
  apply list_elem_of_singleton in H2 as ->. apply (bool_decide_pack _) in H1. vm_compute in H1. done.
Qed.

Lemma two_segments_home : one_home two_segments.
Proof.
  intros i j s t e [[-> ->]|[-> ->]]%two_segments_lookup [[-> ->]|[-> ->]]%two_segments_lookup Hs Ht; [done| | |done].
  - by destruct (two_segments_apart e Hs Ht).
  - by destruct (two_segments_apart e Ht Hs).
Qed.

Lemma two_segments_elem s : s ∈ holder_segments two_segments → s = sample_segment ∨ s = other_segment.
Proof. intros [i [[_ ->]|[_ ->]]%two_segments_lookup]%elem_of_holder_segments; auto. Qed.

Lemma sampled_search_exact_witness :
  ∃ res, searcher_search no_display "panic" two_segments [top_two] true = Ok [res] ∧
    selects scored_point_leb 2 (all_hits (holder_segments two_segments) top_two) res ∧
    (sp_id <$> res = [Uuid 5; NumId 7] ∨ sp_id <$> res = [Uuid 5; NumId 9]).
Proof.
  destruct (sampled_search_exact no_display "panic" two_segments [top_two] true) as (results & Hs & Hall).
  - intros Hnil. assert (bool_decide (segments two_segments = ∅) = true) as Hb by by apply bool_decide_eq_true.
    vm_compute in Hb. discriminate.
  - intros s [->| ->]%two_segments_elem; [apply sample_segment_wf|apply other_segment_wf].
  - intros s r [->| ->]%two_segments_elem ->%list_elem_of_singleton; exists (mkVectorDataConfig 2 Dot None None);
      split_and!; vm_compute; reflexivity.
  - intros r ->%list_elem_of_singleton. split; [cbn; lia|vm_compute; discriminate].
  - by intros r r' ->%list_elem_of_singleton ->%list_elem_of_singleton _.
  - apply two_segments_home.
  - assert (forallb (λ s, forallb (λ p, match sp_score p with S754_nan => false | _ => true end) (request_hits s top_two))
      [sample_segment; other_segment] = true) as Hb by (vm_compute; reflexivity).
    intros s r p Hs ->%list_elem_of_singleton Hp. rewrite forallb_forall in Hb.
    assert (In s [sample_segment; other_segment]) as Hin by (apply two_segments_elem in Hs as [->| ->]; cbn; auto).
    specialize (Hb s Hin). rewrite forallb_forall in Hb. apply list_elem_of_In in Hp. specialize (Hb p Hp).
    unfold not_nan. by destruct (sp_score p).
  - vm_compute. discriminate.
  - apply Forall2_cons_inv_l in Hall as (res & rest & [_ Hsel] & Hnil & ->). apply Forall2_nil_inv_l in Hnil as ->.
    assert (match searcher_search no_display "panic" two_segments [top_two] true with
      | Ok [r] => bool_decide (sp_id <$> r = [Uuid 5; NumId 7]) || bool_decide (sp_id <$> r = [Uuid 5; NumId 9])
      | _ => false end = true) as Hids by (vm_compute; reflexivity).
    rewrite Hs in Hids. apply orb_true_iff in Hids. rewrite !bool_decide_eq_true in Hids.
    exists res. exact (conj Hs (conj Hsel Hids)).
Defined.
