(* ===== verification/HolderSpec.v ===== *)
(** * Correctness of the segment holder

    Theorems about [SegmentHolder] (see [SegmentHolder.v]) for every
    implementation of the segments it holds. *)

From stdpp Require Import base gmap strings list sorting.
From Stdlib Require Import ZArith Lia SpecFloat.
From S2P Require Import Prelude Types Rocks IdTracker NamedVectors VectorStorage Filters Spaces StructPayloadIndex Segment.
From S2P Require Import SegmentSpec SegmentEntry SegmentHolder Samples.

(** A loop that threads a value keeps an invariant on what it has visited. *)
Lemma sm_wp_fold {S E A B} (f : A → B → sm S E B) (I : list A → B → S → Prop) (R : E → S → Prop) l b s :
  I [] b s →
  (∀ pre x post b s, l = pre ++ x :: post → I pre b s → sm_wp (f x b) (λ b' s', I (pre ++ [x]) b' s') R s) →
  sm_wp (sm_fold f l b) (λ b' s', I l b' s') R s.
Proof.
  intros Hi Hstep. assert (∀ post pre b s, l = pre ++ post → I pre b s →
    sm_wp (sm_fold f post b) (λ b' s', I l b' s') R s) as H.
  { induction post as [|x post IH]; intros pre b' s' -> Hpre.
    - rewrite app_nil_r. by apply sm_wp_ret.
    - cbn. apply sm_wp_bind. eapply sm_wp_mono; [by apply (Hstep pre x post)| |done].
      intros b'' s'' Hx. apply (IH (pre ++ [x])); [|done]. by rewrite <-app_assoc. }
  by apply (H l []).
Qed.

Section holder_spec.
Context {Num SP E : Type} {HS : Simd} `{!SegmentEntry Num SP E, !SegmentEntryLaws Num SP E}.
Abbreviation Holder := (SegmentHolder E).

(** Every segment keeps its invariant and has no failure. *)
Definition holder_ok (h : Holder) : Prop :=
  ∀ id s, segments h !! id = Some s → entry_wf s ∧ se_check_error (Num:=Num) (SP:=SP) s = None.

(** The copy of a point in a segment. *)
Definition copy (h : Holder) (id : SegmentId) (e : PointIdType) : option (Point Num) :=
  s ← segments h !! id; entry_point s e.

Lemma with_segment_wp {X A} idx (m : sm (E * X) OperationError A) Q R (st : Holder * X) seg :
  segments st.1 !! idx = Some seg →
  sm_wp m (λ a p, Q a (set_segments (<[idx := p.1]> (segments st.1)) st.1, p.2))
    (λ e p, R e (set_segments (<[idx := p.1]> (segments st.1)) st.1, p.2)) (seg, st.2) →
  sm_wp (with_segment idx m) Q R st.
Proof using. unfold sm_wp, with_segment. intros ->. by destruct (m (seg, st.2)) as [[] []]. Qed.

Lemma on_segment_wp {X A} idx (m : sm E OperationError A) Q R (st : Holder * X) seg :
  segments st.1 !! idx = Some seg →
  sm_wp m (λ a seg', Q a (set_segments (<[idx := seg']> (segments st.1)) st.1, st.2))
    (λ e seg', R e (set_segments (<[idx := seg']> (segments st.1)) st.1, st.2)) seg →
  sm_wp (on_segment idx m) Q R st.
Proof using. intros Hs Hm. eapply with_segment_wp; [done|]. apply sm_wp_zoom. exact Hm. Qed.

Lemma read_segment_wp {X A} idx (f : E → OperationResult A) Q R (st : Holder * X) seg a :
  segments st.1 !! idx = Some seg → f seg = Ok a → Q a st → sm_wp (read_segment idx f) Q R st.
Proof using.
  intros Hs Hf HQ. eapply on_segment_wp; [done|]. unfold sm_wp. rewrite Hf, insert_id by done.
  destruct st as [[] ?]. exact HQ.
Qed.

Lemma copy_insert (h : Holder) idx seg id e :
  copy (set_segments (<[idx := seg]> (segments h)) h) id e =
    if decide (id = idx) then entry_point seg e else copy h id e.
Proof using.
  unfold copy. cbn. destruct (decide (id = idx)) as [->|Hne].
  - by rewrite lookup_insert_eq.
  - by rewrite lookup_insert_ne.
Qed.

(** *** Deleting from one segment *)

Lemma delete_copy_wp n e seg :
  entry_wf seg → se_check_error (Num:=Num) (SP:=SP) seg = None → (∃ pt, entry_point seg e = Some pt ∧ (pt_version pt ≤ n)%N) →
  sm_wp (se_delete_point (Num:=Num) (SP:=SP) n e) (λ b seg', b = true ∧ entry_wf seg' ∧
    se_check_error (Num:=Num) (SP:=SP) seg' = None ∧
    se_is_appendable (Num:=Num) (SP:=SP) seg' = se_is_appendable (Num:=Num) (SP:=SP) seg ∧
    entry_cfgs seg' = entry_cfgs seg ∧
    ∀ e', entry_point seg' e' = if decide (e' = e) then None else entry_point seg e') (λ _ _, True) seg.
Proof using.
  intros Hwf Hes (pt & Hpt & Hv). change (se_delete_point n e) with (se_run_op n (OpDelete e : seg_op Num)).
  eapply sm_wp_mono; [apply (entry_op_spec _ _ _ ∅); [done|done|by eapply fresh_delete| |done]| |done].
  - cbn. split; [eauto|]. by apply safe_simple.
  - intros b seg' (Hwf' & Hes' & Hcfg & Happ & _ & _ & Hb & _ & old & _ & _ & Hpts). split_and!; try done.
    rewrite Hb. cbn. apply bool_decide_true. eauto.
Qed.

(** *** Duplicates *)

(** What the first pass knows after it has visited the copies in [V]. *)
Record dedup_inv (h : Holder) (V : SegmentId → PointIdType → Prop) (acc : DedupAcc) : Prop := mkDedupInv {
  di_seen e sid v : seen_points acc !! e = Some (sid, v) →
    V sid e ∧ pt_version <$> copy h sid e = Some v ∧
    ∀ sid' pt, V sid' e → copy h sid' e = Some pt →
      (pt_version pt ≤ v)%N ∧ (sid' ≠ sid → e ∈ default [] (points_to_remove acc !! sid'));
  di_unseen e sid : seen_points acc !! e = None → V sid e → copy h sid e = None;
  di_remove e sid : e ∈ default [] (points_to_remove acc !! sid) →
    V sid e ∧ ∃ sid' v, seen_points acc !! e = Some (sid', v) ∧ sid' ≠ sid;
}.

Lemma elem_of_push_removal sid e m sid' e' :
  e' ∈ default [] (push_removal sid e m !! sid') ↔ e' ∈ default [] (m !! sid') ∨ (sid' = sid ∧ e' = e).
Proof using.
  unfold push_removal. destruct (decide (sid' = sid)) as [->|Hne].
  - rewrite lookup_insert_eq. cbn. rewrite elem_of_app, list_elem_of_singleton. naive_solver.
  - rewrite lookup_insert_ne by done. naive_solver.
Qed.

Lemma dedup_point_inv h V acc sid s e pt :
  dedup_inv h V acc → segments h !! sid = Some s → entry_wf s → entry_point s e = Some pt → ¬ V sid e →
  dedup_inv h (λ sid' e', V sid' e' ∨ (sid' = sid ∧ e' = e)) (dedup_point (Num:=Num) (SP:=SP) sid s acc e).
Proof using.
  intros [Hseen Hun Hrem] Hs Hwf Hpt HV. unfold dedup_point. rewrite (point_version_spec s e pt Hwf Hpt).
  assert (copy h sid e = Some pt) as Hc. { unfold copy. by rewrite Hs. }
  destruct (seen_points acc !! e) as [[sid0 v0]|] eqn:Hse.
  - destruct (Hseen _ _ _ Hse) as (HV0 & Hc0 & Hle0).
    assert (sid ≠ sid0) as Hne by naive_solver.
    destruct (pt_version pt <? v0)%N eqn:Hlt; [apply N.ltb_lt in Hlt|apply N.ltb_ge in Hlt]; split; cbn [seen_points points_to_remove].
    + intros e' sid' v' He'. destruct (Hseen _ _ _ He') as (H1 & H2 & H3). split_and!; [by left|done|].
      intros sid2 pt2 HV2 Hc2. rewrite elem_of_push_removal. destruct HV2 as [HV2|[-> ->]].
      * destruct (H3 sid2 pt2 HV2 Hc2). split; [done|]. auto.
      * simplify_eq. split; [lia|]. auto.
    + intros e' sid' He' [HV'|[-> ->]]; [eauto|congruence].
    + intros e' sid'. rewrite elem_of_push_removal. intros [He'|[-> ->]].
      * destruct (Hrem _ _ He') as (? & ?). auto.
      * split; [by right|]. eauto.
    + intros e' sid' v'. destruct (decide (e' = e)) as [->|Hee].
      * rewrite lookup_insert_eq. intros [= <- <-]. split_and!; [by right|by rewrite Hc|].
        intros sid2 pt2 [HV2|[-> _]] Hc2; [|simplify_eq; split; [lia|done]].
        destruct (Hle0 sid2 pt2 HV2 Hc2) as [Hv2 Hr2]. split; [lia|]. intros _. rewrite elem_of_push_removal.
        destruct (decide (sid2 = sid0)) as [->|]; [by right|left; by apply Hr2].
      * rewrite lookup_insert_ne by done. intros He'. destruct (Hseen _ _ _ He') as (H1 & H2 & H3).
        split_and!; [by left|done|]. intros sid2 pt2 [HV2|[_ ->]] Hc2; [|done].
        destruct (H3 sid2 pt2 HV2 Hc2). split; [done|]. rewrite elem_of_push_removal. auto.
    + intros e' sid' He'. apply lookup_insert_None in He' as [He' ?]. intros [HV'|[-> ->]]; [eauto|done].
    + intros e' sid'. rewrite elem_of_push_removal. intros [He'|[-> ->]].
      * destruct (Hrem _ _ He') as (HVr & sid2 & v2 & H2 & Hn2). split; [by left|].
        destruct (decide (e' = e)) as [->|]; [|rewrite lookup_insert_ne by done; eauto].
        rewrite lookup_insert_eq. eexists _, _. split; [done|]. naive_solver.
      * split; [by left|]. rewrite lookup_insert_eq. eauto.
  - split; cbn [seen_points points_to_remove].
    + intros e' sid' v'. destruct (decide (e' = e)) as [->|Hee].
      * rewrite lookup_insert_eq. intros [= <- <-]. split_and!; [by right|by rewrite Hc|].
        intros sid2 pt2 [HV2|[-> _]] Hc2; [|simplify_eq; split; [lia|done]].
        by rewrite (Hun e sid2 Hse HV2) in Hc2.
      * rewrite lookup_insert_ne by done. intros He'. destruct (Hseen _ _ _ He') as (H1 & H2 & H3).
        split_and!; [by left|done|]. intros sid2 pt2 [HV2|[_ ->]] Hc2; [|done]. eauto.
    + intros e' sid' He'. apply lookup_insert_None in He' as [He' ?]. intros [HV'|[-> ->]]; [eauto|done].
    + intros e' sid' He'. destruct (Hrem _ _ He') as (HVr & sid2 & v2 & H2 & Hn2). split; [by left|].
      rewrite lookup_insert_ne by congruence. eauto.
Qed.

Lemma dedup_inv_iff h V V' acc : (∀ sid e, V sid e ↔ V' sid e) → dedup_inv h V acc → dedup_inv h V' acc.
Proof using. intros HV [H1 H2 H3]. split; intros; repeat setoid_rewrite <-HV; eauto. by eapply H2; [|apply HV]. Qed.

Lemma dedup_points_inv h V acc sid s l :
  dedup_inv h V acc → segments h !! sid = Some s → entry_wf s → NoDup l →
  (∀ e, e ∈ l → is_Some (entry_point s e) ∧ ¬ V sid e) →
  dedup_inv h (λ sid' e', V sid' e' ∨ (sid' = sid ∧ e' ∈ l))
    (fold_left (dedup_point (Num:=Num) (SP:=SP) sid s) l acc).
Proof using.
  intros Hi Hs Hwf. revert V acc Hi. induction l as [|e l IH]; intros V acc Hi Hnd Hin; cbn.
  { eapply dedup_inv_iff; [|done]. intros. rewrite elem_of_nil. naive_solver. }
  apply NoDup_cons in Hnd as [He Hnd]. destruct (Hin e) as [[pt Hpt] HV]; [left|].
  eapply dedup_inv_iff; [|eapply IH; [by eapply dedup_point_inv|done|]].
  - intros. cbn. rewrite elem_of_cons. naive_solver.
  - intros e' He'. destruct (Hin e') as [? HV']; [by right|]. split; [done|]. intros [?|[_ ->]]; done.
Qed.

Context `{!IterableEntry Num SP E}.

Lemma dedup_segments_inv h V acc (l : list (SegmentId * E)) :
  holder_ok h → dedup_inv h V acc → NoDup l.*1 → (∀ p, p ∈ l → segments h !! p.1 = Some p.2 ∧ ∀ e, ¬ V p.1 e) →
  ∃ acc', res_fold (dedup_segment (Num:=Num) (SP:=SP)) l acc = Ok acc' ∧
    dedup_inv h (λ sid e, V sid e ∨ (sid ∈ l.*1 ∧ is_Some (copy h sid e))) acc'.
Proof using IterableEntry0.
  intros Hok. revert V acc. induction l as [|[sid s] l IH]; intros V acc Hi Hnd Hin.
  { exists acc. split; [done|]. eapply dedup_inv_iff; [|done]. intros. cbn. rewrite elem_of_nil. naive_solver. }
  cbn in Hnd. apply NoDup_cons in Hnd as [Hsid Hnd]. destruct (Hin (sid, s)) as [Hs HV]; [left|]. cbn in Hs, HV.
  destruct (Hok _ _ Hs) as [Hwf _]. destruct (iter_points_spec s Hwf) as (ids & Hids & Hnd' & Hel).
  pose proof (dedup_points_inv h V acc sid s ids Hi Hs Hwf Hnd') as Hi'.
  cbn [res_fold]. replace (dedup_segment (sid, s) acc) with (Ok (fold_left (dedup_point (Num:=Num) (SP:=SP) sid s) ids acc) : OperationResult DedupAcc)
    by (unfold dedup_segment; cbn; by rewrite Hids).
  cbn [mbind result_bind].
  edestruct IH as (acc' & Hacc & Hi2); [apply Hi'; intros e He; split; [by apply Hel|done]|done| |].
  { intros p Hp. destruct (Hin p) as [? HVp]; [by right|]. split; [done|]. intros e [?|[Hp1 _]]; [by eapply HVp|].
    apply Hsid. rewrite <-Hp1. by apply list_elem_of_fmap_2. }
  exists acc'. split; [done|]. eapply dedup_inv_iff; [|done]. intros sid' e. cbn. rewrite elem_of_cons, Hel.
  unfold copy. destruct (decide (sid' = sid)) as [->|]; [rewrite Hs|]; cbn; naive_solver.
Qed.

(** The copies in [R] are gone and nothing else has changed. *)
Record removed (h : Holder) (R : SegmentId → PointIdType → Prop) (h' : Holder) : Prop := mkRemoved {
  rm_ok : holder_ok h';
  rm_dom id : is_Some (segments h' !! id) ↔ is_Some (segments h !! id);
  rm_gone id e : R id e → copy h' id e = None;
  rm_same id e : ¬ R id e → copy h' id e = copy h id e;
}.

Lemma remove_duplicate_wp h R h' id e n :
  removed h R h' → is_Some (segments h !! id) →
  sm_wp (remove_duplicate (Num:=Num) (SP:=SP) id e n)
    (λ _ st', removed h (λ id' e', R id' e' ∨ (id' = id ∧ e' = e)) st'.1) (λ _ _, True) (h', tt).
Proof using IterableEntry0.
  intros [Hok Hdom Hgone Hsame] [s Hs]%Hdom. destruct (Hok _ _ Hs) as [Hwf Hes].
  assert (copy h' id e = entry_point s e) as Hcp. { unfold copy. by rewrite Hs. }
  apply sm_wp_bind. eapply read_segment_wp; [done..|].
  destruct (entry_point s e) as [pt|] eqn:Hpt; [rewrite (point_version_spec s e pt Hwf Hpt)|rewrite (point_version_absent s e Hwf Hpt)].
  - apply sm_wp_bind. eapply on_segment_wp; [done|].
    eapply sm_wp_mono; [apply delete_copy_wp; [done|done|eauto]| |done].
    intros b s' (_ & Hwf' & Hes' & _ & _ & Hpts). apply sm_wp_ret. cbn [fst]. split.
    + intros id2 s2. cbn. rewrite lookup_insert_Some. intros [[-> <-]|[? ?]]; eauto.
    + intros id2. cbn. rewrite <-Hdom. destruct (decide (id2 = id)) as [->|].
      * rewrite lookup_insert_eq, Hs. split; eauto.
      * by rewrite lookup_insert_ne.
    + intros id2 e2 HR. rewrite copy_insert. destruct (decide (id2 = id)) as [->|]; [|naive_solver].
      rewrite Hpts. destruct (decide (e2 = e)); [done|]. specialize (Hgone id e2). unfold copy in Hgone. rewrite Hs in Hgone. naive_solver.
    + intros id2 e2 HR. rewrite copy_insert. destruct (decide (id2 = id)) as [->|]; [|naive_solver].
      rewrite Hpts. rewrite decide_False by naive_solver. rewrite <-Hsame by naive_solver. unfold copy. by rewrite Hs.
  - apply sm_wp_ret. split; [done|done| |naive_solver]. intros id2 e2 [?|[-> ->]]; [eauto|done].
Qed.

Lemma remove_duplicates_wp h R h' id l n :
  removed h R h' → (∀ e, e ∈ l → is_Some (segments h !! id)) →
  sm_wp (sm_fold (remove_duplicate (Num:=Num) (SP:=SP) id) l n)
    (λ _ st', removed h (λ id' e', R id' e' ∨ (id' = id ∧ e' ∈ l)) st'.1) (λ _ _, True) (h', tt).
Proof using IterableEntry0.
  intros Hr Hid. apply (sm_wp_fold _ (λ pre _ st', removed h (λ id' e', R id' e' ∨ (id' = id ∧ e' ∈ pre)) st'.1)).
  - destruct Hr. split; cbn; eauto; intros id2 e2; rewrite elem_of_nil; naive_solver.
  - intros pre e post n' [h2 []] Heq Hr2. eapply sm_wp_mono; [apply (remove_duplicate_wp _ _ _ id e n' Hr2)| |done].
    { apply (Hid e). rewrite Heq, elem_of_app. right. left. }
    intros _ st' []. split; [done|done| |]; intros id2 e2; rewrite elem_of_app, list_elem_of_singleton; naive_solver.
Qed.

Lemma remove_all_wp h (m : gmap SegmentId (list PointIdType)) :
  holder_ok h → (∀ id l e, m !! id = Some l → e ∈ l → is_Some (segments h !! id)) →
  sm_wp (sm_fold (λ p n, sm_fold (remove_duplicate (Num:=Num) (SP:=SP) p.1) p.2 n) (map_to_list m) 0)
    (λ _ st', removed h (λ id e, e ∈ default [] (m !! id)) st'.1) (λ _ _, True) (h, tt).
Proof using IterableEntry0.
  intros Hok Hm. eapply sm_wp_mono; [apply (sm_wp_fold _
    (λ pre _ st', removed h (λ id e, ∃ l, (id, l) ∈ pre ∧ e ∈ l) st'.1))| |done].
  - split; cbn; try done. by intros id e (l & []%not_elem_of_nil & _).
  - intros pre [id l] post n [h2 []] Heq Hr.
    eapply sm_wp_mono; [apply (remove_duplicates_wp _ _ _ id l n Hr)| |done].
    + intros e. eapply Hm, elem_of_map_to_list. rewrite Heq, elem_of_app. right. left.
    + intros _ st' []. split; [done|done| |]; intros id2 e2; setoid_rewrite elem_of_app; setoid_rewrite list_elem_of_singleton; naive_solver.
  - intros _ st' []. split; [done|done| |]; intros id e He.
    + destruct (m !! id) as [l|] eqn:Hl; cbn in He; [|by apply not_elem_of_nil in He].
      apply rm_gone0. exists l. by rewrite elem_of_map_to_list.
    + apply rm_same0. intros (l & Hl%elem_of_map_to_list & Hel). by rewrite Hl in He.
Qed.

(** What [deduplicate_points] promises: the segments are those there were, a
    copy that is left is as it was, no point has two, and a point that had a
    copy has one that is as new as any. *)
Definition deduplicated (h h' : Holder) : Prop :=
  (∀ id, is_Some (segments h' !! id) ↔ is_Some (segments h !! id)) ∧
  (∀ id e pt, copy h' id e = Some pt → copy h id e = Some pt) ∧
  (∀ id1 id2 e, is_Some (copy h' id1 e) → is_Some (copy h' id2 e) → id1 = id2) ∧
  (∀ id e pt, copy h id e = Some pt → ∃ id' pt', copy h' id' e = Some pt' ∧ (pt_version pt ≤ pt_version pt')%N).

Lemma removed_deduplicated h h' acc :
  dedup_inv h (λ sid e, is_Some (copy h sid e)) acc →
  removed h (λ id e, e ∈ default [] (points_to_remove acc !! id)) h' → deduplicated h h'.
Proof using.
  intros [Hseen Hun Hrem] [Hok Hdom Hgone Hsame].
  assert (∀ id e pt, copy h' id e = Some pt → copy h id e = Some pt ∧ ∃ v, seen_points acc !! e = Some (id, v)) as Hleft.
  { intros id e pt Hc. destruct (decide (e ∈ default [] (points_to_remove acc !! id))) as [Hr|Hr].
    - by rewrite (Hgone _ _ Hr) in Hc.
    - rewrite (Hsame _ _ Hr) in Hc. split; [done|]. destruct (seen_points acc !! e) as [[sid v]|] eqn:Hs.
      + destruct (Hseen _ _ _ Hs) as (_ & _ & H3). destruct (decide (id = sid)) as [->|Hne]; [eauto|].
        destruct Hr. apply (H3 id pt); eauto.
      + rewrite (Hun _ id Hs) in Hc; eauto; done. }
  split_and!; [done|intros; by eapply Hleft| |].
  - intros id1 id2 e [pt1 [_ [v1 H1]]%Hleft] [pt2 [_ [v2 H2]]%Hleft]. congruence.
  - intros id e pt Hc. destruct (seen_points acc !! e) as [[sid v]|] eqn:Hs.
    + destruct (Hseen _ _ _ Hs) as (_ & Hv & H3). apply fmap_Some in Hv as (pt' & Hc' & ->).
      exists sid, pt'. split; [|apply (H3 id pt); eauto]. rewrite Hsame; [done|].
      intros Hr. destruct (Hrem _ _ Hr) as (_ & sid' & v' & ? & ?). congruence.
    + rewrite (Hun _ id Hs) in Hc; eauto; done.
Qed.

(** C22: [deduplicate_points] leaves every point in exactly one segment.  From
    any holder whose segments keep their invariant and have no failure, when
    it returns it has neither added nor dropped a segment, no point has
    copies in two segments, each copy that is left is one of the copies there
    were, unchanged, and the copy that is left of a point is as new as any
    that there was. *)
Theorem deduplicate_keeps_newest (h : Holder) :
  holder_ok h → sm_wp (deduplicate_points (Num:=Num) (SP:=SP)) (λ _ st', deduplicated h st'.1) (λ _ _, True) (h, tt).
Proof using IterableEntry0.
  intros Hok. apply sm_wp_bind. unfold sm_wp at 1, sm_get. cbn [fst].
  destruct (dedup_segments_inv h (λ _ _, False) (mkDedup ∅ ∅) (map_to_list (segments h)) Hok)
    as (acc & Hacc & Hi).
  - split; cbn; try done. intros e sid. rewrite lookup_empty. by intros ?%not_elem_of_nil.
  - apply NoDup_fst_map_to_list.
  - intros [id s] Hp%elem_of_map_to_list. split; [done|naive_solver].
  - apply sm_wp_bind. unfold sm_wp at 1, sm_lift. cbn [segments]. rewrite Hacc.
    apply (dedup_inv_iff _ _ (λ sid e, is_Some (copy h sid e))) in Hi.
    + eapply sm_wp_mono; [apply remove_all_wp; [done|]| |done].
      * intros id l e Hl He. destruct (di_remove _ _ _ Hi e id) as [[pt Hc] _]; [by rewrite Hl|].
        unfold copy in Hc. by destruct (segments h !! id).
      * intros n st' Hr. by eapply removed_deduplicated.
    + intros sid e. split; [naive_solver|]. intros [pt Hc]. right. split; [|eauto].
      unfold copy in Hc. destruct (segments h !! sid) as [s|] eqn:Hs; [|done].
      apply list_elem_of_fmap. exists (sid, s). split; [done|]. by apply elem_of_map_to_list.
Qed.
End holder_spec.

(** ** Flushing *)

(** What a holder relies on when it flushes a segment: the version a flush
    returns is recorded as saved. *)
Class FlushEntry (Num SP E : Type) `{!SegmentEntry Num SP E} := {
  flush_ok : E → Prop;
  saved : E → SeqNumberType; (* the version that is recorded as saved *)
  flush_spec sync (s : E) : flush_ok s →
    sm_wp (se_flush sync) (λ v s', flush_ok s' ∧ (v ≤ saved s')%N ∧ (saved s ≤ saved s')%N ∧
      se_version s' = se_version s) (λ _ s', flush_ok s' ∧ (saved s ≤ saved s')%N) s;
}.

Section flush_spec.
Context {Num SP E : Type} `{!SegmentEntry Num SP E, !FlushEntry Num SP E}.
Abbreviation Holder := (SegmentHolder E).

Lemma elem_of_appendable (h : Holder) id :
  id ∈ appendable_segments (Num:=Num) (SP:=SP) h ↔
    ∃ s, segments h !! id = Some s ∧ se_is_appendable (Num:=Num) (SP:=SP) s = true.
Proof using.
  unfold appendable_segments. rewrite list_elem_of_fmap. setoid_rewrite list_elem_of_filter. split.
  - intros ([? s] & -> & Ha & Hs%elem_of_map_to_list). eauto.
  - intros (s & Hs & Ha). exists (id, s). by rewrite elem_of_map_to_list.
Qed.

Lemma elem_of_flush_ordering (h : Holder) id :
  id ∈ segment_flush_ordering (Num:=Num) (SP:=SP) h ↔ is_Some (segments h !! id).
Proof using.
  unfold segment_flush_ordering, non_appendable_segments. rewrite elem_of_app, elem_of_appendable, list_elem_of_fmap.
  setoid_rewrite list_elem_of_filter. split.
  - intros [(s & ? & _)|([? s] & -> & _ & Hs%elem_of_map_to_list)]; eauto.
  - intros [s Hs]. destruct (se_is_appendable s) eqn:Ha; [left; eauto|right].
    exists (id, s). by rewrite elem_of_map_to_list.
Qed.

Lemma NoDup_flush_ordering (h : Holder) : NoDup (segment_flush_ordering (Num:=Num) (SP:=SP) h).
Proof using.
  assert (∀ P `{!∀ x, Decision (P x)}, NoDup (base.filter P (map_to_list (segments h))).*1) as Hf.
  { intros P ?. eapply sublist_NoDup; [|apply fmap_sublist, sublist_filter]. apply NoDup_fst_map_to_list. }
  apply NoDup_app. split_and!; [apply Hf| |apply Hf]. intros id (s & Hs & Ha)%elem_of_appendable.
  unfold non_appendable_segments. rewrite list_elem_of_fmap. setoid_rewrite list_elem_of_filter.
  intros ([? s'] & -> & Hn & Hs'%elem_of_map_to_list). cbn in *. congruence.
Qed.

(** The appendable segments come first. *)
Lemma flush_ordering_before (h : Holder) pre id post id' :
  segment_flush_ordering (Num:=Num) (SP:=SP) h = pre ++ id :: post → id' ∈ pre ++ [id] →
  id' ∉ appendable_segments (Num:=Num) (SP:=SP) h →
  ∀ id2, id2 ∈ appendable_segments (Num:=Num) (SP:=SP) h → id2 ∈ pre.
Proof using.
  unfold segment_flush_ordering. generalize (appendable_segments h) (non_appendable_segments h).
  intros l1 l2 Heq Hin Hn id2 Hid2. apply app_eq_inv in Heq as [(k & -> & Hk)|(k & -> & Hk)].
  - destruct k as [|x k]; cbn in Hk; [by rewrite app_nil_r in Hid2|]. injection Hk as <- ->.
    destruct Hn. apply elem_of_app in Hin as [?| ->%list_elem_of_singleton]; apply elem_of_app; [by left|right; left].
  - apply elem_of_app. by left.
Qed.

(** A segment before and after a flush that succeeded with version [v]. *)
Definition flushed (sync : bool) (h h' : Holder) (id : SegmentId) (v : SeqNumberType) : Prop :=
  ∃ s s', segments h !! id = Some s ∧ segments h' !! id = Some s' ∧
    se_flush (Num:=Num) (SP:=SP) sync s = (Ok v, s') ∧
    (v ≤ saved s')%N ∧ se_version (Num:=Num) (SP:=SP) s' = se_version (Num:=Num) (SP:=SP) s.

Record flush_inv (sync : bool) (h : Holder) (pre : list SegmentId) (acc : FlushAcc) (h' : Holder) : Prop := mkFlushInv {
  fi_ok id s : segments h' !! id = Some s → flush_ok (Num:=Num) (SP:=SP) s;
  fi_done id : id ∈ pre → ∃ v, flushed sync h h' id v ∧
    ((∃ s', segments h' !! id = Some s' ∧ (se_version (Num:=Num) (SP:=SP) s' ≤ v)%N) ∨
     (has_unsaved acc = true ∧ (min_unsaved_version acc ≤ v)%N));
  fi_rest id : id ∉ pre → segments h' !! id = segments h !! id;
}.

Lemma flush_segment_wp sync h pre id acc h' :
  flush_inv sync h pre acc h' → id ∉ pre → is_Some (segments h !! id) →
  sm_wp (flush_segment (Num:=Num) (SP:=SP) sync id acc) (λ acc' st', flush_inv sync h (pre ++ [id]) acc' st'.1)
    (λ _ st', (∀ id', id' ∈ pre → ∃ v, flushed sync h st'.1 id' v) ∧
      (∀ id', id' ∉ pre ++ [id] → segments st'.1 !! id' = segments h !! id')) (h', tt).
Proof using.
  intros [Hok Hdone Hrest] Hid [s Hs]. assert (segments h' !! id = Some s) as Hs' by by rewrite Hrest.
  unfold flush_segment. apply sm_wp_bind. eapply read_segment_wp; [done..|].
  apply sm_wp_bind. eapply on_segment_wp; [done|].
  pose proof (flush_spec sync s (Hok _ _ Hs')) as Hf. unfold sm_wp in *.
  destruct (se_flush sync s) as [[v|e|] s'] eqn:Hrun; [|cbn|done].
  - destruct Hf as (Hok' & Hv & _ & Hver). cbn. split; cbn.
    + intros id2 s2. rewrite lookup_insert_Some. intros [[_ <-]|[_ ?]]; eauto.
    + intros id2 [Hin|Hin%list_elem_of_singleton]%elem_of_app; [|subst id2].
      * assert (id ≠ id2) as Hne by naive_solver. destruct (Hdone _ Hin) as (v2 & (t & t' & H1 & H2 & H3) & Hor).
        exists v2. split; [exists t, t'; cbn; by rewrite lookup_insert_ne|]. rewrite lookup_insert_ne by done.
        destruct Hor as [?|[-> Hle]]; [by left|right]. split; [done|]. destruct (_ <? _)%N; lia.
      * exists v. rewrite lookup_insert_eq. split; [exists s, s'; cbn; by rewrite lookup_insert_eq|].
        destruct (N.ltb_spec v (se_version s)); [right|left]; [rewrite orb_true_r; split; [done|lia]|].
        exists s'. by rewrite Hver.
    + intros id2 Hn. rewrite elem_of_app, list_elem_of_singleton in Hn. rewrite lookup_insert_ne by naive_solver. naive_solver.
  - split; intros id2 Hin.
    + destruct (Hdone _ Hin) as (v2 & (t & t' & H1 & H2 & H3) & _). exists v2, t, t'. cbn.
      rewrite lookup_insert_ne by naive_solver. done.
    + rewrite elem_of_app, list_elem_of_singleton in Hin. rewrite lookup_insert_ne by naive_solver. naive_solver.
Qed.

(** C21: the version that [flush_all] returns.  It is at most the version that
    each segment has recorded as saved, unless the segment has recorded all it
    has: so no segment is behind the version at which the log is truncated.
    When the flush fails, a segment that takes no new points is only touched
    after the flush of every appendable one has returned, with a version that
    it has recorded.  It is assumed of each segment, and proved of [Segment],
    that a flush returns no more than what is recorded as saved; a proxy does
    not keep to that.  What the record of a version means for the data is not
    part of this statement: a flush in the background returns what an earlier
    one has recorded, and the point that an operation moved may be newer. *)
Theorem flush_all_safe (sync : bool) (h : Holder) :
  (∀ id s, segments h !! id = Some s → flush_ok (Num:=Num) (SP:=SP) s) →
  sm_wp (flush_all (Num:=Num) (SP:=SP) sync)
    (λ v st', ∀ id, is_Some (segments h !! id) → ∃ s', segments st'.1 !! id = Some s' ∧
      ((v ≤ saved s')%N ∨ (se_version (Num:=Num) (SP:=SP) s' ≤ saved s')%N))
    (λ _ st', ∀ id s, segments h !! id = Some s → se_is_appendable (Num:=Num) (SP:=SP) s = false →
      segments st'.1 !! id = Some s ∨
      ∀ id', id' ∈ appendable_segments (Num:=Num) (SP:=SP) h → ∃ v, flushed sync h st'.1 id' v) (h, tt).
Proof using.
  intros Hok. apply sm_wp_bind. unfold sm_wp at 1, sm_get. cbn [fst]. apply sm_wp_bind.
  eapply sm_wp_mono; [apply (sm_wp_fold _ (λ pre acc st', flush_inv sync h pre acc st'.1))| |intros e st' He; exact He].
  - split; cbn; [done|by intros ? ?%not_elem_of_nil|done].
  - intros pre id post acc [h' []] Heq Hi. pose proof (NoDup_flush_ordering h) as Hnd.
    rewrite Heq in Hnd. apply NoDup_app in Hnd as (_ & Hnd & _).
    eapply sm_wp_mono; [apply flush_segment_wp; [done| |]|done|].
    + intros Hin. apply (Hnd id Hin). left.
    + apply elem_of_flush_ordering. rewrite Heq, elem_of_app. right. left.
    + intros e st' [Hpre Hpost] id' s Hs Ha. destruct (decide (id' ∈ pre ++ [id])) as [Hin|Hin]; [right|left; by rewrite Hpost].
      intros id2 Hid2. apply Hpre. apply (flush_ordering_before h pre id post id'); [done|done| |done].
      intros (? & ? & ?)%elem_of_appendable. congruence.
  - intros acc st' [_ Hdone _]. apply sm_wp_ret. intros id Hid.
    destruct (Hdone id) as (v & (s & s' & Hs & Hs' & _ & Hv & _) & Hor); [by apply elem_of_flush_ordering|].
    exists s'. split; [done|]. destruct Hor as [(s2 & Hs2 & Hle)|[-> Hle]]; [right|left; lia].
    simplify_eq. lia.
Qed.
End flush_spec.

(** *** A segment can be flushed by its holder *)

Section segment_flush.
Context {Num T VI VS PI SP : Type} `{!JsonNumber Num} {HS : Simd}.
Context `{!IdTracker T} `{!VectorStorage VS} `{!PayloadIndex Num T PI} `{!VectorIndex T VS PI SP VI}.
Context (display_id : PointIdType → string) (segment_path : string)
  (outcome background : FlushStep → OperationResult unit).
Context (Houtcome : ∀ step, outcome step ≠ Panic).
Abbreviation Seg := (Segment T VI VS PI).
Abbreviation entry := (segment_entry (SP:=SP) (Num:=Num) display_id segment_path outcome background).

Definition no_panic {S E A} (m : sm S E A) : Prop := ∀ s, (m s).1 ≠ Panic.

Lemma no_panic_bind {S E A B} (m : sm S E A) (f : A → sm S E B) : no_panic m → (∀ a, no_panic (f a)) → no_panic (m ≫= f).
Proof using. intros Hm Hf s. unfold mbind, sm_bind. specialize (Hm s). destruct (m s) as [[a|e|] s']; [apply Hf|done..]. Qed.

Lemma no_panic_for {S E A} (f : A → sm S E unit) l : (∀ x, no_panic (f x)) → no_panic (sm_for f l).
Proof using. intros Hf. induction l as [|x l IH]; [by intros s|]. cbn [sm_for]. by apply no_panic_bind. Qed.

Lemma flush_op_no_panic state : no_panic (flush_op (T:=T) (VI:=VI) (VS:=VS) (PI:=PI) display_id outcome state).
Proof using Houtcome.
  assert (∀ step what write, no_panic (flush_step (T:=T) (VI:=VI) (VS:=VS) (PI:=PI) display_id (outcome step) what write)) as Hs.
  { intros step what write s. unfold flush_step. specialize (Houtcome step). by destruct (outcome step). }
  unfold flush_op. repeat (apply no_panic_bind; [|intros ?]); try apply Hs; try done. by apply no_panic_for.
Qed.

(** The versions a segment has written, is writing and holds. *)
Definition versions_ordered (s : Seg) : Prop :=
  let persisted := default 0%N (seg_persisted_version s) in
  (persisted ≤ default 0 (seg_version s))%N ∧
  ∀ st, seg_flush_thread s = Some (Running st) →
    (persisted ≤ default 0 (ss_version st) ∧ default 0 (ss_version st) ≤ default 0 (seg_version s))%N.

Lemma ordered_idle (s : Seg) :
  seg_flush_thread s = None → (default 0 (seg_persisted_version s) ≤ default 0 (seg_version s))%N → versions_ordered s.
Proof using. intros Ht Hp. split; [done|]. intros st. by rewrite Ht. Qed.

Lemma lock_flushing_versions (s : Seg) :
  versions_ordered s →
  ∃ r s', lock_flushing display_id background s = (r, s') ∧ r ≠ Panic ∧ versions_ordered s' ∧
    seg_version s' = seg_version s ∧ seg_flush_thread s' = None ∧
    (default 0 (seg_persisted_version s) ≤ default 0 (seg_persisted_version s'))%N.
Proof using.
  intros [Hp Hrun]. unfold lock_flushing, run_background, mbind, sm_bind, sm_get, sm_modify.
  destruct (seg_flush_thread s) as [[st|res]|] eqn:Ht.
  - destruct (flush_op_safe display_id background st s) as (r & s1 & -> & [Hm _ _ _] & _ & Hok & Herr). cbn.
    destruct (Hrun st eq_refl) as [H1 H2].
    assert (seg_version s1 = seg_version s) as Hv by (by rewrite Hm).
    assert (default 0 (seg_persisted_version s) ≤ default 0 (seg_persisted_version s1) ∧
            default 0 (seg_persisted_version s1) ≤ default 0 (seg_version s))%N as [H3 H4].
    { destruct r as [v|e|]; [destruct (Hok v eq_refl) as (_ & -> & _); lia|rewrite Herr by done; lia..]. }
    destruct r as [v|e|]; eexists _, _; (split_and!; [done|done| |done|done|done]); apply ordered_idle; cbn; by rewrite ?Hv.
  - rewrite Ht. destruct res as [v|e|]; eexists _, _; (split_and!; [done|done|by apply ordered_idle|done|done|cbn; lia]).
  - rewrite Ht. eexists _, _. (split_and!; [done|done|by apply ordered_idle|done|done|cbn; lia]).
Qed.

Lemma flush_versions (sync : bool) (s : Seg) :
  versions_ordered s →
  ∃ r s', flush display_id outcome background sync s = (r, s') ∧ r ≠ Panic ∧ versions_ordered s' ∧
    seg_version s' = seg_version s ∧
    (default 0 (seg_persisted_version s) ≤ default 0 (seg_persisted_version s'))%N ∧
    ∀ v, r = Ok v → (v ≤ default 0 (seg_persisted_version s'))%N.
Proof using Houtcome.
  intros Hok. pose proof Hok as [Hp Hrun]. unfold flush, mbind, sm_bind, sm_get, sm_modify.
  destruct (negb sync && is_background_flushing s).
  { eexists _, s. split_and!; try done. by intros v [= <-]. }
  destruct (lock_flushing_versions s Hok) as (r & s1 & -> & Hnp & Hok1 & Hv1 & Ht1 & Hp1). pose proof Hok1 as [Hp1' _].
  destruct r as [[]|e|]; [|by eexists _, s1|done].
  assert (∀ w, w = default 0%N (seg_persisted_version s) → ∃ r s', (Ok w : OperationResult SeqNumberType, s1) = (r, s') ∧ r ≠ Panic ∧
    versions_ordered s' ∧ seg_version s' = seg_version s ∧
    (default 0 (seg_persisted_version s) ≤ default 0 (seg_persisted_version s'))%N ∧
    ∀ v, r = Ok v → (v ≤ default 0 (seg_persisted_version s'))%N) as Hsame.
  { intros w ->. eexists _, s1. split_and!; try done. by intros v [= <-]. }
  destruct (seg_version s) as [v|] eqn:Hv; [|by apply Hsame].
  assert (∃ r s', (if sync then flush_op display_id outcome (get_state s) else λ s0,
      (Ok (default 0%N (seg_persisted_version s)), set_flush_thread (Some (Running (get_state s))) s0)) s1 = (r, s') ∧ r ≠ Panic ∧
    versions_ordered s' ∧ seg_version s' = Some v ∧
    (default 0 (seg_persisted_version s) ≤ default 0 (seg_persisted_version s'))%N ∧
    ∀ w, r = Ok w → (w ≤ default 0 (seg_persisted_version s'))%N) as Hstart.
  { destruct sync.
    - pose proof (flush_op_no_panic (get_state s) s1) as Hnp2.
      destruct (flush_op_safe display_id outcome (get_state s) s1) as (r & s2 & Hf & [Hm _ _ _] & Ht2 & Hr & He). rewrite Hf in *.
      assert (seg_version s2 = Some v) as Hv2 by (rewrite Hm; cbn; congruence).
      assert (default 0 (seg_persisted_version s1) ≤ default 0 (seg_persisted_version s2) ∧
              default 0 (seg_persisted_version s2) ≤ v)%N as [H3 H4].
      { rewrite Hv1 in Hp1'. destruct r as [w|e|]; [|rewrite He by done; cbn in Hp1'; lia|done].
        destruct (Hr w eq_refl) as (_ & -> & _). unfold get_state. cbn. rewrite Hv. cbn in *. lia. }
      exists r, s2. split_and!; [done|done|apply ordered_idle; [congruence|by rewrite Hv2]|done|lia|].
      intros w Hw. destruct (Hr w Hw) as (-> & -> & _). done.
    - eexists _, _. split_and!; [done|done| |cbn; congruence|done|by intros w [= <-]]. rewrite Hv1 in Hp1'. split; cbn; [by rewrite Hv1|].
      intros st [= <-]. unfold get_state. cbn. rewrite Hv1, Hv. cbn in *. lia. }
  destruct (seg_persisted_version s) as [w|] eqn:Hw; [|by destruct sync].
  destruct (decide (v = w)) as [->|]; [by apply Hsame|by destruct sync].
Qed.

#[export] Instance segment_flush_entry : @FlushEntry Num SP Seg entry.
Proof using Houtcome.
  refine (@Build_FlushEntry Num SP Seg entry versions_ordered (λ s, default 0%N (seg_persisted_version s)) _).
  intros sync s Hok. destruct (flush_versions sync s Hok) as (r & s' & Hf & Hnp & Hok' & Hv & Hle & Hr).
  unfold sm_wp. cbn. rewrite Hf. unfold seg_version_num. destruct r as [v|e|]; [rewrite Hv; auto|done|done].
Defined.
End segment_flush.

(** ** Witnesses *)

Import SampleInstances.

Definition sample_holder : SegmentHolder SampleSeg :=
  mkHolder (<[1%N := frozen_segment]> {[ 2%N := sample_segment1 ]}) ∅ None.

Lemma sample_holder_segments (P : SampleSeg → Prop) :
  P frozen_segment → P sample_segment1 → ∀ id s, segments sample_holder !! id = Some s → P s.
Proof.
  intros H1 H2 id s. unfold sample_holder. cbn [segments]. rewrite lookup_insert_Some, lookup_singleton_Some.
  intros [[_ <-]|(_ & _ & <-)]; done.
Qed.

Lemma sample_holder_ok : holder_ok (Num:=Z) (SP:=unit) sample_holder.
Proof.
  intros id s Hs. revert s Hs. revert id. apply sample_holder_segments.
  - split; [apply frozen_segment_wf|vm_compute; reflexivity].
  - split; [apply sample_segment1_wf|vm_compute; reflexivity].
Qed.

Lemma deduplicate_keeps_newest_witness :
  let run := deduplicate_points (Num:=Z) (SP:=unit) (sample_holder, tt) in
  run.1 = Ok 1 ∧ deduplicated (Num:=Z) (SP:=unit) sample_holder run.2.1.
Proof.
  intros run. assert (run.1 = Ok 1) as Hr by (vm_compute; reflexivity). split; [exact Hr|].
  pose proof (deduplicate_keeps_newest (Num:=Z) (SP:=unit) sample_holder sample_holder_ok) as Hwp.
  unfold sm_wp in Hwp. fold run in Hwp. destruct run as [r st']. cbn in Hr. subst r. exact Hwp.
Defined.

Lemma flush_succeeds (step : FlushStep) : (Ok tt : OperationResult unit) ≠ Panic.
Proof. discriminate. Qed.

#[local] Instance sample_flush : FlushEntry Z unit SampleSeg :=
  segment_flush_entry no_display "segment" (λ _, Ok tt) (λ _, Ok tt) flush_succeeds.

Lemma flush_all_safe_witness :
  let run := flush_all (Num:=Z) (SP:=unit) true (sample_holder, tt) in
  run.1 = Ok 4%N ∧ ∀ id, is_Some (segments sample_holder !! id) → ∃ s', segments run.2.1 !! id = Some s' ∧
    ((4 ≤ saved (Num:=Z) (SP:=unit) s')%N ∨ (se_version (Num:=Z) (SP:=unit) s' ≤ saved (Num:=Z) (SP:=unit) s')%N).
Proof.
  intros run. assert (run.1 = Ok 4%N) as Hr by (vm_compute; reflexivity). split; [exact Hr|].
  pose proof (flush_all_safe (Num:=Z) (SP:=unit) true sample_holder) as Hwp.
  unfold sm_wp in Hwp. fold run in Hwp. destruct run as [r st']. cbn in Hr. subst r. apply Hwp.
  apply sample_holder_segments; apply ordered_idle; vm_compute; [reflexivity|discriminate|reflexivity|discriminate].
Defined.
