(* ===== verification/RetrieveSpec.v ===== *)
(** * Retrieving points

    A point that is in several segments is read from the one with its newest
    version. *)

From stdpp Require Import base gmap strings list sorting.
From Stdlib Require Import ZArith SpecFloat Lia.
From S2P Require Import Prelude Types Rocks IdTracker NamedVectors VectorStorage Text Filters Estimator TopK Spaces.
From S2P Require Import PayloadStorage FieldIndex FieldIndexEnum FieldIndexLaws QueryOptimizer.
From S2P Require Import StructPayloadIndex PayloadIndexSpec PayloadIndexLaws Segment PlainIndex SegmentSpec SearchSpec.
From S2P Require Import SegmentEntry SegmentHolder Samples HolderSpec Requests SegmentsSearcher.

Section retrieve.
Context {Num E : Type} {HS : Simd} `{!SegmentEntry Num SearchParams E, !SegmentEntryLaws Num SearchParams E}.
Context (display_id : PointIdType → string).
Abbreviation Holder := (SegmentHolder E).
Abbreviation Records := (gmap PointIdType SeqNumberType * gmap PointIdType (PointRecord Num))%type.

(** The record shows the point. *)
Definition record_shows (with_payload : WithPayload) (with_vector : WithVector) (e : PointIdType) (pt : Point Num)
    (rec : PointRecord Num) : Prop :=
  rec_id rec = e ∧ rec_payload rec = shown_payload with_payload pt ∧
  shows_vectors with_vector (pt_vectors pt) (rec_vector rec).

(** The vectors that are asked for exist. *)
Definition selectable (with_vector : WithVector) (pt : Point Num) : Prop := vectors_exist with_vector (pt_vectors pt).

Lemma record_of_ok s e pt with_payload with_vector :
  entry_wf s → entry_point s e = Some pt → selectable with_vector pt →
  ∃ rec, record_of e s with_payload with_vector = Ok rec ∧ record_shows with_payload with_vector e pt rec.
Proof using.
  intros Hwf Hpt Hsel. unfold record_of.
  assert ((if enable with_payload then
      payload ← se_payload s e;
      Ok (Some (match payload_selector with_payload with Some selector => selector_process selector payload | None => payload end))
    else Ok None) = Ok (E:=OperationError) (shown_payload with_payload pt)) as ->.
  { unfold shown_payload. destruct (enable with_payload); [|done]. by rewrite (payload_spec s e pt). }
  cbn [mbind result_bind]. destruct with_vector as [[]|names].
  - destruct (all_vectors_spec s e pt Hwf Hpt) as (vs & -> & Hnd & Hv). cbn [mbind result_bind].
    destruct (vector_struct_from_view vs Hnd) as (v & -> & _ & Hview). cbn. eexists. split; [done|].
    split_and!; [done..|]. exists v. by rewrite Hview, Hv.
  - cbn. eexists. split; [done|]. done.
  - destruct (collected_shown (λ name, se_vector s name e) (pt_vectors pt) names) as (vs & v & -> & Hv & Hshow).
    { intros name Hn. destruct (Hsel name Hn) as [v Hv]. exists v. split; [by eapply vector_spec|done]. }
    cbn [mbind result_bind]. rewrite Hv. eexists. split; [done|]. split_and!; [done..|]. by exists v.
Qed.

Section loop.
Context (h : Holder) (ids : list PointIdType) (with_payload : WithPayload) (with_vector : WithVector).
Context (Hok : ∀ idx s, segments h !! idx = Some s → entry_wf s).
Context (Hsel : ∀ idx e pt, copy h idx e = Some pt → selectable with_vector pt).

(** The records of the copies seen so far. *)
Definition newest (P : SegmentId → PointIdType → Prop) (st : Holder * Records) : Prop :=
  st.1 = h ∧ ∀ e,
    match st.2.1 !! e, st.2.2 !! e with
    | Some v, Some rec => e ∈ ids ∧ (∃ idx pt, copy h idx e = Some pt ∧ pt_version pt = v ∧
        record_shows with_payload with_vector e pt rec) ∧
        ∀ idx pt, P idx e → copy h idx e = Some pt → (pt_version pt ≤ v)%N
    | None, None => ∀ idx, P idx e → copy h idx e = None
    | _, _ => False
    end.

Lemma newest_mono (P Q : SegmentId → PointIdType → Prop) st :
  (∀ idx e, Q idx e → copy h idx e = None ∨ P idx e) → newest P st → newest Q st.
Proof using.
  intros HPQ [Hh Hn]. split; [done|]. intros e. specialize (Hn e).
  destruct (st.2.1 !! e), (st.2.2 !! e); try done.
  - destruct Hn as (He & Hex & Hle). split_and!; [done..|]. intros idx pt [Hc|HP]%HPQ Hpt; [congruence|eauto].
  - intros idx [Hc|HP]%HPQ; auto.
Qed.

Lemma retrieve_point_wp P idx s e st :
  segments h !! idx = Some s → e ∈ ids → is_Some (entry_point s e) → newest P st →
  sm_wp (with_segment idx (λ p, let '(r, x) := retrieve_point display_id with_payload with_vector e p.1 p.2 in (r, (p.1, x))))
    (λ _ st', newest (λ idx' e', P idx' e' ∨ (idx' = idx ∧ e' = e)) st') (λ _ _, False) st.
Proof using Hok Hsel.
  intros Hs He [pt Hpt] [Hh Hn]. destruct st as [h' [vers recs]]. cbn in Hh, Hn. subst h'.
  eapply with_segment_wp; [done|]. pose proof (Hok idx s Hs) as Hwf.
  assert (copy h idx e = Some pt) as Hc by (unfold copy; by rewrite Hs).
  assert (set_segments (<[idx:=s]> (segments h)) h = h) as Hid by (destruct h; unfold set_segments; cbn in *; by rewrite insert_id).
  unfold sm_wp, retrieve_point. cbn [fst snd]. rewrite (point_version_spec s e pt Hwf Hpt). pose proof (Hn e) as Hne.
  destruct (map_or true (λ v, v <? pt_version pt)%N (vers !! e)) eqn:Hnew.
  - destruct (record_of_ok s e pt with_payload with_vector Hwf Hpt (Hsel _ _ _ Hc)) as (rec & -> & Hrec). cbn [fst snd].
    rewrite Hid. split; [done|]. intros e'. cbn. destruct (decide (e' = e)) as [->|Hd].
    + rewrite !lookup_insert_eq. split_and!; [done|by exists idx, pt|]. intros idx' pt' [HP|[-> _]] Hc'.
      * destruct (vers !! e) as [v|], (recs !! e) as [rec'|]; cbn in Hnew; try done.
        -- destruct Hne as (_ & _ & Hle). apply N.ltb_lt in Hnew. specialize (Hle _ _ HP Hc'). lia.
        -- rewrite Hne in Hc' by done. done.
      * assert (pt' = pt) as -> by congruence. done.
    + rewrite !lookup_insert_ne by done. specialize (Hn e'). destruct (vers !! e'), (recs !! e'); naive_solver.
  - cbn [fst snd]. rewrite Hid. split; [done|]. intros e'. cbn. specialize (Hn e').
    destruct (decide (e' = e)) as [->|Hd]; [|destruct (vers !! e'), (recs !! e'); naive_solver].
    destruct (vers !! e) as [v|], (recs !! e) as [rec'|]; cbn in Hnew; try done.
    destruct Hne as (He' & Hex & Hle). split_and!; [done..|]. intros idx' pt' [HP|[-> _]] Hc'; [by eapply Hle|].
    apply N.ltb_ge in Hnew. congruence.
Qed.

Lemma read_points_wp :
  sm_wp (read_points ids (retrieve_point display_id with_payload with_vector))
    (λ _ st, newest (λ idx e, e ∈ ids) st) (λ _ _, False) (h, (∅, ∅)).
Proof using Hok Hsel.
  unfold read_points. apply sm_wp_bind. cbn [sm_get sm_wp fst].
  eapply sm_wp_mono; [apply (sm_wp_fold _ (λ pre _ st, newest (λ idx e, idx ∈ pre ∧ e ∈ ids) st))| |intros ?? HF; exact HF].
  - split; [done|]. intros e. cbn. rewrite !lookup_empty. by intros idx [?%not_elem_of_nil _].
  - intros pre idx post n st Heq Hn. cbn [fst] in Heq. pose proof Hn as [Hh _].
    assert (is_Some (segments h !! idx)) as [s Hs].
    { assert (idx ∈ (map_to_list (segments h)).*1) as Hin by (rewrite Heq, elem_of_app; right; left).
      apply list_elem_of_fmap in Hin as ([i s] & -> & Hi%elem_of_map_to_list). eauto. }
    apply sm_wp_bind. eapply read_segment_wp; [by rewrite Hh|done|].
    eapply sm_wp_mono; [apply (sm_wp_fold _ (λ pre' _ st, newest (λ idx' e', (idx' ∈ pre ∧ e' ∈ ids) ∨ (idx' = idx ∧ e' ∈ pre')) st))| |intros ?? HF; exact HF].
    + eapply newest_mono; [|done]. intros idx' e' [?|[_ ?%not_elem_of_nil]]; [by right|done].
    + intros pre' e post' n' st' Heq' Hn'. apply sm_wp_bind.
      assert (e ∈ segment_points ids s) as Hin by (rewrite Heq', elem_of_app; right; left).
      apply list_elem_of_filter in Hin as [Hhas Hin]. rewrite (has_point_spec s e (Hok _ _ Hs)) in Hhas.
      apply bool_decide_eq_true in Hhas. eapply sm_wp_mono; [exact (retrieve_point_wp _ idx s e st' Hs Hin Hhas Hn')| |intros ?? HF; exact HF].
      intros b st2 Hst2. apply sm_wp_ret. eapply newest_mono; [|exact Hst2].
      intros idx' e' [?|[-> [?|Hx]%elem_of_app]]; [auto..|]. apply list_elem_of_singleton in Hx. auto.
    + intros n' st' Hst'. eapply newest_mono; [|exact Hst']. intros idx' e' [[?|Hx]%elem_of_app He']; [auto|].
      apply list_elem_of_singleton in Hx as ->.
      destruct (copy h idx e') as [pt|] eqn:Hc; [|by left]. right. right. split; [done|]. unfold copy in Hc. rewrite Hs in Hc.
      apply list_elem_of_filter. split; [|done]. rewrite (has_point_spec s e' (Hok _ _ Hs)). apply bool_decide_eq_true. eauto.
  - intros n st Hst. eapply newest_mono; [|exact Hst]. intros idx e He.
    destruct (copy h idx e) as [pt|] eqn:Hc; [|by left]. right. split; [|done]. unfold copy in Hc.
    destruct (segments h !! idx) as [s|] eqn:Hs; [|done]. apply list_elem_of_fmap. exists (idx, s). split; [done|].
    by apply elem_of_map_to_list.
Qed.
End loop.

Lemma searcher_retrieve_ok (h : Holder) ids with_payload with_vector
  (Hok : ∀ idx s, segments h !! idx = Some s → entry_wf s)
  (Hsel : ∀ idx e pt, copy h idx e = Some pt → selectable with_vector pt) :
  ∃ recs, searcher_retrieve display_id h ids with_payload with_vector = Ok recs ∧ NoDup (rec_id <$> recs) ∧
    (∀ e, e ∈ rec_id <$> recs ↔ e ∈ ids ∧ ∃ idx, is_Some (copy h idx e)) ∧
    ∀ rec, rec ∈ recs → ∃ idx pt, copy h idx (rec_id rec) = Some pt ∧
      record_shows with_payload with_vector (rec_id rec) pt rec ∧
      ∀ idx' pt', copy h idx' (rec_id rec) = Some pt' → (pt_version pt' ≤ pt_version pt)%N.
Proof using.
  pose proof (read_points_wp h ids with_payload with_vector Hok Hsel) as Hwp. unfold sm_wp, searcher_retrieve in *.
  destruct (read_points _ _ _) as [[n|e|] [h' [vers recs]]]; [|done|done]. destruct Hwp as [_ Hn]. cbn in Hn.
  exists (map_to_list recs).*2. split; [done|].
  assert (∀ e rec, recs !! e = Some rec → rec_id rec = e) as Hid.
  { intros e rec Hr. specialize (Hn e). rewrite Hr in Hn. destruct (vers !! e); [|done].
    by destruct Hn as (_ & (_ & _ & _ & _ & ? & _) & _). }
  assert (rec_id <$> (map_to_list recs).*2 = (map_to_list recs).*1) as Hkeys.
  { rewrite <-list_fmap_compose. apply list_fmap_ext. intros i [e rec] Hi. cbn. apply Hid.
    apply elem_of_map_to_list. by eapply list_elem_of_lookup_2. }
  rewrite Hkeys. split_and!.
  - apply NoDup_fst_map_to_list.
  - intros e. rewrite list_elem_of_fmap. split.
    + intros ([e' rec] & -> & Hr%elem_of_map_to_list). cbn. specialize (Hn e'). rewrite Hr in Hn.
      destruct (vers !! e'); [|done]. destruct Hn as (He & (idx & pt & Hc & _) & _). eauto.
    + intros (He & idx & pt & Hc). specialize (Hn e). destruct (recs !! e) as [rec|] eqn:Hr.
      * exists (e, rec). split; [done|]. by apply elem_of_map_to_list.
      * destruct (vers !! e); [done|]. rewrite Hn in Hc by done. done.
  - intros rec ([e rec'] & -> & Hr%elem_of_map_to_list)%list_elem_of_fmap. cbn. rewrite (Hid e rec' Hr).
    specialize (Hn e). rewrite Hr in Hn. destruct (vers !! e); [|done].
    destruct Hn as (He & (idx & pt & Hc & <- & Hs) & Hle). exists idx, pt. split_and!; [done..|]. eauto.
Qed.

(** C23: retrieving points returns without error one record for each of the ids
    that some segment has and none for the others, and the record shows the
    payload and the vectors of a copy of the point with its newest version.
    The vectors that are asked for by name are ones that every point has. *)
Theorem retrieve_newest (h : Holder) ids with_payload with_vector
  (Hok : ∀ idx s, segments h !! idx = Some s → entry_wf s)
  (Hsel : ∀ idx e pt, copy h idx e = Some pt → selectable with_vector pt) :
  ∃ recs, searcher_retrieve display_id h ids with_payload with_vector = Ok recs ∧ NoDup (rec_id <$> recs) ∧
    (∀ e, e ∈ rec_id <$> recs ↔ e ∈ ids ∧ ∃ idx, is_Some (copy h idx e)) ∧
    ∀ rec, rec ∈ recs → ∃ idx pt, copy h idx (rec_id rec) = Some pt ∧
      record_shows with_payload with_vector (rec_id rec) pt rec ∧
      ∀ idx' pt', copy h idx' (rec_id rec) = Some pt' → (pt_version pt' ≤ pt_version pt)%N.
Proof using. by apply searcher_retrieve_ok. Qed.
End retrieve.

(** ** Witness *)

Import SampleInstances.
#[local] Existing Instance plain_index.
#[local] Instance retrieve_entry : SegmentEntry Z SearchParams SampleSeg :=
  segment_entry no_display "segment" (λ _, Ok tt) (λ _, Ok tt).
#[local] Instance retrieve_laws : SegmentEntryLaws Z SearchParams SampleSeg :=
  segment_entry_laws no_display "segment" (λ _, Ok tt) (λ _, Ok tt).

(** Point 7 was written anew, and its old copy has not been deleted yet. *)
Definition newer_segment : SampleSeg :=
  (run_seg_op no_display 6 (OpUpsert (NumId 7) [("", [f32_zero; f32_one])]) empty_segment).2.

Lemma newer_segment_wf : seg_wf newer_segment.
Proof.
  apply (run_seg_op_wf 6 (OpUpsert (NumId 7) [("", [f32_zero; f32_one])]) empty_segment false);
    [apply empty_segment_wf|exact I| |vm_compute; reflexivity|vm_compute; reflexivity].
  split; [apply NoDup_singleton|]. split; [apply sample_fit|intros _; vm_compute; reflexivity].
Qed.

Definition two_copies : SegmentHolder SampleSeg :=
  mkHolder {[ 1%N := sample_segment; 2%N := newer_segment ]} ∅ None.

Lemma retrieve_newest_witness :
  ∃ recs rec, searcher_retrieve no_display two_copies [NumId 7; NumId 8] {| enable := true; payload_selector := None |}
      (WVBool true) = Ok recs ∧ rec_id <$> recs = [NumId 7] ∧ rec ∈ recs ∧
    ∃ pt, copy two_copies 2 (NumId 7) = Some pt ∧ (pt_version pt = 6)%N ∧
      record_shows {| enable := true; payload_selector := None |} (WVBool true) (NumId 7) pt rec.
Proof.
  destruct (retrieve_newest no_display two_copies [NumId 7; NumId 8] {| enable := true; payload_selector := None |} (WVBool true))
    as (recs & Hr & _ & _ & Hrec).
  - intros idx s. change (segments two_copies) with (<[1%N := sample_segment]> {[2%N := newer_segment]} : gmap N SampleSeg).
    intros [[_ <-]|[_ Hi]]%lookup_insert_Some; [apply sample_segment_wf|].
    apply lookup_singleton_Some in Hi as [_ <-]. apply newer_segment_wf.
  - intros. exact I.
  - assert (match searcher_retrieve no_display two_copies [NumId 7; NumId 8] {| enable := true; payload_selector := None |}
      (WVBool true) with Ok recs => rec_id <$> recs | _ => [] end = [NumId 7]) as Hids by (vm_compute; reflexivity).
    rewrite Hr in Hids. destruct recs as [|rec [|rec2 recs]]; [discriminate Hids| |discriminate Hids].
    exists [rec], rec. split_and!; [exact Hr|exact Hids|left|]. injection Hids as Hid.
    destruct (Hrec rec) as (idx & pt & Hc & Hs & Hle); [left|]. rewrite Hid in Hc, Hs, Hle.
    assert (∃ pt2, copy two_copies 2 (NumId 7) = Some pt2 ∧ pt_version pt2 = 6%N) as (pt2 & Hc2 & Hv2).
    { eexists. split; [vm_compute; reflexivity|reflexivity]. }
    assert (∃ pt1, copy two_copies 1 (NumId 7) = Some pt1 ∧ pt_version pt1 = 3%N) as (pt1 & Hc1 & Hv1).
    { eexists. split; [vm_compute; reflexivity|reflexivity]. }
    pose proof (Hle 2%N pt2 Hc2) as Hge. rewrite Hv2 in Hge.
    assert (idx = 2%N) as ->.
    { destruct (decide (idx = 1%N)) as [->|H1]; [rewrite Hc1 in Hc; injection Hc as <-; rewrite Hv1 in Hge; lia|].
      destruct (decide (idx = 2%N)) as [|H2]; [assumption|]. exfalso. unfold copy in Hc.
      change (segments two_copies) with (<[1%N := sample_segment]> {[2%N := newer_segment]} : gmap N SampleSeg) in Hc.
      rewrite lookup_insert_ne, lookup_singleton_ne in Hc by congruence. discriminate Hc. }
    exists pt. rewrite Hc2 in Hc. injection Hc as <-. split_and!; [exact Hc2|exact Hv2|exact Hs].
Defined.
