(* ===== verification/ProxySegment.v ===== *)
(** * Proxy segments

    Models [ProxySegment] of
    [lib/collection/src/collection_manager/holders/proxy_segment.rs], the
    stand-in of a segment that is being optimized, and the sum [LockedSegment]
    of [segment_holder.rs].

    The proxy reads both of its segments and writes to one of them.  Both have
    the interface of [SegmentEntry.v].  The parts that the source keeps behind
    [Arc]s are fields of the state; [ProxySpec.v] says what other proxies that
    share them see.  A method that locks several parts is one step.

    Not modelled: [data_path], [drop_data], snapshots and telemetry; the sizes
    in bytes of [info], which segments leave at zero. *)

From stdpp Require Import base gmap strings list sorting.
From Stdlib Require Import ZArith Lia SpecFloat.
From S2P Require Import Prelude Types NamedVectors Filters Estimator FieldIndexEnum Segment SegmentEntry Requests.

(** ** Equality of primary conditions *)

(** The derived [PartialEq]. *)
Definition primary_eqb (x y : PrimaryCondition) : bool :=
  match x, y with
  | PCondition c, PCondition d => field_condition_eqb c d
  | PIsEmpty k, PIsEmpty l | PIsNull k, PIsNull l => bool_decide (k = l)
  | PIds a, PIds b => bool_decide (a = b)
  | _, _ => false
  end.

Definition clauses_eqb : list PrimaryCondition → list PrimaryCondition → bool := list_eqb primary_eqb.

#[export] Instance schema_eq_dec : EqDecision PayloadFieldSchema.
Proof. unfold EqDecision, Decision. repeat decide equality. Defined.

(** ** The proxy *)

Record ProxySegment (E : Type) := mkProxy {
  write_segment : E;
  wrapped_segment : E;
  deleted_points : gset PointIdType;
  deleted_indexes : gset PayloadKeyType;
  created_indexes : gmap PayloadKeyType PayloadFieldSchema;
  last_flushed_version : option SeqNumberType;
}.
Arguments mkProxy {E}.
Arguments write_segment {E}.
Arguments wrapped_segment {E}.
Arguments deleted_points {E}.
Arguments deleted_indexes {E}.
Arguments created_indexes {E}.
Arguments last_flushed_version {E}.

Definition add_deleted_points_condition_to_filter (filter : option Filter) (deleted : gset PointIdType) : Filter :=
  let wrapper_condition := CHasId deleted in
  match filter with
  | None => new_must_not wrapper_condition
  | Some (mkFilter should must must_not) =>
      let new_must_not := match must_not with
        | None => Some [wrapper_condition]
        | Some conditions => Some (conditions ++ [wrapper_condition])
        end in
      mkFilter should must new_must_not
  end.

Section proxy.
Context {Num SP E : Type} `{!SegmentEntry Num SP E}.
Abbreviation PSeg := (ProxySegment E).
Abbreviation POp := (sm PSeg OperationError).

Definition proxy_new (segment write_segment : E) (deleted_points : gset PointIdType)
    (created_indexes : gmap PayloadKeyType PayloadFieldSchema) (deleted_indexes : gset PayloadKeyType) : PSeg :=
  mkProxy write_segment segment deleted_points deleted_indexes created_indexes None.

Definition set_write (w : E) (s : PSeg) : PSeg :=
  mkProxy w (wrapped_segment s) (deleted_points s) (deleted_indexes s) (created_indexes s) (last_flushed_version s).
Definition set_wrapped (w : E) (s : PSeg) : PSeg :=
  mkProxy (write_segment s) w (deleted_points s) (deleted_indexes s) (created_indexes s) (last_flushed_version s).
Definition set_deleted_points (d : gset PointIdType) (s : PSeg) : PSeg :=
  mkProxy (write_segment s) (wrapped_segment s) d (deleted_indexes s) (created_indexes s) (last_flushed_version s).
Definition set_indexes (d : gset PayloadKeyType) (c : gmap PayloadKeyType PayloadFieldSchema) (s : PSeg) : PSeg :=
  mkProxy (write_segment s) (wrapped_segment s) (deleted_points s) d c (last_flushed_version s).
Definition set_last_flushed (v : option SeqNumberType) (s : PSeg) : PSeg :=
  mkProxy (write_segment s) (wrapped_segment s) (deleted_points s) (deleted_indexes s) (created_indexes s) v.

Definition on_write {A} : sm E OperationError A → POp A := sm_zoom write_segment set_write.
Definition on_wrapped {A} : sm E OperationError A → POp A := sm_zoom wrapped_segment set_wrapped.

(** *** Field indexes of the write segment *)

Definition replicate_field (op_num : SeqNumberType) (existing_indexes : gmap PayloadKeyType PayloadFieldSchema)
    (field : PayloadKeyType * PayloadFieldSchema) : POp unit :=
  let '(expected_field, expected_schema) := field in
  let existing_schema := existing_indexes !! expected_field in
  if decide (existing_schema = Some expected_schema) then mret tt
  else
    _ ← match existing_schema with
        | Some _ => _ ← on_write (se_delete_field_index (Num:=Num) (SP:=SP) op_num expected_field); mret tt
        | None => mret tt
        end;
    _ ← on_write (se_create_field_index (Num:=Num) (SP:=SP) op_num expected_field (Some expected_schema));
    mret tt.

Definition replicate_field_indexes (op_num : SeqNumberType) : POp unit :=
  s ← sm_get;
  let existing_indexes := se_get_indexed_fields (Num:=Num) (SP:=SP) (write_segment s) in
  let expected_indexes := se_get_indexed_fields (Num:=Num) (SP:=SP) (wrapped_segment s) in
  _ ← sm_for (replicate_field op_num existing_indexes) (map_to_list expected_indexes);
  sm_for (λ existing_field,
    if decide (expected_indexes !! existing_field = None)
    then _ ← on_write (se_delete_field_index (Num:=Num) (SP:=SP) op_num existing_field); mret tt
    else mret tt) (map_to_list existing_indexes).*1.

(** *** Updates *)

Definition move_if_exists (op_num : SeqNumberType) (point_id : PointIdType) : POp bool :=
  s ← sm_get;
  if decide (point_id ∈ deleted_points s) then mret false
  else if negb (se_has_point (wrapped_segment s) point_id) then mret false
  else
    all_vectors ← sm_lift (se_all_vectors (wrapped_segment s) point_id);
    payload ← sm_lift (se_payload (wrapped_segment s) point_id);
    _ ← sm_modify (set_deleted_points ({[ point_id ]} ∪ deleted_points s));
    _ ← on_write (se_upsert_vector (Num:=Num) (SP:=SP) op_num point_id all_vectors);
    _ ← on_write (se_set_full_payload (SP:=SP) op_num point_id payload);
    mret true.

Definition proxy_upsert_vector (op_num : SeqNumberType) (point_id : PointIdType) (vectors : NamedVectors) : POp bool :=
  _ ← move_if_exists op_num point_id;
  on_write (se_upsert_vector (Num:=Num) (SP:=SP) op_num point_id vectors).

Definition proxy_delete_point (op_num : SeqNumberType) (point_id : PointIdType) : POp bool :=
  s ← sm_get;
  was_deleted ← (if se_has_point (wrapped_segment s) point_id
                 then _ ← sm_modify (set_deleted_points ({[ point_id ]} ∪ deleted_points s)); mret true
                 else mret false);
  was_deleted_in_writable ← on_write (se_delete_point (Num:=Num) (SP:=SP) op_num point_id);
  mret (was_deleted || was_deleted_in_writable).

Definition proxy_set_full_payload (op_num : SeqNumberType) (point_id : PointIdType) (full_payload : Payload Num) :
    POp bool :=
  _ ← move_if_exists op_num point_id;
  on_write (se_set_full_payload (SP:=SP) op_num point_id full_payload).

Definition proxy_set_payload (op_num : SeqNumberType) (point_id : PointIdType) (payload : Payload Num) : POp bool :=
  _ ← move_if_exists op_num point_id;
  on_write (se_set_payload (SP:=SP) op_num point_id payload).

Definition proxy_delete_payload (op_num : SeqNumberType) (point_id : PointIdType) (key : PayloadKeyType) : POp bool :=
  _ ← move_if_exists op_num point_id;
  on_write (se_delete_payload (Num:=Num) (SP:=SP) op_num point_id key).

Definition proxy_clear_payload (op_num : SeqNumberType) (point_id : PointIdType) : POp bool :=
  _ ← move_if_exists op_num point_id;
  on_write (se_clear_payload (Num:=Num) (SP:=SP) op_num point_id).

Definition proxy_delete_filtered (op_num : SeqNumberType) (filter : Filter) : POp nat :=
  s ← sm_get;
  points_to_delete ← sm_lift (se_read_filtered (Num:=Num) (SP:=SP) (wrapped_segment s) None None (Some filter));
  _ ← sm_modify (set_deleted_points (deleted_points s ∪ list_to_set points_to_delete));
  deleted ← on_write (se_delete_filtered (Num:=Num) (SP:=SP) op_num filter);
  mret (length points_to_delete + deleted).

(** *** Reads of a point *)

Definition proxy_version (self : PSeg) : SeqNumberType :=
  N.max (se_version (Num:=Num) (SP:=SP) (wrapped_segment self)) (se_version (Num:=Num) (SP:=SP) (write_segment self)).

Definition proxy_point_version (self : PSeg) (point_id : PointIdType) : option SeqNumberType :=
  match se_point_version (Num:=Num) (SP:=SP) (write_segment self) point_id with
  | Some version => Some version
  | None => se_point_version (Num:=Num) (SP:=SP) (wrapped_segment self) point_id
  end.

(** The segment that the reads of a point go to. *)
Definition reads_write (self : PSeg) (point_id : PointIdType) : bool :=
  bool_decide (point_id ∈ deleted_points self) || se_has_point (Num:=Num) (SP:=SP) (write_segment self) point_id.

Definition proxy_vector (self : PSeg) (vector_name : string) (point_id : PointIdType) : OperationResult VectorType :=
  if reads_write self point_id then se_vector (Num:=Num) (SP:=SP) (write_segment self) vector_name point_id
  else se_vector (Num:=Num) (SP:=SP) (wrapped_segment self) vector_name point_id.

Definition proxy_all_vectors (self : PSeg) (point_id : PointIdType) : OperationResult NamedVectors :=
  res_fold (λ vector_name result,
    v ← proxy_vector self vector_name point_id; Ok (nv_insert vector_name v result))
    (map_to_list (sc_vector_data (se_config (Num:=Num) (SP:=SP) (wrapped_segment self)))).*1 [].

Definition proxy_payload (self : PSeg) (point_id : PointIdType) : OperationResult (Payload Num) :=
  if reads_write self point_id then se_payload (SP:=SP) (write_segment self) point_id
  else se_payload (SP:=SP) (wrapped_segment self) point_id.

Definition proxy_has_point (self : PSeg) (point_id : PointIdType) : bool :=
  if decide (point_id ∈ deleted_points self) then se_has_point (Num:=Num) (SP:=SP) (write_segment self) point_id
  else se_has_point (Num:=Num) (SP:=SP) (write_segment self) point_id ||
       se_has_point (Num:=Num) (SP:=SP) (wrapped_segment self) point_id.

(** *** Searches and scrolls *)

(** The filter the wrapped segment gets. *)
Definition wrapped_filter (self : PSeg) (filter : option Filter) : option Filter :=
  if decide (deleted_points self = ∅) then filter
  else Some (add_deleted_points_condition_to_filter filter (deleted_points self)).

Definition proxy_search (self : PSeg) (vector_name : string) (vector : VectorType) (with_payload : WithPayload)
    (with_vector : WithVector) (filter : option Filter) (top : nat) (params : option SP) :
    OperationResult (list (ScoredPoint Num)) :=
  wrapped_result ← se_search (wrapped_segment self) vector_name vector with_payload with_vector
                     (wrapped_filter self filter) top params;
  write_result ← se_search (write_segment self) vector_name vector with_payload with_vector filter top params;
  Ok (wrapped_result ++ write_result).

Definition proxy_search_batch (self : PSeg) (vector_name : string) (vectors : list VectorType)
    (with_payload : WithPayload) (with_vector : WithVector) (filter : option Filter) (top : nat)
    (params : option SP) : OperationResult (list (list (ScoredPoint Num))) :=
  wrapped_results ← se_search_batch (wrapped_segment self) vector_name vectors with_payload with_vector
                      (wrapped_filter self filter) top params;
  write_results ← se_search_batch (write_segment self) vector_name vectors with_payload with_vector filter top params;
  res_fold (λ iw acc,
    wrapped_result ← unwrap (acc !! iw.1);
    Ok (<[iw.1 := wrapped_result ++ iw.2]> acc)) (imap pair write_results) wrapped_results.

Definition proxy_read_filtered (self : PSeg) (offset : option PointIdType) (limit : option nat)
    (filter : option Filter) : OperationResult (list PointIdType) :=
  read_points ← se_read_filtered (Num:=Num) (SP:=SP) (wrapped_segment self) offset limit (wrapped_filter self filter);
  write_segment_points ← se_read_filtered (Num:=Num) (SP:=SP) (write_segment self) offset limit filter;
  Ok (sort_ids (read_points ++ write_segment_points)).

Definition proxy_read_range (self : PSeg) (from to : option PointIdType) : list PointIdType :=
  let read_points := se_read_range (Num:=Num) (SP:=SP) (wrapped_segment self) from to in
  let read_points := base.filter (λ idx, idx ∉ deleted_points self) read_points in
  let write_segment_points := se_read_range (Num:=Num) (SP:=SP) (write_segment self) from to in
  sort_ids (read_points ++ write_segment_points).

(** *** Counts *)

Definition proxy_points_count (self : PSeg) : nat :=
  (se_points_count (Num:=Num) (SP:=SP) (wrapped_segment self) + se_points_count (Num:=Num) (SP:=SP) (write_segment self))
  - size (deleted_points self).

Definition proxy_estimate_points_count (self : PSeg) (filter : option Filter) : OperationResult CardinalityEstimation :=
  let deleted_points_count := N.of_nat (size (deleted_points self)) in
  wrapped_segment_est ← se_estimate_points_count (Num:=Num) (SP:=SP) (wrapped_segment self) filter;
  let total_wrapped_size := N.of_nat (se_points_count (Num:=Num) (SP:=SP) (wrapped_segment self)) in
  write_segment_est ← se_estimate_points_count (Num:=Num) (SP:=SP) (write_segment self) filter;
  let expected_deleted_count :=
    if (0 <? total_wrapped_size)%N
    then f64_trunc_usize (f64_mul (f64_of_N (est_exp wrapped_segment_est))
           (f64_div (f64_of_N deleted_points_count) (f64_of_N total_wrapped_size)))
    else 0%N in
  let clauses :=
    if clauses_eqb (primary_clauses wrapped_segment_est) (primary_clauses write_segment_est)
    then primary_clauses wrapped_segment_est else [] in
  Ok (mkEstimation clauses
    (est_min wrapped_segment_est - deleted_points_count + est_min write_segment_est)%N
    (est_exp wrapped_segment_est + est_exp write_segment_est - expected_deleted_count)%N
    (est_max wrapped_segment_est + est_max write_segment_est)%N).

Definition proxy_info (self : PSeg) : OperationResult SegmentInfo :=
  wrapped_info ← se_info (Num:=Num) (SP:=SP) (wrapped_segment self);
  write_info ← se_info (Num:=Num) (SP:=SP) (write_segment self);
  let num_vectors := size (sc_vector_data (se_config (Num:=Num) (SP:=SP) (wrapped_segment self))) in
  Ok (mkSegmentInfo Special (proxy_points_count self * num_vectors) (proxy_points_count self)
        (si_num_deleted_vectors write_info) false (si_index_schema wrapped_info)).

(** *** Flushing *)

Definition proxy_flush (sync : bool) : POp SeqNumberType :=
  s ← sm_get;
  if decide (deleted_points s = ∅ ∧ deleted_indexes s = ∅ ∧ created_indexes s = ∅) then
    wrapped_version ← on_wrapped (se_flush (Num:=Num) (SP:=SP) sync);
    write_segment_version ← on_write (se_flush (Num:=Num) (SP:=SP) sync);
    let flushed_version := N.max wrapped_version write_segment_version in
    _ ← sm_modify (set_last_flushed (Some flushed_version));
    mret flushed_version
  else mret (default (se_version (Num:=Num) (SP:=SP) (wrapped_segment s)) (last_flushed_version s)).

(** *** Field indexes *)

Definition proxy_delete_field_index (op_num : SeqNumberType) (key : PayloadKeyType) : POp bool :=
  s ← sm_get;
  if (op_num <? proxy_version s)%N then mret false
  else
    _ ← sm_modify (set_indexes ({[ key ]} ∪ deleted_indexes s) (delete key (created_indexes s)));
    on_write (se_delete_field_index (Num:=Num) (SP:=SP) op_num key).

Definition proxy_create_field_index (op_num : SeqNumberType) (key : PayloadKeyType)
    (field_schema : option PayloadFieldSchema) : POp bool :=
  s ← sm_get;
  if (op_num <? proxy_version s)%N then mret false
  else
    _ ← on_write (se_create_field_index (Num:=Num) (SP:=SP) op_num key field_schema);
    s ← sm_get;
    match se_get_indexed_fields (Num:=Num) (SP:=SP) (write_segment s) !! key with
    | None => mret false
    | Some payload_schema =>
        _ ← sm_modify (set_indexes (deleted_indexes s ∖ {[ key ]}) (<[key := payload_schema]> (created_indexes s)));
        mret true
    end.

(** [collect] keeps the last of two entries with one key. *)
Definition proxy_get_indexed_fields (self : PSeg) : gmap PayloadKeyType PayloadFieldSchema :=
  base.filter (λ kv : PayloadKeyType * PayloadFieldSchema, kv.1 ∉ deleted_indexes self)
    (created_indexes self ∪ se_get_indexed_fields (Num:=Num) (SP:=SP) (wrapped_segment self)).

#[export] Instance proxy_entry : SegmentEntry Num SP PSeg := {|
  se_version := proxy_version;
  se_point_version := proxy_point_version;
  se_search := proxy_search;
  se_search_batch := proxy_search_batch;
  se_upsert_vector := proxy_upsert_vector;
  se_delete_point := proxy_delete_point;
  se_set_payload := proxy_set_payload;
  se_set_full_payload := proxy_set_full_payload;
  se_delete_payload := proxy_delete_payload;
  se_clear_payload := proxy_clear_payload;
  se_vector := proxy_vector;
  se_all_vectors := proxy_all_vectors;
  se_payload := proxy_payload;
  se_iter_points _ := Panic;
  se_read_filtered := proxy_read_filtered;
  se_read_range := proxy_read_range;
  se_has_point := proxy_has_point;
  se_points_count := proxy_points_count;
  se_estimate_points_count := proxy_estimate_points_count;
  se_deleted_count self := se_deleted_count (Num:=Num) (SP:=SP) (write_segment self);
  se_segment_type _ := Special;
  se_info := proxy_info;
  se_config self := se_config (Num:=Num) (SP:=SP) (wrapped_segment self);
  se_is_appendable _ := true;
  se_flush := proxy_flush;
  se_delete_field_index := proxy_delete_field_index;
  se_create_field_index := proxy_create_field_index;
  se_get_indexed_fields := proxy_get_indexed_fields;
  se_check_error self := se_check_error (Num:=Num) (SP:=SP) (write_segment self);
  se_delete_filtered := proxy_delete_filtered;
  se_vector_dim self := se_vector_dim (Num:=Num) (SP:=SP) (write_segment self);
  se_vector_dims self := se_vector_dims (Num:=Num) (SP:=SP) (write_segment self);
|}.
End proxy.

(** ** [LockedSegment] *)

Inductive LockedSegment (E : Type) : Type :=
| Original (segment : E)
| Proxy (proxy : ProxySegment E).
Arguments Original {E}.
Arguments Proxy {E}.

(** [get], followed by a method of the segment it returns. *)
Definition locked_get {E A} (f : E → A) (g : ProxySegment E → A) (self : LockedSegment E) : A :=
  match self with Original segment => f segment | Proxy proxy => g proxy end.

Definition on_locked {E A} (f : sm E OperationError A) (g : sm (ProxySegment E) OperationError A) :
    sm (LockedSegment E) OperationError A := λ self,
  match self with
  | Original segment => let '(r, segment) := f segment in (r, Original segment)
  | Proxy proxy => let '(r, proxy) := g proxy in (r, Proxy proxy)
  end.

#[export] Instance locked_entry {Num SP E : Type} `{!SegmentEntry Num SP E} : SegmentEntry Num SP (LockedSegment E) := {|
  se_version self := locked_get se_version se_version self;
  se_point_version self := locked_get se_point_version se_point_version self;
  se_search self := locked_get se_search se_search self;
  se_search_batch self := locked_get se_search_batch se_search_batch self;
  se_upsert_vector a b c := on_locked (se_upsert_vector a b c) (se_upsert_vector a b c);
  se_delete_point a b := on_locked (se_delete_point a b) (se_delete_point a b);
  se_set_payload a b c := on_locked (se_set_payload a b c) (se_set_payload a b c);
  se_set_full_payload a b c := on_locked (se_set_full_payload a b c) (se_set_full_payload a b c);
  se_delete_payload a b c := on_locked (se_delete_payload a b c) (se_delete_payload a b c);
  se_clear_payload a b := on_locked (se_clear_payload a b) (se_clear_payload a b);
  se_vector self := locked_get se_vector se_vector self;
  se_all_vectors self := locked_get se_all_vectors se_all_vectors self;
  se_payload self := locked_get se_payload se_payload self;
  se_iter_points self := locked_get se_iter_points se_iter_points self;
  se_read_filtered self := locked_get se_read_filtered se_read_filtered self;
  se_read_range self := locked_get se_read_range se_read_range self;
  se_has_point self := locked_get se_has_point se_has_point self;
  se_points_count self := locked_get se_points_count se_points_count self;
  se_estimate_points_count self := locked_get se_estimate_points_count se_estimate_points_count self;
  se_deleted_count self := locked_get se_deleted_count se_deleted_count self;
  se_segment_type self := locked_get se_segment_type se_segment_type self;
  se_info self := locked_get se_info se_info self;
  se_config self := locked_get se_config se_config self;
  se_is_appendable self := locked_get se_is_appendable se_is_appendable self;
  se_flush a := on_locked (se_flush a) (se_flush a);
  se_delete_field_index a b := on_locked (se_delete_field_index a b) (se_delete_field_index a b);
  se_create_field_index a b c := on_locked (se_create_field_index a b c) (se_create_field_index a b c);
  se_get_indexed_fields self := locked_get se_get_indexed_fields se_get_indexed_fields self;
  se_check_error self := locked_get se_check_error se_check_error self;
  se_delete_filtered a b := on_locked (se_delete_filtered a b) (se_delete_filtered a b);
  se_vector_dim self := locked_get se_vector_dim se_vector_dim self;
  se_vector_dims self := locked_get se_vector_dims se_vector_dims self;
|}.
