(* ===== verification/ProxySpec.v ===== *)
(** * Correctness of proxy segments

    A proxy shows the points of its two segments as one map: the write segment
    first, then the points of the wrapped segment that are not deleted.  It
    satisfies the laws of the interface of segments, so the theorems on holders
    apply to holders with proxies. *)

From stdpp Require Import base gmap fin_sets strings list sorting.
From Stdlib Require Import ZArith Lia SpecFloat.
From S2P Require Import Prelude Types Rocks IdTracker NamedVectors VectorStorage Text Filters Estimator TopK.
From S2P Require Import PayloadStorage FieldIndex FieldIndexEnum FieldIndexLaws Spaces QueryOptimizer.
From S2P Require Import StructPayloadIndex PayloadIndexSpec PayloadIndexLaws Segment PlainIndex SegmentSpec SegmentEntry.
From S2P Require Import Samples ProxySegment.

Section proxy_laws.
Context {Num SP E : Type} {HS : Simd} `{!SegmentEntry Num SP E, !SegmentEntryLaws Num SP E}.
Abbreviation PSeg := (ProxySegment E).

(** A point of the write segment is hidden in the wrapped one. *)
Record proxy_wf (s : PSeg) : Prop := {
  pw_write : entry_wf (write_segment s);
  pw_wrapped : entry_wf (wrapped_segment s);
  pw_cfgs : entry_cfgs (write_segment s) = entry_cfgs (wrapped_segment s);
  pw_hidden e : is_Some (entry_point (write_segment s) e) → is_Some (entry_point (wrapped_segment s) e) →
    e ∈ deleted_points s;
}.

Definition proxy_point (s : PSeg) (e : PointIdType) : option (Point Num) :=
  match entry_point (write_segment s) e with
  | Some pt => Some pt
  | None => if decide (e ∈ deleted_points s) then None else entry_point (wrapped_segment s) e
  end.

Definition proxy_room (s : PSeg) (X : gset PointIdType) : Prop := entry_room (write_segment s) X.

(** A partial update is safe in the write segment as a move leaves it. *)
Definition proxy_safe (s : PSeg) (op : seg_op Num) : Prop :=
  match op with
  | OpSet e _ | OpDeleteKey e _ =>
      ∀ n r s', move_if_exists (Num:=Num) (SP:=SP) n e s = (Ok r, s') → entry_safe (write_segment s') op
  | _ => True
  end.

Definition proxy_fresh (s : PSeg) (n : SeqNumberType) (op : seg_op Num) : Prop :=
  (∀ pt, entry_point (write_segment s) (seg_op_point op) = Some pt → (pt_version pt ≤ n)%N) ∧
  (is_delete op = false → (se_version (write_segment s) ≤ n)%N).

Definition proxy_resident (s : PSeg) (e : PointIdType) : Prop :=
  is_Some (entry_point (write_segment s) e) ∧ entry_resident (write_segment s) e.

(** *** Reads *)

Lemma proxy_point_write s e pt : entry_point (write_segment s) e = Some pt → proxy_point s e = Some pt.
Proof using. intros H. unfold proxy_point. by rewrite H. Qed.

Lemma write_absent s e :
  proxy_wf s → e ∉ deleted_points s → is_Some (entry_point (wrapped_segment s) e) → entry_point (write_segment s) e = None.
Proof using.
  intros Hwf He Hw. destruct (entry_point (write_segment s) e) eqn:Hx; [|done]. destruct He. by apply Hwf; [rewrite Hx|].
Qed.

Lemma reads_write_spec s e :
  proxy_wf s → reads_write (Num:=Num) (SP:=SP) s e =
    bool_decide (e ∈ deleted_points s ∨ is_Some (entry_point (write_segment s) e)).
Proof using SegmentEntryLaws0.
  intros Hwf. unfold reads_write. rewrite (has_point_spec _ e (pw_write s Hwf)). by rewrite bool_decide_or.
Qed.

Lemma proxy_vector_spec s e pt name v :
  proxy_wf s → proxy_point s e = Some pt → pt_vectors pt !! name = Some v →
  proxy_vector (Num:=Num) (SP:=SP) s name e = Ok v.
Proof using SegmentEntryLaws0.
  intros Hwf Hpt Hv. unfold proxy_vector. rewrite reads_write_spec by done. unfold proxy_point in Hpt.
  case_bool_decide as Hr.
  - destruct (entry_point (write_segment s) e) as [pt'|] eqn:Hw; simplify_eq.
    + eapply vector_spec; [apply Hwf|done|done].
    + destruct Hr as [Hr|[]]; [|done]. by rewrite decide_True in Hpt.
  - destruct (entry_point (write_segment s) e) as [pt'|] eqn:Hw; [naive_solver|]. rewrite decide_False in Hpt by naive_solver.
    eapply vector_spec; [apply Hwf|done|done].
Qed.

Lemma proxy_payload_spec s e pt :
  proxy_wf s → proxy_point s e = Some pt → proxy_payload (SP:=SP) s e = Ok (default ∅ (pt_payload pt)).
Proof using SegmentEntryLaws0.
  intros Hwf Hpt. unfold proxy_payload. rewrite reads_write_spec by done. unfold proxy_point in Hpt.
  case_bool_decide as Hr.
  - destruct (entry_point (write_segment s) e) as [pt'|] eqn:Hw; simplify_eq.
    + apply payload_spec; [apply Hwf|done].
    + destruct Hr as [Hr|[]]; [|done]. by rewrite decide_True in Hpt.
  - destruct (entry_point (write_segment s) e) as [pt'|] eqn:Hw; [naive_solver|]. rewrite decide_False in Hpt by naive_solver.
    apply payload_spec; [apply Hwf|done].
Qed.

Lemma proxy_has_point_spec s e :
  proxy_wf s → proxy_has_point (Num:=Num) (SP:=SP) s e = bool_decide (is_Some (proxy_point s e)).
Proof using SegmentEntryLaws0.
  intros Hwf. unfold proxy_has_point, proxy_point. rewrite (has_point_spec _ e (pw_write s Hwf)).
  rewrite (has_point_spec _ e (pw_wrapped s Hwf)). destruct (entry_point (write_segment s) e); cbn.
  - by destruct (decide _).
  - destruct (decide (e ∈ deleted_points s)); done.
Qed.

Lemma proxy_vectors_fit s e pt :
  proxy_wf s → proxy_point s e = Some pt → vectors_fit (entry_cfgs (wrapped_segment s)) (pt_vectors pt).
Proof using SegmentEntryLaws0.
  intros Hwf Hpt. unfold proxy_point in Hpt. destruct (entry_point (write_segment s) e) as [pt'|] eqn:Hw; simplify_eq.
  - rewrite <-(pw_cfgs s Hwf). eapply entry_vectors_fit; [apply Hwf|done].
  - destruct (decide (e ∈ deleted_points s)); [done|]. eapply entry_vectors_fit; [apply Hwf|done].
Qed.

Lemma proxy_all_vectors_spec s e pt :
  proxy_wf s → proxy_point s e = Some pt →
  ∃ vs, proxy_all_vectors (Num:=Num) (SP:=SP) s e = Ok vs ∧ NoDup vs.*1 ∧ tm_view vs = pt_vectors pt.
Proof using SegmentEntryLaws0.
  intros Hwf Hpt. pose proof (proxy_vectors_fit s e pt Hwf Hpt) as Hfit.
  unfold proxy_all_vectors. rewrite (config_spec _ (pw_wrapped s Hwf)). apply nv_collect_all.
  - intros name. rewrite list_elem_of_fmap. specialize (Hfit name). split.
    + intros ([k cfg] & Heq & Hc%elem_of_map_to_list). cbn in Heq. subst k. rewrite Hc in Hfit. inversion Hfit; eauto.
    + intros [v Hv]. rewrite Hv in Hfit. inversion Hfit as [cfg w Hl Hc Hw|]. exists (name, cfg).
      by rewrite elem_of_map_to_list.
  - intros name v Hv. by eapply proxy_vector_spec.
Qed.

(** *** Moving a point *)

Lemma sm_wp_run {S Er A} (m : sm S Er A) (Q : A → S → Prop) (R : Er → S → Prop) s :
  sm_wp m Q R s → sm_wp m (λ a s', m s = (Ok a, s') ∧ Q a s') R s.
Proof using. unfold sm_wp. by destruct (m s) as [[] ?]. Qed.

(** The write segment can take a write of a point of [X]. *)
Definition write_ready (n : SeqNumberType) (X : gset PointIdType) (s : PSeg) : Prop :=
  se_check_error (write_segment s) = None ∧ (se_version (write_segment s) ≤ n)%N ∧ proxy_room s X.

(** What a move leaves. *)
Definition move_post (n : SeqNumberType) (X : gset PointIdType) (e : PointIdType) (s s' : PSeg) : Prop :=
  proxy_wf s' ∧ write_ready n X s' ∧ wrapped_segment s' = wrapped_segment s ∧
  se_is_appendable (write_segment s') = se_is_appendable (write_segment s) ∧
  (is_Some (entry_point (wrapped_segment s) e) → e ∈ deleted_points s') ∧
  option_Forall2 (carried (entry_cfgs (wrapped_segment s)) n) (proxy_point s e) (entry_point (write_segment s') e) ∧
  (is_Some (entry_point (write_segment s) e) → s' = s) ∧
  (∀ pt, entry_point (write_segment s') e = Some pt → entry_point (write_segment s) e = Some pt ∨ pt_version pt = n) ∧
  ∀ e', e' ≠ e → entry_point (write_segment s') e' = entry_point (write_segment s) e' ∧
    (e' ∈ deleted_points s' ↔ e' ∈ deleted_points s).

Lemma copy_to_write_wp n X e pt vs s :
  proxy_wf s → write_ready n X s → e ∈ X → entry_point (write_segment s) e = None →
  entry_point (wrapped_segment s) e = Some pt → NoDup vs.*1 → tm_view vs = pt_vectors pt →
  let s1 := set_deleted_points ({[e]} ∪ deleted_points s) s in
  sm_wp (_ ← on_write (se_upsert_vector (Num:=Num) (SP:=SP) n e vs);
         _ ← on_write (se_set_full_payload (SP:=SP) n e (default ∅ (pt_payload pt))); mret true)
    (λ _ s', ∃ w, s' = set_write w s1 ∧ entry_wf w ∧ entry_cfgs w = entry_cfgs (write_segment s) ∧
       se_is_appendable w = se_is_appendable (write_segment s) ∧ write_ready n X s' ∧
       ∀ e', entry_point w e' = if decide (e' = e) then Some (moved (entry_cfgs (write_segment s)) n pt)
                                else entry_point (write_segment s) e') (λ _ _, True) s1.
Proof using SegmentEntryLaws0.
  intros Hwf (Hce & Hv & Hroom) HX Hw Hpt Hnd Hvs s1. pose proof (pw_write s Hwf) as Hww.
  apply sm_wp_bind, sm_wp_zoom. eapply sm_wp_mono; [apply (entry_op_spec n (OpUpsert e vs) (write_segment s) X)| |done]; try done.
  { apply fresh_newest; [done|done|]. cbn. by rewrite Hw. }
  { split; [done|]. rewrite Hvs, (pw_cfgs s Hwf). eapply entry_vectors_fit; [apply Hwf|done]. }
  cbn. intros _ w1 (Hw1 & Hce1 & Hcf1 & Ha1 & Hv1 & Hr1 & _ & Hres1 & old & Hold & _ & Hp1).
  rewrite Hw in Hold. apply option_Forall2_None_l in Hold as ->. cbn in Hp1.
  assert (entry_point w1 e = Some (mkPoint n (processed (entry_cfgs (write_segment s)) (tm_view vs)) None)) as Hp1e
    by (by rewrite Hp1, decide_True).
  apply sm_wp_bind, sm_wp_zoom.
  eapply sm_wp_mono; [apply (entry_op_spec n (OpSetFull e (default ∅ (pt_payload pt))) w1 X)| |done]; try done.
  { apply fresh_newest; [done|lia|]. cbn. rewrite Hp1e. intros ? [= <-]. cbn. lia. }
  { cbn. split; [eauto|]. by apply safe_simple. }
  { intros _. split; [by apply Hr1|done]. }
  cbn. intros _ w2 (Hw2 & Hce2 & Hcf2 & Ha2 & Hv2 & Hr2 & _ & _ & old2 & _ & Hsame & Hp2).
  rewrite (Hsame (Hres1 eq_refl)), Hp1e in Hp2. cbn in Hp2. exists w2. split_and!; try done; try congruence.
  - split_and!; cbn; [done|lia|by apply Hr2].
  - intros e'. rewrite Hp2. unfold moved. rewrite <-Hvs. destruct (decide (e' = e)); [done|]. by rewrite Hp1, decide_False.
Qed.

Lemma move_if_exists_wp n X e s :
  proxy_wf s → write_ready n X s → e ∈ X →
  sm_wp (move_if_exists (Num:=Num) (SP:=SP) n e) (λ _ s', move_post n X e s s') (λ _ _, True) s.
Proof using SegmentEntryLaws0.
  intros Hwf Hready HX. unfold move_if_exists. apply sm_wp_bind. unfold sm_wp at 1, sm_get.
  assert (e ∈ deleted_points s ∨ entry_point (wrapped_segment s) e = None → move_post n X e s s) as Hstay.
  { intros Hst. split_and!; try done.
    - intros Hw. destruct Hst as [?|Hst]; [done|]. rewrite Hst in Hw. by destruct Hw.
    - unfold proxy_point. destruct (entry_point (write_segment s) e); [constructor; apply carried_refl|].
      destruct (decide _); [constructor|]. destruct Hst as [?| ->]; [done|constructor].
    - intros pt Hpt. by left. }
  destruct (decide (e ∈ deleted_points s)) as [Hd|Hd]; [apply sm_wp_ret, Hstay; by left|].
  rewrite (has_point_spec _ e (pw_wrapped s Hwf)). destruct (entry_point (wrapped_segment s) e) as [pt|] eqn:Hpt; cbn [negb bool_decide].
  2: { rewrite bool_decide_eq_false_2 by by intros []. apply sm_wp_ret, Hstay. by right. }
  rewrite bool_decide_eq_true_2 by eauto. cbn [negb].
  assert (entry_point (write_segment s) e = None) as Hw by (apply write_absent; [done|done|eauto]).
  destruct (all_vectors_spec _ e pt (pw_wrapped s Hwf) Hpt) as (vs & Hvs & Hnd & Hview).
  apply sm_wp_bind. unfold sm_wp at 1, sm_lift at 1. rewrite Hvs.
  apply sm_wp_bind. unfold sm_wp at 1, sm_lift at 1. rewrite (payload_spec _ e pt (pw_wrapped s Hwf) Hpt).
  apply sm_wp_bind, sm_wp_modify. eapply sm_wp_mono; [by apply (copy_to_write_wp n X e pt)| |done].
  intros _ s' (w & -> & Hww & Hcf & Ha & Hr & Hp). split_and!; cbn; try done.
  - split; cbn; [done|apply Hwf|rewrite Hcf; apply Hwf|]. intros e'. rewrite Hp. destruct (decide (e' = e)) as [->|]; [set_solver|].
    intros H1 H2. apply elem_of_union_r. by apply Hwf.
  - set_solver.
  - rewrite Hp, decide_True by done. unfold proxy_point. rewrite Hw, decide_False, Hpt by done. rewrite (pw_cfgs s Hwf).
    constructor. apply carried_moved.
  - rewrite Hw. by intros [].
  - intros pt'. rewrite Hp, decide_True by done. intros [= <-]. by right.
  - intros e' Hne. rewrite Hp, decide_False by done. split; [done|]. set_solver.
Qed.

(** *** Operations *)

Lemma proxy_run_op n (op : seg_op Num) :
  is_delete op = false →
  se_run_op (SP:=SP) (E:=PSeg) n op = (_ ← move_if_exists (Num:=Num) (SP:=SP) n (seg_op_point op); on_write (se_run_op (SP:=SP) n op)).
Proof using. by destruct op. Qed.

Lemma proxy_point_other (s s' : PSeg) e e' :
  wrapped_segment s' = wrapped_segment s → e' ≠ e →
  entry_point (write_segment s') e' = entry_point (write_segment s) e' →
  (e' ∈ deleted_points s' ↔ e' ∈ deleted_points s) → proxy_point s' e' = proxy_point s e'.
Proof using.
  intros Hw Hne Hp Hd. unfold proxy_point. rewrite Hp, Hw. destruct (entry_point (write_segment s) e'); [done|].
  destruct (decide (e' ∈ deleted_points s)); [by rewrite decide_True by naive_solver|by rewrite decide_False by naive_solver].
Qed.

(** What an operation leaves, as the interface of segments has it. *)
Definition proxy_op_post (n : SeqNumberType) (op : seg_op Num) (X : gset PointIdType) (s : PSeg) (res : bool) (s' : PSeg) : Prop :=
  proxy_wf s' ∧ se_check_error (write_segment s') = None ∧
  entry_cfgs (wrapped_segment s') = entry_cfgs (wrapped_segment s) ∧
  (proxy_version (Num:=Num) (SP:=SP) s' ≤ N.max n (proxy_version (Num:=Num) (SP:=SP) s))%N ∧
  (is_delete op = false → proxy_room s' X) ∧
  res = bool_decide (is_Some (proxy_point s (seg_op_point op))) ∧
  (is_delete op = false → proxy_resident s' (seg_op_point op)) ∧
  ∃ old, option_Forall2 (carried (entry_cfgs (wrapped_segment s)) n) (proxy_point s (seg_op_point op)) old ∧
    (proxy_resident s (seg_op_point op) → old = proxy_point s (seg_op_point op)) ∧
    ∀ e, proxy_point s' e = if decide (e = seg_op_point op) then seg_op_effect (entry_cfgs (wrapped_segment s)) n op old
                            else proxy_point s e.

Lemma effect_is_Some cfgs n (op : seg_op Num) old :
  is_delete op = false → (match op with OpUpsert _ _ => True | _ => is_Some old end) → is_Some (seg_op_effect cfgs n op old).
Proof using. destruct op; cbn; try done; [eauto|..]; intros _ [pt ->]; cbn; eauto. Qed.

(** From the move to the whole operation. *)
Lemma proxy_op_assemble n (op : seg_op Num) X s s1 w res old :
  is_delete op = false → proxy_wf s → move_post n X (seg_op_point op) s s1 →
  (match op with OpUpsert _ _ => True | _ => is_Some (proxy_point s (seg_op_point op)) end) →
  entry_wf w → se_check_error w = None → entry_cfgs w = entry_cfgs (wrapped_segment s) →
  (se_version w ≤ N.max n (se_version (write_segment s1)))%N → entry_room w X →
  res = bool_decide (is_Some (entry_point (write_segment s1) (seg_op_point op))) → entry_resident w (seg_op_point op) →
  option_Forall2 (carried (entry_cfgs (wrapped_segment s)) n) (entry_point (write_segment s1) (seg_op_point op)) old →
  (entry_resident (write_segment s1) (seg_op_point op) → old = entry_point (write_segment s1) (seg_op_point op)) →
  (∀ e, entry_point w e = if decide (e = seg_op_point op) then seg_op_effect (entry_cfgs (wrapped_segment s)) n op old
                          else entry_point (write_segment s1) e) →
  proxy_op_post n op X s res (set_write w s1).
Proof using SegmentEntryLaws0.
  intros Hdel Hwf (Hwf1 & (_ & Hv1 & _) & Hw1 & _ & Hd1 & Hcar & Hsame & _ & Hoth) Hop Hww Hce Hcf Hv Hr Hres Hresi Hold Hold2 Hp.
  pose proof (option_Forall2_is_Some _ _ Hcar) as Hsome. pose proof (option_Forall2_is_Some _ _ Hold) as Hsome2.
  assert (is_Some (entry_point w (seg_op_point op))) as Hnew.
  { rewrite Hp, decide_True by done. apply effect_is_Some; [done|]. destruct op; [done|tauto..]. }
  split_and!; cbn; try done.
  - split; cbn; [done|rewrite Hw1; apply Hwf|by rewrite Hw1|]. intros e. rewrite Hp, Hw1.
    destruct (decide (e = seg_op_point op)) as [->|Hne]; [by intros _|]. intros Hx Hy. apply Hwf1; by rewrite ?Hw1.
  - by rewrite Hw1.
  - unfold proxy_version. cbn. rewrite Hw1. lia.
  - rewrite Hres. by apply bool_decide_ext.
  - exists old. split_and!.
    + clear -Hcar Hold. destruct Hcar; inversion Hold; subst; constructor. by eapply carried_trans.
    + intros [Hs Hrs]. specialize (Hsame Hs). subst s1. rewrite (Hold2 Hrs). unfold proxy_point. by destruct Hs as [pt ->].
    + intros e. destruct (decide (e = seg_op_point op)) as [->|Hne].
      * unfold proxy_point. cbn. destruct Hnew as [pt Hpt]. rewrite Hpt. rewrite Hp, decide_True in Hpt by done. by symmetry.
      * apply (proxy_point_other s _ (seg_op_point op) e); [done|done|cbn; rewrite Hp, decide_False by done; by apply Hoth|by apply Hoth].
Qed.

Lemma proxy_write_wp n (op : seg_op Num) X s :
  proxy_wf s → se_check_error (write_segment s) = None → is_delete op = false → proxy_fresh s n op →
  match op with
  | OpUpsert e vs => NoDup vs.*1 ∧ vectors_fit (entry_cfgs (wrapped_segment s)) (tm_view vs)
  | _ => is_Some (proxy_point s (seg_op_point op)) ∧ proxy_safe s op
  end →
  proxy_room s X → seg_op_point op ∈ X →
  sm_wp (se_run_op (SP:=SP) n op) (proxy_op_post n op X s) (λ _ _, True) s.
Proof using SegmentEntryLaws0.
  intros Hwf Hce Hd [Hf Hv] Hop Hroom HX. specialize (Hv Hd). rewrite proxy_run_op by done. apply sm_wp_bind.
  eapply sm_wp_mono; [apply sm_wp_run, (move_if_exists_wp n X); [done|split_and!; done|done]| |done].
  intros r s1 [Hrun Hmove]. pose proof Hmove as (Hwf1 & (Hce1 & Hv1 & Hr1) & Hw1 & Ha1 & Hd1 & Hcar & Hsame & Hver & Hoth).
  pose proof (option_Forall2_is_Some _ _ Hcar) as Hsome.
  apply sm_wp_zoom. eapply sm_wp_mono; [apply (entry_op_spec n op (write_segment s1) X); try done| |done].
  - apply Hwf1.
  - apply fresh_newest; [apply Hwf1|done|]. intros pt Hpt. destruct (Hver pt Hpt) as [?| ->]; [by apply Hf|done].
  - rewrite (pw_cfgs s1 Hwf1), Hw1. destruct op as [e vs|e|e p|e p|e key|e]; cbn in *; [done|done|..].
    all: destruct Hop as [Hs Hsafe]; split; [by apply Hsome|].
    1,4: by apply safe_simple; [apply Hwf1|]. all: by eapply Hsafe.
  - intros res w (Hww & Hce2 & Hcf2 & Ha2 & Hv2 & Hr2 & Hres & Hresi & old & Hold & Hsame2 & Hp2).
    rewrite (pw_cfgs s1 Hwf1), Hw1 in *. eapply proxy_op_assemble; eauto.
    destruct op; [done|apply Hop..].
Qed.
Lemma set_write_id (s : PSeg) : set_write (write_segment s) s = s.
Proof using. by destruct s. Qed.

Lemma set_deleted_id (s : PSeg) : set_deleted_points (deleted_points s) s = s.
Proof using. by destruct s. Qed.

(** A deletion marks the point in the wrapped segment and deletes it from the
    write segment if it is there. *)
Lemma proxy_delete_wp n e X s :
  proxy_wf s → se_check_error (write_segment s) = None → proxy_fresh s n (OpDelete e) → is_Some (proxy_point s e) →
  sm_wp (se_run_op (SP:=SP) n (OpDelete e)) (proxy_op_post n (OpDelete e) X s) (λ _ _, True) s.
Proof using SegmentEntryLaws0.
  intros Hwf Hce [Hf _] Hsome. cbn [se_run_op se_delete_point proxy_entry]. unfold proxy_delete_point. apply sm_wp_bind.
  unfold sm_wp at 1, sm_get. rewrite (has_point_spec _ e (pw_wrapped s Hwf)). apply sm_wp_bind.
  set (s1 := if decide (is_Some (entry_point (wrapped_segment s) e)) then set_deleted_points ({[e]} ∪ deleted_points s) s else s).
  assert (∀ w, entry_wf w → entry_cfgs w = entry_cfgs (wrapped_segment s) → se_check_error w = None →
    (se_version w ≤ N.max n (se_version (write_segment s)))%N →
    (∀ e', entry_point w e' = if decide (e' = e) then None else entry_point (write_segment s) e') →
    proxy_op_post n (OpDelete e) X s true (set_write w s1)) as Hpost.
  { intros w Hww Hcf Hcw Hv Hp. assert (∀ e', e' ≠ e → e' ∈ deleted_points s1 ↔ e' ∈ deleted_points s) as Hd.
    { intros e' Hne. unfold s1. destruct (decide _); cbn; set_solver. }
    assert (wrapped_segment s1 = wrapped_segment s) as Hw1 by (unfold s1; by destruct (decide _)).
    split_and!; cbn; rewrite ?Hw1; try done.
    - split; cbn; [done|rewrite Hw1; apply Hwf|by rewrite Hw1|]. intros e'. rewrite Hp, Hw1.
      destruct (decide (e' = e)) as [->|Hne]; [by intros []|]. intros Hx Hy. apply Hd; [done|]. by apply Hwf.
    - unfold proxy_version. cbn. rewrite Hw1. lia.
    - by rewrite bool_decide_eq_true_2.
    - exists (proxy_point s e). split_and!; [|done|].
      + destruct (proxy_point s e); constructor. apply carried_refl.
      + intros e'. destruct (decide (e' = e)) as [->|Hne].
        * unfold proxy_point. cbn. rewrite Hp, decide_True, Hw1 by done. unfold s1.
          destruct (entry_point (wrapped_segment s) e) eqn:Hwr; [|by destruct (decide (e ∈ _))].
          rewrite (decide_True (P := is_Some (Some p))) by eauto. cbn. by rewrite decide_True by set_solver.
        * apply (proxy_point_other s _ e e'); [done|done|cbn; by rewrite Hp, decide_False|by apply Hd]. }
  apply (sm_wp_mono _ (λ b s', b = bool_decide (is_Some (entry_point (wrapped_segment s) e)) ∧ s' = s1) _ (λ _ _, True)); [|..|done].
  { unfold s1. destruct (entry_point (wrapped_segment s) e); cbn; by split. }
  intros b s' [-> ->]. apply sm_wp_bind, sm_wp_zoom.
  assert (write_segment s1 = write_segment s) as -> by (unfold s1; by destruct (decide _)).
  destruct (entry_point (write_segment s) e) as [pt|] eqn:Hpt.
  - eapply sm_wp_mono; [apply (entry_op_spec n (OpDelete e) (write_segment s) X); try done| |done].
    + apply Hwf.
    + eapply fresh_delete; [apply Hwf|done|by apply Hf].
    + cbn. split; [by rewrite Hpt|]. apply safe_simple; [apply Hwf|done].
    + cbn. rewrite Hpt. intros r w (Hww & Hcw & Hcf & _ & Hv & _ & -> & _ & old & _ & _ & Hp).
      rewrite (bool_decide_eq_true_2 (is_Some (Some pt))), orb_true_r by eauto. apply Hpost; try done. by rewrite Hcf, (pw_cfgs s Hwf).
  - destruct (delete_absent_spec _ n e (pw_write s Hwf) Hpt) as [r Hr]. unfold sm_wp. rewrite Hr. cbn.
    unfold proxy_point in Hsome. rewrite Hpt in Hsome. rewrite bool_decide_eq_true_2; [cbn|by destruct (decide _); [destruct Hsome|]].
    apply Hpost; [apply Hwf|apply Hwf|done|lia|]. intros e'. by destruct (decide (e' = e)) as [->|].
Qed.

Lemma proxy_delete_absent s n e :
  proxy_wf s → proxy_point s e = None →
  ∃ r, proxy_delete_point (Num:=Num) (SP:=SP) n e s = (Ok r, s) ∧ (is_Some (entry_point (wrapped_segment s) e) → r = true).
Proof using SegmentEntryLaws0.
  intros Hwf Hpt. unfold proxy_point in Hpt. destruct (entry_point (write_segment s) e) eqn:Hw; [done|].
  destruct (delete_absent_spec _ n e (pw_write s Hwf) Hw) as [r Hr].
  unfold proxy_delete_point, mbind, sm_bind, sm_get. rewrite (has_point_spec _ e (pw_wrapped s Hwf)).
  destruct (decide (e ∈ deleted_points s)) as [Hd|Hd].
  - assert ({[e]} ∪ deleted_points s = deleted_points s) as -> by set_solver. case_bool_decide as Hb.
    all: cbn; rewrite ?set_deleted_id; unfold on_write, sm_zoom; rewrite Hr, set_write_id; eexists; by split.
  - rewrite Hpt. cbn. unfold on_write, sm_zoom. rewrite Hr, set_write_id. eexists. split; [done|]. by intros [].
Qed.

Lemma proxy_update_absent s n (op : seg_op Num) :
  proxy_wf s → se_check_error (write_segment s) = None → (se_version (write_segment s) ≤ n)%N → updates_payload op = true →
  proxy_point s (seg_op_point op) = None → se_run_op (SP:=SP) n op s = (Err (PointIdError (seg_op_point op)), s).
Proof using SegmentEntryLaws0.
  intros Hwf Hce Hv Hop Hpt. rewrite proxy_run_op by by destruct op. unfold proxy_point in Hpt.
  destruct (entry_point (write_segment s) (seg_op_point op)) eqn:Hw; [done|].
  unfold move_if_exists, mbind, sm_bind, sm_get. rewrite (has_point_spec _ _ (pw_wrapped s Hwf)).
  destruct (decide (seg_op_point op ∈ deleted_points s)) as [Hd|Hd]; [|rewrite Hpt]; cbn; unfold on_write, sm_zoom;
    rewrite (absent_op_spec _ n op (pw_write s Hwf) Hce Hv Hop Hw); by rewrite set_write_id.
Qed.

Context `{!IterableEntry Num SP E}.

Lemma proxy_point_version_spec s e pt :
  proxy_wf s → proxy_point s e = Some pt → proxy_point_version (Num:=Num) (SP:=SP) s e = Some (pt_version pt).
Proof using SegmentEntryLaws0 IterableEntry0.
  intros Hwf Hpt. unfold proxy_point_version, proxy_point in *.
  destruct (entry_point (write_segment s) e) as [pt'|] eqn:Hw; simplify_eq.
  - by rewrite (point_version_spec _ e pt (pw_write s Hwf) Hw).
  - rewrite (point_version_absent _ e (pw_write s Hwf) Hw). destruct (decide (e ∈ deleted_points s)); [done|].
    by apply point_version_spec, Hpt; apply Hwf.
Qed.

#[export] Instance proxy_entry_laws : SegmentEntryLaws Num SP PSeg.
Proof using SegmentEntryLaws0 IterableEntry0.
  unshelve refine (@Build_SegmentEntryLaws Num SP PSeg HS _ proxy_wf proxy_point (λ s, entry_cfgs (wrapped_segment s))
    proxy_room proxy_safe proxy_fresh proxy_resident _ _ _ _ _ _ _ _ _ _ _ _ _).
  - intros s Hwf. exact (config_spec _ (pw_wrapped s Hwf)).
  - intros s e. apply proxy_has_point_spec.
  - intros s e pt. apply proxy_point_version_spec.
  - intros s e pt. apply proxy_vectors_fit.
  - intros s e pt name v. apply proxy_vector_spec.
  - intros s e pt. apply proxy_all_vectors_spec.
  - intros s e pt. apply proxy_payload_spec.
  - intros s n op Hwf Hv Hpt. split.
    + intros pt Hw. by apply Hpt, proxy_point_write.
    + intros _. cbn in Hv. unfold proxy_version in Hv. lia.
  - intros s n e pt Hwf Hpt Hv. split; [|done]. intros pt' Hw. cbn in Hw.
    rewrite (proxy_point_write s e pt' Hw) in Hpt. congruence.
  - intros s op Hwf Hop. by destruct op.
  - intros s n e Hwf Hpt. destruct (proxy_delete_absent s n e Hwf Hpt) as (r & Hr & _). eauto.
  - intros s n op Hwf Hce Hv. cbn in Hv. unfold proxy_version in Hv. apply proxy_update_absent; [done|done|lia].
  - intros n op s X Hwf Hce Hf Hop Hroom. apply (sm_wp_mono _ (proxy_op_post n op X s) _ (λ _ _, True));
      [|by intros res s' (?&?&?&?&?&?&?&?); split_and!|done].
    destruct (is_delete op) eqn:Hd.
    + destruct op; try done. apply proxy_delete_wp; try done. apply Hop.
    + destruct (Hroom eq_refl). by apply proxy_write_wp.
Defined.
End proxy_laws.

(** ** Original segments and proxies *)

Section locked_laws.
Context {Num SP E : Type} {HS : Simd} `{!SegmentEntry Num SP E, !SegmentEntryLaws Num SP E, !IterableEntry Num SP E}.

Lemma on_locked_wp {A} (f : sm E OperationError A) (g : sm (ProxySegment E) OperationError A) Q R (self : LockedSegment E) :
  match self with
  | Original s => sm_wp f (λ a s', Q a (Original s')) (λ e s', R e (Original s')) s
  | Proxy s => sm_wp g (λ a s', Q a (Proxy s')) (λ e s', R e (Proxy s')) s
  end → sm_wp (on_locked f g) Q R self.
Proof using.
  unfold sm_wp, on_locked. destruct self as [s|s]; [by destruct (f s) as [[] ?]|by destruct (g s) as [[] ?]].
Qed.

Lemma locked_run_op n (op : seg_op Num) :
  se_run_op (SP:=SP) (E:=LockedSegment E) n op = on_locked (se_run_op (SP:=SP) n op) (se_run_op (SP:=SP) n op).
Proof using. by destruct op. Qed.

#[export] Instance locked_entry_laws : SegmentEntryLaws Num SP (LockedSegment E).
Proof using SegmentEntryLaws0 IterableEntry0.
  unshelve refine (@Build_SegmentEntryLaws Num SP (LockedSegment E) HS _ (locked_get entry_wf entry_wf)
    (locked_get entry_point entry_point) (locked_get entry_cfgs entry_cfgs) (locked_get entry_room entry_room)
    (locked_get entry_safe entry_safe) (locked_get entry_fresh entry_fresh) (locked_get entry_resident entry_resident)
    _ _ _ _ _ _ _ _ _ _ _ _ _).
  1: intros [s|s]; [exact (config_spec s)|exact (config_spec s)].
  1: intros [s|s]; [exact (has_point_spec s)|exact (has_point_spec s)].
  1: intros [s|s]; [exact (point_version_spec s)|exact (point_version_spec s)].
  1: intros [s|s]; [exact (entry_vectors_fit s)|exact (entry_vectors_fit s)].
  1: intros [s|s]; [exact (vector_spec s)|exact (vector_spec s)].
  1: intros [s|s]; [exact (all_vectors_spec s)|exact (all_vectors_spec s)].
  1: intros [s|s]; [exact (payload_spec s)|exact (payload_spec s)].
  1: intros [s|s]; [exact (fresh_newest s)|exact (fresh_newest s)].
  1: intros [s|s]; [exact (fresh_delete s)|exact (fresh_delete s)].
  1: intros [s|s]; [exact (safe_simple s)|exact (safe_simple s)].
  - intros [s|s] n e Hwf Hpt; cbn in *.
    + destruct (delete_absent_spec s n e Hwf Hpt) as [r Hr]. rewrite Hr. eauto.
    + destruct (proxy_delete_absent (SP:=SP) s n e Hwf Hpt) as (r & Hr & _). rewrite Hr. eauto.
  - intros [s|s] n op Hwf Hce Hv Hop Hpt; rewrite locked_run_op; cbn in *.
    + by rewrite (absent_op_spec s n op Hwf Hce Hv Hop Hpt).
    + unfold proxy_version in Hv. by rewrite (proxy_update_absent s n op Hwf Hce ltac:(lia) Hop Hpt).
  - intros n op s X Hwf Hce Hf Hop Hroom. rewrite locked_run_op. apply on_locked_wp. destruct s as [s|s].
    + eapply sm_wp_mono; [by apply (entry_op_spec n op s X)| |done]. auto.
    + eapply sm_wp_mono; [by apply (entry_op_spec n op s X)| |done]. auto.
Defined.
End locked_laws.

(** ** Operations through a proxy *)

Section proxy_theorems.
Context {Num SP E : Type} {HS : Simd} `{!SegmentEntry Num SP E, !SegmentEntryLaws Num SP E}.

(** C4: a proxy refines the map of its visible points.  On a proxy whose write
    segment is healthy, has room and is not newer than the operation, an upsert,
    or an operation on a visible point, does not panic, and when it succeeds has
    its effect on its point and on no other: the point is looked up in both
    segments, a point of the wrapped segment is moved first and keeps its
    payload, and a deleted point is visible in neither; the result says whether
    the point was visible, and the invariant holds again.  A payload update of
    a point that is not visible is refused with the error of an unknown point,
    a deletion of one succeeds, and neither changes anything; but the deletion
    answers true when the wrapped segment still has the hidden point.  Upserts
    are of vectors that fit the configuration, under different names.  An
    update of a part of a visible payload ([set_payload], [delete_payload]) is
    one that the field indexes of the write segment follow ([proxy_safe]): the
    indexed fields are plain keys, not paths, and none of them is assigned a
    value that its indexes do not hold, such as null. *)
Theorem proxy_refines (n : SeqNumberType) (op : seg_op Num) (X : gset PointIdType) (s : ProxySegment E)
  (Hwf : proxy_wf s) (Herr : se_check_error (write_segment s) = None) (Hfresh : proxy_fresh s n op)
  (Hop : match op with
         | OpUpsert e vs => NoDup vs.*1 ∧ vectors_fit (entry_cfgs (wrapped_segment s)) (tm_view vs)
         | _ => is_Some (proxy_point s (seg_op_point op)) → proxy_safe s op
         end)
  (Hroom : is_delete op = false → proxy_room s X ∧ seg_op_point op ∈ X) :
  match op, proxy_point s (seg_op_point op) with
  | OpUpsert _ _, _ | _, Some _ => sm_wp (se_run_op (SP:=SP) n op) (proxy_op_post n op X s) (λ _ _, True) s
  | OpDelete e, None => ∃ r, se_run_op (SP:=SP) n op s = (Ok r, s) ∧ (is_Some (entry_point (wrapped_segment s) e) → r = true)
  | _, None => se_run_op (SP:=SP) n op s = (Err (PointIdError (seg_op_point op)), s)
  end.
Proof using.
  destruct (proxy_point s (seg_op_point op)) as [pt|] eqn:Hpt.
  - assert (is_Some (proxy_point s (seg_op_point op))) as Hsome by by rewrite Hpt.
    assert (sm_wp (se_run_op (SP:=SP) n op) (proxy_op_post n op X s) (λ _ _, True) s) as Hwp; [|by destruct op; rewrite ?Hpt; exact Hwp].
    destruct (is_delete op) eqn:Hd; [destruct op; try done; by apply proxy_delete_wp|].
    destruct (Hroom eq_refl). apply proxy_write_wp; try done. destruct op; [done|split; auto..].
  - destruct (updates_payload op) eqn:Hup.
    + assert (is_delete op = false) as Hd by by destruct op.
      assert (se_run_op (SP:=SP) n op s = (Err (PointIdError (seg_op_point op)), s)) as Hrun; [|by destruct op; try done; rewrite Hpt; exact Hrun].
      apply proxy_update_absent; try done. by apply Hfresh.
    + destruct op; try done; [destruct (Hroom eq_refl); by apply proxy_write_wp|]. rewrite Hpt. by apply proxy_delete_absent.
Qed.
End proxy_theorems.

Section segment_proxy.
Context {Num T VI VS PI SP : Type} `{!JsonNumber Num} {HG : GeoOps} {HS : Simd} {HSL : SimdLaws}.
Context `{!IdTracker T, !IdTrackerLaws T} `{!VectorStorage VS, !VectorStorageLaws VS}.
Context `{!PayloadIndex Num T PI, !PayloadIndexLaws Num T PI} `{!VectorIndex T VS PI SP VI}.
Context (display_id : PointIdType → string) (segment_path : string)
  (outcome background : FlushStep → OperationResult unit).
Abbreviation Seg := (Segment T VI VS PI).
#[local] Instance stale_entry : SegmentEntry Num SP Seg := segment_entry display_id segment_path outcome background.
#[local] Instance stale_laws : SegmentEntryLaws Num SP Seg := segment_entry_laws display_id segment_path outcome background.

(** A point that is not there is not written by an operation older than the segment. *)
Lemma stale_absent n (op : seg_op Num) (s : Seg) :
  seg_error_status s = None → abs_point s (seg_op_point op) = None → (n < seg_version_num s)%N →
  (∀ e vs, op = OpUpsert e vs → vectors_fit (seg_cfgs s) (tm_view vs)) →
  se_run_op (SP:=SP) n op s = (Ok false, s).
Proof using.
  intros Hes Hpt Hn Hfit. unfold stale_entry. rewrite (run_op_entry display_id segment_path outcome background n op).
  apply stale_op_skipped; [done| |].
  - destruct (internal_id (seg_id_tracker s) (seg_op_point op)) as [i|] eqn:He; [by rewrite (abs_point_Some s _ i He) in Hpt|].
    cbn. by apply N.ltb_lt.
  - intros e vs ->. apply check_names_Ok. intros name. specialize (Hfit e vs eq_refl name). unfold seg_cfgs in Hfit.
    by apply option_Forall2_is_Some in Hfit.
Qed.

(** The move hides the point although the write segment does not take it. *)
Lemma stale_move_run n (s : ProxySegment Seg) e pt :
  proxy_wf (Num:=Num) (SP:=SP) s → seg_error_status (write_segment s) = None → abs_point (wrapped_segment s) e = Some pt →
  e ∉ deleted_points s → (n < seg_version_num (write_segment s))%N →
  move_if_exists (Num:=Num) (SP:=SP) n e s = (Ok true, set_deleted_points ({[e]} ∪ deleted_points s) s).
Proof using.
  intros Hwf Herr Hpt Hd Hlate. pose proof (write_absent (SP:=SP) s _ Hwf Hd (mk_is_Some _ _ Hpt)) as Hw.
  destruct (all_vectors_spec (wrapped_segment s) e pt (pw_wrapped s Hwf) Hpt) as (vs & Hvs & _ & Hview).
  assert (se_upsert_vector (Num:=Num) (SP:=SP) n e vs (write_segment s) = (Ok false, write_segment s)) as Hup.
  { apply (stale_absent n (OpUpsert e vs)); [done|done|done|]. intros ? ? [= <- <-]. rewrite Hview.
    change (seg_cfgs (write_segment s)) with (entry_cfgs (write_segment s)). rewrite (pw_cfgs s Hwf).
    by apply (entry_vectors_fit _ e), Hpt; apply Hwf. }
  assert (se_set_full_payload (SP:=SP) n e (default ∅ (pt_payload pt)) (write_segment s) = (Ok false, write_segment s)) as Hfull
    by by apply (stale_absent n (OpSetFull e _)).
  unfold move_if_exists, mbind, sm_bind, sm_get, sm_lift, sm_modify. rewrite decide_False by done.
  rewrite (has_point_spec (wrapped_segment s) e (pw_wrapped s Hwf)), bool_decide_eq_true_2 by (by eexists). cbn [negb].
  rewrite Hvs, (payload_spec (wrapped_segment s) e pt (pw_wrapped s Hwf) Hpt). unfold on_write, sm_zoom. cbn [write_segment set_deleted_points].
  rewrite Hup. cbn [write_segment set_write]. by rewrite Hfull.
Qed.

(** C18: a late operation loses the point of a proxy.  An upsert of vectors that
    fit the configuration, or an update of a payload, that is newer than its
    point, which the wrapped segment has, but older than the write segment is
    skipped by the write segment; but the proxy has already hidden the point in
    the wrapped segment, so the point is in neither.  The result is [Ok false],
    as if nothing had happened.  (Deletions do not move the point.) *)
Theorem stale_move_loses_point (n : SeqNumberType) (op : seg_op Num) (s : ProxySegment Seg) pt
  (Hwf : proxy_wf (Num:=Num) (SP:=SP) s) (Herr : seg_error_status (write_segment s) = None)
  (Hpt : abs_point (wrapped_segment s) (seg_op_point op) = Some pt) (Hd : seg_op_point op ∉ deleted_points s)
  (Hnew : (pt_version pt < n)%N) (Hlate : (n < seg_version_num (write_segment s))%N)
  (Hop : match op with
         | OpUpsert e vs => vectors_fit (seg_cfgs (wrapped_segment s)) (tm_view vs)
         | OpDelete _ => False
         | _ => True
         end) :
  let run := se_run_op (SP:=SP) n op s in
  proxy_point (SP:=SP) s (seg_op_point op) = Some pt ∧ run.1 = Ok false ∧ proxy_point (SP:=SP) run.2 (seg_op_point op) = None.
Proof using.
  pose proof (write_absent (SP:=SP) s _ Hwf Hd (mk_is_Some _ _ Hpt)) as Hw.
  split. { unfold proxy_point. rewrite Hw, decide_False by done. exact Hpt. }
  assert (is_delete op = false) as Hdel by by destruct op.
  assert (∀ op', seg_op_point op' = seg_op_point op → (∀ e vs, op' = OpUpsert e vs → vectors_fit (seg_cfgs (write_segment s)) (tm_view vs)) →
    se_run_op (SP:=SP) n op' (write_segment s) = (Ok false, write_segment s)) as Hskip.
  { intros op' Hop' Hfit. apply stale_absent; [done|by rewrite Hop'|done|done]. }
  rewrite (proxy_run_op (SP:=SP) n op Hdel). unfold mbind at 1 2, sm_bind.
  rewrite (stale_move_run n s (seg_op_point op) pt) by done. unfold on_write, sm_zoom. cbn [write_segment set_deleted_points].
  rewrite Hskip; [|done|]; cbn [fst snd].
  - split; [done|]. unfold proxy_point. cbn. change (abs_point (write_segment s) (seg_op_point op)) with (entry_point (write_segment s) (seg_op_point op)).
    rewrite Hw, decide_True by set_solver. done.
  - intros e vs ->. change (seg_cfgs (write_segment s)) with (entry_cfgs (write_segment s)). by rewrite (pw_cfgs s Hwf).
Qed.

(** A flush in the background returns what was saved before it. *)
Lemma background_flush (s : Seg) v :
  seg_flush_thread s = None → seg_version s = Some v →
  ∃ s', flush display_id outcome background false s = (Ok (default 0%N (seg_persisted_version s)), s') ∧
    seg_version s' = seg_version s ∧ seg_persisted_version s' = seg_persisted_version s.
Proof using.
  intros Hi Hv. unfold flush, mbind, sm_bind, sm_get, is_background_flushing. rewrite Hi. cbn [negb andb].
  unfold lock_flushing, mbind, sm_bind, sm_get, sm_modify, run_background. rewrite Hi. cbn. rewrite Hi. rewrite Hv.
  destruct (seg_persisted_version s) as [p|] eqn:Hp; cbn; [|eexists; split; [reflexivity|by split]].
  destruct (decide (v = p)) as [->|]; (eexists; split; [reflexivity|by split]).
Qed.

(** C19: the flush of a proxy reports too much.  Without hidden points and
    changed indexes the proxy flushes both segments and reports the larger of
    their versions.  A flush in the background reports what was saved before, so
    when the write segment is ahead, changes of the wrapped segment up to the
    reported version are not on disk yet. *)
Theorem proxy_flush_overreports (s : ProxySegment Seg) (version saved : SeqNumberType)
  (Hempty : deleted_points s = ∅ ∧ deleted_indexes s = ∅ ∧ created_indexes s = ∅)
  (Hidle : seg_flush_thread (wrapped_segment s) = None ∧ seg_flush_thread (write_segment s) = None)
  (Hwrapped : seg_version (wrapped_segment s) = Some version)
  (Hunsaved : (default 0 (seg_persisted_version (wrapped_segment s)) < version)%N)
  (Hwrite : is_Some (seg_version (write_segment s)) ∧ seg_persisted_version (write_segment s) = Some saved)
  (Hahead : (version ≤ saved)%N) :
  let run := proxy_flush (Num:=Num) (SP:=SP) false s in
  run.1 = Ok saved ∧ seg_version (wrapped_segment run.2) = Some version ∧
  (default 0 (seg_persisted_version (wrapped_segment run.2)) < version ≤ saved)%N.
Proof using.
  destruct Hidle as [Hi1 Hi2]. destruct Hwrite as [[v Hv] Hp]. unfold proxy_flush, mbind, sm_bind, sm_get.
  rewrite decide_True by done. unfold on_wrapped, on_write, sm_zoom. cbn [se_flush stale_entry segment_entry].
  destruct (background_flush (wrapped_segment s) version Hi1 Hwrapped) as (s1 & -> & Hv1 & Hp1).
  cbn [write_segment set_wrapped].
  destruct (background_flush (write_segment s) v Hi2 Hv) as (s2 & -> & _ & _). cbn. rewrite Hp, Hv1, Hp1. cbn.
  split_and!; [f_equal; lia|done|lia|done].
Qed.
End segment_proxy.

(** ** Witnesses *)

Import SampleInstances.

(** A proxy of two points with nothing written yet. *)
Definition sample_proxy (write : SampleSeg) : ProxySegment SampleSeg := proxy_new frozen_segment write ∅ ∅ ∅.

Lemma sample_proxy_wf write :
  seg_wf write → (∀ e, abs_point write e = None) → seg_cfgs write = seg_cfgs frozen_segment →
  proxy_wf (Num:=Z) (SP:=unit) (sample_proxy write).
Proof.
  intros Hwf Hnone Hcfg. split; [done|apply frozen_segment_wf|done|]. intros e He.
  change (is_Some (abs_point write e)) in He. rewrite Hnone in He. by destruct He.
Qed.

Definition late_segment : SampleSeg := set_seg_version (Some 9%N) empty_segment.

Lemma late_segment_wf : seg_wf late_segment.
Proof. apply empty_segment_wf. Qed.

Lemma late_segment_points e : abs_point late_segment e = None.
Proof. apply empty_points. Qed.

Lemma empty_cfgs : seg_cfgs empty_segment = seg_cfgs frozen_segment.
Proof. vm_compute. reflexivity. Qed.

Lemma sample_proxy_point write e :
  (∀ e, abs_point write e = None) → proxy_point (Num:=Z) (SP:=unit) (sample_proxy write) e = abs_point frozen_segment e.
Proof.
  intros Hnone. unfold proxy_point. change (entry_point (write_segment (sample_proxy write)) e) with (abs_point write e).
  by rewrite Hnone.
Qed.

Lemma frozen_seven : ∃ pt, abs_point frozen_segment (NumId 7) = Some pt ∧ (pt_version pt < 5)%N.
Proof. eexists. split; vm_compute; reflexivity. Qed.

Lemma sample_proxy_fresh (op : seg_op Z) : proxy_fresh (Num:=Z) (SP:=unit) (sample_proxy empty_segment) 5 op.
Proof.
  split; [|vm_compute; discriminate]. intros pt Hpt. change (abs_point empty_segment (seg_op_point op) = Some pt) in Hpt.
  by rewrite empty_points in Hpt.
Qed.

Lemma sample_proxy_seven : ∃ pt, proxy_point (Num:=Z) (SP:=unit) (sample_proxy empty_segment) (NumId 7) = Some pt.
Proof. rewrite sample_proxy_point by apply empty_points. destruct frozen_seven as (pt & -> & _). eauto. Qed.

Lemma sample_proxy_eight : proxy_point (Num:=Z) (SP:=unit) (sample_proxy empty_segment) (NumId 8) = None.
Proof. rewrite sample_proxy_point by apply empty_points. vm_compute. reflexivity. Qed.

Lemma proxy_refines_witness :
  let run := se_run_op (Num:=Z) (SP:=unit) 5 (OpClear (NumId 7)) (sample_proxy empty_segment) in
  run.1 = Ok true ∧ proxy_wf (Num:=Z) (SP:=unit) run.2 ∧
  proxy_point (Num:=Z) (SP:=unit) run.2 (Uuid 5) = abs_point frozen_segment (Uuid 5) ∧
  se_run_op (Num:=Z) (SP:=unit) 5 (OpClear (NumId 8)) (sample_proxy empty_segment) =
    (Err (PointIdError (NumId 8)), sample_proxy empty_segment).
Proof.
  intros run. assert (run.1 = Ok true) as Hr by (vm_compute; reflexivity). split; [exact Hr|].
  pose proof (λ op X Hop Hroom, proxy_refines (SP:=unit) 5 op X (sample_proxy empty_segment)
    (sample_proxy_wf _ empty_segment_wf empty_points empty_cfgs) ltac:(vm_compute; reflexivity) (sample_proxy_fresh op) Hop Hroom) as Hall.
  set (X := {[NumId 7; NumId 8]} : gset PointIdType). assert (NumId 7 ∈ X ∧ NumId 8 ∈ X) as [H7 H8]
    by (split; [apply elem_of_union_l|apply elem_of_union_r]; by apply elem_of_singleton).
  assert (proxy_room (Num:=Z) (SP:=unit) (sample_proxy empty_segment) X) as Hroom by (vm_compute; discriminate).
  apply and_assoc. split.
  - destruct sample_proxy_seven as [pt Hpt]. pose proof (Hall (OpClear (NumId 7)) X (λ _, I) (λ _, conj Hroom H7)) as Hwp.
    cbv beta iota in Hwp. cbn [seg_op_point] in Hwp. rewrite Hpt in Hwp. unfold sm_wp in Hwp. fold run in Hwp.
    destruct run as [r s']. cbn in Hr. subst r. destruct Hwp as (Hwf & _ & _ & _ & _ & _ & _ & old & _ & _ & Hp).
    split; [exact Hwf|]. rewrite Hp, decide_False by done. apply sample_proxy_point, empty_points.
  - pose proof (Hall (OpClear (NumId 8)) X (λ _, I) (λ _, conj Hroom H8)) as Hrun.
    cbv beta iota in Hrun. cbn [seg_op_point] in Hrun. by rewrite sample_proxy_eight in Hrun.
Defined.

Lemma stale_move_loses_point_witness :
  let run := se_run_op (Num:=Z) (SP:=unit) 6 (OpClear (NumId 7)) (sample_proxy late_segment) in
  run.1 = Ok false ∧ proxy_point (Num:=Z) (SP:=unit) run.2 (NumId 7) = None.
Proof.
  destruct frozen_seven as (pt & Hpt & Hv).
  destruct (stale_move_loses_point (SP:=unit) no_display "segment" (λ _, Ok tt) (λ _, Ok tt) 6 (OpClear (NumId 7)) (sample_proxy late_segment) pt
    (sample_proxy_wf _ late_segment_wf late_segment_points empty_cfgs) eq_refl Hpt) as (_ & Hr & Hp).
  - by apply not_elem_of_empty.
  - lia.
  - vm_compute. reflexivity.
  - done.
  - split; [exact Hr|exact Hp].
Defined.

(** Changes up to 4 are in memory here and changes up to 9 on disk there. *)
Definition unsaved_proxy : ProxySegment SampleSeg :=
  sample_proxy (set_persisted_version (Some 9%N) late_segment).

Lemma proxy_flush_overreports_witness :
  let run := proxy_flush (Num:=Z) (SP:=unit) false unsaved_proxy in
  run.1 = Ok 9%N ∧ (default 0 (seg_persisted_version (wrapped_segment run.2)) < 4)%N.
Proof.
  assert (seg_version (wrapped_segment unsaved_proxy) = Some 4%N) as Hv by (vm_compute; reflexivity).
  assert (seg_flush_thread (wrapped_segment unsaved_proxy) = None) as Hi by (vm_compute; reflexivity).
  assert (seg_persisted_version (wrapped_segment unsaved_proxy) = None) as Hp by (vm_compute; reflexivity).
  destruct (proxy_flush_overreports (SP:=unit) no_display "segment" (λ _, Ok tt) (λ _, Ok tt) unsaved_proxy 4 9) as (Hr & _ & Hs).
  - split_and!; reflexivity.
  - split; [exact Hi|reflexivity].
  - exact Hv.
  - rewrite Hp. reflexivity.
  - split; [by eexists|reflexivity].
  - vm_compute. discriminate.
  - split; [exact Hr|exact (proj1 Hs)].
Defined.
