(* ===== verification/ProxyScroll.v ===== *)
(** * Scrolling through a proxy

    Reading the ids of a proxy merges the answers of its two segments.  The
    first page of the merged answer is the first page of all visible points. *)

From stdpp Require Import base gmap fin_sets strings list sorting.
From Stdlib Require Import ZArith Lia SpecFloat.
From S2P Require Import Prelude Types Rocks IdTracker NamedVectors VectorStorage Text Filters Estimator TopK.
From S2P Require Import PayloadStorage FieldIndex FieldIndexEnum FieldIndexLaws Spaces QueryOptimizer.
From S2P Require Import StructPayloadIndex PayloadIndexSpec PayloadIndexLaws Segment PlainIndex SegmentSpec SegmentEntry.
From S2P Require Import Samples ProxySegment ProxySpec.

(** ** Pages *)

Definition ordered_ids (l : list PointIdType) : Prop := StronglySorted point_id_le l ∧ NoDup l.

Lemma ordered_cons a l : ordered_ids (a :: l) → ordered_ids l ∧ (a ∉ l) ∧ ∀ x, x ∈ l → point_id_le a x.
Proof.
  intros [Hs [Ha Hnd]%NoDup_cons]. apply StronglySorted_inv in Hs as [Hs Hall].
  split_and!; [by split|done|by rewrite Forall_forall in Hall].
Qed.

Lemma ordered_head a l b m :
  ordered_ids (a :: l) → ordered_ids (b :: m) → a ∈ b :: m → b ∈ a :: l → a = b.
Proof.
  intros (_ & _ & Ha)%ordered_cons (_ & _ & Hb)%ordered_cons H1 H2. apply elem_of_cons in H1 as [?|H1]; [done|].
  apply elem_of_cons in H2 as [?|H2]; [done|]. apply (anti_symm point_id_le); [by apply Ha|by apply Hb].
Qed.

Lemma sort_ids_ordered l : NoDup l → ordered_ids (sort_ids l).
Proof.
  intros Hnd. split; [apply (StronglySorted_merge_sort point_id_le)|]. unfold sort_ids. by rewrite merge_sort_Permutation.
Qed.

Lemma elem_of_sort_ids e l : e ∈ sort_ids l ↔ e ∈ l.
Proof. unfold sort_ids. by rewrite merge_sort_Permutation. Qed.

Lemma ordered_filter (P : PointIdType → Prop) `{!∀ x, Decision (P x)} l : ordered_ids l → ordered_ids (base.filter P l).
Proof. intros [Hs Hnd]. split; [by apply StronglySorted_filter|by apply NoDup_filter]. Qed.

Lemma elem_of_tail (x a : PointIdType) l : x ∈ a :: l → x ≠ a → x ∈ l.
Proof. by intros [?|?]%elem_of_cons. Qed.

Lemma elem_of_take_elem {A} (x : A) n l : x ∈ take n l → x ∈ l.
Proof. intros (? & ? & _)%elem_of_take. by eapply list_elem_of_lookup_2. Qed.

(** A part that has the first page has it first. *)
Lemma take_part n l m :
  ordered_ids l → ordered_ids m → (∀ x, x ∈ m → x ∈ l) → (∀ x, x ∈ take n l → x ∈ m) → take n m = take n l.
Proof.
  revert l m. induction n as [|n IH]; intros l m Hl Hm Hsub Htake; [by rewrite !take_0|].
  destruct l as [|a l]; [destruct m as [|b m]; [done|]|].
  { specialize (Hsub b ltac:(left)). by apply not_elem_of_nil in Hsub. }
  assert (a ∈ m) as Ham by (apply Htake; left). destruct m as [|b m]; [by apply not_elem_of_nil in Ham|].
  assert (a = b) as <- by (eapply ordered_head; [done|done|done|apply Hsub; left]).
  cbn. f_equal. apply ordered_cons in Hl as (Hl & Hal & _). apply ordered_cons in Hm as (Hm & Ham' & _). apply IH; [done|done|..].
  - intros x Hx. apply (elem_of_tail x a); [apply Hsub; by right|]. by intros ->.
  - intros x Hx. apply (elem_of_tail x a); [apply Htake; by right|]. intros ->. by apply Hal, (elem_of_take_elem a n).
Qed.

(** An early element of the whole is an early element of its part. *)
Lemma take_rank n l m x :
  ordered_ids l → ordered_ids m → (∀ y, y ∈ m → y ∈ l) → x ∈ m → x ∈ take n l → x ∈ take n m.
Proof.
  revert l m. induction n as [|n IH]; intros l m Hl Hm Hsub Hxm Hx; [by apply not_elem_of_nil in Hx|].
  destruct l as [|a l]; [by apply not_elem_of_nil in Hx|]. destruct m as [|b m]; [by apply not_elem_of_nil in Hxm|].
  pose proof Hl as (Hl' & Hal & Hale)%ordered_cons. pose proof Hm as (Hm' & Hbm & Hble)%ordered_cons.
  destruct (decide (b = a)) as [->|Hne].
  - cbn in *. destruct (decide (x = a)) as [->|Hxa]; [left|right].
    apply elem_of_cons in Hx as [?|Hx]; [done|]. apply elem_of_cons in Hxm as [?|Hxm]; [done|]. apply (IH l m); try done.
    intros y Hy. apply (elem_of_tail y a); [apply Hsub; by right|]. by intros ->.
  - assert (a ∉ b :: m) as Ha. { intros Ha. destruct Hne. symmetry. eapply ordered_head; [done|done|done|apply Hsub; left]. }
    assert (x ∈ take n (b :: m)) as Hin.
    { apply (IH l); try done.
      - intros y Hy. apply (elem_of_tail y a); [by apply Hsub|]. by intros ->.
      - apply (elem_of_tail x a); [done|]. by intros ->. }
    apply elem_of_take in Hin as (i & Hi & Hlt). apply elem_of_take. exists i. split; [done|lia].
Qed.

(** [l] lists ids with [P] in order and has at least the first page of them. *)
Definition first_page (P : PointIdType → Prop) (limit : option nat) (l : list PointIdType) : Prop :=
  ∃ all, ordered_ids all ∧ (∀ e, e ∈ all ↔ P e) ∧
    ordered_ids l ∧ (∀ e, e ∈ l → P e) ∧ take_limit limit l = take_limit limit all.

Lemma first_page_merge P Q limit l1 l2 :
  (∀ e, P e → Q e → False) → first_page P limit l1 → first_page Q limit l2 →
  first_page (λ e, P e ∨ Q e) limit (sort_ids (l1 ++ l2)).
Proof.
  intros Hdis (a1 & Ho1 & Ha1 & Hl1 & Hin1 & Ht1) (a2 & Ho2 & Ha2 & Hl2 & Hin2 & Ht2).
  assert (ordered_ids (sort_ids (a1 ++ a2))) as Hall.
  { apply sort_ids_ordered, NoDup_app. split_and!; [apply Ho1| |apply Ho2].
    intros e H1%Ha1 H2%Ha2. by eapply Hdis. }
  assert (ordered_ids (sort_ids (l1 ++ l2))) as Hl.
  { apply sort_ids_ordered, NoDup_app. split_and!; [apply Hl1| |apply Hl2].
    intros e H1%Hin1 H2%Hin2. by eapply Hdis. }
  assert (∀ e, e ∈ sort_ids (a1 ++ a2) ↔ P e ∨ Q e) as Hmem by (intros e; rewrite elem_of_sort_ids, elem_of_app, Ha1, Ha2; done).
  exists (sort_ids (a1 ++ a2)). split_and!; [done|done|done|..].
  { intros e. rewrite elem_of_sort_ids, elem_of_app. intros [?%Hin1|?%Hin2]; auto. }
  destruct limit as [n|]; cbn in *; [|by subst].
  apply take_part; [done|done|..].
  - intros e. rewrite elem_of_sort_ids, elem_of_app, Hmem. intros [?%Hin1|?%Hin2]; auto.
  - intros e He. rewrite elem_of_sort_ids, elem_of_app.
    assert (e ∈ sort_ids (a1 ++ a2)) as Hx by (by eapply elem_of_take_elem).
    assert (∀ a l, ordered_ids a → (∀ y, y ∈ a → y ∈ sort_ids (a1 ++ a2)) → e ∈ a → take n l = take n a → e ∈ l) as Hpart.
    { intros a l Ho Hsub Hea Ht. pose proof (take_rank n _ a e Hall Ho Hsub Hea He) as Hin. rewrite <-Ht in Hin.
      by eapply elem_of_take_elem. }
    rewrite elem_of_sort_ids, elem_of_app in Hx. destruct Hx as [Hx|Hx]; [left|right].
    + apply (Hpart a1); try done. intros y Hy. rewrite elem_of_sort_ids, elem_of_app. by left.
    + apply (Hpart a2); try done. intros y Hy. rewrite elem_of_sort_ids, elem_of_app. by right.
Qed.

Lemma first_page_iff P Q limit l : (∀ e, P e ↔ Q e) → first_page P limit l → first_page Q limit l.
Proof.
  intros HPQ (a & Ho & Ha & Hl & Hin & Ht). exists a. split_and!; [done| |done| |done].
  - intros e. by rewrite Ha.
  - intros e He. by apply HPQ, Hin.
Qed.

(** ** Reading ids from a segment *)

Definition passes {Num} `{!JsonNumber Num} {HG : GeoOps} (filter : option Filter) (e : PointIdType) (pt : Point Num) : bool :=
  map_or true (check_payload (default ∅ (pt_payload pt)) (Some e)) filter.

Definition before (to : option PointIdType) (e : PointIdType) : bool := map_or true (point_id_ltb e) to.

(** The ids a scroll is about. *)
Definition scrolled {Num} `{!JsonNumber Num} {HG : GeoOps} (point : PointIdType → option (Point Num))
    (offset : option PointIdType) (filter : option Filter) (e : PointIdType) : Prop :=
  from_offset offset e = true ∧ ∃ pt, point e = Some pt ∧ passes filter e pt = true.

Class ScrollEntry (Num SP E : Type) `{!JsonNumber Num} {HG : GeoOps} {HS : Simd}
    `{!SegmentEntry Num SP E, !SegmentEntryLaws Num SP E} := {
  scroll_ok : E → option Filter → Prop;
  read_filtered_spec (s : E) offset limit filter : entry_wf s → scroll_ok s filter →
    ∃ l, se_read_filtered (Num:=Num) (SP:=SP) s offset limit filter = Ok l ∧
      first_page (scrolled (entry_point s) offset filter) limit l;
  read_range_spec (s : E) from to : entry_wf s →
    ordered_ids (se_read_range (Num:=Num) (SP:=SP) s from to) ∧
    ∀ e, e ∈ se_read_range (Num:=Num) (SP:=SP) s from to ↔
      is_Some (entry_point s e) ∧ from_offset from e = true ∧ before to e = true;
}.

Lemma take_limit_twice {A} limit (l : list A) : take_limit limit (take_limit limit l) = take_limit limit l.
Proof. destruct limit as [n|]; [|done]. cbn. by rewrite take_take, Nat.min_id. Qed.

Lemma elem_of_take_limit {A} limit (l : list A) x : x ∈ take_limit limit l → x ∈ l.
Proof. destruct limit as [n|]; [|done]. apply elem_of_take_elem. Qed.

Lemma ordered_take_limit limit l : ordered_ids l → ordered_ids (take_limit limit l).
Proof.
  intros [Hs Hnd]. destruct limit as [n|]; [|done]. cbn. split; [by apply StronglySorted_take|].
  eapply sublist_NoDup; [exact Hnd|apply sublist_take].
Qed.

(** On an ordered list the ids before [to] are a prefix. *)
Lemma take_while_before to l e :
  ordered_ids l → e ∈ take_while (λ x, point_id_ltb x to) l ↔ e ∈ l ∧ point_id_ltb e to = true.
Proof.
  induction l as [|a l IH]; intros Ho; cbn.
  { split; [by intros ?%not_elem_of_nil|by intros [?%not_elem_of_nil _]]. }
  apply ordered_cons in Ho as (Ho & Ha & Hle). destruct (point_id_ltb a to) eqn:Hlt.
  - rewrite !elem_of_cons, IH by done. naive_solver.
  - split; [by intros ?%not_elem_of_nil|]. intros [[->|He]%elem_of_cons Hb]; [congruence|]. specialize (Hle e He).
    unfold point_id_ltb in *. apply negb_true_iff in Hb. apply negb_false_iff in Hlt.
    pose proof (point_id_le_trans to a e Hlt Hle) as Hx. unfold point_id_le in Hx. congruence.
Qed.

Lemma ordered_take_while (f : PointIdType → bool) l : ordered_ids l → ordered_ids (take_while f l).
Proof.
  intros [Hs Hnd]. assert (∃ n, take_while f l = take n l) as [n ->].
  { clear. induction l as [|a l [n IH]]; [by exists 0|]. cbn. destruct (f a); [|by exists 0]. exists (S n). cbn. by rewrite IH. }
  by apply (ordered_take_limit (Some n) l).
Qed.

Section segment_scroll.
Context {Num T VI VS PI SP : Type} `{!JsonNumber Num} {HG : GeoOps} {HS : Simd} {HSL : SimdLaws}.
Context `{!IdTracker T, !IdTrackerLaws T} `{!VectorStorage VS, !VectorStorageLaws VS}.
Context `{!PayloadIndex Num T PI, !PayloadIndexLaws Num T PI} `{!VectorIndex T VS PI SP VI}.
Context (display_id : PointIdType → string) (segment_path : string)
  (outcome background : FlushStep → OperationResult unit).
Abbreviation Seg := (Segment T VI VS PI).
Abbreviation entry := (segment_entry (SP:=SP) display_id segment_path outcome background).
Abbreviation laws := (segment_entry_laws (SP:=SP) display_id segment_path outcome background).

Lemma points_ordered (s : Seg) : seg_wf s → ordered_ids (iter_points s).
Proof using IdTrackerLaws0 PayloadIndexLaws0 VectorStorageLaws0. intros Hwf. split; by apply iter_points_le. Qed.

#[export] Instance segment_scroll : @ScrollEntry Num SP Seg _ _ _ entry laws.
Proof using.
  refine (@Build_ScrollEntry Num SP Seg _ _ _ entry laws (λ _ filter, map_or true pi_filter_ok filter = true) _ _).
  - intros s offset limit filter Hwf Hok. exists (page s offset limit filter). split; [by apply read_filtered_eq|].
    unfold page. exists (base.filter (λ e, from_offset offset e && map_or true (λ f, point_matches s f e) filter = true) (iter_points s)).
    split_and!; [apply ordered_filter, points_ordered, Hwf| | | |apply take_limit_twice].
    + intros e. rewrite list_elem_of_filter, elem_of_points, andb_true_iff by done. unfold scrolled, passes, point_matches.
      destruct (abs_point s e) as [pt|] eqn:Hpt; destruct filter as [f|]; cbn; rewrite ?Hpt; naive_solver.
    + by apply ordered_take_limit, ordered_filter, points_ordered.
    + intros e He%elem_of_take_limit. rewrite list_elem_of_filter, elem_of_points, andb_true_iff in He by done.
      unfold scrolled, passes, point_matches in *.
      destruct (abs_point s e) as [pt|] eqn:Hpt; destruct filter as [f|]; cbn in *; rewrite ?Hpt; naive_solver.
  - intros s from to Hwf. cbn. unfold read_range. rewrite iter_from_ids by done.
    assert (ordered_ids (base.filter (λ e, from_offset from e = true) (iter_points s))) as Ho
      by by apply ordered_filter, points_ordered.
    destruct to as [to|]; cbn.
    + split; [by apply ordered_take_while|]. intros e. rewrite take_while_before, list_elem_of_filter, elem_of_points by done. tauto.
    + split; [done|]. intros e. rewrite list_elem_of_filter, elem_of_points by done. tauto.
Defined.
End segment_scroll.

(** ** Reading ids from a proxy *)

Section proxy_scroll.
Context {Num SP E : Type} `{!JsonNumber Num} {HG : GeoOps} {HS : Simd} `{!SegmentEntry Num SP E, !SegmentEntryLaws Num SP E}.
Context `{!ScrollEntry Num SP E}.

Lemma proxy_point_Some (s : ProxySegment E) e (pt : Point Num) :
  proxy_wf (Num:=Num) (SP:=SP) s → proxy_point (SP:=SP) s e = Some pt ↔
    entry_point (write_segment s) e = Some pt ∨ (e ∉ deleted_points s) ∧ entry_point (wrapped_segment s) e = Some pt.
Proof using.
  intros Hwf. unfold proxy_point. destruct (entry_point (write_segment s) e) as [pt'|] eqn:Hw.
  - split; [by left|]. intros [?|[Hd Hp]]; [done|]. destruct Hd. apply Hwf; eauto.
  - destruct (decide (e ∈ deleted_points s)); naive_solver.
Qed.

Lemma proxy_point_is_Some (s : ProxySegment E) e :
  proxy_wf (Num:=Num) (SP:=SP) s → is_Some (proxy_point (Num:=Num) (SP:=SP) s e) ↔
    is_Some (entry_point (write_segment s) e) ∨ (e ∉ deleted_points s) ∧ is_Some (entry_point (wrapped_segment s) e).
Proof using.
  intros Hwf. unfold is_Some. setoid_rewrite proxy_point_Some; [|done]. naive_solver.
Qed.

(** The extra condition hides the deleted points and nothing else. *)
Lemma hidden_filter_passes (filter : option Filter) (D : gset PointIdType) e (pt : Point Num) :
  passes (Some (add_deleted_points_condition_to_filter filter D)) e pt = passes filter e pt && negb (bool_decide (e ∈ D)).
Proof using.
  unfold passes, check_payload. destruct filter as [[should must [l|]]|]; cbn.
  - rewrite forallb_app. cbn. by rewrite andb_true_r, andb_assoc.
  - by rewrite !andb_true_r.
  - by rewrite andb_true_r.
Qed.

Lemma wrapped_filter_passes (s : ProxySegment E) filter e (pt : Point Num) :
  passes (wrapped_filter s filter) e pt = passes filter e pt && negb (bool_decide (e ∈ deleted_points s)).
Proof using.
  unfold wrapped_filter. destruct (decide (deleted_points s = ∅)) as [->|]; [|apply hidden_filter_passes].
  rewrite bool_decide_eq_false_2 by set_solver. by rewrite andb_true_r.
Qed.

(** C17: scrolling through a proxy.  When both segments can answer the filter,
    [read_filtered] of a proxy lists in ascending order, without duplicates and
    without error, visible points that pass the filter, and starts with the
    page asked for: the first [limit] of all the visible points that pass,
    though there may be more of them.  [read_range] lists exactly the visible
    points of the range in order. *)
Theorem proxy_scroll_page (s : ProxySegment E) (Hwf : proxy_wf (Num:=Num) (SP:=SP) s) :
  (∀ offset limit filter, scroll_ok (Num:=Num) (SP:=SP) (wrapped_segment s) (wrapped_filter s filter) →
    scroll_ok (Num:=Num) (SP:=SP) (write_segment s) filter →
    ∃ l, proxy_read_filtered (Num:=Num) (SP:=SP) s offset limit filter = Ok l ∧
      first_page (scrolled (proxy_point (Num:=Num) (SP:=SP) s) offset filter) limit l) ∧
  (∀ from to, ordered_ids (proxy_read_range (Num:=Num) (SP:=SP) s from to) ∧
    ∀ e, e ∈ proxy_read_range (Num:=Num) (SP:=SP) s from to ↔
      is_Some (proxy_point (Num:=Num) (SP:=SP) s e) ∧ from_offset from e = true ∧ before to e = true).
Proof using.
  split.
  - intros offset limit filter Hok1 Hok2. unfold proxy_read_filtered.
    destruct (read_filtered_spec (wrapped_segment s) offset limit _ (pw_wrapped s Hwf) Hok1) as (l1 & -> & Hl1).
    destruct (read_filtered_spec (write_segment s) offset limit _ (pw_write s Hwf) Hok2) as (l2 & -> & Hl2).
    cbn. eexists. split; [done|]. eapply first_page_iff; [|eapply first_page_merge; [|exact Hl1|exact Hl2]].
    + intros e. unfold scrolled. setoid_rewrite proxy_point_Some; [|done]. setoid_rewrite wrapped_filter_passes.
      setoid_rewrite andb_true_iff. setoid_rewrite negb_true_iff. setoid_rewrite bool_decide_eq_false. clear. naive_solver.
    + intros e (_ & pt & Hpt & Hp) (_ & pt' & Hpt' & _). rewrite wrapped_filter_passes, andb_true_iff, negb_true_iff, bool_decide_eq_false in Hp.
      destruct Hp as [_ Hp]. apply Hp. apply Hwf; eauto.
  - intros from to. unfold proxy_read_range.
    destruct (read_range_spec (wrapped_segment s) from to (pw_wrapped s Hwf)) as [[_ Hn1] Hl1].
    destruct (read_range_spec (write_segment s) from to (pw_write s Hwf)) as [[_ Hn2] Hl2]. split.
    + apply sort_ids_ordered, NoDup_app. split_and!; [by apply NoDup_filter| |done].
      intros e [Hd [Hs _]%Hl1]%list_elem_of_filter [Hs' _]%Hl2. apply Hd. by apply Hwf.
    + intros e. rewrite elem_of_sort_ids, elem_of_app, list_elem_of_filter, Hl1, Hl2, proxy_point_is_Some by done. clear. tauto.
Qed.
End proxy_scroll.

(** ** Witness *)

Import SampleInstances.

#[local] Instance sample_scroll : ScrollEntry Z unit SampleSeg := segment_scroll no_display "segment" (λ _, Ok tt) (λ _, Ok tt).

(** One of the two points is hidden. *)
Definition hiding_proxy : ProxySegment SampleSeg := set_deleted_points {[ NumId 7 ]} (sample_proxy empty_segment).

Lemma hiding_proxy_wf : proxy_wf (Num:=Z) (SP:=unit) hiding_proxy.
Proof.
  destruct (sample_proxy_wf _ empty_segment_wf empty_points empty_cfgs) as [H1 H2 H3 _]. split; [exact H1|exact H2|exact H3|].
  intros e He. change (is_Some (abs_point empty_segment e)) in He. rewrite empty_points in He. by destruct He.
Qed.

Lemma proxy_scroll_page_witness :
  (∃ l, proxy_read_filtered (Num:=Z) (SP:=unit) hiding_proxy None (Some 1) (Some color_filter) = Ok l ∧ l = [Uuid 5] ∧
    first_page (scrolled (proxy_point (Num:=Z) (SP:=unit) hiding_proxy) None (Some color_filter)) (Some 1) l) ∧
  proxy_read_range (Num:=Z) (SP:=unit) hiding_proxy None None = [Uuid 5] ∧
  ordered_ids (proxy_read_range (Num:=Z) (SP:=unit) hiding_proxy None None).
Proof.
  pose proof (proxy_scroll_page (SP:=unit) hiding_proxy hiding_proxy_wf) as [Hf Hr].
  split; [|split; [vm_compute; reflexivity|apply Hr]].
  destruct (Hf None (Some 1) (Some color_filter)) as (l & Hl & Hpage); [vm_compute; reflexivity..|].
  exists l. split; [exact Hl|]. split; [|exact Hpage].
  assert (proxy_read_filtered (Num:=Z) (SP:=unit) hiding_proxy None (Some 1) (Some color_filter) = Ok [Uuid 5]) as Hrun
    by (vm_compute; reflexivity).
  rewrite Hrun in Hl. by injection Hl as <-.
Defined.
