(* ===== verification/ProxySearch.v ===== *)
(** * Sampled search during an optimization

    A proxy answers a search with the results of its two segments one after
    the other.  The test for another search of a segment expects one list, of
    the length it asked for, worst result last. *)

From stdpp Require Import base gmap strings list sorting.
From Stdlib Require Import ZArith SpecFloat Lia.
From S2P Require Import Prelude Types Rocks IdTracker NamedVectors VectorStorage Text Filters Estimator TopK Spaces.
From S2P Require Import PayloadStorage FieldIndex FieldIndexEnum FieldIndexLaws QueryOptimizer.
From S2P Require Import StructPayloadIndex PayloadIndexSpec PayloadIndexLaws Segment PlainIndex SegmentSpec SearchSpec.
From S2P Require Import SegmentEntry SegmentHolder Samples Requests SearchAggregator SegmentsSearcher SearcherSpec SearchMerge.
From S2P Require Import SearchAll ProxySegment.

(** ** What a result is, when there is one *)

Definition on_ok {E A} (P : A → Prop) (r : result E A) : Prop := match r with Ok a => P a | _ => True end.

Lemma on_ok_bind {E A B} (P : A → Prop) (Q : B → Prop) (r : result E A) (f : A → result E B) :
  on_ok P r → (∀ a, P a → on_ok Q (f a)) → on_ok Q (r ≫= f).
Proof. destruct r as [a|e|]; cbn; [|done..]. intros Ha Hf. by apply Hf. Qed.

Lemma on_ok_any {E A} (r : result E A) : on_ok (λ _, True) r.
Proof. by destruct r. Qed.

Lemma on_ok_mono {E A} (P Q : A → Prop) (r : result E A) : on_ok P r → (∀ a, P a → Q a) → on_ok Q r.
Proof. destruct r; cbn; auto. Qed.

Lemma on_ok_fold {E A B} (I : B → Prop) (f : A → B → result E B) l b :
  I b → (∀ x b, x ∈ l → I b → on_ok I (f x b)) → on_ok I (res_fold f l b).
Proof.
  revert b. induction l as [|x l IH]; intros b Hb Hf; [done|]. cbn. eapply on_ok_bind; [apply Hf; [left|done]|].
  intros b' Hb'. apply IH; [done|]. intros y c Hy. apply Hf. by right.
Qed.

Lemma on_ok_map {E A B} (R : A → B → Prop) (f : A → result E B) l :
  (∀ x, x ∈ l → on_ok (R x) (f x)) → on_ok (Forall2 R l) (res_map f l).
Proof.
  induction l as [|x l IH]; intros Hf; [by constructor|]. cbn. eapply on_ok_bind; [apply Hf; left|]. intros y Hy.
  eapply on_ok_bind; [apply IH; intros z Hz; apply Hf; by right|]. intros ys Hys. by constructor.
Qed.

Lemma on_ok_vec_get {E A} (P : A → Prop) (l : list A) i : Forall P l → on_ok P (vec_get (E:=E) l i).
Proof. intros Hl. unfold vec_get, unwrap. destruct (l !! i) eqn:Hi; [|done]. cbn. by eapply Forall_lookup_1. Qed.

Lemma on_ok_vec_set {E A} (P : A → Prop) (l : list A) i x : Forall P l → P x → on_ok (Forall P) (vec_set (E:=E) i x l).
Proof. intros Hl Hx. unfold vec_set. repeat case_match; try done. cbn. by apply Forall_insert. Qed.

(** ** Points that no search returns *)

Section absent.
Context {Num E : Type} `{!SegmentEntry Num SearchParams E}.
Context (display_id : PointIdType → string) (join_error : string) (e : PointIdType).
Abbreviation Scored := (ScoredPoint Num).

Definition absent (row : list Scored) : Prop := Forall (λ p, sp_id p ≠ e) row.
Definition agg_absent (a : BatchResultAggregator Num) : Prop := Forall (λ g, absent (heap (agg_queue g))) (batch_aggregators a).

Lemma aggregator_push_absent {Er} (p : Scored) g :
  sp_id p ≠ e → absent (heap (agg_queue g)) → on_ok (λ g', absent (heap (agg_queue g'))) (aggregator_push (E:=Er) p g).
Proof using.
  intros Hp Hg. unfold aggregator_push, queue_push. destruct (decide (_ ∈ _)); [done|].
  assert (∀ h : list Scored, absent h → absent (heap_push scored_point_leb p h)) as Hpush.
  { intros h Hh. unfold absent. rewrite heap_push_perm. by constructor. }
  destruct (decide (_ < _)); cbn; [by apply Hpush|]. destruct (heap (agg_queue g)) as [|x rest] eqn:Hh; cbn; [done|].
  destruct (ltb _ x p); cbn; [|by rewrite Hh]. apply Hpush. by inversion Hg.
Qed.

Lemma update_batch_absent {Er} b (ps : list Scored) a :
  absent ps → agg_absent a → on_ok agg_absent (update_batch_results (E:=Er) b ps a).
Proof using.
  intros Hps Ha. unfold update_batch_results. eapply on_ok_bind; [by apply on_ok_vec_get|]. cbn. intros g Hg.
  eapply on_ok_bind.
  - apply (on_ok_fold (λ g, absent (heap (agg_queue g)))); [done|]. intros p g' Hp Hg'. destruct (_ <=? _)%N; [|done].
    apply aggregator_push_absent; [|done]. by apply (proj1 (Forall_forall _ _) Hps).
  - intros g' Hg'. eapply on_ok_bind; [by apply on_ok_vec_set|]. by intros l Hl.
Qed.

Lemma step1_absent results limits further :
  Forall (Forall absent) results →
  on_ok (λ r, agg_absent r.1) (process_search_result_step1 results limits further).
Proof using.
  intros Hres. unfold process_search_result_step1. apply (on_ok_bind agg_absent).
  { eapply on_ok_bind; [apply (on_ok_map (λ _ g, absent (heap (agg_queue g))))|].
    - intros n _. unfold aggregator_new, queue_new. destruct (decide (0 < n)); cbn; [constructor|done].
    - intros gs Hgs. cbn. unfold agg_absent. cbn. clear -Hgs. by induction Hgs; constructor. }
  intros a Ha. apply (on_ok_bind (λ st, agg_absent (ss_aggregator st))).
  { unfold merge_results. apply on_ok_fold; [done|]. intros [i rows] st Hi%elem_of_enumerate Hst. apply on_ok_fold; [done|].
    intros [b row] st' Hb%elem_of_enumerate Hst'. cbn in *. eapply on_ok_bind; [apply on_ok_any|]. intros ret _.
    eapply on_ok_bind; [apply on_ok_any|]. intros low _. eapply on_ok_bind; [|by intros a' Ha'].
    apply update_batch_absent; [|done]. eapply Forall_lookup_1; [|done]. by eapply (Forall_lookup_1 _ _ _ _ Hres). }
  intros st Hst. eapply on_ok_bind; [apply on_ok_any|]. by intros m _.
Qed.

(** A segment without further results is not searched again. *)
Lemma step1_not_again results limit further k :
  further !! k = Some [false] → on_ok (λ r, r.2 !! k = None) (process_search_result_step1 (Num:=Num) results [limit] further).
Proof using.
  intros Hk. unfold process_search_result_step1. eapply on_ok_bind; [apply on_ok_any|]. intros a _.
  eapply on_ok_bind; [apply on_ok_any|]. intros st _. apply (on_ok_bind (λ m, m !! k = None)); [|by intros m Hm].
  cbn [enumerate length seq zip zip_with res_fold]. apply (on_ok_fold _ _ [(0, limit)]); [done|].
  intros [b l] m [= -> ->]%list_elem_of_singleton Hm. unfold rerun_batch. eapply on_ok_bind; [apply on_ok_any|]. intros low _.
  destruct low as [low|]; [|done]. apply on_ok_fold; [done|]. intros i m' _ Hm'.
  apply (on_ok_bind (λ rerun, i = k → rerun = false)).
  - unfold needs_rerun. eapply on_ok_bind; [apply on_ok_any|]. intros x _. eapply on_ok_bind; [apply on_ok_any|]. intros y _.
    apply (on_ok_bind (λ h, i = k → h = false)); [|intros h Hh; cbn; by intros ->%Hh].
    destruct (decide (i = k)) as [->|Hne]; [unfold vec_get2, vec_get; by rewrite Hk|].
    eapply on_ok_mono; [apply on_ok_any|]. done.
  - intros rerun Hr. destruct rerun; [|done]. cbn. rewrite lookup_insert_ne; [done|]. by intros ->; specialize (Hr eq_refl).
Qed.

(** No search of the segment returns the point. *)
Definition never (s : E) : Prop :=
  ∀ name vectors with_payload with_vector filter top params,
    on_ok (Forall absent) (se_search_batch (Num:=Num) s name vectors with_payload with_vector filter top params).

Lemma search_in_segment_never s l total sampling :
  never s → on_ok (λ r, Forall absent r.1) (search_in_segment display_id s l total sampling).
Proof using.
  intros Hs. assert (∀ st, Forall absent (bs_result st) →
    on_ok (λ st', Forall absent (bs_result st')) (flush_batch display_id s total sampling st)) as Hflush.
  { intros st Hst. unfold flush_batch. destruct (bs_vectors_batch st) as [|v vs]; [done|]. eapply on_ok_bind; [apply on_ok_any|].
    intros top _. apply (on_ok_bind (Forall absent)); [|intros res Hr; cbn; by apply Forall_app].
    specialize (Hs (bsp_vector_name (bs_prev_params st)) (v :: vs) (bsp_with_payload (bs_prev_params st))
      (bsp_with_vector (bs_prev_params st)) (bsp_filter (bs_prev_params st)) top (bsp_params (bs_prev_params st))).
    by destruct (se_search_batch _ _ _ _ _ _ _ _). }
  unfold search_in_segment. apply (on_ok_bind (λ st, Forall absent (bs_result st))).
  - apply on_ok_fold; [constructor|]. intros r st _ Hst. unfold search_query_step. destruct (batch_params_eqb _ _); [done|].
    eapply on_ok_bind; [by apply Hflush|]. by intros st' Hst'.
  - intros st Hst. eapply on_ok_bind; [by apply Hflush|]. by intros st' Hst'.
Qed.

Lemma executed_rows (R : CollectionResult (list (list Scored) * list bool) → list (list Scored) * list bool → Prop) l :
  (∀ r, r ∈ l → on_ok (R r) r) →
  on_ok (λ r, ∃ rs, Forall2 R l rs ∧ r = (rs.*1, rs.*2)) (execute_searches join_error l).
Proof using.
  intros Hl. unfold execute_searches. destruct (existsb _ _); [done|]. eapply on_ok_bind; [by apply (on_ok_map R id)|].
  intros rs Hrs. cbn. eauto.
Qed.

(** A second search of the segments that do not have the point. *)
Lemma rerun_absent segs searches m a :
  agg_absent a → (∀ i s, is_Some (m !! i) → segs !! i = Some s → never s) →
  on_ok agg_absent (rerun_searches display_id join_error segs searches m a).
Proof using.
  intros Ha Hm. unfold rerun_searches. destruct (decide (m = ∅)); [done|].
  apply (on_ok_bind (Forall (on_ok (λ r : list (list Scored) * list bool, Forall absent r.1)))).
  { unfold secondary_searches. eapply on_ok_mono;
      [apply (on_ok_map (λ _, on_ok (λ r : list (list Scored) * list bool, Forall absent r.1)))|].
    - intros [i idxs] Hi%elem_of_map_to_list. cbn [fst snd].
      apply (on_ok_bind never); [unfold vec_get; destruct (segs !! i) as [s|] eqn:Hs; [|done]; cbn; eapply Hm; eauto|].
      intros s Hs. eapply on_ok_bind; [apply on_ok_any|]. intros l _. cbn. by apply search_in_segment_never.
    - intros tasks Ht. clear -Ht. by induction Ht; constructor. }
  intros tasks Ht. eapply on_ok_bind.
  { apply (executed_rows (λ _ r, Forall absent r.1)). intros r Hr. by apply (proj1 (Forall_forall _ _) Ht). }
  intros r (rs & Hrs & ->). cbn [fst]. assert (Forall (Forall absent) rs.*1) as Hall by (clear -Hrs; by induction Hrs; constructor).
  unfold merge_secondary. apply on_ok_fold; [done|]. intros [r rows] a' Hr Ha'. apply on_ok_fold; [done|].
  intros [b row] a'' Hb Ha''. apply update_batch_absent; [|done].
  apply elem_of_zip_r in Hr, Hb. by apply (proj1 (Forall_forall _ _) (proj1 (Forall_forall _ _) Hall _ Hr)).
Qed.
End absent.

(** ** A proxy whose sample is full *)

Section lost_sample.
Context {Num E : Type} `{!SegmentEntry Num SearchParams E}.
Context (display_id : PointIdType → string) (join_error : string).
Abbreviation Scored := (ScoredPoint Num).
Abbreviation LSeg := (LockedSegment E).

(** The answers of the two segments of a proxy to a request for [top] points. *)
Definition parts_answer (p : ProxySegment E) (req : SearchRequest) (top : nat) (wrapped write : list Scored) : Prop :=
  let q := request_params req in
  let search s filter := se_search_batch s (bsp_vector_name q) [get_query_vector (sr_vector req)] (bsp_with_payload q)
    (bsp_with_vector q) filter top (bsp_params q) in
  search (wrapped_segment p) (wrapped_filter p (bsp_filter q)) = Ok [wrapped] ∧
  search (write_segment p) (bsp_filter q) = Ok [write].

Lemma proxy_sampled p req total top wrapped write :
  0 < sr_top req → batch_top (Proxy p : LSeg) total true (request_params req) = Ok top → parts_answer p req top wrapped write →
  search_in_segment display_id (Proxy p : LSeg) [req] total true =
    Ok ([wrapped ++ write], [bool_decide (length (wrapped ++ write) = top)]).
Proof using.
  intros Hpos Htop [Hw1 Hw2]. unfold search_in_segment. cbn [res_fold]. unfold search_query_step. cbn [bs_prev_params].
  assert (batch_params_eqb (request_params req) default_batch_params = false) as ->.
  { unfold batch_params_eqb. cbn. rewrite (bool_decide_eq_false_2 (sr_top req = 0)) by lia. by rewrite !andb_false_r. }
  cbn [flush_batch bs_vectors_batch mbind result_bind app]. unfold flush_batch. cbn [bs_vectors_batch bs_prev_params].
  rewrite Htop. cbn [mbind result_bind se_search_batch locked_entry locked_get proxy_entry]. unfold proxy_search_batch.
  cbn [request_params bsp_vector_name bsp_with_payload bsp_with_vector bsp_filter bsp_params] in *. by rewrite Hw1, Hw2.
Qed.

(** C27: while a segment is being optimized, a sampled search loses points.  A
    segment is searched again when its sample was full, that is, had exactly
    the number of points asked for.  A proxy answers with the results of its two
    segments one after the other; so when the wrapped segment fills the sample
    and the write segment finds anything, there are more results than were asked
    for, the proxy is taken to have no others, and it is not searched again.  A
    point that is not in the sample, and that no other segment returns, is not
    in the result of the search, whatever its score. *)
Theorem proxy_sample_loses (holder : SegmentHolder LSeg) (req : SearchRequest) (k : nat) (p : ProxySegment E)
  (e : PointIdType) (top : nat) (wrapped write : list Scored) :
  let segs := (map_to_list (segments holder)).*2 in
  let total := sum_list_with se_points_count segs in
  1 < length segs → 0 < total → 0 < sr_top req →
  segs !! k = Some (Proxy p) → batch_top (Proxy p : LSeg) total true (request_params req) = Ok top →
  parts_answer p req top wrapped write → length wrapped = top → write ≠ [] →
  absent e (wrapped ++ write) → (∀ i s, i ≠ k → segs !! i = Some s → never (Num:=Num) e s) →
  on_ok (Forall (absent e)) (searcher_search display_id join_error holder [req] true).
Proof using.
  intros segs total Hlen Htot Hpos Hk Htop Hparts Hfull Hne Habs Hothers. unfold searcher_search. fold segs. fold total.
  destruct (decide (segs = [])) as [Hnil|_]; [constructor|].
  rewrite (proj2 (Nat.ltb_lt _ _) Hlen), (proj2 (Nat.ltb_lt _ _) Htot). cbn [andb].
  assert (search_in_segment display_id (Proxy p : LSeg) [req] total true = Ok ([wrapped ++ write], [false])) as Hp.
  { rewrite (proxy_sampled p req total top wrapped write) by done. rewrite bool_decide_eq_false_2; [done|].
    rewrite length_app, Hfull. destruct write; cbn; [done|lia]. }
  eapply on_ok_bind; [apply (executed_rows join_error (λ r rs, r = Ok rs)); intros r _; by destruct r|].
  intros r (rs & Hrs & ->). apply Forall2_fmap_l in Hrs.
  destruct (Forall2_lookup_l _ _ _ _ _ Hrs Hk) as (r & Hrk & Hr). unfold compose in Hr. rewrite Hp in Hr. injection Hr as <-.
  assert (Forall (Forall (absent e)) rs.*1) as Hall.
  { apply Forall_fmap, Forall_lookup_2. intros i r Hi. destruct (decide (i = k)) as [->|Hik].
    - rewrite Hrk in Hi. injection Hi as <-. cbn. by constructor.
    - destruct (Forall2_lookup_r _ _ _ _ _ Hrs Hi) as (s & Hs & Hsr). unfold compose in Hsr.
      pose proof (search_in_segment_never display_id e s [req] total true (Hothers i s Hik Hs)) as Hn. by rewrite Hsr in Hn. }
  pose proof (step1_not_again rs.*1 (sr_top req) rs.*2 k) as Hagain. rewrite list_lookup_fmap, Hrk in Hagain. specialize (Hagain eq_refl).
  pose proof (step1_absent e rs.*1 [sr_top req] rs.*2 Hall) as Hagg. cbn [fmap list_fmap].
  destruct (process_search_result_step1 _ _ _) as [[a m]|?|]; [|done..]. cbn in Hagain, Hagg |- *.
  eapply on_ok_bind; [apply (rerun_absent display_id join_error e)|]; [done| |].
  - intros i s [l Hi] Hs. apply (Hothers i s); [|done]. intros ->. by rewrite Hagain in Hi.
  - intros a' Ha'. cbn. unfold into_topk. apply Forall_fmap. eapply Forall_impl; [exact Ha'|]. intros g Hg. cbn.
    unfold aggregator_into_vec, queue_into_vec. by apply Forall_rev.
Qed.
End lost_sample.

(** ** Points of a segment *)

Section segment_points.
Context {Num T VI VS PI : Type} `{!JsonNumber Num} {HG : GeoOps} {HS : Simd}.
Context `{!IdTracker T} `{!VectorStorage VS} `{!PayloadIndex Num T PI} `{!VectorIndex T VS PI SearchParams VI}.
Context (display_id : PointIdType → string) (segment_path : string)
  (outcome background : FlushStep → OperationResult unit).
Abbreviation Seg := (Segment T VI VS PI).
#[local] Instance points_entry : SegmentEntry Num SearchParams Seg := segment_entry display_id segment_path outcome background.

Lemma segment_never e (s : Seg) : (∀ i, external_id (seg_id_tracker s) i ≠ Some e) → never (Num:=Num) e s.
Proof using.
  intros Hs name vectors with_payload with_vector filter top params. cbn. unfold search_batch.
  eapply on_ok_bind; [apply on_ok_any|]. intros _ _. eapply on_ok_bind; [apply on_ok_any|]. intros vd _.
  eapply on_ok_bind; [apply on_ok_any|]. intros _ _. eapply on_ok_bind; [apply on_ok_any|]. intros results _.
  eapply on_ok_mono; [apply (on_ok_map (λ _, absent e))|].
  - intros result _. unfold process_search_result. eapply on_ok_mono; [apply (on_ok_map (λ _ p, sp_id p ≠ e))|].
    + intros [id scored] (x & _ & Hx)%list_elem_of_omap. destruct (external_id _ _) as [id'|] eqn:Hid; [|done].
      injection Hx as -> ->. unfold process_scored. do 3 (eapply on_ok_bind; [apply on_ok_any|]; intros ? _). cbn.
      intros ->. by apply (Hs (spo_idx scored)).
    + intros ps Hps. clear -Hps. by induction Hps; constructor.
  - intros rows Hrows. clear -Hrows. by induction Hrows; constructor.
Qed.
End segment_points.

(** ** Witness *)

Import SampleInstances.
#[local] Existing Instance plain_index.
#[local] Instance sampled_entry : SegmentEntry Z SearchParams SampleSeg :=
  plain_entry no_display "segment" (λ _, Ok tt) (λ _, Ok tt).

Definition f32_of_Z (z : Z) : spec_float := binary_normalize 24 128 z 0 false.

(** A segment of points with the given scores. *)
Definition scored_segment (l : list (N * Z)) : SampleSeg :=
  fold_left (λ s p, (run_seg_op no_display 1 (OpUpsert (NumId p.1) [("", [f32_of_Z p.2; f32_zero])]) s).2) l empty_segment.

(** Eight good points are being optimized while one bad point is written, next
    to a larger segment of mediocre points. *)
Definition good_points : ProxySegment SampleSeg :=
  mkProxy (scored_segment [(100%N, 1%Z)]) (scored_segment ((λ k, (N.of_nat k, 21 - Z.of_nat k)%Z) <$> seq 1 8)) ∅ ∅ ∅ None.
Definition mediocre_points : SampleSeg := scored_segment ((λ k, (N.of_nat (200 + k), 2%Z)) <$> seq 0 127).
Definition optimized_holder : SegmentHolder (LockedSegment SampleSeg) :=
  mkHolder {[ 1%N := Proxy good_points; 2%N := Original mediocre_points ]} ∅ None.

Definition best_six : SearchRequest :=
  mkSearchRequest (NVDefault [f32_of_Z 1; f32_zero]) None None 6 0 None None None.

Definition six_results (sampling : bool) : list (PointIdType * spec_float) :=
  match searcher_search no_display "" optimized_holder [best_six] sampling with
  | Ok [res] => map (λ p : ScoredPoint Z, (sp_id p, sp_score p)) res
  | _ => []
  end.

Lemma two_segments {A} (a b : A) : (map_to_list ({[ 1%N := a; 2%N := b ]} : gmap N A)).*2 = [b; a].
Proof. reflexivity. Qed.

Lemma unknown_external (t : SimpleIdTracker MemDB) e :
  forallb (λ x, bool_decide (x ≠ e)) (internal_to_external (maps t)) = true → ∀ i, simple_external_id t i ≠ Some e.
Proof.
  intros Hall i Hi. unfold simple_external_id, maps_external_id in Hi.
  destruct (deleted _ !! i) as [[]|]; [done| |done]. apply list_elem_of_lookup_2, list_elem_of_In in Hi.
  apply (proj1 (forallb_forall _ _) Hall) in Hi. by apply bool_decide_eq_true in Hi.
Qed.

Lemma mediocre_never : never (Num:=Z) (NumId 6) (Original mediocre_points : LockedSegment SampleSeg).
Proof.
  apply (segment_never no_display "segment" (λ _, Ok tt) (λ _, Ok tt) (NumId 6) mediocre_points).
  apply unknown_external. vm_compute. reflexivity.
Qed.

(** The sample of five from the eight points and from the bad one. *)
Definition sample_of (s : SampleSeg) : list (ScoredPoint Z) :=
  match se_search_batch s "" [[f32_of_Z 1; f32_zero]] (with_payload_from (WPBool false)) (WVBool false) None 5 (None : option SearchParams) with
  | Ok [row] => row
  | _ => []
  end.

Lemma good_sample : parts_answer good_points best_six 5 (sample_of (wrapped_segment good_points)) (sample_of (write_segment good_points)).
Proof. split; vm_compute; reflexivity. Qed.

Lemma good_sample_size : length (sample_of (wrapped_segment good_points)) = 5 ∧ length (sample_of (write_segment good_points)) = 1.
Proof. split; vm_compute; reflexivity. Qed.

Lemma good_sample_absent :
  absent (NumId 6) (sample_of (wrapped_segment good_points) ++ sample_of (write_segment good_points)).
Proof. apply (bool_decide_unpack _). vm_compute. exact I. Qed.

Lemma optimized_segments : (map_to_list (segments optimized_holder)).*2 = [Original mediocre_points; Proxy good_points].
Proof. apply two_segments. Qed.

(** The six best points are 1 to 6.  Point 6 scores 15; a point with the score
    of 2 has its place in the sampled search. *)
Lemma proxy_sample_loses_witness :
  In (NumId 6, f32_of_Z 15) (six_results false) ∧ length (six_results true) = 6 ∧
  In (f32_of_Z 2) (map snd (six_results true)) ∧ ∀ score, ¬ In (NumId 6, score) (six_results true).
Proof.
  assert (six_results false = (λ k, (NumId (N.of_nat k), f32_of_Z (21 - Z.of_nat k))) <$> seq 1 6) as -> by (vm_compute; reflexivity).
  assert (map snd (six_results true) = f32_of_Z <$> [20; 19; 18; 17; 16; 2]%Z) as Hs by (vm_compute; reflexivity).
  split; [cbn; tauto|]. split; [rewrite <-(length_map snd), Hs; reflexivity|]. split; [rewrite Hs; cbn; tauto|].
  assert (on_ok (Forall (absent (NumId 6))) (searcher_search (Num:=Z) no_display "" optimized_holder [best_six] true)) as Hlost.
  { apply (proxy_sample_loses no_display "" optimized_holder best_six 1 good_points (NumId 6) 5 (sample_of (wrapped_segment good_points))
      (sample_of (write_segment good_points))); rewrite ?optimized_segments.
    - cbn. lia.
    - apply Nat.ltb_lt. vm_compute. reflexivity.
    - cbn. lia.
    - reflexivity.
    - vm_compute. reflexivity.
    - exact good_sample.
    - apply good_sample_size.
    - destruct good_sample_size as [_ H1]. by destruct (sample_of (write_segment good_points)).
    - exact good_sample_absent.
    - intros [|[|i]] s Hi Hs'; [|destruct (Hi eq_refl)|discriminate Hs']. injection Hs' as <-. exact mediocre_never. }
  intros score Hin. unfold six_results in Hin. destruct (searcher_search _ _ _ _ _) as [[|row [|]]|?|]; try (destruct Hin).
  apply in_map_iff in Hin as (p & [= Hp _] & Hin). cbn in Hlost. apply Forall_inv in Hlost.
  unfold absent in Hlost. rewrite Forall_forall in Hlost. apply (Hlost p); [by apply list_elem_of_In|done].
Defined.
