(* ===== verification/CollectionConfig.v ===== *)
(** * Configuration of a collection

    Models [lib/collection/src/config.rs], the vector parameters of
    [operations/types.rs] and the partial updates of
    [operations/config_diff.rs].

    A partial update goes through JSON: both structures are serialised, the
    fields of the update that are present and not null replace those of the
    configuration, and the result is parsed.  [to_value] and [from_value] are
    what serde derives for the structures: an [Option] field that is absent or
    null is [None], a field with an alias may have either name, a field with
    [skip_serializing_if] is left out when it is [None], a field with a default
    may be absent.  The numbers of [serde_json] are a parameter.

    Not modelled: reading and writing of the configuration file, and the
    validation attributes. *)

From stdpp Require Import base gmap strings list.
From Stdlib Require Import ZArith SpecFloat.
From S2P Require Import Prelude Types NamedVectors VectorStorage Segment SegmentHolder.

(** ** Structures *)

Record WalConfig := mkWalConfig {
  wal_capacity_mb : N;
  wal_segments_ahead : N;
}.

Definition default_wal_config : WalConfig := mkWalConfig 32 0.

(** [WalOptions] of the log, in bytes. *)
Record WalOptions := mkWalOptions {
  segment_capacity : N;
  segment_queue_len : N;
}.

Definition wal_options_from (config : WalConfig) : WalOptions :=
  mkWalOptions ((wal_capacity_mb config * 1024 * 1024) `mod` 2 ^ 64) (wal_segments_ahead config).

Record OptimizersConfig := mkOptimizersConfig {
  deleted_threshold : spec_float;
  vacuum_min_vector_number : N;
  default_segment_number : N;
  max_segment_size : option N;
  memmap_threshold : option N;
  indexing_threshold : N;
  flush_interval_sec : N;
  max_optimization_threads : N;
}.

Definition default_hnsw_config : HnswConfig := mkHnswConfig 16 100 20000 0 (Some false) None.

Record HnswConfigDiff := mkHnswDiff {
  d_m : option N;
  d_ef_construct : option N;
  d_full_scan_threshold : option N;
  d_max_indexing_threads : option N;
  d_on_disk : option bool;
  d_payload_m : option N;
}.

Record WalConfigDiff := mkWalDiff {
  d_wal_capacity_mb : option N;
  d_wal_segments_ahead : option N;
}.

Record CollectionParamsDiff := mkParamsDiff {
  d_replication_factor : option N;
  d_write_consistency_factor : option N;
}.

Record OptimizersConfigDiff := mkOptimizersDiff {
  d_deleted_threshold : option spec_float;
  d_vacuum_min_vector_number : option N;
  d_default_segment_number : option N;
  d_max_segment_size : option N;
  d_memmap_threshold : option N;
  d_indexing_threshold : option N;
  d_flush_interval_sec : option N;
  d_max_optimization_threads : option N;
}.

Record VectorParams := mkVectorParams {
  vp_size : N;
  vp_distance : Distance;
  vp_hnsw_config : option HnswConfigDiff;
  vp_quantization_config : option QuantizationConfig;
}.

Inductive VectorsConfig : Type :=
| VectorsSingle (params : VectorParams)
| VectorsMulti (params : gmap string VectorParams).

Record CollectionParams := mkCollectionParams {
  cp_vectors : VectorsConfig;
  shard_number : N;
  replication_factor : N;
  write_consistency_factor : N;
  on_disk_payload : bool;
}.

Record CollectionConfig := mkCollectionConfig {
  cc_params : CollectionParams;
  cc_hnsw_config : HnswConfig;
  cc_optimizer_config : OptimizersConfig;
  cc_wal_config : WalConfig;
  cc_quantization_config : option QuantizationConfig;
}.

Definition get_params (self : VectorsConfig) (name : string) : option VectorParams :=
  match self with
  | VectorsSingle params => if decide (name = DEFAULT_VECTOR_NAME) then Some params else None
  | VectorsMulti params => params !! name
  end.

Definition params_iter (self : VectorsConfig) : list (string * VectorParams) :=
  match self with
  | VectorsSingle params => [(DEFAULT_VECTOR_NAME, params)]
  | VectorsMulti params => map_to_list params
  end.

Definition get_vector_params (self : CollectionParams) (vector_name : string) : CollectionResult VectorParams :=
  match get_params (cp_vectors self) vector_name with
  | Some params => Ok params
  | None => Err (BadInput (if decide (vector_name = DEFAULT_VECTOR_NAME)
                           then "Default vector params are not specified in config"
                           else "Vector params for " +:+ vector_name +:+ " are not specified in config"))
  end.

(** ** JSON *)

(** The numbers of [serde_json]; a float that is not finite has none. *)
Class ConfigNumber (Num : Type) := {
  num_of_u64 : N → Num;
  num_as_u64 : Num → option N;
  num_of_f64 : spec_float → option Num;
  num_as_f64 : Num → option spec_float;
  num_of_f32 : spec_float → option Num;
  num_as_f32 : Num → option spec_float;
}.

Definition finite_float (x : spec_float) : bool :=
  match x with S754_zero _ | S754_finite _ _ _ => true | S754_infinity _ | S754_nan => false end.

Class ConfigNumberLaws (Num : Type) `{!ConfigNumber Num} := {
  u64_number n : (n ≤ u64_max)%N → num_as_u64 (num_of_u64 n) = Some n;
  f64_number x : match num_of_f64 x with Some n => finite_float x = true ∧ num_as_f64 n = Some x | None => finite_float x = false end;
  f32_number x : match num_of_f32 x with Some n => finite_float x = true ∧ num_as_f32 n = Some x | None => finite_float x = false end;
}.

Section json.
Context {Num : Type} `{!ConfigNumber Num}.
Abbreviation Value := (Value Num).
Abbreviation Object := (gmap string Value).

(** Serialisation of a structure, with the fields that are skipped. *)
Definition object (fields : list (string * option Value)) : Object :=
  list_to_map (omap (λ p, (p.1,.) <$> p.2) fields).

Definition ser_u64 (n : N) : Value := VNumber (num_of_u64 n).
Definition ser_f64 (x : spec_float) : Value := match num_of_f64 x with Some n => VNumber n | None => VNull end.
Definition ser_f32 (x : spec_float) : Value := match num_of_f32 x with Some n => VNumber n | None => VNull end.
Definition ser_option {A} (f : A → Value) (o : option A) : Value := from_option f VNull o.

Definition de_u64 (v : Value) : option N := match v with VNumber n => num_as_u64 n | _ => None end.
Definition de_nonzero (max : N) (v : Value) : option N :=
  n ← de_u64 v; if (0 <? n)%N && (n <=? max)%N then Some n else None.
Definition de_f64 (v : Value) : option spec_float := match v with VNumber n => num_as_f64 n | _ => None end.
Definition de_f32 (v : Value) : option spec_float := match v with VNumber n => num_as_f32 n | _ => None end.
Definition de_bool (v : Value) : option bool := match v with VBool b => Some b | _ => None end.

(** A field under one of its names; two of them are an error. *)
Definition get_field (names : list string) (m : Object) : option (option Value) :=
  match omap (m !!.) names with
  | [] => Some None
  | [v] => Some (Some v)
  | _ => None
  end.

Definition required {A} (f : Value → option A) (names : list string) (m : Object) : option A :=
  v ← get_field names m; v ← v; f v.

Definition optional {A} (f : Value → option A) (names : list string) (m : Object) : option (option A) :=
  v ← get_field names m;
  match v with None | Some VNull => Some None | Some v => Some <$> f v end.

Definition defaulted {A} (d : A) (f : Value → option A) (names : list string) (m : Object) : option A :=
  v ← get_field names m; match v with None => Some d | Some v => f v end.

(** What serde derives for a structure. *)
Class Serde (T : Type) := {
  to_value : T → Value;
  from_value : Value → option T;
}.

Definition from_object {T} (f : Object → option T) (v : Value) : option T :=
  match v with VObject m => f m | _ => None end.

#[export] Instance hnsw_serde : Serde HnswConfig := {|
  to_value c := VObject (object [
    ("m", Some (ser_u64 (hnsw_m c))); ("ef_construct", Some (ser_u64 (ef_construct c)));
    ("full_scan_threshold", Some (ser_u64 (full_scan_threshold c)));
    ("max_indexing_threads", Some (ser_u64 (max_indexing_threads c)));
    ("on_disk", VBool <$> hnsw_on_disk c); ("payload_m", ser_u64 <$> payload_m c)]);
  from_value := from_object (λ o,
    m ← required de_u64 ["m"] o;
    ef ← required de_u64 ["ef_construct"] o;
    scan ← required de_u64 ["full_scan_threshold"; "full_scan_threshold_kb"] o;
    threads ← defaulted 0%N de_u64 ["max_indexing_threads"] o;
    disk ← optional de_bool ["on_disk"] o;
    pm ← optional de_u64 ["payload_m"] o;
    Some (mkHnswConfig m ef scan threads disk pm));
|}.

#[export] Instance hnsw_diff_serde : Serde HnswConfigDiff := {|
  to_value d := VObject (object [
    ("m", ser_u64 <$> d_m d); ("ef_construct", ser_u64 <$> d_ef_construct d);
    ("full_scan_threshold", ser_u64 <$> d_full_scan_threshold d);
    ("max_indexing_threads", ser_u64 <$> d_max_indexing_threads d);
    ("on_disk", VBool <$> d_on_disk d); ("payload_m", ser_u64 <$> d_payload_m d)]);
  from_value := from_object (λ o,
    m ← optional de_u64 ["m"] o;
    ef ← optional de_u64 ["ef_construct"] o;
    scan ← optional de_u64 ["full_scan_threshold"; "full_scan_threshold_kb"] o;
    threads ← optional de_u64 ["max_indexing_threads"] o;
    disk ← optional de_bool ["on_disk"] o;
    pm ← optional de_u64 ["payload_m"] o;
    Some (mkHnswDiff m ef scan threads disk pm));
|}.

#[export] Instance wal_serde : Serde WalConfig := {|
  to_value c := VObject (object [
    ("wal_capacity_mb", Some (ser_u64 (wal_capacity_mb c)));
    ("wal_segments_ahead", Some (ser_u64 (wal_segments_ahead c)))]);
  from_value := from_object (λ o,
    mb ← required de_u64 ["wal_capacity_mb"] o;
    ahead ← required de_u64 ["wal_segments_ahead"] o;
    Some (mkWalConfig mb ahead));
|}.

#[export] Instance wal_diff_serde : Serde WalConfigDiff := {|
  to_value d := VObject (object [
    ("wal_capacity_mb", Some (ser_option ser_u64 (d_wal_capacity_mb d)));
    ("wal_segments_ahead", Some (ser_option ser_u64 (d_wal_segments_ahead d)))]);
  from_value := from_object (λ o,
    mb ← optional de_u64 ["wal_capacity_mb"] o;
    ahead ← optional de_u64 ["wal_segments_ahead"] o;
    Some (mkWalDiff mb ahead));
|}.

#[export] Instance optimizers_serde : Serde OptimizersConfig := {|
  to_value c := VObject (object [
    ("deleted_threshold", Some (ser_f64 (deleted_threshold c)));
    ("vacuum_min_vector_number", Some (ser_u64 (vacuum_min_vector_number c)));
    ("default_segment_number", Some (ser_u64 (default_segment_number c)));
    ("max_segment_size", Some (ser_option ser_u64 (max_segment_size c)));
    ("memmap_threshold", Some (ser_option ser_u64 (memmap_threshold c)));
    ("indexing_threshold", Some (ser_u64 (indexing_threshold c)));
    ("flush_interval_sec", Some (ser_u64 (flush_interval_sec c)));
    ("max_optimization_threads", Some (ser_u64 (max_optimization_threads c)))]);
  from_value := from_object (λ o,
    deleted ← required de_f64 ["deleted_threshold"] o;
    vacuum ← required de_u64 ["vacuum_min_vector_number"] o;
    number ← required de_u64 ["default_segment_number"] o;
    size ← optional de_u64 ["max_segment_size"; "max_segment_size_kb"] o;
    memmap ← optional de_u64 ["memmap_threshold"; "memmap_threshold_kb"] o;
    indexing ← required de_u64 ["indexing_threshold"; "indexing_threshold_kb"] o;
    interval ← required de_u64 ["flush_interval_sec"] o;
    threads ← required de_u64 ["max_optimization_threads"] o;
    Some (mkOptimizersConfig deleted vacuum number size memmap indexing interval threads));
|}.

#[export] Instance optimizers_diff_serde : Serde OptimizersConfigDiff := {|
  to_value d := VObject (object [
    ("deleted_threshold", Some (ser_option ser_f64 (d_deleted_threshold d)));
    ("vacuum_min_vector_number", Some (ser_option ser_u64 (d_vacuum_min_vector_number d)));
    ("default_segment_number", Some (ser_option ser_u64 (d_default_segment_number d)));
    ("max_segment_size", Some (ser_option ser_u64 (d_max_segment_size d)));
    ("memmap_threshold", Some (ser_option ser_u64 (d_memmap_threshold d)));
    ("indexing_threshold", Some (ser_option ser_u64 (d_indexing_threshold d)));
    ("flush_interval_sec", Some (ser_option ser_u64 (d_flush_interval_sec d)));
    ("max_optimization_threads", Some (ser_option ser_u64 (d_max_optimization_threads d)))]);
  from_value := from_object (λ o,
    deleted ← optional de_f64 ["deleted_threshold"] o;
    vacuum ← optional de_u64 ["vacuum_min_vector_number"] o;
    number ← optional de_u64 ["default_segment_number"] o;
    size ← optional de_u64 ["max_segment_size"; "max_segment_size_kb"] o;
    memmap ← optional de_u64 ["memmap_threshold"; "memmap_threshold_kb"] o;
    indexing ← optional de_u64 ["indexing_threshold"; "indexing_threshold_kb"] o;
    interval ← optional de_u64 ["flush_interval_sec"] o;
    threads ← optional de_u64 ["max_optimization_threads"] o;
    Some (mkOptimizersDiff deleted vacuum number size memmap indexing interval threads));
|}.

#[export] Instance distance_serde : Serde Distance := {|
  to_value d := VString (match d with Cosine => "Cosine" | Euclid => "Euclid" | Dot => "Dot" end);
  from_value v :=
    match v with
    | VString s => if decide (s = "Cosine") then Some Cosine else if decide (s = "Euclid") then Some Euclid
                   else if decide (s = "Dot") then Some Dot else None
    | _ => None
    end;
|}.

(** The only variant of [ScalarType] is written in lower case; the enum of the
    kinds of quantization is untagged. *)
#[export] Instance quantization_serde : Serde QuantizationConfig := {|
  to_value q := match q with QScalar c =>
    VObject (object [("scalar", Some (VObject (object [
      ("type", Some (VString "int8")); ("quantile", ser_f32 <$> sq_quantile c);
      ("always_ram", VBool <$> sq_always_ram c)])))]) end;
  from_value := from_object (λ o,
    required (from_object (λ o,
      _ ← required (λ v, match v with VString s => if decide (s = "int8") then Some tt else None | _ => None end) ["type"] o;
      quantile ← optional de_f32 ["quantile"] o;
      ram ← optional de_bool ["always_ram"] o;
      Some (QScalar (mkScalarQuantization Int8 quantile ram)))) ["scalar"] o);
|}.

#[export] Instance vector_params_serde : Serde VectorParams := {|
  to_value p := VObject (object [
    ("size", Some (ser_u64 (vp_size p))); ("distance", Some (to_value (vp_distance p)));
    ("hnsw_config", to_value <$> vp_hnsw_config p); ("quantization_config", to_value <$> vp_quantization_config p)]);
  from_value := from_object (λ o,
    size ← required (de_nonzero u64_max) ["size"] o;
    distance ← required from_value ["distance"] o;
    hnsw ← optional from_value ["hnsw_config"] o;
    quantization ← optional from_value ["quantization_config"; "quantization"] o;
    Some (mkVectorParams size distance hnsw quantization));
|}.

(** An untagged enum: the variants are tried in order. *)
#[export] Instance vectors_serde : Serde VectorsConfig := {|
  to_value c :=
    match c with
    | VectorsSingle params => to_value params
    | VectorsMulti params => VObject (to_value <$> params)
    end;
  from_value v :=
    match from_value v with
    | Some params => Some (VectorsSingle params)
    | None => from_object (λ o,
        l ← mapM (λ p, (p.1,.) <$> from_value p.2) (map_to_list o);
        Some (VectorsMulti (list_to_map l))) v
    end;
|}.

#[export] Instance params_serde : Serde CollectionParams := {|
  to_value c := VObject (object [
    ("vectors", Some (to_value (cp_vectors c))); ("shard_number", Some (ser_u64 (shard_number c)));
    ("replication_factor", Some (ser_u64 (replication_factor c)));
    ("write_consistency_factor", Some (ser_u64 (write_consistency_factor c)));
    ("on_disk_payload", Some (VBool (on_disk_payload c)))]);
  from_value := from_object (λ o,
    vectors ← required from_value ["vectors"] o;
    shards ← defaulted 1%N (de_nonzero u32_max) ["shard_number"] o;
    replicas ← defaulted 1%N (de_nonzero u32_max) ["replication_factor"] o;
    consistency ← defaulted 1%N (de_nonzero u32_max) ["write_consistency_factor"] o;
    disk ← defaulted false de_bool ["on_disk_payload"] o;
    Some (mkCollectionParams vectors shards replicas consistency disk));
|}.

#[export] Instance params_diff_serde : Serde CollectionParamsDiff := {|
  to_value d := VObject (object [
    ("replication_factor", Some (ser_option ser_u64 (d_replication_factor d)));
    ("write_consistency_factor", Some (ser_option ser_u64 (d_write_consistency_factor d)))]);
  from_value := from_object (λ o,
    replicas ← optional (de_nonzero u32_max) ["replication_factor"] o;
    consistency ← optional (de_nonzero u32_max) ["write_consistency_factor"] o;
    Some (mkParamsDiff replicas consistency));
|}.

(** ** Partial updates *)

Definition is_null (v : Value) : bool := match v with VNull => true | _ => false end.

Definition merge_level_0 (base diff : Value) : Value :=
  match base, diff with
  | VObject base, VObject diff => VObject (map_fold (λ k v base, if is_null v then base else <[k := v]> base) base diff)
  | _, _ => base
  end.

Context (json_error : string).

(** The conversion of a JSON error. *)
Definition json_result {T} (r : option T) : CollectionResult T :=
  match r with Some x => Ok x | None => Err (CServiceError ("Json error: " +:+ json_error)) end.

Definition update_config {T Y} `{!Serde T, !Serde Y} (config : T) (update : Y) : CollectionResult T :=
  json_result (from_value (merge_level_0 (to_value config) (to_value update))).

Definition from_full {T Y} `{!Serde T, !Serde Y} (full_config : T) : CollectionResult Y :=
  json_result (from_value (to_value full_config)).

Definition get_all_vector_params (self : CollectionParams) (collection_hnsw : HnswConfig)
    (collection_quantization : option QuantizationConfig) : gmap string VectorDataConfig :=
  list_to_map ((λ p : string * VectorParams,
    (p.1, mkVectorDataConfig (N.to_nat (vp_size p.2)) (vp_distance p.2)
       (c ← vp_hnsw_config p.2; match update_config collection_hnsw c with Ok c => Some c | _ => None end)
       (match vp_quantization_config p.2 with Some q => Some q | None => collection_quantization end)))
    <$> params_iter (cp_vectors self)).
End json.
