(* ===== verification/ConfigSpec.v ===== *)
(** * Correctness of partial configuration updates

    The detour over JSON replaces exactly the fields that an update has. *)

From stdpp Require Import base gmap strings list.
From Stdlib Require Import ZArith SpecFloat Lia.
From S2P Require Import Prelude Types NamedVectors VectorStorage Segment SegmentHolder CollectionConfig.

Section config.
Context {Num : Type} `{!ConfigNumber Num, !ConfigNumberLaws Num}.
Abbreviation Value := (Value Num).
Abbreviation Object := (gmap string Value).

(** ** Objects *)

Fixpoint assoc (k : string) (fields : list (string * option Value)) : option Value :=
  match fields with
  | [] => None
  | (k', v) :: fields => if decide (k = k') then v else assoc k fields
  end.

Lemma assoc_None k fields : k ∉ fields.*1 → assoc k fields = None.
Proof using.
  induction fields as [|[k' v] fields IH]; cbn; [done|]. intros [Hne Hk]%not_elem_of_cons.
  rewrite decide_False by done. by apply IH.
Qed.

Lemma lookup_object fields k : NoDup fields.*1 → object fields !! k = assoc k fields.
Proof using.
  unfold object. induction fields as [|[k' v] fields IH]; intros Hnd; cbn; [apply lookup_empty|].
  apply NoDup_cons in Hnd as [Hk Hnd]. destruct (decide (k = k')) as [->|Hne].
  - destruct v; cbn; [apply lookup_insert_eq|]. rewrite IH by done. by apply assoc_None.
  - destruct v; cbn; [rewrite lookup_insert_ne by done|]; by apply IH.
Qed.

Lemma lookup_merged (base diff : Object) k :
  map_fold (λ k v base, if is_null v then base else <[k := v]> base) base diff !! k =
    match diff !! k with Some v => if is_null v then base !! k else Some v | None => base !! k end.
Proof using.
  revert k. apply (map_fold_weak_ind (λ (r : Object) (m : Object), ∀ k,
    r !! k = match m !! k with Some v => if is_null v then base !! k else Some v | None => base !! k end)).
  - intros k. by rewrite lookup_empty.
  - intros i x m r Hi IH k. destruct (decide (k = i)) as [->|Hne].
    + rewrite lookup_insert_eq. destruct (is_null x); [by rewrite IH, Hi|apply lookup_insert_eq].
    + rewrite lookup_insert_ne by done. destruct (is_null x); [apply IH|]. rewrite lookup_insert_ne by done. apply IH.
Qed.

(** The field [k] after an update. *)
Definition updated (diff base : list (string * option Value)) (k : string) : option Value :=
  match assoc k diff with Some v => if is_null v then assoc k base else Some v | None => assoc k base end.

Lemma lookup_updated base diff k :
  NoDup base.*1 → NoDup diff.*1 →
  map_fold (λ k v base, if is_null v then base else <[k := v]> base) (object base) (object diff) !! k = updated diff base k.
Proof using. intros. rewrite lookup_merged, !lookup_object by done. done. Qed.

Lemma get_field_one k (m : Object) : get_field [k] m = Some (m !! k).
Proof using. unfold get_field. cbn. by destruct (m !! k). Qed.

Lemma get_field_alias k k' (m : Object) : m !! k' = None → get_field [k; k'] m = Some (m !! k).
Proof using. unfold get_field. cbn. intros ->. by destruct (m !! k). Qed.

(** ** Values *)

Lemma de_ser_u64 n : (n ≤ u64_max)%N → de_u64 (ser_u64 n) = Some n.
Proof using ConfigNumberLaws0. apply u64_number. Qed.

Lemma de_ser_f64 x : finite_float x = true → is_null (ser_f64 x) = false ∧ de_f64 (ser_f64 x) = Some x.
Proof using ConfigNumberLaws0. intros Hx. unfold ser_f64. pose proof (f64_number x). destruct (num_of_f64 x); [|congruence]. cbn. tauto. Qed.

Lemma de_ser_f32 x : finite_float x = true → is_null (ser_f32 x) = false ∧ de_f32 (ser_f32 x) = Some x.
Proof using ConfigNumberLaws0. intros Hx. unfold ser_f32. pose proof (f32_number x). destruct (num_of_f32 x); [|congruence]. cbn. tauto. Qed.

Lemma de_ser_nonzero max n : (0 < n)%N → (n ≤ max)%N → (max ≤ u64_max)%N → de_nonzero max (ser_u64 n) = Some n.
Proof using ConfigNumberLaws0.
  intros. unfold de_nonzero. rewrite de_ser_u64 by lia. cbn. rewrite (proj2 (N.ltb_lt _ _)), (proj2 (N.leb_le _ _)) by done. done.
Qed.

(** ** Fields of an update *)

Definition fits (n : N) : Prop := (n ≤ u64_max)%N.
Definition fits_option (o : option N) : Prop := from_option fits True o.

(** A field as it is written: left out or null when there is no value. *)
Definition written {A} (ser : A → Value) (skip : bool) (o : option A) : option Value :=
  if skip then ser <$> o else Some (ser_option ser o).

Definition readable {A} (ser : A → Value) (de : Value → option A) (a : A) : Prop :=
  is_null (ser a) = false ∧ de (ser a) = Some a.

Section fields.
Context {A : Type} (ser : A → Value) (de : Value → option A) (names : list string) (k : string) (M : Object).
Context (base diff : list (string * option Value)) (skip : bool) (d : option A).
Context (Hget : get_field names M = Some (updated diff base k)) (Hd : assoc k diff = written ser skip d).
Context (Hread : from_option (readable ser de) True d).

Lemma updated_written v : assoc k base = v →
  updated diff base k = match d with Some a => Some (ser a) | None => v end.
Proof using Hd Hread.
  intros Hv. unfold updated. rewrite Hd. unfold written, ser_option. destruct d as [a|]; cbn in *.
  - destruct Hread as [Hn _]. destruct skip; cbn; by rewrite Hn.
  - by destruct skip.
Qed.

Lemma field_required x :
  assoc k base = Some (ser x) → readable ser de x → required de names M = Some (default x d).
Proof using Hd Hget Hread.
  intros Hb [_ Hx]. unfold required. rewrite Hget, (updated_written _ Hb). destruct d as [a|]; cbn; [apply Hread|done].
Qed.

Lemma field_defaulted z x :
  assoc k base = Some (ser x) → readable ser de x → defaulted z de names M = Some (default x d).
Proof using Hd Hget Hread.
  intros Hb [_ Hx]. unfold defaulted. rewrite Hget, (updated_written _ Hb). destruct d as [a|]; cbn; [apply Hread|done].
Qed.

Lemma field_optional x skip' :
  assoc k base = written ser skip' x → from_option (readable ser de) True x →
  optional de names M = Some (from_option Some x d).
Proof using Hd Hget Hread.
  intros Hb Hx. unfold optional. rewrite Hget, (updated_written _ Hb).
  assert (∀ a, readable ser de a → (match Some (ser a) with None | Some VNull => Some None | Some v => Some <$> de v end) = Some (Some a)) as Hr.
  { intros a [Hn Ha]. destruct (ser a); [done|..]; by rewrite Ha. }
  destruct d as [a|]; cbn; [by apply Hr|]. destruct x as [a|]; cbn in *.
  - destruct skip'; cbn; by apply Hr.
  - by destruct skip'.
Qed.
End fields.

(** ** The updates *)

Lemma readable_u64 n : fits n → readable ser_u64 de_u64 n.
Proof using ConfigNumberLaws0. intros. split; [done|by apply de_ser_u64]. Qed.

Lemma readable_option o : fits_option o → from_option (readable ser_u64 de_u64) True o.
Proof using ConfigNumberLaws0. destruct o; [apply readable_u64|done]. Qed.

Lemma readable_bool (o : option bool) : from_option (readable VBool de_bool) True o.
Proof using. by destruct o. Qed.

Lemma readable_nonzero n : (0 < n ≤ u32_max)%N → readable ser_u64 (de_nonzero u32_max) n.
Proof using ConfigNumberLaws0. intros []. split; [done|]. by apply de_ser_nonzero. Qed.

Definition hnsw_override (d : HnswConfigDiff) (c : HnswConfig) : HnswConfig :=
  mkHnswConfig (default (hnsw_m c) (d_m d)) (default (ef_construct c) (d_ef_construct d))
    (default (full_scan_threshold c) (d_full_scan_threshold d)) (default (max_indexing_threads c) (d_max_indexing_threads d))
    (from_option Some (hnsw_on_disk c) (d_on_disk d)) (from_option Some (payload_m c) (d_payload_m d)).

Definition hnsw_fits (c : HnswConfig) : Prop :=
  fits (hnsw_m c) ∧ fits (ef_construct c) ∧ fits (full_scan_threshold c) ∧ fits (max_indexing_threads c) ∧ fits_option (payload_m c).

Definition hnsw_diff_fits (d : HnswConfigDiff) : Prop :=
  fits_option (d_m d) ∧ fits_option (d_ef_construct d) ∧ fits_option (d_full_scan_threshold d) ∧
  fits_option (d_max_indexing_threads d) ∧ fits_option (d_payload_m d).

Ltac keys := match goal with |- NoDup ?l => apply (bool_decide_unpack (NoDup l)); vm_compute; exact I end.

(** Reads the next field of an updated object. *)
Ltac get_updated := match goal with HM : ∀ k : string, @?P k |- _ =>
  first [rewrite get_field_one | rewrite get_field_alias by (rewrite HM; reflexivity)]; rewrite HM; reflexivity end.
Ltac read_field L ser de names k skip d := erewrite (L _ ser de names k _ _ _ skip d);
  [cbn [mbind option_bind]|get_updated|reflexivity|first [exact I|eauto with config]|reflexivity|first [exact I|eauto with config]].
Ltac read_optional ser de names k sk d y := erewrite (@field_optional _ ser de names k _ _ _ sk d) with (x := y) (skip' := sk);
  [cbn [mbind option_bind]|get_updated|reflexivity|first [exact I|eauto with config]|reflexivity|first [exact I|eauto with config]].

(** Names the updated object and its fields. *)
Ltac open_update :=
  match goal with |- context [map_fold ?f (object ?b) (object ?d)] =>
    let M := fresh "M" in
    assert (∀ k, map_fold f (object b) (object d) !! k = updated d b k) as HM by (intros ?; apply lookup_updated; cbn; keys);
    set (M := map_fold f (object b) (object d)) in *; clearbody M end.

Create HintDb config.
#[local] Hint Resolve readable_u64 readable_option readable_bool readable_nonzero : config.

Lemma hnsw_update_ok json_error d c :
  hnsw_fits c → hnsw_diff_fits d → update_config (Num:=Num) json_error c d = Ok (hnsw_override d c).
Proof using ConfigNumberLaws0.
  intros (H1 & H2 & H3 & H4 & H5) (D1 & D2 & D3 & D4 & D5).
  unfold update_config. cbn [to_value from_value hnsw_serde hnsw_diff_serde merge_level_0 from_object]. open_update.
  read_field (@field_required) ser_u64 de_u64 ["m"] "m" true (d_m d).
  read_field (@field_required) ser_u64 de_u64 ["ef_construct"] "ef_construct" true (d_ef_construct d).
  read_field (@field_required) ser_u64 de_u64 ["full_scan_threshold"; "full_scan_threshold_kb"] "full_scan_threshold" true (d_full_scan_threshold d).
  read_field (@field_defaulted) ser_u64 de_u64 ["max_indexing_threads"] "max_indexing_threads" true (d_max_indexing_threads d).
  read_optional (@VBool Num) (@de_bool Num) ["on_disk"] "on_disk" true (d_on_disk d) (hnsw_on_disk c).
  read_optional ser_u64 de_u64 ["payload_m"] "payload_m" true (d_payload_m d) (payload_m c).
  reflexivity.
Qed.

Definition wal_override (d : WalConfigDiff) (c : WalConfig) : WalConfig :=
  mkWalConfig (default (wal_capacity_mb c) (d_wal_capacity_mb d)) (default (wal_segments_ahead c) (d_wal_segments_ahead d)).

Definition wal_fits (d : WalConfigDiff) (c : WalConfig) : Prop :=
  fits (wal_capacity_mb c) ∧ fits (wal_segments_ahead c) ∧
  fits_option (d_wal_capacity_mb d) ∧ fits_option (d_wal_segments_ahead d).

Lemma wal_update_ok json_error d c : wal_fits d c → update_config (Num:=Num) json_error c d = Ok (wal_override d c).
Proof using ConfigNumberLaws0.
  intros (H1 & H2 & D1 & D2). unfold update_config. cbn [to_value from_value wal_serde wal_diff_serde merge_level_0 from_object]. open_update.
  read_field (@field_required) ser_u64 de_u64 ["wal_capacity_mb"] "wal_capacity_mb" false (d_wal_capacity_mb d).
  read_field (@field_required) ser_u64 de_u64 ["wal_segments_ahead"] "wal_segments_ahead" false (d_wal_segments_ahead d).
  reflexivity.
Qed.

Definition optimizers_override (d : OptimizersConfigDiff) (c : OptimizersConfig) : OptimizersConfig :=
  mkOptimizersConfig (default (deleted_threshold c) (d_deleted_threshold d))
    (default (vacuum_min_vector_number c) (d_vacuum_min_vector_number d))
    (default (default_segment_number c) (d_default_segment_number d))
    (from_option Some (max_segment_size c) (d_max_segment_size d)) (from_option Some (memmap_threshold c) (d_memmap_threshold d))
    (default (indexing_threshold c) (d_indexing_threshold d)) (default (flush_interval_sec c) (d_flush_interval_sec d))
    (default (max_optimization_threads c) (d_max_optimization_threads d)).

Definition optimizers_fits (c : OptimizersConfig) : Prop :=
  finite_float (deleted_threshold c) = true ∧ fits (vacuum_min_vector_number c) ∧ fits (default_segment_number c) ∧
  fits_option (max_segment_size c) ∧ fits_option (memmap_threshold c) ∧ fits (indexing_threshold c) ∧
  fits (flush_interval_sec c) ∧ fits (max_optimization_threads c).

Definition optimizers_diff_fits (d : OptimizersConfigDiff) : Prop :=
  from_option (λ x, finite_float x = true) True (d_deleted_threshold d) ∧ fits_option (d_vacuum_min_vector_number d) ∧
  fits_option (d_default_segment_number d) ∧ fits_option (d_max_segment_size d) ∧ fits_option (d_memmap_threshold d) ∧
  fits_option (d_indexing_threshold d) ∧ fits_option (d_flush_interval_sec d) ∧ fits_option (d_max_optimization_threads d).

Lemma readable_f64 x : finite_float x = true → readable ser_f64 de_f64 x.
Proof using ConfigNumberLaws0. apply de_ser_f64. Qed.

Lemma readable_f64_option o : from_option (λ x, finite_float x = true) True o → from_option (readable ser_f64 de_f64) True o.
Proof using ConfigNumberLaws0. destruct o; [apply readable_f64|done]. Qed.
#[local] Hint Resolve readable_f64 readable_f64_option : config.

Lemma optimizers_update_ok json_error d c :
  optimizers_fits c → optimizers_diff_fits d → update_config (Num:=Num) json_error c d = Ok (optimizers_override d c).
Proof using ConfigNumberLaws0.
  intros (H1 & H2 & H3 & H4 & H5 & H6 & H7 & H8) (D1 & D2 & D3 & D4 & D5 & D6 & D7 & D8). unfold update_config.
  cbn [to_value from_value optimizers_serde optimizers_diff_serde merge_level_0 from_object]. open_update.
  read_field (@field_required) ser_f64 de_f64 ["deleted_threshold"] "deleted_threshold" false (d_deleted_threshold d).
  read_field (@field_required) ser_u64 de_u64 ["vacuum_min_vector_number"] "vacuum_min_vector_number" false (d_vacuum_min_vector_number d).
  read_field (@field_required) ser_u64 de_u64 ["default_segment_number"] "default_segment_number" false (d_default_segment_number d).
  read_optional ser_u64 de_u64 ["max_segment_size"; "max_segment_size_kb"] "max_segment_size" false (d_max_segment_size d) (max_segment_size c).
  read_optional ser_u64 de_u64 ["memmap_threshold"; "memmap_threshold_kb"] "memmap_threshold" false (d_memmap_threshold d) (memmap_threshold c).
  read_field (@field_required) ser_u64 de_u64 ["indexing_threshold"; "indexing_threshold_kb"] "indexing_threshold" false (d_indexing_threshold d).
  read_field (@field_required) ser_u64 de_u64 ["flush_interval_sec"] "flush_interval_sec" false (d_flush_interval_sec d).
  read_field (@field_required) ser_u64 de_u64 ["max_optimization_threads"] "max_optimization_threads" false (d_max_optimization_threads d).
  reflexivity.
Qed.

(** ** Round trips *)

(** Names a written object and its fields. *)
Ltac open_object :=
  match goal with |- context [object ?b] =>
    let M := fresh "M" in
    assert (∀ k, object b !! k = updated [] b k) as HM by (intros ?; apply lookup_object; cbn; keys);
    set (M := object b) in *; clearbody M end.

Lemma hnsw_diff_roundtrip d : hnsw_diff_fits d → from_value (to_value d) = Some d.
Proof using ConfigNumberLaws0.
  intros (D1 & D2 & D3 & D4 & D5). cbn [to_value from_value hnsw_diff_serde from_object]. open_object.
  read_optional ser_u64 de_u64 ["m"] "m" true (@None N) (d_m d).
  read_optional ser_u64 de_u64 ["ef_construct"] "ef_construct" true (@None N) (d_ef_construct d).
  read_optional ser_u64 de_u64 ["full_scan_threshold"; "full_scan_threshold_kb"] "full_scan_threshold" true (@None N) (d_full_scan_threshold d).
  read_optional ser_u64 de_u64 ["max_indexing_threads"] "max_indexing_threads" true (@None N) (d_max_indexing_threads d).
  read_optional (@VBool Num) (@de_bool Num) ["on_disk"] "on_disk" true (@None bool) (d_on_disk d).
  read_optional ser_u64 de_u64 ["payload_m"] "payload_m" true (@None N) (d_payload_m d).
  by destruct d.
Qed.

Definition quantization_fits (q : QuantizationConfig) : Prop :=
  match q with QScalar c => from_option (λ x, finite_float x = true) True (sq_quantile c) end.

Lemma readable_f32_option o : from_option (λ x, finite_float x = true) True o → from_option (readable ser_f32 de_f32) True o.
Proof using ConfigNumberLaws0. destruct o; [apply de_ser_f32|done]. Qed.
#[local] Hint Resolve readable_f32_option : config.

Lemma required_head {A} (f : Value → option A) k v l : NoDup (k :: l.*1) → required f [k] (object ((k, Some v) :: l)) = f v.
Proof using. intros Hnd. unfold required. rewrite get_field_one, lookup_object by done. cbn. by rewrite decide_True. Qed.

Lemma quantization_roundtrip q : quantization_fits q → from_value (to_value q) = Some q.
Proof using ConfigNumberLaws0.
  destruct q as [[[] quantile ram]]. intros Hq. cbn in Hq. cbn [to_value from_value quantization_serde from_object sq_quantile sq_always_ram].
  rewrite required_head by keys. cbn [from_object]. rewrite required_head by (cbn; keys). rewrite decide_True by done.
  cbn [mbind option_bind]. open_object.
  read_optional ser_f32 de_f32 ["quantile"] "quantile" true (@None spec_float) quantile.
  read_optional (@VBool Num) (@de_bool Num) ["always_ram"] "always_ram" true (@None bool) ram.
  done.
Qed.

Definition vector_params_fits (p : VectorParams) : Prop :=
  (0 < vp_size p ≤ u64_max)%N ∧ from_option hnsw_diff_fits True (vp_hnsw_config p) ∧
  from_option quantization_fits True (vp_quantization_config p).

Lemma readable_distance (d : Distance) : readable (to_value (Num:=Num)) from_value d.
Proof using. by destruct d. Qed.

Lemma readable_hnsw o : from_option hnsw_diff_fits True o → from_option (readable (A:=HnswConfigDiff) to_value from_value) True o.
Proof using ConfigNumberLaws0. destruct o; [|done]. split; [done|by apply hnsw_diff_roundtrip]. Qed.

Lemma readable_quantization o : from_option quantization_fits True o → from_option (readable (A:=QuantizationConfig) to_value from_value) True o.
Proof using ConfigNumberLaws0. destruct o as [[]|]; [|done]. split; [done|by apply quantization_roundtrip]. Qed.

Lemma readable_size n : (0 < n ≤ u64_max)%N → readable ser_u64 (de_nonzero u64_max) n.
Proof using ConfigNumberLaws0. intros []. split; [done|]. by apply de_ser_nonzero. Qed.
#[local] Hint Resolve readable_distance readable_hnsw readable_quantization readable_size : config.

Lemma vector_params_roundtrip p : vector_params_fits p → from_value (to_value p) = Some p.
Proof using ConfigNumberLaws0.
  intros (H1 & H2 & H3). cbn [to_value from_value vector_params_serde from_object]. open_object.
  read_field (@field_required) ser_u64 (de_nonzero u64_max) ["size"] "size" true (@None N).
  read_field (@field_required) (to_value (T:=Distance) (Num:=Num)) (from_value (T:=Distance) (Num:=Num)) ["distance"] "distance" true (@None Distance).
  read_optional (to_value (T:=HnswConfigDiff) (Num:=Num)) (from_value (T:=HnswConfigDiff) (Num:=Num)) ["hnsw_config"] "hnsw_config" true (@None HnswConfigDiff) (vp_hnsw_config p).
  read_optional (to_value (T:=QuantizationConfig) (Num:=Num)) (from_value (T:=QuantizationConfig) (Num:=Num)) ["quantization_config"; "quantization"] "quantization_config" true
    (@None QuantizationConfig) (vp_quantization_config p).
  by destruct p.
Qed.

Definition vectors_fits (c : VectorsConfig) : Prop :=
  match c with
  | VectorsSingle p => vector_params_fits p
  | VectorsMulti m => map_Forall (λ _, vector_params_fits) m
  end.

Lemma multi_not_single (m : gmap string VectorParams) : from_value (T:=VectorParams) (VObject (to_value (Num:=Num) <$> m)) = None.
Proof using.
  cbn [from_value vector_params_serde from_object].
  assert (required (de_nonzero u64_max) ["size"] (to_value (Num:=Num) <$> m) = None) as ->; [|done].
  unfold required. rewrite get_field_one, lookup_fmap. destruct (m !! "size"); reflexivity.
Qed.

Lemma multi_roundtrip (m : gmap string VectorParams) :
  map_Forall (λ _, vector_params_fits) m →
  ∃ l, mapM (λ p, (p.1,.) <$> from_value (Num:=Num) p.2) (map_to_list (to_value <$> m)) = Some l ∧ list_to_map l = m.
Proof using ConfigNumberLaws0.
  intros Hm. set (k := (λ p : string * Value, (p.1, default (mkVectorParams 0 Cosine None None) (m !! p.1))) <$> map_to_list (to_value <$> m)).
  assert (∀ i v, (i, v) ∈ map_to_list (to_value <$> m) → ∃ p, v = to_value p ∧ m !! i = Some p) as Hel.
  { intros i v Hi%elem_of_map_to_list. rewrite lookup_fmap in Hi. apply fmap_Some in Hi as (p & Hp & ->). eauto. }
  exists k. split.
  - apply mapM_Some. subst k. rewrite Forall2_fmap_r. apply Forall_Forall2_diag, Forall_forall. intros [i v] Hi.
    destruct (Hel i v Hi) as (p & -> & Hp). 
    change ((i,.) <$> from_value (Num:=Num) (to_value p) = Some (i, default (mkVectorParams 0 Cosine None None) (m !! i))).
    rewrite Hp, vector_params_roundtrip by (by eapply Hm). done.
  - assert (k.*1 = (map_to_list (to_value <$> m)).*1) as Hk1 by (subst k; rewrite <-list_fmap_compose; by apply list_fmap_ext).
    apply map_eq. intros i. apply option_eq. intros p. rewrite <-elem_of_list_to_map by (rewrite Hk1; apply NoDup_fst_map_to_list).
    subst k. rewrite list_elem_of_fmap. split.
    + intros ([i' v] & [= -> ->] & Hi). destruct (Hel i' v Hi) as (p & -> & Hp). cbn. by rewrite Hp.
    + intros Hp. exists (i, to_value p). cbn. rewrite Hp. split; [done|]. apply elem_of_map_to_list. by rewrite lookup_fmap, Hp.
Qed.

Lemma readable_vectors c : vectors_fits c → readable (A:=VectorsConfig) to_value from_value c.
Proof using ConfigNumberLaws0.
  intros Hc. split; [by destruct c|]. destruct c as [p|m]; cbn [to_value vectors_serde from_value].
  - by rewrite vector_params_roundtrip.
  - rewrite multi_not_single. cbn [from_object]. destruct (multi_roundtrip m Hc) as (l & -> & Hl). cbn. by rewrite Hl.
Qed.
#[local] Hint Resolve readable_vectors : config.

Definition params_override (d : CollectionParamsDiff) (c : CollectionParams) : CollectionParams :=
  mkCollectionParams (cp_vectors c) (shard_number c) (default (replication_factor c) (d_replication_factor d))
    (default (write_consistency_factor c) (d_write_consistency_factor d)) (on_disk_payload c).

Definition nonzero_u32 (n : N) : Prop := (0 < n ≤ u32_max)%N.

Definition params_fits (d : CollectionParamsDiff) (c : CollectionParams) : Prop :=
  vectors_fits (cp_vectors c) ∧ nonzero_u32 (shard_number c) ∧ nonzero_u32 (replication_factor c) ∧
  nonzero_u32 (write_consistency_factor c) ∧ from_option nonzero_u32 True (d_replication_factor d) ∧
  from_option nonzero_u32 True (d_write_consistency_factor d).

Lemma readable_nonzero_option o : from_option nonzero_u32 True o → from_option (readable ser_u64 (de_nonzero u32_max)) True o.
Proof using ConfigNumberLaws0. destruct o; [apply readable_nonzero|done]. Qed.
#[local] Hint Resolve readable_nonzero_option : config.

Lemma readable_flag (b : bool) : readable (@VBool Num) de_bool b.
Proof using. done. Qed.
#[local] Hint Resolve readable_flag : config.

Lemma params_update_ok json_error d c : params_fits d c → update_config (Num:=Num) json_error c d = Ok (params_override d c).
Proof using ConfigNumberLaws0.
  intros (H1 & H2 & H3 & H4 & D1 & D2). unfold update_config. cbn [to_value from_value params_serde params_diff_serde merge_level_0 from_object].
  open_update.
  read_field (@field_required) (to_value (T:=VectorsConfig) (Num:=Num)) (from_value (T:=VectorsConfig) (Num:=Num)) ["vectors"] "vectors" true (@None VectorsConfig).
  read_field (@field_defaulted) ser_u64 (de_nonzero u32_max) ["shard_number"] "shard_number" true (@None N).
  read_field (@field_defaulted) ser_u64 (de_nonzero u32_max) ["replication_factor"] "replication_factor" false (d_replication_factor d).
  read_field (@field_defaulted) ser_u64 (de_nonzero u32_max) ["write_consistency_factor"] "write_consistency_factor" false (d_write_consistency_factor d).
  read_field (@field_defaulted) (@VBool Num) (@de_bool Num) ["on_disk_payload"] "on_disk_payload" true (@None bool).
  reflexivity.
Qed.

(** C26: a partial update of a configuration, which goes through JSON, replaces
    exactly the fields that the update has and keeps every other field, for
    the parameters of the index, of the optimizers, of the write-ahead log and
    of the collection (whose vectors survive the detour unchanged, named or
    not).  Assumed: numbers fit their integer types and floats are finite. *)
Theorem config_update_overrides (json_error : string) :
  (∀ d c, hnsw_fits c → hnsw_diff_fits d → update_config (Num:=Num) json_error c d = Ok (hnsw_override d c)) ∧
  (∀ d c, optimizers_fits c → optimizers_diff_fits d → update_config (Num:=Num) json_error c d = Ok (optimizers_override d c)) ∧
  (∀ d c, wal_fits d c → update_config (Num:=Num) json_error c d = Ok (wal_override d c)) ∧
  (∀ d c, params_fits d c → update_config (Num:=Num) json_error c d = Ok (params_override d c)).
Proof using ConfigNumberLaws0.
  split_and!; intros; [by apply hnsw_update_ok|by apply optimizers_update_ok|by apply wal_update_ok|by apply params_update_ok].
Qed.
End config.

(** ** Witness *)

(** Numbers that are tagged integers or floats. *)
#[local] Instance tagged_number : ConfigNumber (N + spec_float) := {|
  num_of_u64 n := inl n;
  num_as_u64 n := match n with inl n => Some n | inr _ => None end;
  num_of_f64 x := if finite_float x then Some (inr x) else None;
  num_as_f64 n := match n with inl n => Some (binary_normalize 53 1024 (Z.of_N n) 0 false) | inr x => Some x end;
  num_of_f32 x := if finite_float x then Some (inr x) else None;
  num_as_f32 n := match n with inl n => Some (binary_normalize 24 128 (Z.of_N n) 0 false) | inr x => Some x end;
|}.

#[local] Instance tagged_number_laws : ConfigNumberLaws (N + spec_float).
Proof. split; cbn; [done|..]; intros x; by destruct (finite_float x). Qed.

Definition sample_params : CollectionParams :=
  mkCollectionParams (VectorsMulti {[ "text" := mkVectorParams 4 Dot (Some (mkHnswDiff (Some 8%N) None None None None None)) None ]})
    2 1 1 false.

Lemma config_update_overrides_witness :
  update_config (Num:=N + spec_float) "error" default_hnsw_config (mkHnswDiff (Some 32%N) None None None (Some true) None) =
    Ok (mkHnswConfig 32 100 20000 0 (Some true) None) ∧
  update_config (Num:=N + spec_float) "error" sample_params (mkParamsDiff None (Some 2%N)) =
    Ok (mkCollectionParams (cp_vectors sample_params) 2 1 2 false).
Proof.
  destruct (config_update_overrides (Num:=N + spec_float) "error") as (Hh & _ & _ & Hp). split.
  - apply Hh; split_and!; vm_compute; first [discriminate|exact I].
  - apply Hp. split; [apply map_Forall_singleton|]; split_and!; try (unfold vp_hnsw_config, from_option, hnsw_diff_fits; split_and!);
      first [exact I|vm_compute; exact I|split; vm_compute; first [discriminate|reflexivity]|vm_compute; first [discriminate|reflexivity]].
Defined.
