(* ===== verification/ShardReads.v ===== *)
(** * Reads of a local shard

    Models the reads of [LocalShard]: [scroll_by], [search], [count] and
    [retrieve] of [lib/collection/src/shards/local_shard_operations.rs], and
    [estimate_cardinality], [read_filtered] and [local_shard_info] of
    [lib/collection/src/shards/local_shard.rs].  A shard is the holder of its
    segments and the configuration of the collection. *)

From stdpp Require Import base gmap strings list sorting.
From Stdlib Require Import ZArith SpecFloat.
From S2P Require Import Prelude Types Rocks NamedVectors Filters Spaces Estimator TopK Segment SegmentEntry SegmentHolder.
From S2P Require Import Requests SegmentsSearcher ProxySegment CollectionConfig.

(** [Itertools::dedup] *)
Fixpoint dedup (l : list PointIdType) : list PointIdType :=
  match l with
  | x :: (y :: _) as l' => if decide (x = y) then dedup l' else x :: dedup l'
  | _ => l
  end.

(** [sort_by_key(|point| point.id)] *)
Definition record_le {Num} (a b : PointRecord Num) : Prop := point_id_le (rec_id a) (rec_id b).

#[export] Instance record_le_dec {Num} : RelDecision (record_le (Num:=Num)) := λ a b, decide (point_id_le (rec_id a) (rec_id b)).

#[export] Instance record_le_total {Num} : Total (record_le (Num:=Num)).
Proof. intros a b. apply point_id_le_total. Qed.

#[export] Instance record_le_trans {Num} : Transitive (record_le (Num:=Num)).
Proof. intros a b c. apply point_id_le_trans. Qed.

Definition sort_records {Num} (points : list (PointRecord Num)) : list (PointRecord Num) := merge_sort record_le points.

Inductive CollectionStatus : Type := Green | Yellow | Red.

Inductive OptimizersStatus : Type :=
| OptimizersOk
| OptimizersError (error : CollectionError).

Record CollectionInfo := mkCollectionInfo {
  ci_status : CollectionStatus;
  ci_optimizer_status : OptimizersStatus;
  ci_vectors_count : nat;
  ci_indexed_vectors_count : nat;
  ci_points_count : nat;
  ci_segments_count : nat;
  ci_config : CollectionConfig;
  ci_payload_schema : gmap PayloadKeyType PayloadIndexInfo;
}.

Section shard_reads.
Context {Num E : Type} `{!SegmentEntry Num SearchParams E}.
Context (display_id : PointIdType → string) (join_error : string).
Abbreviation Holder := (SegmentHolder E).
Abbreviation Scored := (ScoredPoint Num).

Definition holder_entries (self : Holder) : list E := (map_to_list (segments self)).*2.

Definition shard_scroll_by (self : Holder) (offset : option PointIdType) (limit : nat)
    (with_payload_interface : WithPayloadInterface) (with_vector : WithVector) (filter : option Filter) :
    CollectionResult (list (PointRecord Num)) :=
  pages ← op_result display_id
    (res_map (λ segment, se_read_filtered (Num:=Num) (SP:=SearchParams) segment offset (Some limit) filter) (holder_entries self));
  let point_ids := take limit (dedup (sort_ids (concat pages))) in
  let with_payload := with_payload_from with_payload_interface in
  points ← searcher_retrieve display_id self point_ids with_payload with_vector;
  Ok (sort_records points).

(** The score and the threshold of one request. *)
Definition postprocess_results (collection_params : CollectionParams) (vector_res : list Scored) (req : SearchRequest) :
    CollectionResult (list Scored) :=
  params ← (match get_vector_params collection_params (get_name (sr_vector req)) with
            | Ok params => Ok params
            | _ => Panic
            end);
  let distance := vp_distance params in
  let processed_res := (λ scored_point : Scored,
    mkScoredPoint (sp_id scored_point) (sp_version scored_point) (postprocess_score distance (sp_score scored_point))
      (sp_payload scored_point) (sp_vector scored_point)) <$> vector_res in
  Ok (match sr_score_threshold req with
      | Some threshold => take_while (λ scored_point, check_threshold distance (sp_score scored_point) threshold) processed_res
      | None => processed_res
      end).

Definition shard_search (collection_params : CollectionParams) (self : Holder) (searches : list SearchRequest) :
    CollectionResult (list (list Scored)) :=
  _ ← res_map (λ req, get_vector_params collection_params (get_name (sr_vector req))) searches;
  res ← searcher_search display_id join_error self searches true;
  res_map (λ p, postprocess_results collection_params p.1 p.2) (zip res searches).

Definition shard_read_filtered (self : Holder) (filter : option Filter) : CollectionResult (gset PointIdType) :=
  if decide (segments self = ∅) then Ok ∅
  else
    pages ← op_result display_id
      (res_map (λ segment, se_read_filtered (Num:=Num) (SP:=SearchParams) segment None None filter) (holder_entries self));
    Ok (list_to_set (concat pages)).

Definition shard_estimate_cardinality (self : Holder) (filter : option Filter) : CollectionResult CardinalityEstimation :=
  if decide (segments self = ∅) then Ok (estimation_exact 0)
  else
    estimations ← op_result display_id
      (res_map (λ segment, se_estimate_points_count (Num:=Num) (SP:=SearchParams) segment filter) (holder_entries self));
    Ok (fold_left (λ acc x, mkEstimation [] (est_min acc + est_min x) (est_exp acc + est_exp x) (est_max acc + est_max x))
      estimations (estimation_exact 0)).

Definition shard_count (self : Holder) (request : CountRequest) : CollectionResult N :=
  if cr_exact request
  then all_points ← shard_read_filtered self (cr_filter request); Ok (N.of_nat (size all_points))
  else estimation ← shard_estimate_cardinality self (cr_filter request); Ok (est_exp estimation).

Definition shard_retrieve (self : Holder) (request : PointRequest) (with_payload : WithPayload) (with_vector : WithVector) :
    CollectionResult (list (PointRecord Num)) :=
  searcher_retrieve display_id self (pr_ids request) with_payload with_vector.

(** [wrapped] is the segment itself, or the segment a proxy wraps. *)
Definition info_segment (wrapped : E → OperationResult SegmentInfo) (segment : E) (acc : CollectionInfo) :
    OperationResult CollectionInfo :=
  segment_info ← se_info (Num:=Num) (SP:=SearchParams) segment;
  wrapped_info ← wrapped segment;
  Ok (mkCollectionInfo
    (match si_segment_type segment_info with Special => Yellow | _ => ci_status acc end) (ci_optimizer_status acc)
    (ci_vectors_count acc + si_num_vectors segment_info)
    (match si_segment_type wrapped_info with
     | Indexed => ci_indexed_vectors_count acc + si_num_vectors wrapped_info | _ => ci_indexed_vectors_count acc end)
    (ci_points_count acc + si_num_points segment_info) (S (ci_segments_count acc)) (ci_config acc)
    (map_fold (λ key val schema, match schema !! key with
       | Some o => <[key := mkPayloadIndexInfo (pii_data_type o) (pii_params o) (pii_points o + pii_points val)]> schema
       | None => <[key := val]> schema
       end) (ci_payload_schema acc) (si_index_schema segment_info))).

Definition local_shard_info (wrapped : E → OperationResult SegmentInfo) (collection_config : CollectionConfig)
    (self : Holder) : CollectionResult CollectionInfo :=
  let optimizer_status := match optimizer_errors self with None => OptimizersOk | Some error => OptimizersError error end in
  info ← op_result display_id (res_fold (info_segment wrapped) (holder_entries self)
    (mkCollectionInfo Green optimizer_status 0 0 0 0 collection_config ∅));
  Ok (if decide (failed_operation self ≠ ∅ ∨ is_Some (optimizer_errors self))
      then mkCollectionInfo Red (ci_optimizer_status info) (ci_vectors_count info) (ci_indexed_vectors_count info)
             (ci_points_count info) (ci_segments_count info) (ci_config info) (ci_payload_schema info)
      else info).
End shard_reads.
