(* ===== verification/ShardSpec.v ===== *)
(** * Correctness of the reads of a local shard

    Scrolling and counting see the points of all segments, each once. *)

From stdpp Require Import base gmap fin_sets strings list sorting.
From Stdlib Require Import ZArith SpecFloat Lia.
From S2P Require Import Prelude Types Rocks IdTracker NamedVectors VectorStorage Text Filters Estimator TopK Spaces.
From S2P Require Import PayloadStorage FieldIndex FieldIndexEnum FieldIndexLaws QueryOptimizer.
From S2P Require Import StructPayloadIndex PayloadIndexSpec PayloadIndexLaws Segment PlainIndex SegmentSpec.
From S2P Require Import SegmentEntry SegmentHolder Samples HolderSpec Requests SegmentsSearcher RetrieveSpec.
From S2P Require Import ProxySegment ProxySpec ProxyScroll CollectionConfig ShardReads.

(** ** Merging pages *)

Lemma dedup_cons a b l : dedup (a :: b :: l) = if decide (a = b) then dedup (b :: l) else a :: dedup (b :: l).
Proof. done. Qed.

Lemma elem_of_dedup x l : x ∈ dedup l ↔ x ∈ l.
Proof.
  induction l as [|a [|b l] IH]; [done..|]. rewrite dedup_cons. destruct (decide (a = b)) as [->|].
  - rewrite IH, !elem_of_cons. tauto.
  - rewrite elem_of_cons, IH, (elem_of_cons _ _ a). done.
Qed.

Lemma dedup_ordered l : StronglySorted point_id_le l → ordered_ids (dedup l).
Proof.
  induction l as [|a [|b l] IH]; intros Hs; [by split; constructor|split; [by repeat constructor|apply NoDup_singleton]|].
  apply StronglySorted_inv in Hs as [Hs Hall]. rewrite dedup_cons. destruct (decide (a = b)) as [->|Hne]; [by apply IH|].
  destruct (IH Hs) as [Hd Hnd]. split.
  - constructor; [done|]. apply Forall_forall. intros x Hx. rewrite elem_of_dedup in Hx. rewrite Forall_forall in Hall.
    by apply Hall.
  - constructor; [|done]. rewrite elem_of_dedup. intros Hin. apply Hne. apply (anti_symm point_id_le).
    + rewrite Forall_forall in Hall. apply Hall. left.
    + apply StronglySorted_inv in Hs as [_ Hb]. rewrite Forall_forall in Hb. apply elem_of_cons in Hin as [->|Hin]; [done|by apply Hb].
Qed.

Definition merge_ids (pages : list (list PointIdType)) : list PointIdType := dedup (sort_ids (concat pages)).

Lemma elem_of_merge_ids x pages : x ∈ merge_ids pages ↔ ∃ page, page ∈ pages ∧ x ∈ page.
Proof. unfold merge_ids. rewrite elem_of_dedup, elem_of_sort_ids, elem_of_concat. done. Qed.

Lemma merge_ids_ordered pages : ordered_ids (merge_ids pages).
Proof. apply dedup_ordered, (StronglySorted_merge_sort point_id_le). Qed.

(** The first page of all sources is among the first pages of the sources. *)
Lemma merge_pages {A} (P : A → PointIdType → Prop) (limit : option nat) (l : list A) pages :
  Forall2 (λ s page, first_page (P s) limit page) l pages →
  first_page (λ e, ∃ s, s ∈ l ∧ P s e) limit (merge_ids pages).
Proof.
  intros Hall. assert (∃ alls, Forall2 (λ s all, ordered_ids all ∧ ∀ e, e ∈ all ↔ P s e) l alls ∧
    Forall2 (λ all page, (∀ e, e ∈ page → e ∈ all) ∧ take_limit limit page = take_limit limit all) alls pages) as (alls & Hl & Hp).
  { induction Hall as [|s page l pages (all & Ho & Hall & _ & Hin & Ht) _ (alls & IH1 & IH2)]; [by exists []|].
    exists (all :: alls). split; constructor; try done. split; [|done]. intros e He. by apply Hall, Hin. }
  assert (∀ e, e ∈ merge_ids alls ↔ ∃ s, s ∈ l ∧ P s e) as Hmem.
  { intros e. rewrite elem_of_merge_ids. split.
    - intros (all & [i Hi]%list_elem_of_lookup_1 & He). destruct (Forall2_lookup_r _ _ _ _ _ Hl Hi) as (s & Hs & _ & Hiff).
      exists s. split; [by eapply list_elem_of_lookup_2|by apply Hiff].
    - intros (s & [i Hi]%list_elem_of_lookup_1 & HP). destruct (Forall2_lookup_l _ _ _ _ _ Hl Hi) as (all & Ha & _ & Hiff).
      exists all. split; [by eapply list_elem_of_lookup_2|by apply Hiff]. }
  assert (∀ e, e ∈ merge_ids pages → e ∈ merge_ids alls) as Hsub.
  { intros e. rewrite !elem_of_merge_ids. intros (page & [i Hi]%list_elem_of_lookup_1 & He).
    destruct (Forall2_lookup_r _ _ _ _ _ Hp Hi) as (all & Ha & Hin & _). exists all. split; [by eapply list_elem_of_lookup_2|auto]. }
  exists (merge_ids alls). split_and!; [apply merge_ids_ordered|done|apply merge_ids_ordered|intros e He; by apply Hmem, Hsub|].
  destruct limit as [n|]; cbn [take_limit].
  - apply take_part; [apply merge_ids_ordered..|done|]. intros e He. pose proof (elem_of_take_elem _ _ _ He) as Hin.
    apply elem_of_merge_ids in Hin as (all & [i Hi]%list_elem_of_lookup_1 & Hea).
    destruct (Forall2_lookup_l _ _ _ _ _ Hp Hi) as (page & Hpage & _ & Ht). cbn in Ht.
    destruct (Forall2_lookup_r _ _ _ _ _ Hl Hi) as (s & _ & Ho & _).
    apply elem_of_merge_ids. exists page. split; [by eapply list_elem_of_lookup_2|].
    apply (elem_of_take_elem e n). rewrite Ht. apply (take_rank n (merge_ids alls)); [apply merge_ids_ordered|done| |done|done].
    intros y Hy. apply elem_of_merge_ids. exists all. split; [by eapply list_elem_of_lookup_2|done].
  - assert (pages = alls) as ->; [|done]. clear -Hp. induction Hp as [|all page alls pages [_ Ht] _ IH]; [done|]. cbn in Ht. by subst.
Qed.
