(* ===== verification/Shards.v ===== *)
(** * The interface of shards

    Models the reads of the trait [ShardOperation] of
    [lib/collection/src/shards/shard_trait.rs], the parameters of reads
    ([operations/consistency_params.rs]), the instance for local shards, and
    what a collection relies on: a shard shows a map from ids to points. *)

From stdpp Require Import base gmap strings list sorting.
From Stdlib Require Import ZArith SpecFloat Lia.
From S2P Require Import Prelude Types Rocks IdTracker NamedVectors VectorStorage Text Filters Estimator TopK Spaces.
From S2P Require Import PayloadStorage FieldIndex FieldIndexEnum FieldIndexLaws QueryOptimizer.
From S2P Require Import StructPayloadIndex PayloadIndexSpec PayloadIndexLaws Segment PlainIndex SegmentSpec.
From S2P Require Import SegmentEntry SegmentHolder Samples HolderSpec Requests SegmentsSearcher RetrieveSpec.
From S2P Require Import ProxySegment ProxySpec ProxyScroll CollectionConfig ShardReads ShardSpec.

Inductive ReadConsistencyType : Type := Majority | Quorum | All.

Inductive ReadConsistency : Type :=
| Factor (factor : nat)
| ConsistencyType (type : ReadConsistencyType).

Definition default_read_consistency : ReadConsistency := Factor 1.

Class ShardOperation (Num S : Type) := {
  so_scroll_by : S → option PointIdType → nat → WithPayloadInterface → WithVector → option Filter →
    CollectionResult (list (PointRecord Num));
  so_info : S → CollectionResult CollectionInfo;
  so_search : S → list SearchRequest → CollectionResult (list (list (ScoredPoint Num)));
  so_count : S → CountRequest → CollectionResult N;
  so_retrieve : S → PointRequest → WithPayload → WithVector → CollectionResult (list (PointRecord Num));
}.

(** ** What a collection relies on *)

(** The ids with [P], in order. *)
Definition lists_ids (P : PointIdType → Prop) (all : list PointIdType) : Prop :=
  ordered_ids all ∧ ∀ e, e ∈ all ↔ P e.

Lemma lists_ids_unique P l l' : lists_ids P l → lists_ids P l' → l = l'.
Proof.
  intros [[Hs Hnd] Hl] [[Hs' Hnd'] Hl']. apply (StronglySorted_unique point_id_le); [done|done|].
  apply NoDup_Permutation; [done..|]. intros e. by rewrite Hl, Hl'.
Qed.

Lemma lists_ids_iff P Q l : (∀ e, P e ↔ Q e) → lists_ids P l → lists_ids Q l.
Proof. intros HPQ [Ho Hl]. split; [done|]. intros e. by rewrite Hl, HPQ. Qed.

Class ShardReadLaws (Num S : Type) `{!JsonNumber Num} {HG : GeoOps} `{!ShardOperation Num S} := {
  shard_ok : S → Prop;
  shard_point : S → PointIdType → option (Point Num);
  shard_filter_ok : S → option Filter → Prop;
  scroll_by_spec (s : S) offset limit with_payload with_vector filter :
    shard_ok s → shard_filter_ok s filter → (∀ e pt, shard_point s e = Some pt → selectable with_vector pt) →
    ∃ recs all, so_scroll_by s offset limit with_payload with_vector filter = Ok recs ∧
      lists_ids (scrolled (shard_point s) offset filter) all ∧ rec_id <$> recs = take limit all ∧
      Forall (λ rec, ∃ pt, shard_point s (rec_id rec) = Some pt ∧
        record_shows (with_payload_from with_payload) with_vector (rec_id rec) pt rec) recs;
  count_spec (s : S) filter :
    shard_ok s → shard_filter_ok s filter →
    ∃ all, so_count s (mkCountRequest filter true) = Ok (N.of_nat (length all)) ∧ lists_ids (scrolled (shard_point s) None filter) all;
  retrieve_spec (s : S) request with_payload with_vector :
    shard_ok s → (∀ e pt, shard_point s e = Some pt → selectable with_vector pt) →
    ∃ recs, so_retrieve s request with_payload with_vector = Ok recs ∧ NoDup (rec_id <$> recs) ∧
      (∀ e, e ∈ rec_id <$> recs ↔ e ∈ pr_ids request ∧ is_Some (shard_point s e)) ∧
      Forall (λ rec, ∃ pt, shard_point s (rec_id rec) = Some pt ∧
        record_shows with_payload with_vector (rec_id rec) pt rec) recs;
}.

(** ** Local shards *)

Record LocalShard (E : Type) := mkLocalShard {
  shard_segments : SegmentHolder E;
  shard_config : CollectionConfig;
}.
Arguments mkLocalShard {E}.
Arguments shard_segments {E}.
Arguments shard_config {E}.

Section local_shard.
Context {Num E : Type} `{!SegmentEntry Num SearchParams E}.
Context (display_id : PointIdType → string) (join_error : string) (wrapped : E → OperationResult SegmentInfo).

#[export] Instance local_shard_operation : ShardOperation Num (LocalShard E) := {|
  so_scroll_by s := shard_scroll_by display_id (shard_segments s);
  so_info s := local_shard_info (Num:=Num) display_id wrapped (shard_config s) (shard_segments s);
  so_search s := shard_search display_id join_error (cc_params (shard_config s)) (shard_segments s);
  so_count s := shard_count (Num:=Num) display_id (shard_segments s);
  so_retrieve s := shard_retrieve display_id (shard_segments s);
|}.

Context `{!JsonNumber Num} {HG : GeoOps} {HS : Simd} `{!SegmentEntryLaws Num SearchParams E} `{!ScrollEntry Num SearchParams E}.
Abbreviation Holder := (SegmentHolder E).

(** The point, in the segment that has it. *)
Definition holder_point (h : Holder) (e : PointIdType) : option (Point Num) :=
  head (omap (λ s, entry_point s e) (holder_entries h)).

Record holder_readable (h : Holder) : Prop := mkReadable {
  hr_wf idx s : segments h !! idx = Some s → entry_wf s;
  hr_single idx1 idx2 e : is_Some (copy (Num:=Num) h idx1 e) → is_Some (copy (Num:=Num) h idx2 e) → idx1 = idx2;
}.

Lemma elem_of_entries (h : Holder) s : s ∈ holder_entries h ↔ ∃ idx, segments h !! idx = Some s.
Proof using.
  unfold holder_entries. rewrite list_elem_of_fmap. split.
  - intros ([idx s'] & -> & Hs%elem_of_map_to_list). eauto.
  - intros [idx Hs]. exists (idx, s). by rewrite elem_of_map_to_list.
Qed.

Lemma holder_point_entry (h : Holder) e pt :
  holder_point h e = Some pt → ∃ idx, copy h idx e = Some pt.
Proof using.
  unfold holder_point. intros Hp%head_Some_elem_of. apply list_elem_of_omap in Hp as (s & [idx Hs]%elem_of_entries & Hpt).
  exists idx. unfold copy. by rewrite Hs.
Qed.

Lemma holder_point_Some (h : Holder) e pt :
  holder_readable h → holder_point h e = Some pt ↔ ∃ idx, copy h idx e = Some pt.
Proof using.
  intros Hr. split; [apply holder_point_entry|]. intros [idx Hc].
  assert (is_Some (holder_point h e)) as [pt' Hp].
  { unfold holder_point, copy in *. destruct (segments h !! idx) as [s|] eqn:Hs; [|done]. cbn in Hc.
    assert (pt ∈ omap (λ s, entry_point s e) (holder_entries h)) as Hin.
    { apply list_elem_of_omap. exists s. split; [|done]. apply elem_of_entries. eauto. }
    destruct (omap _ _); [by apply not_elem_of_nil in Hin|cbn; eauto]. }
  destruct (holder_point_entry h e pt' Hp) as [idx' Hc']. 
  assert (idx = idx') as <- by (apply (hr_single h Hr idx idx' e); by eexists). congruence.
Qed.

Lemma entries_scrolled (h : Holder) offset filter e :
  holder_readable h →
  (∃ s, s ∈ holder_entries h ∧ scrolled (entry_point s) offset filter e) ↔ scrolled (holder_point h) offset filter e.
Proof using.
  intros Hr. unfold scrolled. setoid_rewrite holder_point_Some; [|done]. setoid_rewrite elem_of_entries. unfold copy. split.
  - intros (s & [idx Hs] & Ho & pt & Hpt & Hp). split; [done|]. exists pt. split; [|done]. exists idx. by rewrite Hs.
  - intros (Ho & pt & [idx Hc] & Hp). destruct (segments h !! idx) as [s|] eqn:Hs; [|done]. exists s. split; [eauto|]. eauto.
Qed.

(** The pages of the segments. *)
Lemma segment_pages (h : Holder) offset limit filter :
  holder_readable h → (∀ s, s ∈ holder_entries h → scroll_ok s filter) →
  ∃ pages, res_map (λ s, se_read_filtered (Num:=Num) (SP:=SearchParams) s offset limit filter) (holder_entries h) = Ok pages ∧
    first_page (scrolled (holder_point h) offset filter) limit (merge_ids pages).
Proof using.
  intros Hr Hok. assert (∀ s, s ∈ holder_entries h → entry_wf s) as Hwf.
  { intros s [idx Hs]%elem_of_entries. by eapply hr_wf. }
  assert (∃ pages, res_map (λ s, se_read_filtered (Num:=Num) (SP:=SearchParams) s offset limit filter) (holder_entries h) = Ok pages ∧
    Forall2 (λ s page, first_page (scrolled (entry_point s) offset filter) limit page) (holder_entries h) pages) as (pages & Hp & Hall).
  { induction (holder_entries h) as [|s l IH]; [by exists []|].
    destruct (read_filtered_spec s offset limit filter) as (page & Hpage & Hfirst); [apply Hwf; left|apply Hok; left|].
    destruct IH as (pages & Hp & Hall); [intros; apply Hok; by right|intros; apply Hwf; by right|].
    exists (page :: pages). cbn. rewrite Hpage. cbn. rewrite Hp. split; [done|by constructor]. }
  exists pages. split; [done|]. eapply first_page_iff; [intros e; by apply entries_scrolled|].
  exact (merge_pages (λ s, scrolled (entry_point s) offset filter) limit _ _ Hall).
Qed.

(** A first page as a list of all. *)
Lemma first_page_lists P limit l :
  first_page P limit l → ∃ all, lists_ids P all ∧ take_limit limit l = take_limit limit all.
Proof using. intros (all & Ho & Hall & _ & _ & Ht). exists all. by split; [split|]. Qed.

Lemma sort_records_ids (recs : list (PointRecord Num)) ids :
  ordered_ids ids → NoDup (rec_id <$> recs) → (∀ e, e ∈ rec_id <$> recs ↔ e ∈ ids) → rec_id <$> sort_records recs = ids.
Proof using.
  intros [Hs Hnd] Hnd' Hiff. apply (StronglySorted_unique point_id_le); [|done|].
  - assert (StronglySorted record_le (sort_records recs)) as Hsort.
    { apply (StronglySorted_merge_sort record_le). }
    induction Hsort as [|rec l _ IH Hall]; [constructor|]. cbn. constructor; [done|]. by apply Forall_fmap.
  - unfold sort_records. rewrite merge_sort_Permutation. by apply NoDup_Permutation.
Qed.

Lemma holder_selectable (h : Holder) with_vector :
  holder_readable h → (∀ e pt, holder_point h e = Some pt → selectable with_vector pt) →
  ∀ idx e pt, copy h idx e = Some pt → selectable with_vector pt.
Proof using. intros Hr Hsel idx e pt Hc. apply (Hsel e). apply holder_point_Some; eauto. Qed.

(** Retrieval, on a shard whose points have one copy. *)
Lemma holder_retrieve (h : Holder) ids with_payload with_vector :
  holder_readable h → (∀ e pt, holder_point h e = Some pt → selectable with_vector pt) →
  ∃ recs, searcher_retrieve display_id h ids with_payload with_vector = Ok recs ∧ NoDup (rec_id <$> recs) ∧
    (∀ e, e ∈ rec_id <$> recs ↔ e ∈ ids ∧ is_Some (holder_point h e)) ∧
    Forall (λ rec, ∃ pt, holder_point h (rec_id rec) = Some pt ∧ record_shows with_payload with_vector (rec_id rec) pt rec) recs.
Proof using.
  intros Hr Hsel. destruct (searcher_retrieve_ok display_id h ids with_payload with_vector) as (recs & Hrec & Hnd & Hids & Hshow).
  - apply Hr.
  - by apply holder_selectable.
  - exists recs. split_and!; [done|done| |].
    + intros e. rewrite Hids. unfold is_Some. setoid_rewrite holder_point_Some; [|done]. naive_solver.
    + apply Forall_forall. intros rec Hin. destruct (Hshow rec Hin) as (idx & pt & Hc & Hs & _). exists pt.
      rewrite holder_point_Some by done. eauto.
Qed.

Lemma local_scroll (h : Holder) offset limit with_payload with_vector filter :
  holder_readable h → (∀ s, s ∈ holder_entries h → scroll_ok s filter) →
  (∀ e pt, holder_point h e = Some pt → selectable with_vector pt) →
  ∃ recs all, shard_scroll_by display_id h offset limit with_payload with_vector filter = Ok recs ∧
    lists_ids (scrolled (holder_point h) offset filter) all ∧ rec_id <$> recs = take limit all ∧
    Forall (λ rec, ∃ pt, holder_point h (rec_id rec) = Some pt ∧
      record_shows (with_payload_from with_payload) with_vector (rec_id rec) pt rec) recs.
Proof using.
  intros Hr Hok Hsel. unfold shard_scroll_by.
  destruct (segment_pages h offset (Some limit) filter Hr Hok) as (pages & Hp & (all & [Ho Hall] & Ht)%first_page_lists).
  rewrite Hp. cbn [op_result mbind result_bind]. fold (merge_ids pages). cbn [take_limit] in Ht. rewrite Ht.
  destruct (holder_retrieve h (take limit all) (with_payload_from with_payload) with_vector Hr Hsel) as (recs & -> & Hnd & Hids & Hshow).
  cbn [mbind result_bind]. exists (sort_records recs), all. split_and!; [done|done| |].
  - apply sort_records_ids; [by apply (ordered_take_limit (Some limit) all)|done|]. intros e. rewrite Hids.
    split; [by intros []|]. intros He. split; [done|]. apply elem_of_take_elem, Hall in He as (_ & pt & Hpt & _). eauto.
  - unfold sort_records. by rewrite merge_sort_Permutation.
Qed.

Lemma local_count (h : Holder) filter :
  holder_readable h → (∀ s, s ∈ holder_entries h → scroll_ok s filter) →
  ∃ all, shard_count (Num:=Num) display_id h (mkCountRequest filter true) = Ok (N.of_nat (length all)) ∧
    lists_ids (scrolled (holder_point h) None filter) all.
Proof using.
  intros Hr Hok. unfold shard_count, shard_read_filtered. cbn [cr_exact cr_filter].
  destruct (segment_pages h None None filter Hr Hok) as (pages & Hp & (all & Hl & Ht)%first_page_lists). cbn in Ht.
  exists all. split; [|done]. destruct (decide (segments h = ∅)) as [Hemp|Hne].
  - assert (holder_entries h = []) as Hnil by (unfold holder_entries; by rewrite Hemp, map_to_list_empty).
    rewrite Hnil in Hp. cbn in Hp. injection Hp as <-. cbn in Ht. by rewrite <-Ht.
  - rewrite Hp. cbn [op_result mbind result_bind]. do 2 f_equal. rewrite <-Ht.
    rewrite <-(size_list_to_set (C:=gset PointIdType) (merge_ids pages)) by apply merge_ids_ordered. f_equal. apply set_eq. intros e.
    rewrite !elem_of_list_to_set. unfold merge_ids. by rewrite elem_of_dedup, elem_of_sort_ids.
Qed.

#[export] Instance local_shard_laws : ShardReadLaws Num (LocalShard E) := {|
  shard_ok s := holder_readable (shard_segments s);
  shard_point s := holder_point (shard_segments s);
  shard_filter_ok s filter := ∀ segment, segment ∈ holder_entries (shard_segments s) → scroll_ok segment filter;
  scroll_by_spec s := local_scroll (shard_segments s);
  count_spec s := local_count (shard_segments s);
  retrieve_spec s request := holder_retrieve (shard_segments s) (pr_ids request);
|}.
End local_shard.
