(* ===== verification/Resolve.v ===== *)
(** * Resolving the answers of replicas

    Models [lib/collection/src/shards/resolve.rs]: several replicas answer the
    same read, and the points that enough of them agree on are kept.

    The item of a [ResolverRecord] is optional only for the default elements
    of a [TinyVec], which are never read; here it is the item itself.  A
    [sort_unstable] is a stable sort here. *)

From stdpp Require Import base gmap strings list sorting.
From Stdlib Require Import ZArith SpecFloat Lia.
From S2P Require Import Prelude Types NamedVectors Filters TopK Segment Requests SearchAggregator ShardReads.

Inductive ResolveCondition : Type := ResolveAll | ResolveMajority.

(** ** The resolver *)

Section resolver.
Context {Item : Type} (identify : Item → PointIdType) (compare : Item → Item → bool).

Record ResolverRecord := mkResolverRecord {
  rr_item : Item;
  rr_row : nat;
  rr_index : nat;
  rr_count : nat;
}.

(** The loop of [add] over the records of an id. *)
Fixpoint add_record (item : Item) (row index : nat) (points : list ResolverRecord) : list ResolverRecord :=
  match points with
  | [] => [mkResolverRecord item row index 1]
  | point :: points =>
      if compare item (rr_item point)
      then mkResolverRecord (rr_item point) (rr_row point) (rr_index point) (S (rr_count point)) :: points
      else point :: add_record item row index points
  end.

Abbreviation Cell := (nat * nat * Item)%type.

Definition resolver_add (items : gmap PointIdType (list ResolverRecord)) (c : Cell) : gmap PointIdType (list ResolverRecord) :=
  let '(row, index, item) := c in
  <[identify item := add_record item row index (default [] (items !! identify item))]> items.

(** Every item with its coordinates. *)
Definition cells (items : list (list Item)) : list Cell :=
  concat (imap (λ row items, imap (λ index item, (row, index, item)) items) items).

Definition resolver_add_all (items : list (list Item)) : gmap PointIdType (list ResolverRecord) :=
  fold_left resolver_add (cells items) ∅.

Definition resolution_count (condition : ResolveCondition) (n : nat) : nat :=
  match condition with ResolveAll => n | ResolveMajority => n `div` 2 + 1 end.

(** The coordinates of the accepted items. *)
Definition resolved_items (count : nat) (items : gmap PointIdType (list ResolverRecord)) : gset (nat * nat) :=
  list_to_set (omap (λ p, (λ q : nat * ResolverRecord, (rr_row q.2, rr_index q.2)) <$>
    list_find (λ point, count ≤ rr_count point) p.2) (map_to_list items)).

Definition resolver_resolve (items : list (list Item)) (condition : ResolveCondition) : list Item :=
  let resolved := resolved_items (resolution_count condition (length items)) (resolver_add_all items) in
  let is_consistent := bool_decide (size resolved = default 0 (length <$> head items))
    && forallb (λ p : nat * nat, p.1 =? 0) (elements resolved) in
  if is_consistent then default [] (head items)
  else omap (λ c : Cell, if decide (c.1 ∈ resolved) then Some c.2 else None) (cells items).
End resolver.

(** ** Records and scored points *)

Section points.
Context {Num : Type} (value_eqb : Value Num → Value Num → bool).
Abbreviation Scored := (ScoredPoint Num).

(** [PartialEq] of vectors; floats are compared as IEEE values. *)
Definition vector_eqb : VectorType → VectorType → bool := list_eqb SFeqb.

Definition map_eqb {A} (eqb : A → A → bool) (a b : gmap string A) : bool :=
  bool_decide (dom a = dom b) &&
  forallb (λ p : string * A, match b !! p.1 with Some y => eqb p.2 y | None => false end) (map_to_list a).

Definition vector_struct_eqb (a b : VectorStruct) : bool :=
  match a, b with
  | VSingle v, VSingle w => vector_eqb v w
  | VMulti vs, VMulti ws => map_eqb vector_eqb vs ws
  | _, _ => false
  end.

Definition payload_eq (this other : option (Payload Num)) : bool :=
  match this, other with
  | Some payload, None | None, Some payload => bool_decide (payload = ∅)
  | Some p, Some q => map_eqb value_eqb p q
  | None, None => true
  end.

Definition record_eq (this other : PointRecord Num) : bool :=
  bool_decide (rec_id this = rec_id other) && option_eqb vector_struct_eqb (rec_vector this) (rec_vector other)
  && payload_eq (rec_payload this) (rec_payload other).

Definition scored_point_eq (this other : Scored) : bool :=
  bool_decide (sp_id this = sp_id other) && SFeqb (sp_score this) (sp_score other)
  && option_eqb vector_struct_eqb (sp_vector this) (sp_vector other) && payload_eq (sp_payload this) (sp_payload other).

Definition resolve_records (records : list (list (PointRecord Num))) (condition : ResolveCondition) : list (PointRecord Num) :=
  sort_records (resolver_resolve rec_id record_eq records condition).

(** [transpose]: takes one element of every list at a time. *)
Definition transpose {T} (vec : list (list T)) : list (list T) :=
  match vec with
  | [] => []
  | first :: _ => (λ i, omap (.!! i) vec) <$> seq 0 (length first)
  end.

Definition scored_le (a b : Scored) : Prop := scored_point_leb a b = true.
#[export] Instance scored_le_dec : RelDecision scored_le := λ a b, decide (scored_point_leb a b = true).

Definition resolve_scored (batches : list (list (list Scored))) (condition : ResolveCondition) : list (list Scored) :=
  (λ points, merge_sort scored_le (resolver_resolve sp_id scored_point_eq points condition)) <$> transpose batches.
End points.

(** ** What is kept *)

Section resolver_spec.
Context {Item : Type} (identify : Item → PointIdType) (compare : Item → Item → bool).
Context (compare_id : ∀ x y, compare x y = true → identify x = identify y).
Context (compare_sym : ∀ x y, compare x y = true → compare y x = true).
Context (compare_trans : ∀ x y z, compare x y = true → compare y z = true → compare x z = true).
Abbreviation Cell := (nat * nat * Item)%type.
Abbreviation RR := (ResolverRecord (Item:=Item)).

(** The cells that agree with an item. *)
Definition agreeing (x : Item) (cs : list Cell) : list Cell := base.filter (λ c, compare c.2 x = true) cs.

(** What is known of the records of an id after the cells [cs]. *)
Record records_ok (cs : list Cell) (id : PointIdType) (rs : list RR) : Prop := mkRecordsOk {
  ro_cell r : r ∈ rs → (rr_row r, rr_index r, rr_item r) ∈ cs ∧ identify (rr_item r) = id ∧
    rr_count r = length (agreeing (rr_item r) cs);
  ro_seen c : c ∈ cs → identify c.2 = id → ∃ r, r ∈ rs ∧ compare c.2 (rr_item r) = true;
  ro_apart i j r r' : rs !! i = Some r → rs !! j = Some r' → compare (rr_item r) (rr_item r') = true → i = j;
}.

Definition bumped (r : RR) : RR := mkResolverRecord (rr_item r) (rr_row r) (rr_index r) (S (rr_count r)).

Lemma add_record_cases item row index rs :
  (∃ i r, rs !! i = Some r ∧ compare item (rr_item r) = true ∧ add_record compare item row index rs = <[i := bumped r]> rs) ∨
  (∀ r, r ∈ rs → compare item (rr_item r) = false) ∧
    add_record compare item row index rs = rs ++ [mkResolverRecord item row index 1].
Proof using.
  induction rs as [|r rs IH]; cbn; [right; split; [by intros ? ?%not_elem_of_nil|done]|].
  destruct (compare item (rr_item r)) eqn:Hc; [left; by exists 0, r|].
  destruct IH as [(i & r' & Hi & Hr' & ->)|[Hall ->]].
  - left. by exists (S i), r'.
  - right. split; [|done]. intros r' [->|Hr']%elem_of_cons; [done|by apply Hall].
Qed.

Lemma agreeing_snoc x cs c :
  length (agreeing x (cs ++ [c])) = length (agreeing x cs) + Nat.b2n (compare c.2 x).
Proof using.
  unfold agreeing. rewrite filter_app, length_app. f_equal. rewrite filter_cons, filter_nil.
  by destruct (compare c.2 x).
Qed.

Lemma add_record_ok cs id rs item row index :
  records_ok cs id rs → identify item = id → compare item item = true →
  records_ok (cs ++ [(row, index, item)]) id (add_record compare item row index rs).
Proof using compare_id compare_sym compare_trans.
  intros [Hcell Hseen Hapart] Hid Hrefl. destruct (add_record_cases item row index rs) as [(i & r & Hi & Hr & ->)|[Hall ->]].
  - assert (∀ j r', <[i := bumped r]> rs !! j = Some r' →
      ∃ r0, rs !! j = Some r0 ∧ rr_item r' = rr_item r0 ∧ rr_row r' = rr_row r0 ∧ rr_index r' = rr_index r0 ∧
        rr_count r' = rr_count r0 + Nat.b2n (compare item (rr_item r0))) as Hlook.
    { intros j r' Hj. apply list_lookup_insert_Some in Hj as [(<- & <- & _)|[Hne Hj]].
      - exists r. rewrite Hr. cbn. split_and!; [done..|lia].
      - exists r'. split_and!; [done..|]. destruct (compare item (rr_item r')) eqn:Hc; [|cbn; lia].
        destruct Hne. eapply Hapart; [done|done|]. eapply compare_trans; [by apply compare_sym|done]. }
    split.
    + intros r' [j Hj]%list_elem_of_lookup_1. destruct (Hlook j r' Hj) as (r0 & Hr0 & -> & -> & -> & ->).
      destruct (Hcell r0) as (Hc & Hid' & ->); [by eapply list_elem_of_lookup_2|]. rewrite agreeing_snoc.
      split_and!; [apply elem_of_app; by left|done|done].
    + intros c [Hc|Hc]%elem_of_app Hidc.
      * destruct (Hseen c Hc Hidc) as (r0 & [j Hj]%list_elem_of_lookup_1 & Hcr).
        assert (is_Some (<[i := bumped r]> rs !! j)) as [r' Hr'].
        { apply lookup_lt_is_Some. rewrite length_insert. by apply lookup_lt_is_Some; eexists. }
        destruct (Hlook j r' Hr') as (r1 & Hr1 & Heq & _). exists r'. split; [by eapply list_elem_of_lookup_2|]. by rewrite Heq; simplify_eq.
      * apply list_elem_of_singleton in Hc as ->. exists (bumped r). split; [|done].
        apply (list_elem_of_lookup_2 _ i). apply list_lookup_insert_eq. by eapply lookup_lt_Some.
    + intros j j' r1 r2 H1 H2 Hc. destruct (Hlook j r1 H1) as (r1' & ? & E1 & _). destruct (Hlook j' r2 H2) as (r2' & ? & E2 & _).
      rewrite E1, E2 in Hc. by eapply Hapart.
  - split.
    + intros r [Hr|Hr]%elem_of_app.
      * destruct (Hcell r Hr) as (Hc & Hid' & ->). rewrite agreeing_snoc. cbn. rewrite (Hall r Hr).
        split_and!; [apply elem_of_app; by left|done|cbn; lia].
      * apply list_elem_of_singleton in Hr as ->. cbn. rewrite agreeing_snoc. cbn. rewrite Hrefl.
        split_and!; [apply elem_of_app; right; by apply list_elem_of_singleton|done|].
        rewrite (elem_of_nil_inv (agreeing item cs)); [done|]. intros [[row' index'] x] [Hc Hx]%list_elem_of_filter. cbn in Hc.
        destruct (Hseen _ Hx) as (r & Hr & Hcr); [cbn; by rewrite (compare_id x item)|]. cbn in Hcr.
        specialize (Hall r Hr). rewrite (compare_trans item x (rr_item r)) in Hall; [done|by apply compare_sym|done].
    + intros c [Hc|Hc]%elem_of_app Hidc.
      * destruct (Hseen c Hc Hidc) as (r & Hr & Hcr). exists r. split; [apply elem_of_app; by left|done].
      * apply list_elem_of_singleton in Hc as ->. eexists. split; [apply elem_of_app; right; by left|done].
    + intros i j r r' Hi Hj Hc. apply lookup_app_Some in Hi as [Hi|[Hi1 Hi]], Hj as [Hj|[Hj1 Hj]].
      * by eapply Hapart.
      * apply list_lookup_singleton_Some in Hj as [Hj <-]. cbn in Hc. apply list_elem_of_lookup_2, Hall in Hi.
        apply compare_sym in Hc. congruence.
      * apply list_lookup_singleton_Some in Hi as [Hi <-]. cbn in Hc. apply list_elem_of_lookup_2, Hall in Hj. congruence.
      * apply list_lookup_singleton_Some in Hi as [Hi _]. apply list_lookup_singleton_Some in Hj as [Hj _]. lia.
Qed.

Lemma records_other cs id rs c :
  records_ok cs id rs → identify c.2 ≠ id → records_ok (cs ++ [c]) id rs.
Proof using compare_id.
  intros [Hcell Hseen Hapart] Hid. split; [| |done].
  - intros r Hr. destruct (Hcell r Hr) as (Hc & Hid' & ->). rewrite agreeing_snoc. split_and!; [apply elem_of_app; by left|done|].
    destruct (compare c.2 (rr_item r)) eqn:Hx; [|cbn; lia]. apply compare_id in Hx. congruence.
  - intros c' [Hc|Hc]%elem_of_app Hidc; [by apply Hseen|]. apply list_elem_of_singleton in Hc as ->. done.
Qed.

Lemma add_all_ok cs (m : gmap PointIdType (list RR)) done_cs :
  (∀ c, c ∈ cs → compare c.2 c.2 = true) → (∀ id, records_ok done_cs id (default [] (m !! id))) →
  ∀ id, records_ok (done_cs ++ cs) id (default [] (fold_left (resolver_add identify compare) cs m !! id)).
Proof using compare_id compare_sym compare_trans.
  revert m done_cs. induction cs as [|[[row index] item] cs IH]; intros m done_cs Hrefl Hm id; cbn [fold_left]; [by rewrite app_nil_r|].
  replace (done_cs ++ (row, index, item) :: cs) with ((done_cs ++ [(row, index, item)]) ++ cs) by by rewrite <-app_assoc.
  apply IH; [intros; apply Hrefl; by right|]. intros id'. unfold resolver_add. destruct (decide (id' = identify item)) as [->|Hne].
  - rewrite lookup_insert_eq. cbn. apply add_record_ok; [apply Hm|done|]. apply (Hrefl (row, index, item)). left.
  - rewrite lookup_insert_ne by done. by apply records_other.
Qed.

(** *** Cells *)

Lemma elem_of_resolver_cells (items : list (list Item)) row index item :
  (row, index, item) ∈ cells items ↔ ∃ r, items !! row = Some r ∧ r !! index = Some item.
Proof using.
  unfold cells. rewrite elem_of_concat. setoid_rewrite elem_of_lookup_imap. split.
  - intros (l & (row' & r & -> & Hr) & (index' & item' & [= -> -> ->] & Hi)%elem_of_lookup_imap). eauto.
  - intros (r & Hr & Hi). eexists. split; [by exists row, r|]. apply elem_of_lookup_imap. by exists index, item.
Qed.

Lemma imap_same {A} (g : nat → A → A) l : (∀ i x, g i x = x) → imap g l = l.
Proof using.
  intros Hg. revert g Hg. induction l as [|x l IH]; intros g Hg; [done|]. cbn. rewrite Hg. f_equal. apply IH. intros. apply Hg.
Qed.

Lemma cells_items (items : list (list Item)) : (cells items).*2 = concat items.
Proof using.
  unfold cells. generalize (λ row : nat, row). assert (∀ (f : nat → nat) (items : list (list Item)),
    (concat (imap (λ row r, imap (λ index item, (f row, index, item)) r) items)).*2 = concat items) as H; [|intros _; apply (H id)].
  intros f its. revert f. induction its as [|r its IH]; intros f; [done|]. cbn. rewrite fmap_app, fmap_imap.
  f_equal; [|apply (IH (f ∘ S))]. by apply imap_same.
Qed.

Lemma cells_from_NoDup (f : nat → nat) (items : list (list Item)) :
  (∀ i j, f i = f j → i = j) → NoDup (concat (imap (λ row r, imap (λ index item, (f row, index, item)) r) items)).
Proof using.
  revert f. induction items as [|r items IH]; intros f Hf; cbn; [constructor|]. apply NoDup_app. split_and!.
  - apply NoDup_alt. intros i j c. rewrite !list_lookup_imap. intros (x & Hx & ->)%fmap_Some (y & Hy & Heq)%fmap_Some. congruence.
  - intros [[row index] x] (i & x' & [= -> _ _] & _)%elem_of_lookup_imap (l & (k & r' & -> & _)%elem_of_lookup_imap & Hin)%elem_of_concat.
    apply elem_of_lookup_imap in Hin as (? & ? & [= Hk _ _] & _). cbn in Hk. by apply Hf in Hk.
  - apply (IH (f ∘ S)). intros i j Hij. apply Hf in Hij. lia.
Qed.

Lemma cells_NoDup (items : list (list Item)) : NoDup (cells items).
Proof using. by apply (cells_from_NoDup id). Qed.

(** *** Agreement *)

Definition row_agrees (x : Item) (row : list Item) : bool := existsb (λ y, compare y x) row.

(** The number of replicas that have the item. *)
Definition support (x : Item) (items : list (list Item)) : nat := length (base.filter (λ row, row_agrees x row = true) items).

Lemma row_agrees_elem x row : row_agrees x row = true ↔ ∃ y, y ∈ row ∧ compare y x = true.
Proof using. unfold row_agrees. rewrite existsb_exists. setoid_rewrite <-list_elem_of_In. done. Qed.

Lemma filter_agreeing x row :
  NoDup (identify <$> row) → length (base.filter (λ y, compare y x = true) row) = Nat.b2n (row_agrees x row).
Proof using compare_id compare_sym compare_trans.
  induction row as [|y row IH]; [done|]. rewrite fmap_cons. intros [Hy Hnd]%NoDup_cons. rewrite filter_cons.
  change (row_agrees x (y :: row)) with (compare y x || row_agrees x row).
  destruct (compare y x) eqn:Hc; [rewrite decide_True by done|rewrite decide_False by done; by apply IH].
  rewrite (elem_of_nil_inv (base.filter _ row)); [done|].
  intros z [Hz Hin]%list_elem_of_filter. apply Hy. rewrite (compare_id y z); [by apply list_elem_of_fmap_2|].
  eapply compare_trans; [done|by apply compare_sym].
Qed.

Lemma agreeing_support x items :
  Forall (λ row, NoDup (identify <$> row)) items → length (agreeing x (cells items)) = support x items.
Proof using compare_id compare_sym compare_trans.
  intros Hnd. assert (length (agreeing x (cells items)) = length (base.filter (λ y, compare y x = true) (cells items).*2)) as ->.
  { unfold agreeing. generalize (cells items). intros cs. induction cs as [|c cs IH]; [done|]. rewrite fmap_cons, !filter_cons.
    destruct (decide (compare c.2 x = true)); cbn [length]; by rewrite IH. }
  rewrite cells_items. induction Hnd as [|row items Hrow _ IH]; [done|]. cbn [concat]. rewrite filter_app, length_app, IH, filter_agreeing by done.
  unfold support. rewrite filter_cons. destruct (row_agrees x row); [by rewrite decide_True|by rewrite decide_False].
Qed.

(** *** The accepted items *)

Section resolve.
Context (items : list (list Item)) (count : nat).
Context (Hnd : Forall (λ row, NoDup (identify <$> row)) items).
Context (Hrefl : ∀ x, x ∈ concat items → compare x x = true).
Abbreviation table := (resolver_add_all identify compare items).

Lemma table_ok id : records_ok (cells items) id (default [] (table !! id)).
Proof using All.
  apply (add_all_ok (cells items) ∅ []).
  - intros c Hc. apply Hrefl. rewrite <-cells_items. by apply list_elem_of_fmap_2.
  - intros id'. rewrite lookup_empty. split; cbn; [by intros ? ?%not_elem_of_nil|by intros ? ?%not_elem_of_nil|done].
Qed.

Lemma elem_of_resolved row index :
  (row, index) ∈ resolved_items count table ↔
    ∃ id i r, list_find (λ point, count ≤ rr_count point) (default [] (table !! id)) = Some (i, r) ∧
      rr_row r = row ∧ rr_index r = index.
Proof using.
  unfold resolved_items. rewrite elem_of_list_to_set, list_elem_of_omap. split.
  - intros ([id rs] & Hid%elem_of_map_to_list & Hf). cbn in Hf. apply fmap_Some in Hf as ([i r] & Hf & [= -> ->]).
    exists id, i, r. by rewrite Hid.
  - intros (id & i & r & Hf & <- & <-). destruct (table !! id) as [rs|] eqn:Hrs; [|done]. exists (id, rs).
    split; [by apply elem_of_map_to_list|]. cbn in Hf |- *. by rewrite Hf.
Qed.

(** The record that was accepted for an id. *)
Lemma resolved_record row index :
  (row, index) ∈ resolved_items count table → ∃ item, (row, index, item) ∈ cells items ∧ count ≤ support item items.
Proof using All.
  intros (id & i & r & (Hi & Hc & _)%list_find_Some & <- & <-)%elem_of_resolved.
  destruct (ro_cell _ _ _ (table_ok id) r) as (Hcell & _ & Hcount); [by eapply list_elem_of_lookup_2|].
  exists (rr_item r). split; [done|]. by rewrite <-agreeing_support, <-Hcount.
Qed.

Definition accepted : list Item := 
  omap (λ c : Cell, if decide (c.1 ∈ resolved_items count table) then Some c.2 else None) (cells items).

Lemma elem_of_accepted x :
  x ∈ accepted ↔ ∃ row index, (row, index, x) ∈ cells items ∧ (row, index) ∈ resolved_items count table.
Proof using.
  unfold accepted. rewrite list_elem_of_omap. split.
  - intros ([[row index] item] & Hc & Hx). cbn in Hx. destruct (decide _); [|done]. injection Hx as <-. eauto.
  - intros (row & index & Hc & Hr). exists (row, index, x). split; [done|]. cbn. by rewrite decide_True.
Qed.

Lemma accepted_supported x : x ∈ accepted → x ∈ concat items ∧ count ≤ support x items.
Proof using All.
  intros (row & index & Hc & Hr)%elem_of_accepted. destruct (resolved_record row index Hr) as (item & Hc' & Hs).
  assert (x = item) as ->.
  { apply elem_of_resolver_cells in Hc as (r & Hr1 & Hi1), Hc' as (r' & Hr2 & Hi2). congruence. }
  split; [|done]. rewrite <-cells_items. by apply (list_elem_of_fmap_2 snd _ (row, index, item)).
Qed.

(** Two values of one point cannot both be on more than half of the replicas. *)
Lemma majority_agree x y :
  length items < count + count → count ≤ support x items → count ≤ support y items → identify x = identify y →
  compare x y = true.
Proof using All.
  intros Hmaj Hx Hy Hid. destruct (decide (Exists (λ row, row_agrees x row = true ∧ row_agrees y row = true) items)) as [Hex|Hno].
  - apply Exists_exists in Hex as (row & Hrow & (x' & Hx' & Hcx)%row_agrees_elem & (y' & Hy' & Hcy)%row_agrees_elem).
    rewrite Forall_forall in Hnd. specialize (Hnd row Hrow).
    assert (x' = y') as ->.
    { apply list_elem_of_lookup_1 in Hx' as [i Hi], Hy' as [j Hj].
      assert (i = j) as <-; [|congruence]. eapply (NoDup_lookup (identify <$> row)); [done|by rewrite list_lookup_fmap, Hi|].
      rewrite list_lookup_fmap, Hj. cbn. f_equal. by rewrite (compare_id x' x), (compare_id y' y). }
    eapply compare_trans; [by apply compare_sym|done].
  - exfalso. assert (support x items + support y items ≤ length items); [|lia]. clear -Hno. unfold support.
    induction items as [|row l IH]; [done|]. rewrite !filter_cons. assert (¬ (row_agrees x row = true ∧ row_agrees y row = true)) as Hrow.
    { intros H. apply Hno. by left. }
    assert (length (base.filter (λ row, row_agrees x row = true) l) + length (base.filter (λ row, row_agrees y row = true) l) ≤ length l) as Hl.
    { apply IH. intros H. apply Hno. by right. }
    destruct (decide (row_agrees x row = true)), (decide (row_agrees y row = true)); cbn; [by destruct Hrow|lia..].
Qed.

Lemma supported_accepted x :
  length items < count + count → x ∈ concat items → count ≤ support x items → ∃ y, y ∈ accepted ∧ compare x y = true.
Proof using All.
  intros Hmaj Hx Hs. pose proof (table_ok (identify x)) as [Hcell Hseen _]. rewrite <-cells_items in Hx.
  apply list_elem_of_fmap in Hx as ([[row index] x'] & -> & Hc). cbn in *.
  destruct (Hseen _ Hc eq_refl) as (r & Hr & Hxr). cbn in Hxr.
  assert (count ≤ support (rr_item r) items) as Hsr.
  { etrans; [exact Hs|]. unfold support. apply submseteq_length, sublist_submseteq. clear -compare_trans Hxr.
    induction items as [|row l IH]; [done|]. rewrite !filter_cons. destruct (decide (row_agrees x' row = true)) as [Ha|].
    - rewrite decide_True; [by constructor|]. apply row_agrees_elem in Ha as (y & Hy & Hyx). apply row_agrees_elem.
      exists y. split; [done|]. by eapply compare_trans.
    - destruct (decide _); [by constructor|done]. }
  assert (is_Some (list_find (λ point, count ≤ rr_count point) (default [] (table !! identify x')))) as [[i r'] Hf].
  { apply (list_find_elem_of _ _ r); [done|]. destruct (Hcell r Hr) as (_ & _ & ->). by rewrite agreeing_support. }
  pose proof Hf as (Hi & Hcount & _)%list_find_Some. destruct (Hcell r') as (Hc' & Hid' & Hn'); [by eapply list_elem_of_lookup_2|].
  exists (rr_item r'). split.
  - apply elem_of_accepted. exists (rr_row r'), (rr_index r'). split; [done|]. apply elem_of_resolved. by exists (identify x'), i, r'.
  - apply majority_agree; [done|done| |done]. by rewrite <-agreeing_support, <-Hn'.
Qed.

Lemma omap_filter_fst {A B} (P : A → Prop) `{!∀ x, Decision (P x)} (l : list (A * B)) :
  omap (λ c : A * B, if decide (P c.1) then Some c.2 else None) l = (base.filter (λ c, P c.1) l).*2.
Proof using. induction l as [|[a b] l IH]; [done|]. cbn [omap list_omap]. rewrite filter_cons. cbn. destruct (decide (P a)); cbn; by rewrite <-IH. Qed.

Lemma accepted_ids : NoDup (identify <$> accepted).
Proof using All.
  assert (accepted = (base.filter (λ c : Cell, c.1 ∈ resolved_items count table) (cells items)).*2) as ->.
  { exact (omap_filter_fst (.∈ resolved_items count table) (cells items)). }
  rewrite <-list_fmap_compose. apply NoDup_fmap_2_strong; [|apply NoDup_filter, cells_NoDup].
  intros [[row index] x] [[row' index'] y] [Hr Hx]%list_elem_of_filter [Hr' Hy]%list_elem_of_filter Hid. cbn in *.
  apply elem_of_resolved in Hr as (id & i & r & Hf & <- & <-), Hr' as (id' & i' & r' & Hf' & <- & <-).
  assert (∀ id i r x, list_find (λ point, count ≤ rr_count point) (default [] (table !! id)) = Some (i, r) →
    (rr_row r, rr_index r, x) ∈ cells items → identify x = id ∧ rr_item r = x) as Hrec.
  { intros id0 i0 r0 x0 (Hi0 & _ & _)%list_find_Some Hx0. destruct (ro_cell _ _ _ (table_ok id0) r0) as (Hc0 & Hid0 & _);
      [by eapply list_elem_of_lookup_2|].
    apply elem_of_resolver_cells in Hx0 as (l & Hl & Hl'), Hc0 as (l2 & Hl2 & Hl2'). assert (rr_item r0 = x0) as <- by congruence. done. }
  destruct (Hrec _ _ _ _ Hf Hx) as [<- <-], (Hrec _ _ _ _ Hf' Hy) as [<- <-]. cbn in Hid. rewrite Hid in Hf. by simplify_eq.
Qed.

(** The shortcut for consistent answers gives what the selection would. *)
Lemma shortcut_accepted first rest :
  items = first :: rest → size (resolved_items count table) = length first →
  forallb (λ p : nat * nat, p.1 =? 0) (elements (resolved_items count table)) = true → accepted = first.
Proof using All.
  intros Hitems Hsize Hzero. assert (∀ row index, (row, index) ∈ resolved_items count table → row = 0 ∧ index < length first) as Hin.
  { intros row index Hr. rewrite forallb_forall in Hzero. assert (row = 0) as ->.
    { apply Nat.eqb_eq. apply (Hzero (row, index)). apply list_elem_of_In. by apply elem_of_elements. }
    split; [done|]. destruct (resolved_record 0 index Hr) as (x & (r & Hr0 & Hi)%elem_of_resolver_cells & _). rewrite Hitems in Hr0.
    injection Hr0 as <-. by eapply lookup_lt_Some. }
  assert (∀ index, index < length first → (0, index) ∈ resolved_items count table) as Hall.
  { assert (resolved_items count table = list_to_set ((0,.) <$> seq 0 (length first))) as Heq.
    { apply set_subseteq_size_eq.
      - intros [row index] [-> Hlt]%Hin. apply elem_of_list_to_set, list_elem_of_fmap. exists index. split; [done|]. apply elem_of_seq. lia.
      - rewrite Hsize, size_list_to_set; [by rewrite length_fmap, length_seq|]. apply NoDup_fmap_2; [by intros ?? [= ->]|apply NoDup_seq]. }
    intros index Hlt. rewrite Heq. apply elem_of_list_to_set, list_elem_of_fmap. exists index. split; [done|]. apply elem_of_seq. lia. }
  unfold accepted. set (R := resolved_items count table) in *. clearbody R. clear -Hitems Hin Hall. rewrite Hitems. unfold cells. cbn [imap concat].
  rewrite omap_app. assert (omap (λ c : Cell, if decide (c.1 ∈ R) then Some c.2 else None)
    (imap (λ index item, (0, index, item)) first) = first) as ->.
  - assert (∀ k l, (∀ i, i < length l → (0, k + i) ∈ R) → omap (λ c : Cell, if decide (c.1 ∈ R) then Some c.2 else None)
      (imap (λ index item, (0, k + index, item)) l) = l) as H; [|by apply (H 0 first)].
    intros k l. revert k. induction l as [|x l IH]; intros k Hk; [done|]. cbn. rewrite decide_True by (apply (Hk 0); cbn; lia). cbn.
    f_equal. rewrite <-(IH (S k)) at 2.
    + f_equal. apply imap_ext. intros i y _. cbn. by rewrite Nat.add_succ_r.
    + intros i Hi. rewrite Nat.add_succ_l, <-Nat.add_succ_r. apply Hk. cbn. lia.
  - rewrite <-(app_nil_r first) at 2. f_equal. apply elem_of_nil_inv. intros x (c & Hc & Hx)%list_elem_of_omap.
    apply elem_of_concat in Hc as (l & (k & r & -> & _)%elem_of_lookup_imap & (i & y & -> & _)%elem_of_lookup_imap). cbn in Hx.
    destruct (decide _) as [Hr|]; [|done]. apply Hin in Hr as [? _]. lia.
Qed.
End resolve.

Lemma resolve_accepted items condition :
  Forall (λ row, NoDup (identify <$> row)) items → (∀ x, x ∈ concat items → compare x x = true) →
  resolver_resolve identify compare items condition = accepted items (resolution_count condition (length items)).
Proof using All.
  intros Hnd Hrefl. unfold resolver_resolve. fold (accepted items (resolution_count condition (length items))).
  destruct items as [|first rest]; [done|]. destruct (bool_decide _ && _) eqn:Hc; [|done].
  apply andb_true_iff in Hc as [Hsize%bool_decide_eq_true Hz]. symmetry. by eapply shortcut_accepted.
Qed.
End resolver_spec.

(** ** Equality of points *)

Section eqb.
Context {A : Type} (eqb : A → A → bool).
Context (eqb_sym : ∀ x y, eqb x y = true → eqb y x = true) (eqb_trans : ∀ x y z, eqb x y = true → eqb y z = true → eqb x z = true).

Lemma option_eqb_sym a b : option_eqb eqb a b = true → option_eqb eqb b a = true.
Proof using eqb_sym. destruct a, b; cbn; auto. Qed.

Lemma option_eqb_trans a b c : option_eqb eqb a b = true → option_eqb eqb b c = true → option_eqb eqb a c = true.
Proof using eqb_trans. destruct a, b, c; cbn; try done. apply eqb_trans. Qed.

Lemma list_eqb_sym a b : list_eqb eqb a b = true → list_eqb eqb b a = true.
Proof using eqb_sym.
  revert b. induction a as [|x a IH]; intros [|y b]; cbn; try done. rewrite !andb_true_iff. intros []; auto.
Qed.

Lemma list_eqb_trans a b c : list_eqb eqb a b = true → list_eqb eqb b c = true → list_eqb eqb a c = true.
Proof using eqb_trans.
  revert b c. induction a as [|x a IH]; intros [|y b] [|z c]; cbn; try done. rewrite !andb_true_iff. intros [] []; eauto.
Qed.

Lemma map_eqb_spec (a b : gmap string A) : map_eqb eqb a b = true ↔ ∀ k, option_eqb eqb (a !! k) (b !! k) = true.
Proof using.
  unfold map_eqb. rewrite andb_true_iff, bool_decide_eq_true, forallb_forall. setoid_rewrite <-list_elem_of_In. split.
  - intros [Hdom Hall] k. destruct (a !! k) as [x|] eqn:Hx.
    + specialize (Hall (k, x)). rewrite elem_of_map_to_list in Hall. specialize (Hall Hx). cbn in Hall. by destruct (b !! k).
    + destruct (b !! k) as [y|] eqn:Hy; [|done]. exfalso. apply (elem_of_dom_2 (D:=gset string)) in Hy. rewrite <-Hdom in Hy.
      apply elem_of_dom in Hy as [? ?]. congruence.
  - intros Hk. split.
    + apply set_eq. intros k. rewrite !elem_of_dom. specialize (Hk k). destruct (a !! k), (b !! k); cbn in Hk; try done; split; eauto.
    + intros [k x] Hx%elem_of_map_to_list. cbn. specialize (Hk k). rewrite Hx in Hk. by destruct (b !! k).
Qed.

Lemma map_eqb_sym a b : map_eqb eqb a b = true → map_eqb eqb b a = true.
Proof using eqb_sym. rewrite !map_eqb_spec. intros H k. by apply option_eqb_sym. Qed.

Lemma map_eqb_trans a b c : map_eqb eqb a b = true → map_eqb eqb b c = true → map_eqb eqb a c = true.
Proof using eqb_trans. rewrite !map_eqb_spec. intros H1 H2 k. by eapply option_eqb_trans. Qed.

Lemma map_eqb_empty a : map_eqb eqb a ∅ = true → a = ∅.
Proof using.
  rewrite map_eqb_spec. intros H. apply map_eq. intros k. specialize (H k). rewrite lookup_empty in *. by destruct (a !! k).
Qed.
End eqb.

Definition is_zero (x : spec_float) : bool := match x with S754_zero _ => true | _ => false end.

Lemma SFeqb_cases x y : SFeqb x y = true ↔ (is_zero x = true ∧ is_zero y = true) ∨ (x = y ∧ x ≠ S754_nan).
Proof.
  unfold SFeqb. split.
  - destruct x as [sx|sx| |sx m e], y as [sy|sy| |sy m' e']; cbn; try done; try (destruct sx; done); try (destruct sy; done); auto.
    + destruct sx, sy; try done; intros _; right; done.
    + destruct sx, sy; try done; destruct (Z.compare_spec e e') as [->| |]; try done; intros H; right;
        (split; [|done]); f_equal; apply Pos.compare_eq; change (Pos.compare_cont Eq m m') with (m ?= m')%positive in H;
        by destruct (m ?= m')%positive.
  - intros [[Hx Hy]|[<- Hn]]; [by destruct x, y|]. destruct x as [| [] | |[] m e]; try done; cbn; rewrite Z.compare_refl;
      change (Pos.compare_cont Eq m m) with (m ?= m)%positive; by rewrite Pos.compare_refl.
Qed.

Lemma SFeqb_sym x y : SFeqb x y = true → SFeqb y x = true.
Proof. rewrite !SFeqb_cases. naive_solver. Qed.

Lemma SFeqb_trans x y z : SFeqb x y = true → SFeqb y z = true → SFeqb x z = true.
Proof. rewrite !SFeqb_cases. intros [[]|[-> ?]] [[]|[<- ?]]; auto. Qed.

Lemma vector_struct_eqb_sym a b : vector_struct_eqb a b = true → vector_struct_eqb b a = true.
Proof. destruct a, b; cbn; try done; [apply list_eqb_sym|apply map_eqb_sym, list_eqb_sym]; apply SFeqb_sym. Qed.

Lemma vector_struct_eqb_trans a b c : vector_struct_eqb a b = true → vector_struct_eqb b c = true → vector_struct_eqb a c = true.
Proof. destruct a, b, c; cbn; try done; [apply list_eqb_trans|apply map_eqb_trans, list_eqb_trans]; apply SFeqb_trans. Qed.

Section record_eq.
Context {Num : Type} (value_eqb : Value Num → Value Num → bool).
Context (value_sym : ∀ x y, value_eqb x y = true → value_eqb y x = true).
Context (value_trans : ∀ x y z, value_eqb x y = true → value_eqb y z = true → value_eqb x z = true).

Lemma payload_eq_sym a b : payload_eq value_eqb a b = true → payload_eq value_eqb b a = true.
Proof using value_sym. destruct a, b; cbn; try done. by apply map_eqb_sym. Qed.

Lemma payload_eq_trans a b c : payload_eq value_eqb a b = true → payload_eq value_eqb b c = true → payload_eq value_eqb a c = true.
Proof using value_sym value_trans.
  destruct a as [a|], b as [b|], c as [c|]; cbn; rewrite ?bool_decide_eq_true; try done.
  - by apply map_eqb_trans.
  - intros H ->. by apply map_eqb_empty in H.
  - intros -> ->. by apply map_eqb_spec.
  - intros -> H. apply map_eqb_sym in H; [|done]. by apply map_eqb_empty in H.
Qed.

Lemma record_eq_id a b : record_eq value_eqb a b = true → rec_id a = rec_id b.
Proof using. unfold record_eq. rewrite !andb_true_iff, bool_decide_eq_true. tauto. Qed.

Lemma record_eq_sym a b : record_eq value_eqb a b = true → record_eq value_eqb b a = true.
Proof using value_sym.
  unfold record_eq. rewrite !andb_true_iff, !bool_decide_eq_true. intros [[-> Hv] Hp].
  split; [split; [done|apply option_eqb_sym; [apply vector_struct_eqb_sym|done]]|by apply payload_eq_sym].
Qed.

Lemma record_eq_trans a b c : record_eq value_eqb a b = true → record_eq value_eqb b c = true → record_eq value_eqb a c = true.
Proof using value_sym value_trans.
  unfold record_eq. rewrite !andb_true_iff, !bool_decide_eq_true. intros [[-> Hv] Hp] [[-> Hv'] Hp'].
  split; [split; [done|eapply option_eqb_trans; [apply vector_struct_eqb_trans|done|done]]|by eapply payload_eq_trans].
Qed.

(** The number of replicas that returned the record. *)
Abbreviation record_support := (support (record_eq value_eqb)).

Lemma resolve_records_supported records condition r :
  Forall (λ row, NoDup (rec_id <$> row)) records → (∀ r, r ∈ concat records → record_eq value_eqb r r = true) →
  r ∈ resolve_records value_eqb records condition →
  r ∈ concat records ∧ resolution_count condition (length records) ≤ record_support r records.
Proof using value_sym value_trans.
  intros Hnd Hrefl. unfold resolve_records, sort_records. rewrite merge_sort_Permutation.
  rewrite (resolve_accepted rec_id (record_eq value_eqb) record_eq_id record_eq_sym record_eq_trans) by done.
  apply accepted_supported; [apply record_eq_id|apply record_eq_sym|apply record_eq_trans|done|done].
Qed.

(** C25: resolving the answers of replicas keeps exactly the records that enough
    of them agree on: every record of the result was returned, alike, by all
    replicas (by more than half of them, for a majority), a record that that
    many replicas returned is in the result, ids are not repeated and are in
    order.  Assumed: a replica returns a point once, and no vector is NaN. *)
Theorem resolve_records_agreed (records : list (list (PointRecord Num))) (condition : ResolveCondition)
  (Hne : records ≠ []) (Hnd : Forall (λ row, NoDup (rec_id <$> row)) records)
  (Hrefl : ∀ r, r ∈ concat records → record_eq value_eqb r r = true) :
  let res := resolve_records value_eqb records condition in
  let count := resolution_count condition (length records) in
  NoDup (rec_id <$> res) ∧ StronglySorted record_le res ∧
  (∀ r, r ∈ res → r ∈ concat records ∧ count ≤ record_support r records) ∧
  (∀ r, r ∈ concat records → count ≤ record_support r records → ∃ r', r' ∈ res ∧ record_eq value_eqb r r' = true).
Proof using value_sym value_trans.
  intros res count. unfold res, resolve_records.
  rewrite (resolve_accepted rec_id (record_eq value_eqb) record_eq_id record_eq_sym record_eq_trans) by done. fold count. split_and!.
  - unfold sort_records. rewrite merge_sort_Permutation. 
    apply accepted_ids; [apply record_eq_id|apply record_eq_sym|apply record_eq_trans|done|done].
  - apply (StronglySorted_merge_sort record_le).
  - intros r Hr. apply resolve_records_supported; [done|done|]. unfold resolve_records.
    by rewrite (resolve_accepted rec_id (record_eq value_eqb) record_eq_id record_eq_sym record_eq_trans).
  - intros r Hr Hc. unfold sort_records. setoid_rewrite merge_sort_Permutation.
    apply supported_accepted; [apply record_eq_id|apply record_eq_sym|apply record_eq_trans|done|done| |done|done]. unfold count, resolution_count.
    destruct records as [|row rows]; [done|]. destruct condition; [cbn; lia|].
    pose proof (Nat.div_mod_eq (length (row :: rows)) 2). pose proof (Nat.mod_upper_bound (length (row :: rows)) 2). lia.
Qed.
End record_eq.

(** ** Witness *)

(** Equality on the scalar values. *)
Definition scalar_eqb (x y : Value Z) : bool :=
  match x, y with
  | VNull, VNull => true
  | VBool a, VBool b => Bool.eqb a b
  | VNumber a, VNumber b => Z.eqb a b
  | VString a, VString b => String.eqb a b
  | _, _ => false
  end.

(** Three replicas; the second has missed an update of point 8, the third has
    no point 8. *)
Definition replica_answers : list (list (PointRecord Z)) :=
  [ [mkRecord (NumId 7) None None; mkRecord (NumId 8) (Some {[ "a" := VNumber 2%Z ]}) None];
    [mkRecord (NumId 7) (Some ∅) None; mkRecord (NumId 8) (Some {[ "a" := VNumber 1%Z ]}) None];
    [mkRecord (NumId 7) None None] ].

Lemma resolve_records_agreed_witness :
  rec_id <$> resolve_records scalar_eqb replica_answers ResolveMajority = [NumId 7] ∧
  ∀ r, r ∈ resolve_records scalar_eqb replica_answers ResolveMajority → 2 ≤ support (record_eq scalar_eqb) r replica_answers.
Proof.
  split; [vm_compute; reflexivity|].
  apply (resolve_records_agreed scalar_eqb) with (condition := ResolveMajority) (records := replica_answers).
  - intros [] []; cbn; try done; rewrite ?eqb_true_iff, ?Z.eqb_eq, ?String.eqb_eq; by intros ->.
  - intros [] [] []; cbn; try done; rewrite ?eqb_true_iff, ?Z.eqb_eq, ?String.eqb_eq; by intros -> ->.
  - discriminate.
  - repeat constructor; apply (bool_decide_unpack _); vm_compute; exact I.
  - intros r Hr. repeat (apply elem_of_cons in Hr as [->|Hr]; [vm_compute; reflexivity|]). by apply not_elem_of_nil in Hr.
Defined.
