(* ===== verification/Operations.v ===== *)
(** * Update operations

    Models the operations of [lib/collection/src/operations]
    ([point_ops.rs], [payload_ops.rs], [mod.rs], [operation_effect.rs]), how
    they are validated and split by shard, and the ring of
    [lib/collection/src/hash_ring.rs].  The crate [hashring] is the class
    [RingLib].  A [HashMap] that is consumed by iteration is read in the order
    of [map_to_list]. *)

From stdpp Require Import base gmap strings list pretty.
From Stdlib Require Import ZArith Lia.
From S2P Require Import Prelude Types NamedVectors Text Filters FieldIndexEnum.

Abbreviation ShardId := N (only parsing).

(** ** The hash ring *)

(** What [hashring::HashRing] offers to a ring of nodes [K]. *)
Class RingLib (K R : Type) := {
  lib_new : R;
  lib_add : K → R → R;
  lib_remove : K → R → option K * R;
  lib_get : R → PointIdType → option K;
}.

(** The documented behaviour the code relies on: a ring answers with one of
    the nodes that were added, and always when there is one. *)
Class RingLibLaws (K R : Type) `{!RingLib K R} := {
  lib_nodes : R → list K;
  lib_new_nodes : lib_nodes lib_new = [];
  lib_add_nodes k r k' : k' ∈ lib_nodes (lib_add k r) ↔ k' = k ∨ k' ∈ lib_nodes r;
  lib_get_node r key k : lib_get r key = Some k → k ∈ lib_nodes r;
  lib_get_nonempty r key : lib_nodes r ≠ [] → is_Some (lib_get r key);
}.

Section hash_ring.
Context {R1 R2 : Type} `{!RingLib ShardId R1, !RingLib (ShardId * N) R2}.

Inductive HashRing : Type :=
| Raw (ring : R1)
| Fair (ring : R2) (scale : N).

Definition ring_raw : HashRing := Raw lib_new.
Definition ring_fair (scale : N) : HashRing := Fair lib_new scale.

Definition ring_add (shard : ShardId) (self : HashRing) : HashRing :=
  match self with
  | Raw ring => Raw (lib_add shard ring)
  | Fair ring scale => Fair (fold_left (λ ring i, lib_add (shard, i) ring) (N.of_nat <$> seq 0 (N.to_nat scale)) ring) scale
  end.

Definition ring_remove (shard : ShardId) (self : HashRing) : bool * HashRing :=
  match self with
  | Raw ring => let '(removed, ring) := lib_remove shard ring in (bool_decide (is_Some removed), Raw ring)
  | Fair ring scale =>
      let '(removed, ring) := fold_left (λ acc i,
        let '(r, ring) := lib_remove (shard, i) acc.2 in
        (if decide (is_Some r) then true else acc.1, ring)) (N.of_nat <$> seq 0 (N.to_nat scale)) (false, ring) in
      (removed, Fair ring scale)
  end.

Definition ring_get (self : HashRing) (key : PointIdType) : option ShardId :=
  match self with
  | Raw ring => lib_get ring key
  | Fair ring _ => fst <$> lib_get ring key
  end.
End hash_ring.
Arguments HashRing : clear implicits.

(** ** Operations *)

Inductive WriteOrdering : Type := Weak | Medium | Strong.

Section operations.
Context {Num : Type}.
Abbreviation Payload := (Types.Payload Num).

Record PointStruct := mkPointStruct {
  pst_id : PointIdType;
  pst_vector : VectorStruct;
  pst_payload : option Payload;
}.

Record Batch := mkBatch {
  bt_ids : list PointIdType;
  bt_vectors : BatchVectorStruct;
  bt_payloads : option (list (option Payload));
}.

Definition batch_empty : Batch := mkBatch [] (BMulti ∅) (Some []).
Definition batch_empty_no_payload : Batch := mkBatch [] (BMulti ∅) None.

Record PointSyncOperation := mkSync {
  sy_from_id : option PointIdType;
  sy_to_id : option PointIdType;
  sy_points : list PointStruct;
}.

Inductive PointInsertOperations : Type :=
| PointsBatch (batch : Batch)
| PointsList (points : list PointStruct).

Inductive PointOperations : Type :=
| UpsertPoints (operation : PointInsertOperations)
| DeletePoints (ids : list PointIdType)
| DeletePointsByFilter (filter : Filter)
| SyncPoints (operation : PointSyncOperation).

Record SetPayload := mkSetPayload {
  sp_set : Payload;
  sp_points : option (list PointIdType);
  sp_filter : option Filter;
}.

Record DeletePayload := mkDeletePayload {
  dp_keys : list PayloadKeyType;
  dp_points : option (list PointIdType);
  dp_filter : option Filter;
}.

Inductive PayloadOps : Type :=
| PSetPayload (operation : SetPayload)
| PDeletePayload (operation : DeletePayload)
| PClearPayload (points : list PointIdType)
| PClearPayloadByFilter (filter : Filter)
| POverwritePayload (operation : SetPayload).

Record CreateIndex := mkCreateIndex {
  ci_field_name : PayloadKeyType;
  ci_field_schema : option PayloadFieldSchema;
}.

Inductive FieldIndexOperations : Type :=
| FCreateIndex (index : CreateIndex)
| FDeleteIndex (field_name : PayloadKeyType).

Inductive CollectionUpdateOperations : Type :=
| PointOperation (operation : PointOperations)
| PayloadOperation (operation : PayloadOps)
| FieldIndexOperation (operation : FieldIndexOperations).

(** [TryFrom<SetPayloadShadow>] and [TryFrom<DeletePayloadShadow>] *)
Definition selector_error : string := "Either list of point ids or filter must be provided".

Definition set_payload_try_from (value : SetPayload) : result string SetPayload :=
  if decide (is_Some (sp_points value) ∨ is_Some (sp_filter value)) then Ok value else Err selector_error.

Definition delete_payload_try_from (value : DeletePayload) : result string DeletePayload :=
  if decide (is_Some (dp_points value) ∨ is_Some (dp_filter value)) then Ok value else Err selector_error.

Definition get_vectors (self : PointStruct) : NamedVectors := vector_struct_into_all_vectors (pst_vector self).

Definition point_is_write (self : PointOperations) : bool :=
  match self with
  | UpsertPoints _ => true
  | DeletePoints _ => false
  | DeletePointsByFilter _ => false
  | SyncPoints _ => true
  end.

Definition payload_is_write (self : PayloadOps) : bool :=
  match self with
  | PSetPayload _ => true
  | PDeletePayload _ => false
  | PClearPayload _ => false
  | PClearPayloadByFilter _ => false
  | POverwritePayload _ => true
  end.

Definition field_index_is_write (self : FieldIndexOperations) : bool :=
  match self with FCreateIndex _ => true | FDeleteIndex _ => false end.

Definition is_write_operation (self : CollectionUpdateOperations) : bool :=
  match self with
  | PointOperation operation => point_is_write operation
  | PayloadOperation operation => payload_is_write operation
  | FieldIndexOperation operation => field_index_is_write operation
  end.

(** *** Validation *)

Definition ids_vectors_error (ids vecs : nat) : string :=
  "number of ids and vectors must be equal (" +:+ pretty ids +:+ " != " +:+ pretty vecs +:+ ")".

Definition ids_payloads_error (ids payloads : nat) : string :=
  "number of ids and payloads must be equal (" +:+ pretty ids +:+ " != " +:+ pretty payloads +:+ ")".

Definition check_column (ids : nat) (vectors : list VectorType) : result string unit :=
  if decide (ids ≠ length vectors) then Err (ids_vectors_error ids (length vectors)) else Ok tt.

Definition validate_insert (self : PointInsertOperations) : result string unit :=
  match self with
  | PointsList _ => Ok tt
  | PointsBatch batch =>
      let ids := length (bt_ids batch) in
      _ ← match bt_vectors batch with
          | BSingle vectors => check_column ids vectors
          | BMulti named_vectors => res_fold (λ kv _, check_column ids kv.2) (map_to_list named_vectors) tt
          end;
      match bt_payloads batch with
      | Some payload_vector =>
          if decide (length payload_vector ≠ ids)
          then Err (ids_payloads_error ids (length payload_vector)) else Ok tt
      | None => Ok tt
      end
  end.

Definition validate_point (self : PointOperations) : result string unit :=
  match self with
  | UpsertPoints upsert_points => validate_insert upsert_points
  | DeletePoints _ | DeletePointsByFilter _ | SyncPoints _ => Ok tt
  end.

(** The rows of a batch as points, as they are applied to a shard. *)
Definition points_from_batch (batch : Batch) : OperationResult (list PointStruct) :=
  let all_vectors := batch_into_all_vectors (bt_vectors batch) (length (bt_ids batch)) in
  let vectors_iter := zip (bt_ids batch) all_vectors in
  match bt_payloads batch with
  | None => res_map (λ p, v ← vector_struct_from p.2; Ok (mkPointStruct p.1 v None)) vectors_iter
  | Some payloads =>
      res_map (λ q, v ← vector_struct_from q.1.2; Ok (mkPointStruct q.1.1 v q.2)) (zip vectors_iter payloads)
  end.

(** *** Splitting by shard *)

Inductive OperationToShard (O : Type) : Type :=
| ByShard (operations : list (ShardId * O))
| ToAll (operation : O).
#[global] Arguments ByShard {O}.
#[global] Arguments ToAll {O}.

Definition to_none {O} : OperationToShard O := ByShard [].

Definition to_shard_map {O O2} (f : O → O2) (self : OperationToShard O) : OperationToShard O2 :=
  match self with
  | ByShard operation_to_shard => ByShard ((λ p, (p.1, f p.2)) <$> operation_to_shard)
  | ToAll to_all => ToAll (f to_all)
  end.

Context {R1 R2 : Type} `{!RingLib ShardId R1, !RingLib (ShardId * N) R2}.
Abbreviation Ring := (HashRing R1 R2).
Abbreviation Res := (result OperationError).

Definition point_to_shard (point_id : PointIdType) (ring : Ring) : Res ShardId := unwrap (ring_get ring point_id).

Definition split_iter_by_shard {O} (iter : list O) (id_extractor : O → PointIdType) (ring : Ring) :
    Res (OperationToShard (list O)) :=
  op_vec_by_shard ← res_fold (λ operation (m : gmap ShardId (list O)),
    shard_id ← point_to_shard (id_extractor operation) ring;
    Ok (<[shard_id := default [] (m !! shard_id) ++ [operation]]> m)) iter ∅;
  Ok (ByShard (map_to_list op_vec_by_shard)).

(** [single] and [multi] give the place of the vectors; the [panic] is not
    reached where they are used. *)
Definition push_single (vector : VectorType) (v : BatchVectorStruct) : Res BatchVectorStruct :=
  match v with
  | BSingle vs => Ok (BSingle (vs ++ [vector]))
  | BMulti m => vs ← unwrap (m !! DEFAULT_VECTOR_NAME); Ok (BMulti (<[DEFAULT_VECTOR_NAME := vs ++ [vector]]> m))
  end.

Definition push_multi (named_vector : NamedVectors) (v : BatchVectorStruct) : Res BatchVectorStruct :=
  match v with
  | BSingle _ => Panic
  | BMulti m => Ok (BMulti (fold_left (λ m nv, <[nv.1 := default [] (m !! nv.1) ++ [nv.2]]> m) named_vector m))
  end.

(** One row of the loops: the batch of its shard gets the id, the vectors and
    the payload; [with_payloads] tells the loops over three iterators from
    those over two. *)
Definition split_row {V} (with_payloads : bool) (empty : BatchVectorStruct)
    (push : V → BatchVectorStruct → Res BatchVectorStruct) (ring : Ring)
    (row : PointIdType * V * option Payload) (batch_by_shard : gmap ShardId Batch) : Res (gmap ShardId Batch) :=
  let '(id, vector, payload) := row in
  shard_id ← point_to_shard id ring;
  let batch := default (mkBatch [] empty (if with_payloads then Some [] else None)) (batch_by_shard !! shard_id) in
  vectors ← push vector (bt_vectors batch);
  payloads ← (if with_payloads then ps ← unwrap (bt_payloads batch); Ok (Some (ps ++ [payload]))
              else Ok (bt_payloads batch));
  Ok (<[shard_id := mkBatch (bt_ids batch ++ [id]) vectors payloads]> batch_by_shard).

Definition split_rows {V} (ids : list PointIdType) (vectors : list V) (payloads : option (list (option Payload))) :
    list (PointIdType * V * option Payload) :=
  match payloads with
  | Some payloads => zip (zip ids vectors) payloads
  | None => (λ p, (p, None)) <$> zip ids vectors
  end.

Definition split_batch (batch : Batch) (ring : Ring) : Res (OperationToShard Batch) :=
  let ids := bt_ids batch in
  let with_payloads := bool_decide (is_Some (bt_payloads batch)) in
  batch_by_shard ←
    match bt_vectors batch with
    | BSingle vectors =>
        res_fold (split_row with_payloads (BSingle []) push_single ring)
          (split_rows ids vectors (bt_payloads batch)) ∅
    | BMulti named_vectors =>
        let named_vectors_list :=
          if decide (named_vectors ≠ ∅) then transpose_map_into_named_vector named_vectors
          else replicate (length ids) [] in
        res_fold (split_row with_payloads (BMulti ∅) push_multi ring)
          (split_rows ids named_vectors_list (bt_payloads batch)) ∅
    end;
  Ok (ByShard (map_to_list batch_by_shard)).

Definition split_insert (self : PointInsertOperations) (ring : Ring) : Res (OperationToShard PointInsertOperations) :=
  match self with
  | PointsBatch batch => r ← split_batch batch ring; Ok (to_shard_map PointsBatch r)
  | PointsList list => r ← split_iter_by_shard list pst_id ring; Ok (to_shard_map PointsList r)
  end.

(** In a build without debug assertions. *)
Definition split_point (self : PointOperations) (ring : Ring) : Res (OperationToShard PointOperations) :=
  match self with
  | UpsertPoints upsert_points => r ← split_insert upsert_points ring; Ok (to_shard_map UpsertPoints r)
  | DeletePoints ids => r ← split_iter_by_shard ids (λ id, id) ring; Ok (to_shard_map DeletePoints r)
  | DeletePointsByFilter _ => Ok (ToAll self)
  | SyncPoints _ => Ok (ByShard [])
  end.

Definition split_delete_payload (self : DeletePayload) (ring : Ring) : Res (OperationToShard DeletePayload) :=
  match dp_points self, dp_filter self with
  | Some points, _ =>
      r ← split_iter_by_shard points (λ id, id) ring;
      Ok (to_shard_map (λ points, mkDeletePayload (dp_keys self) (Some points) (dp_filter self)) r)
  | None, Some _ => Ok (ToAll self)
  | None, None => Ok to_none
  end.

Definition split_set_payload (self : SetPayload) (ring : Ring) : Res (OperationToShard SetPayload) :=
  match sp_points self, sp_filter self with
  | Some points, _ =>
      r ← split_iter_by_shard points (λ id, id) ring;
      Ok (to_shard_map (λ points, mkSetPayload (sp_set self) (Some points) (sp_filter self)) r)
  | None, Some _ => Ok (ToAll self)
  | None, None => Ok to_none
  end.

Definition split_payload (self : PayloadOps) (ring : Ring) : Res (OperationToShard PayloadOps) :=
  match self with
  | PSetPayload operation => r ← split_set_payload operation ring; Ok (to_shard_map PSetPayload r)
  | PDeletePayload operation => r ← split_delete_payload operation ring; Ok (to_shard_map PDeletePayload r)
  | PClearPayload points => r ← split_iter_by_shard points (λ id, id) ring; Ok (to_shard_map PClearPayload r)
  | PClearPayloadByFilter _ => Ok (ToAll self)
  | POverwritePayload operation => r ← split_set_payload operation ring; Ok (to_shard_map POverwritePayload r)
  end.

Definition split_by_shard (self : CollectionUpdateOperations) (ring : Ring) :
    Res (OperationToShard CollectionUpdateOperations) :=
  match self with
  | PointOperation operation => r ← split_point operation ring; Ok (to_shard_map PointOperation r)
  | PayloadOperation operation => r ← split_payload operation ring; Ok (to_shard_map PayloadOperation r)
  | FieldIndexOperation _ => Ok (ToAll self)
  end.

(** *** What an operation touches *)

Inductive OperationEffectArea : Type :=
| EffectEmpty
| EffectPoints (points : list PointIdType)
| EffectFilter (filter : Filter).

Definition insert_effect_area (self : PointInsertOperations) : OperationEffectArea :=
  match self with
  | PointsBatch batch => EffectPoints (bt_ids batch)
  | PointsList list => EffectPoints (pst_id <$> list)
  end.

Definition point_effect_area (self : PointOperations) : OperationEffectArea :=
  match self with
  | UpsertPoints insert_operations => insert_effect_area insert_operations
  | DeletePoints ids => EffectPoints ids
  | DeletePointsByFilter filter => EffectFilter filter
  | SyncPoints sync_op => EffectPoints (pst_id <$> sy_points sync_op)
  end.

Definition selector_effect_area (points : option (list PointIdType)) (filter : option Filter) : OperationEffectArea :=
  match points, filter with
  | Some points, _ => EffectPoints points
  | None, Some filter => EffectFilter filter
  | None, None => EffectEmpty
  end.

Definition payload_effect_area (self : PayloadOps) : OperationEffectArea :=
  match self with
  | PSetPayload set_payload => selector_effect_area (sp_points set_payload) (sp_filter set_payload)
  | PDeletePayload delete_payload => selector_effect_area (dp_points delete_payload) (dp_filter delete_payload)
  | PClearPayload points => EffectPoints points
  | PClearPayloadByFilter filter => EffectFilter filter
  | POverwritePayload set_payload => selector_effect_area (sp_points set_payload) (sp_filter set_payload)
  end.

Definition estimate_effect_area (self : CollectionUpdateOperations) : OperationEffectArea :=
  match self with
  | PointOperation point_operation => point_effect_area point_operation
  | PayloadOperation payload_operation => payload_effect_area payload_operation
  | FieldIndexOperation _ => EffectEmpty
  end.
End operations.

(** ** Splitting is complete *)

Section ring_laws.
Context {R1 R2 : Type} `{!RingLib ShardId R1, !RingLibLaws ShardId R1}.
Context `{!RingLib (ShardId * N) R2, !RingLibLaws (ShardId * N) R2}.
Abbreviation Ring := (HashRing R1 R2).

Definition ring_shards (r : Ring) : list ShardId :=
  match r with Raw ring => lib_nodes ring | Fair ring _ => (lib_nodes ring).*1 end.

Definition ring_scaled (r : Ring) : Prop := match r with Raw _ => True | Fair _ scale => (0 < scale)%N end.

(** A ring to which shards are added. *)
Definition ring_of (r : Ring) (shards : list ShardId) : Ring := foldr ring_add r shards.

Lemma fair_add_nodes shard (l : list N) (ring : R2) k :
  k ∈ lib_nodes (fold_left (λ ring i, lib_add (shard, i) ring) l ring) ↔
    (∃ i, i ∈ l ∧ k = (shard, i)) ∨ k ∈ lib_nodes ring.
Proof using.
  revert ring. induction l as [|i l IH]; intros ring; cbn.
  - setoid_rewrite elem_of_nil. naive_solver.
  - rewrite IH, lib_add_nodes. setoid_rewrite elem_of_cons. naive_solver.
Qed.

Lemma ring_add_shards shard (r : Ring) s :
  ring_scaled r → s ∈ ring_shards (ring_add shard r) ↔ s = shard ∨ s ∈ ring_shards r.
Proof using.
  destruct r as [ring|ring scale]; cbn; intros Hs; [apply lib_add_nodes|].
  rewrite !list_elem_of_fmap. setoid_rewrite fair_add_nodes. split.
  - intros ([? j] & -> & [(i & _ & [= -> ->])|Hin]); [by left|right; eauto].
  - intros [->|(x & -> & Hin)]; [|eauto]. exists (shard, 0%N). split; [done|]. left. exists 0%N. split; [|done].
    apply list_elem_of_fmap. exists 0. split; [done|]. apply elem_of_seq. lia.
Qed.

Lemma ring_add_scaled shard (r : Ring) : ring_scaled (ring_add shard r) ↔ ring_scaled r.
Proof using. by destruct r. Qed.

Lemma ring_of_shards (r : Ring) shards s :
  ring_scaled r → (∀ s, s ∉ ring_shards r) → s ∈ ring_shards (ring_of r shards) ↔ s ∈ shards.
Proof using.
  intros Hs Hr. assert (ring_scaled (ring_of r shards)) as Hsc.
  { induction shards as [|x l IH]; cbn; [done|]. by apply ring_add_scaled. }
  induction shards as [|x l IH]; cbn in *; [specialize (Hr s); rewrite elem_of_nil; naive_solver|].
  apply ring_add_scaled in Hsc. rewrite ring_add_shards, IH by done. by rewrite elem_of_cons.
Qed.

Lemma ring_get_shard (r : Ring) key : ring_shards r ≠ [] → ∃ s, ring_get r key = Some s ∧ s ∈ ring_shards r.
Proof using.
  destruct r as [ring|ring scale]; cbn; intros Hne.
  - destruct (lib_get_nonempty ring key Hne) as [s Hs]. exists s. split; [done|]. by eapply lib_get_node.
  - destruct (lib_get_nonempty ring key) as [s Hs]; [by intros Hnil; rewrite Hnil in Hne|]. exists s.1.
    rewrite Hs. split; [done|]. apply list_elem_of_fmap. eexists. split; [done|]. by eapply lib_get_node.
Qed.
End ring_laws.

Section split_spec.
Context {Num R1 R2 : Type} `{!RingLib ShardId R1, !RingLib (ShardId * N) R2}.
Abbreviation Ring := (HashRing R1 R2).
Abbreviation Row V := (PointIdType * V * option (Types.Payload Num))%type.
Context (ring : Ring) (Hring : ∀ key, is_Some (ring_get ring key)).

(** The items of a shard. *)
Definition of_shard {O} (id : O → PointIdType) (s : ShardId) (l : list O) : list O :=
  base.filter (λ o, ring_get ring (id o) = Some s) l.

Lemma of_shard_snoc {O} (id : O → PointIdType) s s' l o :
  ring_get ring (id o) = Some s' →
  of_shard id s (l ++ [o]) = if decide (s = s') then of_shard id s l ++ [o] else of_shard id s l.
Proof using.
  intros Ho. unfold of_shard. rewrite filter_app, filter_cons, Ho. cbn.
  destruct (decide (s = s')) as [->|Hne].
  - by rewrite decide_True.
  - rewrite decide_False by congruence. apply app_nil_r.
Qed.

Lemma of_shard_cons {O} (id : O → PointIdType) s l o :
  of_shard id s (o :: l) = if decide (ring_get ring (id o) = Some s) then o :: of_shard id s l else of_shard id s l.
Proof using. unfold of_shard. by rewrite filter_cons. Qed.

Lemma elem_of_of_shard {O} (id : O → PointIdType) s l o :
  o ∈ of_shard id s l ↔ ring_get ring (id o) = Some s ∧ o ∈ l.
Proof using. unfold of_shard. by rewrite list_elem_of_filter. Qed.

Lemma split_iter_spec {O} (iter : list O) (id : O → PointIdType) :
  ∃ m : gmap ShardId (list O), split_iter_by_shard iter id ring = Ok (ByShard (map_to_list m)) ∧
    ∀ s, default [] (m !! s) = of_shard id s iter.
Proof using Hring.
  unfold split_iter_by_shard. match goal with |- context [res_fold ?f _ _] =>
    destruct (res_fold_inv f (λ pre m, ∀ s, default [] (m !! s) = of_shard id s pre) iter ∅) as (m & -> & Hm) end.
  - intros s. by rewrite lookup_empty.
  - intros pre o m _ Hm. unfold point_to_shard. destruct (Hring (id o)) as [s' Hs']. rewrite Hs'. cbn.
    eexists. split; [done|]. intros s. rewrite (of_shard_snoc _ _ s') by done.
    destruct (decide (s = s')) as [->|Hne].
    + rewrite lookup_insert_eq. cbn. by rewrite Hm.
    + by rewrite lookup_insert_ne.
  - exists m. done.
Qed.

(** *** Batches *)

(** The batch of the rows of one shard. *)
Definition sub_batch {V} (with_payloads : bool) (empty : BatchVectorStruct)
    (pushed : V → BatchVectorStruct → BatchVectorStruct) (rows : list (Row V)) : Batch :=
  mkBatch rows.*1.*1 (fold_left (λ b v, pushed v b) rows.*1.*2 empty)
    (if with_payloads then Some rows.*2 else None).

Definition shard_batch {V} (wp : bool) (empty : BatchVectorStruct) (pushed : V → BatchVectorStruct → BatchVectorStruct)
    (rows : list (Row V)) (s : ShardId) : option Batch :=
  let l := of_shard (λ row, row.1.1) s rows in
  if decide (l = []) then None else Some (sub_batch wp empty pushed l).

Lemma split_fold {V} wp empty (push : V → BatchVectorStruct → result OperationError BatchVectorStruct) pushed
    (good : BatchVectorStruct → Prop) (rows : list (Row V)) :
  good empty → (∀ v b, good b → push v b = Ok (pushed v b) ∧ good (pushed v b)) →
  ∃ m, res_fold (split_row wp empty push ring) rows ∅ = Ok m ∧
    ∀ s, m !! s = shard_batch wp empty pushed rows s.
Proof using Hring.
  intros Hgood Hpush. assert (∀ vs, good (fold_left (λ b v, pushed v b) vs empty)) as Hall.
  { intros vs. revert empty Hgood. induction vs as [|v vs IH]; intros b Hb; cbn; [done|]. by apply IH, Hpush. }
  apply (res_fold_inv _ (λ pre m, ∀ s, m !! s = shard_batch wp empty pushed pre s)); [done|].
  intros pre [[id v] p] m _ Hm. unfold split_row, point_to_shard. destruct (Hring id) as [s' Hs']. rewrite Hs'.
  cbn [unwrap mbind result_bind].
  assert (default (mkBatch [] empty (if wp then Some [] else None)) (m !! s') =
    sub_batch wp empty pushed (of_shard (λ row, row.1.1) s' pre)) as Hsub.
  { rewrite Hm. unfold shard_batch. cbn zeta. destruct (decide (_ = [])) as [->|]; [by destruct wp|done]. }
  rewrite Hsub. cbn [bt_vectors bt_ids bt_payloads sub_batch].
  rewrite (proj1 (Hpush _ _ (Hall _))). cbn [mbind result_bind].
  destruct wp; eexists; (split; [done|]); intros s; unfold shard_batch; rewrite (of_shard_snoc _ s s') by done; cbn zeta.
  all: destruct (decide (s = s')) as [->|Hne]; [|rewrite lookup_insert_ne by done; apply Hm].
  all: rewrite lookup_insert_eq, decide_False by (by intros []%app_nil); f_equal; unfold sub_batch.
  all: by rewrite !fmap_app, fold_left_app.
Qed.

(** The rows of a batch. *)
Definition batch_rows (b : Batch) : list (Row NamedVectors) :=
  split_rows (bt_ids b) (batch_into_all_vectors (bt_vectors b) (length (bt_ids b))) (bt_payloads b).

Lemma split_rows_back {V} wp (rows : list (Row V)) :
  (wp = false → Forall (λ row, row.2 = None) rows) →
  split_rows rows.*1.*1 rows.*1.*2 (if wp then Some rows.*2 else None) = rows.
Proof using.
  intros Hp. unfold split_rows. rewrite zip_fst_snd. destruct wp; [apply zip_fst_snd|].
  specialize (Hp eq_refl). induction Hp as [|[[id v] p] l Hx _ IH]; cbn in *; [done|]. by rewrite IH, Hx.
Qed.

(** Rows that stand for the same point. *)
Definition row_sim (r r' : Row NamedVectors) : Prop :=
  r.1.1 = r'.1.1 ∧ tm_view r.1.2 = tm_view r'.1.2 ∧ r.2 = r'.2.

Lemma split_rows_fmap {V W} (f : V → W) ids (vs : list V) (payloads : option (list (option (Types.Payload Num)))) :
  split_rows ids (f <$> vs) payloads = (λ r, (r.1.1, f r.1.2, r.2)) <$> split_rows ids vs payloads.
Proof using.
  unfold split_rows. destruct payloads as [ps|].
  - revert vs ps. induction ids as [|i ids IH]; intros [|v vs] [|p ps]; cbn; try done. by rewrite IH.
  - revert vs. induction ids as [|i ids IH]; intros [|v vs]; cbn; try done. by rewrite IH.
Qed.

Lemma split_rows_None {V} ids (vs : list V) wp (payloads : option (list (option (Types.Payload Num)))) :
  wp = bool_decide (is_Some payloads) → wp = false → Forall (λ row, row.2 = None) (split_rows ids vs payloads).
Proof using.
  intros ->. destruct payloads as [ps|]; cbn; [done|]. intros _. apply Forall_forall.
  by intros ? (? & -> & _)%list_elem_of_fmap.
Qed.

Lemma of_shard_fmap {O O'} (f : O → O') (id : O' → PointIdType) s l :
  of_shard id s (f <$> l) = f <$> of_shard (λ o, id (f o)) s l.
Proof using.
  unfold of_shard. induction l as [|o l IH]; [done|]. rewrite fmap_cons, !filter_cons.
  destruct (decide (ring_get ring (id (f o)) = Some s)); cbn; by rewrite IH.
Qed.

Definition pushed_single (v : VectorType) (b : BatchVectorStruct) : BatchVectorStruct :=
  match b with BSingle vs => BSingle (vs ++ [v]) | BMulti m => BMulti m end.

Lemma pushed_singles vs vs0 : fold_left (λ b v, pushed_single v b) vs (BSingle vs0) = BSingle (vs0 ++ vs).
Proof using.
  revert vs0. induction vs as [|v vs IH]; intros vs0; cbn; [by rewrite app_nil_r|]. rewrite IH. by rewrite <-app_assoc.
Qed.

(** The columns that rows are pushed into. *)
Definition push_row (named_vector : NamedVectors) (m : gmap string (list VectorType)) : gmap string (list VectorType) :=
  fold_left (λ m nv, <[nv.1 := default [] (m !! nv.1) ++ [nv.2]]> m) named_vector m.

Definition pushed_multi (nv : NamedVectors) (b : BatchVectorStruct) : BatchVectorStruct :=
  match b with BSingle vs => BSingle vs | BMulti m => BMulti (push_row nv m) end.

Lemma push_row_lookup nv m k :
  NoDup nv.*1 →
  push_row nv m !! k = match tm_view nv !! k with Some v => Some (default [] (m !! k) ++ [v]) | None => m !! k end.
Proof using.
  unfold push_row, tm_view. revert m. induction nv as [|[k' v'] nv IH]; intros m Hnd; [done|].
  apply NoDup_cons in Hnd as [Hk Hnd]. cbn. rewrite IH by done. destruct (decide (k = k')) as [->|Hne].
  - rewrite not_elem_of_list_to_map_1 by done. by rewrite !lookup_insert_eq.
  - by rewrite !lookup_insert_ne.
Qed.

Lemma push_rows_lookup (rows : list NamedVectors) m k :
  Forall (λ nv, NoDup nv.*1) rows →
  fold_left (λ m nv, push_row nv m) rows m !! k =
    match m !! k, omap (λ nv, tm_view nv !! k) rows with
    | None, [] => None
    | o, l => Some (default [] o ++ l)
    end.
Proof using.
  intros Hr. revert m. induction Hr as [|nv rows Hnv _ IH]; intros m; cbn.
  - destruct (m !! k); cbn; [by rewrite app_nil_r|done].
  - rewrite IH, push_row_lookup by done. destruct (tm_view nv !! k); [|done].
    cbn. rewrite <-app_assoc. by destruct (m !! k).
Qed.

Lemma pushed_multis rows m : fold_left (λ b v, pushed_multi v b) rows (BMulti m) = BMulti (fold_left (λ m nv, push_row nv m) rows m).
Proof using. revert m. induction rows as [|nv rows IH]; intros m; cbn; [done|]. apply IH. Qed.

Lemma omap_all_some {A B} (f : A → option B) l :
  (∀ y, y ∈ l → is_Some (f y)) →
  length (omap f l) = length l ∧ ∀ i x, l !! i = Some x → omap f l !! i = f x.
Proof using.
  induction l as [|y l IH]; intros Hall; [done|]. destruct (Hall y) as [b Hb]; [left|]. cbn. rewrite Hb. cbn.
  destruct IH as [IH1 IH2]; [intros; apply Hall; by right|]. split; [by rewrite IH1|].
  intros [|i] x Hi; cbn in *; [by simplify_eq|by apply IH2].
Qed.

(** The columns give the rows back. *)
Lemma rows_transposed (rows : list NamedVectors) (D : gset string) :
  rows ≠ [] → Forall (λ nv, NoDup nv.*1 ∧ dom (tm_view nv) = D) rows →
  let cols := fold_left (λ m nv, push_row nv m) rows ∅ in
  Forall2 (λ nv nv', tm_view nv = tm_view nv' ∧ NoDup nv.*1)
    (batch_into_all_vectors (BMulti cols) (length rows)) rows ∧
  ∀ k vs, cols !! k = Some vs → length vs = length rows.
Proof using.
  intros Hne Hrows cols. assert (Forall (λ nv, NoDup nv.*1) rows) as Hnd by (eapply Forall_impl; [done|naive_solver]).
  assert (∀ k, k ∈ D → ∀ nv, nv ∈ rows → is_Some (tm_view nv !! k)) as Hin.
  { intros k Hk nv [_ Hd]%(proj1 (Forall_forall _ _) Hrows). by rewrite <-elem_of_dom, Hd. }
  assert (∀ k, k ∉ D → ∀ nv, nv ∈ rows → tm_view nv !! k = None) as Hout.
  { intros k Hk nv [_ Hd]%(proj1 (Forall_forall _ _) Hrows). by rewrite <-not_elem_of_dom, Hd. }
  assert (∀ k, k ∉ D → omap (λ nv, tm_view nv !! k) rows = []) as Hnone.
  { intros k Hk. specialize (Hout k Hk). clear -Hout. induction rows as [|nv rows IH]; [done|]. cbn.
    rewrite Hout by left. apply IH. intros; apply Hout; by right. }
  assert (∀ k, cols !! k = if decide (k ∈ D) then Some (omap (λ nv, tm_view nv !! k) rows) else None) as Hcols.
  { intros k. unfold cols. rewrite push_rows_lookup, lookup_empty by done. cbn.
    destruct (decide (k ∈ D)) as [Hk|Hk]; [|by rewrite Hnone].
    destruct rows as [|nv rows]; [done|]. destruct (Hin k Hk nv) as [? Hx]; [left|]. cbn. by rewrite Hx. }
  assert (∀ k vs, cols !! k = Some vs → length vs = length rows) as Hlen.
  { intros k vs. rewrite Hcols. destruct (decide (k ∈ D)) as [Hk|]; [|done]. intros [= <-].
    apply (omap_all_some _ _ (Hin k Hk)). }
  split; [|done]. unfold batch_into_all_vectors. destruct (decide (cols = ∅)) as [He|He].
  - apply Forall2_same_length_lookup. rewrite length_replicate. split; [done|].
    intros i nv nv' Hnv Hi. apply lookup_replicate in Hnv as [-> _]. split; [|constructor].
    apply map_eq. intros k. unfold tm_view at 1. cbn. rewrite lookup_empty. symmetry.
    specialize (Hcols k). rewrite He, lookup_empty in Hcols. destruct (decide (k ∈ D)); [done|].
    apply Hout; [done|]. by eapply list_elem_of_lookup_2.
  - destruct (transpose_rows cols (length rows) He Hlen) as [Hl Hview].
    apply Forall2_same_length_lookup. split; [done|]. intros i nv nv' Hnv Hi.
    destruct (Hview _ _ Hnv) as [Hndv ->]. split; [|done]. apply map_eq. intros k.
    rewrite lookup_omap, Hcols. destruct (decide (k ∈ D)) as [Hk|Hk]; cbn.
    + by rewrite (proj2 (omap_all_some _ _ (Hin k Hk)) i nv' Hi).
    + rewrite Hout; [done|done|]. by eapply list_elem_of_lookup_2.
Qed.

Lemma check_column_Ok ids vs : check_column ids vs = Ok tt ↔ ids = length vs.
Proof using. unfold check_column. destruct (decide (ids ≠ length vs)) as [H|H]; [by split|]. destruct (decide (ids = length vs)); naive_solver. Qed.

Lemma validate_batch_Ok (b : Batch (Num:=Num)) :
  validate_insert (PointsBatch b) = Ok tt ↔
    match bt_vectors b with
    | BSingle vs => length vs = length (bt_ids b)
    | BMulti m => ∀ k vs, m !! k = Some vs → length vs = length (bt_ids b)
    end ∧ ∀ ps, bt_payloads b = Some ps → length ps = length (bt_ids b).
Proof using.
  unfold validate_insert. set (ids := length (bt_ids b)).
  assert (∀ l : list (string * list VectorType), res_fold (λ kv _, check_column ids kv.2) l tt = Ok tt ↔
    ∀ k vs, (k, vs) ∈ l → length vs = ids) as Hcols.
  { induction l as [|[k vs] l IH]; cbn; [split; [by intros _ ? ? ?%not_elem_of_nil|done]|].
    setoid_rewrite elem_of_cons. destruct (check_column ids vs) as [[]|e|] eqn:Hc; cbn.
    - apply check_column_Ok in Hc. rewrite IH. naive_solver.
    - split; [done|]. intros Hx. assert (check_column ids vs = Ok tt); [apply check_column_Ok; symmetry; eauto|congruence].
    - split; [done|]. intros Hx. assert (check_column ids vs = Ok tt); [apply check_column_Ok; symmetry; eauto|congruence]. }
  assert (∀ r : result string unit, (_ ← r; match bt_payloads b with
      | Some payload_vector => if decide (length payload_vector ≠ ids) then Err (ids_payloads_error ids (length payload_vector)) else Ok tt
      | None => Ok tt end) = Ok tt ↔ r = Ok tt ∧ ∀ ps, bt_payloads b = Some ps → length ps = ids) as Hps.
  { intros [[]|e|]; cbn; [|naive_solver..]. destruct (bt_payloads b) as [ps|]; [|naive_solver].
    destruct (decide (length ps ≠ ids)) as [Hd|Hd]; [naive_solver|]. destruct (decide (length ps = ids)); naive_solver. }
  rewrite Hps. f_equiv. destruct (bt_vectors b) as [vs|m]; [rewrite check_column_Ok; done|].
  rewrite Hcols. setoid_rewrite elem_of_map_to_list. done.
Qed.

Lemma row_sim_refl r : row_sim r r.
Proof using. done. Qed.

Lemma length_split_rows {V} ids (vs : list V) (payloads : option (list (option (Types.Payload Num)))) :
  length vs = length ids → (∀ ps, payloads = Some ps → length ps = length ids) →
  length (split_rows ids vs payloads) = length ids.
Proof using.
  intros Hv Hp. unfold split_rows. destruct payloads as [ps|].
  - specialize (Hp _ eq_refl). rewrite !length_zip. lia.
  - rewrite length_fmap, length_zip. lia.
Qed.

(** A sub-batch of rows, as rows again. *)
Lemma sub_rows wp av (rows : list (Row NamedVectors)) :
  (wp = false → Forall (λ row, row.2 = None) rows) →
  Forall2 (λ nv nv', tm_view nv = tm_view nv' ∧ NoDup nv.*1) av rows.*1.*2 →
  Forall2 row_sim (split_rows rows.*1.*1 av (if wp then Some rows.*2 else None)) rows.
Proof using.
  revert av. induction rows as [|[[id nv] p] rows IH]; intros av Hp Hv; cbn in Hv; [by destruct wp|].
  apply Forall2_cons_inv_r in Hv as (nv' & av' & [Hnv _] & Hv & ->). destruct wp; cbn; constructor; try done.
  - apply IH; done.
  - specialize (Hp eq_refl). apply Forall_cons in Hp as [Hp _]. by rewrite <-Hp.
  - apply IH; [|done]. intros _. specialize (Hp eq_refl). by apply Forall_cons in Hp as [_ Hp].
Qed.

Lemma of_shard_Forall {O} (P : O → Prop) (id : O → PointIdType) s l : Forall P l → Forall P (of_shard id s l).
Proof using. rewrite !Forall_forall. intros Hl x [_ Hx]%list_elem_of_filter. auto. Qed.

(** Rows of a batch that validates: the vectors of a row have no name twice. *)
Lemma multi_rows_dom (m : gmap string (list VectorType)) n :
  (∀ k vs, m !! k = Some vs → length vs = n) →
  let l := if decide (m ≠ ∅) then transpose_map_into_named_vector m else replicate n [] in
  Forall (λ nv, NoDup nv.*1 ∧ dom (tm_view nv) = dom m) l ∧ batch_into_all_vectors (BMulti m) n = l ∧ length l = n.
Proof using.
  intros Hm. unfold batch_into_all_vectors. destruct (decide (m = ∅)) as [->|Hne]; cbn zeta.
  - rewrite decide_False by naive_solver. split_and!; [|done|apply length_replicate].
    apply Forall_replicate. split; [constructor|done].
  - rewrite decide_True by done. destruct (transpose_rows m n Hne Hm) as [Hl Hr]. split_and!; [|done|done].
    apply Forall_lookup. intros i nv Hi. destruct (Hr _ _ Hi) as [? ->]. split; [done|]. apply set_eq. intros k.
    rewrite !elem_of_dom, lookup_omap. destruct (m !! k) as [vs|] eqn:Hk; cbn; [|done].
    split; [eauto|]. intros _. apply lookup_lt_is_Some. rewrite (Hm _ _ Hk), <-Hl. by eapply lookup_lt_Some.
Qed.

(** What splitting a batch gives, as rows. *)
Definition batch_split (b : Batch (Num:=Num)) : Prop :=
  Forall (λ r, NoDup r.1.2.*1) (batch_rows b) ∧
  ∃ m, split_batch b ring = Ok (ByShard (map_to_list m)) ∧
    (∀ s b', m !! s = Some b' → validate_insert (PointsBatch b') = Ok tt ∧ Forall (λ r, NoDup r.1.2.*1) (batch_rows b')) ∧
    ∀ s, Forall2 row_sim (match m !! s with Some b' => batch_rows b' | None => [] end)
           (of_shard (λ r, r.1.1) s (batch_rows b)).

Lemma validate_sub {V} (wp : bool) vectors (l : list (Row V)) :
  match vectors with
  | BSingle vs => length vs = length l
  | BMulti m => ∀ k vs, m !! k = Some vs → length vs = length l
  end →
  validate_insert (PointsBatch (mkBatch (Num:=Num) l.*1.*1 vectors (if wp then Some l.*2 else None))) = Ok tt.
Proof using.
  intros Hv. apply validate_batch_Ok. cbn. rewrite !length_fmap. split; [done|].
  destruct wp; [|done]. intros ps [= <-]. by rewrite length_fmap.
Qed.

Lemma split_single_batch ids vs (payloads : option (list (option (Types.Payload Num)))) :
  validate_insert (PointsBatch (mkBatch ids (BSingle vs) payloads)) = Ok tt →
  batch_split (mkBatch ids (BSingle vs) payloads).
Proof using Hring.
  intros [Hv Hp]%validate_batch_Ok. cbn in Hv, Hp. set (f := λ r : Row VectorType, (r.1.1, default_vector r.1.2, r.2)).
  assert (∀ rows : list (Row VectorType), Forall (λ r, NoDup r.1.2.*1) (f <$> rows)) as Hnd.
  { intros rows. apply Forall_fmap, Forall_true. intros r. cbn. constructor; [apply not_elem_of_nil|constructor]. }
  set (wp := bool_decide (is_Some payloads)).
  assert (∀ l, (wp = false → Forall (λ row, row.2 = None) l) →
    batch_rows (mkBatch l.*1.*1 (BSingle l.*1.*2) (if wp then Some l.*2 else None)) = f <$> l) as Hback.
  { intros l Hl. unfold batch_rows. cbn. rewrite split_rows_fmap, split_rows_back by done. done. }
  assert (batch_rows (mkBatch ids (BSingle vs) payloads) = f <$> split_rows ids vs payloads) as Hrows
    by apply split_rows_fmap.
  pose proof (split_rows_None ids vs wp payloads eq_refl) as Hnone.
  split; [rewrite Hrows; apply Hnd|].
  destruct (split_fold wp (BSingle []) push_single pushed_single (λ b, ∃ l, b = BSingle l) (split_rows ids vs payloads))
    as (m & Hm & Hlook); [eauto|by intros v ? [l ->]; eauto|].
  exists m. split_and!; [unfold split_batch; cbn zeta; cbn [bt_vectors bt_ids bt_payloads]; fold wp; by rewrite Hm| |].
  all: intros s; rewrite Hlook; unfold shard_batch, sub_batch; cbn zeta.
  all: set (l := of_shard _ s (split_rows ids vs payloads)).
  all: assert (wp = false → Forall (λ row, row.2 = None) l) as Hl by (intros; by apply of_shard_Forall, Hnone).
  - intros b'. destruct (decide (l = [])); [done|]. intros [= <-]. rewrite pushed_singles. cbn [app].
    split; [apply validate_sub; by rewrite !length_fmap|]. rewrite Hback by done. apply Hnd.
  - rewrite Hrows, of_shard_fmap. change (of_shard _ s _) with l.
    destruct (decide (l = [])) as [Hnil|]; [by rewrite Hnil|].
    rewrite pushed_singles. cbn [app]. rewrite Hback by done. by apply Forall_Forall2_diag, Forall_true.
Qed.

Lemma split_rows_vectors {V} (P : V → Prop) ids (vs : list V) (payloads : option (list (option (Types.Payload Num)))) :
  Forall P vs → Forall (λ r, P r.1.2) (split_rows ids vs payloads).
Proof using.
  rewrite !Forall_forall. intros Hvs [[id v] p] Hin. apply Hvs. unfold split_rows in Hin. destruct payloads as [ps|].
  - apply elem_of_zip_l in Hin. by apply elem_of_zip_r in Hin.
  - apply list_elem_of_fmap in Hin as ([id' v'] & [= -> -> ->] & Hin). by apply elem_of_zip_r in Hin.
Qed.

Lemma split_multi_batch ids (m0 : gmap string (list VectorType)) (payloads : option (list (option (Types.Payload Num)))) :
  validate_insert (PointsBatch (mkBatch ids (BMulti m0) payloads)) = Ok tt →
  batch_split (mkBatch ids (BMulti m0) payloads).
Proof using Hring.
  intros [Hv Hp]%validate_batch_Ok. cbn in Hv, Hp. destruct (multi_rows_dom m0 (length ids) Hv) as (Hdom & Hall & _).
  set (av := if decide (m0 ≠ ∅) then _ else _) in *. set (wp := bool_decide (is_Some payloads)).
  assert (batch_rows (mkBatch ids (BMulti m0) payloads) = split_rows ids av payloads) as Hrows.
  { unfold batch_rows. cbn [bt_ids bt_vectors bt_payloads]. by rewrite Hall. }
  pose proof (split_rows_None ids av wp payloads eq_refl) as Hnone.
  pose proof (split_rows_vectors _ ids av payloads Hdom) as Hgood.
  split; [rewrite Hrows; eapply Forall_impl; [exact Hgood|naive_solver]|].
  destruct (split_fold wp (BMulti ∅) push_multi pushed_multi (λ b, ∃ m, b = BMulti m) (split_rows ids av payloads))
    as (m & Hm & Hlook); [eauto|by intros v ? [l ->]; eauto|].
  exists m. split_and!; [unfold split_batch; cbn zeta; cbn [bt_vectors bt_ids bt_payloads]; fold wp av; by rewrite Hm| |].
  all: intros s; rewrite Hlook; unfold shard_batch, sub_batch; cbn zeta.
  all: set (l := of_shard _ s (split_rows ids av payloads)).
  all: assert (wp = false → Forall (λ row, row.2 = None) l) as Hl by (intros; by apply of_shard_Forall, Hnone).
  all: assert (Forall (λ nv, NoDup nv.*1 ∧ dom (tm_view nv) = dom m0) l.*1.*2) as Hl2
    by (rewrite !Forall_fmap; by apply of_shard_Forall).
  all: rewrite pushed_multis.
  - intros b'. destruct (decide (l = [])) as [|Hne]; [done|]. intros [= <-].
    destruct (rows_transposed l.*1.*2 (dom m0)) as [Hsim Hlen]; [by intros ?%fmap_nil_inv%fmap_nil_inv|done|].
    rewrite !length_fmap in Hlen. split; [by apply validate_sub|].
    unfold batch_rows. cbn [bt_ids bt_vectors bt_payloads]. apply (split_rows_vectors (λ nv : NamedVectors, NoDup nv.*1)).
    eapply Forall2_Forall_l; [rewrite !length_fmap in *; exact Hsim|]. apply Forall_true. naive_solver.
  - rewrite Hrows. fold l. destruct (decide (l = [])) as [Hnil|Hne]; [by rewrite Hnil|].
    destruct (rows_transposed l.*1.*2 (dom m0)) as [Hsim _]; [by intros ?%fmap_nil_inv%fmap_nil_inv|done|].
    unfold batch_rows. cbn [bt_ids bt_vectors bt_payloads]. apply sub_rows; [done|].
    by rewrite !length_fmap in *.
Qed.

Lemma split_batch_spec (b : Batch (Num:=Num)) : validate_insert (PointsBatch b) = Ok tt → batch_split b.
Proof using Hring. destruct b as [ids [vs|m] ps]; [apply split_single_batch|apply split_multi_batch]. Qed.

(** *** As points *)

Definition row_point (r : Row NamedVectors) (p : PointStruct) : Prop :=
  pst_id p = r.1.1 ∧ tm_view (get_vectors p) = tm_view r.1.2 ∧ pst_payload p = r.2.

Lemma points_from_rows (b : Batch (Num:=Num)) :
  Forall (λ r, NoDup r.1.2.*1) (batch_rows b) →
  ∃ pts, points_from_batch b = Ok pts ∧ Forall2 row_point (batch_rows b) pts.
Proof using.
  assert (∀ l : list (Row NamedVectors), Forall (λ r, NoDup r.1.2.*1) l →
    ∃ pts, res_map (λ q : Row NamedVectors, v ← vector_struct_from q.1.2; Ok (mkPointStruct q.1.1 v q.2)) l = Ok pts ∧
    Forall2 row_point l pts) as H.
  { induction 1 as [|[[id nv] p] l Hnd _ (pts & IH & Hpts)]; [by exists []|]. cbn in Hnd.
    destruct (vector_struct_from_view nv Hnd) as (v & Hv & _ & Hview). cbn. rewrite Hv. cbn. rewrite IH.
    eexists. split; [done|]. by constructor. }
  unfold points_from_batch, batch_rows, split_rows. destruct (bt_payloads b) as [ps|]; [apply H|].
  intros Hnd. destruct (H _ Hnd) as (pts & Hres & Hpts). exists pts. split; [|done]. rewrite <-Hres.
  clear. induction (zip _ _) as [|[id nv] l IH]; [done|]. cbn. destruct (vector_struct_from nv); [|done..]. cbn. by rewrite IH.
Qed.
End split_spec.

(** ** Properties *)

(** The points an insertion holds. *)
Definition insert_points {Num} (op : PointInsertOperations (Num:=Num)) : OperationResult (list PointStruct) :=
  match op with PointsBatch batch => points_from_batch batch | PointsList points => Ok points end.

(** Points that write the same data. *)
Definition point_sim {Num} (p q : PointStruct (Num:=Num)) : Prop :=
  pst_id p = pst_id q ∧ tm_view (get_vectors p) = tm_view (get_vectors q) ∧ pst_payload p = pst_payload q.

Lemma rows_points_sim {Num R1 R2} `{!RingLib ShardId R1, !RingLib (ShardId * N) R2} (ring : HashRing R1 R2) s
    (rows rows' : list (PointIdType * NamedVectors * option (Types.Payload Num))) pts pts' :
  Forall2 row_point rows pts → Forall2 row_point rows' pts' →
  Forall2 row_sim rows (of_shard ring (λ r, r.1.1) s rows') → Forall2 point_sim pts (of_shard ring pst_id s pts').
Proof.
  intros Hp Hp'. revert rows pts Hp. induction Hp' as [|r p rows' pts' (Hid & Hv & Hpl) _ IH]; intros rows pts Hp Hsim.
  { cbn in Hsim. apply Forall2_nil_inv_r in Hsim as ->. apply Forall2_nil_inv_l in Hp as ->. constructor. }
  rewrite of_shard_cons in Hsim. rewrite of_shard_cons, Hid.
  destruct (decide (ring_get ring r.1.1 = Some s)); [|by apply (IH rows)].
  apply Forall2_cons_inv_r in Hsim as (r2 & rows2 & (H1 & H2 & H3) & Hsim & ->).
  apply Forall2_cons_inv_l in Hp as (p2 & pts2 & (H4 & H5 & H6) & Hp & ->).
  constructor; [|by apply (IH rows2)]. split_and!; congruence.
Qed.

Lemma to_shard_map_view {O O2} (f : O → O2) (m : gmap ShardId O) :
  ∃ l, to_shard_map f (ByShard (map_to_list m)) = ByShard l ∧ NoDup l.*1 ∧
    ∀ s, (list_to_map l : gmap ShardId O2) !! s = f <$> m !! s.
Proof.
  eexists. split; [done|]. split.
  - rewrite <-list_fmap_compose. cbn. apply NoDup_fst_map_to_list.
  - intros s. change (λ p : ShardId * O, (p.1, f p.2)) with (prod_map (B:=O) (@id ShardId) f).
    by rewrite list_to_map_fmap, list_to_map_to_list, lookup_fmap.
Qed.

Section split_upsert.
Context {Num R1 R2 : Type} `{!RingLib ShardId R1, !RingLibLaws ShardId R1}.
Context `{!RingLib (ShardId * N) R2, !RingLibLaws (ShardId * N) R2}.

(** C24: splitting an insertion by shard loses, adds and misplaces nothing.
    For an operation that validates, a list of points or a batch, and a ring
    to which at least one shard was added, the split never panics, names each
    shard at most once and only shards of the ring, every part validates
    again, and the points of the part for a shard are, in their order, the
    points of the operation whose id the ring gives to that shard. *)
Theorem split_upsert_complete (r0 : HashRing R1 R2) (shards : list ShardId) (op : PointInsertOperations (Num:=Num)) :
  ring_scaled r0 → (∀ s, s ∉ ring_shards r0) → shards ≠ [] → validate_insert op = Ok tt →
  let ring := ring_of r0 shards in
  ∃ l pts, split_insert op ring = Ok (ByShard l) ∧ insert_points op = Ok pts ∧ NoDup l.*1 ∧
    ∀ s, ∃ sub,
      match (list_to_map l : gmap ShardId PointInsertOperations) !! s with
      | Some op' => validate_insert op' = Ok tt ∧ insert_points op' = Ok sub
      | None => sub = []
      end ∧ Forall2 point_sim sub (of_shard ring pst_id s pts) ∧ (sub ≠ [] → s ∈ shards).
Proof using RingLibLaws0 RingLibLaws1.
  intros Hsc Hempty Hne Hval ring. assert (ring_shards ring ≠ []) as Hnn.
  { destruct shards as [|x l]; [done|]. intros Hnil. apply (not_elem_of_nil x). rewrite <-Hnil.
    apply ring_of_shards; [done..|left]. }
  assert (∀ key, ∃ s, ring_get ring key = Some s ∧ s ∈ shards) as Hget.
  { intros key. destruct (ring_get_shard ring key Hnn) as (s & Hs & Hin). exists s. split; [done|].
    by apply (ring_of_shards r0). }
  assert (∀ key, is_Some (ring_get ring key)) as Hring by (intros key; destruct (Hget key) as (s & -> & _); eauto).
  assert (∀ sub pts s, Forall2 (point_sim (Num:=Num)) sub (of_shard ring pst_id s pts) → sub ≠ [] → s ∈ shards) as Hshard.
  { intros sub pts s Hsub Hs. destruct (of_shard ring pst_id s pts) as [|q pts'] eqn:Hq.
    - by apply Forall2_nil_inv_r in Hsub as ->.
    - destruct (Hget (pst_id q)) as (s' & Hs' & Hin).
      assert (q ∈ of_shard ring pst_id s pts) as [Hq' _]%elem_of_of_shard by (rewrite Hq; left). congruence. }
  destruct op as [b|pts]; cbn [split_insert insert_points].
  - destruct (split_batch_spec ring Hring b Hval) as (Hnd & m & Hm & Hsub & Hrows).
    destruct (points_from_rows b Hnd) as (pts & Hpts & Hrp). destruct (to_shard_map_view PointsBatch m) as (l & Hl & Hndl & Hlook).
    exists l, pts. rewrite Hm. cbn [mbind result_bind]. rewrite Hl. split_and!; [done..|]. intros s.
    specialize (Hrows s). rewrite Hlook. destruct (m !! s) as [b'|] eqn:Hs; cbn.
    + destruct (Hsub s b' Hs) as [Hv' Hnd']. destruct (points_from_rows b' Hnd') as (sub & Hsb & Hrp').
      exists sub. assert (Forall2 point_sim sub (of_shard ring pst_id s pts)) as Hsim by (by eapply rows_points_sim).
      split_and!; [done|done|done|by eapply Hshard].
    + exists []. split_and!; [done| |done]. eapply rows_points_sim; [|done..]. constructor.
  - destruct (split_iter_spec ring Hring pts pst_id) as (m & Hm & Hlook0).
    destruct (to_shard_map_view (PointsList (Num:=Num)) m) as (l & Hl & Hndl & Hlook).
    exists l, pts. rewrite Hm. cbn [mbind result_bind]. rewrite Hl. split_and!; [done..|]. intros s.
    exists (default [] (m !! s)). rewrite Hlook, Hlook0.
    assert (Forall2 (point_sim (Num:=Num)) (of_shard ring pst_id s pts) (of_shard ring pst_id s pts)) as Hsim
      by (by apply Forall_Forall2_diag, Forall_true).
    split_and!; [|done|by eapply Hshard]. specialize (Hlook0 s). destruct (m !! s); cbn in *; by subst.
Qed.
End split_upsert.

(** A ring that reads the id of a point modulo the number of nodes. *)
Definition id_number (id : PointIdType) : N := match id with NumId n => n | Uuid u => u end.

#[local] Instance mod_ring K `{!EqDecision K} : RingLib K (list K) := {|
  lib_new := [];
  lib_add k r := r ++ [k];
  lib_remove k r := (if decide (k ∈ r) then Some k else None, base.filter (λ k', k' ≠ k) r);
  lib_get r key := r !! (N.to_nat (id_number key) mod length r)%nat;
|}.

#[local] Instance mod_ring_laws K `{!EqDecision K} : RingLibLaws K (list K).
Proof.
  refine {| lib_nodes := λ r, r |}.
  - done.
  - intros k r k'. cbn. rewrite elem_of_app, list_elem_of_singleton. naive_solver.
  - intros r key k. cbn. apply list_elem_of_lookup_2.
  - intros r key Hne. cbn. apply lookup_lt_is_Some. apply Nat.mod_upper_bound. by destruct r.
Defined.

Definition sample_insert : PointInsertOperations (Num:=Z) :=
  PointsBatch (mkBatch [NumId 0; NumId 1; NumId 2] (BMulti {[ "a"%string := [[]; []; []] ]}) None).

Lemma split_upsert_complete_witness : ∃ l,
  split_insert sample_insert (ring_of (ring_raw (R2:=list (N * N))) [7%N; 8%N]) = Ok (ByShard l) ∧ NoDup l.*1.
Proof.
  destruct (split_upsert_complete (ring_raw (R2:=list (N * N))) [7%N; 8%N] sample_insert) as (l & pts & H1 & _ & H2 & _).
  - exact I.
  - intros s. apply not_elem_of_nil.
  - done.
  - vm_compute. reflexivity.
  - exists l. split; [exact H1|exact H2].
Defined.
