(* ===== verification/SegmentsUpdater.v ===== *)
(** * Updates of a shard's segments

    Models [lib/collection/src/collection_manager/segments_updater.rs] on top
    of the holder of segments.  The choices that the holder makes (locks and
    random segments) are arguments.  [debug_assert] is left out. *)

From stdpp Require Import base gmap strings list sorting.
From Stdlib Require Import ZArith Lia SpecFloat.
From S2P Require Import Prelude Types Rocks NamedVectors Text Filters FieldIndexEnum Segment SegmentEntry SegmentHolder Operations.

(** [Vec<f32>] equality. *)
Fixpoint vector_eqb (v w : VectorType) : bool :=
  match v, w with
  | [], [] => true
  | x :: v, y :: w => SFeqb x y && vector_eqb v w
  | _, _ => false
  end.

Section updater.
Context {Num SP E : Type} `{!EqDecision Num} `{!SegmentEntry Num SP E}.
Context (display_id : PointIdType → string).
Context (try_lock : SegmentId → bool) (choose : list SegmentId → option SegmentId).
Abbreviation Holder := (SegmentHolder E).
Abbreviation Upd := (sm Holder CollectionError).
Abbreviation Points := (gmap PointIdType (PointStruct (Num:=Num))).

(** Runs an operation of the holder; [?] converts its error. *)
Definition run_holder {X A} (x : X) (m : sm (Holder * X) OperationError A) : Upd (A * X) := λ h,
  match m (h, x) with
  | (Ok a, (h, x)) => (Ok (a, x), h)
  | (Err e, (h, _)) => (Err (collection_error display_id e), h)
  | (Panic, (h, _)) => (Panic, h)
  end.

Definition run_op {A} (m : sm Holder OperationError A) : Upd A := λ h,
  match m h with
  | (Ok a, h) => (Ok a, h)
  | (Err e, h) => (Err (collection_error display_id e), h)
  | (Panic, h) => (Panic, h)
  end.

Definition check_unprocessed_points (points : list PointIdType) (processed : gset PointIdType) : CollectionResult nat :=
  let unprocessed_points := base.filter (λ p, p ∉ processed) points in
  match head unprocessed_points with
  | None => Ok (size processed)
  | Some missed_point => Err (PointNotFound missed_point)
  end.

Definition delete_points (op_num : SeqNumberType) (ids : list PointIdType) : Upd nat :=
  r ← run_holder tt (apply_points (Num:=Num) (SP:=SP) ids
        (λ id idx, on_segment idx (se_delete_point (Num:=Num) (SP:=SP) op_num id)));
  mret r.1.

(** The common end of the payload operations. *)
Definition apply_checked (op_num : SeqNumberType) (points : list PointIdType)
    (f : PointIdType → sm E OperationError bool) : Upd nat :=
  updated_points ← run_op (apply_points_to_appendable (Num:=Num) (SP:=SP) try_lock choose op_num points f);
  _ ← sm_lift (check_unprocessed_points points updated_points);
  mret (size updated_points).

Definition overwrite_payload (op_num : SeqNumberType) (payload : Payload Num) (points : list PointIdType) : Upd nat :=
  apply_checked op_num points (λ id, _ ← se_set_full_payload (SP:=SP) op_num id payload; mret true).

Definition set_payload (op_num : SeqNumberType) (payload : Payload Num) (points : list PointIdType) : Upd nat :=
  apply_checked op_num points (λ id, _ ← se_set_payload (SP:=SP) op_num id payload; mret true).

Definition points_by_filter (filter : Filter) : Upd (list PointIdType) :=
  r ← run_holder [] (for_each_segment (λ s affected_points,
        match se_read_filtered (Num:=Num) (SP:=SP) s None None (Some filter) with
        | Ok points => (Ok true, affected_points ++ points)
        | Err e => (Err e, affected_points)
        | Panic => (Panic, affected_points)
        end));
  mret r.2.

Definition overwrite_payload_by_filter (op_num : SeqNumberType) (payload : Payload Num) (filter : Filter) : Upd nat :=
  affected_points ← points_by_filter filter;
  overwrite_payload op_num payload affected_points.

Definition set_payload_by_filter (op_num : SeqNumberType) (payload : Payload Num) (filter : Filter) : Upd nat :=
  affected_points ← points_by_filter filter;
  set_payload op_num payload affected_points.

Definition delete_payload (op_num : SeqNumberType) (points : list PointIdType) (keys : list PayloadKeyType) : Upd nat :=
  apply_checked op_num points (λ id,
    sm_fold (λ key res, r ← se_delete_payload (Num:=Num) (SP:=SP) op_num id key; mret (r && res)) keys true).

Definition delete_payload_by_filter (op_num : SeqNumberType) (filter : Filter) (keys : list PayloadKeyType) : Upd nat :=
  affected_points ← points_by_filter filter;
  delete_payload op_num affected_points keys.

Definition clear_payload (op_num : SeqNumberType) (points : list PointIdType) : Upd nat :=
  apply_checked op_num points (λ id, se_clear_payload (Num:=Num) (SP:=SP) op_num id).

Definition clear_payload_by_filter (op_num : SeqNumberType) (filter : Filter) : Upd nat :=
  points_to_clear ← points_by_filter filter;
  updated_points ← run_op (apply_points_to_appendable (Num:=Num) (SP:=SP) try_lock choose op_num points_to_clear
                             (λ id, se_clear_payload (Num:=Num) (SP:=SP) op_num id));
  mret (size updated_points).

Definition create_field_index (op_num : SeqNumberType) (field_name : PayloadKeyType)
    (field_schema : option PayloadFieldSchema) : Upd nat :=
  r ← run_holder tt (apply_segments (sm_zoom fst (λ e p, (e, p.2))
        (se_create_field_index (Num:=Num) (SP:=SP) op_num field_name field_schema)));
  mret r.1.

Definition delete_field_index (op_num : SeqNumberType) (field_name : PayloadKeyType) : Upd nat :=
  r ← run_holder tt (apply_segments (sm_zoom fst (λ e p, (e, p.2))
        (se_delete_field_index (Num:=Num) (SP:=SP) op_num field_name)));
  mret r.1.

Definition upsert_with_payload (op_num : SeqNumberType) (point_id : PointIdType) (vectors : NamedVectors)
    (payload : option (Payload Num)) : sm E OperationError bool :=
  res ← se_upsert_vector (Num:=Num) (SP:=SP) op_num point_id vectors;
  match payload with
  | Some full_payload =>
      r ← se_set_full_payload (SP:=SP) op_num point_id full_payload;
      mret (res && r)
  | None => mret res
  end.

(** [collect] into a [HashMap]: the last point with an id stays. *)
Definition points_map (points : list (PointStruct (Num:=Num))) : Points :=
  fold_left (λ m p, <[pst_id p := p]> m) points ∅.

(** [points_map\[&id\]]: panics on a missing key. *)
Definition upsert_point (points_map : Points) (op_num : SeqNumberType) (id : PointIdType) : sm E OperationError bool :=
  point ← sm_lift (unwrap (points_map !! id));
  upsert_with_payload op_num id (get_vectors point) (pst_payload point).

Definition upsert_points (op_num : SeqNumberType) (points : list (PointStruct (Num:=Num))) : Upd nat :=
  let points_map := points_map points in
  let ids := (map_to_list points_map).*1 in
  updated_points ← run_op (apply_points_to_appendable (Num:=Num) (SP:=SP) try_lock choose op_num ids
                             (upsert_point points_map op_num));
  let res := size updated_points in
  let new_point_ids := base.filter (λ x, x ∉ updated_points) ids in
  h ← sm_get;
  default_write_segment ←
    match random_appendable_segment (Num:=Num) (SP:=SP) choose h with
    | Some idx => mret idx
    | None => sm_fail (CServiceError "No segments exists, expected at least one")
    end;
  r ← run_holder tt (sm_fold (λ point_id res,
        r ← on_segment default_write_segment (upsert_point points_map op_num point_id);
        mret (res + Nat.b2n r)) new_point_ids res);
  mret r.1.

(** The closure of [sync_points]; it captures the points to update. *)
Definition sync_changed (id_to_point : Points) (id : PointIdType) (segment : E) :
    sm (list (PointStruct (Num:=Num))) OperationError bool :=
  all_vectors ← sm_lift (se_all_vectors (Num:=Num) (SP:=SP) segment id);
  payload ← sm_lift (se_payload (Num:=Num) (SP:=SP) segment id);
  point ← sm_lift (unwrap (id_to_point !! id));
  if negb (tm_eq vector_eqb (get_vectors point) all_vectors)
  then _ ← sm_modify (λ points_to_update, points_to_update ++ [point]); mret true
  else
    let payload_match := bool_decide (default ∅ (pst_payload point) = payload) in
    if negb payload_match then _ ← sm_modify (λ points_to_update, points_to_update ++ [point]); mret true
    else mret false.

Definition sync_points (op_num : SeqNumberType) (from_id to_id : option PointIdType)
    (points : list (PointStruct (Num:=Num))) : Upd (nat * nat * nat) :=
  let id_to_point := points_map points in
  let sync_points : gset PointIdType := list_to_set (pst_id <$> points) in
  h ← sm_get;
  let stored_point_ids : gset PointIdType :=
    list_to_set (map_to_list (segments h) ≫= λ p, se_read_range (Num:=Num) (SP:=SP) p.2 from_id to_id) in
  let points_to_remove := elements (stored_point_ids ∖ sync_points) in
  deleted ← delete_points op_num points_to_remove;
  let existing_point_ids := elements (stored_point_ids ∩ sync_points) in
  r ← run_holder [] (read_points (Num:=Num) (SP:=SP) existing_point_ids (sync_changed id_to_point));
  let points_to_update := r.2 in
  let num_updated := length points_to_update in
  let new_ids := elements (sync_points ∖ stored_point_ids) in
  let num_new := length new_ids in
  new_points ← sm_lift (res_map (λ id, unwrap (id_to_point !! id)) new_ids);
  _ ← upsert_points op_num (points_to_update ++ new_points);
  mret (deleted, num_new, num_updated).

Definition delete_points_by_filter (op_num : SeqNumberType) (filter : Filter) : Upd nat :=
  r ← run_holder 0 (apply_segments (λ p,
        match se_delete_filtered (Num:=Num) (SP:=SP) op_num filter p.1 with
        | (Ok n, s) => (Ok true, (s, p.2 + n))
        | (Err e, s) => (Err e, (s, p.2))
        | (Panic, s) => (Panic, (s, p.2))
        end));
  mret r.2.

Definition process_point_operation (op_num : SeqNumberType) (point_operation : PointOperations (Num:=Num)) : Upd nat :=
  match point_operation with
  | DeletePoints ids => delete_points op_num ids
  | UpsertPoints operation =>
      points ← sm_lift (match insert_points operation with
                        | Ok points => Ok points
                        | Err e => Err (collection_error display_id e)
                        | Panic => Panic
                        end);
      upsert_points op_num points
  | DeletePointsByFilter filter => delete_points_by_filter op_num filter
  | SyncPoints operation =>
      r ← sync_points op_num (sy_from_id operation) (sy_to_id operation) (sy_points operation);
      let '(deleted, new, updated) := r in
      mret (deleted + new + updated)
  end.

Definition no_selector : CollectionError := BadRequest "No points or filter specified".

Definition process_payload_operation (op_num : SeqNumberType) (payload_operation : PayloadOps (Num:=Num)) : Upd nat :=
  match payload_operation with
  | PSetPayload sp =>
      match sp_points sp, sp_filter sp with
      | Some points, _ => set_payload op_num (sp_set sp) points
      | None, Some filter => set_payload_by_filter op_num (sp_set sp) filter
      | None, None => sm_fail no_selector
      end
  | PDeletePayload dp =>
      match dp_points dp, dp_filter dp with
      | Some points, _ => delete_payload op_num points (dp_keys dp)
      | None, Some filter => delete_payload_by_filter op_num filter (dp_keys dp)
      | None, None => sm_fail no_selector
      end
  | PClearPayload points => clear_payload op_num points
  | PClearPayloadByFilter filter => clear_payload_by_filter op_num filter
  | POverwritePayload sp =>
      match sp_points sp, sp_filter sp with
      | Some points, _ => overwrite_payload op_num (sp_set sp) points
      | None, Some filter => overwrite_payload_by_filter op_num (sp_set sp) filter
      | None, None => sm_fail no_selector
      end
  end.

Definition process_field_index_operation (op_num : SeqNumberType) (op : FieldIndexOperations) : Upd nat :=
  match op with
  | FCreateIndex index_data => create_field_index op_num (ci_field_name index_data) (ci_field_schema index_data)
  | FDeleteIndex field_name => delete_field_index op_num field_name
  end.

(** ** The whole update, with its failure (collection_updater.rs) *)

(** Operations that failed with a service error are kept for recovery;
    a success takes the operation off that list. *)
Definition handle_update_result (op_num : SeqNumberType) (operation_result : CollectionResult nat) (h : Holder) : Holder :=
  match operation_result with
  | Ok _ =>
      if decide (failed_operation h ≠ ∅)
      then mkHolder (segments h) (failed_operation h ∖ {[ op_num ]}) (optimizer_errors h) else h
  | Err (CServiceError _) => mkHolder (segments h) ({[ op_num ]} ∪ failed_operation h) (optimizer_errors h)
  | _ => h
  end.

Definition update (op_num : SeqNumberType) (operation : CollectionUpdateOperations (Num:=Num)) : Upd nat := λ h,
  let '(operation_result, h) :=
    match operation with
    | PointOperation point_operation => process_point_operation op_num point_operation h
    | PayloadOperation payload_operation => process_payload_operation op_num payload_operation h
    | FieldIndexOperation index_operation => process_field_index_operation op_num index_operation h
    end in
  (operation_result, handle_update_result op_num operation_result h).
End updater.
