(* ===== verification/UpdaterSpec.v ===== *)
(** * Correctness of updates

    Theorems about the updates of a shard ([SegmentsUpdater.v]) for every
    implementation of the segments it holds: a point is in one segment, an
    update reaches it there, and a point in a segment that takes no writes
    moves to one that does. *)

From stdpp Require Import base gmap fin_sets strings list sorting.
From Stdlib Require Import ZArith Lia SpecFloat.
From S2P Require Import Prelude Types Rocks IdTracker NamedVectors VectorStorage Text Filters Estimator TopK.
From S2P Require Import PayloadStorage FieldIndex FieldIndexEnum FieldIndexLaws Spaces QueryOptimizer.
From S2P Require Import StructPayloadIndex PayloadIndexSpec PayloadIndexLaws Segment PlainIndex SegmentSpec SegmentEntry.
From S2P Require Import SegmentHolder Samples HolderSpec Operations SegmentsUpdater.

Section updater_spec.
Context {Num SP E : Type} {HS : Simd} `{!SegmentEntry Num SP E, !SegmentEntryLaws Num SP E}.
Abbreviation Holder := (SegmentHolder E).
Context (C : gmap string VectorDataConfig) (n : SeqNumberType) (X : gset PointIdType).
Abbreviation appendable := (se_is_appendable (Num:=Num) (SP:=SP)).

(** A segment is ready for operation [n] on the points [X]: it has no failure,
    the vectors of the collection, and, when it takes writes, nothing newer
    and room for the points. *)
Definition seg_ready (s : E) : Prop :=
  entry_wf s ∧ se_check_error (Num:=Num) (SP:=SP) s = None ∧ entry_cfgs s = C ∧
  (appendable s = true → (se_version (Num:=Num) (SP:=SP) s ≤ n)%N ∧ entry_room s X).

Definition ready (h : Holder) : Prop := ∀ id s, segments h !! id = Some s → seg_ready s.

(** Whether a segment takes writes. *)
Definition writable (h : Holder) (id : SegmentId) : option bool := appendable <$> segments h !! id.

(** One point of one segment has changed. *)
Definition updated (idx : SegmentId) (e : PointIdType) (new : option (Point Num)) (h h' : Holder) : Prop :=
  ready h' ∧ (∀ id, writable h' id = writable h id) ∧
  ∀ id e', copy h' id e' = if decide (id = idx ∧ e' = e) then new else copy h id e'.

(** The same for a segment. *)
Definition seg_updated (e : PointIdType) (new : option (Point Num)) (s s' : E) : Prop :=
  seg_ready s' ∧ appendable s' = appendable s ∧
  ∀ e', entry_point s' e' = if decide (e' = e) then new else entry_point s e'.

Lemma on_segment_updated {Y A} idx (m : sm E OperationError A) (st : Holder * Y) s e (P : A → option (Point Num) → E → Prop) :
  ready st.1 → segments st.1 !! idx = Some s →
  sm_wp m (λ a s', ∃ new, P a new s' ∧ seg_updated e new s s') (λ _ _, True) s →
  sm_wp (on_segment idx m) (λ a st', st'.2 = st.2 ∧ ∃ new s', P a new s' ∧
    segments st'.1 !! idx = Some s' ∧ entry_point s' e = new ∧ updated idx e new st.1 st'.1) (λ _ _, True) st.
Proof using.
  intros Hr Hs Hm. eapply on_segment_wp; [done|]. eapply sm_wp_mono; [exact Hm| |done].
  intros a s' (new & HP & Hok & Happ & Hpts). split; [done|]. exists new, s'.
  split_and!; [done|cbn; by rewrite lookup_insert_eq|by rewrite Hpts, decide_True|]. split_and!.
  - intros id s2. cbn. rewrite lookup_insert_Some. intros [[_ <-]|[_ Hs2]]; [done|eauto].
  - intros id. unfold writable. cbn. destruct (decide (id = idx)) as [->|].
    + rewrite lookup_insert_eq, Hs. cbn. by rewrite Happ.
    + by rewrite lookup_insert_ne.
  - intros id e'. cbn. rewrite copy_insert. destruct (decide (id = idx)) as [->|Hne].
    + rewrite Hpts. unfold copy. rewrite Hs. cbn. destruct (decide (e' = e)) as [->|].
      * by rewrite decide_True.
      * by rewrite decide_False by naive_solver.
    + by rewrite decide_False by naive_solver.
Qed.

(** An operation of the segment interface: a deletion from a segment that
    takes no writes, or a write to one that does. *)
Lemma op_updated op s :
  seg_ready s → (∀ pt, entry_point s (seg_op_point op) = Some pt → (pt_version pt ≤ n)%N) →
  (if is_delete op then appendable s = false else appendable s = true ∧ seg_op_point op ∈ X) →
  match op with
  | OpUpsert e vs => NoDup vs.*1 ∧ vectors_fit C (tm_view vs)
  | _ => is_Some (entry_point s (seg_op_point op)) ∧ entry_safe s op
  end →
  sm_wp (se_run_op (SP:=SP) n op) (λ res s',
    (is_delete op = false → entry_resident s' (seg_op_point op)) ∧
    res = bool_decide (is_Some (entry_point s (seg_op_point op))) ∧
    ∃ old, option_Forall2 (carried C n) (entry_point s (seg_op_point op)) old ∧
      (entry_resident s (seg_op_point op) → old = entry_point s (seg_op_point op)) ∧
      seg_updated (seg_op_point op) (seg_op_effect C n op old) s s') (λ _ _, True) s.
Proof using.
  intros (Hwf & Hes & Hcfg & Happ) Hf Ha Hv. rewrite <-Hcfg in Hv. eapply sm_wp_mono; [apply (entry_op_spec n op s X Hwf Hes)| |done].
  - destruct op as [e vs|e|e p|e p|e key|e]; cbn in Ha.
    2: { destruct Hv as [[pt Hpt] _]. by eapply fresh_delete; [..|by apply Hf]. }
    all: destruct Ha as [Ha _]; apply fresh_newest; [done|by apply Happ|done].
  - done.
  - intros Hd. rewrite Hd in Ha. destruct Ha as [Ha ?]. split; [by apply Happ|done].
  - intros res s' (Hwf' & Hes' & Hcfg' & Happ' & Hver & Hroom & Hres & Hresi & old & Hold & Hsame & Hpts).
    rewrite Hcfg in Hold, Hpts. split_and!; [done|done|]. exists old. split_and!; [done|done|]. split_and!; [|done|done].
    split_and!; [done|done|congruence|]. rewrite Happ'. intros Ha'. destruct (is_delete op); [congruence|].
    destruct (Happ Ha'). split; [lia|by apply Hroom].
Qed.

Lemma copy_segment (h : Holder) id e pt : copy h id e = Some pt → ∃ s, segments h !! id = Some s ∧ entry_point s e = Some pt.
Proof using. unfold copy. destruct (segments h !! id) as [s|]; [|done]. eauto. Qed.

Lemma writable_segment (h : Holder) id b : writable h id = Some b → ∃ s, segments h !! id = Some s ∧ appendable s = b.
Proof using. unfold writable. destruct (segments h !! id) as [s|]; [|done]. intros [= <-]. eauto. Qed.

(** *** Moving a point *)

(** What the closure of an update does to the point it is called for. *)
Context (f : PointIdType → sm E OperationError bool) (g : PointIdType → Point Num → Point Num).

Definition closure_ok : Prop := ∀ e s pt,
  e ∈ X → seg_ready s → appendable s = true → entry_point s e = Some pt → (pt_version pt ≤ n)%N →
  sm_wp (f e) (λ _ s', ∃ new, (∃ pt', new = Some (g e pt') ∧ carried C n pt pt') ∧ seg_updated e new s s') (λ _ _, True) s.

Context (Hf : closure_ok).

Lemma run_op_updated {Y} op idx (st : Holder * Y) s :
  ready st.1 → segments st.1 !! idx = Some s →
  (∀ pt, entry_point s (seg_op_point op) = Some pt → (pt_version pt ≤ n)%N) →
  (if is_delete op then appendable s = false else appendable s = true ∧ seg_op_point op ∈ X) →
  match op with
  | OpUpsert e vs => NoDup vs.*1 ∧ vectors_fit C (tm_view vs)
  | _ => is_Some (entry_point s (seg_op_point op)) ∧ entry_safe s op
  end →
  sm_wp (on_segment idx (se_run_op (SP:=SP) n op)) (λ _ st', st'.2 = st.2 ∧ ∃ new s',
    ((is_delete op = false → entry_resident s' (seg_op_point op)) ∧
     ∃ old, option_Forall2 (carried C n) (entry_point s (seg_op_point op)) old ∧
       (entry_resident s (seg_op_point op) → old = entry_point s (seg_op_point op)) ∧ new = seg_op_effect C n op old) ∧
    segments st'.1 !! idx = Some s' ∧ entry_point s' (seg_op_point op) = new ∧
    updated idx (seg_op_point op) new st.1 st'.1) (λ _ _, True) st.
Proof using.
  intros Hr Hs Hfr Ha Hv. apply (on_segment_updated idx _ st s _ (λ _ new s', _ ∧ ∃ old, _ ∧ _ ∧ new = _ old)); [done|done|].
  eapply sm_wp_mono; [apply op_updated; try done; by eapply Hr| |done].
  intros res s' (Hresi & _ & old & Hold & Hsame & Hu). eexists. split; [|exact Hu]. split; [done|]. by exists old.
Qed.

Lemma move_wp {Y} idx idx' e pt (st : Holder * Y) :
  ready st.1 → e ∈ X → copy st.1 idx e = Some pt → (pt_version pt ≤ n)%N →
  writable st.1 idx = Some false → writable st.1 idx' = Some true → copy st.1 idx' e = None →
  sm_wp (move_and_apply (Num:=Num) (SP:=SP) n e f idx idx')
    (λ _ st', st'.2 = st.2 ∧ ready st'.1 ∧ (∀ id, writable st'.1 id = writable st.1 id) ∧ ∃ pt', carried C n pt pt' ∧
      ∀ id e', copy st'.1 id e' = if decide (e' = e) then
        (if decide (id = idx') then Some (g e pt') else if decide (id = idx) then None else copy st.1 id e')
        else copy st.1 id e') (λ _ _, True) st.
Proof using Hf.
  intros Hr He Hc Hv Hw Hw' Hn. destruct (copy_segment _ _ _ _ Hc) as (s & Hs & Hpt).
  destruct (writable_segment _ _ _ Hw') as (t & Ht & Hta). pose proof (writable_segment _ _ _ Hw) as (s1 & Hs1 & Hsa). simplify_eq.
  assert (idx ≠ idx') as Hne by (intros ->; congruence).
  destruct (Hr _ _ Hs) as (Hwf & _ & Hcfg & _). destruct (all_vectors_spec s e pt Hwf Hpt) as (vs & Hvs & Hnd & Hview).
  pose proof (payload_spec s e pt Hwf Hpt) as Hpl. pose proof (entry_vectors_fit s e pt Hwf Hpt) as Hfit.
  assert (entry_point t e = None) as Hte. { unfold copy in Hn. by rewrite Ht in Hn. }
  unfold move_and_apply. apply sm_wp_bind. eapply read_segment_wp; [done..|].
  apply sm_wp_bind. eapply read_segment_wp; [done..|].
  apply sm_wp_bind. eapply sm_wp_mono; [apply (run_op_updated (OpUpsert e vs) _ _ t Hr Ht); cbn; [by rewrite Hte|done|]| |done].
  { split; [done|]. rewrite Hview, <-Hcfg. done. }
  cbn. rewrite Hte. intros _ st1 (Hx1 & new1 & t1 & (Hres1 & old1 & Ho1 & _ & ->) & Ht1 & Hp1 & Hr1 & Hw1 & Hc1).
  apply option_Forall2_None_l in Ho1 as ->. rewrite Hview in *. cbn in Hp1, Hc1.
  assert (appendable t1 = true) as Hta1.
  { pose proof (Hw1 idx') as Hx. unfold writable in Hx. rewrite Ht1, Ht in Hx. cbn in Hx. congruence. }
  apply sm_wp_bind. eapply sm_wp_mono; [apply (run_op_updated (OpSetFull e (default ∅ (pt_payload pt))) _ _ t1 Hr1 Ht1); cbn| |done].
  { rewrite Hp1. intros ? [= <-]. cbn. lia. } { done. }
  { split; [eauto|]. apply safe_simple; [by eapply Hr1|done]. }
  cbn. rewrite Hp1. intros _ st2 (Hx2 & new2 & t2 & (Hres2 & old2 & _ & Hsame2 & ->) & Ht2 & Hp2 & Hr2 & Hw2 & Hc2).
  rewrite Hsame2 in Hp2, Hc2 by auto. cbn in Hp2, Hc2. fold (moved C n pt) in Hp2, Hc2.
  assert (copy st2.1 idx e = Some pt) as Hc2'. { rewrite Hc2, decide_False, Hc1, decide_False by naive_solver. done. }
  destruct (copy_segment _ _ _ _ Hc2') as (s2 & Hs2 & Hps2). assert (writable st2.1 idx = Some false) as Hwx by (by rewrite Hw2, Hw1).
  apply writable_segment in Hwx as (s2' & Hs2' & Hsa2). simplify_eq.
  apply sm_wp_bind. eapply sm_wp_mono; [apply (run_op_updated (OpDelete e) _ _ s2 Hr2 Hs2); cbn| |done].
  { rewrite Hps2. by intros ? [= <-]. } { done. } { split; [eauto|]. apply safe_simple; [by eapply Hr2|done]. }
  cbn. intros _ st3 (Hx3 & new3 & s3 & (_ & old3 & _ & _ & ->) & Hs3 & _ & Hr3 & Hw3 & Hc3).
  assert (copy st3.1 idx' e = Some (moved C n pt)) as Hn3. { rewrite Hc3, decide_False, Hc2, decide_True by naive_solver. done. }
  destruct (copy_segment _ _ _ _ Hn3) as (t3 & Ht3 & Hp3).
  assert (writable st3.1 idx' = Some true) as Hw3' by (by rewrite Hw3, Hw2, Hw1).
  apply writable_segment in Hw3' as (t3' & Ht3' & Hta3). simplify_eq.
  eapply sm_wp_mono; [eapply (on_segment_updated _ _ _ t3 e (λ _ new _, ∃ pt', new = Some (g e pt') ∧ carried C n (moved C n pt) pt') Hr3 Ht3)| |done].
  { eapply sm_wp_mono; [apply (Hf e t3 (moved C n pt) He); [by eapply Hr3|done|done|cbn; lia]| |done].
    intros _ s' (new & Hnew & Hu). eauto. }
  intros _ st4 (Hx4 & new4 & t4 & (pt' & -> & Hcar) & _ & _ & Hr4 & Hw4 & Hc4).
  split_and!; [congruence|done|intros; by rewrite Hw4, Hw3, Hw2, Hw1|]. exists pt'. split; [by eapply carried_trans; [apply carried_moved|]|].
  intros id e'. rewrite Hc4, Hc3, Hc2, Hc1. destruct (decide (e' = e)) as [->|]; [|by rewrite !decide_False by naive_solver].
  destruct (decide (id = idx')) as [->|]; [by rewrite decide_True|]. rewrite (decide_False (P := id = idx' ∧ _)) by naive_solver.
  destruct (decide (id = idx)) as [->|]; [by rewrite decide_True|]. by rewrite !decide_False by naive_solver.
Qed.

(** *** The loop over the segments *)

Context (ids : list PointIdType) (Hids : ∀ e, e ∈ ids → e ∈ X) (Hg : ∀ e pt, (n ≤ pt_version (g e pt))%N).
Context (try_lock : SegmentId → bool) (choose : list SegmentId → option SegmentId).
Context (Hchoose : ∀ l, l ≠ [] → ∃ x, choose l = Some x ∧ x ∈ l).

Lemma aloha_wp {Y} (l : list SegmentId) (apply : SegmentId → sm (Holder * Y) OperationError bool) Q st :
  (∀ id, id ∈ l → is_Some (segments st.1 !! id)) →
  (∀ id, id ∈ l → sm_wp (apply id) Q (λ _ _, True) st) →
  sm_wp (aloha_random_write try_lock choose l apply) Q (λ _ _, True) st.
Proof using Hchoose.
  intros Hall Happ. unfold aloha_random_write. destruct (decide (l = [])) as [|Hne]; [done|].
  apply sm_wp_bind. unfold sm_wp at 1, sm_get. rewrite (list_filter_all (λ id, is_Some (segments st.1 !! id))) by done.
  destruct (base.filter (λ id, try_lock id = true) l) as [|x l'] eqn:Hx; cbn.
  - destruct (Hchoose l Hne) as (x & -> & Hin). auto.
  - apply Happ. assert (x ∈ base.filter (λ id, try_lock id = true) l) as [_ ?]%list_elem_of_filter by (rewrite Hx; left). done.
Qed.

Record apply_inv (h : Holder) (P : SegmentId → PointIdType → Prop) (st : Holder * gset PointIdType) : Prop := {
  ai_ready : ready st.1;
  ai_writable id : writable st.1 id = writable h id;
  ai_other e : e ∉ st.2 → ∀ id, copy st.1 id e = copy h id e;
  ai_done e : e ∈ st.2 → e ∈ ids ∧ ∃ id0 pt0 pt id', copy h id0 e = Some pt0 ∧ carried C n pt0 pt ∧ writable h id' = Some true ∧
    ∀ id, copy st.1 id e = if decide (id = id') then Some (g e pt) else None;
  ai_todo id e : e ∈ ids → is_Some (copy h id e) → e ∉ st.2 → P id e;
}.

Definition single (h : Holder) : Prop :=
  ∀ id1 id2 e, is_Some (copy h id1 e) → is_Some (copy h id2 e) → id1 = id2.

Context (h : Holder) (Hsingle : single h).
Context (Holder_old : ∀ id e pt, e ∈ ids → copy h id e = Some pt → (pt_version pt < n)%N).

(** The point is reached where it was. *)
Lemma apply_inv_step P st st' e idx pt pt' id' :
  apply_inv h P st → e ∈ ids → copy h idx e = Some pt → carried C n pt pt' → writable h id' = Some true →
  st'.2 = {[e]} ∪ st.2 → ready st'.1 → (∀ id, writable st'.1 id = writable st.1 id) →
  (∀ id e', copy st'.1 id e' = if decide (e' = e) then
     (if decide (id = id') then Some (g e pt') else None) else copy st.1 id e') →
  apply_inv h (λ id e', P id e' ∧ e' ≠ e) st'.
Proof using.
  intros [Hr Hw Ho Hd Ht] He Hc Hcar Hw' Hx Hr' Hwr Hcp. split.
  - done.
  - intros id. by rewrite Hwr.
  - intros e'. rewrite Hx, not_elem_of_union, not_elem_of_singleton. intros [Hne Hn] id.
    rewrite Hcp, decide_False by done. by apply Ho.
  - intros e'. rewrite Hx, elem_of_union, elem_of_singleton. destruct (decide (e' = e)) as [->|Hne].
    + intros _. split; [done|]. exists idx, pt, pt', id'. split_and!; [done|done|done|]. intros id. by rewrite Hcp, decide_True.
    + intros [?|Hin]; [done|]. destruct (Hd _ Hin) as (? & id0 & pt0 & pt1 & id2 & ? & ? & ? & H3). split; [done|].
      exists id0, pt0, pt1, id2. split_and!; [done|done|done|]. intros id. by rewrite Hcp, decide_False.
  - intros id e' He' Hc'. rewrite Hx, not_elem_of_union, not_elem_of_singleton. intros [Hne Hn]. eauto.
Qed.

Lemma apply_wp P st e idx :
  apply_inv h P st → e ∈ ids → is_Some (copy st.1 idx e) →
  sm_wp (apply_to_appendable (Num:=Num) (SP:=SP) try_lock choose (appendable_segments (Num:=Num) (SP:=SP) h) n f e idx)
    (λ _ st', apply_inv h (λ id e', P id e' ∧ e' ≠ e) st' ∧
      ∀ id e', e' ≠ e → copy st'.1 id e' = copy st.1 id e') (λ _ _, True) st.
Proof using Hf Hids Hg Hchoose Hsingle Holder_old.
  intros Hi He [pt Hpt]. pose proof Hi as [Hr Hw Ho Hd Ht]. destruct (copy_segment _ _ _ _ Hpt) as (s & Hs & Hsp).
  destruct (Hr _ _ Hs) as (Hwf & _ & _ & _). unfold apply_to_appendable. apply sm_wp_bind.
  eapply read_segment_wp; [done..|]. rewrite (point_version_spec s e pt Hwf Hsp). cbn [map_or].
  destruct (decide (e ∈ st.2)) as [HA|HA].
  - destruct (Hd e HA) as (_ & id0 & pt0 & pt1 & id' & Hc0 & _ & Hw' & Hcp). rewrite Hcp in Hpt.
    destruct (decide (idx = id')); [|done]. injection Hpt as <-. rewrite (proj2 (N.leb_le _ _)) by apply Hg.
    unfold sm_wp, capture. cbn. assert ({[e]} ∪ st.2 = st.2) as Heq by set_solver. rewrite Heq. split; [|done].
    destruct Hi. split; try done. intros id e' ? ? Hn. split; [by eapply Ht|]. by intros ->.
  - assert (copy h idx e = Some pt) as Hc by (by rewrite <-(Ho e HA)). pose proof (Holder_old _ _ _ He Hc) as Hlt.
    rewrite (proj2 (N.leb_gt _ _)) by done. apply sm_wp_bind. eapply read_segment_wp; [done..|].
    assert (writable h idx = Some (appendable s)) as Hws. { rewrite <-Hw. unfold writable. by rewrite Hs. }
    assert (∀ id, id ≠ idx → copy st.1 id e = None) as Hnone.
    { intros id Hne. rewrite (Ho e HA). destruct (copy h id e) eqn:Hx; [|done]. destruct Hne. eapply Hsingle; eauto. }
    apply sm_wp_bind. eapply (sm_wp_mono _ (λ _ st', st'.2 = st.2 ∧ ∃ pt' id', carried C n pt pt' ∧ writable h id' = Some true ∧
      ready st'.1 ∧ (∀ id, writable st'.1 id = writable st.1 id) ∧ ∀ id e', copy st'.1 id e' = if decide (e' = e) then
        (if decide (id = id') then Some (g e pt') else None) else copy st.1 id e')); [| |done].
    2: { intros b st' (Hx & pt' & id' & Hcar & Hw' & Hr' & Hwr & Hc'). unfold sm_wp, capture. cbn.
         split; [|intros id e' Hne; by rewrite Hc', decide_False].
         eapply (apply_inv_step P st _ e idx pt pt' id'); try done. cbn. by rewrite Hx. }
    destruct (appendable s) eqn:Ha.
    + eapply sm_wp_mono; [eapply (on_segment_updated _ _ _ s e (λ _ new _, ∃ pt', new = Some (g e pt') ∧ carried C n pt pt') Hr Hs)| |done].
      { eapply sm_wp_mono; [apply (Hf e s pt); [auto|by eapply Hr|done|done|lia]|by intros _ s' (new & Hnew & Hu); eauto|done]. }
      intros b st' (Hx & new & s' & (pt' & -> & Hcar) & _ & _ & Hr' & Hw' & Hc'). split; [done|].
      exists pt', idx. split_and!; [done..|]. intros id e'. rewrite Hc'.
      destruct (decide (e' = e)) as [->|]; [|by rewrite decide_False by naive_solver].
      destruct (decide (id = idx)) as [->|]; [by rewrite decide_True|]. rewrite decide_False by naive_solver. by apply Hnone.
    + apply aloha_wp.
      * intros id (t & Htt & Hta)%elem_of_appendable. specialize (Hw id). unfold writable in Hw. rewrite Htt in Hw.
        by destruct (segments st.1 !! id).
      * intros id' (t & Htt & Hta)%elem_of_appendable.
        assert (writable h id' = Some true) as Hw' by (unfold writable; rewrite Htt; cbn; by rewrite Hta).
        assert (id' ≠ idx) as Hne by (intros ->; congruence).
        eapply sm_wp_mono; [apply (move_wp idx id' e pt st Hr); try done; [auto|lia|by rewrite Hw|by rewrite Hw|by apply Hnone]| |done].
        intros _ st' (Hx & Hr' & Hwr & pt' & Hcar & Hc'). split; [done|]. exists pt', id'. split_and!; [done..|].
        intros id e'. rewrite Hc'. destruct (decide (e' = e)) as [->|]; [|done].
        destruct (decide (id = id')); [done|]. destruct (decide (id = idx)); [done|]. by apply Hnone.
Qed.

(** One segment. *)
Lemma apply_segment_wp P st idx count :
  NoDup ids → apply_inv h P st → is_Some (segments st.1 !! idx) →
  sm_wp (affected ← read_segment idx (λ segment, Ok (segment_points (Num:=Num) (SP:=SP) ids segment));
         sm_fold (λ point_id applied_points,
           is_applied ← apply_to_appendable (Num:=Num) (SP:=SP) try_lock choose
                          (appendable_segments (Num:=Num) (SP:=SP) h) n f point_id idx;
           mret (applied_points + Nat.b2n is_applied)) affected count)
    (λ _ st', apply_inv h (λ id e, P id e ∧ id ≠ idx) st') (λ _ _, True) st.
Proof using Hf Hids Hg Hchoose Hsingle Holder_old.
  intros Hnd Hi [s Hs]. apply sm_wp_bind. eapply read_segment_wp; [done..|].
  destruct (ai_ready _ _ _ Hi _ _ Hs) as (Hwf & _).
  assert (∀ e, e ∈ segment_points (Num:=Num) (SP:=SP) ids s ↔ e ∈ ids ∧ is_Some (copy st.1 idx e)) as Hel.
  { intros e. unfold segment_points, copy. rewrite Hs, list_elem_of_filter, has_point_spec, bool_decide_eq_true by done.
    cbn. naive_solver. }
  assert (NoDup (segment_points (Num:=Num) (SP:=SP) ids s)) as Hnd' by (by apply NoDup_filter).
  revert Hel Hnd'. generalize (segment_points (Num:=Num) (SP:=SP) ids s). intros l Hel Hnd'.
  eapply sm_wp_mono; [apply (sm_wp_fold _ (λ pre _ st',
    apply_inv h (λ id e, P id e ∧ e ∉ pre) st' ∧ ∀ e, e ∉ pre → copy st'.1 idx e = copy st.1 idx e))| |done].
  - split; [|done]. destruct Hi. split; try done. intros id e ? ? ?. split; [eauto|apply not_elem_of_nil].
  - intros pre e post c st' Heq [Hi' Hc']. apply sm_wp_bind. rewrite Heq in Hnd'.
    apply NoDup_app in Hnd' as (_ & Hdis & _). assert (e ∉ pre) as He.
    { intros Hin. apply (Hdis e Hin). left. }
    assert (e ∈ ids ∧ is_Some (copy st.1 idx e)) as [Hin Hsome].
    { apply Hel. rewrite Heq, elem_of_app. right. left. }
    eapply sm_wp_mono; [apply (apply_wp _ st' e idx Hi' Hin); by rewrite Hc'| |done].
    intros b st2 [Hi2 Hc2]. apply sm_wp_ret. split.
    + destruct Hi2 as [? ? ? ? Ht]. split; try done. intros id e' ? ? ?. destruct (Ht id e') as [[? ?] ?]; [done..|].
      split; [done|]. rewrite elem_of_app, list_elem_of_singleton. naive_solver.
    + intros e'. rewrite elem_of_app, list_elem_of_singleton. intros Hn. rewrite Hc2 by naive_solver. apply Hc'. naive_solver.
  - intros _ st' [[? ? Ho ? Ht] Hc']. split; try done. intros id e He Hc Hn. destruct (Ht id e He Hc Hn) as [? Hl].
    split; [done|]. intros ->. apply Hl, Hel. split; [done|]. rewrite <-Hc' by done. by rewrite Ho.
Qed.

(** Every id that is there is reached. *)
Lemma apply_points_wp :
  NoDup ids → ready h →
  sm_wp (apply_points_to_appendable (Num:=Num) (SP:=SP) try_lock choose n ids f)
    (λ A h', apply_inv h (λ _ _, False) (h', A)) (λ _ _, True) h.
Proof using Hf Hids Hg Hchoose Hsingle Holder_old.
  intros Hnd Hr. assert (sm_wp (apply_points ids (apply_to_appendable (Num:=Num) (SP:=SP) try_lock choose
      (appendable_segments (Num:=Num) (SP:=SP) h) n f)) (λ _ st', apply_inv h (λ _ _, False) st') (λ _ _, True) (h, ∅)) as Hwp.
  { apply sm_wp_bind. unfold sm_wp at 1, sm_get. cbn [fst]. eapply sm_wp_mono; [apply (sm_wp_fold _ (λ pre _ st',
      apply_inv h (λ id e, id ∉ pre) st'))| |done].
    - split; cbn; try done. intros id e. rewrite elem_of_nil. naive_solver.
    - intros pre idx post c st Heq Hi. eapply sm_wp_mono; [apply (apply_segment_wp _ st idx c Hnd Hi)| |done].
      + assert (idx ∈ (map_to_list (segments h)).*1) as Hidx by (rewrite Heq, elem_of_app; right; left).
        apply list_elem_of_fmap in Hidx as ([? s] & -> & Hs%elem_of_map_to_list). cbn.
        pose proof (ai_writable _ _ _ Hi n0) as Hw. unfold writable in Hw. rewrite Hs in Hw.
        by destruct (segments st.1 !! n0).
      + intros _ st' [? ? ? ? Ht]. split; try done. intros id e ? ? ?. destruct (Ht id e) as [? ?]; [done..|].
        rewrite elem_of_app, list_elem_of_singleton. naive_solver.
    - intros _ st' [? ? ? ? Ht]. split; try done. intros id e He Hc Hn. apply (Ht id e He Hc Hn).
      destruct Hc as [pt (s & Hs & _)%copy_segment]. apply list_elem_of_fmap. exists (id, s).
      by rewrite elem_of_map_to_list. }
  unfold sm_wp in *. unfold apply_points_to_appendable. cbn zeta.
  destruct (apply_points ids _ (h, ∅)) as [[r|e|] [h' A]]; done.
Qed.
End updater_spec.

(** ** Inserting and replacing points *)

Section upsert_spec.
Context {Num SP E : Type} `{!EqDecision Num} {HS : Simd} `{!SegmentEntry Num SP E, !SegmentEntryLaws Num SP E}.
Abbreviation Holder := (SegmentHolder E).
Context (C : gmap string VectorDataConfig) (n : SeqNumberType).
Abbreviation appendable := (se_is_appendable (Num:=Num) (SP:=SP)).

(** What an upsert writes over the point there was. *)
Definition written (vs : NamedVectors) (payload : option (Payload Num)) (old : option (Point Num)) : Point Num :=
  mkPoint n (processed C (tm_view vs)) (match payload with Some p => Some p | None => old ≫= pt_payload end).

Lemma upsert_with_payload_wp X e vs payload s :
  seg_ready C n X s → appendable s = true → e ∈ X → (∀ pt, entry_point s e = Some pt → (pt_version pt ≤ n)%N) →
  NoDup vs.*1 → vectors_fit C (tm_view vs) →
  sm_wp (upsert_with_payload (SP:=SP) n e vs payload) (λ res s', res = bool_decide (is_Some (entry_point s e)) ∧
    ∃ old, option_Forall2 (carried C n) (entry_point s e) old ∧
      seg_updated C n X e (Some (written vs payload old)) s s') (λ _ _, True) s.
Proof using.
  intros Hr Ha He Hf Hnd Hfit. unfold upsert_with_payload. apply sm_wp_bind.
  eapply sm_wp_mono; [apply (op_updated C n X (OpUpsert e vs) s Hr); cbn; done| |done].
  cbn. intros res s1 (Hresi & Hres & old & Hold & _ & Hr1 & Ha1 & Hp1). cbn in Hp1.
  destruct payload as [p|]; [|apply sm_wp_ret; split; [done|]; exists old; split; done]. apply sm_wp_bind.
  assert (entry_point s1 e = Some (mkPoint n (processed C (tm_view vs)) (old ≫= pt_payload))) as Hp1e by (by rewrite Hp1, decide_True).
  eapply sm_wp_mono; [apply (op_updated C n X (OpSetFull e p) s1 Hr1); cbn| |done].
  - rewrite Hp1e. intros ? [= <-]. cbn. lia.
  - by rewrite Ha1.
  - split; [eauto|]. apply safe_simple; [by eapply Hr1|done].
  - cbn. intros res2 s2 (_ & Hres2 & old2 & _ & Hsame & Hr2 & Ha2 & Hp2). rewrite (Hsame (Hresi eq_refl)), Hp1e in Hp2.
    split; [rewrite Hres, Hres2, Hp1e; by destruct (entry_point s e)|]. exists old. split; [done|].
    split_and!; [done|congruence|]. intros e'. rewrite Hp2, Hp1. by destruct (decide (e' = e)).
Qed.

Lemma points_map_elem points e (p : PointStruct (Num:=Num)) : points_map points !! e = Some p → p ∈ points ∧ pst_id p = e.
Proof using.
  unfold points_map. assert (∀ m : gmap PointIdType (PointStruct (Num:=Num)), fold_left (λ m p, <[pst_id p := p]> m) points m !! e = Some p →
    m !! e = Some p ∨ (p ∈ points ∧ pst_id p = e)) as Hgen.
  { induction points as [|q l IH]; intros m Hm; cbn in *; [by left|]. apply IH in Hm as [Hm|[? ?]].
    - apply lookup_insert_Some in Hm as [[<- <-]|[_ ?]]; [right; split; [left|done]|by left].
    - right. split; [by right|done]. }
  intros [Hm|?]%Hgen; [|done]. by rewrite lookup_empty in Hm.
Qed.

Lemma get_vectors_NoDup (p : PointStruct (Num:=Num)) : NoDup (get_vectors p).*1.
Proof using.
  unfold get_vectors. destruct (pst_vector p); cbn.
  - constructor; [apply not_elem_of_nil|constructor].
  - apply NoDup_fst_map_to_list.
Qed.

Context (points : list (PointStruct (Num:=Num))).
Context (Hpoints : ∀ p, p ∈ points → vectors_fit C (tm_view (get_vectors p))).
Let ids := (map_to_list (points_map points)).*1.
Let X : gset PointIdType := list_to_set ids.

Definition upserted (e : PointIdType) (old : option (Point Num)) : Point Num :=
  match points_map points !! e with
  | Some p => written (get_vectors p) (pst_payload p) old
  | None => mkPoint n ∅ None
  end.

Lemma elem_of_ids e : e ∈ ids ↔ ∃ p, points_map points !! e = Some p.
Proof using.
  unfold ids. rewrite list_elem_of_fmap. split.
  - intros ([? p] & -> & Hp%elem_of_map_to_list). eauto.
  - intros [p Hp]. exists (e, p). by rewrite elem_of_map_to_list.
Qed.

Lemma ids_room e : e ∈ ids → e ∈ X.
Proof using. unfold X. by rewrite elem_of_list_to_set. Qed.

Lemma upsert_point_wp e s :
  e ∈ ids → seg_ready C n X s → appendable s = true → (∀ pt, entry_point s e = Some pt → (pt_version pt ≤ n)%N) →
  sm_wp (upsert_point (SP:=SP) (points_map points) n e) (λ res s', res = bool_decide (is_Some (entry_point s e)) ∧
    ∃ old, option_Forall2 (carried C n) (entry_point s e) old ∧
      seg_updated C n X e (Some (upserted e old)) s s') (λ _ _, True) s.
Proof using Hpoints.
  intros He Hr Ha Hf. pose proof He as [p Hp]%elem_of_ids. unfold upsert_point, upserted. rewrite Hp. apply sm_wp_bind.
  unfold sm_wp at 1, sm_lift. cbn [unwrap].
  apply upsert_with_payload_wp; [done|done|by apply ids_room|done|apply get_vectors_NoDup|]. apply Hpoints. by apply (points_map_elem points e).
Qed.

Lemma upsert_closure : closure_ok C n X (upsert_point (SP:=SP) (points_map points) n) (λ e pt, upserted e (Some pt)).
Proof using Hpoints.
  intros e s pt He Hr Ha Hpt Hv. unfold X in He. rewrite elem_of_list_to_set in He.
  eapply sm_wp_mono; [apply (upsert_point_wp e s He Hr Ha); rewrite Hpt; by intros ? [= <-]| |done].
  intros b s' (_ & old & Hold & Hu). rewrite Hpt in Hold. apply option_Forall2_Some_l in Hold as (pt' & -> & Hcar). eauto.
Qed.

Lemma upserted_version e old : (n ≤ pt_version (upserted e old))%N.
Proof using. unfold upserted. destruct (points_map points !! e); cbn; lia. Qed.

(** The loop that inserts the points that were not found. *)
Lemma insert_new_wp idx (l : list PointIdType) c (h : Holder) :
  NoDup l → (∀ e, e ∈ l → e ∈ ids) → ready C n X h → writable h idx = Some true →
  (∀ e, e ∈ l → copy h idx e = None) →
  sm_wp (sm_fold (λ point_id res,
          r ← on_segment idx (upsert_point (SP:=SP) (points_map points) n point_id);
          mret (res + Nat.b2n r)) l c)
    (λ c' st', c' = c ∧ ready C n X st'.1 ∧ (∀ id, writable st'.1 id = writable h id) ∧
      ∀ id e, copy st'.1 id e = if decide (id = idx ∧ e ∈ l) then Some (upserted e None) else copy h id e)
    (λ _ _, True) (h, tt).
Proof using Hpoints.
  intros Hnd Hids Hr Hw Hnone. set (I := λ (pre : list PointIdType) (c' : nat) (st' : Holder * unit), c' = c ∧
    ready C n X st'.1 ∧ (∀ id, writable st'.1 id = writable h id) ∧
    ∀ id e, copy st'.1 id e = if decide (id = idx ∧ e ∈ pre) then Some (upserted e None) else copy h id e).
  apply (sm_wp_fold _ I (λ _ _, True) l c (h, tt)); subst I.
  - cbn. split_and!; [done..|]. intros id e. by rewrite decide_False by (rewrite elem_of_nil; naive_solver).
  - intros pre e post c' st -> (-> & Hr' & Hw' & Hc'). rewrite NoDup_app in Hnd. destruct Hnd as (_ & Hdis & _).
    assert (e ∈ pre ++ e :: post) as Hin by (apply elem_of_app; right; left).
    assert (e ∉ pre) as Hpre. { intros Hx. apply (Hdis e Hx). left. }
    assert (writable st.1 idx = Some true) as Hw2 by by rewrite Hw'. apply writable_segment in Hw2 as (s & Hs & Ha).
    assert (entry_point s e = None) as Hpt.
    { specialize (Hc' idx e). unfold copy at 1 in Hc'. rewrite Hs, decide_False, Hnone in Hc' by naive_solver. done. }
    apply sm_wp_bind.
    eapply sm_wp_mono; [eapply (on_segment_updated C n X _ _ _ s e (λ r new _, r = false ∧ new = Some (upserted e None)) Hr' Hs)| |done].
    { eapply sm_wp_mono; [apply (upsert_point_wp e s (Hids e Hin)); [by eapply Hr'|done|by rewrite Hpt]| |done].
      intros r s' (-> & old & Hold & Hu). rewrite Hpt in Hold |- *. apply option_Forall2_None_l in Hold as ->. eauto. }
    intros r st' (_ & new & s' & [-> ->] & _ & _ & Hr2 & Hw2 & Hc2). apply sm_wp_ret. cbn. rewrite Nat.add_0_r.
    split_and!; [done|done|intros; by rewrite Hw2|].
    intros id e'. rewrite Hc2, Hc'. assert (e' ∈ pre ++ [e] ↔ e' ∈ pre ∨ e' = e) as Hel
      by (rewrite elem_of_app, list_elem_of_singleton; done).
    destruct (decide (id = idx ∧ e' = e)) as [[-> ->]|Hn1]; [by rewrite decide_True by naive_solver|].
    destruct (decide (id = idx ∧ e' ∈ pre)) as [[-> ?]|Hn2]; [by rewrite decide_True by naive_solver|].
    by rewrite decide_False by naive_solver.
Qed.

(** The point that an upsert leaves: one copy, with the vectors as they are
    stored, and the new payload or else the one there was. *)
Definition upsert_result (h h' : Holder) (e : PointIdType) (p : PointStruct (Num:=Num)) : Prop :=
  ∃ id pt, (∀ id', copy h' id' e = if decide (id' = id) then Some pt else None) ∧
    pt_version pt = n ∧ pt_vectors pt = processed C (tm_view (get_vectors p)) ∧
    match pst_payload p with
    | Some payload => pt_payload pt = Some payload
    | None => ∀ id0 pt0, copy h id0 e = Some pt0 → default ∅ (pt_payload pt) = default ∅ (pt_payload pt0)
    end.

Definition upsert_post (h : Holder) (r : nat) (h' : Holder) : Prop :=
  single h' ∧
  (∀ e p, points_map points !! e = Some p → upsert_result h h' e p) ∧
  (∀ e id, points_map points !! e = None → copy h' id e = copy h id e) ∧
  ∃ A : gset PointIdType, r = size A ∧
    ∀ e, e ∈ A ↔ is_Some (points_map points !! e) ∧ ∃ id, is_Some (copy h id e).

Lemma upsert_assemble (h h1 h2 : Holder) (A : gset PointIdType) idx :
  single h → apply_inv C n X (λ e pt, upserted e (Some pt)) ids h (λ _ _, False) (h1, A) →
  (∀ id e, copy h2 id e = if decide (id = idx ∧ e ∈ base.filter (λ x, x ∉ A) ids) then Some (upserted e None) else copy h1 id e) →
  upsert_post h (size A) h2.
Proof using.
  intros Hsingle [_ _ Ho Hd Ht] Hc. cbn in *.
  assert (∀ e, e ∈ A ↔ e ∈ ids ∧ ∃ id, is_Some (copy h id e)) as HA.
  { intros e. split.
    - intros Hin. destruct (Hd e Hin) as (? & id0 & pt0 & _ & _ & Hc0 & _). eauto.
    - intros [Hids [id Hid]]. destruct (decide (e ∈ A)); [done|]. by destruct (Ht id e). }
  assert (∀ e, e ∈ ids → e ∉ A → ∀ id, copy h id e = None) as Hnone.
  { intros e Hids Hn id. destruct (copy h id e) eqn:Hx; [|done]. destruct Hn. apply HA. eauto. }
  assert (∀ e, e ∈ base.filter (λ x, x ∉ A) ids ↔ (¬ (e ∈ A)) ∧ e ∈ ids) as Hel by (intros; by rewrite list_elem_of_filter).
  assert (∀ e p, points_map points !! e = Some p → ∃ id old, ((∀ id', copy h2 id' e = if decide (id' = id) then Some (upserted e old) else None)) ∧
    (∀ id0 pt0, copy h id0 e = Some pt0 → default ∅ (old ≫= pt_payload) = default ∅ (pt_payload pt0))) as Hres.
  { intros e p Hp. assert (e ∈ ids) as Hids by (apply elem_of_ids; eauto). destruct (decide (e ∈ A)) as [Hin|Hin].
    - destruct (Hd e Hin) as (_ & id0 & pt0 & ptc & id' & Hc0 & (Hpl & _) & _ & Hcp). exists id'. eexists. split.
      + intros id. rewrite Hc, decide_False by (rewrite Hel; naive_solver). apply Hcp.
      + intros id1 pt1 Hc1. assert (id1 = id0) as -> by (eapply Hsingle; eauto). simplify_eq. exact Hpl.
    - exists idx, None. split; [|intros id0 pt0; by rewrite Hnone]. intros id. rewrite Hc. destruct (decide (id = idx)) as [->|Hne].
      + by rewrite decide_True by (rewrite Hel; done).
      + rewrite decide_False by naive_solver. rewrite (Ho e Hin). by apply Hnone. }
  assert (∀ e id, points_map points !! e = None → copy h2 id e = copy h id e) as Hother.
  { intros e id Hp. assert (e ∉ ids) as Hids by (rewrite elem_of_ids; naive_solver).
    rewrite Hc, decide_False by (rewrite Hel; naive_solver). apply Ho. rewrite HA. naive_solver. }
  split_and!; [| |done|exists A; split; [done|]; intros e; by rewrite HA, elem_of_ids].
  - intros id1 id2 e. destruct (points_map points !! e) as [p|] eqn:Hp; [|rewrite !Hother by done; apply Hsingle].
    destruct (Hres e p Hp) as (id & old & Hcp & _). rewrite !Hcp. destruct (decide (id1 = id)), (decide (id2 = id)); intros [] []; congruence.
  - intros e p Hp. destruct (Hres e p Hp) as (id & old & Hcp & Hpl). exists id, (upserted e old). split; [done|].
    unfold upserted. rewrite Hp. cbn. split_and!; [done|done|]. by destruct (pst_payload p).
Qed.

Context (display_id : PointIdType → string) (try_lock : SegmentId → bool) (choose : list SegmentId → option SegmentId).

Lemma run_op_wp {A} (m : sm Holder OperationError A) Q h :
  sm_wp m Q (λ _ _, True) h → sm_wp (run_op display_id m) Q (λ _ _, True) h.
Proof using. unfold sm_wp, run_op. by destruct (m h) as [[] ?]. Qed.

Lemma run_holder_wp {T A} (x : T) (m : sm (Holder * T) OperationError A) Q h :
  sm_wp m (λ a st, Q (a, st.2) st.1) (λ _ _, True) (h, x) → sm_wp (run_holder display_id x m) Q (λ _ _, True) h.
Proof using. unfold sm_wp, run_holder. by destruct (m (h, x)) as [[] []]. Qed.

Context (Hchoose : ∀ l x, choose l = Some x → x ∈ l) (Hchoose_some : ∀ l, l ≠ [] → is_Some (choose l)).

(** C2: [upsert_points] on a shard.  On a holder with every point in one
    segment, whose segments are healthy, older than the operation and have
    room, [upsert_points] does not panic, and when it succeeds each point of
    the operation (the last one given for its id) is stored exactly once with
    the version of the operation, the vectors given and the payload given, or
    else the payload it had; no other point changes; and the result is the
    number of points that existed.  Points of segments that take no writes are
    moved on the way. *)
Theorem upsert_points_refines (h : Holder) :
  single h → ready C n X h →
  (∀ id e pt, copy h id e = Some pt → (pt_version pt < n)%N) →
  sm_wp (upsert_points (SP:=SP) display_id try_lock choose n points) (upsert_post h) (λ _ _, True) h.
Proof using Hpoints Hchoose Hchoose_some.
  intros Hsingle Hr Hold.
  assert (∀ l, l ≠ [] → ∃ x, choose l = Some x ∧ x ∈ l) as Hch.
  { intros l Hl. destruct (Hchoose_some l Hl) as [x Hx]. eauto. }
  assert (NoDup ids) as Hnd by apply NoDup_fst_map_to_list.
  unfold upsert_points. apply sm_wp_bind. apply run_op_wp.
  eapply sm_wp_mono; [apply (apply_points_wp C n X _ (λ e pt, upserted e (Some pt)) upsert_closure ids ids_room); eauto using upserted_version| |done].
  intros A h1 Hi. apply sm_wp_bind. unfold sm_wp at 1, sm_get. apply sm_wp_bind.
  unfold random_appendable_segment. destruct (choose (appendable_segments h1)) as [idx|] eqn:Hidx; [|done].
  apply Hchoose in Hidx. apply elem_of_appendable in Hidx as (s & Hs & Ha). cbn. rewrite Hs. cbn.
  apply sm_wp_bind. apply run_holder_wp. eapply sm_wp_mono; [apply (insert_new_wp idx)| |done].
  - by apply NoDup_filter.
  - intros e He. by apply list_elem_of_filter in He as [_ ?].
  - apply (ai_ready _ _ _ _ _ _ _ _ Hi).
  - unfold writable. rewrite Hs. cbn. by rewrite Ha.
  - intros e [HA Hids]%list_elem_of_filter. rewrite (ai_other _ _ _ _ _ _ _ _ Hi e HA).
    destruct (copy h idx e) eqn:Hx; [|done]. by destruct (ai_todo _ _ _ _ _ _ _ _ Hi idx e).
  - intros c st (-> & _ & _ & Hc). apply sm_wp_ret. eapply (upsert_assemble h h1 st.1 A idx); [done|exact Hi|exact Hc].
Qed.

(** *** Operations that are replayed *)

Definition replayed (h : Holder) (l : list PointIdType) : Prop :=
  (∀ id s, segments h !! id = Some s → entry_wf s) ∧
  ∀ id e pt, e ∈ l → copy h id e = Some pt → (n ≤ pt_version pt)%N.

Lemma replay_segment_wp (f : PointIdType → sm E OperationError bool) segs l h idx c (A : gset PointIdType) :
  replayed h l → is_Some (segments h !! idx) →
  sm_wp (affected ← read_segment idx (λ segment, Ok (segment_points (Num:=Num) (SP:=SP) l segment));
         sm_fold (λ point_id applied_points,
           is_applied ← apply_to_appendable (Num:=Num) (SP:=SP) try_lock choose segs n f point_id idx;
           mret (applied_points + Nat.b2n is_applied)) affected c)
    (λ _ st', st'.1 = h ∧ ∀ e, e ∈ st'.2 ↔ e ∈ A ∨ (e ∈ l ∧ is_Some (copy h idx e))) (λ _ _, False) (h, A).
Proof using.
  intros [Hwf Hnew] [s Hs]. apply sm_wp_bind. eapply read_segment_wp; [done..|].
  assert (∀ e, e ∈ segment_points (Num:=Num) (SP:=SP) l s ↔ e ∈ l ∧ is_Some (copy h idx e)) as Hel.
  { intros e. unfold segment_points, copy. rewrite Hs, list_elem_of_filter, (has_point_spec s e (Hwf _ _ Hs)), bool_decide_eq_true.
    cbn. clear. tauto. }
  revert Hel. generalize (segment_points (Num:=Num) (SP:=SP) l s). intros aff Hel.
  eapply sm_wp_mono; [apply (sm_wp_fold _ (λ pre _ st', st'.1 = h ∧ ∀ e, e ∈ st'.2 ↔ e ∈ A ∨ e ∈ pre) (λ _ _, False))| |done].
  - cbn. split; [done|]. intros e. rewrite elem_of_nil. clear. tauto.
  - intros pre e post c' [h' A'] Heq [Hh HA]. cbn in Hh, HA. subst h'. apply sm_wp_bind.
    assert (e ∈ l ∧ is_Some (copy h idx e)) as [Hl [pt Hpt]] by (apply Hel; rewrite Heq, elem_of_app; right; left).
    unfold apply_to_appendable. apply sm_wp_bind. eapply read_segment_wp; [done..|].
    assert (entry_point s e = Some pt) as Hsp by (unfold copy in Hpt; by rewrite Hs in Hpt).
    rewrite (point_version_spec s e pt (Hwf _ _ Hs) Hsp). cbn [map_or].
    rewrite (proj2 (N.leb_le _ _)) by eauto. unfold sm_wp, capture. cbn. split; [done|]. intros e'.
    rewrite elem_of_union, elem_of_singleton, HA, elem_of_app, list_elem_of_singleton. clear. tauto.
  - intros _ st' [Hh HA]. split; [done|]. intros e. by rewrite HA, Hel.
Qed.

Lemma replay_points_wp (f : PointIdType → sm E OperationError bool) (l : list PointIdType) (h : Holder) :
  replayed h l →
  sm_wp (apply_points_to_appendable (Num:=Num) (SP:=SP) try_lock choose n l f)
    (λ A h', h' = h ∧ ∀ e, e ∈ A ↔ e ∈ l ∧ ∃ id, is_Some (copy h id e)) (λ _ _, False) h.
Proof using.
  intros Hrep. assert (sm_wp (apply_points l (apply_to_appendable (Num:=Num) (SP:=SP) try_lock choose
      (appendable_segments (Num:=Num) (SP:=SP) h) n f))
    (λ _ st', st'.1 = h ∧ ∀ e, e ∈ st'.2 ↔ e ∈ l ∧ ∃ id, is_Some (copy h id e)) (λ _ _, False) (h, ∅)) as Hwp.
  { apply sm_wp_bind. unfold sm_wp at 1, sm_get. cbn [fst]. eapply sm_wp_mono; [apply (sm_wp_fold _ (λ pre _ st',
      st'.1 = h ∧ ∀ e, e ∈ st'.2 ↔ e ∈ l ∧ ∃ id, id ∈ pre ∧ is_Some (copy h id e)) (λ _ _, False))| |done].
    - cbn. split; [done|]. intros e. rewrite elem_of_empty. setoid_rewrite elem_of_nil. clear. naive_solver.
    - intros pre idx post c [h' A] Heq [Hh HA]. cbn in Hh, HA. subst h'.
      assert (idx ∈ (map_to_list (segments h)).*1) as Hidx by (rewrite Heq, elem_of_app; right; left).
      apply list_elem_of_fmap in Hidx as ([i s] & -> & Hs%elem_of_map_to_list).
      eapply sm_wp_mono; [apply (replay_segment_wp f _ l h i c A Hrep); eauto| |done].
      intros _ st' [Hh' HA']. split; [done|]. intros e. rewrite HA', HA. setoid_rewrite elem_of_app.
      setoid_rewrite list_elem_of_singleton. clear. cbn. naive_solver.
    - intros _ st' [Hh HA]. split; [done|]. intros e. rewrite HA. split; [clear; naive_solver|].
      intros [He [id Hid]]. split; [done|]. exists id. split; [|done]. destruct Hid as [pt (s & Hs & _)%copy_segment].
      apply list_elem_of_fmap. exists (id, s). by rewrite elem_of_map_to_list. }
  unfold sm_wp in *. unfold apply_points_to_appendable. cbn zeta.
  destruct (apply_points l _ (h, ∅)) as [[r|e|] [h' A]]; done.
Qed.

(** An operation is applied at most once.  When every point of an upsert
    is already there with the version of the operation or a newer one,
    [upsert_points] changes nothing and reports each point as updated.  So an
    operation may be replayed from the log; but so is the repetition of one
    that failed after it had written the vectors and not the payload. *)
Lemma replayed_upsert_unchanged (h : Holder) :
  replayed h ids → (∀ e, e ∈ ids → ∃ id, is_Some (copy h id e)) →
  appendable_segments (Num:=Num) (SP:=SP) h ≠ [] →
  sm_wp (upsert_points (SP:=SP) display_id try_lock choose n points)
    (λ r h', h' = h ∧ ∃ A : gset PointIdType, r = size A ∧ ∀ e, e ∈ A ↔ is_Some (points_map points !! e)) (λ _ _, False) h.
Proof using Hchoose Hchoose_some.
  intros Hrep Hall Happ. unfold upsert_points. apply sm_wp_bind. pose proof (replay_points_wp (upsert_point (SP:=SP) (points_map points) n) ids h Hrep) as Hwp.
  unfold sm_wp, run_op in *. fold ids. destruct (apply_points_to_appendable _ _ _ _ _ h) as [[A|e|] h1]; [|done|done].
  destruct Hwp as [-> HA]. unfold mbind, sm_bind, sm_get, random_appendable_segment.
  destruct (Hchoose_some _ Happ) as [idx Hidx]. rewrite Hidx. cbn [mbind option_bind].
  apply Hchoose, elem_of_appendable in Hidx as (s & Hs & _). rewrite Hs. cbn.
  assert (base.filter (λ x, x ∉ A) ids = []) as Hnil.
  { destruct (base.filter (λ x, x ∉ A) ids) as [|x l] eqn:Hx; [done|].
    assert (x ∈ base.filter (λ x, x ∉ A) ids) as [Hn Hin]%list_elem_of_filter by (rewrite Hx; left).
    destruct Hn. apply HA. split; [done|]. by apply Hall. }
  rewrite Hnil. cbn. split; [by destruct h|]. exists A. split; [done|]. intros e. rewrite HA, elem_of_ids.
  split; [by intros [[p Hp] _]|]. intros [p Hp]. split; [eauto|]. apply Hall, elem_of_ids. eauto.
Qed.
End upsert_spec.

(** ** Witnesses *)

Import SampleInstances.

(** A segment with two points that takes no writes, and an empty one. *)
Definition update_holder : SegmentHolder SampleSeg :=
  mkHolder (<[1%N := frozen_segment]> {[ 2%N := empty_segment ]}) ∅ None.

Definition sample_config : gmap string VectorDataConfig := {[ "" := mkVectorDataConfig 2 Dot None None ]}.

Definition new_points : list (PointStruct (Num:=Z)) :=
  [mkPointStruct (NumId 7) (VSingle [f32_zero; f32_one]) None;
   mkPointStruct (NumId 9) (VSingle [f32_one; f32_one]) (Some (color_payload 0))].

Lemma update_holder_copy id e :
  copy (Num:=Z) (SP:=unit) update_holder id e = if decide (id = 1%N) then abs_point frozen_segment e else None.
Proof.
  unfold copy, update_holder. cbn [segments]. destruct (decide (id = 1%N)) as [->|Hne]; [by rewrite lookup_insert_eq|].
  rewrite lookup_insert_ne by done. destruct (decide (id = 2%N)) as [->|Hne2].
  - rewrite lookup_singleton_eq. apply empty_points.
  - by rewrite lookup_singleton_ne.
Qed.

Lemma update_holder_single : single (Num:=Z) (SP:=unit) update_holder.
Proof.
  intros id1 id2 e. rewrite !update_holder_copy. destruct (decide (id1 = 1%N)), (decide (id2 = 1%N)); intros [] []; congruence.
Qed.

Lemma update_holder_old id e pt : copy (Num:=Z) (SP:=unit) update_holder id e = Some pt → (pt_version pt < 5)%N.
Proof.
  rewrite update_holder_copy. destruct (decide (id = 1%N)); [|done]. intros Hpt.
  assert (e ∈ sample_ids) as He by (apply frozen_points; eauto). revert Hpt.
  apply elem_of_cons in He as [->|He]; [|apply elem_of_cons in He as [->|He]; [|by apply not_elem_of_nil in He]].
  all: vm_compute; intros [= <-]; reflexivity.
Qed.

Lemma update_holder_ready :
  ready (Num:=Z) (SP:=unit) sample_config 5 (list_to_set (map_to_list (points_map new_points)).*1) update_holder.
Proof.
  intros id s. unfold update_holder. cbn [segments]. rewrite lookup_insert_Some, lookup_singleton_Some.
  intros [[_ <-]|(_ & _ & <-)]; split_and!.
  - apply frozen_segment_wf.
  - vm_compute; reflexivity.
  - vm_compute; reflexivity.
  - intros Ha. vm_compute in Ha. discriminate.
  - apply empty_segment_wf.
  - vm_compute; reflexivity.
  - vm_compute; reflexivity.
  - intros _. split; vm_compute; discriminate.
Qed.

Lemma new_points_fit p : p ∈ new_points → vectors_fit sample_config (tm_view (get_vectors p)).
Proof.
  intros Hp. apply elem_of_cons in Hp as [->|Hp]; [apply sample_fit|].
  apply elem_of_cons in Hp as [->|Hp]; [apply sample_fit|by apply not_elem_of_nil in Hp].
Qed.

Lemma head_choice (l : list N) x : head l = Some x → x ∈ l.
Proof. destruct l; [done|]. intros [= ->]. left. Qed.

Lemma head_choice_some (l : list N) : l ≠ [] → is_Some (head l).
Proof. destruct l; [done|eauto]. Qed.

Lemma upsert_points_refines_witness :
  let run := upsert_points (SP:=unit) no_display (λ _, true) head 5 new_points update_holder in
  run.1 = Ok 1 ∧ upsert_post sample_config 5 new_points update_holder 1 run.2.
Proof.
  intros run. assert (run.1 = Ok 1) as Hr by (vm_compute; reflexivity). split; [exact Hr|].
  pose proof (upsert_points_refines (SP:=unit) sample_config 5 new_points new_points_fit no_display (λ _, true) head) as Hwp.
  specialize (Hwp head_choice head_choice_some update_holder
    update_holder_single update_holder_ready update_holder_old).
  unfold sm_wp in Hwp. fold run in Hwp. destruct run as [r h']. cbn in Hr. subst r. exact Hwp.
Defined.

Definition replay_points : list (PointStruct (Num:=Z)) := [mkPointStruct (NumId 7) (VSingle [f32_zero; f32_one]) (Some ∅)].

Lemma replay_ids e : e ∈ (map_to_list (points_map replay_points)).*1 → e = NumId 7.
Proof.
  assert ((map_to_list (points_map replay_points)).*1 = [NumId 7]) as -> by (vm_compute; reflexivity).
  by intros ?%list_elem_of_singleton.
Qed.

Lemma update_holder_replayed : replayed (Num:=Z) (SP:=unit) 3 update_holder (map_to_list (points_map replay_points)).*1.
Proof.
  split.
  - intros id s Hs. by apply (update_holder_ready id s).
  - intros id e pt ->%replay_ids. rewrite update_holder_copy. destruct (decide (id = 1%N)); [|done].
    vm_compute. intros [= <-]. discriminate.
Qed.

Lemma replay_found e : e ∈ (map_to_list (points_map replay_points)).*1 → ∃ id, is_Some (copy (Num:=Z) (SP:=unit) update_holder id e).
Proof. intros ->%replay_ids. exists 1%N. rewrite update_holder_copy. vm_compute. eauto. Qed.

Lemma update_holder_appendable : appendable_segments (Num:=Z) (SP:=unit) update_holder ≠ [].
Proof. vm_compute. discriminate. Qed.

