(* ===== verification/ReplicaSet.v ===== *)
(** * Replica sets

    Models [ShardReplicaSet] of [lib/collection/src/shards/replica_set.rs] and
    the forwarding proxy of [forward_proxy_shard.rs].

    Remote replicas are reached over the network: what they answer is an
    argument of the operations.  Saving the state of the replica set to its
    file may fail ([save]); building, clearing and loading of the local shard
    are outcomes as well.  [notify_peer_failure] hands a peer to a callback;
    the peers handed over are kept in order in [rs_notified].  The answers of
    concurrent reads arrive in an order that is an argument too.

    Not modelled: snapshots, telemetry and the paths of files. *)

From stdpp Require Import base gmap strings list sorting.
From Stdlib Require Import ZArith.
From S2P Require Import Prelude Types Rocks Filters SegmentHolder Requests Operations CollectionConfig Shards Resolve.

(** ** State *)

Inductive ReplicaState : Type := Active | Dead | Partial | Initializing | Listener.

#[export] Instance ReplicaState_eq_dec : EqDecision ReplicaState.
Proof. solve_decision. Defined.

Record ReplicaSetState := mkReplicaSetState {
  is_local : bool;
  this_peer_id : PeerId;
  peers : gmap PeerId ReplicaState;
}.

Definition get_peer_state (self : ReplicaSetState) (peer_id : PeerId) : option ReplicaState := peers self !! peer_id.

Definition set_peer_state (peer_id : PeerId) (state : ReplicaState) (self : ReplicaSetState) : ReplicaSetState :=
  mkReplicaSetState (is_local self) (this_peer_id self) (<[peer_id := state]> (peers self)).

Definition remove_peer_state (peer_id : PeerId) (self : ReplicaSetState) : ReplicaSetState :=
  mkReplicaSetState (is_local self) (this_peer_id self) (delete peer_id (peers self)).

Definition set_peers (ps : gmap PeerId ReplicaState) (self : ReplicaSetState) : ReplicaSetState :=
  mkReplicaSetState (is_local self) (this_peer_id self) ps.

Definition set_is_local (b : bool) (self : ReplicaSetState) : ReplicaSetState :=
  mkReplicaSetState b (this_peer_id self) (peers self).

Inductive Shard (L : Type) : Type :=
| SLocal (local_shard : L)
| SProxy (wrapped_shard : L)
| SForwardProxy (wrapped_shard : L) (remote_peer : PeerId).
Arguments SLocal {L}.
Arguments SProxy {L}.
Arguments SForwardProxy {L}.

Record ReplicaSet (L : Type) := mkReplicaSet {
  rs_local : option (Shard L);
  rs_remotes : list PeerId;
  rs_state : ReplicaSetState;
  locally_disabled_peers : gset PeerId;
  rs_notified : list PeerId;
}.
Arguments mkReplicaSet {L}.
Arguments rs_local {L}.
Arguments rs_remotes {L}.
Arguments rs_state {L}.
Arguments locally_disabled_peers {L}.
Arguments rs_notified {L}.

Definition READ_REMOTE_REPLICAS : nat := 2.

Section replica_set.
Context {L : Type}.
Abbreviation RS := (ReplicaSet L).
Abbreviation Op := (sm RS CollectionError).
Context (shard_id collection_id : string) (display_peer : PeerId → string).

Definition is_local_shard (self : RS) : bool := match rs_local self with Some (SLocal _) => true | _ => false end.
Definition has_local_shard (self : RS) : bool := match rs_local self with Some _ => true | None => false end.

Definition peer_state (self : RS) (peer_id : PeerId) : option ReplicaState := get_peer_state (rs_state self) peer_id.

Definition is_locally_disabled (self : RS) (peer_id : PeerId) : bool := bool_decide (peer_id ∈ locally_disabled_peers self).

Definition peer_is_active (self : RS) (peer_id : PeerId) : bool :=
  bool_decide (peer_state self peer_id = Some Active) && negb (is_locally_disabled self peer_id).

Definition peer_is_active_or_pending (self : RS) (peer_id : PeerId) : bool :=
  let res := match peer_state self peer_id with
             | Some Active | Some Partial | Some Initializing | Some Listener => true
             | Some Dead | None => false
             end in
  res && negb (is_locally_disabled self peer_id).

(** [max] of the keys. *)
Definition max_peer (l : list PeerId) : option PeerId :=
  match l with [] => None | p :: l => Some (fold_left N.max l p) end.

Definition highest_replica_peer_id (self : RS) : option PeerId := max_peer (map_to_list (peers (rs_state self))).*1.

Definition highest_alive_replica_peer_id (self : RS) : option PeerId :=
  max_peer (base.filter (λ peer_id, peer_is_active self peer_id = true) (map_to_list (peers (rs_state self))).*1).

Definition active_remote_shards (self : RS) : list PeerId :=
  base.filter (λ peer_id, peer_is_active self peer_id = true) (rs_remotes self).

Definition init_remote_shards (state : ReplicaSetState) : list PeerId :=
  base.filter (λ peer, peer ≠ this_peer_id state) (map_to_list (peers state)).*1.

(** ** Changing the state *)

Context (save : ReplicaSetState → result CollectionError unit).

Definition set_state (state : ReplicaSetState) (self : RS) : RS :=
  mkReplicaSet (rs_local self) (rs_remotes self) state (locally_disabled_peers self) (rs_notified self).
Definition set_local_shard (local : option (Shard L)) (self : RS) : RS :=
  mkReplicaSet local (rs_remotes self) (rs_state self) (locally_disabled_peers self) (rs_notified self).
Definition set_remotes (remotes : list PeerId) (self : RS) : RS :=
  mkReplicaSet (rs_local self) remotes (rs_state self) (locally_disabled_peers self) (rs_notified self).
Definition set_disabled (disabled : gset PeerId) (self : RS) : RS :=
  mkReplicaSet (rs_local self) (rs_remotes self) (rs_state self) disabled (rs_notified self).

(** [SaveOnDisk::write]: the new state is saved before it takes effect. *)
Definition write_state (f : ReplicaSetState → ReplicaSetState) : Op unit := λ self,
  let state := f (rs_state self) in
  match save state with
  | Ok _ => (Ok tt, set_state state self)
  | Err e => (Err e, self)
  | Panic => (Panic, self)
  end.

Definition update_locally_disabled (peer_id_to_remove : PeerId) : Op unit := sm_modify (λ self,
  let active_peers := (base.filter (λ p : PeerId * ReplicaState, p.2 = Active) (map_to_list (peers (rs_state self)))).*1 in
  let locally_disabled := locally_disabled_peers self ∖ {[ peer_id_to_remove ]} in
  set_disabled (match active_peers with [last_peer] => locally_disabled ∖ {[ last_peer ]} | _ => locally_disabled end) self).

Definition notify_peer_failure (peer_id : PeerId) : Op unit := sm_modify (λ self,
  mkReplicaSet (rs_local self) (rs_remotes self) (rs_state self) (locally_disabled_peers self) (rs_notified self ++ [peer_id])).

Definition disable_locally (peer_id : PeerId) : Op unit := sm_modify (λ self,
  set_disabled ({[ peer_id ]} ∪ locally_disabled_peers self) self).

Definition remove_remote (peer_id : PeerId) : Op unit :=
  _ ← write_state (remove_peer_state peer_id);
  _ ← update_locally_disabled peer_id;
  sm_modify (λ self, set_remotes (base.filter (λ remote, remote ≠ peer_id) (rs_remotes self)) self).

Definition add_remote (peer_id : PeerId) (state : ReplicaState) : Op unit :=
  _ ← write_state (set_peer_state peer_id state);
  _ ← update_locally_disabled peer_id;
  sm_modify (λ self, if decide (peer_id ∈ rs_remotes self) then self else set_remotes (rs_remotes self ++ [peer_id]) self).

(** [clear] is the outcome of removing the files of the local shard. *)
Definition remove_local (clear : result CollectionError unit) : Op unit :=
  _ ← write_state (λ rs, remove_peer_state (this_peer_id rs) (set_is_local false rs));
  self ← sm_get;
  _ ← update_locally_disabled (this_peer_id (rs_state self));
  self ← sm_get;
  _ ← sm_modify (set_local_shard None);
  match rs_local self with
  | Some _ => sm_lift clear
  | None => mret tt
  end.

Definition set_local (local : L) (state : option ReplicaState) : Op (option (Shard L)) :=
  self ← sm_get;
  let old_shard := rs_local self in
  _ ← sm_modify (set_local_shard (Some (SLocal local)));
  _ ← (if negb (is_local (rs_state self)) || bool_decide (is_Some state)
       then write_state (λ rs, match state with
              | Some active => set_peer_state (this_peer_id (rs_state self)) active (set_is_local true rs)
              | None => set_is_local true rs
              end)
       else mret tt);
  _ ← update_locally_disabled (this_peer_id (rs_state self));
  mret old_shard.

Definition remove_peer (clear : result CollectionError unit) (peer_id : PeerId) : Op unit :=
  self ← sm_get;
  if decide (this_peer_id (rs_state self) = peer_id) then remove_local clear else remove_remote peer_id.

Definition set_replica_state (peer_id : PeerId) (state : ReplicaState) : Op unit :=
  _ ← write_state (λ rs, set_peer_state peer_id state
         (if decide (this_peer_id rs = peer_id) then set_is_local true rs else rs));
  update_locally_disabled peer_id.

(** [build] is the outcome of creating an empty local shard. *)
Definition add_peer (build : result CollectionError L) (peer_id : PeerId) (state : ReplicaState) : Op unit :=
  self ← sm_get;
  if decide (this_peer_id (rs_state self) = peer_id)
  then
    new_local ← (match rs_local self with
                 | None => local ← sm_lift build; mret (Some (SLocal local))
                 | Some _ => mret None
                 end);
    _ ← set_replica_state peer_id state;
    match new_local with
    | Some _ => sm_modify (set_local_shard new_local)
    | None => mret tt
    end
  else add_remote peer_id state.

Definition ensure_replica_with_state (peer_id : PeerId) (state : ReplicaState) : Op unit :=
  self ← sm_get;
  if decide (peer_id = this_peer_id (rs_state self)) then set_replica_state peer_id state else add_remote peer_id state.

(** *** Applying the state of the consensus *)

Definition apply_new_peer (build : result CollectionError L) (old_peers : gmap PeerId ReplicaState) (p : PeerId * ReplicaState) : Op unit :=
  let '(peer_id, state) := p in
  if decide (is_Some (old_peers !! peer_id)) then mret tt
  else
    self ← sm_get;
    if decide (peer_id = this_peer_id (rs_state self))
    then
      local_shard ← sm_lift build;
      _ ← set_local local_shard (Some state);
      match state with
      | Active | Listener => notify_peer_failure peer_id
      | Dead | Partial | Initializing => mret tt
      end
    else sm_modify (λ self, set_remotes (rs_remotes self ++ [peer_id]) self).

Definition apply_state (clear : result CollectionError unit) (build : result CollectionError L)
    (replicas : gmap PeerId ReplicaState) : Op unit :=
  self ← sm_get;
  let old_peers := peers (rs_state self) in
  _ ← write_state (set_peers replicas);
  _ ← sm_modify (set_disabled ∅);
  let removed_peers := base.filter (λ peer_id, replicas !! peer_id = None) (map_to_list old_peers).*1 in
  _ ← sm_for (remove_peer clear) removed_peers;
  sm_for (apply_new_peer build old_peers) (map_to_list replicas).

(** *** Proxies of the local shard *)

Definition variant_name (shard : Shard L) : string :=
  match shard with
  | SLocal _ => "local shard"
  | SProxy _ => "proxy shard"
  | SForwardProxy _ _ => "forward proxy shard"
  end.

Definition proxify_local (remote_peer : PeerId) : Op unit :=
  self ← sm_get;
  match rs_local self with
  | Some (SLocal local) => sm_modify (set_local_shard (Some (SForwardProxy local remote_peer)))
  | Some (SForwardProxy _ peer) =>
      if decide (peer = remote_peer) then mret tt
      else sm_fail (CServiceError ("Cannot proxify local shard " +:+ shard_id +:+ " to peer " +:+ display_peer remote_peer
             +:+ " because it is already proxified to peer " +:+ display_peer peer))
  | Some shard =>
      sm_fail (CServiceError ("Cannot proxify local shard " +:+ variant_name shard +:+ " - " +:+ shard_id +:+ " to peer "
        +:+ display_peer remote_peer +:+ " because it is already proxified to another peer"))
  | None =>
      sm_fail (CServiceError ("Cannot proxify local shard " +:+ shard_id +:+ " on peer " +:+
        display_peer (this_peer_id (rs_state self)) +:+ " because it is not active"))
  end.

Definition un_proxify_local : Op unit :=
  self ← sm_get;
  match rs_local self with
  | Some (SForwardProxy local _) => sm_modify (set_local_shard (Some (SLocal local)))
  | Some (SLocal _) => mret tt
  | Some shard =>
      sm_fail (CServiceError ("Cannot un-proxify local shard " +:+ shard_id +:+ " because it has unexpected type - "
        +:+ variant_name shard))
  | None =>
      sm_fail (CServiceError ("Cannot un-proxify local shard " +:+ shard_id +:+ " on peer " +:+
        display_peer (this_peer_id (rs_state self)) +:+ " because it is not active"))
  end.

(** ** Building and loading *)

(** The directory is created first and the configuration saved last. *)
Definition build (created config_saved : result CollectionError unit) (this_peer : PeerId)
    (local : option (result CollectionError L)) (remotes : list PeerId)
    (loaded : result CollectionError ReplicaSetState) : result CollectionError RS :=
  _ ← created;
  local ← (match local with Some b => shard ← b; mret (Some (SLocal shard)) | None => mret None end);
  rs ← loaded;
  let rs := mkReplicaSetState (is_local rs) this_peer (peers rs) in
  let rs := match local with
            | Some _ => set_peer_state this_peer Initializing (set_is_local true rs)
            | None => rs
            end in
  let rs := fold_left (λ rs peer, set_peer_state peer Initializing rs) remotes rs in
  _ ← save rs;
  _ ← config_saved;
  mret (mkReplicaSet local (init_remote_shards rs) rs ∅ []).

(** [load] panics where an operation fails. *)
Definition or_panic {A} (r : result CollectionError A) : result CollectionError A :=
  match r with Ok a => Ok a | _ => Panic end.

(** The peer id [this_peer_id] that the closure reads is the one of the
    saved state, which hides the argument. *)
Definition load_change_peer (rs : ReplicaSetState) : ReplicaSetState :=
  let this_peer := this_peer_id rs in
  let local_state := peers rs !! this_peer in
  let rs := remove_peer_state this_peer rs in
  let rs := match local_state with Some state => set_peer_state this_peer state rs | None => rs end in
  mkReplicaSetState (is_local rs) this_peer (peers rs).

Definition load (this_peer : PeerId) (loaded : result CollectionError ReplicaSetState)
    (load_local : result CollectionError L) : result CollectionError RS :=
  rs ← or_panic loaded;
  rs ← (if decide (this_peer_id rs = this_peer) then mret rs
        else let rs := load_change_peer rs in _ ← or_panic (save rs); mret rs);
  local ← (if is_local rs then shard ← or_panic load_local; mret (Some (SLocal shard)) else mret None);
  mret (mkReplicaSet local (init_remote_shards rs) rs ∅ []).

(** ** Updates *)

Inductive UpdateStatus : Type := Acknowledged | Completed.

Record UpdateResult := mkUpdateResult { operation_id : Z; update_status : UpdateStatus }.

(** What concerns the failing replica, not the request. *)
Definition is_transient (err : CollectionError) : bool :=
  match err with CServiceError _ | CCancelled _ => true | _ => false end.

Definition partition_result {A B} (rs : list (A + B)) : list A * list B :=
  (omap (λ r, match r with inl a => Some a | inr _ => None end) rs,
   omap (λ r, match r with inl _ => None | inr b => Some b end) rs).

(** One round of the loop over the failures. *)
Definition handle_failure (state : ReplicaSetState) (f : PeerId * CollectionError) (wait_for_deactivation : bool) : Op bool :=
  let '(peer_id, err) := f in
  match get_peer_state state peer_id with
  | Some Active =>
      _ ← disable_locally peer_id;
      _ ← notify_peer_failure peer_id;
      mret (is_transient err || wait_for_deactivation)
  | _ => mret wait_for_deactivation
  end.

Definition handle_failed_replicas (failures : list (PeerId * CollectionError)) (state : ReplicaSetState) : Op bool :=
  sm_fold (handle_failure state) failures false.

Definition sync_local_state : Op unit :=
  self ← sm_get;
  sm_for notify_peer_failure (elements (locally_disabled_peers self)).

Section updates.
(** What a remote replica answers, and the update of the local shard. *)
Context (remote_update : PeerId → CollectionError + UpdateResult).
Context (shard_update : bool → Shard L → (CollectionError + UpdateResult) * Shard L).
(** The replica set when waiting for the deactivation of peers is over. *)
Context (waited : RS → RS).
Context (write_consistency_factor : nat).

Abbreviation Answer := (UpdateResult + PeerId * CollectionError)%type.

Definition remote_answer (peer_id : PeerId) : Answer :=
  match remote_update peer_id with inr res => inl res | inl err => inr (peer_id, err) end.

Definition local_answer (this_peer : PeerId) (r : CollectionError + UpdateResult) : Answer :=
  match r with inr res => inl res | inl err => inr (default this_peer (remote_peer_id err), err) end.

Definition no_active_replica (self : RS) : CollectionError :=
  CServiceError ("The replica set for shard " +:+ shard_id +:+ " on peer " +:+ display_peer (this_peer_id (rs_state self))
    +:+ " has no active replica").

(** The updates of all replicas that can receive them. *)
Definition update_replicas (wait : bool) : Op (list Answer) :=
  self ← sm_get;
  let this_peer := this_peer_id (rs_state self) in
  let active_remote_shards := base.filter (λ peer, peer_is_active_or_pending self peer = true) (rs_remotes self) in
  let local_is_updatable := has_local_shard self && peer_is_active_or_pending self this_peer in
  if bool_decide (active_remote_shards = []) && negb local_is_updatable
  then sm_fail (no_active_replica self)
  else
    match rs_local self with
    | Some local =>
        if peer_is_active_or_pending self this_peer
        then
          let local_wait := if decide (peer_state self this_peer = Some Listener) then false else wait in
          let '(local_res, local) := shard_update local_wait local in
          _ ← sm_modify (set_local_shard (Some local));
          mret ((remote_answer <$> active_remote_shards) ++ [local_answer this_peer local_res])
        else mret (remote_answer <$> active_remote_shards)
    | None => mret (remote_answer <$> active_remote_shards)
    end.

Definition peers_deactivated (peer_ids : list PeerId) (state : ReplicaSetState) : bool :=
  forallb (λ peer_id, match peers state !! peer_id with Some Active => false | _ => true end) peer_ids.

(** The task that waits reads the state and does not panic. *)
Definition wait_for_deactivation (peer_ids : list PeerId) : Op bool := λ self,
  let self := waited self in (Ok (peers_deactivated peer_ids (rs_state self)), self).

Definition deactivation_timed_out : CollectionError :=
  CServiceError ("Some replica of shard " +:+ shard_id +:+ " failed to apply operation and deactivation timed out after 30 seconds. Consistency of this update is not guaranteed. Please retry.").

(** The failing replicas are disabled, and the update waits for the consensus to do so as well. *)
Definition report_failures (wait : bool) (failures : list (PeerId * CollectionError)) : Op unit :=
  self ← sm_get;
  wait_for ← handle_failed_replicas failures (rs_state self);
  if (wait && wait_for && bool_decide (failures ≠ []) : bool)
  then
    shards_disabled ← wait_for_deactivation failures.*1;
    (if shards_disabled : bool then mret tt else sm_fail deactivation_timed_out)
  else mret tt.

Definition update (wait : bool) : Op UpdateResult :=
  all_res ← update_replicas wait;
  let total_results := length all_res in
  let successes := (partition_result all_res).1 in
  let failures := (partition_result all_res).2 in
  _ ← (if decide (successes = []) then mret tt else report_failures wait failures);
  let minimal_success_count := write_consistency_factor `min` total_results in
  match failures with
  | (_, err) :: _ =>
      if decide (length successes < minimal_success_count) then sm_fail err
      else sm_lift (match successes with res :: _ => Ok res | [] => Panic end)
  | [] => sm_lift (match successes with res :: _ => Ok res | [] => Panic end)
  end.

(** *** Leaders *)

Definition leader_peer_for_update (self : RS) (ordering : WriteOrdering) : option PeerId :=
  match ordering with
  | Weak => Some (this_peer_id (rs_state self))
  | Medium => highest_replica_peer_id self
  | Strong => highest_alive_replica_peer_id self
  end.

Definition display_ordering (ordering : WriteOrdering) : string :=
  match ordering with Weak => "Weak" | Medium => "Medium" | Strong => "Strong" end.

(** What the leader answers to a forwarded update. *)
Context (remote_forward : PeerId → CollectionError + UpdateResult).
Context (display_error : CollectionError → string).

Definition forward_update (leader_peer : PeerId) (self : RS) : CollectionError + UpdateResult :=
  if decide (leader_peer ∈ rs_remotes self) then remote_forward leader_peer
  else inl (CServiceError ("Cannot forward update to shard " +:+ shard_id +:+ " because was removed from the replica set")).

Definition update_with_consistency (wait : bool) (ordering : WriteOrdering) : Op UpdateResult :=
  self ← sm_get;
  match leader_peer_for_update self ordering with
  | None => sm_fail (CServiceError ("Cannot update shard " +:+ collection_id +:+ ":" +:+ shard_id +:+ " with " +:+
              display_ordering ordering +:+ " ordering because no leader could be selected"))
  | Some leader_peer =>
      if decide (leader_peer = this_peer_id (rs_state self)) then update wait
      else
        match forward_update leader_peer self with
        | inr res => mret res
        | inl err =>
            if is_transient err
            then
              _ ← disable_locally leader_peer;
              _ ← notify_peer_failure leader_peer;
              sm_fail (CServiceError ("Failed to apply update with " +:+ display_ordering ordering +:+
                " ordering via leader peer " +:+ display_peer leader_peer +:+ ": " +:+ display_error err))
            else sm_fail err
        end
  end.

(** Without forwarding to the remote replicas. *)
Definition update_local (wait : bool) : Op (option UpdateResult) :=
  self ← sm_get;
  match rs_local self with
  | Some local =>
      let apply wait :=
        let '(res, local) := shard_update wait local in
        _ ← sm_modify (set_local_shard (Some local));
        match res with inr res => mret (Some res) | inl err => sm_fail err end in
      match peer_state self (this_peer_id (rs_state self)) with
      | Some Active | Some Partial | Some Initializing => apply wait
      | Some Listener => apply false
      | Some Dead | None => mret None
      end
  | None => mret None
  end.
End updates.

(** ** Reads *)

Section reads.
Context {Res : Type}.
(** A read of the local shard and of a remote replica; the order in which the
    remote replicas are tried; and which of the pending reads ends next. *)
Context (read_local : Shard L → result CollectionError Res) (read_remote : PeerId → result CollectionError Res).
Context (shuffle : list PeerId → list PeerId).
Context (next : list (result CollectionError Res) → nat).

(** Waits for the next of the pending reads. *)
Definition take_next (pending : list (result CollectionError Res)) :
    option (result CollectionError Res * list (result CollectionError Res)) :=
  match pending with
  | [] => None
  | r :: _ => let i := next pending `mod` length pending in Some (default r (pending !! i), delete i pending)
  end.

(** The first success, or the last error; an error of the request ends the reads. *)
Fixpoint first_success (fuel : nat) (captured_error : option CollectionError) (pending : list (result CollectionError Res)) :
    result CollectionError Res + option CollectionError :=
  match fuel, take_next pending with
  | S fuel, Some (result, pending) =>
      match result with
      | Ok res => inl (Ok res)
      | Err err => if is_transient err then first_success fuel (Some err) pending else inl (Err err)
      | Panic => inl Panic
      end
  | _, _ => inr captured_error
  end.

(** The steps 2 and 3: a few of the active remote replicas, then the others. *)
Definition read_remotes (local_result : option CollectionError) (self : RS) : result CollectionError Res :=
  let active_remote_shards := base.filter (λ peer, peer_is_active self peer = true) (rs_remotes self) in
  match active_remote_shards with
  | [] => match local_result with Some err => Err err | None => Err (no_active_replica self) end
  | _ =>
      let active_remote_shards := shuffle active_remote_shards in
      let fan_out_selection := length active_remote_shards `min` READ_REMOTE_REPLICAS in
      let futures := read_remote <$> take fan_out_selection active_remote_shards in
      match first_success (length futures) None futures with
      | inl r => r
      | inr captured_error =>
          let futures := read_remote <$> drop fan_out_selection active_remote_shards in
          match first_success (length futures) captured_error futures with
          | inl r => r
          | inr (Some err) => Err err
          | inr None => Panic
          end
      end
  end.

Definition execute_read_operation (self : RS) : result CollectionError Res :=
  match rs_local self with
  | Some local =>
      if peer_is_active self (this_peer_id (rs_state self))
      then
        match read_local local with
        | Ok res => Ok res
        | Err err => if is_transient err then read_remotes (Some err) self else Err err
        | Panic => Panic
        end
      else read_remotes None self
  | None => read_remotes None self
  end.

(** *** Reads that are resolved *)

Context (resolve : list Res → ResolveCondition → Res).

Definition total_count (self : RS) : nat := Nat.b2n (has_local_shard self) + length (rs_remotes self).

(** [clamp] panics when the bounds are in the wrong order. *)
Definition read_factor (read_consistency : ReadConsistency) (total_count : nat) : option (nat * ResolveCondition) :=
  match read_consistency with
  | ConsistencyType All => Some (total_count, ResolveAll)
  | ConsistencyType Majority => Some (total_count, ResolveMajority)
  | ConsistencyType Quorum => Some (total_count `div` 2 + 1, ResolveAll)
  | Factor factor => if decide (1 ≤ total_count) then Some (1 `max` (factor `min` total_count), ResolveAll) else None
  end.

Definition active_local (self : RS) : option (Shard L) :=
  if peer_is_active self (this_peer_id (rs_state self)) then rs_local self else None.

(** The loop over the pending reads: [operations] are not started yet. *)
Fixpoint read_loop (fuel factor : nat) (operations pending : list (result CollectionError Res)) (responses : list Res) :
    result CollectionError (list Res) :=
  match fuel, take_next pending with
  | S fuel, Some (result, pending) =>
      responses ← (match result with
                   | Ok resp => Ok (responses ++ [resp])
                   | Err err => if is_transient err then Ok responses else Err err
                   | Panic => Panic
                   end);
      if decide (factor ≤ length responses) then Ok responses
      else
        let schedule := factor - (length responses + length pending) in
        let pending := pending ++ take schedule operations in
        let operations := drop schedule operations in
        if decide (length responses + length pending < factor) then Ok responses
        else read_loop fuel factor operations pending responses
  | _, _ => Ok responses
  end.

Definition not_enough_replicas (self : RS) : CollectionError :=
  CServiceError ("The replica set for shard " +:+ shard_id +:+ " on peer " +:+ display_peer (this_peer_id (rs_state self))
    +:+ " does not have enough active replicas").

Definition too_many_errors : CollectionError :=
  CServiceError "Failed to complete read operation: too many replicas returned an error".

Definition execute_and_resolve_read_operation (read_consistency : ReadConsistency) (self : RS) : result CollectionError Res :=
  let active_remotes := base.filter (λ peer, peer_is_active self peer = true) (rs_remotes self) in
  let active_local_count := match active_local self with Some _ => 1 | None => 0 end in
  let active_count := active_local_count + length active_remotes in
  match read_factor read_consistency (total_count self) with
  | None => Panic
  | Some (factor, condition) =>
      if decide (active_count < factor) then Err (not_enough_replicas self)
      else
        let local_operations := match active_local self with Some local => [read_local local] | None => [] end in
        let operations := local_operations ++ (read_remote <$> shuffle active_remotes) in
        let required_reads := if decide (0 < active_local_count) then factor else factor `max` READ_REMOTE_REPLICAS in
        responses ← read_loop (length operations) factor (drop required_reads operations) (take required_reads operations) [];
        if decide (factor ≤ length responses)
        then
          if decide (factor = 1)
          then match responses with resp :: _ => Ok resp | [] => Panic end
          else Ok (resolve responses condition)
        else Err too_many_errors
  end.
End reads.
End replica_set.
