(* ===== verification/ReplicaSpec.v ===== *)
(** * What replica sets promise

    After an update the replicas that reads of this node still use have
    accepted it; enough of them answer a read, the read returns; and reads of
    more replicas than can have missed an update show it.  These are the
    theorems about [ShardReplicaSet::update] and
    [execute_and_resolve_read_operation] of [replica_set.rs]. *)

From stdpp Require Import base gmap strings list sorting.
From Stdlib Require Import ZArith Lia.
From S2P Require Import Prelude Types Rocks Filters SegmentHolder Requests Operations CollectionConfig Shards Resolve ReplicaSet.

(** Every active peer has its replica: a remote one, or the local shard. *)
Record replica_set_ok {L} (self : ReplicaSet L) : Prop := mkReplicaSetOk {
  rso_this : this_peer_id (rs_state self) ∉ rs_remotes self;
  rso_NoDup : NoDup (rs_remotes self);
  rso_active p : peers (rs_state self) !! p = Some Active →
    if decide (p = this_peer_id (rs_state self)) then is_Some (rs_local self) else p ∈ rs_remotes self;
}.

Lemma handle_failed_spec {L} failures state (self : ReplicaSet L) :
  sm_wp (handle_failed_replicas failures state)
    (λ _ self', rs_state self' = rs_state self ∧ rs_local self' = rs_local self ∧ rs_remotes self' = rs_remotes self ∧
       (∀ p, p ∈ locally_disabled_peers self' ↔ p ∈ locally_disabled_peers self ∨ p ∈ failures.*1 ∧ peers state !! p = Some Active))
    (λ _ _, False) self.
Proof.
  unfold handle_failed_replicas. generalize false. revert self. induction failures as [|[q err] failures IH]; intros self b.
  - unfold sm_wp. cbn. split_and!; [done..|]. intros p. rewrite elem_of_nil. tauto.
  - cbn [sm_fold]. apply sm_wp_bind. unfold handle_failure, get_peer_state. destruct (peers state !! q) as [st|] eqn:Hq; [destruct st|].
    1: unfold sm_wp at 1; cbn. 2-6: apply sm_wp_ret.
    all: eapply sm_wp_mono; [apply IH| |done]; cbn; intros _ s' (-> & -> & -> & Hd); split_and!; [done..|]; intros p; rewrite Hd.
    all: cbn; clear -Hq; rewrite ?elem_of_union, ?elem_of_singleton, elem_of_cons; destruct (decide (p = q)) as [->|]; [rewrite Hq|]; intuition congruence.
Qed.

Section updates.
Context {L : Type} (shard_id collection_id : string) (display_peer : PeerId → string).
Context (remote_update : PeerId → CollectionError + UpdateResult).
Context (shard_update : bool → Shard L → (CollectionError + UpdateResult) * Shard L).
Context (waited : ReplicaSet L → ReplicaSet L) (write_consistency_factor : nat).
Abbreviation RS := (ReplicaSet L).
Implicit Types (self : RS) (p : PeerId) (wait : bool).
Abbreviation this self := (this_peer_id (rs_state self)).
Abbreviation run_update := (update shard_id display_peer remote_update shard_update waited write_consistency_factor).

Definition local_wait self wait : bool := if decide (peer_state self (this self) = Some Listener) then false else wait.

(** The replicas that an update is sent to. *)
Definition targets self : list PeerId :=
  base.filter (λ p, peer_is_active_or_pending self p = true) (rs_remotes self) ++
  (if has_local_shard self && peer_is_active_or_pending self (this self) then [this self] else []).

Definition answer self wait p : CollectionError + UpdateResult :=
  if decide (p = this self)
  then match rs_local self with
       | Some local => (shard_update (local_wait self wait) local).1
       | None => inl (no_active_replica shard_id display_peer self)
       end
  else remote_update p.

(** A replica has the update: it said so, or it is the local shard and the
    failure is that of the peer it forwards to after its own update. *)
Definition accepted self wait p : Prop :=
  match answer self wait p with inr _ => True | inl err => p = this self ∧ is_Some (remote_peer_id err) end.

#[export] Instance accepted_dec self wait p : Decision (accepted self wait p).
Proof using. unfold accepted. destruct (answer self wait p); apply _. Defined.

Definition answered_ok self wait p : bool := match answer self wait p with inr _ => true | inl _ => false end.

Definition labelled self p (r : CollectionError + UpdateResult) : UpdateResult + PeerId * CollectionError :=
  match r with
  | inr res => inl res
  | inl err => inr (if decide (p = this self) then default p (remote_peer_id err) else p, err)
  end.

Definition reported self wait p : PeerId * CollectionError → Prop := λ f, labelled self p (answer self wait p) = inr f.

(** *** The answers *)

Lemma update_replicas_spec self wait :
  (this self ∉ rs_remotes self) →
  sm_wp (update_replicas shard_id display_peer remote_update shard_update wait)
    (λ all_res self', targets self ≠ [] ∧ all_res = (λ p, labelled self p (answer self wait p)) <$> targets self ∧
       rs_state self' = rs_state self ∧ locally_disabled_peers self' = locally_disabled_peers self)
    (λ _ self', targets self = [] ∧ self' = self) self.
Proof using.
  intros Hthis. unfold update_replicas. apply sm_wp_bind. unfold sm_wp at 1, sm_get. cbn beta iota zeta.
  unfold targets. set (remotes := base.filter _ (rs_remotes self)).
  assert (remote_answer remote_update <$> remotes = (λ p, labelled self p (answer self wait p)) <$> remotes) as Hrem.
  { apply list_fmap_ext. intros i p Hp%list_elem_of_lookup_2. apply list_elem_of_filter in Hp as [_ Hp].
    assert (p ≠ this self) by congruence. unfold remote_answer, labelled, answer. rewrite !decide_False by done.
    destruct (remote_update p); [by rewrite decide_False|done]. }
  unfold has_local_shard. destruct (rs_local self) as [local|] eqn:Hlocal; cbn [andb].
  - destruct (peer_is_active_or_pending self (this self)) eqn:Hact.
    + rewrite andb_false_r. destruct (shard_update _ local) as [res local'] eqn:Hu. unfold sm_wp. cbn. split_and!; [by destruct remotes| |done..].
      rewrite fmap_app, Hrem. f_equal. cbn. f_equal. unfold answer. rewrite decide_True by done.
      rewrite Hlocal. fold (local_wait self wait) in Hu. rewrite Hu. destruct res; cbn; [by rewrite decide_True|done].
    + rewrite app_nil_r. destruct remotes as [|p remotes]; [done|]. rewrite bool_decide_false by done. cbn [andb negb].
      unfold sm_wp. cbn [mret sm_ret]. done.
  - rewrite app_nil_r. destruct remotes as [|p remotes]; [done|]. rewrite bool_decide_false by done. cbn [andb negb].
    unfold sm_wp. cbn [mret sm_ret]. done.
Qed.

Lemma partition_labelled self (l : list PeerId) (f : PeerId → CollectionError + UpdateResult) :
  length (partition_result ((λ p, labelled self p (f p)) <$> l)).1 =
    length (base.filter (λ p, match f p with inr _ => true | inl _ => false end = true) l) ∧
  (∀ q, q ∈ (partition_result ((λ p, labelled self p (f p)) <$> l)).2 ↔ ∃ p, p ∈ l ∧ labelled self p (f p) = inr q) ∧
  length (partition_result ((λ p, labelled self p (f p)) <$> l)).1 + length (partition_result ((λ p, labelled self p (f p)) <$> l)).2 = length l.
Proof using.
  split_and!.
  - induction l as [|p l IH]; [done|]. rewrite filter_cons. cbn in *. unfold labelled at 1. destruct (f p); cbn; [done|by rewrite IH].
  - intros q. cbn. rewrite list_elem_of_omap. setoid_rewrite list_elem_of_fmap. split.
    + intros (x & (p & -> & Hp) & Hx). exists p. split; [done|]. destruct (labelled _ _ _); [done|by injection Hx as ->].
    + intros (p & Hp & Hl). exists (labelled self p (f p)). split; [by exists p|]. by rewrite Hl.
  - induction l as [|p l IH]; [done|]. cbn in *. destruct (labelled self p (f p)); cbn; lia.
Qed.

(** *** After an update *)

Lemma report_failures_spec wait failures self :
  sm_wp (report_failures shard_id waited wait failures)
    (λ _ self', ∃ self1, (self' = self1 ∨ self' = waited self1) ∧ rs_state self1 = rs_state self ∧
       (∀ p, p ∈ locally_disabled_peers self1 ↔
          p ∈ locally_disabled_peers self ∨ p ∈ failures.*1 ∧ peers (rs_state self) !! p = Some Active))
    (λ _ self', ∃ self1, (self' = self1 ∨ self' = waited self1) ∧ rs_state self1 = rs_state self ∧
       (∀ p, p ∈ locally_disabled_peers self1 ↔
          p ∈ locally_disabled_peers self ∨ p ∈ failures.*1 ∧ peers (rs_state self) !! p = Some Active)) self.
Proof using.
  unfold report_failures. apply sm_wp_bind. unfold sm_wp at 1, sm_get. cbn beta iota zeta. apply sm_wp_bind.
  eapply sm_wp_mono; [apply handle_failed_spec| |done]. intros b self1 (Hst & _ & _ & Hd).
  destruct (wait && b && _); [|apply sm_wp_ret; exists self1; auto].
  apply sm_wp_bind. unfold sm_wp at 1, wait_for_deactivation. cbn beta iota zeta.
  destruct (peers_deactivated _ _); unfold sm_wp; cbn; exists self1; auto.
Qed.

Lemma active_target self p :
  replica_set_ok self → peer_is_active self p = true → p ∈ targets self.
Proof using.
  intros [_ _ Hrep] Hact. assert (peer_is_active_or_pending self p = true) as Hp.
  { unfold peer_is_active, peer_is_active_or_pending in *. apply andb_true_iff in Hact as [->%bool_decide_eq_true ->]. done. }
  unfold peer_is_active in Hact. apply andb_true_iff in Hact as [Ha%bool_decide_eq_true _]. specialize (Hrep p Ha).
  unfold targets. rewrite elem_of_app, list_elem_of_filter. destruct (decide (p = this self)) as [->|Hne].
  - right. unfold has_local_shard. destruct Hrep as [l ->]. rewrite Hp. by left.
  - by left.
Qed.

(** A target that did not accept the update is among the reported failures. *)
Lemma not_accepted_reported self wait p :
  p ∈ targets self → ¬ accepted self wait p → ∃ err, reported self wait p (p, err).
Proof using.
  intros _ Hacc. unfold accepted, reported, labelled in *. destruct (answer self wait p) as [err|res]; [|by destruct Hacc].
  exists err. destruct (decide (p = this self)) as [->|]; [|done]. destruct (remote_peer_id err) as [q|] eqn:Hq; [|done].
  destruct Hacc. eauto.
Qed.

Context (waited_inactive : ∀ self p, peer_is_active (waited self) p = true → peer_is_active self p = true).

Lemma disabled_inactive self self1 self' p :
  rs_state self1 = rs_state self → (self' = self1 ∨ self' = waited self1) → peer_is_active self' p = true →
  (p ∉ locally_disabled_peers self1) ∧ peers (rs_state self) !! p = Some Active.
Proof using waited_inactive.
  intros Hst Hself Hact. assert (peer_is_active self1 p = true) as H1 by (destruct Hself as [->| ->]; auto).
  unfold peer_is_active, is_locally_disabled, peer_state, get_peer_state in H1. rewrite Hst in H1.
  apply andb_true_iff in H1 as [?%bool_decide_eq_true ?%negb_true_iff%bool_decide_eq_false]. done.
Qed.

Lemma same_active self self0 p :
  rs_state self0 = rs_state self → locally_disabled_peers self0 = locally_disabled_peers self →
  peer_is_active self0 p = true → peer_is_active self p = true.
Proof using. unfold peer_is_active, is_locally_disabled, peer_state, get_peer_state. by intros -> ->. Qed.

Lemma update_wp self wait :
  replica_set_ok self → 1 ≤ write_consistency_factor →
  let n := length (base.filter (λ p, answered_ok self wait p = true) (targets self)) in
  let kept self' := (∀ p, peer_is_active self' p = true → peer_is_active self p = true ∧ (0 < n → accepted self wait p)) in
  sm_wp (run_update wait) (λ _ self', 0 < n ∧ write_consistency_factor `min` length (targets self) ≤ n ∧ kept self') (λ _, kept) self.
Proof using waited_inactive.
  intros Hok Hf n kept. unfold update. apply sm_wp_bind. eapply sm_wp_mono; [apply update_replicas_spec| |].
  { apply Hok. }
  2: { intros e s' [Ht ->]. subst n kept. rewrite Ht. cbn. split; [done|lia]. }
  intros all_res self0 (Hne & -> & Hst & Hdis). cbv beta zeta.
  destruct (partition_labelled self (targets self) (answer self wait)) as (Hlen & Hfail & Hsum).
  change (length (base.filter _ _)) with n in Hlen. rewrite length_fmap.
  set (pr := partition_result _) in *. clearbody pr. destruct pr as [successes failures]. cbn [fst snd] in *.
  assert (length (targets self) ≠ 0) as Ht by by destruct (targets self).
  apply sm_wp_bind. apply (sm_wp_mono _ (λ _, kept) _ (λ _, kept)).
  - destruct (decide (successes = [])) as [->|Hs]; [apply sm_wp_ret; subst kept; cbn in *|].
    { intros p Hp. split; [by apply (same_active self self0)|lia]. }
    assert (∀ self1 self', (self' = self1 ∨ self' = waited self1) ∧ rs_state self1 = rs_state self0 ∧
       (∀ p, p ∈ locally_disabled_peers self1 ↔
          p ∈ locally_disabled_peers self0 ∨ p ∈ failures.*1 ∧ peers (rs_state self0) !! p = Some Active) → kept self') as Hkept.
    { intros self1 self' (Hself & Hst1 & Hd) p Hp. rewrite Hst in *. destruct (disabled_inactive self self1 self' p) as [Hnd Hact]; [done..|].
      assert (peer_is_active self p = true) as Hact'.
      { unfold peer_is_active, is_locally_disabled, peer_state, get_peer_state. rewrite bool_decide_true, bool_decide_false; [done| |done].
        rewrite <-Hdis. rewrite Hd in Hnd. tauto. }
      split; [done|intros _]. destruct (decide (Exists (λ f, f.1 = p) failures)) as [Hex|Hno].
      - apply Exists_exists in Hex as (f & Hf1 & <-). destruct Hnd. apply Hd. right. split; [by apply list_elem_of_fmap_2|done].
      - destruct (decide (accepted self wait p)) as [?|Hacc]; [done|]. destruct Hno.
        apply not_accepted_reported in Hacc as [err Herr]; [|by apply active_target]. apply Exists_exists. exists (p, err). split; [|done].
        apply Hfail. exists p. split; [by apply active_target|done]. }
    eapply sm_wp_mono; [apply report_failures_spec|intros ? self' [self1 H]; by apply (Hkept self1)..].
  - intros _ self' Hk. destruct failures as [|[q err] failures].
    + destruct successes; [cbn in *; lia|]. unfold sm_wp. cbn in *. split_and!; [lia..|done].
    + destruct (decide _) as [?|Hlt]; unfold sm_wp; [done|]. destruct successes; cbn in *; [lia|]. split_and!; [lia..|done].
  - done.
Qed.
End updates.

(** ** Reads *)

Section reads.
Context {L Res : Type} (shard_id : string) (display_peer : PeerId → string).
Context (read_local : Shard L → result CollectionError Res) (read_remote : PeerId → result CollectionError Res).
Context (shuffle : list PeerId → list PeerId) (next : list (result CollectionError Res) → nat).
Context (resolve : list Res → ResolveCondition → Res).
Context (shuffle_perm : ∀ l, shuffle l ≡ₚ l).
Abbreviation RS := (ReplicaSet L).
Abbreviation Answer := (result CollectionError Res).
Implicit Types (self : RS) (ops pending : list Answer).
Abbreviation run_read := (execute_and_resolve_read_operation shard_id display_peer read_local read_remote shuffle next resolve).
Abbreviation loop := (read_loop next).
Abbreviation this self := (this_peer_id (rs_state self)).

Definition is_ok (r : Answer) : bool := match r with Ok _ => true | _ => false end.
Definition is_soft (r : Answer) : bool := match r with Ok _ => true | Err err => is_transient err | Panic => false end.
Definition oks (l : list Answer) : list Answer := base.filter (λ r, is_ok r = true) l.

Lemma take_next_Some pending r rest :
  take_next next pending = Some (r, rest) → pending ≡ₚ r :: rest.
Proof using.
  destruct pending as [|x pending]; [done|]. unfold take_next. set (i := next _ `mod` _). intros [= <- <-].
  assert (i < length (x :: pending)) as Hi by (apply Nat.mod_upper_bound; done).
  destruct (lookup_lt_is_Some_2 _ _ Hi) as [y Hy]. rewrite Hy. by apply delete_Permutation.
Qed.

Lemma take_next_None pending : take_next next pending = None → pending = [].
Proof using. by destruct pending. Qed.

Lemma oks_perm l k : l ≡ₚ k → length (oks l) = length (oks k).
Proof using. intros H. unfold oks. by rewrite H. Qed.

Lemma length_oks_fmap {A} (f : A → Answer) l : length (oks (f <$> l)) = length (base.filter (λ x, is_ok (f x) = true) l).
Proof using.
  unfold oks. induction l as [|x l IH]; [done|]. rewrite fmap_cons, !filter_cons. destruct (decide (is_ok (f x) = true)); cbn; by rewrite IH.
Qed.

(** Every response is the answer of an operation of its own. *)
Lemma read_loop_sound fuel factor ops pending resps resps' :
  loop fuel factor ops pending resps = Ok resps' → (Ok <$> resps') ⊆+ (Ok <$> resps) ++ pending ++ ops.
Proof using.
  revert ops pending resps. induction fuel as [|fuel IH]; intros ops pending resps; cbn [read_loop].
  { intros [= <-]. apply submseteq_inserts_r. done. }
  destruct (take_next next pending) as [[r rest]|] eqn:Hn; [|intros [= <-]; by apply submseteq_inserts_r].
  apply take_next_Some in Hn. rewrite Hn.
  assert (∀ resps1, (Ok <$> resps1) ⊆+ (Ok <$> resps) ++ [r] → (if decide (factor ≤ length resps1) then Ok resps1 else
    if decide (length resps1 + length (rest ++ take (factor - (length resps1 + length rest)) ops) < factor) then Ok resps1
    else loop fuel factor (drop (factor - (length resps1 + length rest)) ops) (rest ++ take (factor - (length resps1 + length rest)) ops) resps1) = Ok resps' →
    (Ok <$> resps') ⊆+ (Ok <$> resps) ++ (r :: rest) ++ ops) as Hstep.
  { intros resps1 Hsub. assert ((Ok <$> resps1) ⊆+ (Ok <$> resps) ++ (r :: rest) ++ ops) as Hs1.
    { etrans; [exact Hsub|]. apply submseteq_app; [done|]. cbn. apply submseteq_skip, submseteq_nil_l. }
    destruct (decide _); [by intros [= <-]|]. destruct (decide _); [by intros [= <-]|]. intros Hl%IH. etrans; [exact Hl|].
    rewrite <-!app_assoc, take_drop. replace ((Ok <$> resps) ++ (r :: rest) ++ ops) with (((Ok <$> resps) ++ [r]) ++ rest ++ ops) by by rewrite <-app_assoc.
    by apply submseteq_app. }
  destruct r as [resp|err|]; cbn.
  - apply (Hstep (resps ++ [resp])). by rewrite fmap_app.
  - destruct (is_transient err); [|done]. apply Hstep. by apply submseteq_inserts_r.
  - done.
Qed.

(** When no answer ends the reads and enough are successes, enough responses are there. *)
Lemma read_loop_live fuel factor ops pending resps :
  Forall (λ r, is_soft r = true) (pending ++ ops) → length pending + length ops ≤ fuel →
  factor ≤ length resps + length pending → factor ≤ length resps + length (oks (pending ++ ops)) →
  ∃ resps', loop fuel factor ops pending resps = Ok resps' ∧ factor ≤ length resps'.
Proof using.
  revert ops pending resps. induction fuel as [|fuel IH]; intros ops pending resps Hsoft Hfuel Hpend Hoks; cbn [read_loop].
  { exists resps. split; [done|]. lia. }
  destruct (take_next next pending) as [[r rest]|] eqn:Hn.
  2: { apply take_next_None in Hn as ->. exists resps. split; [done|]. cbn in Hpend. lia. }
  apply take_next_Some in Hn. rewrite Hn in Hsoft. pose proof (Permutation_length Hn) as Hlen. cbn in Hlen.
  assert (length (oks (pending ++ ops)) = Nat.b2n (is_ok r) + length (oks (rest ++ ops))) as Hcount.
  { rewrite (oks_perm (pending ++ ops) (r :: rest ++ ops)) by by rewrite Hn. unfold oks. rewrite filter_cons. by destruct (is_ok r). }
  apply Forall_cons in Hsoft as [Hr Hsoft]. fold (rest ++ ops) in Hsoft.
  assert (∀ resps1, factor ≤ length resps1 + length (oks (rest ++ ops)) → ∃ resps', (if decide (factor ≤ length resps1) then Ok resps1 else
    if decide (length resps1 + length (rest ++ take (factor - (length resps1 + length rest)) ops) < factor) then Ok resps1
    else loop fuel factor (drop (factor - (length resps1 + length rest)) ops) (rest ++ take (factor - (length resps1 + length rest)) ops) resps1) = Ok resps' ∧
    factor ≤ length resps') as Hstep.
  { intros resps1 H1. destruct (decide _); [eauto|]. rewrite length_app, length_take.
    assert (length (oks (rest ++ ops)) ≤ length (rest ++ ops)) as Hle by apply length_filter. rewrite length_app in Hle.
    destruct (decide _); [lia|]. apply IH; rewrite <-?app_assoc, ?take_drop; [done| | |done]; rewrite ?length_app, ?length_take, ?length_drop; lia. }
  destruct r as [resp|err|]; cbn in Hr, Hcount |- *.
  - apply Hstep. rewrite length_app. cbn. lia.
  - rewrite Hr. apply Hstep. lia.
  - done.
Qed.

(** *** The replicas that answer *)

Definition read_replica self (p : PeerId) : Answer :=
  if decide (p = this self)
  then match rs_local self with Some local => read_local local | None => Panic end
  else read_remote p.

(** All replicas, and those that are read. *)
Definition replicas self : list PeerId := (if has_local_shard self then [this self] else []) ++ rs_remotes self.

Definition active_replicas self : list PeerId := base.filter (λ p, peer_is_active self p = true) (replicas self).

Definition operations self : list Answer :=
  match active_local self with Some local => [read_local local] | None => [] end ++
  (read_remote <$> shuffle (base.filter (λ peer, peer_is_active self peer = true) (rs_remotes self))).

Lemma length_replicas self : length (replicas self) = total_count self.
Proof using. unfold replicas, total_count. rewrite length_app. by destruct (has_local_shard self). Qed.

Lemma replicas_NoDup self : replica_set_ok self → NoDup (replicas self).
Proof using.
  intros [Hr Hnd _]. unfold replicas. destruct (has_local_shard self); [|done]. cbn. by constructor.
Qed.

Lemma active_local_replicas self :
  active_replicas self = match active_local self with Some _ => [this self] | None => [] end ++
    base.filter (λ p, peer_is_active self p = true) (rs_remotes self).
Proof using.
  unfold active_replicas, replicas, active_local, has_local_shard. rewrite filter_app. f_equal.
  destruct (rs_local self); [|by destruct (peer_is_active _ _)]. rewrite filter_cons, filter_nil. by destruct (peer_is_active self _).
Qed.

Lemma operations_perm self : replica_set_ok self → operations self ≡ₚ read_replica self <$> active_replicas self.
Proof using shuffle_perm.
  intros [Hr _ _]. rewrite active_local_replicas, fmap_app. unfold operations. rewrite shuffle_perm.
  assert (read_remote <$> base.filter (λ p, peer_is_active self p = true) (rs_remotes self) =
    read_replica self <$> base.filter (λ p, peer_is_active self p = true) (rs_remotes self)) as ->.
  { apply list_fmap_ext. intros i p Hp%list_elem_of_lookup_2. apply list_elem_of_filter in Hp as [_ Hp]. unfold read_replica.
    rewrite decide_False; [done|]. by intros ->. }
  unfold active_local. destruct (peer_is_active _ _); [|done]. destruct (rs_local self) as [local|] eqn:Hl; [|done]. cbn.
  unfold read_replica at 2. by rewrite decide_True, Hl.
Qed.

Lemma length_operations self : length (operations self) = length (active_replicas self).
Proof using shuffle_perm.
  rewrite active_local_replicas. unfold operations. rewrite !length_app, length_fmap, shuffle_perm. by destruct (active_local self).
Qed.

Definition required_reads self factor : nat :=
  match active_local self with Some _ => factor | None => factor `max` READ_REMOTE_REPLICAS end.

Lemma run_read_unfold read_consistency self :
  run_read read_consistency self =
    match read_factor read_consistency (total_count self) with
    | None => Panic
    | Some (factor, condition) =>
        if decide (length (active_replicas self) < factor) then Err (not_enough_replicas shard_id display_peer self)
        else
          responses ← loop (length (operations self)) factor (drop (required_reads self factor) (operations self))
            (take (required_reads self factor) (operations self)) [];
          if decide (factor ≤ length responses)
          then if decide (factor = 1) then match responses with resp :: _ => Ok resp | [] => Panic end
               else Ok (resolve responses condition)
          else Err too_many_errors
    end.
Proof using.
  unfold execute_and_resolve_read_operation. rewrite active_local_replicas, length_app. unfold operations, required_reads.
  by destruct (active_local self).
Qed.

Lemma read_factor_le rc n factor condition : read_factor rc n = Some (factor, condition) → 1 ≤ n → 1 ≤ factor ≤ n.
Proof using.
  intros H Hn. pose proof (Nat.div_mod_eq n 2) as Hd. pose proof (Nat.mod_upper_bound n 2) as Hm. revert H.
  destruct rc as [f|[]]; cbn [read_factor]; [case_decide; [|done]|..]; generalize dependent (n `div` 2); intros q Hd [= <- _]; lia.
Qed.

(** The responses of a read are answers of distinct active replicas. *)
Lemma read_answers rc self res :
  replica_set_ok self → run_read rc self = Ok res →
  ∃ factor condition ps resps, read_factor rc (total_count self) = Some (factor, condition) ∧ ps ⊆+ active_replicas self ∧
    factor ≤ length ps ∧ Forall2 (λ p resp, read_replica self p = Ok resp) ps resps ∧
    (factor = 1 ∧ head resps = Some res ∨ factor ≠ 1 ∧ res = resolve resps condition).
Proof using shuffle_perm.
  intros Hok. rewrite run_read_unfold. destruct (read_factor _ _) as [[factor condition]|]; [|done].
  case_decide as Hlt; [done|]. destruct (loop _ _ _ _ _) as [resps|e|] eqn:Hloop; [|done..]. cbn.
  apply read_loop_sound in Hloop. cbn in Hloop. rewrite take_drop, operations_perm in Hloop by done.
  case_decide as Hlen; [|done]. intros Hres. apply submseteq_Permutation in Hloop as [rest Hperm].
  symmetry in Hperm. apply Permutation_map_inv in Hperm as (ps' & Hps & Hperm).
  symmetry in Hps. apply fmap_app_inv in Hps as (ps & ps2 & Hps & _ & ->). exists factor, condition, ps, resps.
  assert (Forall2 (λ p resp, read_replica self p = Ok resp) ps resps) as Hall.
  { clear -Hps. revert resps Hps. induction ps as [|p ps IH]; intros [|r resps]; try done. cbn. intros [= Hr H].
    constructor; [done|]. by apply IH. }
  split_and!; [done| | |done|].
  - rewrite Hperm. by apply submseteq_inserts_r.
  - by rewrite (Forall2_length _ _ _ Hall).
  - case_decide as H1; [left|right; by injection Hres as <-]. split; [done|]. destruct resps; [done|by injection Hres as <-].
Qed.

Lemma read_live rc self factor condition :
  replica_set_ok self →
  read_factor rc (total_count self) = Some (factor, condition) →
  Forall (λ p, is_soft (read_replica self p) = true) (active_replicas self) →
  factor ≤ length (base.filter (λ p, is_ok (read_replica self p) = true) (active_replicas self)) →
  ∃ res, run_read rc self = Ok res.
Proof using shuffle_perm.
  intros Hok Hfactor Hsoft Henough.
  rewrite run_read_unfold, Hfactor. assert (length (oks (operations self)) =
    length (base.filter (λ p, is_ok (read_replica self p) = true) (active_replicas self))) as Hoks.
  { rewrite (oks_perm _ _ (operations_perm self Hok)). apply length_oks_fmap. }
  assert (factor ≤ length (active_replicas self)) as Hact by (etrans; [exact Henough|apply length_filter]).
  rewrite decide_False by lia. destruct (read_loop_live (length (operations self)) factor (drop (required_reads self factor) (operations self))
    (take (required_reads self factor) (operations self)) []) as (resps & -> & Hlen).
  - rewrite take_drop, operations_perm by done. by apply Forall_fmap.
  - rewrite length_take, length_drop. lia.
  - rewrite length_take, length_operations. unfold required_reads. destruct (active_local self); cbn; lia.
  - rewrite take_drop, Hoks. cbn. lia.
  - cbn. rewrite decide_True by done. case_decide as H1; [|eauto]. destruct resps; [cbn in Hlen; lia|eauto].
Qed.
(** C10: a read returns as soon as enough replicas can answer it: when the active
    replicas give no error that ends the read at once (errors of the request,
    as opposed to failures of a replica) and at least as many of them succeed
    as the consistency of the read asks for, the read succeeds, whichever
    replicas fail and in whatever order their answers arrive. *)
Theorem read_returns rc self factor condition
  (Hok : replica_set_ok self)
  (Hfactor : read_factor rc (total_count self) = Some (factor, condition))
  (Hsoft : Forall (λ p, is_soft (read_replica self p) = true) (active_replicas self))
  (Henough : factor ≤ length (base.filter (λ p, is_ok (read_replica self p) = true) (active_replicas self))) :
  ∃ res, run_read rc self = Ok res.
Proof using shuffle_perm. by eapply read_live. Qed.
End reads.

(** ** Updates and reads *)

Section update_read.
Context {L Res : Type} (shard_id : string) (display_peer : PeerId → string).
Context (remote_update : PeerId → CollectionError + UpdateResult).
Context (shard_update : bool → Shard L → (CollectionError + UpdateResult) * Shard L).
Context (waited : ReplicaSet L → ReplicaSet L) (write_consistency_factor : nat).
Context (read_local : Shard L → result CollectionError Res) (read_remote : PeerId → result CollectionError Res).
Context (shuffle : list PeerId → list PeerId) (next : list (result CollectionError Res) → nat).
Context (resolve : list Res → ResolveCondition → Res).
Abbreviation RS := (ReplicaSet L).
Abbreviation run_update := (update shard_id display_peer remote_update shard_update waited write_consistency_factor).
Abbreviation run_read := (execute_and_resolve_read_operation shard_id display_peer read_local read_remote shuffle next resolve).
Abbreviation has_update := (accepted shard_id display_peer remote_update shard_update).
Abbreviation says_ok := (answered_ok shard_id display_peer remote_update shard_update).

(** C5: an update of a replica set does not panic; if it succeeds then at least
    the configured number of the replicas it was sent to (all of them, when
    there are fewer) accepted it; and once one replica accepted it, whether or
    not the update as a whole succeeds, every replica that this node still
    considers active has it, so that a later read of this node, of whatever
    consistency, is computed from answers of such replicas only.  Assumed:
    no peer becomes active while the update waits for the deactivation of
    those that failed. *)
Theorem update_then_read (self self' : RS) wait r
  (Hok : replica_set_ok self) (Hfactor : 1 ≤ write_consistency_factor)
  (Hwaited : ∀ (self : RS) p, peer_is_active (waited self) p = true → peer_is_active self p = true)
  (Hshuffle : ∀ l, shuffle l ≡ₚ l)
  (Hupdate : run_update wait self = (r, self')) :
  let n := length (base.filter (λ p, says_ok self wait p = true) (targets self)) in
  r ≠ Panic ∧ (∀ res, r = Ok res → 0 < n ∧ write_consistency_factor `min` length (targets self) ≤ n) ∧
  (0 < n → (∀ p, peer_is_active self' p = true → has_update self wait p) ∧
    ∀ rc res, replica_set_ok self' → run_read rc self' = Ok res →
      ∃ condition ps resps, Forall (has_update self wait) ps ∧
        Forall2 (λ p resp, read_replica read_local read_remote self' p = Ok resp) ps resps ∧
        (head resps = Some res ∨ res = resolve resps condition)).
Proof using.
  intros n. pose proof (update_wp shard_id display_peer remote_update shard_update waited write_consistency_factor Hwaited self wait Hok Hfactor) as Hwp.
  cbv zeta in Hwp. fold n in Hwp. unfold sm_wp in Hwp. rewrite Hupdate in Hwp.
  assert (0 < n → ∀ p, peer_is_active self' p = true → has_update self wait p) as Hkept.
  { intros Hn p Hp. destruct r; [by apply Hwp|by apply Hwp|done]. }
  split_and!; [by intros ->|intros res ->; split; tauto|]. intros Hn. split; [by apply Hkept|].
  intros rc res Hok' Hread. destruct (read_answers _ _ _ _ _ _ _ Hshuffle _ _ _ Hok' Hread) as (factor & condition & ps & resps & _ & Hps & _ & Hans & Hres).
  exists condition, ps, resps. split_and!; [|done|naive_solver].
  apply Forall_forall. intros p Hp. apply Hkept; [done|]. eapply elem_of_submseteq in Hp; [|done].
  unfold active_replicas in Hp. by apply list_elem_of_filter in Hp as [? _].
Qed.
End update_read.

Section quorum.
Context {L Num : Type} (shard_id : string) (display_peer : PeerId → string).
Abbreviation Records := (list (PointRecord Num)).
Context (read_local : Shard L → result CollectionError Records) (read_remote : PeerId → result CollectionError Records).
Context (shuffle : list PeerId → list PeerId) (next : list (result CollectionError Records) → nat).
Context (value_eqb : Value Num → Value Num → bool).
Context (value_sym : ∀ x y, value_eqb x y = true → value_eqb y x = true).
Context (value_trans : ∀ x y z, value_eqb x y = true → value_eqb y z = true → value_eqb x z = true).
Abbreviation run_read := (execute_and_resolve_read_operation shard_id display_peer read_local read_remote shuffle next (resolve_records value_eqb)).

(** Two large enough sets of replicas have one in common. *)
Lemma replicas_meet (all ps U : list PeerId) :
  NoDup all → ps ⊆+ all → NoDup U → U ⊆ all → length all < length ps + length U → ∃ p, p ∈ ps ∧ p ∈ U.
Proof using.
  intros Hall Hps HU HUall Hlen. destruct (decide (Exists (.∈ U) ps)) as [Hex|Hno].
  - apply Exists_exists in Hex as (p & ? & ?). eauto.
  - exfalso. assert (NoDup ps) as Hnps.
    { apply submseteq_Permutation in Hps as [k Hk]. rewrite Hk in Hall. by apply NoDup_app in Hall as [? _]. }
    assert (length (ps ++ U) ≤ length all) as Hle; [|rewrite length_app in Hle; lia].
    apply submseteq_length, NoDup_submseteq; [apply NoDup_app; split_and!; [done| |done]|].
    + intros p Hp HpU. apply Hno, Exists_exists. eauto.
    + intros p [Hp|Hp]%elem_of_app; [by eapply elem_of_submseteq|by apply HUall].
Qed.

(** A record of a result that all replicas must agree on is in each answer. *)
Lemma all_agree resps x rs :
  (∀ rs, rs ∈ resps → NoDup (rec_id <$> rs) ∧ ∀ x, x ∈ rs → record_eq value_eqb x x = true) →
  x ∈ resolve_records value_eqb resps ResolveAll → rs ∈ resps → ∃ y, y ∈ rs ∧ record_eq value_eqb y x = true.
Proof using value_sym value_trans.
  intros Hrows Hx Hrs. destruct (resolve_records_supported value_eqb value_sym value_trans resps ResolveAll x) as [_ Hsupp]; [| |done|].
  - apply Forall_forall. intros rs' Hrs'. by apply Hrows.
  - intros y (rs' & Hrs' & Hy)%elem_of_concat. by apply (Hrows rs').
  - unfold support in Hsupp. cbn in Hsupp. apply row_agrees_elem. destruct (row_agrees _ x rs) eqn:Ha; [done|]. exfalso.
    apply list_elem_of_split in Hrs as (l1 & l2 & ->). rewrite filter_app, filter_cons, !length_app in Hsupp.
    rewrite decide_False in Hsupp by congruence. cbn in Hsupp.
    pose proof (length_filter (λ row, row_agrees (record_eq value_eqb) x row = true) l1).
    pose proof (length_filter (λ row, row_agrees (record_eq value_eqb) x row = true) l2). lia.
Qed.

(** C9: reads of more replicas than can have missed an update show it.  If the
    replicas of [U] have an update, a read with a consistency factor (or of a
    quorum, or of all replicas) asks for so many replicas that, together with
    those of [U], they are more than there are, then every record it returns
    is one that a replica of [U] returned, up to the equality of records, also
    when the read is done by another node.  Assumed: a replica returns a point
    once, and no vector is NaN. *)
Theorem quorum_read_fresh (self : ReplicaSet L) (rc : ReadConsistency) (U : list PeerId) factor records
  (Hok : replica_set_ok self) (Hshuffle : ∀ l, shuffle l ≡ₚ l)
  (Hanswers : ∀ p rs, read_replica read_local read_remote self p = Ok rs →
     NoDup (rec_id <$> rs) ∧ ∀ x, x ∈ rs → record_eq value_eqb x x = true)
  (HU : NoDup U) (HUreplicas : U ⊆ replicas self)
  (Hfactor : read_factor rc (total_count self) = Some (factor, ResolveAll))
  (Hquorum : total_count self < factor + length U)
  (Hread : run_read rc self = Ok records) :
  ∀ x, x ∈ records → ∃ p rs y, p ∈ U ∧ read_replica read_local read_remote self p = Ok rs ∧ y ∈ rs ∧ record_eq value_eqb y x = true.
Proof using value_sym value_trans.
  destruct (read_answers _ _ _ _ _ _ _ Hshuffle _ _ _ Hok Hread) as (factor' & condition & ps & resps & Hf & Hps & Hlen & Hans & Hres).
  rewrite Hfactor in Hf. injection Hf as <- <-.
  assert (ps ⊆+ replicas self) as Hsub by (etrans; [exact Hps|apply sublist_submseteq, sublist_filter]).
  rewrite <-length_replicas in Hquorum. pose proof (replicas_NoDup self Hok) as Hnd. destruct Hres as [[-> Hh]|[_ ->]].
  - destruct Hans as [|p rs ps resps Hrd Hans]; [done|]. injection Hh as ->.
    destruct (replicas_meet (replicas self) [p] U) as (p' & ->%list_elem_of_singleton & HpU); [done| |done..|].
    { etrans; [|exact Hsub]. apply submseteq_skip, submseteq_nil_l. }
    intros x Hx. exists p, records, x. split_and!; [done..|]. by apply (Hanswers p records).
  - destruct (replicas_meet (replicas self) ps U) as (p & Hp & HpU); [done..|lia|].
    apply list_elem_of_lookup_1 in Hp as [i Hi]. destruct (Forall2_lookup_l _ _ _ _ _ Hans Hi) as (rs & Hrs & Hrd).
    intros x Hx. exists p, rs. destruct (all_agree resps x rs) as (y & Hy & Hyx);
      [|done|by eapply list_elem_of_lookup_2|by exists y].
    intros rs' [j Hj]%list_elem_of_lookup_1. destruct (Forall2_lookup_r _ _ _ _ _ Hans Hj) as (q & _ & Hq). by eapply Hanswers.
Qed.
End quorum.

(** ** The last active replica *)

Section last_active.
Context {L Res : Type} (shard_id : string) (display_peer : PeerId → string).
Context (remote_update : PeerId → CollectionError + UpdateResult).
Context (shard_update : bool → Shard L → (CollectionError + UpdateResult) * Shard L).
Context (waited : ReplicaSet L → ReplicaSet L) (write_consistency_factor : nat).
Context (read_local : Shard L → result CollectionError Res) (read_remote : PeerId → result CollectionError Res).
Context (shuffle : list PeerId → list PeerId) (next : list (result CollectionError Res) → nat).
Context (resolve : list Res → ResolveCondition → Res).
Abbreviation run_update := (update shard_id display_peer remote_update shard_update waited write_consistency_factor).
Abbreviation run_read := (execute_and_resolve_read_operation shard_id display_peer read_local read_remote shuffle next resolve).
Abbreviation run_count := (execute_read_operation shard_id display_peer read_local read_remote shuffle next).

(** Operations that do not touch the saved state. *)
Definition keeps_state {A} (m : sm (ReplicaSet L) CollectionError A) : Prop := ∀ s, rs_state (m s).2 = rs_state s.

Lemma keeps_state_bind {A B} (m : sm (ReplicaSet L) CollectionError A) (f : A → sm (ReplicaSet L) CollectionError B) :
  keeps_state m → (∀ a, keeps_state (f a)) → keeps_state (m ≫= f).
Proof using.
  intros Hm Hf s. specialize (Hm s). unfold mbind, sm_bind. destruct (m s) as [[a|e|] s']; cbn in *; [|done..].
  rewrite <-Hm. apply Hf.
Qed.

Lemma handle_failed_keeps failures state : keeps_state (handle_failed_replicas failures state).
Proof using.
  unfold handle_failed_replicas. generalize false. induction failures as [|[p err] failures IH]; intros b; [done|].
  cbn [sm_fold]. apply keeps_state_bind; [|done]. intros s. unfold handle_failure.
  by destruct (get_peer_state state p) as [[]|].
Qed.

Lemma update_keeps wait : (∀ s, wait = true → rs_state (waited s) = rs_state s) → keeps_state (run_update wait).
Proof using.
  intros Hw. unfold update. apply keeps_state_bind.
  { intros s. unfold update_replicas, mbind, sm_bind, sm_get. destruct (_ && _); [done|]. destruct (rs_local s); [|done].
    destruct (peer_is_active_or_pending _ _); [|done]. by destruct (shard_update _ _). }
  intros all. cbv zeta. apply keeps_state_bind; [|intros []; by repeat case_match]. destruct (decide (_ = [])); [done|].
  unfold report_failures. apply keeps_state_bind; [done|]. intros self. apply keeps_state_bind; [apply handle_failed_keeps|]. intros b.
  destruct (wait && b && _) eqn:Hb; [|done]. apply keeps_state_bind; [|by intros []]. intros s. cbn. apply Hw.
  by destruct wait.
Qed.

(** C16: an update may disable the last active replica.  If one replica is the
    only active one and fails an update which some other replica that may
    receive updates (one that a shard transfer is filling, say) accepts, then
    this node has no active replica left: its searches, scrolls and retrievals,
    at any consistency, fail as long as the set has a replica, and so do its
    counts.  Yet the replica is still [Active] in the saved state, unless the
    consensus changes that while the update waits for it.  The consensus is
    taken not to activate a replica during that wait. *)
Theorem last_active_disabled (self self' : ReplicaSet L) wait r last
  (Hok : replica_set_ok self) (Hfactor : 1 ≤ write_consistency_factor)
  (Hwaited : ∀ (self : ReplicaSet L) p, peer_is_active (waited self) p = true → peer_is_active self p = true)
  (Hactive : peer_is_active self last = true) (Hlast : ∀ p, peer_is_active self p = true → p = last)
  (Hfails : ¬ accepted shard_id display_peer remote_update shard_update self wait last)
  (Hone : ∃ p, p ∈ targets self ∧ answered_ok shard_id display_peer remote_update shard_update self wait p = true)
  (Hupdate : run_update wait self = (r, self')) :
  (∀ p, peer_is_active self' p = false) ∧ (∀ rc, 1 ≤ total_count self' → ∃ e, run_read rc self' = Err e) ∧
  run_count self' = Err (no_active_replica shard_id display_peer self') ∧
  ((∀ s, wait = true → rs_state (waited s) = rs_state s) → peer_state self' last = Some Active).
Proof using.
  pose proof (update_wp shard_id display_peer remote_update shard_update waited write_consistency_factor Hwaited self wait Hok Hfactor) as Hwp.
  cbv zeta in Hwp. unfold sm_wp in Hwp. rewrite Hupdate in Hwp.
  assert (0 < length (base.filter (λ p, answered_ok shard_id display_peer remote_update shard_update self wait p = true) (targets self))) as Hn.
  { destruct Hone as (p & Hp & Ha). assert (p ∈ base.filter (λ p, answered_ok shard_id display_peer remote_update shard_update self wait p = true) (targets self)) as Hin
      by by apply list_elem_of_filter.
    destruct (base.filter _ _); [by apply not_elem_of_nil in Hin|cbn; lia]. }
  assert (∀ p, peer_is_active self' p = false) as Hnone.
  { intros p. destruct (peer_is_active self' p) eqn:Hp; [|done]. destruct Hfails. assert (peer_is_active self p = true ∧
      accepted shard_id display_peer remote_update shard_update self wait p) as [Ha Hacc].
    { destruct r; [|split; by apply Hwp|done]. destruct Hwp as (_ & _ & Hk). by split; apply Hk. }
    by rewrite <-(Hlast p). }
  split_and!; [done| | |].
  - intros rc Hc. rewrite run_read_unfold. assert (active_replicas self' = []) as ->.
    { apply elem_of_nil_inv. intros p [Hp _]%list_elem_of_filter. by rewrite Hnone in Hp. }
    destruct (read_factor rc (total_count self')) as [[f c]|] eqn:Hf.
    + pose proof (read_factor_le _ _ _ _ Hf Hc). rewrite decide_True by (cbn; lia). eauto.
    + destruct rc as [f|[]]; cbn in Hf; [|done..]. by rewrite decide_True in Hf.
  - unfold execute_read_operation, read_remotes. rewrite Hnone. assert (base.filter (λ p, peer_is_active self' p = true) (rs_remotes self') = []) as ->.
    { apply elem_of_nil_inv. intros p [Hp _]%list_elem_of_filter. by rewrite Hnone in Hp. }
    by destruct (rs_local self').
  - intros Hw. unfold peer_is_active in Hactive. apply andb_true_iff in Hactive as [Ha%bool_decide_eq_true _].
    pose proof (update_keeps wait Hw self) as Hst. rewrite Hupdate in Hst. cbn in Hst. unfold peer_state in *. by rewrite Hst.
Qed.
End last_active.

(** ** Witnesses *)

(** Three replicas, this peer is 1; the replica of peer 3 does not answer. *)
Definition three_peers : gmap PeerId ReplicaState := {[ 1%N := Active; 2%N := Active; 3%N := Active ]}.
Definition three_replicas : ReplicaSet nat := mkReplicaSet (Some (SLocal 0)) [2%N; 3%N] (mkReplicaSetState true 1%N three_peers) ∅ [].
Definition third_fails (peer : PeerId) : CollectionError + UpdateResult :=
  if decide (peer = 3%N) then inl (CServiceError "unreachable") else inr (mkUpdateResult 7 Completed).
Definition local_applies (wait : bool) (s : Shard nat) : (CollectionError + UpdateResult) * Shard nat := (inr (mkUpdateResult 7 Completed), s).
(** The consensus declares peer 3 dead. *)
Definition third_dead (self : ReplicaSet nat) : ReplicaSet nat := set_state (set_peer_state 3%N Dead (rs_state self)) self.
Definition show_peer (peer : PeerId) : string := "peer".

Lemma three_replicas_ok : replica_set_ok three_replicas.
Proof.
  constructor; cbn.
  - apply (bool_decide_unpack _). vm_compute. exact I.
  - apply (bool_decide_unpack _). vm_compute. exact I.
  - intros p Hp. destruct (decide (p = 1%N)) as [->|H1]; [by eauto|]. unfold three_peers in Hp. rewrite lookup_insert_ne in Hp by done.
    destruct (decide (p = 2%N)) as [->|H2]; [left|]. rewrite lookup_insert_ne in Hp by done.
    destruct (decide (p = 3%N)) as [->|H3]; [right; left|]. by rewrite lookup_singleton_ne in Hp.
Qed.

Lemma third_dead_inactive (self : ReplicaSet nat) p : peer_is_active (third_dead self) p = true → peer_is_active self p = true.
Proof.
  unfold peer_is_active, is_locally_disabled, peer_state, get_peer_state. cbn. destruct (decide (p = 3%N)) as [->|Hne].
  - by rewrite lookup_insert_eq.
  - by rewrite lookup_insert_ne.
Qed.

(** What the replicas answer to a read of point 8: peer 2 has an old value. *)
Definition point_8 (z : Z) : list (PointRecord Z) := [mkRecord (NumId 8) (Some {[ "a" := VNumber z ]}) None].
Definition read_8 (peer : PeerId) : result CollectionError (list (PointRecord Z)) :=
  if decide (peer = 3%N) then Err (CServiceError "unreachable") else Ok (point_8 1%Z).
Definition local_8 (s : Shard nat) : result CollectionError (list (PointRecord Z)) := Ok (point_8 2%Z).

Lemma update_then_read_witness :
  let run := update "0" show_peer third_fails local_applies third_dead 2 true three_replicas in
  run.1 = Ok (mkUpdateResult 7 Completed) ∧
  ∀ p, peer_is_active run.2 p = true → accepted "0" show_peer third_fails local_applies three_replicas true p.
Proof.
  intros run. split; [vm_compute; reflexivity|].
  apply (update_then_read "0" show_peer third_fails local_applies third_dead 2 local_8 read_8 (λ l, l) (λ _, 0) (resolve_records scalar_eqb)
    three_replicas run.2 true run.1).
  - exact three_replicas_ok.
  - lia.
  - exact third_dead_inactive.
  - done.
  - apply surjective_pairing.
  - apply Nat.ltb_lt. vm_compute. reflexivity.
Defined.

Lemma read_returns_witness :
  ∃ res, execute_and_resolve_read_operation "0" show_peer local_8 read_8 (λ l, l) (λ _, 0) (resolve_records scalar_eqb)
    (ConsistencyType Quorum) three_replicas = Ok res.
Proof.
  apply (read_returns "0" show_peer local_8 read_8 (λ l, l) (λ _, 0) (resolve_records scalar_eqb) ltac:(done)
    (ConsistencyType Quorum) three_replicas 2 ResolveAll).
  - exact three_replicas_ok.
  - reflexivity.
  - apply (bool_decide_unpack _). vm_compute. exact I.
  - apply Nat.leb_le. vm_compute. reflexivity.
Defined.

Lemma scalar_eqb_sym x y : scalar_eqb x y = true → scalar_eqb y x = true.
Proof. destruct x, y; cbn; try done; rewrite ?eqb_true_iff, ?Z.eqb_eq, ?String.eqb_eq; by intros ->. Qed.

Lemma scalar_eqb_trans x y z : scalar_eqb x y = true → scalar_eqb y z = true → scalar_eqb x z = true.
Proof. destruct x, y, z; cbn; try done; rewrite ?eqb_true_iff, ?Z.eqb_eq, ?String.eqb_eq; by intros -> ->. Qed.

(** Peers 1 and 2 have the update; a quorum needs one of them. *)
Definition read_new (peer : PeerId) : result CollectionError (list (PointRecord Z)) := Ok (point_8 2%Z).

Lemma quorum_read_fresh_witness :
  point_8 2%Z ≠ [] ∧ ∀ x, x ∈ point_8 2%Z → ∃ p rs y, p ∈ [1%N; 2%N] ∧ read_replica local_8 read_new three_replicas p = Ok rs ∧ y ∈ rs ∧ record_eq scalar_eqb y x = true.
Proof.
  split; [discriminate|].
  apply (quorum_read_fresh "0" show_peer local_8 read_new (λ l, l) (λ _, 0) scalar_eqb scalar_eqb_sym scalar_eqb_trans
    three_replicas (ConsistencyType Quorum) [1%N; 2%N] 2 (point_8 2%Z)).
  - exact three_replicas_ok.
  - done.
  - intros p rs. unfold read_replica. destruct (decide _); intros [= <-].
    all: split; [apply (bool_decide_unpack _); vm_compute; exact I|].
    all: intros x ->%list_elem_of_singleton; vm_compute; reflexivity.
  - apply (bool_decide_unpack _). vm_compute. exact I.
  - intros p [->|[->|[]%elem_of_nil]%elem_of_cons]%elem_of_cons; vm_compute; [left|right; left].
  - reflexivity.
  - apply Nat.ltb_lt. vm_compute. reflexivity.
  - vm_compute. reflexivity.
Defined.

(** Peer 2 is being filled by a transfer; the local replica is the only active one, and fails. *)
Definition filling : ReplicaSet nat :=
  mkReplicaSet (Some (SLocal 0)) [2%N] (mkReplicaSetState true 1%N {[ 1%N := Active; 2%N := Partial ]}) ∅ [].
Definition local_fails (wait : bool) (s : Shard nat) : (CollectionError + UpdateResult) * Shard nat := (inl (CServiceError "disk full"), s).

Lemma last_active_disabled_witness :
  let run := update "0" show_peer third_fails local_fails (λ self, self) 1 false filling in
  run.1 = Ok (mkUpdateResult 7 Completed) ∧ peer_state run.2 1%N = Some Active ∧ ∀ p, peer_is_active run.2 p = false.
Proof.
  intros run. split; [vm_compute; reflexivity|].
  destruct (last_active_disabled "0" show_peer third_fails local_fails (λ self, self) 1 local_8 read_8 (λ l, l) (λ _, 0) (resolve_records scalar_eqb)
    filling run.2 false run.1 1%N) as (Hnone & _ & _ & Hact).
  - constructor; cbn.
    + apply (bool_decide_unpack _). vm_compute. exact I.
    + apply NoDup_singleton.
    + intros p Hp. destruct (decide (p = 1%N)) as [->|H1]; [by eauto|]. rewrite lookup_insert_ne in Hp by done.
      destruct (decide (p = 2%N)) as [->|H2]; [left|by rewrite lookup_singleton_ne in Hp].
  - lia.
  - done.
  - vm_compute. reflexivity.
  - intros p. unfold peer_is_active, peer_state, get_peer_state. cbn. intros [Hp%bool_decide_eq_true _]%andb_true_iff.
    destruct (decide (p = 1%N)) as [->|H1]; [done|]. rewrite lookup_insert_ne in Hp by done.
    destruct (decide (p = 2%N)) as [->|H2]; [by rewrite lookup_singleton_eq in Hp|by rewrite lookup_singleton_ne in Hp].
  - vm_compute. by intros [_ [? ?]].
  - exists 2%N. split; [vm_compute; left|vm_compute; reflexivity].
  - apply surjective_pairing.
  - split; [by apply Hact|exact Hnone].
Defined.
