(* ===== verification/ReplicaOps.v ===== *)
(** * Changes of a replica set

    The operations by which the consensus changes a [ShardReplicaSet]
    ([replica_set.rs]) keep the remote replicas, the local shard and the saved
    state in step, and [apply_state] makes the set what the consensus says. *)

From stdpp Require Import base gmap strings list sorting.
From Stdlib Require Import ZArith Lia.
From S2P Require Import Prelude Types Rocks Filters SegmentHolder Requests Operations CollectionConfig Shards Resolve ReplicaSet ReplicaSpec.

(** The operations of the consensus on a replica set. *)
Inductive ReplicaOp (L : Type) : Type :=
| OpAddPeer (build : result CollectionError L) (peer_id : PeerId) (state : ReplicaState)
| OpRemovePeer (clear : result CollectionError unit) (peer_id : PeerId)
| OpSetState (peer_id : PeerId) (state : ReplicaState)
| OpApplyState (clear : result CollectionError unit) (build : result CollectionError L) (replicas : gmap PeerId ReplicaState)
| OpProxify (remote_peer : PeerId)
| OpUnProxify.
Arguments OpAddPeer {L}.
Arguments OpRemovePeer {L}.
Arguments OpSetState {L}.
Arguments OpApplyState {L}.
Arguments OpProxify {L}.
Arguments OpUnProxify {L}.

Lemma elem_of_keys {A} (m : gmap PeerId A) p : p ∈ (map_to_list m).*1 ↔ p ∈ dom m.
Proof.
  rewrite list_elem_of_fmap, elem_of_dom. split; [intros ([q st] & -> & Hq%elem_of_map_to_list); cbn; eauto|].
  intros [st Hst]. exists (p, st). split; [done|]. by apply elem_of_map_to_list.
Qed.

Section ops.
Context {L : Type} (save : ReplicaSetState → result CollectionError unit).
Abbreviation RS := (ReplicaSet L).
Implicit Types (self : RS) (p : PeerId).
Abbreviation this self := (this_peer_id (rs_state self)).

(** What holds of a set with the peers [ps]. *)
Record set_has (t : PeerId) (ps : gmap PeerId ReplicaState) (self : RS) : Prop := mkSetHas {
  sh_this : this self = t;
  sh_peers : peers (rs_state self) = ps;
  sh_remotes p : p ∈ rs_remotes self ↔ p ∈ dom ps ∧ p ≠ t;
  sh_NoDup : NoDup (rs_remotes self);
  sh_local : is_Some (rs_local self) ↔ t ∈ dom ps;
}.

(** The remote replicas and the local shard are those of the saved state. *)
Definition replica_set_exact self : Prop := set_has (this self) (peers (rs_state self)) self.

Lemma replica_set_exact_ok self : replica_set_exact self → replica_set_ok self.
Proof using.
  intros [_ _ Hrem Hnd Hloc]. constructor; [by intros [_ ?]%Hrem|done|]. intros p Hp%elem_of_dom_2. destruct (decide (p = this self)) as [->|].
  - by apply Hloc.
  - by apply Hrem.
Qed.

Lemma write_state_wp f self Q (R : CollectionError → RS → Prop) :
  (save (f (rs_state self)) = Ok tt → Q tt (set_state (f (rs_state self)) self)) → (∀ e, R e self) → save (f (rs_state self)) ≠ Panic →
  sm_wp (write_state save f) Q R self.
Proof using. intros HQ HR Hp. unfold sm_wp, write_state. cbn. destruct (save _) as [[]|e|]; [by apply HQ|apply HR|done]. Qed.

Lemma update_locally_disabled_wp p self Q (R : CollectionError → RS → Prop) :
  (∀ d, d ⊆ locally_disabled_peers self → Q tt (set_disabled d self)) → sm_wp (update_locally_disabled p) Q R self.
Proof using.
  intros HQ. unfold sm_wp, update_locally_disabled, sm_modify. apply HQ. destruct (_.*1) as [|q [|]]; set_solver.
Qed.

Context (save_total : ∀ st, save st ≠ Panic).

Lemma remove_remote_wp p self Q (R : CollectionError → RS → Prop) :
  (∀ d, d ⊆ locally_disabled_peers self →
     Q tt (set_remotes (base.filter (λ remote, remote ≠ p) (rs_remotes self)) (set_disabled d (set_state (remove_peer_state p (rs_state self)) self)))) →
  (∀ e, R e self) → sm_wp (remove_remote save p) Q R self.
Proof using save_total.
  intros HQ HR. unfold remove_remote. apply sm_wp_bind, write_state_wp; [intros _|done|apply save_total].
  apply sm_wp_bind, update_locally_disabled_wp. intros d Hd. by apply sm_wp_modify, HQ.
Qed.

Lemma remove_local_wp clear self Q (R : CollectionError → RS → Prop) :
  clear ≠ Panic →
  (∀ d, d ⊆ locally_disabled_peers self →
     let self' := set_local_shard None (set_disabled d (set_state (remove_peer_state (this self) (set_is_local false (rs_state self))) self)) in
     Q tt self' ∧ ∀ e, R e self') →
  (∀ e, R e self) → sm_wp (remove_local save clear) Q R self.
Proof using save_total.
  intros Hc HQ HR. unfold remove_local. apply sm_wp_bind, write_state_wp; [intros _|done|apply save_total].
  apply sm_wp_bind. unfold sm_wp at 1, sm_get. apply sm_wp_bind, update_locally_disabled_wp. intros d Hd. apply sm_wp_bind.
  unfold sm_wp at 1, sm_get. apply sm_wp_bind, sm_wp_modify. destruct (HQ d Hd) as [HQ' HR']. cbn. destruct (rs_local self); [|by apply sm_wp_ret].
  unfold sm_wp, sm_lift. destruct clear as [[]|e|]; [done|by apply HR'|done].
Qed.

Lemma remove_peer_has clear t ps p self :
  clear ≠ Panic → set_has t ps self →
  sm_wp (remove_peer save clear p) (λ _, set_has t (delete p ps)) (λ _ self', set_has t ps self' ∨ set_has t (delete p ps) self') self.
Proof using save_total.
  intros Hc [Ht Hps Hrem Hnd Hloc]. unfold remove_peer. apply sm_wp_bind. unfold sm_wp at 1, sm_get. cbv beta iota.
  assert (set_has t ps self) as Hself by by constructor. case_decide as Hp.
  - rewrite Ht in Hp. subst p. apply remove_local_wp; [done| |by left]. intros d _.
    assert (set_has t (delete t ps) (set_local_shard None (set_disabled d (set_state
      (remove_peer_state (this self) (set_is_local false (rs_state self))) self)))) as H; [|by split; [|right]].
    constructor; cbn; [done|by rewrite Hps, Ht| |done|].
    + intros q. rewrite Hrem, dom_delete, elem_of_difference, elem_of_singleton. tauto.
    + rewrite dom_delete, elem_of_difference, elem_of_singleton, <-not_eq_None_Some. tauto.
  - rewrite Ht in Hp. apply remove_remote_wp; [|by left]. intros d _. constructor; cbn; [done|by rewrite Hps| |by apply NoDup_filter|].
    + intros q. rewrite list_elem_of_filter, Hrem, dom_delete, elem_of_difference, elem_of_singleton. tauto.
    + rewrite Hloc, dom_delete, elem_of_difference, elem_of_singleton. intuition congruence.
Qed.

Lemma set_replica_state_has t ps p st self :
  set_has t ps self → p ∈ dom ps →
  sm_wp (set_replica_state save p st) (λ _ self', set_has t (<[p := st]> ps) self' ∧ rs_local self' = rs_local self) (λ _ self', self' = self) self.
Proof using save_total.
  intros [Ht Hps Hrem Hnd Hloc] Hp. unfold set_replica_state. apply sm_wp_bind, write_state_wp; [intros _|done|apply save_total].
  apply update_locally_disabled_wp. intros d _. split; [|done].
  assert (dom (<[p := st]> ps) = dom ps) as Hdom by (rewrite dom_insert_L; set_solver).
  constructor; cbn; rewrite ?Hdom; [|case_decide; cbn; by rewrite Hps|done..]. by case_decide.
Qed.

Lemma add_remote_has t ps p st self :
  set_has t ps self → p ≠ t → sm_wp (add_remote save p st) (λ _, set_has t (<[p := st]> ps)) (λ _ self', self' = self) self.
Proof using save_total.
  intros [Ht Hps Hrem Hnd Hloc] Hp. unfold add_remote. apply sm_wp_bind, write_state_wp; [intros _|done|apply save_total].
  apply sm_wp_bind, update_locally_disabled_wp. intros d _. apply sm_wp_modify. cbn. case_decide as Hin.
  - constructor; cbn; [done|by rewrite Hps| |done|].
    + intros q. rewrite Hrem, dom_insert, elem_of_union, elem_of_singleton. apply Hrem in Hin. destruct (decide (q = p)) as [->|]; tauto.
    + rewrite Hloc, dom_insert, elem_of_union, elem_of_singleton. intuition congruence.
  - constructor; cbn; [done|by rewrite Hps| | |].
    + intros q. rewrite elem_of_app, list_elem_of_singleton, Hrem, dom_insert, elem_of_union, elem_of_singleton. destruct (decide (q = p)) as [->|]; tauto.
    + apply NoDup_app. split_and!; [done| |apply NoDup_singleton]. by intros q Hq ->%list_elem_of_singleton.
    + rewrite Hloc, dom_insert, elem_of_union, elem_of_singleton. intuition congruence.
Qed.

Lemma add_peer_has build t ps p st self :
  build ≠ Panic → set_has t ps self → sm_wp (add_peer save build p st) (λ _, set_has t (<[p := st]> ps)) (λ _ self', self' = self) self.
Proof using save_total.
  intros Hb Hself. pose proof Hself as [Ht Hps Hrem Hnd Hloc]. unfold add_peer. apply sm_wp_bind. unfold sm_wp at 1, sm_get. cbv beta iota.
  rewrite Ht. case_decide as Hp; [subst p|by apply add_remote_has]. destruct (rs_local self) as [l|] eqn:Hl.
  - apply sm_wp_bind, sm_wp_ret, sm_wp_bind. eapply sm_wp_mono; [apply (set_replica_state_has t ps); [done|by apply Hloc]| |done].
    intros _ self' [H _]. done.
  - apply sm_wp_bind, sm_wp_bind. unfold sm_wp at 1, sm_lift. destruct build as [local|e|]; [|done..]. apply sm_wp_ret.
    apply sm_wp_bind. unfold set_replica_state. apply sm_wp_bind, write_state_wp; [intros _|done|apply save_total].
    apply update_locally_disabled_wp. intros d _. apply sm_wp_modify. rewrite decide_True by done.
    constructor; cbn; [done|by rewrite Hps| |done|].
    + intros q. rewrite Hrem, dom_insert, elem_of_union, elem_of_singleton. intuition congruence.
    + split; [|by eauto]. intros _. apply dom_insert, elem_of_union. left. by apply elem_of_singleton.
Qed.

(** *** Applying a state *)

(** While the state is applied, the peers are already those of the consensus. *)
Record applying (t : PeerId) (ps : gmap PeerId ReplicaState) (has_local : Prop) (remotes : list PeerId) (self : RS) : Prop := mkApplying {
  ap_this : this self = t;
  ap_peers : peers (rs_state self) = ps;
  ap_local : is_Some (rs_local self) ↔ has_local;
  ap_remotes : rs_remotes self = remotes;
  ap_disabled : locally_disabled_peers self = ∅;
}.

Lemma remove_peers_applying clear t ps l self has_local remotes :
  clear ≠ Panic → (∀ p, p ∈ l → ps !! p = None) → t ∉ remotes → applying t ps has_local remotes self →
  sm_wp (sm_for (remove_peer save clear) l)
    (λ _, applying t ps (has_local ∧ t ∉ l) (base.filter (.∉ l) remotes)) (λ _ _, True) self.
Proof using save_total.
  intros Hc. revert self has_local remotes. induction l as [|p l IH]; intros self has_local remotes Hl Htr [Ht Hps Hloc Hrem Hdis].
  { apply sm_wp_ret. constructor; [done..| | |done].
    - rewrite Hloc. set_solver.
    - rewrite Hrem. symmetry. apply list_filter_all. set_solver. }
  cbn [sm_for]. assert (delete p ps = ps) as Hdel by (apply delete_id, Hl; set_solver). unfold remove_peer at 1.
  assert (base.filter (.∉ p :: l) remotes = base.filter (.∉ l) (base.filter (.≠ p) remotes)) as ->.
  { rewrite list_filter_filter. apply list_filter_iff. intros q. rewrite elem_of_cons. tauto. }
  apply sm_wp_bind, sm_wp_bind. unfold sm_wp at 1, sm_get. cbv beta iota. rewrite Ht. case_decide as Hp.
  - subst p. apply remove_local_wp; [done| |done]. rewrite Hdis. intros d Hd. split; [|done]. assert (d = ∅) as -> by set_solver.
    eapply sm_wp_mono; [apply (IH _ (has_local ∧ False) remotes); [set_solver|done|constructor; cbn]| |done].
    + done.
    + by rewrite Ht, Hps.
    + rewrite <-not_eq_None_Some. tauto.
    + done.
    + done.
    + intros _ s' [?? Hl' Hr' ?]. constructor; [done..| | |done]; [rewrite Hl'; set_solver|]. rewrite Hr'.
      f_equal. symmetry. apply list_filter_all. congruence.
  - apply remove_remote_wp; [|done]. rewrite Hdis. intros d Hd. assert (d = ∅) as -> by set_solver.
    eapply sm_wp_mono; [apply (IH _ has_local (base.filter (.≠ p) remotes)); [set_solver|by intros [_ ?]%list_elem_of_filter|constructor; cbn]| |done].
    + done.
    + by rewrite Hps.
    + done.
    + by rewrite Hrem.
    + done.
    + intros _ s' [?? Hl' Hr' ?]. constructor; [done..| | |done]; [rewrite Hl'; set_solver|done].
Qed.

Lemma set_local_wp local st self Q (R : CollectionError → RS → Prop) :
  (∀ d, d ⊆ locally_disabled_peers self →
     Q (rs_local self) (set_disabled d (set_state (set_peer_state (this self) st (set_is_local true (rs_state self))) (set_local_shard (Some (SLocal local)) self)))) →
  (∀ e self', R e self') → sm_wp (set_local save local (Some st)) Q R self.
Proof using save_total.
  intros HQ HR. unfold set_local. apply sm_wp_bind. unfold sm_wp at 1, sm_get. apply sm_wp_bind, sm_wp_modify.
  rewrite (bool_decide_true (is_Some (Some st))), orb_true_r by eauto. apply sm_wp_bind, write_state_wp; [intros _|intros; apply HR|apply save_total].
  apply sm_wp_bind, update_locally_disabled_wp. intros d Hd. by apply sm_wp_ret, HQ.
Qed.

(** The replicas that are new. *)
Definition new_peer (t : PeerId) (old : gmap PeerId ReplicaState) (p : PeerId) : Prop := old !! p = None ∧ p ≠ t.
#[local] Instance new_peer_dec t old p : Decision (new_peer t old p) := ltac:(unfold new_peer; apply _).

Lemma add_peers_applying build t old ps l self has_local remotes :
  build ≠ Panic → (∀ p st, (p, st) ∈ l → ps !! p = Some st) → applying t ps has_local remotes self →
  sm_wp (sm_for (apply_new_peer save build old) l)
    (λ _, applying t ps (has_local ∨ t ∈ l.*1 ∧ old !! t = None) (remotes ++ base.filter (new_peer t old) l.*1)) (λ _ _, True) self.
Proof using save_total.
  intros Hb. revert self has_local remotes. induction l as [|[p st] l IH]; intros self has_local remotes Hl Hself.
  { apply sm_wp_ret. destruct Hself. constructor; [done..| |by rewrite app_nil_r|done]. rewrite elem_of_nil. tauto. }
  assert (∀ p st, (p, st) ∈ l → ps !! p = Some st) as Hl' by set_solver. pose proof (Hl p st (list_elem_of_here _ _)) as Hst.
  pose proof Hself as [Ht Hps Hloc Hrem Hdis].
  cbn [sm_for]. rewrite fmap_cons, filter_cons. cbn [fst]. apply sm_wp_bind. unfold apply_new_peer at 1. case_decide as Hold.
  { apply sm_wp_ret. rewrite decide_False by (unfold new_peer; rewrite eq_None_not_Some; tauto). eapply sm_wp_mono; [by apply (IH _ has_local remotes)| |done].
    intros _ s' [?? Hloc' Hrem' ?]. constructor; [done..| |done|done]. rewrite Hloc', elem_of_cons, eq_None_not_Some.
    destruct (decide (t = p)) as [->|]; tauto. }
  rewrite <-eq_None_not_Some in Hold. apply sm_wp_bind. unfold sm_wp at 1, sm_get. cbv beta iota. rewrite Ht. case_decide as Hp.
  - subst p. rewrite decide_False by (unfold new_peer; tauto). apply sm_wp_bind. unfold sm_wp at 1, sm_lift. destruct build as [local|e|]; [|done..].
    apply sm_wp_bind, set_local_wp; [|done]. rewrite Hdis. intros d Hd. assert (d = ∅) as -> by set_solver.
    assert (∀ s', applying t ps True remotes s' → sm_wp (sm_for (apply_new_peer save (Ok local) old) l)
      (λ _, applying t ps (has_local ∨ t ∈ t :: l.*1 ∧ old !! t = None) (remotes ++ base.filter (new_peer t old) l.*1)) (λ _ _, True) s') as Hrest.
    { intros s' Hs'. eapply sm_wp_mono; [by apply (IH _ True remotes)| |done]. intros _ s2 [?? Hloc' ??]. constructor; [done..| |done|done].
      rewrite Hloc', elem_of_cons. tauto. }
    assert (applying t ps True remotes (set_disabled ∅ (set_state (set_peer_state (this self) st (set_is_local true (rs_state self)))
      (set_local_shard (Some (SLocal local)) self)))) as Hnew.
    { constructor; cbn; [done| |split; [done|by eauto]|done..]. rewrite Hps, Ht. by apply insert_id. }
    destruct st; try (apply sm_wp_ret; by apply Hrest); apply sm_wp_modify, Hrest; destruct Hnew; by constructor.
  - rewrite decide_True by done. apply sm_wp_modify. eapply sm_wp_mono; [apply (IH _ has_local (remotes ++ [p]))| |done]; [done|by constructor; cbn; rewrite ?Hrem|].
    intros _ s' [?? Hloc' Hrem' ?]. constructor; [done..| |by rewrite Hrem', <-app_assoc|done]. rewrite Hloc', elem_of_cons. intuition congruence.
Qed.

Lemma apply_state_has clear build t ps0 replicas self :
  clear ≠ Panic → build ≠ Panic → set_has t ps0 self →
  sm_wp (apply_state save clear build replicas) (λ _ self', set_has t replicas self' ∧ locally_disabled_peers self' = ∅) (λ _ _, True) self.
Proof using save_total.
  intros Hc Hb [Ht Hps Hrem Hnd Hloc]. unfold apply_state. apply sm_wp_bind. unfold sm_wp at 1, sm_get. cbv beta iota zeta. rewrite Hps.
  apply sm_wp_bind, write_state_wp; [intros _|done|apply save_total]. apply sm_wp_bind, sm_wp_modify, sm_wp_bind.
  set (removed := base.filter _ _). assert (∀ p, p ∈ removed ↔ replicas !! p = None ∧ p ∈ dom ps0) as Hremoved.
  { intros p. unfold removed. by rewrite list_elem_of_filter, elem_of_keys. }
  eapply sm_wp_mono; [apply (remove_peers_applying clear t replicas removed _ (t ∈ dom ps0) (rs_remotes self) Hc)| |done].
  { intros p Hp%Hremoved. tauto. }
  { intros [_ ?]%Hrem. done. }
  { by constructor. }
  intros u s1 H1. cbv beta in H1. eapply sm_wp_mono; [eapply (add_peers_applying build t ps0 replicas (map_to_list replicas)); [done| |exact H1]| |done].
  { intros p st. by rewrite elem_of_map_to_list. }
  intros _ s2 [Ht2 Hps2 Hloc2 Hrem2 Hdis2]. split; [|done].
  constructor; [done..| | |].
  - intros p. rewrite Hrem2, elem_of_app, !list_elem_of_filter, elem_of_keys, Hremoved, Hrem. unfold new_peer. rewrite !elem_of_dom.
    destruct (replicas !! p) eqn:E1, (ps0 !! p) eqn:E2; rewrite ?is_Some_alt; cbn; intuition congruence.
  - rewrite Hrem2. apply NoDup_app. split_and!; [by apply NoDup_filter| |apply NoDup_filter, NoDup_fst_map_to_list].
    intros p [_ Hp%Hrem]%list_elem_of_filter [[Hnew _] _]%list_elem_of_filter. destruct Hp as [Hp%elem_of_dom _]. rewrite Hnew in Hp. by destruct Hp.
  - rewrite Hloc2, Hremoved, elem_of_keys, !elem_of_dom. destruct (replicas !! t) eqn:E1, (ps0 !! t) eqn:E2; rewrite ?is_Some_alt; cbn; intuition congruence.
Qed.

Context (shard_id : string) (display_peer : PeerId → string).

Definition run_replica_op (op : ReplicaOp L) : sm RS CollectionError unit :=
  match op with
  | OpAddPeer build peer_id state => add_peer save build peer_id state
  | OpRemovePeer clear peer_id => remove_peer save clear peer_id
  | OpSetState peer_id state => ensure_replica_with_state save peer_id state
  | OpApplyState clear build replicas => apply_state save clear build replicas
  | OpProxify remote_peer => proxify_local shard_id display_peer remote_peer
  | OpUnProxify => un_proxify_local shard_id display_peer
  end.

(** Files are removed and shards built without panics. *)
Definition op_total (op : ReplicaOp L) : Prop :=
  match op with
  | OpAddPeer build _ _ => build ≠ Panic
  | OpRemovePeer clear _ => clear ≠ Panic
  | OpApplyState clear build _ => clear ≠ Panic ∧ build ≠ Panic
  | OpSetState _ _ | OpProxify _ | OpUnProxify => True
  end.

(** This peer changes its state only when it is one of the set. *)
Definition op_fits (op : ReplicaOp L) self : Prop :=
  match op with
  | OpSetState peer_id _ => peer_id = this self → peer_id ∈ dom (peers (rs_state self))
  | _ => True
  end.

Definition is_apply (op : ReplicaOp L) : Prop := match op with OpApplyState _ _ _ => True | _ => False end.

Lemma proxify_has t ps p self :
  set_has t ps self → sm_wp (proxify_local shard_id display_peer p) (λ _, set_has t ps) (λ _, set_has t ps) self.
Proof using.
  intros Hself. pose proof Hself as [Ht Hps Hrem Hnd Hloc]. unfold proxify_local. apply sm_wp_bind. unfold sm_wp at 1, sm_get. cbv beta iota.
  destruct (rs_local self) as [[l|l|l q]|] eqn:Hl; unfold sm_wp; cbn; [|done| |done].
  - constructor; cbn; [done..|]. rewrite <-Hloc. split; eauto.
  - by case_decide.
Qed.

Lemma un_proxify_has t ps self :
  set_has t ps self → sm_wp (un_proxify_local shard_id display_peer) (λ _, set_has t ps) (λ _, set_has t ps) self.
Proof using.
  intros Hself. pose proof Hself as [Ht Hps Hrem Hnd Hloc]. unfold un_proxify_local. apply sm_wp_bind. unfold sm_wp at 1, sm_get. cbv beta iota.
  destruct (rs_local self) as [[l|l|l q]|] eqn:Hl; unfold sm_wp; cbn; [done|done| |done].
  constructor; cbn; [done..|]. rewrite <-Hloc. split; eauto.
Qed.

Lemma replica_op_has op t ps self :
  set_has t ps self → op_total op → op_fits op self →
  sm_wp (run_replica_op op)
    (λ _ self', ∃ ps', set_has t ps' self' ∧
       match op with OpApplyState _ _ replicas => ps' = replicas ∧ locally_disabled_peers self' = ∅ | _ => True end)
    (λ _ self', is_apply op ∨ ∃ ps', set_has t ps' self') self.
Proof using save_total.
  intros Hself Htot Hfit. pose proof Hself as [Ht Hps _ _ _].
  destruct op as [build p st|clear p|p st|clear build m|p|]; cbn [run_replica_op is_apply op_total op_fits] in *.
  - eapply sm_wp_mono; [by apply (add_peer_has _ t ps)| |]; cbn; [eauto|]. intros _ s' ->. eauto.
  - eapply sm_wp_mono; [by apply (remove_peer_has _ t ps)| |]; cbn; [eauto|]. intros _ s' []; eauto.
  - unfold ensure_replica_with_state. apply sm_wp_bind. unfold sm_wp at 1, sm_get. cbv beta iota. case_decide as Hp.
    + eapply sm_wp_mono; [apply (set_replica_state_has t ps); [done|rewrite <-Hps; by apply Hfit]| |]; cbn; [intros _ s' []; eauto|intros _ s' ->; eauto].
    + eapply sm_wp_mono; [apply (add_remote_has t ps); [done|by rewrite <-Ht]| |]; cbn; [eauto|intros _ s' ->; eauto].
  - eapply sm_wp_mono; [apply (apply_state_has _ _ t ps); tauto| |]; cbn; [|auto]. intros _ s' []; eauto.
  - eapply sm_wp_mono; [by apply proxify_has| |]; cbn; eauto.
  - eapply sm_wp_mono; [by apply un_proxify_has| |]; cbn; eauto.
Qed.

(** A state for this peer when it is not one of the set. *)
Lemma unfit_op op self r self' :
  replica_set_exact self → ¬ op_fits op self → run_replica_op op self = (r, self') →
  r ≠ Panic ∧ (r = Ok tt → ¬ replica_set_exact self' ∧ this self ∈ dom (peers (rs_state self')) ∧ rs_local self' = None).
Proof using save_total.
  intros [_ _ _ _ Hloc] Hfit. destruct op as [| |p st| | |]; try by destruct Hfit. cbn [run_replica_op op_fits] in *.
  unfold ensure_replica_with_state, mbind at 1, sm_bind at 1, sm_get. destruct (decide (p = this self)) as [->|Hne]; [|by destruct Hfit].
  assert (this self ∉ dom (peers (rs_state self))) as Hnot by tauto.
  assert (rs_local self = None) as Hl by (apply eq_None_not_Some; by rewrite Hloc).
  assert (sm_wp (set_replica_state save (this self) st)
    (λ _ s', ¬ replica_set_exact s' ∧ this self ∈ dom (peers (rs_state s')) ∧ rs_local s' = None) (λ _ _, True) self) as Hwp.
  { unfold set_replica_state. apply sm_wp_bind, write_state_wp; [intros _|done|apply save_total].
    apply update_locally_disabled_wp. intros d _. rewrite decide_True by done. cbn.
    assert (this self ∈ dom (<[this self := st]> (peers (rs_state self)))) as Hin by (apply dom_insert, elem_of_union_l; by apply elem_of_singleton).
    split_and!; [|done|done]. intros [_ _ _ _ Hx]. cbn in Hx. rewrite Hl in Hx. apply Hx in Hin. by destruct Hin. }
  intros Hrun. unfold sm_wp in Hwp. rewrite Hrun in Hwp. destruct r as [[]|e|]; [by split|done|done].
Qed.

End ops.

(** ** Witness *)

Lemma three_replicas_exact : replica_set_exact three_replicas.
Proof.
  constructor; cbn; [done..| | |].
  - intros p. unfold three_peers. rewrite !elem_of_cons, elem_of_nil, !dom_insert, dom_singleton, !elem_of_union, !elem_of_singleton.
    split; [intros [->|[->|[]]]; split; [tauto|done|tauto|done]|]. intros [[->|[->| ->]] ?]; tauto.
  - apply three_replicas_ok.
  - split; [|by eauto]. intros _. unfold three_peers. apply elem_of_dom. by exists Active.
Qed.

(** The consensus moves the replica of peer 3 to peer 4. *)
Definition moved_peers : gmap PeerId ReplicaState := {[ 1%N := Active; 2%N := Active; 4%N := Partial ]}.

(** A set without this peer. *)
Definition other_replicas : ReplicaSet nat := mkReplicaSet None [2%N] (mkReplicaSetState false 1 {[ 2%N := Active ]}) ∅ [].

Lemma other_replicas_exact : replica_set_exact other_replicas.
Proof.
  constructor; cbn; [done..| |apply NoDup_singleton|].
  - intros p. rewrite list_elem_of_singleton, dom_singleton, elem_of_singleton. split; [by intros ->|tauto].
  - rewrite dom_singleton, elem_of_singleton. split; [by intros []|done].
Qed.

