(* ===== verification/ReplicaReads.v ===== *)
(** * Replica sets as shards

    The reads of [ShardReplicaSet] ([replica_set.rs]) on top of the reads of
    its replicas, and that a replica set whose active replicas show the same
    points keeps the promises of a shard to a collection. *)

From stdpp Require Import base gmap strings list sorting.
From Stdlib Require Import ZArith SpecFloat Lia.
From S2P Require Import Prelude Types Rocks NamedVectors Text Filters TopK SegmentEntry SegmentHolder Segment SegmentSpec Requests SearchAggregator.
From S2P Require Import RetrieveSpec ProxyScroll CollectionConfig ShardReads Shards Resolve Operations ReplicaSet ReplicaSpec.

Definition get_shard {L} (shard : Shard L) : L :=
  match shard with SLocal l | SProxy l | SForwardProxy l _ => l end.

Section replica_reads.
Context {Num L Remote : Type} `{!ShardOperation Num L, !ShardOperation Num Remote}.
Context (shard_id : string) (display_peer : PeerId → string) (value_eqb : Value Num → Value Num → bool).
(** The shards of the other peers, the order in which they are asked, and which pending read ends next. *)
Context (network : PeerId → Remote) (shuffle : list PeerId → list PeerId).
Context (next : ∀ Res, list (result CollectionError Res) → nat).
Abbreviation RS := (ReplicaSet L).

Definition replica_scroll_by (read_consistency : option ReadConsistency) (self : RS) (offset : option PointIdType) (limit : nat)
    (with_payload_interface : WithPayloadInterface) (with_vector : WithVector) (filter : option Filter) :
    CollectionResult (list (PointRecord Num)) :=
  execute_and_resolve_read_operation shard_id display_peer
    (λ shard, so_scroll_by (get_shard shard) offset limit with_payload_interface with_vector filter)
    (λ peer, so_scroll_by (network peer) offset limit with_payload_interface with_vector filter)
    shuffle (next _) (resolve_records value_eqb) (default default_read_consistency read_consistency) self.

Definition replica_info (self : RS) : CollectionResult CollectionInfo :=
  execute_read_operation shard_id display_peer (λ shard, so_info (Num:=Num) (get_shard shard)) (λ peer, so_info (Num:=Num) (network peer))
    shuffle (next _) self.

Definition replica_search (read_consistency : option ReadConsistency) (self : RS) (request : list SearchRequest) :
    CollectionResult (list (list (ScoredPoint Num))) :=
  execute_and_resolve_read_operation shard_id display_peer
    (λ shard, so_search (get_shard shard) request) (λ peer, so_search (network peer) request)
    shuffle (next _) (resolve_scored value_eqb) (default default_read_consistency read_consistency) self.

Definition count_local (self : RS) (request : CountRequest) : CollectionResult (option N) :=
  match rs_local self with
  | None => Ok None
  | Some shard => n ← so_count (Num:=Num) (get_shard shard) request; Ok (Some n)
  end.

Definition replica_count (self : RS) (request : CountRequest) : CollectionResult N :=
  execute_read_operation shard_id display_peer (λ shard, so_count (Num:=Num) (get_shard shard) request)
    (λ peer, so_count (Num:=Num) (network peer) request) shuffle (next _) self.

Definition replica_retrieve (read_consistency : option ReadConsistency) (self : RS) (request : PointRequest)
    (with_payload : WithPayload) (with_vector : WithVector) : CollectionResult (list (PointRecord Num)) :=
  execute_and_resolve_read_operation shard_id display_peer
    (λ shard, so_retrieve (get_shard shard) request with_payload with_vector)
    (λ peer, so_retrieve (network peer) request with_payload with_vector)
    shuffle (next _) (resolve_records value_eqb) (default default_read_consistency read_consistency) self.

#[export] Instance replica_set_operation (read_consistency : option ReadConsistency) : ShardOperation Num RS := {|
  so_scroll_by := replica_scroll_by read_consistency;
  so_info := replica_info;
  so_search := replica_search read_consistency;
  so_count := replica_count;
  so_retrieve := replica_retrieve read_consistency;
|}.

(** ** What a collection relies on *)

Context (shuffle_perm : ∀ l, shuffle l ≡ₚ l).

Section one_answer.
Context {Res : Type} (read_local : Shard L → result CollectionError Res) (read_remote : PeerId → result CollectionError Res).
Context (pick : list (result CollectionError Res) → nat).
Implicit Types self : RS.

Lemma first_success_ok fuel err (l : list (result CollectionError Res)) :
  l ≠ [] → length l ≤ fuel → (∀ r, r ∈ l → ∃ res, r = Ok res) → ∃ res, first_success pick fuel err l = inl (Ok res) ∧ Ok res ∈ l.
Proof using.
  intros Hne Hfuel Hall. destruct fuel as [|fuel]; [by destruct l; cbn in Hfuel; [|lia]|]. cbn.
  destruct (take_next pick l) as [[r rest]|] eqn:Hn; [|by apply take_next_None in Hn].
  apply take_next_Some in Hn. destruct (Hall r) as [res ->]; [rewrite Hn; left|]. exists res. split; [done|]. rewrite Hn. left.
Qed.

Lemma read_remotes_ok self err :
  base.filter (λ p, peer_is_active self p = true) (rs_remotes self) ≠ [] →
  (∀ p, p ∈ base.filter (λ p, peer_is_active self p = true) (rs_remotes self) → ∃ res, read_remote p = Ok res) →
  ∃ p res, p ∈ base.filter (λ p, peer_is_active self p = true) (rs_remotes self) ∧ read_remote p = Ok res ∧
    read_remotes shard_id display_peer read_remote shuffle pick err self = Ok res.
Proof using shuffle_perm.
  unfold read_remotes. set (l := base.filter _ _). intros Hne Hall. destruct l as [|p0 l0] eqn:Hl; [done|]. rewrite <-Hl in *.
  pose proof (shuffle_perm l) as Hperm. set (k := shuffle l) in *. assert (length k ≠ 0) as Hk by by rewrite Hperm, Hl.
  destruct (first_success_ok (length (read_remote <$> take (length k `min` READ_REMOTE_REPLICAS) k)) None
    (read_remote <$> take (length k `min` READ_REMOTE_REPLICAS) k)) as (res & Hf & Hin).
  - intros H%(f_equal length). rewrite length_fmap, length_take in H. unfold READ_REMOTE_REPLICAS in H. cbn in H. lia.
  - done.
  - intros r (p & -> & Hp%elem_of_take_elem)%list_elem_of_fmap. apply Hall. by rewrite <-Hperm.
  - rewrite Hf. apply list_elem_of_fmap in Hin as (p & Hp & Hin%elem_of_take_elem). rewrite Hperm in Hin. by exists p, res.
Qed.

(** When every active replica answers, the read gives the answer of one of them. *)
Lemma execute_read_ok self :
  replica_set_ok self → active_replicas self ≠ [] →
  (∀ p, p ∈ active_replicas self → ∃ res, read_replica read_local read_remote self p = Ok res) →
  ∃ p res, p ∈ active_replicas self ∧ read_replica read_local read_remote self p = Ok res ∧
    execute_read_operation shard_id display_peer read_local read_remote shuffle pick self = Ok res.
Proof using shuffle_perm.
  intros Hok Hne Hall. rewrite active_local_replicas in Hne, Hall |- *. unfold execute_read_operation.
  assert (∀ p, p ∈ rs_remotes self → read_replica read_local read_remote self p = read_remote p) as Hrem.
  { intros p Hp. unfold read_replica. rewrite decide_False; [done|]. intros ->. by apply (rso_this self Hok). }
  destruct (active_local self) as [local|] eqn:Hact; unfold active_local in Hact.
  - destruct (peer_is_active self _); [|done]. destruct (Hall (this_peer_id (rs_state self))) as [res Hres]; [left|].
    exists (this_peer_id (rs_state self)), res. split; [left|]. split; [done|]. unfold read_replica in Hres.
    rewrite decide_True, Hact in Hres by done. by rewrite Hact, Hres.
  - cbn [app] in *. destruct (read_remotes_ok self None) as (p & res & Hp & Hr & Hread); [done| |].
    { intros p Hp. rewrite <-Hrem; [by apply Hall|]. by apply list_elem_of_filter in Hp as [_ ?]. }
    exists p, res. split; [done|]. rewrite Hrem by by apply list_elem_of_filter in Hp as [_ ?]. split; [done|].
    destruct (rs_local self); [|done]. by destruct (peer_is_active self _).
Qed.

(** A read of one replica gives the answer of an active one. *)
Lemma read_one_ok resolve self :
  replica_set_ok self → active_replicas self ≠ [] →
  (∀ p, p ∈ active_replicas self → ∃ res, read_replica read_local read_remote self p = Ok res) →
  ∃ p res, p ∈ active_replicas self ∧ read_replica read_local read_remote self p = Ok res ∧
    execute_and_resolve_read_operation shard_id display_peer read_local read_remote shuffle pick resolve default_read_consistency self = Ok res.
Proof using shuffle_perm.
  intros Hok Hne Hall. assert (1 ≤ total_count self) as Hcount.
  { rewrite <-length_replicas. unfold active_replicas in Hne. by destruct (replicas self); [|cbn; lia]. }
  assert (read_factor default_read_consistency (total_count self) = Some (1, ResolveAll)) as Hf.
  { cbn [read_factor default_read_consistency]. rewrite decide_True by done. do 2 f_equal. lia. }
  assert (∃ res, execute_and_resolve_read_operation shard_id display_peer read_local read_remote shuffle pick resolve default_read_consistency self = Ok res)
    as [res Hres].
  { eapply read_live; [done|done|done| |].
    - apply Forall_forall. intros p Hp. by destruct (Hall p Hp) as [r ->].
    - destruct (active_replicas self) as [|p l]; [done|]. destruct (Hall p) as [r Hr]; [left|].
      rewrite filter_cons, decide_True by by rewrite Hr. cbn. lia. }
  destruct (read_answers _ _ _ _ _ _ _ shuffle_perm _ _ _ Hok Hres) as (f & c & ps & resps & Hf' & Hps & Hlen & Hans & Hhead).
  rewrite Hf in Hf'. injection Hf' as <- <-. destruct Hhead as [[_ Hh]|[? _]]; [|done].
  destruct Hans as [|p r ps resps Hp Hans]; [done|]. injection Hh as ->. exists p, res. split_and!; [|done|done].
  eapply elem_of_submseteq; [left|done].
Qed.
End one_answer.

(** *** The points that all active replicas show *)

Context `{!JsonNumber Num} {HG : GeoOps} `{!ShardReadLaws Num L, !ShardReadLaws Num Remote}.
Implicit Types self : RS.

(** A property of the shard of a replica. *)
Definition replica_holds (P : L → Prop) (Q : Remote → Prop) self (p : PeerId) : Prop :=
  if decide (p = this_peer_id (rs_state self))
  then match rs_local self with Some shard => P (get_shard shard) | None => False end
  else Q (network p).

Definition replica_point self (p : PeerId) (e : PointIdType) : option (Point Num) :=
  if decide (p = this_peer_id (rs_state self))
  then match rs_local self with Some shard => shard_point (get_shard shard) e | None => None end
  else shard_point (network p) e.

Definition set_point self (e : PointIdType) : option (Point Num) :=
  match active_replicas self with p :: _ => replica_point self p e | [] => None end.

Record set_readable self : Prop := mkSetReadable {
  sr_ok : replica_set_ok self;
  sr_active : active_replicas self ≠ [];
  sr_replicas p : p ∈ active_replicas self → replica_holds shard_ok shard_ok self p;
  sr_agree p e : p ∈ active_replicas self → replica_point self p e = set_point self e;
}.

Definition set_filter_ok self (filter : option Filter) : Prop :=
  ∀ p, p ∈ active_replicas self → replica_holds (λ s, shard_filter_ok s filter) (λ s, shard_filter_ok s filter) self p.

(** What every replica answers holds of the answer of the set. *)
Section read_spec.
Context {Res : Type} (read_local : L → result CollectionError Res) (read_remote : Remote → result CollectionError Res).
Context (P : L → Prop) (Q : Remote → Prop) (R : (PointIdType → option (Point Num)) → Res → Prop).
Context (R_ext : ∀ f g res, (∀ e, f e = g e) → R f res → R g res).
Context (self : RS) (Hself : set_readable self) (Hfilter : ∀ p, p ∈ active_replicas self → replica_holds P Q self p).
Context (local_spec : ∀ s, shard_ok s → P s → (∀ e, shard_point s e = set_point self e) → ∃ res, read_local s = Ok res ∧ R (shard_point s) res).
Context (remote_spec : ∀ s, shard_ok s → Q s → (∀ e, shard_point s e = set_point self e) → ∃ res, read_remote s = Ok res ∧ R (shard_point s) res).
Abbreviation on_local := (λ shard : Shard L, read_local (get_shard shard)).
Abbreviation on_remote := (λ peer, read_remote (network peer)).

Lemma replica_spec p :
  p ∈ active_replicas self → ∃ res, read_replica on_local on_remote self p = Ok res ∧ R (set_point self) res.
Proof using Hself Hfilter R_ext local_spec remote_spec shuffle_perm.
  destruct Hself as [Hok Hne Hrep Hagree]. intros Hp. specialize (Hrep p Hp). specialize (Hagree p). specialize (Hfilter p Hp).
  unfold replica_holds, replica_point, read_replica in *. destruct (decide (p = this_peer_id (rs_state self))) as [Heq|Hneq].
  - destruct (rs_local self) as [shard|]; [|done].
    destruct (local_spec (get_shard shard)) as (res & Hres & HRr); [done|done|by intros; apply Hagree|].
    exists res. split; [done|]. eapply R_ext; [|done]. intros e. by apply Hagree.
  - destruct (remote_spec (network p)) as (res & Hres & HRr); [done|done|by intros; apply Hagree|].
    exists res. split; [done|]. eapply R_ext; [|done]. intros e. by apply Hagree.
Qed.

Lemma set_read_spec pick :
  ∃ res, execute_read_operation shard_id display_peer on_local on_remote shuffle pick self = Ok res ∧ R (set_point self) res.
Proof using Hself Hfilter R_ext local_spec remote_spec shuffle_perm.
  destruct (execute_read_ok on_local on_remote pick self) as (p & res & Hp & Hr & Hread); [apply Hself|apply Hself| |].
  { intros p Hp. destruct (replica_spec p Hp) as (res & ? & _). eauto. }
  exists res. split; [done|]. destruct (replica_spec p Hp) as (res' & ? & ?). congruence.
Qed.

Lemma set_resolved_spec pick resolve :
  ∃ res, execute_and_resolve_read_operation shard_id display_peer on_local on_remote shuffle pick resolve default_read_consistency self = Ok res ∧
    R (set_point self) res.
Proof using Hself Hfilter R_ext local_spec remote_spec shuffle_perm.
  destruct (read_one_ok on_local on_remote pick resolve self) as (p & res & Hp & Hr & Hread); [apply Hself|apply Hself| |].
  { intros p Hp. destruct (replica_spec p Hp) as (res & ? & _). eauto. }
  exists res. split; [done|]. destruct (replica_spec p Hp) as (res' & ? & ?). congruence.
Qed.
End read_spec.

Lemma scrolled_ext (f g : PointIdType → option (Point Num)) offset filter e :
  (∀ e, f e = g e) → scrolled f offset filter e ↔ scrolled g offset filter e.
Proof using. intros Hfg. unfold scrolled. by rewrite Hfg. Qed.

Abbreviation shows f with_payload with_vector rec :=
  (∃ pt, f (rec_id rec) = Some pt ∧ record_shows with_payload with_vector (rec_id rec) pt rec).

Lemma shows_ext (f g : PointIdType → option (Point Num)) with_payload with_vector (recs : list (PointRecord Num)) :
  (∀ e, f e = g e) → Forall (λ rec, shows f with_payload with_vector rec) recs → Forall (λ rec, shows g with_payload with_vector rec) recs.
Proof using. intros Hfg H. eapply Forall_impl; [exact H|]. cbn. intros rec (pt & Hpt & Hs). exists pt. by rewrite <-Hfg. Qed.

Lemma replica_scroll_spec self offset limit with_payload with_vector filter :
  set_readable self → set_filter_ok self filter → (∀ e pt, set_point self e = Some pt → selectable with_vector pt) →
  ∃ recs all, replica_scroll_by None self offset limit with_payload with_vector filter = Ok recs ∧
    lists_ids (scrolled (set_point self) offset filter) all ∧ rec_id <$> recs = take limit all ∧
    Forall (λ rec, shows (set_point self) (with_payload_from with_payload) with_vector rec) recs.
Proof using shuffle_perm.
  intros Hself Hfilter Hsel.
  destruct (set_resolved_spec (λ s, so_scroll_by s offset limit with_payload with_vector filter)
    (λ s, so_scroll_by s offset limit with_payload with_vector filter) (λ s, shard_filter_ok s filter) (λ s, shard_filter_ok s filter)
    (λ f recs, ∃ all, lists_ids (scrolled f offset filter) all ∧ rec_id <$> recs = take limit all ∧
      Forall (λ rec, shows f (with_payload_from with_payload) with_vector rec) recs)) with (self := self) (pick := next (list (PointRecord Num)))
      (resolve := resolve_records value_eqb) as (recs & Hread & all & Hl & Hids & Hs).
  - intros f g recs Hfg (all & Hl & Hids & Hs). exists all. split_and!; [|done|by eapply shows_ext].
    eapply lists_ids_iff; [|exact Hl]. intros e. by apply scrolled_ext.
  - done.
  - exact Hfilter.
  - intros s Hs Hf Hp. destruct (scroll_by_spec s offset limit with_payload with_vector filter) as (recs & all & ? & ? & ? & ?); [done|done| |eauto 10].
    intros e pt He. apply (Hsel e). by rewrite <-Hp.
  - intros s Hs Hf Hp. destruct (scroll_by_spec s offset limit with_payload with_vector filter) as (recs & all & ? & ? & ? & ?); [done|done| |eauto 10].
    intros e pt He. apply (Hsel e). by rewrite <-Hp.
  - by exists recs, all.
Qed.

Lemma replica_count_spec self filter :
  set_readable self → set_filter_ok self filter →
  ∃ all, replica_count self (mkCountRequest filter true) = Ok (N.of_nat (length all)) ∧ lists_ids (scrolled (set_point self) None filter) all.
Proof using shuffle_perm.
  intros Hself Hfilter.
  destruct (set_read_spec (λ s, so_count (Num:=Num) s (mkCountRequest filter true)) (λ s, so_count (Num:=Num) s (mkCountRequest filter true))
    (λ s, shard_filter_ok s filter) (λ s, shard_filter_ok s filter)
    (λ f n, ∃ all, n = N.of_nat (length all) ∧ lists_ids (scrolled f None filter) all)) with (self := self) (pick := next N)
    as (n & Hread & all & -> & Hl).
  - intros f g n Hfg (all & -> & Hl). exists all. split; [done|]. eapply lists_ids_iff; [|exact Hl]. intros e. by apply scrolled_ext.
  - done.
  - exact Hfilter.
  - intros s Hs Hf _. destruct (count_spec s filter) as (all & ? & ?); eauto.
  - intros s Hs Hf _. destruct (count_spec s filter) as (all & ? & ?); eauto.
  - by exists all.
Qed.

Lemma replica_retrieve_spec self request with_payload with_vector :
  set_readable self → (∀ e pt, set_point self e = Some pt → selectable with_vector pt) →
  ∃ recs, replica_retrieve None self request with_payload with_vector = Ok recs ∧ NoDup (rec_id <$> recs) ∧
    (∀ e, e ∈ rec_id <$> recs ↔ e ∈ pr_ids request ∧ is_Some (set_point self e)) ∧
    Forall (λ rec, shows (set_point self) with_payload with_vector rec) recs.
Proof using shuffle_perm.
  intros Hself Hsel.
  destruct (set_resolved_spec (λ s, so_retrieve s request with_payload with_vector) (λ s, so_retrieve s request with_payload with_vector)
    (λ _, True) (λ _, True) (λ f recs, NoDup (rec_id <$> recs) ∧ (∀ e, e ∈ rec_id <$> recs ↔ e ∈ pr_ids request ∧ is_Some (f e)) ∧
      Forall (λ rec, shows f with_payload with_vector rec) recs)) with (self := self) (pick := next (list (PointRecord Num)))
      (resolve := resolve_records value_eqb) as (recs & Hread & Hnd & Hids & Hs).
  - intros f g recs Hfg (Hnd & Hids & Hs). split_and!; [done| |by eapply shows_ext]. intros e. by rewrite Hids, Hfg.
  - done.
  - intros p Hp. pose proof (sr_replicas self Hself p Hp) as H. unfold replica_holds in *. destruct (decide _); [|done]. by destruct (rs_local self).
  - intros s Hs _ Hp. destruct (retrieve_spec s request with_payload with_vector) as (recs & ? & ? & ? & ?); [done| |by exists recs].
    intros e pt He. apply (Hsel e). by rewrite <-Hp.
  - intros s Hs _ Hp. destruct (retrieve_spec s request with_payload with_vector) as (recs & ? & ? & ? & ?); [done| |by exists recs].
    intros e pt He. apply (Hsel e). by rewrite <-Hp.
  - by exists recs.
Qed.

#[export] Instance replica_set_laws : @ShardReadLaws Num RS JsonNumber0 HG (replica_set_operation None) :=
  @Build_ShardReadLaws Num RS JsonNumber0 HG (replica_set_operation None) set_readable set_point set_filter_ok
    replica_scroll_spec replica_count_spec replica_retrieve_spec.
End replica_reads.
