(* ===== verification/Collection.v ===== *)
(** * Collections

    Models the shard holder of [lib/collection/src/shards/shard_holder.rs], the
    reads and the client updates of [lib/collection/src/collection.rs] and the
    bookkeeping of shard transfers in [shards/transfer/shard_transfer.rs].

    A collection reads its shards through [ShardOperation]; the consistency of
    a read is part of that instance (see [ReplicaReads]).  A [HashMap] of
    shards is read in the order of [map_to_list], and concurrent requests are
    answered in that order; [try_join_all] gives the first error of that
    order.  [usize] sums do not overflow here. *)

From stdpp Require Import base gmap strings list sorting.
From Stdlib Require Import ZArith SpecFloat Lia.
From S2P Require Import Prelude Types Rocks NamedVectors Text Filters TopK Spaces SegmentEntry SegmentHolder Segment Requests SearchAggregator.
From S2P Require Import CollectionConfig ShardReads Shards Resolve Operations ReplicaSet.

(** ** Shard transfers *)

Record ShardTransfer := mkShardTransfer {
  tr_shard_id : ShardId;
  tr_from : PeerId;
  tr_to : PeerId;
  tr_sync : bool;
}.

#[export] Instance ShardTransfer_eq_dec : EqDecision ShardTransfer.
Proof. solve_decision. Defined.

#[export] Program Instance ShardTransfer_countable : Countable ShardTransfer :=
  inj_countable' (λ t, (tr_shard_id t, tr_from t, tr_to t, tr_sync t)) (λ '(s, f, t, b), mkShardTransfer s f t b) _.
Next Obligation. by intros []. Qed.

Record ShardTransferKey := mkTransferKey { key_shard_id : ShardId; key_from : PeerId; key_to : PeerId }.

Definition key_check (self : ShardTransferKey) (transfer : ShardTransfer) : bool :=
  bool_decide (key_shard_id self = tr_shard_id transfer) && bool_decide (key_from self = tr_from transfer)
  && bool_decide (key_to self = tr_to transfer).

Definition transfer_key (self : ShardTransfer) : ShardTransferKey := mkTransferKey (tr_shard_id self) (tr_from self) (tr_to self).

(** ** The shard holder *)

Record ShardHolder (Ring S : Type) := mkShardHolder {
  sh_shards : gmap ShardId S;
  shard_transfers : gset ShardTransfer;
  sh_ring : Ring;
}.
Arguments mkShardHolder {Ring S}.
Arguments sh_shards {Ring S}.
Arguments shard_transfers {Ring S}.
Arguments sh_ring {Ring S}.

Section shard_holder.
Context {R1 R2 S : Type} `{!RingLib ShardId R1, !RingLib (ShardId * N) R2}.
Abbreviation Holder := (ShardHolder (HashRing R1 R2) S).

Definition add_shard (shard_id : ShardId) (shard : S) (self : Holder) : Holder :=
  mkShardHolder (<[shard_id := shard]> (sh_shards self)) (shard_transfers self) (ring_add shard_id (sh_ring self)).

Definition remove_shard (shard_id : ShardId) (self : Holder) : option S * Holder :=
  (sh_shards self !! shard_id,
   mkShardHolder (delete shard_id (sh_shards self)) (shard_transfers self) (ring_remove shard_id (sh_ring self)).2).

Definition all_shards (self : Holder) : list S := (map_to_list (sh_shards self)).*2.

Definition split_to_shards {Num} (operation : CollectionUpdateOperations (Num:=Num)) (self : Holder) :
    result CollectionError (list (ShardId * CollectionUpdateOperations (Num:=Num))) :=
  match split_by_shard operation (sh_ring self) with
  | Ok (ByShard by_shard) =>
      res_map (λ p : ShardId * _, match sh_shards self !! p.1 with Some _ => Ok p | None => Panic end) by_shard
  | Ok (ToAll operation) => Ok ((λ shard_id, (shard_id, operation)) <$> (map_to_list (sh_shards self)).*1)
  | Err _ | Panic => Panic
  end.

Definition register_start_shard_transfer (transfer : ShardTransfer) (self : Holder) : bool * Holder :=
  (bool_decide (transfer ∉ shard_transfers self),
   mkShardHolder (sh_shards self) ({[ transfer ]} ∪ shard_transfers self) (sh_ring self)).

Definition register_finish_transfer (key : ShardTransferKey) (self : Holder) : bool * Holder :=
  let transfers := base.filter (λ transfer, key_check key transfer = false) (shard_transfers self) in
  (bool_decide (size (shard_transfers self) ≠ size transfers), mkShardHolder (sh_shards self) transfers (sh_ring self)).

Definition get_related_transfers (shard_id : ShardId) (peer_id : PeerId) (self : Holder) : list ShardTransfer :=
  base.filter (λ transfer, tr_from transfer = peer_id ∨ tr_to transfer = peer_id)
    (base.filter (λ transfer, tr_shard_id transfer = shard_id) (elements (shard_transfers self))).

Definition check_transfer_exists (key : ShardTransferKey) (self : Holder) : bool :=
  existsb (key_check key) (elements (shard_transfers self)).

Definition get_transfer (key : ShardTransferKey) (self : Holder) : option ShardTransfer :=
  snd <$> list_find (λ transfer, key_check key transfer = true) (elements (shard_transfers self)).

Definition target_shard (shard_selection : option ShardId) (self : Holder) : list S :=
  match shard_selection with
  | None => all_shards self
  | Some shard_selection => match sh_shards self !! shard_selection with Some shard => [shard] | None => [] end
  end.
End shard_holder.

(** ** Reads *)

Section reads.
Context {Num R1 R2 S : Type} `{!ShardOperation Num S} `{!RingLib ShardId R1, !RingLib (ShardId * N) R2}.
Abbreviation Holder := (ShardHolder (HashRing R1 R2) S).
Abbreviation Scored := (ScoredPoint Num).
Implicit Types (self : Holder) (shard_selection : option ShardId).

(** The extra point of a full page is the offset of the next one. *)
Definition next_page (limit : nat) (points : list (PointRecord Num)) : result CollectionError (list (PointRecord Num) * option PointIdType) :=
  if decide (length points < limit) then Ok (points, None)
  else match last points with Some point => Ok (take (pred (length points)) points, Some (rec_id point)) | None => Panic end.

Definition collection_scroll_by (request : ScrollRequest) shard_selection self :
    result CollectionError (list (PointRecord Num) * option PointIdType) :=
  let limit := default (default 0 (scr_limit default_scroll_request)) (scr_limit request) in
  let with_payload_interface := default (default (WPBool true) (scr_with_payload default_scroll_request)) (scr_with_payload request) in
  if decide (limit = 0) then Err (BadRequest "Limit cannot be 0")
  else
    let limit := Datatypes.S limit in
    retrieved_points ← res_map (λ shard, so_scroll_by shard (scr_offset request) limit with_payload_interface
                                   (scr_with_vector request) (scr_filter request)) (target_shard shard_selection self);
    next_page limit (take limit (sort_records (concat retrieved_points))).

Definition collection_count (request : CountRequest) shard_selection self : result CollectionError N :=
  counts ← res_map (λ shard, so_count (Num:=Num) shard request) (target_shard shard_selection self);
  Ok (foldr N.add 0%N counts).

Definition collection_retrieve (request : PointRequest) shard_selection self : result CollectionError (list (PointRecord Num)) :=
  let with_payload := with_payload_from (default (WPBool false) (pr_with_payload request)) in
  all_shard_collection_results ← res_map (λ shard, so_retrieve shard request with_payload (pr_with_vector request))
                                   (target_shard shard_selection self);
  Ok (concat all_shard_collection_results).

(** *** Search *)

(** [merged_results[index].append(shard_searches_result)]: panics when a shard answers more requests than there are. *)
Fixpoint append_results (merged : list (list Scored)) (shard : list (list Scored)) : result CollectionError (list (list Scored)) :=
  match merged, shard with
  | _, [] => Ok merged
  | [], _ :: _ => Panic
  | m :: merged, s :: shard => rest ← append_results merged shard; Ok ((m ++ s) :: rest)
  end.

Definition merge_request (collection_params : CollectionParams) shard_selection (p : list Scored * SearchRequest) :
    result CollectionError (list Scored) :=
  let '(res, request) := p in
  params ← get_vector_params collection_params (get_name (sr_vector request));
  top_res ← (match distance_order (vp_distance params) with
             | LargeBetter => peek_top_largest_iterable scored_point_leb res (sr_limit request + sr_offset request)
             | SmallBetter => peek_top_smallest_iterable scored_point_leb res (sr_limit request + sr_offset request)
             end);
  Ok (if decide (shard_selection = None ∧ 0 < sr_offset request) then drop (sr_offset request) top_res else top_res).

Definition search_shards (collection_params : CollectionParams) (searches : list SearchRequest) shard_selection self :
    result CollectionError (list (list Scored)) :=
  all_searches_res ← res_map (λ shard, so_search shard searches) (target_shard shard_selection self);
  merged_results ← res_fold (λ shard merged, append_results merged shard) all_searches_res (replicate (length searches) []);
  res_map (merge_request collection_params shard_selection) (zip merged_results searches).

Definition fill_search_result_with_payload (search_result : list Scored) (with_payload : option WithPayloadInterface)
    (with_vector : WithVector) shard_selection self : result CollectionError (list Scored) :=
  let retrieve_request := mkPointRequest (sp_id <$> search_result) with_payload with_vector in
  retrieved_records ← collection_retrieve retrieve_request shard_selection self;
  let records_map : gmap PointIdType (PointRecord Num) :=
    fold_left (λ m rec, <[rec_id rec := rec]> m) retrieved_records ∅ in
  Ok (reverse (fold_left (λ acc (scored_point : Scored),
    match acc.1 !! sp_id scored_point with
    | Some record => (delete (sp_id scored_point) acc.1,
        mkScoredPoint (sp_id scored_point) (sp_version scored_point) (sp_score scored_point) (rec_payload record) (rec_vector record) :: acc.2)
    | None => acc
    end) search_result (records_map, [])).2).

Definition PAYLOAD_TRANSFERS_FACTOR_THRESHOLD : nat := 10.

Definition without_payload (search : SearchRequest) : SearchRequest :=
  mkSearchRequest (sr_vector search) (sr_filter search) (sr_params search) (sr_limit search) (sr_offset search) None None
    (sr_score_threshold search).

Definition search_batch (collection_params : CollectionParams) (searches : list SearchRequest) shard_selection self :
    result CollectionError (list (list Scored)) :=
  if forallb (λ s, bool_decide (sr_limit s = 0)) searches then Ok []
  else
    let is_payload_required := forallb (λ s, default false (with_payload_is_required <$> sr_with_payload s)) searches in
    let with_vectors := forallb (λ s, default false (with_vector_is_some <$> sr_with_vector s)) searches in
    let metadata_required := is_payload_required || with_vectors in
    let sum_limits := sum_list_with sr_limit searches in
    let sum_offsets := sum_list_with sr_offset searches in
    let require_transfers := size (sh_shards self) * (sum_limits + sum_offsets) in
    let used_transfers := sum_limits in
    let is_required_transfer_large_enough :=
      bool_decide (used_transfers * PAYLOAD_TRANSFERS_FACTOR_THRESHOLD < require_transfers) in
    if metadata_required && is_required_transfer_large_enough
    then
      without_payload_results ← search_shards collection_params (without_payload <$> searches) shard_selection self;
      res_map (λ p : list Scored * SearchRequest,
        fill_search_result_with_payload p.1 (sr_with_payload p.2) (default (WVBool false) (sr_with_vector p.2)) shard_selection self)
        (zip without_payload_results searches)
    else search_shards collection_params searches shard_selection self.

Definition collection_search (collection_params : CollectionParams) (request : SearchRequest) shard_selection self :
    result CollectionError (list Scored) :=
  if decide (sr_limit request = 0) then Ok []
  else
    results ← search_shards collection_params [request] shard_selection self;
    match results with res :: _ => Ok res | [] => Panic end.

(** *** Information *)

Definition status_rank (s : CollectionStatus) : nat := match s with Green => 0 | Yellow => 1 | Red => 2 end.
Definition max_status (a b : CollectionStatus) : CollectionStatus := if decide (status_rank a <= status_rank b) then b else a.

(** The order of the texts of errors. *)
Context (error_leb : CollectionError → CollectionError → bool).

Definition max_optimizer_status (a b : OptimizersStatus) : OptimizersStatus :=
  match a, b with
  | OptimizersOk, _ => b
  | _, OptimizersOk => a
  | OptimizersError x, OptimizersError y => if error_leb x y then b else a
  end.

Definition merge_info (shard_info info : CollectionInfo) : CollectionInfo :=
  mkCollectionInfo (max_status (ci_status info) (ci_status shard_info))
    (max_optimizer_status (ci_optimizer_status info) (ci_optimizer_status shard_info))
    (ci_vectors_count info + ci_vectors_count shard_info) (ci_indexed_vectors_count info + ci_indexed_vectors_count shard_info)
    (ci_points_count info + ci_points_count shard_info) (ci_segments_count info + ci_segments_count shard_info) (ci_config info)
    (map_fold (λ key schema acc, match acc !! key with
       | Some o => <[key := mkPayloadIndexInfo (pii_data_type o) (pii_params o) (pii_points o + pii_points schema)]> acc
       | None => <[key := schema]> acc
       end) (ci_payload_schema info) (ci_payload_schema shard_info)).

Definition collection_info shard_selection self : result CollectionError CollectionInfo :=
  match target_shard shard_selection self with
  | [] => Err (CServiceError "There are no shards for selected collection")
  | first_shard :: target_shards =>
      info ← so_info (Num:=Num) first_shard;
      all_shard_collection_results ← res_map (so_info (Num:=Num)) target_shards;
      Ok (fold_left (λ info shard_info, merge_info shard_info info) all_shard_collection_results info)
  end.
End reads.

(** ** Updates *)

Section updates.
Context {Num R1 R2 S : Type} `{!RingLib ShardId R1, !RingLib (ShardId * N) R2}.
Abbreviation Holder := (ShardHolder (HashRing R1 R2) S).
Abbreviation Operation := (CollectionUpdateOperations (Num:=Num)).
(** An update of a replica set, and one of its local replica only. *)
Context (update_with_consistency : Operation → S → result CollectionError UpdateResult * S).
Context (update_local : Operation → S → result CollectionError (option UpdateResult) * S).
Context (display_validation : string → string).
Implicit Types self : Holder.

Definition validate (self : Operation) : result CollectionError unit :=
  match self with
  | PointOperation operation =>
      match validate_point operation with Ok _ => Ok tt | Err err => Err (BadInput (display_validation err)) | Panic => Panic end
  | PayloadOperation _ | FieldIndexOperation _ => Ok tt
  end.

Definition set_shard (shard_id : ShardId) (shard : S) self : Holder :=
  mkShardHolder (<[shard_id := shard]> (sh_shards self)) (shard_transfers self) (sh_ring self).

(** One request per shard. *)
Definition update_shards (ops : list (ShardId * Operation)) self : list (result CollectionError UpdateResult) * Holder :=
  foldl (λ acc p, match sh_shards (acc.2) !! p.1 with
    | Some shard => let '(res, shard) := update_with_consistency p.2 shard in (acc.1 ++ [res], set_shard p.1 shard acc.2)
    | None => acc
    end) ([], self) ops.

Definition result_is_err {A} (r : result CollectionError A) : bool := match r with Err _ => true | _ => false end.

(** The result of the update of several shards. *)
Definition merge_update_results (results : list (result CollectionError UpdateResult)) : result CollectionError UpdateResult :=
  if existsb (λ r, match r with Panic => true | _ => false end) results then Panic
  else
    let with_error := length (base.filter (λ r, result_is_err r = true) results) in
    let result_len := length results in
    if decide (0 < with_error)
    then
      match list_find (λ r, result_is_err r = true) results with
      | Some (_, Err err) =>
          if decide (with_error < result_len)
          then Err (InconsistentShardFailure (N.of_nat (as_u32 result_len)) (N.of_nat (as_u32 with_error)) err)
          else Err err
      | _ => Panic
      end
    else match last results with Some r => r | None => Panic end.

Definition update_from_client (operation : Operation) : sm Holder CollectionError UpdateResult := λ self,
  match validate operation with
  | Ok _ =>
      match split_to_shards operation self with
      | Ok [] => (Err (BadRequest "Empty update request"), self)
      | Ok shard_to_op => let '(results, self) := update_shards shard_to_op self in (merge_update_results results, self)
      | Err err => (Err err, self)
      | Panic => (Panic, self)
      end
  | Err err => (Err err, self)
  | Panic => (Panic, self)
  end.

Definition update_from_peer (show_shard : ShardId → string) (operation : Operation) (shard_selection : ShardId) :
    sm Holder CollectionError UpdateResult := λ self,
  let not_found := CServiceError ("No target shard " +:+ show_shard shard_selection +:+ " found for update") in
  match sh_shards self !! shard_selection with
  | None => (Err not_found, self)
  | Some target_shard =>
      let '(res, shard) := update_local operation target_shard in
      (match res with Ok (Some res) => Ok res | Ok None => Err not_found | Err err => Err err | Panic => Panic end,
       set_shard shard_selection shard self)
  end.
End updates.
