(* ===== verification/CollectionSpec.v ===== *)
(** * What collections promise

    Reads of a collection are reads of the union of its shards: scrolling,
    counting and retrieving ([collection.rs]). *)

From stdpp Require Import base gmap strings list sorting.
From Stdlib Require Import ZArith SpecFloat Lia.
From S2P Require Import Prelude Types Rocks NamedVectors Text Filters TopK Spaces SegmentEntry SegmentHolder Segment SegmentSpec Requests SearchAggregator.
From S2P Require Import IdTracker VectorStorage PayloadStorage StructPayloadIndex PayloadIndexSpec PayloadIndexLaws PlainIndex.
From S2P Require Import Samples HolderSpec RetrieveSpec ProxyScroll SearchAll CollectionConfig ShardReads ShardSpec Shards Resolve Operations.
From S2P Require Import ReplicaSet ReplicaSpec ReplicaReads Collection.

Lemma fmap_concat {A B} (f : A → B) (ll : list (list A)) : f <$> concat ll = concat (fmap (M:=list) f <$> ll).
Proof. induction ll as [|l ll IH]; [done|]. cbn [concat]. rewrite fmap_app, IH. done. Qed.

Section reads.
Context {Num S : Type} `{!JsonNumber Num} {HG : GeoOps} `{!ShardOperation Num S, !ShardReadLaws Num S}.

(** The point, in the shard that has it. *)
Definition collection_point (shards : list S) (e : PointIdType) : option (Point Num) := head (omap (λ s, shard_point s e) shards).

(** The shards can be read, and no point is in two of them. *)
Record shards_readable (shards : list S) : Prop := mkShardsReadable {
  cr_ok s : s ∈ shards → shard_ok s;
  cr_home i j s t e : shards !! i = Some s → shards !! j = Some t →
    is_Some (shard_point s e) → is_Some (shard_point t e) → i = j;
}.

Lemma shards_readable_cons s l :
  shards_readable (s :: l) → shard_ok s ∧ shards_readable l ∧ ∀ t e, t ∈ l → is_Some (shard_point s e) → shard_point t e = None.
Proof using.
  intros [Hok Hhome]. split_and!; [apply Hok; left|split|].
  - intros t Ht. apply Hok. by right.
  - intros i j t u e Ht Hu H1 H2. pose proof (Hhome (Datatypes.S i) (Datatypes.S j) t u e Ht Hu H1 H2). lia.
  - intros t e [j Hj]%list_elem_of_lookup_1 Hs. destruct (shard_point t e) eqn:Ht; [|done].
    pose proof (Hhome 0 (Datatypes.S j) s t e eq_refl Hj Hs ltac:(by rewrite Ht)). lia.
Qed.

Lemma collection_point_Some l e pt :
  shards_readable l → collection_point l e = Some pt ↔ ∃ s, s ∈ l ∧ shard_point s e = Some pt.
Proof using.
  unfold collection_point. induction l as [|s l IH]; intros Hr; [split; [done|by intros (s & ?%not_elem_of_nil & _)]|].
  apply shards_readable_cons in Hr as (_ & Hr & Hdisj). cbn. destruct (shard_point s e) as [pt'|] eqn:Hs; cbn.
  - split; [intros [= ->]; exists s; split; [left|done]|]. intros (t & [->|Ht]%elem_of_cons & Hpt); [congruence|].
    rewrite (Hdisj t e Ht) in Hpt; [done|by rewrite Hs].
  - rewrite IH by done. split; [intros (t & ? & ?); exists t; split; [by right|done]|].
    intros (t & [->|Ht]%elem_of_cons & Hpt); [congruence|by exists t].
Qed.

Lemma shards_scrolled l offset filter e :
  shards_readable l → (∃ s, s ∈ l ∧ scrolled (shard_point s) offset filter e) ↔ scrolled (collection_point l) offset filter e.
Proof using.
  intros Hr. unfold scrolled. setoid_rewrite collection_point_Some; [|done]. split.
  - intros (s & Hs & Ho & pt & Hpt & Hp). eauto 10.
  - intros (Ho & pt & (s & Hs & Hpt) & Hp). eauto 10.
Qed.

Abbreviation shows f with_payload with_vector rec :=
  (∃ pt, f (rec_id rec) = Some pt ∧ record_shows with_payload with_vector (rec_id rec) pt rec).

Lemma shows_collection l s with_payload with_vector (recs : list (PointRecord Num)) :
  shards_readable l → s ∈ l → Forall (λ rec, shows (shard_point s) with_payload with_vector rec) recs →
  Forall (λ rec, shows (collection_point l) with_payload with_vector rec) recs.
Proof using.
  intros Hr Hs H. eapply Forall_impl; [exact H|]. cbn. intros rec (pt & Hpt & Hsh). exists pt. split; [|done].
  apply collection_point_Some; eauto.
Qed.

(** *** Scrolling *)

Lemma scroll_shards l offset limit with_payload with_vector filter :
  shards_readable l → (∀ s, s ∈ l → shard_filter_ok s filter) →
  (∀ e pt, collection_point l e = Some pt → selectable with_vector pt) →
  ∃ pages, res_map (λ s, so_scroll_by s offset limit with_payload with_vector filter) l = Ok pages ∧
    Forall2 (λ s recs, first_page (scrolled (shard_point s) offset filter) (Some limit) (rec_id <$> recs) ∧
      Forall (λ rec, shows (collection_point l) (with_payload_from with_payload) with_vector rec) recs) l pages.
Proof using.
  intros Hr Hf Hsel. destruct (res_map_Forall2 (λ s, so_scroll_by s offset limit with_payload with_vector filter)
    (λ s recs, first_page (scrolled (shard_point s) offset filter) (Some limit) (rec_id <$> recs) ∧
      Forall (λ rec, shows (collection_point l) (with_payload_from with_payload) with_vector rec) recs) l) as (pages & Hp & Hall); [|by exists pages].
  intros s Hs. destruct (scroll_by_spec s offset limit with_payload with_vector filter) as (recs & all & Hread & [Ho Hall] & Hids & Hsh);
    [by apply (cr_ok l Hr)|by apply Hf| |].
  { intros e pt He. apply (Hsel e). apply collection_point_Some; eauto. }
  exists recs. split; [done|]. split; [|by eapply shows_collection]. exists all. rewrite Hids. split_and!; [done|done| | |].
  - by apply (ordered_take_limit (Some limit) all).
  - intros e He%elem_of_take_elem. by apply Hall.
  - cbn. by rewrite take_take, Nat.min_id.
Qed.

Lemma pages_NoDup l offset filter limit pages :
  shards_readable l → Forall2 (λ s page, first_page (scrolled (shard_point s) offset filter) limit page) l pages → NoDup (concat pages).
Proof using.
  intros Hr Hall. induction Hall as [|s page l pages (all & _ & _ & [_ Hnd] & Hin & _) Hrest IH]; [constructor|]. cbn.
  apply shards_readable_cons in Hr as (_ & Hr & Hdisj). apply NoDup_app. split_and!; [done| |by apply IH].
  intros e He (page' & [j Hj]%list_elem_of_lookup_1 & He')%elem_of_concat. destruct (Hin e He) as (_ & pt & Hpt & _).
  destruct (Forall2_lookup_r _ _ _ _ _ Hrest Hj) as (t & Ht & (_ & _ & _ & _ & Hin' & _)).
  destruct (Hin' e He') as (_ & pt' & Hpt' & _). rewrite (Hdisj t e) in Hpt'; [done|by eapply list_elem_of_lookup_2|by rewrite Hpt].
Qed.

Lemma scroll_merged l offset limit with_payload with_vector filter :
  shards_readable l → (∀ s, s ∈ l → shard_filter_ok s filter) →
  (∀ e pt, collection_point l e = Some pt → selectable with_vector pt) →
  ∃ pages all, res_map (λ s, so_scroll_by s offset limit with_payload with_vector filter) l = Ok pages ∧
    lists_ids (scrolled (collection_point l) offset filter) all ∧
    rec_id <$> take limit (sort_records (concat pages)) = take limit all ∧
    Forall (λ rec, shows (collection_point l) (with_payload_from with_payload) with_vector rec) (take limit (sort_records (concat pages))).
Proof using.
  intros Hr Hf Hsel. destruct (scroll_shards l offset limit with_payload with_vector filter Hr Hf Hsel) as (pages & Hp & Hall).
  exists pages. assert (Forall2 (λ s page, first_page (scrolled (shard_point s) offset filter) (Some limit) page) l (fmap (M:=list) (rec_id (Num:=Num)) <$> pages)) as Hpages.
  { apply Forall2_fmap_r. eapply Forall2_impl; [exact Hall|]. by intros s recs []. }
  pose proof (merge_pages (λ s, scrolled (shard_point s) offset filter) (Some limit) _ _ Hpages) as Hm.
  destruct (first_page_lists _ _ _ Hm) as (all & Hl & Ht). cbn in Ht. exists all. split; [done|]. split; [|split].
  - eapply lists_ids_iff; [|exact Hl]. intros e. by apply shards_scrolled.
  - rewrite <-Ht, fmap_take. f_equal. apply sort_records_ids; [apply merge_ids_ordered| |].
    + rewrite fmap_concat. by eapply pages_NoDup.
    + intros e. rewrite elem_of_merge_ids, fmap_concat, elem_of_concat. done.
  - apply Forall_take. unfold sort_records. rewrite merge_sort_Permutation. apply Forall_concat.
    apply Forall_forall. intros recs [i Hi]%list_elem_of_lookup_1. by destruct (Forall2_lookup_r _ _ _ _ _ Hall Hi) as (s & _ & _ & ?).
Qed.

(** A page and the offset of the next one. *)
Lemma next_page_ok limit (points : list (PointRecord Num)) all :
  rec_id <$> points = take (Datatypes.S limit) all →
  ∃ page, next_page (Datatypes.S limit) points = Ok (page, all !! limit) ∧ rec_id <$> page = take limit all ∧ ∀ rec, rec ∈ page → rec ∈ points.
Proof using.
  intros Hids. pose proof (f_equal length Hids) as Hlen. rewrite length_fmap, length_take in Hlen. unfold next_page. case_decide as Hlt.
  - exists points. rewrite lookup_ge_None_2 by lia. split_and!; [done| |done]. rewrite Hids, !take_ge by lia. done.
  - assert (all = take limit all ++ drop limit all) as Hall by by rewrite take_drop. assert (limit < length all) as Hlim by lia.
    destruct (lookup_lt_is_Some_2 _ _ Hlim) as [e He]. rewrite (take_S_r _ _ _ He) in Hids.
    apply fmap_app_inv in Hids as (page & tail & Hpage & Htail & ->).
    destruct tail as [|rec [|]]; [done| |done]. injection Htail as Hrec. rewrite last_snoc. exists page. split_and!.
    + rewrite length_app. cbn [length]. rewrite Nat.add_1_r. cbn [pred]. rewrite take_app_length, He. by rewrite Hrec.
    + done.
    + intros r Hr. apply elem_of_app. by left.
Qed.

(** *** All pages *)

Lemma lists_ids_drop (f : PointIdType → option (Point Num)) offset filter all k o :
  lists_ids (scrolled f offset filter) all → all !! k = Some o → lists_ids (scrolled f (Some o) filter) (drop k all).
Proof using.
  intros [[Hs Hnd] Hall] Ho. assert (all = take k all ++ drop k all) as Heq by by rewrite take_drop.
  pose proof Hs as Hs'. rewrite Heq in Hs', Hnd. pose proof (drop_S all o k Ho) as Hd.
  apply NoDup_app in Hnd as (Hnd1 & Hdisj & Hnd2). apply StronglySorted_app in Hs' as (Hcross & _ & Hs2). split; [by split|].
  - assert (∀ e, e ∈ drop k all → point_id_le o e) as Hge.
    { rewrite Hd in *. apply StronglySorted_inv in Hs2 as [_ Hf]. rewrite Forall_forall in Hf. intros e [->|He]%elem_of_cons; [reflexivity|by apply Hf]. }
    assert (o ∈ all) as Hoall by by eapply list_elem_of_lookup_2.
    intros e. split.
    + intros He. assert (e ∈ all) as Hea by (rewrite Heq; apply elem_of_app; by right). apply Hall in Hea as (_ & pt & Hpt & Hp).
      split; [by apply Hge|eauto].
    + intros (Hoe & pt & Hpt & Hp). assert (e ∈ all) as Hea.
      { apply Hall. split; [|eauto]. apply Hall in Hoall as (Hfo & _). destruct offset as [o'|]; [|done]. exact (point_id_le_trans o' o e Hfo Hoe). }
      rewrite Heq, elem_of_app in Hea. destruct Hea as [Hea|]; [|done]. exfalso.
      assert (point_id_le e o) as Hle by (apply Hcross; [done|]; rewrite Hd; left).
      assert (e = o) as ->. { by apply (anti_symm point_id_le). } apply (Hdisj o); [done|]. rewrite Hd. left.
Qed.

Context {R1 R2 : Type} `{!RingLib ShardId R1, !RingLib (ShardId * N) R2}.
Abbreviation Holder := (ShardHolder (HashRing R1 R2) S).
Implicit Types self : Holder.

Definition request_limit (request : ScrollRequest) : nat := default 10 (scr_limit request).

Definition from_page (request : ScrollRequest) (offset : option PointIdType) : ScrollRequest :=
  mkScrollRequest offset (scr_limit request) (scr_filter request) (scr_with_payload request) (scr_with_vector request).

(** A client that asks for one page after the other. *)
Fixpoint scroll_all (fuel : nat) (request : ScrollRequest) (sel : option ShardId) self : result CollectionError (list (PointRecord Num)) :=
  match fuel with
  | 0 => Panic
  | Datatypes.S fuel =>
      page ← collection_scroll_by request sel self;
      match page.2 with
      | None => Ok page.1
      | Some next => rest ← scroll_all fuel (from_page request (Some next)) sel self; Ok (page.1 ++ rest)
      end
  end.

Lemma scroll_all_mono fuel fuel' request sel self recs :
  scroll_all fuel request sel self = Ok recs → fuel ≤ fuel' → scroll_all fuel' request sel self = Ok recs.
Proof using.
  revert fuel' request recs. induction fuel as [|fuel IH]; intros [|fuel'] request recs; try done; [lia|]. cbn [scroll_all].
  destruct (collection_scroll_by request sel self) as [[points [next|]]|e|]; cbn; [|done..].
  destruct (scroll_all fuel _ sel self) as [rest|e|] eqn:Hrest; [|done..]. intros Hok Hle. rewrite (IH fuel' _ _ Hrest) by lia. done.
Qed.

Section scroll.
Context (request : ScrollRequest) (sel : option ShardId) (self : Holder).
Abbreviation shards := (target_shard sel self).
Context (Hr : shards_readable shards) (Hf : ∀ s, s ∈ shards → shard_filter_ok s (scr_filter request)).
Context (Hsel : ∀ e pt, collection_point shards e = Some pt → selectable (scr_with_vector request) pt).
Context (Hlimit : request_limit request ≠ 0).

Lemma collection_scroll_ok offset :
  ∃ recs all, collection_scroll_by (from_page request offset) sel self = Ok (recs, all !! request_limit request) ∧
    lists_ids (scrolled (collection_point shards) offset (scr_filter request)) all ∧ rec_id <$> recs = take (request_limit request) all ∧
    Forall (λ rec, shows (collection_point shards) (with_payload_from (default (WPBool true) (scr_with_payload request))) (scr_with_vector request) rec) recs.
Proof using All.
  unfold collection_scroll_by. cbn [scr_limit scr_offset scr_filter scr_with_payload scr_with_vector from_page].
  change (default _ (scr_limit request)) with (request_limit request). rewrite decide_False by done.
  change (default _ (scr_with_payload request)) with (default (WPBool true) (scr_with_payload request)).
  destruct (scroll_merged shards offset (Datatypes.S (request_limit request)) (default (WPBool true) (scr_with_payload request))
    (scr_with_vector request) (scr_filter request) Hr Hf Hsel) as (pages & all & -> & Hl & Hids & Hsh). cbn [mbind result_bind].
  destruct (next_page_ok (request_limit request) _ all Hids) as (page & -> & Hpage & Hin). exists page, all. split_and!; [done|done|done|].
  rewrite Forall_forall in *. auto.
Qed.

Lemma scroll_all_ok fuel offset all :
  lists_ids (scrolled (collection_point shards) offset (scr_filter request)) all → length all < fuel →
  ∃ recs, scroll_all fuel (from_page request offset) sel self = Ok recs ∧ rec_id <$> recs = all ∧
    Forall (λ rec, shows (collection_point shards) (with_payload_from (default (WPBool true) (scr_with_payload request))) (scr_with_vector request) rec) recs.
Proof using All.
  revert offset all. induction fuel as [|fuel IH]; intros offset all Hl Hfuel; [lia|]. cbn [scroll_all].
  destruct (collection_scroll_ok offset) as (recs & all' & -> & Hl' & Hids & Hsh). cbn [mbind result_bind fst snd].
  rewrite (lists_ids_unique _ _ _ Hl' Hl) in *. destruct (all !! request_limit request) as [next|] eqn:Hnext.
  - pose proof (lists_ids_drop _ _ _ _ _ _ Hl Hnext) as Hld. apply lookup_lt_Some in Hnext.
    destruct (IH (Some next) (drop (request_limit request) all) Hld) as (rest & Hrest & Hidr & Hshr); [rewrite length_drop; lia|].
    change (from_page (from_page request offset) (Some next)) with (from_page request (Some next)). rewrite Hrest. cbn.
    exists (recs ++ rest). split_and!; [done| |by apply Forall_app]. by rewrite fmap_app, Hids, Hidr, take_drop.
  - exists recs. apply lookup_ge_None_1 in Hnext. split_and!; [done| |done]. by rewrite Hids, take_ge.
Qed.

(** *** Counting and retrieving *)

Lemma count_shards (l : list S) filter :
  shards_readable l → (∀ s, s ∈ l → shard_filter_ok s filter) →
  ∃ counts alls, res_map (λ s, so_count (Num:=Num) s (mkCountRequest filter true)) l = Ok counts ∧
    foldr N.add 0%N counts = N.of_nat (length (concat alls)) ∧
    Forall2 (λ s all, first_page (scrolled (shard_point s) None filter) None all) l alls.
Proof using.
  intros Hrl Hfl. destruct (res_map_Forall2 (λ s, so_count (Num:=Num) s (mkCountRequest filter true))
    (λ s n, ∃ all, n = N.of_nat (length all) ∧ lists_ids (scrolled (shard_point s) None filter) all) l) as (counts & Hc & Hall).
  { intros s Hs. destruct (count_spec s filter) as (all & Hn & Hl); [by apply (cr_ok l Hrl)|by apply Hfl|]. eauto. }
  exists counts. rewrite Hc. clear -Hall. induction Hall as [|s n l counts (all & -> & [Ho Hl]) _ (alls & _ & IH & Hp)]; [by exists []|].
  exists (all :: alls). split_and!; [done| |constructor; [|done]].
  - cbn. rewrite IH, length_app. lia.
  - exists all. split_and!; [done|done|done| |done]. intros e. by rewrite Hl.
Qed.

Lemma collection_count_ok :
  ∃ all, collection_count (Num:=Num) (mkCountRequest (scr_filter request) true) sel self = Ok (N.of_nat (length all)) ∧
    lists_ids (scrolled (collection_point shards) None (scr_filter request)) all.
Proof using Hr Hf.
  unfold collection_count. destruct (count_shards shards (scr_filter request) Hr Hf) as (counts & alls & -> & Hsum & Hall).
  cbn [mbind result_bind]. pose proof (merge_pages (λ s, scrolled (shard_point s) None (scr_filter request)) None _ _ Hall) as Hm.
  destruct (first_page_lists _ _ _ Hm) as (all & Hl & Ht). cbn in Ht. subst all. exists (merge_ids alls).
  assert (length (merge_ids alls) = length (concat alls)) as Hlen.
  { apply Permutation_length, NoDup_Permutation; [apply merge_ids_ordered|by eapply pages_NoDup|]. intros e. by rewrite elem_of_merge_ids, elem_of_concat. }
  rewrite Hlen, Hsum. split; [done|]. eapply lists_ids_iff; [|exact Hl]. intros e. by apply shards_scrolled.
Qed.

(** C6: a client that reads page after page of a collection, continuing at the
    offset each page names, ends, and has then seen every point that matches
    the filter, from the first offset on, exactly once and in the order of the
    ids, with the payload and vectors of the point; the points may be spread
    over any number of shards.  And an exact count of the collection is the
    number of points the pages list, if they start without an offset.  Assumed:
    the shards keep their promises, no point is in two shards, a page holds at
    least one point (a limit of zero is refused), and the vectors that are asked
    for by name are ones that the points have. *)
Theorem scroll_all_pages :
  ∃ all recs, lists_ids (scrolled (collection_point shards) (scr_offset request) (scr_filter request)) all ∧
    (∀ fuel, length all < fuel → scroll_all fuel request sel self = Ok recs) ∧ rec_id <$> recs = all ∧
    Forall (λ rec, shows (collection_point shards) (with_payload_from (default (WPBool true) (scr_with_payload request))) (scr_with_vector request) rec) recs ∧
    (scr_offset request = None →
      collection_count (Num:=Num) (mkCountRequest (scr_filter request) true) sel self = Ok (N.of_nat (length recs))).
Proof using All.
  destruct (collection_scroll_ok (scr_offset request)) as (_ & all & _ & Hl & _). exists all.
  destruct (scroll_all_ok (Datatypes.S (length all)) (scr_offset request) all Hl) as (recs & Hrecs & Hids & Hsh); [lia|].
  exists recs. assert (from_page request (scr_offset request) = request) as Hreq by by destruct request. split_and!; [done| |done|done|].
  - intros fuel Hfuel. rewrite Hreq in Hrecs. eapply scroll_all_mono; [done|lia].
  - intros Hnone. destruct collection_count_ok as (all' & -> & Hl'). rewrite Hnone in Hl. rewrite (lists_ids_unique _ _ _ Hl' Hl).
    by rewrite <-(length_fmap rec_id recs), Hids.
Qed.
End scroll.
End reads.

(** ** Witness *)

(** Two shards, each of one segment: the replica of the first is on this peer,
    that of the second on peer 2. *)

Import SampleInstances.
#[local] Existing Instance plain_index.
#[local] Instance stack_entry : SegmentEntry Z SearchParams SampleSeg := segment_entry no_display "segment" (λ _, Ok tt) (λ _, Ok tt).
#[local] Instance stack_laws : SegmentEntryLaws Z SearchParams SampleSeg := segment_entry_laws no_display "segment" (λ _, Ok tt) (λ _, Ok tt).
#[local] Instance stack_scroll : ScrollEntry Z SearchParams SampleSeg := segment_scroll no_display "segment" (λ _, Ok tt) (λ _, Ok tt).
#[local] Instance stack_shard : ShardOperation Z (LocalShard SampleSeg) :=
  local_shard_operation no_display "panic" (λ s, se_info (Num:=Z) (SP:=SearchParams) s).
#[local] Instance stack_shard_laws : ShardReadLaws Z (LocalShard SampleSeg) :=
  local_shard_laws no_display "panic" (λ s, se_info (Num:=Z) (SP:=SearchParams) s).

Definition sample_params : CollectionParams := mkCollectionParams (VectorsSingle (mkVectorParams 2 Dot None None)) 2 1 1 false.
Definition sample_config : CollectionConfig :=
  mkCollectionConfig sample_params default_hnsw_config (mkOptimizersConfig f32_zero 100 0 None None 20000 5 1) default_wal_config None.

Definition shard_of (s : SampleSeg) : LocalShard SampleSeg := mkLocalShard (mkHolder {[ 1%N := s ]} ∅ None) sample_config.

(** What the other peers have. *)
Definition sample_network (peer : PeerId) : LocalShard SampleSeg := shard_of other_segment.

Abbreviation SampleSet := (ReplicaSet (LocalShard SampleSeg)).
#[local] Instance stack_set : ShardOperation Z SampleSet :=
  replica_set_operation (L:=LocalShard SampleSeg) "0" show_peer scalar_eqb sample_network (λ l, l) (λ _ _, 0) None.
#[local] Instance stack_set_laws : ShardReadLaws Z SampleSet :=
  replica_set_laws (L:=LocalShard SampleSeg) "0" show_peer scalar_eqb sample_network (λ l, l) (λ _ _, 0) ltac:(done).

Definition here : SampleSet := mkReplicaSet (Some (SLocal (shard_of sample_segment))) [] (mkReplicaSetState true 1%N {[ 1%N := Active ]}) ∅ [].
Definition there : SampleSet := mkReplicaSet None [2%N] (mkReplicaSetState false 1%N {[ 2%N := Active ]}) ∅ [].

#[local] Existing Instance mod_ring.
Definition sample_collection : ShardHolder (HashRing (list N) (list (N * N))) SampleSet :=
  mkShardHolder {[ 0%N := here; 1%N := there ]} ∅ (ring_of ring_raw [0%N; 1%N]).

Lemma shard_of_ok s : seg_wf s → shard_ok (shard_of s).
Proof.
  intros Hwf. constructor.
  - cbn. intros idx t [_ <-]%lookup_singleton_Some. exact Hwf.
  - intros i j e. unfold copy. cbn. intros [pt Hi] [pt' Hj].
    destruct ({[1%N := s]} !! i) eqn:E1; [|done]. destruct ({[1%N := s]} !! j) eqn:E2; [|done].
    apply lookup_singleton_Some in E1 as [<- _], E2 as [<- _]. done.
Qed.

Lemma here_ok : shard_ok here.
Proof.
  constructor.
  - constructor; cbn; [set_solver|constructor|]. intros p [<- _]%lookup_singleton_Some. rewrite decide_True; eauto.
  - vm_compute. discriminate.
  - intros p. change (active_replicas here) with [1%N]. intros ->%list_elem_of_singleton. apply shard_of_ok, sample_segment_wf.
  - intros p e. change (active_replicas here) with [1%N]. intros ->%list_elem_of_singleton. done.
Qed.

Lemma there_ok : shard_ok there.
Proof.
  constructor.
  - constructor; cbn; [set_solver|apply NoDup_singleton|]. intros p [<- _]%lookup_singleton_Some. rewrite decide_False by done. left.
  - vm_compute. discriminate.
  - intros p. change (active_replicas there) with [2%N]. intros ->%list_elem_of_singleton. apply shard_of_ok, other_segment_wf.
  - intros p e. change (active_replicas there) with [2%N]. intros ->%list_elem_of_singleton. done.
Qed.

Lemma shard_of_point s e :
  seg_wf s → is_Some (shard_point (S:=LocalShard SampleSeg) (shard_of s) e) → has_point s e = true.
Proof.
  intros Hwf [pt Hpt]. change (head (omap (λ s : SampleSeg, entry_point s e) [s]) = Some pt) in Hpt. cbn [omap list_omap] in Hpt.
  etrans; [exact (@has_point_spec Z SearchParams SampleSeg _ stack_entry stack_laws s e Hwf)|]. apply bool_decide_eq_true.
  destruct (entry_point s e); [by eauto|done].
Qed.

Lemma two_values {A} (a b : A) : (map_to_list ({[ 0%N := a; 1%N := b ]} : gmap N A)).*2 = [b; a].
Proof. reflexivity. Qed.

Lemma sample_shards : target_shard None sample_collection = [there; here].
Proof. exact (two_values here there). Qed.

Lemma sample_apart e : is_Some (shard_point here e) → is_Some (shard_point there e) → False.
Proof.
  intros H1 H2. apply (two_segments_apart e).
  - apply shard_of_point; [apply sample_segment_wf|exact H1].
  - apply shard_of_point; [apply other_segment_wf|exact H2].
Qed.

Lemma sample_readable : shards_readable [there; here].
Proof.
  constructor.
  - intros s [->|[->|[]%not_elem_of_nil]%elem_of_cons]%elem_of_cons; [apply there_ok|apply here_ok].
  - intros [|[|i]] [|[|j]] s t e; cbn; intros [= <-] [= <-] Hs Ht; try done; exfalso; eauto using sample_apart.
Qed.

Definition scroll_request : ScrollRequest := mkScrollRequest None (Some 1) None None (WVBool true).

Lemma scroll_all_pages_witness :
  ∃ recs, scroll_all 4 scroll_request None sample_collection = Ok recs ∧ rec_id <$> recs = [NumId 7; NumId 9; Uuid 5] ∧
    collection_count (Num:=Z) (mkCountRequest None true) None sample_collection = Ok 3%N.
Proof.
  destruct (scroll_all_pages scroll_request None sample_collection) as (all & recs & Hall & Hscroll & Hids & _ & Hcount).
  - rewrite sample_shards. exact sample_readable.
  - rewrite sample_shards. intros s [->|[->|[]%not_elem_of_nil]%elem_of_cons]%elem_of_cons p.
    + change (active_replicas there) with [2%N]. intros ->%list_elem_of_singleton. exact (λ segment _, eq_refl).
    + change (active_replicas here) with [1%N]. intros ->%list_elem_of_singleton. exact (λ segment _, eq_refl).
  - intros. exact I.
  - discriminate.
  - specialize (Hcount eq_refl). assert (collection_count (Num:=Z) (mkCountRequest None true) None sample_collection = Ok 3%N) as H3
      by (vm_compute; reflexivity).
    change (scr_filter scroll_request) with (None : option Filter) in Hcount. rewrite H3 in Hcount.
    assert (length recs = 3) as Hlen by (injection Hcount; lia).
    assert (scroll_all 4 scroll_request None sample_collection = Ok recs) as Hs.
    { apply Hscroll. rewrite <-Hids, length_fmap, Hlen. lia. }
    assert (match scroll_all 4 scroll_request None sample_collection with Ok recs => rec_id <$> recs | _ => [] end = [NumId 7; NumId 9; Uuid 5]) as Hc
      by (vm_compute; reflexivity).
    rewrite Hs in Hc. exists recs. exact (conj Hs (conj Hc H3)).
Defined.
