(* ===== verification/CollectionSearch.v ===== *)
(** * Search in a collection

    The search of a collection ([_search_batch] of [collection.rs]) gives the
    best points of all its shards, for shards that give the best of theirs;
    local shards of exact segments do, for distances where more is better. *)

From stdpp Require Import base gmap strings list sorting.
From Stdlib Require Import ZArith SpecFloat Lia.
From S2P Require Import Prelude Types Rocks IdTracker NamedVectors VectorStorage Text Filters TopK Spaces.
From S2P Require Import PayloadStorage StructPayloadIndex PayloadIndexSpec PayloadIndexLaws Segment PlainIndex SegmentSpec.
From S2P Require Import SegmentEntry SegmentHolder Samples Requests SearchAggregator SegmentsSearcher SearcherSpec SearchMerge SearchAll.
From S2P Require Import CollectionConfig ShardReads Shards Resolve Operations ReplicaSet ReplicaSpec ReplicaReads Collection.

(** ** Selections *)

Section selections.
Context {T : Type} (leb : T → T → bool).
Context (leb_trans : ∀ x y z, leb x y = true → leb y z = true → leb x z = true).

(** Selecting from selections is selecting from all. *)
Lemma selects_concat n hitss ress kept :
  Forall2 (selects leb n) hitss ress → selects leb n (concat ress) kept → selects leb n (concat hitss) kept.
Proof using leb_trans.
  intros Hall Hkept. assert (∃ rest, concat hitss ≡ₚ concat ress ++ rest ∧ ∀ y, y ∈ rest → ∃ res, res ∈ ress ∧ length res = n ∧
    ∀ x, x ∈ res → leb y x = true) as (rest & Hperm & Hrest).
  { clear Hkept. induction Hall as [|hits res hitss ress (Hlen & d & Hp & Hle) _ (rest & Hperm & Hrest)];
      [exists []; split; [done|by intros ? ?%not_elem_of_nil]|].
    exists (d ++ rest). split.
    - cbn. rewrite Hp, Hperm. solve_Permutation.
    - intros y [Hy|Hy]%elem_of_app.
      + exists res. split; [left|]. split; [|intros x Hx; by apply Hle]. apply Permutation_length in Hp. rewrite length_app in Hp.
        destruct d; [by apply not_elem_of_nil in Hy|cbn in Hp; lia].
      + destruct (Hrest y Hy) as (res' & ? & ?). exists res'. split; [by right|done]. }
  apply (selects_perm leb n (concat ress ++ rest) _ kept kept); [done|done|]. apply selects_extend; [done|]. intros y Hy.
  destruct (Hrest y Hy) as (res & Hres & Hlen & Hge). destruct Hkept as (Hk & d & Hp & Hle).
  assert (res ⊆+ concat ress) as Hsub.
  { apply list_elem_of_split in Hres as (l1 & l2 & ->). rewrite concat_app. cbn. by apply submseteq_inserts_l, submseteq_inserts_r. }
  pose proof (submseteq_length _ _ Hsub) as Hlc. assert (length kept = n) as Hkn by lia. split; [done|]. intros x Hx.
  destruct (leb y x) eqn:Hyx; [done|]. exfalso.
  assert (res ⊆+ kept) as Hrk.
  { assert (∀ z, z ∈ res → z ∉ d) as Hnd.
    { intros z Hz Hzd. rewrite (leb_trans y z x) in Hyx; [done|by apply Hge|by apply Hle]. }
    rewrite Hp in Hsub. apply submseteq_app_r in Hsub as (l1 & l2 & Hl & H1 & H2).
    assert (l2 = []) as ->.
    { apply elem_of_nil_inv. intros z Hz. apply (Hnd z); [rewrite Hl; apply elem_of_app; by right|by eapply elem_of_submseteq]. }
    by rewrite Hl, app_nil_r. }
  assert (res ≡ₚ kept) as Heq by (apply submseteq_length_Permutation; [done|lia]).
  rewrite <-Heq in Hx. rewrite (Hge x Hx) in Hyx. done.
Qed.

(** A selection of the elements above a threshold. *)
Lemma selects_filter n l kept (P : T → bool) :
  (∀ x y, x ∈ l → y ∈ l → leb x y = true → P x = true → P y = true) → selects leb n l kept →
  selects leb n (base.filter (λ x, P x = true) l) (base.filter (λ x, P x = true) kept).
Proof using.
  intros Hup (Hlen & d & Hp & Hle). split.
  - rewrite Hp, filter_app, length_app. pose proof (Permutation_length Hp) as Hl. rewrite length_app in Hl.
    destruct (base.filter (λ x, P x = true) d) as [|y d'] eqn:Hd.
    + pose proof (length_filter (λ x, P x = true) kept). cbn. lia.
    + assert (y ∈ base.filter (λ x, P x = true) d) as [HPy Hy]%list_elem_of_filter by (rewrite Hd; left).
      rewrite (list_filter_all (λ x, P x = true) kept).
      * destruct d; [by apply not_elem_of_nil in Hy|]. cbn in *. lia.
      * intros x Hx. apply (Hup y x); [rewrite Hp; apply elem_of_app; by right|rewrite Hp; apply elem_of_app; by left|by apply Hle|done].
  - exists (base.filter (λ x, P x = true) d). split; [by rewrite Hp, filter_app|].
    intros x y [_ Hx]%list_elem_of_filter [_ Hy]%list_elem_of_filter. by apply Hle.
Qed.

(** On a list with the best first, the elements above a threshold are a prefix. *)
Lemma take_while_filter (l : list T) (P : T → bool) :
  (∀ x y, x ∈ l → y ∈ l → leb x y = true → P x = true → P y = true) → StronglySorted (λ a b, leb b a = true) l →
  take_while P l = base.filter (λ x, P x = true) l.
Proof using.
  intros Hup Hs. induction Hs as [|a l Hs IH Hf]; [done|]. cbn [take_while]. rewrite filter_cons. destruct (P a) eqn:Ha.
  - rewrite decide_True by done. f_equal. apply IH. intros x y Hx Hy. apply Hup; by right.
  - rewrite decide_False by done. symmetry. apply elem_of_nil_inv. intros x [Hx Hin]%list_elem_of_filter. rewrite Forall_forall in Hf.
    rewrite (Hup x a) in Ha; [done|by right|left|by apply Hf|done].
Qed.
End selections.

(** ** Merging the results of shards *)

Section search.
Context {Num : Type}.
Abbreviation Scored := (ScoredPoint Num).

(** The order of the results of a request. *)
Definition request_leb (collection_params : CollectionParams) (r : SearchRequest) : Scored → Scored → bool :=
  match get_vector_params collection_params (get_name (sr_vector r)) with
  | Ok params => match distance_order (vp_distance params) with LargeBetter => scored_point_leb | SmallBetter => λ x y, scored_point_leb y x end
  | _ => scored_point_leb
  end.

Lemma request_leb_total cp r (x y : Scored) : request_leb cp r x y = true ∨ request_leb cp r y x = true.
Proof using.
  unfold request_leb. destruct (get_vector_params _ _) as [p|e|]; [destruct (distance_order _)|..]; apply scored_point_leb_total.
Qed.

Lemma request_leb_trans cp r (x y z : Scored) : request_leb cp r x y = true → request_leb cp r y z = true → request_leb cp r x z = true.
Proof using.
  unfold request_leb. destruct (get_vector_params _ _) as [p|e|]; [destruct (distance_order _)|..]; eauto using scored_point_leb_trans.
Qed.

(** The best [n] results, the best first. *)
Definition best_first (leb : Scored → Scored → bool) (n : nat) (l best : list Scored) : Prop :=
  StronglySorted (λ a b, leb b a = true) best ∧ selects leb n l best.

Lemma merge_request_ok cp r params (res : list Scored) :
  get_vector_params cp (get_name (sr_vector r)) = Ok params →
  ∃ best, merge_request cp None (res, r) = Ok (drop (sr_offset r) best) ∧ best_first (request_leb cp r) (sr_top r) res best.
Proof using.
  intros Hp. unfold merge_request. rewrite Hp. cbn [mbind result_bind].
  destruct (peek_top_largest_selects (request_leb cp r) (request_leb_total cp r) (request_leb_trans cp r) (E:=CollectionError) res (sr_top r))
    as (best & Hb & Hs & Hsel).
  exists best. split; [|by split].
  assert ((match distance_order (vp_distance params) with
    | LargeBetter => peek_top_largest_iterable scored_point_leb res (sr_limit r + sr_offset r)
    | SmallBetter => peek_top_smallest_iterable scored_point_leb res (sr_limit r + sr_offset r) end) = Ok best) as ->.
  { unfold request_leb in Hb. rewrite Hp in Hb. by destruct (distance_order _). }
  cbn [mbind result_bind]. f_equal. case_decide as Ho; [done|]. destruct (sr_offset r); [done|]. destruct Ho. split; [done|lia].
Qed.

Lemma append_results_ok (merged shard : list (list Scored)) :
  length shard = length merged → append_results merged shard = Ok (zip_with (++) merged shard).
Proof using.
  revert shard. induction merged as [|m merged IH]; intros [|s shard]; try done. cbn. intros [= Hlen]. by rewrite IH.
Qed.

(** The results of all shards, request by request. *)
Lemma append_all_ok n (alls : list (list (list Scored))) merged :
  length merged = n → Forall (λ shard, length shard = n) alls →
  ∃ m, res_fold (λ shard merged, append_results merged shard) alls merged = Ok m ∧ length m = n ∧
    ∀ i, i < n → m !! i = Some (default [] (merged !! i) ++ concat ((λ shard, default [] (shard !! i)) <$> alls)).
Proof using.
  revert merged. induction alls as [|shard alls IH]; intros merged Hm Hall.
  - exists merged. split_and!; [done|done|]. intros i Hi. rewrite app_nil_r. destruct (lookup_lt_is_Some_2 merged i) as [x ->]; [lia|done].
  - apply Forall_cons in Hall as [Hs Hall]. cbn [res_fold]. rewrite append_results_ok by lia. cbn [mbind result_bind].
    destruct (IH (zip_with (++) merged shard)) as (m & -> & Hlen & Hi); [rewrite length_zip_with; lia|done|].
    exists m. split_and!; [done|done|]. intros i Hlt. rewrite Hi by done. f_equal. rewrite lookup_zip_with.
    destruct (lookup_lt_is_Some_2 merged i) as [x ->]; [lia|]. destruct (lookup_lt_is_Some_2 shard i) as [y Hy]; [lia|].
    cbn. rewrite Hy. cbn. by rewrite (assoc_L (++)).
Qed.
End search.

(** What a collection relies on: a shard gives the best of its hits. *)
Class ShardSearchLaws (Num S : Type) `{!ShardOperation Num S} := {
  shard_hits : CollectionParams → S → SearchRequest → list (ScoredPoint Num);
  shard_search_ok : CollectionParams → S → list SearchRequest → Prop;
  search_spec cp (s : S) searches : shard_search_ok cp s searches →
    ∃ results, so_search s searches = Ok results ∧
      Forall2 (λ r res, selects (request_leb cp r) (sr_top r) (shard_hits cp s r) res) searches results;
}.

Section collection.
Context {Num R1 R2 S : Type} `{!ShardOperation Num S, !ShardSearchLaws Num S} `{!RingLib ShardId R1, !RingLib (ShardId * N) R2}.
Abbreviation Holder := (ShardHolder (HashRing R1 R2) S).
Implicit Types (self : Holder) (cp : CollectionParams) (searches : list SearchRequest).

(** All hits of a request. *)
Definition collection_hits cp (shards : list S) (r : SearchRequest) : list (ScoredPoint Num) := concat ((λ s, shard_hits cp s r) <$> shards).

Lemma search_all_shards cp searches (l : list S) :
  (∀ s, s ∈ l → shard_search_ok cp s searches) →
  ∃ alls, res_map (λ s, so_search s searches) l = Ok alls ∧ Forall (λ shard, length shard = length searches) alls ∧
    ∀ i r, searches !! i = Some r →
      Forall2 (selects (request_leb cp r) (sr_top r)) ((λ s, shard_hits cp s r) <$> l) ((λ shard, default [] (shard !! i)) <$> alls).
Proof using.
  intros Hok. destruct (res_map_Forall2 (λ s, so_search s searches) (λ s results,
    Forall2 (λ r res, selects (request_leb cp r) (sr_top r) (shard_hits cp s r) res) searches results) l) as (alls & Hr & Hall).
  { intros s Hs. by apply search_spec, Hok. }
  exists alls. split_and!; [done| |].
  - apply Forall_forall. intros shard [i Hi]%list_elem_of_lookup_1. destruct (Forall2_lookup_r _ _ _ _ _ Hall Hi) as (s & _ & H).
    by apply Forall2_length in H.
  - intros i r Hir. apply Forall2_fmap. eapply Forall2_impl; [exact Hall|]. cbn. intros s results H.
    destruct (Forall2_lookup_l _ _ _ _ _ H Hir) as (res & -> & Hres). done.
Qed.

Lemma search_shards_exact cp searches self :
  (∀ s, s ∈ all_shards self → shard_search_ok cp s searches) →
  (∀ r, r ∈ searches → ∃ params, get_vector_params cp (get_name (sr_vector r)) = Ok params) →
  ∃ results, search_shards cp searches None self = Ok results ∧
    Forall2 (λ r res, ∃ best, best_first (request_leb cp r) (sr_top r) (collection_hits cp (all_shards self) r) best ∧ res = drop (sr_offset r) best)
      searches results.
Proof using.
  intros Hok Hparams. unfold search_shards. cbn [target_shard].
  destruct (search_all_shards cp searches (all_shards self) Hok) as (alls & -> & Hlen & Hsel). cbn [mbind result_bind].
  destruct (append_all_ok (length searches) alls (replicate (length searches) [])) as (m & -> & Hm & Hmi); [apply length_replicate|done|].
  cbn [mbind result_bind].
  destruct (res_map_Forall2 (merge_request cp None) (λ p res, ∃ best, best_first (request_leb cp p.2) (sr_top p.2) p.1 best ∧ res = drop (sr_offset p.2) best)
    (zip m searches)) as (results & -> & Hall).
  { intros [res r] Hp. apply list_elem_of_lookup_1 in Hp as [i Hi]. apply lookup_zip_with_Some in Hi as (x & y & [= -> ->] & Hx & Hy).
    destruct (Hparams y) as [params Hp]; [by eapply list_elem_of_lookup_2|]. destruct (merge_request_ok cp y params x Hp) as (best & -> & Hb). eauto. }
  exists results. split; [done|]. apply Forall2_same_length_lookup. split.
  { apply Forall2_length in Hall. rewrite length_zip in Hall. lia. }
  intros i r res Hr Hres. destruct (Forall2_lookup_r _ _ _ _ _ Hall Hres) as ([x r'] & Hx & best & [Hs Hb] & ->). cbn in *.
  apply lookup_zip_with_Some in Hx as (x' & r'' & [= -> ->] & Hx & Hr'). rewrite Hr in Hr'. injection Hr' as <-.
  exists best. split; [|done]. split; [done|]. pose proof (lookup_lt_Some _ _ _ Hr) as Hlt. rewrite Hmi in Hx by done.
  rewrite lookup_replicate_2 in Hx by done. cbn in Hx. injection Hx as <-.
  eapply selects_concat; [apply request_leb_trans|by apply Hsel|done].
Qed.
End collection.

(** ** Local shards *)

Lemma SFltb_leb t x : t ≠ S754_nan → x ≠ S754_nan → SFltb t x = negb (SFleb x t).
Proof.
  unfold SFltb, SFleb. intros Ht Hx. destruct t as [st|[]| |[] mt et], x as [sx|[]| |[] mx ex]; try done; cbn.
  all: rewrite (Z.compare_antisym ex et); destruct (Z.compare ex et) eqn:Hc; try done; cbn.
  all: change (Pos.compare_cont Eq mt mx) with (mt ?= mx)%positive; change (Pos.compare_cont Eq mx mt) with (mx ?= mt)%positive;
    rewrite (Pos.compare_antisym mx mt); by destruct (mx ?= mt)%positive.
Qed.

Section local.
Context {Num E : Type} `{!SegmentEntry Num SearchParams E, !ExactSearch Num E}.
Context (display_id : PointIdType → string) (join_error : string) (wrapped : E → OperationResult SegmentInfo).
Abbreviation Scored := (ScoredPoint Num).

Lemma threshold_up t (x y : Scored) :
  not_nan x → not_nan y → scored_point_leb x y = true → SFltb t (sp_score x) = true → SFltb t (sp_score y) = true.
Proof using.
  intros Hx Hy Hle. assert (t = S754_nan ∨ t ≠ S754_nan) as [->|Ht] by (destruct t; auto; right; done); [by destruct (sp_score x)|].
  rewrite !SFltb_leb, !negb_true_iff by done. intros Hxt. destruct (SFleb (sp_score y) t) eqn:Hyt; [|done].
  pose proof (scored_point_leb_trans x y (mkScoredPoint (sp_id x) (sp_version x) t None None) Hle) as Htr. unfold scored_point_leb in Htr. cbn in Htr.
  rewrite !ordered_float_not_nan in Htr by done. rewrite (Htr Hyt) in Hxt. done.
Qed.

Definition above_threshold (r : SearchRequest) (p : Scored) : bool :=
  match sr_score_threshold r with Some threshold => SFltb threshold (sp_score p) | None => true end.

Definition local_hits (s : LocalShard E) (r : SearchRequest) : list Scored :=
  base.filter (λ p, above_threshold r p = true) (all_hits (holder_segments (shard_segments s)) r).

(** What an exact search of a local shard needs. *)
Record local_search_ok (cp : CollectionParams) (s : LocalShard E) (searches : list SearchRequest) : Prop := mkLocalSearchOk {
  ls_params : cc_params (shard_config s) = cp;
  ls_nonempty : segments (shard_segments s) ≠ ∅;
  ls_wf e : e ∈ holder_segments (shard_segments s) → search_wf e;
  ls_ok e r : e ∈ holder_segments (shard_segments s) → r ∈ searches → request_ok e r;
  ls_top r : r ∈ searches → 0 < sr_top r ∧ (N.of_nat (sr_top r) ≤ u64_max)%N;
  ls_faithful : params_faithful searches;
  ls_home : one_home (shard_segments s);
  ls_nan e r p : e ∈ holder_segments (shard_segments s) → r ∈ searches → p ∈ request_hits e r → not_nan p;
  ls_total : (N.of_nat (sum_list_with se_points_count (holder_segments (shard_segments s))) ≤ u64_max)%N;
  ls_distance r : r ∈ searches → ∃ params, get_vector_params cp (get_name (sr_vector r)) = Ok params ∧
    distance_order (vp_distance params) = LargeBetter;
}.

Lemma postprocess_ok cp r params (res hits : list Scored) :
  get_vector_params cp (get_name (sr_vector r)) = Ok params → distance_order (vp_distance params) = LargeBetter →
  (∀ p, p ∈ hits → not_nan p) → StronglySorted (λ a b, scored_point_leb b a = true) res → selects scored_point_leb (sr_top r) hits res →
  ∃ out, postprocess_results cp res r = Ok out ∧
    selects (request_leb cp r) (sr_top r) (base.filter (λ p, above_threshold r p = true) hits) out.
Proof using.
  intros Hp Hd Hnan Hs Hsel. unfold postprocess_results. rewrite Hp. cbn [mbind result_bind].
  assert ((λ p : Scored, mkScoredPoint (sp_id p) (sp_version p) (postprocess_score (vp_distance params) (sp_score p)) (sp_payload p) (sp_vector p)) <$> res
    = res) as ->.
  { rewrite <-(list_fmap_id res) at 2. apply list_fmap_ext. intros i p _. destruct p, (vp_distance params); done. }
  eexists. split; [reflexivity|]. unfold request_leb. rewrite Hp, Hd.
  assert (∀ x y, x ∈ hits → y ∈ hits → scored_point_leb x y = true → above_threshold r x = true → above_threshold r y = true) as Hup.
  { intros x y Hx Hy Hle. unfold above_threshold. destruct (sr_score_threshold r); [|done]. apply threshold_up; [by apply Hnan|by apply Hnan|done]. }
  assert (base.filter (λ p, above_threshold r p = true) res = match sr_score_threshold r with
    | Some threshold => take_while (λ p, check_threshold (vp_distance params) (sp_score p) threshold) res | None => res end) as <-;
    [|by apply selects_filter].
  assert (take_while (above_threshold r) res = base.filter (λ p, above_threshold r p = true) res) as Ht.
  { apply (take_while_filter scored_point_leb); [|done]. intros x y Hx Hy. apply Hup; by eapply selects_sub. }
  rewrite <-Ht. unfold above_threshold. destruct (sr_score_threshold r) as [t|].
  - unfold check_threshold. by rewrite Hd.
  - clear. induction res as [|a l IH]; [done|]. cbn. by rewrite IH.
Qed.

Lemma local_search_exact cp (s : LocalShard E) searches :
  local_search_ok cp s searches →
  ∃ results, shard_search display_id join_error (cc_params (shard_config s)) (shard_segments s) searches = Ok results ∧
    Forall2 (λ r res, selects (request_leb cp r) (sr_top r) (local_hits s r) res) searches results.
Proof using.
  intros [Hcp Hne Hwf Hok Htop Hfaith Hhome Hnan Htotal Hdist]. rewrite Hcp. unfold shard_search.
  destruct (res_map_Forall2 (λ req, get_vector_params cp (get_name (sr_vector req))) (λ _ _, True) searches) as (ps & -> & _).
  { intros r Hr. destruct (Hdist r Hr) as (params & ? & _). eauto. }
  destruct (searcher_search_exact display_id join_error (shard_segments s) searches true) as (results & -> & Hall); [done..|].
  cbn [mbind result_bind].
  destruct (res_map_Forall2 (λ p, postprocess_results cp p.1 p.2) (λ p out, selects (request_leb cp p.2) (sr_top p.2) (local_hits s p.2) out)
    (zip results searches)) as (outs & -> & Houts).
  { intros p Hp. apply list_elem_of_lookup_1 in Hp as [i Hi]. apply lookup_zip_with_Some in Hi as (x0 & y & -> & Hx & Hy). cbn.
    assert (y ∈ searches) as Hyin by by eapply list_elem_of_lookup_2. destruct (Hdist y Hyin) as (params & Hp & Hd).
    destruct (Forall2_lookup_lr _ _ _ _ _ _ Hall Hy Hx) as [Hs Hsel]. eapply postprocess_ok; [done|done| |done|done].
    intros p (i' & e & He & Hpe)%elem_of_all_hits. eapply Hnan; [by eapply list_elem_of_lookup_2|done|done]. }
  exists outs. split; [done|]. apply Forall2_same_length_lookup. apply Forall2_length in Hall as Hl1. apply Forall2_length in Houts as Hl2.
  rewrite length_zip in Hl2. split; [lia|]. intros i r out Hr Hout.
  destruct (Forall2_lookup_r _ _ _ _ _ Houts Hout) as ([x r'] & Hx & Hsel). apply lookup_zip_with_Some in Hx as (? & ? & [= -> ->] & _ & Hr').
  rewrite Hr in Hr'. by injection Hr' as <-.
Qed.

#[export] Instance local_search_laws : @ShardSearchLaws Num (LocalShard E) (local_shard_operation display_id join_error wrapped) :=
  @Build_ShardSearchLaws Num (LocalShard E) (local_shard_operation display_id join_error wrapped) (λ _, local_hits) local_search_ok local_search_exact.
End local.

(** ** Replica sets *)

Section replicas.
Context {Num L Remote : Type} `{!ShardOperation Num L, !ShardOperation Num Remote, !ShardSearchLaws Num L, !ShardSearchLaws Num Remote}.
Context (shard_id : string) (display_peer : PeerId → string) (value_eqb : Value Num → Value Num → bool).
Context (network : PeerId → Remote) (shuffle : list PeerId → list PeerId) (shuffle_perm : ∀ l, shuffle l ≡ₚ l).
Context (next : ∀ Res, list (result CollectionError Res) → nat).
Abbreviation RS := (ReplicaSet L).

Definition replica_hits (cp : CollectionParams) (self : RS) (p : PeerId) (r : SearchRequest) : list (ScoredPoint Num) :=
  if decide (p = this_peer_id (rs_state self))
  then match rs_local self with Some shard => shard_hits cp (get_shard shard) r | None => [] end
  else shard_hits cp (network p) r.

Definition set_hits (cp : CollectionParams) (self : RS) (r : SearchRequest) : list (ScoredPoint Num) :=
  match active_replicas self with p :: _ => replica_hits cp self p r | [] => [] end.

Record set_search_ok (cp : CollectionParams) (self : RS) (searches : list SearchRequest) : Prop := mkSetSearchOk {
  ss_ok : replica_set_ok self;
  ss_active : active_replicas self ≠ [];
  ss_replicas p : p ∈ active_replicas self →
    replica_holds network (λ s, shard_search_ok cp s searches) (λ s, shard_search_ok cp s searches) self p;
  ss_agree p r : p ∈ active_replicas self → r ∈ searches → replica_hits cp self p r = set_hits cp self r;
}.

Lemma replica_search_exact cp (self : RS) searches :
  set_search_ok cp self searches →
  ∃ results, replica_search shard_id display_peer value_eqb network shuffle next None self searches = Ok results ∧
    Forall2 (λ r res, selects (request_leb cp r) (sr_top r) (set_hits cp self r) res) searches results.
Proof using shuffle_perm.
  intros [Hok Hne Hrep Hagree]. assert (∀ p, p ∈ active_replicas self → ∃ results,
    read_replica (λ shard, so_search (get_shard shard) searches) (λ peer, so_search (network peer) searches) self p = Ok results ∧
    Forall2 (λ r res, selects (request_leb cp r) (sr_top r) (replica_hits cp self p r) res) searches results) as Hall.
  { intros p Hp. specialize (Hrep p Hp). unfold replica_holds, read_replica, replica_hits in *.
    destruct (decide (p = this_peer_id (rs_state self))); [destruct (rs_local self); [|done]|]; by apply search_spec. }
  destruct (read_one_ok shard_id display_peer shuffle shuffle_perm (λ shard, so_search (get_shard shard) searches)
    (λ peer, so_search (network peer) searches) (next _) (resolve_scored value_eqb) self Hok Hne) as (p & res & Hp & Hr & Hread).
  { intros p Hp. destruct (Hall p Hp) as (res & ? & _). eauto. }
  exists res. split; [done|]. destruct (Hall p Hp) as (res' & Hr' & Hsel). rewrite Hr in Hr'. injection Hr' as <-.
  apply Forall2_same_length_lookup. split; [by eapply Forall2_length|]. intros i r rs Hir Hirs. rewrite <-(Hagree p r Hp) by by eapply list_elem_of_lookup_2.
  exact (Forall2_lookup_lr _ _ _ _ _ _ Hsel Hir Hirs).
Qed.

#[export] Instance replica_search_laws :
  @ShardSearchLaws Num RS (replica_set_operation shard_id display_peer value_eqb network shuffle next None) :=
  @Build_ShardSearchLaws Num RS (replica_set_operation shard_id display_peer value_eqb network shuffle next None) set_hits set_search_ok
    replica_search_exact.
End replicas.

(** ** The search of a collection *)

(** C7: a search of a collection gives every request the best of the points of
    all shards that match it, the best first (the largest scores, or the
    smallest for a distance where less is better), without the first [offset]
    of them and at most [limit], with nothing left out that scores better than
    what is returned.  Assumed: every shard gives the best of its own hits. *)
Theorem collection_search_exact {Num R1 R2 S : Type} `{!ShardOperation Num S, !ShardSearchLaws Num S}
    `{!RingLib ShardId R1, !RingLib (ShardId * N) R2}
  (self : ShardHolder (HashRing R1 R2) S) (cp : CollectionParams) (searches : list SearchRequest)
  (Hok : ∀ s, s ∈ all_shards self → shard_search_ok cp s searches)
  (Hparams : ∀ r, r ∈ searches → ∃ params, get_vector_params cp (get_name (sr_vector r)) = Ok params) :
  ∃ results, search_shards cp searches None self = Ok results ∧
    Forall2 (λ r res, ∃ best, best_first (request_leb cp r) (sr_limit r + sr_offset r) (collection_hits cp (all_shards self) r) best ∧
      res = drop (sr_offset r) best) searches results.
Proof. by apply search_shards_exact. Qed.

(** ** Witness *)

Import SampleInstances.
#[local] Existing Instance plain_index.
#[local] Existing Instance sample_search_entry.
#[local] Existing Instance sample_exact.
#[local] Existing Instance mod_ring.
#[local] Instance found_shard : ShardOperation Z (LocalShard SampleSeg) :=
  local_shard_operation no_display "panic" (λ s, se_info (Num:=Z) (SP:=SearchParams) s).
#[local] Instance found_laws : ShardSearchLaws Z (LocalShard SampleSeg) :=
  local_search_laws no_display "panic" (λ s, se_info (Num:=Z) (SP:=SearchParams) s).

Definition found_params : CollectionParams := mkCollectionParams (VectorsSingle (mkVectorParams 2 Dot None None)) 2 1 1 false.

Definition one_of (s : SampleSeg) : LocalShard SampleSeg :=
  mkLocalShard (mkHolder {[ 1%N := s ]} ∅ None)
    (mkCollectionConfig found_params default_hnsw_config
       (mkOptimizersConfig f32_zero 100 0 None None 20000 5 1) default_wal_config None).

Definition found_in : ShardHolder (HashRing (list N) (list (N * N))) (LocalShard SampleSeg) :=
  mkShardHolder {[ 0%N := one_of sample_segment; 1%N := one_of other_segment ]} ∅ (ring_of ring_raw [0%N; 1%N]).

(** The second best of all. *)
Definition second_best : SearchRequest := mkSearchRequest (NVDefault [f32_one; f32_one]) None None 1 1 None None None.

Lemma one_of_ok (s : SampleSeg) :
  seg_wf s → request_ok s second_best → forallb (λ p : ScoredPoint Z, match sp_score p with S754_nan => false | _ => true end) (request_hits s second_best) = true →
  (N.of_nat (se_points_count (Num:=Z) (SP:=SearchParams) s) ≤ u64_max)%N → shard_search_ok found_params (one_of s) [second_best].
Proof.
  intros Hwf Hok Hnan Htot. assert (∀ e, e ∈ holder_segments (shard_segments (one_of s)) → e = s) as Hs.
  { intros e [i Hi]%elem_of_holder_segments. cbn in Hi. by apply lookup_singleton_Some in Hi as [_ <-]. }
  constructor; [done|done| | | | | | | |].
  - intros e ->%Hs. exact Hwf.
  - intros e r ->%Hs ->%list_elem_of_singleton. exact Hok.
  - intros r ->%list_elem_of_singleton. split; [cbn; lia|vm_compute; discriminate].
  - by intros r r' ->%list_elem_of_singleton ->%list_elem_of_singleton _.
  - intros i j e t x. cbn. intros [<- _]%lookup_singleton_Some [<- _]%lookup_singleton_Some _ _. done.
  - intros e r p ->%Hs ->%list_elem_of_singleton Hp. rewrite forallb_forall in Hnan. apply list_elem_of_In in Hp. specialize (Hnan p Hp).
    unfold not_nan. by destruct (sp_score p).
  - change (N.of_nat (se_points_count (Num:=Z) (SP:=SearchParams) s + 0) ≤ u64_max)%N. by rewrite Nat.add_0_r.
  - intros r ->%list_elem_of_singleton. by exists (mkVectorParams 2 Dot None None).
Qed.

Lemma collection_search_exact_witness :
  ∃ res best, search_shards found_params [second_best] None found_in = Ok [res] ∧ res = drop 1 best ∧ length best = 2.
Proof.
  destruct (collection_search_exact found_in found_params [second_best]) as (results & Hs & Hall).
  - intros s Hs. assert (s = one_of sample_segment ∨ s = one_of other_segment) as [->| ->].
    { change (all_shards found_in) with [one_of other_segment; one_of sample_segment] in Hs.
      apply elem_of_cons in Hs as [->|Hs]; [by right|]. apply list_elem_of_singleton in Hs as ->. by left. }
    + apply one_of_ok; [apply sample_segment_wf| |vm_compute; reflexivity|vm_compute; discriminate].
      exists (mkVectorDataConfig 2 Dot None None). split_and!; vm_compute; reflexivity.
    + apply one_of_ok; [apply other_segment_wf| |vm_compute; reflexivity|vm_compute; discriminate].
      exists (mkVectorDataConfig 2 Dot None None). split_and!; vm_compute; reflexivity.
  - intros r ->%list_elem_of_singleton. by exists (mkVectorParams 2 Dot None None).
  - apply Forall2_cons_inv_l in Hall as (res & rest & (best & [_ [Hlen _]] & Hres) & Hnil & ->). apply Forall2_nil_inv_l in Hnil as ->.
    exists res, best. split; [exact Hs|]. split; [exact Hres|]. rewrite Hlen. vm_compute. reflexivity.
Defined.
