(* ===== verification/CollectionOps.v ===== *)
(** * Managing the replicas of a collection

    Models the operations by which the consensus changes a collection:
    transfers of shards, the states of replicas and the state of the whole
    collection ([lib/collection/src/collection.rs], [collection_state.rs],
    [shards/transfer/shard_transfer.rs], [shards/transfer/transfer_tasks_pool.rs])
    and the validation of transfers in [lib/storage/src/content_manager/toc.rs].

    Saving states and transfers to their files, building and clearing a local
    shard and restarting its optimizers are outcomes.  The task that sends a
    shard is known by its key and by what it returns.  Requests for transfers
    and reports to the consensus are kept in order ([co_requested],
    [co_reports]). *)

From stdpp Require Import base gmap strings list sorting.
From Stdlib Require Import ZArith Lia.
From S2P Require Import Prelude Types Rocks Filters SegmentHolder Requests Operations CollectionConfig Shards Resolve ReplicaSet Collection.

#[export] Instance ShardTransferKey_eq_dec : EqDecision ShardTransferKey.
Proof. solve_decision. Defined.

#[export] Program Instance ShardTransferKey_countable : Countable ShardTransferKey :=
  inj_countable' (λ k, (key_shard_id k, key_from k, key_to k)) (λ '(s, f, t), mkTransferKey s f t) _.
Next Obligation. by intros []. Qed.

(** ** Transfers *)

Section transfers.
Context (display_shard : ShardId → string) (display_peer : PeerId → string).

Definition validate_transfer_exists (key : ShardTransferKey) (current_transfers : gset ShardTransfer) : result CollectionError unit :=
  if existsb (λ t, bool_decide (transfer_key t = key)) (elements current_transfers) then Ok tt
  else Err (BadRequest ("There is no transfer for shard " +:+ display_shard (key_shard_id key) +:+ " from "
              +:+ display_peer (key_from key) +:+ " to " +:+ display_peer (key_to key))).

Definition check_transfer_conflicts (transfer : ShardTransfer) (current_transfers : list ShardTransfer) : option ShardTransfer :=
  snd <$> list_find (λ t, tr_from t = tr_from transfer ∨ tr_to t = tr_from transfer ∨
                          tr_from t = tr_to transfer ∨ tr_to t = tr_to transfer)
    (base.filter (λ t, tr_shard_id t = tr_shard_id transfer) current_transfers).

Definition validate_transfer (transfer : ShardTransfer) (all_peers : gset PeerId)
    (shard_state : option (gmap PeerId ReplicaState)) (current_transfers : gset ShardTransfer) : result CollectionError unit :=
  match shard_state with
  | None => Err (CServiceError ("Shard " +:+ display_shard (tr_shard_id transfer) +:+ " does not exist"))
  | Some shard_state =>
      if decide (tr_from transfer ∉ all_peers)
      then Err (BadRequest ("Peer " +:+ display_peer (tr_from transfer) +:+ " does not exist"))
      else if decide (tr_to transfer ∉ all_peers)
      then Err (BadRequest ("Peer " +:+ display_peer (tr_to transfer) +:+ " does not exist"))
      else if decide (shard_state !! tr_from transfer ≠ Some Active)
      then Err (BadRequest ("Shard " +:+ display_shard (tr_shard_id transfer) +:+ " is not active on peer "
                  +:+ display_peer (tr_from transfer)))
      else match check_transfer_conflicts transfer (elements current_transfers) with
           | Some existing_transfer =>
               Err (BadRequest ("Shard " +:+ display_shard (tr_shard_id transfer) +:+ " is already involved in transfer "
                      +:+ display_peer (tr_from existing_transfer) +:+ " -> " +:+ display_peer (tr_to existing_transfer)))
           | None => Ok tt
           end
  end.

(** *** Suggestions *)

(** [sort_unstable_by_key(..).first()]: some candidate with the least key; the
    first of the list stands for it. *)
Fixpoint first_min {A} (key : A → nat) (best : A) (l : list A) : A :=
  match l with
  | [] => best
  | x :: l => first_min key (if decide (key x < key best) then x else best) l
  end.

Definition first_by_key {A} (key : A → nat) (l : list A) : option A :=
  match l with [] => None | x :: l => Some (first_min key x l) end.

Definition suggest_transfer_source (shard_id : ShardId) (target_peer : PeerId) (current_transfers : list ShardTransfer)
    (shard_peers : gmap PeerId ReplicaState) : option PeerId :=
  let candidates : gset PeerId :=
    list_to_set (base.filter (λ p : PeerId * ReplicaState, p.2 = Active ∧ p.1 ≠ target_peer) (map_to_list shard_peers)).*1 in
  let currently_transferring : gset PeerId :=
    list_to_set (tr_from <$> base.filter (λ t, tr_shard_id t = shard_id) current_transfers) in
  let candidates := candidates ∖ currently_transferring in
  first_by_key (λ peer_id, length (base.filter (λ t, tr_from t = peer_id) current_transfers)) (elements candidates).

(** The number of shards of each peer. *)
Definition peer_loads (shard_distribution : gmap ShardId (gset PeerId)) : gmap PeerId nat :=
  map_fold (λ _ peers loads, set_fold (λ peer_id (loads : gmap PeerId nat), <[peer_id := S (default 0 (loads !! peer_id))]> loads) loads peers)
    ∅ shard_distribution.

Definition suggest_peer_to_add_replica (shard_id : ShardId) (shard_distribution : gmap ShardId (gset PeerId)) : option PeerId :=
  let loads := base.filter (λ p : PeerId * nat, p.1 ∉ default ∅ (shard_distribution !! shard_id)) (peer_loads shard_distribution) in
  fst <$> first_by_key snd (map_to_list loads).

(** The comparison of two candidates: [true] when the second comes first. *)
Definition remove_before (c1 c2 : PeerId * ReplicaState * nat) : bool :=
  let '(_, status1, count1) := c1 in
  let '(_, status2, count2) := c2 in
  match decide (status1 = Active), decide (status2 = Active) with
  | left _, left _ | right _, right _ => bool_decide (count1 < count2)
  | left _, right _ => false
  | right _, left _ => true
  end.

Definition suggest_peer_to_remove_replica (shard_distribution : gmap ShardId (gset PeerId))
    (shard_peers : gmap PeerId ReplicaState) : option PeerId :=
  let loads := peer_loads shard_distribution in
  let candidates := (λ p : PeerId * ReplicaState, (p.1, p.2, default 0 (loads !! p.1))) <$> map_to_list shard_peers in
  match candidates with
  | [] => None
  | c :: l => Some (fold_left (λ best c, if remove_before best c then c else best) l c).1.1
  end.
End transfers.

(** ** The collection *)

(** [StoppableAsyncTaskHandle<bool>]: running, or finished with its result. *)
Inductive TransferTask : Type := TaskRunning | TaskDone (result : bool).

Inductive TaskResult : Type := TaskFinished | TaskNotFound | TaskStopped | TaskFailed.

Inductive Report : Type :=
| TransferFailed (transfer : ShardTransfer)
| TransferSucceeded (transfer : ShardTransfer)
| FinishInit (peer_id : PeerId) (shard_id : ShardId)
| ConvertToListener (peer_id : PeerId) (shard_id : ShardId)
| ConvertFromListener (peer_id : PeerId) (shard_id : ShardId).

Record Coll (R1 R2 L : Type) := mkColl {
  co_holder : ShardHolder (HashRing R1 R2) (ReplicaSet L);
  co_this_peer_id : PeerId;
  co_config : CollectionConfig;
  co_tasks : gmap ShardTransferKey TransferTask;
  co_initialized : bool;
  co_requested : list ShardTransfer;
  co_reports : list Report;
}.
Arguments mkColl {R1 R2 L}.
Arguments co_holder {R1 R2 L}.
Arguments co_this_peer_id {R1 R2 L}.
Arguments co_config {R1 R2 L}.
Arguments co_tasks {R1 R2 L}.
Arguments co_initialized {R1 R2 L}.
Arguments co_requested {R1 R2 L}.
Arguments co_reports {R1 R2 L}.

(** [collection_state::State] *)
Record CollState := mkCollState {
  st_config : CollectionConfig;
  st_shards : gmap ShardId (gmap PeerId ReplicaState);
  st_transfers : gset ShardTransfer;
}.

Section collection_ops.
Context {R1 R2 L : Type}.
Abbreviation Holder := (ShardHolder (HashRing R1 R2) (ReplicaSet L)).
Abbreviation C := (Coll R1 R2 L).
Abbreviation Op := (sm C CollectionError).
Context (collection_id : string) (display_shard : ShardId → string) (display_peer : PeerId → string)
  (display_state : option ReplicaState → string).
(** Outcomes of saving, and of what happens to a local shard. *)
Context (save : ReplicaSetState → result CollectionError unit) (save_transfers : gset ShardTransfer → result CollectionError unit)
  (save_config : CollectionConfig → result CollectionError unit).
Context (clear : result CollectionError unit) (build_local : result CollectionError L) (restart_optimizers : ShardId → result CollectionError unit).

Definition set_holder (h : Holder) (self : C) : C :=
  mkColl h (co_this_peer_id self) (co_config self) (co_tasks self) (co_initialized self) (co_requested self) (co_reports self).
Definition set_tasks (tasks : gmap ShardTransferKey TransferTask) (self : C) : C :=
  mkColl (co_holder self) (co_this_peer_id self) (co_config self) tasks (co_initialized self) (co_requested self) (co_reports self).
Definition set_config (config : CollectionConfig) (self : C) : C :=
  mkColl (co_holder self) (co_this_peer_id self) config (co_tasks self) (co_initialized self) (co_requested self) (co_reports self).
Definition make_ready (self : C) : C :=
  mkColl (co_holder self) (co_this_peer_id self) (co_config self) (co_tasks self) true (co_requested self) (co_reports self).
Definition request_shard_transfer (transfer : ShardTransfer) (self : C) : C :=
  mkColl (co_holder self) (co_this_peer_id self) (co_config self) (co_tasks self) (co_initialized self)
    (co_requested self ++ [transfer]) (co_reports self).
Definition report (r : Report) (self : C) : C :=
  mkColl (co_holder self) (co_this_peer_id self) (co_config self) (co_tasks self) (co_initialized self)
    (co_requested self) (co_reports self ++ [r]).

Definition get_set (shard_id : ShardId) (self : C) : option (ReplicaSet L) := sh_shards (co_holder self) !! shard_id.

(** An operation of the replica set of a shard, which is there. *)
Definition on_set {A} (shard_id : ShardId) (m : sm (ReplicaSet L) CollectionError A) : Op A := λ self,
  match get_set shard_id self with
  | Some replica_set =>
      let '(r, replica_set) := m replica_set in
      (r, set_holder (mkShardHolder (<[shard_id := replica_set]> (sh_shards (co_holder self)))
                        (shard_transfers (co_holder self)) (sh_ring (co_holder self))) self)
  | None => (Panic, self)
  end.

Definition write_transfers (f : gset ShardTransfer → gset ShardTransfer) : Op unit := λ self,
  let transfers := f (shard_transfers (co_holder self)) in
  match save_transfers transfers with
  | Ok _ => (Ok tt, set_holder (mkShardHolder (sh_shards (co_holder self)) transfers (sh_ring (co_holder self))) self)
  | Err e => (Err e, self)
  | Panic => (Panic, self)
  end.

Definition start_transfer_registered (transfer : ShardTransfer) : Op unit := write_transfers (λ transfers, {[ transfer ]} ∪ transfers).
Definition finish_transfer_registered (key : ShardTransferKey) : Op unit :=
  write_transfers (λ transfers, base.filter (λ transfer, key_check key transfer = false) transfers).

(** *** Questions *)

Definition get_local_shards (self : C) : list ShardId :=
  (base.filter (λ p : ShardId * ReplicaSet L, has_local_shard p.2 = true) (map_to_list (sh_shards (co_holder self)))).*1.

Definition is_all_active (self : C) : bool :=
  forallb (λ p : ShardId * ReplicaSet L,
    forallb (λ q : PeerId * ReplicaState, bool_decide (q.2 = Active)) (map_to_list (peers (rs_state p.2))))
    (map_to_list (sh_shards (co_holder self))).

Definition contains_shard (shard_id : ShardId) (self : C) : bool := bool_decide (is_Some (get_set shard_id self)).
Definition is_shard_local (shard_id : ShardId) (self : C) : option bool := is_local_shard <$> get_set shard_id self.

Definition get_transfers (predicate : ShardTransfer → bool) (self : C) : list ShardTransfer :=
  base.filter (λ transfer, predicate transfer = true) (elements (shard_transfers (co_holder self))).
Definition get_outgoing_transfers (current_peer_id : PeerId) : C → list ShardTransfer :=
  get_transfers (λ transfer, bool_decide (tr_from transfer = current_peer_id)).

Definition coll_state (self : C) : CollState :=
  mkCollState (co_config self) ((λ replicas : ReplicaSet L, peers (rs_state replicas)) <$> sh_shards (co_holder self))
    (shard_transfers (co_holder self)).

(** *** The pool of transfer tasks *)

Definition check_if_still_running (key : ShardTransferKey) (tasks : gmap ShardTransferKey TransferTask) : bool :=
  match tasks !! key with Some TaskRunning => true | _ => false end.

Definition get_task_result (key : ShardTransferKey) (tasks : gmap ShardTransferKey TransferTask) : option bool :=
  match tasks !! key with Some (TaskDone result) => Some result | _ => None end.

(** [stopped]: what a running task returns when it is asked to stop. *)
Definition stop_if_exists (stopped : option bool) (key : ShardTransferKey) : Op TaskResult := λ self,
  (Ok (match co_tasks self !! key with
       | Some task =>
           match (match task with TaskDone result => Some result | TaskRunning => stopped end) with
           | Some true => TaskFinished
           | Some false => TaskStopped
           | None => TaskFailed
           end
       | None => TaskNotFound
       end), set_tasks (delete key (co_tasks self)) self).

(** *** The steps of a transfer *)

Definition revert_proxy_shard_to_local (shard_id : ShardId) : Op bool :=
  self ← sm_get;
  match get_set shard_id self with
  | None => mret false
  | Some _ => _ ← on_set shard_id (un_proxify_local (display_shard shard_id) display_peer); mret true
  end.

Definition change_remote_shard_route (shard_id : ShardId) (old_peer_id new_peer_id : PeerId) (sync : bool) : Op bool :=
  self ← sm_get;
  match get_set shard_id self with
  | None => mret false
  | Some replica_set =>
      _ ← (if decide (this_peer_id (rs_state replica_set) ≠ new_peer_id)
           then on_set shard_id (add_remote save new_peer_id Active) else mret tt);
      _ ← (if sync then mret tt else on_set shard_id (remove_remote save old_peer_id));
      mret true
  end.

Definition finalize_partial_shard (shard_id : ShardId) : Op bool :=
  self ← sm_get;
  match get_set shard_id self with
  | None => mret false
  | Some replica_set =>
      if has_local_shard replica_set
      then _ ← on_set shard_id (set_replica_state save (this_peer_id (rs_state replica_set)) Active); mret true
      else mret false
  end.

Definition handle_transferred_shard_proxy (shard_id : ShardId) (to : PeerId) (sync : bool) : Op bool :=
  self ← sm_get;
  match get_set shard_id self with
  | None => mret false
  | Some _ =>
      _ ← on_set shard_id (add_remote save to Active);
      _ ← (if sync then on_set shard_id (un_proxify_local (display_shard shard_id) display_peer)
           else on_set shard_id (remove_local save clear));
      mret true
  end.

Definition start_shard_transfer (transfer : ShardTransfer) (stopped : option bool) : Op bool :=
  let shard_id := tr_shard_id transfer in
  _ ← start_transfer_registered transfer;
  self ← sm_get;
  do_transfer ← (match get_set shard_id self with
    | None => sm_fail (CServiceError ("Shard " +:+ display_shard shard_id +:+ " doesn't exist"))
    | Some _ =>
        _ ← on_set shard_id (set_replica_state save (tr_to transfer) Partial);
        self ← sm_get;
        mret (match get_set shard_id self with
              | Some replica_set => is_local_shard replica_set && bool_decide (this_peer_id (rs_state replica_set) = tr_from transfer)
              | None => false
              end)
    end);
  _ ← (if do_transfer : bool
       then _ ← stop_if_exists stopped (transfer_key transfer);
            sm_modify (λ self, set_tasks (<[transfer_key transfer := TaskRunning]> (co_tasks self)) self)
       else mret tt);
  mret do_transfer.

Definition finish_shard_transfer (transfer : ShardTransfer) (stopped : option bool) : Op unit :=
  _ ← stop_if_exists stopped (transfer_key transfer);
  self ← sm_get;
  let this := co_this_peer_id self in
  _ ← (if decide (this = tr_from transfer)
       then _ ← handle_transferred_shard_proxy (tr_shard_id transfer) (tr_to transfer) (tr_sync transfer); mret tt
       else mret tt);
  _ ← (if decide (this = tr_to transfer) then _ ← finalize_partial_shard (tr_shard_id transfer); mret tt else mret tt);
  _ ← (if decide (this ≠ tr_from transfer)
       then _ ← change_remote_shard_route (tr_shard_id transfer) (tr_from transfer) (tr_to transfer) (tr_sync transfer); mret tt
       else mret tt);
  finish_transfer_registered (transfer_key transfer).

Definition abort_shard_transfer (stopped : option bool) (key : ShardTransferKey) : Op unit :=
  _ ← stop_if_exists stopped key;
  self ← sm_get;
  match get_set (key_shard_id key) self with
  | None => sm_fail (BadRequest ("Shard " +:+ display_shard (key_shard_id key) +:+ " doesn't exist"))
  | Some _ =>
      let transfer := get_transfer key (co_holder self) in
      _ ← (if default false (tr_sync <$> transfer)
           then on_set (key_shard_id key) (set_replica_state save (key_to key) Dead)
           else on_set (key_shard_id key) (remove_peer save clear (key_to key)));
      _ ← (if decide (co_this_peer_id self = key_from key)
           then _ ← revert_proxy_shard_to_local (key_shard_id key); mret tt else mret tt);
      finish_transfer_registered key
  end.

Definition initiate_local_partial_shard (shard_id : ShardId) : Op unit :=
  self ← sm_get;
  match get_set shard_id self with
  | None => sm_fail (CServiceError ("Shard " +:+ display_shard shard_id +:+ " doesn't exist, repartition is not supported yet"))
  | Some replica_set =>
      if negb (has_local_shard replica_set)
      then
        shard ← sm_lift build_local;
        _ ← on_set shard_id (set_local save shard (Some Partial));
        mret tt
      else
        _ ← (if negb (is_local_shard replica_set) then on_set shard_id (un_proxify_local (display_shard shard_id) display_peer)
             else mret tt);
        on_set shard_id (set_replica_state save (this_peer_id (rs_state replica_set)) Partial)
  end.

(** *** Replica states *)

Definition active_peers (ps : gmap PeerId ReplicaState) : gset PeerId :=
  dom (base.filter (λ p : PeerId * ReplicaState, p.2 = Active) ps).

Definition set_shard_replica_state (shard_id : ShardId) (peer_id : PeerId) (state : ReplicaState)
    (from_state : option ReplicaState) (stopped : option bool) : Op unit :=
  self ← sm_get;
  match get_set shard_id self with
  | None => sm_fail (NotFound ("Shard " +:+ display_shard shard_id))
  | Some replica_set =>
      let current_state := peer_state replica_set peer_id in
      if bool_decide (is_Some from_state) && negb (bool_decide (current_state = from_state))
      then sm_fail (BadInput ("Replica " +:+ display_peer peer_id +:+ " of shard " +:+ display_shard shard_id +:+ " has state "
             +:+ display_state current_state +:+ ", but expected " +:+ display_state from_state))
      else if bool_decide (state ≠ Active) && bool_decide (active_peers (peers (rs_state replica_set)) = {[ peer_id ]})
      then sm_fail (BadInput ("Cannot deactivate the last active replica " +:+ display_peer peer_id +:+ " of shard " +:+ display_shard shard_id))
      else
        _ ← on_set shard_id (ensure_replica_with_state save peer_id state);
        self ← sm_get;
        _ ← (if decide (state = Dead)
             then sm_for (λ transfer, abort_shard_transfer stopped (transfer_key transfer))
                    (get_related_transfers shard_id peer_id (co_holder self))
             else mret tt);
        _ ← sm_modify (λ self, if negb (co_initialized self) && is_all_active self then make_ready self else self);
        sm_modify (λ self,
          if decide (state = Dead ∧ co_this_peer_id self = peer_id)
          then match (r ← get_set shard_id self;
                      snd <$> list_find (λ p : PeerId * ReplicaState, p.2 = Active) (map_to_list (peers (rs_state r)))) with
               | Some (transfer_from, _) =>
                   request_shard_transfer (mkShardTransfer shard_id transfer_from (co_this_peer_id self) true) self
               | None => self
               end
          else self)
  end.

Inductive Change : Type := ChangeRemove (shard_id : ShardId) (peer_id : PeerId).

Definition handle_replica_change (change : Change) : Op unit :=
  let 'ChangeRemove shard_id peer_id := change in
  self ← sm_get;
  match get_set shard_id self with
  | None => sm_fail (BadRequest ("Shard " +:+ display_shard shard_id +:+ " of " +:+ collection_id +:+ " not found"))
  | Some replica_set =>
      let ps := peers (rs_state replica_set) in
      if decide (ps !! peer_id = None)
      then sm_fail (BadRequest ("Peer " +:+ display_peer peer_id +:+ " has no replica of shard " +:+ display_shard shard_id))
      else if decide (size ps = 1)
      then sm_fail (BadRequest ("Shard " +:+ display_shard shard_id +:+ " must have at least one replica"))
      else on_set shard_id (remove_peer save clear peer_id)
  end.

Definition handle_replica_changes (replica_changes : list Change) : Op unit := sm_for handle_replica_change replica_changes.

Definition remove_shards_at_peer (peer_id : PeerId) : Op unit :=
  self ← sm_get;
  sm_for (λ shard_id, on_set shard_id (remove_peer save clear peer_id)) (map_to_list (sh_shards (co_holder self))).*1.

(** *** Configuration *)

Definition restart_all : Op unit :=
  self ← sm_get;
  sm_for (λ shard_id, sm_lift (restart_optimizers shard_id)) (map_to_list (sh_shards (co_holder self))).*1.

Definition save_current_config : Op unit := self ← sm_get; sm_lift (save_config (co_config self)).

Definition set_params (params : CollectionParams) (c : CollectionConfig) : CollectionConfig :=
  mkCollectionConfig params (cc_hnsw_config c) (cc_optimizer_config c) (cc_wal_config c) (cc_quantization_config c).
Definition set_optimizer_config (o : OptimizersConfig) (c : CollectionConfig) : CollectionConfig :=
  mkCollectionConfig (cc_params c) (cc_hnsw_config c) o (cc_wal_config c) (cc_quantization_config c).

Definition update_optimizer_params (optimizer_config : OptimizersConfig) : Op unit :=
  _ ← sm_modify (λ self, set_config (set_optimizer_config optimizer_config (co_config self)) self);
  _ ← restart_all;
  save_current_config.

(** [update_params_from_diff] and [update_optimizer_params_from_diff], given
    what the diff makes of the configuration. *)
Definition update_params_with (update : CollectionParams → result CollectionError CollectionParams) : Op unit :=
  self ← sm_get;
  params ← sm_lift (update (cc_params (co_config self)));
  _ ← sm_modify (λ self, set_config (set_params params (co_config self)) self);
  save_current_config.

Definition update_optimizer_params_with (update : OptimizersConfig → result CollectionError OptimizersConfig) : Op unit :=
  self ← sm_get;
  config ← sm_lift (update (cc_optimizer_config (co_config self)));
  update_optimizer_params config.

(** *** The state of the consensus *)

Definition apply_config (new_config : CollectionConfig) : Op unit :=
  _ ← update_optimizer_params (cc_optimizer_config new_config);
  sm_modify (λ self, let params := cc_params (co_config self) in
    set_config (set_params (mkCollectionParams (cp_vectors params) (shard_number params)
      (replication_factor (cc_params new_config)) (write_consistency_factor (cc_params new_config)) (on_disk_payload params))
      (co_config self)) self).

Definition apply_shard_transfers (transfers : gset ShardTransfer) (this_peer_id : PeerId) : Op unit :=
  self ← sm_get;
  let old_transfers := shard_transfers (co_holder self) in
  _ ← sm_for (λ transfer, sm_modify (if decide (tr_from transfer = this_peer_id) then report (TransferFailed transfer) else id))
        (elements (transfers ∖ old_transfers));
  write_transfers (λ _, transfers).

Definition apply_shard_info (shards : gmap ShardId (gmap PeerId ReplicaState)) : Op unit :=
  sm_for (λ p : ShardId * gmap PeerId ReplicaState,
    self ← sm_get;
    match get_set p.1 self with
    | Some _ => on_set p.1 (apply_state save clear build_local p.2)
    | None => mret tt
    end) (map_to_list shards).

Definition apply_coll_state (state : CollState) (this_peer_id : PeerId) : Op unit :=
  _ ← apply_config (st_config state);
  _ ← apply_shard_transfers (st_transfers state) this_peer_id;
  apply_shard_info (st_shards state).

(** *** Repair *)

Definition report_transfer (transfer : ShardTransfer) : Op unit := sm_modify (λ self,
  match get_task_result (transfer_key transfer) (co_tasks self) with
  | None => if negb (check_if_still_running (transfer_key transfer) (co_tasks self)) then report (TransferFailed transfer) self else self
  | Some true => report (TransferSucceeded transfer) self
  | Some false => report (TransferFailed transfer) self
  end).

(** [listener]: the node is a listener. *)
Definition sync_replica_state (listener : bool) (shard_id : ShardId) (replica_set : ReplicaSet L) (self : C) : C :=
  let this := this_peer_id (rs_state replica_set) in
  let ps := peers (rs_state replica_set) in
  let this_peer_state := ps !! this in
  let is_last_active := bool_decide (size (active_peers ps) = 1) in
  if bool_decide (this_peer_state = Some Initializing) then report (FinishInit this shard_id) self
  else if listener && bool_decide (this_peer_state = Some Active) && negb is_last_active
  then report (ConvertToListener this shard_id) self
  else if negb listener && bool_decide (this_peer_state = Some Listener)
  then report (ConvertFromListener this shard_id) self
  else if bool_decide (this_peer_state ≠ Some Dead) then self
  else
    let transfers := get_transfers (λ _, true) self in
    match head (base.filter (λ replica_id,
            check_transfer_conflicts (mkShardTransfer shard_id replica_id this true) transfers = None)
            (active_remote_shards replica_set)) with
    | Some replica_id => request_shard_transfer (mkShardTransfer shard_id replica_id this true) self
    | None => self
    end.

Definition sync_coll_state (listener : bool) : Op unit :=
  self ← sm_get;
  let ids := (map_to_list (sh_shards (co_holder self))).*1 in
  _ ← sm_for (λ shard_id, on_set shard_id ReplicaSet.sync_local_state) ids;
  self ← sm_get;
  _ ← sm_for report_transfer (get_outgoing_transfers (co_this_peer_id self) self);
  sm_for (λ shard_id, sm_modify (λ self,
    match get_set shard_id self with Some r => sync_replica_state listener shard_id r self | None => self end)) ids.

(** ** Transfers decided by the consensus *)

(** [handle_transfer] of the table of content. *)
Inductive ShardTransferOperations : Type :=
| TransferStart (transfer : ShardTransfer)
| TransferFinish (transfer : ShardTransfer)
| TransferAbort (key : ShardTransferKey).

Definition handle_transfer (all_peers : gset PeerId) (stopped : option bool) (operation : ShardTransferOperations) : Op unit :=
  self ← sm_get;
  let state := coll_state self in
  match operation with
  | TransferStart transfer =>
      _ ← sm_lift (validate_transfer display_shard display_peer transfer all_peers
             (st_shards state !! tr_shard_id transfer) (st_transfers state));
      _ ← start_shard_transfer transfer stopped;
      mret tt
  | TransferFinish transfer =>
      _ ← sm_lift (validate_transfer_exists display_shard display_peer (transfer_key transfer) (st_transfers state));
      finish_shard_transfer transfer stopped
  | TransferAbort key =>
      _ ← sm_lift (validate_transfer_exists display_shard display_peer key (st_transfers state));
      abort_shard_transfer stopped key
  end.
End collection_ops.
