(* ===== verification/ClusterSpec.v ===== *)
(** * The replicas of a collection across a cluster

    Every peer applies the decisions of the consensus to its own copy of the
    collection ([CollectionOps.v]), in the same order, and does something else
    for each of them depending on its role.  Seen through the states of the
    replicas and the registered transfers, each decision is one function
    ([decided]), the same on every peer; and decisions that are allowed leave
    every shard an active replica. *)

From stdpp Require Import base gmap strings list sorting.
From Stdlib Require Import ZArith Lia SpecFloat.
From S2P Require Import Prelude Types Rocks Filters SegmentHolder Requests Operations CollectionConfig Shards Resolve ReplicaSet ReplicaSpec ReplicaOps.
From S2P Require Import VectorStorage Collection CollectionOps.

(** ** Decisions *)

(** The replicas of each shard, and the transfers. *)
Definition View : Type := gmap ShardId (gmap PeerId ReplicaState) * gset ShardTransfer.

Inductive Decided : Type :=
| DTransfer (operation : ShardTransferOperations)
| DSetState (shard_id : ShardId) (peer_id : PeerId) (state : ReplicaState) (from_state : option ReplicaState)
| DRemove (shard_id : ShardId) (peer_id : PeerId).

Definition without_key (key : ShardTransferKey) (ts : gset ShardTransfer) : gset ShardTransfer :=
  base.filter (λ transfer, key_check key transfer = false) ts.

Definition finished (t : ShardTransfer) (ps : gmap PeerId ReplicaState) : gmap PeerId ReplicaState :=
  let ps := <[tr_to t := Active]> ps in if tr_sync t then ps else delete (tr_from t) ps.

Definition aborted (key : ShardTransferKey) (v : View) : View :=
  let sync := default false (tr_sync <$> (snd <$> list_find (λ transfer, key_check key transfer = true) (elements v.2))) in
  (alter (λ ps, if sync then <[key_to key := Dead]> ps else delete (key_to key) ps) (key_shard_id key) v.1, without_key key v.2).

Definition related (shard_id : ShardId) (peer_id : PeerId) (ts : gset ShardTransfer) : list ShardTransfer :=
  base.filter (λ transfer, tr_from transfer = peer_id ∨ tr_to transfer = peer_id)
    (base.filter (λ transfer, tr_shard_id transfer = shard_id) (elements ts)).

Definition decided (d : Decided) (v : View) : View :=
  match d with
  | DTransfer (TransferStart t) => (alter <[tr_to t := Partial]> (tr_shard_id t) v.1, {[ t ]} ∪ v.2)
  | DTransfer (TransferFinish t) => (alter (finished t) (tr_shard_id t) v.1, without_key (transfer_key t) v.2)
  | DTransfer (TransferAbort key) => aborted key v
  | DSetState shard_id peer_id state _ =>
      let v' := (alter <[peer_id := state]> shard_id v.1, v.2) in
      if decide (state = Dead)
      then fold_left (λ v t, aborted (transfer_key t) v) (related shard_id peer_id v.2) v'
      else v'
  | DRemove shard_id peer_id => (alter (delete peer_id) shard_id v.1, v.2)
  end.

(** ** Every peer does what is decided *)

Section refines.
Context {R1 R2 L : Type}.
Abbreviation C := (Coll R1 R2 L).
Context (collection_id : string) (display_shard : ShardId → string) (display_peer : PeerId → string)
  (display_state : option ReplicaState → string).
Context (save : ReplicaSetState → result CollectionError unit) (save_transfers : gset ShardTransfer → result CollectionError unit).
Context (clear : result CollectionError unit) (all_peers : gset PeerId) (stopped : option bool).
Context (save_total : ∀ st, save st ≠ Panic) (transfers_total : ∀ ts, save_transfers ts ≠ Panic) (clear_total : clear ≠ Panic).
Implicit Types c : C.

(** A decision on a peer. *)
Definition run_decision (d : Decided) : sm C CollectionError unit :=
  match d with
  | DTransfer operation => handle_transfer display_shard display_peer save save_transfers clear all_peers stopped operation
  | DSetState shard_id peer_id state from_state =>
      set_shard_replica_state display_shard display_peer display_state save save_transfers clear shard_id peer_id state from_state stopped
  | DRemove shard_id peer_id =>
      handle_replica_changes collection_id display_shard display_peer save clear [ChangeRemove shard_id peer_id]
  end.

Definition view c : View := ((λ r, peers (rs_state r)) <$> sh_shards (co_holder c), shard_transfers (co_holder c)).

Definition coll_ok c : Prop := ∀ id r, get_set id c = Some r → this_peer_id (rs_state r) = co_this_peer_id c.

(** The collection [c'] is a copy of the same peer with the view [v]. *)
Definition shows (c : C) (v : View) (c' : C) : Prop :=
  coll_ok c' ∧ co_this_peer_id c' = co_this_peer_id c ∧ view c' = v.

Lemma view_shard c id : (view c).1 !! id = (λ r, peers (rs_state r)) <$> get_set id c.
Proof using. apply lookup_fmap. Qed.

Lemma on_set_wp {A} id (m : sm (ReplicaSet L) CollectionError A) f c c0 v (P : A → ReplicaSet L → Prop) :
  is_Some (get_set id c) → shows c0 v c →
  (∀ r, get_set id c = Some r → sm_wp m (λ a r', this_peer_id (rs_state r') = this_peer_id (rs_state r) ∧
     peers (rs_state r') = f (peers (rs_state r)) ∧ P a r') (λ _ _, True) r) →
  sm_wp (on_set id m) (λ a c', shows c0 (alter f id v.1, v.2) c' ∧ ∃ r', get_set id c' = Some r' ∧ P a r') (λ _ _, True) c.
Proof using.
  intros [r Hr] (Hok & Hthis & Hv) Hm. unfold sm_wp, on_set. rewrite Hr. specialize (Hm r Hr). unfold sm_wp in Hm.
  destruct (m r) as [[a|e|] r']; [|done|done]. destruct Hm as (Ht & Hp & HP). split; [split_and!|].
  - intros id' r''. unfold get_set. cbn. rewrite lookup_insert_Some. intros [[<- <-]|[_ Hl]]; [rewrite Ht|]; by eapply Hok.
  - done.
  - subst v. unfold view. cbn. f_equal. rewrite fmap_insert, Hp. apply map_eq. intros id'.
    destruct (decide (id' = id)) as [->|Hne].
    + rewrite lookup_insert_eq, lookup_alter_eq, lookup_fmap. unfold get_set in Hr. by rewrite Hr.
    + by rewrite lookup_insert_ne, lookup_alter_ne by done.
  - exists r'. split; [|done]. unfold get_set. cbn. by rewrite lookup_insert_eq.
Qed.

Lemma sm_wp_bind_inv {S E A B} (m : sm S E A) (k : A → sm S E B) Q R (s : S) :
  sm_wp (m ≫= k) Q R s → sm_wp m (λ a s', sm_wp (k a) Q R s') R s.
Proof using. unfold sm_wp, mbind, sm_bind. by destruct (m s) as [[a|e|] s']. Qed.

(** *** What the operations of a replica set do to the states *)

Abbreviation changes r f P := (λ a r', this_peer_id (rs_state r') = this_peer_id (rs_state r) ∧ peers (rs_state r') = f (peers (rs_state r)) ∧ P a r').

Lemma set_replica_state_changes p st (r : ReplicaSet L) :
  sm_wp (set_replica_state save p st) (changes r <[p := st]> (λ _ r', rs_local r' = rs_local r)) (λ _ _, True) r.
Proof using save_total.
  unfold set_replica_state. apply sm_wp_bind, write_state_wp; [intros _|done|apply save_total].
  apply update_locally_disabled_wp. intros d _. cbn. by case_decide.
Qed.

Lemma add_remote_changes p st (r : ReplicaSet L) :
  sm_wp (add_remote save p st) (changes r <[p := st]> (λ _ r', rs_local r' = rs_local r)) (λ _ _, True) r.
Proof using save_total.
  unfold add_remote. apply sm_wp_bind, write_state_wp; [intros _|done|apply save_total].
  apply sm_wp_bind, update_locally_disabled_wp. intros d _. apply sm_wp_modify. cbn. by case_decide.
Qed.

Lemma remove_remote_changes p (r : ReplicaSet L) :
  sm_wp (remove_remote save p) (changes r (delete p) (λ _ r', rs_local r' = rs_local r)) (λ _ _, True) r.
Proof using save_total. by apply remove_remote_wp. Qed.

Lemma remove_local_changes (r : ReplicaSet L) :
  sm_wp (remove_local save clear) (changes r (delete (this_peer_id (rs_state r))) (λ _ r', rs_local r' = None)) (λ _ _, True) r.
Proof using save_total clear_total. by apply remove_local_wp. Qed.

Lemma remove_peer_changes p (r : ReplicaSet L) :
  sm_wp (remove_peer save clear p) (changes r (delete p) (λ _ _, True)) (λ _ _, True) r.
Proof using save_total clear_total.
  unfold remove_peer. apply sm_wp_bind. unfold sm_wp at 1, sm_get. case_decide as Hp.
  - eapply sm_wp_mono; [apply remove_local_changes| |done]. rewrite Hp. intros a r' (? & ? & _). done.
  - eapply sm_wp_mono; [apply remove_remote_changes| |done]. intros a r' (? & ? & _). done.
Qed.

Lemma un_proxify_changes id (r : ReplicaSet L) :
  sm_wp (un_proxify_local id display_peer) (changes r (λ ps, ps) (λ _ r', has_local_shard r' = true)) (λ _ _, True) r.
Proof using.
  unfold un_proxify_local. apply sm_wp_bind. unfold sm_wp at 1, sm_get.
  destruct (rs_local r) as [[l|l|l q]|] eqn:Hl; [|done| |done]; unfold sm_wp; cbn; [|done].
  unfold has_local_shard. by rewrite Hl.
Qed.

Lemma ensure_changes p st (r : ReplicaSet L) :
  sm_wp (ensure_replica_with_state save p st) (changes r <[p := st]> (λ _ _, True)) (λ _ _, True) r.
Proof using save_total.
  unfold ensure_replica_with_state. apply sm_wp_bind. unfold sm_wp at 1, sm_get.
  case_decide; (eapply sm_wp_mono; [apply set_replica_state_changes || apply add_remote_changes| |done]); intros a r' (? & ? & _); done.
Qed.

Lemma write_transfers_wp f c c0 v :
  shows c0 v c → sm_wp (write_transfers save_transfers f) (λ _, shows c0 (v.1, f v.2)) (λ _ _, True) c.
Proof using transfers_total.
  intros (Hok & Hthis & <-). unfold sm_wp, write_transfers. specialize (transfers_total (f (shard_transfers (co_holder c)))).
  destruct (save_transfers _) as [[]|e|]; done.
Qed.

Lemma stop_wp key c c0 v : shows c0 v c → sm_wp (stop_if_exists stopped key) (λ _ c', shows c0 v c' ∧ co_holder c' = co_holder c) (λ _ _, True) c.
Proof using. intros Hv. done. Qed.

(** *** Transfers *)

Lemma shows_self c : coll_ok c → shows c (view c) c.
Proof using. done. Qed.

Lemma set_wp {A} id (m : sm (ReplicaSet L) CollectionError A) f c c0 v (P : A → ReplicaSet L → Prop) r :
  get_set id c = Some r → shows c0 v c →
  sm_wp m (changes r f P) (λ _ _, True) r →
  sm_wp (on_set id m) (λ a c', shows c0 (alter f id v.1, v.2) c' ∧ ∃ r', get_set id c' = Some r' ∧ P a r') (λ _ _, True) c.
Proof using. intros Hr Hv Hm. apply on_set_wp; [eauto|done|]. intros r' Hr'. rewrite Hr in Hr'. by injection Hr' as <-. Qed.

Definition on_set_changes {A} (id : ShardId) (f : gmap PeerId ReplicaState → gmap PeerId ReplicaState) (P : A → ReplicaSet L → Prop)
    (c0 : C) (v : View) (a : A) (c' : C) : Prop := shows c0 (alter f id v.1, v.2) c' ∧ ∃ r', get_set id c' = Some r' ∧ P a r'.

Lemma set_state_wp id p st c c0 v r :
  get_set id c = Some r → shows c0 v c →
  sm_wp (on_set id (set_replica_state save p st)) (on_set_changes id <[p := st]> (λ _ r', rs_local r' = rs_local r) c0 v) (λ _ _, True) c.
Proof using save_total. intros Hr Hv. exact (set_wp id _ _ c c0 v _ r Hr Hv (set_replica_state_changes p st r)). Qed.

Lemma set_add_remote_wp id p st c c0 v r :
  get_set id c = Some r → shows c0 v c →
  sm_wp (on_set id (add_remote save p st)) (on_set_changes id <[p := st]> (λ _ r', rs_local r' = rs_local r) c0 v) (λ _ _, True) c.
Proof using save_total. intros Hr Hv. exact (set_wp id _ _ c c0 v _ r Hr Hv (add_remote_changes p st r)). Qed.

Lemma set_remove_remote_wp id p c c0 v r :
  get_set id c = Some r → shows c0 v c →
  sm_wp (on_set id (remove_remote save p)) (on_set_changes id (delete p) (λ _ r', rs_local r' = rs_local r) c0 v) (λ _ _, True) c.
Proof using save_total. intros Hr Hv. exact (set_wp id _ _ c c0 v _ r Hr Hv (remove_remote_changes p r)). Qed.

Lemma set_remove_local_wp id c c0 v r :
  get_set id c = Some r → shows c0 v c →
  sm_wp (on_set id (remove_local save clear))
    (on_set_changes id (delete (this_peer_id (rs_state r))) (λ _ r', rs_local r' = None) c0 v) (λ _ _, True) c.
Proof using save_total clear_total. intros Hr Hv. exact (set_wp id _ _ c c0 v _ r Hr Hv (remove_local_changes r)). Qed.

Lemma set_remove_peer_wp id p c c0 v r :
  get_set id c = Some r → shows c0 v c →
  sm_wp (on_set id (remove_peer save clear p)) (on_set_changes id (delete p) (λ _ _, True) c0 v) (λ _ _, True) c.
Proof using save_total clear_total. intros Hr Hv. exact (set_wp id _ _ c c0 v _ r Hr Hv (remove_peer_changes p r)). Qed.

Lemma set_un_proxify_wp id s c c0 v r :
  get_set id c = Some r → shows c0 v c →
  sm_wp (on_set id (un_proxify_local s display_peer)) (λ _ c', shows c0 v c' ∧ ∃ r', get_set id c' = Some r' ∧ has_local_shard r' = true) (λ _ _, True) c.
Proof using.
  intros Hr Hv. pose proof (set_wp id _ _ c c0 v _ r Hr Hv (un_proxify_changes s r)) as H. rewrite alter_id in H by done.
  by destruct v.
Qed.

Lemma start_wp t c :
  coll_ok c →
  sm_wp (start_shard_transfer display_shard save save_transfers t stopped)
    (λ _, shows c (decided (DTransfer (TransferStart t)) (view c))) (λ _ _, True) c.
Proof using save_total transfers_total.
  intros Hok. unfold start_shard_transfer. apply sm_wp_bind.
  eapply sm_wp_mono; [apply (write_transfers_wp _ c c (view c)), shows_self, Hok| |done]. intros u1 c1 H1.
  apply sm_wp_bind. unfold sm_wp at 1, sm_get. destruct (get_set (tr_shard_id t) c1) as [r|] eqn:Hr; [|by apply sm_wp_bind].
  do 2 apply sm_wp_bind. eapply sm_wp_mono; [exact (set_state_wp _ _ _ _ _ _ r Hr H1)| |done].
  intros u2 c2 [H2 _]. apply sm_wp_bind. unfold sm_wp at 1, sm_get. apply sm_wp_ret. apply sm_wp_bind.
  destruct (match get_set _ c2 with Some _ => _ | None => _ end); [|by apply sm_wp_ret, sm_wp_ret].
  apply sm_wp_bind. eapply sm_wp_mono; [by apply (stop_wp _ _ c)| |done]. intros u3 c3 [H3 _]. by apply sm_wp_modify, sm_wp_ret.
Qed.

Lemma revert_wp id c c0 v :
  shows c0 v c → sm_wp (revert_proxy_shard_to_local display_shard display_peer id) (λ _, shows c0 v) (λ _ _, True) c.
Proof using.
  intros Hv. unfold revert_proxy_shard_to_local. apply sm_wp_bind. unfold sm_wp at 1, sm_get.
  destruct (get_set id c) as [r|] eqn:Hr; [|by apply sm_wp_ret]. apply sm_wp_bind.
  eapply sm_wp_mono; [exact (set_un_proxify_wp _ _ _ _ _ r Hr Hv)| |done]. intros u1 c1 [H1 _]. by apply sm_wp_ret.
Qed.

Lemma abort_wp key c c0 v :
  shows c0 v c → sm_wp (abort_shard_transfer display_shard display_peer save save_transfers clear stopped key)
    (λ _, shows c0 (aborted key v)) (λ _ _, True) c.
Proof using save_total transfers_total clear_total.
  intros Hv. unfold abort_shard_transfer. apply sm_wp_bind. eapply sm_wp_mono; [by apply (stop_wp _ _ c0 v)| |done].
  intros u1 c1 [H1 Hh]. apply sm_wp_bind. unfold sm_wp at 1, sm_get. destruct (get_set (key_shard_id key) c1) as [r|] eqn:Hr; [|done].
  assert (tr_sync <$> get_transfer key (co_holder c1) =
    tr_sync <$> (snd <$> list_find (λ transfer, key_check key transfer = true) (elements v.2))) as Hsync.
  { unfold get_transfer. destruct H1 as (_ & _ & <-). done. }
  rewrite Hsync. apply sm_wp_bind.
  apply (sm_wp_mono _ (λ _, shows c0 ((aborted key v).1, v.2)) _ (λ _ _, True) (λ _ _, True)); [|intros u2 c2 H2|done].
  - unfold aborted. cbn [fst]. destruct (default false _).
    + eapply sm_wp_mono; [exact (set_state_wp _ _ _ _ _ _ r Hr H1)| |done]. by intros u2 c2 [H2 _].
    + eapply sm_wp_mono; [exact (set_remove_peer_wp _ _ _ _ _ r Hr H1)| |done]. by intros u2 c2 [H2 _].
  - apply sm_wp_bind. apply (sm_wp_mono _ (λ _, shows c0 ((aborted key v).1, v.2)) _ (λ _ _, True) (λ _ _, True)); [|intros u3 c3 H3|done].
    + case_decide; [|by apply sm_wp_ret]. apply sm_wp_bind. eapply sm_wp_mono; [by apply revert_wp| |done].
      intros u3 c3 H3. by apply sm_wp_ret.
    + apply (write_transfers_wp _ c3 c0 _ H3).
Qed.

(** The peer the shard comes from: it keeps its replica or gives it up. *)
Lemma handle_proxy_wp id to sync c c0 v :
  shows c0 v c →
  sm_wp (handle_transferred_shard_proxy display_shard display_peer save clear id to sync)
    (λ _ c', shows c0 (alter (λ ps, let ps := <[to := Active]> ps in if sync then ps else delete (co_this_peer_id c0) ps) id v.1, v.2) c' ∧
      (sync = false → ∀ r, get_set id c' = Some r → has_local_shard r = false)) (λ _ _, True) c.
Proof using save_total clear_total.
  intros Hv. unfold handle_transferred_shard_proxy. apply sm_wp_bind. unfold sm_wp at 1, sm_get.
  destruct (get_set id c) as [r|] eqn:Hr.
  - apply sm_wp_bind. eapply sm_wp_mono; [exact (set_add_remote_wp _ _ _ _ _ _ r Hr Hv)| |done]. intros u1 c1 (H1 & r1 & Hr1 & Hl1).
    apply sm_wp_bind. destruct sync.
    + eapply sm_wp_mono; [exact (set_un_proxify_wp _ _ _ _ _ r1 Hr1 H1)| |done]. intros u2 c2 [H2 _]. by apply sm_wp_ret.
    + eapply sm_wp_mono; [exact (set_remove_local_wp _ _ _ _ r1 Hr1 H1)| |done]. intros u2 c2 (H2 & r2 & Hr2 & Hl2). apply sm_wp_ret.
      assert (this_peer_id (rs_state r1) = co_this_peer_id c0) as Ht by (destruct H1 as (Hok1 & <- & _); by apply (Hok1 id)).
      cbn [fst snd] in H2; rewrite Ht, alter_alter_eq in H2. split; [exact H2|]. intros _ r' Hr'. rewrite Hr2 in Hr'. injection Hr' as <-.
      unfold has_local_shard. by rewrite Hl2.
  - apply sm_wp_ret. assert (v.1 !! id = None) as Hnone by (destruct Hv as (_ & _ & <-); by rewrite view_shard, Hr).
    rewrite alter_id by (intros; congruence). split; [by destruct v|]. intros _ r Hr'. congruence.
Qed.

Lemma finalize_wp id c c0 v :
  shows c0 v c →
  sm_wp (finalize_partial_shard save id)
    (λ _ c', shows c0 (if default false (has_local_shard <$> get_set id c) then alter <[co_this_peer_id c0 := Active]> id v.1 else v.1, v.2) c')
    (λ _ _, True) c.
Proof using save_total.
  intros Hv. unfold finalize_partial_shard. apply sm_wp_bind. unfold sm_wp at 1, sm_get.
  destruct (get_set id c) as [r|] eqn:Hr; cbn [fmap option_fmap option_map default from_option]; [|by apply sm_wp_ret; destruct v].
  destruct (has_local_shard r); [|by apply sm_wp_ret; destruct v]. apply sm_wp_bind.
  eapply sm_wp_mono; [exact (set_state_wp _ _ _ _ _ _ r Hr Hv)| |done]. intros u1 c1 [H1 _]. apply sm_wp_ret.
  assert (this_peer_id (rs_state r) = co_this_peer_id c0) as Ht by (destruct Hv as (Hok & <- & _); by apply (Hok id)).
  by rewrite Ht in H1.
Qed.

Lemma route_wp id old new sync c c0 v :
  shows c0 v c →
  sm_wp (change_remote_shard_route save id old new sync)
    (λ _ c', shows c0 (alter (λ ps, let ps := if decide (co_this_peer_id c0 = new) then ps else <[new := Active]> ps in
                                    if sync then ps else delete old ps) id v.1, v.2) c') (λ _ _, True) c.
Proof using save_total.
  intros Hv. unfold change_remote_shard_route. apply sm_wp_bind. unfold sm_wp at 1, sm_get.
  destruct (get_set id c) as [r|] eqn:Hr.
  2: { apply sm_wp_ret. assert (v.1 !! id = None) as Hnone by (destruct Hv as (_ & _ & <-); by rewrite view_shard, Hr).
       rewrite alter_id by (intros; congruence). by destruct v. }
  assert (this_peer_id (rs_state r) = co_this_peer_id c0) as -> by (destruct Hv as (Hok & <- & _); by apply (Hok id)).
  apply sm_wp_bind. apply (sm_wp_mono _ (λ _ c', shows c0 (alter (λ ps, if decide (co_this_peer_id c0 = new) then ps else <[new := Active]> ps) id v.1, v.2) c' ∧
    is_Some (get_set id c')) _ (λ _ _, True) (λ _ _, True)); [|intros u1 c1 [H1 [r1 Hr1]]|done].
  - destruct (decide (co_this_peer_id c0 = new)); cbn.
    + rewrite decide_False by (intros Hx; by apply Hx). apply sm_wp_ret. rewrite alter_id by done. split; [by destruct v|eauto].
    + rewrite decide_True by done. eapply sm_wp_mono; [exact (set_add_remote_wp _ _ _ _ _ _ r Hr Hv)| |done].
      intros u2 c2 (H2 & r2 & Hr2 & _). eauto.
  - apply sm_wp_bind. destruct sync; [by do 2 apply sm_wp_ret|].
    eapply sm_wp_mono; [exact (set_remove_remote_wp _ _ _ _ _ r1 Hr1 H1)| |done]. intros u2 c2 [H2 _]. apply sm_wp_ret.
    cbn in H2. by rewrite alter_alter_eq in H2.
Qed.

(** The peer the shard goes to has it. *)
Definition receiver_ready (t : ShardTransfer) c : Prop :=
  co_this_peer_id c = tr_to t → tr_from t ≠ tr_to t → ∀ r, get_set (tr_shard_id t) c = Some r → has_local_shard r = true.

(** What the source of the transfer has done when it comes to the transfers. *)
Lemma finish_source_wp t c c1 :
  co_this_peer_id c = tr_from t → shows c (view c) c1 →
  sm_wp (_ ← handle_transferred_shard_proxy display_shard display_peer save clear (tr_shard_id t) (tr_to t) (tr_sync t);
         if decide (co_this_peer_id c = tr_to t) then _ ← finalize_partial_shard save (tr_shard_id t); mret tt else mret tt)
    (λ _, shows c (alter (finished t) (tr_shard_id t) (view c).1, (view c).2)) (λ _ _, True) c1.
Proof using save_total clear_total.
  intros Hfrom H1. apply sm_wp_bind. eapply sm_wp_mono; [exact (handle_proxy_wp _ _ _ _ _ _ H1)| |done].
  intros u2 c2 [H2 Hl2]. rewrite Hfrom in H2. change (shows c (alter (finished t) (tr_shard_id t) (view c).1, (view c).2) c2) in H2.
  case_decide as Hto; [|by apply sm_wp_ret]. apply sm_wp_bind. eapply sm_wp_mono; [exact (finalize_wp _ _ _ _ H2)| |done].
  intros u3 c3 H3. apply sm_wp_ret. destruct (tr_sync t) eqn:Hsync.
  - destruct (default false _); [|exact H3]. cbn [fst snd] in H3. rewrite alter_alter_eq in H3.
    erewrite alter_ext; [exact H3|]. intros ps _. unfold finished. cbn. rewrite Hsync, Hto. by rewrite insert_insert_eq.
  - destruct (get_set (tr_shard_id t) c2) as [r|] eqn:Hr; cbn in H3; [|exact H3]. by rewrite (Hl2 eq_refl r) in H3.
Qed.

(** And what every other peer has. *)
Lemma finish_other_wp t c c1 :
  co_this_peer_id c ≠ tr_from t → receiver_ready t c → co_holder c1 = co_holder c → shows c (view c) c1 →
  sm_wp (_ ← (if decide (co_this_peer_id c = tr_to t) then _ ← finalize_partial_shard save (tr_shard_id t); mret tt else mret tt);
         change_remote_shard_route save (tr_shard_id t) (tr_from t) (tr_to t) (tr_sync t))
    (λ _, shows c (alter (finished t) (tr_shard_id t) (view c).1, (view c).2)) (λ _ _, True) c1.
Proof using save_total.
  intros Hfrom Hready Hh H1. apply sm_wp_bind.
  apply (sm_wp_mono _ (λ _, shows c (if decide (co_this_peer_id c = tr_to t)
    then alter <[co_this_peer_id c := Active]> (tr_shard_id t) (view c).1 else (view c).1, (view c).2)) _ (λ _ _, True) (λ _ _, True)); [|intros u2 c2 H2|done].
  - destruct (decide (co_this_peer_id c = tr_to t)) as [Hto|Hto]; [|apply sm_wp_ret; by destruct (view c)].
    apply sm_wp_bind. eapply sm_wp_mono; [exact (finalize_wp _ _ _ _ H1)| |done]. intros u3 c3 H3. apply sm_wp_ret.
    assert (get_set (tr_shard_id t) c1 = get_set (tr_shard_id t) c) as Hg by (unfold get_set; by rewrite Hh). rewrite Hg in H3.
    destruct (get_set (tr_shard_id t) c) as [r|] eqn:Hr; cbn in H3.
    + rewrite (Hready Hto) in H3; [done|congruence|done].
    + rewrite alter_id; [exact H3|]. intros ps. rewrite view_shard, Hr. done.
  - eapply sm_wp_mono; [exact (route_wp _ _ _ _ _ _ _ H2)| |done]. intros u3 c3 H3. cbn [fst snd] in H3.
    destruct (decide (co_this_peer_id c = tr_to t)) as [Hto|Hto].
    + rewrite alter_alter_eq in H3. erewrite alter_ext; [exact H3|]. intros ps _. unfold finished. cbn. rewrite Hto. done.
    + exact H3.
Qed.

Lemma finish_wp t c :
  coll_ok c → receiver_ready t c →
  sm_wp (finish_shard_transfer display_shard display_peer save save_transfers clear t stopped)
    (λ _, shows c (decided (DTransfer (TransferFinish t)) (view c))) (λ _ _, True) c.
Proof using save_total transfers_total clear_total.
  intros Hok Hready. unfold finish_shard_transfer. apply sm_wp_bind.
  eapply sm_wp_mono; [exact (stop_wp _ _ _ _ (shows_self c Hok))| |done]. intros u1 c1 [H1 Hh]. apply sm_wp_bind. unfold sm_wp at 1, sm_get.
  assert (co_this_peer_id c1 = co_this_peer_id c) as -> by apply H1.
  assert (∀ c2, shows c (alter (finished t) (tr_shard_id t) (view c).1, (view c).2) c2 →
    sm_wp (finish_transfer_registered save_transfers (transfer_key t))
      (λ _, shows c (decided (DTransfer (TransferFinish t)) (view c))) (λ _ _, True) c2) as Hend.
  { intros c2 H2. exact (write_transfers_wp _ c2 c _ H2). }
  destruct (decide (co_this_peer_id c = tr_from t)) as [Hfrom|Hfrom].
  - do 2 apply sm_wp_bind. eapply sm_wp_mono; [exact (sm_wp_bind_inv _ _ _ _ _ (finish_source_wp t c c1 Hfrom H1))| |done].
    intros u2 c2 H2. apply sm_wp_ret, sm_wp_bind. eapply sm_wp_mono; [exact H2| |done]. intros u3 c3 H3.
    rewrite decide_False by (intros Hx; by apply Hx). apply sm_wp_bind, sm_wp_ret. by apply Hend.
  - apply sm_wp_bind, sm_wp_ret, sm_wp_bind.
    eapply sm_wp_mono; [exact (sm_wp_bind_inv _ _ _ _ _ (finish_other_wp t c c1 Hfrom Hready Hh H1))| |done].
    intros u2 c2 H2. rewrite decide_True by done. do 2 apply sm_wp_bind. eapply sm_wp_mono; [exact H2| |done]. intros u3 c3 H3.
    apply sm_wp_ret. by apply Hend.
Qed.

(** *** The decisions *)

(** The checks a decision passes before anything is done. *)
Definition accepted (d : Decided) (v : View) : bool :=
  match d with
  | DTransfer (TransferStart t) => is_ok (validate_transfer display_shard display_peer t all_peers (v.1 !! tr_shard_id t) v.2)
  | DTransfer (TransferFinish t) => is_ok (validate_transfer_exists display_shard display_peer (transfer_key t) v.2)
  | DTransfer (TransferAbort key) => is_ok (validate_transfer_exists display_shard display_peer key v.2)
  | DSetState shard_id peer_id state from_state =>
      match v.1 !! shard_id with
      | None => false
      | Some ps => negb (bool_decide (is_Some from_state) && negb (bool_decide (ps !! peer_id = from_state))) &&
                   negb (bool_decide (state ≠ Active) && bool_decide (active_peers ps = {[ peer_id ]}))
      end
  | DRemove shard_id peer_id =>
      match v.1 !! shard_id with
      | None => false
      | Some ps => negb (bool_decide (ps !! peer_id = None)) && negb (bool_decide (size ps = 1))
      end
  end.

(** A peer does what is decided, or refuses it and stays as it is. *)
Definition obeys (d : Decided) c (r : result CollectionError unit * C) : Prop :=
  match r.1 with
  | Ok _ => accepted d (view c) = true ∧ shows c (decided d (view c)) r.2
  | Err _ => accepted d (view c) = false → r.2 = c
  | Panic => False
  end.

Lemma obeys_guarded d c (r : result CollectionError unit) (m : sm C CollectionError unit) :
  is_ok r = accepted d (view c) → r ≠ Panic →
  (accepted d (view c) = true → sm_wp m (λ _, shows c (decided d (view c))) (λ _ _, True) c) →
  obeys d c ((_ ← sm_lift r; m) c).
Proof using.
  intros Hr Hp Hm. destruct r as [[]|e|]; [|done|done]. specialize (Hm (eq_sym Hr)). unfold obeys. cbn in Hr |- *.
  unfold sm_wp in Hm. unfold mbind, sm_bind, sm_lift. destruct (m c) as [[a|e|] c']; cbn; [done| |done]. congruence.
Qed.

Lemma validate_total t ps ts : validate_transfer display_shard display_peer t all_peers ps ts ≠ Panic.
Proof using.
  unfold validate_transfer. destruct ps as [ps|]; [|done]. do 3 (case_decide; [done|]). by destruct (check_transfer_conflicts _ _).
Qed.

Lemma exists_total key ts : validate_transfer_exists display_shard display_peer key ts ≠ Panic.
Proof using. unfold validate_transfer_exists. by destruct (existsb _ _). Qed.

Lemma handle_transfer_obeys op c :
  coll_ok c → (∀ t, op = TransferFinish t → receiver_ready t c) →
  obeys (DTransfer op) c (run_decision (DTransfer op) c).
Proof using save_total transfers_total clear_total.
  intros Hok Hready. destruct op as [t|t|key].
  - apply (obeys_guarded (DTransfer (TransferStart t)) c _ (_ ← start_shard_transfer display_shard save save_transfers t stopped; mret tt));
      [done|apply validate_total|]. intros _. apply sm_wp_bind.
    eapply sm_wp_mono; [by apply start_wp| |done]. intros a c' H. by apply sm_wp_ret.
  - apply (obeys_guarded (DTransfer (TransferFinish t)) c); [done|apply exists_total|]. intros _. apply finish_wp; [done|by apply Hready].
  - apply (obeys_guarded (DTransfer (TransferAbort key)) c); [done|apply exists_total|]. intros _. by apply abort_wp.
Qed.

Lemma abort_all_wp l c c0 v :
  shows c0 v c →
  sm_wp (sm_for (λ t, abort_shard_transfer display_shard display_peer save save_transfers clear stopped (transfer_key t)) l)
    (λ _, shows c0 (fold_left (λ v t, aborted (transfer_key t) v) l v)) (λ _ _, True) c.
Proof using save_total transfers_total clear_total.
  revert c v. induction l as [|t l IH]; intros c v Hv; [by apply sm_wp_ret|]. cbn [sm_for fold_left]. apply sm_wp_bind.
  eapply sm_wp_mono; [by apply abort_wp| |done]. intros u c1 H1. by apply IH.
Qed.

Lemma get_bind {S E A} (k : S → sm S E A) (s : S) : (sm_get ≫= k) s = k s s.
Proof using. done. Qed.

Lemma obeys_fails d c e : accepted d (view c) = false → obeys d c (Err e, c).
Proof using. done. Qed.

Lemma obeys_done d c (m : sm C CollectionError unit) :
  accepted d (view c) = true → sm_wp m (λ _, shows c (decided d (view c))) (λ _ _, True) c → obeys d c (m c).
Proof using. intros Ha Hm. unfold obeys. unfold sm_wp in Hm. destruct (m c) as [[a|e|] c']; cbn; [done|congruence|done]. Qed.

(** What is not in the view does not matter. *)
Lemma outside_wp (f : C → C) c v c' :
  (∀ c, co_holder (f c) = co_holder c ∧ co_this_peer_id (f c) = co_this_peer_id c) → shows c v c' →
  sm_wp (E := CollectionError) (sm_modify f) (λ _, shows c v) (λ _ _, True) c'.
Proof using.
  intros Hf (Hok & Ht & Hv). apply sm_wp_modify. destruct (Hf c') as [Hh Ht']. split_and!; [|by rewrite Ht'|unfold view; by rewrite Hh].
  intros id' r'. unfold get_set. rewrite Hh, Ht'. apply Hok.
Qed.

Lemma set_state_obeys id p st from_state c :
  coll_ok c → obeys (DSetState id p st from_state) c (run_decision (DSetState id p st from_state) c).
Proof using save_total transfers_total clear_total.
  intros Hok. cbn [run_decision]. unfold set_shard_replica_state. rewrite get_bind.
  pose proof (view_shard c id) as Hview. destruct (get_set id c) as [r|] eqn:Hr; cbn [fmap option_fmap option_map] in Hview;
    [|apply obeys_fails; unfold accepted; by rewrite Hview].
  change (peer_state r p) with (peers (rs_state r) !! p).
  destruct (bool_decide (is_Some from_state) && _) eqn:Hf; [apply obeys_fails; unfold accepted; by rewrite Hview, Hf|].
  destruct (bool_decide (st ≠ Active) && _) eqn:Hs; [apply obeys_fails; unfold accepted; by rewrite Hview, Hf, Hs|].
  apply obeys_done; [unfold accepted; by rewrite Hview, Hf, Hs|].
  apply sm_wp_bind. pose proof (set_wp id _ _ c c (view c) _ r Hr (shows_self c Hok) (ensure_changes p st r)) as Hset.
  eapply sm_wp_mono; [exact Hset| |done]. intros u1 c1 [H1 _]. apply sm_wp_bind. unfold sm_wp at 1, sm_get. apply sm_wp_bind.
  apply (sm_wp_mono _ (λ _, shows c (decided (DSetState id p st from_state) (view c))) _ (λ _ _, True) (λ _ _, True)); [|intros u2 c2 H2|done].
  - cbn [decided]. destruct (decide (st = Dead)); [|by apply sm_wp_ret].
    assert (get_related_transfers id p (co_holder c1) = related id p (view c).2) as ->.
    { unfold get_related_transfers, related. destruct H1 as (_ & _ & Hv). apply (f_equal snd) in Hv. cbn in Hv. by rewrite Hv. }
    by apply abort_all_wp.
  - apply sm_wp_bind. eapply sm_wp_mono; [apply (outside_wp _ c); [|exact H2]; intros c3; by destruct (negb (co_initialized c3) && is_all_active c3)| |done].
    intros u3 c3 H3. apply outside_wp; [|exact H3]. intros c4. destruct (decide (st = Dead ∧ _)); [|done].
    by destruct (get_set id c4 ≫= _) as [[q y]|].
Qed.

Lemma remove_obeys id p c : coll_ok c → obeys (DRemove id p) c (run_decision (DRemove id p) c).
Proof using save_total clear_total.
  intros Hok. cbn [run_decision]. unfold handle_replica_changes. cbn [sm_for].
  assert (∀ m : sm C CollectionError unit, obeys (DRemove id p) c (m c) → obeys (DRemove id p) c ((_ ← m; mret tt) c)) as Hlast.
  { intros m. unfold obeys, mbind, sm_bind. by destruct (m c) as [[[]|e|] c']. }
  apply Hlast. unfold handle_replica_change. rewrite get_bind.
  pose proof (view_shard c id) as Hview. destruct (get_set id c) as [r|] eqn:Hr; cbn [fmap option_fmap option_map] in Hview;
    [|apply obeys_fails; unfold accepted; by rewrite Hview].
  destruct (decide (peers (rs_state r) !! p = None)) as [Hp|Hp]; [apply obeys_fails; unfold accepted; by rewrite Hview, bool_decide_true|].
  destruct (decide (size (peers (rs_state r)) = 1)) as [Hs|Hs].
  { apply obeys_fails. unfold accepted. by rewrite Hview, (bool_decide_true (size _ = 1)), andb_false_r. }
  apply obeys_done; [unfold accepted; by rewrite Hview, !bool_decide_false|].
  eapply sm_wp_mono; [exact (set_remove_peer_wp id p c c (view c) r Hr (shows_self c Hok))| |done]. by intros u c1 [H1 _].
Qed.

Lemma run_obeys d c :
  coll_ok c → (∀ t, d = DTransfer (TransferFinish t) → receiver_ready t c) → obeys d c (run_decision d c).
Proof using save_total transfers_total clear_total.
  intros Hok Hready. destruct d as [op|id p st from_state|id p]; [|by apply set_state_obeys|by apply remove_obeys].
  apply handle_transfer_obeys; [done|]. intros t ->. by apply Hready.
Qed.
(** *** Sequences of decisions *)

Definition replay (ds : list Decided) c : C := fold_left (λ c d, (run_decision d c).2) ds c.

(** What the consensus makes of a view. *)
Definition decide_all (ds : list Decided) (v : View) : View :=
  fold_left (λ v d, if accepted d v then decided d v else v) ds v.

(** No decision that passes its checks fails on this peer, and the peer that a
    finished transfer went to has its shard. *)
Fixpoint undisturbed (ds : list Decided) c : Prop :=
  match ds with
  | [] => True
  | d :: ds =>
      (∀ t, d = DTransfer (TransferFinish t) → receiver_ready t c) ∧
      (accepted d (view c) = true → ∀ e, (run_decision d c).1 ≠ Err e) ∧ undisturbed ds (run_decision d c).2
  end.

Lemma replay_refines ds c : coll_ok c → undisturbed ds c → coll_ok (replay ds c) ∧ view (replay ds c) = decide_all ds (view c).
Proof using save_total transfers_total clear_total.
  revert c. induction ds as [|d ds IH]; intros c Hok; [done|]. intros (Hready & Herr & Hds). cbn [replay decide_all fold_left].
  pose proof (run_obeys d c Hok Hready) as Hobeys. unfold obeys in Hobeys. fold (replay ds (run_decision d c).2).
  destruct (run_decision d c) as [[[]|e|] c'] eqn:Hrun; cbn [fst snd] in *; [| |done].
  - destruct Hobeys as [-> (Hok' & _ & <-)]. by apply IH.
  - destruct (accepted d (view c)); [by destruct (Herr eq_refl e)|]. rewrite (Hobeys eq_refl) in *. by apply IH.
Qed.
End refines.

Section agreement.
Context {R1 R2 L : Type}.
Context (collection_id : string) (display_shard : ShardId → string) (display_peer : PeerId → string)
  (display_state : option ReplicaState → string) (all_peers : gset PeerId).

(** What may differ from peer to peer: whether states, transfers and the removal
    of files succeed, and what a transfer task says when it is stopped. *)
Record Outcomes := mkOutcomes {
  out_save : ReplicaSetState → result CollectionError unit;
  out_transfers : gset ShardTransfer → result CollectionError unit;
  out_clear : result CollectionError unit;
  out_stopped : option bool;
}.

Definition no_panics (o : Outcomes) : Prop :=
  (∀ st, out_save o st ≠ Panic) ∧ (∀ ts, out_transfers o ts ≠ Panic) ∧ out_clear o ≠ Panic.

Abbreviation run o := (run_decision (R1:=R1) (R2:=R2) (L:=L) collection_id display_shard display_peer display_state
  (out_save o) (out_transfers o) (out_clear o) all_peers (out_stopped o)).
Abbreviation replayed o := (replay (R1:=R1) (R2:=R2) (L:=L) collection_id display_shard display_peer display_state
  (out_save o) (out_transfers o) (out_clear o) all_peers (out_stopped o)).
Abbreviation undisturbed_by o := (undisturbed (R1:=R1) (R2:=R2) (L:=L) collection_id display_shard display_peer display_state
  (out_save o) (out_transfers o) (out_clear o) all_peers (out_stopped o)).

(** C12: the peers of a cluster agree on the replicas.  Every peer applies the
    decisions of the consensus to its own copy of a collection: starts, ends and
    aborts of shard transfers, states and removals of replicas.  What it does
    depends on its role: the source of a transfer drops or unwraps its shard,
    the receiver activates its own, the others change their routes.  Yet after
    any sequence of decisions two peers that started with the same replicas and
    transfers have the same ones: those that the decisions determine, a decision
    that does not pass its checks changing nothing.  One decision alone never
    panics, and if it succeeds passes its checks.  Assumed: no decision that
    passes the checks fails (to save a state, say, or to unwrap a shard) on
    either peer, and the receiver of a transfer that ends has its shard. *)
Theorem peers_agree (o1 o2 : Outcomes) (ds : list Decided) (c1 c2 : Coll R1 R2 L)
  (Hp1 : no_panics o1) (Hp2 : no_panics o2) (Hok1 : coll_ok c1) (Hok2 : coll_ok c2) (Hsame : view c1 = view c2)
  (H1 : undisturbed_by o1 ds c1) (H2 : undisturbed_by o2 ds c2) :
  view (replayed o1 ds c1) = decide_all display_shard display_peer all_peers ds (view c1) ∧
  view (replayed o2 ds c2) = view (replayed o1 ds c1) ∧
  ∀ d, (∀ t, d = DTransfer (TransferFinish t) → receiver_ready t c1) →
    (run o1 d c1).1 ≠ Panic ∧ ((run o1 d c1).1 = Ok tt → accepted display_shard display_peer all_peers d (view c1) = true).
Proof using.
  destruct Hp1 as (Hs1 & Ht1 & Hc1), Hp2 as (Hs2 & Ht2 & Hc2).
  assert (view (replayed o1 ds c1) = decide_all display_shard display_peer all_peers ds (view c1)) as Hr1
    by (eapply replay_refines; done).
  assert (view (replayed o2 ds c2) = decide_all display_shard display_peer all_peers ds (view c2)) as Hr2
    by (eapply replay_refines; done).
  split; [done|]. split; [by rewrite Hr1, Hr2, Hsame|]. intros d Hready.
  pose proof (run_obeys collection_id display_shard display_peer display_state (out_save o1) (out_transfers o1) (out_clear o1)
    all_peers (out_stopped o1) Hs1 Ht1 Hc1 d c1 Hok1 Hready) as Hobeys. unfold obeys in Hobeys.
  destruct (run o1 d c1) as [[[]|e|] c']; [by destruct Hobeys|done|done].
Qed.
End agreement.

(** ** Witness *)

(** A shard with active replicas on the peers 1 and 2 is copied to peer 3, which
    has made room for it; a second transfer to peer 3 is refused; then the
    replica of peer 2 fails. *)
Definition cluster_peers : gmap PeerId ReplicaState := {[ 1%N := Active; 2%N := Active; 3%N := Partial ]}.
Definition cluster_config : CollectionConfig :=
  mkCollectionConfig (mkCollectionParams (VectorsSingle (mkVectorParams 2 Dot None None)) 1 3 1 false) default_hnsw_config
    (mkOptimizersConfig (S754_zero false) 100 0 None None 20000 5 1) default_wal_config None.
Definition copy_of (this : PeerId) (remotes : list PeerId) : Coll unit unit nat :=
  mkColl (mkShardHolder {[ 0%N := mkReplicaSet (Some (SLocal 0)) remotes (mkReplicaSetState true this cluster_peers) ∅ [] ]} ∅ (Raw tt))
    this cluster_config ∅ true [] [].

Definition copying : list Decided := [
  DTransfer (TransferStart (mkShardTransfer 0 1 3 true)); DTransfer (TransferStart (mkShardTransfer 0 2 3 true));
  DTransfer (TransferFinish (mkShardTransfer 0 1 3 true)); DSetState 0 2 Dead (Some Active) ].

Definition calm : Outcomes := mkOutcomes (λ _, Ok tt) (λ _, Ok tt) (Ok tt) (Some true).

Lemma copy_ok this remotes : coll_ok (copy_of this remotes).
Proof. intros id r Hr. unfold get_set, copy_of in Hr. cbn in Hr. by apply lookup_singleton_Some in Hr as [_ <-]. Qed.

(** Each decision of [copying] in turn. *)
Ltac copied :=
  unfold copying; cbn [undisturbed]; repeat match goal with
  | |- _ ∧ _ => split
  | |- True => exact I
  | |- _ = true → ∀ e, _ ≠ Err e =>
      let Ha := fresh in let e := fresh in intros Ha e; first [vm_compute in Ha; discriminate Ha|vm_compute; discriminate]
  | |- ∀ t, _ = _ → receiver_ready t _ =>
      let Heq := fresh in let Hr := fresh in
      intros ? Heq; first [discriminate Heq|injection Heq as <-; intros _ _ ? Hr; vm_compute in Hr; injection Hr as <-; reflexivity]
  end.

Lemma peers_agree_witness :
  let replayed this remotes := replay (L:=nat) "c" (λ _, "0") show_peer (λ _, "state") (λ _, Ok tt) (λ _, Ok tt) (Ok tt)
    {[ 1%N; 2%N; 3%N ]} (Some true) copying (copy_of this remotes) in
  view (replayed 1%N [2%N; 3%N]) = ({[ 0%N := {[ 1%N := Active; 2%N := Dead; 3%N := Active ]} ]}, ∅) ∧
  view (replayed 3%N [1%N; 2%N]) = view (replayed 1%N [2%N; 3%N]).
Proof.
  intros replayed. split; [vm_compute; reflexivity|].
  apply (peers_agree "c" (λ _, "0") show_peer (λ _, "state") {[ 1%N; 2%N; 3%N ]} calm calm copying (copy_of 1 [2%N; 3%N]) (copy_of 3 [1%N; 2%N])).
  - split_and!; discriminate.
  - split_and!; discriminate.
  - apply copy_ok.
  - apply copy_ok.
  - vm_compute. reflexivity.
  - copied.
  - copied.
Defined.
