(* ===== verification/ShardLog.v ===== *)
(** * The log of a shard and its flushes

    Models the write-ahead log [lib/collection/src/wal.rs], the workers of
    [lib/collection/src/update_handler.rs] that apply operations and flush
    segments, and the update and the recovery of a local shard
    ([shards/local_shard_operations.rs], [shards/local_shard.rs]).

    The workers run concurrently: a step of [step] is what one of them does
    between two points where the other may run.  Of a segment only what
    flushing depends on is kept here, its [Cell]; [FlushCells] shows that the
    segments of [Segment] behave like their cells.  A cell carries the numbers
    of the operations whose changes are not on disk, which the program does
    not have.

    Not modelled: optimizers, which replace segments, and the channels between
    the workers beyond their order. *)

From stdpp Require Import base gmap strings list.
From Stdlib Require Import ZArith Lia.
From S2P Require Import Prelude Types SegmentHolder.

(** ** The log *)

(** Entries [first .. first + length - 1]; the crate [wal] removes a prefix of
    what may be removed, as far as whole files end there. *)
Record SerdeWal (R : Type) := mkSerdeWal {
  wal_first : N;
  wal_entries : list R;
}.
Arguments mkSerdeWal {R}.
Arguments wal_first {R}.
Arguments wal_entries {R}.

Section wal.
Context {R : Type}.
Implicit Types self : SerdeWal R.

Definition wal_next self : N := (wal_first self + N.of_nat (length (wal_entries self)))%N.

Definition wal_write (entity : R) self : N * SerdeWal R :=
  (wal_next self, mkSerdeWal (wal_first self) (wal_entries self ++ [entity])).

Definition wal_entry (idx : N) self : option R :=
  if (idx <? wal_first self)%N then None else wal_entries self !! N.to_nat (idx - wal_first self).

(** The iterator panics at an entry that is not there. *)
Definition wal_read {E} (start_from : N) self : list (result E (N * R)) :=
  (λ i, let idx := (start_from + N.of_nat i)%N in entity ← unwrap (wal_entry idx self); Ok (idx, entity))
    <$> seq 0 (N.to_nat (wal_next self - start_from)).

Definition wal_read_all {E} self : list (result E (N * R)) := wal_read (wal_first self) self.

(** [prefix_truncate]: entries before [until_index] may go. *)
Definition wal_ack (until_index : N) (self self' : SerdeWal R) : Prop :=
  ∃ k, self' = mkSerdeWal (wal_first self + N.of_nat k)%N (drop k (wal_entries self)) ∧
    k ≤ length (wal_entries self) ∧ (k = 0 ∨ (wal_first self + N.of_nat k ≤ until_index)%N).
End wal.

(** ** What flushing depends on *)

Inductive Job : Type :=
| JobRunning (state_version : option SeqNumberType)
| JobFinished (ok : bool).

Record Cell := mkCell {
  c_version : option SeqNumberType;
  c_persisted : option SeqNumberType;
  c_job : option Job;
}.

Definition set_job (job : option Job) (c : Cell) : Cell := mkCell (c_version c) (c_persisted c) job.

(** [handle_version], after an operation that changed the segment. *)
Definition cell_touch (op_num : SeqNumberType) (c : Cell) : Cell :=
  mkCell (Some (N.max op_num (default 0%N (c_version c)))) (c_persisted c) (c_job c).

(** [flush(false)]: [None] when a previous flush has failed. *)
Definition cell_flush (c : Cell) : option SeqNumberType * Cell :=
  let current_persisted_version := default 0%N (c_persisted c) in
  match c_job c with
  | Some (JobRunning _) => (Some current_persisted_version, c)
  | Some (JobFinished false) => (None, set_job None c)
  | Some (JobFinished true) | None =>
      match c_version c, c_persisted c with
      | None, _ => (Some current_persisted_version, set_job None c)
      | Some version, Some persisted_version =>
          if decide (version = persisted_version) then (Some persisted_version, set_job None c)
          else (Some current_persisted_version, set_job (Some (JobRunning (c_version c))) c)
      | Some _, None => (Some current_persisted_version, set_job (Some (JobRunning (c_version c))) c)
      end
  end.

(** The flush thread, which may fail. *)
Definition cell_background (ok : bool) (c : Cell) : Cell :=
  match c_job c with
  | Some (JobRunning version) => mkCell (c_version c) (if ok then version else c_persisted c) (Some (JobFinished ok))
  | _ => c
  end.

(** One iteration of the loop of [flush_all]. *)
Definition flush_account (segment_version segment_persisted_version : SeqNumberType) (acc : FlushAcc) : FlushAcc :=
  let unsaved := (segment_persisted_version <? segment_version)%N in
  mkFlushAcc (N.max (max_persisted_version acc) segment_persisted_version)
    (if unsaved then N.min (min_unsaved_version acc) segment_persisted_version else min_unsaved_version acc)
    (has_unsaved acc || unsaved).

Definition flush_result (acc : FlushAcc) : SeqNumberType :=
  if has_unsaved acc then min_unsaved_version acc else max_persisted_version acc.

(** [flush_segments]: no further than the first failed operation. *)
Definition min_failed (failed : gset SeqNumberType) (flushed_version : SeqNumberType) : SeqNumberType :=
  set_fold N.min flushed_version failed.

(** ** The workers *)

(** A segment with the operations whose changes are only in memory, and those
    of them that the running flush saves. *)
Record Tracked := mkTracked {
  t_cell : Cell;
  t_dirty : gset SeqNumberType;
  t_saving : gset SeqNumberType;
}.

Inductive FlushState : Type :=
| FlushIdle
| FlushRunning (rest : list SegmentId) (acc : FlushAcc) (since : SeqNumberType). (* [since]: the operation being applied when it began *)

Record Workers := mkWorkers {
  s_cells : gmap SegmentId Tracked;
  s_first : N; (* of the log *)
  s_next : N;
  s_started : N; (* the last operation the update worker has taken *)
  s_busy : bool; (* it is being applied *)
  s_failed : gset SeqNumberType;
  s_flush : FlushState;
}.

Definition set_cell (id : SegmentId) (t : Tracked) (s : Workers) : Workers :=
  mkWorkers (<[id := t]> (s_cells s)) (s_first s) (s_next s) (s_started s) (s_busy s) (s_failed s) (s_flush s).
Definition set_flush (f : FlushState) (s : Workers) : Workers :=
  mkWorkers (s_cells s) (s_first s) (s_next s) (s_started s) (s_busy s) (s_failed s) f.

Definition flush_cell (t : Tracked) : option SeqNumberType * Tracked :=
  let '(r, c) := cell_flush (t_cell t) in
  (r, mkTracked c (t_dirty t) (match c_job (t_cell t), c_job c with
                               | Some (JobRunning _), _ => t_saving t
                               | _, Some (JobRunning _) => t_dirty t
                               | _, _ => ∅
                               end)).

Definition background_cell (ok : bool) (t : Tracked) : Tracked :=
  mkTracked (cell_background ok (t_cell t))
    (match c_job (t_cell t) with Some (JobRunning _) => if ok then t_dirty t ∖ t_saving t else t_dirty t | _ => t_dirty t end)
    (match c_job (t_cell t) with Some (JobRunning _) => ∅ | _ => t_saving t end).

Definition touch_cell (op_num : SeqNumberType) (t : Tracked) : Tracked :=
  mkTracked (cell_touch op_num (t_cell t)) ({[ op_num ]} ∪ t_dirty t) (t_saving t).

(** No flush of the segment has taken this operation for saved. *)
Definition untaken (op_num : SeqNumberType) (c : Cell) : Prop :=
  (∀ v, c_persisted c = Some v → (v < op_num)%N) ∧ (∀ v, c_job c = Some (JobRunning (Some v)) → (v < op_num)%N).

(** [once]: operations do not write a segment again after a flush has taken their number. *)
Inductive step (once : Prop) (s : Workers) : Workers → Prop :=
| StepAppend :
    step once s (mkWorkers (s_cells s) (s_first s) (s_next s + 1)%N (s_started s) (s_busy s) (s_failed s) (s_flush s))
| StepTake :
    s_busy s = false → (s_started s + 1 < s_next s)%N →
    step once s (mkWorkers (s_cells s) (s_first s) (s_next s) (s_started s + 1)%N true (s_failed s) (s_flush s))
| StepTouch id t :
    s_busy s = true → s_cells s !! id = Some t → (once → untaken (s_started s) (t_cell t)) →
    step once s (set_cell id (touch_cell (s_started s) t) s)
| StepDone (ok : bool) :
    s_busy s = true →
    step once s (mkWorkers (s_cells s) (s_first s) (s_next s) (s_started s) false
      (if ok then s_failed s else {[ s_started s ]} ∪ s_failed s) (s_flush s))
| StepBackground id t (ok : bool) :
    s_cells s !! id = Some t → step once s (set_cell id (background_cell ok t) s)
| StepFlush order :
    s_flush s = FlushIdle → (∀ id, id ∈ order ↔ is_Some (s_cells s !! id)) → NoDup order →
    step once s (set_flush (FlushRunning order (mkFlushAcc 0 u64_max false) (s_started s)) s)
| StepVisit id rest acc since t v t' :
    s_flush s = FlushRunning (id :: rest) acc since → s_cells s !! id = Some t → flush_cell t = (Some v, t') →
    step once s (set_cell id t' (set_flush (FlushRunning rest (flush_account (default 0%N (c_version (t_cell t))) v acc) since) s))
| StepFlushFails id rest acc since t t' :
    s_flush s = FlushRunning (id :: rest) acc since → s_cells s !! id = Some t → flush_cell t = (None, t') →
    step once s (set_cell id t' (set_flush FlushIdle s))
| StepAck acc since first' :
    s_flush s = FlushRunning [] acc since →
    (s_first s ≤ first' ≤ N.max (s_first s) (min_failed (s_failed s) (flush_result acc)))%N →
    step once s (mkWorkers (s_cells s) first' (s_next s) (s_started s) (s_busy s) (s_failed s) FlushIdle).

Inductive reachable (once : Prop) (s0 : Workers) : Workers → Prop :=
| ReachStart : reachable once s0 s0
| ReachStep s s' : reachable once s0 s → step once s s' → reachable once s0 s'.

(** ** Nothing is removed from the log that is only in memory *)

(** The log has the operations that are not on disk, and those not applied. *)
Definition log_covers (s : Workers) : Prop :=
  (∀ id t n, s_cells s !! id = Some t → n ∈ t_dirty t → (s_first s ≤ n)%N) ∧
  (∀ n, n ∈ s_failed s → (s_first s ≤ n)%N) ∧
  (s_first s ≤ s_started s)%N.

Definition version_lt (v : option SeqNumberType) (n : SeqNumberType) : Prop := ∀ p, v = Some p → (p < n)%N.

(** Up to [n], the operations the update worker has taken. *)
Record tracked_ok (n : N) (t : Tracked) : Prop := {
  tr_version : (default 0 (c_version (t_cell t)) ≤ n)%N;
  tr_persisted : (default 0 (c_persisted (t_cell t)) ≤ n)%N;
  tr_job v : c_job (t_cell t) = Some (JobRunning v) → (default 0 v ≤ n)%N;
  tr_dirty m : m ∈ t_dirty t → (0 < m ≤ default 0 (c_version (t_cell t)))%N ∧ version_lt (c_persisted (t_cell t)) m;
  tr_saving v m : c_job (t_cell t) = Some (JobRunning v) → m ∈ t_dirty t → m ∉ t_saving t → version_lt v m;
}.

(** The accounts of a flush that began while [since] was being applied. *)
Definition flush_covers (rest : list SegmentId) (acc : FlushAcc) (since : N) (cells : gmap SegmentId Tracked) : Prop :=
  (max_persisted_version acc ≤ since)%N ∧ (has_unsaved acc = true → (min_unsaved_version acc ≤ since)%N) ∧
  ∀ id t, cells !! id = Some t →
    if decide (id ∈ rest)
    then (default 0 (c_persisted (t_cell t)) ≤ since)%N ∧ ∀ v, c_job (t_cell t) = Some (JobRunning v) → (default 0 v ≤ since)%N
    else (∀ n, n ∈ t_dirty t → (since ≤ n)%N) ∨
      (has_unsaved acc = true ∧ ∀ n, n ∈ t_dirty t → (min_unsaved_version acc ≤ n)%N).

Definition base_ok (s : Workers) : Prop :=
  log_covers s ∧ (s_busy s = true → (0 < s_started s)%N) ∧
  ∀ id t, s_cells s !! id = Some t → tracked_ok (s_started s) t.

Definition flush_ok (f : FlushState) (s : Workers) : Prop :=
  match f with
  | FlushIdle => True
  | FlushRunning rest acc since =>
      (since ≤ s_started s)%N ∧ NoDup rest ∧ (∀ id, id ∈ rest → is_Some (s_cells s !! id)) ∧
      flush_covers rest acc since (s_cells s)
  end.

Definition workers_ok (s : Workers) : Prop := base_ok s ∧ flush_ok (s_flush s) s.

Lemma tracked_mono n n' t : (n ≤ n')%N → tracked_ok n t → tracked_ok n' t.
Proof.
  intros Hn [Hv Hp Hj Hd Hs]. split; [lia|lia|intros v Hv'; specialize (Hj v Hv'); lia|done|done].
Qed.

Lemma tracked_touch n t :
  (0 < n)%N → untaken n (t_cell t) → tracked_ok n t → tracked_ok n (touch_cell n t).
Proof.
  intros Hn [Hup Huj] [Hv Hp Hj Hd Hs]. split; cbn; [lia|done|done| |].
  - intros m [->%elem_of_singleton|Hm]%elem_of_union; [split; [lia|done]|]. destruct (Hd m Hm). split; [lia|done].
  - intros v m Hjob [->%elem_of_singleton|Hm]%elem_of_union Hnot; [|by apply (Hs v m)].
    intros p ->. by apply Huj.
Qed.

Lemma tracked_background n ok t : tracked_ok n t → tracked_ok n (background_cell ok t).
Proof.
  intros [Hv Hp Hj Hd Hs]. unfold background_cell, cell_background.
  destruct (c_job (t_cell t)) as [[v|ok']|] eqn:Hjob; [|split; cbn; rewrite ?Hjob; try done..].
  specialize (Hj v eq_refl). split; cbn; [done|by destruct ok|done| |done]. intros m Hm.
  destruct ok; [|by apply Hd]. apply elem_of_difference in Hm as [Hm Hnot].
  split; [by apply Hd|by apply (Hs v m)].
Qed.

(** A flush leaves the changes and what it reports as it found them. *)
Lemma tracked_flush n t r t' :
  flush_cell t = (r, t') → tracked_ok n t →
  tracked_ok n t' ∧ t_dirty t' = t_dirty t ∧ ∀ v, r = Some v → v = default 0%N (c_persisted (t_cell t)).
Proof.
  intros Hf [Hv Hp Hj Hd Hs]. unfold flush_cell, cell_flush, set_job in Hf.
  repeat case_match; simplify_eq/=; (split; [|by split; [|intros ? [= <-]]]).
  all: split; cbn; try done.
  all: try (intros v' [= <-]; done).
  all: by match goal with H : c_job _ = _ |- _ => rewrite H end.
Qed.

(** Whoever writes a segment, what the flush in progress has seen stays covered. *)
Lemma flush_covers_set rest acc since cells id t t' :
  cells !! id = Some t → flush_covers rest acc since cells →
  ((default 0 (c_persisted (t_cell t)) ≤ since)%N ∧ (∀ v, c_job (t_cell t) = Some (JobRunning v) → (default 0 v ≤ since)%N) →
   (default 0 (c_persisted (t_cell t')) ≤ since)%N ∧ ∀ v, c_job (t_cell t') = Some (JobRunning v) → (default 0 v ≤ since)%N) →
  (∀ n, n ∈ t_dirty t' → n ∈ t_dirty t ∨ (since ≤ n)%N) →
  flush_covers rest acc since (<[id := t']> cells).
Proof.
  intros Hid (Hmax & Hmin & Hc) Hrest Hnew. split_and!; [done|done|]. intros id' t'' Hl.
  destruct (decide (id' = id)) as [->|Hne]; [|by rewrite lookup_insert_ne in Hl by done; apply Hc].
  rewrite lookup_insert_eq in Hl. injection Hl as <-. specialize (Hc id t Hid).
  case_decide; [by apply Hrest|]. destruct Hc as [Hc|[Hu Hc]].
  - left. intros n Hn. destruct (Hnew n Hn); auto.
  - right. split; [done|]. intros n Hn. specialize (Hmin Hu). destruct (Hnew n Hn) as [?|]; [by apply Hc|lia].
Qed.

Lemma background_covered rest acc since cells id t ok :
  cells !! id = Some t → flush_covers rest acc since cells →
  flush_covers rest acc since (<[id := background_cell ok t]> cells).
Proof.
  intros Hid Hc. apply (flush_covers_set _ _ _ _ _ t); [done|done| |].
  - unfold background_cell, cell_background. destruct (c_job (t_cell t)) as [[v|]|] eqn:Hjob; cbn; rewrite ?Hjob; try done.
    intros [Hp Hj]. split; [|done]. destruct ok; [by apply Hj|done].
  - intros n. unfold background_cell. destruct (c_job (t_cell t)) as [[v|]|]; [destruct ok|..]; set_solver.
Qed.

(** Visiting a segment. *)
Lemma visit_covered id rest acc since cells n t v t' :
  NoDup (id :: rest) → cells !! id = Some t → tracked_ok n t → flush_cell t = (Some v, t') →
  flush_covers (id :: rest) acc since cells →
  flush_covers rest (flush_account (default 0%N (c_version (t_cell t))) v acc) since (<[id := t']> cells).
Proof.
  intros [Hni _]%NoDup_cons Hid Ht Hf (Hmax & Hmin & Hc).
  destruct (tracked_flush _ _ _ _ Hf Ht) as (_ & Hdirty & Hv). specialize (Hv v eq_refl).
  pose proof (Hc id t Hid) as Hi. rewrite decide_True in Hi by left. destruct Hi as [Hp _].
  unfold flush_account. split_and!; cbn; [lia| |].
  - destruct (N.ltb_spec v (default 0%N (c_version (t_cell t)))) as [Hlt|_]; [lia|].
    rewrite orb_false_r. done.
  - intros id' t'' Hl. destruct (decide (id' = id)) as [->|Hne].
    + rewrite lookup_insert_eq in Hl. injection Hl as <-. rewrite decide_False by done. rewrite Hdirty.
      destruct (N.ltb_spec v (default 0%N (c_version (t_cell t)))) as [Hlt|Hge].
      * right. split; [apply orb_true_r|]. intros m Hm. destruct (tr_dirty _ _ Ht m Hm) as [[] Hlt'].
        destruct (c_persisted (t_cell t)) as [p|] eqn:Hpt; cbn in *; [specialize (Hlt' p eq_refl)|]; lia.
      * left. intros m Hm. destruct (tr_dirty _ _ Ht m Hm) as [[] Hlt'].
        destruct (c_persisted (t_cell t)) as [p|] eqn:Hpt; cbn in *; [specialize (Hlt' p eq_refl)|]; lia.
    + rewrite lookup_insert_ne in Hl by done. specialize (Hc id' t'' Hl).
      destruct (decide (id' ∈ rest)) as [Hin|Hnin]; [by rewrite decide_True in Hc by by right|].
      rewrite decide_False in Hc by set_solver. destruct Hc as [Hc|[Hu Hc]]; [by left|right].
      rewrite Hu. split; [done|]. intros m Hm. specialize (Hc m Hm). case_match; lia.
Qed.

Lemma min_failed_le failed v : (min_failed failed v ≤ v)%N ∧ ∀ n, n ∈ failed → (min_failed failed v ≤ n)%N.
Proof.
  unfold min_failed. apply (set_fold_ind_L (λ b X, (b ≤ v)%N ∧ ∀ n, n ∈ X → (b ≤ n)%N)); [set_solver by lia|].
  intros x X b _ [Hb HX]. split; [lia|]. intros n [->%elem_of_singleton|Hn]%elem_of_union; [lia|].
  specialize (HX n Hn). lia.
Qed.

(** What a finished flush confirms. *)
Lemma result_covered acc since cells :
  flush_covers [] acc since cells →
  (flush_result acc ≤ since)%N ∧ ∀ id t n, cells !! id = Some t → n ∈ t_dirty t → (flush_result acc ≤ n)%N.
Proof.
  intros (Hmax & Hmin & Hc). unfold flush_result. split; [case_match; auto|]. intros id t n Hid Hn.
  specialize (Hc id t Hid). rewrite decide_False in Hc by set_solver.
  destruct Hc as [Hc|[Hu Hc]]; [specialize (Hc n Hn)|rewrite Hu; auto]. destruct (has_unsaved acc) eqn:Hu; [specialize (Hmin eq_refl)|]; lia.
Qed.

(** *** The invariant *)

Lemma base_set_cell s id t t' :
  base_ok s → s_cells s !! id = Some t → tracked_ok (s_started s) t' →
  (∀ n, n ∈ t_dirty t' → n ∈ t_dirty t ∨ n = s_started s) → base_ok (set_cell id t' s).
Proof.
  intros ((Hdirty & Hfailed & Hstarted) & Hbusy & Htr) Hid Ht' Hnew. split_and!; cbn; [|done|].
  - split_and!; cbn; [|done|done]. intros id' u n Hl Hn. destruct (decide (id' = id)) as [->|Hne].
    + rewrite lookup_insert_eq in Hl. injection Hl as <-. destruct (Hnew n Hn) as [?| ->]; eauto.
    + rewrite lookup_insert_ne in Hl by done. eauto.
  - intros id' u Hl. destruct (decide (id' = id)) as [->|Hne].
    + rewrite lookup_insert_eq in Hl. by injection Hl as <-.
    + rewrite lookup_insert_ne in Hl by done. eauto.
Qed.

Lemma flush_set_cell s id t t' f :
  flush_ok f s → s_cells s !! id = Some t →
  (∀ rest acc since, f = FlushRunning rest acc since → flush_covers rest acc since (s_cells s) → (since ≤ s_started s)%N →
    flush_covers rest acc since (<[id := t']> (s_cells s))) →
  flush_ok f (set_cell id t' s).
Proof.
  intros Hf Hid Hc. destruct f as [|rest acc since]; [done|]. destruct Hf as (Hs & Hnd & Hin & Hcov).
  split_and!; [done|done| |by apply Hc]. intros id' Hid'. cbn. rewrite lookup_insert_is_Some.
  destruct (decide (id = id')); auto.
Qed.

Lemma touch_ok s id t :
  workers_ok s → s_busy s = true → s_cells s !! id = Some t → untaken (s_started s) (t_cell t) →
  workers_ok (set_cell id (touch_cell (s_started s) t) s).
Proof.
  intros [Hb Hf] Hbusy Hid Hun. assert (0 < s_started s)%N as Hpos by by apply Hb.
  assert (∀ n, n ∈ t_dirty (touch_cell (s_started s) t) → n ∈ t_dirty t ∨ n = s_started s) as Hnew
    by (intros n [->%elem_of_singleton|Hn]%elem_of_union; auto).
  split.
  - apply (base_set_cell _ _ t); [done|done| |done]. apply tracked_touch; [done|done|]. by apply (proj2 (proj2 Hb) id).
  - apply (flush_set_cell _ _ t); [done|done|]. intros rest acc since _ Hcov Hs.
    apply (flush_covers_set _ _ _ _ _ t); [done|done|done|]. intros n Hn. destruct (Hnew n Hn) as [?| ->]; auto.
Qed.

Lemma background_ok s id t ok :
  workers_ok s → s_cells s !! id = Some t → workers_ok (set_cell id (background_cell ok t) s).
Proof.
  intros [Hb Hf] Hid. split.
  - apply (base_set_cell _ _ t); [done|done| |].
    + apply tracked_background. by apply (proj2 (proj2 Hb) id).
    + intros n. unfold background_cell. destruct (c_job (t_cell t)) as [[v|]|]; [destruct ok|..]; set_solver.
  - apply (flush_set_cell _ _ t); [done|done|]. intros rest acc since _ Hcov _. by apply background_covered.
Qed.

(** One segment of a flush, whatever comes of it. *)
Lemma visit_ok s id rest acc since t r t' f' :
  workers_ok s → s_flush s = FlushRunning (id :: rest) acc since → s_cells s !! id = Some t → flush_cell t = (r, t') →
  match r with
  | Some v => f' = FlushRunning rest (flush_account (default 0%N (c_version (t_cell t))) v acc) since
  | None => f' = FlushIdle
  end → workers_ok (set_cell id t' (set_flush f' s)).
Proof.
  intros [Hb Hf] Hrun Hid Hfl Hf'. pose proof (proj2 (proj2 Hb) id t Hid) as Ht.
  destruct (tracked_flush _ _ _ _ Hfl Ht) as (Ht' & Hdirty & _). split.
  - apply (base_set_cell _ _ t); [done|done|done|]. rewrite Hdirty. auto.
  - destruct r as [v|]; subst f'; [|done]. rewrite Hrun in Hf. destruct Hf as (Hs & Hnd & Hin & Hcov).
    split_and!; cbn; [done|by apply NoDup_cons in Hnd as []| |].
    + intros id' Hid'. rewrite lookup_insert_is_Some. destruct (decide (id = id')); [auto|]. right. split; [done|]. apply Hin. by right.
    + by apply (visit_covered _ _ _ _ _ (s_started s) _ _ _ Hnd).
Qed.

Lemma ack_ok s acc since first' :
  workers_ok s → s_flush s = FlushRunning [] acc since →
  (s_first s ≤ first' ≤ N.max (s_first s) (min_failed (s_failed s) (flush_result acc)))%N →
  workers_ok (mkWorkers (s_cells s) first' (s_next s) (s_started s) (s_busy s) (s_failed s) FlushIdle).
Proof.
  intros [((Hdirty & Hfailed & Hstarted) & Hbusy & Htr) Hf] Hrun Hle. rewrite Hrun in Hf.
  destruct Hf as (Hs & _ & _ & Hcov). apply result_covered in Hcov as [Hres Hcov].
  destruct (min_failed_le (s_failed s) (flush_result acc)) as [Hm Hmf].
  split; [|done]. split_and!; cbn; [|done|done]. split_and!; cbn.
  - intros id t n Hid Hn. specialize (Hcov id t n Hid Hn). specialize (Hdirty id t n Hid Hn). lia.
  - intros n Hn. specialize (Hmf n Hn). specialize (Hfailed n Hn). lia.
  - lia.
Qed.

Lemma step_ok s s' : step True s s' → workers_ok s → workers_ok s'.
Proof.
  intros Hstep Hok. pose proof Hok as [((Hdirty & Hfailed & Hstarted) & Hbusy & Htr) Hfl].
  destruct Hstep as [|Hidle Hlt|id t Hb Hid Hun|ok Hb|id t ok Hid|order Hidle Hall Hnd
                    |id rest acc since t v t' Hrun Hid Hf|id rest acc since t t' Hrun Hid Hf|acc since first' Hrun Hle].
  - done.
  - split; [split_and!; cbn; [split_and!; cbn; [done|done|lia]|lia|]|].
    + intros id t Hid. apply (tracked_mono (s_started s)); [lia|eauto].
    + cbn. destruct (s_flush s); [done|]. destruct Hfl as (Hs & ?). split; [cbn; lia|done].
  - apply touch_ok; auto.
  - split; [|by destruct (s_flush s)]. split_and!; cbn; [split_and!; cbn; [done| |done]|done|done].
    intros n Hn. destruct ok; [auto|]. apply elem_of_union in Hn as [->%elem_of_singleton|Hn]; auto.
  - by apply background_ok.
  - split; [done|]. split_and!; cbn; [done|done|by intros id Hin; apply Hall|]. split_and!; cbn; [lia|done|].
    intros id t Hid. rewrite decide_True by (apply Hall; eauto). destruct (Htr id t Hid). auto.
  - by apply (visit_ok _ _ rest acc since t (Some v)).
  - by apply (visit_ok _ _ rest acc since t None).
  - by apply (ack_ok _ acc since).
Qed.

Definition fresh (s : Workers) : Prop :=
  log_covers s ∧ s_busy s = false ∧ s_flush s = FlushIdle ∧
  ∀ id t, s_cells s !! id = Some t → t_dirty t = ∅ ∧ c_job (t_cell t) = None ∧
    (default 0 (c_version (t_cell t)) ≤ s_started s)%N ∧ (default 0 (c_persisted (t_cell t)) ≤ s_started s)%N.

(** C3: the update worker and the flush worker never lose an operation
    together.  They run concurrently, in any interleaving: operations are
    written to the log, taken in order and applied to segments one write at a
    time, they may fail; a flush visits the segments one after another while
    operations go on, its threads finish or fail at any time, and what it
    confirms is removed from the log.  If no operation writes a segment again
    after a flush of that segment has taken its number, then at every moment
    the log still has each operation with a change that is only in memory,
    each failed operation, and everything not yet applied. *)
Theorem log_keeps_unsaved (s0 s : Workers) : fresh s0 → reachable True s0 s → log_covers s.
Proof.
  intros (Hlog & Hbusy & Hidle & Hcells) Hr. enough (workers_ok s) as [[? _] _] by done.
  induction Hr as [|s s' _ IH Hstep]; [|by apply (step_ok s)]. split; [split_and!; [done|congruence|]|by rewrite Hidle].
  intros id t Hid. destruct (Hcells id t Hid) as (Hd & Hj & Hv & Hp).
  split; [done|done|congruence|rewrite Hd; set_solver|congruence].
Qed.

(** ** Runs *)

Lemma reach_from once s0 s1 s : step once s0 s1 → reachable once s1 s → reachable once s0 s.
Proof. intros H01 Hr. induction Hr as [|s s' _ IH Hs]; [apply (ReachStep _ _ s0); [apply ReachStart|done]|by apply (ReachStep _ _ s)]. Qed.

Definition clean_cell (v : SeqNumberType) : Tracked := mkTracked (mkCell (Some v) (Some v) None) ∅ ∅.

(** Two segments, with everything up to operation 4 on disk. *)
Definition two_segments : Workers :=
  mkWorkers (<[1%N := clean_cell 4]> (<[2%N := clean_cell 4]> ∅)) 0 5 4 false ∅ FlushIdle.

Lemma two_segments_fresh : fresh two_segments.
Proof.
  split_and!; [|done|done|].
  - split_and!; cbn; [|set_solver|lia]. intros id t n Hid Hn. exfalso. revert Hid Hn.
    rewrite !lookup_insert_Some, lookup_empty. naive_solver set_solver.
  - intros id t. cbn. rewrite !lookup_insert_Some, lookup_empty. intros [[<- <-]|[_ [[<- <-]|[_ [=]]]]]; cbn; split_and!; done || lia.
Qed.

Ltac worker c := eapply reach_from; [eapply c; try done|unfold set_cell, set_flush; cbn].

(** Operation 5 is being applied to segment 1 when a flush begins, which
    confirms operation 4. *)
Lemma log_keeps_unsaved_witness : ∃ s, fresh two_segments ∧ reachable True two_segments s ∧ s_first s = 4%N ∧ log_covers s.
Proof.
  eassert (reachable True two_segments _) as Hr.
  { worker StepAppend. worker StepTake. eapply reach_from; [eapply (StepTouch _ _ 1%N); [done|done|]|].
    { intros _. split; intros v [= <-]. done. }
    unfold set_cell, set_flush; cbn. eapply reach_from; [apply (StepFlush _ _ [1%N; 2%N]); [done| |]|].
    { intros id. cbn. rewrite !lookup_insert_is_Some, lookup_empty, is_Some_alt. cbn. set_solver. }
    { repeat (constructor; [set_solver|]). constructor. }
    unfold set_flush; cbn. worker StepVisit. worker StepVisit.
    eapply reach_from; [eapply (StepAck _ _ _ _ 4%N); [done|]; vm_compute; done|]. cbn. apply ReachStart. }
  eexists. split_and!; [apply two_segments_fresh|exact Hr|done|].
  exact (log_keeps_unsaved _ _ two_segments_fresh Hr).
Defined.

(** The steps as a function, where operations may write a segment again. *)
Inductive Action : Type :=
| AAppend
| ATake
| ATouch (id : SegmentId)
| ADone (ok : bool)
| ABackground (id : SegmentId) (ok : bool)
| AFlush (order : list SegmentId)
| AVisit
| AAck (first' : N).

Definition act (a : Action) (s : Workers) : option Workers :=
  match a with
  | AAppend => Some (mkWorkers (s_cells s) (s_first s) (s_next s + 1) (s_started s) (s_busy s) (s_failed s) (s_flush s))
  | ATake =>
      if negb (s_busy s) && (s_started s + 1 <? s_next s)%N
      then Some (mkWorkers (s_cells s) (s_first s) (s_next s) (s_started s + 1) true (s_failed s) (s_flush s)) else None
  | ATouch id =>
      if s_busy s then (λ t, set_cell id (touch_cell (s_started s) t) s) <$> s_cells s !! id else None
  | ADone ok =>
      if s_busy s
      then Some (mkWorkers (s_cells s) (s_first s) (s_next s) (s_started s) false
             (if ok then s_failed s else {[ s_started s ]} ∪ s_failed s) (s_flush s)) else None
  | ABackground id ok => (λ t, set_cell id (background_cell ok t) s) <$> s_cells s !! id
  | AFlush order =>
      match s_flush s with
      | FlushIdle =>
          if decide (list_to_set order = dom (s_cells s) ∧ NoDup order)
          then Some (set_flush (FlushRunning order (mkFlushAcc 0 u64_max false) (s_started s)) s) else None
      | FlushRunning _ _ _ => None
      end
  | AVisit =>
      match s_flush s with
      | FlushRunning (id :: rest) acc since =>
          t ← s_cells s !! id;
          match flush_cell t with
          | (Some v, t') =>
              Some (set_cell id t' (set_flush (FlushRunning rest (flush_account (default 0%N (c_version (t_cell t))) v acc) since) s))
          | (None, t') => Some (set_cell id t' (set_flush FlushIdle s))
          end
      | _ => None
      end
  | AAck first' =>
      match s_flush s with
      | FlushRunning [] acc since =>
          if (s_first s <=? first')%N && (first' <=? N.max (s_first s) (min_failed (s_failed s) (flush_result acc)))%N
          then Some (mkWorkers (s_cells s) first' (s_next s) (s_started s) (s_busy s) (s_failed s) FlushIdle) else None
      | _ => None
      end
  end.

Lemma act_step a s s' : act a s = Some s' → step False s s'.
Proof.
  destruct a as [| |id|ok|id ok|order| |first']; cbn.
  - intros [= <-]. apply StepAppend.
  - destruct (s_busy s) eqn:Hb; [done|]. destruct (N.ltb_spec (s_started s + 1) (s_next s)); [|done]. intros [= <-]. by apply StepTake.
  - destruct (s_busy s) eqn:Hb; [|done]. intros (t & Ht & ->)%fmap_Some. by apply StepTouch.
  - destruct (s_busy s) eqn:Hb; [|done]. intros [= <-]. by apply StepDone.
  - intros (t & Ht & ->)%fmap_Some. by apply StepBackground.
  - destruct (s_flush s) eqn:Hf; [|done]. case_decide as Hd; [|done]. destruct Hd as [Hdom Hnd]. intros [= <-].
    apply StepFlush; [done| |done]. intros id. rewrite <-elem_of_dom, <-Hdom. by rewrite elem_of_list_to_set.
  - destruct (s_flush s) as [|[|id rest] acc since] eqn:Hf; [done|done|]. intros (t & Ht & Hv)%bind_Some.
    destruct (flush_cell t) as [[v|] t'] eqn:Hfl; injection Hv as <-; [by eapply StepVisit|by eapply StepFlushFails].
  - destruct (s_flush s) as [|[|id rest] acc since] eqn:Hf; [done| |done].
    destruct (N.leb_spec (s_first s) first'); [|done]. cbn. case_match eqn:Hle; [|done]. intros [= <-].
    apply (StepAck _ _ acc since); [done|]. by apply N.leb_le in Hle.
Qed.

Fixpoint acts (l : list Action) (s : Workers) : option Workers :=
  match l with [] => Some s | a :: l => act a s ≫= acts l end.

Lemma acts_reach l s s' : acts l s = Some s' → reachable False s s'.
Proof.
  revert s. induction l as [|a l IH]; cbn; intros s; [intros [= ->]; apply ReachStart|].
  intros (s1 & Hs1 & Hl)%bind_Some. apply (reach_from _ _ s1); [by apply (act_step a)|by apply IH].
Qed.

Definition flush_round (first' : N) : list Action := [AFlush [1%N; 2%N]; AVisit; AVisit; AAck first'].

Definition losing_run : list Action :=
  [AAppend; ATake; ATouch 1%N] ++ flush_round 4 ++ [ABackground 1%N true; ATouch 1%N; ADone true] ++
  [AAppend; ATake; ATouch 2%N; ADone true] ++ flush_round 4 ++ [ABackground 2%N true] ++ flush_round 6.

(** An operation that writes a segment twice, with a flush between, can be
    lost.  Without the restriction the workers reach a state where the log no
    longer has an operation with a change that is only in memory: operation 5
    writes segment 1, a flush saves the segment at version 5, the operation
    writes the segment again, which leaves it at version 5 and therefore
    unflushed, and once segment 2 is saved at version 6 the log is cut at 6. *)
Theorem log_loses_unsaved : ∃ s t, reachable False two_segments s ∧
  s_cells s !! 1%N = Some t ∧ 5%N ∈ t_dirty t ∧ s_first s = 6%N.
Proof.
  assert (match acts losing_run two_segments with
          | Some s => match s_cells s !! 1%N with Some t => bool_decide (5%N ∈ t_dirty t) && bool_decide (s_first s = 6%N) | None => false end
          | None => false end = true) as H by (vm_compute; reflexivity).
  destruct (acts losing_run two_segments) as [s|] eqn:Hs; [|done]. destruct (s_cells s !! 1%N) as [t|] eqn:Ht; [|done].
  apply andb_true_iff in H as [H5%bool_decide_eq_true H6%bool_decide_eq_true].
  exists s, t. split_and!; [by apply (acts_reach losing_run)|done..].
Qed.
