(* ===== verification/FlushCells.v ===== *)
(** * Segments as the flush worker sees them

    The cells of [ShardLog] are what flushing depends on in the segments of
    [Segment]: an operation, a flush and a flush thread of a segment are the
    functions of the same name on its cell.  The second theorem is the
    scenario in which the restriction of [ShardLog] fails. *)

From stdpp Require Import base gmap strings list.
From Stdlib Require Import ZArith Lia SpecFloat.
From S2P Require Import Prelude Types Rocks IdTracker NamedVectors VectorStorage Filters Spaces StructPayloadIndex Segment.
From S2P Require Import PayloadIndexLaws SegmentSpec SegmentEntry SegmentHolder Samples ShardLog.

Section flush_cells.
Context {Num T VI VS PI SP : Type} `{!JsonNumber Num} {HG : GeoOps} {HS : Simd}.
Context `{!IdTracker T} `{!VectorStorage VS} `{!PayloadIndex Num T PI} `{!VectorIndex T VS PI SP VI}.
Context (display_id : PointIdType → string) (outcome background : FlushStep → OperationResult unit).
Abbreviation Seg := (Segment T VI VS PI).
Abbreviation SegOp := (sm Seg OperationError).

Definition thread_job (thread : FlushThread) : Job :=
  match thread with
  | Running state => JobRunning (ss_version state)
  | Finished (Ok _) => JobFinished true
  | Finished _ => JobFinished false
  end.

Definition segment_cell (s : Seg) : Cell :=
  mkCell (seg_version s) (seg_persisted_version s) (thread_job <$> seg_flush_thread s).

(** The points are those of the other segment, and what is on disk. *)
Definition same_data (s s' : Seg) : Prop :=
  seg_id_tracker s' = seg_id_tracker s ∧ seg_vector_data s' = seg_vector_data s ∧
  seg_payload_index s' = seg_payload_index s ∧ seg_durable s' = seg_durable s.

(** Everything but the version is left to an operation. *)
Definition keeps_cell {A} (m : SegOp A) : Prop := ∀ s, segment_cell (m s).2 = segment_cell s ∧ seg_durable (m s).2 = seg_durable s.

Lemma cell_keeps_bind {A B} (m : SegOp A) (f : A → SegOp B) : keeps_cell m → (∀ a, keeps_cell (f a)) → keeps_cell (a ← m; f a).
Proof using.
  intros Hm Hf s. specialize (Hm s). unfold mbind, sm_bind. destruct (m s) as [[a|e|] s1]; cbn in *; [|done..].
  destruct (Hf a s1) as [-> ->]. done.
Qed.
Lemma cell_keeps_pure {A} (f : Seg → result OperationError A) : keeps_cell (λ s, (f s, s)).
Proof using. done. Qed.
Lemma cell_keeps_tracker {A} (m : sm T OperationError A) : keeps_cell (on_tracker m).
Proof using. intros s. unfold on_tracker, sm_zoom. by destruct (m (seg_id_tracker s)). Qed.
Lemma cell_keeps_payload {A} (m : sm PI OperationError A) : keeps_cell (on_payload_index m).
Proof using. intros s. unfold on_payload_index, sm_zoom. by destruct (m (seg_payload_index s)). Qed.
Lemma cell_keeps_vector {A} name (m : sm VS OperationError A) : keeps_cell (on_vector_storage name m).
Proof using. intros s. unfold on_vector_storage. destruct (seg_vector_data s !! name) as [vd|]; [|done]. by destruct (m (vd_storage vd)). Qed.
Lemma cell_keeps_for {X} (f : X → SegOp unit) l : (∀ x, keeps_cell (f x)) → keeps_cell (sm_for f l).
Proof using. intros Hf. induction l as [|x l IH]; cbn; [done|]. by apply cell_keeps_bind. Qed.

Lemma cell_keeps_upsert e vs o : keeps_cell (upsert_operation e vs o).
Proof using.
  unfold upsert_operation, update_vector. apply cell_keeps_bind; [done|]. intros segment. apply cell_keeps_bind; [done|]. intros pv.
  assert (∀ i pv, keeps_cell (sm_for (λ nv : string * VectorType, on_vector_storage nv.1 (insert_vector i nv.2)) pv)) as Hins
    by (intros; apply cell_keeps_for; intros; apply cell_keeps_vector).
  destruct o as [i|].
  - apply cell_keeps_bind; [|done]. apply cell_keeps_bind; [done|]. intros s0. apply cell_keeps_bind; [done|]. intros _. apply Hins.
  - apply cell_keeps_bind; [apply Hins|]. intros _. apply cell_keeps_bind; [apply cell_keeps_tracker|done].
Qed.

Lemma cell_keeps_delete e i : keeps_cell (delete_operation (Num:=Num) e i).
Proof using. apply cell_keeps_bind; [apply cell_keeps_payload|]. intros _. apply cell_keeps_bind; [apply cell_keeps_tracker|done]. Qed.

Lemma cell_keeps_update {A} e (update : PointOffsetType → sm PI OperationError A) o : keeps_cell (payload_operation e update o).
Proof using. destruct o as [i|]; [|done]. apply cell_keeps_bind; [apply cell_keeps_payload|done]. Qed.

(** What an operation may do to the cell: it succeeds and touches it, or leaves
    the data alone, or fails before the version is written. *)
Definition cell_step (n : SeqNumberType) (s : Seg) (run : OperationResult bool * Seg) : Prop :=
  seg_durable run.2 = seg_durable s ∧
  (segment_cell run.2 = cell_touch n (segment_cell s) ∨
   segment_cell run.2 = segment_cell s ∧ (same_data s run.2 ∨ ∀ b, run.1 ≠ Ok b)).

Lemma version_cell n o op s : keeps_cell op → cell_step n s (handle_version n o op s).
Proof using.
  intros Hop. unfold handle_version. specialize (Hop s). destruct (match o with None => _ | Some _ => _ end).
  { split; [done|]. by right; split; [|left]. }
  destruct (op s) as [[[b i]|e|] s2]; cbn in Hop; destruct Hop as [Hc Hd]; [|by split; [|right; split; [|right]]..].
  set (s3 := set_seg_version _ s2). assert (segment_cell s3 = cell_touch n (segment_cell s)) as H3.
  { subst s3. unfold segment_cell, cell_touch in *. cbn. by injection Hc as -> -> ->. }
  destruct i as [i|]; [|by split; [|left]]. destruct (cell_keeps_tracker (set_internal_version i n) s3) as [Ht Hdt].
  unfold mbind, sm_bind. destruct (on_tracker _ _) as [[u|e|] s4]; cbn in Ht, Hdt;
    (split; [cbn; rewrite Hdt; exact Hd|left; cbn; by rewrite Ht]).
Qed.

Lemma handle_cell n o op s : keeps_cell op → cell_step n s (handle_version_and_failure display_id n o op s).
Proof using.
  intros Hop. assert (cell_step n s (handle_and_record n o op s)) as Hrec.
  { unfold handle_and_record. pose proof (version_cell n o op s Hop) as Hs. destruct (handle_version n o op s) as [res s1].
    assert (∀ e, cell_step n s (res, set_error_status e s1)) as Hes by (intros e; exact Hs).
    unfold recover_error. destruct res as [b|e|]; [| |done]; repeat case_match; apply Hes || done. }
  unfold handle_version_and_failure. repeat case_match; try done.
  split; [done|]. right. split; [done|]. by right.
Qed.

Lemma op_cell n (op : seg_op Num) s : cell_step n s (run_seg_op display_id n op s).
Proof using.
  assert (∀ r, cell_step n s (r, s)) as Hsame by (intros r; split; [done|]; right; split; [done|]; left; done).
  destruct op as [e vs|e|e p|e p|e key|e]; cbn [run_seg_op].
  - unfold upsert_vector, mbind, sm_bind, sm_get, sm_lift. destruct (check_vectors_set _ _); [|done..]. apply handle_cell, cell_keeps_upsert.
  - unfold delete_point, mbind, sm_bind, sm_get. destruct (internal_id _ _); [|apply Hsame]. apply handle_cell, cell_keeps_delete.
  - apply handle_cell, cell_keeps_update.
  - apply handle_cell, cell_keeps_update.
  - apply handle_cell, cell_keeps_update.
  - apply handle_cell, cell_keeps_update.
Qed.

(** A flush that does not wait. *)
Lemma flush_cell_of s :
  let run := flush display_id outcome background false s in
  segment_cell run.2 = (cell_flush (segment_cell s)).2 ∧ same_data s run.2 ∧
  match (cell_flush (segment_cell s)).1 with Some v => run.1 = Ok v | None => ∃ e, run.1 = Err e end.
Proof using.
  unfold flush, lock_flushing, run_background, is_background_flushing, cell_flush, set_job, segment_cell, same_data.
  unfold mbind, sm_bind, sm_get, sm_modify, sm_fail, mret, sm_ret.
  destruct s as [v p t d pi af ty cfg es [[state|[w|e|]]|] dur]; cbn; try (by eauto 10).
  all: destruct v as [v|], p as [p|]; cbn; try (by eauto 10).
  all: case_decide; cbn; by eauto 10.
Qed.

(** The flush thread: when it succeeds, all of the segment is on disk. *)
Lemma background_cell_of s :
  let run := run_background display_id background s in
  ∃ ok, segment_cell run.2 = cell_background ok (segment_cell s) ∧
    seg_id_tracker run.2 = seg_id_tracker s ∧ seg_vector_data run.2 = seg_vector_data s ∧
    seg_payload_index run.2 = seg_payload_index s ∧
    (is_background_flushing s = true → ok = true → versions_durable s (seg_durable run.2)).
Proof using.
  intros run. subst run. unfold run_background, is_background_flushing, segment_cell, cell_background.
  destruct (seg_flush_thread s) as [[state|res]|] eqn:Ht; cbn;
    [|exists true; rewrite Ht; by destruct res|exists true; by rewrite Ht].
  destruct (flush_op_safe display_id background state s) as (r & s1 & Hr & [Hm _ _ _] & Hth & Hok & Herr). rewrite Hr. cbn.
  exists (match r with Ok _ => true | _ => false end).
  split_and!; [|by rewrite Hm|by rewrite Hm|by rewrite Hm|].
  - replace (seg_version s1) with (seg_version s) by (by rewrite Hm).
    destruct r as [v|e|]; [destruct (Hok v eq_refl) as (_ & -> & _)|rewrite Herr by done..]; done.
  - intros _. destruct r as [v|e|]; [|done..]. intros _. by destruct (Hok v eq_refl) as (_ & _ & ?).
Qed.

(** C20: the segments refine their cells.  Whatever a segment holds, an
    operation on a point either raises the version of the cell to its number,
    or leaves the cell and the data as they are, or fails; a flush that does
    not wait answers and changes the cell as [cell_flush] says and no data;
    the flush thread changes it as [cell_background] says, and when it succeeds
    every part of the segment is on disk. *)
Theorem segments_are_cells (n : SeqNumberType) (op : seg_op Num) (s : Seg) :
  cell_step n s (run_seg_op display_id n op s) ∧
  (let run := flush display_id outcome background false s in
   segment_cell run.2 = (cell_flush (segment_cell s)).2 ∧ same_data s run.2 ∧
   match (cell_flush (segment_cell s)).1 with Some v => run.1 = Ok v | None => ∃ e, run.1 = Err e end) ∧
  (let run := run_background display_id background s in
   ∃ ok, segment_cell run.2 = cell_background ok (segment_cell s) ∧
     seg_id_tracker run.2 = seg_id_tracker s ∧ seg_vector_data run.2 = seg_vector_data s ∧
     seg_payload_index run.2 = seg_payload_index s ∧
     (is_background_flushing s = true → ok = true → versions_durable s (seg_durable run.2))).
Proof using. split_and!; [apply op_cell|apply flush_cell_of..|apply background_cell_of]. Qed.

(** C15: a second write of an operation is never flushed on its own.  Operation
    [n] has written the segment, and a flush that took the segment at version
    [n] is running; it succeeds, and the operation writes the segment again (an
    upsert writes each existing point and then the new ones, and a flush may
    run in between).  The next flush answers that [n] is saved and starts
    nothing: what is on disk is the segment before the second write, while the
    caller is told that the log may be cut after [n]. *)
Theorem second_write_unsaved (n : SeqNumberType) (op : seg_op Num) (state : SegmentState) (s s1 s2 : Seg) (b : bool)
  (Hv : seg_version s = Some n) (Hrun : seg_flush_thread s = Some (Running state)) (Hstate : ss_version state = Some n)
  (Hbg : (run_background display_id background s).2 = s1) (Hok : ∃ v, seg_flush_thread s1 = Some (Finished (Ok v)))
  (Hop : run_seg_op display_id n op s1 = (Ok b, s2)) :
  ∃ s3, flush display_id outcome background false s2 = (Ok n, s3) ∧ seg_flush_thread s3 = None ∧
    same_data s2 s3 ∧ versions_durable s (seg_durable s3).
Proof using.
  destruct Hok as [v Hfin].
  destruct (background_cell_of s) as (ok & Hc & _ & _ & _ & Hdur). rewrite Hbg in *.
  unfold cell_background, segment_cell in Hc. cbn in Hc. rewrite Hrun, Hfin in Hc. cbn in Hc.
  injection Hc as Hv1 Hp1 <-. rewrite Hstate in Hp1. unfold is_background_flushing in Hdur. rewrite Hrun in Hdur.
  specialize (Hdur eq_refl eq_refl). pose proof (op_cell n op s1) as [Hd2 Hc2]. rewrite Hop in *. cbn in Hd2, Hc2.
  assert (segment_cell s2 = mkCell (Some n) (Some n) (Some (JobFinished true))) as Hcell.
  { destruct Hc2 as [->|[-> _]]; unfold cell_touch, segment_cell; cbn; rewrite Hfin, Hp1, Hv1, Hv; [|done].
    cbn. by rewrite N.max_id. }
  destruct (flush_cell_of s2) as (Hc3 & Hsame & Hr). rewrite Hcell in Hc3, Hr. unfold cell_flush in Hc3, Hr. cbn in Hc3, Hr.
  rewrite decide_True in Hc3, Hr by done. destruct (flush _ _ _ _ s2) as [r s3]. cbn in *. subst r. exists s3.
  split_and!; [done| |apply Hsame..|by destruct Hsame as (_ & _ & _ & ->); rewrite Hd2].
  unfold segment_cell, set_job in Hc3. cbn in Hc3. injection Hc3 as _ _ Ht. by destruct (seg_flush_thread s3).
Qed.
End flush_cells.

(** ** Witness *)

Import SampleInstances.

Abbreviation sample_run_flush := (flush no_display (λ _, Ok tt) (λ _, Ok tt) false).

(** Operation 5 updates point 7, the segment is flushed, and it inserts point 9. *)
Definition first_write : SampleSeg :=
  (sample_run_flush (run_seg_op no_display 5 (OpUpsert (NumId 7) [("", [f32_zero; f32_one])]) sample_segment).2).2.
Definition saved_write : SampleSeg := (run_background no_display (λ _, Ok tt) first_write).2.
Definition second_run : OperationResult bool * SampleSeg :=
  run_seg_op no_display 5 (OpUpsert (NumId 9) [("", [f32_one; f32_one])]) saved_write.

Lemma second_run_ok : second_run = (Ok false, second_run.2).
Proof.
  assert (second_run.1 = Ok false) as H by (vm_compute; reflexivity). revert H. generalize second_run.
  by intros [r s] [= ->].
Qed.

Lemma second_write_unsaved_witness :
  ∃ s3, sample_run_flush second_run.2 = (Ok 5%N, s3) ∧ internal_id (seg_id_tracker s3) (NumId 9) = Some 2 ∧
    (t ← dur_mapping (seg_durable s3); internal_id t (NumId 9)) = None ∧ is_Some (dur_mapping (seg_durable s3)).
Proof.
  destruct (second_write_unsaved no_display (λ _, Ok tt) (λ _, Ok tt) 5 (OpUpsert (NumId 9) [("", [f32_one; f32_one])])
    (get_state first_write) first_write saved_write second_run.2 false) as (s3 & Hf & _ & (Hid & _ & _ & _) & (Hm & _ & _) & _).
  - vm_compute. reflexivity.
  - vm_compute. reflexivity.
  - vm_compute. reflexivity.
  - reflexivity.
  - exists 5%N. vm_compute. reflexivity.
  - exact second_run_ok.
  - exists s3. split_and!; [exact Hf| | |].
    + rewrite Hid. vm_compute. reflexivity.
    + rewrite Hm. vm_compute. reflexivity.
    + rewrite Hm. by eexists.
Defined.
