(* ===== verification/Recovery.v ===== *)
(** * Updates and recovery of a local shard

    Models the update of a local shard ([shards/local_shard_operations.rs]), the
    worker that applies it and the recovery of failed operations
    ([update_handler.rs]), and the recovery of a shard from its log when it is
    loaded ([load_from_wal] of [shards/local_shard.rs]).

    The channels keep their order.  Whether the optimizers still listen is an
    argument; progress bars and messages of the log are left out. *)

From stdpp Require Import base gmap strings list.
From Stdlib Require Import ZArith Lia SpecFloat.
From S2P Require Import Prelude Types Rocks IdTracker NamedVectors VectorStorage Text Filters Spaces StructPayloadIndex Segment.
From S2P Require Import PayloadIndexLaws SegmentSpec SegmentEntry SegmentHolder Samples Operations SegmentsUpdater HolderSpec UpdaterSpec ShardLog ReplicaSet.

Section local_update.
Context {Num SP E : Type} `{!EqDecision Num} `{!SegmentEntry Num SP E}.
Context (display_id : PointIdType → string).
Context (try_lock : SegmentId → bool) (choose : list SegmentId → option SegmentId).
Abbreviation Holder := (SegmentHolder E).
Abbreviation Upd := (sm Holder CollectionError).
Abbreviation Operation := (CollectionUpdateOperations (Num:=Num)).
Abbreviation collection_update := (SegmentsUpdater.update (SP:=SP) display_id try_lock choose).

(** ** The update worker *)

(** A callback is known by its number. *)
Inductive UpdateSignal : Type :=
| SOperation (op_num : SeqNumberType) (operation : Operation) (sender : option nat)
| SStop
| SNop
| SPlunger (callback_sender : nat).

Inductive OptimizerSignal : Type :=
| OOperation (op_num : SeqNumberType)
| OStop
| ONop.

Record Worker := mkWorker {
  w_segments : Holder;
  w_optimizer : list OptimizerSignal; (* sent and not received *)
  w_feedback : list (nat * CollectionResult nat); (* what the callbacks were told *)
  w_running : bool;
}.

Definition send_optimizer (alive : bool) (signal : OptimizerSignal) (w : Worker) : Worker :=
  if alive then mkWorker (w_segments w) (w_optimizer w ++ [signal]) (w_feedback w) (w_running w) else w.

Definition stop_worker (w : Worker) : Worker := mkWorker (w_segments w) (w_optimizer w) (w_feedback w) false.

(** One signal of [update_worker_fn].  A panic ends the worker and drops the
    callback; the end of the loop sends [Stop] once more. *)
Definition update_worker_fn (alive : bool) (signal : UpdateSignal) (w : Worker) : Worker :=
  match signal with
  | SOperation op_num operation sender =>
      let '(r, h) := collection_update op_num operation (w_segments w) in
      let w := mkWorker h (w_optimizer w) (w_feedback w) (w_running w) in
      let '(res, w) :=
        match r with
        | Ok update_res =>
            if alive then (Ok update_res, send_optimizer alive (OOperation op_num) w)
            else (Err (CServiceError "Can't reach one of the workers: channel closed"), w)
        | Err e => (Err e, w)
        | Panic => (Err (CServiceError "channel closed"), stop_worker w)
        end in
      match sender with
      | Some feedback => mkWorker (w_segments w) (w_optimizer w) (w_feedback w ++ [(feedback, res)]) (w_running w)
      | None => w
      end
  | SStop => stop_worker (send_optimizer alive OStop (send_optimizer alive OStop w))
  | SNop => send_optimizer alive ONop w
  | SPlunger callback_sender =>
      mkWorker (w_segments w) (w_optimizer w) (w_feedback w ++ [(callback_sender, Ok 0)]) (w_running w)
  end.

(** ** Recovery *)

(** [try_recover]: everything from the first failed operation on. *)
Definition try_recover (wal : SerdeWal Operation) : Upd nat :=
  h ← sm_get;
  _ ← match elements (failed_operation h) with
      | [] => mret tt
      | n :: l => sm_for (λ p, p ← sm_lift p; _ ← collection_update p.1 p.2; mret tt) (wal_read (foldr N.min n l) wal)
      end;
  mret 0.

(** [load_from_wal]: only an internal error stops it. *)
Definition load_operation (p : N * Operation) : Upd unit := λ h,
  match collection_update p.1 p.2 h with
  | (Err (CServiceError _), h) | (Panic, h) => (Panic, h)
  | (_, h) => (Ok tt, h)
  end.

(** [unwrap] *)
Definition unwrap_update {A} (m : Upd A) : Upd A := λ h,
  match m h with
  | (Ok a, h) => (Ok a, h)
  | (_, h) => (Panic, h)
  end.

Definition load_from_wal (wal : SerdeWal Operation) : Upd unit :=
  _ ← sm_for (λ p, p ← sm_lift p; load_operation p) (wal_read_all wal);
  _ ← unwrap_update (run_holder display_id tt (flush_all (Num:=Num) (SP:=SP) true));
  mret tt.

(** ** Updates of a local shard *)

Record LocalState := mkLocal {
  l_wal : SerdeWal Operation;
  l_queue : list UpdateSignal; (* the channel to the worker *)
  l_worker : Worker;
  l_callbacks : nat; (* made so far *)
}.

(** The part of [update] that holds the lock of the log: the operation is
    written and sent, so that the channel has the order of the log.  A place in
    the channel may not be had ([reserved]) and the entry may not be written
    ([logged]); then nothing is sent. *)
Definition submit (reserved logged : CollectionResult unit) (operation : Operation) (wait : bool) (s : LocalState) :
    CollectionResult (N * option nat) * LocalState :=
  let sender := if wait then Some (l_callbacks s) else None in
  let s := mkLocal (l_wal s) (l_queue s) (l_worker s) (l_callbacks s + Nat.b2n wait) in
  match reserved, logged with
  | Ok _, Ok _ =>
      let '(operation_id, wal) := wal_write operation (l_wal s) in
      (Ok (operation_id, sender),
       mkLocal wal (l_queue s ++ [SOperation operation_id operation sender]) (l_worker s) (l_callbacks s))
  | Ok _, Err e | Err e, _ => (Err e, s)
  | Ok _, Panic | Panic, _ => (Panic, s)
  end.

(** What [update] answers, once its callback was told. *)
Definition update_answer (operation_id : N) (sender : option nat) (s : LocalState) : option (CollectionResult UpdateResult) :=
  match sender with
  | None => Some (Ok (mkUpdateResult (Z.of_N operation_id) Acknowledged))
  | Some callback =>
      match list_find (λ p, p.1 = callback) (w_feedback (l_worker s)) with
      | Some (_, (_, Ok _)) => Some (Ok (mkUpdateResult (Z.of_N operation_id) Completed))
      | Some (_, (_, Err e)) => Some (Err e)
      | Some (_, (_, Panic)) => Some Panic
      | None => None
      end
  end.

(** The worker receives a signal. *)
Definition receive (alive : bool) (s : LocalState) : LocalState :=
  match l_queue s with
  | signal :: queue =>
      if w_running (l_worker s)
      then mkLocal (l_wal s) queue (update_worker_fn alive signal (l_worker s)) (l_callbacks s) else s
  | [] => s
  end.

(** *** Clients and the worker, in any order *)

Inductive LocalAction : Type :=
| ASubmit (reserved logged : CollectionResult unit) (operation : Operation) (wait : bool)
| AReceive (alive : bool).

(** What the submissions that did not fail returned, the last first. *)
Definition local_act (a : LocalAction) (st : list (N * option nat) * LocalState) : list (N * option nat) * LocalState :=
  match a with
  | ASubmit reserved logged operation wait =>
      match submit reserved logged operation wait st.2 with
      | (Ok r, s) => (r :: st.1, s)
      | (_, s) => (st.1, s)
      end
  | AReceive alive => (st.1, receive alive st.2)
  end.

Definition local_run (l : list LocalAction) (s : LocalState) : list (N * option nat) * LocalState :=
  fold_left (λ st a, local_act a st) l ([], s).

Definition apply_log (l : list (N * Operation)) (h : Holder) : Holder :=
  fold_left (λ h p, (collection_update p.1 p.2 h).2) l h.

Definition signal_entry (signal : UpdateSignal) : option (N * Operation) :=
  match signal with SOperation n operation _ => Some (n, operation) | _ => None end.
Definition signal_callback (signal : UpdateSignal) : option nat :=
  match signal with SOperation _ _ sender => sender | _ => None end.

(** An answer is about the operation with that number, applied in its turn. *)
Definition told (h0 : Holder) (applied : list (N * Operation)) (n : N) (res : CollectionResult nat) : Prop :=
  ∃ operation pre post, applied = pre ++ (n, operation) :: post ∧
    match res with
    | Ok k => (collection_update n operation (apply_log pre h0)).1 = Ok k
    | _ => True
    end.

Record local_ok (h0 : Holder) (base : nat) (subs : list (N * option nat)) (s : LocalState) (applied : list (N * Operation)) : Prop := {
  lo_log : imap (λ i op, (wal_first (l_wal s) + N.of_nat (i + base), op)%N) (drop base (wal_entries (l_wal s)))
           = applied ++ omap signal_entry (l_queue s);
  lo_queue : Forall (λ signal, is_Some (signal_entry signal)) (l_queue s);
  lo_base : base ≤ length (wal_entries (l_wal s));
  lo_segments : w_segments (l_worker s) = apply_log applied h0;
  lo_callbacks : NoDup ((w_feedback (l_worker s)).*1 ++ omap signal_callback (l_queue s));
  lo_bound c : c ∈ (w_feedback (l_worker s)).*1 ++ omap signal_callback (l_queue s) → c < l_callbacks s;
  lo_subs n c : (n, Some c) ∈ subs →
    (∃ op, SOperation n op (Some c) ∈ l_queue s) ∨ ∃ res, (c, res) ∈ w_feedback (l_worker s) ∧ told h0 applied n res;
}.

Lemma worker_operation alive n operation sender w :
  let w' := update_worker_fn alive (SOperation n operation sender) w in
  let run := collection_update n operation (w_segments w) in
  w_segments w' = run.2 ∧ (run.1 ≠ Panic → w_running w' = w_running w) ∧
  ∃ res, w_feedback w' = w_feedback w ++ (match sender with Some c => [(c, res)] | None => [] end) ∧
    match res with Ok k => run.1 = Ok k | _ => True end.
Proof using.
  cbn. destruct (SegmentsUpdater.update _ _ _ n operation (w_segments w)) as [[k|e|] h]; cbn.
  - destruct sender; [|by destruct alive; cbn; (split_and!; [done|done|exists Panic; by rewrite app_nil_r])].
    destruct alive; cbn; (split_and!; [done|done|by eexists; split]).
  - destruct sender; cbn; (split_and!; [done|done|]); [by eexists; split|exists Panic; by rewrite app_nil_r].
  - destruct sender; cbn; (split_and!; [done|done|]); [by eexists; split|exists Panic; by rewrite app_nil_r].
Qed.

Lemma submit_ok h0 base subs s applied reserved logged operation wait :
  local_ok h0 base subs s applied →
  let st := local_act (ASubmit reserved logged operation wait) (subs, s) in local_ok h0 base st.1 st.2 applied.
Proof using.
  intros [Hlog Hq Hbase Hseg Hnd Hb Hsubs]. cbn [local_act fst snd].
  assert (∀ r : CollectionResult unit, r = Ok tt ∨ r ≠ Ok tt) as Hcase by (intros [[]|e|]; [by left|by right..]).
  assert (reserved = Ok tt ∧ logged = Ok tt ∨ (reserved ≠ Ok tt ∨ logged ≠ Ok tt)) as [[-> ->]|Hfail]
    by (destruct (Hcase reserved), (Hcase logged); tauto).
  2: { assert (∃ r, submit reserved logged operation wait s = (r, mkLocal (l_wal s) (l_queue s) (l_worker s) (l_callbacks s + Nat.b2n wait)) ∧
         ∀ x, r ≠ Ok x) as (r & -> & Hr).
       { unfold submit. destruct reserved as [[]|e|], logged as [[]|e'|]; try (eexists; by split). by destruct Hfail. }
       assert (local_ok h0 base subs (mkLocal (l_wal s) (l_queue s) (l_worker s) (l_callbacks s + Nat.b2n wait)) applied) as Hok.
       { split; cbn; try done. intros c Hc. specialize (Hb c Hc). lia. }
       destruct r as [x|e|]; [by destruct (Hr x)|done|done]. }
  split; cbn.
  - rewrite drop_app_le, imap_app, Hlog, omap_app, <-app_assoc by done. do 2 f_equal. cbn. do 2 f_equal.
    unfold wal_next. rewrite length_drop. lia.
  - apply Forall_app. split; [done|]. apply Forall_singleton. by eexists.
  - rewrite length_app. lia.
  - done.
  - rewrite omap_app. destruct wait; cbn; [|by rewrite app_nil_r]. rewrite app_assoc. apply NoDup_app.
    split; [done|]. split; [|apply NoDup_singleton]. intros c Hc ->%list_elem_of_singleton. specialize (Hb _ Hc). lia.
  - intros c. rewrite omap_app, app_assoc, elem_of_app. intros [Hc|Hc]; [specialize (Hb c Hc); lia|].
    destruct wait; cbn in Hc; [apply list_elem_of_singleton in Hc; cbn; lia|by apply not_elem_of_nil in Hc].
  - intros n c [Heq|Hin]%elem_of_cons.
    + left. exists operation. destruct wait; [|done]. injection Heq as -> ->. apply elem_of_app. right. left.
    + destruct (Hsubs n c Hin) as [[op Hop]|?]; [left; exists op; apply elem_of_app; by left|by right].
Qed.

Lemma told_app h0 applied x n res : told h0 applied n res → told h0 (applied ++ [x]) n res.
Proof using. intros (op & pre & post & -> & H). exists op, pre, (post ++ [x]). by rewrite <-app_assoc. Qed.

Lemma apply_log_app l l' h : apply_log (l ++ l') h = apply_log l' (apply_log l h).
Proof using. apply fold_left_app. Qed.

Lemma receive_ok h0 base subs s applied alive :
  local_ok h0 base subs s applied → ∃ applied', local_ok h0 base subs (receive alive s) applied'.
Proof using.
  intros [Hlog Hq Hbase Hseg Hnd Hb Hsubs]. unfold receive. destruct (l_queue s) as [|sig q] eqn:Hqueue.
  { exists applied. split; rewrite ?Hqueue; done. }
  destruct (w_running (l_worker s)); [|exists applied; split; rewrite ?Hqueue; done].
  apply Forall_cons in Hq as [Hsig Hq]. destruct sig as [n op sender| | |]; [|by destruct Hsig..].
  destruct (worker_operation alive n op sender (l_worker s)) as (Hs & _ & res & Hf & Hres).
  exists (applied ++ [(n, op)]). split; cbn [l_wal l_queue l_worker l_callbacks].
  - rewrite <-app_assoc. apply Hlog.
  - done.
  - done.
  - rewrite Hs, Hseg, apply_log_app. done.
  - rewrite Hf, fmap_app, <-app_assoc. cbn in Hnd. by destruct sender.
  - intros c. rewrite Hf, fmap_app, <-app_assoc. intros Hc. apply Hb. cbn. by destruct sender.
  - intros m c Hm. rewrite Hf. destruct (Hsubs m c Hm) as [[op' [Heq|Hop]%elem_of_cons]|(res' & Hr & Ht)].
    + injection Heq as -> -> <-. right. exists res. split; [apply elem_of_app; right; left|].
      exists op, applied, []. split; [done|]. rewrite <-Hseg. exact Hres.
    + left. by exists op'.
    + right. exists res'. split; [apply elem_of_app; by left|by apply told_app].
Qed.

Definition fresh_local (s : LocalState) : Prop :=
  l_queue s = [] ∧ w_feedback (l_worker s) = [].

Lemma local_run_ok l s0 :
  fresh_local s0 → ∃ applied, local_ok (w_segments (l_worker s0)) (length (wal_entries (l_wal s0))) (local_run l s0).1 (local_run l s0).2 applied.
Proof using.
  intros [Hq Hf]. unfold local_run.
  assert (∀ st applied, local_ok (w_segments (l_worker s0)) (length (wal_entries (l_wal s0))) st.1 st.2 applied →
    ∃ applied', local_ok (w_segments (l_worker s0)) (length (wal_entries (l_wal s0)))
      (fold_left (λ st a, local_act a st) l st).1 (fold_left (λ st a, local_act a st) l st).2 applied') as Hgen.
  { induction l as [|a l IH]; intros [subs s] applied Hok; [by exists applied|]. cbn. destruct a as [reserved logged op wait|alive].
    - apply (IH _ applied). exact (submit_ok _ _ subs s applied reserved logged op wait Hok).
    - destruct (receive_ok _ _ subs s applied alive Hok) as [applied' Hok']. by apply (IH _ applied'). }
  apply (Hgen _ []). split; cbn; rewrite ?Hq, ?Hf; cbn; try done; [by rewrite drop_all|apply NoDup_nil_2|..].
  - intros c Hc. by apply not_elem_of_nil in Hc.
  - intros n c Hc. by apply not_elem_of_nil in Hc.
Qed.

Lemma feedback_found (l : list (nat * CollectionResult nat)) c res :
  NoDup l.*1 → (c, res) ∈ l → ∃ i, list_find (λ p, p.1 = c) l = Some (i, (c, res)).
Proof using.
  intros Hnd Hin. destruct (list_find (λ p, p.1 = c) l) as [[i [c' res']]|] eqn:Hf.
  - apply list_find_Some in Hf as (Hi & Hc & _). cbn in Hc. subst c'. exists i. do 3 f_equal.
    apply list_elem_of_lookup_2, (elem_of_list_to_map_1 (M:=gmap nat)) in Hi; [|done].
    apply (elem_of_list_to_map_1 (M:=gmap nat)) in Hin; [congruence|done].
  - apply list_find_None in Hf. rewrite Forall_forall in Hf. by destruct (Hf _ Hin).
Qed.

(** *** Answers *)

Fixpoint receives (alive : bool) (k : nat) (s : LocalState) : LocalState :=
  match k with 0 => s | S k => receives alive k (receive alive s) end.

Lemma receive_stopped alive s : w_running (l_worker s) = false → receive alive s = s.
Proof using. intros Hs. unfold receive. rewrite Hs. by destruct (l_queue s). Qed.

Lemma receives_stopped alive k s : w_running (l_worker s) = false → receives alive k s = s.
Proof using. intros Hs. induction k as [|k IH]; [done|]. cbn. by rewrite receive_stopped. Qed.

Lemma receives_drain alive k s :
  w_running (l_worker (receives alive k s)) = true → length (l_queue s) ≤ k → l_queue (receives alive k s) = [].
Proof using.
  revert s. induction k as [|k IH]; cbn; intros s Hrun Hlen; [by destruct (l_queue s); [|cbn in Hlen; lia]|].
  apply IH; [done|]. destruct (w_running (l_worker s)) eqn:Hr.
  - unfold receive. rewrite Hr. destruct (l_queue s) as [|sig q] eqn:Hq; cbn in *; [rewrite Hq; cbn; lia|lia].
  - rewrite receive_stopped, receives_stopped in Hrun by done. congruence.
Qed.

Lemma receives_ok h0 base subs s applied alive k :
  local_ok h0 base subs s applied → ∃ applied', local_ok h0 base subs (receives alive k s) applied'.
Proof using.
  revert s applied. induction k as [|k IH]; intros s applied Hok; [by exists applied|].
  destruct (receive_ok _ _ _ _ _ alive Hok) as [applied' Hok']. by apply (IH _ applied').
Qed.

(** What the answers say. *)
Lemma answers_own h0 base subs s applied n c r :
  local_ok h0 base subs s applied → (n, Some c) ∈ subs → update_answer n (Some c) s = Some (Ok r) →
  r = mkUpdateResult (Z.of_N n) Completed ∧
  ∃ operation pre post k, applied = pre ++ (n, operation) :: post ∧ (collection_update n operation (apply_log pre h0)).1 = Ok k.
Proof using.
  intros Hok Hin. unfold update_answer.
  pose proof (lo_callbacks _ _ _ _ _ Hok) as Hnd. destruct (lo_subs _ _ _ _ _ Hok n c Hin) as [[op Hop]|(res & Hr & Ht)].
  - destruct (list_find _ _) as [[i [c' res]]|] eqn:Hf; [|done]. apply list_find_Some in Hf as (Hi & Hc & _). cbn in Hc. subst c'.
    exfalso. apply NoDup_app in Hnd as (_ & Hdis & _). apply (Hdis c).
    + apply list_elem_of_lookup_2, (list_elem_of_fmap_2 fst) in Hi. exact Hi.
    + apply list_elem_of_omap. by eexists.
  - apply NoDup_app in Hnd as (Hnd & _ & _). destruct (feedback_found _ c res Hnd Hr) as [i ->].
    destruct res as [k|e|]; [|done..]. intros [= <-]. split; [done|]. destruct Ht as (op & pre & post & -> & Hk). by exists op, pre, post, k.
Qed.

Lemma all_answered h0 base subs s applied alive n sender :
  local_ok h0 base subs s applied → w_running (l_worker (receives alive (length (l_queue s)) s)) = true → (n, sender) ∈ subs →
  is_Some (update_answer n sender (receives alive (length (l_queue s)) s)).
Proof using.
  intros Hok Hrun Hin. destruct sender as [c|]; [|by eexists].
  destruct (receives_ok _ _ _ _ _ alive (length (l_queue s)) Hok) as [applied' Hok'].
  pose proof (receives_drain alive (length (l_queue s)) s Hrun ltac:(lia)) as Hq.
  destruct (lo_subs _ _ _ _ _ Hok' n c Hin) as [[op Hop]|(res & Hr & _)].
  { rewrite Hq in Hop. by apply not_elem_of_nil in Hop. }
  pose proof (lo_callbacks _ _ _ _ _ Hok') as (Hnd & _ & _)%NoDup_app.
  unfold update_answer. destruct (feedback_found _ c res Hnd Hr) as [i ->]. destruct res; by eexists.
Qed.

(** C11: a local shard applies its log, and a waiting client hears of its own
    operation.  Clients submit operations and the worker receives them in any
    order; a submission may also fail, and then writes and sends nothing.  The
    operations written to the log, each with its number, are those the worker
    has applied, in this order, followed by those still in the channel, and the
    segments are what applying the former gives.  A waiting update that is
    answered with success is answered [Completed] with its own number, after
    its operation was applied with success in its turn.  And every waiting
    client is answered: once the worker has received as many more signals as
    there are in the channel, and no operation has made it panic, every waiting
    update has an answer. *)
Theorem updates_follow_log (l : list LocalAction) (s0 : LocalState) (Hfresh : fresh_local s0) :
  let '(subs, s) := local_run l s0 in
  let base := length (wal_entries (l_wal s0)) in
  (∃ applied,
    imap (λ i op, (wal_first (l_wal s) + N.of_nat (i + base), op)%N) (drop base (wal_entries (l_wal s)))
      = applied ++ omap signal_entry (l_queue s) ∧
    w_segments (l_worker s) = apply_log applied (w_segments (l_worker s0)) ∧
    ∀ n c r, (n, Some c) ∈ subs → update_answer n (Some c) s = Some (Ok r) →
      r = mkUpdateResult (Z.of_N n) Completed ∧
      ∃ operation pre post k, applied = pre ++ (n, operation) :: post ∧
        (collection_update n operation (apply_log pre (w_segments (l_worker s0)))).1 = Ok k) ∧
  ∀ alive, let s' := receives alive (length (l_queue s)) s in
    w_running (l_worker s') = true → ∀ n sender, (n, sender) ∈ subs → is_Some (update_answer n sender s').
Proof using.
  destruct (local_run_ok l s0 Hfresh) as [applied Hok]. destruct (local_run l s0) as [subs s]. cbn in Hok. cbn zeta. split.
  - exists applied. split_and!; [apply Hok|apply Hok|]. intros n c r Hin Ha. by eapply answers_own.
  - intros alive Hrun n sender Hin. by eapply all_answered.
Qed.
End local_update.

(** ** New points of an operation that is replayed *)

Section lost_insert.
Context {Num T VI VS PI SP : Type} `{!EqDecision Num} `{!JsonNumber Num} {HG : GeoOps} {HS : Simd} {HSL : SimdLaws}.
Context `{!IdTracker T, !IdTrackerLaws T} `{!VectorStorage VS, !VectorStorageLaws VS}.
Context `{!PayloadIndex Num T PI, !PayloadIndexLaws Num T PI} `{!VectorIndex T VS PI SP VI}.
Context (display_id : PointIdType → string) (segment_path : string) (outcome background : FlushStep → OperationResult unit).
Context (try_lock : SegmentId → bool) (choose : list SegmentId → option SegmentId).
Abbreviation Seg := (Segment T VI VS PI).
#[local] Existing Instance segment_entry.
#[local] Existing Instance segment_entry_laws.
#[local] Instance lost_entry : SegmentEntry Num SP Seg := segment_entry (SP:=SP) display_id segment_path outcome background.

(** A newer segment takes the insertion of a point for one it has seen. *)
Lemma insert_skipped n e vs (payload : option (Payload Num)) (s : Seg) v :
  seg_error_status s = None → seg_version s = Some v → (n < v)%N → internal_id (seg_id_tracker s) e = None →
  check_vectors_set vs (seg_config s) = Ok tt →
  upsert_with_payload (SP:=SP) n e vs payload s = (Ok false, s).
Proof using.
  intros Hes Hv Hn He Hvs. assert (∀ op, handle_version_and_failure display_id n None op s = (Ok false, s)) as Hskip.
  { intros op. unfold handle_version_and_failure, handle_and_record, handle_version. rewrite Hes, Hv. cbn.
    rewrite (proj2 (N.ltb_lt _ _)) by done. cbn. unfold recover_error. by rewrite Hes. }
  unfold upsert_with_payload, mbind, sm_bind. cbn [se_upsert_vector lost_entry segment_entry].
  unfold upsert_vector, mbind, sm_bind, sm_get, sm_lift. rewrite Hvs, He, Hskip. destruct payload as [p|]; [|done].
  cbn [se_set_full_payload lost_entry segment_entry]. unfold set_full_payload, update_payload, mbind, sm_bind, sm_get.
  by rewrite He, Hskip.
Qed.

(** C14: recovery can lose a point.  A shard has several segments that take
    writes, and they reach the disk separately.  Operation [n] inserted a point
    in one of them, which was not saved before a crash, while another was saved
    at a newer version.  When [n] is applied again the point is in no segment,
    so it goes to a segment chosen at random.  If that is the newer one, it
    takes the operation for one it has seen: the update succeeds and every
    segment is as it was, so the point stays lost. *)
Theorem replayed_insert_lost (n v : SeqNumberType) (p : PointStruct (Num:=Num)) (h : SegmentHolder Seg) idx (s : Seg)
  (Hwf : ∀ id s, segments h !! id = Some s → seg_wf s ∧ abs_point s (pst_id p) = None)
  (Hidx : choose (appendable_segments (Num:=Num) (SP:=SP) h) = Some idx) (Hs : segments h !! idx = Some s)
  (Hes : seg_error_status s = None) (Hv : seg_version s = Some v) (Hn : (n < v)%N)
  (Hvs : check_vectors_set (get_vectors p) (seg_config s) = Ok tt) :
  ∃ h', SegmentsUpdater.update (SP:=SP) display_id try_lock choose n (PointOperation (UpsertPoints (PointsList [p]))) h = (Ok 0, h') ∧
    segments h' = segments h.
Proof using HSL VectorStorageLaws0.
  assert (points_map [p] = {[ pst_id p := p ]}) as Hpm by done.
  assert ((map_to_list (points_map [p])).*1 = [pst_id p]) as Hids by (by rewrite Hpm, map_to_list_singleton).
  assert (replayed (SP:=SP) n h [pst_id p]) as Hrep.
  { split; [intros id s' Hs'; by apply (Hwf id)|]. intros id e pt ->%list_elem_of_singleton Hc. unfold copy in Hc.
    destruct (segments h !! id) as [s'|] eqn:Hs'; [|done]. destruct (Hwf id s' Hs') as [_ Hnone]. cbn in Hc. congruence. }
  assert (upsert_points (SP:=SP) display_id try_lock choose n [p] h = (Ok 0, h)) as Hup.
  { pose proof (replay_points_wp (SP:=SP) n try_lock choose (upsert_point (SP:=SP) (points_map [p]) n) [pst_id p] h Hrep) as Hwp.
    unfold sm_wp in Hwp. unfold upsert_points, mbind, sm_bind. cbn zeta. rewrite Hids. unfold SegmentsUpdater.run_op at 1.
    destruct (apply_points_to_appendable _ _ _ _ _ h) as [[A|e|] h1]; [|done..]. destruct Hwp as [-> HA].
    assert (A = ∅) as ->.
    { apply set_eq. intros e. rewrite HA, list_elem_of_singleton. split; [|set_solver]. intros [-> [id [pt Hc]]]. exfalso.
      apply (copy_segment (SP:=SP)) in Hc as (s' & Hs' & Hpt). destruct (Hwf id s' Hs') as [_ Hnone]. cbn in Hpt. congruence. }
    assert (random_appendable_segment (Num:=Num) (SP:=SP) choose h = Some idx) as Hr.
    { unfold random_appendable_segment. rewrite Hidx. cbn. by rewrite decide_True by eauto. }
    assert (on_segment idx (upsert_point (SP:=SP) (points_map [p]) n (pst_id p)) (h, tt) = (Ok false, (h, tt))) as Hon.
    { unfold on_segment, with_segment, sm_zoom. cbn [fst snd]. rewrite Hs. unfold upsert_point, mbind, sm_bind, sm_lift.
      rewrite Hpm, lookup_singleton_eq. cbn [unwrap fst snd].
      rewrite (insert_skipped n (pst_id p) (get_vectors p) (pst_payload p) s v); try done.
      - unfold set_segments. cbn. rewrite insert_id by done. by destruct h.
      - destruct (Hwf idx s Hs) as [_ Hnone]. unfold abs_point, core_point in Hnone. by destruct (internal_id _ _). }
    unfold sm_get. rewrite Hr, filter_cons_True, filter_nil by set_solver. unfold mret, sm_ret, run_holder. cbn [sm_fold].
    unfold mbind, sm_bind. by rewrite Hon. }
  unfold SegmentsUpdater.update, process_point_operation, mbind, sm_bind, sm_lift. cbn [insert_points]. rewrite Hup.
  eexists. split; [done|]. unfold handle_update_result. by case_decide.
Qed.
End lost_insert.

(** ** Witnesses *)

Import SampleInstances.

(** A shard after a crash: segment 1 was saved at version 4, segment 2 was not;
    the log still has operation 3, which inserted point 9. *)
Definition crashed_holder : SegmentHolder SampleSeg :=
  mkHolder (<[1%N := sample_segment]> {[ 2%N := empty_segment ]}) ∅ None.
Definition lost_point : PointStruct (Num:=Z) := mkPointStruct (NumId 9) (VSingle [f32_one; f32_one]) None.
Definition insert_lost : CollectionUpdateOperations (Num:=Z) := PointOperation (UpsertPoints (PointsList [lost_point])).
Definition choose_first (l : list SegmentId) : option SegmentId := if decide (1%N ∈ l) then Some 1%N else head l.

Lemma replayed_insert_lost_witness :
  ∃ h', SegmentsUpdater.update (SP:=unit) no_display (λ _, true) choose_first 3 insert_lost crashed_holder = (Ok 0, h') ∧
    segments h' = segments crashed_holder ∧
    let run := load_from_wal (SP:=unit) no_display (λ _, true) choose_first (mkSerdeWal 3 [insert_lost]) crashed_holder in
    run.1 = Ok tt ∧ ∀ id, id ∈ [1%N; 2%N] → copy (Num:=Z) (SP:=unit) run.2 id (NumId 9) = None.
Proof.
  assert (let run := load_from_wal (SP:=unit) no_display (λ _, true) choose_first (mkSerdeWal 3 [insert_lost]) crashed_holder in
    run.1 = Ok tt ∧ ∀ id, id ∈ [1%N; 2%N] → copy (Num:=Z) (SP:=unit) run.2 id (NumId 9) = None) as Hload.
  { split; [vm_compute; reflexivity|]. intros id [->|[->|[]%not_elem_of_nil]%elem_of_cons]%elem_of_cons; vm_compute; reflexivity. }
  assert (∃ h', SegmentsUpdater.update (SP:=unit) no_display (λ _, true) choose_first 3 insert_lost crashed_holder = (Ok 0, h') ∧
    segments h' = segments crashed_holder) as (h' & Hu & Hh').
  { apply (replayed_insert_lost (SP:=unit) no_display "segment" (λ _, Ok tt) (λ _, Ok tt) (λ _, true) choose_first 3 4 lost_point
      crashed_holder 1%N sample_segment).
    - intros id s. unfold crashed_holder. cbn [segments]. rewrite lookup_insert_Some, lookup_singleton_Some.
      intros [[_ <-]|(_ & _ & <-)]; (split; [apply sample_segment_wf || apply empty_segment_wf|vm_compute; reflexivity]).
    - vm_compute. reflexivity.
    - reflexivity.
    - vm_compute. reflexivity.
    - vm_compute. reflexivity.
    - reflexivity.
    - vm_compute. reflexivity. }
  exists h'. split_and!; [exact Hu|exact Hh'|exact Hload].
Defined.

(** Two clients: one waits, one does not; between them, one whose entry is not
    written.  The worker gets to the first. *)
Definition idle_local : LocalState (Num:=Z) (E:=SampleSeg) :=
  mkLocal (mkSerdeWal 4 []) [] (mkWorker (mkHolder {[ 2%N := empty_segment ]} ∅ None) [] [] true) 0.
Definition two_clients : list (LocalAction (Num:=Z)) := 
  [ASubmit (Ok tt) (Ok tt) insert_lost true; ASubmit (Ok tt) (Err (CServiceError "disk full")) insert_lost true;
   ASubmit (Ok tt) (Ok tt) insert_lost false; AReceive true].

Lemma updates_follow_log_witness :
  let run := local_run (SP:=unit) no_display (λ _, true) head two_clients idle_local in
  let s' := receives (SP:=unit) no_display (λ _, true) head true 1 run.2 in
  run.1 = [(5%N, None); (4%N, Some 0)] ∧ update_answer 4 (Some 0) run.2 = Some (Ok (mkUpdateResult 4 Completed)) ∧
  (∃ applied operation pre post k,
    w_segments (l_worker run.2) = apply_log (SP:=unit) no_display (λ _, true) head applied (w_segments (l_worker idle_local)) ∧
    applied = pre ++ (4%N, operation) :: post ∧
    (SegmentsUpdater.update (SP:=unit) no_display (λ _, true) head 4 operation
      (apply_log (SP:=unit) no_display (λ _, true) head pre (w_segments (l_worker idle_local)))).1 = Ok k) ∧
  w_running (l_worker s') = true ∧ is_Some (update_answer 4 (Some 0) s').
Proof.
  intros run s'. assert (run.1 = [(5%N, None); (4%N, Some 0)]) as Hsubs by (vm_compute; reflexivity).
  assert (update_answer 4 (Some 0) run.2 = Some (Ok (mkUpdateResult 4 Completed))) as Ha by (vm_compute; reflexivity).
  assert (length (l_queue run.2) = 1) as Hq by (vm_compute; reflexivity).
  assert (w_running (l_worker s') = true) as Hrun by (vm_compute; reflexivity).
  split; [exact Hsubs|]. split; [exact Ha|]. subst s'.
  pose proof (updates_follow_log (SP:=unit) no_display (λ _, true) head two_clients idle_local (conj eq_refl eq_refl)) as H.
  fold run in H. destruct run as [subs s]. cbn [fst snd] in *. cbn zeta in H. rewrite Hq in H.
  destruct H as [(applied & _ & Hseg & Hans) Hall]. split.
  - destruct (Hans 4%N 0 (mkUpdateResult 4 Completed)) as (_ & op & pre & post & k & Happ & Hk); [rewrite Hsubs; right; left|exact Ha|].
    exists applied, op, pre, post, k. split; [exact Hseg|]. split; [exact Happ|exact Hk].
  - split; [exact Hrun|]. apply Hall; [exact Hrun|]. rewrite Hsubs. right. left.
Defined.
